(* ===== verification/_CoqProject ===== *)
-Q . S2P
Prelude.v
GoStrings.v
Runes.v
Secrets.v
Scanner.v
ControlSnapshot.v
Types.v
Journal.v
WorkerSup.v
BackendSpec.v
ClaimStore.v
MemoryBackend.v
MemorySafety.v
FaultInject.v
RedisLocal.v
Fencing.v
ProtocolModel.v
Simulation.v
Drain.v
Replay.v
AntiReplay.v
StateGraph.v
Config.v
Inspect.v
Coordinator.v
EventBus.v
Handoff.v
Lifecycle.v
ResourceID.v
Dependency.v
Registry.v
ResourceView.v
ObjectStore.v
Paths.v
ExecGuard.v
Filesystem.v
RateLimiter.v
HttpService.v
ResourceLease.v
AcquireAll.v
AuditLog.v
Lockdown.v
Guard.v
TextCodec.v
WorkflowDef.v
WorkflowStore.v
WorkflowEngine.v
WorkflowSafety.v
WorkflowProps.v
Signing.v
Capability.v
Barrier.v
Budget.v
SyncPrim.v
Election.v
Maintenance.v
Command.v
Security.v
Runtime.v
Supervise.v
TextRecord.v
Kubernetes.v
Redis.v
FencedStores.v
Postgres.v
Migration.v
SyncEngine.v
ConfigLock.v
Redteam.v
Failover.v
Playbook.v
Reconcile.v
Bundles.v
GenCache.v
Adapters.v
DualWrite.v
Promotion.v
HealthGraph.v
RuntimeBuild.v
Gates.v
