(* ===== verification/Prelude.v ===== *)
(** * ShiftLock: a verification library

    ShiftLock coordinates generations of a service: at any time one generation
    holds a claim, with a fencing token that grows at each change of owner, and a
    handoff moves the claims of one generation to its successor.  Around this core
    the repository has a fabric of resources and leases, a workflow engine,
    capability tokens, coordination primitives, and a control plane that a runtime
    ties together.  This library translates these parts into definitions that
    compute, and proves what makes them correct.

    ** Parts of the program and where they are

    - [Prelude] (this file): machine integers, time, files as [os.WriteFile]
      leaves them, executions of a step relation, tactics and hints.  [GoStrings], [Runes], [Paths] and [TextCodec]
      hold the pieces of text handling the code relies on: the digit loop of [itoa];
      byte strings with UTF-8 decoding, [TrimSpace], [Split], sorting; runes and lower
      case; [filepath.Clean], [Join] and [Rel]; printers and readers from which concrete
      instances of [encoding/json] are built.
    - [Types]: data of the root package ([state.go], [errors.go], [generation.go],
      [ownership.go], [backend.go], [capabilities.go]).
    - [BackendSpec]: the interface [Backend] as a class of operations
      ([BackendOps]) with its laws ([BackendLaws]); the specification is one cell
      per claim (owner, token, phase, successor) and the steps it may take.
      [ClaimStore]: what the two in-process stores share.
    - [MemoryBackend] ([backend/memory/memory.go]): each handler is split at the
      mutex, [X_locked] being the part under the second lock; the instance
      [memory_laws] discharges the interface.  [MemorySafety]: its executions, any
      interleaving of critical sections with faults and expiries.
    - [RedisLocal] ([backend/redis/local.go]): the second instance, [local_laws].
    - [TextRecord]: claim records as text, shared by the next two.  [Kubernetes]
      ([backend/kubernetes]) and [Redis] ([backend/redis/redis.go], [ops.go]): handlers
      as programs of calls to an external server, which is a class with the documented
      laws of resource versions, or of atomic scripts and of the numbers of Lua and
      [cjson].  The second half of either file: any number of processes, their calls
      interleaved one by one, failing before or after they take effect.
    - [Postgres] ([backend/postgres]): tables, statements and transactions with
      failures, then the third instance of the interface, [pg_laws].
    - [FaultInject] ([backend/faultinject]): the decorator that delays, fails and loses
      responses, an instance of the interface over any other ([decorated_laws]).
    - [Fencing] ([fencing.go], [fencing/memory]): the compare-and-swap loop of
      [Accept] one atomic access at a time; a fenced resource joined to any
      backend.  [FencedStores] ([fencing/redis], [fencing/postgres]): the script and the
      statement that implement it on a server.
    - [ProtocolModel] ([model/]): the repository's own model, its invariant checker
      and generator.  [Simulation] ([internal/testclock],
      [internal/simulation/scenario.go]): the clock, the scheduler of scenarios and the
      bridge to the model.
    - [Drain] ([drain.go]), [Replay] ([anti_replay.go]), [AntiReplay]
      ([security/antireplay]), [StateGraph] ([internal/stategraph]), [Config]
      ([config.go], [policy.go], [capabilities.go]).
    - [Coordinator] ([coordinator.go], [claim.go]) and [Handoff] ([handoff.go]),
      over any [BackendOps]; [Handoff] also has their theorems, proved against
      [BackendLaws] while other processes act on the backend between any two
      calls.  [Lifecycle] adds construction, the wait for ownership, the worker loop,
      health and split-brain reports ([coordinator.go], [claim.go], [health.go]);
      [EventBus] ([event.go]) the bounded channel of events with its dispatcher.
    - [Gates] ([readiness.go]): readiness gates and sets of them.
    - [ResourceID] ([resource/id.go], [kind.go], [epoch.go], [capabilities.go],
      [errors.go]), [Dependency] ([resource/dependency.go]), [Registry]
      ([resource/registry.go]), [ResourceLease] ([resource/lease.go]), [AcquireAll]
      ([resource/acquire.go]), [Bundles] ([resource/bundle.go]), [ResourceView]
      ([resource/health.go], [drift.go], [evidence.go], [snapshot.go], [memory/]),
      [GenCache] ([resource/cache]), [HealthGraph]
      ([health/]).
    - The adapters of resources: [Adapters] (the in-process queue; database, Redis
      cache, queue and memory cache), [HttpService] ([resource/service/http]), [RateLimiter]
      ([resource/ratelimit], with doubles as [SpecFloat]), [Filesystem]
      ([resource/storage/filesystem]) and [ObjectStore] ([resource/storage/object]).
    - Operations built on the registry and the engine: [Failover] ([failover/]),
      [Promotion] ([promotion/]), [Migration]
      ([migration/migration.go]), [DualWrite] ([migration/dualwrite]), [SyncEngine]
      ([sync/]), [ConfigLock] ([configlock/]), [Playbook] ([recovery/playbook]) and
      [Reconcile] ([reconcile/]).
    - [WorkflowDef] ([workflow/definition.go], [state.go], [errors.go]),
      [WorkflowStore] ([workflow/store.go], three stores over one interface),
      [WorkflowEngine] ([workflow/engine.go], a state monad whose environment
      answers by the whole history of the run).  [WorkflowSafety] has the abstract
      machine and the step invariants, [WorkflowProps] the
      theorems on runs.
    - [Signing] ([security/signing]) and [Capability]
      ([capability/]), with Ed25519 and [encoding/json] as classes of operations and
      laws.  [Secrets] ([secrets/]): references, redaction, rotation.  [Scanner]
      ([security/scanner], [security/attestation]).  [Redteam] ([security/redteam]): the
      attacks of the suite as calls of the models of the components they are aimed at.
    - [Barrier] ([barrier/]), [Budget] ([budget/]), [SyncPrim] ([syncprim/]) and
      [Election] ([election/]), the last two over the classes [FencedClaims] and
      [FencedLock] of what they call; [Supervise] ([supervise/]); [WorkerSup]
      ([internal/supervisor]).
    - [AuditLog] ([audit/audit.go]), [Lockdown] ([control/lockdown]),
      [Maintenance] ([control/maintenance]), [Command] ([control/command]),
      [ExecGuard] ([control/execguard]), [ControlSnapshot] ([control/snapshot]), [Guard]
      ([guard/guard.go]), [Security] ([security.go]), [Journal] ([journal/]).
    - [Runtime] ([runtime.go]): the gates of the control plane, quarantine, the
      audit trail, flood detection and capability issue over the components above, and
      its claims adapter over the coordinator; [RuntimeBuild]: its
      construction out of the components, also [runtime_fabric.go], its health and
      [Close].
    - [Inspect] ([cmd/shiftlock-inspect]): the explanation of a journal, incident
      bundles, the readiness report and the recovery commands.

    The coordinator calls the backend and the drain group and follows the state
    graph; the fenced resource trusts only tokens; the registry calls identifiers
    and the dependency graph; the lease manager reads the registry; the engine
    calls a store and its hooks; capabilities are signed by a key ring; the
    runtime owns an authority, an audit log, a lockdown manager, a maintenance
    manager and a command registry whose authorizer and auditor it is; semaphores
    and elections use the runtime's claims.

    ** What is shown

    - Ownership in the memory backend: one owner per token, stale requests without
      effect, and, when no fault is pending, retries that return the recorded answer
      and a handoff that succeeds (C1 to C4).  [Accept] is
      linearizable and a replaced owner cannot write (C5, C6).
    - The external backends: on Kubernetes no two generations are told they hold a
      claim at one token, and every step follows the specification (C7, C8); the same
      exclusion for Redis as long as numbers are written in full (C9), while with the
      precision [cjson] documents no call ever succeeds (C10); on a freshly
      migrated PostgreSQL database no claim is ever handed out (C11).
    - The repository's model: its invariants hold in disciplined executions (C12).
    - A path that the filesystem adapter resolves lies below its root, and exactly the
      paths that would leave it are refused (C13).
    - Handoffs: a transfer followed by a commit that reports success fences the old
      generation out of every claim it held, an aborted one restores it, draining
      quiesces, and readiness is decided by the required gates after a bounded number
      of attempts (C14 to C17).
    - Workflows: every run refines an abstract machine; actions are called only
      when dependencies, gates and epochs allow, and at most once where a step must
      not be retried; compensation goes in reverse; the journal survives a crash in
      the middle of a write (C18 to C22).  A built definition is well formed (C24).
    - A worker is started only under a local lease, after its gates have passed; the
      backend has confirmed the ownership when the lease is new (C23).
    - Operations: a migration cuts over only after its verification, in the order of
      its script; a configuration goes through every stage and at most one is active;
      synchronisation converges (C25 to C27).
    - Capabilities: uses are bounded, revoked, expired and superseded tokens stay
      dead, an accepted token was minted by the authority, delegation narrows (C28
      to C31); a signature verifies as long as its key is trusted (C32).
    - Runtime: the gates that quarantine and the modes fail-closed, full-service and
      isolate-claims close stay closed and let nothing through, and auditing returns
      exactly when the log can be written again (C33, C34).
    - A request whose response was lost is recovered by sending it again (C35);
      a participant of an election leads only on the lock's answers to its own calls
      (C36).
    - Resource fabric and control: exclusive leases are exclusive and stay until they
      expire or are released; a guard starts only commands its policy lists; a
      health report is free of issues exactly when it is well formed (C37 to C39).
    - Lockdown stays in force until an authorized unlock is written, also through
      restarts while the state file can be read and no such unlock has failed on it
      (C40).

    Further theorems stand beside these without a number: the local Redis backend,
    PostgreSQL and Redis against the specification, token overflow, replay windows and
    nonces, registry order and guards, identifiers, all-or-nothing leases, the audit
    chain, authorization rules, rates of commands, barriers, budgets, maintenance
    windows, restarts and live runs of supervised tasks, canonical JSON, profiles,
    failover groups, bundles, playbooks, reconcilers, cache generations, queues, dual
    writes, impact plans; the activation order of dependencies, the step order of
    workflows, semaphores, the refinement of the specification by the model; faults,
    fenced stores, events, construction and closing of the runtime, pages of objects,
    atomic replacement of files, bursts, circuits and idempotency of HTTP calls,
    redaction, snapshots and their differences, scans, journals, clocks, scenarios,
    shutdown, signatures as text, reports of adapters and of the operator toolkit, and
    that every attack of the red-team suite is stopped.
    Lemmas named in the findings exhibit concrete executions in which the code
    departs from its documentation.

    ** Conventions, bounds and fuel

    [uint64] and [int64] are integers with the wrap-around written out ([u64],
    [i64]); a [time.Time] is a number of nanoseconds, zero being the zero time,
    without the saturation of [time.Time].  A method under a mutex is one step of
    a step relation; what happens between two critical sections is other steps.
    Clock readings, contexts, random choices and answers of lockdown checkers are
    arguments.  Values returned by pointer are copies where the code copies.

    - [itoa_loop] has room for 20 digits, the array of the source; a [uint64] needs
      at most 20 ([itoa_loop_u64]).
    - [kahn] and [topo_loop] run at most as many rounds as there are nodes;
      [kahn_spec] and the equivalence of the two show the bound is not hit.
    - [trim_left] and [trim_right] have the length of the text as fuel; each round
      drops a byte or ends.
    - [parallel_loop] of the workflow engine has one round per step; every round
      finishes a step or ends the run.
    - [acquire_loop] counts the slots of the semaphore down, as the source counts
      up.
    - [auditAction] and [EnterQuarantine] call each other without a bound; the
      model has fuel and [None] for a call that does not return, and it is shown
      exactly when enough fuel exists.
    - [run_rounds] of the supervisor takes one input per round; the number of
      rounds that suffices is part of its theorem.
    - [Start] and [Resume] of a migration call each other at most once; fuel 2 is
      enough when nobody interferes ([start_returns]).
    - [visit] of the health graph has the number of edges plus two as fuel, more than
      the longest path; [search] one round per edge and one for the start; both are
      shown to return.  [gate_loop] has [max_attempts] rounds, also shown to suffice.
    - [drain_bus] needs one round more than there are queued events, [pages] one call
      more than there are objects, [align_epoch] the number of epochs to go; each is
      part of the theorem.  [wait_loop] and [Wait] take one input per round.
    - [catch_up] of the test clock has fuel for the lag of a ticker; [enough] computes
      it, and a ticker without a period is shown to need more than any.  [diffMaps] has
      the depth of the document.  [exchange_sort] has the length of the list.
    - [Redis] counts steps: a token has at most fourteen digits for the first
      10^14 steps.  The concrete [exp10] has fuel for numbers of 400 digits.
    - The token and clock arithmetic of [ProtocolModel] is at 64 bits; its
      invariant theorem is stated for clocks below 2^60.

    ** Not modelled

    Goroutine scheduling beyond interleaving; the command-line programs other than the
    logic of [shiftlock-inspect], which parse flags and print; the contract,
    certification and load suites, which check on examples what is proved here for all
    inputs; identity providers, integrations with servers and brokers, and observers,
    which forward to packages outside the repository; HTTP handlers of health reports;
    the examples.  Message text of errors is left out where nothing depends on it.  The
    hash of the audit log and of configurations, Ed25519, [encoding/json], the API
    server, the SQL driver, the Lua engine, operating-system calls, HTTP servers and
    processes are parameters or inputs with their documented laws, and concrete
    instances where a theorem relies on them. *)

From stdpp Require Export base gmap strings list fin_maps.
From Stdlib Require Export ZArith Lia.

#[global] Open Scope Z_scope.

(** ** Notation

    Go code updates a record field by field; [r |> set_a x |> set_b y] reads in
    the same order as the assignments. *)

Declare Scope shiftlock_scope.
Notation "x |> f" := (f x)
  (at level 61, left associativity, only parsing) : shiftlock_scope.
#[global] Open Scope shiftlock_scope.

(** ** Machine integers *)

(** [uint64] values are kept as [Z]; every arithmetic result is reduced. *)
Definition u64_modulus : Z := 2 ^ 64.

Definition u64 (z : Z) : Z := z mod u64_modulus.

Definition is_u64 (z : Z) : Prop := 0 <= z < u64_modulus.

#[global] Instance is_u64_dec z : Decision (is_u64 z).
Proof. unfold is_u64. solve_decision. Defined.

(** [int64] ([time.Duration], [int]) wraps around the signed range. *)
Definition i64 (z : Z) : Z := (z + 2 ^ 63) mod 2 ^ 64 - 2 ^ 63.

Definition is_i64 (z : Z) : Prop := - 2 ^ 63 <= z < 2 ^ 63.

#[global] Instance is_i64_dec z : Decision (is_i64 z).
Proof. unfold is_i64. solve_decision. Defined.

Lemma u64_small z : is_u64 z -> u64 z = z.
Proof. intros H. by apply Z.mod_small. Qed.

Lemma u64_range z : is_u64 (u64 z).
Proof. by apply Z.mod_pos_bound. Qed.

Lemma i64_small z : is_i64 z -> i64 z = z.
Proof.
  unfold is_i64, i64. intros H.
  rewrite Z.mod_small by lia. lia.
Qed.

Lemma i64_range z : is_i64 (i64 z).
Proof.
  unfold is_i64, i64.
  pose proof (Z.mod_pos_bound (z + 2 ^ 63) (2 ^ 64) ltac:(lia)). lia.
Qed.

(** ** Time

    A [time.Time] is a number of nanoseconds; the zero [time.Time] is [0].  A
    [time.Duration] is an [int64] number of nanoseconds. *)
Abbreviation Time := Z (only parsing).
Abbreviation Duration := Z (only parsing).

Definition time_zero : Time := 0.

Definition IsZero (t : Time) : bool := bool_decide (t = time_zero).

(** [t.After(u)], [t.Before(u)] and [t.Add(d)]. *)
Definition After (t u : Time) : bool := bool_decide (u < t).

Definition Before (t u : Time) : bool := bool_decide (t < u).

Definition Add (t : Time) (d : Duration) : Time := t + d.

Definition Nanosecond : Duration := 1.
Definition Millisecond : Duration := 1000000.
Definition Second : Duration := 1000 * Millisecond.
Definition Minute : Duration := 60 * Second.
Definition Hour : Duration := 60 * Minute.

(** ** Files that are written as a whole

    [os.WriteFile] truncates the file, writes and closes it.  It can fail before the
    file is opened, which leaves it as it was; on the way, which leaves a beginning
    that is not the JSON of anything; or at the end, with the whole content written. *)
Inductive file (A : Type) := Absent | Damaged | Holds (a : A).
Arguments Absent {A}.
Arguments Damaged {A}.
Arguments Holds {A} a.

Inductive write_result := Wrote | NotOpened | TornWrite | LateError.

(** The file afterwards, and whether the call succeeded. *)
Definition WriteFile {A} (w : write_result) (a : A) (f : file A) : file A * bool :=
  match w with
  | Wrote => (Holds a, true)
  | NotOpened => (f, false)
  | TornWrite => (Damaged, false)
  | LateError => (Holds a, false)
  end.

(** ** Executions

    Finite executions of a step relation, used to lift one-step facts. *)
Section Executions.
Context {S : Type} (step : S -> S -> Prop).

Inductive steps : S -> S -> Prop :=
| steps_refl s : steps s s
| steps_cons s1 s2 s3 : step s1 s2 -> steps s2 s3 -> steps s1 s3.

Lemma steps_one s1 s2 : step s1 s2 -> steps s1 s2.
Proof. intros H. eapply steps_cons; [exact H | constructor]. Qed.

Lemma steps_app s1 s2 s3 : steps s1 s2 -> steps s2 s3 -> steps s1 s3.
Proof. induction 1; eauto using steps. Qed.

(** An invariant of single steps is an invariant of executions. *)
Lemma steps_invariant (P : S -> Prop) :
  (forall s s', P s -> step s s' -> P s') ->
  forall s s', steps s s' -> P s -> P s'.
Proof. intros Hp s s' H. induction H; eauto. Qed.

(** A reflexive, transitive relation kept by steps that start in an invariant
    relates the two ends of an execution. *)
Lemma steps_relation (P : S -> Prop) (R : S -> S -> Prop) :
  (forall s, R s s) ->
  (forall a b c, R a b -> R b c -> R a c) ->
  (forall s s', P s -> step s s' -> P s' /\ R s s') ->
  forall s s', steps s s' -> P s -> R s s'.
Proof.
  intros Hr Ht Hs s s' H.
  induction H as [|s1 s2 s3 H1 _ IH]; intros HP; [apply Hr |].
  destruct (Hs _ _ HP H1) as [HP2 HR]. eauto.
Qed.
End Executions.

(** ** Lists *)

Lemma filter_all {A} (P : A -> Prop) `{!forall x, Decision (P x)} l : Forall P l -> filter P l = l.
Proof. induction 1 as [|x l Hx _ IH]; [done |]. by rewrite filter_cons, decide_True, IH. Qed.

Lemma bind_nil {A B} (f : A -> list B) l : l ≫= f = [] <-> forall x, x ∈ l -> f x = [].
Proof.
  induction l as [|a l IH]; simpl; [split; [by intros _ x ?%elem_of_nil | done] |]. split.
  - intros [H1 H2]%app_eq_nil x [->|Hx]%elem_of_cons; [done | by apply IH].
  - intros H. rewrite (H a) by left. apply IH. intros x Hx. apply H. by right.
Qed.

(** ** Tactics *)

(** Destruct every [match]/[if] scrutinee the goal or a hypothesis is stuck on,
    keeping the equations. *)
Ltac split_match :=
  repeat (case_match || case_decide || case_bool_decide); simplify_eq/=.

(** Invert a pair equation produced by a state-passing definition. *)
Ltac inv_pair :=
  repeat match goal with
  | H : (_, _) = (_, _) |- _ => injection H; clear H; intros; subst
  | H : Some _ = Some _ |- _ => injection H; clear H; intros; subst
  end.

Ltac destr_ex :=
  repeat match goal with
  | H : exists x, _ |- _ => let y := fresh x in destruct H as [y H]
  | H : _ /\ _ |- _ => let H1 := fresh H in destruct H as [H H1]
  end.

(** Discharge a closed hypothesis of a witness by evaluation. *)
Ltac by_eval :=
  vm_compute; (reflexivity || discriminate || (split; (reflexivity || discriminate))).

(** ** Hints *)

Create HintDb shiftlock.
#[export] Hint Resolve u64_range i64_range steps_one : shiftlock.
#[export] Hint Constructors steps : shiftlock.
