(* ===== verification/GoStrings.v ===== *)
(** * Texts as Go has them

    Strings as sequences of bytes with what the source uses of the packages [strings],
    [strconv], [sort] and [fmt].  First decimal text: the digit loop that [itoa] ([model/generator.go]) and [itoa64]
    ([coordinator.go]) share, and the function that reads its output back. *)

From S2P Require Import Prelude.

(** The digit loop of [itoa] and [itoa64] writes at [b[i]] from the end of a 20-byte array;
    [None] is the out-of-range index it would panic with. *)
Fixpoint itoa_loop (room : nat) (n : Z) (acc : string) : option string :=
  if bool_decide (n <= 0) then Some acc
  else match room with
       | O => None
       | S room =>
           itoa_loop room (n / 10)
             (String (Ascii.ascii_of_N (Z.to_N (48 + n mod 10))) acc)
       end.

(** Reading digits from the left, starting from [k]. *)
Fixpoint decimal (k : Z) (s : string) : Z :=
  match s with
  | EmptyString => k
  | String c s => decimal (10 * k + (Z.of_N (Ascii.N_of_ascii c) - 48)) s
  end.

Lemma digit_value d :
  0 <= d < 10 -> Z.of_N (Ascii.N_of_ascii (Ascii.ascii_of_N (Z.to_N (48 + d)))) - 48 = d.
Proof. intros Hd. rewrite Ascii.N_ascii_embedding by lia. lia. Qed.

Lemma itoa_loop_ok room n acc :
  0 <= n < 10 ^ Z.of_nat room ->
  exists s, itoa_loop room n acc = Some s /\ decimal 0 s = decimal n acc /\
    (String.length s <= room + String.length acc)%nat.
Proof.
  revert n acc. induction room as [|room IH]; intros n acc Hn; simpl.
  - rewrite bool_decide_eq_true_2 by lia. exists acc. assert (n = 0) as -> by (simpl in Hn; lia).
    split; [done | split; [done | lia]].
  - case_bool_decide as H0.
    { exists acc. assert (n = 0) as -> by lia. split; [done | split; [done | lia]]. }
    pose proof (Z.mod_pos_bound n 10 ltac:(lia)) as Hm.
    destruct (IH (n / 10) (String (Ascii.ascii_of_N (Z.to_N (48 + n mod 10))) acc))
      as (s & Es & Ds & Ls).
    { rewrite Nat2Z.inj_succ, Z.pow_succ_r in Hn by lia. split; [by apply Z.div_pos; lia |].
      apply Z.div_lt_upper_bound; lia. }
    exists s. split; [done |]. split; [|simpl in Ls; lia].
    rewrite Ds. cbn [decimal]. rewrite digit_value by lia.
    f_equal. pose proof (Z.div_mod n 10 ltac:(lia)). lia.
Qed.

(** Every [uint64] fits in the 20 bytes. *)
Lemma itoa_loop_u64 n :
  is_u64 n -> exists s, itoa_loop 20 n "" = Some s /\ decimal 0 s = n /\ (String.length s <= 20)%nat.
Proof.
  intros Hn. destruct (itoa_loop_ok 20 n "") as (s & Es & Ds & Ls);
    [unfold is_u64, u64_modulus in Hn; simpl; lia |].
  exists s. split; [done |]. split; [done | simpl in Ls; lia].
Qed.

(** ** [%d]

    [fmt.Sprintf("%d", n)] for an [n] that is not negative and below 10^20, and
    the value [fmt.Sscanf(s, "%d", &v)] leaves in a [uint64] or an [int64] that was
    zero: the number at the start of the text, zero when there is none or it is
    out of range.  (Blanks before the number, which [Sscanf] skips and [Sprintf]
    never writes, are not looked at.) *)
Definition fmt_d (n : Z) : string :=
  if bool_decide (n = 0) then "0" else default "" (itoa_loop 20 n "").

Definition fmt_i (n : Z) : string := if bool_decide (n < 0) then "-" +:+ fmt_d (- n) else fmt_d n.

Definition ord (c : Ascii.ascii) : Z := Z.of_N (Ascii.N_of_ascii c).

Definition is_digit (c : Ascii.ascii) : bool := bool_decide (48 <= ord c <= 57).

Fixpoint digits (s : string) : string :=
  match s with
  | EmptyString => EmptyString
  | String c t => if is_digit c then String c (digits t) else EmptyString
  end.

Definition scan_u64 (s : string) : Z :=
  let d := digits s in
  if bool_decide (d = "") then 0
  else let v := decimal 0 d in if bool_decide (v < u64_modulus) then v else 0.

Definition scan_i64 (s : string) : Z :=
  let '(neg, t) := match s with
    | String c t => if bool_decide (ord c = 45) then (true, t) else if bool_decide (ord c = 43) then (false, t) else (false, s)
    | EmptyString => (false, s)
    end in
  let d := digits t in
  if bool_decide (d = "") then 0
  else let v := if neg : bool then - decimal 0 d else decimal 0 d in
       if bool_decide (is_i64 v) then v else 0.

Lemma digit_char d : 0 <= d < 10 -> is_digit (Ascii.ascii_of_N (Z.to_N (48 + d))) = true.
Proof.
  intros Hd. unfold is_digit, ord. rewrite Ascii.N_ascii_embedding by lia. apply bool_decide_eq_true. lia.
Qed.

Lemma itoa_loop_digits room n acc s :
  itoa_loop room n acc = Some s -> digits acc = acc -> digits s = s.
Proof.
  revert n acc. induction room as [|room IH]; intros n acc; simpl; case_bool_decide; intros E Ha; simplify_eq; try done.
  apply (IH _ _ E). simpl. rewrite digit_char, Ha by (apply Z.mod_pos_bound; lia). done.
Qed.

Lemma fmt_d_spec n : is_u64 n -> digits (fmt_d n) = fmt_d n /\ fmt_d n ≠ "" /\ decimal 0 (fmt_d n) = n.
Proof.
  intros Hn. unfold fmt_d. case_bool_decide as H0; [by subst |].
  destruct (itoa_loop_u64 n Hn) as (s & Es & Ds & _). rewrite Es. simpl.
  split; [by eapply itoa_loop_digits |]. split; [|done]. intros ->. simpl in Ds. congruence.
Qed.

Lemma scan_fmt_u64 n : is_u64 n -> scan_u64 (fmt_d n) = n.
Proof.
  intros Hn. destruct (fmt_d_spec n Hn) as (Hd & Hne & Hv). unfold scan_u64. rewrite Hd, Hv.
  rewrite bool_decide_eq_false_2 by done. rewrite bool_decide_eq_true_2; [done |]. apply Hn.
Qed.

Lemma scan_u64_range s : is_u64 (scan_u64 s).
Proof.
  unfold scan_u64. case_bool_decide; [split; unfold u64_modulus; lia |].
  case_bool_decide; [|split; unfold u64_modulus; lia]. split; [|done].
  assert (forall t k, 0 <= k -> digits t = t -> 0 <= decimal k t) as Hp.
  { induction t as [|c t IH]; intros k Hk; [done |]. simpl. destruct (is_digit c) eqn:Ec; [|done].
    intros [= Ht]. apply IH; [|done]. unfold is_digit, ord in Ec. apply bool_decide_eq_true in Ec. lia. }
  apply Hp; [done |]. clear. induction s as [|c s IH]; [done |]. simpl.
  destruct (is_digit c) eqn:Ec; [|done]. simpl. rewrite Ec. congruence.
Qed.

Lemma fmt_d_first n : is_u64 n -> exists c t, fmt_d n = String c t /\ is_digit c = true.
Proof.
  intros Hn. destruct (fmt_d_spec n Hn) as (Hd & Hne & _). destruct (fmt_d n) as [|c t]; [done |].
  exists c, t. split; [done |]. simpl in Hd. by destruct (is_digit c).
Qed.

Lemma scan_fmt_i64 n : is_i64 n -> scan_i64 (fmt_i n) = n.
Proof.
  intros Hn. unfold fmt_i. case_bool_decide as H0.
  - assert (is_u64 (- n)) as Hu by (unfold is_u64, is_i64, u64_modulus in *; lia).
    destruct (fmt_d_spec (- n) Hu) as (Hd & Hne & Hv). unfold scan_i64, "+:+". cbn [String.append]. rewrite bool_decide_eq_true_2 by done. rewrite Hd, Hv, bool_decide_eq_false_2 by done.
    rewrite Z.opp_involutive. by rewrite bool_decide_eq_true_2.
  - assert (is_u64 n) as Hu by (unfold is_u64, is_i64, u64_modulus in *; lia).
    destruct (fmt_d_spec n Hu) as (Hd & Hne & Hv). destruct (fmt_d_first n Hu) as (c & t & E & Hc).
    unfold scan_i64. rewrite E in *.
    unfold is_digit in Hc. apply bool_decide_eq_true in Hc.
    rewrite (bool_decide_eq_false_2 (ord c = 45)), (bool_decide_eq_false_2 (ord c = 43)) by lia.
    rewrite Hd, Hv, bool_decide_eq_false_2 by done. by rewrite bool_decide_eq_true_2.
Qed.

(** ** Go strings as byte sequences

    A Go string is a sequence of bytes, and [for _, r := range s] decodes it as
    UTF-8.  This file has the parts of [unicode/utf8], [unicode] and [strings] the
    resource fabric uses: rune decoding from either end, [unicode.IsSpace],
    [strings.TrimSpace], [strings.Split] at a slash, suffixes, hexadecimal text and
    [sort.Strings].  Its main fact is [runes_app]: decoding is self-synchronising at
    every byte that starts a rune. *)

From Stdlib Require Import Ascii.
From stdpp Require Import sorting.

#[local] Open Scope Z_scope.

(** ** Bytes and runes *)

Abbreviation bytes := (list ascii) (only parsing).

Definition byte (c : ascii) : Z := Z.of_N (N_of_ascii c).

Definition RuneError : Z := 65533.

Definition in_range (lo hi z : Z) : bool := bool_decide (lo <= z) && bool_decide (z <= hi).

(** [utf8.RuneStart]: any byte but a continuation byte. *)
Definition RuneStart (c : ascii) : bool := negb (in_range 128 191 (byte c)).

(** The table [first] of [unicode/utf8]: the length of a sequence that starts
    with this byte and the range of its second byte. *)
Definition first (b : Z) : option (nat * Z * Z) :=
  if in_range 0 127 b then Some (1%nat, 0, 0)
  else if in_range 194 223 b then Some (2%nat, 128, 191)
  else if in_range 224 224 b then Some (3%nat, 160, 191)
  else if in_range 225 236 b then Some (3%nat, 128, 191)
  else if in_range 237 237 b then Some (3%nat, 128, 159)
  else if in_range 238 239 b then Some (3%nat, 128, 191)
  else if in_range 240 240 b then Some (4%nat, 144, 191)
  else if in_range 241 243 b then Some (4%nat, 128, 191)
  else if in_range 244 244 b then Some (4%nat, 128, 143)
  else None.

Definition low6 (c : ascii) : Z := Z.land (byte c) 63.

(** [utf8.DecodeRune]: the first rune and its width. *)
Definition DecodeRune (bs : bytes) : Z * nat :=
  match bs with
  | [] => (RuneError, 0%nat)
  | c0 :: t0 =>
    match first (byte c0) with
    | None => (RuneError, 1%nat)
    | Some (sz, lo, hi) =>
      if bool_decide (sz = 1%nat) then (byte c0, 1%nat) else
      match t0 with
      | [] => (RuneError, 1%nat)
      | c1 :: t1 =>
        if negb (in_range lo hi (byte c1)) then (RuneError, 1%nat)
        else if bool_decide (sz = 2%nat) then
          (Z.lor (Z.shiftl (Z.land (byte c0) 31) 6) (low6 c1), 2%nat)
        else
        match t1 with
        | [] => (RuneError, 1%nat)
        | c2 :: t2 =>
          if negb (in_range 128 191 (byte c2)) then (RuneError, 1%nat)
          else if bool_decide (sz = 3%nat) then
            (Z.lor (Z.lor (Z.shiftl (Z.land (byte c0) 15) 12) (Z.shiftl (low6 c1) 6))
               (low6 c2), 3%nat)
          else
          match t2 with
          | [] => (RuneError, 1%nat)
          | c3 :: _ =>
            if negb (in_range 128 191 (byte c3)) then (RuneError, 1%nat)
            else
              (Z.lor (Z.lor (Z.lor (Z.shiftl (Z.land (byte c0) 7) 18) (Z.shiftl (low6 c1) 12))
                 (Z.shiftl (low6 c2) 6)) (low6 c3), 4%nat)
          end
        end
      end
    end
  end.

(** [range s]: [skip] bytes of the current rune are still to be passed over. *)
Fixpoint runes_from (skip : nat) (bs : bytes) : list Z :=
  match bs with
  | [] => []
  | _ :: t =>
    match skip with
    | S k => runes_from k t
    | O => let '(r, w) := DecodeRune bs in r :: runes_from (w - 1) t
    end
  end.

Definition runes (bs : bytes) : list Z := runes_from 0 bs.

Definition range (s : string) : list Z := runes (String.list_ascii_of_string s).

(** The search of [DecodeLastRune] for the start of the last rune: at most
    three bytes back from the last one. *)
Fixpoint last_start (bs : bytes) (steps_left start : nat) : nat :=
  match steps_left, start with
  | O, _ => start
  | S _, O => O
  | S k, S p =>
    match bs !! p with
    | Some c => if RuneStart c then p else last_start bs k p
    | None => p
    end
  end.

(** [utf8.DecodeLastRune]. *)
Definition DecodeLastRune (bs : bytes) : Z * nat :=
  let end_ := length bs in
  match bs !! (end_ - 1)%nat with
  | None => (RuneError, 0%nat)
  | Some c =>
    if bool_decide (byte c < 128) then (byte c, 1%nat)
    else
      let start := last_start bs 3 (end_ - 1) in
      let '(r, size) := DecodeRune (drop start bs) in
      if bool_decide ((start + size)%nat = end_) then (r, size) else (RuneError, 1%nat)
  end.

(** [unicode.IsSpace]. *)
Definition IsSpace (r : Z) : bool :=
  in_range 9 13 r || bool_decide (r = 32) || bool_decide (r = 133) || bool_decide (r = 160) ||
  bool_decide (r = 5760) || in_range 8192 8202 r || bool_decide (r = 8232) ||
  bool_decide (r = 8233) || bool_decide (r = 8239) || bool_decide (r = 8287) ||
  bool_decide (r = 12288).

(** [strings.TrimLeftFunc] and [strings.TrimRightFunc] with [unicode.IsSpace];
    every round drops at least one byte. *)
Fixpoint trim_left (fuel : nat) (bs : bytes) : bytes :=
  match fuel with
  | O => bs
  | S k =>
    if bool_decide (bs = []) then bs else
    let '(r, w) := DecodeRune bs in
    if IsSpace r then trim_left k (drop w bs) else bs
  end.

Fixpoint trim_right (fuel : nat) (bs : bytes) : bytes :=
  match fuel with
  | O => bs
  | S k =>
    if bool_decide (bs = []) then bs else
    let '(r, w) := DecodeLastRune bs in
    if IsSpace r then trim_right k (take (length bs - w) bs) else bs
  end.

Definition TrimSpace (s : string) : string :=
  let bs := String.list_ascii_of_string s in
  let l := trim_left (length bs) bs in
  String.string_of_list_ascii (trim_right (length l) l).

(** [strings.Split(s, "/")]. *)
Definition slash : ascii := "/"%char.

Fixpoint Split_slash (s : string) : list string :=
  match s with
  | EmptyString => [EmptyString]
  | String c t =>
    if bool_decide (c = slash) then EmptyString :: Split_slash t
    else match Split_slash t with
         | [] => [String c EmptyString]
         | h :: r => String c h :: r
         end
  end.

(** [strings.Contains(s, "/")]. *)
Fixpoint has_slash (s : string) : bool :=
  match s with
  | EmptyString => false
  | String c t => bool_decide (c = slash) || has_slash t
  end.

(** [strings.TrimSuffix(s, suf)] when [strings.HasSuffix(s, suf)]. *)
Fixpoint strip_suffix (suf s : string) : option string :=
  if bool_decide (s = suf) then Some EmptyString
  else match s with
       | EmptyString => None
       | String c t => match strip_suffix suf t with Some p => Some (String c p) | None => None end
       end.

(** [strings.Contains(s, string(c))]. *)
Fixpoint contains_byte (c : ascii) (s : string) : bool :=
  match s with
  | EmptyString => false
  | String d t => bool_decide (d = c) || contains_byte c t
  end.

(** [strings.Contains(s, sub)]. *)
Fixpoint contains_sub (sub s : string) : bool :=
  String.prefix sub s || match s with EmptyString => false | String _ t => contains_sub sub t end.

(** [hex.EncodeToString]. *)
Definition hex_digit (d : Z) : ascii :=
  ascii_of_N (Z.to_N (if bool_decide (d < 10) then 48 + d else 87 + d)).

Fixpoint hex_encode (bs : bytes) : string :=
  match bs with
  | [] => EmptyString
  | b :: t =>
    String (hex_digit (Z.shiftr (byte b) 4)) (String (hex_digit (Z.land (byte b) 15)) (hex_encode t))
  end.

(** [sort.Strings]. *)
Definition sort_strings : list string -> list string := merge_sort String.le.

(** ** Decoding *)

Lemma in_range_spec lo hi z : in_range lo hi z = true <-> lo <= z <= hi.
Proof. unfold in_range. rewrite andb_true_iff, !bool_decide_eq_true. lia. Qed.

Lemma in_range_false lo hi z : in_range lo hi z = false <-> ~ (lo <= z <= hi).
Proof. rewrite <- in_range_spec. destruct (in_range lo hi z); naive_solver. Qed.

Lemma DecodeRune_width c t : (1 <= (DecodeRune (c :: t)).2 <= S (length t))%nat.
Proof.
  unfold DecodeRune. repeat case_match; simplify_eq/=; lia.
Qed.

Lemma first_second_byte b sz lo hi :
  first b = Some (sz, lo, hi) -> sz ≠ 1%nat -> 128 <= lo /\ hi <= 191.
Proof. unfold first. intros H Hs. repeat case_match; simplify_eq; lia. Qed.

(** A byte outside the continuation range is never read as a continuation. *)
Lemma not_continuation c lo hi :
  RuneStart c = true -> 128 <= lo -> hi <= 191 -> in_range lo hi (byte c) = false.
Proof.
  unfold RuneStart. rewrite negb_true_iff, !in_range_false. lia.
Qed.

(** A byte sequence at which decoding may start afresh. *)
Definition starts (bs : bytes) : Prop := forall c t, bs = c :: t -> RuneStart c = true.

Lemma DecodeRune_app c t b :
  starts b -> DecodeRune ((c :: t) ++ b) = DecodeRune (c :: t).
Proof.
  intros Hb. change ((c :: t) ++ b) with (c :: (t ++ b)). cbn [DecodeRune].
  destruct (first (byte c)) as [[[sz lo] hi]|] eqn:Hf; [|done].
  destruct (bool_decide_reflect (sz = 1%nat)) as [|Hsz]; [done |].
  destruct (first_second_byte _ _ _ _ Hf Hsz) as [Hlo Hhi].
  destruct b as [|d b]; [by rewrite app_nil_r |].
  pose proof (Hb d b eq_refl) as Hd.
  destruct t as [|c1 [|c2 [|c3 t]]]; simpl; try done.
  - by rewrite (not_continuation d lo hi) by done.
  - by rewrite (not_continuation d 128 191) by done.
  - by rewrite (not_continuation d 128 191) by done.
Qed.

Lemma runes_from_drop k bs : runes_from k bs = runes (drop k bs).
Proof.
  revert k. induction bs as [|c t IH]; intros [|k]; try done. apply IH.
Qed.

(** One round of [range]. *)
Lemma runes_step c t :
  runes (c :: t) = (DecodeRune (c :: t)).1 :: runes (drop (DecodeRune (c :: t)).2 (c :: t)).
Proof.
  pose proof (DecodeRune_width c t) as Hw. unfold runes at 1. cbn [runes_from].
  destruct (DecodeRune (c :: t)) as [r w]. cbn [fst snd] in *.
  rewrite runes_from_drop. destruct w; [lia |]. simpl. by rewrite Nat.sub_0_r.
Qed.

(** Decoding of a concatenation splits where the second part starts a rune. *)
Lemma runes_app a b : starts b -> runes (a ++ b) = runes a ++ runes b.
Proof.
  intros Hb. remember (length a) as n eqn:Hn. revert a Hn.
  induction n as [n IH] using lt_wf_ind; intros [|c t] ->; [done |].
  change (((c :: t) ++ b)) with (c :: (t ++ b)). rewrite (runes_step c (t ++ b)), (runes_step c t).
  change (c :: (t ++ b)) with ((c :: t) ++ b). rewrite (DecodeRune_app c t b Hb).
  pose proof (DecodeRune_width c t) as Hw.
  rewrite drop_app_le by (simpl in *; lia). simpl app. f_equal.
  eapply IH; [|done]. rewrite length_drop. simpl in *. lia.
Qed.

(** ** Trimming *)

Definition no_space (bs : bytes) : Prop := Forall (fun r => IsSpace r = false) (runes bs).

Lemma IsSpace_RuneError : IsSpace RuneError = false.
Proof. reflexivity. Qed.

Lemma trim_left_id fuel bs : no_space bs -> trim_left fuel bs = bs.
Proof.
  destruct fuel as [|k]; [done |]. intros H. simpl. case_bool_decide; [done |].
  destruct bs as [|c t]; [done |]. unfold no_space in H. rewrite runes_step in H.
  destruct (DecodeRune (c :: t)) as [r w]. apply Forall_cons_1 in H as [H _]. simpl in H. by rewrite H.
Qed.

(** A byte that starts no sequence decodes as [RuneError]. *)
Lemma DecodeRune_start c t :
  (DecodeRune (c :: t)).1 ≠ RuneError -> RuneStart c = true.
Proof.
  unfold DecodeRune, RuneStart. destruct (first (byte c)) as [[[sz lo] hi]|] eqn:Hf; [|done].
  intros _. apply negb_true_iff, in_range_false. intros Hc. revert Hf. unfold first.
  repeat case_match; repeat match goal with
    | H : in_range _ _ _ = true |- _ => apply in_range_spec in H end; try done; lia.
Qed.

(** What [DecodeLastRune] reports, if not an error, is the last rune [range]
    yields. *)
Lemma DecodeLastRune_in bs r w :
  DecodeLastRune bs = (r, w) -> r ≠ RuneError -> bs ≠ [] -> r ∈ runes bs.
Proof.
  unfold DecodeLastRune. intros H Hr Hne.
  destruct (bs !! (length bs - 1)%nat) as [c|] eqn:Hc; [|by simplify_eq].
  assert (bs = take (length bs - 1) bs ++ [c]) as Hbs.
  { rewrite <- (take_drop (length bs - 1) bs) at 1. f_equal.
    rewrite (drop_S _ c) by done. rewrite drop_ge; [done |].
    apply lookup_lt_Some in Hc. lia. }
  destruct (bool_decide_reflect (byte c < 128)) as [Hlt|_].
  - simplify_eq. rewrite Hbs, runes_app.
    + apply elem_of_app. right.
      assert (runes [c] = [byte c]) as ->; [|by apply list_elem_of_singleton].
      assert (0 <= byte c) by (unfold byte; lia).
      unfold runes. simpl. unfold first.
      assert (in_range 0 127 (byte c) = true) as -> by (apply in_range_spec; lia). done.
    + intros ? ? [= <- _]. apply negb_true_iff, in_range_false. lia.
  - set (start := last_start bs 3 (length bs - 1)) in *.
    destruct (DecodeRune (drop start bs)) as [r' size] eqn:Hd.
    destruct (bool_decide_reflect ((start + size)%nat = length bs)) as [He|]; [|by simplify_eq].
    simplify_eq. rewrite <- (take_drop start bs), runes_app.
    + apply elem_of_app. right. destruct (drop start bs) as [|d t] eqn:Edr; [by simplify_eq/= |].
      rewrite runes_step, Hd. apply elem_of_cons. by left.
    + intros d t Edr. apply (DecodeRune_start d t). rewrite <- Edr, Hd. done.
Qed.

Lemma trim_right_id fuel bs : no_space bs -> trim_right fuel bs = bs.
Proof.
  destruct fuel as [|k]; [done |]. intros H. simpl. case_bool_decide as Hne; [done |].
  destruct (DecodeLastRune bs) as [r w] eqn:Hd.
  destruct (decide (r = RuneError)) as [->|Hr]; [by rewrite IsSpace_RuneError |].
  pose proof (DecodeLastRune_in _ _ _ Hd Hr Hne) as Hin.
  unfold no_space in H. rewrite Forall_forall in H. by rewrite (H r Hin).
Qed.

Lemma TrimSpace_id s : no_space (String.list_ascii_of_string s) -> TrimSpace s = s.
Proof.
  intros H. unfold TrimSpace. rewrite trim_left_id, trim_right_id by done.
  apply String.string_of_list_ascii_of_string.
Qed.

(** ** Sorting *)

Lemma sort_perm_self l : sort_strings l ≡ₚ l.
Proof. apply merge_sort_Permutation. Qed.

(** The order in which a map is ranged over does not matter. *)
Lemma sort_perm l1 l2 : l1 ≡ₚ l2 -> sort_strings l1 = sort_strings l2.
Proof.
  intros H. apply (Sorted_unique String.le); [apply Sorted_merge_sort, _ .. |].
  by rewrite !sort_perm_self.
Qed.

Lemma elem_of_sort n l : n ∈ sort_strings l <-> n ∈ l.
Proof. by rewrite sort_perm_self. Qed.

Lemma NoDup_sort l : NoDup (sort_strings l) <-> NoDup l.
Proof. by rewrite sort_perm_self. Qed.

(** ** Suffixes *)

Lemma append_assoc (a b c : string) : (a +:+ b) +:+ c = a +:+ (b +:+ c).
Proof.
  induction a as [|x a IH]; [done |].
  change (String x ((a +:+ b) +:+ c) = String x (a +:+ (b +:+ c))). by rewrite IH.
Qed.

Lemma prefix_app a b : String.prefix a b = true -> exists t, b = a +:+ t.
Proof.
  revert b. induction a as [|x a IH]; intros b; [by exists b |]. destruct b as [|y b]; [done |]. simpl.
  destruct (Ascii.ascii_dec x y) as [->|]; [|done]. intros [t ->]%IH. by exists t.
Qed.

Lemma strip_suffix_spec suf s p : strip_suffix suf s = Some p <-> s = p +:+ suf.
Proof.
  revert p. induction s as [|c t IH]; intros p; cbn [strip_suffix].
  - case_bool_decide as H.
    + split; [by intros [= <-] |]. subst suf. by destruct p.
    + split; [done |]. destruct p; simpl; [intros E; by destruct H | done].
  - case_bool_decide as H.
    + split; [by intros [= <-] |]. intros E. f_equal. subst suf. destruct p as [|d p]; [done |].
      exfalso. apply (f_equal String.length) in E. revert E. clear.
      simpl. enough (String.length (p +:+ String c t) = (String.length p + S (String.length t))%nat) by lia.
      induction p; simpl; lia.
    + split.
      * destruct (strip_suffix suf t) as [q|] eqn:E; [|done]. intros [= <-]. by rewrite (proj1 (IH q) eq_refl).
      * destruct p as [|d p]; simpl; [intros E; by destruct H |].
        intros [= -> E]. by apply IH in E as ->.
Qed.
