(* ===== verification/Runes.v ===== *)
(** * UTF-8 encoding and text of bounded length

    [string(runes)], the conversion [[]rune(s)], [strings.ToLower] and the helper
    [truncateRunes] of [resource/evidence.go].  The main facts: decoding inverts
    encoding on the runes decoding yields ([runes_encode]), and so truncation keeps
    a number of runes and is a prefix of the decoded text ([range_truncate]).

    Case mapping outside ASCII is a table of the Unicode data: [lower] is a parameter,
    with what [unicode.ToLower] documents for ASCII where a statement needs it. *)

From S2P Require Import Prelude GoStrings.
From Stdlib Require Import Ascii.

(** ** Encoding *)

Definition chr (z : Z) : ascii := ascii_of_N (Z.to_N z).

(** The runes that encode as themselves. *)
Definition ValidRune (r : Z) : bool := in_range 0 55295 r || in_range 57344 1114111 r.

(** [utf8.AppendRune]: what is not a valid rune is written as [RuneError]. *)
Definition EncodeRune (r : Z) : bytes :=
  let r := if ValidRune r then r else RuneError in
  if bool_decide (r <= 127) then [chr r]
  else if bool_decide (r <= 2047) then [chr (192 + Z.shiftr r 6); chr (128 + Z.land r 63)]
  else if bool_decide (r <= 65535)
  then [chr (224 + Z.shiftr r 12); chr (128 + Z.land (Z.shiftr r 6) 63); chr (128 + Z.land r 63)]
  else [chr (240 + Z.shiftr r 18); chr (128 + Z.land (Z.shiftr r 12) 63);
        chr (128 + Z.land (Z.shiftr r 6) 63); chr (128 + Z.land r 63)].

Definition encode_runes (rs : list Z) : bytes := rs ≫= EncodeRune.

(** [string(rs)] for a slice of runes. *)
Definition string_of_runes (rs : list Z) : string := String.string_of_list_ascii (encode_runes rs).

(** [utf8.RuneCountInString]. *)
Definition RuneCount (s : string) : Z := Z.of_nat (length (range s)).

Definition truncateRunes (s : string) (max : Z) : string :=
  if bool_decide (max <= 0) || bool_decide (s = "") then ""
  else if bool_decide (RuneCount s <= max) then s
  else string_of_runes (take (Z.to_nat max) (range s)).

(** [strings.ToLower]: every rune mapped, invalid bytes written as [RuneError]. *)
Definition ToLower (lower : Z -> Z) (s : string) : string := string_of_runes (lower <$> range s).

(** What [unicode.ToLower] does in ASCII. *)
Definition lower_ascii (r : Z) : Z := if in_range 65 90 r then r + 32 else r.

(** ** Decoding what was encoded *)

Lemma byte_chr z : 0 <= z < 256 -> byte (chr z) = z.
Proof. intros H. unfold byte, chr. rewrite N_ascii_embedding by lia. lia. Qed.

Lemma land_mod x n : 0 <= n -> Z.land x (Z.ones n) = x mod 2 ^ n.
Proof. apply Z.land_ones. Qed.

Lemma land63 x : Z.land x 63 = x mod 64.
Proof. exact (land_mod x 6 ltac:(lia)). Qed.

Lemma lor_low a b n : 0 <= n -> 0 <= b < 2 ^ n -> Z.lor (Z.shiftl a n) b = a * 2 ^ n + b.
Proof.
  intros Hn Hb. assert (Z.land (Z.shiftl a n) b = 0) as Hd.
  { apply Z.bits_inj'. intros i Hi. rewrite Z.land_spec, Z.bits_0.
    destruct (decide (i < n)); [rewrite Z.shiftl_spec_low by lia; done |].
    assert (Z.testbit b i = false) as ->; [|apply andb_false_r].
    apply Z.testbit_false; [done |]. rewrite Z.div_small; [done |].
    split; [lia |]. eapply Z.lt_le_trans; [apply Hb | apply Z.pow_le_mono_r; lia]. }
  rewrite <- Z.lxor_lor, <- Z.add_nocarry_lxor by done. by rewrite Z.shiftl_mul_pow2.
Qed.

Lemma low6_chr z : low6 (chr (128 + z mod 64)) = z mod 64.
Proof.
  pose proof (Z.mod_pos_bound z 64 ltac:(lia)). unfold low6. rewrite byte_chr by lia. rewrite land63.
  replace (128 + z mod 64) with (z mod 64 + 2 * 64) by lia. by rewrite Z.mod_add, Z.mod_mod by lia.
Qed.

Lemma cont_chr z : in_range 128 191 (byte (chr (128 + z mod 64))) = true.
Proof. pose proof (Z.mod_pos_bound z 64 ltac:(lia)). rewrite byte_chr by lia. apply in_range_spec. lia. Qed.

(** Reduce the comparisons of the table [first] and of the encoder. *)
Ltac range_decide :=
  repeat match goal with
  | |- context [in_range ?a ?b ?z] =>
      first [ replace (in_range a b z) with true by (symmetry; apply in_range_spec; lia)
            | replace (in_range a b z) with false by (symmetry; apply in_range_false; lia) ]
  | |- context [bool_decide ?P] =>
      first [ rewrite (bool_decide_true P) by lia | rewrite (bool_decide_false P) by lia ]
  end; cbv beta iota.

(** The table entry of a head and the range check of the second byte. *)
Definition head_ok (b0 b1 : Z) (size : nat) : Prop :=
  exists lo hi, first b0 = Some (size, lo, hi) /\ in_range lo hi b1 = true.

Lemma head_two a b1 : 2 <= a <= 31 -> 128 <= b1 <= 191 -> head_ok (192 + a) b1 2.
Proof. intros Ha Hb. exists 128, 191. unfold first. range_decide. done. Qed.

Lemma head_three a b1 :
  0 <= a <= 15 -> 128 <= b1 <= 191 -> (a = 0 -> 160 <= b1) -> (a = 13 -> b1 <= 159) -> head_ok (224 + a) b1 3.
Proof.
  intros Ha Hb H0 H13. unfold head_ok, first.
  destruct (decide (a = 0)); [exists 160, 191; range_decide; done |].
  destruct (decide (a = 13)); [exists 128, 159; range_decide; done |].
  destruct (decide (a < 13)); exists 128, 191; range_decide; done.
Qed.

Lemma head_four a b1 :
  0 <= a <= 4 -> 128 <= b1 <= 191 -> (a = 0 -> 144 <= b1) -> (a = 4 -> b1 <= 143) -> head_ok (240 + a) b1 4.
Proof.
  intros Ha Hb H0 H4. unfold head_ok, first.
  destruct (decide (a = 0)); [exists 144, 191; range_decide; done |].
  destruct (decide (a = 4)); [exists 128, 143; range_decide; done |].
  exists 128, 191; range_decide; done.
Qed.

(** Six bits more. *)
Lemma lor_cont a z : Z.lor (Z.shiftl a 6) (z mod 64) = a * 64 + z mod 64.
Proof. apply (lor_low a (z mod 64) 6); [lia | apply Z.mod_pos_bound; lia]. Qed.

Lemma lor_cont_shift a z n : 0 <= n -> Z.lor (Z.shiftl a (n + 6)) (Z.shiftl (z mod 64) n) = Z.shiftl (a * 64 + z mod 64) n.
Proof. intros Hn. rewrite <- lor_cont, Z.shiftl_lor, Z.shiftl_shiftl by lia. f_equal. f_equal. lia. Qed.

Lemma land_low a c n : 0 <= n -> 0 <= a < 2 ^ n -> Z.land (c * 2 ^ n + a) (Z.ones n) = a.
Proof. intros Hn Ha. rewrite land_mod, Z.add_comm, Z.mod_add, Z.mod_small by lia. done. Qed.

Lemma decode_two a b t : 2 <= a <= 31 ->
  DecodeRune (chr (192 + a) :: chr (128 + b mod 64) :: t) = (a * 64 + b mod 64, 2%nat).
Proof.
  intros Ha. pose proof (Z.mod_pos_bound b 64 ltac:(lia)).
  destruct (head_two a (128 + b mod 64)) as (lo & hi & Hf & Hi); [lia | lia |].
  cbn [DecodeRune]. rewrite !byte_chr, Hf, Hi, low6_chr by lia. cbn [negb].
  rewrite bool_decide_false, bool_decide_true by done. replace (Z.land (192 + a) 31) with a by (symmetry; apply (land_low a 6 5); lia). by rewrite lor_cont.
Qed.

Lemma decode_three a b c t :
  head_ok (224 + a) (128 + b mod 64) 3 -> 0 <= a <= 15 ->
  DecodeRune (chr (224 + a) :: chr (128 + b mod 64) :: chr (128 + c mod 64) :: t)
    = ((a * 64 + b mod 64) * 64 + c mod 64, 3%nat).
Proof.
  intros (lo & hi & Hf & Hi) Ha. pose proof (Z.mod_pos_bound b 64 ltac:(lia)).
  cbn [DecodeRune]. rewrite cont_chr, !(byte_chr (224 + _)), !(byte_chr (128 + b mod 64)), Hf, Hi, !low6_chr by lia. cbn [negb].
  rewrite !bool_decide_false, bool_decide_true by done. replace (Z.land (224 + a) 15) with a by (symmetry; apply (land_low a 14 4); lia).
  change 12 with (6 + 6) at 1. rewrite lor_cont_shift by lia. by rewrite lor_cont.
Qed.

Lemma decode_four a b c d t :
  head_ok (240 + a) (128 + b mod 64) 4 -> 0 <= a <= 4 ->
  DecodeRune (chr (240 + a) :: chr (128 + b mod 64) :: chr (128 + c mod 64) :: chr (128 + d mod 64) :: t)
    = (((a * 64 + b mod 64) * 64 + c mod 64) * 64 + d mod 64, 4%nat).
Proof.
  intros (lo & hi & Hf & Hi) Ha. pose proof (Z.mod_pos_bound b 64 ltac:(lia)).
  cbn [DecodeRune]. rewrite !cont_chr, !(byte_chr (240 + _)), !(byte_chr (128 + b mod 64)), Hf, Hi, !low6_chr by lia. cbn [negb].
  rewrite !bool_decide_false by done. replace (Z.land (240 + a) 7) with a by (symmetry; apply (land_low a 30 3); lia).
  change 18 with (12 + 6) at 1. rewrite lor_cont_shift by lia.
  change 12 with (6 + 6) at 1. rewrite lor_cont_shift by lia. by rewrite lor_cont.
Qed.

Ltac div_lia := Z.to_euclidean_division_equations; lia.

Lemma DecodeRune_encode r t :
  ValidRune r = true -> DecodeRune (EncodeRune r ++ t) = (r, length (EncodeRune r)).
Proof.
  intros Hv. assert (0 <= r <= 55295 \/ 57344 <= r <= 1114111) as Hr.
  { unfold ValidRune in Hv. rewrite orb_true_iff, !in_range_spec in Hv. lia. }
  unfold EncodeRune. rewrite Hv. rewrite !land63, !Z.shiftr_div_pow2 by lia.
  change (2 ^ 6) with 64. change (2 ^ 12) with 4096. change (2 ^ 18) with 262144.
  destruct (bool_decide_reflect (r <= 127)).
  { simpl. rewrite !byte_chr by lia. unfold first. range_decide. done. }
  destruct (bool_decide_reflect (r <= 2047)).
  { cbn [app length]. rewrite decode_two by div_lia. f_equal. div_lia. }
  destruct (bool_decide_reflect (r <= 65535)); cbn [app length].
  - rewrite decode_three; [f_equal; div_lia | apply head_three; div_lia | div_lia].
  - rewrite decode_four; [f_equal; div_lia | apply head_four; div_lia | div_lia].
Qed.

Lemma EncodeRune_nonempty r : EncodeRune r ≠ [].
Proof. unfold EncodeRune. repeat case_match; done. Qed.

(** Decoding inverts encoding. *)
Lemma runes_encode rs : Forall (fun r => ValidRune r = true) rs -> runes (encode_runes rs) = rs.
Proof.
  induction 1 as [|r rs Hr _ IH]; [done |]. unfold encode_runes. cbn [mbind list_bind].
  fold (encode_runes rs). pose proof (EncodeRune_nonempty r) as Hne.
  pose proof (DecodeRune_encode r (encode_runes rs) Hr) as Hd.
  destruct (EncodeRune r) as [|c u] eqn:E; [done |]. change ((c :: u) ++ encode_runes rs) with (c :: (u ++ encode_runes rs)) in *.
  rewrite runes_step, Hd. cbn [fst snd]. f_equal.
  change (c :: (u ++ encode_runes rs)) with ((c :: u) ++ encode_runes rs). by rewrite drop_app_length.
Qed.

(** ** What decoding yields *)

Lemma byte_range c : 0 <= byte c < 256.
Proof. unfold byte. pose proof (N_ascii_bounded c). lia. Qed.

Lemma low6_cont c : in_range 128 191 (byte c) = true -> low6 c = byte c - 128.
Proof.
  rewrite in_range_spec. intros H. unfold low6.
  replace (byte c) with (2 * 2 ^ 6 + (byte c - 128)) at 1 by lia. apply (land_low _ 2 6); lia.
Qed.

Lemma low6_range c : 0 <= low6 c < 64.
Proof. unfold low6. rewrite land63. apply Z.mod_pos_bound. lia. Qed.

Lemma lor_low6 a c : Z.lor (Z.shiftl a 6) (low6 c) = a * 64 + low6 c.
Proof. apply (lor_low a (low6 c) 6); [lia | apply low6_range]. Qed.

Lemma lor_shift6 a c n : 0 <= n -> Z.lor (Z.shiftl a (n + 6)) (Z.shiftl (low6 c) n) = Z.shiftl (a * 64 + low6 c) n.
Proof. intros Hn. rewrite <- lor_low6, Z.shiftl_lor, Z.shiftl_shiftl by lia. f_equal. f_equal. lia. Qed.

(** The bounds a table entry puts on the head and the second byte. *)
Lemma first_bounds b sz lo hi :
  first b = Some (sz, lo, hi) ->
  (sz = 1%nat /\ 0 <= b <= 127) \/ (sz = 2%nat /\ 194 <= b <= 223 /\ 128 <= lo /\ hi <= 191) \/
  (sz = 3%nat /\ 224 <= b <= 239 /\ 128 <= lo /\ hi <= 191 /\ (b = 224 -> 160 <= lo) /\ (b = 237 -> hi <= 159)) \/
  (sz = 4%nat /\ 240 <= b <= 244 /\ 128 <= lo /\ hi <= 191 /\ (b = 240 -> 144 <= lo) /\ (b = 244 -> hi <= 143)).
Proof.
  unfold first. intros H. repeat case_match; simplify_eq; repeat match goal with
    | H : in_range _ _ _ = true |- _ => apply in_range_spec in H
    | H : in_range _ _ _ = false |- _ => apply in_range_false in H end; lia.
Qed.

Lemma valid_between r : 0 <= r <= 55295 \/ 57344 <= r <= 1114111 -> ValidRune r = true.
Proof. intros H. unfold ValidRune. rewrite orb_true_iff, !in_range_spec. lia. Qed.

Lemma head_bits b c n : 0 <= n -> c * 2 ^ n <= b < (c + 1) * 2 ^ n -> Z.land b (Z.ones n) = b - c * 2 ^ n.
Proof. intros Hn Hb. replace b with (c * 2 ^ n + (b - c * 2 ^ n)) at 1 by lia. apply land_low; lia. Qed.

Lemma DecodeRune_valid bs : ValidRune (DecodeRune bs).1 = true.
Proof.
  unfold DecodeRune. destruct bs as [|c0 t0]; [done |].
  destruct (first (byte c0)) as [[[sz lo] hi]|] eqn:Hf; [|done]. apply first_bounds in Hf.
  case_bool_decide; [apply valid_between; simpl; lia |].
  destruct t0 as [|c1 t1]; [done |].
  destruct (in_range lo hi (byte c1)) eqn:H1; [|done]. cbn [negb].
  assert (low6 c1 = byte c1 - 128) as E1.
  { apply low6_cont. apply in_range_spec in H1. apply in_range_spec. lia. }
  apply in_range_spec in H1. pose proof (low6_range c1). case_bool_decide.
  { cbn [fst]. rewrite lor_low6. change 31 with (Z.ones 5). rewrite (head_bits _ 6 5) by lia.
    apply valid_between. lia. }
  destruct t1 as [|c2 t2]; [done |].
  destruct (in_range 128 191 (byte c2)) eqn:Hc2; [|done]. cbn [negb]. pose proof (low6_range c2).
  case_bool_decide.
  { cbn [fst]. change 12 with (6 + 6) at 1. rewrite lor_shift6, lor_low6 by lia.
    change 15 with (Z.ones 4). rewrite (head_bits _ 14 4) by lia. apply valid_between. lia. }
  destruct t2 as [|c3 t3]; [done |].
  destruct (in_range 128 191 (byte c3)) eqn:Hc3; [|done]. cbn [negb fst]. pose proof (low6_range c3).
  change 18 with (12 + 6) at 1. rewrite lor_shift6 by lia. change 12 with (6 + 6) at 1.
  rewrite lor_shift6, lor_low6 by lia. change 7 with (Z.ones 3). rewrite (head_bits _ 30 3) by lia.
  apply valid_between. lia.
Qed.

Lemma runes_valid bs : Forall (fun r => ValidRune r = true) (runes bs).
Proof.
  remember (length bs) as n eqn:Hn. revert bs Hn.
  induction n as [n IH] using lt_wf_ind; intros [|c t] ->; [constructor |].
  rewrite runes_step. constructor; [apply DecodeRune_valid |].
  pose proof (DecodeRune_width c t). eapply IH; [|done]. rewrite length_drop. simpl in *. lia.
Qed.

Lemma range_of_runes rs : Forall (fun r => ValidRune r = true) rs -> range (string_of_runes rs) = rs.
Proof.
  intros H. unfold range, string_of_runes. rewrite String.list_ascii_of_string_of_list_ascii. by apply runes_encode.
Qed.

(** ** Truncation *)

Lemma range_nil s : range s = [] <-> s = "".
Proof.
  split; [|by intros ->]. destruct s as [|c t]; [done |]. unfold range. cbn [String.list_ascii_of_string].
  by rewrite runes_step.
Qed.

Lemma range_truncate s max : range (truncateRunes s max) = take (Z.to_nat max) (range s).
Proof.
  unfold truncateRunes, RuneCount. destruct (bool_decide_reflect (max <= 0)) as [Hm|Hm]; cbn [orb].
  { by rewrite (Z2Nat.nonpos max). }
  destruct (bool_decide_reflect (s = "")) as [->|_]; [by destruct (Z.to_nat max) |].
  case_bool_decide; [by rewrite take_ge by lia |].
  apply range_of_runes. apply Forall_take, runes_valid.
Qed.

Lemma truncate_count s max : 0 <= max -> RuneCount (truncateRunes s max) <= max.
Proof. intros Hm. unfold RuneCount. rewrite range_truncate, length_take. lia. Qed.

Lemma truncate_id s max : 0 < max -> RuneCount s <= max -> truncateRunes s max = s.
Proof.
  intros Hm Hc. unfold truncateRunes. rewrite bool_decide_false by lia. cbn [orb].
  rewrite (bool_decide_true (RuneCount s <= max)) by done. by case_bool_decide.
Qed.

Lemma encode_runes_app a b : encode_runes (a ++ b) = encode_runes a ++ encode_runes b.
Proof. apply bind_app. Qed.

Lemma string_of_list_app a b :
  String.string_of_list_ascii (a ++ b) = String.string_of_list_ascii a +:+ String.string_of_list_ascii b.
Proof. induction a as [|x a IH]; [done |]. simpl. by rewrite IH. Qed.

(** The lower-case text of a truncation is a prefix of the lower-case text. *)
Lemma lower_truncate lower s max :
  exists rest, ToLower lower s = ToLower lower (truncateRunes s max) +:+ rest.
Proof.
  unfold ToLower, string_of_runes. rewrite range_truncate.
  exists (String.string_of_list_ascii (encode_runes (lower <$> drop (Z.to_nat max) (range s)))).
  rewrite <- string_of_list_app, <- encode_runes_app, <- fmap_app. by rewrite take_drop.
Qed.

Lemma prefix_extend sub s r : String.prefix sub s = true -> String.prefix sub (s +:+ r) = true.
Proof.
  revert s. induction sub as [|x sub IH]; intros s; [by destruct (s +:+ r) |].
  destruct s as [|y s]; [done |]. simpl. destruct (ascii_dec x y); [apply IH | done].
Qed.

Lemma contains_extend sub s r : contains_sub sub s = true -> contains_sub sub (s +:+ r) = true.
Proof.
  induction s as [|y s IH]; cbn [contains_sub]; rewrite orb_true_iff.
  - intros [H|]; [|done]. apply (prefix_extend sub "" r) in H. change ("" +:+ r) with r in *.
    destruct r; cbn [contains_sub]; by rewrite H.
  - intros [H|H]; change (String y s +:+ r) with (String y (s +:+ r)); cbn [contains_sub].
    + by rewrite (prefix_extend sub (String y s) r H : String.prefix sub (String y (s +:+ r)) = true).
    + by rewrite (IH H), orb_true_r.
Qed.
