(* ===== verification/Secrets.v ===== *)
(** * Secret references and redaction ([secrets/secrets.go], [secrets/rotation.go])

    References [env://NAME] and [file://path], their resolution, the log of rotations
    and the redaction of text.  Go's [regexp] is not modelled in general: the four
    patterns are matchers on decoded text, each with the leftmost-first meaning of its
    expression (their parts overlap nowhere, so no backtracking is needed).  The main
    fact is that the value after a secret-looking key does not influence the output of
    the pass for keys ([value_hidden]). *)

From S2P Require Import Prelude GoStrings Runes.
From Stdlib Require Import Ascii.

#[local] Open Scope Z_scope.

(** ** References *)

Inductive secret_error :=
| SErrUnsupportedScheme | SErrEmptyRef | SErrResolveFailed
| SErrRotationNotFound | SErrRotationDup | SErrRotationBound | SErrSecretValue.

#[global] Instance secret_error_eq_dec : EqDecision secret_error.
Proof. solve_decision. Defined.

Record Ref := mkRef { raw : string }.

(** [strings.TrimPrefix]. *)
Fixpoint TrimPrefix (s p : string) : string :=
  match p with
  | EmptyString => s
  | String c p' => match s with String d s' => if bool_decide (c = d) then TrimPrefix s' p' else s | EmptyString => s end
  end.

Definition HasPrefix (s p : string) : bool := String.prefix p s.

Definition trim_prefix (s p : string) : string := if HasPrefix s p then TrimPrefix s p else s.

(** [schemeOf]: what precedes the first [://]. *)
Fixpoint scheme_before (s : string) : option string :=
  if HasPrefix s "://" then Some ""
  else match s with EmptyString => None | String c t => String c <$> scheme_before t end.

Definition schemeOf (s : string) : string := default "" (scheme_before s).

Definition ParseRef (s : string) : secret_error + Ref :=
  let s := TrimSpace s in
  if bool_decide (s = "") then inl SErrEmptyRef
  else if HasPrefix s "env://" then
    if bool_decide (trim_prefix s "env://" = "") then inl SErrEmptyRef else inr (mkRef s)
  else if HasPrefix s "file://" then
    if bool_decide (trim_prefix s "file://" = "") then inl SErrEmptyRef else inr (mkRef s)
  else inl SErrUnsupportedScheme.

Definition Scheme (r : Ref) : string := schemeOf (raw r).

(** [file:///C:/path] names [C:/path]. *)
Definition strip_drive (p : string) : string :=
  if HasPrefix p "/" && bool_decide (2 < Z.of_nat (String.length p)) && bool_decide (String.get 2 p = Some ":"%char)
  then trim_prefix p "/" else p.

Definition PathOrName (r : Ref) : string :=
  if bool_decide (Scheme r = "env") then trim_prefix (raw r) "env://"
  else if bool_decide (Scheme r = "file") then strip_drive (trim_prefix (raw r) "file://")
  else "".

Definition Resolve (readFile : string -> option bytes) (lookup : string -> option string) (r : Ref) : secret_error + bytes :=
  if bool_decide (Scheme r = "env") then
    match lookup (PathOrName r) with Some v => inr (String.list_ascii_of_string v) | None => inl SErrResolveFailed end
  else if bool_decide (Scheme r = "file") then
    match readFile (PathOrName r) with Some b => inr b | None => inl SErrResolveFailed end
  else inl SErrUnsupportedScheme.

(** ** Rotations *)

Inductive RotationPhase :=
| RotationPlanned | RotationIssued | RotationPropagated | RotationVerified | RotationRetired | RotationFailed
| RotationOther (s : string).

Record RotationRecord := mkRotation {
  ro_Name : string; ro_OldRef : string; ro_NewRef : string; ro_Phase : RotationPhase; ro_Actor : string;
  ro_Message : string; ro_UpdatedAt : Time }.

Record RotationLog := mkRotationLog { rl_recs : gmap string RotationRecord; rl_max : Z }.

Definition DefaultMaxRotations : Z := 256.

Definition NewRotationLog (max : Z) : RotationLog :=
  mkRotationLog ∅ (if bool_decide (max <= 0) then DefaultMaxRotations else max).

Definition looksLikeValue (s : string) : bool := match ParseRef s with inl _ => true | inr _ => false end.

Definition Plan (now : Time) (name : string) (oldRef newRef : Ref) (actor : string) (l : RotationLog)
  : RotationLog * option secret_error :=
  if bool_decide (name = "") || bool_decide (raw oldRef = "") || bool_decide (raw newRef = "") then (l, Some SErrEmptyRef)
  else if looksLikeValue (raw oldRef) || looksLikeValue (raw newRef) then (l, Some SErrSecretValue)
  else if bool_decide (rl_max l <= Z.of_nat (size (rl_recs l))) then (l, Some SErrRotationBound)
  else match rl_recs l !! name with
       | Some _ => (l, Some SErrRotationDup)
       | None =>
         (mkRotationLog (<[name := mkRotation name (raw oldRef) (raw newRef) RotationPlanned actor "" now]> (rl_recs l)) (rl_max l), None)
       end.

Definition Advance (now : Time) (name : string) (phase : RotationPhase) (message : string) (l : RotationLog)
  : RotationLog * option secret_error :=
  match rl_recs l !! name with
  | None => (l, Some SErrRotationNotFound)
  | Some r =>
    (mkRotationLog (<[name := mkRotation (ro_Name r) (ro_OldRef r) (ro_NewRef r) phase (ro_Actor r) message now]> (rl_recs l)) (rl_max l), None)
  end.

Definition Rotation_Get (name : string) (l : RotationLog) : secret_error + RotationRecord :=
  match rl_recs l !! name with Some r => inr r | None => inl SErrRotationNotFound end.

(** ** Decoded text *)

(** A rune with the bytes it was decoded from. *)
Abbreviation piece := (Z * bytes)%type (only parsing).

Fixpoint pieces_from (skip : nat) (bs : bytes) : list piece :=
  match bs with
  | [] => []
  | _ :: t =>
    match skip with
    | S k => pieces_from k t
    | O => let '(r, w) := DecodeRune bs in (r, take w bs) :: pieces_from (w - 1) t
    end
  end.

Definition pieces (bs : bytes) : list piece := pieces_from 0 bs.
Definition text (ps : list piece) : bytes := concat ps.*2.

(** ** Matchers *)

(** The number of pieces at the front that satisfy [p], greedily. *)
Fixpoint span (p : Z -> bool) (l : list piece) : nat :=
  match l with (r, _) :: t => if p r then S (span p t) else O | [] => O end.

(** [\s] *)
Definition is_s (r : Z) : bool := bool_decide (r ∈ [9; 10; 12; 13; 32]).
(** [[A-Za-z0-9\-._~+/]]; under [(?i)] also the other foldings of [s] and [k]. *)
Definition is_token (r : Z) : bool :=
  in_range 65 90 r || in_range 97 122 r || in_range 48 57 r || bool_decide (r ∈ [45; 46; 95; 126; 43; 47; 383; 8490]).
(** [[=:]] *)
Definition is_sep (r : Z) : bool := bool_decide (r = 61) || bool_decide (r = 58).
(** [[_-]] *)
Definition is_dash (r : Z) : bool := bool_decide (r = 95) || bool_decide (r = 45).

(** The runes that [(?i)] takes for the lower-case letter [c]: the letter in either
    case, and U+017F for [s] and U+212A for [k], their other simple foldings. *)
Definition fold_letter (c r : Z) : bool :=
  bool_decide (r = c) || bool_decide (r = c - 32) || (bool_decide (c = 115) && bool_decide (r = 383)) ||
  (bool_decide (c = 107) && bool_decide (r = 8490)).

(** A keyword: letters in any case, and [[_-]?]. *)
Inductive item := L (c : Z) | D.

#[global] Instance item_eq_dec : EqDecision item.
Proof. solve_decision. Defined.

Fixpoint match_word (w : list item) (l : list piece) : option nat :=
  match w with
  | [] => Some O
  | L c :: w => match l with (r, _) :: t => if fold_letter c r then S <$> match_word w t else None | [] => None end
  | D :: w => match l with
              | (r, _) :: t => if is_dash r then S <$> match_word w t else match_word w l
              | [] => match_word w l
              end
  end.

Definition word (s : string) : list item :=
  (fun c => if bool_decide (c = "?"%char) then D else L (byte c)) <$> String.list_ascii_of_string s.

Definition keywords : list (list item) :=
  word <$> ["password"; "passwd"; "secret"; "token"; "api?key"; "authorization"; "private?key"].

(** [(?i)Bearer\s+[A-Za-z0-9\-._~+/]+=*] *)
Definition match_bearer (l : list piece) : option nat :=
  match match_word (word "bearer") l with
  | None => None
  | Some n =>
    let l := drop n l in
    let s := span is_s l in
    let t := span is_token (drop s l) in
    if bool_decide (s = 0)%nat || bool_decide (t = 0)%nat then None
    else Some (n + s + t + span (fun r => bool_decide (r = 61%Z)) (drop (s + t) l))%nat
  end.

(** [\s*[=:]\s*\S+] *)
Definition match_value (l : list piece) : option nat :=
  let s := span is_s l in
  match drop s l with
  | (r, _) :: t =>
    if is_sep r then
      let s' := span is_s t in
      let v := span (fun r => negb (is_s r)) (drop s' t) in
      if bool_decide (v = 0)%nat then None else Some (s + 1 + s' + v)%nat
    else None
  | [] => None
  end.

(** [(?i)(password|passwd|...)\s*[=:]\s*\S+]: the first alternative that leads to a
    match. *)
Fixpoint match_keys (ws : list (list item)) (l : list piece) : option nat :=
  match ws with
  | [] => None
  | w :: ws =>
    match match_word w l with
    | Some n => match match_value (drop n l) with Some m => Some (n + m)%nat | None => match_keys ws l end
    | None => match_keys ws l
    end
  end.

Definition match_kv : list piece -> option nat := match_keys keywords.

(** [env://\S+] and [file://\S+] *)
Definition match_scheme (s : string) (l : list piece) : option nat :=
  let n := String.length s in
  if bool_decide (take n l.*1 = byte <$> String.list_ascii_of_string s) then
    let v := span (fun r => negb (is_s r)) (drop n l) in
    if bool_decide (v = 0)%nat then None else Some (n + v)%nat
  else None.

Definition patterns : list (list piece -> option nat) :=
  [match_bearer; match_kv; match_scheme "env://"; match_scheme "file://"].

(** ** Redaction *)

Definition ascii_text (s : string) : bytes := String.list_ascii_of_string s.

(** The function given to [ReplaceAllStringFunc]; prefixes and bytes of ASCII are
    compared as runes.  Its branch for text with [://] is never reached: the colon is
    found before. *)
Definition redacted (lower : Z -> Z) (m : list piece) : bytes :=
  if bool_decide (take 7 (lower <$> m.*1) = byte <$> ascii_text "bearer ") then ascii_text "Bearer [REDACTED]"
  else match list_find (fun p => is_sep p.1 = true) m with
       | Some (i, _) => text (take (S i) m) ++ ascii_text " [REDACTED]"
       | None => ascii_text "[REDACTED]"
       end.

(** [ReplaceAllStringFunc]: matches from left to right, each search from the end of
    the last match; [skip] pieces of the current match are still to be passed over. *)
Fixpoint replace_from (f : list piece -> bytes) (mt : list piece -> option nat) (skip : nat) (l : list piece) : bytes :=
  match l with
  | [] => []
  | p :: t =>
    match skip with
    | S k => replace_from f mt k t
    | O => match mt l with
           | Some n => f (take n l) ++ replace_from f mt (n - 1) t
           | None => p.2 ++ replace_from f mt O t
           end
    end
  end.

Definition pass (lower : Z -> Z) (mt : list piece -> option nat) (bs : bytes) : bytes :=
  replace_from (redacted lower) mt 0 (pieces bs).

Definition Redact (lower : Z -> Z) (s : string) : string :=
  String.string_of_list_ascii (foldl (fun bs mt => pass lower mt bs) (ascii_text s) patterns).

Definition secret_key (lower : Z -> Z) (k : string) : bool :=
  let lk := ToLower lower k in
  contains_sub "secret" lk || contains_sub "password" lk || contains_sub "token" lk || contains_sub "credential" lk ||
  bool_decide (is_Some (strip_suffix "_key" lk)) || contains_sub "authorization" lk.

Definition RedactMap (lower : Z -> Z) (m : gmap string string) : gmap string string :=
  map_imap (fun k v => Some (if secret_key lower k then "[REDACTED]" else Redact lower v)) m.

(** ** Decoding in pieces *)

Lemma pieces_from_drop k bs : pieces_from k bs = pieces (drop k bs).
Proof. revert k. induction bs as [|c t IH]; intros [|k]; try done. apply IH. Qed.

Lemma pieces_step c t :
  pieces (c :: t) = let w := (DecodeRune (c :: t)).2 in ((DecodeRune (c :: t)).1, take w (c :: t)) :: pieces (drop w (c :: t)).
Proof.
  pose proof (DecodeRune_width c t) as Hw. unfold pieces at 1. cbn [pieces_from].
  destruct (DecodeRune (c :: t)) as [r w]. cbn [fst snd] in *. rewrite pieces_from_drop. destruct w; [lia |].
  cbn [drop]. by replace (S w - 1)%nat with w by lia.
Qed.

Lemma pieces_app a b : starts b -> pieces (a ++ b) = pieces a ++ pieces b.
Proof.
  intros Hb. remember (length a) as n eqn:Hn. revert a Hn. induction (lt_wf n) as [n _ IH]. intros [|c t] Hn; [done |].
  pose proof (DecodeRune_width c t) as Hw. rewrite <- app_comm_cons, !pieces_step. cbn zeta.
  rewrite app_comm_cons, DecodeRune_app by done. cbn [length] in Hn.
  rewrite take_app_le, drop_app_le by (cbn [length]; lia). rewrite <- app_comm_cons. f_equal.
  apply (IH (length (drop (DecodeRune (c :: t)).2 (c :: t)))); [rewrite length_drop; cbn [length]; lia | done].
Qed.

(** Decoding loses no byte. *)
Lemma text_pieces bs : text (pieces bs) = bs.
Proof.
  remember (length bs) as n eqn:Hn. revert bs Hn. induction (lt_wf n) as [n _ IH]. intros [|c t] Hn; [done |].
  pose proof (DecodeRune_width c t) as Hw. rewrite pieces_step. cbn zeta. unfold text. cbn [fmap list_fmap concat snd]. fold (text (pieces (drop (DecodeRune (c :: t)).2 (c :: t)))).
  rewrite (IH (length (drop (DecodeRune (c :: t)).2 (c :: t)))); [apply take_drop | cbn [length] in *; rewrite length_drop; cbn [length]; lia | done].
Qed.

Lemma pieces_ascii bs : Forall (fun c => byte c < 128) bs -> pieces bs = (fun c => (byte c, [c])) <$> bs.
Proof.
  induction 1 as [|c t Hc _ IH]; [done |]. assert (DecodeRune (c :: t) = (byte c, 1%nat)) as E.
  { cbn [DecodeRune]. unfold first. by rewrite (proj2 (in_range_spec 0 127 (byte c))) by (pose proof (byte_range c); lia). }
  rewrite pieces_step, E. cbn [fst snd drop take]. by rewrite drop_0, IH.
Qed.

(** ** Values after a key *)

Definition plain (p : piece) : Prop := is_sep p.1 = false.
Definition space (p : piece) : Prop := is_s p.1 = true.
Definition solid (p : piece) : Prop := is_s p.1 = false.

(** The end of the text, or a space. *)
Definition bounded (l : list piece) : Prop := forall p t, l = p :: t -> space p.

Lemma span_app p a b : Forall (fun x => p x.1 = true) a -> (forall x t, b = x :: t -> p x.1 = false) -> span p (a ++ b) = length a.
Proof.
  induction 1 as [|[r bs] a Hr _ IH]; intros Hb; cbn [app span length].
  - destruct b as [|[r bs] t]; [done |]. cbn [span]. pose proof (Hb _ _ eq_refl) as H. cbn [fst] in H. by rewrite H.
  - cbn [fst] in Hr. rewrite Hr. f_equal. by apply IH.
Qed.

Lemma fold_letter_sep c r : 97 <= c -> fold_letter c r = true -> is_sep r = false.
Proof.
  unfold fold_letter, is_sep. intros Hc H. rewrite orb_false_iff, !bool_decide_eq_false.
  rewrite !orb_true_iff, !andb_true_iff, !bool_decide_eq_true in H. lia.
Qed.

Lemma sep_not_dash r : is_sep r = true -> is_dash r = false.
Proof. unfold is_sep, is_dash. rewrite orb_true_iff, orb_false_iff, !bool_decide_eq_true, !bool_decide_eq_false. lia. Qed.

Lemma sep_not_space r : is_sep r = true -> is_s r = false.
Proof.
  unfold is_sep, is_s. rewrite orb_true_iff, !bool_decide_eq_true, bool_decide_eq_false. intros H Hin.
  repeat (apply elem_of_cons in Hin as [Hin|Hin]; [lia |]). by apply elem_of_nil in Hin.
Qed.

(** Words of lower-case letters. *)
Definition word_ok (w : list item) : Prop := Forall (fun i => match i with L c => 97 <= c | D => True end) w.

(** Whether a word matches is decided before the first separator. *)
Lemma match_word_sep w : word_ok w -> forall P sp X, Forall plain P -> is_sep sp.1 = true ->
  match_word w (P ++ sp :: X) = match_word w (P ++ [sp]) /\
  forall n, match_word w (P ++ [sp]) = Some n -> (n <= length P)%nat.
Proof.
  induction 1 as [|[c|] w Hc _ IH]; intros P sp X HP Hsp; cbn [match_word]; [split; [done | intros n [= <-]; lia] | |].
  - destruct P as [|[r bs] P]; cbn [app].
    + destruct sp as [r bs]. cbn [fst] in Hsp. destruct (fold_letter c r) eqn:E; [|done]. by rewrite (fold_letter_sep c r Hc E) in Hsp.
    + destruct (fold_letter c r); [|done]. apply Forall_cons in HP as [_ HP]. destruct (IH P sp X HP Hsp) as [-> Hn].
      split; [done |]. intros n (k & Hk & ->)%fmap_Some. specialize (Hn k Hk). cbn [length]. lia.
  - destruct P as [|[r bs] P]; cbn [app].
    + destruct sp as [r bs]. cbn [fst] in Hsp. rewrite (sep_not_dash r Hsp). apply (IH [] (r, bs) X); done.
    + destruct (is_dash r); [|by apply (IH ((r, bs) :: P) sp X)]. apply Forall_cons in HP as [_ HP].
      destruct (IH P sp X HP Hsp) as [-> Hn]. split; [done |]. intros n (k & Hk & ->)%fmap_Some. specialize (Hn k Hk). cbn [length]. lia.
Qed.

Lemma keywords_ok : Forall word_ok keywords.
Proof. vm_compute. repeat constructor; done. Qed.

(** What follows the separator of a key: spaces, a value, and its end. *)
Lemma match_value_sep P sp s2 v R : Forall plain P -> is_sep sp.1 = true -> Forall space s2 -> Forall solid v -> v ≠ [] -> bounded R ->
  match_value (P ++ sp :: s2 ++ v ++ R) =
  if forallb (fun p => is_s p.1) P then Some (length P + 1 + length s2 + length v)%nat else None.
Proof.
  intros HP Hsp Hs Hv Hne HR. unfold match_value. induction HP as [|[r bs] P Hr HP IH]; cbn [app forallb].
  - destruct sp as [r bs]. cbn [span fst] in *. rewrite (sep_not_space r Hsp). cbn [drop]. rewrite Hsp.
    rewrite (span_app is_s s2 (v ++ R)); [|done | destruct v; [done |]; intros x t [= <- _]; by apply Forall_cons in Hv as [? _]].
    rewrite drop_app_length, (span_app (fun r => negb (is_s r)) v R).
    + rewrite bool_decide_false by (by destruct v). done.
    + eapply Forall_impl; [exact Hv |]. intros x Hx. unfold solid in Hx. by rewrite Hx.
    + intros x t ->. specialize (HR x t eq_refl). unfold space in HR. by rewrite HR.
  - cbn [span fst]. destruct (is_s r) eqn:Er; cbn [andb drop].
    + destruct (drop (span is_s (P ++ sp :: s2 ++ v ++ R)) (P ++ sp :: s2 ++ v ++ R)) as [|[r' bs'] t]; [by destruct (forallb _ P) |].
      destruct (is_sep r'); [|by destruct (forallb _ P)].
      destruct (bool_decide _); [by destruct (forallb _ P) |]. destruct (forallb _ P); [|done].
      injection IH as IH. f_equal. cbn [length]. lia.
    + unfold plain in Hr. cbn [fst] in Hr. by rewrite Hr.
Qed.

(** Whether a key ends [P], before the separator [sp]. *)
Definition key_in (ws : list (list item)) (P : list piece) (sp : piece) : bool :=
  existsb (fun w => match match_word w (P ++ [sp]) with
                    | Some n => forallb (fun p => is_s p.1) (drop n P)
                    | None => false
                    end) ws.

Lemma match_keys_sep ws P sp s2 v R : Forall word_ok ws ->
  Forall plain P -> is_sep sp.1 = true -> Forall space s2 -> Forall solid v -> v ≠ [] -> bounded R ->
  match_keys ws (P ++ sp :: s2 ++ v ++ R) =
  if key_in ws P sp then Some (length P + 1 + length s2 + length v)%nat else None.
Proof.
  intros Hw HP Hsp Hs Hv Hne HR. induction Hw as [|w ws Hw _ IH]; [done |]. cbn [match_keys key_in existsb].
  destruct (match_word_sep w Hw P sp (s2 ++ v ++ R) HP Hsp) as [-> Hn].
  destruct (match_word w (P ++ [sp])) as [n|]; [|exact IH]. specialize (Hn n eq_refl).
  rewrite drop_app_le by done. rewrite match_value_sep by (by try apply Forall_drop).
  destruct (forallb _ (drop n P)); [|exact IH]. cbn [orb]. f_equal. rewrite length_drop. lia.
Qed.

(** Only [B] and [b] have the lower case [b]. *)
Definition lower_b (lower : Z -> Z) : Prop := forall r, lower r = 98 -> r = 98 \/ r = 66.

Lemma key_not_bearer lower P sp X : lower_b lower -> key_in keywords P sp = true -> Forall plain P -> is_sep sp.1 = true ->
  take 7 (lower <$> (P ++ X).*1) ≠ byte <$> ascii_text "bearer ".
Proof.
  intros Hl (w & Hw & Hk)%existsb_exists HP Hsp. destruct (match_word w (P ++ [sp])) as [n|] eqn:E; [|done].
  assert (exists c w', w = L c :: w' /\ c ∈ [112; 115; 116; 97]) as (c & w' & -> & Hc).
  { unfold keywords in Hw. cbn in Hw. repeat (destruct Hw as [<-|Hw]; [do 2 eexists; split; [reflexivity |]; apply (bool_decide_unpack _); vm_compute; exact I |]). done. }
  destruct P as [|[r bs] P]; cbn [app match_word] in E.
  - destruct sp as [r bs]. destruct (fold_letter c r) eqn:Ef; [|done].
    assert (97 <= c) as Hge by (repeat (apply elem_of_cons in Hc as [->|Hc]; [lia |]); by apply elem_of_nil in Hc).
    cbn [fst] in Hsp. by rewrite (fold_letter_sep c r Hge Ef) in Hsp.
  - destruct (fold_letter c r) eqn:Ef; [|done]. cbn. intros [= Hr _]. destruct (Hl r) as [->| ->]; [done | |];
      repeat (apply elem_of_cons in Hc as [->|Hc]; [done |]); by apply elem_of_nil in Hc.
Qed.

(** The match at a key covers the value, and its replacement does not contain it. *)
Lemma redacted_key lower P sp s2 v : lower_b lower -> key_in keywords P sp = true -> Forall plain P -> is_sep sp.1 = true ->
  redacted lower (P ++ sp :: s2 ++ v) = text (P ++ [sp]) ++ ascii_text " [REDACTED]".
Proof.
  intros Hl Hk HP Hsp. unfold redacted. rewrite bool_decide_false by (by apply (key_not_bearer lower P sp)).
  assert (list_find (fun p => is_sep p.1 = true) (P ++ sp :: s2 ++ v) = Some (length P, sp)) as ->.
  { clear Hk. induction HP as [|x P Hx HP IH]; cbn [app list_find length].
    - by rewrite decide_True.
    - unfold plain in Hx. rewrite decide_False by congruence. by rewrite IH. }
  rewrite take_app_ge by lia. by replace (S (length P) - length P)%nat with 1%nat by lia.
Qed.

Lemma replace_skip f mt l R : replace_from f mt (length l) (l ++ R) = replace_from f mt 0 R.
Proof. induction l as [|x l IH]; [done | apply IH]. Qed.

Lemma replace_match f mt M R : M ≠ [] -> mt (M ++ R) = Some (length M) ->
  replace_from f mt 0 (M ++ R) = f M ++ replace_from f mt 0 R.
Proof.
  destruct M as [|x M]; [done |]. intros _ E. cbn [app replace_from] in *. rewrite E. cbn [length take].
  rewrite take_app_length. by replace (S (length M) - 1)%nat with (length M) by lia; rewrite replace_skip.
Qed.

(** The pass at a key. *)
Lemma replace_key lower P sp s2 v R : lower_b lower ->
  Forall plain P -> is_sep sp.1 = true -> Forall space s2 -> Forall solid v -> v ≠ [] -> bounded R -> key_in keywords P sp = true ->
  replace_from (redacted lower) match_kv 0 (P ++ sp :: s2 ++ v ++ R) =
  (text (P ++ [sp]) ++ ascii_text " [REDACTED]") ++ replace_from (redacted lower) match_kv 0 R.
Proof.
  intros Hl HP Hsp Hs Hv Hne HR Hk. rewrite <- (redacted_key lower P sp s2 v) by done.
  replace (P ++ sp :: s2 ++ v ++ R) with ((P ++ sp :: s2 ++ v) ++ R) by (by rewrite <- !app_assoc, <- app_comm_cons, <- app_assoc).
  apply replace_match; [by destruct P |]. rewrite <- app_assoc, <- app_comm_cons, <- app_assoc.
  unfold match_kv. rewrite match_keys_sep by (done || apply keywords_ok). rewrite Hk. f_equal. rewrite length_app. cbn [length]. rewrite length_app. lia.
Qed.

(** The pass for keys over text whose first separator follows a key. *)
Lemma pieces_hidden lower Q K sp s2 R v1 v2 : lower_b lower ->
  Forall plain (Q ++ K) -> is_sep sp.1 = true -> Forall space s2 -> bounded R -> key_in keywords K sp = true ->
  Forall solid v1 -> v1 ≠ [] -> Forall solid v2 -> v2 ≠ [] ->
  replace_from (redacted lower) match_kv 0 ((Q ++ K) ++ sp :: s2 ++ v1 ++ R) =
  replace_from (redacted lower) match_kv 0 ((Q ++ K) ++ sp :: s2 ++ v2 ++ R).
Proof.
  intros Hl HP Hsp Hs HR HK Hv1 Hn1 Hv2 Hn2. induction Q as [|x Q IH]; [by rewrite !replace_key |].
  destruct (key_in keywords ((x :: Q) ++ K) sp) eqn:Ek; [by rewrite !replace_key |].
  pose proof (match_keys_sep keywords ((x :: Q) ++ K) sp s2 v1 R keywords_ok HP Hsp Hs Hv1 Hn1 HR) as E1.
  pose proof (match_keys_sep keywords ((x :: Q) ++ K) sp s2 v2 R keywords_ok HP Hsp Hs Hv2 Hn2 HR) as E2.
  rewrite Ek in E1, E2. change (match_keys keywords) with match_kv in E1, E2.
  cbn [app replace_from] in *. rewrite E1, E2. f_equal. apply IH. by apply Forall_cons in HP as [_ ?].
Qed.

(** *** Bytes *)

Lemma match_word_exact w : word_ok w -> forall ps, match_word w ps = Some (length ps) -> Forall plain ps.
Proof.
  induction 1 as [|[c|] w Hc _ IH]; intros ps; cbn [match_word].
  - intros [= Hl]. by destruct ps.
  - destruct ps as [|[r bs] ps]; [done |]. destruct (fold_letter c r) eqn:E; [|done].
    intros (n & Hn & Hl)%fmap_Some. cbn [length] in Hl. injection Hl as <-. constructor; [|by apply IH].
    unfold plain. cbn [fst]. by apply (fold_letter_sep c).
  - destruct ps as [|[r bs] ps]; [by intros |]. destruct (is_dash r) eqn:E; [|apply IH].
    intros (n & Hn & Hl)%fmap_Some. cbn [length] in Hl. injection Hl as <-. constructor; [|by apply IH].
    unfold plain. cbn [fst]. destruct (is_sep r) eqn:Es; [|done]. by rewrite (sep_not_dash r Es) in E.
Qed.

(** [key] is one of the keywords, in any case. *)
Definition is_key (key : bytes) : Prop :=
  starts key /\ exists w, w ∈ keywords /\ match_word w (pieces key) = Some (length (pieces key)).

Lemma match_word_more w X : (forall x t, X = x :: t -> is_dash x.1 = false) ->
  forall ps n, match_word w ps = Some n -> match_word w (ps ++ X) = Some n.
Proof.
  intros HX. induction w as [|[c|] w IH]; intros ps n; cbn [match_word]; [done | |].
  - destruct ps as [|[r bs] ps]; [done |]. cbn [app]. destruct (fold_letter c r); [|done].
    intros (k & Hk & ->)%fmap_Some. by rewrite (IH _ _ Hk).
  - destruct ps as [|[r bs] ps].
    + intros H%IH. cbn [app] in *. destruct X as [|[r bs] X]; [done |]. specialize (HX _ _ eq_refl). cbn [fst] in HX. by rewrite HX.
    + cbn [app]. destruct (is_dash r); [|apply (IH ((r, bs) :: ps))]. intros (k & Hk & ->)%fmap_Some. by rewrite (IH _ _ Hk).
Qed.

Lemma space_not_dash r : is_s r = true -> is_dash r = false.
Proof.
  unfold is_s, is_dash. rewrite bool_decide_eq_true, orb_false_iff, !bool_decide_eq_false. intros Hin.
  repeat (apply elem_of_cons in Hin as [->|Hin]; [done |]). by apply elem_of_nil in Hin.
Qed.

Lemma key_in_key key s1 sp : is_key key -> Forall space s1 -> is_sep sp.1 = true ->
  key_in keywords (pieces key ++ s1) sp = true /\ Forall plain (pieces key ++ s1).
Proof.
  intros [_ (w & Hw & E)] Hs Hsp. split.
  - apply existsb_exists. exists w. split; [by apply list_elem_of_In |]. rewrite <- app_assoc.
    rewrite (match_word_more w (s1 ++ [sp])) with (n := length (pieces key)); [|destruct Hs as [|x l Hx Hs]; intros y t [= <- _]; [by apply sep_not_dash | by apply space_not_dash] | done].
    rewrite drop_app_length. apply forallb_forall. intros x Hx%list_elem_of_In. rewrite Forall_forall in Hs. by apply Hs.
  - apply Forall_app. split; [|eapply Forall_impl; [exact Hs |]; intros x Hx; unfold plain; destruct (is_sep x.1) eqn:E'; [|done];
      unfold space in Hx; by rewrite (sep_not_space _ E') in Hx].
    eapply match_word_exact; [|exact E]. pose proof keywords_ok as Hok. rewrite Forall_forall in Hok. by apply Hok.
Qed.

Lemma starts_app a b : starts a -> starts b -> starts (a ++ b).
Proof. destruct a as [|c t]; intros Ha Hb; [done |]. intros c' t' [= <- _]. by eapply Ha. Qed.

Lemma pieces_nonempty bs : bs ≠ [] -> pieces bs ≠ [].
Proof. intros H E. apply H. by rewrite <- (text_pieces bs), E. Qed.

(** [bs] is ASCII white space. *)
Definition blank (bs : bytes) : Prop := Forall (fun c => is_s (byte c) = true) bs.

Lemma is_s_ascii r : is_s r = true -> r < 128.
Proof. unfold is_s. rewrite bool_decide_eq_true. intros Hin. repeat (apply elem_of_cons in Hin as [->|Hin]; [lia |]). by apply elem_of_nil in Hin. Qed.

Lemma ascii_starts c t : byte c < 128 -> starts (c :: t).
Proof. intros Hc c' t' [= <- _]. unfold RuneStart. rewrite negb_true_iff, in_range_false. lia. Qed.

Lemma blank_pieces bs : blank bs -> Forall space (pieces bs) /\ starts bs.
Proof.
  intros Hb. split.
  - rewrite pieces_ascii; [by apply Forall_fmap | eapply Forall_impl; [exact Hb |]; intros c; apply is_s_ascii].
  - destruct Hb as [|c t Hc _]; [done | by apply ascii_starts, is_s_ascii].
Qed.

(** Bytes that are a value: at least one rune and no white space. *)
Definition value (bs : bytes) : Prop := starts bs /\ bs ≠ [] /\ Forall solid (pieces bs).

(** The value of a secret-looking key does not leak.  Whatever precedes it (without
    a separator of its own), in whatever case the keyword is written and whatever white
    space surrounds the separator: the output of the pass for keys is the same for every
    value, so nothing of it is left in the text. *)
Theorem value_hidden lower pre key s1 sep s2 v1 v2 rest :
  lower_b lower -> Forall plain (pieces pre) -> is_key key -> blank s1 -> is_sep (byte sep) = true -> blank s2 ->
  value v1 -> value v2 -> (rest = [] \/ exists c t, rest = c :: t /\ is_s (byte c) = true) ->
  pass lower match_kv (pre ++ key ++ s1 ++ [sep] ++ s2 ++ v1 ++ rest) =
  pass lower match_kv (pre ++ key ++ s1 ++ [sep] ++ s2 ++ v2 ++ rest).
Proof.
  intros Hl Hpre Hkey Hs1 Hsep Hs2 Hv1 Hv2 Hrest.
  assert (byte sep < 128) as Hsep' by (unfold is_sep in Hsep; rewrite orb_true_iff, !bool_decide_eq_true in Hsep; lia).
  assert (starts rest /\ bounded (pieces rest)) as [Hr1 Hr2].
  { destruct Hrest as [->|(c & t & -> & Hc)]; [done |]. split; [by apply ascii_starts, is_s_ascii |].
    intros p l. rewrite pieces_step. unfold DecodeRune, first.
    rewrite (proj2 (in_range_spec 0 127 (byte c))) by (pose proof (byte_range c); pose proof (is_s_ascii _ Hc); lia). by intros [= <- _]. }
  assert (forall v, value v -> pieces (pre ++ key ++ s1 ++ [sep] ++ s2 ++ v ++ rest) =
    (pieces pre ++ pieces key ++ pieces s1) ++ (byte sep, [sep]) :: pieces s2 ++ pieces v ++ pieces rest) as Hp.
  { intros v (Hv & _ & _). pose proof (proj2 (blank_pieces s1 Hs1)). pose proof (proj2 (blank_pieces s2 Hs2)).
    pose proof (ascii_starts sep [] Hsep'). destruct Hkey as [Hk _].
    rewrite !pieces_app by (repeat apply starts_app; done). rewrite (pieces_ascii [sep]) by (by repeat constructor).
    by rewrite <- !app_assoc. }
  unfold pass. rewrite !Hp by done. destruct Hv1 as (_ & Hn1 & Hv1), Hv2 as (_ & Hn2 & Hv2).
  destruct (key_in_key key (pieces s1) (byte sep, [sep])) as [Hk Hkp]; [done | by apply blank_pieces | done |].
  apply pieces_hidden; try done; try (by apply Forall_app); try (by apply blank_pieces); by apply pieces_nonempty.
Qed.

(** A token that follows [Bearer] and a tab and ends in [=] is not hidden: the
    replacement keeps everything up to the padding. *)
Lemma bearer_after_tab_leaks :
  Redact lower_ascii ("Bearer" +:+ String "009" "abc123==") = "Bearer" +:+ String "009" "abc123= [REDACTED]".
Proof. vm_compute. reflexivity. Qed.

(** A key that is taken for the value of the key before it leaves its own value. *)
Lemma second_value_leaks : Redact lower_ascii "token= password: hunter2" = "token= [REDACTED] hunter2".
Proof. vm_compute. reflexivity. Qed.

Lemma value_hidden_witness :
  pass lower_ascii match_kv (ascii_text "user bob, Api-Key" ++ ascii_text " " ++ [":"%char] ++ ascii_text " " ++ ascii_text "k1" ++ ascii_text " ok") =
  pass lower_ascii match_kv (ascii_text "user bob, Api-Key" ++ ascii_text " " ++ [":"%char] ++ ascii_text " " ++ ascii_text "other" ++ ascii_text " ok").
Proof.
  refine (value_hidden lower_ascii (ascii_text "user bob, ") (ascii_text "Api-Key") (ascii_text " ") ":"%char (ascii_text " ")
    (ascii_text "k1") (ascii_text "other") (ascii_text " ok") _ _ _ _ _ _ _ _ _).
  - intros r. unfold lower_ascii. destruct (in_range 65 90 r) eqn:E; [apply in_range_spec in E; lia | by left].
  - unfold blank, plain, solid; apply (bool_decide_unpack _); vm_compute; exact I.
  - split; [intros c t [= <- _]; reflexivity |]. exists (word "api?key"). split; [|vm_compute; reflexivity].
    apply (bool_decide_unpack _). vm_compute. exact I.
  - unfold blank, plain, solid; apply (bool_decide_unpack _); vm_compute; exact I.
  - reflexivity.
  - unfold blank, plain, solid; apply (bool_decide_unpack _); vm_compute; exact I.
  - split; [intros c t [= <- _]; reflexivity |]. split; [done |]. unfold blank, plain, solid; apply (bool_decide_unpack _); vm_compute; exact I.
  - split; [intros c t [= <- _]; reflexivity |]. split; [done |]. unfold blank, plain, solid; apply (bool_decide_unpack _); vm_compute; exact I.
  - right. do 2 eexists. split; [reflexivity | reflexivity].
Defined.

(** ** References and rotations *)

Lemma trim_prefix_app p t : trim_prefix (p +:+ t) p = t.
Proof.
  unfold trim_prefix, HasPrefix. assert (String.prefix p (p +:+ t) = true) as ->.
  { induction p as [|c p IH]; [by destruct t |]. simpl. destruct (ascii_dec c c); [apply IH | done]. }
  induction p as [|c p IH]; [by destruct t |]. change (String c p +:+ t) with (String c (p +:+ t)). cbn [TrimPrefix]. by rewrite bool_decide_true.
Qed.

(** A parsed reference names something, and resolving it fails only because the
    variable or the file cannot be read. *)
Theorem parsed_ref_resolves s r readFile lookup : ParseRef s = inr r ->
  raw r = TrimSpace s /\ (Scheme r = "env" \/ Scheme r = "file") /\ PathOrName r ≠ "" /\
  Resolve readFile lookup r =
    match (if bool_decide (Scheme r = "env") then String.list_ascii_of_string <$> lookup (PathOrName r) else readFile (PathOrName r)) with
    | Some v => inr v
    | None => inl SErrResolveFailed
    end.
Proof.
  unfold ParseRef. destruct (bool_decide_reflect (TrimSpace s = "")) as [|Hne]; [done |].
  destruct (HasPrefix (TrimSpace s) "env://") eqn:He; [|destruct (HasPrefix (TrimSpace s) "file://") eqn:Hf; [|done]].
  - apply prefix_app in He as [t Ht]. rewrite Ht, trim_prefix_app. destruct (bool_decide_reflect (t = "")) as [|Hn]; [done |]. intros [= <-].
    assert (Scheme (mkRef ("env://" +:+ t)) = "env") as Hs by (by destruct t).
    assert (PathOrName (mkRef ("env://" +:+ t)) = t) as Hp by (unfold PathOrName; rewrite Hs; apply trim_prefix_app).
    split; [done |]. split; [by left |]. split; [by rewrite Hp |]. unfold Resolve. rewrite Hs, Hp. cbn. by destruct (lookup t).
  - apply prefix_app in Hf as [t Ht]. rewrite Ht, trim_prefix_app. destruct (bool_decide_reflect (t = "")) as [|Hn]; [done |]. intros [= <-].
    assert (Scheme (mkRef ("file://" +:+ t)) = "file") as Hs by (by destruct t).
    assert (PathOrName (mkRef ("file://" +:+ t)) = strip_drive t) as Hp by (unfold PathOrName; rewrite Hs; cbn [raw]; by rewrite trim_prefix_app).
    split; [done |]. split; [by right |]. split; [|unfold Resolve; rewrite Hs; by destruct (readFile _)].
    rewrite Hp. unfold strip_drive. destruct (_ && _) eqn:Eb; [|done]. apply andb_true_iff in Eb as [[E1 E2]%andb_true_iff _].
    apply prefix_app in E1 as [u ->]. rewrite trim_prefix_app. intros ->. by rewrite bool_decide_eq_true in E2.
Qed.

(** What a log may hold. *)
Record rotation_ok (l : RotationLog) : Prop := {
  ro_bound : 0 < rl_max l /\ Z.of_nat (size (rl_recs l)) <= rl_max l;
  ro_recs : map_Forall (fun k r => ro_Name r = k /\ k ≠ "" /\ looksLikeValue (ro_OldRef r) = false /\ looksLikeValue (ro_NewRef r) = false) (rl_recs l) }.

Inductive rotation_step : RotationLog -> RotationLog -> Prop :=
| rs_plan now name o n actor l : rotation_step l (Plan now name o n actor l).1
| rs_advance now name phase msg l : rotation_step l (Advance now name phase msg l).1.

(** The log stays bounded and holds references only. *)
Theorem rotations_hold_refs max l : steps rotation_step (NewRotationLog max) l -> rotation_ok l.
Proof.
  intros Hs. eapply steps_invariant; [|exact Hs |].
  - clear. intros l l' [Hb Hr] Hst. destruct Hst as [now name o n actor l|now name phase msg l].
    + unfold Plan. destruct (bool_decide_reflect (name = "")) as [|Hn]; [done |]. cbn [orb].
      destruct (_ || _); [done |]. destruct (looksLikeValue (raw o)) eqn:Eo; [done |]. destruct (looksLikeValue (raw n)) eqn:En; [done |]. cbn [orb].
      destruct (bool_decide_reflect (rl_max l <= Z.of_nat (size (rl_recs l)))) as [|Hlt]; [done |].
      destruct (rl_recs l !! name) eqn:E; [done |]. split; cbn [fst rl_max rl_recs].
      * split; [lia |]. rewrite map_size_insert_None by done. lia.
      * apply map_Forall_insert_2; [done | exact Hr].
    + unfold Advance. destruct (rl_recs l !! name) as [r|] eqn:E; [|done]. split; cbn [fst rl_max rl_recs].
      * rewrite map_size_insert_Some by eauto. done.
      * apply map_Forall_insert_2; [exact (Hr name r E) | exact Hr].
  - split; cbn; [|apply map_Forall_empty]. unfold DefaultMaxRotations. case_bool_decide; rewrite map_size_empty; lia.
Qed.

(** [Advance] does not look at the phase a rotation is in: a retired one is planned again. *)
Lemma rotation_runs_backwards :
  let r := mkRef "env://A" in
  let l := (Advance 3 "db" RotationPlanned "" (Advance 2 "db" RotationRetired "" (Plan 1 "db" r r "op" (NewRotationLog 0)).1).1).1 in
  ro_Phase <$> rl_recs l !! "db" = Some RotationPlanned.
Proof. vm_compute. reflexivity. Qed.
