(* ===== verification/Scanner.v ===== *)
(** * Configuration scanner and attestation ([security/scanner/scanner.go],
    [security/attestation/attestation.go])

    The rules of the scanner, the order of its findings and the SARIF view of them; trust
    levels of attestation evidence.  JSON and text output are left out. *)

From S2P Require Import Prelude GoStrings Runes Secrets.
From Stdlib Require Import Ascii.
From stdpp Require Import sorting.

#[local] Open Scope Z_scope.

(** ** Scanner *)

Inductive Severity := SeverityInfo | SeverityLow | SeverityMedium | SeverityHigh | SeverityCritical.

#[global] Instance Severity_eq_dec : EqDecision Severity.
Proof. solve_decision. Defined.

(** Titles, messages and remediations are fixed by the rule, but for the number in
    the message about the lease. *)
Record Finding := mkFinding { f_RuleID : string; f_Severity : Severity; f_Title : string; f_Seconds : option Z; f_Path : string }.

Record Input := mkInput {
  Production : bool; SignaturesRequired : bool; UnsignedConfigActive : bool; AllowInsecureSkipVerify : bool;
  TCPAgentListener : bool; ShellExecEnabled : bool; UnboundedQueue : bool; AuditVerifyOnStart : bool;
  DenyByDefault : bool; SecurityProfile : string; LeaseTTLSeconds : Z; CapabilitiesUnsigned : bool }.

(** [strings.EqualFold(s, t)] for [t] of lower-case letters and hyphens. *)
Definition fold_char (c : ascii) (r : Z) : bool :=
  if in_range 97 122 (byte c) then fold_letter (byte c) r else bool_decide (r = byte c).

Definition EqualFold (s t : string) : bool :=
  bool_decide (length (range s) = String.length t) &&
  forallb (fun cr => fold_char cr.1 cr.2) (zip (String.list_ascii_of_string t) (range s)).

Definition rule (cond : bool) (f : Finding) : list Finding := if cond then [f] else [].

Definition rules (i : Input) : list (bool * Finding) :=
  [ (Production i && UnsignedConfigActive i,
     mkFinding "CFG-UNSIGNED-PROD" SeverityCritical "Unsigned configuration active in production" None "configlock.active");
    (Production i && negb (SignaturesRequired i),
     mkFinding "CFG-SIG-OPTIONAL" SeverityHigh "Configuration signatures not required" None "");
    (AllowInsecureSkipVerify i,
     mkFinding "TLS-SKIP-VERIFY" SeverityCritical "TLS certificate verification disabled" None "");
    (TCPAgentListener i, mkFinding "AGENT-TCP" SeverityHigh "Agent TCP listener enabled" None "");
    (ShellExecEnabled i, mkFinding "EXEC-SHELL" SeverityCritical "Shell execution enabled" None "");
    (UnboundedQueue i, mkFinding "QUEUE-UNBOUNDED" SeverityHigh "Unbounded queue configured" None "");
    (Production i && negb (AuditVerifyOnStart i),
     mkFinding "AUDIT-NO-VERIFY" SeverityMedium "Audit chain not verified on start" None "");
    (negb (DenyByDefault i), mkFinding "POLICY-PERMIT-DEFAULT" SeverityHigh "Policy does not deny by default" None "");
    (CapabilitiesUnsigned i && (Production i || EqualFold (SecurityProfile i) "hardened" || EqualFold (SecurityProfile i) "maximum-security"),
     mkFinding "CAP-UNSIGNED" SeverityHigh "Capabilities issued without signatures" None "");
    (bool_decide (0 < LeaseTTLSeconds i) && bool_decide (300 < LeaseTTLSeconds i) && Production i,
     mkFinding "LEASE-TTL-LONG" SeverityLow "Long lease TTL in production" (Some (LeaseTTLSeconds i)) "");
    (EqualFold (SecurityProfile i) "development" && Production i,
     mkFinding "PROFILE-DEV-IN-PROD" SeverityCritical "Development security profile in production" None "") ].

Definition severityRank (s : Severity) : Z :=
  match s with SeverityCritical => 5 | SeverityHigh => 4 | SeverityMedium => 3 | SeverityLow => 2 | SeverityInfo => 1 end.

Definition finding_le (a b : Finding) : Prop :=
  if bool_decide (f_Severity a = f_Severity b) then String.le (f_RuleID a) (f_RuleID b)
  else severityRank (f_Severity b) < severityRank (f_Severity a).

#[global] Instance finding_le_dec a b : Decision (finding_le a b).
Proof. unfold finding_le. case_bool_decide; apply _. Defined.

(** [Scan]; no two findings have the same rule, so the order of [sort.Slice] is fixed. *)
Definition Scan (i : Input) : list Finding := merge_sort finding_le (rules i ≫= (fun cf => rule cf.1 cf.2)).

(** *** SARIF *)

Definition sarifLevel (s : Severity) : string :=
  match s with SeverityCritical | SeverityHigh => "error" | SeverityMedium => "warning" | _ => "note" end.

Record sarif_rule := mkSarifRule { sr_ID : string; sr_Short : string; sr_Level : string }.
Record sarif_result := mkSarifResult { st_RuleID : string; st_Level : string; st_Seconds : option Z }.

Fixpoint sarif_loop (seen : gset string) (fs : list Finding) : list sarif_rule * list sarif_result :=
  match fs with
  | [] => ([], [])
  | f :: fs =>
    let '(rs, ss) := sarif_loop ({[f_RuleID f]} ∪ seen) fs in
    ((if bool_decide (f_RuleID f ∈ seen) then rs else mkSarifRule (f_RuleID f) (f_Title f) (sarifLevel (f_Severity f)) :: rs),
     mkSarifResult (f_RuleID f) (sarifLevel (f_Severity f)) (f_Seconds f) :: ss)
  end.

Definition writeSARIF (fs : list Finding) : list sarif_rule * list sarif_result := sarif_loop ∅ fs.

(** ** Attestation *)

Inductive TrustLevel :=
| TrustSelfReported | TrustPlatformVerified | TrustCryptoVerified | TrustExternallyAttested | TrustOther (s : string).

#[global] Instance TrustLevel_eq_dec : EqDecision TrustLevel.
Proof. solve_decision. Defined.

Record AttestEvidence := mkAttest { ae_Kind : string; ae_Value : string; ae_Trust : TrustLevel; ae_CollectedAt : Time }.

Definition Verified (e : AttestEvidence) : bool :=
  match ae_Trust e with TrustPlatformVerified | TrustCryptoVerified | TrustExternallyAttested => true | _ => false end.

Record AttestReport := mkAttestReport {
  ar_Service : string; ar_InstanceID : string; ar_GenerationID : string; ar_ModuleVersion : string;
  ar_CollectedAt : Time; ar_Evidence : list AttestEvidence; ar_OverallTrust : TrustLevel }.

(** The table [rank]; a level it does not list reads as zero. *)
Definition trust_rank (t : TrustLevel) : Z :=
  match t with
  | TrustSelfReported => 1 | TrustPlatformVerified => 2 | TrustCryptoVerified => 3 | TrustExternallyAttested => 4 | TrustOther _ => 0
  end.

Definition OverallTrustFromEvidence (ev : list AttestEvidence) : TrustLevel :=
  foldl (fun best e => if bool_decide (trust_rank best < trust_rank (ae_Trust e)) then ae_Trust e else best) TrustSelfReported ev.

Definition SelfReport (now : Time) (service instance generation moduleVersion : string) : AttestReport :=
  let ev k v := mkAttest k v TrustSelfReported now in
  mkAttestReport service instance generation moduleVersion now
    ([ev "service" service; ev "instance_id" instance] ++
     (if bool_decide (generation = "") then [] else [ev "generation_id" generation]) ++
     (if bool_decide (moduleVersion = "") then [] else [ev "module_version" moduleVersion])) TrustSelfReported.

Definition RequireMinTrust (min : TrustLevel) (r : AttestReport) : bool := bool_decide (trust_rank min <= trust_rank (ar_OverallTrust r)).

(** ** What a scan reports *)

Lemma severityRank_inj a b : severityRank a = severityRank b -> a = b.
Proof. by destruct a, b. Qed.

Lemma finding_le_alt a b : finding_le a b <->
  severityRank (f_Severity b) < severityRank (f_Severity a) \/
  (f_Severity a = f_Severity b /\ String.le (f_RuleID a) (f_RuleID b)).
Proof. unfold finding_le. case_bool_decide as E; [rewrite E; split; [by right | intros [H|[_ H]]; [lia | done]] | split; [by left | by intros [H|[H _]]]]. Qed.

#[global] Instance finding_le_trans : Transitive finding_le.
Proof.
  intros a b c. rewrite !finding_le_alt. intros [H1|[E1 H1]] [H2|[E2 H2]].
  - left. lia.
  - left. by rewrite <- E2.
  - left. by rewrite E1.
  - right. split; [congruence | by transitivity (f_RuleID b)].
Qed.

#[global] Instance finding_le_total : Total finding_le.
Proof.
  intros a b. rewrite !finding_le_alt. destruct (decide (f_Severity a = f_Severity b)) as [E|E].
  - destruct (total String.le (f_RuleID a) (f_RuleID b)); [left | right]; by right.
  - assert (severityRank (f_Severity a) ≠ severityRank (f_Severity b)) by (by intros ?%severityRank_inj). lia.
Qed.

Lemma fired_ids i : (f_RuleID <$> (rules i ≫= (fun cf => rule cf.1 cf.2))) `sublist_of` (f_RuleID ∘ snd <$> rules i).
Proof.
  induction (rules i) as [|[c f] l IH]; [done |]. cbn [mbind list_bind fmap list_fmap]. rewrite fmap_app.
  destruct c; cbn; [by apply sublist_skip | by apply sublist_cons].
Qed.

Lemma rule_ids_NoDup i : NoDup (f_RuleID ∘ snd <$> rules i).
Proof. apply (bool_decide_unpack _). vm_compute. exact I. Qed.

(** A scan reports exactly the rules that fire, each once, the most severe first and
    by identifier within one severity; and a configuration that is at least as unsafe
    never has fewer findings. *)
Theorem scan_exact i :
  (forall f, f ∈ Scan i <-> (true, f) ∈ rules i) /\ NoDup (f_RuleID <$> Scan i) /\ StronglySorted finding_le (Scan i).
Proof.
  unfold Scan. split; [|split].
  - intros f. rewrite merge_sort_Permutation, list_elem_of_bind. split.
    + intros ([c g] & Hf & Hin). cbn in Hf. destruct c; [|by apply elem_of_nil in Hf]. by apply list_elem_of_singleton in Hf as ->.
    + intros Hin. exists (true, f). split; [|done]. by apply list_elem_of_singleton.
  - rewrite merge_sort_Permutation. eapply sublist_NoDup; [|apply fired_ids]. apply rule_ids_NoDup.
  - apply (StronglySorted_merge_sort finding_le).
Qed.

(** [i'] is at least as unsafe as [i]. *)
Record less_safe (i i' : Input) : Prop := {
  ls_prod : Production i = true -> Production i' = true;
  ls_sig : SignaturesRequired i = false -> SignaturesRequired i' = false;
  ls_unsigned : UnsignedConfigActive i = true -> UnsignedConfigActive i' = true;
  ls_tls : AllowInsecureSkipVerify i = true -> AllowInsecureSkipVerify i' = true;
  ls_tcp : TCPAgentListener i = true -> TCPAgentListener i' = true;
  ls_shell : ShellExecEnabled i = true -> ShellExecEnabled i' = true;
  ls_queue : UnboundedQueue i = true -> UnboundedQueue i' = true;
  ls_audit : AuditVerifyOnStart i = false -> AuditVerifyOnStart i' = false;
  ls_deny : DenyByDefault i = false -> DenyByDefault i' = false;
  ls_profile : SecurityProfile i' = SecurityProfile i;
  ls_ttl : LeaseTTLSeconds i <= LeaseTTLSeconds i';
  ls_caps : CapabilitiesUnsigned i = true -> CapabilitiesUnsigned i' = true }.

Definition fires (i : Input) (id : string) : Prop := id ∈ f_RuleID <$> Scan i.

Lemma fires_rules i id : fires i id <-> exists f, (true, f) ∈ rules i /\ f_RuleID f = id.
Proof.
  unfold fires. rewrite list_elem_of_fmap. split.
  - intros (f & -> & Hf). exists f. split; [|done]. by apply scan_exact.
  - intros (f & Hf & <-). exists f. split; [done |]. by apply scan_exact.
Qed.

(** The conditions of two inputs, rule by rule. *)
Lemma rules_monotone i i' : less_safe i i' ->
  Forall2 (fun a b => f_RuleID a.2 = f_RuleID b.2 /\ (a.1 = true -> b.1 = true)) (rules i) (rules i').
Proof.
  intros [Hp Hsig Hu Ht Hc Hs Hq Ha Hd Hpr Httl Hcap]. unfold rules.
  repeat (apply Forall2_cons; split; [split; [reflexivity |] |]); [.. | apply Forall2_nil; done]; cbn [fst];
    rewrite ?andb_true_iff, ?negb_true_iff, ?orb_true_iff, ?bool_decide_eq_true, ?Hpr; intros H; destruct_and?; split_and?; auto; try lia.
  match goal with H : (_ \/ _) \/ _ |- _ => destruct H as [[?|?]|?]; auto end.
Qed.

(** Making a configuration less safe never removes a finding. *)
Theorem scan_monotone i i' id : less_safe i i' -> fires i id -> fires i' id.
Proof.
  intros Hl. rewrite !fires_rules. intros (f & Hf & <-). apply rules_monotone in Hl. apply list_elem_of_lookup in Hf as [k Hk].
  destruct (Forall2_lookup_l _ _ _ _ _ Hl Hk) as ([c g] & Hg & [Hid Hc]). cbn [fst snd] in *. exists g. split; [|done].
  apply list_elem_of_lookup. exists k. by rewrite Hg, Hc.
Qed.

Lemma sarif_loop_spec fs : forall seen rs ss, sarif_loop seen fs = (rs, ss) ->
  st_RuleID <$> ss = f_RuleID <$> fs /\ NoDup (sr_ID <$> rs) /\
  (forall id, id ∈ sr_ID <$> rs <-> id ∈ f_RuleID <$> fs /\ id ∉ seen).
Proof.
  induction fs as [|f fs IH]; intros seen rs ss; cbn [sarif_loop].
  - intros [= <- <-]. split; [done |]. split; [constructor |]. intros id. cbn. split; [by intros ?%elem_of_nil | by intros [?%elem_of_nil _]].
  - destruct (sarif_loop _ fs) as [rs' ss'] eqn:E. destruct (IH _ _ _ E) as (H1 & H2 & H3). intros [= <- <-].
    split; [cbn; by rewrite H1 |]. assert (forall id, id ∈ sr_ID <$> rs' <-> id ∈ f_RuleID <$> fs /\ id ≠ f_RuleID f /\ id ∉ seen) as H4
      by (intros id; rewrite H3, not_elem_of_union, not_elem_of_singleton; tauto).
    clear IH E H1 H3. case_bool_decide as Hin.
    + split; [done |]. intros id. rewrite H4. cbn. rewrite elem_of_cons. destruct (decide (id = f_RuleID f)) as [->|Hne]; tauto.
    + split; [cbn; apply NoDup_cons; split; [rewrite H4; tauto | done] |].
      intros id. cbn. rewrite !elem_of_cons, H4. destruct (decide (id = f_RuleID f)) as [->|Hne]; tauto.
Qed.

(** The SARIF document describes each reported rule once, and every result refers to a
    rule it describes. *)
Theorem sarif_closed fs : let '(rs, ss) := writeSARIF fs in
  st_RuleID <$> ss = f_RuleID <$> fs /\ NoDup (sr_ID <$> rs) /\ forall id, id ∈ sr_ID <$> rs <-> id ∈ st_RuleID <$> ss.
Proof.
  destruct (writeSARIF fs) as [rs ss] eqn:E. destruct (sarif_loop_spec fs ∅ rs ss E) as (H1 & H2 & H3).
  split; [done |]. split; [done |]. intros id. rewrite H3, H1. split; [tauto |]. intros H. split; [done | apply not_elem_of_empty].
Qed.

(** ** Trust *)

(** The overall trust is that of the strongest evidence, and self-reported without
    evidence. *)
Theorem overall_trust_strongest ev :
  let t := OverallTrustFromEvidence ev in
  (t = TrustSelfReported \/ t ∈ ae_Trust <$> ev) /\ (forall e, e ∈ ev -> trust_rank (ae_Trust e) <= trust_rank t) /\
  (t ≠ TrustSelfReported <-> exists e, e ∈ ev /\ Verified e = true).
Proof.
  cbn zeta. unfold OverallTrustFromEvidence.
  assert (forall ev best, 1 <= trust_rank best ->
    let t := foldl (fun best e => if bool_decide (trust_rank best < trust_rank (ae_Trust e)) then ae_Trust e else best) best ev in
    (t = best \/ t ∈ ae_Trust <$> ev) /\ trust_rank best <= trust_rank t /\ forall e, e ∈ ev -> trust_rank (ae_Trust e) <= trust_rank t) as H.
  { clear. induction ev as [|e ev IH]; intros best Hb; cbn zeta; cbn [foldl fmap list_fmap].
    - split; [by left |]. split; [lia |]. by intros e ?%elem_of_nil.
    - case_bool_decide as Hlt.
      + destruct (IH (ae_Trust e) ltac:(lia)) as (H1 & H2 & H3). split; [right; rewrite elem_of_cons; tauto |]. split; [lia |].
        intros e' [->|He]%elem_of_cons; [lia | by apply H3].
      + destruct (IH best Hb) as (H1 & H2 & H3). split; [rewrite elem_of_cons; tauto |]. split; [lia |].
        intros e' [->|He]%elem_of_cons; [lia | by apply H3]. }
  destruct (H ev TrustSelfReported ltac:(simpl; lia)) as (H1 & H2 & H3). split; [done |]. split; [done |]. split.
  - intros Hn. destruct H1 as [|Hin]; [done |]. apply list_elem_of_fmap in Hin as (e & He & Hin). exists e. split; [done |].
    unfold Verified. rewrite <- He. set (t := foldl _ _ ev) in *. clearbody t. by destruct t.
  - intros (e & He & Hv) Ht. specialize (H3 e He). rewrite Ht in H3. unfold Verified in Hv. by destruct (ae_Trust e).
Qed.

(** A minimum that is not one of the four levels is met by every report. *)
Lemma unknown_minimum_accepts s r : RequireMinTrust (TrustOther s) r = true.
Proof. unfold RequireMinTrust. apply bool_decide_eq_true. simpl. by destruct (ar_OverallTrust r). Qed.
