(* ===== verification/ControlSnapshot.v ===== *)
(** * Sanitized snapshots of the control plane ([control/snapshot/snapshot.go])

    A value of type [any] is a tree: maps, maps of strings, strings, slices, and
    everything else, which the code passes through.  A Go map is the list of its entries
    in the order it is ranged over, keys without duplicates.  How [fmt] prints a value and
    how JSON is hashed are parameters. *)

From S2P Require Import Prelude GoStrings Runes Secrets.
From Stdlib Require Import Ascii.

#[local] Open Scope Z_scope.

Inductive any :=
| AMap (m : list (string * any))
| AStrings (m : gmap string string)
| AString (s : string)
| ASlice (l : list any)
| AOther (tag : string).

(** [looksSecretKey]: upper case outside ASCII is kept. *)
Definition lower_key (k : string) : string := string_of_runes (lower_ascii <$> range k).

Fixpoint indexOf (i : nat) (s sub : string) : option nat :=
  if String.prefix sub s then Some i
  else match s with EmptyString => None | String _ t => indexOf (S i) t sub end.

Definition contains (s sub : string) : bool :=
  bool_decide (String.length sub <= String.length s)%nat &&
  (bool_decide (s = sub) || bool_decide (String.length sub = 0)%nat || bool_decide (is_Some (indexOf 0 s sub))).

Definition secret_words : list string := ["secret"; "password"; "token"; "credential"; "private_key"; "api_key"].

Definition looksSecretKey (k : string) : bool := existsb (contains (lower_key k)) secret_words.

Section Snapshots.
Variable lower : Z -> Z.

Fixpoint sanitize (v : any) : any :=
  match v with
  | AMap m => AMap ((fun kv => (kv.1, if looksSecretKey kv.1 then AString "[REDACTED]" else sanitize kv.2)) <$> m)
  | AStrings m => AStrings (RedactMap lower m)
  | AString s => AString (Redact lower s)
  | ASlice l => ASlice (sanitize <$> l)
  | AOther tag => AOther tag
  end.

Definition SchemaVersion : Z := 1.

Record Snapshot := mkSnapshot {
  sn_SchemaVersion : Z; sn_CreatedAt : Time; sn_Service : string; sn_InstanceID : string; sn_ContentHash : string;
  sn_Data : list (string * any); sn_Labels : gmap string string }.

(** The hash of the content: not of the time, nor of the hash itself. *)
Variable hash : Z * string * string * list (string * any) * gmap string string -> option string.

Definition contentHash (s : Snapshot) : option string :=
  hash (sn_SchemaVersion s, sn_Service s, sn_InstanceID s, sn_Data s, sn_Labels s).

Definition Create (now : Time) (service inst : string) (data : list (string * any)) (labels : gmap string string) : option Snapshot :=
  let clean := match sanitize (AMap data) with AMap m => m | _ => [] end in
  let s := mkSnapshot SchemaVersion now service inst "" clean (RedactMap lower labels) in
  match contentHash s with
  | Some h => Some (mkSnapshot SchemaVersion now service inst h clean (sn_Labels s))
  | None => None
  end.

(** ** Differences *)

Inductive diff_op := OpAdd | OpRemove | OpChange.

Record DiffEntry := mkDiff { de_Path : string; de_From : option any; de_To : option any; de_Op : diff_op }.

Definition join (prefix k : string) : string := if bool_decide (prefix = "") then k else prefix +:+ "." +:+ k.

Definition entry_of (k : string) (m : list (string * any)) : option any := snd <$> (snd <$> list_find (fun kv => kv.1 = k) m).

Variable show : any -> string.

(** One key of the first map against the second; [rec] compares two maps. *)
Definition diff_key (rec : string -> list (string * any) -> list (string * any) -> list DiffEntry)
    (prefix : string) (b : list (string * any)) (k : string) (av : any) : list DiffEntry :=
  let path := join prefix k in
  match entry_of k b with
  | None => [mkDiff path (Some av) None OpRemove]
  | Some bv =>
    match av, bv with
    | AMap am, AMap bm => rec path am bm
    | _, _ => if bool_decide (show av = show bv) then [] else [mkDiff path (Some av) (Some bv) OpChange]
    end
  end.

Definition added (prefix : string) (a b : list (string * any)) : list DiffEntry :=
  b ≫= (fun kv => if bool_decide (kv.1 ∈ a.*1) then [] else [mkDiff (join prefix kv.1) None (Some kv.2) OpAdd]).

Fixpoint diffMaps (depth : nat) (prefix : string) (a b : list (string * any)) : list DiffEntry :=
  match depth with
  | O => []
  | S depth => (a ≫= (fun kv => diff_key (diffMaps depth) prefix b kv.1 kv.2)) ++ added prefix a b
  end.

(** The nesting of maps, which bounds the recursion. *)
Fixpoint map_depth (v : any) : nat :=
  match v with AMap m => S (max_list ((fun kv => map_depth kv.2) <$> m)) | _ => O end.

Definition Diff (a b : Snapshot) : list DiffEntry := diffMaps (map_depth (AMap (sn_Data a))) "" (sn_Data a) (sn_Data b).
End Snapshots.

(** ** Induction on values *)

Section Induction.
Variable P : any -> Prop.
Hypotheses (HM : forall m, Forall (fun kv => P kv.2) m -> P (AMap m)) (HS : forall m, P (AStrings m))
  (Hs : forall s, P (AString s)) (HL : forall l, Forall P l -> P (ASlice l)) (HO : forall t, P (AOther t)).

Fixpoint any_ind' (v : any) : P v :=
  match v with
  | AMap m => HM m ((fix go (m : list (string * any)) : Forall (fun kv => P kv.2) m :=
      match m with [] => Forall_nil_2 _ | kv :: t => Forall_cons_2 _ kv t (any_ind' kv.2) (go t) end) m)
  | AStrings m => HS m
  | AString s => Hs s
  | ASlice l => HL l ((fix go (l : list any) : Forall P l :=
      match l with [] => Forall_nil_2 _ | x :: t => Forall_cons_2 _ x t (any_ind' x) (go t) end) l)
  | AOther t => HO t
  end.
End Induction.

(** ** What a snapshot shows *)

(** Values that differ only below secret-looking keys. *)
Inductive low_eq : any -> any -> Prop :=
| low_map m m' : Forall2 (fun a b => a.1 = b.1 /\ (looksSecretKey a.1 = true \/ low_eq a.2 b.2)) m m' -> low_eq (AMap m) (AMap m')
| low_slice l l' : Forall2 low_eq l l' -> low_eq (ASlice l) (ASlice l')
| low_refl v : low_eq v v.

(** What is stored below a secret-looking key, at any depth of maps and slices, does
    not influence the snapshot. *)
Theorem snapshot_hides lower v : forall w, low_eq v w -> sanitize lower v = sanitize lower w.
Proof.
  induction v as [m IH|m|s|l IH|t] using any_ind'; intros w Hw; inversion Hw as [? m' Hf|? l' Hf|]; subst; try done; cbn [sanitize]; f_equal.
  - clear Hw. induction Hf as [|[k a] [k' b] m m' [Hk Hv] _ IHf]; [done |]. apply Forall_cons in IH as [Ha IH].
    cbn [fmap list_fmap fst snd] in *. subst k'. f_equal; [|by apply IHf]. destruct (looksSecretKey k); [done |].
    destruct Hv as [|Hv]; [done |]. by rewrite (Ha b Hv).
  - clear Hw. induction Hf as [|a b l l' Hv _ IHf]; [done |]. apply Forall_cons in IH as [Ha IH].
    cbn [fmap list_fmap]. f_equal; [by apply Ha | by apply IHf].
Qed.

(** The hash identifies the content: snapshots of the same content have the same
    hash, whenever they are made. *)
Lemma snapshot_hash_timeless lower hash now now' service inst data labels :
  sn_ContentHash <$> Create lower hash now service inst data labels = sn_ContentHash <$> Create lower hash now' service inst data labels.
Proof. unfold Create, contentHash. cbn. by destruct (hash _). Qed.

(** ** Differences *)

Definition AMap_inv (v : any) : option (list (string * any)) := match v with AMap m => Some m | _ => None end.

(** The map at a path of keys. *)
Fixpoint submap (pre : list string) (m : list (string * any)) : option (list (string * any)) :=
  match pre with
  | [] => Some m
  | k :: pre => (entry_of k m ≫= AMap_inv) ≫= submap pre
  end.

(** The two maps agree at one key: both without it, both with a map there, or with
    values that print alike. *)
Definition key_same (show : any -> string) (a b : list (string * any)) (k : string) : Prop :=
  match entry_of k a, entry_of k b with
  | None, None => True
  | Some (AMap _), Some (AMap _) => True
  | Some x, Some y => show x = show y
  | _, _ => False
  end.

(** The keys of a map, and of the maps in it, are distinct. *)
Fixpoint keys_ok (depth : nat) (m : list (string * any)) : Prop :=
  NoDup m.*1 /\ match depth with O => True | S d => forall k am, (k, AMap am) ∈ m -> keys_ok d am end.

Lemma entry_of_None k m : entry_of k m = None <-> k ∉ m.*1.
Proof.
  unfold entry_of. destruct (list_find (fun kv => kv.1 = k) m) as [[i [k' v]]|] eqn:E; cbn; split; try done.
  - intros H. destruct H. apply list_find_Some in E as (Hl & Hk & _). cbn in Hk. subst k'. apply list_elem_of_fmap. exists (k, v). split; [done |]. by eapply list_elem_of_lookup_2.
  - intros _ H. apply list_elem_of_fmap in H as ([k' v] & -> & Hin). apply list_find_None in E. rewrite Forall_forall in E. by apply (E (k', v) Hin).
Qed.

Lemma entry_of_Some k v m : NoDup m.*1 -> entry_of k m = Some v <-> (k, v) ∈ m.
Proof.
  intros Hnd. unfold entry_of. split.
  - destruct (list_find _ m) as [[i [k' v']]|] eqn:E; [|done]. cbn. intros [= ->]. apply list_find_Some in E as (Hl & Hk & _). cbn in Hk. subst k'.
    by eapply list_elem_of_lookup_2.
  - intros Hin. destruct (list_find (fun kv => kv.1 = k) m) as [[i [k' v']]|] eqn:E.
    + apply list_find_Some in E as (Hl & Hk & _). cbn in *. subst k'. apply list_elem_of_lookup in Hin as [j Hj].
      assert (i = j) as ->; [|congruence]. apply (NoDup_lookup m.*1 i j k); [done | |]; by rewrite list_lookup_fmap, ?Hl, ?Hj.
    + apply list_find_None in E. rewrite Forall_forall in E. by destruct (E (k, v) Hin).
Qed.

Lemma added_nil prefix a b : added prefix a b = [] <-> forall k, k ∈ b.*1 -> k ∈ a.*1.
Proof.
  unfold added. rewrite bind_nil. split.
  - intros H k ([k' v] & -> & Hin)%list_elem_of_fmap. specialize (H _ Hin). cbn in *. by case_bool_decide.
  - intros H [k v] Hin. cbn. rewrite bool_decide_true; [done |]. apply H. apply list_elem_of_fmap. by exists (k, v).
Qed.

Lemma map_depth_entry (k : string) v (m : list (string * any)) : (k, v) ∈ m -> (map_depth v <= max_list ((fun kv => map_depth kv.2) <$> m))%nat.
Proof. intros Hin. apply max_list_elem_of_le. apply list_elem_of_fmap. by exists (k, v). Qed.

(** Two snapshots have no difference exactly when, at every path that leads to a map
    in both, they agree on every key. *)
Theorem diff_empty_iff show depth : forall prefix a b, (map_depth (AMap a) <= depth)%nat -> keys_ok depth a -> keys_ok depth b ->
  diffMaps show depth prefix a b = [] <->
  forall pre am bm, submap pre a = Some am -> submap pre b = Some bm -> forall k, key_same show am bm k.
Proof.
  induction depth as [|depth IH]; intros prefix a b Hd [Ha Ha'] [Hb Hb']; [cbn in Hd; lia |]. cbn [diffMaps]. rewrite app_nil, bind_nil, added_nil.
  assert (forall k am bm, (k, AMap am) ∈ a -> (k, AMap bm) ∈ b ->
    diffMaps show depth (join prefix k) am bm = [] <->
    forall pre am' bm', submap pre am = Some am' -> submap pre bm = Some bm' -> forall k', key_same show am' bm' k') as Hsub.
  { intros k am bm Hka Hkb. apply IH; [|by eapply Ha' | by eapply Hb']. pose proof (map_depth_entry _ _ _ Hka).
    change (S (max_list ((fun kv => map_depth kv.2) <$> a)) <= S depth)%nat in Hd. lia. }
  split.
  - intros [Hk Hadd] [|k0 pre] am bm; cbn [submap].
    + intros [= <-] [= <-] k. unfold key_same. destruct (entry_of k a) as [av|] eqn:Ea.
      * apply entry_of_Some in Ea; [|done]. specialize (Hk _ Ea). unfold diff_key in Hk. cbn in Hk.
        destruct (entry_of k b) as [bv|]; [|done]. destruct av, bv; try done; by case_bool_decide.
      * destruct (entry_of k b) as [bv|] eqn:Eb; [|done]. apply entry_of_Some in Eb; [|done]. apply entry_of_None in Ea. destruct Ea. apply Hadd.
        apply list_elem_of_fmap. by exists (k, bv).
    + destruct (entry_of k0 a) as [[am0| | | |]|] eqn:Ea; try done. destruct (entry_of k0 b) as [[bm0| | | |]|] eqn:Eb; try done. cbn.
      apply Hsub with k0; [by apply entry_of_Some | by apply entry_of_Some |]. apply entry_of_Some in Ea; [|done].
      specialize (Hk _ Ea). unfold diff_key in Hk. cbn in Hk. by rewrite Eb in Hk.
  - intros H. split.
    + intros [k av] Hin. cbn. unfold diff_key. pose proof (H [] a b eq_refl eq_refl k) as Hks. unfold key_same in Hks.
      assert (entry_of k a = Some av) as Ea by (by apply entry_of_Some). rewrite Ea in Hks.
      destruct (entry_of k b) as [bv|] eqn:Eb; [|by destruct av]. destruct av as [am| | | |], bv as [bm| | | |]; try (by rewrite bool_decide_true).
      apply Hsub; [done | by apply entry_of_Some |]. intros pre am' bm' H1 H2. apply (H (k :: pre)); cbn; by rewrite ?Ea, ?Eb.
    + intros k Hk. pose proof (H [] a b eq_refl eq_refl k) as Hks. unfold key_same in Hks. destruct (entry_of k a) as [av|] eqn:Ea.
      * apply entry_of_Some in Ea; [|done]. apply list_elem_of_fmap. by exists (k, av).
      * destruct (entry_of k b) eqn:Eb; [done |]. by apply entry_of_None in Eb.
Qed.

(** Slices of strings and every other type pass through unredacted. *)
Lemma other_types_pass lower tag : sanitize lower (AOther tag) = AOther tag.
Proof. reflexivity. Qed.

(** The hand-written search agrees with [strings.Contains]. *)
Lemma indexOf_contains sub s : forall i, is_Some (indexOf i s sub) <-> contains_sub sub s = true.
Proof.
  induction s as [|c s IH]; intros i; cbn [indexOf contains_sub]; destruct (String.prefix sub _); cbn [orb]; try apply IH;
    split; try done; (by intros [? [=]]) || by eexists.
Qed.

Lemma prefix_length a s : String.prefix a s = true -> (String.length a <= String.length s)%nat.
Proof.
  revert s. induction a as [|x a IH]; intros s; [cbn; lia |]. destruct s as [|y s]; [done |]. simpl. destruct (ascii_dec x y); [|done].
  intros H. apply IH in H. lia.
Qed.

Lemma contains_exact s sub : contains s sub = contains_sub sub s.
Proof.
  assert (contains_sub sub s = true -> (String.length sub <= String.length s)%nat) as Hlen.
  { induction s as [|c s IH]; cbn [contains_sub]; rewrite orb_true_iff; (intros [H|H]; [by apply prefix_length in H |]); [done |].
    apply IH in H. simpl. lia. }
  unfold contains. apply eq_bool_prop_intro. rewrite !Is_true_true, andb_true_iff, !orb_true_iff, !bool_decide_eq_true, indexOf_contains.
  split; [|intros H; split; [by apply Hlen | by right]]. intros [_ [[->|H]|H]]; [| |done].
  - clear Hlen. assert (String.prefix sub sub = true) as Hp by (induction sub as [|x t IH]; [done |]; simpl; by destruct (ascii_dec x x)).
    destruct sub as [|c t]; [done |]. cbn [contains_sub]. by rewrite Hp.
  - destruct sub; [|done]. by destruct s.
Qed.
