(* ===== verification/Types.v ===== *)
(** * Data of package [shiftlock]

    The types of [state.go], [generation.go], [errors.go], [ownership.go],
    [backend.go] and [capabilities.go]: generation states, claim phases,
    transition reasons, errors, claim records and ownership snapshots, and the
    requests a [Backend] takes.  Field and constructor names are the source's;
    a [set_F] function is the assignment [r.F = v]. *)

From S2P Require Import Prelude.

(** ** [state.go] *)

Inductive GenerationState :=
| StateJoining | StateStandby | StatePreparing | StateActive
| StateDraining | StateTransferring | StateRetired | StateFailed.

#[global] Instance GenerationState_eq_dec : EqDecision GenerationState.
Proof. solve_decision. Defined.

(** The string constant behind each state. *)
Definition GenerationState_string (s : GenerationState) : string :=
  match s with
  | StateJoining => "joining" | StateStandby => "standby"
  | StatePreparing => "preparing" | StateActive => "active"
  | StateDraining => "draining" | StateTransferring => "transferring"
  | StateRetired => "retired" | StateFailed => "failed"
  end.

(** [GenerationState.Valid] is a method on the string type. *)
Definition Valid (s : string) : bool :=
  bool_decide (s ∈ GenerationState_string <$>
    [StateJoining; StateStandby; StatePreparing; StateActive;
     StateDraining; StateTransferring; StateRetired; StateFailed]).

Definition Terminal (s : GenerationState) : bool :=
  bool_decide (s = StateRetired) || bool_decide (s = StateFailed).

Inductive ClaimPhase := ClaimUnowned | ClaimOwned | ClaimReserved | ClaimDraining.

#[global] Instance ClaimPhase_eq_dec : EqDecision ClaimPhase.
Proof. solve_decision. Defined.

(** [ReasonNone] is the zero value [""] of the string type. *)
Inductive TransitionReason :=
| ReasonNone
| ReasonRegistered | ReasonReadinessPassed | ReasonReadinessFailed
| ReasonAcquired | ReasonRenewed | ReasonDrainStarted | ReasonDrainComplete
| ReasonTransferPrepared | ReasonTransferCommitted | ReasonTransferAborted
| ReasonReleased | ReasonExpired | ReasonFencedOut | ReasonRetired
| ReasonFailed | ReasonClosed | ReasonRollback | ReasonTimeout | ReasonPartition.

#[global] Instance TransitionReason_eq_dec : EqDecision TransitionReason.
Proof. solve_decision. Defined.

(** ** [errors.go] *)

Inductive sentinel :=
| ErrClosed | ErrNotOwner | ErrAlreadyOwner | ErrClaimHeld | ErrStaleToken
| ErrInvalidState | ErrDraining | ErrTransferPending | ErrNoTransfer
| ErrTransferFailed | ErrHandoffAborted | ErrTimeout | ErrNotReady | ErrPolicy
| ErrBackend | ErrGenerationRetired | ErrGenerationFailed | ErrClaimNotFound
| ErrGenerationNotFound | ErrConcurrentTransfer | ErrLeaseLost | ErrCanceled
| ErrTokenOverflow | ErrAmbiguous | ErrClaimUnavailable | ErrCapability
| ErrSplitBrain
| ErrUnauthorized | ErrForbidden | ErrReplay | ErrCapabilityToken
| ErrSecurityEpochOverflow | ErrAuditTamper | ErrLockdown | ErrMaintenance
| ErrQuarantined | ErrGuardDenied | ErrExecDenied | ErrRateLimited
| ErrRuntimeClosed.

#[global] Instance sentinel_eq_dec : EqDecision sentinel.
Proof. solve_decision. Defined.

Definition sentinel_text (s : sentinel) : string :=
  match s with
  | ErrClosed => "shiftlock: coordinator closed"
  | ErrNotOwner => "shiftlock: not claim owner"
  | ErrAlreadyOwner => "shiftlock: already claim owner"
  | ErrClaimHeld => "shiftlock: claim held by another generation"
  | ErrStaleToken => "shiftlock: stale fencing token"
  | ErrInvalidState => "shiftlock: invalid state transition"
  | ErrDraining => "shiftlock: draining in progress"
  | ErrTransferPending => "shiftlock: transfer already pending"
  | ErrNoTransfer => "shiftlock: no pending transfer"
  | ErrTransferFailed => "shiftlock: transfer failed"
  | ErrHandoffAborted => "shiftlock: handoff aborted"
  | ErrTimeout => "shiftlock: operation timed out"
  | ErrNotReady => "shiftlock: readiness gates not satisfied"
  | ErrPolicy => "shiftlock: policy validation failed"
  | ErrBackend => "shiftlock: backend error"
  | ErrGenerationRetired => "shiftlock: generation retired"
  | ErrGenerationFailed => "shiftlock: generation failed"
  | ErrClaimNotFound => "shiftlock: claim not found"
  | ErrGenerationNotFound => "shiftlock: generation not found"
  | ErrConcurrentTransfer => "shiftlock: concurrent transfer conflict"
  | ErrLeaseLost => "shiftlock: lease lost"
  | ErrCanceled => "shiftlock: canceled"
  | ErrTokenOverflow => "shiftlock: fencing token overflow"
  | ErrAmbiguous => "shiftlock: ambiguous backend outcome"
  | ErrClaimUnavailable => "shiftlock: claim unavailable"
  | ErrCapability => "shiftlock: backend capability mismatch"
  | ErrSplitBrain => "shiftlock: split-brain detected"
  | ErrUnauthorized => "shiftlock: unauthorized"
  | ErrForbidden => "shiftlock: forbidden"
  | ErrReplay => "shiftlock: replay detected"
  | ErrCapabilityToken => "shiftlock: capability token invalid"
  | ErrSecurityEpochOverflow => "shiftlock: security epoch overflow"
  | ErrAuditTamper => "shiftlock: audit chain tamper detected"
  | ErrLockdown => "shiftlock: lockdown active"
  | ErrMaintenance => "shiftlock: maintenance active"
  | ErrQuarantined => "shiftlock: generation quarantined"
  | ErrGuardDenied => "shiftlock: guard denied"
  | ErrExecDenied => "shiftlock: exec denied"
  | ErrRateLimited => "shiftlock: rate limited"
  | ErrRuntimeClosed => "shiftlock: runtime closed"
  end.

(** The two errors of package [context]. *)
Inductive ctx_error := ContextCanceled | ContextDeadlineExceeded.

#[global] Instance ctx_error_eq_dec : EqDecision ctx_error.
Proof. solve_decision. Defined.

Definition ctx_text (e : ctx_error) : string :=
  match e with
  | ContextCanceled => "context canceled"
  | ContextDeadlineExceeded => "context deadline exceeded"
  end.

(** The struct [Error], over the type of errors it wraps. *)
Record ErrorOf (E : Type) := mkErrorOf {
  Op : string; EClaim : string; Gen : string; EToken : Z;
  EReason : TransitionReason; Err : option E; Message : string;
  Code : string; Category : string }.
Arguments mkErrorOf {E}.
Arguments Op {E}. Arguments EClaim {E}. Arguments Gen {E}. Arguments EToken {E}.
Arguments EReason {E}. Arguments Err {E}. Arguments Message {E}.
Arguments Code {E}. Arguments Category {E}.

(** A Go [error] value: a sentinel, a context error, an error made of text
    ([errors.New], [fmt.Errorf]) or a [*Error]. *)
Inductive error :=
| Sentinel (s : sentinel)
| CtxErr (e : ctx_error)
| TextErr (msg : string)
| Typed (e : ErrorOf error).

#[global] Coercion Sentinel : sentinel >-> error.

(** [&Error{Op: op, Err: err, Message: msg}] *)
Definition mkError (op : string) (err : error) (msg : string) : error :=
  Typed (mkErrorOf op "" "" 0 ReasonNone (Some err) msg "" "").

(** [err.Error()] of an error that is not a [*Error]. *)
Definition base_text (e : error) : string :=
  match e with
  | Sentinel s => sentinel_text s
  | CtxErr c => ctx_text c
  | TextErr m => m
  | Typed r => Message r
  end.

(** [errors.Is(e, s)] for a sentinel [s]. *)
Fixpoint errors_is (e : error) (s : sentinel) : bool :=
  match e with
  | Sentinel s' => bool_decide (s' = s)
  | Typed (mkErrorOf _ _ _ _ _ (Some e') _ _ _) => errors_is e' s
  | _ => false
  end.

(** [wrap]: a [*Error] keeps its fields and gets [op] when it has none; any
    other error is wrapped in a fresh [*Error]. *)
Definition wrap (op : string) (err : option error) : option error :=
  match err with
  | None => None
  | Some (Typed r) =>
      Some (Typed (mkErrorOf (if decide (Op r = "") then op else Op r)
        (EClaim r) (Gen r) (EToken r) (EReason r) (Err r) (Message r) (Code r)
        (Category r)))
  | Some e => Some (mkError op e (base_text e))
  end.

Definition wrapClaim (op claim : string) (err : option error) : option error :=
  match err with
  | None => None
  | Some (Typed r) =>
      Some (Typed (mkErrorOf (if decide (Op r = "") then op else Op r)
        (if decide (EClaim r = "") then claim else EClaim r)
        (Gen r) (EToken r) (EReason r) (Err r) (Message r) (Code r) (Category r)))
  | Some e =>
      Some (Typed (mkErrorOf op claim "" 0 ReasonNone (Some e) (base_text e) "" ""))
  end.

(** ** [generation.go] *)

Record Generation := mkGeneration {
  ID : string; Service : string; InstanceID : string; State : GenerationState;
  StartedAt : Time; UpdatedAt : Time; Reason : TransitionReason }.

(** ** [fencing.go], [capabilities.go]: tokens *)

(** A fencing token is a [uint64]. *)
Abbreviation FencingToken := Z (only parsing).

Definition Zero (t : FencingToken) : bool := bool_decide (t = 0).

Definition Less (t other : FencingToken) : bool := bool_decide (t < other).

(** [FencingToken(^uint64(0) - 1)] *)
Definition MaxSafeFencingToken : FencingToken := u64 (u64_modulus - 1 - 1).

(** ** [backend.go]: claim records *)

Record ClaimRecord := mkClaimRecord {
  Name : string; OwnerGeneration : string; FencingTokenOf : FencingToken;
  Phase : ClaimPhase; AcquiredAt : Time; ExpiresAt : Time;
  PreviousOwner : string; PendingSuccessor : string; DrainStatus : string;
  TransferStatus : string; LastHeartbeat : Time; CReason : TransitionReason;
  Version : Z }.

#[global] Instance ClaimRecord_eq_dec : EqDecision ClaimRecord.
Proof. solve_decision. Defined.

(** Field assignments. *)
Definition set_OwnerGeneration v r :=
  mkClaimRecord (Name r) v (FencingTokenOf r) (Phase r) (AcquiredAt r)
    (ExpiresAt r) (PreviousOwner r) (PendingSuccessor r) (DrainStatus r)
    (TransferStatus r) (LastHeartbeat r) (CReason r) (Version r).
Definition set_FencingToken v r :=
  mkClaimRecord (Name r) (OwnerGeneration r) v (Phase r) (AcquiredAt r)
    (ExpiresAt r) (PreviousOwner r) (PendingSuccessor r) (DrainStatus r)
    (TransferStatus r) (LastHeartbeat r) (CReason r) (Version r).
Definition set_Phase v r :=
  mkClaimRecord (Name r) (OwnerGeneration r) (FencingTokenOf r) v (AcquiredAt r)
    (ExpiresAt r) (PreviousOwner r) (PendingSuccessor r) (DrainStatus r)
    (TransferStatus r) (LastHeartbeat r) (CReason r) (Version r).
Definition set_AcquiredAt v r :=
  mkClaimRecord (Name r) (OwnerGeneration r) (FencingTokenOf r) (Phase r) v
    (ExpiresAt r) (PreviousOwner r) (PendingSuccessor r) (DrainStatus r)
    (TransferStatus r) (LastHeartbeat r) (CReason r) (Version r).
Definition set_ExpiresAt v r :=
  mkClaimRecord (Name r) (OwnerGeneration r) (FencingTokenOf r) (Phase r)
    (AcquiredAt r) v (PreviousOwner r) (PendingSuccessor r) (DrainStatus r)
    (TransferStatus r) (LastHeartbeat r) (CReason r) (Version r).
Definition set_PreviousOwner v r :=
  mkClaimRecord (Name r) (OwnerGeneration r) (FencingTokenOf r) (Phase r)
    (AcquiredAt r) (ExpiresAt r) v (PendingSuccessor r) (DrainStatus r)
    (TransferStatus r) (LastHeartbeat r) (CReason r) (Version r).
Definition set_PendingSuccessor v r :=
  mkClaimRecord (Name r) (OwnerGeneration r) (FencingTokenOf r) (Phase r)
    (AcquiredAt r) (ExpiresAt r) (PreviousOwner r) v (DrainStatus r)
    (TransferStatus r) (LastHeartbeat r) (CReason r) (Version r).
Definition set_DrainStatus v r :=
  mkClaimRecord (Name r) (OwnerGeneration r) (FencingTokenOf r) (Phase r)
    (AcquiredAt r) (ExpiresAt r) (PreviousOwner r) (PendingSuccessor r) v
    (TransferStatus r) (LastHeartbeat r) (CReason r) (Version r).
Definition set_TransferStatus v r :=
  mkClaimRecord (Name r) (OwnerGeneration r) (FencingTokenOf r) (Phase r)
    (AcquiredAt r) (ExpiresAt r) (PreviousOwner r) (PendingSuccessor r)
    (DrainStatus r) v (LastHeartbeat r) (CReason r) (Version r).
Definition set_LastHeartbeat v r :=
  mkClaimRecord (Name r) (OwnerGeneration r) (FencingTokenOf r) (Phase r)
    (AcquiredAt r) (ExpiresAt r) (PreviousOwner r) (PendingSuccessor r)
    (DrainStatus r) (TransferStatus r) v (CReason r) (Version r).
Definition set_CReason v r :=
  mkClaimRecord (Name r) (OwnerGeneration r) (FencingTokenOf r) (Phase r)
    (AcquiredAt r) (ExpiresAt r) (PreviousOwner r) (PendingSuccessor r)
    (DrainStatus r) (TransferStatus r) (LastHeartbeat r) v (Version r).

(** [cl.Version++] on a [uint64]. *)
Definition bump_Version r :=
  mkClaimRecord (Name r) (OwnerGeneration r) (FencingTokenOf r) (Phase r)
    (AcquiredAt r) (ExpiresAt r) (PreviousOwner r) (PendingSuccessor r)
    (DrainStatus r) (TransferStatus r) (LastHeartbeat r) (CReason r)
    (u64 (Version r + 1)).

(** [ClaimRecord{Name: name, Phase: ClaimUnowned}] *)
Definition unowned_record (name : string) : ClaimRecord :=
  mkClaimRecord name "" 0 ClaimUnowned time_zero time_zero "" "" "" ""
    time_zero ReasonNone 0.

Record ClaimEvent := mkClaimEvent {
  EvClaim : ClaimRecord; EvTime : Time; EvReason : TransitionReason }.

(** ** [ownership.go] *)

Record Ownership := mkOwnership {
  OClaimName : string; OOwnerGeneration : string; OFencingToken : FencingToken;
  OPhase : ClaimPhase; OAcquiredAt : Time; OExpiresAt : Time;
  OPreviousOwner : string; OPendingSuccessor : string; ODrainStatus : string;
  OTransferStatus : string; OLastHeartbeat : Time; OReason : TransitionReason }.

Definition ToOwnership (r : ClaimRecord) : Ownership :=
  mkOwnership (Name r) (OwnerGeneration r) (FencingTokenOf r) (Phase r)
    (AcquiredAt r) (ExpiresAt r) (PreviousOwner r) (PendingSuccessor r)
    (DrainStatus r) (TransferStatus r) (LastHeartbeat r) (CReason r).

Definition OwnedBy (o : Ownership) (genID : string) : bool :=
  bool_decide (OPhase o = ClaimOwned) &&
  bool_decide (OOwnerGeneration o = genID) && negb (Zero (OFencingToken o)).

Definition Controls (o : Ownership) (genID : string) : bool :=
  if negb (bool_decide (OOwnerGeneration o = genID)) || Zero (OFencingToken o)
  then false
  else bool_decide (OPhase o = ClaimOwned) || bool_decide (OPhase o = ClaimReserved)
       || bool_decide (OPhase o = ClaimDraining).

(** ** [backend.go]: requests *)

(** An [OperationID] is a string; the empty one disables deduplication. *)
Abbreviation OperationID := string (only parsing).

Definition Empty (id : OperationID) : bool := bool_decide (id = "").

Record AcquireRequest := mkAcquire {
  acq_ClaimName : string; acq_GenerationID : string; acq_TTL : Duration;
  acq_AllowEmptyOnly : bool; acq_OperationID : OperationID }.

Record RenewRequest := mkRenew {
  ren_ClaimName : string; ren_GenerationID : string; ren_Token : FencingToken;
  ren_TTL : Duration; ren_OperationID : OperationID }.

Record TransferRequest := mkTransfer {
  tr_ClaimName : string; tr_FromGeneration : string; tr_ToGeneration : string;
  tr_Token : FencingToken; tr_TTL : Duration; tr_OperationID : OperationID }.

Record CommitRequest := mkCommit {
  com_ClaimName : string; com_FromGeneration : string; com_ToGeneration : string;
  com_ExpectedToken : FencingToken; com_TTL : Duration;
  com_OperationID : OperationID }.

Record AbortRequest := mkAbort {
  ab_ClaimName : string; ab_FromGeneration : string; ab_ToGeneration : string;
  ab_ExpectedToken : FencingToken; ab_OperationID : OperationID }.

Record ReleaseRequest := mkRelease {
  rel_ClaimName : string; rel_GenerationID : string; rel_Token : FencingToken;
  rel_OperationID : OperationID }.

(** A call that returns [( *ClaimRecord, error)]. *)
Abbreviation RecordResult := (option ClaimRecord * option error)%type (only parsing).

(** ** [capabilities.go] *)

(** [reservationTTL]: the lifetime of a reservation, in [int64] arithmetic. *)
Definition reservationTTL (leaseTTL transferTimeout : Duration) : Duration :=
  if bool_decide (leaseTTL < transferTimeout)
  then i64 (transferTimeout + Z.quot leaseTTL 3)
  else leaseTTL.

(** ** Facts *)

Lemma MaxSafe_value : MaxSafeFencingToken = u64_modulus - 2.
Proof. reflexivity. Qed.

Lemma errors_is_mkError op e msg s : errors_is (mkError op e msg) s = errors_is e s.
Proof. reflexivity. Qed.

(** Wrapping never changes which sentinel an error matches. *)
Lemma errors_is_wrapClaim op c e e' s :
  wrapClaim op c (Some e) = Some e' -> errors_is e' s = errors_is e s.
Proof. destruct e as [| | |[]]; intros [= <-]; reflexivity. Qed.

Lemma errors_is_wrap op e e' s :
  wrap op (Some e) = Some e' -> errors_is e' s = errors_is e s.
Proof. destruct e as [| | |[]]; intros [= <-]; reflexivity. Qed.

