(* ===== verification/Journal.v ===== *)
(** * The journal of ownership events ([journal/journal.go], [journal/file/file.go])

    An append-only file of one JSON document per line.  The file is its complete lines
    and the bytes after the last newline, which a write that failed half-way leaves
    behind.  [encoding/json] is a parameter; [fits] tells which lines are short enough for
    a [bufio.Scanner]. *)

From S2P Require Import Prelude Types.

#[local] Open Scope Z_scope.

Record Entry := mkJEntry {
  je_Seq : Z; je_Time : Time; je_Service : string; je_Claim : string; je_Generation : string; je_Type : string;
  je_Token : FencingToken; je_Reason : string; je_OpID : string; je_Attrs : gmap string string }.

Definition set_seq (n : Z) (e : Entry) : Entry :=
  mkJEntry n (je_Time e) (je_Service e) (je_Claim e) (je_Generation e) (je_Type e) (je_Token e) (je_Reason e) (je_OpID e) (je_Attrs e).

Record jfile := mkJFile { jf_lines : list string; jf_tail : string }.
Definition jfile_empty : jfile := mkJFile [] "".

Record Journal := mkJournal { jn_file : jfile; jn_seq : Z; jn_open : bool }.

Inductive journal_err := JOpen | JMarshal | JWrite | JTooLong | JClosed.

Section Journal.
Variables (marshal : Entry -> option string) (unmarshal : string -> option Entry) (fits : string -> bool).

(** The tokens of a scanner over the file, and whether it stopped at a line that is too
    long. *)
Fixpoint scan (ls : list string) : list string * bool :=
  match ls with
  | [] => ([], false)
  | l :: ls => if fits l then let '(ts, e) := scan ls in (l :: ts, e) else ([], true)
  end.

Definition tokens (f : jfile) : list string := jf_lines f ++ (if bool_decide (jf_tail f = "") then [] else [jf_tail f]).

(** [Open]: the errors of the scanner are not looked at. *)
Definition Open (ok : bool) (f : jfile) : journal_err + Journal :=
  if negb ok then inl JOpen else inr (mkJournal f (u64 (Z.of_nat (length (scan (tokens f)).1))) true).

(** [Append]; [written] is how much of a line reaches the file when the write fails. *)
Definition Append (written : option nat) (e : Entry) (j : Journal) : Journal * option journal_err :=
  let seq := u64 (jn_seq j + 1) in
  let j' f := mkJournal f seq (jn_open j) in
  match marshal (set_seq seq e) with
  | None => (j' (jn_file j), Some JMarshal)
  | Some b =>
    if negb (jn_open j) then (j' (jn_file j), Some JClosed)
    else match written with
         | Some n => (j' (mkJFile (jf_lines (jn_file j)) (jf_tail (jn_file j) +:+ String.substring 0 n b)), Some JWrite)
         | None => (j' (mkJFile (jf_lines (jn_file j) ++ [jf_tail (jn_file j) +:+ b]) ""), None)
         end
  end.

(** The loop of [Read]: entries from [from] on, at most [limit] of them. *)
Fixpoint read_loop (from limit : Z) (out : list Entry) (ls : list string) : list Entry * bool :=
  match ls with
  | [] => (out, false)
  | l :: ls =>
    if fits l then
      match unmarshal l with
      | None => read_loop from limit out ls
      | Some e =>
        if bool_decide (je_Seq e < from) then read_loop from limit out ls
        else let out := out ++ [e] in
             if bool_decide (0 < limit) && bool_decide (limit <= Z.of_nat (length out)) then (out, false)
             else read_loop from limit out ls
      end
    else (out, true)
  end.

Definition Read (ok : bool) (from limit : Z) (j : Journal) : list Entry * option journal_err :=
  if negb ok then ([], Some JOpen)
  else let '(out, long) := read_loop from limit [] (tokens (jn_file j)) in (out, if long then Some JTooLong else None).

Definition Export (ok : bool) (from : Z) : Journal -> list Entry * option journal_err := Read ok from 0.

Definition Close (j : Journal) : Journal := mkJournal (jn_file j) (jn_seq j) false.

(** ** What is read back *)

(** An entry that JSON carries over, in a line the scanner takes. *)
Definition carried (e : Entry) : Prop := exists s, marshal e = Some s /\ unmarshal s = Some e /\ fits s = true.

(** The entries [es], numbered from [n + 1] on. *)
Fixpoint numbered (n : Z) (es : list Entry) : list Entry :=
  match es with [] => [] | e :: es => set_seq (n + 1) e :: numbered (n + 1) es end.

Lemma numbered_app n es es' : numbered n (es ++ es') = numbered n es ++ numbered (n + Z.of_nat (length es)) es'.
Proof.
  revert n. induction es as [|e es IH]; intros n; cbn [app numbered length]; [by rewrite Z.add_0_r |]. rewrite IH. do 3 f_equal. lia.
Qed.

(** A journal that holds exactly the entries [es]. *)
Record holds (es : list Entry) (j : Journal) : Prop := {
  ho_seq : jn_seq j = Z.of_nat (length es);
  ho_tail : jf_tail (jn_file j) = "";
  ho_lines : Forall2 (fun l e => unmarshal l = Some e /\ fits l = true) (jf_lines (jn_file j)) (numbered 0 es) }.

Lemma scan_fits ls : Forall (fun l => fits l = true) ls -> scan ls = (ls, false).
Proof. induction 1 as [|l ls Hl _ IH]; [done |]. cbn. by rewrite Hl, IH. Qed.

Lemma holds_fits es j : holds es j -> Forall (fun l => fits l = true) (tokens (jn_file j)) /\ tokens (jn_file j) = jf_lines (jn_file j).
Proof.
  intros [_ Ht Hl]. unfold tokens. rewrite Ht, bool_decide_true, app_nil_r by done. split; [|done].
  induction Hl as [|l e ls es' [_ Hf] _ IH]; by constructor.
Qed.

(** Reopening a journal continues its numbers. *)
Lemma reopen_holds es j : holds es j -> Z.of_nat (length es) < u64_modulus -> exists j', Open true (jn_file j) = inr j' /\ holds es j' /\ jn_open j' = true.
Proof.
  intros Hh Hb. destruct (holds_fits es j Hh) as [Hf Ht]. unfold Open. cbn [negb]. rewrite scan_fits by done. cbn [fst].
  eexists. split; [done |]. split; [|done]. destruct Hh as [Hs Htl Hl]. split; cbn; [|done | done]. rewrite Ht.
  assert (length (jf_lines (jn_file j)) = length es) as ->.
  { rewrite (Forall2_length _ _ _ Hl). clear. generalize 0. induction es as [|e es IH]; intros n; cbn; [done |]. by rewrite IH. }
  apply u64_small. unfold is_u64. lia.
Qed.

Lemma append_holds es e j : holds es j -> jn_open j = true -> Z.of_nat (length es) + 1 < u64_modulus -> carried (set_seq (Z.of_nat (length es) + 1) e) ->
  exists j', Append None e j = (j', None) /\ holds (es ++ [e]) j' /\ jn_open j' = true.
Proof.
  intros [Hs Ht Hl] Ho Hb (s & Hm & Hu & Hf). unfold Append. rewrite Hs, u64_small by (unfold is_u64; lia). rewrite Hm, Ho. cbn [negb].
  eexists. split; [done |]. split; [|done]. split; cbn [jn_seq jn_file jf_tail jf_lines].
  - rewrite length_app. cbn. lia.
  - done.
  - rewrite numbered_app, Ht. apply Forall2_app; [done |]. cbn [numbered]. constructor; [|constructor]. by rewrite Z.add_0_l.
Qed.

(** Entries with their numbers, from one number on. *)
Lemma read_loop_all from ls es : Forall2 (fun l e => unmarshal l = Some e /\ fits l = true) ls es -> forall out,
  read_loop from 0 out ls = (out ++ filter (fun e => from <= je_Seq e) es, false).
Proof.
  induction 1 as [|l e ls es [Hu Hf] _ IH]; intros out; cbn [read_loop]; [by rewrite app_nil_r |]. rewrite Hf, Hu.
  destruct (bool_decide_reflect (je_Seq e < from)) as [Hlt|Hge].
  - rewrite IH. by rewrite filter_cons_False by lia.
  - rewrite (bool_decide_false (0 < 0)) by lia. cbn [andb]. rewrite IH, <- app_assoc. by rewrite filter_cons_True by lia.
Qed.

(** A session: what happens to the journal between two looks at it. *)
Inductive jstep : list Entry * Journal -> list Entry * Journal -> Prop :=
| js_append e es j j' : carried (set_seq (Z.of_nat (length es) + 1) e) -> Append None e j = (j', None) -> jstep (es, j) (es ++ [e], j')
| js_restart es j j' : Open true (jn_file j) = inr j' -> jstep (es, j) (es, j').

(** The journal is complete and numbered without gaps, across restarts: after any
    appends that succeed and any reopenings, [Read] returns every entry appended, in
    order, numbered from one on, from the number asked for. *)
Theorem journal_complete es j from : steps jstep ([], mkJournal jfile_empty 0 true) (es, j) ->
  Z.of_nat (length es) < u64_modulus ->
  Read true from 0 j = (filter (fun e => from <= je_Seq e) (numbered 0 es), None) /\
  (forall j', Open true (jn_file j) = inr j' -> jn_seq j' = Z.of_nat (length es)).
Proof.
  intros Hs Hb.
  assert (forall x y, steps jstep x y -> Z.of_nat (length y.1) < u64_modulus -> holds x.1 x.2 /\ jn_open x.2 = true -> holds y.1 y.2 /\ jn_open y.2 = true) as Hinv.
  { clear. intros x y H. induction H as [x|x y z Hxy Hyz IH]; intros Hb Hx; [done |].
    assert (length y.1 <= length z.1)%nat as Hle by (clear -Hyz; induction Hyz as [|x y z Hst _ IH]; [done |]; inversion Hst; subst; cbn in *; rewrite ?length_app in *; lia).
    apply IH; [done |]. destruct Hx as [Hh Ho]. destruct Hxy as [e es j j' Hc Ha|es j j' Hop]; cbn [fst snd] in *.
    - rewrite length_app in Hle. cbn in Hle. destruct (append_holds es e j Hh Ho ltac:(lia) Hc) as (j2 & Ha' & Hh' & Ho'). rewrite Ha in Ha'. by injection Ha' as <-.
    - destruct (reopen_holds es j Hh ltac:(lia)) as (j2 & Hop' & Hh' & Ho'). rewrite Hop in Hop'. by injection Hop' as <-. }
  destruct (Hinv _ _ Hs Hb) as [Hh Ho]; [split; [split; [done | done | constructor] | done] |]. cbn [fst snd] in *.
  destruct (holds_fits es j Hh) as [_ Ht]. split.
  - unfold Read. cbn [negb]. rewrite Ht. by rewrite (read_loop_all from _ _ (ho_lines _ _ Hh) []).
  - intros j' Hop. destruct (reopen_holds es j Hh Hb) as (j2 & Hop' & Hh' & _). rewrite Hop in Hop'. injection Hop' as <-. apply Hh'.
Qed.
End Journal.

(** ** What goes wrong *)

(** A codec for entries that are told apart by their number. *)
Definition demo_entry (n : Z) : Entry := mkJEntry n 0 "s" "c" "g" "t" 1 "" "" ∅.
Definition demo_marshal (e : Entry) : option string := Some (if bool_decide (je_Seq e = 1) then "long line" else if bool_decide (je_Seq e = 2) then "b" else "c").
Definition demo_unmarshal (s : string) : option Entry :=
  if bool_decide (s = "long line") then Some (demo_entry 1) else if bool_decide (s = "b") then Some (demo_entry 2)
  else if bool_decide (s = "c") then Some (demo_entry 3) else None.
Definition demo_fits (s : string) : bool := bool_decide (String.length s < 5)%nat.

(** A line that is too long for the scanner hides the ones behind it from [Open], and the
    numbers start again. *)
Lemma long_line_repeats_numbers :
  let j := (Append demo_marshal None (demo_entry 0) (Append demo_marshal None (demo_entry 0) (mkJournal jfile_empty 0 true)).1).1 in
  jn_seq j = 2 /\ jn_seq <$> (match Open demo_fits true (jn_file j) with inr j' => Some j' | inl _ => None end) = Some 0.
Proof. vm_compute. split; reflexivity. Qed.

(** The entry after a write that failed half-way is appended to its remains: [Append]
    reports success and the entry cannot be read. *)
Lemma partial_write_loses_next :
  let j1 := Append demo_marshal (Some 3%nat) (demo_entry 0) (mkJournal jfile_empty 0 true) in
  let j2 := Append demo_marshal None (demo_entry 0) j1.1 in
  j1.2 = Some JWrite /\ j2.2 = None /\ Read demo_unmarshal (fun _ => true) true 0 0 j2.1 = ([], None).
Proof. vm_compute. split_and!; reflexivity. Qed.

(** ** The observer *)

(** Keys that are not written to the journal, compared exactly. *)
Definition dropped_keys : list string := ["password"; "token"; "authorization"].

Record Observer := mkObserver { ob_service : string; ob_seq : Z }.

(** [OnEvent]: the entry given to the journal. *)
Definition OnEvent (time : Time) (claim generation type : string) (token : FencingToken) (reason : string)
    (attrs : gmap string string) (o : Observer) : Observer * Entry :=
  let seq := u64 (ob_seq o + 1) in
  (mkObserver (ob_service o) seq,
   mkJEntry seq time (ob_service o) claim generation type token reason "" (filter (fun kv => kv.1 ∉ dropped_keys) attrs)).

(** No entry has an attribute under one of the keys, and every other attribute is kept. *)
Lemma observer_drops time claim generation type token reason attrs o k :
  je_Attrs (OnEvent time claim generation type token reason attrs o).2 !! k =
  if bool_decide (k ∈ dropped_keys) then None else attrs !! k.
Proof.
  cbn. case_bool_decide as Hk.
  - apply map_lookup_filter_None_2. right. intros v _ Hn. by apply Hn.
  - destruct (attrs !! k) as [v|] eqn:E; [by apply map_lookup_filter_Some_2 | apply map_lookup_filter_None_2; by left].
Qed.
