(* ===== verification/WorkerSup.v ===== *)
(** * The owner of background goroutines ([internal/supervisor/supervisor.go])

    A supervisor as a transition system: goroutines start under the mutex, run and end,
    [Shutdown] marks the supervisor closed, cancels the context and waits for the group. *)

From S2P Require Import Prelude Types.

(** The state of one call of [Shutdown]: waiting in [wg.Wait], or returned; [found] tells
    whether it was the call that closed the supervisor. *)
Inductive shutdown := ShutWaiting | ShutReturned (found : bool).

Record Supervisor := mkSup {
  sp_running : nat; sp_cancelled : bool; sp_closed : bool; sp_calls : list shutdown; sp_started : nat }.

Definition New : Supervisor := mkSup 0 false false [] 0.

(** [Go]; [GoNamed] starts the same goroutine around a function that recovers. *)
Definition Go (s : Supervisor) : Supervisor :=
  if sp_closed s then s else mkSup (S (sp_running s)) (sp_cancelled s) (sp_closed s) (sp_calls s) (S (sp_started s)).

(** [wg.Done] of a goroutine that runs. *)
Definition Finish (s : Supervisor) : option Supervisor :=
  match sp_running s with
  | O => None
  | S n => Some (mkSup n (sp_cancelled s) (sp_closed s) (sp_calls s) (sp_started s))
  end.

(** [Shutdown] up to the wait. *)
Definition Shutdown (s : Supervisor) : Supervisor :=
  if sp_closed s then mkSup (sp_running s) (sp_cancelled s) (sp_closed s) (sp_calls s ++ [ShutReturned false]) (sp_started s)
  else mkSup (sp_running s) true true (sp_calls s ++ [ShutWaiting]) (sp_started s).

(** [wg.Wait] returns to the [i]-th call of [Shutdown]. *)
Definition Wait_return (i : nat) (s : Supervisor) : option Supervisor :=
  match sp_calls s !! i, sp_running s with
  | Some ShutWaiting, O => Some (mkSup 0 (sp_cancelled s) (sp_closed s) (<[i := ShutReturned true]> (sp_calls s)) (sp_started s))
  | _, _ => None
  end.

Inductive sup_step : Supervisor -> Supervisor -> Prop :=
| ss_go s : sup_step s (Go s)
| ss_finish s s' : Finish s = Some s' -> sup_step s s'
| ss_shutdown s : sup_step s (Shutdown s)
| ss_return i s s' : Wait_return i s = Some s' -> sup_step s s'.

Record sup_inv (s : Supervisor) : Prop := {
  si_cancel : sp_cancelled s = sp_closed s;
  si_closed : sp_calls s ≠ [] -> sp_closed s = true;
  si_first : ShutReturned true ∈ sp_calls s -> sp_running s = 0%nat /\ sp_closed s = true }.

Lemma sup_step_inv s s' : sup_inv s -> sup_step s s' -> sup_inv s'.
Proof.
  intros [Hn Hc Hf] Hs. destruct Hs as [s|s s' E|s|i s s' E].
  - unfold Go. destruct (sp_closed s) eqn:Ec; [by split; rewrite ?Ec |]. split; cbn; [congruence | by intros H%Hc | by intros [_ ?]%Hf].
  - unfold Finish in E. destruct (sp_running s) eqn:Er; [done |]. injection E as <-. split; cbn; [done | done |]. by intros [? _]%Hf.
  - unfold Shutdown. destruct (sp_closed s) eqn:Ec; split; cbn; try done; rewrite elem_of_app; (intros [H%Hf|H%list_elem_of_singleton]; [|done]).
    + by destruct H.
    + by destruct H as [? ?].
  - unfold Wait_return in E. destruct (sp_calls s !! i) as [[|f]|] eqn:Ei; try done. destruct (sp_running s) eqn:Er; [|done]. injection E as <-.
    assert (sp_calls s ≠ []) as Hne by (by intros H; rewrite H in Ei). split; cbn; [done | by intros _; apply Hc | by intros _; split; [|apply Hc]].
Qed.

Lemma sup_closed_started s s' : steps sup_step s s' -> sp_closed s = true -> sp_started s' = sp_started s /\ (sp_running s' <= sp_running s)%nat /\ sp_closed s' = true.
Proof.
  induction 1 as [s|s s1 s2 Hs _ IH]; intros Hc; [by split_and!; try lia |].
  assert (sp_started s1 = sp_started s /\ (sp_running s1 <= sp_running s)%nat /\ sp_closed s1 = true) as (H1 & H2 & H3).
  { destruct Hs as [s|s s' E|s|i s s' E].
    - unfold Go. rewrite Hc. by split_and!; try lia.
    - unfold Finish in E. destruct (sp_running s); [done |]. injection E as <-. by split_and!; cbn; try lia.
    - unfold Shutdown. rewrite Hc. by split_and!; cbn; try lia.
    - unfold Wait_return in E. destruct (sp_calls s !! i) as [[|f]|]; try done. destruct (sp_running s); [|done]. injection E as <-. cbn. split_and!; [done | lia | done]. }
  destruct (IH H3) as (? & ? & ?). split_and!; [congruence | lia | done].
Qed.

(** When the call of [Shutdown] that closed the supervisor has returned, no goroutine is
    running, the context is cancelled, and none will ever start. *)
Theorem shutdown_waits s s' : steps sup_step New s -> ShutReturned true ∈ sp_calls s -> steps sup_step s s' ->
  sp_running s' = 0%nat /\ sp_started s' = sp_started s /\ sp_cancelled s' = true.
Proof.
  intros Hr Hin Hs. assert (sup_inv s) as Hi.
  { eapply steps_invariant; [|exact Hr |]; [intros x y Hx Hy; by eapply sup_step_inv |]. split; [done | done | by intros ?%elem_of_nil]. }
  assert (sup_inv s') as Hi' by (eapply steps_invariant; [|exact Hs | exact Hi]; intros x y Hx Hy; by eapply sup_step_inv).
  destruct (si_first s Hi Hin) as [H0 Hc]. destruct (sup_closed_started s s' Hs Hc) as (H1 & H2 & H3).
  split_and!; [lia | done |]. by rewrite (si_cancel s' Hi').
Qed.

(** A second call returns at once, while the goroutines are still running. *)
Lemma second_shutdown_does_not_wait :
  let s := Shutdown (Shutdown (Go New)) in sp_calls s = [ShutWaiting; ShutReturned false] /\ sp_running s = 1%nat.
Proof. split; reflexivity. Qed.
