(* ===== verification/BackendSpec.v ===== *)
(** * What a [Backend] promises ([backend.go])

    The interface [Backend] of [backend.go], and the contract its comments state,
    as a small specification that does not mention leases, timestamps, operation
    identifiers or watchers: one _cell_ per claim (owner, fencing token, phase,
    pending successor) and the seven things that may happen to it.  A concrete
    backend refines the specification when every operation moves the cell of its
    claim along these steps and leaves the other claims alone; the safety facts
    of the protocol are proved here once, for the specification. *)

From S2P Require Import Prelude Types.

(** ** The environment of one call

    What the caller's context and the clock supply to one backend call: whether
    the context ends during an injected delay, and the successive readings of
    [clock.Now()] (expiry check, main reading, notification). *)
Record Env := mkEnv {
  env_cancel : option ctx_error; env_t1 : Time; env_t2 : Time; env_t3 : Time }.

(** ** Cells *)

Record cell := mkCell {
  c_owner : string; c_token : FencingToken; c_phase : ClaimPhase; c_succ : string }.

#[global] Instance cell_eq_dec : EqDecision cell.
Proof. solve_decision. Defined.

(** A claim nobody ever acquired. *)
Definition cell0 : cell := mkCell "" 0 ClaimUnowned "".

Definition cell_of_record (r : ClaimRecord) : cell :=
  mkCell (OwnerGeneration r) (FencingTokenOf r) (Phase r) (PendingSuccessor r).

Definition cell_of (o : option ClaimRecord) : cell := from_option cell_of_record cell0 o.

Definition held (c : cell) : Prop := c_phase c ≠ ClaimUnowned.

#[global] Instance held_dec c : Decision (held c).
Proof. unfold held. solve_decision. Defined.

(** Well-formed cells: the token is in the issued range, exactly the held
    phases have an owner (at a non-zero token), exactly the reserved phase has a
    successor. *)
Record cell_wf (c : cell) : Prop := mkCellWf {
  wf_range : 0 <= c_token c <= MaxSafeFencingToken;
  wf_unowned : c_phase c = ClaimUnowned -> c_owner c = "";
  wf_owned : held c -> c_owner c ≠ "" /\ 0 < c_token c;
  wf_reserved : c_phase c = ClaimReserved -> c_succ c ≠ "";
  wf_nosucc : c_phase c ≠ ClaimReserved -> c_succ c = "" }.

(** ** Steps of a cell *)

Inductive cell_event :=
| EvStutter                 (* a read, a renewal, a refused request *)
| EvExpire                  (* the lease ran out *)
| EvAcquire (g : string)    (* an unowned claim is taken *)
| EvReserve (to : string)   (* PrepareTransfer *)
| EvCommit                  (* CommitTransfer *)
| EvAbort                   (* AbortTransfer *)
| EvRelease.                (* ReleaseClaim by the owner *)

Inductive cell_step : cell -> cell_event -> cell -> Prop :=
| cell_stutter c : cell_step c EvStutter c
| cell_expire c :
    held c ->
    cell_step c EvExpire (mkCell "" (c_token c) ClaimUnowned "")
| cell_acquire c g :
    c_phase c = ClaimUnowned -> c_token c < MaxSafeFencingToken -> g ≠ "" ->
    cell_step c (EvAcquire g) (mkCell g (c_token c + 1) ClaimOwned "")
| cell_reserve c to :
    held c -> c_phase c ≠ ClaimReserved -> to ≠ "" ->
    cell_step c (EvReserve to) (mkCell (c_owner c) (c_token c) ClaimReserved to)
| cell_commit c :
    c_phase c = ClaimReserved -> c_token c < MaxSafeFencingToken ->
    cell_step c EvCommit (mkCell (c_succ c) (c_token c + 1) ClaimOwned "")
| cell_abort c :
    c_phase c = ClaimReserved ->
    cell_step c EvAbort (mkCell (c_owner c) (c_token c) ClaimOwned "")
| cell_release c :
    held c ->
    cell_step c EvRelease (mkCell "" (c_token c) ClaimUnowned "").

Definition cell_trans (c c' : cell) : Prop := exists e, cell_step c e c'.

(** ** Safety of the specification *)

Lemma cell0_wf : cell_wf cell0.
Proof. by split. Qed.

Lemma cell_step_wf c e c' : cell_wf c -> cell_step c e c' -> cell_wf c'.
Proof.
  intros Hw Hs. destruct Hs; [done |..];
    destruct Hw as [Hr Hu Ho Hres Hns]; split; unfold held in *; simpl; intros;
    try done; try lia; try (apply Ho; congruence); split; try lia; auto.
Qed.

(** The order of ownership epochs: the token does not decrease, and a holder at
    an unchanged token is the holder there was. *)
Record epoch_le (c c' : cell) : Prop := mkEpochLe {
  ep_token : c_token c <= c_token c';
  ep_holder : c_token c = c_token c' -> held c' -> held c /\ c_owner c = c_owner c' }.

#[global] Instance epoch_le_preorder : PreOrder epoch_le.
Proof.
  split.
  - intros c. split; [lia | done].
  - intros a b c [H1 H1'] [H2 H2']. split; [lia |].
    intros Heq Hh. destruct (H2' ltac:(lia) Hh) as [Hb Eb].
    destruct (H1' ltac:(lia) Hb). split; congruence.
Qed.

Lemma cell_step_epoch c e c' : cell_step c e c' -> epoch_le c c'.
Proof.
  intros Hs. destruct Hs; split; unfold held in *; simpl; intros; try done; try lia;
    split; try done; congruence.
Qed.

Lemma cell_trans_wf c c' : cell_wf c -> cell_trans c c' -> cell_wf c'.
Proof. intros Hw [e Hs]. eauto using cell_step_wf. Qed.

Lemma cell_steps_wf c c' : cell_wf c -> steps cell_trans c c' -> cell_wf c'.
Proof. intros Hw Hs. eapply steps_invariant; eauto using cell_trans_wf. Qed.

Lemma cell_steps_epoch c c' : steps cell_trans c c' -> epoch_le c c'.
Proof.
  induction 1 as [|a b d [e Hs] _ IH]; [done |].
  etransitivity; eauto using cell_step_epoch.
Qed.

(** One spec step after an optional expiry: what one backend call does to the
    cell of its claim. *)
Definition expired_cell (c : cell) : cell := mkCell "" (c_token c) ClaimUnowned "".

Lemma expire_steps c : held c -> steps cell_trans c (expired_cell c).
Proof. intros H. apply steps_one. exists EvExpire. by constructor. Qed.

Lemma cell_step_steps c e c' : cell_step c e c' -> steps cell_trans c c'.
Proof. intros H. apply steps_one. by exists e. Qed.

(** ** The interface

    [Backend] as the record of operations the coordinator calls.  [claim_at]
    reads the stored record (no expiry) and [op_seen] tells whether an operation
    identifier has a stored result. *)
Class BackendOps (S : Type) := {
  do_Acquire : Env -> AcquireRequest -> S -> S * RecordResult;
  do_Renew : Env -> RenewRequest -> S -> S * RecordResult;
  do_Prepare : Env -> TransferRequest -> S -> S * RecordResult;
  do_Commit : Env -> CommitRequest -> S -> S * RecordResult;
  do_Abort : Env -> AbortRequest -> S -> S * RecordResult;
  do_Release : Env -> ReleaseRequest -> S -> S * option error;
  do_Register : Env -> Generation -> S -> S * option error;
  do_Update : Env -> Generation -> S -> S * option error;
  claim_at : S -> string -> option ClaimRecord;
  op_seen : S -> OperationID -> bool }.

(** A request, whatever its kind. *)
Inductive Request :=
| RqAcquire (r : AcquireRequest)
| RqRenew (r : RenewRequest)
| RqPrepare (r : TransferRequest)
| RqCommit (r : CommitRequest)
| RqAbort (r : AbortRequest)
| RqRelease (r : ReleaseRequest).

Definition rq_claim (rq : Request) : string :=
  match rq with
  | RqAcquire r => acq_ClaimName r | RqRenew r => ren_ClaimName r
  | RqPrepare r => tr_ClaimName r | RqCommit r => com_ClaimName r
  | RqAbort r => ab_ClaimName r | RqRelease r => rel_ClaimName r
  end.

Definition rq_op (rq : Request) : OperationID :=
  match rq with
  | RqAcquire r => acq_OperationID r | RqRenew r => ren_OperationID r
  | RqPrepare r => tr_OperationID r | RqCommit r => com_OperationID r
  | RqAbort r => ab_OperationID r | RqRelease r => rel_OperationID r
  end.

(** The fencing token a request presents, when it presents one. *)
Definition rq_token (rq : Request) : option FencingToken :=
  match rq with
  | RqAcquire _ => None
  | RqRenew r => Some (ren_Token r)
  | RqPrepare r => Some (tr_Token r) | RqCommit r => Some (com_ExpectedToken r)
  | RqAbort r => Some (ab_ExpectedToken r) | RqRelease r => Some (rel_Token r)
  end.

(** Generation identifiers are non-empty: [Config.defaults] generates one when
    none is given and [Handoff.Transfer] refuses an empty successor. *)
Definition rq_valid (rq : Request) : Prop :=
  match rq with
  | RqAcquire r => acq_GenerationID r ≠ ""
  | RqRenew r => ren_GenerationID r ≠ ""
  | RqPrepare r => tr_FromGeneration r ≠ "" /\ tr_ToGeneration r ≠ ""
  | RqCommit r => com_FromGeneration r ≠ "" /\ com_ToGeneration r ≠ ""
  | RqAbort r => ab_FromGeneration r ≠ ""
  | RqRelease r => rel_GenerationID r ≠ ""
  end.

#[global] Instance rq_valid_dec rq : Decision (rq_valid rq).
Proof. destruct rq; simpl; apply _. Defined.

Section Interface.
Context {S : Type} `{!BackendOps S}.

(** The state after a request, and its result. *)
Definition do_request (env : Env) (rq : Request) (s : S) : S * RecordResult :=
  match rq with
  | RqAcquire r => do_Acquire env r s
  | RqRenew r => do_Renew env r s
  | RqPrepare r => do_Prepare env r s
  | RqCommit r => do_Commit env r s
  | RqAbort r => do_Abort env r s
  | RqRelease r => let '(s', e) := do_Release env r s in (s', (None, e))
  end.

Definition cell_at (s : S) (n : string) : cell := cell_of (claim_at s n).

(** An operation identifier without a stored result: the call is executed, not
    answered from the cache. *)
Definition fresh (s : S) (id : OperationID) : Prop := op_seen s id = false.
End Interface.

(** ** The contract *)

Class BackendLaws (S : Type) `{!BackendOps S} := {
  be_inv : S -> Prop;
  (** every claim is well formed *)
  be_inv_wf s n : be_inv s -> cell_wf (cell_at s n);
  (** the invariant is kept, and the claim of the request moves by the steps of
      the specification while the others stay *)
  be_refines env rq s s' r :
    be_inv s -> rq_valid rq -> do_request env rq s = (s', r) ->
    be_inv s' /\
    steps cell_trans (cell_at s (rq_claim rq)) (cell_at s' (rq_claim rq)) /\
    (forall n, n ≠ rq_claim rq -> claim_at s' n = claim_at s n);
  (** a call only records a result under its own operation identifier *)
  be_seen env rq s s' r id :
    do_request env rq s = (s', r) -> id ≠ rq_op rq -> op_seen s' id = op_seen s id;
  (** generations are kept apart from claims and stored results *)
  be_generation env g s f :
    f = do_Register env g s \/ f = do_Update env g s -> be_inv s ->
    be_inv f.1 /\ (forall n, claim_at f.1 n = claim_at s n) /\
    (forall id, op_seen f.1 id = op_seen s id);
  (** successful calls *)
  be_acquire_ok env req s s' rec :
    be_inv s -> rq_valid (RqAcquire req) -> fresh s (acq_OperationID req) ->
    do_Acquire env req s = (s', (Some rec, None)) ->
    claim_at s' (acq_ClaimName req) = Some rec /\
    OwnerGeneration rec = acq_GenerationID req;
  be_prepare_ok env req s s' rec :
    be_inv s -> rq_valid (RqPrepare req) -> fresh s (tr_OperationID req) ->
    do_Prepare env req s = (s', (Some rec, None)) ->
    claim_at s' (tr_ClaimName req) = Some rec /\
    cell_of_record rec =
      mkCell (tr_FromGeneration req) (tr_Token req) ClaimReserved (tr_ToGeneration req);
  be_commit_ok env req s s' rec :
    be_inv s -> fresh s (com_OperationID req) ->
    do_Commit env req s = (s', (Some rec, None)) ->
    claim_at s' (com_ClaimName req) = Some rec /\
    OwnerGeneration rec = com_ToGeneration req /\ Phase rec = ClaimOwned /\
    FencingTokenOf rec = u64 (com_ExpectedToken req + 1);
  be_abort_ok env req s s' rec :
    be_inv s -> fresh s (ab_OperationID req) ->
    do_Abort env req s = (s', (Some rec, None)) ->
    claim_at s' (ab_ClaimName req) = Some rec /\
    OwnerGeneration rec = ab_FromGeneration req /\ Phase rec = ClaimOwned /\
    FencingTokenOf rec = c_token (cell_at s (ab_ClaimName req)) }.

(** A step of a system of callers that share one backend: some caller's valid
    request takes effect. *)
Definition backend_step {S} `{BackendOps S} (s s' : S) : Prop :=
  exists env rq r, rq_valid rq /\ do_request env rq s = (s', r).

(** ** Safety of every backend that meets the contract *)

Section Safety.
Context {S : Type} `{!BackendOps S} `{!BackendLaws S}.

Lemma backend_step_inv s s' : be_inv s -> backend_step s s' -> be_inv s'.
Proof. intros Hi (env & rq & r & Hv & E). by destruct (be_refines _ _ _ _ _ Hi Hv E). Qed.

Lemma backend_step_cell s s' n :
  be_inv s -> backend_step s s' -> steps cell_trans (cell_at s n) (cell_at s' n).
Proof.
  intros Hi (env & rq & r & Hv & E).
  destruct (be_refines _ _ _ _ _ Hi Hv E) as (_ & Hs & Ho).
  destruct (decide (n = rq_claim rq)) as [->|Hn]; [done |].
  unfold cell_at. rewrite Ho by done. constructor.
Qed.

Lemma backend_steps_inv s s' : be_inv s -> steps backend_step s s' -> be_inv s'.
Proof. intros Hi Hs. eapply steps_invariant; eauto using backend_step_inv. Qed.

(** Executions of the backend project to executions of each cell. *)
Lemma backend_steps_cell s s' n :
  be_inv s -> steps backend_step s s' -> steps cell_trans (cell_at s n) (cell_at s' n).
Proof.
  intros Hi Hs. induction Hs as [|a b c Hab _ IH]; [constructor |].
  eapply steps_app; [by eapply backend_step_cell |].
  apply IH. by eapply backend_step_inv.
Qed.

Lemma backend_steps_epoch s s' n :
  be_inv s -> steps backend_step s s' -> epoch_le (cell_at s n) (cell_at s' n).
Proof. intros Hi Hs. by apply cell_steps_epoch, backend_steps_cell. Qed.
End Safety.

(** Compute the cell of a record built by field assignments. *)
Ltac cell_simpl :=
  cbv [cell_of_record];
  cbn [OwnerGeneration FencingTokenOf Phase PendingSuccessor set_PreviousOwner
       set_OwnerGeneration set_FencingToken set_Phase set_AcquiredAt set_ExpiresAt
       set_LastHeartbeat set_PendingSuccessor set_TransferStatus set_DrainStatus
       set_CReason bump_Version].

(** [cell_step_by step] proves [steps cell_trans] by one step of the
    specification. *)
Ltac cell_step_by step :=
  cell_simpl; eapply cell_step_steps, (step (mkCell _ _ _ _)).

#[export] Hint Resolve cell_step_steps expire_steps cell0_wf : shiftlock.
