(* ===== verification/ClaimStore.v ===== *)
(** * Maps of claim records

    What the two in-process backends share: a map from claim names to records,
    its invariant, and the effect one call may have on it (the claim of the
    request follows the specification of [BackendSpec], the others stay). *)

From S2P Require Import Prelude Types BackendSpec.

Definition store_inv (m : gmap string ClaimRecord) : Prop :=
  map_Forall (λ n cl, Name cl = n /\ cell_wf (cell_of_record cl)) m.

Lemma store_inv_cell m n : store_inv m -> cell_wf (cell_of (m !! n)).
Proof.
  intros Hi. destruct (m !! n) eqn:E; [|apply cell0_wf]. by destruct (Hi _ _ E).
Qed.

(** The effect of one call on claim [n]. *)
Record store_effect (n : string) (m m' : gmap string ClaimRecord) : Prop := mkEffect {
  ef_inv : store_inv m';
  ef_cell : steps cell_trans (cell_of (m !! n)) (cell_of (m' !! n));
  ef_other k : k ≠ n -> m' !! k = m !! k;
  ef_dom : is_Some (m !! n) -> is_Some (m' !! n) }.

Lemma store_effect_refl n m : store_inv m -> store_effect n m m.
Proof. intros Hi. split; [done | constructor | done | done]. Qed.

Lemma store_effect_trans n a b c :
  store_effect n a b -> store_effect n b c -> store_effect n a c.
Proof.
  intros [I1 C1 O1 D1] [I2 C2 O2 D2]. split; [done | by eapply steps_app | | by auto].
  intros m Hm. rewrite O2, O1 by done. done.
Qed.

Lemma store_effect_insert n cl m :
  store_inv m -> Name cl = n -> steps cell_trans (cell_of (m !! n)) (cell_of_record cl) ->
  store_effect n m (<[n := cl]> m).
Proof.
  intros Hi Hn Hs. split.
  - apply map_Forall_insert_2; [|done]. split; [done |].
    eapply cell_steps_wf; [by apply store_inv_cell | exact Hs].
  - by rewrite lookup_insert_eq.
  - intros k Hk. by rewrite lookup_insert_ne.
  - intros _. rewrite lookup_insert_eq. by eexists.
Qed.

(** The record under [n] is replaced by one its cell can step to. *)
Lemma store_effect_replace n cl cl' m0 m :
  store_effect n m0 m -> m !! n = Some cl -> Name cl' = Name cl ->
  steps cell_trans (cell_of_record cl) (cell_of_record cl') ->
  store_effect n m0 (<[n := cl']> m).
Proof.
  intros H E Hn Hs. pose proof (ef_inv _ _ _ H) as Hi.
  eapply store_effect_trans; [exact H |]. apply store_effect_insert; [done | |by rewrite E].
  rewrite Hn. by destruct (Hi _ _ E).
Qed.

(** ** Expiry *)

(** Whether the record is in one of the phases that carry an owner. *)
Definition held_phase (p : ClaimPhase) : bool :=
  bool_decide (p = ClaimOwned) || bool_decide (p = ClaimDraining)
  || bool_decide (p = ClaimReserved).

Lemma held_phase_spec p : reflect (p ≠ ClaimUnowned) (held_phase p).
Proof. destruct p; [apply ReflectF; by intros [] | by apply ReflectT ..]. Qed.

(** ** Stored results *)

(** The result a backend keeps for an operation identifier. *)
Record opResult := mkOpResult { op_rec : option ClaimRecord; op_err : option error }.

(** [advanceToken] of the memory backend and [advanceLocal] of the local Redis
    backend are the same function. *)
Definition next_token (cur : FencingToken) : FencingToken * option error :=
  if bool_decide (MaxSafeFencingToken <= cur) then (cur, Some (Sentinel ErrTokenOverflow))
  else (u64 (cur + 1), None).

Lemma next_token_ok t next :
  0 <= t -> next_token t = (next, None) -> t < MaxSafeFencingToken /\ next = t + 1.
Proof.
  unfold next_token. intros Ht. case_bool_decide as Hb; intros [= <-].
  rewrite MaxSafe_value in Hb. rewrite MaxSafe_value.
  split; [lia |]. apply u64_small. unfold is_u64, u64_modulus in *. lia.
Qed.

Lemma next_token_err t next e :
  next_token t = (next, Some e) ->
  MaxSafeFencingToken <= t /\ e = Sentinel ErrTokenOverflow.
Proof. unfold next_token. case_bool_decide; by intros [= <- <-]. Qed.
