(* ===== verification/MemoryBackend.v ===== *)
(** * The in-memory backend ([backend/memory/memory.go])

    [Backend] is the struct of the same name; every method is a state-passing
    function.  A method that takes the mutex twice (once in [beforeMutate], once
    for its body) is the composition of two definitions, so that other calls can
    run between them: [X_locked] is the part of [X] under the second lock. *)

From S2P Require Import Prelude Types BackendSpec ClaimStore.

(** ** State *)

(** A watcher: the identity of the pointer, the buffered channel of capacity 16
    and whether it was closed. *)
Record watchChan := mkWatch {
  wid : nat; ch : list ClaimEvent; wclosed : bool }.

Definition watch_capacity : nat := 16.

Record Backend := mkBackend {
  gens : gmap string Generation;
  claims : gmap string ClaimRecord;
  watchers : gmap string (list watchChan);
  ops : gmap string opResult;
  partitionEnabled : bool;
  partitioned : bool;
  failNext : option error;
  delay : Duration;
  crashOnCommit : bool;
  failPrepareAt : Z;
  prepareCount : Z;
  closed : bool;
  (** allocation counter for watcher identities *)
  nextWatch : nat }.

Definition set_gens v b := mkBackend v (claims b) (watchers b) (ops b)
  (partitionEnabled b) (partitioned b) (failNext b) (delay b) (crashOnCommit b)
  (failPrepareAt b) (prepareCount b) (closed b) (nextWatch b).
Definition set_claims v b := mkBackend (gens b) v (watchers b) (ops b)
  (partitionEnabled b) (partitioned b) (failNext b) (delay b) (crashOnCommit b)
  (failPrepareAt b) (prepareCount b) (closed b) (nextWatch b).
Definition set_watchers v b := mkBackend (gens b) (claims b) v (ops b)
  (partitionEnabled b) (partitioned b) (failNext b) (delay b) (crashOnCommit b)
  (failPrepareAt b) (prepareCount b) (closed b) (nextWatch b).
Definition set_ops v b := mkBackend (gens b) (claims b) (watchers b) v
  (partitionEnabled b) (partitioned b) (failNext b) (delay b) (crashOnCommit b)
  (failPrepareAt b) (prepareCount b) (closed b) (nextWatch b).
Definition set_partitioned v b := mkBackend (gens b) (claims b) (watchers b)
  (ops b) (partitionEnabled b) v (failNext b) (delay b) (crashOnCommit b)
  (failPrepareAt b) (prepareCount b) (closed b) (nextWatch b).
Definition set_failNext v b := mkBackend (gens b) (claims b) (watchers b)
  (ops b) (partitionEnabled b) (partitioned b) v (delay b) (crashOnCommit b)
  (failPrepareAt b) (prepareCount b) (closed b) (nextWatch b).
Definition set_delay v b := mkBackend (gens b) (claims b) (watchers b)
  (ops b) (partitionEnabled b) (partitioned b) (failNext b) v (crashOnCommit b)
  (failPrepareAt b) (prepareCount b) (closed b) (nextWatch b).
Definition set_crashOnCommit v b := mkBackend (gens b) (claims b) (watchers b)
  (ops b) (partitionEnabled b) (partitioned b) (failNext b) (delay b) v
  (failPrepareAt b) (prepareCount b) (closed b) (nextWatch b).
Definition set_failPrepareAt v b := mkBackend (gens b) (claims b) (watchers b)
  (ops b) (partitionEnabled b) (partitioned b) (failNext b) (delay b)
  (crashOnCommit b) v (prepareCount b) (closed b) (nextWatch b).
Definition set_prepareCount v b := mkBackend (gens b) (claims b) (watchers b)
  (ops b) (partitionEnabled b) (partitioned b) (failNext b) (delay b)
  (crashOnCommit b) (failPrepareAt b) v (closed b) (nextWatch b).
Definition set_closed v b := mkBackend (gens b) (claims b) (watchers b)
  (ops b) (partitionEnabled b) (partitioned b) (failNext b) (delay b)
  (crashOnCommit b) (failPrepareAt b) (prepareCount b) v (nextWatch b).
Definition set_nextWatch v b := mkBackend (gens b) (claims b) (watchers b)
  (ops b) (partitionEnabled b) (partitioned b) (failNext b) (delay b)
  (crashOnCommit b) (failPrepareAt b) (prepareCount b) (closed b) v.

(** [New] with the options [WithPartitionSimulation] ([part]); the clock is the
    environment's. *)
Definition New (part : bool) : Backend :=
  mkBackend ∅ ∅ ∅ ∅ part false None 0 false 0 0 false 0.

(** ** Idempotent operations *)

Definition recallOp (id : OperationID) (b : Backend) : option RecordResult :=
  if Empty id then None
  else match ops b !! id with
       | Some r => Some (op_rec r, op_err r)
       | None => None
       end.

Definition storeOp (id : OperationID) (rec : option ClaimRecord)
    (err : option error) (b : Backend) : Backend :=
  if Empty id then b else set_ops (<[id := mkOpResult rec err]> (ops b)) b.

Definition advanceToken (cur : FencingToken) : FencingToken * option error :=
  if bool_decide (MaxSafeFencingToken <= cur) then (cur, Some (Sentinel ErrTokenOverflow))
  else (u64 (cur + 1), None).

(** ** Fault injection *)

Definition SetPartition (on : bool) (b : Backend) : Backend := set_partitioned on b.

Definition FailNext (err : option error) (b : Backend) : Backend := set_failNext err b.

Definition SetDelay (d : Duration) (b : Backend) : Backend := set_delay d b.

Definition CrashOnCommit (v : bool) (b : Backend) : Backend := set_crashOnCommit v b.

Definition FailPrepareAt (n : Z) (b : Backend) : Backend :=
  b |> set_failPrepareAt n |> set_prepareCount 0.

Definition beforeMutate (env : Env) (b : Backend) : Backend * option error :=
  if closed b then (b, Some (Sentinel ErrClosed))
  else if partitionEnabled b && partitioned b then
    (b, Some (Typed (mkErrorOf "memory" "" "" 0 ReasonPartition
          (Some (Sentinel ErrBackend)) "partitioned" "" "")))
  else
    let err := failNext b in
    let b := set_failNext None b in
    match err with
    | Some e => (b, Some e)
    | None =>
        if bool_decide (0 < delay b) then
          match env_cancel env with
          | Some c => (b, Some (CtxErr c))
          | None => (b, None)
          end
        else (b, None)
    end.

(** ** Watchers *)

(** The non-blocking send [select { case w.ch <- ev: default: }]. *)
Definition watch_send (ev : ClaimEvent) (w : watchChan) : watchChan :=
  if wclosed w then w
  else if decide (length (ch w) < watch_capacity)%nat
       then mkWatch (wid w) (ch w ++ [ev]) (wclosed w)
       else w.

Definition notifyLocked (now : Time) (rec : ClaimRecord) (reason : TransitionReason)
    (b : Backend) : Backend :=
  let ev := mkClaimEvent rec now reason in
  match watchers b !! Name rec with
  | None => b
  | Some ws => set_watchers (<[Name rec := watch_send ev <$> ws]> (watchers b)) b
  end.

Definition WatchClaim (claimName : string) (b : Backend) :
    Backend * (option nat * option error) :=
  if closed b then (b, (None, Some (Sentinel ErrClosed)))
  else
    let w := mkWatch (nextWatch b) [] false in
    let ws := default [] (watchers b !! claimName) in
    (b |> set_watchers (<[claimName := ws ++ [w]]> (watchers b))
       |> set_nextWatch (S (nextWatch b)),
     (Some (wid w), None)).

(** The goroutine [WatchClaim] starts, when its context ends: the watcher leaves
    the list (the channel it closes is the one removed). *)
Definition watch_done (claimName : string) (w : nat) (b : Backend) : Backend :=
  match watchers b !! claimName with
  | None => b
  | Some ws => set_watchers (<[claimName := filter (λ x, wid x ≠ w) ws]> (watchers b)) b
  end.

Definition Close (b : Backend) : Backend :=
  if closed b then b else b |> set_closed true |> set_watchers ∅.

(** ** Generations *)

Definition RegisterGeneration_locked (gen : Generation) (b : Backend) : Backend :=
  set_gens (<[ID gen := gen]> (gens b)) b.

Definition RegisterGeneration (env : Env) (gen : Generation) (b : Backend) :
    Backend * option error :=
  match beforeMutate env b with
  | (b, Some e) => (b, Some e)
  | (b, None) => (RegisterGeneration_locked gen b, None)
  end.

Definition UpdateGeneration (env : Env) (gen : Generation) (b : Backend) :
    Backend * option error :=
  match beforeMutate env b with
  | (b, Some e) => (b, Some e)
  | (b, None) => (set_gens (<[ID gen := gen]> (gens b)) b, None)
  end.

Definition GetGeneration (generationID : string) (b : Backend) :
    option Generation * option error :=
  match gens b !! generationID with
  | None => (None, Some (Sentinel ErrGenerationNotFound))
  | Some g => (Some g, None)
  end.

(** ** Claims *)

(** The body of [expireLocked] on one record. *)
Definition expire_record (now : Time) (cl : ClaimRecord) : ClaimRecord :=
  if held_phase (Phase cl) then
    if negb (IsZero (ExpiresAt cl)) && After now (ExpiresAt cl) then
      cl |> set_PreviousOwner (OwnerGeneration cl)
         |> set_OwnerGeneration ""
         |> set_PendingSuccessor ""
         |> set_Phase ClaimUnowned
         |> set_DrainStatus ""
         |> set_TransferStatus ""
         |> set_CReason ReasonExpired
         |> bump_Version
    else cl
  else cl.

Definition expireLocked (now : Time) (claimName : string) (b : Backend) : Backend :=
  match claims b !! claimName with
  | None => b
  | Some cl => set_claims (<[claimName := expire_record now cl]> (claims b)) b
  end.

Definition put_claim (n : string) (cl : ClaimRecord) (b : Backend) : Backend :=
  set_claims (<[n := cl]> (claims b)) b.

Definition GetClaim (env : Env) (claimName : string) (b : Backend) :
    Backend * RecordResult :=
  let b := expireLocked (env_t1 env) claimName b in
  match claims b !! claimName with
  | None => (b, (None, Some (Sentinel ErrClaimNotFound)))
  | Some cl => (b, (Some cl, None))
  end.

Definition AcquireClaim_locked (env : Env) (req : AcquireRequest) (b : Backend) :
    Backend * RecordResult :=
  match recallOp (acq_OperationID req) b with
  | Some r => (b, r)
  | None =>
    let b := expireLocked (env_t1 env) (acq_ClaimName req) b in
    let now := env_t2 env in
    let cl := match claims b !! acq_ClaimName req with
              | Some cl => cl
              | None => unowned_record (acq_ClaimName req)
              end in
    let b := put_claim (acq_ClaimName req) cl b in
    if held_phase (Phase cl) then
      if decide (OwnerGeneration cl = acq_GenerationID req) then
        let cl := cl |> set_ExpiresAt (Add now (acq_TTL req))
                     |> set_LastHeartbeat now
                     |> set_CReason ReasonRenewed in
        let b := put_claim (acq_ClaimName req) cl b in
        (storeOp (acq_OperationID req) (Some cl) None b, (Some cl, None))
      else
        (storeOp (acq_OperationID req) (Some cl) (Some (Sentinel ErrClaimHeld)) b,
         (Some cl, Some (Sentinel ErrClaimHeld)))
    else
      match advanceToken (FencingTokenOf cl) with
      | (_, Some err) =>
          (storeOp (acq_OperationID req) None (Some err) b,
           (None, Some (mkError "AcquireClaim" err
                          "claim unavailable due to token overflow")))
      | (next, None) =>
          let cl := cl |> set_PreviousOwner (OwnerGeneration cl)
                       |> set_OwnerGeneration (acq_GenerationID req)
                       |> set_FencingToken next
                       |> set_Phase ClaimOwned
                       |> set_AcquiredAt now
                       |> set_ExpiresAt (Add now (acq_TTL req))
                       |> set_LastHeartbeat now
                       |> set_PendingSuccessor ""
                       |> set_TransferStatus ""
                       |> set_DrainStatus ""
                       |> set_CReason ReasonAcquired
                       |> bump_Version in
          let b := put_claim (acq_ClaimName req) cl b in
          let b := notifyLocked (env_t3 env) cl ReasonAcquired b in
          (storeOp (acq_OperationID req) (Some cl) None b, (Some cl, None))
      end
  end.

Definition RenewClaim_locked (env : Env) (req : RenewRequest) (b : Backend) :
    Backend * RecordResult :=
  match recallOp (ren_OperationID req) b with
  | Some r => (b, r)
  | None =>
    let b := expireLocked (env_t1 env) (ren_ClaimName req) b in
    match claims b !! ren_ClaimName req with
    | None => (b, (None, Some (Sentinel ErrClaimNotFound)))
    | Some cl =>
      if decide (OwnerGeneration cl ≠ ren_GenerationID req) then
        (b, (None, Some (Sentinel ErrNotOwner)))
      else if decide (FencingTokenOf cl ≠ ren_Token req) then
        (b, (None, Some (Sentinel ErrStaleToken)))
      else if decide (Phase cl ≠ ClaimOwned ∧ Phase cl ≠ ClaimDraining ∧
                      Phase cl ≠ ClaimReserved) then
        (b, (None, Some (Sentinel ErrNotOwner)))
      else
        let now := env_t2 env in
        let cl := cl |> set_ExpiresAt (Add now (ren_TTL req))
                     |> set_LastHeartbeat now
                     |> set_CReason ReasonRenewed
                     |> bump_Version in
        let b := put_claim (ren_ClaimName req) cl b in
        (storeOp (ren_OperationID req) (Some cl) None b, (Some cl, None))
    end
  end.

(** The body of [PrepareTransfer] after the injected-failure check. *)
Definition PrepareTransfer_body (env : Env) (req : TransferRequest) (b : Backend) :
    Backend * RecordResult :=
  match recallOp (tr_OperationID req) b with
  | Some r => (b, r)
  | None =>
    let b := expireLocked (env_t1 env) (tr_ClaimName req) b in
    match claims b !! tr_ClaimName req with
    | None => (b, (None, Some (Sentinel ErrClaimNotFound)))
    | Some cl =>
      if decide (OwnerGeneration cl ≠ tr_FromGeneration req) then
        (b, (None, Some (Sentinel ErrNotOwner)))
      else if decide (FencingTokenOf cl ≠ tr_Token req) then
        (b, (None, Some (Sentinel ErrStaleToken)))
      else if decide (Phase cl = ClaimReserved ∧ PendingSuccessor cl ≠ "" ∧
                      PendingSuccessor cl ≠ tr_ToGeneration req) then
        (b, (None, Some (Sentinel ErrConcurrentTransfer)))
      else if decide (Phase cl = ClaimReserved ∧
                      PendingSuccessor cl = tr_ToGeneration req) then
        (storeOp (tr_OperationID req) (Some cl) None b, (Some cl, None))
      else
        let now := env_t2 env in
        let cl := cl |> set_Phase ClaimReserved
                     |> set_PendingSuccessor (tr_ToGeneration req)
                     |> set_TransferStatus "prepared"
                     |> set_DrainStatus "complete"
                     |> set_ExpiresAt (Add now (tr_TTL req))
                     |> set_LastHeartbeat now
                     |> set_CReason ReasonTransferPrepared
                     |> bump_Version in
        let b := put_claim (tr_ClaimName req) cl b in
        let b := notifyLocked (env_t3 env) cl ReasonTransferPrepared b in
        (storeOp (tr_OperationID req) (Some cl) None b, (Some cl, None))
    end
  end.

Definition PrepareTransfer_locked (env : Env) (req : TransferRequest) (b : Backend) :
    Backend * RecordResult :=
  let b := set_prepareCount (i64 (prepareCount b + 1)) b in
  if bool_decide (0 < failPrepareAt b) && bool_decide (prepareCount b = failPrepareAt b)
  then (set_failPrepareAt 0 b,
        (None, Some (mkError "PrepareTransfer" (Sentinel ErrBackend)
                       "injected prepare failure")))
  else PrepareTransfer_body env req b.

(** The body of [CommitTransfer] after the simulated crash. *)
Definition CommitTransfer_body (env : Env) (req : CommitRequest) (b : Backend) :
    Backend * RecordResult :=
  let b := expireLocked (env_t1 env) (com_ClaimName req) b in
  match claims b !! com_ClaimName req with
  | None => (b, (None, Some (Sentinel ErrClaimNotFound)))
  | Some cl =>
    if decide (Phase cl = ClaimOwned ∧ OwnerGeneration cl = com_ToGeneration req ∧
               FencingTokenOf cl = u64 (com_ExpectedToken req + 1) ∧
               TransferStatus cl = "committed") then
      (storeOp (com_OperationID req) (Some cl) None b, (Some cl, None))
    else if decide (Phase cl ≠ ClaimReserved) then
      (b, (None, Some (Sentinel ErrNoTransfer)))
    else if decide (OwnerGeneration cl ≠ com_FromGeneration req ∨
                    PendingSuccessor cl ≠ com_ToGeneration req) then
      (b, (None, Some (Sentinel ErrConcurrentTransfer)))
    else if decide (FencingTokenOf cl ≠ com_ExpectedToken req) then
      (b, (None, Some (Sentinel ErrStaleToken)))
    else
      match advanceToken (FencingTokenOf cl) with
      | (_, Some err) =>
          (storeOp (com_OperationID req) None (Some err) b, (None, Some err))
      | (next, None) =>
          let now := env_t2 env in
          let cl := cl |> set_PreviousOwner (OwnerGeneration cl)
                       |> set_OwnerGeneration (com_ToGeneration req)
                       |> set_FencingToken next
                       |> set_Phase ClaimOwned
                       |> set_PendingSuccessor ""
                       |> set_TransferStatus "committed"
                       |> set_DrainStatus ""
                       |> set_AcquiredAt now
                       |> set_ExpiresAt (Add now (com_TTL req))
                       |> set_LastHeartbeat now
                       |> set_CReason ReasonTransferCommitted
                       |> bump_Version in
          let b := put_claim (com_ClaimName req) cl b in
          let b := notifyLocked (env_t3 env) cl ReasonTransferCommitted b in
          (storeOp (com_OperationID req) (Some cl) None b, (Some cl, None))
      end
  end.

Definition CommitTransfer_locked (env : Env) (req : CommitRequest) (b : Backend) :
    Backend * RecordResult :=
  match recallOp (com_OperationID req) b with
  | Some r => (b, r)
  | None =>
    if crashOnCommit b then
      (set_crashOnCommit false b,
       (None, Some (mkError "CommitTransfer" (Sentinel ErrBackend) "simulated crash")))
    else CommitTransfer_body env req b
  end.

Definition AbortTransfer_locked (env : Env) (req : AbortRequest) (b : Backend) :
    Backend * RecordResult :=
  match recallOp (ab_OperationID req) b with
  | Some r => (b, r)
  | None =>
    let b := expireLocked (env_t1 env) (ab_ClaimName req) b in
    match claims b !! ab_ClaimName req with
    | None => (b, (None, Some (Sentinel ErrClaimNotFound)))
    | Some cl =>
      if decide (Phase cl ≠ ClaimReserved) then
        if decide (OwnerGeneration cl = ab_FromGeneration req ∧ Phase cl = ClaimOwned)
        then (storeOp (ab_OperationID req) (Some cl) None b, (Some cl, None))
        else (b, (None, Some (Sentinel ErrNoTransfer)))
      else if decide (FencingTokenOf cl ≠ ab_ExpectedToken req) then
        (b, (None, Some (Sentinel ErrStaleToken)))
      else if decide (OwnerGeneration cl ≠ ab_FromGeneration req) then
        (b, (None, Some (Sentinel ErrNotOwner)))
      else
        let cl := cl |> set_PendingSuccessor ""
                     |> set_Phase ClaimOwned
                     |> set_TransferStatus "aborted"
                     |> set_CReason ReasonTransferAborted
                     |> bump_Version in
        let b := put_claim (ab_ClaimName req) cl b in
        let b := notifyLocked (env_t3 env) cl ReasonTransferAborted b in
        (storeOp (ab_OperationID req) (Some cl) None b, (Some cl, None))
    end
  end.

Definition ReleaseClaim_locked (env : Env) (req : ReleaseRequest) (b : Backend) :
    Backend * option error :=
  match recallOp (rel_OperationID req) b with
  | Some (_, e) => (b, e)
  | None =>
    let b := expireLocked (env_t1 env) (rel_ClaimName req) b in
    match claims b !! rel_ClaimName req with
    | None => (b, Some (Sentinel ErrClaimNotFound))
    | Some cl =>
      if decide (FencingTokenOf cl ≠ rel_Token req) then
        (b, Some (Sentinel ErrStaleToken))
      else if decide (OwnerGeneration cl ≠ rel_GenerationID req) then
        if decide (Phase cl = ClaimUnowned)
        then (storeOp (rel_OperationID req) None None b, None)
        else (b, Some (Sentinel ErrNotOwner))
      else
        let cl := cl |> set_PreviousOwner (OwnerGeneration cl)
                     |> set_OwnerGeneration ""
                     |> set_PendingSuccessor ""
                     |> set_Phase ClaimUnowned
                     |> set_TransferStatus ""
                     |> set_DrainStatus ""
                     |> set_CReason ReasonReleased
                     |> bump_Version in
        let b := put_claim (rel_ClaimName req) cl b in
        let b := notifyLocked (env_t3 env) cl ReasonReleased b in
        (storeOp (rel_OperationID req) (Some cl) None b, None)
    end
  end.

(** The methods: [beforeMutate], then the locked body. *)
Definition guarded {R} (env : Env) (body : Backend -> Backend * (option R * option error))
    (b : Backend) : Backend * (option R * option error) :=
  match beforeMutate env b with
  | (b, Some e) => (b, (None, Some e))
  | (b, None) => body b
  end.

Definition AcquireClaim env req := guarded env (AcquireClaim_locked env req).
Definition RenewClaim env req := guarded env (RenewClaim_locked env req).
Definition PrepareTransfer env req := guarded env (PrepareTransfer_locked env req).
Definition CommitTransfer env req := guarded env (CommitTransfer_locked env req).
Definition AbortTransfer env req := guarded env (AbortTransfer_locked env req).

Definition ReleaseClaim (env : Env) (req : ReleaseRequest) (b : Backend) :
    Backend * option error :=
  match beforeMutate env b with
  | (b, Some e) => (b, Some e)
  | (b, None) => ReleaseClaim_locked env req b
  end.

(** ** Test helpers of the source *)

Definition ForceExpire (env : Env) (claimName : string) (b : Backend) : Backend :=
  match claims b !! claimName with
  | None => b
  | Some cl =>
      b |> put_claim claimName (set_ExpiresAt (Add (env_t1 env) (- Second)) cl)
        |> expireLocked (env_t2 env) claimName
  end.

Definition ForceSetToken (claimName : string) (tok : FencingToken) (b : Backend) :
    Backend :=
  let cl := default (unowned_record claimName) (claims b !! claimName) in
  put_claim claimName
    (cl |> set_FencingToken tok |> set_Phase ClaimUnowned |> set_OwnerGeneration "") b.

Definition Snapshot (b : Backend) : gmap string ClaimRecord := claims b.

(** * Facts *)

(** The backend as an instance of the interface. *)
#[global] Instance memory_ops : BackendOps Backend := {|
  do_Acquire := AcquireClaim; do_Renew := RenewClaim; do_Prepare := PrepareTransfer;
  do_Commit := CommitTransfer; do_Abort := AbortTransfer; do_Release := ReleaseClaim;
  do_Register := RegisterGeneration; do_Update := UpdateGeneration;
  claim_at := fun b n => claims b !! n;
  op_seen := fun b id => match recallOp id b with Some _ => true | None => false end |}.

(** ** Components of the state an operation leaves alone *)

Lemma claims_storeOp id r e b : claims (storeOp id r e b) = claims b.
Proof. unfold storeOp. by case_match. Qed.

Lemma claims_notify t r why b : claims (notifyLocked t r why b) = claims b.
Proof. unfold notifyLocked. by case_match. Qed.

Lemma claims_before env b : claims (beforeMutate env b).1 = claims b.
Proof. unfold beforeMutate. by repeat case_match. Qed.

Lemma ops_expire t n b : ops (expireLocked t n b) = ops b.
Proof. unfold expireLocked. by case_match. Qed.

Lemma ops_notify t r why b : ops (notifyLocked t r why b) = ops b.
Proof. unfold notifyLocked. by case_match. Qed.

Lemma ops_before env b : ops (beforeMutate env b).1 = ops b.
Proof. unfold beforeMutate. by repeat case_match. Qed.

Lemma lookup_expire t n m b :
  claims (expireLocked t n b) !! m =
  if decide (m = n) then expire_record t <$> claims b !! n else claims b !! m.
Proof.
  unfold expireLocked. destruct (claims b !! n) eqn:E; simpl; case_decide; subst;
    rewrite ?E; by simplify_map_eq.
Qed.

(** ** The invariant *)

(** Every stored record is filed under its own name and has a well-formed cell. *)
Definition mem_inv (b : Backend) : Prop := store_inv (claims b).

Lemma mem_inv_cell b n : mem_inv b -> cell_wf (cell_at b n).
Proof. apply store_inv_cell. Qed.

(** What one call does to the claims. *)
Definition op_effect (n : string) (b b' : Backend) : Prop :=
  store_effect n (claims b) (claims b').

Lemma op_effect_trans n a b c : op_effect n a b -> op_effect n b c -> op_effect n a c.
Proof. apply store_effect_trans. Qed.

(** Changes outside the claims. *)
Lemma op_effect_meta n b b' : mem_inv b -> claims b' = claims b -> op_effect n b b'.
Proof. intros Hi E. unfold op_effect. rewrite E. by apply store_effect_refl. Qed.

Lemma op_effect_put n cl b :
  mem_inv b -> Name cl = n -> steps cell_trans (cell_at b n) (cell_of_record cl) ->
  op_effect n b (put_claim n cl b).
Proof. apply store_effect_insert. Qed.

Lemma expire_record_name t cl : Name (expire_record t cl) = Name cl.
Proof. unfold expire_record. by repeat case_match. Qed.

(** Expiry either keeps the record or turns its cell into an unowned one. *)
Lemma expire_record_cases t cl :
  expire_record t cl = cl \/
  held (cell_of_record cl) /\
  cell_of_record (expire_record t cl) = expired_cell (cell_of_record cl).
Proof.
  unfold expire_record, held. destruct (held_phase_spec (Phase cl)); [|by left].
  case_match; [right | left]; done.
Qed.

Lemma expire_record_steps t cl :
  steps cell_trans (cell_of_record cl) (cell_of_record (expire_record t cl)).
Proof.
  destruct (expire_record_cases t cl) as [->|[Hh ->]]; eauto with shiftlock.
Qed.

Lemma op_effect_expire t n b : mem_inv b -> op_effect n b (expireLocked t n b).
Proof.
  intros Hi. unfold expireLocked. destruct (claims b !! n) as [cl|] eqn:E.
  - apply (op_effect_put n); [done | |].
    + rewrite expire_record_name. by destruct (Hi _ _ E).
    + unfold cell_at. simpl. rewrite E. apply expire_record_steps.
  - by apply op_effect_meta.
Qed.

(** A call that ends with the record found after expiry replaced by one its
    cell can step to (and any change outside the claims). *)
Lemma op_effect_store n cl cl' b b1 b' :
  op_effect n b b1 -> claims b1 !! n = Some cl -> Name cl' = Name cl ->
  steps cell_trans (cell_of_record cl) (cell_of_record cl') ->
  claims b' = <[n := cl']> (claims b1) ->
  op_effect n b b'.
Proof.
  intros H1 E Hn Hs Hc. unfold op_effect. rewrite Hc. by eapply store_effect_replace.
Qed.

(** A call that leaves the claims as expiry left them. *)
Lemma op_effect_keep n b b1 b' :
  op_effect n b b1 -> claims b' = claims b1 -> op_effect n b b'.
Proof. unfold op_effect. by intros H1 ->. Qed.

(** ** Token advance *)

Lemma advanceToken_ok t next :
  0 <= t -> advanceToken t = (next, None) -> t < MaxSafeFencingToken /\ next = t + 1.
Proof. apply next_token_ok. Qed.

Lemma advanceToken_err t next e :
  advanceToken t = (next, Some e) ->
  MaxSafeFencingToken <= t /\ e = Sentinel ErrTokenOverflow.
Proof. apply next_token_err. Qed.

(** ** The effect of each locked body *)

(** [claims_simpl] computes the claims of the final state of a branch. *)
Ltac claims_simpl :=
  simpl; rewrite ?claims_storeOp, ?claims_notify; simpl; reflexivity.

Ltac effect_keep := eapply op_effect_keep; [eassumption | claims_simpl].

Ltac effect_store :=
  eapply op_effect_store; [eassumption | eassumption | | | claims_simpl]; [reflexivity |].

Lemma acquire_effect env req b :
  mem_inv b -> acq_GenerationID req ≠ "" ->
  op_effect (acq_ClaimName req) b (AcquireClaim_locked env req b).1.
Proof.
  intros Hi Hg. unfold AcquireClaim_locked.
  destruct (recallOp _ b); [by apply op_effect_meta |].
  set (b1 := expireLocked _ _ b). set (n := acq_ClaimName req) in *.
  assert (op_effect n b b1) as H1 by (by apply op_effect_expire).
  set (cl := match claims b1 !! n with Some cl => cl | None => unowned_record n end).
  assert (op_effect n b (put_claim n cl b1)) as H2.
  { pose proof (ef_inv _ _ _ H1) as Hi1. eapply op_effect_trans; [exact H1 |].
    apply (op_effect_put n); [done | |]; unfold cl, cell_at; simpl;
      destruct (claims b1 !! n) eqn:E; try constructor; try done.
    by destruct (Hi1 _ _ E). }
  assert (claims (put_claim n cl b1) !! n = Some cl) as E by apply lookup_insert_eq.
  assert (cell_wf (cell_of_record cl)) as Hw by apply (ef_inv _ _ _ H2 _ _ E).
  clearbody cl.
  destruct (held_phase_spec (Phase cl)) as [Hp|Hp]; [case_decide |].
  - effect_store. constructor.
  - effect_keep.
  - apply dec_stable in Hp.
    destruct (advanceToken _) as [next [err|]] eqn:Ea; [effect_keep |].
    apply advanceToken_ok in Ea as [Ht ->]; [|apply Hw].
    effect_store. by cell_step_by cell_acquire.
Qed.

Lemma renew_effect env req b :
  mem_inv b -> op_effect (ren_ClaimName req) b (RenewClaim_locked env req b).1.
Proof.
  intros Hi. unfold RenewClaim_locked.
  destruct (recallOp _ b); [by apply op_effect_meta |].
  set (b1 := expireLocked _ _ b).
  assert (op_effect (ren_ClaimName req) b b1) as H1 by (by apply op_effect_expire).
  destruct (claims b1 !! _) eqn:E; [|effect_keep].
  repeat (case_decide; [effect_keep |]). effect_store. constructor.
Qed.

Lemma prepare_body_effect env req b :
  mem_inv b -> tr_FromGeneration req ≠ "" -> tr_ToGeneration req ≠ "" ->
  op_effect (tr_ClaimName req) b (PrepareTransfer_body env req b).1.
Proof.
  intros Hi Hf Ht. unfold PrepareTransfer_body.
  destruct (recallOp _ b); [by apply op_effect_meta |].
  set (b1 := expireLocked _ _ b).
  assert (op_effect (tr_ClaimName req) b b1) as H1 by (by apply op_effect_expire).
  destruct (claims b1 !! _) as [cl|] eqn:E; [|effect_keep].
  assert (cell_wf (cell_of_record cl)) as Hw by apply (ef_inv _ _ _ H1 _ _ E).
  repeat (case_decide; [effect_keep |]). effect_store.
  cell_step_by cell_reserve; [| |done]; unfold held; simpl.
  - intros Hp. pose proof (wf_unowned _ Hw Hp). simpl in *. congruence.
  - intros Hp. pose proof (wf_reserved _ Hw Hp). simpl in *.
    destruct (decide (PendingSuccessor cl = tr_ToGeneration req)); tauto.
Qed.

Lemma prepare_effect env req b :
  mem_inv b -> tr_FromGeneration req ≠ "" -> tr_ToGeneration req ≠ "" ->
  op_effect (tr_ClaimName req) b (PrepareTransfer_locked env req b).1.
Proof.
  intros Hi Hf Ht. unfold PrepareTransfer_locked.
  set (b0 := set_prepareCount _ b).
  assert (op_effect (tr_ClaimName req) b b0) as H0 by (by apply op_effect_meta).
  case_match; [effect_keep |].
  eapply op_effect_trans; [exact H0 |]. by apply prepare_body_effect.
Qed.

Lemma commit_body_effect env req b :
  mem_inv b -> op_effect (com_ClaimName req) b (CommitTransfer_body env req b).1.
Proof.
  intros Hi. unfold CommitTransfer_body. set (b1 := expireLocked _ _ b).
  assert (op_effect (com_ClaimName req) b b1) as H1 by (by apply op_effect_expire).
  destruct (claims b1 !! _) as [cl|] eqn:E; [|effect_keep].
  assert (cell_wf (cell_of_record cl)) as Hw by apply (ef_inv _ _ _ H1 _ _ E).
  do 4 (case_decide; [effect_keep |]).
  destruct (advanceToken _) as [next [err|]] eqn:Ea; [effect_keep |].
  apply advanceToken_ok in Ea as [Ht ->]; [|apply Hw].
  effect_store.
  assert (PendingSuccessor cl = com_ToGeneration req) as Hs by (apply dec_stable; tauto).
  rewrite <- Hs. by cell_step_by cell_commit.
Qed.

Lemma commit_effect env req b :
  mem_inv b -> op_effect (com_ClaimName req) b (CommitTransfer_locked env req b).1.
Proof.
  intros Hi. unfold CommitTransfer_locked.
  destruct (recallOp _ b); [by apply op_effect_meta |].
  case_match; [by apply op_effect_meta | by apply commit_body_effect].
Qed.

Lemma abort_effect env req b :
  mem_inv b -> op_effect (ab_ClaimName req) b (AbortTransfer_locked env req b).1.
Proof.
  intros Hi. unfold AbortTransfer_locked.
  destruct (recallOp _ b); [by apply op_effect_meta |].
  set (b1 := expireLocked _ _ b).
  assert (op_effect (ab_ClaimName req) b b1) as H1 by (by apply op_effect_expire).
  destruct (claims b1 !! _) as [cl|] eqn:E; [|effect_keep].
  case_decide as Hp; [case_decide; effect_keep |].
  do 2 (case_decide; [effect_keep |]). effect_store.
  by cell_step_by cell_abort.
Qed.

Lemma release_effect env req b :
  mem_inv b -> rel_GenerationID req ≠ "" ->
  op_effect (rel_ClaimName req) b (ReleaseClaim_locked env req b).1.
Proof.
  intros Hi Hg. unfold ReleaseClaim_locked.
  destruct (recallOp _ b) as [[]|]; [by apply op_effect_meta |].
  set (b1 := expireLocked _ _ b).
  assert (op_effect (rel_ClaimName req) b b1) as H1 by (by apply op_effect_expire).
  destruct (claims b1 !! _) as [cl|] eqn:E; [|effect_keep].
  assert (cell_wf (cell_of_record cl)) as Hw by apply (ef_inv _ _ _ H1 _ _ E).
  case_decide; [effect_keep |]. case_decide; [case_decide; effect_keep |].
  effect_store. cell_step_by cell_release.
  intros Hp. pose proof (wf_unowned _ Hw Hp). simpl in *. congruence.
Qed.

(** ** The contract *)

Lemma guarded_effect {R} env (body : Backend -> Backend * (option R * option error)) n b :
  (forall b, mem_inv b -> op_effect n b (body b).1) ->
  mem_inv b -> op_effect n b (guarded env body b).1.
Proof.
  intros Hb Hi. unfold guarded. pose proof (claims_before env b) as Hc.
  destruct (beforeMutate env b) as [b0 [e|]]; simpl in *; [by apply op_effect_meta |].
  assert (op_effect n b b0) as H0 by (by apply op_effect_meta).
  eapply op_effect_trans; [exact H0 |]. apply Hb. by apply (ef_inv _ _ _ H0).
Qed.

(** The locked body of a request. *)
Definition locked (env : Env) (rq : Request) (b : Backend) : Backend * RecordResult :=
  match rq with
  | RqAcquire r => AcquireClaim_locked env r b
  | RqRenew r => RenewClaim_locked env r b
  | RqPrepare r => PrepareTransfer_locked env r b
  | RqCommit r => CommitTransfer_locked env r b
  | RqAbort r => AbortTransfer_locked env r b
  | RqRelease r => let '(b', e) := ReleaseClaim_locked env r b in (b', (None, e))
  end.

Lemma do_request_locked env rq b : do_request env rq b = guarded env (locked env rq) b.
Proof.
  destruct rq as [r|r|r|r|r|r]; try reflexivity. simpl. unfold ReleaseClaim, guarded.
  by destruct (beforeMutate env b) as [b0 [e|]].
Qed.

Lemma locked_effect env rq b :
  mem_inv b -> rq_valid rq -> op_effect (rq_claim rq) b (locked env rq b).1.
Proof.
  intros Hi Hv. destruct rq as [r|r|r|r|r|r]; simpl in *.
  - by apply acquire_effect.
  - by apply renew_effect.
  - by apply prepare_effect; try apply Hv.
  - by apply commit_effect.
  - by apply abort_effect.
  - pose proof (release_effect env r b Hi Hv). by destruct (ReleaseClaim_locked env r b).
Qed.

Lemma request_effect env rq b :
  mem_inv b -> rq_valid rq -> op_effect (rq_claim rq) b (do_request env rq b).1.
Proof.
  intros Hi Hv. rewrite do_request_locked. apply guarded_effect; [|done].
  intros b0 Hi0. by apply locked_effect.
Qed.

Lemma lookup_ops_storeOp id id' r e b :
  id' ≠ id -> ops (storeOp id r e b) !! id' = ops b !! id'.
Proof. intros Hn. unfold storeOp. case_match; simpl; [done |]. by rewrite lookup_insert_ne. Qed.

(** A locked body stores a result under its own identifier only. *)
Ltac ops_other :=
  repeat (case_match; cbn [fst]; try done);
  rewrite ?lookup_ops_storeOp, ?ops_notify, ?ops_expire by done; simpl;
  rewrite ?ops_expire; done.

Lemma seen_guarded {R} env (body : Backend -> Backend * (option R * option error)) id b :
  (forall b, ops (body b).1 !! id = ops b !! id) ->
  ops (guarded env body b).1 !! id = ops b !! id.
Proof.
  intros Hb. unfold guarded. rewrite <- (ops_before env b).
  destruct (beforeMutate env b) as [b0 [e|]]; simpl; [done | apply Hb].
Qed.

Lemma locked_ops_other env rq b id :
  id ≠ rq_op rq -> ops (locked env rq b).1 !! id = ops b !! id.
Proof.
  intros Hn. destruct rq as [r|r|r|r|r|r]; simpl in *.
  - unfold AcquireClaim_locked. ops_other.
  - unfold RenewClaim_locked. ops_other.
  - unfold PrepareTransfer_locked, PrepareTransfer_body. ops_other.
  - unfold CommitTransfer_locked, CommitTransfer_body. ops_other.
  - unfold AbortTransfer_locked. ops_other.
  - assert (ops (ReleaseClaim_locked env r b).1 !! id = ops b !! id) as H
      by (unfold ReleaseClaim_locked; ops_other).
    by destruct (ReleaseClaim_locked env r b).
Qed.

Lemma request_ops_other env rq b id :
  id ≠ rq_op rq -> ops (do_request env rq b).1 !! id = ops b !! id.
Proof.
  intros Hn. rewrite do_request_locked. apply seen_guarded. intros b0.
  by apply locked_ops_other.
Qed.

(** A successful guarded call is a successful call of the locked body, on a
    state with the same claims and stored results. *)
Lemma guarded_ok {R} env (body : Backend -> Backend * (option R * option error)) b b' r :
  guarded env body b = (b', (r, None)) ->
  exists b0, body b0 = (b', (r, None)) /\ claims b0 = claims b /\ ops b0 = ops b.
Proof.
  unfold guarded. pose proof (claims_before env b). pose proof (ops_before env b).
  destruct (beforeMutate env b) as [b0 [e|]]; intros E; [by simplify_eq |].
  by exists b0.
Qed.

Lemma fresh_recall id (b b0 : Backend) : fresh b id -> ops b0 = ops b -> recallOp id b0 = None.
Proof.
  unfold fresh, recallOp. simpl. unfold recallOp. intros Hf ->. by repeat case_match.
Qed.

Ltac ok_start Hf E :=
  apply guarded_ok in E as (b0 & E & Hc0 & Ho0);
  pose proof (fresh_recall _ _ _ Hf Ho0) as Hrec.

(** Read the claim of the final state. *)
Ltac claim_simpl :=
  simpl; rewrite ?claims_storeOp, ?claims_notify; simpl; rewrite ?lookup_insert_eq; done.

Lemma memory_acquire_ok env req b b' rec :
  fresh b (acq_OperationID req) -> AcquireClaim env req b = (b', (Some rec, None)) ->
  claims b' !! acq_ClaimName req = Some rec /\ OwnerGeneration rec = acq_GenerationID req.
Proof.
  intros Hf E. ok_start Hf E. unfold AcquireClaim_locked in E. rewrite Hrec in E.
  set (cl := match claims _ !! _ with Some _ => _ | None => _ end) in E. clearbody cl.
  case_match; [case_decide; [|done] | case_match; case_match; [done |]];
    simplify_eq/=; split; done || claim_simpl.
Qed.

Lemma memory_prepare_ok env req b b' rec :
  fresh b (tr_OperationID req) -> PrepareTransfer env req b = (b', (Some rec, None)) ->
  claims b' !! tr_ClaimName req = Some rec /\
  cell_of_record rec =
    mkCell (tr_FromGeneration req) (tr_Token req) ClaimReserved (tr_ToGeneration req).
Proof.
  intros Hf E. ok_start Hf E. unfold PrepareTransfer_locked in E.
  case_match; [done |]. unfold PrepareTransfer_body in E.
  rewrite (fresh_recall _ b) in E by done.
  destruct (claims (expireLocked _ _ _) !! _) as [cl|] eqn:Ecl; [|done].
  do 3 (case_decide; [done |]). case_decide as Hp; simplify_eq/=; cell_simpl.
  - rewrite claims_storeOp. split; [done |]. destruct Hp. congruence.
  - split; [claim_simpl |]. congruence.
Qed.

Lemma memory_commit_ok env req b b' rec :
  fresh b (com_OperationID req) -> CommitTransfer env req b = (b', (Some rec, None)) ->
  claims b' !! com_ClaimName req = Some rec /\
  OwnerGeneration rec = com_ToGeneration req /\ Phase rec = ClaimOwned /\
  FencingTokenOf rec = u64 (com_ExpectedToken req + 1).
Proof.
  intros Hf E. ok_start Hf E. unfold CommitTransfer_locked in E. rewrite Hrec in E.
  case_match; [done |]. unfold CommitTransfer_body in E.
  destruct (claims (expireLocked _ _ _) !! _) as [cl|] eqn:Ecl; [|done].
  case_decide; [simplify_eq/=; rewrite claims_storeOp; naive_solver |].
  do 3 (case_decide; [done |]). destruct (advanceToken _) as [next [?|]] eqn:Ea; [done |].
  simplify_eq/=. split; [claim_simpl |]. split; [done |]. split; [done |].
  unfold advanceToken in Ea. case_bool_decide; simplify_eq. congruence.
Qed.

Lemma expire_record_token t cl : FencingTokenOf (expire_record t cl) = FencingTokenOf cl.
Proof. unfold expire_record. by repeat case_match. Qed.

Lemma memory_abort_ok env req b b' rec :
  fresh b (ab_OperationID req) -> AbortTransfer env req b = (b', (Some rec, None)) ->
  claims b' !! ab_ClaimName req = Some rec /\
  OwnerGeneration rec = ab_FromGeneration req /\ Phase rec = ClaimOwned /\
  FencingTokenOf rec = c_token (cell_at b (ab_ClaimName req)).
Proof.
  intros Hf E. ok_start Hf E. unfold AbortTransfer_locked in E. rewrite Hrec in E.
  destruct (claims (expireLocked _ _ _) !! _) as [cl|] eqn:Ecl; [|done].
  assert (FencingTokenOf cl = c_token (cell_at b (ab_ClaimName req))) as Ht.
  { rewrite lookup_expire, decide_True, Hc0 in Ecl by done. unfold cell_at. simpl.
    destruct (claims b !! _) as [c0|]; simplify_eq/=. by rewrite expire_record_token. }
  case_decide; [case_decide; [|done] | do 2 (case_decide; [done |])]; simplify_eq/=.
  - rewrite claims_storeOp. naive_solver.
  - split; [claim_simpl | done].
Qed.

#[global] Instance memory_laws : BackendLaws Backend.
Proof.
  refine {| be_inv := mem_inv : Backend -> Prop |}.
  - apply mem_inv_cell.
  - intros env rq s s' r Hi Hv E. pose proof (request_effect env rq s Hi Hv) as H.
    rewrite E in H. by destruct H.
  - intros env rq s s' r id E Hn. pose proof (request_ops_other env rq s id Hn) as H.
    rewrite E in H. simpl in *. unfold recallOp. by rewrite H.
  - intros env g s f Hf Hi. assert (claims f.1 = claims s /\ ops f.1 = ops s) as [Hc Ho].
    { rewrite <- (claims_before env s), <- (ops_before env s).
      destruct Hf as [->| ->]; simpl; unfold RegisterGeneration, UpdateGeneration;
        by destruct (beforeMutate env s) as [b0 [e|]]. }
    split; [unfold mem_inv; by rewrite Hc |]. simpl. unfold recallOp.
    split; intros; by rewrite ?Hc, ?Ho.
  - intros env req s s' rec _ _. apply memory_acquire_ok.
  - intros env req s s' rec _ _. apply memory_prepare_ok.
  - intros env req s s' rec _. apply memory_commit_ok.
  - intros env req s s' rec _. apply memory_abort_ok.
Defined.
