(* ===== verification/MemorySafety.v ===== *)
(** * Safety of the in-memory backend

    The interleavings of callers that share one [Backend] of
    [backend/memory/memory.go]: a step is one critical section of the mutex (a
    method that locks twice contributes two steps, so other callers run between
    [beforeMutate] and the locked body), and the properties of all executions
    from [New]. *)

From S2P Require Import Prelude Types BackendSpec ClaimStore MemoryBackend.

(** ** Critical sections *)

Inductive atomic : Backend -> Backend -> Prop :=
| at_before env b : atomic b (beforeMutate env b).1
| at_locked env rq b : rq_valid rq -> atomic b (locked env rq b).1
| at_get env n b : atomic b (GetClaim env n b).1
| at_generation g b : atomic b (RegisterGeneration_locked g b)
| at_watch n b : atomic b (WatchClaim n b).1
| at_watch_done n w b : atomic b (watch_done n w b)
| at_close b : atomic b (Close b)
| at_partition v b : atomic b (SetPartition v b)
| at_failNext e b : atomic b (FailNext e b)
| at_delay d b : atomic b (SetDelay d b)
| at_crash v b : atomic b (CrashOnCommit v b)
| at_failPrepare n b : atomic b (FailPrepareAt n b)
| at_forceExpire env n b : atomic b (ForceExpire env n b).

Definition reachable (b : Backend) : Prop := exists part, steps atomic (New part) b.

(** ** Claims along executions *)

Lemma mem_inv_New part : mem_inv (New part).
Proof. apply map_Forall_empty. Qed.

Lemma forceExpire_effect env n b : mem_inv b -> op_effect n b (ForceExpire env n b).
Proof.
  intros Hi. unfold ForceExpire. destruct (claims b !! n) as [cl|] eqn:E;
    [|by apply op_effect_meta].
  set (cl' := set_ExpiresAt _ cl).
  assert (op_effect n b (put_claim n cl' b)) as H1.
  { apply op_effect_put; [done | by destruct (Hi _ _ E) |].
    unfold cell_at. simpl. rewrite E. constructor. }
  eapply op_effect_trans; [exact H1 |].
  apply op_effect_expire. by apply (ef_inv _ _ _ H1).
Qed.

(** Every critical section is an [op_effect] on some claim. *)
Lemma atomic_effect b b' : mem_inv b -> atomic b b' -> exists n, op_effect n b b'.
Proof.
  intros Hi Ha. destruct Ha;
    try (exists ""; apply op_effect_meta; [done | reflexivity]).
  - exists "". apply op_effect_meta; [done | apply claims_before].
  - eexists. by apply locked_effect.
  - exists n. unfold GetClaim. pose proof (op_effect_expire (env_t1 env) n b Hi).
    by case_match.
  - exists "". apply op_effect_meta; [done |]. unfold WatchClaim. by case_match.
  - exists "". apply op_effect_meta; [done |]. unfold watch_done. by case_match.
  - exists "". apply op_effect_meta; [done |]. unfold Close. by case_match.
  - exists n. by apply forceExpire_effect.
Qed.

Lemma op_effect_cell n m b b' :
  op_effect n b b' -> steps cell_trans (cell_at b m) (cell_at b' m).
Proof.
  intros [_ Hs Ho _]. destruct (decide (m = n)) as [->|Hn]; [done |].
  unfold cell_at. simpl. rewrite Ho by done. constructor.
Qed.

Lemma atomic_inv b b' : mem_inv b -> atomic b b' -> mem_inv b'.
Proof. intros Hi Ha. destruct (atomic_effect _ _ Hi Ha) as [n H]. by apply (ef_inv _ _ _ H). Qed.

Lemma atomic_steps_cell b b' n :
  mem_inv b -> steps atomic b b' -> steps cell_trans (cell_at b n) (cell_at b' n).
Proof.
  intros Hi Hs. induction Hs as [|a b c Hab _ IH]; [constructor |].
  destruct (atomic_effect _ _ Hi Hab) as [m H].
  eapply steps_app; [by eapply op_effect_cell | apply IH, H].
Qed.

Lemma reachable_inv b : reachable b -> mem_inv b.
Proof.
  intros [part Hs]. eapply steps_invariant; [apply atomic_inv | exact Hs | apply mem_inv_New].
Qed.

Lemma cell_at_some b n r : claims b !! n = Some r -> cell_at b n = cell_of_record r.
Proof. intros E. unfold cell_at. simpl. by rewrite E. Qed.

(** C1: at most one owner per fencing token.  Whatever the interleaving of
    critical sections of any number of callers (whose requests name their
    generations), injected faults and lease expiries: if a claim is held (owned,
    reserved or draining) with the same fencing token in two states of an
    execution, it is held by the same generation in both. *)
Theorem memory_single_holder b1 b2 n r1 r2 :
  reachable b1 -> steps atomic b1 b2 ->
  claims b1 !! n = Some r1 -> claims b2 !! n = Some r2 ->
  Phase r1 ≠ ClaimUnowned -> Phase r2 ≠ ClaimUnowned ->
  FencingTokenOf r1 = FencingTokenOf r2 ->
  OwnerGeneration r1 = OwnerGeneration r2.
Proof.
  intros Hr Hs E1 E2 Hp1 Hp2 Ht.
  pose proof (atomic_steps_cell b1 b2 n (reachable_inv _ Hr) Hs) as Hc.
  rewrite (cell_at_some _ _ _ E1), (cell_at_some _ _ _ E2) in Hc.
  by apply cell_steps_epoch in Hc as [_ Hh]; destruct (Hh Ht Hp2).
Qed.

(** Fencing tokens never decrease and never pass [MaxSafeFencingToken]; a
    held claim has a non-empty owner and a non-zero token, a claim has a pending
    successor exactly while it is reserved, and no claim disappears. *)
Theorem memory_token_monotonic b1 b2 n r1 :
  reachable b1 -> steps atomic b1 b2 -> claims b1 !! n = Some r1 ->
  exists r2, claims b2 !! n = Some r2 /\
    FencingTokenOf r1 <= FencingTokenOf r2 <= MaxSafeFencingToken /\
    (Phase r2 ≠ ClaimUnowned -> OwnerGeneration r2 ≠ "" /\ 0 < FencingTokenOf r2) /\
    (Phase r2 = ClaimReserved <-> PendingSuccessor r2 ≠ "").
Proof.
  intros Hr Hs E1. pose proof (reachable_inv _ Hr) as Hi.
  assert (is_Some (claims b2 !! n)) as [r2 E2].
  { eapply (steps_invariant atomic (λ b, mem_inv b /\ is_Some (claims b !! n)));
      [|exact Hs | by split].
    intros b b' [Hb Hsome] Ha. destruct (atomic_effect _ _ Hb Ha) as [m H].
    destruct H as [Hi' _ Ho Hd]. split; [done |].
    destruct (decide (n = m)) as [->|Hn]; [by apply Hd | by rewrite Ho]. }
  exists r2. split; [done |].
  pose proof (atomic_steps_cell b1 b2 n Hi Hs) as Hc.
  rewrite (cell_at_some _ _ _ E1), (cell_at_some _ _ _ E2) in Hc.
  pose proof (cell_steps_epoch _ _ Hc) as [Ht _].
  assert (cell_wf (cell_of_record r1)) as Hw1 by by destruct (Hi _ _ E1).
  destruct (cell_steps_wf _ _ Hw1 Hc) as [[_ Hmax] _ Hown Hres Hno].
  simpl in *. split; [lia |]. split; [done |]. split; [done |].
  intros Hsucc. destruct (decide (Phase r2 = ClaimReserved)) as [|Hp]; [done |].
  by rewrite (Hno Hp) in Hsucc.
Qed.

(** A concrete execution for the witnesses: ["a"] acquires ["leader"], hands it
    over to ["b"]. *)
Definition wenv (t : Time) : Env := mkEnv None t t t.

Definition w_acq (g op : string) := mkAcquire "leader" g (10 * Second) false op.
Definition w_prep := mkTransfer "leader" "a" "b" 1 (10 * Second) "op-prepare".
Definition w_commit := mkCommit "leader" "a" "b" 1 (10 * Second) "op-commit".

Definition w_owned : Backend := (AcquireClaim_locked (wenv 5) (w_acq "a" "op-a") (New false)).1.
Definition w_reserved : Backend := (PrepareTransfer_locked (wenv 6) w_prep w_owned).1.
Definition w_moved : Backend := (CommitTransfer_locked (wenv 7) w_commit w_reserved).1.

Lemma w_owned_reachable : reachable w_owned.
Proof. exists false. apply steps_one, (at_locked (wenv 5) (RqAcquire (w_acq "a" "op-a"))). done. Qed.

Lemma w_reserved_steps : steps atomic w_owned w_reserved.
Proof. apply steps_one, (at_locked (wenv 6) (RqPrepare w_prep)). done. Qed.

Lemma w_moved_steps : steps atomic w_owned w_moved.
Proof.
  eapply steps_app; [apply w_reserved_steps |].
  apply steps_one, (at_locked (wenv 7) (RqCommit w_commit)). done.
Qed.

Lemma memory_single_holder_witness :
  exists r1 r2, claims w_owned !! "leader" = Some r1 /\
    claims w_reserved !! "leader" = Some r2 /\ OwnerGeneration r1 = OwnerGeneration r2.
Proof.
  eexists _, _. split; [vm_compute; reflexivity |]. split; [vm_compute; reflexivity |].
  eapply (memory_single_holder w_owned w_reserved "leader");
    [apply w_owned_reachable | apply w_reserved_steps | vm_compute; reflexivity
    | vm_compute; reflexivity | done | done | reflexivity].
Defined.

Lemma memory_token_monotonic_witness :
  exists r, claims w_moved !! "leader" = Some r /\ 1 <= FencingTokenOf r.
Proof.
  assert (claims w_owned !! "leader" = Some (default (unowned_record "") (claims w_owned !! "leader")))
    as E by (vm_compute; reflexivity).
  destruct (memory_token_monotonic w_owned w_moved "leader" _ w_owned_reachable
    w_moved_steps E) as (r2 & E2 & [Ht _] & _).
  exists r2. split; [exact E2 |]. exact Ht.
Defined.

(** ** Stale requests *)

(** The call changed no claim, except that the claim's lease may have been found
    expired. *)
Definition kept (env : Env) (n : string) (b b' : Backend) : Prop :=
  claims b' = claims b \/ claims b' = claims (expireLocked (env_t1 env) n b).

Lemma claims_expire_ext t n b b0 :
  claims b0 = claims b -> claims (expireLocked t n b0) = claims (expireLocked t n b).
Proof. intros E. unfold expireLocked. rewrite E. by case_match. Qed.

Lemma kept_ext env n b b0 b' : claims b0 = claims b -> kept env n b0 b' -> kept env n b b'.
Proof. unfold kept. intros E. by rewrite (claims_expire_ext _ _ _ _ E), E. Qed.

Lemma kept_guarded {R} env n (body : Backend -> Backend * (option R * option error)) b :
  (forall b0, claims b0 = claims b -> kept env n b0 (body b0).1) ->
  kept env n b (guarded env body b).1.
Proof.
  intros H. unfold guarded. pose proof (claims_before env b) as E.
  destruct (beforeMutate env b) as [b0 [e|]]; simpl in *; [by left |].
  by eapply kept_ext, H.
Qed.

(** The record a stale request sees has a token different from the request's. *)
Lemma stale_seen t n b cl cl' tok :
  claims b !! n = Some cl -> FencingTokenOf cl ≠ tok ->
  claims (expireLocked t n b) !! n = Some cl' -> FencingTokenOf cl' ≠ tok.
Proof.
  intros E Ht E'. rewrite lookup_expire, decide_True, E in E' by done.
  simplify_eq/=. by rewrite expire_record_token.
Qed.

Ltac stale_branches Hs :=
  repeat case_match; cbn [fst]; unfold kept; rewrite ?claims_storeOp; auto;
  exfalso; eapply Hs; [eassumption | eassumption | eassumption | apply dec_stable; assumption].

Section Stale.
Variables (env : Env) (b : Backend) (n : string) (cl : ClaimRecord) (tok : FencingToken).
Hypotheses (E : claims b !! n = Some cl) (Ht : FencingTokenOf cl ≠ tok).

Lemma renew_stale r :
  ren_ClaimName r = n -> ren_Token r = tok -> kept env n b (RenewClaim_locked env r b).1.
Proof. intros Hn Hk. unfold RenewClaim_locked. rewrite Hn, Hk. stale_branches (stale_seen (env_t1 env) n b cl). Qed.

Lemma prepare_stale r :
  tr_ClaimName r = n -> tr_Token r = tok -> kept env n b (PrepareTransfer_body env r b).1.
Proof. intros Hn Hk. unfold PrepareTransfer_body. rewrite Hn, Hk. stale_branches (stale_seen (env_t1 env) n b cl). Qed.

Lemma commit_stale r :
  com_ClaimName r = n -> com_ExpectedToken r = tok ->
  kept env n b (CommitTransfer_locked env r b).1.
Proof.
  intros Hn Hk. unfold CommitTransfer_locked, CommitTransfer_body. rewrite Hn, Hk.
  stale_branches (stale_seen (env_t1 env) n b cl).
Qed.

Lemma abort_stale r :
  ab_ClaimName r = n -> ab_ExpectedToken r = tok ->
  kept env n b (AbortTransfer_locked env r b).1.
Proof. intros Hn Hk. unfold AbortTransfer_locked. rewrite Hn, Hk. stale_branches (stale_seen (env_t1 env) n b cl). Qed.

Lemma release_stale r :
  rel_ClaimName r = n -> rel_Token r = tok -> kept env n b (ReleaseClaim_locked env r b).1.
Proof. intros Hn Hk. unfold ReleaseClaim_locked. rewrite Hn, Hk. stale_branches (stale_seen (env_t1 env) n b cl). Qed.
End Stale.

(** C2: a stale token changes nothing.  A renew, prepare, commit, abort or
    release that presents a fencing token different from the claim's current one
    leaves every claim as it was, except that the expiry check every call makes
    may retire the claim's own lease. *)
Theorem memory_stale_request_harmless env rq b cl tok :
  claims b !! rq_claim rq = Some cl -> rq_token rq = Some tok ->
  FencingTokenOf cl ≠ tok ->
  kept env (rq_claim rq) b (do_request env rq b).1.
Proof.
  intros E Htok Ht. rewrite do_request_locked. apply kept_guarded.
  intros b0 E0. rewrite <- E0 in E. destruct rq as [r|r|r|r|r|r]; simpl in *; simplify_eq/=.
  - by eapply renew_stale.
  - unfold PrepareTransfer_locked. case_match; [by left |].
    eapply (kept_ext _ _ _ (set_prepareCount _ b0)); [reflexivity |].
    by eapply prepare_stale.
  - by eapply commit_stale.
  - by eapply abort_stale.
  - pose proof (release_stale env b0 _ _ _ E Ht r eq_refl eq_refl).
    by destruct (ReleaseClaim_locked env r b0).
Qed.

Lemma memory_stale_request_harmless_witness :
  kept (wenv 8) "leader" w_moved
    (do_request (wenv 8) (RqRenew (mkRenew "leader" "a" 1 (10 * Second) "op-r")) w_moved).1.
Proof.
  apply (memory_stale_request_harmless (wenv 8)
    (RqRenew (mkRenew "leader" "a" 1 (10 * Second) "op-r")) w_moved
    (default (unowned_record "") (claims w_moved !! "leader")) 1);
    [vm_compute; reflexivity | reflexivity | vm_compute; discriminate].
Defined.

(** ** Replayed operations *)

(** What a call returns for a stored result: [ReleaseClaim] only has an error. *)
Definition answer (rq : Request) (x : opResult) : RecordResult :=
  (match rq with RqRelease _ => None | _ => op_rec x end, op_err x).

(** An armed [FailPrepareAt] that the next [PrepareTransfer] hits. *)
Definition injected (rq : Request) (b : Backend) : Prop :=
  match rq with
  | RqPrepare _ => 0 < failPrepareAt b /\ i64 (prepareCount b + 1) = failPrepareAt b
  | _ => False
  end.

(** A call whose identifier has a stored result returns it, if no injected failure
    comes first, and only touches the counters of the injected failures. *)
Lemma locked_replay env rq (b : Backend) (x : opResult) :
  rq_op rq ≠ "" -> ops b !! rq_op rq = Some x ->
  claims (locked env rq b).1 = claims b /\ ops (locked env rq b).1 = ops b /\
  (injected rq b -> exists e, (locked env rq b).2 = (None, Some e)) /\
  (~ injected rq b -> (locked env rq b).2 = answer rq x).
Proof.
  intros Hid E.
  assert (forall b0, ops b0 = ops b -> recallOp (rq_op rq) b0 = Some (op_rec x, op_err x)) as Hr.
  { intros b0 E0. unfold recallOp, Empty. rewrite bool_decide_eq_false_2 by done.
    by rewrite E0, E. }
  destruct rq as [r|r|r|r|r|r]; simpl in *.
  - unfold AcquireClaim_locked. by rewrite Hr.
  - unfold RenewClaim_locked. by rewrite Hr.
  - unfold PrepareTransfer_locked, PrepareTransfer_body. rewrite Hr by done. simpl.
    repeat case_bool_decide; simpl; split_and!; try tauto; by eauto.
  - unfold CommitTransfer_locked. by rewrite Hr.
  - unfold AbortTransfer_locked. by rewrite Hr.
  - unfold ReleaseClaim_locked. by rewrite Hr.
Qed.

(** A stored result is permanent: no critical section overwrites it. *)
Lemma atomic_ops_kept id (x : opResult) b b' :
  id ≠ "" -> ops b !! id = Some x -> atomic b b' -> ops b' !! id = Some x.
Proof.
  intros Hid E Ha. destruct Ha; try done.
  - by rewrite ops_before.
  - destruct (decide (id = rq_op rq)) as [->|Hn].
    + destruct (locked_replay env rq b x Hid E) as (_ & -> & _). done.
    + by rewrite locked_ops_other.
  - unfold GetClaim. case_match; simpl; by rewrite ops_expire.
  - unfold WatchClaim. by case_match.
  - unfold watch_done. by case_match.
  - unfold Close. by case_match.
  - unfold ForceExpire. case_match; [by rewrite ops_expire | done].
Qed.

(** A successful call with an identifier leaves its result stored. *)
Definition stored (rq : Request) (o : Backend * RecordResult) : Prop :=
  o.2.2 = None -> exists x, ops o.1 !! rq_op rq = Some x /\ answer rq x = o.2.

Lemma recallOp_Some id b r e :
  recallOp id b = Some (r, e) -> ops b !! id = Some (mkOpResult r e).
Proof. unfold recallOp. repeat case_match; try done. intros [= <- <-]. by destruct o. Qed.

Lemma lookup_ops_storeOp_eq id r e b :
  id ≠ "" -> ops (storeOp id r e b) !! id = Some (mkOpResult r e).
Proof.
  intros Hid. unfold storeOp, Empty. rewrite bool_decide_eq_false_2 by done.
  apply lookup_insert_eq.
Qed.

Ltac stored_branch :=
  repeat (case_match; try done); try match goal with p : _ * _ |- _ => destruct p end;
  intros Hnone; try done; cbn [fst snd] in *; try subst;
  eexists; (split; [first [by apply lookup_ops_storeOp_eq | by eapply recallOp_Some] | done]).

Lemma locked_stored env rq b : rq_op rq ≠ "" -> stored rq (locked env rq b).
Proof.
  unfold stored. intros Hid. destruct rq as [r|r|r|r|r|r]; simpl in *.
  - unfold AcquireClaim_locked. stored_branch.
  - unfold RenewClaim_locked. stored_branch.
  - unfold PrepareTransfer_locked, PrepareTransfer_body. stored_branch.
  - unfold CommitTransfer_locked, CommitTransfer_body. stored_branch.
  - unfold AbortTransfer_locked. stored_branch.
  - destruct (ReleaseClaim_locked env r b) as [b' e] eqn:E. simpl. intros ->.
    unfold ReleaseClaim_locked in E. repeat (case_match; try done); simplify_eq;
    eexists; (split; [first [by apply lookup_ops_storeOp_eq | by eapply recallOp_Some] | done]).
Qed.

(** ** Faults that make a call fail before it does anything *)

(** What [beforeMutate] trips over: a closed or partitioned backend, an armed
    [FailNext], a context that ends during an injected delay. *)
Definition blocked (env : Env) (b : Backend) : Prop :=
  closed b = true \/ partitionEnabled b = true /\ partitioned b = true \/ failNext b ≠ None \/
  0 < delay b /\ env_cancel env ≠ None.

(** [beforeMutate] only disarms [FailNext], and lets through what is not blocked. *)
Definition before_spec (env : Env) (b : Backend) (o : Backend * option error) : Prop :=
  (blocked env b /\ is_Some o.2 \/ ~ blocked env b /\ o.2 = None) /\
  claims o.1 = claims b /\ ops o.1 = ops b /\ failPrepareAt o.1 = failPrepareAt b /\
  prepareCount o.1 = prepareCount b /\ crashOnCommit o.1 = crashOnCommit b.

Lemma beforeMutate_blocked env b :
  blocked env b /\ is_Some (beforeMutate env b).2 \/ ~ blocked env b /\ (beforeMutate env b).2 = None.
Proof.
  unfold beforeMutate, blocked. destruct (closed b); [by eauto 6 |].
  destruct (partitionEnabled b && partitioned b) eqn:Ep; [apply andb_true_iff in Ep; by eauto 6 |].
  apply andb_false_iff in Ep. destruct (failNext b) as [e|]; [by eauto 8 |]. simpl.
  case_bool_decide as Hd; [destruct (env_cancel env) as [c|]; [left; by eauto 8 |] |];
    right; (split; [|done]); intros [?|[[??]|[?|[??]]]]; by destruct Ep; congruence.
Qed.

Lemma beforeMutate_spec env b : before_spec env b (beforeMutate env b).
Proof.
  split; [apply beforeMutate_blocked |]. unfold beforeMutate. by repeat case_match.
Qed.

Lemma clear_unblocked env b : (beforeMutate env b).2 = None -> ~ blocked env b.
Proof. intros E. destruct (beforeMutate_blocked env b) as [[_ [e He]]|[? _]]; [congruence | done]. Qed.

(** A call without a fault is its locked body, in a state that differs by nothing
    the body looks at. *)
Lemma guarded_clear {R} env (body : Backend -> Backend * (option R * option error)) b :
  ~ blocked env b -> exists b0, guarded env body b = body b0 /\ claims b0 = claims b /\
    ops b0 = ops b /\ failPrepareAt b0 = failPrepareAt b /\ prepareCount b0 = prepareCount b /\
    crashOnCommit b0 = crashOnCommit b.
Proof.
  intros Hb. destruct (beforeMutate_spec env b) as [[[? _]|[_ E]] H]; [done |].
  unfold guarded. destruct (beforeMutate env b) as [b0 o]; simpl in *. subst o. eauto.
Qed.

(** C3: operations are idempotent by identifier.  Once the critical section of a
    call with a non-empty [OperationID] has succeeded, and any execution of other
    critical sections has followed (of any caller, with any identifiers, with
    faults and expiries), the same request sent again changes no claim and no
    recorded result.  It returns the recorded result, unless an injected fault is
    in its way: the backend is closed or partitioned, [FailNext] is armed, the
    context ends during an injected delay, or the call is the prepare that
    [FailPrepareAt] counts down to; then it returns an error.  The same holds for
    its critical section alone, when others act between its two sections. *)
Theorem memory_replay_idempotent env rq b b1 r b2 env' :
  rq_op rq ≠ "" -> locked env rq b = (b1, (r, None)) -> steps atomic b1 b2 ->
  (claims (do_request env' rq b2).1 = claims b2 /\ ops (do_request env' rq b2).1 = ops b2) /\
  (~ blocked env' b2 /\ ~ injected rq b2 -> (do_request env' rq b2).2 = (r, None)) /\
  (blocked env' b2 \/ injected rq b2 -> exists e, (do_request env' rq b2).2 = (None, Some e)) /\
  (claims (locked env' rq b2).1 = claims b2 /\ ops (locked env' rq b2).1 = ops b2) /\
  (~ injected rq b2 -> (locked env' rq b2).2 = (r, None)).
Proof.
  intros Hid E Hs. pose proof (locked_stored env rq b Hid) as Hst.
  unfold stored in Hst. rewrite E in Hst. destruct (Hst eq_refl) as (x & Ex & Ha).
  assert (ops b2 !! rq_op rq = Some x) as Ex2.
  { eapply (steps_invariant atomic (λ b, ops b !! rq_op rq = Some x)); [|exact Hs | exact Ex].
    intros. by eapply atomic_ops_kept. }
  simpl in Ha. rewrite <- Ha. rewrite do_request_locked. unfold guarded.
  pose proof (beforeMutate_spec env' b2) as (Hb & Hc & Ho & Hf & Hp & _).
  destruct (locked_replay env' rq b2 x Hid Ex2) as (Hc2 & Ho2 & _ & Hl2).
  destruct (beforeMutate env' b2) as [b3 [e|]]; simpl in *.
  { destruct Hb as [[Hb _]|[_ ?]]; [|done]. split_and!; eauto; by intros []. }
  destruct Hb as [[_ []%is_Some_None]|[Hb _]]. rewrite <- Ho in Ex2.
  destruct (locked_replay env' rq b3 x Hid Ex2) as (Hc3 & Ho3 & Hi & Hn).
  assert (injected rq b3 <-> injected rq b2) as Hij by (destruct rq; simpl; rewrite ?Hf, ?Hp; done).
  rewrite Hc3, Ho3. split_and!; try done; [intros [_ ?] | intros [?|?]]; [by apply Hn; rewrite Hij | done |].
  by apply Hi, Hij.
Qed.

Lemma memory_replay_idempotent_witness :
  exists r, (do_request (wenv 9) (RqAcquire (w_acq "a" "op-a")) w_moved).2 = (Some r, None) /\
    FencingTokenOf r = 1.
Proof.
  assert (locked (wenv 5) (RqAcquire (w_acq "a" "op-a")) (New false) =
    (w_owned, (claims w_owned !! "leader", None))) as E by (vm_compute; reflexivity).
  destruct (memory_replay_idempotent (wenv 5) (RqAcquire (w_acq "a" "op-a")) (New false)
    w_owned _ w_moved (wenv 9) ltac:(done) E w_moved_steps) as (_ & H & _).
  eexists. split; [rewrite H; [vm_compute; reflexivity |] | reflexivity].
  split; [apply clear_unblocked; vm_compute; reflexivity | intros []].
Defined.

(** ** Token exhaustion *)

Lemma expireLocked_id t n b cl :
  claims b !! n = Some cl -> Phase cl = ClaimUnowned \/ t <= ExpiresAt cl ->
  expireLocked t n b = b.
Proof.
  intros E Ht. unfold expireLocked. rewrite E.
  assert (expire_record t cl = cl) as ->.
  { unfold expire_record. destruct Ht as [->|Ht]; [done |]. unfold After.
    rewrite (bool_decide_eq_false_2 (ExpiresAt cl < t)) by lia.
    rewrite andb_false_r. by case_match. }
  rewrite insert_id by done. by destruct b.
Qed.

Lemma put_claim_id n b cl : claims b !! n = Some cl -> put_claim n cl b = b.
Proof. intros E. unfold put_claim. rewrite insert_id by done. by destruct b. Qed.

Lemma advanceToken_max : advanceToken MaxSafeFencingToken =
  (MaxSafeFencingToken, Some (Sentinel ErrTokenOverflow)).
Proof. reflexivity. Qed.

(** Exhaustion of fencing tokens is refused, never wrapped.  At
    [MaxSafeFencingToken] an unowned claim cannot be acquired and a reserved one
    cannot be committed: both calls report [ErrTokenOverflow] and no claim
    changes, so the next token is not 0. *)
Theorem memory_token_overflow_refused env b n cl :
  claims b !! n = Some cl -> FencingTokenOf cl = MaxSafeFencingToken ->
  (forall req, acq_ClaimName req = n -> fresh b (acq_OperationID req) ->
     Phase cl = ClaimUnowned ->
     exists b' e, AcquireClaim_locked env req b = (b', (None, Some e)) /\
       errors_is e ErrTokenOverflow = true /\ claims b' = claims b) /\
  (forall req, com_ClaimName req = n -> fresh b (com_OperationID req) ->
     crashOnCommit b = false -> Phase cl = ClaimReserved -> env_t1 env <= ExpiresAt cl ->
     OwnerGeneration cl = com_FromGeneration req ->
     PendingSuccessor cl = com_ToGeneration req ->
     com_ExpectedToken req = MaxSafeFencingToken ->
     exists b' e, CommitTransfer_locked env req b = (b', (None, Some e)) /\
       errors_is e ErrTokenOverflow = true /\ claims b' = claims b).
Proof.
  intros E Ht. split.
  - intros req Hn Hf Hp. unfold AcquireClaim_locked.
    rewrite (fresh_recall _ b b Hf eq_refl), Hn.
    rewrite (expireLocked_id _ _ _ _ E) by auto.
    rewrite E, (put_claim_id _ _ _ E), Hp, Ht, advanceToken_max. simpl.
    eexists _, _. split; [reflexivity |]. split; [reflexivity | apply claims_storeOp].
  - intros req Hn Hf Hcr Hp Hexp Ho Hs Htok. unfold CommitTransfer_locked, CommitTransfer_body.
    rewrite (fresh_recall _ b b Hf eq_refl), Hn, Hcr.
    rewrite (expireLocked_id _ _ _ _ E) by auto. rewrite E.
    rewrite decide_False by (rewrite Hp; by intros [? _]).
    rewrite decide_False by (rewrite Hp; auto).
    rewrite decide_False by (rewrite Ho, Hs; intuition).
    rewrite decide_False by (rewrite Ht, Htok; auto).
    rewrite Ht, advanceToken_max. eexists _, _.
    split; [reflexivity |]. split; [reflexivity | apply claims_storeOp].
Qed.

Definition w_exhausted : Backend := ForceSetToken "leader" MaxSafeFencingToken (New false).

Lemma memory_token_overflow_refused_witness :
  exists b' e, AcquireClaim_locked (wenv 5) (w_acq "a" "op-a") w_exhausted = (b', (None, Some e)) /\
    errors_is e ErrTokenOverflow = true /\ claims b' = claims w_exhausted.
Proof.
  refine (proj1 (memory_token_overflow_refused (wenv 5) w_exhausted "leader" _ _ _)
    (w_acq "a" "op-a") _ _ _); vm_compute; reflexivity.
Defined.

(** ** The handoff *)

Section Handoff.
Variables (n from to : string) (b : Backend) (cl : ClaimRecord) (envp envc : Env)
  (prep : TransferRequest).
Hypotheses (Ecl : claims b !! n = Some cl) (Hph : Phase cl = ClaimOwned)
  (Hown : OwnerGeneration cl = from) (Hlive : env_t1 envp <= ExpiresAt cl)
  (Hfail : ~ injected (RqPrepare prep) b) (Hpn : tr_ClaimName prep = n)
  (Hpf : tr_FromGeneration prep = from) (Hpt : tr_ToGeneration prep = to)
  (Hpk : tr_Token prep = FencingTokenOf cl) (Hfp : fresh b (tr_OperationID prep)).

(** A prepare by the owner with the current token succeeds. *)
Lemma prepare_owned :
  exists bp rp, PrepareTransfer_locked envp prep b = (bp, (Some rp, None)) /\
    claims bp !! n = Some rp /\ crashOnCommit bp = crashOnCommit b /\
    cell_of_record rp = mkCell from (FencingTokenOf cl) ClaimReserved to /\
    ExpiresAt rp = Add (env_t2 envp) (tr_TTL prep).
Proof.
  unfold PrepareTransfer_locked, PrepareTransfer_body. simpl in *. rewrite <- bool_decide_and.
  rewrite bool_decide_eq_false_2 by done. rewrite Hpn. simpl. rewrite (fresh_recall _ b) by done.
  rewrite (expireLocked_id _ n _ cl) by (simpl; auto). simpl. rewrite Ecl.
  rewrite decide_False by (rewrite Hown; auto). rewrite decide_False by (rewrite Hpk; auto).
  rewrite decide_False by (rewrite Hph; by intros [? _]).
  rewrite decide_False by (rewrite Hph; by intros [? _]).
  rewrite Hpt. eexists _, _. split; [reflexivity |]. split; [claim_simpl |]. split.
  - unfold storeOp, notifyLocked. by repeat case_match.
  - cell_simpl. by rewrite Hown.
Qed.
End Handoff.

Lemma fresh_same (b b0 : Backend) id : ops b0 = ops b -> fresh b id -> fresh b0 id.
Proof. intros Eo Hf. unfold fresh. simpl. by rewrite (fresh_recall _ b b0). Qed.

Lemma not_injected rq b : failPrepareAt b = 0 -> ~ injected rq b.
Proof. intros Hf. destruct rq; simpl; lia. Qed.

(** An identifier unknown before a prepare with another identifier is unknown
    after it. *)
Lemma prepare_keeps_fresh envp prep b bp r id :
  PrepareTransfer_locked envp prep b = (bp, r) -> id ≠ tr_OperationID prep ->
  fresh b id -> fresh bp id.
Proof.
  intros Ep Hids Hf. pose proof (locked_ops_other envp (RqPrepare prep) b _ Hids) as Ho.
  simpl in Ho. rewrite Ep in Ho. unfold fresh. simpl. unfold recallOp. simpl in Ho. rewrite Ho.
  pose proof (fresh_recall _ b b Hf eq_refl) as H. unfold recallOp in H. by repeat case_match.
Qed.

(** A commit of a live reservation succeeds. *)
Lemma commit_reserved env com b n cl from to :
  claims b !! n = Some cl -> recallOp (com_OperationID com) b = None ->
  crashOnCommit b = false ->
  cell_of_record cl = mkCell from (com_ExpectedToken com) ClaimReserved to ->
  com_ClaimName com = n -> com_FromGeneration com = from -> com_ToGeneration com = to ->
  0 <= com_ExpectedToken com < MaxSafeFencingToken -> env_t1 env <= ExpiresAt cl ->
  exists bc rc, CommitTransfer_locked env com b = (bc, (Some rc, None)) /\
    claims bc !! n = Some rc /\
    cell_of_record rc = mkCell to (com_ExpectedToken com + 1) ClaimOwned "" /\
    PreviousOwner rc = from /\ ExpiresAt rc = Add (env_t2 env) (com_TTL com).
Proof.
  intros E Hrec Hcr Hc Hn Hf Ht Hk Hlive. injection Hc as Ho Htok Hp Hs.
  unfold CommitTransfer_locked, CommitTransfer_body.
  rewrite Hrec, Hcr, Hn, (expireLocked_id _ n _ _ E) by auto. rewrite E.
  rewrite decide_False by (rewrite Hp; by intros [? _]).
  rewrite decide_False by (rewrite Hp; auto).
  rewrite decide_False by (rewrite Ho, Hs, Hf, Ht; intuition).
  rewrite decide_False by (rewrite Htok; auto).
  destruct (advanceToken _) as [next [e|]] eqn:Ea; [apply advanceToken_err in Ea; lia |].
  apply advanceToken_ok in Ea as [_ ->]; [|lia]. rewrite Ht, Htok.
  eexists _, _. split; [reflexivity |]. split; [claim_simpl |]. cell_simpl. by rewrite <- Ho.
Qed.

(** An abort of a live reservation by its owner succeeds. *)
Lemma abort_reserved env ab b n cl from to :
  claims b !! n = Some cl -> recallOp (ab_OperationID ab) b = None ->
  cell_of_record cl = mkCell from (ab_ExpectedToken ab) ClaimReserved to ->
  ab_ClaimName ab = n -> ab_FromGeneration ab = from -> env_t1 env <= ExpiresAt cl ->
  exists ba ra, AbortTransfer_locked env ab b = (ba, (Some ra, None)) /\
    claims ba !! n = Some ra /\
    cell_of_record ra = mkCell from (ab_ExpectedToken ab) ClaimOwned "".
Proof.
  intros E Hrec Hc Hn Hf Hlive. injection Hc as Ho Htok Hp Hs.
  unfold AbortTransfer_locked. rewrite Hrec, Hn, (expireLocked_id _ n _ _ E) by auto.
  rewrite E. rewrite decide_False by (rewrite Hp; auto).
  rewrite decide_False by (rewrite Htok; auto). rewrite decide_False by (rewrite Ho; auto).
  eexists _, _. split; [reflexivity |]. split; [claim_simpl |]. cell_simpl.
  by rewrite Ho, Htok.
Qed.

(** C4: a handoff moves ownership.  The owner of a live claim, whose token is below
    [MaxSafeFencingToken], calls [PrepareTransfer] with the current token and an
    unused identifier while no injected fault is in the way: the call succeeds and
    reserves the claim.  In any later state that still holds this reservation, a
    [CommitTransfer] with an unused identifier, no fault in its way and a clock
    that reads no later than the expiry of the reservation succeeds: the successor
    owns the claim with the token one higher, no pending successor and the old
    owner recorded. *)
Theorem memory_handoff_succeeds n from to b cl envp envc prep com :
  claims b !! n = Some cl -> Phase cl = ClaimOwned -> OwnerGeneration cl = from ->
  0 <= FencingTokenOf cl < MaxSafeFencingToken -> env_t1 envp <= ExpiresAt cl ->
  ~ blocked envp b -> ~ injected (RqPrepare prep) b ->
  tr_ClaimName prep = n -> tr_FromGeneration prep = from -> tr_ToGeneration prep = to ->
  tr_Token prep = FencingTokenOf cl -> fresh b (tr_OperationID prep) ->
  com_ClaimName com = n -> com_FromGeneration com = from -> com_ToGeneration com = to ->
  com_ExpectedToken com = FencingTokenOf cl ->
  env_t1 envc <= Add (env_t2 envp) (tr_TTL prep) ->
  exists bp rp,
    PrepareTransfer envp prep b = (bp, (Some rp, None)) /\ claims bp !! n = Some rp /\
    cell_of_record rp = mkCell from (FencingTokenOf cl) ClaimReserved to /\
    (com_OperationID com ≠ tr_OperationID prep -> fresh b (com_OperationID com) ->
     fresh bp (com_OperationID com)) /\
    forall b2, claims b2 !! n = Some rp -> fresh b2 (com_OperationID com) ->
      ~ blocked envc b2 -> crashOnCommit b2 = false ->
      exists bc rc, CommitTransfer envc com b2 = (bc, (Some rc, None)) /\
        claims bc !! n = Some rc /\
        cell_of_record rc = mkCell to (FencingTokenOf cl + 1) ClaimOwned "" /\
        PreviousOwner rc = from /\ ExpiresAt rc = Add (env_t2 envc) (com_TTL com).
Proof.
  intros Ecl Hph Hown Htok Hlive Hbl Hinj Hpn Hpf Hpt Hpk Hfp Hcn Hcf Hct Hck Hres.
  destruct (guarded_clear envp (PrepareTransfer_locked envp prep) b Hbl)
    as (b0 & Eg & Ec0 & Eo0 & Ef0 & Ep0 & _).
  destruct (prepare_owned n from to b0 cl envp prep)
    as (bp & rp & Ep & Ecp & _ & Hcell & Hexp); try done.
  { by rewrite Ec0. } { simpl. by rewrite Ef0, Ep0. } { by apply (fresh_same b). }
  exists bp, rp. split_and!; [by rewrite <- Ep, <- Eg | done | done | |].
  { intros Hids Hf. eapply prepare_keeps_fresh; [exact Ep | done |]. by apply (fresh_same b). }
  intros b2 E2 Hf2 Hbl2 Hcr2.
  destruct (guarded_clear envc (CommitTransfer_locked envc com) b2 Hbl2)
    as (b3 & Eg3 & Ec3 & Eo3 & _ & _ & Ecr3).
  unfold CommitTransfer. rewrite Eg3. rewrite <- Hck in *.
  eapply (commit_reserved envc com b3 n rp from to); try done; rewrite ?Ec3, ?Ecr3, ?Hexp; try done.
  by apply (fresh_recall _ b2).
Qed.

Lemma memory_handoff_succeeds_witness :
  exists bc rc, CommitTransfer (wenv 7) w_commit w_reserved = (bc, (Some rc, None)) /\
    cell_of_record rc = mkCell "b" 2 ClaimOwned "".
Proof.
  assert (claims w_owned !! "leader" = Some (default (unowned_record "") (claims w_owned !! "leader")))
    as E by (vm_compute; reflexivity).
  destruct (memory_handoff_succeeds "leader" "a" "b" w_owned _ (wenv 6) (wenv 7) w_prep w_commit E
    ltac:(by_eval) ltac:(by_eval) ltac:(by_eval) ltac:(by_eval)
    ltac:(apply clear_unblocked; by_eval) ltac:(apply not_injected; by_eval) ltac:(by_eval)
    ltac:(by_eval) ltac:(by_eval) ltac:(by_eval) ltac:(by_eval) ltac:(by_eval) ltac:(by_eval)
    ltac:(by_eval) ltac:(by_eval) ltac:(by_eval)) as (bp & rp & Ep & Er & _ & Hf & Hc).
  assert (w_reserved = bp) as <-.
  { replace w_reserved with (PrepareTransfer (wenv 6) w_prep w_owned).1 by (vm_compute; reflexivity). by rewrite Ep. }
  destruct (Hc w_reserved Er ltac:(by_eval) ltac:(apply clear_unblocked; by_eval) ltac:(by_eval))
    as (bc & rc & H1 & _ & H2 & _). exists bc, rc. split; [exact H1 | exact H2].
Defined.

(** An aborted handoff gives the claim back.  Preparing and then aborting
    with the same token restores the claim's owner, token, phase and (empty)
    successor, whatever the successor was. *)
Theorem memory_abort_restores n from to b cl envp enva prep ab :
  claims b !! n = Some cl -> Phase cl = ClaimOwned -> OwnerGeneration cl = from ->
  PendingSuccessor cl = "" -> env_t1 envp <= ExpiresAt cl -> failPrepareAt b = 0 ->
  tr_ClaimName prep = n -> tr_FromGeneration prep = from -> tr_ToGeneration prep = to ->
  tr_Token prep = FencingTokenOf cl -> fresh b (tr_OperationID prep) ->
  ab_ClaimName ab = n -> ab_FromGeneration ab = from ->
  ab_ExpectedToken ab = FencingTokenOf cl -> fresh b (ab_OperationID ab) ->
  ab_OperationID ab ≠ tr_OperationID prep ->
  env_t1 enva <= Add (env_t2 envp) (tr_TTL prep) ->
  exists ba ra,
    AbortTransfer_locked enva ab (PrepareTransfer_locked envp prep b).1 =
      (ba, (Some ra, None)) /\
    claims ba !! n = Some ra /\ cell_of_record ra = cell_of_record cl.
Proof.
  intros Ecl Hph Hown Hsucc Hlive Hfail Hpn Hpf Hpt Hpk Hfp Han Haf Hak Hfa Hids Hres.
  destruct (prepare_owned n from to b cl envp prep)
    as (bp & rp & Ep & Ecp & _ & Hcell & Hexp); try done; [by apply not_injected |].
  destruct (abort_reserved enva ab bp n rp from to) as (ba & ra & Ea & Eca & Hca);
    rewrite ?Hak, ?Hexp; try done.
  { eapply fresh_recall; [by eapply prepare_keeps_fresh | done]. }
  exists ba, ra. rewrite Ep. split; [done |]. split; [done |].
  rewrite Hca, Hak. unfold cell_of_record. by rewrite Hph, Hsucc, Hown.
Qed.

Lemma memory_abort_restores_witness :
  exists ba ra,
    AbortTransfer_locked (wenv 7) (mkAbort "leader" "a" "b" 1 "op-abort") w_reserved =
      (ba, (Some ra, None)) /\ cell_of_record ra = mkCell "a" 1 ClaimOwned "".
Proof.
  assert (claims w_owned !! "leader" = Some (default (unowned_record "") (claims w_owned !! "leader")))
    as E by (vm_compute; reflexivity).
  destruct (memory_abort_restores "leader" "a" "b" w_owned _ (wenv 6) (wenv 7) w_prep
    (mkAbort "leader" "a" "b" 1 "op-abort") E
    ltac:(by_eval) ltac:(by_eval) ltac:(by_eval) ltac:(by_eval) ltac:(by_eval)
    ltac:(by_eval) ltac:(by_eval) ltac:(by_eval) ltac:(by_eval) ltac:(by_eval)
    ltac:(by_eval) ltac:(by_eval) ltac:(by_eval) ltac:(by_eval) ltac:(by_eval) ltac:(by_eval))
    as (ba & ra & Ea & _ & Hc).
  exists ba, ra. split; [exact Ea | rewrite Hc; vm_compute; reflexivity].
Defined.

(** ** Watchers *)

(** The watchers registered for claim [n]: open channels with at most 16
    buffered events, all about [n]; identities were allocated and are distinct
    (so the goroutine that leaves removes one watcher, its own). *)
Record watcher_ok (next : nat) (n : string) (w : watchChan) : Prop := mkWatcherOk {
  wo_room : (length (ch w) <= watch_capacity)%nat;
  wo_open : wclosed w = false;
  wo_id : (wid w < next)%nat;
  wo_named : Forall (λ ev, Name (EvClaim ev) = n) (ch w) }.

Definition watch_inv (b : Backend) : Prop :=
  map_Forall (λ n ws, Forall (watcher_ok (nextWatch b) n) ws /\ NoDup (wid <$> ws))
    (watchers b).

(** Same watchers. *)
Definition same_watch (b b' : Backend) : Prop :=
  watchers b' = watchers b /\ nextWatch b' = nextWatch b.

Lemma same_watch_inv b b' : same_watch b b' -> watch_inv b -> watch_inv b'.
Proof. intros [E1 E2]. unfold watch_inv. by rewrite E1, E2. Qed.

Lemma watch_send_ok next n ev w :
  Name (EvClaim ev) = n -> watcher_ok next n w -> watcher_ok next n (watch_send ev w).
Proof.
  intros Hn [Hr Ho Hi Hf]. unfold watch_send. rewrite Ho. case_decide; [|done].
  split; simpl; try done; [rewrite length_app; simpl; lia |].
  apply Forall_app. by rewrite Forall_singleton.
Qed.

Lemma watch_send_ids ev (ws : list watchChan) : wid <$> (watch_send ev <$> ws) = wid <$> ws.
Proof.
  rewrite <- list_fmap_compose. apply list_fmap_ext. intros _ w _. simpl.
  unfold watch_send. by repeat case_match.
Qed.

Lemma notify_inv t r why b : watch_inv b -> watch_inv (notifyLocked t r why b).
Proof.
  intros Hi. unfold notifyLocked. destruct (watchers b !! Name r) as [ws|] eqn:E; [|done].
  unfold watch_inv. simpl. apply map_Forall_insert_2; [|done].
  destruct (Hi _ _ E) as [Hf Hd]. split; [|by rewrite watch_send_ids].
  apply Forall_fmap. eapply Forall_impl; [exact Hf |]. intros w. by apply watch_send_ok.
Qed.

Lemma storeOp_watch id r e b : same_watch b (storeOp id r e b).
Proof. unfold storeOp. by case_match. Qed.

Lemma expire_watch t n b : same_watch b (expireLocked t n b).
Proof. unfold expireLocked. by case_match. Qed.

Lemma put_watch n cl b : same_watch b (put_claim n cl b).
Proof. done. Qed.

(** A locked body keeps the watchers or notifies them once. *)
Ltac watch_branch Hi :=
  repeat (case_match; try exact Hi); cbn [fst];
  repeat first
    [ eapply same_watch_inv; [apply storeOp_watch |]
    | apply notify_inv
    | eapply same_watch_inv; [apply put_watch |]
    | eapply same_watch_inv; [apply expire_watch |] ];
  exact Hi.

Lemma locked_watch env rq b : watch_inv b -> watch_inv (locked env rq b).1.
Proof.
  intros Hi. destruct rq as [r|r|r|r|r|r]; simpl.
  - unfold AcquireClaim_locked. watch_branch Hi.
  - unfold RenewClaim_locked. watch_branch Hi.
  - unfold PrepareTransfer_locked. set (b0 := set_prepareCount _ b).
    assert (watch_inv b0) as Hi0 by exact Hi.
    unfold PrepareTransfer_body. watch_branch Hi0.
  - unfold CommitTransfer_locked, CommitTransfer_body. watch_branch Hi.
  - unfold AbortTransfer_locked. watch_branch Hi.
  - assert (watch_inv (ReleaseClaim_locked env r b).1) as H
      by (unfold ReleaseClaim_locked; watch_branch Hi).
    by destruct (ReleaseClaim_locked env r b).
Qed.

Lemma watcher_ok_next m k n w : (m <= k)%nat -> watcher_ok m n w -> watcher_ok k n w.
Proof. intros Hl []. split; try done. lia. Qed.

Lemma WatchClaim_inv n b : watch_inv b -> watch_inv (WatchClaim n b).1.
Proof.
  intros Hi. unfold WatchClaim. case_match; [done |]. unfold watch_inv. simpl.
  assert (Forall (watcher_ok (nextWatch b) n) (default [] (watchers b !! n)) /\
          NoDup (wid <$> default [] (watchers b !! n))) as [Hf Hd].
  { destruct (watchers b !! n) eqn:E; simpl; [by apply (Hi _ _ E) | split; constructor]. }
  apply map_Forall_insert_2.
  - split.
    + apply Forall_app. split; [|by repeat constructor].
      eapply Forall_impl; [exact Hf |]. intros w. apply watcher_ok_next. lia.
    + rewrite fmap_app. apply NoDup_app. split; [done |]. split; [|by apply NoDup_singleton].
      intros i [w [Ei Hw]]%list_elem_of_fmap Hi'%list_elem_of_singleton. simpl in *.
      rewrite Forall_forall in Hf. destruct (Hf _ Hw). lia.
  - intros m ws E. destruct (Hi _ _ E) as [Hf' Hd']. split; [|done].
    eapply Forall_impl; [exact Hf' |]. intros w. apply watcher_ok_next. lia.
Qed.

Lemma NoDup_filter_ids (P : watchChan -> Prop) `{!forall x, Decision (P x)} ws :
  NoDup (wid <$> ws) -> NoDup (wid <$> filter P ws).
Proof. intros Hd. eapply sublist_NoDup; [exact Hd |]. apply fmap_sublist, sublist_filter. Qed.

Lemma watch_done_inv n i b : watch_inv b -> watch_inv (watch_done n i b).
Proof.
  intros Hi. unfold watch_done. destruct (watchers b !! n) as [ws|] eqn:E; [|done].
  unfold watch_inv. simpl. apply map_Forall_insert_2; [|done].
  destruct (Hi _ _ E) as [Hf Hd]. split; [|by apply NoDup_filter_ids].
  rewrite Forall_forall in *. intros w [_ Hw]%list_elem_of_filter. by apply Hf.
Qed.

Lemma atomic_watch b b' : watch_inv b -> atomic b b' -> watch_inv b'.
Proof.
  intros Hi Ha. destruct Ha; try exact Hi.
  - unfold beforeMutate. by repeat case_match.
  - by apply locked_watch.
  - unfold GetClaim. case_match; simpl; by eapply same_watch_inv, Hi; apply expire_watch.
  - by apply WatchClaim_inv.
  - by apply watch_done_inv.
  - unfold Close. case_match; [done |]. apply map_Forall_empty.
  - unfold ForceExpire. case_match; [|done].
    eapply same_watch_inv; [apply expire_watch | exact Hi].
Qed.

(** Watchers never block the backend and never mix claims.  In every
    reachable state each registered channel holds at most 16 events (a full one
    is skipped), is still open (no send on a closed channel), carries only events
    about the claim it watches, and is registered once. *)
Theorem memory_watchers_bounded b n ws w :
  reachable b -> watchers b !! n = Some ws -> w ∈ ws ->
  (length (ch w) <= 16)%nat /\ wclosed w = false /\
  Forall (λ ev, Name (EvClaim ev) = n) (ch w) /\ NoDup (wid <$> ws).
Proof.
  intros [part Hs] E Hw.
  assert (watch_inv b) as Hi.
  { eapply (steps_invariant atomic); [apply atomic_watch | exact Hs | apply map_Forall_empty]. }
  destruct (Hi _ _ E) as [Hf Hd]. rewrite Forall_forall in Hf. by destruct (Hf _ Hw).
Qed.

Definition w_watched : Backend :=
  (locked (wenv 5) (RqAcquire (w_acq "a" "op-a")) (WatchClaim "leader" (New false)).1).1.

Lemma memory_watchers_bounded_witness :
  exists w, watchers w_watched !! "leader" = Some [w] /\ (length (ch w) <= 16)%nat /\
    length (ch w) = 1%nat.
Proof.
  eexists. split; [vm_compute; reflexivity |]. split; [|reflexivity].
  eapply (memory_watchers_bounded w_watched "leader" _ _);
    [| vm_compute; reflexivity | apply list_elem_of_here].
  exists false. eapply steps_cons; [apply (at_watch "leader") |].
  apply steps_one, at_locked. done.
Defined.
