(* ===== verification/FaultInject.v ===== *)
(** * Fault injection ([backend/faultinject/faultinject.go])

    A decorator around any backend: faults before a call, responses lost after it,
    commits that succeed and report a failure, acquisitions sent twice.  The decorated
    backend is again an instance of the interface, and, as long as acquisitions are not
    duplicated, of its contract: what is proved of a coordinator over the contract holds
    under every other fault.  Timers and the end of the context are the environment of a
    call; reads and watches are forwarded. *)

From S2P Require Import Prelude Types BackendSpec ClaimStore MemoryBackend MemorySafety.

Record Fault := mkFault {
  Latency : Duration; Unavailable : bool; Timeout : bool; DuplicateResponse : bool; LoseResponse : bool;
  CommitThenFail : bool; StaleRead : bool; WatchDisconnect : bool; TxRollback : bool;
  SerializationConflict : bool; PoolExhausted : bool }.

Definition no_fault : Fault := mkFault 0 false false false false false false false false false false.

Record Decorator (S : Type) := mkDecorator { inner : S; fault : Fault }.
Arguments mkDecorator {S}. Arguments inner {S}. Arguments fault {S}.

Definition Wrap {S} (s : S) : Decorator S := mkDecorator s no_fault.
Definition SetFault {S} (f : Fault) (d : Decorator S) : Decorator S := mkDecorator (inner d) f.

Definition fault_error (e : sentinel) (msg : string) : error := mkError "faultinject" (Sentinel e) msg.

(** [before]: what stops a call before it reaches the backend. *)
Definition before (env : Env) (f : Fault) : option error :=
  if PoolExhausted f then Some (fault_error ErrBackend "pool exhausted")
  else if Unavailable f then Some (fault_error ErrBackend "unavailable")
  else if Timeout f then Some (CtxErr ContextDeadlineExceeded)
  else
    match (if bool_decide (0 < Latency f) then env_cancel env else None) with
    | Some c => Some (CtxErr c)
    | None =>
      if SerializationConflict f then Some (fault_error ErrConcurrentTransfer "serialization conflict")
      else if TxRollback f then Some (fault_error ErrBackend "tx rolled back")
      else None
    end.

Definition afterApply (f : Fault) (err : option error) : option error :=
  match err with
  | Some e => Some e
  | None => if LoseResponse f then Some (fault_error ErrAmbiguous "response lost after success") else None
  end.

Section Decorated.
Context {S : Type} `{!BackendOps S}.

(** A call that returns an error only. *)
Definition decorate_err (env : Env) (op : S -> S * option error) (d : Decorator S) : Decorator S * option error :=
  match before env (fault d) with
  | Some e => (d, Some e)
  | None => let '(s, e) := op (inner d) in (mkDecorator s (fault d), afterApply (fault d) e)
  end.

(** A call that returns the record beside the error. *)
Definition decorate_rec (env : Env) (op : S -> S * RecordResult) (d : Decorator S) : Decorator S * RecordResult :=
  match before env (fault d) with
  | Some e => (d, (None, Some e))
  | None => let '(s, (r, e)) := op (inner d) in (mkDecorator s (fault d), (r, afterApply (fault d) e))
  end.

(** [AcquireClaim]; the second call reads the clock for itself ([again]). *)
Definition AcquireClaim (again : Env -> Env) (env : Env) (req : AcquireRequest) (d : Decorator S)
  : Decorator S * RecordResult :=
  match before env (fault d) with
  | Some e => (d, (None, Some e))
  | None =>
    let '(s, (r, e)) := do_Acquire env req (inner d) in
    match afterApply (fault d) e with
    | Some e => (mkDecorator s (fault d), (None, Some e))
    | None =>
      let s := if DuplicateResponse (fault d) && bool_decide (is_Some r) then (do_Acquire (again env) req s).1 else s in
      (mkDecorator s (fault d), (r, None))
    end
  end.

Definition CommitTransfer (env : Env) (req : CommitRequest) (d : Decorator S) : Decorator S * RecordResult :=
  match before env (fault d) with
  | Some e => (d, (None, Some e))
  | None =>
    let '(s, (r, e)) := do_Commit env req (inner d) in
    let d := mkDecorator s (fault d) in
    if bool_decide (e = None) && CommitThenFail (fault d)
    then (d, (None, Some (fault_error ErrAmbiguous "commit succeeded then client failure")))
    else (d, (r, afterApply (fault d) e))
  end.

Definition RenewClaim env req := decorate_rec env (do_Renew env req).
Definition PrepareTransfer env req := decorate_rec env (do_Prepare env req).
Definition AbortTransfer env req := decorate_rec env (do_Abort env req).
Definition ReleaseClaim env req := decorate_err env (do_Release env req).
Definition RegisterGeneration env g := decorate_err env (do_Register env g).
Definition UpdateGeneration env g := decorate_err env (do_Update env g).

Variable again : Env -> Env.

#[global] Instance decorated_ops : BackendOps (Decorator S) := {|
  do_Acquire := AcquireClaim again; do_Renew := RenewClaim; do_Prepare := PrepareTransfer;
  do_Commit := CommitTransfer; do_Abort := AbortTransfer; do_Release := ReleaseClaim;
  do_Register := RegisterGeneration; do_Update := UpdateGeneration;
  claim_at := fun d => claim_at (inner d); op_seen := fun d => op_seen (inner d) |}.

(** ** What a decorated call does *)

(** The error of the backend is passed on; an error of the decorator replaces a
    success only. *)
Definition passed_on (r r1 : RecordResult) : Prop :=
  (r.2 = None -> r = r1) /\ forall e, r1.2 = Some e -> r.2 = Some e.

Lemma afterApply_passed f r e : passed_on (r, afterApply f e) (r, e).
Proof. unfold passed_on, afterApply. destruct e as [e|]; simpl; [by split; [|intros ? [= <-]] | by destruct (LoseResponse f)]. Qed.

(** Either nothing reached the backend and the call fails, or the request was
    executed once, or, for an acquisition that succeeded, twice. *)
Definition call_shape env rq (d d' : Decorator S) (r : RecordResult) : Prop :=
  fault d' = fault d /\
  ((inner d' = inner d /\ is_Some r.2) \/
   exists s1 r1, do_request env rq (inner d) = (s1, r1) /\
     (inner d' = s1 \/
      (DuplicateResponse (fault d) = true /\ exists req, rq = RqAcquire req /\ inner d' = (do_Acquire (again env) req s1).1)) /\
     passed_on r r1).

Lemma decorate_rec_shape env rq op (d d' : Decorator S) r :
  (forall s, do_request env rq s = op s) -> decorate_rec env op d = (d', r) -> call_shape env rq d d' r.
Proof.
  intros Hop. unfold decorate_rec. destruct (before env (fault d)) as [e|].
  - intros [= <- <-]. split; [done | left]. split; [done | by eexists].
  - destruct (op (inner d)) as [s1 [r1 e1]] eqn:E. intros [= <- <-]. split; [done | right]. exists s1, (r1, e1).
    rewrite Hop. split; [done |]. split; [by left | apply afterApply_passed].
Qed.

Lemma decorated_request env rq (d d' : Decorator S) r : do_request env rq d = (d', r) -> call_shape env rq d d' r.
Proof.
  destruct rq as [q|q|q|q|q|q]; cbn [do_request do_Acquire do_Renew do_Prepare do_Commit do_Abort do_Release decorated_ops];
    try (by apply decorate_rec_shape).
  - unfold AcquireClaim. destruct (before env (fault d)) as [e|]; [intros [= <- <-]; split; [done | left; split; [done | by eexists]] |].
    destruct (do_Acquire env q (inner d)) as [s1 [r1 e1]] eqn:E. pose proof (afterApply_passed (fault d) r1 e1) as [H1 H2].
    destruct (afterApply (fault d) e1) as [e|] eqn:Ea; intros [= <- <-]; (split; [done | right]); exists s1, (r1, e1); (split; [done |]).
    + split; [by left |]. by split.
    + split; [|by split]. destruct (DuplicateResponse (fault d)), (bool_decide (is_Some r1)); cbn [andb inner]; [right | by left ..].
      split; [done |]. by exists q.
  - unfold CommitTransfer. destruct (before env (fault d)) as [e|]; [intros [= <- <-]; split; [done | left; split; [done | by eexists]] |].
    destruct (do_Commit env q (inner d)) as [s1 [r1 e1]] eqn:E. cbn [fault].
    destruct (bool_decide_reflect (e1 = None)) as [->|He]; cbn [andb];
      [destruct (CommitThenFail (fault d))|]; intros [= <- <-]; (split; [done | right]); eexists s1, (r1, _); (split; [exact E |]);
      (split; [by left |]); [by split | exact (afterApply_passed (fault d) r1 None) | exact (afterApply_passed (fault d) r1 e1)].
  - unfold ReleaseClaim, decorate_err. destruct (before env (fault d)) as [e|]; [intros [= <- <-]; split; [done | left; split; [done | by eexists]] |].
    destruct (do_Release env q (inner d)) as [s1 e1] eqn:E. intros [= <- <-]. split; [done | right]. exists s1, (None, e1).
    split; [cbn [do_request]; by rewrite E |]. split; [by left | apply afterApply_passed].
Qed.

(** ** The contract *)

Context `{!BackendLaws S}.

(** Under any fault, duplicated acquisitions included, a request moves its claim by
    the steps of the specification and leaves the other claims alone. *)
Theorem faults_refine env rq (d d' : Decorator S) r :
  be_inv (inner d) -> rq_valid rq -> do_request env rq d = (d', r) ->
  be_inv (inner d') /\ steps cell_trans (cell_at d (rq_claim rq)) (cell_at d' (rq_claim rq)) /\
  (forall n, n ≠ rq_claim rq -> claim_at d' n = claim_at d n).
Proof.
  intros Hi Hv E. unfold cell_at. cbn [claim_at decorated_ops].
  destruct (decorated_request _ _ _ _ _ E) as (_ & [[-> _]|(s1 & r1 & E1 & Hs & _)]); [split; [done | split; [constructor | done]] |].
  destruct (be_refines _ _ _ _ _ Hi Hv E1) as (Hi1 & Hc1 & Ho1). destruct Hs as [->|(_ & q & -> & ->)]; [done |].
  destruct (do_Acquire (again env) q s1) as [s2 r2] eqn:E2. cbn [fst].
  destruct (be_refines (again env) (RqAcquire q) s1 s2 r2 Hi1 Hv E2) as (Hi2 & Hc2 & Ho2).
  split; [done |]. split; [by eapply steps_app |]. intros n Hn. by rewrite Ho2, Ho1.
Qed.

Definition decorated_inv (d : Decorator S) : Prop := be_inv (inner d) /\ DuplicateResponse (fault d) = false.

(** A response without an error is the response of the backend, and the state is
    the one it left, when acquisitions are not duplicated. *)
Lemma decorated_success env rq (d d' : Decorator S) r :
  DuplicateResponse (fault d) = false -> do_request env rq d = (d', (r, None)) ->
  do_request env rq (inner d) = (inner d', (r, None)).
Proof.
  intros Hd E. destruct (decorated_request _ _ _ _ _ E) as (_ & [[_ [? [=]]]|(s1 & r1 & E1 & Hs & Hp & _)]).
  rewrite (Hp eq_refl). destruct Hs as [->|[Hd' _]]; [done | congruence].
Qed.

Lemma decorated_generation env g (d : Decorator S) op :
  (op = do_Register env g \/ op = do_Update env g) -> be_inv (inner d) ->
  let f := decorate_err env op d in
  be_inv (inner f.1) /\ fault f.1 = fault d /\ (forall n, claim_at f.1 n = claim_at d n) /\ forall id, op_seen f.1 id = op_seen d id.
Proof.
  intros Hop Hi. cbn zeta. unfold decorate_err. destruct (before env (fault d)); [done |].
  destruct (be_generation env g (inner d) (op (inner d))) as (H1 & H2 & H3); [by destruct Hop as [->| ->]; [left | right] | done |].
  by destruct (op (inner d)) as [s e].
Qed.

#[global] Instance decorated_laws : BackendLaws (Decorator S).
Proof.
  refine {| be_inv := decorated_inv |}.
  - intros d n [Hi _]. apply (be_inv_wf (inner d) n Hi).
  - intros env rq d d' r [Hi Hd] Hv E. destruct (faults_refine env rq d d' r Hi Hv E) as (H1 & H2 & H3). split; [|done].
    split; [done |]. by rewrite (proj1 (decorated_request _ _ _ _ _ E)).
  - intros env rq d d' r id E Hid. cbn [op_seen decorated_ops].
    destruct (decorated_request _ _ _ _ _ E) as (_ & [[-> _]|(s1 & r1 & E1 & Hs & _)]); [done |].
    rewrite <- (be_seen env rq (inner d) s1 r1 id E1 Hid). destruct Hs as [->|(_ & q & -> & ->)]; [done |].
    destruct (do_Acquire (again env) q s1) as [s2 r2] eqn:E2. by apply (be_seen (again env) (RqAcquire q) s1 s2 r2).
  - intros env g d f Hf [Hi Hd].
    assert (exists op, (op = do_Register env g \/ op = do_Update env g) /\ f = decorate_err env op d) as (op & Hop & ->)
      by (destruct Hf as [->| ->]; eauto).
    destruct (decorated_generation env g d op Hop Hi) as (H1 & H2 & H3 & H4). split; [|done]. split; [done | congruence].
  - intros env req d d' rec [Hi Hd] Hv Hf E. exact (be_acquire_ok env req (inner d) (inner d') rec Hi Hv Hf (decorated_success env (RqAcquire req) d d' _ Hd E)).
  - intros env req d d' rec [Hi Hd] Hv Hf E. exact (be_prepare_ok env req (inner d) (inner d') rec Hi Hv Hf (decorated_success env (RqPrepare req) d d' _ Hd E)).
  - intros env req d d' rec [Hi Hd] Hf E. exact (be_commit_ok env req (inner d) (inner d') rec Hi Hf (decorated_success env (RqCommit req) d d' _ Hd E)).
  - intros env req d d' rec [Hi Hd] Hf E. exact (be_abort_ok env req (inner d) (inner d') rec Hi Hf (decorated_success env (RqAbort req) d d' _ Hd E)).
Defined.
End Decorated.

(** ** Lost responses *)

Lemma before_none env : before env no_fault = None.
Proof. reflexivity. Qed.

(** A call whose response is lost answers [ErrAmbiguous], and has been executed. *)
Lemma lost_response {S} `{!BackendOps S} again env rq f (s s1 : S) r1 :
  LoseResponse f = true -> before env f = None -> do_request env rq s = (s1, (r1, None)) ->
  exists r e, do_request (BackendOps0 := decorated_ops again) env rq (mkDecorator s f) = (mkDecorator s1 f, (r, Some e)) /\
    errors_is e ErrAmbiguous = true.
Proof.
  intros Hl Hb E. destruct rq as [q|q|q|q|q|q]; cbn [do_request do_Acquire do_Renew do_Prepare do_Commit do_Abort do_Release decorated_ops] in *;
    unfold AcquireClaim, RenewClaim, PrepareTransfer, CommitTransfer, AbortTransfer, ReleaseClaim, decorate_rec, decorate_err;
    cbn [fault inner]; rewrite Hb; try (rewrite E; unfold afterApply; rewrite Hl; do 2 eexists; split; reflexivity).
  - rewrite E. unfold afterApply. rewrite Hl, bool_decide_true by done. destruct (CommitThenFail f); cbn [andb]; do 2 eexists; split; reflexivity.
  - destruct (do_Release env q s) as [s' e']. injection E as <- <- ->. unfold afterApply. rewrite Hl. do 2 eexists; split; reflexivity.
Qed.

Lemma calm_request {S} `{!BackendOps S} again env rq (s s1 : S) r1 :
  do_request env rq s = (s1, (r1, None)) ->
  do_request (BackendOps0 := decorated_ops again) env rq (mkDecorator s no_fault) = (mkDecorator s1 no_fault, (r1, None)).
Proof.
  intros E. destruct rq as [q|q|q|q|q|q]; cbn [do_request do_Acquire do_Renew do_Prepare do_Commit do_Abort do_Release decorated_ops] in *;
    unfold AcquireClaim, RenewClaim, PrepareTransfer, CommitTransfer, AbortTransfer, ReleaseClaim, decorate_rec, decorate_err;
    cbn [fault inner]; rewrite before_none; try (rewrite E; reflexivity).
  destruct (do_Release env q s) as [s' e']. by injection E as <- <- ->.
Qed.

Lemma failPrepareAt_before env b : failPrepareAt (beforeMutate env b).1 = failPrepareAt b.
Proof. unfold beforeMutate. by repeat case_match. Qed.

(** C35: A lost response is recovered by sending the request again.  Over the in-memory
    backend, a request with an operation identifier that took effect while its response
    was lost answers [ErrAmbiguous]; the same request sent again once the faults are gone
    returns what the lost response contained, whatever other callers did meanwhile, and
    changes no claim. *)
Theorem lost_response_recovered again env env' rq f (b b1 b2 : Backend) r1 :
  rq_op rq ≠ "" -> LoseResponse f = true -> before env f = None ->
  do_request env rq b = (b1, (r1, None)) -> steps atomic b1 b2 ->
  failPrepareAt b2 = 0 -> (beforeMutate env' b2).2 = None ->
  (exists r e, do_request (BackendOps0 := decorated_ops again) env rq (mkDecorator b f) = (mkDecorator b1 f, (r, Some e)) /\
     errors_is e ErrAmbiguous = true) /\
  exists d2, do_request (BackendOps0 := decorated_ops again) env' rq (mkDecorator b2 no_fault) = (d2, (r1, None)) /\
    forall n, claim_at (BackendOps := decorated_ops again) d2 n = claim_at b2 n.
Proof.
  intros Hid Hl Hb E Hs Hf Hb2. split; [by eapply lost_response |].
  assert (exists x, ops b1 !! rq_op rq = Some x /\ answer rq x = (r1, None)) as (x & Ex & Ha).
  { rewrite do_request_locked in E. unfold guarded in E. destruct (beforeMutate env b) as [b0 [e|]]; [done |].
    pose proof (locked_stored env rq b0 Hid) as Hst. unfold stored in Hst. rewrite E in Hst. by apply Hst. }
  assert (ops b2 !! rq_op rq = Some x) as Ex2.
  { eapply (steps_invariant atomic (λ b, ops b !! rq_op rq = Some x)); [|exact Hs | exact Ex]. intros. by eapply atomic_ops_kept. }
  destruct (do_request env' rq b2) as [b3 res] eqn:E3. pose proof E3 as E4. rewrite do_request_locked in E4. unfold guarded in E4.
  pose proof (claims_before env' b2) as Hcb. pose proof (ops_before env' b2) as Hob. pose proof (failPrepareAt_before env' b2) as Hpb.
  destruct (beforeMutate env' b2) as [b2' e2]. cbn [fst snd] in *. subst e2.
  destruct (locked_replay env' rq b2' x Hid) as (Hc & _ & _ & Hr); [congruence |]. rewrite E4 in Hc, Hr. cbn [fst snd] in *.
  rewrite Hr, Ha in * by (apply not_injected; congruence). exists (mkDecorator b3 no_fault). split; [by apply calm_request |].
  intros n. cbn. congruence.
Qed.

(** ** Examples *)

Definition f_lost : Fault := mkFault 0 false false false true false false false false false false.
Definition f_twice : Fault := mkFault 0 false false true false false false false false false false.

Lemma lost_response_recovered_witness :
  exists r e d2, (do_request (BackendOps0 := decorated_ops id) (wenv 5) (RqAcquire (w_acq "a" "op-a")) (mkDecorator (New false) f_lost)).2 = (r, Some e) /\
    errors_is e ErrAmbiguous = true /\
    do_request (BackendOps0 := decorated_ops id) (wenv 9) (RqAcquire (w_acq "a" "op-a")) (mkDecorator w_moved no_fault) =
      (d2, (claims w_owned !! "leader", None)).
Proof.
  assert (do_request (wenv 5) (RqAcquire (w_acq "a" "op-a")) (New false) = (w_owned, (claims w_owned !! "leader", None))) as E by (vm_compute; reflexivity).
  destruct (lost_response_recovered id (wenv 5) (wenv 9) (RqAcquire (w_acq "a" "op-a")) f_lost (New false) w_owned w_moved _
    ltac:(done) eq_refl eq_refl E w_moved_steps eq_refl ltac:(vm_compute; reflexivity)) as [(r & e & H1 & H2) (d2 & H3 & _)].
  exists r, e, d2. split; [by rewrite H1 |]. by split.
Defined.

(** An acquisition without an identifier that is sent twice is executed twice: when
    the lease has run out between the two, the record returned is not the one stored. *)
Lemma duplicate_outdates_response :
  let later (_ : Env) := wenv (100 * Second) in
  let '(d, (r, e)) := do_request (BackendOps0 := decorated_ops later) (wenv 5) (RqAcquire (w_acq "a" "")) (mkDecorator (New false) f_twice) in
  e = None /\ FencingTokenOf <$> r = Some 1 /\ FencingTokenOf <$> claim_at (BackendOps := decorated_ops later) d "leader" = Some 2.
Proof. vm_compute. split_and!; reflexivity. Qed.
