(* ===== verification/RedisLocal.v ===== *)
(** * The local Redis-semantics backend ([backend/redis/local.go])

    [Local] is the in-process backend with the ownership rules of the Lua
    scripts.  Every method is one critical section.  It differs from the memory
    backend in details the model keeps: a lease is already over at its expiry
    instant, and neither expiry, release nor acquisition resets
    [TransferStatus]. *)

From S2P Require Import Prelude Types BackendSpec ClaimStore.

(** ** State *)

Record Local := mkLocal {
  l_claims : gmap string ClaimRecord;
  l_gens : gmap string Generation;
  l_ops : gmap string opResult }.

Definition NewLocal : Local := mkLocal ∅ ∅ ∅.

Definition put (n : string) (cl : ClaimRecord) (l : Local) : Local :=
  mkLocal (<[n := cl]> (l_claims l)) (l_gens l) (l_ops l).

Definition recall (id : OperationID) (l : Local) : option RecordResult :=
  if Empty id then None
  else match l_ops l !! id with
       | None => None
       | Some r => Some (op_rec r, op_err r)
       end.

Definition store (id : OperationID) (rec : option ClaimRecord) (err : option error)
    (l : Local) : Local :=
  if Empty id then l
  else mkLocal (l_claims l) (l_gens l) (<[id := mkOpResult rec err]> (l_ops l)).

Definition advanceLocal (cur : FencingToken) : FencingToken * option error :=
  if bool_decide (MaxSafeFencingToken <= cur) then (cur, Some (Sentinel ErrTokenOverflow))
  else (u64 (cur + 1), None).

(** ** Generations *)

Definition RegisterGeneration (gen : Generation) (l : Local) : Local :=
  mkLocal (l_claims l) (<[ID gen := gen]> (l_gens l)) (l_ops l).

Definition UpdateGeneration (gen : Generation) (l : Local) : Local :=
  RegisterGeneration gen l.

Definition GetGeneration (id : string) (l : Local) : option Generation * option error :=
  match l_gens l !! id with
  | None => (None, Some (Sentinel ErrGenerationNotFound))
  | Some g => (Some g, None)
  end.

(** ** Claims *)

Definition expire (now : Time) (cl : ClaimRecord) : ClaimRecord :=
  if IsZero (ExpiresAt cl) || Before now (ExpiresAt cl) then cl
  else if bool_decide (Phase cl = ClaimOwned) || bool_decide (Phase cl = ClaimReserved)
          || bool_decide (Phase cl = ClaimDraining) then
    cl |> set_PreviousOwner (OwnerGeneration cl)
       |> set_OwnerGeneration ""
       |> set_PendingSuccessor ""
       |> set_Phase ClaimUnowned
       |> set_CReason ReasonExpired
       |> bump_Version
  else cl.

Definition GetClaim (env : Env) (name : string) (l : Local) : Local * RecordResult :=
  match l_claims l !! name with
  | None => (l, (None, Some (Sentinel ErrClaimNotFound)))
  | Some cl =>
      let cl := expire (env_t1 env) cl in
      (put name cl l, (Some cl, None))
  end.

Definition AcquireClaim (env : Env) (req : AcquireRequest) (l : Local) :
    Local * RecordResult :=
  match recall (acq_OperationID req) l with
  | Some r => (l, r)
  | None =>
    let cl := match l_claims l !! acq_ClaimName req with
              | Some cl => cl
              | None => unowned_record (acq_ClaimName req)
              end in
    let cl := expire (env_t1 env) cl in
    let l := put (acq_ClaimName req) cl l in
    let now := env_t2 env in
    if bool_decide (Phase cl = ClaimOwned) || bool_decide (Phase cl = ClaimReserved)
       || bool_decide (Phase cl = ClaimDraining) then
      if decide (OwnerGeneration cl = acq_GenerationID req) then
        let cl := cl |> set_ExpiresAt (Add now (acq_TTL req))
                     |> set_LastHeartbeat now
                     |> set_CReason ReasonRenewed
                     |> bump_Version in
        let l := put (acq_ClaimName req) cl l in
        (store (acq_OperationID req) (Some cl) None l, (Some cl, None))
      else
        (store (acq_OperationID req) (Some cl) (Some (Sentinel ErrClaimHeld)) l,
         (Some cl, Some (Sentinel ErrClaimHeld)))
    else
      match advanceLocal (FencingTokenOf cl) with
      | (_, Some err) =>
          (store (acq_OperationID req) None (Some err) l, (None, Some err))
      | (next, None) =>
          let cl := cl |> set_OwnerGeneration (acq_GenerationID req)
                       |> set_FencingToken next
                       |> set_Phase ClaimOwned
                       |> set_AcquiredAt now
                       |> set_ExpiresAt (Add now (acq_TTL req))
                       |> set_LastHeartbeat now
                       |> set_CReason ReasonAcquired
                       |> bump_Version in
          let l := put (acq_ClaimName req) cl l in
          (store (acq_OperationID req) (Some cl) None l, (Some cl, None))
      end
  end.

(** The claim a call works on: looked up, then expired in place. *)
Definition with_claim {R} (env : Env) (n : string) (l : Local) (missing : R)
    (body : ClaimRecord -> Local -> Local * R) : Local * R :=
  match l_claims l !! n with
  | None => (l, missing)
  | Some cl =>
      let cl := expire (env_t1 env) cl in
      body cl (put n cl l)
  end.

Definition RenewClaim (env : Env) (req : RenewRequest) (l : Local) :
    Local * RecordResult :=
  match recall (ren_OperationID req) l with
  | Some r => (l, r)
  | None =>
    with_claim env (ren_ClaimName req) l (None, Some (Sentinel ErrClaimNotFound))
      (λ cl l,
      if decide (OwnerGeneration cl ≠ ren_GenerationID req) then
        (l, (None, Some (Sentinel ErrNotOwner)))
      else if decide (FencingTokenOf cl ≠ ren_Token req) then
        (l, (None, Some (Sentinel ErrStaleToken)))
      else if decide (Phase cl ≠ ClaimOwned ∧ Phase cl ≠ ClaimDraining ∧
                      Phase cl ≠ ClaimReserved) then
        (l, (None, Some (Sentinel ErrNotOwner)))
      else
        let now := env_t2 env in
        let cl := cl |> set_ExpiresAt (Add now (ren_TTL req))
                     |> set_LastHeartbeat now
                     |> set_CReason ReasonRenewed
                     |> bump_Version in
        let l := put (ren_ClaimName req) cl l in
        (store (ren_OperationID req) (Some cl) None l, (Some cl, None)))
  end.

Definition PrepareTransfer (env : Env) (req : TransferRequest) (l : Local) :
    Local * RecordResult :=
  match recall (tr_OperationID req) l with
  | Some r => (l, r)
  | None =>
    with_claim env (tr_ClaimName req) l (None, Some (Sentinel ErrClaimNotFound))
      (λ cl l,
      if decide (OwnerGeneration cl ≠ tr_FromGeneration req) then
        (l, (None, Some (Sentinel ErrNotOwner)))
      else if decide (FencingTokenOf cl ≠ tr_Token req) then
        (l, (None, Some (Sentinel ErrStaleToken)))
      else if decide (Phase cl = ClaimReserved ∧ PendingSuccessor cl ≠ "" ∧
                      PendingSuccessor cl ≠ tr_ToGeneration req) then
        (l, (None, Some (Sentinel ErrConcurrentTransfer)))
      else if decide (Phase cl = ClaimReserved ∧
                      PendingSuccessor cl = tr_ToGeneration req) then
        (store (tr_OperationID req) (Some cl) None l, (Some cl, None))
      else
        let now := env_t2 env in
        let cl := cl |> set_Phase ClaimReserved
                     |> set_PendingSuccessor (tr_ToGeneration req)
                     |> set_TransferStatus "prepared"
                     |> set_DrainStatus "complete"
                     |> set_ExpiresAt (Add now (tr_TTL req))
                     |> set_LastHeartbeat now
                     |> set_CReason ReasonTransferPrepared
                     |> bump_Version in
        let l := put (tr_ClaimName req) cl l in
        (store (tr_OperationID req) (Some cl) None l, (Some cl, None)))
  end.

Definition CommitTransfer (env : Env) (req : CommitRequest) (l : Local) :
    Local * RecordResult :=
  match recall (com_OperationID req) l with
  | Some r => (l, r)
  | None =>
    with_claim env (com_ClaimName req) l (None, Some (Sentinel ErrClaimNotFound))
      (λ cl l,
      if decide (Phase cl = ClaimOwned ∧ OwnerGeneration cl = com_ToGeneration req ∧
                 FencingTokenOf cl = u64 (com_ExpectedToken req + 1) ∧
                 TransferStatus cl = "committed") then
        (store (com_OperationID req) (Some cl) None l, (Some cl, None))
      else if decide (Phase cl ≠ ClaimReserved) then
        (l, (None, Some (Sentinel ErrNoTransfer)))
      else if decide (OwnerGeneration cl ≠ com_FromGeneration req ∨
                      PendingSuccessor cl ≠ com_ToGeneration req) then
        (l, (None, Some (Sentinel ErrConcurrentTransfer)))
      else if decide (FencingTokenOf cl ≠ com_ExpectedToken req) then
        (l, (None, Some (Sentinel ErrStaleToken)))
      else
        match advanceLocal (FencingTokenOf cl) with
        | (_, Some err) =>
            (store (com_OperationID req) None (Some err) l, (None, Some err))
        | (next, None) =>
            let now := env_t2 env in
            let cl := cl |> set_PreviousOwner (OwnerGeneration cl)
                         |> set_OwnerGeneration (com_ToGeneration req)
                         |> set_FencingToken next
                         |> set_Phase ClaimOwned
                         |> set_PendingSuccessor ""
                         |> set_TransferStatus "committed"
                         |> set_DrainStatus ""
                         |> set_AcquiredAt now
                         |> set_ExpiresAt (Add now (com_TTL req))
                         |> set_LastHeartbeat now
                         |> set_CReason ReasonTransferCommitted
                         |> bump_Version in
            let l := put (com_ClaimName req) cl l in
            (store (com_OperationID req) (Some cl) None l, (Some cl, None))
        end)
  end.

Definition AbortTransfer (env : Env) (req : AbortRequest) (l : Local) :
    Local * RecordResult :=
  match recall (ab_OperationID req) l with
  | Some r => (l, r)
  | None =>
    with_claim env (ab_ClaimName req) l (None, Some (Sentinel ErrClaimNotFound))
      (λ cl l,
      if decide (Phase cl ≠ ClaimReserved) then
        if decide (OwnerGeneration cl = ab_FromGeneration req ∧ Phase cl = ClaimOwned)
        then (store (ab_OperationID req) (Some cl) None l, (Some cl, None))
        else (l, (None, Some (Sentinel ErrNoTransfer)))
      else if decide (FencingTokenOf cl ≠ ab_ExpectedToken req) then
        (l, (None, Some (Sentinel ErrStaleToken)))
      else if decide (OwnerGeneration cl ≠ ab_FromGeneration req) then
        (l, (None, Some (Sentinel ErrNotOwner)))
      else
        let cl := cl |> set_PendingSuccessor ""
                     |> set_Phase ClaimOwned
                     |> set_TransferStatus "aborted"
                     |> set_CReason ReasonTransferAborted
                     |> bump_Version in
        let l := put (ab_ClaimName req) cl l in
        (store (ab_OperationID req) (Some cl) None l, (Some cl, None)))
  end.

Definition ReleaseClaim (env : Env) (req : ReleaseRequest) (l : Local) :
    Local * option error :=
  match recall (rel_OperationID req) l with
  | Some (_, e) => (l, e)
  | None =>
    with_claim env (rel_ClaimName req) l (Some (Sentinel ErrClaimNotFound))
      (λ cl l,
      if decide (FencingTokenOf cl ≠ rel_Token req) then
        (l, Some (Sentinel ErrStaleToken))
      else if decide (OwnerGeneration cl ≠ rel_GenerationID req) then
        if decide (Phase cl = ClaimUnowned)
        then (store (rel_OperationID req) None None l, None)
        else (l, Some (Sentinel ErrNotOwner))
      else
        let cl := cl |> set_PreviousOwner (OwnerGeneration cl)
                     |> set_OwnerGeneration ""
                     |> set_PendingSuccessor ""
                     |> set_Phase ClaimUnowned
                     |> set_CReason ReasonReleased
                     |> bump_Version in
        let l := put (rel_ClaimName req) cl l in
        (store (rel_OperationID req) (Some cl) None l, None))
  end.

Definition ForceSetToken (claimName : string) (tok : FencingToken) (l : Local) : Local :=
  let cl := default (unowned_record claimName) (l_claims l !! claimName) in
  put claimName
    (cl |> set_FencingToken tok |> set_Phase ClaimUnowned |> set_OwnerGeneration "") l.

#[global] Instance local_ops : BackendOps Local := {|
  do_Acquire := AcquireClaim; do_Renew := RenewClaim; do_Prepare := PrepareTransfer;
  do_Commit := CommitTransfer; do_Abort := AbortTransfer; do_Release := ReleaseClaim;
  do_Register := fun _ g l => (RegisterGeneration g l, None);
  do_Update := fun _ g l => (UpdateGeneration g l, None);
  claim_at := fun l n => l_claims l !! n;
  op_seen := fun l id => match recall id l with Some _ => true | None => false end |}.

(** * Facts *)

Lemma l_claims_store id r e l : l_claims (store id r e l) = l_claims l.
Proof. unfold store. by case_match. Qed.

Lemma local_held_test p :
  bool_decide (p = ClaimOwned) || bool_decide (p = ClaimReserved)
  || bool_decide (p = ClaimDraining) = held_phase p.
Proof. by destruct p. Qed.

Definition local_inv (l : Local) : Prop := store_inv (l_claims l).

Abbreviation effect n l l' := (store_effect n (l_claims l) (l_claims l')).

(** ** Expiry *)

Lemma local_expire_cases t cl :
  expire t cl = cl \/
  held (cell_of_record cl) /\ cell_of_record (expire t cl) = expired_cell (cell_of_record cl).
Proof.
  unfold expire, held. case_match; [by left |]. rewrite local_held_test.
  destruct (held_phase_spec (Phase cl)); [by right | by left].
Qed.

Lemma local_expire_steps t cl :
  steps cell_trans (cell_of_record cl) (cell_of_record (expire t cl)).
Proof. destruct (local_expire_cases t cl) as [->|[Hh ->]]; eauto with shiftlock. Qed.

Lemma local_expire_name t cl : Name (expire t cl) = Name cl.
Proof. unfold expire. by repeat case_match. Qed.

Lemma local_expire_token t cl : FencingTokenOf (expire t cl) = FencingTokenOf cl.
Proof. unfold expire. by repeat case_match. Qed.

(** ** Effects of the methods *)

(** The state a body starts from: the claim has been expired in place. *)
Record local_at (n : string) (l0 l : Local) (cl : ClaimRecord) : Prop := mkLocalAt {
  la_effect : effect n l0 l;
  la_claim : l_claims l !! n = Some cl }.

Lemma local_at_wf n l0 l cl : local_at n l0 l cl -> cell_wf (cell_of_record cl).
Proof. intros [H E]. by destruct (ef_inv _ _ _ H _ _ E). Qed.

Lemma local_at_expired t n cl l :
  local_inv l -> l_claims l !! n = Some cl -> local_at n l (put n (expire t cl) l) (expire t cl).
Proof.
  intros Hi E. split; [|apply lookup_insert_eq]. apply store_effect_insert; [done | |].
  - rewrite local_expire_name. by destruct (Hi _ _ E).
  - rewrite E. apply local_expire_steps.
Qed.

Lemma local_with_claim {R} env n l (missing : R) body :
  local_inv l ->
  (forall cl l1, local_at n l l1 cl -> effect n l (body cl l1).1) ->
  effect n l (with_claim env n l missing body).1.
Proof.
  intros Hi Hb. unfold with_claim. destruct (l_claims l !! n) as [cl|] eqn:E.
  - apply Hb. by apply local_at_expired.
  - by apply store_effect_refl.
Qed.

(** The two ways a branch ends: the claim stays, or it is replaced by a record
    its cell can step to. *)
Ltac local_keep := cbn [fst]; rewrite ?l_claims_store; by eapply la_effect.

Ltac local_replace Hat :=
  cbn [fst]; rewrite l_claims_store; eapply store_effect_replace;
    [apply (la_effect _ _ _ _ Hat) | apply (la_claim _ _ _ _ Hat) | reflexivity |].

Lemma local_acquire_effect env req l :
  local_inv l -> acq_GenerationID req ≠ "" ->
  effect (acq_ClaimName req) l (AcquireClaim env req l).1.
Proof.
  intros Hi Hg. unfold AcquireClaim. set (n := acq_ClaimName req).
  destruct (recall _ l); [by apply store_effect_refl |].
  set (cl0 := match l_claims l !! n with Some cl => cl | None => unowned_record n end).
  assert (local_at n l (put n (expire (env_t1 env) cl0) l) (expire (env_t1 env) cl0)) as Hat.
  { unfold cl0. destruct (l_claims l !! n) as [cl|] eqn:E; [by apply local_at_expired |].
    split; [|apply lookup_insert_eq].
    apply store_effect_insert; [done | reflexivity |]. rewrite E. constructor. }
  pose proof (local_at_wf _ _ _ _ Hat) as Hw.
  set (cl := expire (env_t1 env) cl0) in *. clearbody cl. rewrite local_held_test.
  destruct (held_phase_spec (Phase cl)) as [Hp|Hp]; [case_decide |].
  - local_replace Hat. constructor.
  - local_keep.
  - apply dec_stable in Hp.
    destruct (advanceLocal _) as [next [err|]] eqn:Ea; [local_keep |].
    apply next_token_ok in Ea as [Ht ->]; [|apply Hw]. local_replace Hat. cell_simpl.
    replace (PendingSuccessor cl) with "" by
      (symmetry; apply (wf_nosucc _ Hw); simpl; rewrite Hp; done).
    by eapply cell_step_steps, (cell_acquire (mkCell _ _ _ _)).
Qed.

Lemma local_renew_effect env req l :
  local_inv l -> effect (ren_ClaimName req) l (RenewClaim env req l).1.
Proof.
  intros Hi. unfold RenewClaim. destruct (recall _ l); [by apply store_effect_refl |].
  apply local_with_claim; [done |]. intros cl l1 Hat.
  repeat (case_decide; [local_keep |]). local_replace Hat. constructor.
Qed.

Lemma local_prepare_effect env req l :
  local_inv l -> tr_FromGeneration req ≠ "" -> tr_ToGeneration req ≠ "" ->
  effect (tr_ClaimName req) l (PrepareTransfer env req l).1.
Proof.
  intros Hi Hf Ht. unfold PrepareTransfer. destruct (recall _ l); [by apply store_effect_refl |].
  apply local_with_claim; [done |]. intros cl l1 Hat.
  pose proof (local_at_wf _ _ _ _ Hat) as Hw.
  repeat (case_decide; [local_keep |]). local_replace Hat.
  cell_step_by cell_reserve; [| |done]; unfold held; simpl; intros Hp.
  - pose proof (wf_unowned _ Hw Hp). simpl in *. congruence.
  - pose proof (wf_reserved _ Hw Hp). simpl in *.
    destruct (decide (PendingSuccessor cl = tr_ToGeneration req)); tauto.
Qed.

Lemma local_commit_effect env req l :
  local_inv l -> effect (com_ClaimName req) l (CommitTransfer env req l).1.
Proof.
  intros Hi. unfold CommitTransfer. destruct (recall _ l); [by apply store_effect_refl |].
  apply local_with_claim; [done |]. intros cl l1 Hat.
  pose proof (local_at_wf _ _ _ _ Hat) as Hw.
  do 4 (case_decide; [local_keep |]).
  destruct (advanceLocal _) as [next [err|]] eqn:Ea; [local_keep |].
  apply next_token_ok in Ea as [Ht ->]; [|apply Hw]. local_replace Hat.
  assert (PendingSuccessor cl = com_ToGeneration req) as Hs by (apply dec_stable; tauto).
  rewrite <- Hs. by cell_step_by cell_commit.
Qed.

Lemma local_abort_effect env req l :
  local_inv l -> effect (ab_ClaimName req) l (AbortTransfer env req l).1.
Proof.
  intros Hi. unfold AbortTransfer. destruct (recall _ l); [by apply store_effect_refl |].
  apply local_with_claim; [done |]. intros cl l1 Hat.
  case_decide as Hp; [case_decide; local_keep |].
  do 2 (case_decide; [local_keep |]). local_replace Hat. by cell_step_by cell_abort.
Qed.

Lemma local_release_effect env req l :
  local_inv l -> rel_GenerationID req ≠ "" ->
  effect (rel_ClaimName req) l (ReleaseClaim env req l).1.
Proof.
  intros Hi Hg. unfold ReleaseClaim. destruct (recall _ l) as [[]|]; [by apply store_effect_refl |].
  apply local_with_claim; [done |]. intros cl l1 Hat.
  pose proof (local_at_wf _ _ _ _ Hat) as Hw.
  case_decide; [local_keep |]. case_decide; [case_decide; local_keep |]. local_replace Hat.
  cell_step_by cell_release. intros Hp. pose proof (wf_unowned _ Hw Hp). simpl in *. congruence.
Qed.

Lemma local_request_effect env rq l :
  local_inv l -> rq_valid rq -> effect (rq_claim rq) l (do_request env rq l).1.
Proof.
  intros Hi Hv. destruct rq as [r|r|r|r|r|r]; simpl in *.
  - by apply local_acquire_effect.
  - by apply local_renew_effect.
  - by apply local_prepare_effect; try apply Hv.
  - by apply local_commit_effect.
  - by apply local_abort_effect.
  - pose proof (local_release_effect env r l Hi Hv). by destruct (ReleaseClaim env r l).
Qed.

(** ** Stored results *)

Lemma local_lookup_store id id' r e l :
  id' ≠ id -> l_ops (store id r e l) !! id' = l_ops l !! id'.
Proof. intros Hn. unfold store. case_match; simpl; [done |]. by rewrite lookup_insert_ne. Qed.

Ltac local_ops_other :=
  repeat (case_match; cbn [fst]; try done); by rewrite ?local_lookup_store.

Lemma local_ops_kept env rq l id :
  id ≠ rq_op rq -> l_ops (do_request env rq l).1 !! id = l_ops l !! id.
Proof.
  intros Hn. destruct rq as [r|r|r|r|r|r]; simpl in *.
  - unfold AcquireClaim. local_ops_other.
  - unfold RenewClaim, with_claim. local_ops_other.
  - unfold PrepareTransfer, with_claim. local_ops_other.
  - unfold CommitTransfer, with_claim. local_ops_other.
  - unfold AbortTransfer, with_claim. local_ops_other.
  - assert (l_ops (ReleaseClaim env r l).1 !! id = l_ops l !! id) as H
      by (unfold ReleaseClaim, with_claim; local_ops_other).
    by destruct (ReleaseClaim env r l).
Qed.

Lemma local_fresh id (l : Local) : fresh l id -> recall id l = None.
Proof. unfold fresh. simpl. by destruct (recall id l). Qed.

(** A successful body run on an existing claim. *)
Lemma local_with_claim_ok {A} env n l (missing : option A * option error) body l' r :
  missing.2 ≠ None ->
  with_claim env n l missing body = (l', (r, None)) ->
  exists cl, l_claims l !! n = Some cl /\
    body (expire (env_t1 env) cl) (put n (expire (env_t1 env) cl) l) = (l', (r, None)).
Proof.
  intros Hm. unfold with_claim. destruct (l_claims l !! n) as [cl|]; [by exists cl |].
  intros [= _ Hm2]. by rewrite Hm2 in Hm.
Qed.

Ltac local_claim := simpl; rewrite l_claims_store; apply lookup_insert_eq.

Lemma local_acquire_ok env req l l' rec :
  fresh l (acq_OperationID req) -> AcquireClaim env req l = (l', (Some rec, None)) ->
  l_claims l' !! acq_ClaimName req = Some rec /\ OwnerGeneration rec = acq_GenerationID req.
Proof.
  intros Hf E. unfold AcquireClaim in E. rewrite (local_fresh _ _ Hf) in E.
  set (cl := expire _ _) in E. clearbody cl.
  case_match; [case_decide; [|done] | case_match; case_match; [done |]];
    simplify_eq; split; done || local_claim.
Qed.

Lemma local_prepare_ok env req l l' rec :
  fresh l (tr_OperationID req) -> PrepareTransfer env req l = (l', (Some rec, None)) ->
  l_claims l' !! tr_ClaimName req = Some rec /\
  cell_of_record rec =
    mkCell (tr_FromGeneration req) (tr_Token req) ClaimReserved (tr_ToGeneration req).
Proof.
  intros Hf E. unfold PrepareTransfer in E. rewrite (local_fresh _ _ Hf) in E.
  apply local_with_claim_ok in E as (cl0 & _ & E); [|done].
  set (cl := expire _ _) in E. clearbody cl.
  do 3 (case_decide; [done |]). case_decide as Hp; simplify_eq; cell_simpl.
  - destruct Hp. split; [local_claim | congruence].
  - split; [local_claim | congruence].
Qed.

Lemma local_commit_ok env req l l' rec :
  fresh l (com_OperationID req) -> CommitTransfer env req l = (l', (Some rec, None)) ->
  l_claims l' !! com_ClaimName req = Some rec /\
  OwnerGeneration rec = com_ToGeneration req /\ Phase rec = ClaimOwned /\
  FencingTokenOf rec = u64 (com_ExpectedToken req + 1).
Proof.
  intros Hf E. unfold CommitTransfer in E. rewrite (local_fresh _ _ Hf) in E.
  apply local_with_claim_ok in E as (cl0 & _ & E); [|done].
  set (cl := expire _ _) in E. clearbody cl.
  case_decide as Hd; [simplify_eq; split; [local_claim |]; tauto |].
  do 3 (case_decide; [done |]). destruct (advanceLocal _) as [next [?|]] eqn:Ea; [done |].
  simplify_eq. split; [local_claim |]. split; [done |]. split; [done |].
  unfold advanceLocal in Ea. case_bool_decide; simplify_eq. cell_simpl. congruence.
Qed.

Lemma local_abort_ok env req l l' rec :
  fresh l (ab_OperationID req) -> AbortTransfer env req l = (l', (Some rec, None)) ->
  l_claims l' !! ab_ClaimName req = Some rec /\
  OwnerGeneration rec = ab_FromGeneration req /\ Phase rec = ClaimOwned /\
  FencingTokenOf rec = c_token (cell_at l (ab_ClaimName req)).
Proof.
  intros Hf E. unfold AbortTransfer in E. rewrite (local_fresh _ _ Hf) in E.
  apply local_with_claim_ok in E as (cl0 & Ecl & E); [|done].
  unfold cell_at. simpl. rewrite Ecl. simpl. rewrite <- (local_expire_token (env_t1 env) cl0).
  set (cl := expire _ _) in *. clearbody cl.
  case_decide; [case_decide as Hd; [|done] | do 2 (case_decide; [done |])]; simplify_eq.
  - split; [local_claim |]. tauto.
  - split; [local_claim |]. done.
Qed.

(** [Local] meets the contract of [backend.go]. *)
#[global] Instance local_laws : BackendLaws Local.
Proof.
  refine {| be_inv := local_inv : Local -> Prop |}.
  - intros l n. apply store_inv_cell.
  - intros env rq s s' r Hi Hv E. pose proof (local_request_effect env rq s Hi Hv) as H.
    rewrite E in H. by destruct H.
  - intros env rq s s' r id E Hn. pose proof (local_ops_kept env rq s id Hn) as H.
    rewrite E in H. simpl in *. unfold recall. by rewrite H.
  - by intros env g s f [->| ->] Hi.
  - intros env req s s' rec _ _. apply local_acquire_ok.
  - intros env req s s' rec _ _. apply local_prepare_ok.
  - intros env req s s' rec _. apply local_commit_ok.
  - intros env req s s' rec _. apply local_abort_ok.
Defined.

(** ** Safety *)

Lemma local_inv_New : local_inv NewLocal.
Proof. apply map_Forall_empty. Qed.

Lemma local_cell_at (l : Local) n r : l_claims l !! n = Some r -> cell_at l n = cell_of_record r.
Proof. intros E. unfold cell_at. simpl. by rewrite E. Qed.

(** The local Redis backend serialises owners.  In any execution of valid
    requests from [NewLocal], a claim's token never decreases and stays in
    range, and two states in which the claim is held with the same token have
    the same owner. *)
Theorem local_single_holder l1 l2 n r1 r2 :
  steps backend_step NewLocal l1 -> steps backend_step l1 l2 ->
  l_claims l1 !! n = Some r1 -> l_claims l2 !! n = Some r2 ->
  FencingTokenOf r1 <= FencingTokenOf r2 <= MaxSafeFencingToken /\
  (Phase r2 ≠ ClaimUnowned -> FencingTokenOf r1 = FencingTokenOf r2 ->
   Phase r1 ≠ ClaimUnowned /\ OwnerGeneration r1 = OwnerGeneration r2).
Proof.
  intros H1 H2 E1 E2.
  pose proof (backend_steps_inv _ _ (local_inv_New : be_inv NewLocal) H1) as Hi1.
  pose proof (backend_steps_inv _ _ Hi1 H2) as Hi2.
  pose proof (backend_steps_epoch _ _ n Hi1 H2) as [Ht Hh].
  rewrite (local_cell_at _ _ _ E1), (local_cell_at _ _ _ E2) in *. simpl in *.
  destruct (Hi2 _ _ E2) as [_ [[_ Hmax] _ _ _ _]]. simpl in Hmax.
  split; [done |]. intros Hp Heq. by apply Hh.
Qed.

Definition lenv (t : Time) : Env := mkEnv None t t t.
Definition l_acq (g op : string) := mkAcquire "leader" g (10 * Second) false op.
Definition l_owned : Local := (AcquireClaim (lenv 5) (l_acq "a" "op-a") NewLocal).1.
Definition l_reserved : Local :=
  (PrepareTransfer (lenv 6) (mkTransfer "leader" "a" "b" 1 (10 * Second) "op-p") l_owned).1.

Lemma local_single_holder_witness :
  exists r1 r2, l_claims l_owned !! "leader" = Some r1 /\
    l_claims l_reserved !! "leader" = Some r2 /\ OwnerGeneration r1 = OwnerGeneration r2.
Proof.
  eexists _, _. split; [vm_compute; reflexivity |]. split; [vm_compute; reflexivity |].
  eapply (local_single_holder l_owned l_reserved "leader");
    [| | vm_compute; reflexivity | vm_compute; reflexivity | done | reflexivity].
  - apply steps_one. exists (lenv 5), (RqAcquire (l_acq "a" "op-a")), (l_claims l_owned !! "leader", None).
    split; [done | vm_compute; reflexivity].
  - apply steps_one. exists (lenv 6),
      (RqPrepare (mkTransfer "leader" "a" "b" 1 (10 * Second) "op-p")),
      (l_claims l_reserved !! "leader", None).
    split; [done | vm_compute; reflexivity].
Defined.

(** A commit can confirm a handoff that never happened.  Neither expiry nor
    [AcquireClaim] resets [TransferStatus], so when an unowned claim whose last
    handoff was committed is acquired by [g], a [CommitTransfer] to [g] that
    expects the previous token is answered with success, although no transfer
    was prepared since. *)
Theorem local_phantom_commit env envc req com l cl :
  l_claims l !! acq_ClaimName req = Some cl ->
  Phase cl = ClaimUnowned -> TransferStatus cl = "committed" ->
  0 <= FencingTokenOf cl < MaxSafeFencingToken ->
  fresh l (acq_OperationID req) -> fresh l (com_OperationID com) ->
  com_OperationID com ≠ acq_OperationID req ->
  com_ClaimName com = acq_ClaimName req -> com_ToGeneration com = acq_GenerationID req ->
  com_ExpectedToken com = FencingTokenOf cl ->
  env_t1 envc < Add (env_t2 env) (acq_TTL req) ->
  exists l1 rec, AcquireClaim env req l = (l1, (Some rec, None)) /\
    FencingTokenOf rec = FencingTokenOf cl + 1 /\ PendingSuccessor rec = PendingSuccessor cl /\
    (CommitTransfer envc com l1).2 = (Some rec, None).
Proof.
  intros E Hp Hts Htok Hfa Hfc Hids Hn Hto Hk Hlive.
  assert (expire (env_t1 env) cl = cl) as Hexp
    by (unfold expire; rewrite Hp; by case_match).
  assert (advanceLocal (FencingTokenOf cl) = (FencingTokenOf cl + 1, None)) as Ha.
  { unfold advanceLocal. rewrite bool_decide_eq_false_2 by lia. f_equal.
    apply u64_small. unfold is_u64. rewrite MaxSafe_value in Htok. lia. }
  assert (recall (com_OperationID com) (AcquireClaim env req l).1 = None) as Hrc.
  { pose proof (local_ops_kept env (RqAcquire req) l _ Hids) as Ho.
    unfold recall. simpl in Ho. rewrite Ho. by apply local_fresh. }
  unfold AcquireClaim in *. rewrite (local_fresh _ _ Hfa), E, Hexp, Hp in *.
  rewrite local_held_test in *. change (held_phase ClaimUnowned) with false in *.
  cbv iota in *. rewrite Ha in *.
  set (rec := bump_Version _) in *.
  assert (Phase rec = ClaimOwned /\ OwnerGeneration rec = com_ToGeneration com /\
    FencingTokenOf rec = FencingTokenOf cl + 1 /\ TransferStatus rec = "committed" /\
    PendingSuccessor rec = PendingSuccessor cl /\
    ExpiresAt rec = Add (env_t2 env) (acq_TTL req)) as (Rp & Ro & Rt & Rs & Rn & Re)
    by (unfold rec; rewrite Hto; repeat split; exact Hts).
  clearbody rec. eexists _, rec. split; [reflexivity |]. split; [done |]. split; [done |].
  unfold CommitTransfer. cbn [fst] in Hrc. rewrite Hrc. unfold with_claim.
  rewrite Hn, l_claims_store. simpl. rewrite lookup_insert_eq.
  assert (expire (env_t1 envc) rec = rec) as ->.
  { unfold expire, Before. rewrite Re, (bool_decide_eq_true_2 (_ < _)) by done.
    by rewrite orb_true_r. }
  rewrite decide_True; [done |]. rewrite Rp, Ro, Rt, Rs, Hk. split; [done |]. split; [done |].
  split; [|done]. symmetry. apply u64_small. unfold is_u64. rewrite MaxSafe_value in Htok. lia.
Qed.

(** ["b"] received the claim in a handoff, let it expire, and ["c"] acquires it. *)
Definition l_lapsed : Local :=
  (GetClaim (lenv (60 * Second)) "leader"
    (CommitTransfer (lenv 7) (mkCommit "leader" "a" "b" 1 (10 * Second) "op-c") l_reserved).1).1.

Lemma local_phantom_commit_witness :
  exists l1 rec,
    AcquireClaim (lenv (61 * Second)) (l_acq "c" "op-a2") l_lapsed = (l1, (Some rec, None)) /\
    (CommitTransfer (lenv (62 * Second))
       (mkCommit "leader" "zz" "c" 2 (10 * Second) "op-x") l1).2 = (Some rec, None).
Proof.
  assert (l_claims l_lapsed !! "leader" =
    Some (default (unowned_record "") (l_claims l_lapsed !! "leader"))) as E
    by (vm_compute; reflexivity).
  destruct (local_phantom_commit (lenv (61 * Second)) (lenv (62 * Second))
    (l_acq "c" "op-a2") (mkCommit "leader" "zz" "c" 2 (10 * Second) "op-x") l_lapsed _ E
    ltac:(by_eval) ltac:(by_eval) ltac:(by_eval) ltac:(by_eval) ltac:(by_eval)
    ltac:(by_eval) ltac:(by_eval) ltac:(by_eval) ltac:(by_eval) ltac:(by_eval))
    as (l1 & rec & H1 & _ & _ & H2).
  exists l1, rec. split; assumption.
Defined.
