(* ===== verification/Fencing.v ===== *)
(** * Fencing tokens ([fencing.go], [fencing/memory/memory.go])

    [TokenValidator.Accept] is a compare-and-swap loop that any number of
    goroutines run at once: it is modelled one atomic access at a time, as a
    step relation over a shared counter and a list of callers.  [Resource] is
    the fenced store of [fencing/memory].  The last section joins a resource to
    any backend that meets the contract of [BackendSpec]: a generation that was
    replaced cannot write any more. *)

From S2P Require Import Prelude Types BackendSpec MemoryBackend MemorySafety.

(** ** The validator *)

(** Where a call of [Accept(tok)] is: before the atomic load of an iteration
    (after [k] failed swaps), after it with the value it read, or returned. *)
Inductive accept_pc :=
| AcceptStart (tok : FencingToken) (k : nat)
| AcceptLoaded (tok : FencingToken) (cur : Z) (k : nat)
| AcceptDone (tok : FencingToken) (ok : bool).

#[global] Instance accept_pc_eq_dec : EqDecision accept_pc.
Proof. solve_decision. Defined.

Record TokenValidator := mkValidator {
  current : Z; callers : list accept_pc }.

Definition NewTokenValidator : TokenValidator := mkValidator 0 [].

Definition Current (v : TokenValidator) : FencingToken := current v.

(** The next atomic access of one caller, and the counter after it. *)
Definition Accept_step (cur : Z) (p : accept_pc) : Z * accept_pc :=
  match p with
  | AcceptStart tok k =>
      if Zero tok then (cur, AcceptDone tok false) else (cur, AcceptLoaded tok cur k)
  | AcceptLoaded tok c k =>
      if bool_decide (tok < c) then (cur, AcceptDone tok false)
      else if bool_decide (tok = c) then (cur, AcceptDone tok true)
      else if bool_decide (cur = c) then (tok, AcceptDone tok true)
      else (cur, AcceptStart tok (S k))
  | AcceptDone tok ok => (cur, AcceptDone tok ok)
  end.

(** A call starts, or a caller makes its next access. *)
Inductive validator_step : TokenValidator -> TokenValidator -> Prop :=
| vs_call v tok :
    is_u64 tok ->
    validator_step v (mkValidator (current v) (callers v ++ [AcceptStart tok 0]))
| vs_run v i p :
    callers v !! i = Some p ->
    validator_step v
      (mkValidator (Accept_step (current v) p).1
                   (<[i := (Accept_step (current v) p).2]> (callers v))).

(** [Accept] run without interference. *)
Definition Accept (tok : FencingToken) (v : Z) : Z * bool :=
  let '(v1, p1) := Accept_step v (AcceptStart tok 0) in
  match Accept_step v1 p1 with
  | (v2, AcceptDone _ ok) => (v2, ok)
  | (v2, _) => (v2, false)
  end.

(** ** Facts about the validator *)

(** What a caller knows: the value it read is a lower bound of the counter (by
    at least one per failed swap), and an accepted token is too. *)
Definition pc_ok (cur : Z) (p : accept_pc) : Prop :=
  match p with
  | AcceptStart tok k => 0 <= tok /\ (Z.of_nat k <= tok /\ Z.of_nat k <= cur)
  | AcceptLoaded tok c k =>
      0 < tok /\ Z.of_nat k <= tok /\ Z.of_nat k <= c /\ c <= cur
  | AcceptDone tok ok => ok = true -> 0 < tok <= cur
  end.

Lemma pc_ok_mono cur cur' p : cur <= cur' -> pc_ok cur p -> pc_ok cur' p.
Proof. destruct p; simpl; intuition lia. Qed.

Lemma Accept_step_ok cur p :
  pc_ok cur p ->
  cur <= (Accept_step cur p).1 /\ pc_ok (Accept_step cur p).1 (Accept_step cur p).2.
Proof.
  destruct p as [tok k|tok c k|tok ok]; simpl.
  - unfold Zero. case_bool_decide; simpl; [split; [lia | done] |]. lia.
  - intros Hk. repeat case_bool_decide; simpl; lia || (split; [lia | lia || done]).
  - intros Hk. split; [lia | done].
Qed.

Definition validator_inv (v : TokenValidator) : Prop :=
  0 <= current v /\ Forall (pc_ok (current v)) (callers v).

Lemma validator_step_ok v v' :
  validator_inv v -> validator_step v v' -> validator_inv v' /\ current v <= current v'.
Proof.
  intros [H0 Hf] Hs. destruct Hs as [v tok Htok|v i p Hi]; simpl.
  - split; [|lia]. split; [done |]. apply Forall_app. split; [done |].
    apply Forall_singleton. unfold is_u64 in Htok. simpl. lia.
  - assert (pc_ok (current v) p) as Hp by (eapply Forall_lookup_1; eauto).
    destruct (Accept_step_ok _ _ Hp) as [Hle Hok]. split; [|done]. split; [simpl; lia |].
    apply Forall_insert; [|done]. eapply Forall_impl; [exact Hf |].
    intros q. by apply pc_ok_mono.
Qed.

Lemma validator_inv_New : validator_inv NewTokenValidator.
Proof. split; [done | constructor]. Qed.

Lemma validator_steps_ok v v' :
  steps validator_step v v' -> validator_inv v -> validator_inv v' /\ current v <= current v'.
Proof.
  induction 1 as [|a b c Hab _ IH]; intros Hi; [split; [done | lia] |].
  destruct (validator_step_ok _ _ Hi Hab) as [Hb Hle]. destruct (IH Hb). split; [done | lia].
Qed.

(** A caller that has not yet read the counter when it is at [T], with a smaller
    token, can only be told no. *)
Definition doomed (T tok : Z) (p : accept_pc) : Prop :=
  match p with
  | AcceptStart t _ => t = tok
  | AcceptLoaded t c _ => t = tok /\ T <= c
  | AcceptDone t ok => t = tok /\ ok = false
  end.

Lemma Accept_step_doomed T tok cur p :
  tok < T -> T <= cur -> doomed T tok p -> doomed T tok (Accept_step cur p).2.
Proof.
  intros Ht Hc. destruct p as [t k|t c k|t ok]; simpl; [| |done].
  - intros ->. case_match; simpl; [done | lia].
  - intros [-> HT]. by rewrite bool_decide_eq_true_2 by lia.
Qed.

Lemma doomed_steps T tok v v' i p :
  steps validator_step v v' -> validator_inv v -> tok < T -> T <= current v ->
  callers v !! i = Some p -> doomed T tok p ->
  exists p', callers v' !! i = Some p' /\ doomed T tok p'.
Proof.
  intros Hs. revert p. induction Hs as [|a b c Hab _ IH]; intros p Hi Ht Hc Hp Hd; [eauto |].
  destruct (validator_step_ok _ _ Hi Hab) as [Hb Hle].
  assert (exists q, callers b !! i = Some q /\ doomed T tok q) as (q & Hq & Hdq).
  { destruct Hab as [v t Htok|v j q Hj]; simpl.
    - exists p. split; [by apply lookup_app_l_Some | done].
    - destruct (decide (i = j)) as [->|Hn].
      + simplify_eq. eexists. split; [by eapply list_lookup_insert_eq, lookup_lt_Some |].
        by apply Accept_step_doomed.
      + exists p. by rewrite list_lookup_insert_ne. }
  eapply IH; eauto. lia.
Qed.

(** C5: the invariant of [Accept] under any interleaving of concurrent calls.
    The counter never decreases; and once a call has returned true for [T], a
    call with an older token that had not read the counter by then can only
    return false, whatever the other callers do. *)
Theorem accept_linearizable v1 v2 i j T tok k :
  steps validator_step NewTokenValidator v1 -> steps validator_step v1 v2 ->
  callers v1 !! i = Some (AcceptDone T true) ->
  callers v1 !! j = Some (AcceptStart tok k) -> tok < T ->
  current v1 <= current v2 /\ callers v2 !! j ≠ Some (AcceptDone tok true).
Proof.
  intros H1 H2 Hi Hj Ht.
  destruct (validator_steps_ok _ _ H1 validator_inv_New) as [Hv1 _].
  destruct (validator_steps_ok _ _ H2 Hv1) as [_ Hle]. split; [done |].
  assert (T <= current v1) as HT.
  { destruct Hv1 as [_ Hf]. by destruct (Forall_lookup_1 _ _ _ _ Hf Hi) as [_ H]. }
  destruct (doomed_steps T tok v1 v2 j _ H2 Hv1 Ht HT Hj) as (p' & Hp' & Hd); [done |].
  rewrite Hp'. intros [= ->]. by destruct Hd.
Qed.

(** Two calls, with tokens 5 and 3: the first completes before the second reads. *)
Definition v_two : TokenValidator := mkValidator 5 [AcceptDone 5 true; AcceptStart 3 0].
Definition v_two_end : TokenValidator := mkValidator 5 [AcceptDone 5 true; AcceptDone 3 false].

Lemma vs_run_to i p v v' :
  callers v !! i = Some p ->
  mkValidator (Accept_step (current v) p).1
    (<[i := (Accept_step (current v) p).2]> (callers v)) = v' ->
  validator_step v v'.
Proof. intros Hi <-. by constructor. Qed.

Lemma v_two_reached : steps validator_step NewTokenValidator v_two.
Proof.
  eapply steps_cons; [apply (vs_call _ 5); by_eval |].
  eapply steps_cons; [apply (vs_call _ 3); by_eval |].
  eapply steps_cons; [by eapply (vs_run_to 0 (AcceptStart 5 0)) |].
  by eapply steps_one, (vs_run_to 0 (AcceptLoaded 5 0 0)).
Qed.

Lemma v_two_finish : steps validator_step v_two v_two_end.
Proof.
  eapply steps_cons; [by eapply (vs_run_to 1 (AcceptStart 3 0)) |].
  by eapply steps_one, (vs_run_to 1 (AcceptLoaded 3 5 0)).
Qed.

Lemma accept_linearizable_witness :
  current v_two <= current v_two_end /\ callers v_two_end !! 1%nat ≠ Some (AcceptDone 3 true).
Proof.
  apply (accept_linearizable v_two v_two_end 0 1 5 3 0 v_two_reached v_two_finish);
    [reflexivity | reflexivity | lia].
Defined.

(** The loop of [Accept] ends.  Every failed compare-and-swap means another
    caller raised the counter, so a call for token [tok] retries at most [tok]
    times under any interleaving; and a call that runs alone returns after one
    iteration, with the answer [tok] is not zero and not older than the counter. *)
Theorem accept_bounded_retries v i tok k :
  steps validator_step NewTokenValidator v ->
  callers v !! i = Some (AcceptStart tok k) ->
  Z.of_nat k <= tok /\ Z.of_nat k <= current v /\
  forall cur, 0 <= cur ->
    Accept tok cur = (if decide (0 < tok /\ cur <= tok) then (tok, true) else (cur, false)).
Proof.
  intros Hs Hi. destruct (validator_steps_ok _ _ Hs validator_inv_New) as [[_ Hf] _].
  pose proof (Forall_lookup_1 _ _ _ _ Hf Hi) as [Ht Hk]. simpl in Hk.
  split; [lia |]. split; [lia |]. intros cur Hcur. unfold Accept. simpl. unfold Zero.
  repeat (case_bool_decide; simpl); case_decide; f_equal; lia || done.
Qed.

Lemma accept_bounded_retries_witness :
  Z.of_nat 0 <= 3 /\ Accept 3 5 = (5, false).
Proof.
  destruct (accept_bounded_retries v_two 1 3 0 v_two_reached eq_refl) as (H & _ & Ha).
  split; [exact H | exact (Ha 5 ltac:(lia))].
Defined.

(** ** A fenced resource ([fencing/memory]) *)

Record Resource := mkResource { token : FencingToken; value : string }.

Definition NewResource : Resource := mkResource 0 "".

Definition ErrStaleFencingToken : error := TextErr "fencing/memory: stale fencing token".

Definition Write (tok : FencingToken) (v : string) (r : Resource) :
    Resource * option error :=
  if Zero tok || Less tok (token r) then (r, Some ErrStaleFencingToken)
  else (mkResource tok v, None).

Definition Read (r : Resource) : string * FencingToken := (value r, token r).

(** A sequence of writes by any callers. *)
Definition write_all (ws : list (FencingToken * string)) (r : Resource) : Resource :=
  fold_left (λ r w, (Write w.1 w.2 r).1) ws r.

Lemma Write_token tok v r : token r <= token (Write tok v r).1.
Proof. unfold Write, Zero, Less. repeat case_bool_decide; simpl; lia. Qed.

Lemma write_all_token ws r : token r <= token (write_all ws r).
Proof.
  revert r. induction ws as [|w ws IH]; intros r; simpl; [lia |].
  pose proof (Write_token w.1 w.2 r). specialize (IH (Write w.1 w.2 r).1). lia.
Qed.

Lemma Write_stale tok v r : tok < token r -> Write tok v r = (r, Some ErrStaleFencingToken).
Proof. intros H. unfold Write, Less. by rewrite (bool_decide_eq_true_2 (_ < _)), orb_true_r. Qed.

(** ** Backend and resource together *)

Lemma holders_ordered {S} `{BackendLaws S} (s1 s2 : S) n :
  be_inv s1 -> steps backend_step s1 s2 ->
  held (cell_at s1 n) -> held (cell_at s2 n) ->
  c_owner (cell_at s1 n) ≠ c_owner (cell_at s2 n) ->
  c_token (cell_at s1 n) < c_token (cell_at s2 n).
Proof.
  intros Hi Hs H1 H2 Hne. destruct (backend_steps_epoch _ _ n Hi Hs) as [Ht Hh].
  destruct (decide (c_token (cell_at s1 n) = c_token (cell_at s2 n))) as [E|]; [|lia].
  by destruct (Hh E H2).
Qed.

(** C6: a replaced owner is fenced out.  For every backend that meets the
    contract: if [n] was held by one generation and is later held by another,
    then once the resource has accepted a write with the new owner's token, a
    write with the old owner's token is refused and leaves the stored value
    alone, whatever other writes happened in between. *)
Theorem replaced_owner_fenced_out {S} `{BackendLaws S} (s1 s2 : S) n r r1 v1 v2 ws :
  be_inv s1 -> steps backend_step s1 s2 ->
  held (cell_at s1 n) -> held (cell_at s2 n) ->
  c_owner (cell_at s1 n) ≠ c_owner (cell_at s2 n) ->
  Write (c_token (cell_at s2 n)) v2 r = (r1, None) ->
  Write (c_token (cell_at s1 n)) v1 (write_all ws r1) =
    (write_all ws r1, Some ErrStaleFencingToken).
Proof.
  intros Hi Hs H1 H2 Hne Hw. pose proof (holders_ordered s1 s2 n Hi Hs H1 H2 Hne) as Hlt.
  apply Write_stale. pose proof (write_all_token ws r1) as Hle.
  unfold Write in Hw. case_match; simplify_eq/=. lia.
Qed.

Lemma backend_step_request (env : Env) (rq : Request) (b b' : Backend) :
  rq_valid rq -> (do_request env rq b).1 = b' -> backend_step b b'.
Proof.
  intros Hv E. exists env, rq, (do_request env rq b).2. split; [done |].
  by rewrite <- E, <- surjective_pairing.
Qed.

Lemma w_moved_requests : steps backend_step w_owned w_moved.
Proof.
  eapply (steps_cons _ _ w_reserved).
  - apply (backend_step_request (wenv 6) (RqPrepare w_prep)); [done | vm_compute; reflexivity].
  - apply steps_one, (backend_step_request (wenv 7) (RqCommit w_commit));
      [done | vm_compute; reflexivity].
Qed.

Lemma replaced_owner_fenced_out_witness :
  Write 1 "late" (mkResource 2 "new") = (mkResource 2 "new", Some ErrStaleFencingToken).
Proof.
  refine (replaced_owner_fenced_out w_owned w_moved "leader" NewResource (mkResource 2 "new")
    "late" "new" [] (reachable_inv _ w_owned_reachable) w_moved_requests _ _ _ _); by_eval.
Defined.
