(* ===== verification/ProtocolModel.v ===== *)
(** * The protocol model of the repository ([model/])

    Package [model] is the repository's own executable model of the ownership
    protocol: a [World], the actions of the protocol, the fifteen invariants and
    a random generator.  It is translated here action by action, including what
    it does on replayed operation identifiers and on generations it does not
    know, and related to the specification of [BackendSpec]. *)

From S2P Require Import Prelude GoStrings Types BackendSpec.

(** ** State ([model/state.go]) *)

Record MGeneration := mkMGen {
  g_ID : string; g_State : GenerationState; g_Paused : bool; g_Connected : bool;
  g_Ready : bool; g_Draining : bool }.

Record opSnap := mkSnap { s_Owner : string; s_Token : Z; s_Phase : ClaimPhase }.

Record MClaim := mkMClaim {
  m_Name : string; m_Owner : string; m_Token : Z; m_Phase : ClaimPhase;
  m_PendingSuccessor : string; m_ExpiresAt : Z; m_TransferDeadline : Z;
  m_LastOpID : string; m_OpResults : gmap string opSnap }.

(** ** Actions ([model/protocol.go]) *)

Inductive ActionType :=
| ActRegisterGeneration | ActPassReadiness | ActFailReadiness | ActRequestClaim
| ActRenewClaim | ActBeginDrain | ActCompleteDrain | ActPrepareTransfer
| ActCommitTransfer | ActAbortTransfer | ActPause | ActResume | ActDisconnect
| ActReconnect | ActExpireLease | ActCrashOwner | ActCrashCandidate
| ActRestartBackend | ActForceRevoke | ActAdvanceTime | ActReleaseClaim
| ActOther (name : string).

Record Action := mkAction {
  a_Type : ActionType; a_Generation : string; a_Claim : string;
  a_Successor : string; a_OpID : string; a_Delta : Duration }.

Record World := mkWorld {
  Now : Z; LeaseTTL : Z; TransferTO : Z;
  Gens : gmap string MGeneration;
  Claims : gmap string MClaim;
  ProtectedEpoch : gmap string Z;
  History : list Action }.

(** What a call of [Apply] gives back: no error, an error, or a panic (a nil
    pointer dereference). *)
Inductive outcome := Done | Refused (msg : string) | Panic.

Definition set_Now v w := mkWorld v (LeaseTTL w) (TransferTO w) (Gens w) (Claims w)
  (ProtectedEpoch w) (History w).
Definition set_Gens v w := mkWorld (Now w) (LeaseTTL w) (TransferTO w) v (Claims w)
  (ProtectedEpoch w) (History w).
Definition set_Claims v w := mkWorld (Now w) (LeaseTTL w) (TransferTO w) (Gens w) v
  (ProtectedEpoch w) (History w).
Definition set_ProtectedEpoch v w := mkWorld (Now w) (LeaseTTL w) (TransferTO w)
  (Gens w) (Claims w) v (History w).
Definition set_History v w := mkWorld (Now w) (LeaseTTL w) (TransferTO w) (Gens w)
  (Claims w) (ProtectedEpoch w) v.

Definition g_set_State v g := mkMGen (g_ID g) v (g_Paused g) (g_Connected g) (g_Ready g) (g_Draining g).
Definition g_set_Paused v g := mkMGen (g_ID g) (g_State g) v (g_Connected g) (g_Ready g) (g_Draining g).
Definition g_set_Connected v g := mkMGen (g_ID g) (g_State g) (g_Paused g) v (g_Ready g) (g_Draining g).
Definition g_set_Ready v g := mkMGen (g_ID g) (g_State g) (g_Paused g) (g_Connected g) v (g_Draining g).
Definition g_set_Draining v g := mkMGen (g_ID g) (g_State g) (g_Paused g) (g_Connected g) (g_Ready g) v.

(** Assign owner, token, phase and pending successor. *)
Definition m_set_cell ow tk ph su c := mkMClaim (m_Name c) ow tk ph su (m_ExpiresAt c)
  (m_TransferDeadline c) (m_LastOpID c) (m_OpResults c).
Definition m_set_ExpiresAt v c := mkMClaim (m_Name c) (m_Owner c) (m_Token c) (m_Phase c)
  (m_PendingSuccessor c) v (m_TransferDeadline c) (m_LastOpID c) (m_OpResults c).
Definition m_set_TransferDeadline v c := mkMClaim (m_Name c) (m_Owner c) (m_Token c)
  (m_Phase c) (m_PendingSuccessor c) (m_ExpiresAt c) v (m_LastOpID c) (m_OpResults c).
Definition m_store_op id s c := mkMClaim (m_Name c) (m_Owner c) (m_Token c) (m_Phase c)
  (m_PendingSuccessor c) (m_ExpiresAt c) (m_TransferDeadline c) (m_LastOpID c)
  (<[id := s]> (m_OpResults c)).

Definition put_claim (n : string) (c : MClaim) (w : World) : World :=
  set_Claims (<[n := c]> (Claims w)) w.

(** [if g := w.Gens[id]; g != nil { ... }] *)
Definition with_gen (id : string) (f : MGeneration -> MGeneration) (w : World) : World :=
  match Gens w !! id with
  | None => w
  | Some g => set_Gens (<[id := f g]> (Gens w)) w
  end.

(** ** Transitions ([model/transition.go]) *)

Definition new_claim (name : string) : MClaim :=
  mkMClaim name "" 0 ClaimUnowned "" 0 0 "" ∅.

(** [w.claim(name)]: the claim, created when absent. *)
Definition claim (name : string) (w : World) : MClaim :=
  default (new_claim name) (Claims w !! name).

Definition expireIfNeeded (now : Z) (c : MClaim) : MClaim :=
  if decide (m_Phase c = ClaimUnowned) then c
  else
    let c := if bool_decide (0 < m_ExpiresAt c) && bool_decide (m_ExpiresAt c < now)
             then m_set_cell "" (m_Token c) ClaimUnowned "" c else c in
    if bool_decide (m_Phase c = ClaimReserved) && bool_decide (0 < m_TransferDeadline c)
       && bool_decide (m_TransferDeadline c < now)
    then m_set_cell (m_Owner c) (m_Token c) ClaimOwned "" c
    else c.

Definition maxToken : Z := u64 (u64_modulus - 1 - 1).

Definition requestClaim (a : Action) (w : World) : World * outcome :=
  let n := a_Claim a in
  let c := claim n w in
  match (if decide (a_OpID a = "") then None else m_OpResults c !! a_OpID a) with
  | Some s =>
      (put_claim n (m_set_cell (s_Owner s) (s_Token s) (s_Phase s) (m_PendingSuccessor c) c) w, Done)
  | None =>
      let c := expireIfNeeded (Now w) c in
      if decide (m_Phase c = ClaimOwned \/ m_Phase c = ClaimReserved) then
        if decide (m_Owner c = a_Generation a)
        then (put_claim n (m_set_ExpiresAt (i64 (Now w + LeaseTTL w)) c) w, Done)
        else (put_claim n c w, Refused "held")
      else if bool_decide (maxToken <= m_Token c) then (put_claim n c w, Refused "overflow")
      else
        let t := u64 (m_Token c + 1) in
        let c := m_set_ExpiresAt (i64 (Now w + LeaseTTL w))
                   (m_set_cell (a_Generation a) t ClaimOwned "" c) in
        let c := if decide (a_OpID a = "") then c
                 else m_store_op (a_OpID a) (mkSnap (m_Owner c) (m_Token c) (m_Phase c)) c in
        (w |> put_claim n c
           |> with_gen (a_Generation a) (g_set_State StateActive)
           |> set_ProtectedEpoch (<[n := t]> (ProtectedEpoch w)), Done)
  end.

Definition controls (c : MClaim) (gen : string) : bool :=
  bool_decide (m_Owner c = gen) &&
  (bool_decide (m_Phase c = ClaimOwned) || bool_decide (m_Phase c = ClaimReserved)
   || bool_decide (m_Phase c = ClaimDraining)).

Definition renewClaim (a : Action) (w : World) : World * outcome :=
  let n := a_Claim a in
  let c := claim n w in
  if negb (controls c (a_Generation a)) then (put_claim n c w, Refused "not owner")
  else match Gens w !! a_Generation a with
       | None => (put_claim n c w, Panic)
       | Some g =>
           if negb (g_Connected g) || g_Paused g
           then (put_claim n c w, Refused "disconnected")
           else (put_claim n (m_set_ExpiresAt (i64 (Now w + LeaseTTL w)) c) w, Done)
       end.

Definition releaseClaim (a : Action) (w : World) : World * outcome :=
  let n := a_Claim a in
  let c := claim n w in
  let w := put_claim n c w in
  match (if decide (a_OpID a = "") then None else m_OpResults c !! a_OpID a) with
  | Some _ => (w, Done)
  | None =>
      if decide (m_Owner c ≠ a_Generation a) then (w, Refused "not owner")
      else
        let ep := default 0 (ProtectedEpoch w !! n) in
        if decide (m_Token c ≠ ep /\ m_Token c < ep) then (w, Refused "stale")
        else
          let c := m_set_cell "" (m_Token c) ClaimUnowned "" c in
          let c := if decide (a_OpID a = "") then c
                   else m_store_op (a_OpID a) (mkSnap "" (m_Token c) ClaimUnowned) c in
          (put_claim n c w, Done)
  end.

Definition prepare (a : Action) (w : World) : World * outcome :=
  let n := a_Claim a in
  let c := expireIfNeeded (Now w) (claim n w) in
  if decide (m_Owner c ≠ a_Generation a \/ m_Phase c = ClaimUnowned)
  then (put_claim n c w, Refused "not owner")
  else
    let c := m_set_cell (m_Owner c) (m_Token c) ClaimReserved (a_Successor a) c in
    let exp := if bool_decide (LeaseTTL w < TransferTO w)
               then i64 (Now w + TransferTO w) else i64 (Now w + LeaseTTL w) in
    let c := m_set_TransferDeadline (i64 (Now w + TransferTO w)) (m_set_ExpiresAt exp c) in
    (w |> put_claim n c |> with_gen (a_Generation a) (g_set_State StateTransferring), Done).

Definition commit (a : Action) (w : World) : World * outcome :=
  let n := a_Claim a in
  let c := claim n w in
  match (if decide (a_OpID a = "") then None else m_OpResults c !! a_OpID a) with
  | Some s =>
      (put_claim n (m_set_cell (s_Owner s) (s_Token s) (s_Phase s) (m_PendingSuccessor c) c) w, Done)
  | None =>
      if decide (m_Phase c ≠ ClaimReserved \/ m_Owner c ≠ a_Generation a \/
                 m_PendingSuccessor c ≠ a_Successor a) then
        if decide (m_Phase c = ClaimOwned /\ m_Owner c = a_Successor a)
        then (put_claim n c w, Done)
        else (put_claim n c w, Refused "no transfer")
      else if bool_decide (maxToken <= m_Token c) then (put_claim n c w, Refused "overflow")
      else
        let t := u64 (m_Token c + 1) in
        let c := m_set_ExpiresAt (i64 (Now w + LeaseTTL w))
                   (m_set_cell (a_Successor a) t ClaimOwned "" c) in
        let c := if decide (a_OpID a = "") then c
                 else m_store_op (a_OpID a) (mkSnap (m_Owner c) (m_Token c) (m_Phase c)) c in
        (w |> put_claim n c
           |> set_ProtectedEpoch (<[n := t]> (ProtectedEpoch w))
           |> with_gen (a_Generation a) (g_set_State StateRetired)
           |> with_gen (a_Successor a) (g_set_State StateActive), Done)
  end.

Definition abort (a : Action) (w : World) : World * outcome :=
  let n := a_Claim a in
  let c := claim n w in
  if decide (m_Phase c ≠ ClaimReserved) then
    if decide (m_Owner c = a_Generation a /\ m_Phase c = ClaimOwned)
    then (put_claim n c w, Done) else (put_claim n c w, Refused "no transfer")
  else if decide (m_Owner c ≠ a_Generation a) then (put_claim n c w, Refused "not owner")
  else
    (w |> put_claim n (m_set_cell (m_Owner c) (m_Token c) ClaimOwned "" c)
       |> with_gen (a_Generation a) (g_set_State StateActive), Done).

Definition sweepExpired (w : World) : World :=
  set_Claims (expireIfNeeded (Now w) <$> Claims w) w.

Definition crashOwner (n : string) (w : World) : World * outcome :=
  let c := claim n w in
  (w |> put_claim n c
     |> with_gen (m_Owner c) (fun g => g_set_State StateFailed (g_set_Connected false g)), Done).

Definition forceRevoke (a : Action) (w : World) : World * outcome :=
  let n := a_Claim a in
  let c := claim n w in
  if decide (m_Owner c ≠ a_Generation a)
  then (put_claim n c w, Refused "expected owner mismatch")
  else (put_claim n (m_set_cell "" (m_Token c) ClaimUnowned "" c) w, Done).

(** [g := w.Gens[a.Generation]; if g == nil { return error }; ...] *)
Definition known_gen (a : Action) (f : MGeneration -> MGeneration) (w : World) : World * outcome :=
  match Gens w !! a_Generation a with
  | None => (w, Refused "unknown gen")
  | Some _ => (with_gen (a_Generation a) f w, Done)
  end.

Definition Apply (a : Action) (w : World) : World * outcome :=
  let w := set_History (History w ++ [a]) w in
  match a_Type a with
  | ActRegisterGeneration =>
      match Gens w !! a_Generation a with
      | Some _ => (w, Done)
      | None =>
          (set_Gens (<[a_Generation a :=
             mkMGen (a_Generation a) StateStandby false true false false]> (Gens w)) w, Done)
      end
  | ActPassReadiness =>
      known_gen a (fun g => g_set_State StateStandby (g_set_Ready true g)) w
  | ActFailReadiness =>
      known_gen a (fun g => g_set_State StateFailed (g_set_Ready false g)) w
  | ActRequestClaim => requestClaim a w
  | ActRenewClaim => renewClaim a w
  | ActReleaseClaim => releaseClaim a w
  | ActBeginDrain =>
      known_gen a (fun g => g_set_State StateDraining (g_set_Draining true g)) w
  | ActCompleteDrain => (with_gen (a_Generation a) (g_set_Draining false) w, Done)
  | ActPrepareTransfer => prepare a w
  | ActCommitTransfer => commit a w
  | ActAbortTransfer => abort a w
  | ActPause => (with_gen (a_Generation a) (g_set_Paused true) w, Done)
  | ActResume => (with_gen (a_Generation a) (g_set_Paused false) w, Done)
  | ActDisconnect => (with_gen (a_Generation a) (g_set_Connected false) w, Done)
  | ActReconnect => (with_gen (a_Generation a) (g_set_Connected true) w, Done)
  | ActExpireLease =>
      (put_claim (a_Claim a) (expireIfNeeded (Now w) (claim (a_Claim a) w)) w, Done)
  | ActCrashOwner => crashOwner (a_Claim a) w
  | ActCrashCandidate =>
      match Claims w !! a_Claim a with
      | Some c =>
          if decide (m_Phase c = ClaimReserved)
          then (put_claim (a_Claim a) (m_set_TransferDeadline (Now w) c) w, Done)
          else (w, Done)
      | None => (w, Done)
      end
  | ActRestartBackend => (w, Done)
  | ActForceRevoke => forceRevoke a w
  | ActAdvanceTime => (sweepExpired (set_Now (i64 (Now w + a_Delta a)) w), Done)
  | ActOther name => (w, Refused ("unknown action " +:+ name))
  end.

(** ** Invariants ([model/invariant.go]) *)

Definition InvSingleOwner : string := "single_committed_owner".
Definition InvTokenMonotonic : string := "token_monotonic".
Definition InvTransferBounded : string := "transfer_not_pending_forever".
Definition InvReservedHasOwner : string := "reserved_has_owner".
Definition InvProtectedEpoch : string := "protected_resource_epoch".

(** The checks of one claim, in the order of the loop body. *)
Definition check_claim (w : World) (n : string) (c : MClaim) : option string :=
  if decide ((m_Phase c = ClaimOwned \/ m_Phase c = ClaimReserved) /\ m_Owner c = "")
  then Some InvReservedHasOwner
  else if decide (m_Phase c = ClaimReserved /\ m_PendingSuccessor c = "")
  then Some InvReservedHasOwner
  else if decide (m_Phase c = ClaimUnowned /\ m_Owner c ≠ "")
  then Some InvSingleOwner
  else if decide (m_Phase c = ClaimOwned /\ is_Some (ProtectedEpoch w !! n) /\
                  default 0 (ProtectedEpoch w !! n) ≠ m_Token c)
  then Some InvProtectedEpoch
  else if decide (m_Phase c = ClaimReserved /\ 0 < m_TransferDeadline c /\
                  i64 (m_TransferDeadline c + TransferTO w) < Now w)
  then Some InvTransferBounded
  else None.

(** The first violated invariant, [None] for [""].  (The second loop of the
    source cannot report: a claim has one owner by construction.) *)
Definition CheckInvariants (w : World) : option string :=
  foldr (λ nc r, match check_claim w nc.1 nc.2 with Some v => Some v | None => r end)
    None (map_to_list (Claims w)).

Definition CheckTokenMonotonic (prev cur : gmap string Z) : option string :=
  foldr (λ kv r, match prev !! kv.1 with
                 | Some p => if bool_decide (kv.2 < p) then Some InvTokenMonotonic else r
                 | None => r
                 end) None (map_to_list cur).

Definition TokenSnapshot (w : World) : gmap string Z := m_Token <$> Claims w.

(** ** Worlds and generated actions ([model/generator.go]) *)

Definition NewWorld (leaseTTL transferTO : Z) : World :=
  mkWorld 0 (if bool_decide (leaseTTL <= 0) then 15 else leaseTTL)
    (if bool_decide (transferTO <= 0) then 30 else transferTO) ∅ ∅ ∅ [].

(** The actions [Generator.Next] chooses from. *)
Definition gen_types : list ActionType :=
  [ActRegisterGeneration; ActPassReadiness; ActRequestClaim; ActRenewClaim;
   ActBeginDrain; ActCompleteDrain; ActPrepareTransfer; ActCommitTransfer;
   ActAbortTransfer; ActDisconnect; ActReconnect; ActAdvanceTime;
   ActExpireLease; ActCrashOwner; ActCrashCandidate; ActReleaseClaim;
   ActPause; ActResume; ActRestartBackend].

Definition itoa (n : Z) : option string :=
  if bool_decide (n = 0) then Some "0" else itoa_loop 20 n "".

Definition fmtOp (n : Z) : option string :=
  let n := if bool_decide (n < 0) then i64 (- n) else n in
  match itoa (u64 n) with
  | Some s => Some ("op-" +:+ s)
  | None => None
  end.

(** One random action: [ty], [gi], [si] are the three [Intn] draws, [extra] the
    draw of the two cases that make a fourth. *)
Definition Next (cl : string) (gens : list string) (ty gi si : nat) (extra : Z) :
    option Action :=
  t ← gen_types !! ty; gen ← gens !! gi; succ ← gens !! si;
  match t with
  | ActAdvanceTime => Some (mkAction t gen cl succ "" ((extra + 1) * Millisecond))
  | ActRequestClaim | ActCommitTransfer | ActReleaseClaim =>
      op ← fmtOp extra; Some (mkAction t gen cl succ op 0)
  | _ => Some (mkAction t gen cl succ "" 0)
  end.

(** * Facts *)

Definition mcell (c : MClaim) : cell :=
  mkCell (m_Owner c) (m_Token c) (m_Phase c) (m_PendingSuccessor c).

(** Model times stay far from the [int64] limits. *)
Definition horizon : Z := 2 ^ 60.

Record claim_ok (now : Z) (ep : option Z) (c : MClaim) : Prop := mkClaimOk {
  co_wf : cell_wf (mcell c);
  co_phase : m_Phase c ≠ ClaimDraining;
  co_epoch : m_Phase c ≠ ClaimUnowned -> ep = Some (m_Token c);
  co_deadline : m_Phase c = ClaimReserved -> 0 < m_TransferDeadline c ->
    now <= m_TransferDeadline c <= 2 * horizon }.

Record world_inv (w : World) : Prop := mkWorldInv {
  wi_now : 0 <= Now w <= horizon;
  wi_to : 0 <= TransferTO w <= horizon;
  wi_claims : map_Forall (λ n c, claim_ok (Now w) (ProtectedEpoch w !! n) c) (Claims w) }.

(** Actions the invariants are stated for: a request names a generation, a
    transfer names a successor, an operation identifier is not used twice on a
    claim, and time goes forward up to the horizon. *)
Definition fresh_op (a : Action) (w : World) : Prop :=
  a_OpID a = "" \/ m_OpResults (claim (a_Claim a) w) !! a_OpID a = None.

Definition disciplined (a : Action) (w : World) : Prop :=
  match a_Type a with
  | ActRequestClaim => a_Generation a ≠ "" /\ fresh_op a w
  | ActCommitTransfer => fresh_op a w
  | ActPrepareTransfer => a_Successor a ≠ ""
  | ActAdvanceTime => 0 <= a_Delta a /\ Now w + a_Delta a <= horizon
  | _ => True
  end.

(** What a disciplined action does: the invariant is kept and every claim moves
    along the specification. *)
Record world_effect (w w' : World) : Prop := mkWorldEffect {
  we_inv : world_inv w';
  we_cell n : steps cell_trans (mcell (claim n w)) (mcell (claim n w'));
  we_dom : dom (Claims w) ⊆ dom (Claims w') }.

Lemma world_effect_refl w : world_inv w -> world_effect w w.
Proof. intros Hi. split; [done | constructor | done]. Qed.

Lemma world_effect_trans a b c : world_effect a b -> world_effect b c -> world_effect a c.
Proof.
  intros [_ C1 D1] [I2 C2 D2]. split; [done | |set_solver].
  intros n. by eapply steps_app.
Qed.

(** Changes of the generations and of the history only. *)
Definition same_claims (w w' : World) : Prop :=
  Now w' = Now w /\ TransferTO w' = TransferTO w /\ Claims w' = Claims w /\
  ProtectedEpoch w' = ProtectedEpoch w.

Lemma effect_same w0 w w' : same_claims w w' -> world_effect w0 w -> world_effect w0 w'.
Proof.
  intros (E1 & E2 & E3 & E4) [[Hn Ht Hc] Hs Hd]. split.
  - split; rewrite ?E1, ?E2, ?E3; [done | done |]. intros n c. rewrite E4. apply Hc.
  - intros n. unfold claim. rewrite E3. apply Hs.
  - by rewrite E3.
Qed.

Lemma same_with_gen id f w : same_claims w (with_gen id f w).
Proof. unfold with_gen. by case_match. Qed.

Lemma claim_ok_new now ep n : claim_ok now ep (new_claim n).
Proof. by split; [apply cell0_wf | | |]. Qed.

Lemma claim_ok_at w n : world_inv w -> claim_ok (Now w) (ProtectedEpoch w !! n) (claim n w).
Proof.
  intros Hi. unfold claim. destruct (Claims w !! n) eqn:E; simpl;
    [by apply (wi_claims _ Hi) | apply claim_ok_new].
Qed.

Lemma claim_put_eq n c w : claim n (put_claim n c w) = c.
Proof. unfold claim. simpl. by rewrite lookup_insert_eq. Qed.

Lemma claim_put_ne n m c w : m ≠ n -> claim m (put_claim n c w) = claim m w.
Proof. intros H. unfold claim. simpl. by rewrite lookup_insert_ne. Qed.

(** Storing a claim its cell can step to, with the epoch of that claim. *)
Lemma effect_put n c ep w :
  world_inv w -> claim_ok (Now w) (ep !! n) c ->
  (forall m, m ≠ n -> ep !! m = ProtectedEpoch w !! m) ->
  steps cell_trans (mcell (claim n w)) (mcell c) ->
  world_effect w (set_ProtectedEpoch ep (put_claim n c w)).
Proof.
  intros [Hn Ht Hc] Hok Hep Hs. split.
  - split; [done | done |]. simpl. intros m d. destruct (decide (m = n)) as [->|Hne].
    + rewrite lookup_insert_eq. by intros [= <-].
    + rewrite lookup_insert_ne by done. intros Hd. rewrite Hep by done. by apply Hc.
  - intros m. change (claim m (set_ProtectedEpoch ep (put_claim n c w)))
      with (claim m (put_claim n c w)).
    destruct (decide (m = n)) as [->|Hne]; [by rewrite claim_put_eq |].
    rewrite claim_put_ne by done. constructor.
  - simpl. set_solver.
Qed.

Lemma effect_put_same n c w :
  world_inv w -> claim_ok (Now w) (ProtectedEpoch w !! n) c ->
  steps cell_trans (mcell (claim n w)) (mcell c) ->
  world_effect w (put_claim n c w).
Proof.
  intros Hi Hok Hs. eapply (effect_same _ (set_ProtectedEpoch (ProtectedEpoch w) (put_claim n c w)));
    [by destruct w | by apply effect_put].
Qed.

(** ** Expiry *)

Lemma model_expire_ok now now' ep c :
  claim_ok now ep c ->
  claim_ok now' ep (expireIfNeeded now' c) /\
  steps cell_trans (mcell c) (mcell (expireIfNeeded now' c)).
Proof.
  intros [Hw Hnd He Hd]. unfold expireIfNeeded.
  destruct (decide (m_Phase c = ClaimUnowned)) as [Hu|Hu].
  { split; [|constructor]. split; [done | done | done |]. intros H. congruence. }
  destruct (bool_decide (0 < m_ExpiresAt c) && _).
  { cbn [m_set_cell m_Phase]. rewrite (bool_decide_eq_false_2 (ClaimUnowned = _)) by done.
    simpl. assert (steps cell_trans (mcell c) (expired_cell (mcell c))) as Hs by (by apply expire_steps).
    split; [|exact Hs]. split; [|done|done|done]. by apply (cell_steps_wf _ _ Hw Hs). }
  destruct (bool_decide_reflect (m_Phase c = ClaimReserved)) as [Hr|Hr]; simpl.
  - destruct (bool_decide_reflect (0 < m_TransferDeadline c)) as [H0|H0]; simpl.
    + destruct (bool_decide_reflect (m_TransferDeadline c < now')) as [H1|H1].
      * assert (steps cell_trans (mcell c) (mkCell (m_Owner c) (m_Token c) ClaimOwned "")) as Hs
          by (by eapply cell_step_steps, (cell_abort (mcell c))).
        split; [|exact Hs]. split; [|done|auto|done]. by apply (cell_steps_wf _ _ Hw Hs).
      * split; [|constructor]. split; [done | done | done |]. intros _ _. specialize (Hd Hr H0). lia.
    + split; [|constructor]. split; [done | done | done |]. intros _ Hbad. lia.
  - split; [|constructor]. by split.
Qed.

Lemma claim_ok_expiry now ep c v : claim_ok now ep c -> claim_ok now ep (m_set_ExpiresAt v c).
Proof. by intros []. Qed.

Lemma i64_near w d : 0 <= Now w <= horizon -> 0 <= d <= horizon -> i64 (Now w + d) = Now w + d.
Proof. intros H1 H2. apply i64_small. unfold is_i64, horizon in *. lia. Qed.

Lemma model_next_token t :
  0 <= t <= MaxSafeFencingToken -> bool_decide (maxToken <= t) = false ->
  t < MaxSafeFencingToken /\ u64 (t + 1) = t + 1.
Proof.
  intros Ht Hm. apply bool_decide_eq_false in Hm.
  change maxToken with MaxSafeFencingToken in Hm. rewrite MaxSafe_value in *.
  split; [lia |]. apply u64_small. unfold is_u64. lia.
Qed.

(** ** Actions *)

Lemma fresh_op_lookup a w :
  fresh_op a w ->
  (if decide (a_OpID a = "") then None
   else m_OpResults (claim (a_Claim a) w) !! a_OpID a) = None.
Proof. intros [->|H]; [done |]. by case_decide. Qed.

Section ActionEffects.
Context (a : Action) (w : World).
Hypothesis Hi : world_inv w.

Let n := a_Claim a.
Let c := claim n w.

(** Storing a claim with a result recorded keeps its cell. *)
Lemma claim_ok_store_op now ep d id s : claim_ok now ep d -> claim_ok now ep (m_store_op id s d).
Proof. by intros []. Qed.

(** A new owner with the next token. *)
Lemma effect_advance owner d :
  claim_ok (Now w) (ProtectedEpoch w !! n) d ->
  steps cell_trans (mcell c) (mcell d) ->
  steps cell_trans (mcell d) (mkCell owner (m_Token d + 1) ClaimOwned "") ->
  forall d', mcell d' = mkCell owner (m_Token d + 1) ClaimOwned "" ->
  world_effect w (set_ProtectedEpoch (<[n := m_Token d + 1]> (ProtectedEpoch w)) (put_claim n d' w)).
Proof.
  intros Hok Hs Hs' d' Hd'. apply effect_put; [done | | |].
  - assert (cell_wf (mcell d')) as Hw'.
    { rewrite Hd'. apply (cell_steps_wf _ _ (co_wf _ _ _ Hok) Hs'). }
    injection Hd' as Ho Ht Hp Hsu. rewrite lookup_insert_eq.
    split; [done | by rewrite Hp | by rewrite Ht |]. rewrite Hp. done.
  - intros m Hm. by rewrite lookup_insert_ne.
  - rewrite Hd'. by eapply steps_app.
Qed.

Lemma request_world_effect :
  a_Generation a ≠ "" -> fresh_op a w -> world_effect w (requestClaim a w).1.
Proof.
  intros Hg Hf. unfold requestClaim. rewrite (fresh_op_lookup a w Hf).
  destruct (model_expire_ok _ (Now w) _ _ (claim_ok_at w n Hi)) as [Hok Hs].
  set (d := expireIfNeeded _ _) in *.
  case_decide as Hp; [case_decide; apply effect_put_same; auto using claim_ok_expiry |].
  destruct (bool_decide (maxToken <= m_Token d)) eqn:Et; [by apply effect_put_same |].
  destruct (model_next_token _ (wf_range _ (co_wf _ _ _ Hok)) Et) as [Hlt Hu]; simpl in Hlt, Hu.
  rewrite Hu. cbn [fst].
  set (d' := if decide (a_OpID a = "") then _ else _).
  assert (mcell d' = mkCell (a_Generation a) (m_Token d + 1) ClaimOwned "") as Hd'
    by (unfold d'; destruct (decide (a_OpID a = "")); reflexivity).
  assert (m_Phase d = ClaimUnowned) as Hun
    by (pose proof (co_phase _ _ _ Hok); destruct (m_Phase d); tauto).
  eapply effect_same; [|eapply (effect_advance (a_Generation a) d); [done | done | | exact Hd']].
  - unfold with_gen. by case_match.
  - by eapply cell_step_steps, (cell_acquire (mcell d)).
Qed.

Lemma renew_world_effect : world_effect w (renewClaim a w).1.
Proof.
  unfold renewClaim. pose proof (claim_ok_at w n Hi).
  repeat case_match; apply effect_put_same; auto using claim_ok_expiry; constructor.
Qed.

(** Giving the claim up keeps the token. *)
Lemma effect_drop d :
  mcell d = expired_cell (mcell c) -> m_TransferDeadline d = m_TransferDeadline c ->
  world_effect w (put_claim n d w).
Proof.
  intros Hd Hdl. pose proof (claim_ok_at w n Hi) as Hok. fold c in Hok.
  assert (steps cell_trans (mcell c) (mcell d)) as Hs.
  { rewrite Hd. destruct (decide (held (mcell c))) as [Hh|Hh]; [by apply expire_steps |].
    apply dec_stable in Hh. unfold expired_cell.
    pose proof (wf_unowned _ (co_wf _ _ _ Hok) Hh) as Ho.
    pose proof (wf_nosucc _ (co_wf _ _ _ Hok) ltac:(simpl in *; congruence)) as Hsu.
    destruct (mcell c); simpl in *; subst. constructor. }
  apply effect_put_same; [done | | done].
  injection Hd as _ _ Hp _. split; rewrite ?Hp; [|done | intros [] | ]; try done.
  by apply (cell_steps_wf _ _ (co_wf _ _ _ Hok) Hs).
Qed.

Lemma effect_touch : world_effect w (put_claim n c w).
Proof. apply effect_put_same; [done | by apply claim_ok_at | constructor]. Qed.

Lemma put_put d d' v : put_claim n d' (put_claim n d v) = put_claim n d' v.
Proof. unfold put_claim, set_Claims. simpl. by rewrite insert_insert_eq. Qed.

Lemma release_world_effect : world_effect w (releaseClaim a w).1.
Proof.
  unfold releaseClaim. fold n c. pose proof effect_touch.
  destruct (if decide (a_OpID a = "") then None else _); [done |].
  case_decide; [done |]. case_decide; [done |]. cbn [fst].
  rewrite put_put. apply effect_drop; by destruct (decide (a_OpID a = "")).
Qed.

Lemma revoke_world_effect : world_effect w (forceRevoke a w).1.
Proof.
  unfold forceRevoke. fold n c. case_decide; [apply effect_touch |]. by apply effect_drop.
Qed.

(** Reserving a held claim, also again for another successor. *)
Lemma reserve_steps d su :
  cell_wf (mcell d) -> m_Phase d ≠ ClaimUnowned -> su ≠ "" ->
  steps cell_trans (mcell d) (mkCell (m_Owner d) (m_Token d) ClaimReserved su).
Proof.
  intros Hw Hu Hsu. destruct (decide (m_Phase d = ClaimReserved)) as [Hr|Hr].
  - eapply steps_app; [by eapply cell_step_steps, (cell_abort (mcell d)) |].
    by eapply cell_step_steps, (cell_reserve (mkCell _ _ _ _)).
  - by eapply cell_step_steps, (cell_reserve (mcell d)).
Qed.

Lemma prepare_world_effect : a_Successor a ≠ "" -> world_effect w (prepare a w).1.
Proof.
  intros Hsu. unfold prepare.
  destruct (model_expire_ok _ (Now w) _ _ (claim_ok_at w n Hi)) as [Hok Hs].
  fold n. set (d := expireIfNeeded _ _) in *.
  case_decide as Hp; [by apply effect_put_same |]. apply Decidable.not_or in Hp as [Hp Hu].
  pose proof (reserve_steps d _ (co_wf _ _ _ Hok) Hu Hsu) as Hr.
  pose proof (wi_now _ Hi) as Hn. pose proof (wi_to _ Hi) as Ht. cbn [fst].
  eapply effect_same; [apply same_with_gen |].
  apply effect_put_same; [done | | by eapply steps_app]. split; simpl.
  - by apply (cell_steps_wf _ _ (co_wf _ _ _ Hok) Hr).
  - done.
  - intros _. by apply (co_epoch _ _ _ Hok).
  - intros _ _. rewrite i64_near by done. lia.
Qed.

Lemma commit_world_effect : fresh_op a w -> world_effect w (commit a w).1.
Proof.
  intros Hf. unfold commit. rewrite (fresh_op_lookup a w Hf). fold n c.
  pose proof (claim_ok_at w n Hi) as Hok. fold c in Hok.
  case_decide as Hp; [case_decide; apply effect_touch |].
  apply Decidable.not_or in Hp as [Hr Hp]. apply Decidable.not_or in Hp as [Ho Hsu].
  apply dec_stable in Hr. apply dec_stable in Hsu.
  destruct (bool_decide (maxToken <= m_Token c)) eqn:Et; [apply effect_touch |].
  destruct (model_next_token _ (wf_range _ (co_wf _ _ _ Hok)) Et) as [Hlt Hu]; simpl in Hlt, Hu.
  rewrite Hu. cbn [fst]. set (d' := if decide (a_OpID a = "") then _ else _).
  assert (mcell d' = mkCell (a_Successor a) (m_Token c + 1) ClaimOwned "") as Hd'
    by (unfold d'; destruct (decide (a_OpID a = "")); reflexivity).
  eapply effect_same; [apply same_with_gen |]. eapply effect_same; [apply same_with_gen |].
  eapply (effect_advance (a_Successor a) c); [done | constructor | | exact Hd'].
  rewrite <- Hsu. by eapply cell_step_steps, (cell_commit (mcell c)).
Qed.

Lemma abort_world_effect : world_effect w (abort a w).1.
Proof.
  unfold abort. fold n c. pose proof (claim_ok_at w n Hi) as Hok. fold c in Hok.
  case_decide as Hr; [case_decide; apply effect_touch |].
  case_decide; [apply effect_touch |]. cbn [fst].
  eapply effect_same; [apply same_with_gen |].
  assert (steps cell_trans (mcell c) (mkCell (m_Owner c) (m_Token c) ClaimOwned "")) as Hs
    by (by eapply cell_step_steps, (cell_abort (mcell c))).
  apply effect_put_same; [done | | exact Hs]. split; simpl; [|done| |done].
  - by apply (cell_steps_wf _ _ (co_wf _ _ _ Hok) Hs).
  - intros _. apply (co_epoch _ _ _ Hok). by rewrite Hr.
Qed.

Lemma crashCandidate_world_effect d :
  Claims w !! n = Some d -> m_Phase d = ClaimReserved ->
  world_effect w (put_claim n (m_set_TransferDeadline (Now w) d) w).
Proof.
  intros E Hr. pose proof (claim_ok_at w n Hi) as Hok. pose proof (wi_now _ Hi) as Hn.
  unfold claim in Hok. rewrite E in Hok. simpl in Hok. destruct Hok as [Hw Hp He Hd].
  apply effect_put_same; [done | | unfold claim; rewrite E; constructor].
  split; simpl; [done | done | done |]. unfold horizon in *. lia.
Qed.

Lemma advance_world_effect :
  0 <= a_Delta a -> Now w + a_Delta a <= horizon ->
  world_effect w (sweepExpired (set_Now (i64 (Now w + a_Delta a)) w)).
Proof.
  intros H0 H1. destruct Hi as [Hn Ht Hc].
  rewrite i64_near by (unfold horizon in *; lia). set (now' := Now w + a_Delta a).
  assert (forall m, claim m (sweepExpired (set_Now now' w)) = expireIfNeeded now' (claim m w)) as Hcl.
  { intros m. unfold claim. simpl. rewrite lookup_fmap. by destruct (Claims w !! m). }
  split.
  - split; simpl; [unfold now'; lia | done |]. intros m d.
    rewrite lookup_fmap_Some. intros (d0 & <- & E).
    by apply (model_expire_ok (Now w)), Hc.
  - intros m. rewrite Hcl. eapply (model_expire_ok (Now w) now'). by apply claim_ok_at.
  - simpl. by rewrite dom_fmap_L.
Qed.
End ActionEffects.

Lemma world_inv_history h w : world_inv w -> world_inv (set_History h w).
Proof. by intros []. Qed.

Lemma Apply_effect a w : world_inv w -> disciplined a w -> world_effect w (Apply a w).1.
Proof.
  intros Hi Hd. unfold Apply. set (w0 := set_History _ w).
  assert (world_inv w0) as Hi0 by by apply world_inv_history.
  assert (world_effect w w0) as H0
    by (eapply effect_same, world_effect_refl, Hi; done).
  eapply world_effect_trans; [exact H0 |].
  assert (disciplined a w0) as Hd0 by exact Hd. clearbody w0. clear w H0 Hi Hd.
  unfold disciplined in Hd0. pose proof (world_effect_refl w0 Hi0) as Hr.
  destruct (a_Type a); cbn [fst]; try exact Hr;
    try (eapply effect_same; [apply same_with_gen | exact Hr]).
  - case_match; [done |]. by eapply effect_same, Hr.
  - unfold known_gen. case_match; [|done]. eapply effect_same; [apply same_with_gen | exact Hr].
  - unfold known_gen. case_match; [|done]. eapply effect_same; [apply same_with_gen | exact Hr].
  - by apply request_world_effect; [|apply Hd0..].
  - by apply renew_world_effect.
  - unfold known_gen. case_match; [|done]. eapply effect_same; [apply same_with_gen | exact Hr].
  - by apply prepare_world_effect.
  - by apply commit_world_effect.
  - by apply abort_world_effect.
  - destruct (model_expire_ok _ (Now w0) _ _ (claim_ok_at w0 (a_Claim a) Hi0)).
    by apply effect_put_same.
  - unfold crashOwner. eapply effect_same; [apply same_with_gen |]. by apply effect_touch.
  - destruct (Claims w0 !! a_Claim a) eqn:E; [|done]. case_decide; [|done].
    by apply crashCandidate_world_effect.
  - by apply revoke_world_effect.
  - by apply advance_world_effect; [|apply Hd0..].
  - by apply release_world_effect.
Qed.

(** ** Reachable worlds *)

Definition disciplined_step (w w' : World) : Prop :=
  exists a, disciplined a w /\ w' = (Apply a w).1.

Lemma world_inv_New ttl to : to <= horizon -> world_inv (NewWorld ttl to).
Proof.
  intros Ht. split; simpl; [done | | apply map_Forall_empty].
  unfold horizon in *. case_bool_decide; lia.
Qed.

Lemma disciplined_inv w w' : world_inv w -> disciplined_step w w' -> world_inv w'.
Proof. intros Hi (a & Hd & ->). apply (Apply_effect a w Hi Hd). Qed.

Lemma check_claim_ok w n c :
  world_inv w -> Claims w !! n = Some c -> check_claim w n c = None.
Proof.
  intros Hi E. destruct (wi_claims _ Hi _ _ E) as [[_ Hu Ho Hr Hs] Hp He Hd].
  unfold check_claim, held in *. simpl in *.
  case_decide as H1; [exfalso; destruct H1 as [[Hq|Hq] H1]; rewrite Hq in Ho; by apply Ho |].
  case_decide as H2; [exfalso; destruct H2 as [Hq H2]; by apply Hr in Hq |].
  case_decide as H3; [exfalso; destruct H3 as [Hq H3]; by apply Hu in Hq |].
  case_decide as H4.
  { destruct H4 as (Hq & _ & Hne). rewrite He in Hne by congruence. done. }
  case_decide as H5; [|done]. destruct H5 as (Hq & H0 & Hlt). specialize (Hd Hq H0).
  pose proof (wi_to _ Hi). rewrite i64_small in Hlt by (unfold is_i64, horizon in *; lia). lia.
Qed.

Lemma CheckInvariants_ok w : world_inv w -> CheckInvariants w = None.
Proof.
  intros Hi. unfold CheckInvariants.
  assert (Forall (λ nc, check_claim w nc.1 nc.2 = None) (map_to_list (Claims w))) as Hf.
  { apply Forall_forall. intros [n c] Hc%elem_of_map_to_list. by apply check_claim_ok. }
  induction Hf as [|[n c] l Hc _ IH]; simpl in *; [done |]. by rewrite Hc.
Qed.

Lemma CheckTokenMonotonic_ok prev cur :
  (forall n p c, prev !! n = Some p -> cur !! n = Some c -> p <= c) ->
  CheckTokenMonotonic prev cur = None.
Proof.
  intros H. unfold CheckTokenMonotonic.
  assert (Forall (λ kv, forall p, prev !! kv.1 = Some p -> p <= kv.2) (map_to_list cur)) as Hf.
  { apply Forall_forall. intros [n c] Hc%elem_of_map_to_list p Hp. simpl in *. eauto. }
  induction Hf as [|[n c] l Hc _ IH]; simpl; [done |]. simpl in Hc.
  destruct (prev !! n) as [p|]; [|done]. rewrite bool_decide_eq_false_2; [done |].
  specialize (Hc p eq_refl). lia.
Qed.


Definition act (t : ActionType) (g su op : string) : Action := mkAction t g "c" su op 0.


(** The protocol model refines the ownership specification: a disciplined
    action moves the owner, token, phase and successor of every claim by steps
    of the specification the backends implement. *)
Theorem model_refines_spec a w n :
  world_inv w -> disciplined a w ->
  world_inv (Apply a w).1 /\
  steps cell_trans (mcell (claim n w)) (mcell (claim n (Apply a w).1)).
Proof. intros Hi Hd. destruct (Apply_effect a w Hi Hd) as [Hi' Hc _]. split; [done | apply Hc]. Qed.

Lemma model_refines_spec_witness :
  steps cell_trans cell0 (mkCell "a" 1 ClaimOwned "").
Proof.
  refine (proj2 (model_refines_spec (act ActRequestClaim "a" "" "op1") (NewWorld 15 30) "c" _ _)).
  - apply world_inv_New. by_eval.
  - split; [done |]. by right.
Defined.

(** Run a list of actions. *)
Definition run (acts : list Action) (w : World) : World :=
  fold_left (λ w a, (Apply a w).1) acts w.

(** A replayed operation identifier rolls the model back.  [requestClaim]
    answers a known identifier by restoring the recorded owner, token and phase,
    so replaying the first acquisition after the claim has moved on lowers the
    token: both [CheckTokenMonotonic] and [CheckInvariants] report it, although
    the model lists "idempotent_no_double_advance" among its invariants. *)
Theorem model_replay_rolls_back :
  let w := run [act ActRequestClaim "a" "" "x"; act ActReleaseClaim "a" "" "";
                act ActRequestClaim "b" "" "y"] (NewWorld 15 30) in
  let w' := (Apply (act ActRequestClaim "a" "" "x") w).1 in
  CheckInvariants w = None /\
  mcell (claim "c" w) = mkCell "b" 2 ClaimOwned "" /\
  mcell (claim "c" w') = mkCell "a" 1 ClaimOwned "" /\
  CheckTokenMonotonic (TokenSnapshot w) (TokenSnapshot w') = Some InvTokenMonotonic /\
  CheckInvariants w' = Some InvProtectedEpoch.
Proof. vm_compute. repeat split. Qed.

(** Renewing for an unregistered owner panics.  [requestClaim] does not ask
    for the generation to be registered, and [renewClaim] then dereferences its
    missing record. *)
Theorem model_renew_panics g n w :
  Gens w !! g = None -> m_Owner (claim n w) = g -> m_Phase (claim n w) = ClaimOwned ->
  (renewClaim (mkAction ActRenewClaim g n "" "" 0) w).2 = Panic.
Proof.
  intros Hg Ho Hp. unfold renewClaim, controls. simpl. rewrite Ho, Hp.
  rewrite bool_decide_eq_true_2 by done. simpl. by rewrite Hg.
Qed.

Lemma model_renew_panics_witness :
  (renewClaim (mkAction ActRenewClaim "a" "c" "" "" 0)
    (run [act ActRequestClaim "a" "" "x"] (NewWorld 15 30))).2 = Panic.
Proof. apply model_renew_panics; vm_compute; reflexivity. Defined.

(** ** Decimal printing *)

(** Decimal printing in the model is exact: [itoa] never runs out of its
    20-byte buffer on a [uint64], its text reads back as the number, and so
    different numbers give different operation identifiers. *)
Theorem itoa_roundtrip n :
  is_u64 n ->
  exists s, itoa n = Some s /\ decimal 0 s = n /\ (String.length s <= 20)%nat /\
    forall m, is_u64 m -> itoa m = Some s -> m = n.
Proof.
  assert (forall k, is_u64 k ->
    exists s, itoa k = Some s /\ decimal 0 s = k /\ (String.length s <= 20)%nat) as H.
  { intros k Hk. unfold itoa. case_bool_decide as E; [subst; eexists; split; [done |]; split; [done | simpl; lia] |].
    by apply itoa_loop_u64. }
  intros Hn. destruct (H n Hn) as (s & Es & Ds & Ls). exists s. do 3 (split; [done |]).
  intros m Hm Em. destruct (H m Hm) as (s' & Es' & Ds' & _). congruence.
Qed.

Lemma itoa_roundtrip_witness :
  exists s, itoa 18446744073709551615 = Some s /\ decimal 0 s = 18446744073709551615.
Proof.
  destruct (itoa_roundtrip 18446744073709551615 ltac:(by_eval)) as (s & H1 & H2 & _).
  exists s. split; assumption.
Defined.
