(* ===== verification/Simulation.v ===== *)
(** * Simulated time ([internal/testclock/clock.go], [internal/simulation/scenario.go])

    The clock of the tests, then the scenarios run on it and their bridge to the
    protocol model.  Time that moves only by [Advance] and [Set].  Channels have room for one value;
    they are named by numbers.  The loop that catches a ticker up is fuelled: [None] is a
    loop that is still running. *)

From S2P Require Import Prelude Types.

#[local] Open Scope Z_scope.

Record timer := mkTimer { tm_when : Time; tm_ch : nat }.
Record ticker := mkTicker { tk_d : Duration; tk_next : Time; tk_ch : nat; tk_stopped : bool }.

Record Clock := mkClock {
  ck_now : Time; ck_timers : list timer; ck_tickers : list ticker; ck_chans : gmap nat (option Time); ck_fresh : nat }.

(** [New]; the epoch of Unix when no time is given. *)
Definition New (start : option Time) : Clock := mkClock (default 0 start) [] [] ∅ 0.

(** [select { case ch <- t: default: }] on a channel with room for one. *)
Definition offer (t : Time) (ch : nat) (m : gmap nat (option Time)) : gmap nat (option Time) :=
  match m !! ch with Some (Some _) => m | _ => <[ch := Some t]> m end.

Fixpoint fire_timers (now : Time) (ts : list timer) (m : gmap nat (option Time)) : list timer * gmap nat (option Time) :=
  match ts with
  | [] => ([], m)
  | t :: ts =>
    if bool_decide (tm_when t <= now) then fire_timers now ts (offer (tm_when t) (tm_ch t) m)
    else let '(rest, m) := fire_timers now ts m in (t :: rest, m)
  end.

(** [for !tk.next.After(c.now)]. *)
Fixpoint catch_up (fuel : nat) (now : Time) (tk : ticker) (m : gmap nat (option Time)) : option (ticker * gmap nat (option Time)) :=
  if bool_decide (tk_next tk <= now) then
    match fuel with
    | O => None
    | S fuel => catch_up fuel now (mkTicker (tk_d tk) (tk_next tk + tk_d tk) (tk_ch tk) (tk_stopped tk)) (offer (tk_next tk) (tk_ch tk) m)
    end
  else Some (tk, m).

Fixpoint fire_tickers (fuel : nat) (now : Time) (tks : list ticker) (m : gmap nat (option Time))
  : option (list ticker * gmap nat (option Time)) :=
  match tks with
  | [] => Some ([], m)
  | tk :: tks =>
    match (if tk_stopped tk then Some (tk, m) else catch_up fuel now tk m) with
    | None => None
    | Some (tk, m) =>
      match fire_tickers fuel now tks m with Some (tks, m) => Some (tk :: tks, m) | None => None end
    end
  end.

Definition fireLocked (fuel : nat) (c : Clock) : option Clock :=
  let '(ts, m) := fire_timers (ck_now c) (ck_timers c) (ck_chans c) in
  match fire_tickers fuel (ck_now c) (ck_tickers c) m with
  | Some (tks, m) => Some (mkClock (ck_now c) ts tks m (ck_fresh c))
  | None => None
  end.

Definition set_now (t : Time) (c : Clock) : Clock := mkClock t (ck_timers c) (ck_tickers c) (ck_chans c) (ck_fresh c).

Definition Set_ (fuel : nat) (t : Time) (c : Clock) : option Clock := fireLocked fuel (set_now t c).
Definition Advance (fuel : nat) (d : Duration) (c : Clock) : option Clock := Set_ fuel (ck_now c + d) c.

(** [After]: the clock and the channel. *)
Definition After_ (d : Duration) (c : Clock) : Clock * nat :=
  let ch := ck_fresh c in
  if bool_decide (d <= 0)
  then (mkClock (ck_now c) (ck_timers c) (ck_tickers c) (<[ch := Some (ck_now c)]> (ck_chans c)) (S ch), ch)
  else (mkClock (ck_now c) (ck_timers c ++ [mkTimer (ck_now c + d) ch]) (ck_tickers c) (<[ch := None]> (ck_chans c)) (S ch), ch).

Definition NewTicker (d : Duration) (c : Clock) : Clock * nat :=
  let ch := ck_fresh c in
  (mkClock (ck_now c) (ck_timers c) (ck_tickers c ++ [mkTicker d (ck_now c + d) ch false]) (<[ch := None]> (ck_chans c)) (S ch), ch).

(** [Stop] of the handle of the ticker with this channel. *)
Definition Stop (ch : nat) (c : Clock) : Clock :=
  mkClock (ck_now c) (ck_timers c)
    ((fun tk => if bool_decide (tk_ch tk = ch) then mkTicker (tk_d tk) (tk_next tk) (tk_ch tk) true else tk) <$> ck_tickers c)
    (ck_chans c) (ck_fresh c).

(** A receive from a channel that has a value. *)
Definition recv (ch : nat) (c : Clock) : option (Time * Clock) :=
  match ck_chans c !! ch with
  | Some (Some t) => Some (t, mkClock (ck_now c) (ck_timers c) (ck_tickers c) (<[ch := None]> (ck_chans c)) (ck_fresh c))
  | _ => None
  end.

(** ** Termination *)

(** A ticker with a positive period catches up in the steps its lag allows, and is
    then in the future. *)
Lemma catch_up_done fuel now : forall tk m, 0 < tk_d tk -> now - tk_next tk < Z.of_nat fuel * tk_d tk ->
  exists tk' m', catch_up fuel now tk m = Some (tk', m') /\ now < tk_next tk' /\ tk_d tk' = tk_d tk /\ tk_ch tk' = tk_ch tk /\
    (forall ch, ch ≠ tk_ch tk -> m' !! ch = m !! ch).
Proof.
  induction fuel as [|fuel IH]; intros tk m Hd Hf; cbn [catch_up]; destruct (bool_decide_reflect (tk_next tk <= now)) as [Hle|Hgt].
  - lia.
  - exists tk, m. by split_and!; try lia.
  - destruct (IH (mkTicker (tk_d tk) (tk_next tk + tk_d tk) (tk_ch tk) (tk_stopped tk)) (offer (tk_next tk) (tk_ch tk) m)) as (tk' & m' & -> & H1 & H2 & H3 & H4);
      cbn [tk_d tk_next tk_ch] in *; [done | lia |].
    exists tk', m'. split_and!; try done. intros ch Hch. rewrite H4 by done. unfold offer. repeat case_match; rewrite ?lookup_insert_ne by done; done.
  - exists tk, m. by split_and!; try lia.
Qed.

(** A ticker that lags as much as a clock can: *)
Definition lag_ok (fuel : nat) (now : Time) (tk : ticker) : Prop := tk_stopped tk = true \/ (0 < tk_d tk /\ now - tk_next tk < Z.of_nat fuel * tk_d tk).

Lemma fire_tickers_done fuel now tks : Forall (lag_ok fuel now) tks -> forall m,
  exists tks' m', fire_tickers fuel now tks m = Some (tks', m') /\
    Forall (fun tk => tk_stopped tk = true \/ now < tk_next tk) tks' /\ tk_ch <$> tks' = tk_ch <$> tks /\
    (forall ch, ch ∉ tk_ch <$> tks -> m' !! ch = m !! ch).
Proof.
  induction 1 as [|tk tks Htk _ IH]; intros m; cbn [fire_tickers].
  - exists [], m. by split_and!.
  - assert (exists tk' m1, (if tk_stopped tk then Some (tk, m) else catch_up fuel now tk m) = Some (tk', m1) /\
      (tk_stopped tk' = true \/ now < tk_next tk') /\ tk_ch tk' = tk_ch tk /\ (forall ch, ch ≠ tk_ch tk -> m1 !! ch = m !! ch)) as (tk' & m1 & -> & H1 & H2 & H3).
    { destruct (tk_stopped tk) eqn:E; [exists tk, m; by split_and!; try (by left) |]. destruct Htk as [|[Hd Hl]]; [congruence |].
      destruct (catch_up_done fuel now tk m Hd Hl) as (tk' & m' & H & Hn & _ & Hc & Hm). exists tk', m'. by split_and!; try (by right). }
    destruct (IH m1) as (tks' & m' & -> & H4 & H5 & H6). exists (tk' :: tks'), m'. split; [done |]. split; [by constructor |].
    split; [cbn; by rewrite H2, H5 |]. intros ch [Hn1 Hn2]%not_elem_of_cons. rewrite H6 by done. by apply H3.
Qed.

(** ** Timers *)

Lemma fire_timers_spec now ts : NoDup (tm_ch <$> ts) -> forall m, Forall (fun t => m !! tm_ch t = Some None) ts ->
  let '(rest, m') := fire_timers now ts m in
  rest = filter (fun t => now < tm_when t) ts /\
  Forall (fun t => m' !! tm_ch t = Some (if bool_decide (tm_when t <= now) then Some (tm_when t) else None)) ts /\
  (forall ch, ch ∉ tm_ch <$> ts -> m' !! ch = m !! ch).
Proof.
  induction ts as [|t ts IH]; intros Hnd m Hm; cbn [fire_timers]; [by split_and!; try constructor |].
  apply NoDup_cons in Hnd as [Hni Hnd]. apply Forall_cons in Hm as [Ht Hm].
  destruct (bool_decide_reflect (tm_when t <= now)) as [Hle|Hgt].
  - specialize (IH Hnd (offer (tm_when t) (tm_ch t) m)). unfold offer in *. rewrite Ht in *.
    destruct (fire_timers now ts _) as [rest m'] eqn:E. destruct IH as (-> & H2 & H3).
    { rewrite Forall_forall in Hm |- *. intros x Hx. rewrite lookup_insert_ne; [by apply Hm |]. intros Heq. apply Hni. rewrite Heq. by apply list_elem_of_fmap_2. }
    split; [by rewrite filter_cons_False by lia |]. split.
    + constructor; [|done]. rewrite bool_decide_true by lia. rewrite H3 by done. by rewrite lookup_insert_eq.
    + intros ch [Hn1 Hn2]%not_elem_of_cons. rewrite H3 by done. by rewrite lookup_insert_ne.
  - specialize (IH Hnd m Hm). destruct (fire_timers now ts m) as [rest m'] eqn:E. destruct IH as (-> & H2 & H3).
    split; [by rewrite filter_cons_True by lia |]. split.
    + constructor; [|done]. rewrite bool_decide_false by lia. by rewrite H3.
    + intros ch [Hn1 Hn2]%not_elem_of_cons. by rewrite H3.
Qed.

(** ** The clock *)

(** Channels have one user each, and a pending timer lies in the future with an empty
    channel. *)
Record clock_inv (c : Clock) : Prop := {
  ci_distinct : NoDup ((tm_ch <$> ck_timers c) ++ (tk_ch <$> ck_tickers c));
  ci_fresh : forall ch, ch ∈ (tm_ch <$> ck_timers c) ++ (tk_ch <$> ck_tickers c) -> (ch < ck_fresh c)%nat;
  ci_pending : Forall (fun t => ck_now c < tm_when t /\ ck_chans c !! tm_ch t = Some None) (ck_timers c) }.

Lemma New_inv start : clock_inv (New start).
Proof. split; cbn; [constructor | by intros ch ?%elem_of_nil | constructor]. Qed.

Lemma After_inv d c : clock_inv c -> clock_inv (After_ d c).1.
Proof.
  intros [Hd Hf Hp]. assert (ck_fresh c ∉ (tm_ch <$> ck_timers c) ++ (tk_ch <$> ck_tickers c)) as Hn by (intros H%Hf; lia).
  assert (forall o, Forall (fun t => ck_now c < tm_when t /\ <[ck_fresh c := o]> (ck_chans c) !! tm_ch t = Some None) (ck_timers c)) as Hp'.
  { intros o. rewrite Forall_forall in Hp |- *. intros t Ht. destruct (Hp t Ht) as [H1 H2]. split; [done |]. rewrite lookup_insert_ne; [done |].
    intros E. apply Hn. rewrite E. apply elem_of_app. left. by apply list_elem_of_fmap_2. }
  unfold After_. case_bool_decide; split; cbn [fst ck_timers ck_tickers ck_now ck_chans ck_fresh]; try done.
  - intros ch H1%Hf. lia.
  - rewrite fmap_app, <- app_assoc, NoDup_app in *. destruct Hd as (H1 & H2 & H3). split_and!; [done | |].
    + intros x Hx [->|Hx']%elem_of_cons; [apply Hn, elem_of_app; by left | by apply (H2 x)].
    + constructor; [|done]. intros Hx. apply Hn, elem_of_app. by right.
  - intros ch Hch. rewrite fmap_app, <- app_assoc, !elem_of_app in Hch. destruct Hch as [H1|[->%list_elem_of_singleton|H1]]; [|cbn; lia|];
      (enough (ch < ck_fresh c)%nat by lia; apply Hf, elem_of_app; tauto).
  - apply Forall_app. split; [apply Hp' |]. constructor; [|constructor]. cbn. split; [lia | apply lookup_insert_eq].
Qed.

Lemma NewTicker_inv d c : clock_inv c -> clock_inv (NewTicker d c).1.
Proof.
  intros [Hd Hf Hp]. assert (ck_fresh c ∉ (tm_ch <$> ck_timers c) ++ (tk_ch <$> ck_tickers c)) as Hn by (intros H%Hf; lia).
  unfold NewTicker. split; cbn [fst ck_timers ck_tickers ck_now ck_chans ck_fresh].
  - rewrite fmap_app, app_assoc. apply NoDup_app. split_and!; [done | | apply NoDup_singleton]. intros x Hx ->%list_elem_of_singleton. by apply Hn.
  - intros ch. rewrite fmap_app, app_assoc, elem_of_app. intros [H1%Hf| ->%list_elem_of_singleton]; cbn; lia.
  - rewrite Forall_forall in Hp |- *. intros t Ht. destruct (Hp t Ht) as [H1 H2]. split; [done |]. rewrite lookup_insert_ne; [done |].
    intros E. apply Hn. rewrite E. apply elem_of_app. left. by apply list_elem_of_fmap_2.
Qed.

Lemma Stop_inv ch c : clock_inv c -> clock_inv (Stop ch c).
Proof.
  intros [Hd Hf Hp]. assert (tk_ch <$> ck_tickers (Stop ch c) = tk_ch <$> ck_tickers c) as E.
  { unfold Stop; cbn. rewrite <- list_fmap_compose. apply list_fmap_ext. intros i tk _. cbn. by case_bool_decide. }
  split; rewrite ?E; done.
Qed.

Lemma recv_inv ch t c c' : clock_inv c -> recv ch c = Some (t, c') -> clock_inv c'.
Proof.
  intros [Hd Hf Hp]. unfold recv. destruct (ck_chans c !! ch) as [[t0|]|] eqn:E; try done. intros [= <- <-]. split; [done .. |]. cbn.
  rewrite Forall_forall in Hp |- *. intros x Hx. destruct (Hp x Hx) as [H1 H2]. split; [done |]. rewrite lookup_insert_ne; [done |]. congruence.
Qed.

(** Moving the clock fires exactly what is due.  With fuel for the tickers (none with a
    period of zero or less), [Set] returns; every timer that is due at the new time has
    its time in its channel and is pending no longer, every other timer is pending as
    before, and every running ticker is in the future. *)
Theorem clock_fires_due fuel t c : clock_inv c -> Forall (lag_ok fuel t) (ck_tickers c) ->
  exists c', Set_ fuel t c = Some c' /\ clock_inv c' /\ ck_now c' = t /\
    ck_timers c' = filter (fun x => t < tm_when x) (ck_timers c) /\
    Forall (fun x => ck_chans c' !! tm_ch x = Some (if bool_decide (tm_when x <= t) then Some (tm_when x) else None)) (ck_timers c) /\
    Forall (fun tk => tk_stopped tk = true \/ t < tk_next tk) (ck_tickers c').
Proof.
  intros [Hd Hf Hp] Hlag. unfold Set_, fireLocked. cbn [set_now ck_now ck_timers ck_tickers ck_chans ck_fresh].
  apply NoDup_app in Hd as (Hd1 & Hd2 & Hd3).
  pose proof (fire_timers_spec t (ck_timers c) Hd1 (ck_chans c)) as Hts. destruct (fire_timers t (ck_timers c) (ck_chans c)) as [ts m].
  destruct Hts as (-> & Hc & Ho); [eapply Forall_impl; [exact Hp | by intros x [_ ?]] |].
  destruct (fire_tickers_done fuel t (ck_tickers c) Hlag m) as (tks & m' & -> & Ht & Hch & Hm).
  assert (Forall (fun x => m' !! tm_ch x = Some (if bool_decide (tm_when x <= t) then Some (tm_when x) else None)) (ck_timers c)) as Hc'.
  { rewrite Forall_forall in Hc |- *. intros x Hx. rewrite Hm; [by apply Hc |]. apply Hd2. by apply list_elem_of_fmap_2. }
  eexists. split; [done |]. split_and!; try done.
  assert ((tm_ch <$> filter (fun x => t < tm_when x) (ck_timers c)) `sublist_of` (tm_ch <$> ck_timers c)) as Hsub by apply fmap_sublist, sublist_filter.
  split; cbn [ck_timers ck_tickers ck_now ck_chans ck_fresh].
  - rewrite Hch. apply NoDup_app. split_and!; [exact (sublist_NoDup _ _ Hd1 Hsub) | | done]. intros x Hx. apply Hd2. by apply (sublist_subseteq _ _ Hsub).
  - rewrite Hch. intros ch Hx. apply Hf. rewrite elem_of_app in Hx |- *. destruct Hx as [Hx|Hx]; [left; by apply (sublist_subseteq _ _ Hsub) | by right].
  - rewrite Forall_forall in Hc' |- *. intros x [Hx1 Hx2]%list_elem_of_filter. split; [done |]. rewrite (Hc' x Hx2). by rewrite bool_decide_false by lia.
Qed.

(** A ticker with a period of zero or less stops the clock for good: every move, with
    the mutex held, never returns. *)
Lemma stuck_ticker fuel d e c : d <= 0 -> 0 <= e -> Forall (lag_ok fuel (ck_now c + e)) (ck_tickers c) ->
  Advance fuel e (NewTicker d c).1 = None.
Proof.
  intros Hd He Hl. unfold Advance, Set_, fireLocked. cbn [NewTicker fst set_now ck_now ck_timers ck_tickers ck_chans ck_fresh].
  destruct (fire_timers _ _ _) as [ts m].
  assert (forall fuel now tk m, tk_d tk <= 0 -> tk_next tk <= now -> catch_up fuel now tk m = None) as Hcu.
  { clear. induction fuel as [|fuel IH]; intros now tk m Hd Hn; cbn [catch_up]; rewrite bool_decide_true by done; [done |]. apply IH; cbn; lia. }
  enough (forall tks m, Forall (lag_ok fuel (ck_now c + e)) tks ->
    fire_tickers fuel (ck_now c + e) (tks ++ [mkTicker d (ck_now c + d) (ck_fresh c) false]) m = None) as -> by done.
  intros tks m0 Hf. revert m0. induction Hf as [|tk tks Htk _ IH]; intros m0; cbn [app fire_tickers].
  - cbn [tk_stopped]. by rewrite Hcu by (cbn; lia).
  - destruct (if tk_stopped tk then _ else _) as [[tk' m1]|]; [|done]. by rewrite IH.
Qed.

(** Stopping that ticker frees the clock. *)
Lemma stopped_ticker_frees : Advance 0 1 (Stop 0 (NewTicker 0 (New None)).1) ≠ None.
Proof. by vm_compute. Qed.

(** ** Simulated scenarios ([internal/simulation/scenario.go])

    A scenario is a list of functions with their offsets, run in order of time over the
    test clock; and the bridge that runs actions of the protocol model and checks its
    invariants after each. *)

From S2P Require Import BackendSpec ProtocolModel.
From stdpp Require Import sorting.

#[local] Open Scope Z_scope.

Section Scenario.
(** The environment of the functions holds the clock. *)
Context {E : Type} (clk : E -> Clock) (set_clk : Clock -> E -> E).

Record step := mkStep { st_at : Duration; st_name : string; st_fn : E -> E * option string }.

(** [At] and [Pause] on the list of steps. *)
Definition At (d : Duration) (name : string) (fn : E -> E * option string) (ss : list step) : list step := ss ++ [mkStep d name fn].
Definition Pause (d : Duration) (name : string) : list step -> list step := At d ("pause:" +:+ name) (fun e => (e, None)).

(** *** The two nested loops that sort the steps *)

(** The inner loop: [x] is [steps[i]], exchanged with every earlier step it meets. *)
Fixpoint exchange (x : step) (l : list step) : step * list step :=
  match l with
  | [] => (x, [])
  | y :: l =>
    if bool_decide (st_at y < st_at x) then let '(m, l) := exchange y l in (m, x :: l)
    else let '(m, l) := exchange x l in (m, y :: l)
  end.

Fixpoint exchange_sort (n : nat) (l : list step) : list step :=
  match n, l with
  | S n, x :: l => let '(m, l) := exchange x l in m :: exchange_sort n l
  | _, _ => l
  end.

Definition sort_steps (l : list step) : list step := exchange_sort (length l) l.

(** *** The run *)

(** Rounds of the loops over the tickers: a period is a nanosecond or more. *)
Definition enough (d : Duration) (c : Clock) : nat :=
  S (foldr Nat.max 0%nat ((fun tk => Z.to_nat (ck_now c + d - tk_next tk)) <$> ck_tickers c)).

(** The times at which functions were called, and the name of the one that failed;
    [None] when the clock never returns. *)
Fixpoint run_steps (last : Duration) (ss : list step) (e : E) : option (list (string * Time) * E * option string) :=
  match ss with
  | [] => Some ([], e, None)
  | s :: ss =>
    match (if bool_decide (last < st_at s)
           then (fun c => set_clk c e) <$> Advance (enough (st_at s - last) (clk e)) (st_at s - last) (clk e)
           else Some e) with
    | None => None
    | Some e =>
      let call := (st_name s, ck_now (clk e)) in
      match st_fn s e with
      | (e, Some _) => Some ([call], e, Some (st_name s))
      | (e, None) =>
        match run_steps (if bool_decide (last < st_at s) then st_at s else last) ss e with
        | None => None
        | Some (log, e, r) => Some (call :: log, e, r)
        end
      end
    end
  end.

Definition Scenario_Run (ss : list step) (e : E) : option (list (string * Time) * E * option string) := run_steps 0 (sort_steps ss) e.

(** ** The sort *)

Definition earlier (a b : step) : Prop := st_at a <= st_at b.

Lemma exchange_spec l : forall x, let '(m, l') := exchange x l in
  x :: l ≡ₚ m :: l' /\ Forall (earlier m) l' /\ earlier m x.
Proof.
  induction l as [|y l IH]; intros x; cbn [exchange]; [split_and!; [done | constructor | unfold earlier; lia] |].
  destruct (bool_decide_reflect (st_at y < st_at x)) as [Hlt|Hge].
  - specialize (IH y). destruct (exchange y l) as [m l']. destruct IH as (Hp & Hf & Hm). unfold earlier in *. split_and!; [| |lia].
    + rewrite Hp. apply Permutation_swap.
    + constructor; [lia | done].
  - specialize (IH x). destruct (exchange x l) as [m l']. destruct IH as (Hp & Hf & Hm). unfold earlier in *. split_and!; [| |lia].
    + rewrite Permutation_swap, Hp. apply Permutation_swap.
    + constructor; [lia | done].
Qed.

Lemma sort_steps_spec l : sort_steps l ≡ₚ l /\ StronglySorted earlier (sort_steps l).
Proof.
  unfold sort_steps. enough (forall n l, length l = n -> exchange_sort n l ≡ₚ l /\ StronglySorted earlier (exchange_sort n l)) as H by by apply H.
  clear. induction n as [|n IH]; intros [|x l] Hl; try done; cbn [exchange_sort]; [split; [done | constructor] |].
  pose proof (exchange_spec l x) as Hx. destruct (exchange x l) as [m l']. destruct Hx as (Hp & Hf & _).
  assert (length l' = n) as Hl' by (apply Permutation_length in Hp; cbn in *; lia).
  destruct (IH l' Hl') as [Hp' Hs]. split; [by rewrite Hp', <- Hp |]. constructor; [done |]. by rewrite Hp'.
Qed.

(** ** Functions run at their offsets *)

Definition running (c : Clock) : Prop := clock_inv c /\ Forall (fun tk => tk_stopped tk = true \/ 0 < tk_d tk) (ck_tickers c).

Lemma enough_lag d c : running c -> Forall (lag_ok (enough d c) (ck_now c + d)) (ck_tickers c).
Proof.
  intros [_ Hf]. unfold enough. set (ns := (fun tk => Z.to_nat (ck_now c + d - tk_next tk)) <$> ck_tickers c).
  assert (forall tk, tk ∈ ck_tickers c -> (Z.to_nat (ck_now c + d - tk_next tk) <= foldr Nat.max 0 ns)%nat) as Hm.
  { intros tk Htk. assert (Z.to_nat (ck_now c + d - tk_next tk) ∈ ns) as Hin by (apply list_elem_of_fmap; by exists tk).
    clearbody ns. induction ns as [|n ns IH]; [by apply elem_of_nil in Hin |]. cbn. apply elem_of_cons in Hin as [<-|Hin]; [lia | specialize (IH Hin); lia]. }
  rewrite Forall_forall in Hf |- *. intros tk Htk. destruct (Hf tk Htk) as [Hs|Hd]; [by left | right]. specialize (Hm tk Htk). split; [done | nia].
Qed.

Lemma catch_up_period fuel now : forall tk m tk' m', catch_up fuel now tk m = Some (tk', m') -> tk_d tk' = tk_d tk /\ tk_stopped tk' = tk_stopped tk.
Proof.
  induction fuel as [|fuel IH]; intros tk m tk' m'; cbn [catch_up]; case_bool_decide; try done; try (by intros [= <- <-]).
  intros Hc. by apply IH in Hc.
Qed.

Lemma fire_tickers_periods fuel now : forall tks m tks' m', fire_tickers fuel now tks m = Some (tks', m') ->
  (fun tk => (tk_d tk, tk_stopped tk)) <$> tks' = (fun tk => (tk_d tk, tk_stopped tk)) <$> tks.
Proof.
  induction tks as [|tk tks IH]; intros m tks' m'; cbn [fire_tickers]; [by intros [= <- <-] |].
  destruct (if tk_stopped tk then _ else _) as [[tk' m1]|] eqn:Et; [|done].
  destruct (fire_tickers fuel now tks m1) as [[tks1 m2]|] eqn:Er; [|done]. intros [= <- <-]. cbn. rewrite (IH _ _ _ Er). f_equal.
  destruct (tk_stopped tk) eqn:Es; [by injection Et as <- <-; rewrite Es |]. apply catch_up_period in Et as [-> ->]. by rewrite Es.
Qed.

Lemma Advance_returns d c : running c -> exists c', Advance (enough d c) d c = Some c' /\ ck_now c' = ck_now c + d /\ running c'.
Proof.
  intros Hr. destruct (clock_fires_due (enough d c) (ck_now c + d) c (proj1 Hr) (enough_lag d c Hr)) as (c' & Ec & Hi & Hn & _).
  exists c'. split_and!; [done | done |]. split; [done |]. destruct Hr as [_ Hf].
  unfold Simulation.Set_, fireLocked in Ec. cbn [set_now ck_now ck_timers ck_tickers ck_chans ck_fresh] in Ec.
  destruct (fire_timers _ _ _) as [ts m]. destruct (fire_tickers _ _ _ _) as [[tks m']|] eqn:Ef; [|done]. injection Ec as <-. cbn [ck_tickers].
  apply fire_tickers_periods in Ef. rewrite Forall_forall in Hf |- *. intros tk Htk.
  assert ((tk_d tk, tk_stopped tk) ∈ (fun tk => (tk_d tk, tk_stopped tk)) <$> ck_tickers c) as (tk' & [= -> ->] & Hin)%list_elem_of_fmap; [|by apply Hf].
  rewrite <- Ef. apply list_elem_of_fmap. by exists tk.
Qed.

Context (clk_set : forall c e, clk (set_clk c e) = c).

(** A function that leaves the clock where it is, and starts no ticker without a period. *)
Definition stays (s : step) : Prop := forall e, running (clk e) -> running (clk (st_fn s e).1) /\ ck_now (clk (st_fn s e).1) = ck_now (clk e).

Lemma run_steps_times ss : forall last e start, StronglySorted earlier ss -> Forall stays ss -> running (clk e) -> 0 <= last -> ck_now (clk e) = start + last ->
  exists n e' r, run_steps last ss e = Some ((fun s => (st_name s, start + Z.max last (st_at s))) <$> take n ss, e', r) /\ (r = None -> n = length ss).
Proof.
  induction ss as [|s ss IH]; intros last e start Hs Hf Hr Hl Hn; [by exists 0%nat, e, None |].
  cbn [run_steps]. apply StronglySorted_inv in Hs as [Hs Hle]. apply Forall_cons in Hf as [Hst Hf].
  set (last' := if bool_decide (last < st_at s) then st_at s else last).
  assert (last' = Z.max last (st_at s)) as Hl' by (unfold last'; case_bool_decide; lia).
  assert (exists e1, (if bool_decide (last < st_at s) then (fun c => set_clk c e) <$> Advance (enough (st_at s - last) (clk e)) (st_at s - last) (clk e)
    else Some e) = Some e1 /\ running (clk e1) /\ ck_now (clk e1) = start + last') as (e1 & -> & Hr1 & Hn1).
  { rewrite Hl'. destruct (bool_decide_reflect (last < st_at s)).
    - destruct (Advance_returns (st_at s - last) (clk e) Hr) as (c' & -> & Hc & Hrc). exists (set_clk c' e). cbn. rewrite clk_set. split_and!; [done | done | lia].
    - exists e. split_and!; [done | done | lia]. }
  destruct (Hst e1 Hr1) as [Hr2 Hn2]. destruct (st_fn s e1) as [e2 [err|]] eqn:Es; cbn [fst] in *.
  - exists 1%nat, e2, (Some (st_name s)). cbn. rewrite Hn1, Hl', firstn_O. done.
  - destruct (IH last' e2 start Hs Hf Hr2) as (n & e3 & r & -> & Hr3); [lia | lia |].
    exists (S n), e3, r. cbn [take fmap list_fmap length]. split; [|intros Hn3; f_equal; by apply Hr3]. rewrite Hn1, Hl'. do 4 f_equal.
    apply list_fmap_ext. intros i x Hx%list_elem_of_lookup_2. f_equal. rewrite Forall_forall in Hle. apply elem_of_take in Hx as (j & Hx & _).
    apply list_elem_of_lookup_2 in Hx. specialize (Hle x Hx). unfold earlier in Hle. lia.
Qed.

(** A scenario runs its functions in order of their offsets, each with the clock at its
    offset from the start, until one fails. *)
Theorem scenario_on_time ss e : Forall stays ss -> running (clk e) ->
  exists order n e' r, order ≡ₚ ss /\ StronglySorted earlier order /\
    Scenario_Run ss e = Some ((fun s => (st_name s, ck_now (clk e) + Z.max 0 (st_at s))) <$> take n order, e', r) /\ (r = None -> n = length ss).
Proof.
  intros Hf Hr. destruct (sort_steps_spec ss) as [Hp Hs]. exists (sort_steps ss).
  destruct (run_steps_times (sort_steps ss) 0 e (ck_now (clk e)) Hs) as (n & e' & r & E1 & E2); [by rewrite Hp | done | lia | lia |].
  exists n, e', r. split_and!; [done | done | done |]. intros Hn. by rewrite (E2 Hn), Hp.
Qed.
End Scenario.

(** The sort is not stable: two steps with the same offset change places when an
    earlier one follows them. *)
Lemma same_time_reordered (f : unit -> unit * option string) :
  st_name <$> sort_steps (At 1 "c" f (At 2 "b" f (At 2 "a" f []))) = ["c"; "b"; "a"].
Proof. reflexivity. Qed.

(** ** The bridge to the protocol model *)

Inductive sim_result := SimOk | SimViolation (inv : string) | SimPanic.

Fixpoint model_actions (acts : list Action) (w : World) : sim_result :=
  match acts with
  | [] => SimOk
  | a :: acts =>
    match Apply a w with
    | (_, Panic) => SimPanic
    | (w', _) =>
      match CheckTokenMonotonic (TokenSnapshot w) (TokenSnapshot w') with
      | Some inv => SimViolation inv
      | None => match CheckInvariants w' with Some inv => SimViolation inv | None => model_actions acts w' end
      end
    end
  end.

Definition RunModelActions (acts : list Action) : sim_result := model_actions acts (NewWorld 15 30).

(** Every action of the list is disciplined in the world it meets. *)
Fixpoint all_disciplined (acts : list Action) (w : World) : Prop :=
  match acts with [] => True | a :: acts => disciplined a w /\ all_disciplined acts (Apply a w).1 end.

Lemma tokens_monotonic w w' : world_effect w w' -> CheckTokenMonotonic (TokenSnapshot w) (TokenSnapshot w') = None.
Proof.
  intros [_ Hc _]. apply CheckTokenMonotonic_ok. unfold TokenSnapshot. intros n p c Hp Hc'.
  apply lookup_fmap_Some in Hp as (d & <- & Ed). apply lookup_fmap_Some in Hc' as (d' & <- & Ed').
  destruct (cell_steps_epoch _ _ (Hc n)) as [Hle _]. unfold claim in Hle. by rewrite Ed, Ed' in Hle.
Qed.

(** The bridge never reports a violation on disciplined actions. *)
Theorem bridge_finds_nothing acts inv : all_disciplined acts (NewWorld 15 30) -> RunModelActions acts ≠ SimViolation inv.
Proof.
  unfold RunModelActions. assert (world_inv (NewWorld 15 30)) as Hi by (apply world_inv_New; by_eval).
  revert Hi. generalize (NewWorld 15 30). induction acts as [|a acts IH]; intros w Hi Hd; [done |].
  cbn [model_actions all_disciplined] in *. destruct Hd as [Hd Hall]. pose proof (Apply_effect a w Hi Hd) as He.
  destruct (Apply a w) as [w' o]. cbn [fst] in *. rewrite (tokens_monotonic _ _ He), (CheckInvariants_ok w') by apply He.
  specialize (IH w' (we_inv _ _ He) Hall). by destruct o.
Qed.

(** It does report a replayed operation. *)
Lemma bridge_finds_replay :
  RunModelActions [act ActRequestClaim "a" "" "x"; act ActReleaseClaim "a" "" ""; act ActRequestClaim "b" "" "y"; act ActRequestClaim "a" "" "x"]
  = SimViolation InvTokenMonotonic.
Proof. vm_compute. reflexivity. Qed.
