(* ===== verification/Drain.v ===== *)
(** * Draining in-flight work ([drain.go])

    [DrainGroup] counts operations in flight; [Begin]/[BeginNamed] hand out a
    release function guarded by a [sync.Once].  The release functions handed out
    so far are part of the state: the [i]-th one is the [i]-th _ticket_, with the
    name it was started under and whether it was called.  Every step is one
    critical section of the mutex; [Close] stores its flag before it takes the
    mutex, so it is two steps. *)

From S2P Require Import Prelude Types.

(** ** State *)

Record ticket := mkTicket { t_name : string; t_released : bool }.

Record DrainGroup := mkDrain {
  active : Z;
  named : gmap string Z;
  maxNamed : Z;
  draining : bool;
  done_closed : bool;      (* the channel [done] was closed *)
  deadline : bool;         (* a deadline channel was set *)
  dclosed : bool;
  tickets : list ticket }.

Definition NewDrainGroup (maxNamed : Z) : DrainGroup :=
  mkDrain 0 ∅ maxNamed false false false false [].

(** ** Operations *)

(** [g.named[name]] of a missing key is 0. *)
Definition named_count (name : string) (g : DrainGroup) : Z :=
  default 0 (named g !! name).

(** A started operation: its ticket, and the counts. *)
Definition begin_ticket (name : string) (nm : gmap string Z) (g : DrainGroup) : DrainGroup :=
  mkDrain (active g + 1) nm (maxNamed g) (draining g) (done_closed g) (deadline g)
    (dclosed g) (tickets g ++ [mkTicket name false]).

Definition BeginNamed (name : string) (g : DrainGroup) :
    DrainGroup * (option nat * option error) :=
  if dclosed g then (g, (None, Some (Sentinel ErrClosed)))
  else if draining g then (g, (None, Some (Sentinel ErrDraining)))
  else if negb (bool_decide (name = "")) && bool_decide (0 < maxNamed g) then
    if bool_decide (maxNamed g <= named_count name g) then
      (g, (None, Some (Typed (mkErrorOf "drain.BeginNamed" name "" 0 ReasonNone
                                (Some (Sentinel ErrPolicy)) "named op limit reached" "" ""))))
    else (begin_ticket name (<[name := named_count name g + 1]> (named g)) g,
          (Some (length (tickets g)), None))
  else (begin_ticket name (named g) g, (Some (length (tickets g)), None)).

Definition Begin (g : DrainGroup) : DrainGroup * (option nat * option error) := BeginNamed "" g.

(** Close [done] unless it is closed. *)
Definition close_done (g : DrainGroup) : DrainGroup :=
  mkDrain (active g) (named g) (maxNamed g) (draining g) true (deadline g) (dclosed g) (tickets g).

(** The [i]-th release function. *)
Definition release (i : nat) (g : DrainGroup) : DrainGroup :=
  match tickets g !! i with
  | None => g
  | Some t =>
      if t_released t then g
      else
        let name := t_name t in
        let nm :=
          if decide (name = "") then named g
          else let k := named_count name g - 1 in
               if bool_decide (k <= 0) then delete name (named g) else <[name := k]> (named g) in
        let g := mkDrain (active g - 1) nm (maxNamed g) (draining g) (done_closed g)
                   (deadline g) (dclosed g) (<[i := mkTicket name true]> (tickets g)) in
        if draining g && bool_decide (active g = 0) then close_done g else g
  end.

Definition Active (g : DrainGroup) : Z := active g.

Definition StartDrain (g : DrainGroup) : DrainGroup :=
  if draining g then g
  else
    let g := mkDrain (active g) (named g) (maxNamed g) true (done_closed g) (deadline g)
               (dclosed g) (tickets g) in
    if bool_decide (active g = 0) then close_done g else g.

Definition SetDeadline (set : bool) (g : DrainGroup) : DrainGroup :=
  mkDrain (active g) (named g) (maxNamed g) (draining g) (done_closed g) set (dclosed g) (tickets g).

(** The two parts of [Close]. *)
Definition mark_closed (g : DrainGroup) : DrainGroup :=
  mkDrain (active g) (named g) (maxNamed g) (draining g) (done_closed g) (deadline g) true (tickets g).

Definition Close (g : DrainGroup) : DrainGroup := StartDrain (mark_closed g).

Definition Draining (g : DrainGroup) : bool := draining g.

(** [Wait] starts the drain and then selects: the results it may return in this
    state, given whether the context ended and whether the deadline channel is
    closed; none when it blocks. *)
Definition Wait (ctx : option ctx_error) (deadline_over : bool) (g : DrainGroup) :
    DrainGroup * list (option error) :=
  let g := StartDrain g in
  (g,
   (if done_closed g then [None] else []) ++
   (match ctx with
    | Some e => [Some (mkError "drain.Wait" (Sentinel ErrTimeout) (ctx_text e))]
    | None => []
    end) ++
   (if deadline g && deadline_over
    then [Some (mkError "drain.Wait" (Sentinel ErrTimeout) "drain deadline exceeded")]
    else [])).

Inductive drain_step : DrainGroup -> DrainGroup -> Prop :=
| ds_begin name g : drain_step g (BeginNamed name g).1
| ds_release i g : drain_step g (release i g)
| ds_start g : drain_step g (StartDrain g)
| ds_deadline b g : drain_step g (SetDeadline b g)
| ds_mark g : drain_step g (mark_closed g).

Definition drain_reachable (g : DrainGroup) : Prop :=
  exists k, steps drain_step (NewDrainGroup k) g.

(** * Facts *)

(** Operations in flight: tickets that were not released, of one name or all. *)
Definition in_flight (P : string -> bool) (ts : list ticket) : Z :=
  Z.of_nat (length (filter (λ t, t_released t = false ∧ P (t_name t) = true) ts)).

Definition any_name (_ : string) : bool := true.
Definition is_name (n m : string) : bool := bool_decide (n = m).

Lemma is_name_eq n : is_name n n = true.
Proof. by apply bool_decide_eq_true_2. Qed.

Lemma is_name_ne n m : n ≠ m -> is_name n m = false.
Proof. apply bool_decide_eq_false_2. Qed.

Lemma in_flight_nonneg P ts : 0 <= in_flight P ts.
Proof. unfold in_flight. lia. Qed.

Lemma in_flight_snoc P ts name :
  in_flight P (ts ++ [mkTicket name false]) = in_flight P ts + (if P name then 1 else 0).
Proof.
  unfold in_flight. rewrite filter_app, length_app, filter_cons, filter_nil.
  destruct (P name) eqn:E; case_decide as H; cbn [t_name t_released length] in *; try lia;
    first [destruct H; congruence | exfalso; by apply H].
Qed.

Lemma in_flight_release P ts i name :
  ts !! i = Some (mkTicket name false) ->
  in_flight P (<[i := mkTicket name true]> ts) = in_flight P ts - (if P name then 1 else 0).
Proof.
  unfold in_flight. revert i. induction ts as [|t ts IH]; intros [|i] E; simplify_eq/=.
  - rewrite !filter_cons. destruct (P name) eqn:E; case_decide as H1; case_decide as H2;
      cbn [t_name t_released length] in *; try lia;
      first [destruct H1; congruence | destruct H2; congruence | exfalso; by apply H1
            | exfalso; by apply H2].
  - specialize (IH i E). rewrite !filter_cons. case_decide; simpl; lia.
Qed.

Lemma in_flight_zero ts :
  in_flight any_name ts = 0 <-> Forall (λ t, t_released t = true) ts.
Proof.
  unfold in_flight. split.
  - intros H. apply Forall_forall. intros t Ht. destruct (t_released t) eqn:E; [done |].
    assert (t ∈ filter (λ t, t_released t = false ∧ any_name (t_name t) = true) ts) as Hin
      by (by apply list_elem_of_filter).
    destruct (filter _ ts); [by apply not_elem_of_nil in Hin | simpl in H; lia].
  - intros H. induction H as [|t ts Ht _ IH]; [done |]. rewrite filter_cons.
    case_decide as Hd; [|done]. destruct Hd. congruence.
Qed.

Record drain_inv (g : DrainGroup) : Prop := mkDrainInv {
  di_active : active g = in_flight any_name (tickets g);
  di_named : 0 < maxNamed g -> forall n, n ≠ "" ->
    named_count n g = in_flight (is_name n) (tickets g) /\ named_count n g <= maxNamed g;
  di_done : done_closed g = draining g && bool_decide (active g = 0) }.

Lemma named_count_insert n m k g g' :
  named g' = <[m := k]> (named g) -> named_count n g' = if decide (n = m) then k else named_count n g.
Proof.
  intros E. unfold named_count. rewrite E. case_decide as H; subst;
    [by rewrite lookup_insert_eq | by rewrite lookup_insert_ne].
Qed.

Lemma named_count_delete n m g g' :
  named g' = delete m (named g) -> named_count n g' = if decide (n = m) then 0 else named_count n g.
Proof.
  intros E. unfold named_count. rewrite E. case_decide as H; subst;
    [by rewrite lookup_delete_eq | by rewrite lookup_delete_ne].
Qed.

Lemma drain_inv_New k : drain_inv (NewDrainGroup k).
Proof.
  split; [done | | done]. intros Hk n Hn. unfold named_count. simpl in *.
  rewrite lookup_empty. simpl. split; [done | lia].
Qed.

Lemma BeginNamed_inv name g : drain_inv g -> drain_inv (BeginNamed name g).1.
Proof.
  intros Hg. pose proof Hg as [Ha Hn Hd]. unfold BeginNamed. case_match; [done |].
  destruct (draining g) eqn:Edr; [done |].
  assert (forall nm, drain_inv (begin_ticket name nm g) <->
    (0 < maxNamed g -> forall n, n ≠ "" ->
      default 0 (nm !! n) = in_flight (is_name n) (tickets g) + (if is_name n name then 1 else 0) /\
      default 0 (nm !! n) <= maxNamed g)) as Hiff.
  { intros nm. split.
    - intros [_ Hx _] H0 n Hne. specialize (Hx H0 n Hne). simpl in Hx.
      rewrite in_flight_snoc in Hx. exact Hx.
    - intros Hx. split; simpl; [by rewrite in_flight_snoc, Ha | | by rewrite Hd, Edr].
      intros H0 n Hne. rewrite in_flight_snoc. by apply Hx. }
  destruct (negb (bool_decide (name = "")) && bool_decide (0 < maxNamed g)) eqn:Eb.
  - destruct (bool_decide_reflect (maxNamed g <= named_count name g)) as [Hlim|Hlim]; [done |].
    apply Hiff. intros H0 n Hne. unfold is_name.
    destruct (Hn H0 n Hne) as [H1 H2]. destruct (decide (n = name)) as [->|Hnn].
    + rewrite lookup_insert_eq, bool_decide_eq_true_2 by done. simpl.
      fold (is_name name). lia.
    + rewrite lookup_insert_ne, bool_decide_eq_false_2 by done. rewrite Z.add_0_r.
      fold (is_name n). fold (named_count n g). done.
  - apply Hiff. intros H0 n Hne. destruct (Hn H0 n Hne) as [H1 H2]. unfold is_name.
    apply andb_false_iff in Eb as [Eb|Eb]; [|by apply bool_decide_eq_false in Eb].
    apply negb_false_iff, bool_decide_eq_true in Eb as ->.
    rewrite bool_decide_eq_false_2 by done. rewrite Z.add_0_r. done.
Qed.

(** The release of ticket [i] before the final check. *)
Lemma release_counts g i name nm :
  drain_inv g -> tickets g !! i = Some (mkTicket name false) ->
  nm = (if decide (name = "") then named g
        else let k := named_count name g - 1 in
             if bool_decide (k <= 0) then delete name (named g) else <[name := k]> (named g)) ->
  0 < maxNamed g -> forall n, n ≠ "" ->
  default 0 (nm !! n) = in_flight (is_name n) (<[i := mkTicket name true]> (tickets g)) /\
  default 0 (nm !! n) <= maxNamed g.
Proof.
  intros [_ Hn _] Hi -> H0 n Hne. destruct (Hn H0 n Hne) as [H1 H2].
  pose proof (in_flight_nonneg (is_name n) (<[i := mkTicket name true]> (tickets g))) as Hp.
  rewrite (in_flight_release _ _ _ _ Hi) in *. unfold named_count in *.
  destruct (decide (n = name)) as [->|Hnn].
  - rewrite is_name_eq in *. rewrite decide_False by done. simpl.
    case_bool_decide; rewrite ?lookup_delete_eq, ?lookup_insert_eq; simpl; lia.
  - rewrite is_name_ne in * by done. rewrite Z.sub_0_r in *.
    case_decide; [done |]. simpl.
    case_bool_decide; rewrite ?lookup_delete_ne, ?lookup_insert_ne by done; done.
Qed.

Lemma release_inv i g : drain_inv g -> drain_inv (release i g).
Proof.
  intros Hg. unfold release. destruct (tickets g !! i) as [[name []]|] eqn:Hi; [done | |done].
  cbn [t_released t_name]. set (nm := if decide (name = "") then _ else _).
  pose proof (release_counts g i name nm Hg Hi eq_refl) as Hnm.
  destruct Hg as [Ha _ Hd].
  assert (active g - 1 = in_flight any_name (<[i := mkTicket name true]> (tickets g))) as Ha'
    by (rewrite (in_flight_release _ _ _ _ Hi), Ha; done).
  assert (0 < active g) as Hpos.
  { rewrite Ha. pose proof (in_flight_nonneg any_name (<[i := mkTicket name true]> (tickets g))). lia. }
  cbn [draining active]. destruct (draining g && bool_decide (active g - 1 = 0)) eqn:E;
    split; simpl; try done.
  rewrite E, Hd. rewrite (bool_decide_eq_false_2 (active g = 0)) by lia. apply andb_false_r.
Qed.

Lemma StartDrain_inv g : drain_inv g -> drain_inv (StartDrain g).
Proof.
  intros Hg. pose proof Hg as [Ha Hn Hd]. unfold StartDrain. destruct (draining g) eqn:E; [done |].
  cbn [active]. case_bool_decide as H0; split; simpl; try done.
  - by rewrite bool_decide_eq_true_2.
  - rewrite bool_decide_eq_false_2 by done. by rewrite Hd.
Qed.

Lemma drain_step_inv g g' : drain_inv g -> drain_step g g' -> drain_inv g'.
Proof.
  intros Hg Hs. destruct Hs; [by apply BeginNamed_inv | by apply release_inv |
    by apply StartDrain_inv | by destruct Hg | by destruct Hg].
Qed.

Lemma drain_reachable_inv g : drain_reachable g -> drain_inv g.
Proof.
  intros [k Hs]. eapply steps_invariant; [apply drain_step_inv | exact Hs | apply drain_inv_New].
Qed.

(** Once draining, a group keeps draining and starts nothing. *)
Lemma draining_stable g g' :
  draining g = true -> drain_step g g' ->
  draining g' = true /\ length (tickets g') = length (tickets g) /\ active g' <= active g.
Proof.
  intros Hd Hs. destruct Hs as [name g|i g|g|b g|g]; simpl.
  - unfold BeginNamed. rewrite Hd. case_match; done || (split; [done | split; [done | lia]]).
  - unfold release. repeat case_match; simpl; rewrite ?length_insert; repeat split; done || lia.
  - unfold StartDrain. rewrite Hd. split; [done | split; [done | lia]].
  - split; [done | split; [done | lia]].
  - split; [done | split; [done | lia]].
Qed.

Lemma drained_steps g g' :
  steps drain_step g g' -> drain_inv g -> draining g = true -> active g = 0 ->
  draining g' = true /\ active g' = 0 /\ done_closed g' = true.
Proof.
  induction 1 as [g|a b c Hab _ IH]; intros Hi Hd Ha.
  - split; [done |]. split; [done |]. rewrite (di_done _ Hi), Hd.
    by rewrite bool_decide_eq_true_2.
  - pose proof (drain_step_inv _ _ Hi Hab) as Hb.
    destruct (draining_stable _ _ Hd Hab) as (Hd' & _ & Hle). apply IH; [done | done |].
    pose proof (in_flight_nonneg any_name (tickets b)). rewrite (di_active _ Hb) in *. lia.
Qed.

(** C16: a drain that completed is over.  If [Wait] can return nil, then no
    operation is in flight (every release function handed out was called), and
    in every later state there still is none and [BeginNamed] refuses to start
    one. *)
Theorem drain_wait_quiesces g g' ctx over name :
  drain_reachable g -> None ∈ (Wait ctx over g).2 -> steps drain_step (Wait ctx over g).1 g' ->
  Forall (λ t, t_released t = true) (tickets (Wait ctx over g).1) /\
  Active g' = 0 /\ (BeginNamed name g').1 = g' /\ (BeginNamed name g').2.2 ≠ None.
Proof.
  intros Hr Hn Hs. pose proof (StartDrain_inv _ (drain_reachable_inv _ Hr)) as Hi.
  unfold Wait in *. cbn [fst snd] in *.
  assert (done_closed (StartDrain g) = true) as Hdone.
  { destruct (done_closed (StartDrain g)); [done |]. exfalso. rewrite !elem_of_app in Hn.
    destruct Hn as [Hn|[Hn|Hn]]; [by apply not_elem_of_nil in Hn | |].
    - destruct ctx; [by apply list_elem_of_singleton in Hn | by apply not_elem_of_nil in Hn].
    - destruct (_ && _); [by apply list_elem_of_singleton in Hn | by apply not_elem_of_nil in Hn]. }
  rewrite (di_done _ Hi) in Hdone. apply andb_true_iff in Hdone as [Hd H0%bool_decide_eq_true].
  destruct (drained_steps _ _ Hs Hi Hd H0) as (Hd' & Ha' & _).
  split; [apply in_flight_zero; rewrite <- (di_active _ Hi); exact H0 |].
  split; [done |]. unfold BeginNamed. rewrite Hd'. destruct (dclosed g'); by split.
Qed.

Definition g_done : DrainGroup := StartDrain (release 0 (BeginNamed "job" (NewDrainGroup 2)).1).

Lemma drain_wait_quiesces_witness :
  Active (release 7 g_done) = 0 /\ (BeginNamed "job" (release 7 g_done)).2.2 ≠ None.
Proof.
  refine (let H := drain_wait_quiesces g_done (release 7 g_done) None false "job" _ _ _ in
          conj (proj1 (proj2 H)) (proj2 (proj2 (proj2 H)))).
  - exists 2. eapply steps_cons; [apply (ds_begin "job") |].
    eapply steps_cons; [apply (ds_release 0) |]. apply steps_one. apply ds_start.
  - apply list_elem_of_here.
  - apply steps_one. apply (ds_release 7).
Defined.

(** Draining terminates and counts are exact.  In every reachable state the
    active count is the number of unreleased operations and a positive
    [maxNamed] bounds the unreleased operations of each name; releasing twice is
    releasing once; and as soon as the drain has started and every operation was
    released, [Wait] returns nil without waiting for a context or a deadline. *)
Theorem drain_counts_and_completes g :
  drain_reachable g ->
  Active g = in_flight any_name (tickets g) /\
  (forall n, 0 < maxNamed g -> n ≠ "" -> in_flight (is_name n) (tickets g) <= maxNamed g) /\
  (forall i, release i (release i g) = release i g) /\
  (draining g = true -> Forall (λ t, t_released t = true) (tickets g) ->
   (Wait None false g).2 = [None]).
Proof.
  intros Hr. pose proof (drain_reachable_inv _ Hr) as [Ha Hn Hd].
  split; [done |]. split; [intros n H0 Hne; destruct (Hn H0 n Hne); lia |]. split.
  - intros i. unfold release at 2 3. destruct (tickets g !! i) as [[name []]|] eqn:E; simpl.
    + unfold release. by rewrite E.
    + assert (i < length (tickets g))%nat as Hlt by by eapply lookup_lt_Some.
      case_match; unfold release; simpl; by rewrite list_lookup_insert_eq.
    + unfold release. by rewrite E.
  - intros Hdr Hf. unfold Wait, StartDrain. rewrite Hdr. simpl.
    assert (active g = 0) as H0 by (rewrite Ha; by apply in_flight_zero).
    rewrite Hd, Hdr, H0, andb_false_r. done.
Qed.

Lemma drain_counts_and_completes_witness : (Wait None false g_done).2 = [None].
Proof.
  refine (proj2 (proj2 (proj2 (drain_counts_and_completes g_done _))) _ _).
  - exists 2. eapply steps_cons; [apply (ds_begin "job") |].
    eapply steps_cons; [apply (ds_release 0) |]. apply steps_one. apply ds_start.
  - reflexivity.
  - vm_compute. repeat constructor.
Defined.
