(* ===== verification/Replay.v ===== *)
(** * Replay protection of the root package ([anti_replay.go])

    [ReplayCache] remembers request identifiers for a while and drops its oldest
    entry when it is full.  Each method is one critical section; the clock reading
    is an argument. *)

From S2P Require Import Prelude Types.

(** ** [ReplayCache] *)

Record ReplayCache := mkReplayCache {
  rc_max : Z; rc_entries : gmap string Time; rc_order : list string }.

Definition NewReplayCache (maxEntries : Z) : ReplayCache :=
  mkReplayCache (if bool_decide (maxEntries <= 0) then 1024 else maxEntries) ∅ [].

(** The loop of [evictExpiredLocked]: the keys kept, in order, and the entries. *)
Fixpoint evict_loop (now : Time) (order : list string) (entries : gmap string Time) :
    list string * gmap string Time :=
  match order with
  | [] => ([], entries)
  | k :: rest =>
      match entries !! k with
      | None => evict_loop now rest entries
      | Some exp =>
          if negb (After exp now) then evict_loop now rest (delete k entries)
          else let '(kept, entries) := evict_loop now rest entries in (k :: kept, entries)
      end
  end.

Definition evictExpiredLocked (now : Time) (c : ReplayCache) : ReplayCache :=
  if decide (rc_entries c = ∅) then c
  else let '(order, entries) := evict_loop now (rc_order c) (rc_entries c) in
       mkReplayCache (rc_max c) entries order.

(** [None] is the panic of [c.order[0]] on an empty slice. *)
Definition storeLocked (key : string) (exp : Time) (c : ReplayCache) : option ReplayCache :=
  match rc_entries c !! key with
  | Some _ => Some (mkReplayCache (rc_max c) (<[key := exp]> (rc_entries c)) (rc_order c))
  | None =>
      if bool_decide (rc_max c <= Z.of_nat (size (rc_entries c))) then
        match rc_order c with
        | [] => None
        | old :: rest =>
            Some (mkReplayCache (rc_max c) (<[key := exp]> (delete old (rc_entries c)))
                    (rest ++ [key]))
        end
      else Some (mkReplayCache (rc_max c) (<[key := exp]> (rc_entries c)) (rc_order c ++ [key]))
  end.

Definition replay_error (err : sentinel) (code msg : string) : error :=
  Typed (mkErrorOf "ReplayCache" "" "" 0 ReasonNone (Some (Sentinel err)) msg code "security").

Definition CheckAndStore (now : Time) (key : string) (ttl : Duration) (c : ReplayCache) :
    option (ReplayCache * option error) :=
  if bool_decide (key = "") then
    Some (c, Some (replay_error ErrPolicy "invalid_argument" "replay key required"))
  else
    let ttl := if bool_decide (ttl <= 0) then Minute else ttl in
    let c := evictExpiredLocked now c in
    if match rc_entries c !! key with Some exp => After exp now | None => false end then
      Some (c, Some (replay_error ErrReplay "replay" "replay detected"))
    else match storeLocked key (Add now ttl) c with
         | None => None
         | Some c => Some (c, None)
         end.

Definition Seen (now : Time) (key : string) (c : ReplayCache) : ReplayCache * bool :=
  let c := evictExpiredLocked now c in
  (c, match rc_entries c !! key with Some exp => After exp now | None => false end).

Definition Len (now : Time) (c : ReplayCache) : ReplayCache * Z :=
  let c := evictExpiredLocked now c in (c, Z.of_nat (size (rc_entries c))).

(** ** The invariant *)

(** The order lists the keys of the map once each, and there are at most [max]. *)
Record cache_inv (c : ReplayCache) : Prop := mkCacheInv {
  ci_max : 0 < rc_max c;
  ci_nodup : NoDup (rc_order c);
  ci_dom : dom (rc_entries c) = list_to_set (rc_order c);
  ci_size : Z.of_nat (size (rc_entries c)) <= rc_max c }.

Lemma dom_order_size (entries : gmap string Time) (order : list string) :
  NoDup order -> dom entries = list_to_set order -> size entries = length order.
Proof. intros Hn Hd. rewrite <- size_dom, Hd. by apply size_list_to_set. Qed.

(** Whether a key has an unexpired entry. *)
Definition live (now : Time) (entries : gmap string Time) (k : string) : bool :=
  match entries !! k with Some e => After e now | None => false end.

Lemma filter_ext_in {A} (P Q : A -> Prop) `{!forall x, Decision (P x)} `{!forall x, Decision (Q x)}
    (l : list A) :
  (forall x, x ∈ l -> P x <-> Q x) -> filter P l = filter Q l.
Proof.
  induction l as [|x l IH]; intros Hx; [done |]. rewrite !filter_cons.
  rewrite IH by (intros y Hy; apply Hx; by right).
  assert (P x <-> Q x) as Hpq by (apply Hx; by left). repeat case_decide; tauto.
Qed.

(** Eviction keeps exactly the unexpired keys, in order. *)
Lemma evict_loop_spec now order entries :
  NoDup order ->
  (evict_loop now order entries).1 = filter (λ k, live now entries k = true) order /\
  (forall k, (evict_loop now order entries).2 !! k =
     if bool_decide (k ∈ order) && negb (live now entries k) then None else entries !! k).
Proof.
  revert entries. induction order as [|k order IH]; intros entries Hn; cbn [evict_loop].
  { split; [done |]. intros k. by rewrite bool_decide_eq_false_2 by set_solver. }
  apply NoDup_cons in Hn as [Hk Hn]. rewrite filter_cons.
  destruct (entries !! k) as [exp|] eqn:E; [destruct (After exp now) eqn:Ea |];
    cbn [negb].
  - destruct (IH entries Hn) as [H1 H2]. destruct (evict_loop now order entries) as [ks es].
    simpl in *. rewrite decide_True by (unfold live; by rewrite E). split; [by f_equal |].
    intros k'. rewrite H2. destruct (decide (k' = k)) as [->|Hne].
    + unfold live. rewrite E, Ea. by rewrite !andb_false_r.
    + by rewrite (bool_decide_ext (k' ∈ order) (k' ∈ k :: order)) by set_solver.
  - destruct (IH (delete k entries) Hn) as [H1 H2].
    rewrite decide_False by (unfold live; by rewrite E, Ea). split.
    + rewrite H1. apply filter_ext_in. intros x Hx. unfold live.
      by rewrite lookup_delete_ne by set_solver.
    + intros k'. rewrite H2. unfold live. destruct (decide (k' = k)) as [->|Hne].
      * rewrite lookup_delete_eq, E, Ea, (bool_decide_eq_false_2 (k ∈ order)) by done. simpl.
        by rewrite bool_decide_eq_true_2 by set_solver.
      * rewrite lookup_delete_ne by done.
        by rewrite (bool_decide_ext (k' ∈ order) (k' ∈ k :: order)) by set_solver.
  - destruct (IH entries Hn) as [H1 H2].
    rewrite decide_False by (unfold live; by rewrite E). split; [done |].
    intros k'. rewrite H2. destruct (decide (k' = k)) as [->|Hne].
    + rewrite E. by repeat case_match.
    + by rewrite (bool_decide_ext (k' ∈ order) (k' ∈ k :: order)) by set_solver.
Qed.

Record evicted (now : Time) (c c' : ReplayCache) : Prop := mkEvicted {
  ev_max : rc_max c' = rc_max c;
  ev_order : rc_order c' = filter (λ k, live now (rc_entries c) k = true) (rc_order c);
  ev_entries k : rc_entries c' !! k =
    if live now (rc_entries c) k then rc_entries c !! k else None }.

Lemma evict_spec now c : cache_inv c -> evicted now c (evictExpiredLocked now c).
Proof.
  intros [Hm Hn Hd Hs]. unfold evictExpiredLocked. case_decide as He.
  - assert (rc_order c = []) as Ho.
    { destruct (rc_order c) as [|k l]; [done |]. rewrite He, dom_empty_L in Hd. set_solver. }
    split; [done | by rewrite Ho |]. intros k. rewrite He. unfold live. by rewrite lookup_empty.
  - destruct (evict_loop_spec now (rc_order c) (rc_entries c) Hn) as [H1 H2].
    destruct (evict_loop now (rc_order c) (rc_entries c)) as [ks es]. simpl in *.
    split; [done | done |]. intros k. simpl. rewrite H2. unfold live.
    destruct (rc_entries c !! k) as [e|] eqn:E; [|by rewrite andb_true_r; case_match].
    rewrite bool_decide_eq_true_2; [simpl; by destruct (After e now) |].
    assert (k ∈ dom (rc_entries c)) as Hk by (by apply elem_of_dom). rewrite Hd in Hk.
    by apply elem_of_list_to_set in Hk.
Qed.

Lemma evict_inv now c : cache_inv c -> cache_inv (evictExpiredLocked now c).
Proof.
  intros Hi. destruct (evict_spec now c Hi) as [H1 H2 H3]. destruct Hi as [Hm Hn Hd Hs].
  assert (NoDup (rc_order (evictExpiredLocked now c))) as Hn' by (rewrite H2; by apply NoDup_filter).
  assert (dom (rc_entries (evictExpiredLocked now c)) =
    list_to_set (rc_order (evictExpiredLocked now c))) as Hd'.
  { apply set_eq. intros k. rewrite elem_of_dom, H3, elem_of_list_to_set, H2, list_elem_of_filter.
    unfold live. assert (k ∈ dom (rc_entries c) <-> k ∈ rc_order c) as Hdk
      by (rewrite Hd; apply elem_of_list_to_set).
    rewrite elem_of_dom in Hdk. destruct (rc_entries c !! k) as [e|]; [destruct (After e now) |];
      rewrite <- Hdk; split; try done; by intros []. }
  split; [by rewrite H1 | done | done |]. rewrite H1, (dom_order_size _ _ Hn' Hd').
  rewrite (dom_order_size _ _ Hn Hd) in Hs. rewrite H2.
  pose proof (length_filter (λ k, live now (rc_entries c) k = true) (rc_order c)). lia.
Qed.

Lemma store_inv_cache key exp c :
  cache_inv c -> exists c', storeLocked key exp c = Some c' /\ cache_inv c' /\
    rc_entries c' !! key = Some exp.
Proof.
  intros [Hm Hn Hd Hs]. unfold storeLocked.
  assert (forall k, k ∈ rc_order c <-> is_Some (rc_entries c !! k)) as Hdk.
  { intros k. rewrite <- elem_of_dom, Hd. by rewrite elem_of_list_to_set. }
  pose proof (dom_order_size _ _ Hn Hd) as Hlen.
  destruct (rc_entries c !! key) as [e|] eqn:E.
  - eexists. split; [done |]. split; [|apply lookup_insert_eq]. split; simpl; [done | done | |].
    + rewrite dom_insert_lookup_L by (by rewrite E). done.
    + rewrite map_size_insert_Some by (by rewrite E). done.
  - assert (key ∉ rc_order c) as Hk by (rewrite Hdk, E; by intros []).
    case_bool_decide as Hfull.
    + destruct (rc_order c) as [|old rest] eqn:Eo; [simpl in Hlen; lia |].
      eexists. split; [done |]. split; [|apply lookup_insert_eq].
      apply NoDup_cons in Hn as [Hold Hrest].
      assert (NoDup (rest ++ [key])) as Hn'
        by (apply NoDup_app; split; [done |]; split; [set_solver | apply NoDup_singleton]).
      assert (dom (<[key := exp]> (delete old (rc_entries c))) = list_to_set (rest ++ [key])) as Hd'.
      { rewrite dom_insert_L, dom_delete_L, Hd. set_solver. }
      split; simpl; [done | done | done |].
      rewrite (dom_order_size _ _ Hn' Hd'), length_app. simpl in *. lia.
    + eexists. split; [done |]. split; [|apply lookup_insert_eq].
      split; simpl; [done | | |].
      * apply NoDup_app. split; [done |]. split; [set_solver | apply NoDup_singleton].
      * rewrite dom_insert_L, Hd. set_solver.
      * rewrite map_size_insert_None by done. lia.
Qed.

(** A request: the clock reading, the key and its lifetime. *)
Definition request : Type := Time * string * Duration.

Definition CheckAndStore_all (rs : list request) (c : ReplayCache) : option ReplayCache :=
  fold_left (λ o r, c ← o; '(c, _) ← CheckAndStore r.1.1 r.1.2 r.2 c; Some c) rs (Some c).

Lemma CheckAndStore_inv now key ttl c :
  cache_inv c -> exists c' e, CheckAndStore now key ttl c = Some (c', e) /\ cache_inv c'.
Proof.
  intros Hi. unfold CheckAndStore. case_bool_decide; [by eauto |].
  pose proof (evict_inv now c Hi) as Hi'. case_match; [by eauto |].
  destruct (store_inv_cache key (Add now (if bool_decide (ttl <= 0) then Minute else ttl)) _ Hi')
    as (c' & -> & Hc' & _). eauto.
Qed.

(** The key has an entry until [exp], and at most [j] keys are younger. *)
Definition tracked (key : string) (exp : Time) (j : nat) (c : ReplayCache) : Prop :=
  exists pre post, rc_order c = pre ++ key :: post /\ (length post <= j)%nat /\
    rc_entries c !! key = Some exp.

Lemma evict_tracked now key exp j c :
  cache_inv c -> now < exp -> tracked key exp j c -> tracked key exp j (evictExpiredLocked now c).
Proof.
  intros Hi Hlt (pre & post & Ho & Hl & He). destruct (evict_spec now c Hi) as [_ H2 H3].
  assert (live now (rc_entries c) key = true) as Hlive
    by (unfold live, After; rewrite He; by apply bool_decide_eq_true_2).
  set (P := λ k, live now (rc_entries c) k = true) in *.
  exists (filter P pre), (filter P post).
  split; [|split].
  - rewrite H2, Ho, filter_app, filter_cons. by rewrite decide_True.
  - pose proof (length_filter P post). lia.
  - by rewrite H3, Hlive.
Qed.

(** Storing another key makes the key one older; it is dropped only when [max]
    younger keys arrived. *)
Lemma store_tracked other e key exp j c c' :
  cache_inv c -> other ≠ key -> Z.of_nat j < rc_max c - 1 ->
  tracked key exp j c -> storeLocked other e c = Some c' -> tracked key exp (S j) c'.
Proof.
  intros [Hm Hn Hd Hs] Hne Hj (pre & post & Ho & Hl & He) Est. unfold storeLocked in Est.
  assert (rc_entries c !! key = Some exp -> forall old, old ≠ key ->
    <[other := e]> (delete old (rc_entries c)) !! key = Some exp) as Hkeep.
  { intros _ old Hold. rewrite lookup_insert_ne, lookup_delete_ne by done. done. }
  destruct (rc_entries c !! other); [|case_bool_decide as Hfull].
  - simplify_eq. exists pre, post. split; [done |]. split; [lia |].
    simpl. by rewrite lookup_insert_ne.
  - rewrite (dom_order_size _ _ Hn Hd), Ho, length_app in Hfull. simpl in Hfull.
    destruct pre as [|old pre]; [simpl in Hfull; lia |]. rewrite Ho in Est, Hn. simplify_eq/=.
    apply NoDup_cons in Hn as [Hold _].
    exists pre, (post ++ [other]). split; [by rewrite <- app_assoc |].
    split; [rewrite length_app; simpl; lia |]. simpl. apply Hkeep; [done | set_solver].
  - simplify_eq. exists pre, (post ++ [other]). simpl. rewrite Ho, <- app_assoc.
    split; [done |]. split; [rewrite length_app; simpl; lia |]. by rewrite lookup_insert_ne.
Qed.

Lemma storeLocked_max key exp c c' : storeLocked key exp c = Some c' -> rc_max c' = rc_max c.
Proof. unfold storeLocked. by repeat case_match; intros; simplify_eq/=. Qed.

Lemma CheckAndStore_tracked now other ttl key exp j c c' e :
  cache_inv c -> other ≠ key -> now < exp -> Z.of_nat j < rc_max c - 1 ->
  tracked key exp j c -> CheckAndStore now other ttl c = Some (c', e) ->
  tracked key exp (S j) c' /\ rc_max c' = rc_max c.
Proof.
  intros Hi Hne Hlt Hj Ht E. pose proof (ev_max _ _ _ (evict_spec now c Hi)) as Hmax.
  pose proof (evict_inv now c Hi) as Hi'. pose proof (evict_tracked now _ _ _ c Hi Hlt Ht) as Ht'.
  assert (forall c, tracked key exp j c -> tracked key exp (S j) c) as Hmono
    by (intros c0 (pre & post & ? & ? & ?); exists pre, post; repeat split; done || lia).
  unfold CheckAndStore in E. case_bool_decide; [simplify_eq; auto |].
  case_match; [simplify_eq; auto |].
  destruct (storeLocked _ _ _) as [c1|] eqn:Es; simplify_eq.
  split; [eapply store_tracked; [exact Hi' | done | by rewrite Hmax | done | exact Es] |].
  by rewrite (storeLocked_max _ _ _ _ Es).
Qed.

Lemma CheckAndStore_all_tracked rs key exp j c :
  cache_inv c -> tracked key exp j c ->
  Forall (λ r : request, r.1.2 ≠ key /\ r.1.1 < exp) rs ->
  Z.of_nat (j + length rs) < rc_max c ->
  exists c', CheckAndStore_all rs c = Some c' /\ cache_inv c' /\
    tracked key exp (j + length rs) c'.
Proof.
  intros Hi Ht Hf. revert j c Hi Ht.
  induction Hf as [|[[now k] ttl] rs [Hk Hlt] _ IH]; intros j c Hi Ht Hlen.
  - exists c. split; [done |]. simpl. by rewrite Nat.add_0_r.
  - destruct (CheckAndStore_inv now k ttl c Hi) as (c1 & e & E & Hi1). simpl in *.
    destruct (CheckAndStore_tracked now k ttl key exp j c c1 e) as [Ht1 Hm1]; try done; [lia |].
    unfold CheckAndStore_all. cbn [fold_left fst snd mbind option_bind]. rewrite E.
    cbn [mbind option_bind]. destruct (IH (S j) c1 Hi1 Ht1) as (c' & E' & Hc' & Ht'); [rewrite Hm1; lia |].
    exists c'. split; [exact E' |]. split; [done |]. by rewrite Nat.add_succ_r.
Qed.

(** A stored key cannot be replayed while it lives.  After [CheckAndStore]
    accepted a key, the same key is refused with [ErrReplay] until its lifetime
    is over, whatever other requests came in between, as long as fewer than
    [max] of them did (then the oldest entries are dropped); and the cache never
    panics and never exceeds its bound. *)
Theorem replay_window now key ttl c c1 rs now' ttl' :
  cache_inv c -> key ≠ "" -> 0 < ttl ->
  CheckAndStore now key ttl c = Some (c1, None) ->
  Forall (λ r : request, r.1.2 ≠ key /\ r.1.1 < now + ttl) rs ->
  Z.of_nat (length rs) < rc_max c -> now' < now + ttl ->
  exists c2 c3 e, CheckAndStore_all rs c1 = Some c2 /\
    CheckAndStore now' key ttl' c2 = Some (c3, Some e) /\ errors_is e ErrReplay = true /\
    Z.of_nat (size (rc_entries c3)) <= rc_max c3.
Proof.
  intros Hi Hk Httl E Hf Hlen Hnow'. unfold CheckAndStore in E.
  rewrite bool_decide_eq_false_2 in E by done. rewrite (bool_decide_eq_false_2 (ttl <= 0)) in E by lia.
  pose proof (ev_max _ _ _ (evict_spec now c Hi)) as Hmax. pose proof (evict_inv now c Hi) as Hi'.
  case_match eqn:Elive; [done |].
  destruct (store_inv_cache key (Add now ttl) _ Hi') as (c1' & Es & Hi1 & He1).
  rewrite Es in E. simplify_eq.
  assert (tracked key (now + ttl) 0 c1) as Ht.
  { unfold storeLocked in Es. pose proof (ev_entries _ _ _ (evict_spec now c Hi) key) as Hek.
    destruct (rc_entries (evictExpiredLocked now c) !! key) as [e|] eqn:Eo.
    - unfold live, After in Hek. destruct (rc_entries c !! key); [|done].
      case_bool_decide; simplify_eq. unfold After in Elive.
      by rewrite bool_decide_eq_true_2 in Elive by done.
    - repeat case_match; simplify_eq; eexists _, []; (split; [reflexivity |]); (split; [simpl; lia | done]). }
  destruct (CheckAndStore_all_tracked rs key (now + ttl) 0 c1 Hi1 Ht Hf) as (c2 & E2 & Hi2 & Ht2).
  { rewrite (storeLocked_max _ _ _ _ Es), Hmax. simpl. lia. }
  destruct (evict_tracked now' _ _ _ c2 Hi2 Hnow' Ht2) as (_ & _ & _ & _ & He2).
  exists c2, (evictExpiredLocked now' c2). eexists. split; [done |]. unfold CheckAndStore.
  rewrite bool_decide_eq_false_2 by done. rewrite He2. unfold After.
  rewrite bool_decide_eq_true_2 by done. split; [reflexivity |]. split; [done |].
  apply (evict_inv now' c2 Hi2).
Qed.

Lemma cache_inv_New k : cache_inv (NewReplayCache k).
Proof.
  split; simpl; [case_bool_decide; lia | constructor | set_solver |].
  rewrite map_size_empty. case_bool_decide; lia.
Qed.

Lemma replay_window_witness :
  exists c2 c3 e, CheckAndStore_all [(6, "b", 100)] (mkReplayCache 2 {["a" := 105]} ["a"]) = Some c2 /\
    CheckAndStore 50 "a" 1 c2 = Some (c3, Some e) /\ errors_is e ErrReplay = true.
Proof.
  destruct (replay_window 5 "a" 100 (NewReplayCache 2) (mkReplayCache 2 {["a" := 105]} ["a"])
    [(6, "b", 100)] 50 1 (cache_inv_New 2) ltac:(done) ltac:(lia) ltac:(reflexivity)
    ltac:(repeat constructor; done || (simpl; lia)) ltac:(simpl; lia) ltac:(lia))
    as (c2 & c3 & e & H1 & H2 & H3 & _).
  exists c2, c3, e. repeat split; assumption.
Defined.
