(* ===== verification/AntiReplay.v ===== *)
(** * The epoch-bound nonce cache ([security/antireplay/antireplay.go])

    [Cache] remembers request identifiers of the current security epoch.  Unlike
    [ReplayCache] it never drops a live entry: a full cache refuses. *)

From S2P Require Import Prelude Types.

Definition ErrReplay : error := TextErr "antireplay: replay detected".
Definition ErrExpired : error := TextErr "antireplay: entry expired".
Definition ErrEmptyID : error := TextErr "antireplay: empty request id or nonce".
Definition ErrEpochRollback : error := TextErr "antireplay: security epoch rollback".
Definition ErrCapacity : error := TextErr "antireplay: cache at capacity".

(** A [SecurityEpoch] is a [uint64]. *)
Abbreviation SecurityEpoch := Z (only parsing).

Record entry := mkEntry { expires : Time; e_epoch : SecurityEpoch }.

Record Cache := mkCache {
  c_max : Z; c_entries : gmap string entry; c_epoch : SecurityEpoch }.

Definition New (maxEntries : Z) : Cache :=
  mkCache (if bool_decide (maxEntries <= 0) then 4096 else maxEntries) ∅ 0.

Definition AdvanceEpoch (c : Cache) : Cache * (SecurityEpoch * option error) :=
  if bool_decide (c_epoch c = u64_modulus - 1) then
    (c, (c_epoch c, Some (TextErr "antireplay: security epoch overflow")))
  else
    let e := u64 (c_epoch c + 1) in
    (mkCache (c_max c) ∅ e, (e, None)).

Definition SetEpoch (newEpoch : SecurityEpoch) (c : Cache) : Cache * option error :=
  if bool_decide (newEpoch < c_epoch c) then (c, Some ErrEpochRollback)
  else if bool_decide (c_epoch c < newEpoch) then (mkCache (c_max c) ∅ newEpoch, None)
  else (c, None).

(** [hexdigits[v&0xf]] *)
Definition hexdigit (v : Z) : Ascii.ascii :=
  let d := Z.land v 15 in
  Ascii.ascii_of_N (Z.to_N (if bool_decide (d < 10) then 48 + d else 87 + d)).

(** The loop of [formatEpoch], for [i] from [n-1] down to 0. *)
Fixpoint format_loop (n : nat) (v : Z) (acc : string) : string :=
  match n with
  | O => acc
  | S n => format_loop n (Z.shiftr v 4) (String (hexdigit v) acc)
  end.

Definition formatEpoch (e : SecurityEpoch) : string := format_loop 16 e "".

Definition cacheKey (epoch : SecurityEpoch) (id : string) : string :=
  formatEpoch epoch +:+ String Ascii.zero id.

Definition purgeLocked (now : Time) (c : Cache) : Cache :=
  mkCache (c_max c)
    (filter (λ ke, After now (expires ke.2) = false ∧ e_epoch ke.2 = c_epoch c) (c_entries c))
    (c_epoch c).

Definition CheckAndStore (now : Time) (id : string) (ttl : Duration) (c : Cache) :
    Cache * option error :=
  if bool_decide (id = "") then (c, Some ErrEmptyID)
  else
    let ttl := if bool_decide (ttl <= 0) then Minute else ttl in
    let exp := Add now ttl in
    if negb (After exp now) then (c, Some ErrExpired)
    else
      let c := purgeLocked now c in
      let k := cacheKey (c_epoch c) id in
      let seen := match c_entries c !! k with
                  | Some e => if After now (expires e) then None else Some e
                  | None => None
                  end in
      match seen with
      | Some _ => (c, Some ErrReplay)
      | None =>
          let entries := delete k (c_entries c) in
          if bool_decide (c_max c <= Z.of_nat (size entries))
          then (mkCache (c_max c) entries (c_epoch c), Some ErrCapacity)
          else (mkCache (c_max c) (<[k := mkEntry exp (c_epoch c)]> entries) (c_epoch c), None)
      end.

Definition Seen (now : Time) (id : string) (c : Cache) : Cache * bool :=
  let c := purgeLocked now c in
  (c, match c_entries c !! cacheKey (c_epoch c) id with
      | Some e => negb (After now (expires e))
      | None => false
      end).

Definition Len (now : Time) (c : Cache) : Cache * Z :=
  let c := purgeLocked now c in (c, Z.of_nat (size (c_entries c))).

(** ** Keys *)

Lemma hexdigit_inj v w : hexdigit v = hexdigit w -> Z.land v 15 = Z.land w 15.
Proof.
  unfold hexdigit. pose proof (Z.land_ones v 4 ltac:(lia)) as Hv.
  pose proof (Z.land_ones w 4 ltac:(lia)) as Hw. change (Z.ones 4) with 15 in *.
  change (2 ^ 4) with 16 in *.
  pose proof (Z.mod_pos_bound v 16 ltac:(lia)). pose proof (Z.mod_pos_bound w 16 ltac:(lia)).
  rewrite <- Hv, <- Hw in *. set (a := Z.land v 15) in *. set (b := Z.land w 15) in *.
  intros E. apply (f_equal Ascii.N_of_ascii) in E.
  rewrite !Ascii.N_ascii_embedding in E by (repeat case_bool_decide; lia).
  repeat case_bool_decide; lia.
Qed.

(** The text ends with [n] digits that determine the low [4 n] bits. *)
Lemma format_loop_inj n v w acc acc' :
  String.length acc = String.length acc' ->
  format_loop n v acc = format_loop n w acc' ->
  acc = acc' /\ v mod 2 ^ (4 * Z.of_nat n) = w mod 2 ^ (4 * Z.of_nat n).
Proof.
  revert v w acc acc'. induction n as [|n IH]; intros v w acc acc' Hl E; simpl in E.
  { split; [done |]. by rewrite !Z.mod_1_r. }
  apply IH in E as [[= Hd Ha] Hs]; [|simpl; by f_equal]. split; [done |].
  apply hexdigit_inj in Hd.
  pose proof (Z.land_ones v 4 ltac:(lia)) as Hv. pose proof (Z.land_ones w 4 ltac:(lia)) as Hw.
  change (Z.ones 4) with 15 in *. rewrite Hv, Hw in Hd.
  rewrite !Z.shiftr_div_pow2 in Hs by lia. change (2 ^ 4) with 16 in *.
  replace (2 ^ (4 * Z.of_nat (S n))) with (16 * 2 ^ (4 * Z.of_nat n))
    by (change 16 with (2 ^ 4); rewrite <- Z.pow_add_r by lia; f_equal; lia).
  rewrite !Z.rem_mul_r by lia. lia.
Qed.

Lemma length_format_loop n v acc :
  String.length (format_loop n v acc) = (n + String.length acc)%nat.
Proof. revert v acc. induction n; intros; simpl; [done |]. rewrite IHn. simpl. lia. Qed.

Lemma string_app_inj s s' t t' :
  String.length s = String.length s' -> s +:+ t = s' +:+ t' -> s = s' /\ t = t'.
Proof.
  revert s'. induction s as [|a s IH]; intros [|b s'] Hl E; simplify_eq/=; [done |].
  destruct (IH s' ltac:(lia) ltac:(done)) as [-> ->]. done.
Qed.

Lemma cacheKey_inj e e' id id' :
  is_u64 e -> is_u64 e' -> cacheKey e id = cacheKey e' id' -> e = e' /\ id = id'.
Proof.
  unfold cacheKey, is_u64, u64_modulus. intros He He' E.
  apply string_app_inj in E as [E [= ->]]; [|unfold formatEpoch; by rewrite !length_format_loop].
  apply format_loop_inj in E as [_ E]; [|done].
  rewrite !Z.mod_small in E by (simpl; lia). done.
Qed.

(** ** The invariant *)

(** Entries are filed under the key of the epoch they were made in, which is the
    current one or a past one; there are at most [max]. *)
Record nonce_inv (c : Cache) : Prop := mkNonceInv {
  ni_max : 0 < c_max c;
  ni_epoch : is_u64 (c_epoch c);
  ni_size : Z.of_nat (size (c_entries c)) <= c_max c }.

Inductive nonce_step : Cache -> Cache -> Prop :=
| ns_check now id ttl c : nonce_step c (CheckAndStore now id ttl c).1
| ns_seen now id c : nonce_step c (Seen now id c).1
| ns_len now c : nonce_step c (Len now c).1
| ns_advance c : nonce_step c (AdvanceEpoch c).1
| ns_set e c : is_u64 e -> nonce_step c (SetEpoch e c).1.

Lemma purge_size now c : (size (c_entries (purgeLocked now c)) <= size (c_entries c))%nat.
Proof. apply map_subseteq_size, map_filter_subseteq. Qed.

Lemma CheckAndStore_bound now id ttl c :
  nonce_inv c -> nonce_inv (CheckAndStore now id ttl c).1.
Proof.
  intros [Hm He Hs]. pose proof (purge_size now c) as Hp. unfold CheckAndStore.
  generalize (if bool_decide (ttl <= 0) then Minute else ttl). intros t.
  case_bool_decide; [by split |]. case_match; [by split |].
  set (k := cacheKey _ id). destruct (match c_entries _ !! k with Some e => _ | None => _ end).
  { split; simpl in *; [done | done | lia]. }
  pose proof (map_subseteq_size _ _ (delete_subseteq (c_entries (purgeLocked now c)) k)) as Hd.
  case_bool_decide as Hfull; split; simpl in *; try done; [lia |].
  rewrite map_size_insert_None by apply lookup_delete_eq. lia.
Qed.

Lemma nonce_step_inv c c' :
  nonce_inv c -> nonce_step c c' -> nonce_inv c' /\ c_epoch c <= c_epoch c' /\ c_max c' = c_max c.
Proof.
  intros Hi Hs. destruct Hs as [now id ttl c|now id c|now c|c|e c He]; simpl.
  - split; [by apply CheckAndStore_bound |]. unfold CheckAndStore.
    generalize (if bool_decide (ttl <= 0) then Minute else ttl). intros t.
    repeat case_match; simpl; split; done || lia.
  - destruct Hi as [Hm He Hz]. pose proof (purge_size now c).
    split; [split; simpl in *; [done | done | lia] | split; [lia | done]].
  - destruct Hi as [Hm He Hz]. pose proof (purge_size now c).
    split; [split; simpl in *; [done | done | lia] | split; [lia | done]].
  - destruct Hi as [Hm He Hz]. unfold AdvanceEpoch. case_bool_decide as E; simpl;
      [split; [done | split; [lia | done]] |].
    unfold is_u64 in He. assert (u64 (c_epoch c + 1) = c_epoch c + 1) as ->
      by (apply u64_small; unfold is_u64; lia).
    split; [split; simpl; [done | unfold is_u64; lia |] | split; [lia | done]].
    rewrite map_size_empty. lia.
  - pose proof Hi as [Hm He' Hz]. unfold SetEpoch. repeat case_bool_decide; simpl.
    + split; [done | split; [lia | done]].
    + split; [split; simpl; [done | done | rewrite map_size_empty; lia] | split; [lia | done]].
    + split; [done | split; [lia | done]].
Qed.

(** An accepted identifier stays on file until it expires or the epoch moves. *)
Definition remembered (epoch : SecurityEpoch) (id : string) (exp : Time) (c : Cache) : Prop :=
  c_epoch c = epoch /\ c_entries c !! cacheKey epoch id = Some (mkEntry exp epoch).

Lemma purge_remembered now epoch id exp c :
  now <= exp -> remembered epoch id exp c -> remembered epoch id exp (purgeLocked now c).
Proof.
  intros Hlt [He Hk]. split; [done |]. simpl. apply map_lookup_filter_Some. split; [done |].
  simpl. unfold After. rewrite bool_decide_eq_false_2 by lia. done.
Qed.

Lemma CheckAndStore_remembered now id' ttl epoch id exp c :
  is_u64 epoch -> now <= exp -> remembered epoch id exp c ->
  remembered epoch id exp (CheckAndStore now id' ttl c).1.
Proof.
  intros Hu Hlt Hr. pose proof (purge_remembered now _ _ _ c Hlt Hr) as [He Hk].
  unfold CheckAndStore. generalize (if bool_decide (ttl <= 0) then Minute else ttl). intros t.
  case_bool_decide; [done |]. case_match; [done |]. rewrite He.
  destruct (decide (id' = id)) as [->|Hne].
  - rewrite Hk. simpl. unfold After. rewrite bool_decide_eq_false_2 by lia. by split.
  - assert (cacheKey epoch id ≠ cacheKey epoch id') as Hkk
      by (intros E; apply cacheKey_inj in E as [_ E]; congruence).
    repeat case_match; split; simpl in *; try done;
      rewrite ?lookup_insert_ne, ?lookup_delete_ne by done; done.
Qed.

(** Acceptance records the identifier. *)
Lemma CheckAndStore_accepted now id ttl c :
  id ≠ "" -> 0 < ttl -> (CheckAndStore now id ttl c).2 = None ->
  remembered (c_epoch c) id (now + ttl) (CheckAndStore now id ttl c).1.
Proof.
  intros Hid Httl. unfold CheckAndStore. rewrite bool_decide_eq_false_2 by done.
  rewrite (bool_decide_eq_false_2 (ttl <= 0)) by lia.
  case_match; [done |]. set (k := cacheKey _ id).
  destruct (match c_entries _ !! k with Some e => _ | None => _ end); [done |].
  case_bool_decide; [done |]. intros _. split; [done |]. apply lookup_insert_eq.
Qed.

(** Calls made no later than [exp], within one epoch. *)
Inductive nonce_call (exp : Time) : Cache -> Cache -> Prop :=
| nc_check now id ttl c : now <= exp -> nonce_call exp c (CheckAndStore now id ttl c).1
| nc_seen now id c : now <= exp -> nonce_call exp c (Seen now id c).1
| nc_len now c : now <= exp -> nonce_call exp c (Len now c).1.

(** A nonce is accepted once per epoch.  From [New], in any state reached
    by any calls, an accepted identifier is refused with [ErrReplay] until its
    expiry, whatever other identifiers are presented meanwhile (a full cache
    refuses new ones rather than forget); the number of entries never exceeds
    the bound, and the security epoch never decreases. *)
Theorem nonce_accepted_once n c0 now id ttl c1 now' ttl' :
  steps nonce_step (New n) c0 -> id ≠ "" -> 0 < ttl ->
  (CheckAndStore now id ttl c0).2 = None ->
  steps (nonce_call (now + ttl)) (CheckAndStore now id ttl c0).1 c1 -> now' <= now + ttl ->
  (CheckAndStore now' id ttl' c1).2 = Some ErrReplay /\
  Z.of_nat (size (c_entries c1)) <= c_max c0 /\ c_epoch c0 <= c_epoch c1.
Proof.
  intros Hs Hid Httl Hok Hc Hn'.
  assert (nonce_inv c0 /\ 0 <= c_epoch c0) as [Hi0 _].
  { eapply (steps_invariant nonce_step (λ c, nonce_inv c /\ 0 <= c_epoch c)); [|exact Hs |].
    - intros a b [Ha Hpos] Hab. destruct (nonce_step_inv _ _ Ha Hab) as (Hb & He & _). split; [done | lia].
    - split; [|done]. split; simpl; [case_bool_decide; lia | done |].
      rewrite map_size_empty. case_bool_decide; lia. }
  pose proof (CheckAndStore_accepted now id ttl c0 Hid Httl Hok) as Hr.
  assert (remembered (c_epoch c0) id (now + ttl) c1 /\ nonce_inv c1 /\ c_max c1 = c_max c0)
    as ([He Hk] & Hi1 & Hm).
  { eapply (steps_invariant (nonce_call (now + ttl))
      (λ c, remembered (c_epoch c0) id (now + ttl) c /\ nonce_inv c /\ c_max c = c_max c0));
      [|exact Hc |].
    - intros a b (Hra & Hia & Hma) Hab.
      assert (nonce_step a b) as Hst by (destruct Hab; constructor).
      destruct (nonce_step_inv _ _ Hia Hst) as (Hib & _ & Hmb).
      split; [|split; [done | congruence]]. destruct Hab as [? ? ? ? Hle|? ? ? Hle|? ? Hle];
        [apply CheckAndStore_remembered; [apply Hi0 | done | done] | |];
        by apply purge_remembered.
    - split; [done |]. destruct (nonce_step_inv _ _ Hi0 (ns_check now id ttl c0)) as (H1 & _ & H2).
      by split. }
  split; [|split; [rewrite <- Hm; apply Hi1 | rewrite He; lia]].
  assert (remembered (c_epoch c0) id (now + ttl) (purgeLocked now' c1)) as [He' Hk']
    by (apply purge_remembered; [lia | by split]).
  unfold CheckAndStore. rewrite bool_decide_eq_false_2 by done. unfold After at 1, Add.
  rewrite bool_decide_eq_true_2 by (unfold Minute, Second, Millisecond; case_bool_decide; lia).
  simpl negb. cbv iota. rewrite He', Hk'. simpl. unfold After.
  by rewrite bool_decide_eq_false_2 by lia.
Qed.

Lemma nonce_accepted_once_witness :
  (CheckAndStore 50 "r" 1 (CheckAndStore 5 "r" 100 (New 2)).1).2 = Some ErrReplay.
Proof.
  refine (proj1 (nonce_accepted_once 2 (New 2) 5 "r" 100 _ 50 1
    (steps_refl _ _) _ _ _ (steps_refl _ _) _)); by_eval.
Defined.
