(* ===== verification/StateGraph.v ===== *)
(** * Lifecycle of a generation ([internal/stategraph], [state.go])

    The legal transitions between the states of a process generation. *)

From S2P Require Import Prelude Types.

(** The map [allowed]. *)
Definition allowed (s : GenerationState) : list GenerationState :=
  match s with
  | StateJoining => [StateStandby; StatePreparing; StateFailed; StateRetired]
  | StateStandby => [StatePreparing; StateActive; StateFailed; StateRetired]
  | StatePreparing => [StateStandby; StateActive; StateFailed; StateRetired]
  | StateActive => [StateDraining; StateTransferring; StateRetired; StateFailed]
  | StateDraining => [StateTransferring; StateActive; StateRetired; StateFailed]
  | StateTransferring => [StateRetired; StateActive; StateFailed; StateStandby]
  | StateRetired => []
  | StateFailed => []
  end.

Definition CanTransition (from to : GenerationState) : bool :=
  bool_decide (to ∈ allowed from).

Definition Transition (from to : GenerationState) : option error :=
  if CanTransition from to then None
  else Some (TextErr ("invalid state transition: " +:+ GenerationState_string from +:+
                      " -> " +:+ GenerationState_string to)).

Definition AllStates : list GenerationState :=
  [StateJoining; StateStandby; StatePreparing; StateActive; StateDraining;
   StateTransferring; StateRetired; StateFailed].

Lemma AllStates_complete s : s ∈ AllStates.
Proof. apply (bool_decide_unpack _). by destruct s. Qed.

(** A generation's history: the states it went through, latest first. *)
Inductive lifecycle : list GenerationState -> Prop :=
| lc_join : lifecycle [StateJoining]
| lc_move from to past :
    lifecycle (from :: past) -> CanTransition from to = true -> lifecycle (to :: from :: past).

(** A state other than the four before activation was preceded by [StateActive],
    unless it is terminal; after a terminal state nothing happens. *)
Lemma lifecycle_active h :
  lifecycle h ->
  match h with
  | [] => False
  | s :: past =>
      (s = StateDraining \/ s = StateTransferring -> StateActive ∈ past) /\
      Forall (λ p, Terminal p = false) past
  end.
Proof.
  induction 1 as [|from to past Hl [IHa IHt] Hc].
  - split; [by intros [|] | constructor].
  - split.
    + intros Hto. assert (from = StateActive \/ from = StateDraining \/ from = StateTransferring) as Hf
        by (destruct Hto as [->| ->]; destruct from; try done; auto).
      destruct Hf as [->|[->| ->]]; [by left | right; auto | right; auto].
    + constructor; [by destruct from | done].
Qed.

(** The lifecycle graph is safe and live.  A generation drains or transfers
    only after it was active; retired and failed are final and the only final
    states; every other state can retire or fail in one step; and [Transition]
    reports an error exactly for the pairs [CanTransition] refuses. *)
Theorem lifecycle_safe s past :
  lifecycle (s :: past) ->
  (s = StateDraining \/ s = StateTransferring -> StateActive ∈ past) /\
  Forall (λ p, Terminal p = false) past /\
  (Terminal s = true <-> forall t, CanTransition s t = false) /\
  (Terminal s = false -> CanTransition s StateRetired = true /\ CanTransition s StateFailed = true) /\
  (forall t, Transition s t = None <-> CanTransition s t = true).
Proof.
  intros Hl. destruct (lifecycle_active _ Hl) as [Ha Ht]. split; [done |]. split; [done |].
  split; [|split].
  - split; [by destruct s | ]. intros Hn. specialize (Hn StateRetired). by destruct s.
  - by destruct s.
  - intros t. unfold Transition. by destruct (CanTransition s t).
Qed.

Lemma lifecycle_safe_witness :
  StateActive ∈ [StateActive; StateStandby; StateJoining].
Proof.
  refine (proj1 (lifecycle_safe StateDraining [StateActive; StateStandby; StateJoining] _)
    (or_introl eq_refl)).
  do 3 (apply lc_move; [|reflexivity]). constructor.
Defined.
