(* ===== verification/Config.v ===== *)
(** * Configuration and policy ([config.go], [policy.go], [capabilities.go])

    Defaulting and validation of a coordinator's configuration against its
    policy and the backend's capabilities.  Hooks, observers and the policy flags
    no code reads are not modelled; [dur_string] is the text of a duration, which
    only appears in messages. *)

From S2P Require Import Prelude GoStrings Types.

(** ** Data *)

Record Policy := mkPolicy {
  MinLeaseTTL : Duration; MaxLeaseTTL : Duration; RequireRenewBelowTTL : bool;
  MaxConcurrentClaims : Z; AllowForceRelease : bool; RejectStaleRelease : bool;
  RequireDurable : bool; RequireIdempotent : bool; RequireGlobalExclusive : bool;
  FailClosedOnAmbiguous : bool; AllowLocalDegradation : bool }.

Record Config := mkConfig {
  cf_Service : string; cf_InstanceID : string; cf_Backend : bool; (* not nil *)
  cf_GenerationID : string; cf_LeaseTTL : Duration; cf_RenewInterval : Duration;
  cf_AcquireInterval : Duration; cf_TransferTimeout : Duration; cf_DrainTimeout : Duration;
  cf_ReadinessTimeout : Duration; cf_WatchBuffer : Z; cf_EventBuffer : Z; cf_Policy : Policy }.

Record Capabilities := mkCapabilities {
  AtomicCAS : bool; IdempotentMutations : bool; WatchSupported : bool; DurableStorage : bool;
  ExpireBeforeMutate : bool; RenewDuringReserved : bool; GlobalExclusive : bool;
  MaxFencingToken : FencingToken }.

Definition DefaultMemoryCapabilities : Capabilities :=
  mkCapabilities true true true false true true true (u64 (u64_modulus - 1 - 1)).

(** [resolveCapabilities] of a backend that is or is not a [Capabler]. *)
Definition resolveCapabilities (caps : option Capabilities) : Capabilities :=
  default (mkCapabilities true false false false false false true 0) caps.

(** ** Policy *)

Definition withDefaults (p : Policy) : Policy :=
  mkPolicy
    (if bool_decide (MinLeaseTTL p <= 0) then 100 * Millisecond else MinLeaseTTL p)
    (if bool_decide (MaxLeaseTTL p <= 0) then 24 * Hour else MaxLeaseTTL p)
    true (MaxConcurrentClaims p) (AllowForceRelease p) true (RequireDurable p)
    (RequireIdempotent p) (RequireGlobalExclusive p) true
    (if negb (AllowLocalDegradation p) && negb (RequireDurable p) then true
     else AllowLocalDegradation p).

(** The [%d] of an [int64]. *)
Definition int64_text (n : Z) : string :=
  if bool_decide (n < 0) then "-" +:+ default "" (itoa_loop 20 (- n) "")
  else if bool_decide (n = 0) then "0" else default "" (itoa_loop 20 n "").

Section Validation.
Variable dur_string : Duration -> string.

Definition Validate (p : Policy) (cfg : Config) : option error :=
  if bool_decide (cf_LeaseTTL cfg < MinLeaseTTL p) then
    Some (mkError "policy" (Sentinel ErrPolicy)
      ("LeaseTTL " +:+ dur_string (cf_LeaseTTL cfg) +:+ " below minimum " +:+ dur_string (MinLeaseTTL p)))
  else if bool_decide (MaxLeaseTTL p < cf_LeaseTTL cfg) then
    Some (mkError "policy" (Sentinel ErrPolicy)
      ("LeaseTTL " +:+ dur_string (cf_LeaseTTL cfg) +:+ " above maximum " +:+ dur_string (MaxLeaseTTL p)))
  else if RequireRenewBelowTTL p && bool_decide (cf_LeaseTTL cfg <= cf_RenewInterval cfg) then
    Some (mkError "policy" (Sentinel ErrPolicy)
      ("RenewInterval " +:+ dur_string (cf_RenewInterval cfg) +:+ " must be < LeaseTTL " +:+
       dur_string (cf_LeaseTTL cfg)))
  else None.

Definition or_default (v d : Z) : Z := if bool_decide (v <= 0) then d else v.

(** [defaults]; [now] is [Clock.Now().UnixNano()]. *)
Definition defaults (now : Z) (c : Config) : Config * option error :=
  if bool_decide (cf_Service c = "") then
    (c, Some (mkError "config" (Sentinel ErrPolicy) "Service is required"))
  else if bool_decide (cf_InstanceID c = "") then
    (c, Some (mkError "config" (Sentinel ErrPolicy) "InstanceID is required"))
  else if negb (cf_Backend c) then
    (c, Some (mkError "config" (Sentinel ErrPolicy) "Backend is required"))
  else
    let ttl := or_default (cf_LeaseTTL c) (15 * Second) in
    let c := mkConfig (cf_Service c) (cf_InstanceID c) (cf_Backend c)
      (if bool_decide (cf_GenerationID c = "")
       then cf_Service c +:+ "-" +:+ cf_InstanceID c +:+ "-" +:+ int64_text now
       else cf_GenerationID c)
      ttl
      (or_default (cf_RenewInterval c) (Z.quot ttl 3))
      (or_default (cf_AcquireInterval c) (500 * Millisecond))
      (or_default (cf_TransferTimeout c) (30 * Second))
      (or_default (cf_DrainTimeout c) (30 * Second))
      (or_default (cf_ReadinessTimeout c) (30 * Second))
      (or_default (cf_WatchBuffer c) 16)
      (or_default (cf_EventBuffer c) 64)
      (withDefaults (cf_Policy c)) in
    match Validate (cf_Policy c) c with
    | Some e => (c, Some e)
    | None => (c, None)
    end.

Definition ValidateCapabilities (cfg : Config) (caps : Capabilities) : option error :=
  let p := cf_Policy cfg in
  if RequireDurable p && negb (DurableStorage caps) then
    Some (mkError "capabilities" (Sentinel ErrPolicy)
      "policy requires durable storage; backend is not durable")
  else if RequireIdempotent p && negb (IdempotentMutations caps) then
    Some (mkError "capabilities" (Sentinel ErrPolicy)
      "policy requires idempotent mutations; backend lacks OperationID support")
  else if RequireGlobalExclusive p && negb (GlobalExclusive caps) then
    Some (mkError "capabilities" (Sentinel ErrPolicy)
      "policy requires global exclusive ownership; backend cannot guarantee it")
  else if negb (AtomicCAS caps) then
    Some (mkError "capabilities" (Sentinel ErrPolicy)
      "backend lacks atomic CAS; refusing to start")
  else None.

(** ** Facts *)

Lemma or_default_pos v d : 0 < d -> 0 < or_default v d.
Proof. unfold or_default. case_bool_decide; lia. Qed.

Lemma or_default_id v d : 0 < v -> or_default v d = v.
Proof. intros H. unfold or_default. by rewrite bool_decide_eq_false_2 by lia. Qed.

Lemma app_nonempty s t : s ≠ "" -> s +:+ t ≠ "".
Proof. by destruct s. Qed.

Lemma withDefaults_idem p : withDefaults (withDefaults p) = withDefaults p.
Proof.
  unfold withDefaults; simpl. f_equal.
  - repeat case_bool_decide; unfold Millisecond in *; lia.
  - repeat case_bool_decide; unfold Hour, Minute, Second, Millisecond in *; lia.
  - by destruct (AllowLocalDegradation p), (RequireDurable p).
Qed.

(** An accepted configuration is safe to run.  When [defaults] accepts, the
    lease TTL lies within positive policy bounds, the renewal interval is below
    the lease TTL (and positive as soon as the TTL is at least 3ns), every
    timeout is positive, the generation has a name, a reservation lives at least
    as long as the transfer timeout (barring [int64] overflow), and applying
    [defaults] again changes nothing. *)
Theorem config_defaults_sound now c c' :
  defaults now c = (c', None) ->
  0 < MinLeaseTTL (cf_Policy c') <= cf_LeaseTTL c' /\
  cf_LeaseTTL c' <= MaxLeaseTTL (cf_Policy c') /\
  cf_RenewInterval c' < cf_LeaseTTL c' /\
  (3 <= cf_LeaseTTL c' -> 0 < cf_RenewInterval c') /\
  0 < cf_AcquireInterval c' /\ 0 < cf_TransferTimeout c' /\ 0 < cf_DrainTimeout c' /\
  0 < cf_ReadinessTimeout c' /\ 0 < cf_WatchBuffer c' /\ 0 < cf_EventBuffer c' /\
  cf_GenerationID c' ≠ "" /\
  (is_i64 (cf_TransferTimeout c' + cf_LeaseTTL c') ->
   cf_TransferTimeout c' <= reservationTTL (cf_LeaseTTL c') (cf_TransferTimeout c')) /\
  (3 <= cf_LeaseTTL c' -> forall now', defaults now' c' = (c', None)).
Proof.
  unfold defaults. intros E.
  destruct (bool_decide_reflect (cf_Service c = "")) as [|Hs]; [done |].
  destruct (bool_decide_reflect (cf_InstanceID c = "")) as [|Hin]; [done |].
  destruct (cf_Backend c) eqn:Hb; [|done]. cbn [negb] in E.
  set (c1 := mkConfig _ _ _ _ _ _ _ _ _ _ _ _ _) in E.
  destruct (Validate (cf_Policy c1) c1) eqn:Ev; [done |]. injection E as <-.
  pose proof Ev as Ev'. unfold Validate in Ev'.
  destruct (bool_decide_reflect (cf_LeaseTTL c1 < MinLeaseTTL (cf_Policy c1))) as [|H1]; [done |].
  destruct (bool_decide_reflect (MaxLeaseTTL (cf_Policy c1) < cf_LeaseTTL c1)) as [|H2]; [done |].
  change (RequireRenewBelowTTL (cf_Policy c1)) with true in Ev'. cbn [andb] in Ev'.
  destruct (bool_decide_reflect (cf_LeaseTTL c1 <= cf_RenewInterval c1)) as [|H3]; [done |].
  assert (0 < MinLeaseTTL (cf_Policy c1)) as Hmin
    by (simpl; case_bool_decide; unfold Millisecond; lia).
  assert (3 <= cf_LeaseTTL c1 -> 0 < cf_RenewInterval c1) as Hren.
  { intros H. apply or_default_pos, Z.quot_str_pos. simpl in H. lia. }
  assert (cf_GenerationID c1 ≠ "") as Hgen
    by (simpl; case_bool_decide; [by apply app_nonempty | done]).
  assert (0 < cf_AcquireInterval c1 /\ 0 < cf_TransferTimeout c1 /\ 0 < cf_DrainTimeout c1 /\
    0 < cf_ReadinessTimeout c1 /\ 0 < cf_WatchBuffer c1 /\ 0 < cf_EventBuffer c1) as Hpos
    by (repeat split; by apply or_default_pos).
  split; [lia |]. split; [lia |]. split; [lia |]. split; [done |].
  destruct Hpos as (P1 & P2 & P3 & P4 & P5 & P6). do 7 (split; [done |]). split.
  - intros Hi. unfold reservationTTL. case_bool_decide; [|lia].
    pose proof (Z.quot_le_upper_bound (cf_LeaseTTL c1) 3 (cf_LeaseTTL c1) ltac:(lia) ltac:(lia)).
    pose proof (Z.quot_pos (cf_LeaseTTL c1) 3 ltac:(lia) ltac:(lia)).
    rewrite i64_small by (unfold is_i64 in *; lia). lia.
  - intros H now'. specialize (Hren H). rewrite (bool_decide_eq_false_2 (cf_Service c1 = "")) by done.
    rewrite (bool_decide_eq_false_2 (cf_InstanceID c1 = "")) by done.
    change (cf_Backend c1) with true. cbn [negb].
    rewrite (bool_decide_eq_false_2 (cf_GenerationID c1 = "")) by done.
    rewrite !or_default_id by lia.
    assert (withDefaults (cf_Policy c1) = cf_Policy c1) as ->.
    { simpl. apply withDefaults_idem. }
    assert (mkConfig (cf_Service c1) (cf_InstanceID c1) true (cf_GenerationID c1) (cf_LeaseTTL c1)
      (cf_RenewInterval c1) (cf_AcquireInterval c1) (cf_TransferTimeout c1) (cf_DrainTimeout c1)
      (cf_ReadinessTimeout c1) (cf_WatchBuffer c1) (cf_EventBuffer c1) (cf_Policy c1) = c1) as ->
      by done.
    by rewrite Ev.
Qed.
End Validation.

Definition cfg_min : Config :=
  mkConfig "svc" "i1" true "" 0 0 0 0 0 0 0 0 (mkPolicy 0 0 false 0 false false false false false false false).

Lemma config_defaults_sound_witness :
  exists c', defaults (fun _ => "") 1700000000000000000 cfg_min = (c', None) /\
    cf_RenewInterval c' < cf_LeaseTTL c' /\ cf_GenerationID c' ≠ "".
Proof.
  eexists. assert (defaults (fun _ => "") 1700000000000000000 cfg_min =
    ((defaults (fun _ => "") 1700000000000000000 cfg_min).1, None)) as E by (vm_compute; reflexivity).
  split; [exact E |].
  destruct (config_defaults_sound (fun _ => "") _ _ _ E) as (_ & _ & H & _ & _ & _ & _ & _ & _ & _ & Hg & _).
  split; assumption.
Defined.
