(* ===== verification/Inspect.v ===== *)
(** * The operator toolkit ([cmd/shiftlock-inspect])

    The journal timeline and its rule-based explanation, the sanitized incident bundle,
    the readiness report and the guarded recovery commands.  Flags are arguments; text
    that is printed is left out, what a command reports or changes is not. *)

From S2P Require Import Prelude GoStrings Runes Types BackendSpec ClaimStore MemoryBackend Config Journal.
From Stdlib Require Import Ascii.

#[local] Open Scope Z_scope.

(** ** The timeline *)

Section Timeline.
Variables (unmarshal : string -> option Entry) (fits : string -> bool).

(** Lines that hold an entry of the claim, or of no claim. *)
Definition entry_of_line (claim line : string) : list Entry :=
  let line := TrimSpace line in
  if bool_decide (line = "") then []
  else match unmarshal line with
       | None => []
       | Some e => if negb (bool_decide (claim = "")) && negb (bool_decide (je_Claim e = "")) && negb (bool_decide (je_Claim e = claim)) then [] else [e]
       end.

Definition loadJournalEntries (ok : bool) (claim : string) (f : jfile) : list Entry * option journal_err :=
  if negb ok then ([], Some JOpen)
  else let '(ls, long) := scan fits (tokens f) in (ls ≫= entry_of_line claim, if long then Some JTooLong else None).
End Timeline.

(** ** The explanation *)

Record ExplainReport := mkExplain {
  er_Claim : string; er_Situation : string; er_LastEventType : string; er_LastToken : FencingToken; er_Findings : list string;
  er_Recommendations : list string; er_RulesApplied : list string }.

(** The flags of the loop, and what it has found. *)
Record flags := mkFlags { fl_prepared : bool; fl_commit : bool; fl_abort : bool; fl_signals : nat }.

Section Explain.
Context (lower : Z -> Z).

Definition entry_text (e : Entry) : string := ToLower lower (je_Type e +:+ " " +:+ je_Reason e).

Definition says_prepared (e : Entry) : bool := contains_sub "prepared" (entry_text e) || contains_sub "transfer.prepared" (entry_text e).
Definition says_committed (e : Entry) : bool := contains_sub "committed" (entry_text e) || contains_sub "handoff.completed" (entry_text e).
Definition says_aborted (e : Entry) : bool := contains_sub "aborted" (entry_text e) || contains_sub "handoff.failed" (entry_text e).
Definition says_fenced (e : Entry) : bool := contains_sub "fenced" (entry_text e) || contains_sub "split" (entry_text e).

Definition explain_entry (f : flags) (e : Entry) : flags :=
  let f := if says_prepared e then mkFlags true false (fl_abort f) (fl_signals f) else f in
  let f := if says_committed e then mkFlags false true (fl_abort f) (fl_signals f) else f in
  let f := if says_aborted e then mkFlags false (fl_commit f) true (fl_signals f) else f in
  if says_fenced e then mkFlags (fl_prepared f) (fl_commit f) (fl_abort f) (S (fl_signals f)) else f.

Definition explain_flags (es : list Entry) : flags := foldl explain_entry (mkFlags false false false 0) es.

(** The situation, with its finding, its recommendation and its rule. *)
Definition situation (f : flags) (last : Entry) : string * string * string * string :=
  if fl_prepared f && negb (fl_commit f) then
    ("orphaned_or_pending_transfer", "transfer prepared without subsequent commit", "recovery abort-transfer with expected owner/token", "prepared_without_commit")
  else if fl_abort f && negb (fl_commit f) then
    ("transfer_aborted", "transfer aborted; previous owner should still control", "verify heartbeats restored; monitor ownership", "aborted_transfer")
  else if fl_commit f then
    ("transfer_committed", "commit observed; successor should own claim", "confirm successor heartbeats; fence-out predecessor", "committed_transfer")
  else if contains_sub "unowned" (ToLower lower (je_Type last)) || bool_decide (je_Reason last = "expired") || bool_decide (je_Reason last = "released") then
    ("unowned", "last signal suggests claim unowned", "promote-candidate or resume-previous-owner", "unowned_terminal")
  else ("owned_or_unknown", "no orphaned-transfer pattern detected from journal alone", "cross-check backend GetClaim / PlanRecovery", "default_owned").

Definition base_recommendations : list string :=
  ["prefer abort-transfer / release with --expected-owner --expected-token --reason --confirm"; "never blind force-unlock"].

Definition explainEntries (claim : string) (es : list Entry) : ExplainReport :=
  match last es with
  | None => mkExplain claim "no_events" "" 0 ["journal empty or claim filter matched nothing"]
      (base_recommendations ++ ["verify journal path and claim name"]) ["empty_journal"]
  | Some l =>
    let f := explain_flags es in
    let '(s, finding, recommendation, rule) := situation f l in
    mkExplain claim s (je_Type l) (je_Token l)
      (replicate (fl_signals f) "possible fence-out / split-brain signal in journal" ++ [finding])
      (base_recommendations ++ replicate (fl_signals f) "compare local vs backend token; revoke stale local lease" ++ [recommendation])
      (replicate (fl_signals f) "fence_or_split_signal" ++ [rule])
  end.

(** ** Incident bundles *)

Definition dropped_attr (k : string) : bool :=
  let lk := ToLower lower k in
  contains_sub "password" lk || contains_sub "secret" lk || contains_sub "authorization" lk || bool_decide (lk = "token").

Definition clean_entry (e : Entry) : Entry :=
  mkJEntry (je_Seq e) (je_Time e) (je_Service e) (je_Claim e) (je_Generation e) (je_Type e) (je_Token e) (je_Reason e) (je_OpID e)
    (filter (fun kv => dropped_attr kv.1 = false) (je_Attrs e)).

Definition sanitizeLabel (s : string) : string := let s := TrimSpace s in if bool_decide (s = "") then "unknown" else s.

(** The files of the bundle: the label of the service, the entries, the explanation. *)
Definition IncidentCreate (claim service : string) (es : list Entry) : string * list Entry * ExplainReport :=
  let es := clean_entry <$> es in (sanitizeLabel service, es, explainEntries claim es).
End Explain.

(** ** The readiness report *)

Record ReadinessCheck := mkRCheck { rk_ID : string; rk_Severity : string; rk_Passed : bool; rk_Message : string }.

Record readiness_count := mkCount { rt_status : string; rt_failing : Z; rt_warning : Z }.

Definition count_check (r : readiness_count) (c : ReadinessCheck) : readiness_count :=
  if rk_Passed c then r
  else if bool_decide (rk_Severity c = "error") then mkCount "fail" (rt_failing r + 1) (rt_warning r)
  else if bool_decide (rk_Severity c = "warn") && negb (bool_decide (rt_status r = "fail")) then mkCount "warn" (rt_failing r) (rt_warning r + 1)
  else r.

Definition count_checks (cs : list ReadinessCheck) : readiness_count := foldl count_check (mkCount "pass" 0 0) cs.

Definition readiness_checks (caps : Capabilities) : list ReadinessCheck :=
  [mkRCheck "atomic_cas" "error" (AtomicCAS caps) "backend must advertise AtomicCAS";
   mkRCheck "idempotent_mutations" "error" (IdempotentMutations caps) "OperationID idempotency required for RC";
   mkRCheck "expire_before_mutate" "error" (ExpireBeforeMutate caps) "expire-before-mutate required";
   mkRCheck "renew_during_reserved" "error" (RenewDuringReserved caps) "renewals must continue during reserved";
   mkRCheck "cert_suite_importable" "info" true "shiftlockcert.RunBackendSuite available via go test";
   mkRCheck "memory_backend" "info" true "memory backend available for local verification"].

Definition buildReadinessReport : readiness_count := count_checks (readiness_checks DefaultMemoryCapabilities).

(** The results of the SARIF form: failed checks with their level. *)
Definition marshalSARIF (cs : list ReadinessCheck) : list (string * string * string) :=
  cs ≫= (fun c => if rk_Passed c then [] else [(rk_ID c, if bool_decide (rk_Severity c = "error") then "error" else "warning", rk_Message c)]).

(** ** Recovery *)

(** [fmt.Sscanf(s, "%d", &n)] into a [uint64]: the digits at the front; what follows
    them is not looked at. *)
Definition parseToken (s : string) : option FencingToken :=
  let tok := digits (TrimSpace s) in
  if bool_decide (tok = "") then None
  else let n := decimal 0 tok in if bool_decide (n < 2 ^ 64) then Some n else None.

Record recovery_args := mkRecovery {
  ra_action : string; ra_claim : string; ra_owner : string; ra_token : string; ra_reason : string; ra_confirm : bool;
  ra_dryRun : bool; ra_backend : string; ra_successor : string }.

Inductive recovery_exit :=
| Usage | BadToken | DryRun | NotConfirmed | BadBackend | Failed (e : error) | OwnerMismatch | TokenMismatch | UnknownAction
| Aborted (rec : option ClaimRecord) | Released.

(** The part before a backend is opened. *)
Definition recovery_refused (a : recovery_args) : option recovery_exit :=
  if bool_decide (ra_claim a = "") || bool_decide (ra_owner a = "") || bool_decide (ra_token a = "") || bool_decide (TrimSpace (ra_reason a) = "") then Some Usage
  else match parseToken (ra_token a) with
       | None => Some BadToken
       | Some _ =>
         if ra_dryRun a then Some DryRun
         else if negb (ra_confirm a) then Some NotConfirmed
         else None
       end.

(** The part that uses the backend: [env] is the environment of each of its calls, and
    [op] the operation identifier made of the time. *)
Definition recover (env env' : Env) (op : OperationID) (a : recovery_args) (b : Backend) : Backend * recovery_exit :=
  let tok := default 0 (parseToken (ra_token a)) in
  match GetClaim env (ra_claim a) b with
  | (b, (_, Some e)) => (b, Failed e)
  | (b, (None, None)) => (b, Failed (Sentinel ErrClaimNotFound))
  | (b, (Some rec, None)) =>
    if negb (bool_decide (OwnerGeneration rec = ra_owner a)) then (b, OwnerMismatch)
    else if negb (bool_decide (FencingTokenOf rec = tok)) then (b, TokenMismatch)
    else if bool_decide (ra_action a = "abort-transfer") then
      let to := if bool_decide (ra_successor a = "") then PendingSuccessor rec else ra_successor a in
      match AbortTransfer env' (mkAbort (ra_claim a) (ra_owner a) to tok op) b with
      | (b, (_, Some e)) => (b, Failed e)
      | (b, (out, None)) => (b, Aborted out)
      end
    else if bool_decide (ra_action a = "release") then
      match ReleaseClaim env' (mkRelease (ra_claim a) (ra_owner a) tok op) b with
      | (b, Some e) => (b, Failed e)
      | (b, None) => (b, Released)
      end
    else (b, UnknownAction)
  end.

Definition openRecoveryBackend (name : string) : option Backend :=
  if bool_decide (name = "memory") || bool_decide (name = "") then Some (New false) else None.

Definition runRecovery (env env' : Env) (op : OperationID) (a : recovery_args) : recovery_exit :=
  match recovery_refused a with
  | Some x => x
  | None => match openRecoveryBackend (ra_backend a) with None => BadBackend | Some b => (recover env env' op a b).2 end
  end.

(** ** The explanation reads the journal as it says *)

Section Reading.
Context (lower : Z -> Z).
Let prepared := says_prepared lower.
Let settled (e : Entry) := says_committed lower e || says_aborted lower e.

(** A transfer that was prepared, and neither committed nor aborted since. *)
Definition pending (es : list Entry) : Prop :=
  exists pre e post, es = pre ++ e :: post /\ says_prepared lower e = true /\
    Forall (fun e => says_committed lower e || says_aborted lower e = false) (e :: post).

(** A commit, with no transfer prepared since. *)
Definition committed (es : list Entry) : Prop :=
  exists pre e post, es = pre ++ e :: post /\ says_committed lower e = true /\ Forall (fun e => says_prepared lower e = true -> says_committed lower e = true) post.

Lemma split_snoc (P Q : Entry -> Prop) es x :
  (exists pre e post, es ++ [x] = pre ++ e :: post /\ P e /\ Forall Q post) <->
  P x \/ Q x /\ (exists pre e post, es = pre ++ e :: post /\ P e /\ Forall Q post).
Proof.
  split.
  - intros (pre & e & post & E & HP & HQ). induction post as [|y post _] using rev_ind.
    + apply app_inj_tail in E as [_ ->]. by left.
    + rewrite app_comm_cons, app_assoc in E. apply app_inj_tail in E as [-> ->]. apply Forall_app in HQ as [HQ [Hx _]%Forall_cons].
      right. split; [done |]. by exists pre, e, post.
  - intros [HP|[HQ (pre & e & post & -> & HP & Hf)]]; [by exists es, x, [] |].
    exists pre, e, (post ++ [x]). split_and!; [by rewrite <- app_assoc | done |]. apply Forall_app. by split; [|apply Forall_singleton].
Qed.

Lemma pending_alt es : pending es <-> exists pre e post, es = pre ++ e :: post /\ (says_prepared lower e = true /\ settled e = false) /\ Forall (fun e => settled e = false) post.
Proof.
  unfold pending. split; intros (pre & e & post & -> & H).
  - destruct H as [H1 [H2 H3]%Forall_cons]. by exists pre, e, post.
  - destruct H as [[H1 H2] H3]. exists pre, e, post. split_and!; [done | done |]. by constructor.
Qed.

Lemma explain_flags_snoc es x : explain_flags lower (es ++ [x]) = explain_entry lower (explain_flags lower es) x.
Proof. unfold explain_flags. by rewrite foldl_app. Qed.

Lemma explain_flags_spec es : let f := explain_flags lower es in
  (fl_prepared f = true <-> pending es) /\ (fl_commit f = true <-> committed es) /\
  (fl_abort f = true <-> Exists (fun e => says_aborted lower e = true) es) /\
  fl_signals f = length (filter (fun e => says_fenced lower e = true) es).
Proof.
  cbn zeta. induction es as [|x es (IH1 & IH2 & IH3 & IH4)] using rev_ind.
  - cbn. split_and!; [| | | done]; (split; [done |]); [by intros (pre & ? & ? & E & _); destruct pre .. | by intros ?%Exists_nil].
  - rewrite explain_flags_snoc, pending_alt. unfold committed. rewrite !split_snoc, <- pending_alt. fold (committed es).
    rewrite Exists_app, Exists_cons, Exists_nil, filter_app, length_app, filter_cons. cbn [filter list_filter length].
    destruct (explain_flags lower es) as [p c a n]. cbn [fl_prepared fl_commit fl_abort fl_signals] in *. unfold explain_entry, settled.
    destruct (says_prepared lower x), (says_committed lower x), (says_aborted lower x), (says_fenced lower x); cbn;
      rewrite ?decide_True, ?decide_False by done; cbn; split_and!; try lia; intuition (try done; try congruence).
Qed.

(** The situation of a journal: pending when a transfer was prepared and neither
    committed nor aborted since; committed when one was committed and none prepared since;
    aborted when neither holds and some transfer was aborted; otherwise by the last
    entry.  The signals of a fence-out are counted, and nothing else is found. *)
Theorem explain_exact claim es l : last es = Some l ->
  let r := explainEntries lower claim es in
  er_LastEventType r = je_Type l /\ er_LastToken r = je_Token l /\
  (er_Situation r = "orphaned_or_pending_transfer" <-> pending es) /\
  (er_Situation r = "transfer_committed" <-> ~ pending es /\ committed es) /\
  (er_Situation r = "transfer_aborted" <-> ~ pending es /\ ~ committed es /\ Exists (fun e => says_aborted lower e = true) es) /\
  length (er_Findings r) = S (length (filter (fun e => says_fenced lower e = true) es)).
Proof.
  intros Hl. cbn zeta. unfold explainEntries. rewrite Hl. destruct (explain_flags_spec es) as (H1 & H2 & H3 & H4). cbn zeta in *.
  assert (pending es -> committed es -> False) as Hex.
  { intros Hp Hc. apply H1 in Hp. apply H2 in Hc. clear -Hp Hc.
    revert Hp Hc. induction es as [|x es IH] using rev_ind; [done |]. rewrite explain_flags_snoc.
    destruct (explain_flags lower es) as [p c a n]. unfold explain_entry. cbn [fl_prepared fl_commit fl_abort fl_signals] in *.
    destruct (says_prepared lower x), (says_committed lower x), (says_aborted lower x), (says_fenced lower x); cbn; try done; intros -> ->; by apply IH. }
  rewrite <- H1, <- H2, <- H3, <- H4. rewrite <- H1, <- H2 in Hex. unfold situation.
  destruct (explain_flags lower es) as [[] [] [] n]; cbn [fl_prepared fl_commit fl_abort fl_signals andb negb] in *;
    try (by exfalso; apply Hex); try destruct (_ || _ || _); cbn [er_LastEventType er_LastToken er_Situation er_Findings];
    rewrite length_app, length_replicate; cbn; split_and!; try done; try lia; split; try done; naive_solver.
Qed.

(** A bundle holds every entry, without the attributes whose keys are dropped. *)
Theorem incident_clean claim service es : let '(_, out, _) := IncidentCreate lower claim service es in
  length out = length es /\
  forall i e e', es !! i = Some e -> out !! i = Some e' ->
    forall k v, je_Attrs e' !! k = Some v <-> je_Attrs e !! k = Some v /\ dropped_attr lower k = false.
Proof.
  unfold IncidentCreate. split; [by rewrite length_fmap |]. intros i e e' He He' k v. rewrite list_lookup_fmap, He in He'. injection He' as <-.
  cbn. by rewrite map_lookup_filter_Some.
Qed.
End Reading.

(** A commit hides what happened since: the claim has expired, the report says the
    successor should own it. *)
Lemma expired_after_commit : let e ty reason := mkJEntry 1 0 "s" "c" "g" ty 7 reason "" ∅ in
  er_Situation (explainEntries lower_ascii "c" [e "transfer.committed" ""; e "claim.expired" "expired"]) = "transfer_committed" /\
  er_Situation (explainEntries lower_ascii "c" [e "claim.expired" "expired"]) = "unowned".
Proof. by vm_compute. Qed.

(** An access token stays in a bundle: only the key "token" itself is dropped. *)
Lemma bundle_keeps_access_token : dropped_attr lower_ascii "access_token" = false /\ dropped_attr lower_ascii "api_key" = false.
Proof. by vm_compute. Qed.

(** ** Readiness *)

(** The status of a list of checks. *)
Theorem readiness_status cs : let r := count_checks cs in
  (rt_status r = "fail" <-> Exists (fun c => rk_Passed c = false /\ rk_Severity c = "error") cs) /\
  (rt_status r = "pass" <-> Forall (fun c => rk_Passed c = true \/ rk_Severity c ≠ "error" /\ rk_Severity c ≠ "warn") cs) /\
  rt_failing r = Z.of_nat (length (filter (fun c => rk_Passed c = false /\ rk_Severity c = "error") cs)).
Proof.
  cbn zeta. unfold count_checks. induction cs as [|c cs (IH1 & IH2 & IH3)] using rev_ind; [cbn; split_and!; [|split; [constructor | done] | done]; split; [done | by intros ?%Exists_nil] |].
  rewrite foldl_app, Exists_app, Exists_cons, Exists_nil, Forall_app, Forall_cons, filter_app, length_app, filter_cons. cbn [foldl filter list_filter].
  destruct (foldl count_check _ cs) as [s f w]. cbn [rt_status rt_failing rt_warning] in *. unfold count_check. destruct (rk_Passed c) eqn:Ep; cbn [rt_status rt_failing].
  - rewrite decide_False by (by intros [? _]). cbn. split_and!; [|split; [intros; split; [tauto | split; [by left | constructor]] | tauto] | lia]. split; [tauto | intros [?|[[? _]|[]]]; [tauto | done]].
  - destruct (bool_decide_reflect (rk_Severity c = "error")) as [He|He]; cbn [rt_status rt_failing].
    + rewrite decide_True by done. cbn. split_and!; [split; [by right; left | done] | | lia]. split; [done |]. intros [_ [[|[? _]] _]]; done.
    + rewrite decide_False by (by intros [_ ?]). cbn.
      destruct (bool_decide_reflect (rk_Severity c = "warn")) as [Hw|Hw]; cbn [andb].
      * destruct (bool_decide_reflect (s = "fail")) as [->|Hs]; cbn [negb rt_status rt_failing].
        -- split_and!; [split; [intros; left; tauto | done] | | lia]. split; [done |]. intros [_ [[|[_ ?]] _]]; done.
        -- split_and!; [| |lia]; (split; [done |]); [intros [?%IH1|[[_ ?]|[]]]; done | intros [_ [[|[_ ?]] _]]; done].
      * cbn. split_and!; [| |lia]; [split; [intros; left; tauto | intros [?|[[_ ?]|[]]]; tauto] |].
        split; [intros; split; [tauto | split; [by right | constructor]] | tauto].
Qed.

(** The report looks at the in-process backend, whose capabilities are constants: it
    passes whatever runs in production. *)
Lemma readiness_always_passes : buildReadinessReport = mkCount "pass" 0 0.
Proof. reflexivity. Qed.

(** ** Recovery *)

(** Recovery is guarded: a transfer is aborted or a claim released only with the
    confirmation given, no dry run, a reason, and the owner and the token that were
    expected. *)
Theorem recovery_guarded env env' op a b : recovery_refused a = None ->
  forall b' x, recover env env' op a b = (b', x) -> (x = Released \/ exists r, x = Aborted r) ->
  ra_confirm a = true /\ ra_dryRun a = false /\ TrimSpace (ra_reason a) ≠ "" /\
  exists rec, (GetClaim env (ra_claim a) b).2 = (Some rec, None) /\ OwnerGeneration rec = ra_owner a /\ Some (FencingTokenOf rec) = parseToken (ra_token a).
Proof.
  unfold recovery_refused. intros Hr b' x.
  destruct (_ || _) eqn:Eu in Hr; [done |]. apply orb_false_elim in Eu as [_ Eu]. apply bool_decide_eq_false in Eu.
  unfold recover. destruct (parseToken (ra_token a)) as [tok|]; [|done]. cbn [default from_option id].
  destruct (ra_dryRun a); [done |]. destruct (ra_confirm a); [|done]. clear Hr.
  destruct (GetClaim env (ra_claim a) b) as [b1 [[rec|] [e|]]]; try by intros [= <- <-] [Hx|[? Hx]].
  destruct (bool_decide_reflect (OwnerGeneration rec = ra_owner a)); cbn [negb]; [|by intros [= <- <-] [Hx|[? Hx]]].
  destruct (bool_decide_reflect (FencingTokenOf rec = tok)) as [Ht|]; cbn [negb]; [|by intros [= <- <-] [Hx|[? Hx]]].
  intros _ _. split_and!; try done. exists rec. cbn in *. by split_and!; [| |f_equal].
Qed.

(** The command opens a new, empty in-process backend: it can never abort or release
    anything. *)
Theorem recovery_never_recovers env env' op a : let x := runRecovery env env' op a in x ≠ Released /\ forall r, x ≠ Aborted r.
Proof.
  cbn zeta. unfold runRecovery. destruct (recovery_refused a) as [x|] eqn:Er.
  - unfold recovery_refused in Er. destruct (_ || _); [by injection Er as <- |]. destruct (parseToken _); [|by injection Er as <-].
    destruct (ra_dryRun a); [by injection Er as <- |]. destruct (ra_confirm a); [done |]. by injection Er as <-.
  - unfold openRecoveryBackend. destruct (_ || _); [|done].
    enough ((recover env env' op a (New false)).2 = Failed (Sentinel ErrClaimNotFound)) as -> by done. reflexivity.
Qed.

(** Text after the digits of a token is ignored. *)
Lemma token_suffix_ignored : parseToken "12x" = Some 12.
Proof. reflexivity. Qed.
