(* ===== verification/Coordinator.v ===== *)
(** * The coordinator, its claims and handoffs
    ([coordinator.go], [claim.go], [handoff.go])

    A [Coordinator] holds one generation, its claims and a connection to a
    backend shared with other processes.  The backend is any instance of
    [BackendOps]; what other processes do to it between two calls of this one is
    the function [others], and the clock readings and cancellation of the [n]-th
    call are [genv n] (each backend call takes a fresh operation number [n]).
    Methods are state-passing functions over the coordinator and, for handoffs,
    the [Handoff]; the loops over claims are recursive functions over the list
    of claim names.  Channels that only wake waiters ([acquireCh], the event
    dispatcher) are not part of the state; the events handed to the bus are. *)

From S2P Require Import Prelude GoStrings Types BackendSpec StateGraph Drain.

(** ** Data *)

(** A lease: the token, and whether its context was cancelled. *)
Record Lease := mkLease { l_token : FencingToken; l_revoked : bool }.

Record Claim := mkClaim {
  cl_name : string; record : ClaimRecord; lease : option Lease; drain : DrainGroup;
  cl_closed : bool; acquiring : bool; renewing : bool }.

Definition set_record v c := mkClaim (cl_name c) v (lease c) (drain c) (cl_closed c) (acquiring c) (renewing c).
Definition set_lease v c := mkClaim (cl_name c) (record c) v (drain c) (cl_closed c) (acquiring c) (renewing c).
Definition set_drain v c := mkClaim (cl_name c) (record c) (lease c) v (cl_closed c) (acquiring c) (renewing c).
Definition set_cl_closed v c := mkClaim (cl_name c) (record c) (lease c) (drain c) v (acquiring c) (renewing c).
Definition set_acquiring v c := mkClaim (cl_name c) (record c) (lease c) (drain c) (cl_closed c) v (renewing c).
Definition set_renewing v c := mkClaim (cl_name c) (record c) (lease c) (drain c) (cl_closed c) (acquiring c) v.

Inductive EventType :=
| EventGenerationRegistered | EventClaimExpired | EventReadinessStarted | EventReadinessPassed
| EventReadinessFailed
| EventClaimAcquired | EventClaimReleased | EventLeaseRevoked | EventClaimLost
| EventClaimRenewed | EventBackendHeartbeat | EventGenerationState | EventError
| EventHandoffStarted | EventDrainStarted | EventDrainFailed | EventDrainCompleted
| EventTransferPrepared | EventTransferAborted | EventTransferCommitted
| EventHandoffCompleted | EventHandoffFailed | EventClosed.

Record Event := mkEvent {
  e_Type : EventType; e_Claim : string; e_Token : FencingToken;
  e_Reason : TransitionReason; e_Err : option error }.

(** The part of the configuration the operations read. *)
Record CoordConfig := mkCoordConfig {
  cfg_LeaseTTL : Duration; cfg_TransferTimeout : Duration; cfg_MaxConcurrentClaims : Z }.

Inductive HandoffStatus :=
| HandoffPending | HandoffDraining | HandoffTransferring
| HandoffCommitted | HandoffAborted | HandoffFailed.

#[global] Instance HandoffStatus_eq_dec : EqDecision HandoffStatus.
Proof. solve_decision. Defined.

Definition HandoffStatus_string (s : HandoffStatus) : string :=
  match s with
  | HandoffPending => "pending" | HandoffDraining => "draining"
  | HandoffTransferring => "transferring" | HandoffCommitted => "committed"
  | HandoffAborted => "aborted" | HandoffFailed => "failed"
  end.

Record Handoff := mkHandoff {
  h_claims : list string; status : HandoffStatus; successorID : string;
  drainDone : bool; transferDone : bool; tokens : gmap string FencingToken;
  watcherStarted : bool; h_err : option error }.

Definition set_status v h := mkHandoff (h_claims h) v (successorID h) (drainDone h)
  (transferDone h) (tokens h) (watcherStarted h) (h_err h).
Definition set_successorID v h := mkHandoff (h_claims h) (status h) v (drainDone h)
  (transferDone h) (tokens h) (watcherStarted h) (h_err h).
Definition set_drainDone v h := mkHandoff (h_claims h) (status h) (successorID h) v
  (transferDone h) (tokens h) (watcherStarted h) (h_err h).
Definition set_transferDone v h := mkHandoff (h_claims h) (status h) (successorID h)
  (drainDone h) v (tokens h) (watcherStarted h) (h_err h).
Definition set_tokens v h := mkHandoff (h_claims h) (status h) (successorID h)
  (drainDone h) (transferDone h) v (watcherStarted h) (h_err h).
Definition set_watcherStarted v h := mkHandoff (h_claims h) (status h) (successorID h)
  (drainDone h) (transferDone h) (tokens h) v (h_err h).
Definition set_h_err v h := mkHandoff (h_claims h) (status h) (successorID h)
  (drainDone h) (transferDone h) (tokens h) (watcherStarted h) v.

(** ** Operation identifiers *)

(** [itoa64] has the body of [itoa] of package [model]. *)
Definition itoa64 (n : Z) : option string :=
  if bool_decide (n = 0) then Some "0" else itoa_loop 20 n "".

Definition opID (genID op claim : string) (n : Z) : OperationID :=
  genID +:+ ":" +:+ op +:+ ":" +:+ claim +:+ ":" +:+ default "" (itoa64 n).

Section Coordinator.
Context {S : Type} `{!BackendOps S}.

(** The environment of this coordinator's backend calls. *)
Variables (genv : Z -> Env) (others : Z -> S -> S).

Record Coord := mkCoord {
  gen : Generation; cfg : CoordConfig; cclaims : gmap string Claim; co_closed : bool;
  opSeq : Z; lastHeartbeat : Time; backend : S; bus : list Event; sup_down : bool }.

Definition set_gen v c := mkCoord v (cfg c) (cclaims c) (co_closed c) (opSeq c)
  (lastHeartbeat c) (backend c) (bus c) (sup_down c).
Definition set_cclaims v c := mkCoord (gen c) (cfg c) v (co_closed c) (opSeq c)
  (lastHeartbeat c) (backend c) (bus c) (sup_down c).
Definition set_co_closed v c := mkCoord (gen c) (cfg c) (cclaims c) v (opSeq c)
  (lastHeartbeat c) (backend c) (bus c) (sup_down c).
Definition set_opSeq v c := mkCoord (gen c) (cfg c) (cclaims c) (co_closed c) v
  (lastHeartbeat c) (backend c) (bus c) (sup_down c).
Definition set_lastHeartbeat v c := mkCoord (gen c) (cfg c) (cclaims c) (co_closed c)
  (opSeq c) v (backend c) (bus c) (sup_down c).
Definition set_backend v c := mkCoord (gen c) (cfg c) (cclaims c) (co_closed c)
  (opSeq c) (lastHeartbeat c) v (bus c) (sup_down c).
Definition set_bus v c := mkCoord (gen c) (cfg c) (cclaims c) (co_closed c)
  (opSeq c) (lastHeartbeat c) (backend c) v (sup_down c).
Definition set_sup_down v c := mkCoord (gen c) (cfg c) (cclaims c) (co_closed c)
  (opSeq c) (lastHeartbeat c) (backend c) (bus c) v.

Definition emit (t : EventType) (claim : string) (tok : FencingToken)
    (reason : TransitionReason) (err : option error) (c : Coord) : Coord :=
  set_bus (bus c ++ [mkEvent t claim tok reason err]) c.

(** Write back one claim. *)
Definition put_cl (cl : Claim) (c : Coord) : Coord :=
  set_cclaims (<[cl_name cl := cl]> (cclaims c)) c.

(** [newOpID]: the number is taken under the lock, so it is fresh. *)
Definition newOpID (op claim : string) (c : Coord) : Coord * OperationID :=
  let n := u64 (opSeq c + 1) in
  (set_opSeq n c, opID (ID (gen c)) op claim n).

(** A backend call made with the identifier just taken. *)
Definition call {R} (f : Env -> S -> S * R) (c : Coord) : Coord * R :=
  let '(s, r) := f (genv (opSeq c)) (others (opSeq c) (backend c)) in
  (set_backend s c, r).

(** ** [coordinator.go] *)

Definition checkOpen (c : Coord) : option error :=
  if co_closed c then Some (Sentinel ErrClosed) else None.

Definition set_gen_state (to : GenerationState) (reason : TransitionReason) (now : Time)
    (g : Generation) : Generation :=
  mkGeneration (ID g) (Service g) (InstanceID g) to (StartedAt g) now reason.

Definition setState (to : GenerationState) (reason : TransitionReason) (c : Coord) :
    Coord * option error :=
  let from := State (gen c) in
  let now := env_t2 (genv (opSeq c)) in
  if decide (from = to) then
    (set_gen (set_gen_state from reason now (gen c)) c, None)
  else if negb (CanTransition from to) then
    (emit EventError "" 0 reason (Some (Sentinel ErrInvalidState)) c,
     Some (Typed (mkErrorOf "setState" "" "" 0 reason (Some (Sentinel ErrInvalidState))
             (GenerationState_string from +:+ " -> " +:+ GenerationState_string to) "" "")))
  else
    let c := set_gen (set_gen_state to reason now (gen c)) c in
    let '(s, _) := do_Update (genv (opSeq c)) (gen c) (backend c) in
    (c |> set_backend s |> emit EventGenerationState "" 0 reason None, None).

Definition new_handle (name : string) : Claim :=
  mkClaim name (unowned_record name) None (NewDrainGroup 0) false false false.

Definition Claim_handle (name : string) (c : Coord) : Coord * option error :=
  if bool_decide (name = "") then
    (c, Some (mkError "Claim" (Sentinel ErrPolicy) "claim name required"))
  else match checkOpen c with
  | Some e => (c, wrap "Claim" (Some e))
  | None =>
      match cclaims c !! name with
      | Some _ => (c, None)
      | None =>
          let m := cfg_MaxConcurrentClaims (cfg c) in
          if bool_decide (0 < m) && bool_decide (m <= Z.of_nat (size (cclaims c))) then
            (c, Some (mkError "Claim" (Sentinel ErrPolicy) "MaxConcurrentClaims exceeded"))
          else (put_cl (new_handle name) c, None)
      end
  end.

(** ** [claim.go] *)

(** [lease.Valid()]: the lease's context is a child of the supervisor's. *)
Definition lease_valid (c : Coord) (cl : Claim) : bool :=
  match lease cl with
  | Some l => negb (l_revoked l) && negb (sup_down c)
  | None => false
  end.

Definition currentLeaseToken (c : Coord) (cl : Claim) : option FencingToken :=
  match lease cl with
  | Some l =>
      if negb (l_revoked l) && negb (sup_down c) then Some (l_token l)
      else if Controls (ToOwnership (record cl)) (ID (gen c))
           then Some (FencingTokenOf (record cl)) else None
  | None =>
      if Controls (ToOwnership (record cl)) (ID (gen c))
      then Some (FencingTokenOf (record cl)) else None
  end.

(** [startRenewal]: the goroutine runs while [renewing] is set. *)
Definition startRenewal (cl : Claim) (c : Coord) : Coord :=
  if renewing cl then c else put_cl (set_renewing true cl) c.

Definition revokeLease (reason : TransitionReason) (cl : Claim) (c : Coord) : Coord :=
  let cl := set_renewing false cl in
  match lease cl with
  | None => put_cl cl c
  | Some _ =>
      c |> put_cl (set_lease None cl) |> emit EventLeaseRevoked (cl_name cl) 0 reason None
  end.

Definition applyRecord (rec : ClaimRecord) (cl : Claim) (c : Coord) : Coord :=
  let cl := set_record rec cl in
  match lease cl with
  | None => put_cl cl c
  | Some l =>
      if negb (Controls (ToOwnership rec) (ID (gen c))) then
        c |> put_cl (set_lease None (set_renewing false cl))
          |> emit EventClaimLost (cl_name cl) (FencingTokenOf rec) ReasonFencedOut None
      else put_cl (set_lease (Some (mkLease (FencingTokenOf rec) (l_revoked l))) cl) c
  end.

Definition ensureLocalLease (cl : Claim) (c : Coord) : Coord :=
  if cl_closed cl then c
  else if negb (Controls (ToOwnership (record cl)) (ID (gen c))) then c
  else if lease_valid c cl then
    let cl := set_lease (Some (mkLease (FencingTokenOf (record cl)) false)) cl in
    startRenewal cl (put_cl cl c)
  else
    let cl := set_lease (Some (mkLease (FencingTokenOf (record cl)) false)) cl in
    startRenewal cl (put_cl cl c).

Definition restoreLease (rec : ClaimRecord) (cl : Claim) (c : Coord) : Coord :=
  let cl := set_record rec cl in ensureLocalLease cl (put_cl cl c).

(** The tail of [tryAcquire] after the backend accepted the request. *)
Definition install_lease (rec : ClaimRecord) (cl : Claim) (c : Coord) :
    Coord * (option Lease * option error) :=
  if cl_closed cl then
    let '(c, id) := newOpID "release-compensate" (cl_name cl) c in
    let '(c, _) := call (fun env => do_Release env
      (mkRelease (cl_name cl) (ID (gen c)) (FencingTokenOf rec) id)) c in
    (c, (None, Some (Sentinel ErrClosed)))
  else if lease_valid c cl then (c, (lease cl, None))
  else
    let cl := set_record rec (set_lease None cl) in
    if negb (OwnedBy (ToOwnership rec) (ID (gen c))) then
      (put_cl cl c, (None, Some (Sentinel ErrClaimHeld)))
    else
      let l := mkLease (FencingTokenOf rec) false in
      let cl := set_lease (Some l) cl in
      let c := put_cl cl c in
      let '(c, _) := setState StateActive ReasonAcquired c in
      let c := emit EventClaimAcquired (cl_name cl) (FencingTokenOf rec) ReasonAcquired None c in
      (startRenewal cl c, (Some l, None)).

(** [tryAcquire].  The mutex of the claim is not held during the backend call:
    [meanwhile] is what other goroutines (a close, an abort that restores the
    lease) made of the claim by the time it is locked again.  The flag
    [acquiring] is set for that time and reset on return. *)
Definition tryAcquire (name : string) (meanwhile : Claim -> Claim) (c : Coord) :
    Coord * (option Lease * option error) :=
  match cclaims c !! name with
  | None => (c, (None, Some (Sentinel ErrClaimNotFound)))
  | Some cl =>
      if cl_closed cl then (c, (None, Some (Sentinel ErrClosed)))
      else if lease_valid c cl then (c, (lease cl, None))
      else if acquiring cl then (c, (None, Some (Sentinel ErrClaimHeld)))
      else
        let '(c, id) := newOpID "acquire" name c in
        let '(c, (rec, err)) := call (fun env => do_Acquire env
          (mkAcquire name (ID (gen c)) (cfg_LeaseTTL (cfg c)) false id)) c in
        let cl := set_acquiring false (meanwhile (set_acquiring true cl)) in
        let c := put_cl cl c in
        match rec, err with
        | Some rec, None => install_lease rec cl c
        | _, Some e => (c, (None, Some e))
        | None, None => (c, (None, None))
        end
  end.

Definition Release (name : string) (c : Coord) : Coord * option error :=
  match cclaims c !! name with
  | None => (c, Some (Sentinel ErrClaimNotFound))
  | Some cl =>
      match lease cl with
      | None => (c, wrapClaim "Release" name (Some (Sentinel ErrNotOwner)))
      | Some l =>
          let '(c, id) := newOpID "release" name c in
          let '(c, err) := call (fun env => do_Release env
            (mkRelease name (ID (gen c)) (l_token l) id)) c in
          match err with
          | Some e => (c, wrapClaim "Release" name (Some e))
          | None =>
              (c |> revokeLease ReasonReleased cl
                 |> emit EventClaimReleased name (l_token l) ReasonReleased None, None)
          end
      end
  end.

(** One tick of the goroutine of [startRenewal]. *)
Definition renew_tick (name : string) (c : Coord) : Coord :=
  match cclaims c !! name with
  | None => c
  | Some cl =>
      if negb (renewing cl) then c
      else match currentLeaseToken c cl with
      | None => put_cl (set_renewing false cl) c
      | Some token =>
          let ttl := if decide (Phase (record cl) = ClaimReserved)
                     then reservationTTL (cfg_LeaseTTL (cfg c)) (cfg_TransferTimeout (cfg c))
                     else cfg_LeaseTTL (cfg c) in
          let '(c, id) := newOpID "renew" name c in
          let '(c, (rec, err)) := call (fun env => do_Renew env
            (mkRenew name (ID (gen c)) token ttl id)) c in
          match rec, err with
          | Some rec, None =>
              c |> applyRecord rec cl
                |> set_lastHeartbeat (env_t3 (genv (opSeq c)))
                |> emit EventClaimRenewed name (FencingTokenOf rec) ReasonRenewed None
                |> emit EventBackendHeartbeat name 0 ReasonNone None
          | _, _ =>
              c |> revokeLease ReasonExpired cl
                |> emit EventClaimLost name token ReasonExpired err
          end
      end
  end.

(** [close] of one claim. *)
Definition close_claim (cl : Claim) : Claim :=
  cl |> set_cl_closed true |> set_renewing false |> set_lease None
     |> set_drain (Drain.Close (drain cl)).

Definition Close (c : Coord) : Coord :=
  if co_closed c then c
  else
    let c := set_cclaims (close_claim <$> cclaims c) (set_co_closed true c) in
    let '(c, _) := setState StateRetired ReasonClosed c in
    c |> emit EventClosed "" 0 ReasonClosed None |> set_sup_down true.

(** [PrepareHandoff]; [order] is the order in which the map of claims is
    iterated. *)
Definition PrepareHandoff (order : list string) (c : Coord) :
    Coord * (option Handoff * option error) :=
  match checkOpen c with
  | Some e => (c, (None, wrap "PrepareHandoff" (Some e)))
  | None =>
      match setState StateDraining ReasonDrainStarted c with
      | (c, Some e) => (c, (None, wrap "PrepareHandoff" (Some e)))
      | (c, None) =>
          (emit EventHandoffStarted "" 0 ReasonDrainStarted None c,
           (Some (mkHandoff order HandoffPending "" false false ∅ false None), None))
      end
  end.
End Coordinator.
