(* ===== verification/EventBus.v ===== *)
(** * The event bus ([event.go])

    Hooks are called inline, observers through a bounded channel by the dispatcher
    goroutine.  [emit] and each round of [run] are steps of one system; [hooks] and
    [observers] are numbered, and a callback that panics is recovered, so a call is
    recorded whatever it does.  [filter] is the event filter. *)

From S2P Require Import Prelude Types Coordinator.

Record BusEvent := mkBusEvent {
  ev_Type : EventType; ev_Time : Time; ev_Service : string; ev_Generation : string; ev_InstanceID : string;
  ev_Claim : string; ev_Token : FencingToken; ev_FromState : string; ev_ToState : string; ev_Reason : TransitionReason;
  ev_Err : string }.

Section Bus.
Context (filter_ : option (BusEvent -> bool)).

(** [hb_hooked] is what the hooks have been called with, [hb_delivered] what the
    observers have, each as a number and an event, in order. *)
Record eventBus := mkBus {
  hb_hooks : nat; hb_observers : nat; hb_ch : list BusEvent; hb_cap : Z; hb_dropped : Z;
  hb_service : string; hb_genID : string; hb_instance : string;
  hb_hooked : list (nat * BusEvent); hb_delivered : list (nat * BusEvent) }.

Definition newEventBus (hooks observers : nat) (buffer : Z) (service genID instance : string) : eventBus :=
  mkBus hooks observers [] buffer 0 service genID instance [] [].

(** The defaults [emit] fills in. *)
Definition fill (now : Time) (b : eventBus) (e : BusEvent) : BusEvent :=
  mkBusEvent (ev_Type e) (if IsZero (ev_Time e) then now else ev_Time e)
    (if bool_decide (ev_Service e = "") then hb_service b else ev_Service e)
    (if bool_decide (ev_Generation e = "") then hb_genID b else ev_Generation e)
    (if bool_decide (ev_InstanceID e = "") then hb_instance b else ev_InstanceID e)
    (ev_Claim e) (ev_Token e) (ev_FromState e) (ev_ToState e) (ev_Reason e) (ev_Err e).

Definition passes (e : BusEvent) : bool := match filter_ with Some f => f e | None => true end.

(** The calls of one event: to every hook, or to every observer. *)
Definition calls (n : nat) (e : BusEvent) : list (nat * BusEvent) := (fun i => (i, e)) <$> seq 0 n.

(** A send that finds the channel full counts the event as dropped. *)
Definition send (e : BusEvent) (b : eventBus) : eventBus :=
  if bool_decide (Z.of_nat (length (hb_ch b)) < hb_cap b)
  then mkBus (hb_hooks b) (hb_observers b) (hb_ch b ++ [e]) (hb_cap b) (hb_dropped b) (hb_service b) (hb_genID b)
         (hb_instance b) (hb_hooked b) (hb_delivered b)
  else mkBus (hb_hooks b) (hb_observers b) (hb_ch b) (hb_cap b) (u64 (hb_dropped b + 1)) (hb_service b) (hb_genID b)
         (hb_instance b) (hb_hooked b) (hb_delivered b).

Definition call_hooks (e : BusEvent) (b : eventBus) : eventBus :=
  mkBus (hb_hooks b) (hb_observers b) (hb_ch b) (hb_cap b) (hb_dropped b) (hb_service b) (hb_genID b)
    (hb_instance b) (hb_hooked b ++ calls (hb_hooks b) e) (hb_delivered b).

Definition emit (now : Time) (e : BusEvent) (b : eventBus) : eventBus :=
  let e := fill now b e in
  if negb (passes e) then b else send e (call_hooks e b).

Definition dispatch (e : BusEvent) (b : eventBus) : eventBus :=
  mkBus (hb_hooks b) (hb_observers b) (hb_ch b) (hb_cap b) (hb_dropped b) (hb_service b) (hb_genID b)
    (hb_instance b) (hb_hooked b) (hb_delivered b ++ calls (hb_observers b) e).

Definition set_ch (l : list BusEvent) (b : eventBus) : eventBus :=
  mkBus (hb_hooks b) (hb_observers b) l (hb_cap b) (hb_dropped b) (hb_service b) (hb_genID b)
    (hb_instance b) (hb_hooked b) (hb_delivered b).

(** A round of [run] that receives; [None] when there is nothing to receive. *)
Definition receive (b : eventBus) : option eventBus :=
  match hb_ch b with [] => None | e :: l => Some (dispatch e (set_ch l b)) end.

(** The inner loop of [run] after the context is done: at most as many rounds as the
    channel holds, when nobody emits meanwhile. *)
Fixpoint drain_bus (fuel : nat) (b : eventBus) : option eventBus :=
  match fuel with
  | O => None
  | S fuel => match receive b with None => Some b | Some b => drain_bus fuel b end
  end.

(** ** Executions: emissions and rounds of the dispatcher in any order *)

Inductive bus_step : eventBus -> eventBus -> Prop :=
| bus_emit now e b : bus_step b (emit now e b)
| bus_receive b b' : receive b = Some b' -> bus_step b b'.

(** Events that passed the filter, with whether they found room. *)
Fixpoint accepted (log : list (BusEvent * bool)) : list BusEvent :=
  match log with
  | [] => []
  | (e, ok) :: log => if ok then e :: accepted log else accepted log
  end.

Definition lost (log : list (BusEvent * bool)) : nat := length (filter (fun x => x.2 = false) log).

(** What the bus has done is explained by a log of the events that passed the
    filter: hooks saw all of them, observers those that found room, up to the ones still
    queued, in the same order. *)
Record explained (b0 b : eventBus) (log : list (BusEvent * bool)) (seen : list BusEvent) : Prop := {
  ex_same : hb_hooks b = hb_hooks b0 /\ hb_observers b = hb_observers b0 /\ hb_cap b = hb_cap b0;
  ex_hooked : hb_hooked b = log ≫= (fun x => calls (hb_hooks b) x.1);
  ex_accepted : accepted log = seen ++ hb_ch b;
  ex_delivered : hb_delivered b = seen ≫= calls (hb_observers b);
  ex_dropped : hb_dropped b = u64 (Z.of_nat (lost log));
  ex_room : Z.of_nat (length (hb_ch b)) <= hb_cap b \/ hb_ch b = [] }.

Lemma accepted_app l1 l2 : accepted (l1 ++ l2) = accepted l1 ++ accepted l2.
Proof. induction l1 as [|[e []] l1 IH]; simpl; rewrite ?IH; done. Qed.

Lemma lost_app l1 l2 : lost (l1 ++ l2) = (lost l1 + lost l2)%nat.
Proof. unfold lost. by rewrite filter_app, length_app. Qed.

Lemma emit_explained b0 now e b log seen : explained b0 b log seen ->
  exists more, explained b0 (emit now e b) (log ++ more) seen.
Proof.
  intros [Hs Hh Ha Hd Hp Hr]. unfold emit. destruct (passes (fill now b e)); cbn [negb]; [|by exists []; rewrite app_nil_r].
  set (e' := fill now b e). unfold send, call_hooks. cbn [hb_ch hb_cap].
  destruct (bool_decide_reflect (Z.of_nat (length (hb_ch b)) < hb_cap b)) as [Hl|Hl].
  - exists [(e', true)]. split; cbn [hb_hooks hb_observers hb_cap hb_hooked hb_ch hb_delivered hb_dropped]; try done.
    + rewrite bind_app, Hh. simpl. by rewrite app_nil_r.
    + by rewrite accepted_app, Ha, <- app_assoc.
    + rewrite lost_app. by rewrite Nat.add_0_r.
    + left. rewrite length_app. simpl. lia.
  - exists [(e', false)]. split; cbn [hb_hooks hb_observers hb_cap hb_hooked hb_ch hb_delivered hb_dropped]; try done.
    + rewrite bind_app, Hh. simpl. by rewrite app_nil_r.
    + by rewrite accepted_app, Ha, app_nil_r.
    + rewrite lost_app, Hp. change (lost [(e', false)]) with 1%nat. unfold u64.
      rewrite Zplus_mod_idemp_l. f_equal. lia.
Qed.

Lemma receive_explained b0 b b' log seen : explained b0 b log seen -> receive b = Some b' ->
  exists e, explained b0 b' log (seen ++ [e]).
Proof.
  intros [Hs Hh Ha Hd Hp Hr]. unfold receive. destruct (hb_ch b) as [|e l] eqn:Ec; [done |]. intros [= <-]. exists e.
  split; cbn [dispatch set_ch hb_hooks hb_observers hb_cap hb_hooked hb_ch hb_delivered hb_dropped]; try done.
  - by rewrite Ha, <- app_assoc.
  - rewrite bind_app, Hd. simpl. by rewrite app_nil_r.
  - destruct Hr as [Hr|]; [|done]. left. simpl in Hr. lia.
Qed.

Lemma drain_explained b0 log : forall b seen, explained b0 b log seen ->
  exists b', drain_bus (S (length (hb_ch b))) b = Some b' /\ hb_ch b' = [] /\ explained b0 b' log (accepted log).
Proof.
  intros b. remember (length (hb_ch b)) as n eqn:Hn. revert b Hn. induction n as [|n IH]; intros b Hn seen He.
  - exists b. cbn [drain_bus]. unfold receive. destruct (hb_ch b) eqn:Ec; [|done]. split; [done |]. split; [done |].
    rewrite (ex_accepted _ _ _ _ He), Ec, app_nil_r. done.
  - destruct (receive b) as [b1|] eqn:Er; [|unfold receive in Er; by destruct (hb_ch b)].
    destruct (receive_explained b0 b b1 log seen He Er) as [e He1].
    destruct (IH b1) with (seen := seen ++ [e]) as (b' & Hd & Hc & He'); [|done|].
    { unfold receive in Er. destruct (hb_ch b); [done |]. injection Er as <-. simpl in *. lia. }
    exists b'. split; [|done]. change (drain_bus (S (S n)) b) with
      (match receive b with None => Some b | Some b => drain_bus (S n) b end). by rewrite Er.
Qed.

(** Whatever is emitted and however the dispatcher runs, every hook sees all events
    that pass the filter, in order; the observers see, in order and once each, exactly
    those that found room in the channel and are no longer queued; the counter of
    dropped events counts the others; and once emissions stop, draining delivers
    everything queued in as many rounds as there are events, and one to see that the
    channel is empty. *)
Theorem bus_delivers hooks observers buffer service genID instance b :
  let b0 := newEventBus hooks observers buffer service genID instance in
  steps bus_step b0 b ->
  exists log seen, explained b0 b log seen /\
  exists b', drain_bus (S (length (hb_ch b))) b = Some b' /\ hb_ch b' = [] /\
    hb_delivered b' = accepted log ≫= calls observers /\ hb_hooked b' = hb_hooked b /\ hb_dropped b' = hb_dropped b.
Proof.
  intros b0 Hs. assert (exists log seen, explained b0 b log seen) as (log & seen & He).
  { eapply (steps_invariant bus_step (fun b => exists log seen, explained b0 b log seen)); [|exact Hs|].
    - intros b1 b2 (log & seen & He) Hst. destruct Hst as [now e b1|b1 b2 Hr].
      + destruct (emit_explained b0 now e b1 log seen He) as [more ?]. eauto.
      + destruct (receive_explained b0 b1 b2 log seen He Hr) as [e ?]. eauto.
    - exists [], []. split; try done. by right. }
  exists log, seen. split; [done |]. destruct (drain_explained b0 log b seen He) as (b' & Hd & Hc & He').
  exists b'. split; [done |]. split; [done |]. destruct (ex_same _ _ _ _ He) as (Eh & Eo & _), (ex_same _ _ _ _ He') as (Eh' & Eo' & _).
  split; [by rewrite (ex_delivered _ _ _ _ He'), Eo' |].
  split; [by rewrite (ex_hooked _ _ _ _ He), (ex_hooked _ _ _ _ He'), Eh, Eh' |].
  by rewrite (ex_dropped _ _ _ _ He), (ex_dropped _ _ _ _ He').
Qed.
End Bus.

(** ** Example: a channel of one place *)

Definition event_demo (claim : string) : BusEvent :=
  mkBusEvent EventClaimAcquired 0 "" "" "" claim 1 "" "" ReasonAcquired "".
Definition bus_demo : eventBus := emit None 5 (event_demo "b") (emit None 5 (event_demo "a") (newEventBus 1 1 1 "svc" "g" "i")).

Lemma bus_delivers_witness :
  steps (bus_step None) (newEventBus 1 1 1 "svc" "g" "i") bus_demo /\ hb_dropped bus_demo = 1 /\
  exists b', drain_bus (S (length (hb_ch bus_demo))) bus_demo = Some b' /\ hb_ch b' = [].
Proof.
  assert (steps (bus_step None) (newEventBus 1 1 1 "svc" "g" "i") bus_demo) as Hs.
  { unfold bus_demo. eapply steps_cons; [apply bus_emit |]. apply steps_one. apply bus_emit. }
  split; [exact Hs |]. split; [by vm_compute |].
  destruct (bus_delivers None 1 1 1 "svc" "g" "i" bus_demo Hs) as (log & seen & _ & b' & Hd & Hc & _).
  exists b'. split; [exact Hd | exact Hc].
Defined.
