(* ===== verification/Handoff.v ===== *)
(** * Handoffs ([handoff.go])

    The two-phase handoff of every claim of a generation to a successor, over
    the coordinator of [Coordinator].  A handoff works on the coordinator's
    claims by name; its loops stop at the first backend error and compensate.  The
    second part of the file has the theorems on coordinators and handoffs. *)

From S2P Require Import Prelude GoStrings Types BackendSpec StateGraph Drain Coordinator.

Section Handoff.
Context {S : Type} `{!BackendOps S}.
Variables (genv : Z -> Env) (others : Z -> S -> S).

Abbreviation Coord := (Coord (S := S)).
Abbreviation call := (call genv others).
Abbreviation setState := (setState genv).

(** The state a method of [Handoff] works on. *)
Abbreviation HState := (Coord * Handoff)%type.

Definition fail (err : error) (st : HState) : HState :=
  let '(c, h) := st in
  (emit EventHandoffFailed "" 0 ReasonFailed (Some err) c,
   h |> set_status HandoffFailed |> set_h_err (Some err)).

(** ** Drain *)

(** Waiting for the claims in turn; [result n] is what [Wait] on the drain group
    of claim [n] returns in the end. *)
Fixpoint drain_loop (result : string -> option error) (names : list string) (c : Coord) :
    Coord * option (string * error) :=
  match names with
  | [] => (c, None)
  | n :: ns =>
      match cclaims c !! n with
      | None => drain_loop result ns c
      | Some cl =>
          let c := put_cl (set_drain (StartDrain (SetDeadline true (drain cl))) cl) c in
          match result n with
          | Some e => (emit EventDrainFailed n 0 ReasonNone (Some e) c, Some (n, e))
          | None => drain_loop result ns c
          end
      end
  end.

Definition Drain (result : string -> option error) (st : HState) : HState * option error :=
  let '(c, h) := st in
  if negb (bool_decide (status h = HandoffPending) || bool_decide (status h = HandoffDraining)) then
    (st, Some (mkError "Handoff.Drain" (Sentinel ErrInvalidState) (HandoffStatus_string (status h))))
  else
    let h := set_status HandoffDraining h in
    let '(c, _) := setState StateDraining ReasonDrainStarted c in
    let c := emit EventDrainStarted "" 0 ReasonDrainStarted None c in
    match drain_loop result (h_claims h) c with
    | (c, Some (_, e)) => (fail e (c, h), wrap "Handoff.Drain" (Some e))
    | (c, None) =>
        ((emit EventDrainCompleted "" 0 ReasonDrainComplete None c, set_drainDone true h), None)
    end.

(** ** Compensation *)

(** [abortTokens]: best-effort abort of the claims in [toks]. *)
Fixpoint abort_loop (successor : string) (toks : gmap string FencingToken)
    (names : list string) (st : HState) : HState :=
  match names with
  | [] => st
  | n :: ns =>
      let '(c, h) := st in
      match toks !! n, cclaims c !! n with
      | Some token, Some cl =>
          let '(c, id) := newOpID "abort-compensate" n c in
          let '(c, (rec, err)) := call (fun env => do_Abort env
            (mkAbort n (ID (gen c)) successor token id)) c in
          match rec, err with
          | Some rec, None =>
              abort_loop successor toks ns
                (restoreLease rec cl c, set_tokens (delete n (tokens h)) h)
          | _, _ =>
              abort_loop successor toks ns (emit EventTransferAborted n 0 ReasonNone err c, h)
          end
      | _, _ => abort_loop successor toks ns st
      end
  end.

Definition abortTokens (successor : string) (toks : gmap string FencingToken) (st : HState) : HState :=
  if decide (toks = ∅) then st else abort_loop successor toks (h_claims st.2) st.

Definition abortPrepared (st : HState) : HState :=
  abortTokens (successorID st.2) (tokens st.2) st.

Definition abortUncommitted (committed : gset string) (st : HState) : HState :=
  abortTokens (successorID st.2)
    (filter (λ nt : string * FencingToken, nt.1 ∉ committed) (tokens st.2)) st.

(** [startTimeoutWatcher]: the watcher goroutine exists from now on. *)
Definition startTimeoutWatcher (st : HState) : HState :=
  (st.1, set_watcherStarted true st.2).

(** ** Transfer *)

Fixpoint transfer_loop (successor : string) (ttl : Duration) (names : list string)
    (st : HState) : HState * option error :=
  match names with
  | [] => (st, None)
  | n :: ns =>
      let '(c, h) := st in
      match cclaims c !! n with
      | None => transfer_loop successor ttl ns st
      | Some cl =>
          match currentLeaseToken c cl with
          | None => transfer_loop successor ttl ns st
          | Some token =>
              let '(c, id) := newOpID "prepare" n c in
              let '(c, (rec, err)) := call (fun env => do_Prepare env
                (mkTransfer n (ID (gen c)) successor token ttl id)) c in
              match rec, err with
              | Some rec, None =>
                  let c := applyRecord rec cl c in
                  let h := set_tokens (<[n := FencingTokenOf rec]> (tokens h)) h in
                  let c := emit EventTransferPrepared n (FencingTokenOf rec) ReasonTransferPrepared None c in
                  transfer_loop successor ttl ns (c, h)
              | _, _ =>
                  let e := default (Sentinel ErrBackend) err in
                  let '(c, h) := abortPrepared (startTimeoutWatcher (fail e (c, h))) in
                  ((emit EventTransferAborted n 0 ReasonNone (Some e) c, h),
                   wrapClaim "Handoff.Transfer" n (Some e))
              end
          end
      end
  end.

Definition Transfer (result : string -> option error) (successor : string) (st : HState) :
    HState * option error :=
  let '(c, h) := st in
  if bool_decide (successor = "") then
    (st, Some (mkError "Handoff.Transfer" (Sentinel ErrPolicy) "successor required"))
  else if bool_decide (status h = HandoffCommitted) || bool_decide (status h = HandoffAborted) then
    (st, Some (mkError "Handoff.Transfer" (Sentinel ErrInvalidState) (HandoffStatus_string (status h))))
  else
    match (if drainDone h then (st, None) else Drain result st) with
    | (st, Some e) => (st, Some e)
    | ((c, h), None) =>
        let h := h |> set_status HandoffTransferring |> set_successorID successor |> set_tokens ∅ in
        let '(c, _) := setState StateTransferring ReasonTransferPrepared c in
        let ttl := reservationTTL (cfg_LeaseTTL (cfg c)) (cfg_TransferTimeout (cfg c)) in
        match transfer_loop successor ttl (h_claims h) (c, h) with
        | (st, Some e) => (st, Some e)
        | ((c, h), None) => (startTimeoutWatcher (c, set_transferDone true h), None)
        end
    end.

(** ** Commit *)

Fixpoint commit_loop (successor : string) (toks : gmap string FencingToken)
    (committed : gset string) (names : list string) (st : HState) : HState * option error :=
  match names with
  | [] => (st, None)
  | n :: ns =>
      let '(c, h) := st in
      match toks !! n, cclaims c !! n with
      | Some token, Some cl =>
          let '(c, id) := newOpID "commit" n c in
          let '(c, (rec, err)) := call (fun env => do_Commit env
            (mkCommit n (ID (gen c)) successor token (cfg_LeaseTTL (cfg c)) id)) c in
          match rec, err with
          | Some rec, None =>
              let c := applyRecord rec cl c in
              let c := revokeLease ReasonTransferCommitted
                         (default cl (cclaims c !! n)) c in
              let h := set_tokens (delete n (tokens h)) h in
              let c := emit EventTransferCommitted n (FencingTokenOf rec) ReasonTransferCommitted None c in
              commit_loop successor toks ({[n]} ∪ committed) ns (c, h)
          | _, _ =>
              let e := default (Sentinel ErrBackend) err in
              (abortUncommitted committed (startTimeoutWatcher (fail e (c, h))),
               wrapClaim "Handoff.Commit" n (Some e))
          end
      | _, _ => commit_loop successor toks committed ns st
      end
  end.

Definition Commit (st : HState) : HState * option error :=
  let '(c, h) := st in
  if negb (transferDone h) then
    (st, Some (mkError "Handoff.Commit" (Sentinel ErrNoTransfer) "call Transfer first"))
  else if bool_decide (status h = HandoffCommitted) then (st, None)
  else if bool_decide (status h = HandoffAborted) then (st, Some (Sentinel ErrHandoffAborted))
  else
    match commit_loop (successorID h) (tokens h) ∅ (h_claims h) st with
    | (st, Some e) => (st, Some e)
    | ((c, h), None) =>
        let h := set_status HandoffCommitted h in
        let '(c, _) := setState StateRetired ReasonRetired c in
        ((emit EventHandoffCompleted "" 0 ReasonTransferCommitted None c, h), None)
    end.

(** ** Abort *)

Fixpoint abort_all (successor : string) (toks : gmap string FencingToken)
    (names : list string) (c : Coord) : Coord * option error :=
  match names with
  | [] => (c, None)
  | n :: ns =>
      match toks !! n, cclaims c !! n with
      | Some token, Some cl =>
          let '(c, id) := newOpID "abort" n c in
          let '(c, (rec, err)) := call (fun env => do_Abort env
            (mkAbort n (ID (gen c)) successor token id)) c in
          match rec, err with
          | Some rec, None =>
              let c := restoreLease rec cl c in
              abort_all successor toks ns
                (emit EventTransferAborted n (FencingTokenOf rec) ReasonTransferAborted None c)
          | _, _ =>
              let e := default (Sentinel ErrBackend) err in
              (emit EventTransferAborted n 0 ReasonNone (Some e) c,
               wrapClaim "Handoff.Abort" n (Some e))
          end
      | _, _ => abort_all successor toks ns c
      end
  end.

Definition Abort (st : HState) : HState * option error :=
  let '(c, h) := st in
  if bool_decide (status h = HandoffCommitted) then
    (st, Some (mkError "Handoff.Abort" (Sentinel ErrInvalidState) "already committed"))
  else
    let h := set_status HandoffAborted h in
    match abort_all (successorID h) (tokens h) (h_claims h) c with
    | (c, Some e) => ((c, h), Some e)
    | (c, None) =>
        let '(c, _) := setState StateActive ReasonRollback c in
        ((emit EventHandoffFailed "" 0 ReasonTransferAborted None c, h), None)
    end.

(** The watcher goroutine, when [TransferTimeout] is over. *)
Definition timeout_fires (st : HState) : HState :=
  let h := st.2 in
  if bool_decide (status h = HandoffTransferring) ||
     (bool_decide (status h = HandoffFailed) && negb (bool_decide (tokens h = ∅)))
  then (Abort st).1 else st.
End Handoff.

(** ** Correctness of coordinators and handoffs

    Proved against the backend contract of [BackendSpec], with other processes
    acting on the backend between any two calls of this coordinator. *)

From S2P Require Import ClaimStore MemoryBackend.

(** ** Operation identifiers *)

Definition colon : Ascii.ascii := Ascii.ascii_of_nat 58.

Fixpoint no_colon (s : string) : bool :=
  match s with
  | EmptyString => true
  | String c s => negb (bool_decide (c = colon)) && no_colon s
  end.

Lemma no_colon_app s t : no_colon (s +:+ String colon t) = false.
Proof.
  induction s as [|c s IH]; simpl; [done |].
  rewrite IH. apply andb_false_r.
Qed.

(** What follows the last colon is determined by the text. *)
Lemma last_part s1 s2 t1 t2 :
  no_colon t1 = true -> no_colon t2 = true ->
  s1 +:+ String colon t1 = s2 +:+ String colon t2 -> t1 = t2.
Proof.
  intros H1 H2. revert s2. induction s1 as [|c s1 IH]; intros [|d s2] E; simplify_eq/=; [done | | |].
  - by rewrite no_colon_app in H1.
  - by rewrite no_colon_app in H2.
  - by eapply IH.
Qed.

Lemma digit_not_colon d :
  0 <= d < 10 -> Ascii.ascii_of_N (Z.to_N (48 + d)) ≠ colon.
Proof.
  intros Hd E. apply (f_equal Ascii.N_of_ascii) in E.
  rewrite Ascii.N_ascii_embedding in E by lia. change (Ascii.N_of_ascii colon) with 58%N in E. lia.
Qed.

Lemma itoa_no_colon room n acc s :
  no_colon acc = true -> itoa_loop room n acc = Some s -> no_colon s = true.
Proof.
  revert n acc. induction room as [|room IH]; intros n acc Ha; simpl;
    (case_bool_decide; [by intros [= <-] |]); [done |].
  apply IH. simpl. rewrite Ha, andb_true_r.
  rewrite bool_decide_eq_false_2; [done |]. apply digit_not_colon. by apply Z.mod_pos_bound.
Qed.

Lemma itoa64_spec n :
  is_u64 n -> exists s, itoa64 n = Some s /\ no_colon s = true /\ decimal 0 s = n.
Proof.
  intros Hn. unfold itoa64. case_bool_decide as H0; [subst; by exists "0" |].
  destruct (itoa_loop_u64 n Hn) as (s & Es & Ds & _). exists s. split; [done |].
  split; [by eapply itoa_no_colon in Es | done].
Qed.

Lemma string_app_assoc a b c : (a +:+ b) +:+ c = a +:+ (b +:+ c).
Proof.
  induction a as [|x a IH]; [done |].
  change (String x ((a +:+ b) +:+ c) = String x (a +:+ (b +:+ c))). by rewrite IH.
Qed.

Lemma opID_number g op cl n : opID g op cl n =
  (g +:+ ":" +:+ op +:+ ":" +:+ cl) +:+ String colon (default "" (itoa64 n)).
Proof. unfold opID. by rewrite !string_app_assoc. Qed.

Lemma opID_inj g g' op op' cl cl' n m :
  is_u64 n -> is_u64 m -> opID g op cl n = opID g' op' cl' m -> n = m.
Proof.
  intros Hn Hm E. destruct (itoa64_spec n Hn) as (s & Es & Hs & Ds).
  destruct (itoa64_spec m Hm) as (t & Et & Ht & Dt). rewrite !opID_number, Es, Et in E.
  apply last_part in E; [|done|done]. simpl in *. congruence.
Qed.

(** ** Coordinators on a shared backend *)

Section Safety.
Context {S : Type} `{!BackendOps S} `{!BackendLaws S}.
Variables (genv : Z -> Env) (others : Z -> S -> S).

Abbreviation Coord := (Coord (S := S)).

(** An identifier this generation may use. *)
Definition own_id (g id : string) : Prop := exists op cl m, id = opID g op cl m.

(** Other processes act through valid requests and do not use the identifiers of
    this generation (generation identifiers are unique). *)
Definition well_behaved (g : string) : Prop :=
  forall n s, steps backend_step s (others n s) /\
    forall id, own_id g id -> op_seen (others n s) id = op_seen s id.

(** The backend is consistent and has no result for an identifier not used yet. *)
Record coord_inv (c : Coord) : Prop := mkCoordInv {
  ci_be : be_inv (backend c);
  ci_seq : 0 <= opSeq c;
  ci_fresh m op cl : opSeq c < m -> is_u64 m -> fresh (backend c) (opID (ID (gen c)) op cl m) }.

(** What happened to the backend's claims since: tokens and holders only moved
    forward. *)
Record progress (k : Z) (c c' : Coord) : Prop := mkProgress {
  pr_inv : coord_inv c';
  pr_cell n : epoch_le (cell_at (backend c) n) (cell_at (backend c') n);
  pr_gen : ID (gen c') = ID (gen c);
  pr_seq : opSeq c <= opSeq c' <= opSeq c + k }.

Lemma progress_refl k c : coord_inv c -> 0 <= k -> progress k c c.
Proof. intros Hi Hk. split; [done | done | done | lia]. Qed.

Lemma progress_trans j k c1 c2 c3 :
  progress j c1 c2 -> progress k c2 c3 -> progress (j + k) c1 c3.
Proof.
  intros [_ C1 G1 S1] [I2 C2 G2 S2]. split; [done | | congruence | lia].
  intros n. etransitivity; [apply C1 | apply C2].
Qed.

(** Changes of the coordinator that leave its backend, identity and counter. *)
Definition same_backend (c c' : Coord) : Prop :=
  backend c' = backend c /\ ID (gen c') = ID (gen c) /\ opSeq c' = opSeq c.

Lemma progress_local k c c1 c2 : same_backend c1 c2 -> progress k c c1 -> progress k c c2.
Proof.
  intros (E1 & E2 & E3) [[Hb Hs Hf] Hc Hg Hq]. split; [| intros n; by rewrite E1 | congruence | lia].
  split; [by rewrite E1 | by rewrite E3 |]. intros m op cl. rewrite E1, E2, E3. apply Hf.
Qed.

Lemma same_trans a b c : same_backend a b -> same_backend b c -> same_backend a c.
Proof. intros (A1 & A2 & A3) (B1 & B2 & B3). split; [|split]; congruence. Qed.

Lemma same_emit t n k r e c : same_backend c (emit t n k r e c).
Proof. done. Qed.

Lemma same_put_cl cl c : same_backend c (put_cl cl c).
Proof. done. Qed.

Lemma same_startRenewal cl c : same_backend c (startRenewal cl c).
Proof. unfold startRenewal. by case_match. Qed.

Lemma same_revokeLease r cl c : same_backend c (revokeLease r cl c).
Proof. unfold revokeLease. by case_match. Qed.

Lemma same_applyRecord rec cl c : same_backend c (applyRecord rec cl c).
Proof. unfold applyRecord. by repeat case_match. Qed.

Lemma same_restoreLease rec cl c : same_backend c (restoreLease rec cl c).
Proof.
  unfold restoreLease, ensureLocalLease. repeat (case_match; try done);
    unfold startRenewal; by case_match.
Qed.

(** [setState] writes the generation to the backend, not the claims. *)
Lemma setState_progress k to r c0 c :
  progress k c0 c -> progress k c0 (Coordinator.setState genv to r c).1.
Proof.
  intros Hp. unfold Coordinator.setState. case_decide; [by eapply progress_local, Hp |].
  case_match; [by eapply progress_local, Hp |]. simpl.
  set (g := set_gen_state _ _ _ _).
  destruct Hp as [[Hb Hs Hf] Hc Hg Hq].
  destruct (be_generation (genv (opSeq c)) g (backend c) _ (or_intror eq_refl) Hb) as (Hb' & Hcl & Hop).
  destruct (do_Update (genv (opSeq c)) g (backend c)) as [s e]. simpl in *.
  split; [split | | |]; simpl; try done.
  - intros m op cl Hm Hu. unfold fresh. rewrite Hop. by apply Hf.
  - intros n. unfold cell_at. rewrite Hcl. apply Hc.
Qed.

(** A request sent with the next identifier. *)
Lemma call_progress c0 k c op cl (rq : Request) r c1 s' :
  progress k c0 c -> well_behaved (ID (gen c0)) -> is_u64 (opSeq c0 + k + 1) ->
  c1 = (newOpID op cl c).1 -> rq_op rq = (newOpID op cl c).2 -> rq_valid rq ->
  do_request (genv (opSeq c1)) rq (others (opSeq c1) (backend c1)) = (s', r) ->
  progress (k + 1) c0 (set_backend s' c1) /\
  be_inv (others (opSeq c1) (backend c1)) /\ fresh (others (opSeq c1) (backend c1)) (rq_op rq) /\
  (forall n, epoch_le (cell_at (backend c) n) (cell_at s' n)).
Proof.
  intros Hp Hw Hk -> Hop Hv E. destruct Hp as [[Hb Hs Hf] Hc Hg Hq]. simpl in *.
  assert (u64 (opSeq c + 1) = opSeq c + 1) as Hu by (apply u64_small; unfold is_u64 in *; lia).
  rewrite Hu in *. set (so := others (opSeq c + 1) (backend c)) in *.
  destruct (Hw (opSeq c + 1) (backend c)) as [Hso Hseen]. fold so in Hso, Hseen.
  pose proof (backend_steps_inv _ _ Hb Hso) as Hbo.
  pose proof (fun n => backend_steps_epoch _ _ n Hb Hso) as Heo.
  destruct (be_refines _ _ _ _ _ Hbo Hv E) as (Hb' & _ & _).
  assert (forall n, epoch_le (cell_at so n) (cell_at s' n)) as He'.
  { intros n. eapply backend_steps_epoch; [done |]. apply steps_one. by exists (genv (opSeq c + 1)), rq, r. }
  assert (forall m op' cl', opSeq c < m -> is_u64 m -> fresh so (opID (ID (gen c)) op' cl' m)) as Hfo.
  { intros m op' cl' Hm Hum. unfold fresh. rewrite Hseen; [by apply Hf |].
    rewrite <- Hg. by eexists _, _, _. }
  split; [|split; [done |]; split; [|intros n; etransitivity; [apply Heo | apply He']]].
  - split; simpl; [split | | |]; simpl; try done; try lia.
    + intros m op' cl' Hm Hum. unfold fresh. rewrite (be_seen _ _ _ _ _ _ E); [apply Hfo; [lia | done] |].
      rewrite Hop. intros Eid. apply opID_inj in Eid; [lia | done | unfold is_u64 in *; lia].
    + intros n. etransitivity; [apply Hc |]. etransitivity; [apply Heo | apply He'].
  - rewrite Hop. apply Hfo; [lia | unfold is_u64 in *; lia].
Qed.

(** ** Commit *)

(** Claims are filed under their names. *)
Definition named_claims (c : Coord) : Prop :=
  map_Forall (λ n cl, cl_name cl = n) (cclaims c).

(** The claim has no local lease. *)
Definition unleased (c : Coord) (n : string) : Prop :=
  exists cl, cclaims c !! n = Some cl /\ lease cl = None.

(** The local part of committing one claim: no lease is left. *)
Lemma commit_local rec r cl (c : Coord) n :
  cl_name cl = n ->
  exists cl', cclaims (revokeLease r (default cl (cclaims (applyRecord rec cl c) !! n))
                (applyRecord rec cl c)) = <[n := cl']> (cclaims c) /\
    lease cl' = None /\ cl_name cl' = n.
Proof.
  intros Hn. assert (exists cl1, cclaims (applyRecord rec cl c) = <[n := cl1]> (cclaims c) /\
    cl_name cl1 = n) as (cl1 & E1 & Hn1).
  { unfold applyRecord. subst. repeat case_match; eexists; (split; [reflexivity | done]). }
  generalize dependent (applyRecord rec cl c). intros ca E1.
  rewrite E1, lookup_insert_eq. cbn [default id]. unfold revokeLease. cbv zeta.
  change (lease (set_renewing false cl1)) with (lease cl1).
  destruct (lease cl1) eqn:El; simpl; rewrite E1, Hn1, insert_insert_eq;
    eexists; (split; [reflexivity |]); done.
Qed.

Lemma named_insert n cl (c : Coord) m :
  named_claims c -> m = <[n := cl]> (cclaims c) -> cl_name cl = n ->
  map_Forall (λ n cl, cl_name cl = n) m.
Proof. intros Hn -> Hc. by apply map_Forall_insert_2. Qed.

Section CommitLoop.
Variables (c0 : Coord) (succ : string) (toks : gmap string FencingToken).
Hypotheses (Hw : well_behaved (ID (gen c0))) (Hg : ID (gen c0) ≠ "") (Hsu : succ ≠ "")
  (Htoks : map_Forall (λ _ t, is_u64 t) toks).

(** One successful commit: the backend's token for the claim is past the old one. *)
Lemma commit_call_ok k c n token c1 id c2 rec :
  progress k c0 c -> is_u64 (opSeq c0 + k + 1) -> is_u64 token ->
  newOpID "commit" n c = (c1, id) ->
  call genv others (fun env => do_Commit env
    (mkCommit n (ID (gen c1)) succ token (cfg_LeaseTTL (cfg c1)) id)) c1 = (c2, (Some rec, None)) ->
  progress (k + 1) c0 c2 /\ token < c_token (cell_at (backend c2) n) /\ cclaims c2 = cclaims c /\
  (forall m, epoch_le (cell_at (backend c) m) (cell_at (backend c2) m)).
Proof.
  intros Hp Hk Hu E1 E2. injection E1 as <- <-. unfold call in E2.
  destruct (do_Commit _ _ _) as [s' r] eqn:Ec. simplify_eq/=.
  assert (ID (gen c) = ID (gen c0)) as Hgc by apply Hp.
  destruct (call_progress c0 k c "commit" n
    (RqCommit (mkCommit n (ID (gen c)) succ token (cfg_LeaseTTL (cfg c))
      (opID (ID (gen c)) "commit" n (u64 (opSeq c + 1))))) (Some rec, None) _ s' Hp Hw Hk eq_refl
    eq_refl) as (Hp' & Hb & Hfr & Hee); [split; simpl; congruence | exact Ec |].
  split; [exact Hp' |]. split; [|done].
  clear Hee. destruct (be_commit_ok _ _ _ _ _ Hb Hfr Ec) as (Hcl & Ho & Hph & Ht). simpl in Hcl, Ht.
  unfold cell_at. simpl. rewrite Hcl. simpl. rewrite Ht.
  pose proof (be_inv_wf _ n (ci_be _ (pr_inv _ _ _ Hp'))) as Hwf. unfold cell_at in Hwf.
  simpl in Hwf. rewrite Hcl in Hwf. destruct (wf_owned _ Hwf) as [_ Hpos].
  { unfold held. simpl. by rewrite Hph. }
  simpl in Hpos. rewrite Ht in Hpos. unfold u64, is_u64, u64_modulus in *.
  destruct (decide (token = 2 ^ 64 - 1)) as [->|Hne]; [by vm_compute in Hpos |].
  rewrite Z.mod_small; lia.
Qed.

(** What a finished loop established for the names it went over. *)
Definition committed (c : Coord) (n : string) : Prop :=
  forall token, toks !! n = Some token ->
    token < c_token (cell_at (backend c) n) /\ unleased c n.

Lemma progress_weaken j k c c' : j <= k -> progress j c c' -> progress k c c'.
Proof. intros Hle [Hi Hc Hge Hq]. split; [done | done | done | lia]. Qed.

(** A claim whose token is past stays past. *)
Lemma committed_later c c' n :
  (forall m, epoch_le (cell_at (backend c) m) (cell_at (backend c') m)) ->
  (forall m, unleased c m -> unleased c' m) -> committed c n -> committed c' n.
Proof.
  intros He Hl Hc token Ht. destruct (Hc token Ht) as [Hlt Hun]. split; [|by apply Hl].
  pose proof (ep_token _ _ (He n)). lia.
Qed.

(** One iteration: the claim is committed, other claims keep their leases. *)
Lemma commit_one_ok k c n token cl c1 id c2 rec :
  progress k c0 c -> named_claims c -> is_u64 (opSeq c0 + k + 1) ->
  toks !! n = Some token -> cclaims c !! n = Some cl -> newOpID "commit" n c = (c1, id) ->
  call genv others (fun env => do_Commit env
    (mkCommit n (ID (gen c1)) succ token (cfg_LeaseTTL (cfg c1)) id)) c1 = (c2, (Some rec, None)) ->
  let c3 := applyRecord rec cl c2 in
  let c4 := emit EventTransferCommitted n (FencingTokenOf rec) ReasonTransferCommitted None
    (revokeLease ReasonTransferCommitted (default cl (cclaims c3 !! n)) c3) in
  progress (k + 1) c0 c4 /\ named_claims c4 /\ committed c4 n /\
  (forall m, unleased c m -> unleased c4 m) /\
  (forall m, epoch_le (cell_at (backend c) m) (cell_at (backend c4) m)) /\
  (forall m, is_Some (cclaims c !! m) -> is_Some (cclaims c4 !! m)).
Proof.
  intros Hp Hnc Hk Ht Hcl E1 E2 c3 c4.
  destruct (commit_call_ok k c n token c1 id c2 rec Hp Hk (Htoks _ _ Ht) E1 E2) as (Hp2 & Hlt & Hc2 & He2).
  destruct (commit_local rec ReasonTransferCommitted cl c2 n (Hnc _ _ Hcl)) as (cl' & Ecl & Hle & Hna).
  fold c3 in Ecl. assert (cclaims c4 = <[n := cl']> (cclaims c)) as E4 by (rewrite <- Hc2; exact Ecl).
  assert (same_backend c2 c4) as Hsame.
  { eapply same_trans; [apply (same_applyRecord rec cl c2) |].
    eapply same_trans; [apply same_revokeLease | apply same_emit]. }
  split; [by eapply progress_local |]. split; [by eapply named_insert|].
  split; [|split; [|split; [destruct Hsame as (-> & _); exact He2 |]]].
  - intros t Ht'. simplify_eq. destruct Hsame as (Hb & _). rewrite Hb. split; [done |].
    exists cl'. rewrite E4, lookup_insert_eq. done.
  - intros m (d & Hd & Hdl). destruct (decide (m = n)) as [->|Hne].
    + exists cl'. rewrite E4, lookup_insert_eq. done.
    + exists d. rewrite E4, lookup_insert_ne by done. done.
  - intros m Hm. rewrite E4. destruct (decide (m = n)) as [->|Hne];
      [rewrite lookup_insert_eq; by eexists | by rewrite lookup_insert_ne].
Qed.

Lemma wrapClaim_Some op n e : wrapClaim op n (Some e) ≠ None.
Proof. by destruct e. Qed.

Lemma commit_loop_ok names : forall done_ k c h c' h',
  progress k c0 c -> named_claims c -> is_u64 (opSeq c0 + k + Z.of_nat (length names)) ->
  (forall n, n ∈ names -> is_Some (toks !! n) -> is_Some (cclaims c !! n)) ->
  commit_loop genv others succ toks done_ names (c, h) = ((c', h'), None) ->
  progress (k + Z.of_nat (length names)) c0 c' /\
  (forall m, epoch_le (cell_at (backend c) m) (cell_at (backend c') m)) /\
  (forall n, unleased c n -> unleased c' n) /\ Forall (committed c') names.
Proof.
  induction names as [|n names IH]; intros done_ k c h c' h' Hp Hnc Hlen Hin E; cbn [commit_loop] in E.
  - simplify_eq/=. rewrite Z.add_0_r. split; [done |].
    split; [done |]. split; [done | constructor].
  - rewrite length_cons, Nat2Z.inj_succ in *.
    pose proof (ci_seq _ (pr_inv _ _ _ Hp)) as H0. pose proof (pr_seq _ _ _ Hp) as Hq.
    destruct (toks !! n) as [token|] eqn:Et; [destruct (cclaims c !! n) as [cl|] eqn:Ecl |].
    + destruct (newOpID "commit" n c) as [c1 id] eqn:Eid.
      destruct (call _ _ _ c1) as [c2 [[rec|] err]] eqn:Ecall;
        [destruct err; [by injection E as _ E; apply wrapClaim_Some in E |] |
         by injection E as _ E; apply wrapClaim_Some in E].
      destruct (commit_one_ok k c n token cl c1 id c2 rec) as (Hp4 & Hn4 & Hc4 & Hu4 & He4 & Hs4);
        try done; [unfold is_u64 in *; lia |].
      set (c4 := emit _ _ _ _ _ _) in *.
      destruct (IH ({[n]} ∪ done_) (k + 1) c4 (set_tokens (delete n (tokens h)) h) c' h' Hp4 Hn4)
        as (H1 & Hj & H2 & H3); [| |exact E |].
      * unfold is_u64 in *. lia.
      * intros m Hm Hm'. apply Hs4, Hin; [by right | done].
      * split; [eapply progress_weaken, H1; lia |]. split; [|split; [by auto |]].
        -- intros m. etransitivity; [apply He4 | apply Hj].
        -- constructor; [by eapply committed_later | done].
    + exfalso. destruct (Hin n) as [? ?]; [by left | by rewrite Et | congruence].
    + destruct (IH done_ k c h c' h' Hp Hnc) as (H1 & Hj & H2 & H3); [| |exact E |].
      * unfold is_u64 in *. lia.
      * intros m Hm. apply Hin. by right.
      * split; [eapply progress_weaken, H1; lia |]. split; [done |]. split; [done |].
        constructor; [|done]. intros t Ht. congruence.
Qed.
End CommitLoop.

Lemma setState_cclaims to r c : cclaims (Coordinator.setState genv to r c).1 = cclaims c.
Proof.
  unfold Coordinator.setState. case_decide; [done |]. case_match; [done |].
  by destruct (do_Update _ _ _).
Qed.

Lemma setState_claim_at to r c :
  be_inv (backend c) ->
  forall n, claim_at (backend (Coordinator.setState genv to r c).1) n = claim_at (backend c) n.
Proof.
  intros Hb n. unfold Coordinator.setState. case_decide; [done |]. case_match; [done |]. simpl.
  set (g := set_gen_state _ _ _ _).
  destruct (be_generation (genv (opSeq c)) g (backend c) _ (or_intror eq_refl) Hb) as (_ & Hcl & _).
  destruct (do_Update (genv (opSeq c)) g (backend c)). apply Hcl.
Qed.

(** [Commit] fences out every claim whose token the handoff has recorded. *)
Lemma commit_fences_recorded c h c' h' :
  coord_inv c -> named_claims c -> well_behaved (ID (gen c)) ->
  ID (gen c) ≠ "" -> successorID h ≠ "" ->
  is_u64 (opSeq c + Z.of_nat (length (h_claims h))) ->
  status h ≠ HandoffCommitted ->
  (forall n token, tokens h !! n = Some token ->
     is_u64 token /\ n ∈ h_claims h /\ is_Some (cclaims c !! n)) ->
  Commit genv others (c, h) = ((c', h'), None) ->
  status h' = HandoffCommitted /\
  forall n token, tokens h !! n = Some token ->
    token < c_token (cell_at (backend c') n) /\ unleased c' n.
Proof.
  intros Hi Hnc Hw Hg Hsu Hlen Hst Htok E. unfold Commit in E.
  destruct (transferDone h); [|done]. rewrite (bool_decide_eq_false_2 _ Hst) in E. simpl in E.
  case_bool_decide; [done |].
  destruct (commit_loop _ _ _ _ _ _ _) as [[c1 h1] [e|]] eqn:El; [done |].
  destruct (commit_loop_ok c (successorID h) (tokens h) Hw Hg Hsu
    (fun n t Ht => proj1 (Htok n t Ht)) (h_claims h) ∅ 0 c h c1 h1) as (Hp & _ & _ & Hc);
    [by apply progress_refl | done | by rewrite Z.add_0_r | | exact El |].
  { intros n _ [t Ht]. apply (Htok n t Ht). }
  destruct (Coordinator.setState genv StateRetired ReasonRetired c1) as [c2 e2] eqn:Es. simplify_eq/=.
  split; [done |]. intros n token Ht. rewrite Forall_forall in Hc.
  destruct (Htok n token Ht) as (_ & Hn & _). destruct (Hc n Hn token Ht) as [Hlt (cl & Hcl & Hl)].
  pose proof (setState_progress 0 StateRetired ReasonRetired c1 c1
    (progress_refl 0 c1 (pr_inv _ _ _ Hp) ltac:(lia))) as Hp2.
  pose proof (setState_cclaims StateRetired ReasonRetired c1) as Hcc. rewrite Es in Hp2, Hcc.
  split.
  - pose proof (ep_token _ _ (pr_cell _ _ _ Hp2 n)) as Hle. simpl in *. lia.
  - exists cl. simpl in *. by rewrite Hcc.
Qed.

(** ** Transfer *)

(** Claims keep their names and the tokens they would transfer with. *)
Definition keeps_tokens (c c' : Coord) : Prop :=
  forall n cl, cclaims c !! n = Some cl -> exists cl', cclaims c' !! n = Some cl' /\
    forall token, currentLeaseToken c cl = Some token -> currentLeaseToken c' cl' = Some token.

#[local] Instance keeps_tokens_preorder : PreOrder keeps_tokens.
Proof.
  split; [intros c n cl; by eauto |]. intros c1 c2 c3 H1 H2 n cl Hn.
  destruct (H1 _ _ Hn) as (cl2 & Hn2 & E2), (H2 _ _ Hn2) as (cl3 & ? & E3). eauto.
Qed.

Lemma token_same (c c' : Coord) cl :
  sup_down c' = sup_down c -> ID (gen c') = ID (gen c) -> currentLeaseToken c' cl = currentLeaseToken c cl.
Proof. intros E1 E2. unfold currentLeaseToken. by rewrite E1, E2. Qed.

(** Nothing a claim's token depends on has changed. *)
Lemma keeps_same c c' :
  cclaims c' = cclaims c -> sup_down c' = sup_down c -> ID (gen c') = ID (gen c) -> keeps_tokens c c'.
Proof.
  intros E1 E2 E3 n cl Hn. exists cl. rewrite E1. split; [done |]. intros token. by rewrite (token_same c c').
Qed.

Lemma keeps_put c cl cl' :
  named_claims c -> cclaims c !! cl_name cl' = Some cl ->
  (forall token, currentLeaseToken c cl = Some token -> currentLeaseToken c cl' = Some token) ->
  keeps_tokens c (put_cl cl' c).
Proof.
  intros Hnc Hcl Ht n d Hd. simpl. destruct (decide (n = cl_name cl')) as [->|Hn].
  - exists cl'. rewrite lookup_insert_eq. split; [done |]. by simplify_eq.
  - exists d. by rewrite lookup_insert_ne.
Qed.

Lemma setState_keeps to r c : keeps_tokens c (Coordinator.setState genv to r c).1.
Proof.
  apply keeps_same; [apply setState_cclaims | |]; unfold Coordinator.setState;
    (case_decide; [done |]); (case_match; [done |]); by destruct (do_Update _ _ _).
Qed.

Lemma setState_named to r c : named_claims c -> named_claims (Coordinator.setState genv to r c).1.
Proof. unfold named_claims. by rewrite setState_cclaims. Qed.

Lemma drain_loop_ok result names : forall c c',
  named_claims c -> drain_loop result names c = (c', None) ->
  same_backend c c' /\ named_claims c' /\ keeps_tokens c c'.
Proof.
  induction names as [|n names IH]; intros c c' Hnc E; cbn [drain_loop] in E; [by simplify_eq |].
  destruct (cclaims c !! n) as [cl|] eqn:Ecl; [|by apply IH]. destruct (result n); [done |].
  pose proof (Hnc _ _ Ecl) as Hn. simpl in Hn.
  apply IH in E as (H1 & H2 & H3); [|by apply map_Forall_insert_2].
  split; [done |]. split; [done |]. etransitivity; [|exact H3].
  eapply keeps_put; [done | by rewrite <- Hn in Ecl | done].
Qed.

Lemma Drain_ok result c h c' h' :
  coord_inv c -> named_claims c -> Drain genv result (c, h) = ((c', h'), None) ->
  progress 0 c c' /\ named_claims c' /\ keeps_tokens c c' /\ h_claims h' = h_claims h.
Proof.
  intros Hi Hnc E. unfold Drain in E. case_match; [done |].
  pose proof (setState_progress 0 StateDraining ReasonDrainStarted c c (progress_refl 0 c Hi ltac:(lia))) as Hp.
  pose proof (setState_named StateDraining ReasonDrainStarted c Hnc) as Hn1.
  pose proof (setState_keeps StateDraining ReasonDrainStarted c) as Hk1.
  destruct (Coordinator.setState _ _ _ c) as [c1 e1]. cbn [fst] in *.
  destruct (drain_loop _ _ _) as [c2 [[n e]|]] eqn:Ed.
  { by destruct e. }
  apply drain_loop_ok in Ed as (H1 & H2 & H3); [|done]. simplify_eq/=.
  split; [eapply progress_local, Hp; exact H1 |]. split; [done |]. split; [|done].
  etransitivity; [exact Hk1 | exact H3].
Qed.

(** A prepared record transfers with the token it was prepared with. *)
Lemma prepared_token rec cl (c : Coord) token :
  cell_of_record rec = mkCell (ID (gen c)) token ClaimReserved (PendingSuccessor rec) -> 0 < token ->
  exists cl', cclaims (applyRecord rec cl c) = <[cl_name cl := cl']> (cclaims c) /\ cl_name cl' = cl_name cl /\
    currentLeaseToken (applyRecord rec cl c) cl' = Some token.
Proof.
  intros Hc Hpos. injection Hc as Ho Ht Hp.
  assert (Controls (ToOwnership rec) (ID (gen c)) = true) as Hctl.
  { unfold Controls, Zero. simpl. rewrite Ho, Hp, Ht. rewrite bool_decide_eq_true_2 by done.
    by rewrite (bool_decide_eq_false_2 (token = 0)) by lia. }
  unfold applyRecord. cbn [lease set_record]. destruct (lease cl) as [l|] eqn:El; rewrite ?Hctl; cbn [negb].
  - eexists. split; [reflexivity |]. split; [done |]. unfold currentLeaseToken. simpl. rewrite Hctl, Ht. by case_match.
  - eexists. split; [reflexivity |]. split; [done |]. unfold currentLeaseToken. simpl. by rewrite El, Hctl, Ht.
Qed.

Section TransferLoop.
Variables (c0 : Coord) (succ : string) (ttl : Duration).
Hypotheses (Hw : well_behaved (ID (gen c0))) (Hg : ID (gen c0) ≠ "") (Hsu : succ ≠ "").

(** One successful prepare. *)
Lemma prepare_one_ok k c n token cl c1 id c2 rec :
  progress k c0 c -> named_claims c -> is_u64 (opSeq c0 + k + 1) ->
  cclaims c !! n = Some cl -> currentLeaseToken c cl = Some token -> newOpID "prepare" n c = (c1, id) ->
  call genv others (fun env => do_Prepare env
    (mkTransfer n (ID (gen c1)) succ token ttl id)) c1 = (c2, (Some rec, None)) ->
  let c3 := emit EventTransferPrepared n (FencingTokenOf rec) ReasonTransferPrepared None (applyRecord rec cl c2) in
  progress (k + 1) c0 c3 /\ named_claims c3 /\ keeps_tokens c c3 /\
  FencingTokenOf rec = token /\ is_u64 token.
Proof.
  intros Hp Hnc Hk Hcl Htok E1 E2 c3. injection E1 as <- <-. unfold call in E2.
  destruct (do_Prepare _ _ _) as [s' r] eqn:Ec. simplify_eq/=.
  assert (ID (gen c) = ID (gen c0)) as Hgc by apply Hp. pose proof (Hnc _ _ Hcl) as Hn. simpl in Hn. subst n.
  set (rq := mkTransfer _ _ _ _ _ _) in Ec.
  assert (rq_valid (RqPrepare rq)) as Hv by (split; simpl; congruence).
  destruct (call_progress c0 k c "prepare" (cl_name cl) (RqPrepare rq) (Some rec, None) _ s' Hp Hw Hk eq_refl
    eq_refl Hv Ec) as (Hp' & Hb & Hfr & _).
  destruct (be_prepare_ok _ _ _ _ _ Hb Hv Hfr Ec) as (Hat & Hcell).
  pose proof (be_inv_wf _ (cl_name cl) (ci_be _ (pr_inv _ _ _ Hp'))) as Hwf. unfold cell_at in Hwf.
  simpl in Hat, Hwf. rewrite Hat in Hwf. simpl in Hwf. rewrite Hcell in Hwf.
  destruct (wf_owned _ Hwf) as [_ Hpos]; [done |]. pose proof (wf_range _ Hwf) as Hr. simpl in Hpos, Hr.
  set (c2 := set_backend s' _) in *.
  assert (cell_of_record rec = mkCell (ID (gen c2)) token ClaimReserved (PendingSuccessor rec)) as Hc
    by (injection Hcell as ? ? ? ?; unfold cell_of_record; simpl; congruence).
  destruct (prepared_token rec cl c2 token Hc Hpos) as (cl' & Ecl & Hna & Hcur).
  split; [eapply progress_local; [apply (same_applyRecord rec cl c2) | exact Hp'] |].
  split; [by eapply (named_insert _ cl' c) |]. split; [|split; [by injection Hc |]].
  - intros m d Hd. change (cclaims c3) with (cclaims (applyRecord rec cl c2)). rewrite Ecl.
    destruct (decide (m = cl_name cl)) as [->|Hm].
    + exists cl'. rewrite lookup_insert_eq. split; [done |]. intros t Ht. simplify_eq. exact Hcur.
    + exists d. rewrite lookup_insert_ne by done. split; [done |]. intros t Ht. rewrite <- Ht.
      apply token_same; unfold c3, applyRecord; by repeat case_match.
  - rewrite MaxSafe_value in Hr. unfold is_u64, u64_modulus in *. lia.
Qed.

(** What the loop has done for the names it went over. *)
Definition transferred (k : Z) (names : list string) (c : Coord) (h : Handoff) (c' : Coord) (h' : Handoff) : Prop :=
  progress (k + Z.of_nat (length names)) c0 c' /\ named_claims c' /\ keeps_tokens c c' /\
  h_claims h' = h_claims h /\ status h' = status h /\ successorID h' = successorID h /\
  map_Forall (λ n t, is_u64 t /\ (n ∈ names \/ tokens h !! n = Some t)) (tokens h') /\
  (forall n cl token, cclaims c !! n = Some cl -> currentLeaseToken c cl = Some token ->
     n ∈ names \/ tokens h !! n = Some token -> tokens h' !! n = Some token).

(** A claim without a token is skipped. *)
Lemma transferred_skip k n names c h c' h' :
  (forall cl, cclaims c !! n = Some cl -> currentLeaseToken c cl = None) ->
  transferred k names c h c' h' -> transferred k (n :: names) c h c' h'.
Proof.
  intros Hno (A & B & C & D1 & D2 & D3 & F & G).
  unfold transferred. rewrite length_cons, Nat2Z.inj_succ. split_and!; try done; [eapply progress_weaken, A; lia | |].
  - eapply map_Forall_impl; [exact F |]. intros m t [? [?|?]]; (split; [done |]); [left; by right | by right].
  - intros m cl t Hm Ht [Hin|Hin]; [|eauto]. apply elem_of_cons in Hin as [->|Hin]; [|eauto].
    by rewrite (Hno _ Hm) in Ht.
Qed.

(** A claim that was prepared. *)
Lemma transferred_next k n names c h c3 c' h' cl token :
  cclaims c !! n = Some cl -> currentLeaseToken c cl = Some token -> keeps_tokens c c3 ->
  transferred (k + 1) names c3 (set_tokens (<[n := token]> (tokens h)) h) c' h' ->
  transferred k (n :: names) c h c' h'.
Proof.
  intros Ecl Et Hk3 (A & B & C & D1 & D2 & D3 & F & G).
  unfold transferred. rewrite length_cons, Nat2Z.inj_succ.
  split_and!; try done; [eapply progress_weaken, A; lia | by etransitivity | |].
  - eapply map_Forall_impl; [exact F |]. cbn [tokens set_tokens].
    intros m t [? [?|Hm]]; (split; [done |]); [left; by right |].
    apply lookup_insert_Some in Hm as [[<- _]|[_ Hm]]; [left; by left | by right].
  - intros m d t Hm Ht Hin. destruct (Hk3 _ _ Hm) as (d3 & Hd3 & Ht3). eapply G; [exact Hd3 | by apply Ht3 |].
    cbn [tokens set_tokens]. destruct (decide (m = n)) as [->|Hne].
    { right. rewrite lookup_insert_eq. congruence. }
    rewrite lookup_insert_ne by done. destruct Hin as [Hin|Hin]; [left | by right].
    by apply elem_of_cons in Hin as [?|?].
Qed.

Lemma transfer_loop_ok names : forall k c h c' h',
  progress k c0 c -> named_claims c -> is_u64 (opSeq c0 + k + Z.of_nat (length names)) ->
  map_Forall (λ _ t, is_u64 t) (tokens h) ->
  transfer_loop genv others succ ttl names (c, h) = ((c', h'), None) -> transferred k names c h c' h'.
Proof.
  induction names as [|n names IH]; intros k c h c' h' Hp Hnc Hlen Htok E; cbn [transfer_loop] in E.
  - simplify_eq/=. unfold transferred. rewrite Z.add_0_r. split_and!; try done.
    + intros n t Ht. split; [by eapply Htok | by right].
    + intros n cl t _ _ [Hn|Ht]; [by apply not_elem_of_nil in Hn | done].
  - rewrite length_cons, Nat2Z.inj_succ in *.
    pose proof (ci_seq _ (pr_inv _ _ _ Hp)) as H0. pose proof (pr_seq _ _ _ Hp) as Hq.
    assert (is_u64 (opSeq c0 + k + 1) /\ is_u64 (opSeq c0 + k + Z.of_nat (length names))) as [Hlen1 Hlen2]
      by (unfold is_u64 in *; lia).
    destruct (cclaims c !! n) as [cl|] eqn:Ecl; [|apply transferred_skip; [by rewrite Ecl | by apply IH]].
    destruct (currentLeaseToken c cl) as [token|] eqn:Et;
      [|apply transferred_skip; [intros ?; by rewrite Ecl; intros [= <-] | by apply IH]].
    destruct (newOpID "prepare" n c) as [c1 id] eqn:Eid.
    destruct (call _ _ _ c1) as [c2 [[rec|] err]] eqn:Ecall; [destruct err as [e|] |].
    1, 3: destruct (abortPrepared _ _ _) in E; injection E as _ _ E; by apply wrapClaim_Some in E.
    destruct (prepare_one_ok k c n token cl c1 id c2 rec) as (Hp3 & Hn3 & Hk3 & Hrec & Hu); try done.
    rewrite Hrec in E. rewrite Hrec in Hp3, Hn3, Hk3. eapply transferred_next; [done.. | exact Hk3 |].
    apply IH; try done; [unfold is_u64 in *; lia |].
    cbn [tokens set_tokens]. by apply map_Forall_insert_2.
Qed.
End TransferLoop.

(** What a [Transfer] that returns nil has done. *)
Lemma Transfer_ok result succ c h c' h' :
  coord_inv c -> named_claims c -> well_behaved (ID (gen c)) -> ID (gen c) ≠ "" ->
  is_u64 (opSeq c + Z.of_nat (length (h_claims h))) ->
  Transfer genv others result succ (c, h) = ((c', h'), None) ->
  progress (Z.of_nat (length (h_claims h))) c c' /\ named_claims c' /\ keeps_tokens c c' /\
  h_claims h' = h_claims h /\ status h' = HandoffTransferring /\ successorID h' ≠ "" /\
  map_Forall (λ n t, is_u64 t /\ n ∈ h_claims h) (tokens h') /\
  (forall n cl token, n ∈ h_claims h -> cclaims c !! n = Some cl -> currentLeaseToken c cl = Some token ->
     tokens h' !! n = Some token).
Proof.
  intros Hi Hnc Hw Hg Hlen E. unfold Transfer in E. case_bool_decide as Hsu; [done |].
  destruct (_ || _); [done |].
  assert (exists ca ha, (if drainDone h then ((c, h), None) else Drain genv result (c, h)) = ((ca, ha), None) /\
    progress 0 c ca /\ named_claims ca /\ keeps_tokens c ca /\ h_claims ha = h_claims h) as (ca & ha & Ea & Hpa & Hna & Hka & Hha).
  { destruct (drainDone h); [exists c, h; by split_and!; try apply progress_refl |].
    destruct (Drain genv result (c, h)) as [[ca ha] [e|]] eqn:Ed; [done |].
    exists ca, ha. split; [done |]. by eapply Drain_ok. }
  rewrite Ea in E. cbn iota beta zeta in E.
  pose proof (setState_progress 0 StateTransferring ReasonTransferPrepared c ca Hpa) as Hp.
  pose proof (setState_named StateTransferring ReasonTransferPrepared ca Hna) as Hn1.
  pose proof (setState_keeps StateTransferring ReasonTransferPrepared ca) as Hk1.
  destruct (Coordinator.setState _ _ _ ca) as [cb eb]. cbn [fst] in *.
  destruct (transfer_loop _ _ _ _ _ _) as [[cc hc] [e|]] eqn:El; [done |].
  rewrite <- Hha in Hlen |- *.
  eapply (transfer_loop_ok c succ _ Hw Hg Hsu _ 0) in El as (A & B & C & D1 & D2 & D3 & F & G);
    [|done..|by rewrite Z.add_0_r | apply map_Forall_empty].
  unfold startTimeoutWatcher in E. injection E as <- <-. simpl in *. rewrite Hha in *.
  assert (keeps_tokens c cc) as Hkc by (etransitivity; [exact Hka |]; by etransitivity).
  split_and!; try done; [by rewrite D3 | |].
  - eapply map_Forall_impl; [exact F |]. intros n t [? [?|?]]; done.
  - intros n cl token Hn Hc Ht. destruct (Hka _ _ Hc) as (cla & Ha' & Hta), (Hk1 _ _ Ha') as (clb & Hb' & Htb).
    eapply G; [exact Hb' | auto | by left].
Qed.

(** A coordinator of generation [g] that can hand the claims [names] over: its
    backend is consistent, it has the claims under their names and identifiers for
    [room] more calls. *)
Record can_hand_over (g : string) (names : list string) (room : Z) (c : Coord) : Prop := mkCanHandOver {
  ho_inv : coord_inv c; ho_named : named_claims c; ho_gen : ID (gen c) = g;
  ho_has n : n ∈ names -> is_Some (cclaims c !! n); ho_room : is_u64 (opSeq c + room) }.

(** C14: a committed handoff fences the old generation out.  Let [Transfer] return
    nil, and then the first [Commit] of the handoff return nil, other processes
    acting on the backend through requests of their own before every call (with
    operation identifiers that do not belong to this generation), and this
    coordinator doing anything between the two that keeps it consistent.  Then the
    handoff is committed, and for every claim of the handoff that the generation
    held a token for when [Transfer] began, the backend's fencing token is past that
    token and the generation has no local lease. *)
Theorem handoff_commit_fences result succ c h c1 h1 :
  let names := h_claims h in let len := Z.of_nat (length names) in
  can_hand_over (ID (gen c)) names (2 * len) c -> well_behaved (ID (gen c)) -> ID (gen c) ≠ "" ->
  Transfer genv others result succ (c, h) = ((c1, h1), None) ->
  can_hand_over (ID (gen c)) names len c1 /\
  forall c2 c3 h3, can_hand_over (ID (gen c)) names len c2 -> Commit genv others (c2, h1) = ((c3, h3), None) ->
    status h3 = HandoffCommitted /\
    forall n cl token, n ∈ names -> cclaims c !! n = Some cl -> currentLeaseToken c cl = Some token ->
      token < c_token (cell_at (backend c3) n) /\ unleased c3 n.
Proof.
  intros names len [Hi Hnc _ Hhas Hroom] Hw Hg E.
  destruct (Transfer_ok result succ c h c1 h1 Hi Hnc Hw Hg) as (Hp & Hn1 & Hk & Hcl & Hst & Hs & Ht & Hall); [|exact E |].
  { unfold is_u64 in *. fold names len. pose proof (ci_seq _ Hi). lia. }
  fold names len in Hp. split.
  { split; [apply Hp | done | apply Hp | |].
    - intros n Hn. destruct (Hhas n Hn) as [cl Hc]. destruct (Hk _ _ Hc) as (cl' & -> & _). by eexists.
    - pose proof (pr_seq _ _ _ Hp). pose proof (ci_seq _ Hi). unfold is_u64 in *. lia. }
  intros c2 c3 h3 [Hi2 Hn2 Hg2 Hhas2 Hroom2] Ec.
  destruct (commit_fences_recorded c2 h1 c3 h3) as [H1 H2]; rewrite ?Hg2, ?Hcl, ?Hs; try done.
  { by rewrite Hst. }
  { intros n t Hnt. destruct (Ht _ _ Hnt). split; [done |]. split; [done | by apply Hhas2]. }
  split; [done |]. intros n cl token Hn Hc Htok. apply H2. by eapply Hall.
Qed.

(** ** Abort *)

Lemma restore_local rec cl (c : Coord) n :
  cl_name cl = n -> cl_closed cl = false -> Controls (ToOwnership rec) (ID (gen c)) = true ->
  exists cl', cclaims (restoreLease rec cl c) = <[n := cl']> (cclaims c) /\ cl_name cl' = n /\
    lease cl' = Some (mkLease (FencingTokenOf rec) false).
Proof.
  intros Hn Hc Hctl. unfold restoreLease, ensureLocalLease. cbn [set_record cl_closed record gen].
  rewrite Hc. cbn [put_cl set_cclaims gen]. rewrite Hctl. cbn [negb].
  case_match; unfold startRenewal; (case_match; simpl; rewrite ?insert_insert_eq, Hn;
    eexists; (split; [reflexivity |]); done).
Qed.

Section AbortLoop.
Variables (c0 : Coord) (succ : string) (toks : gmap string FencingToken).
Hypotheses (Halone : forall n s, others n s = s) (Hg : ID (gen c0) ≠ "").

Lemma alone_behaved g : well_behaved g.
Proof. intros n s. rewrite Halone. split; [constructor | done]. Qed.

(** The claim is back with this generation, at the token it had. *)
Definition restored (c c' : Coord) (n : string) : Prop :=
  exists rec cl, claim_at (backend c') n = Some rec /\
    OwnerGeneration rec = ID (gen c) /\ Phase rec = ClaimOwned /\
    FencingTokenOf rec = c_token (cell_at (backend c) n) /\
    cclaims c' !! n = Some cl /\ lease cl = Some (mkLease (FencingTokenOf rec) false).

(** Other claims are left alone. *)
Definition apart (c c' : Coord) (n : string) : Prop :=
  claim_at (backend c') n = claim_at (backend c) n /\ cclaims c' !! n = cclaims c !! n.

Lemma abort_one_ok k c n token cl c1 id c2 rec :
  progress k c0 c -> is_u64 (opSeq c0 + k + 1) -> cl_name cl = n -> cl_closed cl = false ->
  newOpID "abort" n c = (c1, id) ->
  call genv others (fun env => do_Abort env (mkAbort n (ID (gen c1)) succ token id)) c1 =
    (c2, (Some rec, None)) ->
  let c3 := emit EventTransferAborted n (FencingTokenOf rec) ReasonTransferAborted None
              (restoreLease rec cl c2) in
  progress (k + 1) c0 c3 /\ restored c c3 n /\ (forall m, m ≠ n -> apart c c3 m).
Proof.
  intros Hp Hk Hn Hclo E1 E2 c3. injection E1 as <- <-. unfold call in E2.
  destruct (do_Abort _ _ _) as [s' r] eqn:Ec. simplify_eq/=.
  assert (ID (gen c) = ID (gen c0)) as Hgc by apply Hp.
  destruct (call_progress c0 k c "abort" (cl_name cl)
    (RqAbort (mkAbort (cl_name cl) (ID (gen c)) succ token
      (opID (ID (gen c)) "abort" (cl_name cl) (u64 (opSeq c + 1))))) (Some rec, None) _ s' Hp
    (alone_behaved _) Hk eq_refl eq_refl) as (Hp' & Hb & Hfr & _); [simpl; congruence | exact Ec |].
  rewrite Halone in *.
  destruct (be_abort_ok _ _ _ _ _ Hb Hfr Ec) as (Hcl & Ho & Hph & Ht). simpl in Hcl, Ho, Ht.
  match type of Ec with do_Abort ?e ?r ?s = _ =>
    assert (rq_valid (RqAbort r)) as Hv by (simpl; congruence);
    destruct (be_refines e (RqAbort r) s _ _ Hb Hv Ec) as (Hb' & _ & Hoth) end.
  simpl in Hoth.
  pose proof (be_inv_wf _ (cl_name cl) Hb') as Hwf. unfold cell_at in Hwf. rewrite Hcl in Hwf.
  destruct (wf_owned _ Hwf) as [_ Hpos]; [unfold held; simpl; by rewrite Hph |]. simpl in Hpos.
  set (c2 := set_backend s' _) in *.
  destruct (restore_local rec cl c2 (cl_name cl) eq_refl Hclo) as (cl' & Ecl & Hna & Hle).
  { unfold Controls, Zero. simpl. rewrite Ho, Hph.
    rewrite bool_decide_eq_true_2 by done. by rewrite bool_decide_eq_false_2 by lia. }
  destruct (same_restoreLease rec cl c2) as (Hsb & Hsg & Hsq).
  assert (cclaims c3 = <[cl_name cl := cl']> (cclaims c)) as Hcc by exact Ecl.
  assert (backend c3 = s') as Hbk by exact Hsb.
  split; [eapply progress_local; [|exact Hp']; done |]. split.
  - exists rec, cl'. rewrite Hbk, Hcc, lookup_insert_eq. done.
  - intros m Hm. split; [rewrite Hbk; by apply Hoth | rewrite Hcc; by rewrite lookup_insert_ne].
Qed.

Lemma abort_all_ok names : forall k c c',
  progress k c0 c -> NoDup names -> is_u64 (opSeq c0 + k + Z.of_nat (length names)) ->
  (forall n, n ∈ names -> is_Some (toks !! n) ->
     exists cl, cclaims c !! n = Some cl /\ cl_name cl = n /\ cl_closed cl = false) ->
  abort_all genv others succ toks names c = (c', None) ->
  (exists k', progress k' c0 c') /\
  (forall n, n ∈ names -> is_Some (toks !! n) -> restored c c' n) /\
  (forall n, n ∉ names \/ toks !! n = None -> apart c c' n).
Proof.
  induction names as [|n names IH]; intros k c c' Hp Hnd Hlen Hin E; cbn [abort_all] in E.
  - simplify_eq/=. split; [by exists k |]. split; [|done]. intros n Hn. by apply not_elem_of_nil in Hn.
  - apply NoDup_cons in Hnd as [Hnn Hnd]. rewrite length_cons, Nat2Z.inj_succ in *.
    pose proof (ci_seq _ (pr_inv _ _ _ Hp)) as H0. pose proof (pr_seq _ _ _ Hp) as Hq.
    destruct (toks !! n) as [token|] eqn:Et.
    + destruct (Hin n ltac:(by left) ltac:(by rewrite Et)) as (cl & Ecl & Hna & Hclo).
      rewrite Ecl in E. destruct (newOpID "abort" n c) as [c1 id] eqn:Eid.
      destruct (call _ _ _ c1) as [c2 [[rec|] err]] eqn:Ecall;
        [destruct err; [by injection E as _ E; apply wrapClaim_Some in E |] |
         by injection E as _ E; apply wrapClaim_Some in E].
      destruct (abort_one_ok k c n token cl c1 id c2 rec) as (Hp3 & Hr3 & Ha3); try done;
        [unfold is_u64 in *; lia |].
      set (c3 := emit _ _ _ _ _ _) in *.
      destruct (IH (k + 1) c3 c' Hp3 Hnd) as (Hp' & Hr & Ha); [| |exact E |].
      * unfold is_u64 in *. lia.
      * intros m Hm Hm'. destruct (Ha3 m) as [_ ->]; [set_solver |]. apply Hin; [by right | done].
      * assert (ID (gen c3) = ID (gen c)) as Hg3
          by (rewrite (pr_gen _ _ _ Hp3), (pr_gen _ _ _ Hp); done).
        split; [done |]. split.
        -- intros m Hm Hm'. destruct (decide (m = n)) as [->|Hne].
           ++ destruct Hr3 as (r & d & R1 & R2 & R3 & R4 & R5 & R6).
              destruct (Ha n ltac:(by left)) as [A1 A2].
              exists r, d. rewrite A1, A2. done.
           ++ apply elem_of_cons in Hm as [->|Hm]; [done |].
              destruct (Hr m Hm Hm') as (r & d & R1 & R2 & R3 & R4 & R5 & R6).
              destruct (Ha3 m Hne) as [A1 A2]. exists r, d. unfold cell_at in *.
              rewrite A1 in R4. rewrite Hg3 in R2. done.
        -- intros m Hm. assert (m ≠ n) as Hne by (destruct Hm; [set_solver | congruence]).
           destruct (Ha3 m Hne) as [A1 A2]. destruct (Ha m) as [B1 B2]; [set_solver |].
           split; congruence.
    + destruct (IH k c c' Hp Hnd) as (Hp' & Hr & Ha); [| |exact E |].
      * unfold is_u64 in *. lia.
      * intros m Hm. apply Hin. by right.
      * split; [done |]. split.
        -- intros m Hm Hm'. apply elem_of_cons in Hm as [->|Hm]; [|by apply Hr].
           rewrite Et in Hm'. by destruct Hm'.
        -- intros m [Hm|Hm]; apply Ha; [left; set_solver | by right].
Qed.
End AbortLoop.

(** C15: an aborted handoff gives every claim back.  When no other process
    interferes and [Abort] returns nil, then every prepared claim is owned by
    this generation again with the token it had before, the local lease is
    re-armed with that token, and every other claim is unchanged: no fencing
    token was spent. *)
Theorem handoff_abort_restores c h c' h' :
  coord_inv c -> (forall n s, others n s = s) -> ID (gen c) ≠ "" -> NoDup (h_claims h) ->
  is_u64 (opSeq c + Z.of_nat (length (h_claims h))) ->
  (forall n, is_Some (tokens h !! n) -> n ∈ h_claims h /\
     exists cl, cclaims c !! n = Some cl /\ cl_name cl = n /\ cl_closed cl = false) ->
  Abort genv others (c, h) = ((c', h'), None) ->
  status h' = HandoffAborted /\
  (forall n, is_Some (tokens h !! n) -> restored c c' n) /\
  (forall n, tokens h !! n = None -> claim_at (backend c') n = claim_at (backend c) n).
Proof.
  intros Hi Hal Hg Hnd Hlen Htok E. unfold Abort in E. case_bool_decide; [done |].
  cbn [set_status successorID tokens h_claims] in E.
  destruct (abort_all _ _ _ _ _ _) as [c1 [e|]] eqn:Ea; [done |].
  destruct (abort_all_ok c (successorID h) (tokens h) Hal Hg (h_claims h) 0 c c1)
    as ([k' Hp] & Hr & Ha); [by apply progress_refl | done | by rewrite Z.add_0_r | | exact Ea |].
  { intros n _ Hs. by apply Htok. }
  pose proof (setState_claim_at StateActive ReasonRollback c1 (ci_be _ (pr_inv _ _ _ Hp))) as Hcl.
  pose proof (setState_cclaims StateActive ReasonRollback c1) as Hcc.
  destruct (Coordinator.setState genv StateActive ReasonRollback c1) as [c2 e2]. simplify_eq/=.
  split; [done |]. split.
  - intros n Hs. destruct (Hr n (proj1 (Htok n Hs)) Hs) as (r & d & R1 & R2 & R3 & R4 & R5 & R6).
    exists r, d. simpl. rewrite Hcl, Hcc. done.
  - intros n Hs. rewrite Hcl. by apply Ha; right.
Qed.

(** ** Acquisition *)

Lemma startRenewal_backend cl (c : Coord) : backend (startRenewal cl c) = backend c.
Proof. by destruct (same_startRenewal cl c). Qed.

(** A lease is only handed out for a claim the backend assigned.  When
    [tryAcquire] installs a new lease, the backend's record of the claim, at the
    end of the call, names this generation as committed owner with exactly the
    lease's (non-zero) token. *)
Theorem acquire_lease_backed name meanwhile c c' l cl :
  coord_inv c -> well_behaved (ID (gen c)) -> ID (gen c) ≠ "" -> is_u64 (opSeq c + 1) ->
  cclaims c !! name = Some cl -> lease_valid c cl = false ->
  lease_valid c (meanwhile (set_acquiring true cl)) = false ->
  tryAcquire genv others name meanwhile c = (c', (Some l, None)) ->
  exists rec, claim_at (backend c') name = Some rec /\
    OwnerGeneration rec = ID (gen c) /\ Phase rec = ClaimOwned /\
    l_token l = FencingTokenOf rec /\ 0 < FencingTokenOf rec /\ l_revoked l = false.
Proof.
  intros Hi Hw Hg Hk Hcl Hlv Hlv' E. unfold tryAcquire in E. rewrite Hcl, Hlv in E.
  destruct (cl_closed cl); [done |]. destruct (acquiring cl); [done |].
  cbn [newOpID] in E. unfold call in E. simpl in E.
  match type of E with context [do_Acquire ?e ?r ?s] =>
    destruct (do_Acquire e r s) as [s' [[rec|] [err|]]] eqn:Ec; try done end.
  destruct (call_progress c 0 c "acquire" name _ (Some rec, None) _ s'
    (progress_refl 0 c Hi ltac:(lia)) Hw ltac:(by rewrite Z.add_0_r) eq_refl
    (eq_refl : rq_op (RqAcquire (mkAcquire name (ID (gen c)) (cfg_LeaseTTL (cfg c)) false
       (newOpID "acquire" name c).2)) = _)) as (Hp & Hb & Hfr & _); [done | exact Ec |].
  destruct (be_acquire_ok _ (mkAcquire _ (ID (gen c)) _ _ _) _ _ _ Hb Hg Hfr Ec) as [Hat Ho]. simpl in Hat, Ho.
  unfold install_lease in E. set (cl1 := set_acquiring false _) in E.
  assert (lease_valid c cl1 = false) as Hlv1 by exact Hlv'.
  destruct (cl_closed cl1).
  { cbn [newOpID] in E. by destruct (call _ _ _ _). }
  change (lease_valid _ cl1) with (lease_valid c cl1) in E. rewrite Hlv1 in E.
  destruct (OwnedBy (ToOwnership rec) _) eqn:Eown; [|done]. cbn [negb] in E.
  set (c2 := put_cl _ _) in E.
  pose proof (setState_claim_at StateActive ReasonAcquired c2 (ci_be _ (pr_inv _ _ _ Hp))) as Hset.
  destruct (Coordinator.setState genv StateActive ReasonAcquired c2) as [c3 e3]. simplify_eq/=.
  exists rec. rewrite startRenewal_backend. simpl. rewrite Hset. split; [exact Hat |].
  unfold OwnedBy, Zero in Eown. simpl in Eown. rewrite !andb_true_iff, negb_true_iff in Eown.
  destruct Eown as [[Hph _] Hz]. apply bool_decide_eq_true in Hph. apply bool_decide_eq_false in Hz.
  pose proof (be_inv_wf _ name (ci_be _ (pr_inv _ _ _ Hp))) as Hwf.
  unfold cell_at in Hwf. simpl in Hwf. rewrite Hat in Hwf. destruct (wf_range _ Hwf) as [Hr _].
  simpl in Hr. repeat (split; [done |]). split; [lia | done].
Qed.

(** Operation identifiers of a coordinator are never reused.  Whatever the
    operations and claim names (which may contain colons), the identifiers of
    two different calls of [newOpID] differ, also for different generations, as
    long as fewer than [2^64] were taken. *)
Theorem newOpID_unique op op' cl cl' (c d : Coord) :
  is_u64 (opSeq c + 1) -> is_u64 (opSeq d + 1) -> opSeq c ≠ opSeq d ->
  (newOpID op cl c).2 ≠ (newOpID op' cl' d).2 /\ opSeq (newOpID op cl c).1 = opSeq c + 1.
Proof.
  intros Hc Hd Hne. simpl. rewrite !u64_small by done. split; [|done].
  intros E. apply opID_inj in E; [lia | done | done].
Qed.
End Safety.

(** A coordinator of generation ["a"] on a memory backend where ["a"] owns
    ["leader"] with token 1 and has reserved it for ["b"]. *)
Definition x_env (_ : Z) : Env := mkEnv None 7 7 7.
Definition x_alone (_ : Z) (b : Backend) : Backend := b.

Definition x_record : ClaimRecord :=
  mkClaimRecord "leader" "a" 1 ClaimReserved 5 (10 * Second) "" "b" "complete" "prepared" 6
    ReasonTransferPrepared 2.

Definition x_coord : Coord :=
  mkCoord (mkGeneration "a" "svc" "i1" StateTransferring 0 0 ReasonTransferPrepared)
    (mkCoordConfig (15 * Second) (30 * Second) 0)
    {["leader" := mkClaim "leader" x_record (Some (mkLease 1 false)) (NewDrainGroup 0) false false true]}
    false 0 0 (put_claim "leader" x_record (New false)) [] false.

Definition x_handoff : Handoff :=
  mkHandoff ["leader"] HandoffTransferring "b" true true {["leader" := 1]} true None.

Lemma x_coord_inv : coord_inv x_coord.
Proof.
  split; [|done|done]. change (mem_inv (put_claim "leader" x_record (New false))).
  apply map_Forall_insert_2; [|apply map_Forall_empty].
  split; [done |]. split; simpl; try done.
Qed.

Lemma x_alone_ok g : well_behaved x_alone g.
Proof. intros n s. split; [constructor | done]. Qed.

(** The same generation before the handoff: it owns the claim. *)
Definition x_owned : ClaimRecord :=
  mkClaimRecord "leader" "a" 1 ClaimOwned 5 (10 * Second) "" "" "" "" 6 ReasonAcquired 1.

Definition x_owner : Coord :=
  mkCoord (mkGeneration "a" "svc" "i1" StateActive 0 0 ReasonAcquired)
    (mkCoordConfig (15 * Second) (30 * Second) 0)
    {["leader" := mkClaim "leader" x_owned (Some (mkLease 1 false)) (NewDrainGroup 0) false false true]}
    false 0 0 (put_claim "leader" x_owned (New false)) [] false.

Definition x_pending : Handoff := mkHandoff ["leader"] HandoffPending "" false false ∅ false None.

Definition x_moved : Coord * Handoff * option error :=
  Commit x_env x_alone (Transfer x_env x_alone (fun _ => None) "b" (x_owner, x_pending)).1.

Lemma x_owner_ready : can_hand_over "a" ["leader"] 2 x_owner.
Proof.
  split; [split; [|done|done] | | done | | by_eval].
  - change (mem_inv (put_claim "leader" x_owned (New false))).
    apply map_Forall_insert_2; [|apply map_Forall_empty]. split; [done |]. split; simpl; try done.
  - apply map_Forall_insert_2; [done | apply map_Forall_empty].
  - intros n ->%list_elem_of_singleton. by eexists.
Qed.

Lemma handoff_commit_fences_witness :
  status x_moved.1.2 = HandoffCommitted /\ 1 < c_token (cell_at (backend x_moved.1.1) "leader") /\
  unleased x_moved.1.1 "leader".
Proof.
  set (t := Transfer x_env x_alone (fun _ => None) "b" (x_owner, x_pending)).
  destruct (handoff_commit_fences x_env x_alone (fun _ => None) "b" x_owner x_pending t.1.1 t.1.2
    x_owner_ready (x_alone_ok _) ltac:(done) ltac:(vm_compute; reflexivity)) as [H1 H2].
  destruct (H2 t.1.1 x_moved.1.1 x_moved.1.2 H1 ltac:(vm_compute; reflexivity)) as [H3 H4].
  split; [exact H3 |]. eapply H4; [by left | reflexivity | reflexivity].
Defined.

(** A run on the memory backend: ["a"] acquires the claim, hands it over to
    ["b"], and the backend fails the commit once. *)
Definition y_start : Coord :=
  mkCoord (mkGeneration "a" "svc" "i1" StateStandby 0 0 ReasonRegistered)
    (mkCoordConfig (15 * Second) (30 * Second) 0)
    {["leader" := new_handle "leader"]} false 0 0 (New false) [] false.

Definition y_owner : Coord := (tryAcquire x_env x_alone "leader" id y_start).1.

Definition y_handoff : Coord * Handoff :=
  let '(c, (h, _)) := PrepareHandoff x_env ["leader"] y_owner in
  (c, default (mkHandoff [] HandoffPending "" false false ∅ false None) h).

Definition y_reserved : Coord * Handoff :=
  let '(c, h) := (Transfer x_env x_alone (fun _ => None) "b" y_handoff).1 in
  (set_backend (CrashOnCommit true (backend c)) c, h).

Definition y_failed : Coord * Handoff := (Commit x_env x_alone y_reserved).1.

(** Committing again after a failed commit reports success.  The failed
    [Commit] aborts the reservation and restores the lease, but leaves
    [transferDone] set and no token to commit; a second [Commit] then finds
    nothing to do, returns nil, marks the handoff committed and retires the
    generation, while the backend still has the old owner at the old token and
    the successor owns nothing. *)
Theorem handoff_recommit_reports_success :
  (exists e, (Commit x_env x_alone y_reserved).2 = Some e /\ errors_is e ErrBackend = true) /\
  status y_failed.2 = HandoffFailed /\
  (Commit x_env x_alone y_failed).2 = None /\
  status (Commit x_env x_alone y_failed).1.2 = HandoffCommitted /\
  State (gen (Commit x_env x_alone y_failed).1.1) = StateRetired /\
  cell_at (backend (Commit x_env x_alone y_failed).1.1) "leader" = mkCell "a" 1 ClaimOwned "" /\
  (exists cl, cclaims (Commit x_env x_alone y_failed).1.1 !! "leader" = Some cl /\
    lease cl = Some (mkLease 1 false)).
Proof.
  split; [eexists; split; vm_compute; reflexivity |].
  repeat (split; [vm_compute; reflexivity |]).
  eexists. split; vm_compute; reflexivity.
Qed.

Lemma handoff_abort_restores_witness :
  restored x_coord (Abort x_env x_alone (x_coord, x_handoff)).1.1 "leader".
Proof.
  destruct (handoff_abort_restores x_env x_alone x_coord x_handoff
    (Abort x_env x_alone (x_coord, x_handoff)).1.1 (Abort x_env x_alone (x_coord, x_handoff)).1.2
    x_coord_inv) as (_ & H & _).
  - done.
  - done.
  - apply NoDup_singleton.
  - by_eval.
  - intros n [t Ht]. unfold x_handoff in Ht. cbn [tokens] in Ht.
    apply lookup_singleton_Some in Ht as [<- <-]. split; [by left |]. by eexists.
  - vm_compute. reflexivity.
  - apply H. by eexists.
Defined.

Lemma acquire_lease_backed_witness :
  exists rec, claim_at (backend y_owner) "leader" = Some rec /\ FencingTokenOf rec = 1.
Proof.
  assert (coord_inv y_start) as Hi by (split; [apply map_Forall_empty | done | done]).
  destruct (acquire_lease_backed x_env x_alone "leader" id y_start y_owner (mkLease 1 false)
    (new_handle "leader") Hi (x_alone_ok _) ltac:(done) ltac:(by_eval) ltac:(reflexivity)
    ltac:(reflexivity) ltac:(reflexivity) ltac:(vm_compute; reflexivity))
    as (rec & H1 & _ & _ & H2 & _).
  exists rec. split; [exact H1 | symmetry; exact H2].
Defined.

Lemma newOpID_unique_witness :
  (newOpID "commit" "a:1" y_start).2 ≠ (newOpID "commit" "a" y_owner).2.
Proof. refine (proj1 (newOpID_unique "commit" "commit" "a:1" "a" y_start y_owner _ _ _)); by_eval. Defined.
