(* ===== verification/Lifecycle.v ===== *)
(** * The life of a coordinator ([coordinator.go], [claim.go], [health.go])

    Construction and registration, waiting for ownership, running a worker under it,
    health, the detection of split brain and the planning of recovery, over any backend.
    As in [Coordinator], [genv] and [others] are the surroundings of backend calls; a
    wait takes one [round] per attempt, with what other goroutines did meanwhile and how
    its [select] ended. *)

From S2P Require Import Prelude Types BackendSpec StateGraph Drain Config Coordinator Handoff.

(** ** Construction *)

Section Lifecycle.
Context {S : Type} `{!BackendOps S}.
Variables (genv : Z -> Env) (others : Z -> S -> S).
Variable dur_string : Duration -> string.

Abbreviation Coord := (Coordinator.Coord (S := S)).

Definition coord_config (cf : Config) : CoordConfig :=
  mkCoordConfig (cf_LeaseTTL cf) (cf_TransferTimeout cf) (MaxConcurrentClaims (cf_Policy cf)).

Definition first_generation (now : Time) (cf : Config) : Generation :=
  mkGeneration (cf_GenerationID cf) (cf_Service cf) (cf_InstanceID cf) StateJoining now now ReasonRegistered.

(** [New]; [caps] is what the backend says of itself, if it does.  The state of the
    backend is returned also on failure. *)
Definition New (now : Time) (caps : option Capabilities) (cf : Config) (s : S) : S * (error + Coord) :=
  match defaults dur_string now cf with
  | (_, Some e) => (s, inl e)
  | (cf, None) =>
    let gen := first_generation now cf in
    let c := mkCoord gen (coord_config cf) ∅ false 0 time_zero s [] false in
    match ValidateCapabilities cf (resolveCapabilities caps) with
    | Some e => (s, inl e)
    | None =>
      match do_Register (genv 0) gen s with
      | (s, Some e) => (s, inl (default e (wrap "New" (Some e))))
      | (s, None) =>
        let '(c, _) := setState genv StateStandby ReasonRegistered (set_backend s c) in
        let c := emit EventGenerationRegistered "" 0 ReasonRegistered None c in
        (backend c, inr c)
      end
    end
  end.

(** ** Waiting for ownership *)

(** How the [select] of a round ended. *)
Inductive wake := WakeTimer | WakeAcquired | WakeContext (e : ctx_error) | WakeClosed.

Record round := mkRound { ro_meanwhile : Claim -> Claim; ro_between : Coord -> Coord; ro_wake : wake }.

(** The errors after which the loop goes on: compared by identity, not with [errors.Is]. *)
Definition keep_waiting (e : error) : bool :=
  match e with Sentinel ErrClaimHeld | Sentinel ErrNotOwner => true | _ => false end.

Definition failed (name : string) (e : error) : option Lease + error :=
  inr (default e (wrapClaim "WaitForOwnership" name (Some e))).

(** The loop of [WaitForOwnership]; the result is [None] while it is waiting. *)
Fixpoint wait_loop (name : string) (rounds : list round) (c : Coord) : Coord * option (option Lease + error) :=
  match rounds with
  | [] => (c, None)
  | r :: rounds =>
    match tryAcquire genv others name (ro_meanwhile r) c with
    | (c, (l, None)) => (c, Some (inl l))
    | (c, (_, Some e)) =>
      if negb (keep_waiting e) then (c, Some (failed name e))
      else
        let c := ro_between r c in
        match cclaims c !! name with
        | Some cl =>
          if lease_valid c cl then (c, Some (inl (lease cl)))
          else match ro_wake r with
               | WakeContext e => (c, Some (failed name (CtxErr e)))
               | WakeClosed => (c, Some (failed name (Sentinel ErrClosed)))
               | WakeTimer | WakeAcquired => wait_loop name rounds c
               end
        | None => (c, None)
        end
    end
  end.

Definition WaitForOwnership (name : string) (rounds : list round) (c : Coord) : Coord * option (option Lease + error) :=
  match checkOpen c with
  | Some e => (c, Some (failed name e))
  | None => wait_loop name rounds c
  end.

(** ** Running a worker *)

(** [readiness] is [None] without gates, else what [Readiness.Run] returned.  The run
    ends before the worker starts, starts it with a lease, or is still waiting. *)
Inductive run_result := RunFailed (e : error) | RunStarted (l : option Lease) | RunWaiting.

Definition run_error (e : error) : run_result := RunFailed (default e (wrap "Run" (Some e))).

Definition run_readiness (name : string) (readiness : option (option error)) (c : Coord) : Coord * option error :=
  match readiness with
  | None => (c, None)
  | Some err =>
    let '(c, _) := setState genv StatePreparing ReasonRegistered c in
    let c := emit EventReadinessStarted name 0 ReasonNone None c in
    match err with
    | Some e =>
      let '(c, _) := setState genv StateFailed ReasonReadinessFailed c in
      (emit EventReadinessFailed name 0 ReasonReadinessFailed (Some e) c, Some e)
    | None =>
      let c := emit EventReadinessPassed name 0 ReasonReadinessPassed None c in
      let '(c, _) := setState genv StateStandby ReasonReadinessPassed c in (c, None)
    end
  end.

Definition Run (name : string) (has_run : bool) (readiness : option (option error)) (rounds : list round) (c : Coord)
  : Coord * run_result :=
  if bool_decide (name = "") || negb has_run
  then (c, RunFailed (mkError "Run" (Sentinel ErrPolicy) "worker Name and Run required"))
  else match run_readiness name readiness c with
       | (c, Some e) => (c, run_error e)
       | (c, None) =>
         match Claim_handle name c with
         | (c, Some e) => (c, run_error e)
         | (c, None) =>
           match WaitForOwnership name rounds c with
           | (c, None) => (c, RunWaiting)
           | (c, Some (inr e)) => (c, run_error e)
           | (c, Some (inl l)) => (c, RunStarted l)
           end
         end
       end.

(** ** Health ([health.go]) *)

Inductive HealthStatus := HealthOK | HealthDegraded | HealthFailing | HealthUnknown.

#[global] Instance HealthStatus_eq_dec : EqDecision HealthStatus.
Proof. solve_decision. Defined.

Record HealthReport := mkHealthReport {
  hr_Time : Time; hr_Process : HealthStatus; hr_Backend : HealthStatus; hr_Coordinator : HealthStatus;
  hr_Readiness : HealthStatus; hr_Ownership : HealthStatus; hr_Degradation : string; hr_Details : gmap string string }.

Definition owned_claims (c : Coord) : nat :=
  length (filter (fun kc => OwnedBy (ToOwnership (record kc.2)) (ID (gen c)) = true) (map_to_list (cclaims c))).

(** [now] and [now'] are the readings of the clock for [Time] and [Since]. *)
Definition Health (now now' : Time) (c : Coord) : HealthReport :=
  let d0 := if co_closed c then {["coordinator" := "closed"]} else ∅ in
  let co := if co_closed c || bool_decide (State (gen c) = StateFailed) then HealthFailing else HealthOK in
  let '(be, details) :=
    if IsZero (lastHeartbeat c) then (HealthUnknown, d0)
    else if bool_decide (cfg_LeaseTTL (cfg c) < now' - lastHeartbeat c)
    then (HealthDegraded, <["backend" := "heartbeat stale"]> d0) else (HealthOK, d0) in
  let own := if bool_decide (owned_claims c = 0%nat) && bool_decide (0 < Z.of_nat (size (cclaims c)))
             then HealthUnknown else HealthOK in
  mkHealthReport now HealthOK be co HealthOK own "fail_closed" details.

Record SplitBrainReport := mkSplitBrain {
  sb_Claim : string; sb_LocalToken : FencingToken; sb_BackendToken : FencingToken; sb_LocalOwner : string;
  sb_BackendOwner : string; sb_DetectedAt : Time; sb_ActionTaken : string }.

(** [reply] is the answer of [backend.GetClaim]. *)
Definition DetectSplitBrain (now : Time) (name : string) (reply : error + ClaimRecord) (c : Coord)
  : Coord * (error + option SplitBrainReport) :=
  match Claim_handle name c with
  | (c, Some e) => (c, inl e)
  | (c, None) =>
    match cclaims c !! name with
    | None => (c, inr None)
    | Some cl =>
      let local := ToOwnership (record cl) in
      match reply with
      | inl e => (c, inl e)
      | inr rec =>
        let remote := ToOwnership rec in
        if bool_decide (OFencingToken local = OFencingToken remote) && bool_decide (OOwnerGeneration local = OOwnerGeneration remote)
        then (c, inr None)
        else
          let rep action := mkSplitBrain name (OFencingToken local) (OFencingToken remote) (OOwnerGeneration local)
            (OOwnerGeneration remote) now action in
          if Less (OFencingToken local) (OFencingToken remote)
          then (c |> revokeLease ReasonFencedOut cl
                  |> emit EventError name 0 ReasonFencedOut (Some (Sentinel ErrSplitBrain)), inr (Some (rep "revoked_local_lease")))
          else (c, inr (Some (rep "")))
      end
    end
  end.

Record RecoveryPlan := mkPlan {
  rp_Claim : string; rp_Situation : string; rp_Recommended : list string; rp_RequiresConfirm : bool;
  rp_ExpectedToken : FencingToken; rp_ExpectedOwner : string }.

Definition PlanRecovery (claim : string) (reply : error + ClaimRecord) : RecoveryPlan :=
  match reply with
  | inl _ => mkPlan claim "claim_missing_or_error" ["verify_backend"; "inspect_journal"] true 0 ""
  | inr rec =>
    let '(situation, recommended) :=
      match Phase rec with
      | ClaimReserved => ("orphaned_or_pending_transfer", ["abort-transfer"; "expire-candidate"; "repair-orphaned-transfer"])
      | ClaimUnowned => ("unowned", ["promote-candidate"; "resume-previous-owner"])
      | ClaimOwned => ("owned", ["monitor_heartbeats"; "prepare_handoff_if_deploying"])
      | ClaimDraining => ("draining", ["inspect"])
      end in
    mkPlan claim situation recommended true (FencingTokenOf rec) (OwnerGeneration rec)
  end.

Record Diagnostics := mkDiagnostics {
  dg_Service : string; dg_InstanceID : string; dg_Generation : Generation; dg_LastHeartbeat : Time;
  dg_EventDropped : Z; dg_Claims : list Ownership }.

(** [order] is how the range meets the claims; [dropped] the counter of the bus. *)
Definition Diagnose (order : list (string * Claim)) (dropped : Z) (c : Coord) : Diagnostics :=
  mkDiagnostics (Service (gen c)) (InstanceID (gen c)) (gen c) (lastHeartbeat c) dropped
    ((fun kc => ToOwnership (record kc.2)) <$> order).
End Lifecycle.

(** ** A new coordinator *)

Section Facts.
Context {S : Type} `{!BackendOps S} `{!BackendLaws S}.
Variables (genv : Z -> Env) (others : Z -> S -> S).
Variable dur_string : Duration -> string.

(** What [New] returns is ready to work: registered and in standby under a
    non-empty identifier, without claims, and with a backend in which all its future
    operation identifiers are unused; on failure the claims of the backend are as they
    were. *)
Theorem new_ready now caps cf s s' r :
  be_inv s -> (forall op cl m, is_u64 m -> fresh s (opID (cf_GenerationID (defaults dur_string now cf).1) op cl m)) ->
  New genv dur_string now caps cf s = (s', r) ->
  (forall n, claim_at s' n = claim_at s n) /\ be_inv s' /\
  match r with
  | inl _ => True
  | inr c => coord_inv c /\ backend c = s' /\ ID (gen c) ≠ "" /\ ID (gen c) = cf_GenerationID (defaults dur_string now cf).1 /\
      State (gen c) = StateStandby /\ cclaims c = ∅ /\ opSeq c = 0 /\ co_closed c = false /\ sup_down c = false /\
      0 < cfg_LeaseTTL (cfg c)
  end.
Proof.
  intros Hb Hf. unfold New. destruct (defaults dur_string now cf) as [cf' [e|]] eqn:Ed; [by intros [= <- <-] |]. cbn [fst] in Hf.
  destruct (ValidateCapabilities cf' _) as [e|]; [by intros [= <- <-] |].
  set (g := first_generation now cf').
  destruct (be_generation (genv 0) g s _ (or_introl eq_refl) Hb) as (Hb1 & Hc1 & Ho1).
  destruct (do_Register (genv 0) g s) as [s1 [e|]]; cbn [fst] in *; [by intros [= <- <-] |].
  set (c0 := set_backend s1 _).
  assert (coord_inv c0) as Hi0.
  { split; [exact Hb1 | simpl; lia |]. intros m op cl _ Hm. unfold fresh. simpl. rewrite Ho1. by apply Hf. }
  pose proof (setState_progress genv 0 StateStandby ReasonRegistered c0 c0 (progress_refl 0 c0 Hi0 ltac:(lia))) as Hp.
  pose proof (setState_claim_at genv StateStandby ReasonRegistered c0 Hb1) as Hcl.
  assert ((setState genv StateStandby ReasonRegistered c0).1 =
     set_backend (do_Update (genv 0) (set_gen_state StateStandby ReasonRegistered (env_t2 (genv 0)) g) s1).1
       (set_gen (set_gen_state StateStandby ReasonRegistered (env_t2 (genv 0)) g) c0)
     |> emit EventGenerationState "" 0 ReasonRegistered None) as Est.
  { unfold setState. simpl. by destruct (do_Update _ _ _). }
  destruct (setState genv StateStandby ReasonRegistered c0) as [c1 err]. cbn [fst] in *. intros [= <- <-].
  destruct (config_defaults_sound dur_string now cf cf' Ed) as (Httl & _ & _ & _ & _ & _ & _ & _ & _ & _ & Hid & _).
  split; [intros n; simpl; by rewrite Hcl, Hc1 |]. split; [exact (ci_be _ (pr_inv _ _ _ Hp)) |].
  split; [apply (pr_inv 0 c0), (progress_local _ _ c1); [done | exact Hp] |].
  subst c1. simpl. split_and!; try done. lia.
Qed.

(** ** Waiting *)

(** What other goroutines may do in a round: they leave the leases of this
    coordinator alone, and the backend consistent. *)
Definition quiet (r : round (S := S)) : Prop :=
  (forall cl, lease (ro_meanwhile r cl) = lease cl /\ cl_name (ro_meanwhile r cl) = cl_name cl) /\
  forall k c0 c, progress k c0 c -> progress k c0 (ro_between r c) /\ cclaims (ro_between r c) = cclaims c /\
    sup_down (ro_between r c) = sup_down c.

Lemma lease_valid_lease (c c' : Coord (S := S)) cl cl' :
  lease cl' = lease cl -> sup_down c' = sup_down c -> lease_valid c' cl' = lease_valid c cl.
Proof. unfold lease_valid. by intros -> ->. Qed.

(** An attempt after which the loop goes on. *)
Lemma tryAcquire_again k c0 c name meanwhile c' l e cl :
  progress k c0 c -> well_behaved others (ID (gen c0)) -> ID (gen c0) ≠ "" -> is_u64 (opSeq c0 + k + 1) -> 0 <= opSeq c0 + k ->
  cclaims c !! name = Some cl -> cl_name cl = name -> lease_valid c cl = false ->
  (forall cl, lease (meanwhile cl) = lease cl /\ cl_name (meanwhile cl) = cl_name cl) ->
  tryAcquire genv others name meanwhile c = (c', (l, Some e)) -> keep_waiting e = true ->
  progress (k + 1) c0 c' /\ sup_down c' = sup_down c /\
  exists cl', cclaims c' !! name = Some cl' /\ cl_name cl' = name /\ lease_valid c' cl' = false.
Proof.
  intros Hp Hw Hg Hk Hpos Hcl Hn Hlv Hm E Hkw. unfold tryAcquire in E. rewrite Hcl, Hlv in E.
  destruct (cl_closed cl); [by simplify_eq |]. destruct (acquiring cl).
  { simplify_eq. split; [eapply progress_weaken, Hp; lia |]. split; [done |]. by exists cl. }
  cbn [newOpID] in E. unfold call in E. simpl in E.
  match type of E with context [do_Acquire ?e ?r ?s] =>
    destruct (do_Acquire e r s) as [s' [rec err]] eqn:Ec end.
  destruct (call_progress genv others c0 k c "acquire" name _ (rec, err) _ s' Hp Hw Hk eq_refl
    (eq_refl : rq_op (RqAcquire (mkAcquire name (ID (gen c)) (cfg_LeaseTTL (cfg c)) false
       (newOpID "acquire" name c).2)) = _)) as (Hp1 & _); [simpl; by rewrite (pr_gen _ _ _ Hp) | exact Ec |].
  set (cl1 := set_acquiring false _) in E. set (c2 := put_cl cl1 _) in E.
  destruct (Hm (set_acquiring true cl)) as [Hl1 Hn1].
  assert (progress (k + 1) c0 c2 /\ sup_down c2 = sup_down c /\ cclaims c2 !! name = Some cl1) as (Hp2 & Hs2 & Hc2).
  { split; [eapply progress_local; [apply same_put_cl | exact Hp1] |]. split; [done |].
    simpl. change (cl_name (meanwhile (set_acquiring true cl))) with (cl_name cl1).
    rewrite <- Hn. change (cl_name cl) with (cl_name (set_acquiring true cl)). rewrite <- Hn1. apply lookup_insert_eq. }
  assert (lease_valid c2 cl1 = false) as Hv1 by (rewrite <- Hlv; by apply lease_valid_lease).
  assert (cl_name cl1 = name) as Hn2 by (rewrite <- Hn; exact Hn1).
  destruct rec as [rec|], err as [err|]; simplify_eq/=; try (split; [exact Hp2 |]; split; [done |]; by exists cl1).
  unfold install_lease in E. destruct (cl_closed cl1); [cbn [newOpID] in E; destruct (call _ _ _ _); by simplify_eq |].
  rewrite Hv1 in E. destruct (OwnedBy _ _); cbn [negb] in E; [by destruct (setState _ _ _ _) |].
  injection E as <- <- <-. split; [eapply progress_local; [apply same_put_cl | exact Hp2] |]. split; [done |].
  exists (set_record rec (set_lease None cl1)). split; [|done].
  simpl. rewrite <- Hn2. by rewrite lookup_insert_eq.
Qed.

(** What any round respects: claims stay under their names. *)
Definition orderly (r : round (S := S)) : Prop :=
  (forall cl, cl_name (ro_meanwhile r cl) = cl_name cl) /\ forall c, named_claims c -> named_claims (ro_between r c).

(** The lease is the current one of its claim, and not revoked. *)
Definition current (c : Coord (S := S)) (name : string) (l : Lease) : Prop :=
  exists cl, cclaims c !! name = Some cl /\ lease cl = Some l /\ l_revoked l = false.

Lemma valid_current c name cl l :
  cclaims c !! name = Some cl -> lease_valid c cl = true -> lease cl = Some l -> current c name l.
Proof.
  intros Hcl Hv Hl. exists cl. split; [done |]. split; [done |]. unfold lease_valid in Hv. rewrite Hl in Hv.
  apply andb_true_iff in Hv as [Hv _]. by apply negb_true_iff in Hv.
Qed.

Lemma startRenewal_current cl l (c : Coord (S := S)) name :
  cclaims c !! name = Some cl -> cl_name cl = name -> lease cl = Some l -> l_revoked l = false ->
  current (startRenewal cl c) name l.
Proof.
  intros Hcl Hn Hl Hr. unfold startRenewal. destruct (renewing cl); [by exists cl |].
  exists (set_renewing true cl). simpl. by rewrite <- Hn, lookup_insert_eq.
Qed.

(** Whatever an attempt returns is the current lease, and claims stay under their names. *)
Lemma tryAcquire_current name meanwhile c c' r :
  named_claims c -> (forall cl, cl_name (meanwhile cl) = cl_name cl) ->
  tryAcquire genv others name meanwhile c = (c', r) ->
  named_claims c' /\ (forall l, r = (Some l, None) -> current c' name l).
Proof.
  intros Hnc Hm E. unfold tryAcquire in E. destruct (cclaims c !! name) as [cl|] eqn:Hcl; [|by simplify_eq].
  destruct (cl_closed cl); [by simplify_eq |]. destruct (lease_valid c cl) eqn:Hv.
  { simplify_eq. split; [done |]. intros l [= Hl]. by eapply valid_current. }
  destruct (acquiring cl); [by simplify_eq |]. cbn [newOpID] in E. unfold call in E. simpl in E.
  match type of E with context [do_Acquire ?e ?r ?s] => destruct (do_Acquire e r s) as [s' [rec err]] end.
  set (cl1 := set_acquiring false _) in E. set (c2 := put_cl cl1 _) in E.
  assert (cl_name cl1 = name) as Hn1 by (rewrite <- (Hnc _ _ Hcl); exact (Hm (set_acquiring true cl))).
  assert (named_claims c2 /\ cclaims c2 !! name = Some cl1) as [Hn2 Hc2].
  { split; [by apply map_Forall_insert_2 |]. rewrite <- Hn1. apply lookup_insert_eq. }
  destruct rec as [rec|], err as [err|]; try (by simplify_eq). unfold install_lease in E.
  destruct (cl_closed cl1).
  { cbn [newOpID] in E. unfold call in E. destruct (do_Release _ _ _) in E. by simplify_eq. }
  destruct (lease_valid c2 cl1) eqn:Hv1; [simplify_eq; split; [done |]; intros l [= Hl]; by eapply valid_current |].
  set (cl2 := set_record rec (set_lease None cl1)) in E. destruct (OwnedBy _ _); cbn [negb] in E.
  2: { injection E as <- <-. split; [|done]. by apply map_Forall_insert_2. }
  set (cl3 := set_lease _ cl2) in E. set (c3 := put_cl cl3 c2) in E.
  pose proof (setState_cclaims genv StateActive ReasonAcquired c3) as Hcc.
  assert (named_claims c3 /\ cclaims c3 !! name = Some cl3) as [Hn3 Hc3].
  { split; [by apply map_Forall_insert_2 |]. rewrite <- Hn1. apply (lookup_insert_eq (cclaims c2) (cl_name cl3)). }
  destruct (setState genv StateActive ReasonAcquired c3) as [c4 e4]. cbn [fst] in Hcc. injection E as <- <-. split.
  - unfold startRenewal. destruct (renewing cl3); unfold named_claims; simpl; rewrite Hcc; [exact Hn3 |].
    by apply map_Forall_insert_2.
  - intros l [= <-]. apply startRenewal_current; [simpl; by rewrite Hcc | exact Hn1 | done | done].
Qed.

Lemma wait_loop_current name : forall rounds c c' l,
  named_claims c -> Forall orderly rounds -> wait_loop genv others name rounds c = (c', Some (inl (Some l))) ->
  current c' name l.
Proof.
  induction rounds as [|r rounds IH]; intros c c' l Hnc Hq E; [done |].
  apply Forall_cons_1 in Hq as [[Hm Hbt] Hq]. cbn [wait_loop] in E.
  destruct (tryAcquire genv others name (ro_meanwhile r) c) as [c1 [l1 e1]] eqn:Et.
  destruct (tryAcquire_current _ _ _ _ _ Hnc Hm Et) as [Hn1 Hc1]. destruct e1 as [e|]; [|simplify_eq; by apply Hc1].
  destruct (keep_waiting e); cbn [negb] in E; [|done].
  destruct (cclaims (ro_between r c1) !! name) as [cl|] eqn:Hcl; [|done].
  destruct (lease_valid (ro_between r c1) cl) eqn:Hv; [injection E as <- El; by eapply valid_current |].
  destruct (ro_wake r); try done; (eapply IH; [| exact Hq | exact E]); by apply Hbt.
Qed.

(** The lease names a record of the backend: committed to this generation, with the
    token of the lease. *)
Definition backed (c : Coord (S := S)) (g name : string) (l : Lease) : Prop :=
  exists rec, claim_at (backend c) name = Some rec /\ OwnerGeneration rec = g /\ Phase rec = ClaimOwned /\
    l_token l = FencingTokenOf rec /\ 0 < FencingTokenOf rec /\ l_revoked l = false.

Lemma wait_loop_backed name : forall rounds k c0 c c' l cl,
  progress k c0 c -> well_behaved others (ID (gen c0)) -> ID (gen c0) ≠ "" -> 0 <= opSeq c0 + k ->
  is_u64 (opSeq c0 + k + Z.of_nat (length rounds) + 1) ->
  cclaims c !! name = Some cl -> cl_name cl = name -> lease_valid c cl = false -> Forall quiet rounds ->
  wait_loop genv others name rounds c = (c', Some (inl (Some l))) -> backed c' (ID (gen c0)) name l.
Proof.
  induction rounds as [|r rounds IH]; intros k c0 c c' l cl Hp Hw Hg Hpos Hk Hcl Hn Hlv Hq E; [done |].
  apply Forall_cons_1 in Hq as [[Hm Hbt] Hq]. cbn [wait_loop] in E.
  destruct (tryAcquire genv others name (ro_meanwhile r) c) as [c1 [l1 [e|]]] eqn:Et.
  2: { simplify_eq. pose proof (pr_gen _ _ _ Hp) as Egen. unfold backed. rewrite <- Egen.
       eapply (acquire_lease_backed genv others); [exact (pr_inv _ _ _ Hp) | by rewrite Egen | by rewrite Egen | | exact Hcl | exact Hlv | | exact Et].
       - pose proof (pr_seq _ _ _ Hp). pose proof (ci_seq _ (pr_inv _ _ _ Hp)).
         cbn [length] in Hk. unfold is_u64 in *. lia.
       - rewrite <- Hlv. apply lease_valid_lease; [|done]. by destruct (Hm (set_acquiring true cl)) as [-> _]. }
  destruct (keep_waiting e) eqn:Ekw; cbn [negb] in E; [|done].
  destruct (tryAcquire_again k c0 c name (ro_meanwhile r) c1 l1 e cl) as (Hp1 & Hs1 & cl1 & Hcl1 & Hn1 & Hlv1); try done.
  { cbn [length] in Hk. unfold is_u64 in *. lia. }
  destruct (Hbt _ _ _ Hp1) as (Hp2 & Ec2 & Es2). rewrite Ec2, Hcl1 in E.
  assert (lease_valid (ro_between r c1) cl1 = false) as Hlv2 by (rewrite <- Hlv1; by apply lease_valid_lease).
  rewrite Hlv2 in E. destruct (ro_wake r); try done.
  all: eapply (IH (k + 1) c0 (ro_between r c1)); [exact Hp2 | done | done | lia | | by rewrite Ec2 | exact Hn1 | done | done | exact E];
    cbn [length] in Hk; unfold is_u64 in *; lia.
Qed.

(** ** Running under ownership *)

Lemma run_readiness_spec name readiness c c' e : run_readiness genv name readiness c = (c', e) ->
  (forall k c0, progress k c0 c -> progress k c0 c') /\ cclaims c' = cclaims c /\ sup_down c' = sup_down c /\
  co_closed c' = co_closed c /\ cfg c' = cfg c /\ e = default None readiness.
Proof.
  assert (forall to r (x : Coord (S := S)), sup_down (setState genv to r x).1 = sup_down x /\
     co_closed (setState genv to r x).1 = co_closed x /\ cfg (setState genv to r x).1 = cfg x) as Hsame.
  { intros to r x. unfold setState. case_decide; [done |]. case_match; [done |]. by destruct (do_Update _ _ _). }
  unfold run_readiness. destruct readiness as [err|]; [|by intros [= <- <-]].
  pose proof (setState_cclaims genv StatePreparing ReasonRegistered c) as H1.
  pose proof (fun k c0 => setState_progress genv k StatePreparing ReasonRegistered c0 c) as H2.
  destruct (Hsame StatePreparing ReasonRegistered c) as (H3 & H4 & H5).
  destruct (setState genv StatePreparing ReasonRegistered c) as [c1 e1]. cbn [fst] in *. destruct err as [err|].
  - set (c2 := emit _ _ _ _ _ _). pose proof (setState_cclaims genv StateFailed ReasonReadinessFailed c2) as G1.
    pose proof (fun k c0 => setState_progress genv k StateFailed ReasonReadinessFailed c0 c2) as G2.
    destruct (Hsame StateFailed ReasonReadinessFailed c2) as (G3 & G4 & G5).
    destruct (setState genv StateFailed ReasonReadinessFailed c2) as [c3 e3]. cbn [fst] in *. intros [= <- <-].
    split; [|split_and!; simpl; (congruence || by rewrite ?G1, ?G3, ?G4, ?G5)].
    intros k c0 Hp. eapply progress_local; [apply same_emit |]. apply G2. eapply progress_local; [apply same_emit |]. by apply H2.
  - set (c2 := emit _ _ _ _ _ _). pose proof (setState_cclaims genv StateStandby ReasonReadinessPassed c2) as G1.
    pose proof (fun k c0 => setState_progress genv k StateStandby ReasonReadinessPassed c0 c2) as G2.
    destruct (Hsame StateStandby ReasonReadinessPassed c2) as (G3 & G4 & G5).
    destruct (setState genv StateStandby ReasonReadinessPassed c2) as [c3 e3]. cbn [fst] in *. intros [= <- <-].
    split; [|split_and!; simpl; (congruence || by rewrite ?G1, ?G3, ?G4, ?G5)].
    intros k c0 Hp. apply G2. eapply progress_local; [apply same_emit |]. eapply progress_local; [apply same_emit |]. by apply H2.
Qed.

(** Readiness writes the generation to the backend, not the claims. *)
Lemma run_readiness_claims name readiness c c' e : coord_inv c -> run_readiness genv name readiness c = (c', e) ->
  forall n, claim_at (backend c') n = claim_at (backend c) n.
Proof.
  intros Hi. assert (forall to r (x : Coord (S := S)), coord_inv x -> coord_inv (setState genv to r x).1 /\
    forall n, claim_at (backend (setState genv to r x).1) n = claim_at (backend x) n) as Hset.
  { intros to r x Hx. split; [apply (setState_progress genv 0 to r x x), progress_refl; [done | lia] |].
    apply setState_claim_at, Hx. }
  unfold run_readiness. destruct readiness as [err|]; [|by intros [= <- <-]].
  destruct (Hset StatePreparing ReasonRegistered c Hi) as [Hi1 H1].
  destruct (setState genv StatePreparing ReasonRegistered c) as [c1 e1]. cbn [fst] in *.
  destruct err as [err|]; set (c2 := emit _ _ _ _ _ _); (assert (coord_inv c2) as Hi2 by (by destruct Hi1));
    [destruct (Hset StateFailed ReasonReadinessFailed c2 Hi2) as [_ H2] | destruct (Hset StateStandby ReasonReadinessPassed c2 Hi2) as [_ H2]];
    destruct (setState _ _ _ c2) as [c3 e3]; intros [= <- <-] n; simpl in *; by rewrite H2, <- H1.
Qed.

Lemma Claim_handle_spec name (c c' : Coord (S := S)) : named_claims c -> Claim_handle name c = (c', None) ->
  co_closed c = false /\ same_backend c c' /\ sup_down c' = sup_down c /\ name ≠ "" /\
  exists cl, cclaims c' !! name = Some cl /\ cl_name cl = name /\
    (cclaims c !! name = Some cl \/ (cclaims c !! name = None /\ cl = new_handle name)) /\ named_claims c'.
Proof.
  intros Hn. unfold Claim_handle, checkOpen. case_bool_decide as Hne; [done |]. destruct (co_closed c); [done |].
  destruct (cclaims c !! name) as [cl|] eqn:E.
  - intros [= <-]. split_and!; try done. exists cl. split; [done |]. split; [by apply Hn |]. split; [by left | done].
  - destruct (_ && _); [done |]. intros [= <-]. split_and!; try done. exists (new_handle name).
    split; [simpl; by rewrite lookup_insert_eq |]. split; [done |]. split; [by right | by apply map_Forall_insert_2].
Qed.


(** ** Split brain *)

(** Detection is silent exactly when the token and owner agree; a coordinator that is
    behind loses its lease, and one that is not behind keeps everything. *)
Theorem split_brain_fails_closed now name rec (c c' : Coord (S := S)) r cl :
  named_claims c -> cclaims c !! name = Some cl ->
  DetectSplitBrain now name (inr rec) c = (c', inr r) ->
  (r = None <-> FencingTokenOf (record cl) = FencingTokenOf rec /\ OwnerGeneration (record cl) = OwnerGeneration rec) /\
  (FencingTokenOf (record cl) < FencingTokenOf rec ->
     exists cl', cclaims c' !! name = Some cl' /\ lease cl' = None /\ renewing cl' = false) /\
  (FencingTokenOf rec <= FencingTokenOf (record cl) -> c' = c) /\ backend c' = backend c.
Proof.
  intros Hn Hcl. unfold DetectSplitBrain, Claim_handle. case_bool_decide; [done |]. unfold checkOpen. destruct (co_closed c); [done |].
  rewrite !Hcl. cbn [OFencingToken OOwnerGeneration ToOwnership].
  destruct (bool_decide_reflect (FencingTokenOf (record cl) = FencingTokenOf rec)) as [Et|Et];
    destruct (bool_decide_reflect (OwnerGeneration (record cl) = OwnerGeneration rec)) as [Eo|Eo]; cbn [andb].
  { intros [= <- <-]. split_and!; [by split | lia | done | done]. }
  all: unfold Less; case_bool_decide as Hl; intros [= <- <-];
    (split; [split; [done | by intros [? ?]] |]); (split; [|split; [|try done]]); try (intros; lia || done).
  all: try (unfold revokeLease; by destruct (lease (set_renewing false cl))).
  all: intros _; pose proof (Hn name cl Hcl) as Hname; unfold revokeLease;
    destruct (lease (set_renewing false cl)) eqn:El; simpl; rewrite Hname, lookup_insert_eq; by eexists.
Qed.

(** ** Health *)

(** The report says [unknown] for ownership exactly when there are claims and none is
    owned, and [ok] for the backend exactly when a heartbeat is not older than a lease. *)
Lemma owned_claims_zero (c : Coord (S := S)) :
  owned_claims c = 0%nat <-> forall n cl, cclaims c !! n = Some cl -> OwnedBy (ToOwnership (record cl)) (ID (gen c)) = false.
Proof.
  unfold owned_claims. rewrite length_zero_iff_nil. split.
  - intros H n cl Hcl. apply not_true_is_false. intros Ho.
    assert ((n, cl) ∈ filter (fun kc => OwnedBy (ToOwnership (record kc.2)) (ID (gen c)) = true) (map_to_list (cclaims c))) as Hin.
    { apply list_elem_of_filter. split; [done |]. by apply elem_of_map_to_list. }
    rewrite H in Hin. by apply elem_of_nil in Hin.
  - intros H. destruct (filter _ _) as [|[n cl] l] eqn:E; [done |].
    assert ((n, cl) ∈ (n, cl) :: l) as Hin by left. rewrite <- E in Hin. apply list_elem_of_filter in Hin as [Ho Hin].
    apply elem_of_map_to_list in Hin. simpl in Ho. rewrite (H n cl Hin) in Ho. done.
Qed.

Theorem health_exact now now' (c : Coord (S := S)) :
  let h := Health now now' c in
  (hr_Ownership h = HealthUnknown <-> cclaims c ≠ ∅ /\
     forall n cl, cclaims c !! n = Some cl -> OwnedBy (ToOwnership (record cl)) (ID (gen c)) = false) /\
  (hr_Backend h = HealthOK <-> lastHeartbeat c ≠ 0 /\ now' - lastHeartbeat c <= cfg_LeaseTTL (cfg c)) /\
  (hr_Coordinator h = HealthOK <-> co_closed c = false /\ State (gen c) ≠ StateFailed).
Proof.
  cbn zeta. unfold Health. rewrite <- owned_claims_zero, <- map_size_non_empty_iff. unfold IsZero, time_zero.
  destruct (bool_decide_reflect (lastHeartbeat c = 0)) as [Hz|Hz];
    [|destruct (bool_decide_reflect (cfg_LeaseTTL (cfg c) < now' - lastHeartbeat c)) as [Ht|Ht]];
    cbn [hr_Ownership hr_Backend hr_Coordinator];
    (split; [destruct (bool_decide_reflect (owned_claims c = 0%nat)); destruct (bool_decide_reflect (0 < Z.of_nat (size (cclaims c))));
       simpl; split; (done || lia || (intros [? ?]; lia)) |]);
    (split; [split; (done || lia || (intros [? ?]; lia)) |]);
    destruct (co_closed c), (bool_decide_reflect (State (gen c) = StateFailed)); simpl; split; (done || by intros [? ?]).
Qed.
End Facts.

(** ** Examples *)

Definition calm_round {S} : round (S := S) := mkRound (fun cl => cl) (fun c => c) WakeTimer.

Lemma calm_quiet {S} `{!BackendOps S} `{!BackendLaws S} : quiet (calm_round (S := S)).
Proof. split; [done |]. intros k c0 c Hp. done. Qed.


(** Asking about a claim this process never owned reports a split brain: the handle
    created for the question has token zero, and any owner is ahead of it. *)
Lemma split_brain_false_alarm :
  let rec := mkClaimRecord "jobs" "b" 4 ClaimOwned 5 (10 * Second) "" "" "" "" 6 ReasonAcquired 2 in
  exists c' rep, DetectSplitBrain 7 "jobs" (inr rec) y_start = (c', inr (Some rep)) /\
    sb_ActionTaken rep = "revoked_local_lease" /\ cclaims y_start !! "jobs" = None.
Proof. do 2 eexists. split; [reflexivity |]. split; reflexivity. Qed.
