(* ===== verification/ResourceID.v ===== *)
(** * Resource identity ([resource/id.go], [kind.go], [errors.go], [epoch.go],
    [capabilities.go])

    Resource identifiers and their canonical text, the kind vocabulary with its
    registered extensions, resource epochs, the capability check, and the error
    values of the fabric.  The text of error messages is not modelled: an error
    is its operation, the identifier it names and what it wraps. *)

From S2P Require Import Prelude GoStrings.
From Stdlib Require Import Ascii.

(** ** Data *)

Abbreviation Kind := string (only parsing).

Record ResourceID := mkID {
  id_Kind : Kind; id_Environment : string; id_Service : string; id_Name : string }.

#[global] Instance ResourceID_eq_dec : EqDecision ResourceID.
Proof. solve_decision. Defined.

Definition id_zero : ResourceID := mkID "" "" "" "".

Inductive rsentinel :=
| ErrInvalidID | ErrUnknownKind | ErrDuplicate | ErrNotFound | ErrBoundExceeded | ErrCycle
| ErrCapabilityClaimed | ErrEpochOverflow | ErrEpochDecreased | ErrLockdown | ErrRegistryClosed
| ErrBundleNotReady | ErrDependencyBlocked | ErrPartialAcquire | ErrEvidenceTooLarge
| ErrInvalidArgument
| ErrLeaseHeld | ErrLeaseNotHeld | ErrLeaseMode | ErrFenceRequired | ErrStaleFence.

(** [*Error], a bare sentinel, or the error of a done context. *)
Inductive rerror :=
| RSentinel (s : rsentinel)
| RContext (deadline : bool)
| RError (Op : string) (ID : ResourceID) (Err : rerror).

#[global] Instance rsentinel_eq_dec : EqDecision rsentinel.
Proof. solve_decision. Defined.

#[global] Instance rerror_eq_dec : EqDecision rerror.
Proof. solve_decision. Defined.

(** [errors.Is] against a sentinel, through [Unwrap]. *)
Fixpoint rerror_is (e : rerror) (s : rsentinel) : bool :=
  match e with
  | RSentinel s' => bool_decide (s' = s)
  | RContext _ => false
  | RError _ _ e' => rerror_is e' s
  end.

(** ** Identifiers *)

Definition ID_String (id : ResourceID) : string :=
  id_Kind id +:+ "/" +:+ id_Environment id +:+ "/" +:+ id_Service id +:+ "/" +:+ id_Name id.

Definition ID_IsZero (id : ResourceID) : bool :=
  bool_decide (id_Kind id = "") && bool_decide (id_Environment id = "") &&
  bool_decide (id_Service id = "") && bool_decide (id_Name id = "").

Definition ID_Equal (a b : ResourceID) : bool :=
  bool_decide (id_Kind a = id_Kind b) && bool_decide (id_Environment a = id_Environment b) &&
  bool_decide (id_Service a = id_Service b) && bool_decide (id_Name a = id_Name b).

Inductive segError := EmptySegment | SlashInSegment | SpaceInSegment | ControlInSegment.

Fixpoint check_runes (rs : list Z) : option segError :=
  match rs with
  | [] => None
  | r :: t =>
    if IsSpace r then Some SpaceInSegment
    else if bool_decide (r < 32) || bool_decide (r = 127) then Some ControlInSegment
    else check_runes t
  end.

Definition validateSegment (s : string) : option segError :=
  if bool_decide (s = "") then Some EmptySegment
  else if has_slash s then Some SlashInSegment
  else check_runes (range s).

(** The loop over the four segments: the first error wins. *)
Fixpoint validate_segments (segs : list string) : option segError :=
  match segs with
  | [] => None
  | s :: t => match validateSegment s with Some e => Some e | None => validate_segments t end
  end.

Definition ID_Validate (id : ResourceID) : option rerror :=
  if bool_decide (id_Kind id = "") || bool_decide (id_Environment id = "") ||
     bool_decide (id_Service id = "") || bool_decide (id_Name id = "") then
    Some (RError "ResourceID.Validate" id (RSentinel ErrInvalidID))
  else
    match validate_segments [id_Kind id; id_Environment id; id_Service id; id_Name id] with
    | Some _ => Some (RError "ResourceID.Validate" id (RSentinel ErrInvalidID))
    | None => None
    end.

(** ** Kinds *)

Definition builtinKinds : list Kind :=
  ["database"; "queue"; "stream"; "cache"; "filesystem"; "object-store"; "http-service";
   "grpc-service"; "worker"; "scheduler"; "deployment"; "configuration"; "secret-reference";
   "rate-limit"; "feature"; "custom"].

(** [customKinds] is a package variable: the set of registered kinds is passed
    to every operation that reads it. *)
Definition ValidKind (customKinds : gset string) (k : Kind) : bool :=
  bool_decide (k ∈ builtinKinds) || bool_decide (k ∈ customKinds).

Definition bad_kind_rune (r : Z) : bool :=
  bool_decide (r = 47) || bool_decide (r = 32) || bool_decide (r < 32).

Definition RegisterCustomKind (customKinds : gset string) (k : Kind)
  : gset string * option rerror :=
  let fail s := (customKinds, Some (RError "RegisterCustomKind" id_zero (RSentinel s))) in
  if bool_decide (k = "") || bool_decide (64 < Z.of_nat (String.length k)) then
    fail ErrInvalidArgument
  else if existsb bad_kind_rune (range k) then fail ErrInvalidArgument
  else if bool_decide (k ∈ builtinKinds) then fail ErrDuplicate
  else if bool_decide (k ∈ customKinds) then fail ErrDuplicate
  else ({[k]} ∪ customKinds, None).

Definition KnownKinds (customKinds : gset string) : list Kind :=
  builtinKinds ++ elements customKinds.

Definition ParseResourceID (customKinds : gset string) (s : string) : rerror + ResourceID :=
  match Split_slash (TrimSpace s) with
  | [k; e; sv; n] =>
    let id := mkID k e sv n in
    match ID_Validate id with
    | Some err => inl err
    | None =>
      if negb (ValidKind customKinds (id_Kind id)) then
        inl (RError "ParseResourceID" id (RSentinel ErrUnknownKind))
      else inr id
    end
  | _ => inl (RError "ParseResourceID" id_zero (RSentinel ErrInvalidID))
  end.

(** ** Epochs *)

Definition MaxResourceEpoch : Z := u64 (u64_modulus - 1 - 1).

Definition Epoch_Next (e : Z) : Z * option rerror :=
  if bool_decide (MaxResourceEpoch <= e) then
    (e, Some (RError "ResourceEpoch.Next" id_zero (RSentinel ErrEpochOverflow)))
  else (u64 (e + 1), None).

Record EpochAdvance := mkAdvance { adv_From : Z; adv_To : Z; adv_Reason : string }.

Definition advance_zero : EpochAdvance := mkAdvance 0 0 "".

Definition AdvanceEpoch (e : Z) (reason : string) : Z * EpochAdvance * option rerror :=
  if bool_decide (reason = "") then
    (e, advance_zero, Some (RError "AdvanceEpoch" id_zero (RSentinel ErrInvalidArgument)))
  else
    match Epoch_Next e with
    | (_, Some err) => (e, advance_zero, Some err)
    | (next, None) => (next, mkAdvance e next reason, None)
    end.

Definition EnsureNotDecreased (current proposed : Z) : option rerror :=
  if bool_decide (proposed < current) then
    Some (RError "EnsureNotDecreased" id_zero (RSentinel ErrEpochDecreased))
  else None.

(** ** Capabilities *)

Record ResourceCapabilities := mkRCaps {
  SupportsOwnership : bool; SupportsFencing : bool; SupportsDrain : bool; SupportsHealth : bool;
  SupportsFailover : bool; SupportsTransactions : bool; SupportsSnapshots : bool;
  SupportsRecovery : bool; SupportsRateLimit : bool }.

(** The flags in the order [Require] checks them. *)
Definition cap_flags (c : ResourceCapabilities) : list bool :=
  [SupportsOwnership c; SupportsFencing c; SupportsDrain c; SupportsHealth c; SupportsFailover c;
   SupportsTransactions c; SupportsSnapshots c; SupportsRecovery c; SupportsRateLimit c].

Fixpoint check_flags (need have : list bool) : option rerror :=
  match need, have with
  | n :: ns, h :: hs =>
    if n && negb h then
      Some (RError "Capabilities.Require" id_zero (RSentinel ErrCapabilityClaimed))
    else check_flags ns hs
  | _, _ => None
  end.

Definition Require (c required : ResourceCapabilities) : option rerror :=
  check_flags (cap_flags required) (cap_flags c).

(** ** Splitting and joining *)

Lemma bytes_append a b :
  String.list_ascii_of_string (a +:+ b) =
  String.list_ascii_of_string a ++ String.list_ascii_of_string b.
Proof. induction a as [|c a IH]; simpl; [done | by rewrite IH]. Qed.

Lemma Split_nonempty s : exists h r, Split_slash s = h :: r.
Proof.
  destruct s as [|c s]; simpl; [eauto |]. case_bool_decide; [eauto |].
  destruct (Split_slash s); eauto.
Qed.

Lemma Split_segment a r : has_slash a = false -> Split_slash (a +:+ "/" +:+ r) = a :: Split_slash r.
Proof.
  induction a as [|c a IH]; simpl; intros H.
  - done.
  - apply orb_false_iff in H as [Hc Ha]. rewrite Hc. simpl in IH. by rewrite IH.
Qed.

Lemma Split_last a : has_slash a = false -> Split_slash a = [a].
Proof.
  induction a as [|c a IH]; simpl; intros H; [done |].
  apply orb_false_iff in H as [Hc Ha]. by rewrite Hc, IH.
Qed.

(** [Split] loses nothing: joining the parts gives the text back. *)
Fixpoint join_slash (l : list string) : string :=
  match l with
  | [] => ""
  | [s] => s
  | s :: t => s +:+ "/" +:+ join_slash t
  end.

Lemma join_Split s : join_slash (Split_slash s) = s.
Proof.
  induction s as [|c s IH]; simpl; [done |].
  case_bool_decide as Hc.
  - subst c. destruct (Split_nonempty s) as (h & r & E). rewrite E in *. simpl in *. by rewrite IH.
  - destruct (Split_nonempty s) as (h & r & E). rewrite E in *.
    destruct r as [|h' r]; [simpl in *; by rewrite IH |].
    change (String c (join_slash (h :: h' :: r)) = String c s). by rewrite IH.
Qed.

(** ** Valid identifiers *)

Lemma check_runes_no_space rs :
  check_runes rs = None -> Forall (fun r => IsSpace r = false) rs.
Proof.
  induction rs as [|r rs IH]; simpl; [constructor |].
  destruct (IsSpace r) eqn:Hs; [done |]. case_match; [done |]. intros ?. constructor; auto.
Qed.

Lemma validateSegment_None s :
  validateSegment s = None ->
  s ≠ "" /\ has_slash s = false /\ no_space (String.list_ascii_of_string s).
Proof.
  unfold validateSegment. case_bool_decide; [done |].
  destruct (has_slash s); [done |]. intros H1. by apply check_runes_no_space in H1.
Qed.

Lemma ID_Validate_None id :
  ID_Validate id = None <->
  validateSegment (id_Kind id) = None /\ validateSegment (id_Environment id) = None /\
  validateSegment (id_Service id) = None /\ validateSegment (id_Name id) = None.
Proof.
  unfold ID_Validate. split.
  - destruct (_ || _); [done |]. cbn [validate_segments]. repeat case_match; naive_solver.
  - intros (H1 & H2 & H3 & H4). cbn [validate_segments]. rewrite H1, H2, H3, H4.
    apply validateSegment_None in H1 as [H1 _], H2 as [H2 _], H3 as [H3 _], H4 as [H4 _].
    by rewrite !bool_decide_eq_false_2 by done.
Qed.

Lemma runes_slash t : runes (slash :: t) = 47 :: runes t.
Proof. by rewrite runes_step. Qed.

Lemma no_space_join a t :
  no_space a -> no_space t -> no_space (a ++ slash :: t).
Proof.
  unfold no_space. intros Ha Ht. rewrite runes_app, Forall_app, runes_slash.
  - split; [done |]. by constructor.
  - by intros ? ? [= <- _].
Qed.

Lemma ID_String_no_space id :
  ID_Validate id = None -> no_space (String.list_ascii_of_string (ID_String id)).
Proof.
  intros (H1 & H2 & H3 & H4)%ID_Validate_None.
  apply validateSegment_None in H1 as (_ & _ & H1), H2 as (_ & _ & H2), H3 as (_ & _ & H3),
    H4 as (_ & _ & H4).
  unfold ID_String. rewrite !bytes_append. simpl app. by repeat apply no_space_join.
Qed.

Lemma Split_ID_String id :
  ID_Validate id = None ->
  Split_slash (ID_String id) = [id_Kind id; id_Environment id; id_Service id; id_Name id].
Proof.
  intros (H1 & H2 & H3 & H4)%ID_Validate_None.
  apply validateSegment_None in H1 as (_ & H1 & _), H2 as (_ & H2 & _), H3 as (_ & H3 & _),
    H4 as (_ & H4 & _).
  unfold ID_String. by rewrite !Split_segment, Split_last by done.
Qed.

(** A valid identifier of a known kind is read back from its text. *)
Lemma Parse_String customs id :
  ID_Validate id = None -> ValidKind customs (id_Kind id) = true ->
  ParseResourceID customs (ID_String id) = inr id.
Proof.
  intros Hv Hk. unfold ParseResourceID.
  rewrite TrimSpace_id by by apply ID_String_no_space. rewrite Split_ID_String by done.
  destruct id as [k e s n]. simpl in *. by rewrite Hv, Hk.
Qed.

Lemma ID_String_inj id1 id2 :
  ID_Validate id1 = None -> ID_Validate id2 = None ->
  ID_String id1 = ID_String id2 -> id1 = id2.
Proof.
  intros H1 H2 E. pose proof (Split_ID_String _ H1) as S1. pose proof (Split_ID_String _ H2) as S2.
  rewrite E, S2 in S1. destruct id1, id2. simpl in *. congruence.
Qed.

(** Identifiers and their text agree.  A valid identifier of a known kind
    survives printing and parsing; what parsing accepts is valid, of a known kind,
    and prints as the trimmed input; and two valid identifiers with the same
    text, the key of every map of the fabric, are equal.  Text is any byte
    sequence, valid UTF-8 or not. *)
Theorem resource_id_roundtrip customs :
  (forall id, ID_Validate id = None -> ValidKind customs (id_Kind id) = true ->
     ParseResourceID customs (ID_String id) = inr id) /\
  (forall s id, ParseResourceID customs s = inr id ->
     ID_String id = TrimSpace s /\ ID_Validate id = None /\
     ValidKind customs (id_Kind id) = true) /\
  (forall id1 id2, ID_Validate id1 = None -> ID_Validate id2 = None ->
     ID_String id1 = ID_String id2 -> id1 = id2).
Proof.
  split; [apply Parse_String |]. split; [|apply ID_String_inj].
  intros s id. unfold ParseResourceID. pose proof (join_Split (TrimSpace s)) as J.
  destruct (Split_slash (TrimSpace s)) as [|k [|e [|sv [|n [|? ?]]]]]; try done.
  destruct (ID_Validate _) eqn:Hv; [done |].
  destruct (ValidKind _ _) eqn:Hk; simpl; [|done]. by intros [= <-].
Qed.

(** Epochs only grow, by one, and stop before they would wrap. *)
Lemma AdvanceEpoch_grows e reason e' adv :
  0 <= e <= MaxResourceEpoch -> AdvanceEpoch e reason = (e', adv, None) ->
  e' = e + 1 /\ e' <= MaxResourceEpoch /\ adv = mkAdvance e e' reason.
Proof.
  unfold AdvanceEpoch, Epoch_Next. intros He H.
  destruct (bool_decide_reflect (reason = "")); [done |].
  destruct (bool_decide_reflect (MaxResourceEpoch <= e)); [done |].
  assert (MaxResourceEpoch = 2 ^ 64 - 2) as Hm by reflexivity.
  simplify_eq. rewrite u64_small; [|unfold is_u64, u64_modulus; lia].
  split; [done |]. split; [lia | done].
Qed.

Lemma resource_id_roundtrip_witness :
  ParseResourceID ∅ " database/production/payments-api/orders " =
    inr (mkID "database" "production" "payments-api" "orders") /\
  ID_Validate (mkID "database" "production" "payments-api" "orders") = None.
Proof.
  assert (ParseResourceID ∅ " database/production/payments-api/orders " =
    inr (mkID "database" "production" "payments-api" "orders")) as E by (vm_compute; reflexivity).
  split; [exact E |].
  destruct (resource_id_roundtrip ∅) as (_ & H & _). exact (proj1 (proj2 (H _ _ E))).
Defined.
