(* ===== verification/Dependency.v ===== *)
(** * The dependency graph ([resource/dependency.go])

    Directed edges [from -> to], "from depends on to".  [Define] refuses an edge
    that closes a cycle; [StartupOrder] is Kahn's algorithm with lexicographic
    tie breaking.  The algorithm's loop is bounded by the number of nodes, each of
    which enters the ready list once: [kahn_spec] shows the bound is never hit.
    Go ranges over maps in any order; every list the source builds that way is
    sorted before use, and [sort_perm] shows the order of enumeration is lost. *)

From S2P Require Import Prelude GoStrings ResourceID.
From stdpp Require Import sorting.

#[local] Open Scope Z_scope.

(** ** The graph *)

Abbreviation graph := (gmap string (gset string)) (only parsing).

Definition deps_of (g : graph) (from : string) : gset string := default ∅ (g !! from).

Definition edge (g : graph) (from to : string) : Prop := to ∈ deps_of g from.

Definition NewDependencyGraph : graph := ∅.

Definition DependenciesOf (g : graph) (from : string) : list string :=
  sort_strings (elements (deps_of g from)).

(** Every node named by [known] or by an edge. *)
Definition nodes (g : graph) (known : list string) : gset string :=
  list_to_set known ∪ dom g ∪ ⋃ (map_to_list g).*2.

Definition indegrees (g : graph) (ns : gset string) : gmap string Z :=
  set_to_map (fun n => (n, Z.of_nat (size (deps_of g n)))) ns.

Definition indeg_of (indeg : gmap string Z) (n : string) : Z := default 0 (indeg !! n).

Definition dependents (g : graph) (n : string) : list string :=
  sort_strings (elements (dom (filter (fun p => n ∈ p.2) g))).

(** [indeg[from]--], and [from] becomes ready at zero. *)
Fixpoint relax (froms : list string) (indeg : gmap string Z) (ready : list string)
  : gmap string Z * list string :=
  match froms with
  | [] => (indeg, ready)
  | from :: t =>
    let d := indeg_of indeg from - 1 in
    relax t (<[from := d]> indeg) (if bool_decide (d = 0) then ready ++ [from] else ready)
  end.

(** The loop of [StartupOrder]; [None] when the bound on its rounds is hit. *)
Fixpoint kahn (fuel : nat) (g : graph) (ready : list string) (indeg : gmap string Z)
  (order : list string) : option (list string) :=
  match ready with
  | [] => Some order
  | n :: rest =>
    match fuel with
    | O => None
    | S k =>
      let '(indeg, ready) := relax (dependents g n) indeg rest in
      kahn k g (sort_strings ready) indeg (order ++ [n])
    end
  end.

Definition ready0 (g : graph) (known : list string) : list string :=
  let ns := nodes g known in
  sort_strings (filter (fun n => indeg_of (indegrees g ns) n = 0) (elements ns)).

Definition StartupOrder (g : graph) (known : list string) : option (rerror + list string) :=
  let ns := nodes g known in
  order ← kahn (size ns) g (ready0 g known) (indegrees g ns) [];
  Some (if bool_decide (length order = size ns) then inr order
        else inl (RError "StartupOrder" id_zero (RSentinel ErrCycle))).

(** [hasCycle]: the nodes it collects are those of the edges. *)
Definition hasCycle (g : graph) : bool :=
  match StartupOrder g (elements (nodes g [])) with
  | Some (inr _) => false
  | _ => true
  end.

(** [delete(g.edges[from], to)], dropping an empty set. *)
Definition remove_edge (g : graph) (from to : string) : graph :=
  let tos := deps_of g from ∖ {[to]} in
  if bool_decide (tos = ∅) then delete from g else <[from := tos]> g.

Definition Define (g : graph) (from to : string) : graph * option rerror :=
  let fail s := Some (RError "DefineDependency" id_zero (RSentinel s)) in
  if bool_decide (from = "") || bool_decide (to = "") then (g, fail ErrInvalidArgument)
  else if bool_decide (from = to) then (g, fail ErrCycle)
  else
    let g' := <[from := {[to]} ∪ deps_of g from]> g in
    if hasCycle g' then (remove_edge g' from to, fail ErrCycle)
    else (g', None).

Definition removeNode (g : graph) (key : string) : graph :=
  filter (fun p => p.2 ≠ ∅) ((fun tos => tos ∖ {[key]}) <$> delete key g).

(** ** Cycles *)

Definition acyclic (g : graph) : Prop := forall n, ~ tc (edge g) n n.

Lemma edge_empty a b : ~ edge NewDependencyGraph a b.
Proof.
  unfold edge, deps_of, NewDependencyGraph. rewrite lookup_empty. apply not_elem_of_empty.
Qed.

(** A nonempty finite set in which every node has a successor has a cycle:
    induction on the set, bypassing the node that is taken out. *)
Lemma finite_cycle {A} `{Countable A} (X : gset A) :
  forall (R : A -> A -> Prop), X ≢ ∅ -> (forall x, x ∈ X -> exists y, y ∈ X /\ R x y) ->
  exists x, tc R x x.
Proof.
  induction X as [|x X Hx IH] using set_ind_L; intros R Hne Hs; [done |].
  assert (forall y, y ∈ X -> y ∈ {[x]} ∪ X) as HX by (intros y; rewrite elem_of_union; auto).
  assert (x ∈ {[x]} ∪ X) as HxX by (rewrite elem_of_union, elem_of_singleton; auto).
  assert (forall y, y ∈ {[x]} ∪ X -> y ≠ x -> y ∈ X) as HnX
    by (intros y; rewrite elem_of_union, elem_of_singleton; intuition).
  destruct (Hs x HxX) as (w & Hw & Rxw).
  destruct (decide (w = x)) as [->|Hwx]; [exists x; by apply tc_once |].
  destruct (IH (fun y z => R y z \/ (R y x /\ R x z))) as (z & Hz).
  - intros E. specialize (HnX w Hw Hwx). rewrite E in HnX. by apply elem_of_empty in HnX.
  - intros y Hy. destruct (Hs y (HX y Hy)) as (z & Hz & Ryz).
    destruct (decide (z = x)) as [->|]; [exists w | exists z]; auto.
  - exists z. revert Hz. generalize z at 1 3. intros a. revert a z.
    induction 1 as [a b Hab|a b c Hab _ IH']; destruct Hab as [?|[? ?]];
      eauto using tc_once, tc_l.
Qed.

(** Each node comes after everything it depends on. *)
Definition topological (g : graph) (order : list string) : Prop :=
  forall k n, order !! k = Some n -> deps_of g n ⊆ list_to_set (take k order).

Lemma topological_snoc g order n :
  topological g order -> deps_of g n ⊆ list_to_set order -> topological g (order ++ [n]).
Proof.
  intros Ht Hn k m [Hk|[Hk Hm]]%lookup_app_Some.
  - rewrite take_app_le by (apply lookup_lt_Some in Hk; lia). by apply Ht.
  - destruct (k - length order)%nat eqn:E; simplify_eq/=.
    by rewrite take_app_le, take_ge by lia.
Qed.

Lemma topological_closed g order n :
  topological g order -> n ∈ order -> deps_of g n ⊆ list_to_set order.
Proof.
  intros Ht [k Hk]%list_elem_of_lookup_1. specialize (Ht k n Hk).
  intros d Hd%Ht%elem_of_list_to_set. apply elem_of_list_to_set.
  by eapply subseteq_take.
Qed.

(** ** Nodes *)

Lemma nodes_edge g known a b : edge g a b -> a ∈ nodes g known /\ b ∈ nodes g known.
Proof.
  unfold edge, deps_of, nodes. intros H. destruct (g !! a) as [X|] eqn:E; [|set_solver].
  simpl in H. split.
  - apply elem_of_union_l, elem_of_union_r, elem_of_dom. eauto.
  - apply elem_of_union_r, elem_of_union_list. exists X. split; [|done].
    apply list_elem_of_fmap. exists (a, X). split; [done |]. by apply elem_of_map_to_list.
Qed.

Lemma elem_of_dependents g n m : m ∈ dependents g n <-> n ∈ deps_of g m.
Proof.
  unfold dependents, deps_of. rewrite elem_of_sort, elem_of_elements, elem_of_dom. split.
  - intros [X [HX Hn]%map_lookup_filter_Some]. by rewrite HX.
  - destruct (g !! m) as [X|] eqn:E; [|set_solver]. intros Hn. exists X.
    by apply map_lookup_filter_Some.
Qed.

Lemma NoDup_dependents g n : NoDup (dependents g n).
Proof. apply NoDup_sort, NoDup_elements. Qed.

Lemma indegrees_lookup g ns n :
  n ∈ ns -> indegrees g ns !! n = Some (Z.of_nat (size (deps_of g n))).
Proof.
  intros Hn. unfold indegrees. apply lookup_set_to_map; [|by exists n].
  intros y y' _ _ E. simpl in E. by subst.
Qed.

(** ** The loop *)

Lemma relax_spec froms : forall indeg ready indeg' ready',
  NoDup froms -> relax froms indeg ready = (indeg', ready') ->
  (forall n, indeg' !! n = if decide (n ∈ froms) then Some (indeg_of indeg n - 1)
                           else indeg !! n) /\
  (forall n, n ∈ ready' <-> n ∈ ready \/ (n ∈ froms /\ indeg_of indeg n = 1)) /\
  (NoDup ready -> (forall n, n ∈ froms -> n ∉ ready) -> NoDup ready').
Proof.
  induction froms as [|from t IH]; intros indeg ready indeg' ready' Hnd E; simpl in E.
  { simplify_eq. split; [done |]. split; [|done]. intros n. set_solver. }
  apply NoDup_cons in Hnd as [Hf Hnd].
  destruct (IH _ _ _ _ Hnd E) as (I1 & I2 & I3). clear IH E.
  assert (forall n, n ≠ from -> indeg_of (<[from:=indeg_of indeg from - 1]> indeg) n = indeg_of indeg n)
    as Ho by (intros n Hn; unfold indeg_of; by rewrite lookup_insert_ne).
  split; [|split].
  - intros n. rewrite I1. destruct (decide (n = from)) as [->|Hn].
    + rewrite decide_False, decide_True by (done || by apply elem_of_cons; left).
      by rewrite lookup_insert_eq.
    + rewrite (Ho n Hn), lookup_insert_ne by done.
      destruct (decide (n ∈ t)); [rewrite decide_True | rewrite decide_False]; set_solver.
  - intros n. rewrite I2, elem_of_cons. destruct (decide (n = from)) as [->|Hn].
    + case_bool_decide; rewrite ?elem_of_app, ?list_elem_of_singleton; intuition lia.
    + rewrite (Ho n Hn).
      case_bool_decide; rewrite ?elem_of_app, ?list_elem_of_singleton; intuition.
  - intros Hr Hd. apply I3.
    + case_bool_decide; [|done]. apply NoDup_app. split; [done |].
      split; [|apply NoDup_singleton]. intros n Hn ->%list_elem_of_singleton.
      by apply (Hd from); [left|].
    + intros n Hn. case_bool_decide; rewrite ?elem_of_app, ?list_elem_of_singleton;
        [intros [?| ->]; [|done] | intros ?]; by apply (Hd n); [right|].
Qed.

(** What the loop keeps: [order] is topological, the counters count the unmet
    dependencies, and [ready] is the nodes left that have none. *)
Record kahn_inv (g : graph) (ns : gset string) (ready : list string) (indeg : gmap string Z)
  (order : list string) : Prop := {
  ki_nodup : NoDup (order ++ ready);
  ki_nodes : forall n, n ∈ order ++ ready -> n ∈ ns;
  ki_indeg : forall n, n ∈ ns ->
    indeg_of indeg n = Z.of_nat (size (deps_of g n ∖ list_to_set order));
  ki_ready : forall n, n ∈ ns ->
    (n ∈ ready) <-> n ∉ order /\ deps_of g n ⊆ list_to_set order;
  ki_topo : topological g order }.

Lemma size_zero_subseteq (X Y : gset string) : Z.of_nat (size (X ∖ Y)) = 0 <-> X ⊆ Y.
Proof.
  split.
  - intros H. assert (size (X ∖ Y) = 0%nat) as H0 by lia.
    apply size_empty_inv in H0. set_solver.
  - intros H. assert (X ∖ Y ≡ ∅) as -> by set_solver. by rewrite size_empty.
Qed.

Lemma size_remove_one (X Y : gset string) n :
  n ∈ X -> n ∉ Y -> Z.of_nat (size (X ∖ ({[n]} ∪ Y))) = Z.of_nat (size (X ∖ Y)) - 1.
Proof.
  intros HX HY. assert (X ∖ Y = {[n]} ∪ X ∖ ({[n]} ∪ Y)) as E.
  { apply set_eq. intros x. rewrite elem_of_union, !elem_of_difference, elem_of_union,
      elem_of_singleton. destruct (decide (x = n)); naive_solver. }
  rewrite E. pose proof (size_union {[n]} (X ∖ ({[n]} ∪ Y)) ltac:(set_solver)) as Hs.
  rewrite size_singleton in Hs. lia.
Qed.

Lemma list_to_set_snoc (l : list string) n :
  (list_to_set (l ++ [n]) : gset string) = {[n]} ∪ list_to_set l.
Proof. apply set_eq. intros x. set_solver. Qed.

(** One round, from a state of the invariant with [n] first in the ready list. *)
Section Round.
Context (g : graph) (ns : gset string) (n : string) (rest : list string)
  (indeg : gmap string Z) (order : list string) (indeg' : gmap string Z) (ready' : list string).
Hypothesis Hns : forall a b, edge g a b -> a ∈ ns.
Hypothesis Hinv : kahn_inv g ns (n :: rest) indeg order.
Hypothesis Hrelax : relax (dependents g n) indeg rest = (indeg', ready').

Local Lemma round_head : n ∈ ns /\ n ∉ order /\ n ∉ rest /\ deps_of g n ⊆ list_to_set order.
Proof.
  destruct Hinv as [Knd Kn _ Kr _].
  assert (n ∈ ns) as Hn by (apply Kn, elem_of_app; right; left).
  apply NoDup_app in Knd as (_ & _ & [? _]%NoDup_cons).
  destruct (proj1 (Kr n Hn) ltac:(left)). auto.
Qed.

Local Lemma round_dependents m : m ∈ dependents g n -> m ∈ ns /\ m ∉ order /\ m ≠ n.
Proof.
  destruct round_head as (_ & Hno & _ & Hnd). destruct Hinv as [_ _ _ _ Kt].
  intros Hm%elem_of_dependents. split; [by eapply Hns |]. split.
  - intros Ho. apply (topological_closed _ _ _ Kt Ho), elem_of_list_to_set in Hm. done.
  - intros ->. apply Hnd, elem_of_list_to_set in Hm. done.
Qed.

Local Lemma round_indeg m :
  m ∈ ns -> indeg_of indeg' m = Z.of_nat (size (deps_of g m ∖ list_to_set (order ++ [n]))).
Proof.
  destruct round_head as (_ & Hno & _ & _). destruct Hinv as [_ _ Ki _ _].
  destruct (relax_spec _ _ _ _ _ (NoDup_dependents g n) Hrelax) as (R1 & _ & _).
  intros Hm. rewrite list_to_set_snoc. unfold indeg_of at 1. rewrite R1.
  destruct (decide (m ∈ dependents g n)) as [Hd|Hd].
  - simpl. rewrite (Ki m Hm). apply elem_of_dependents in Hd.
    rewrite size_remove_one; [done | done |]. by rewrite elem_of_list_to_set.
  - change (indeg_of indeg m = Z.of_nat (size (deps_of g m ∖ ({[n]} ∪ list_to_set order)))).
    rewrite (Ki m Hm). do 2 f_equal. rewrite elem_of_dependents in Hd. set_solver.
Qed.

Local Lemma round_ready m :
  m ∈ ready' <-> m ∈ rest \/
    (m ∈ dependents g n /\ deps_of g m ⊆ list_to_set (order ++ [n])).
Proof.
  destruct (relax_spec _ _ _ _ _ (NoDup_dependents g n) Hrelax) as (R1 & R2 & _).
  rewrite R2. apply or_iff_compat_l.
  split; intros [Hd Hx]; (split; [done |]); destruct (round_dependents m Hd) as (Hm & _ & _);
    pose proof (round_indeg m Hm) as Hc; unfold indeg_of in Hc at 1;
    rewrite R1, decide_True in Hc by done; simpl in Hc;
    [apply size_zero_subseteq | apply size_zero_subseteq in Hx]; lia.
Qed.

Local Lemma round_nodup : NoDup ((order ++ [n]) ++ ready').
Proof.
  destruct round_head as (_ & Hno & Hnr & _). destruct Hinv as [Knd _ _ Kr _].
  apply NoDup_app in Knd as (Nd1 & Nd2 & [_ Nd4]%NoDup_cons).
  destruct (relax_spec _ _ _ _ _ (NoDup_dependents g n) Hrelax) as (_ & _ & R3).
  rewrite <- app_assoc. simpl. apply NoDup_app. split; [done |]. split.
  - intros m Hm [->|[Hr|[Hd _]]%round_ready]%elem_of_cons; [done | |].
    + by apply (Nd2 m Hm); right.
    + by destruct (round_dependents m Hd) as (_ & ? & _).
  - apply NoDup_cons. split.
    + intros [?|[Hd _]]%round_ready; [done |]. by destruct (round_dependents n Hd) as (_ & _ & ?).
    + apply R3; [done |]. intros m Hm Hr. destruct (round_dependents m Hm) as (Hmn & _ & _).
      destruct (proj1 (Kr m Hmn) ltac:(by right)) as [_ Hs].
      apply elem_of_dependents in Hm. apply Hs, elem_of_list_to_set in Hm. done.
Qed.

Local Lemma round_exact m :
  m ∈ ns -> (m ∈ ready') <-> m ∉ order ++ [n] /\ deps_of g m ⊆ list_to_set (order ++ [n]).
Proof.
  destruct round_head as (_ & Hno & Hnr & _). destruct Hinv as [_ _ _ Kr _]. intros Hm.
  rewrite round_ready, elem_of_app, list_elem_of_singleton. split.
  - intros [Hr|[Hd Hs]].
    + destruct (proj1 (Kr m Hm) ltac:(by right)) as [Hmo Hmd].
      split; [intros [?| ->]; done |]. rewrite list_to_set_snoc. set_solver.
    + destruct (round_dependents m Hd) as (_ & ? & ?). split; [|done]. by intros [?| ->].
  - intros [Hmo Hmd]. destruct (decide (n ∈ deps_of g m)) as [Hd|Hd].
    + right. by rewrite elem_of_dependents.
    + left. assert (m ∈ n :: rest) as Hr.
      { apply (Kr m Hm). split; [tauto |]. rewrite list_to_set_snoc in Hmd. set_solver. }
      apply elem_of_cons in Hr as [->|?]; tauto.
Qed.

Lemma kahn_step : kahn_inv g ns (sort_strings ready') indeg' (order ++ [n]).
Proof.
  destruct round_head as (Hn & _ & _ & Hnd). pose proof (ki_nodes _ _ _ _ _ Hinv) as Kn.
  split.
  - rewrite sort_perm_self. exact round_nodup.
  - intros m. rewrite sort_perm_self, !elem_of_app, list_elem_of_singleton, round_ready.
    intros [[?| ->]|[?|[Hd _]]]; [apply Kn, elem_of_app; by left | done | |].
    + apply Kn, elem_of_app. right. by right.
    + by destruct (round_dependents m Hd).
  - exact round_indeg.
  - intros m Hm. rewrite elem_of_sort. by apply round_exact.
  - by apply topological_snoc; [apply (ki_topo _ _ _ _ _ Hinv) |].
Qed.
End Round.

Lemma kahn_inv_length g ns ready indeg order :
  kahn_inv g ns ready indeg order -> (length order + length ready <= size ns)%nat.
Proof.
  intros [Knd Kn _ _ _]. rewrite <- length_app, <- (size_list_to_set (C := gset string)) by done.
  apply subseteq_size. intros n. rewrite elem_of_list_to_set. apply Kn.
Qed.

(** The loop ends within its bound, with no node ready. *)
Lemma kahn_spec g ns :
  (forall a b, edge g a b -> a ∈ ns) ->
  forall fuel ready indeg order,
  kahn_inv g ns ready indeg order -> (size ns <= fuel + length order)%nat ->
  exists order' indeg', kahn fuel g ready indeg order = Some order' /\
    kahn_inv g ns [] indeg' order'.
Proof.
  intros Hns fuel. induction fuel as [|k IH]; intros ready indeg order Hi Hf;
    destruct ready as [|n rest]; simpl; eauto.
  - apply kahn_inv_length in Hi. simpl in Hi. lia.
  - destruct (relax _ _ _) as [indeg' ready'] eqn:E.
    apply IH; [by eapply kahn_step |]. rewrite length_app. simpl. lia.
Qed.

Lemma kahn_inv_init g known :
  kahn_inv g (nodes g known) (ready0 g known) (indegrees g (nodes g known)) [].
Proof.
  set (ns := nodes g known). unfold ready0. fold ns.
  assert (forall n, n ∈ ns -> indeg_of (indegrees g ns) n =
      Z.of_nat (size (deps_of g n ∖ list_to_set []))) as Hi.
  { intros n Hn. unfold indeg_of. rewrite indegrees_lookup by done. simpl. do 2 f_equal.
    set_solver. }
  split; simpl.
  - apply NoDup_sort, NoDup_filter, NoDup_elements.
  - intros n. rewrite elem_of_sort, list_elem_of_filter, elem_of_elements. tauto.
  - exact Hi.
  - intros n Hn. rewrite elem_of_sort, list_elem_of_filter, elem_of_elements, (Hi n Hn),
      size_zero_subseteq. set_solver.
  - intros k n Hk. by rewrite lookup_nil in Hk.
Qed.

(** A topological order of every node excludes cycles. *)
Lemma topological_acyclic g order :
  NoDup order -> topological g order ->
  (forall a b, edge g a b -> a ∈ order) -> acyclic g.
Proof.
  intros Hnd Ht Hin.
  assert (forall a b, tc (edge g) a b -> exists i j, order !! i = Some a /\ order !! j = Some b /\
    (j < i)%nat) as Hlt.
  { induction 1 as [a b E|a b c E _ (j & k & Hj & Hk & Hkj)].
    - destruct (list_elem_of_lookup_1 _ _ (Hin a b E)) as [i Hi]. pose proof (Ht _ _ Hi b E) as Hb.
      apply elem_of_list_to_set, elem_of_take in Hb as (j & Hj & ?). eauto.
    - destruct (list_elem_of_lookup_1 _ _ (Hin a b E)) as [i Hi]. pose proof (Ht _ _ Hi b E) as Hb.
      apply elem_of_list_to_set, elem_of_take in Hb as (j' & Hj' & ?).
      pose proof (NoDup_lookup _ _ _ _ Hnd Hj Hj'). subst j'. exists i, k. repeat split; auto; lia. }
  intros n Hc. destruct (Hlt n n Hc) as (i & j & Hi & Hj & ?).
  pose proof (NoDup_lookup _ _ _ _ Hnd Hi Hj). lia.
Qed.

(** A valid activation order: every node once, dependencies first. *)
Definition startup_ok (g : graph) (known order : list string) : Prop :=
  NoDup order /\ (forall n, n ∈ order <-> n ∈ nodes g known) /\ topological g order.

(** [StartupOrder] returns: a valid order of an acyclic graph, an error
    otherwise. *)
Lemma StartupOrder_spec g known :
  (exists order, StartupOrder g known = Some (inr order) /\ startup_ok g known order /\ acyclic g) \/
  (StartupOrder g known = Some (inl (RError "StartupOrder" id_zero (RSentinel ErrCycle))) /\
   ~ acyclic g).
Proof.
  pose proof (fun a b H => proj1 (nodes_edge g known a b H)) as Hns.
  destruct (kahn_spec g (nodes g known) Hns (size (nodes g known)) _ _ _ (kahn_inv_init g known))
    as (order & indeg & E & Hi); [simpl; lia |].
  unfold StartupOrder. rewrite E. simpl. destruct Hi as [Knd Kn _ Kr Kt].
  rewrite app_nil_r in Knd, Kn.
  destruct (bool_decide_reflect (length order = size (nodes g known))) as [Hl|Hl].
  - left. exists order. split; [done |].
    assert (list_to_set order = nodes g known) as Hset.
    { apply set_subseteq_size_eq; [intros n; rewrite elem_of_list_to_set; apply Kn |].
      rewrite size_list_to_set by done. lia. }
    assert (forall n, n ∈ order <-> n ∈ nodes g known) as Hin
      by (intros n; rewrite <- Hset; by rewrite elem_of_list_to_set).
    split; [done |]. apply (topological_acyclic g order Knd Kt). intros a b H. by apply Hin, (Hns a b).
  - right. split; [done |]. intros Ha.
    destruct (finite_cycle (nodes g known ∖ list_to_set order) (edge g)) as [n Hc].
    + intros He. apply Hl. rewrite <- (size_list_to_set (C := gset string)) by done.
      apply set_size_proper. intros n. rewrite elem_of_list_to_set. split; [apply Kn |].
      intros Hn. apply dec_stable. intros Hno.
      apply (elem_of_empty (C := gset string) n). rewrite <- He. set_solver.
    + intros n [Hn Hno]%elem_of_difference. rewrite elem_of_list_to_set in Hno.
      destruct (set_choose_or_empty (deps_of g n ∖ list_to_set order)) as [[d Hd]|He].
      * exists d. apply elem_of_difference in Hd as [Hd ?]. split; [|done].
        apply elem_of_difference. split; [|done]. by apply (nodes_edge g known n d).
      * exfalso. assert (n ∈ []) as Hbad; [|by apply elem_of_nil in Hbad].
        apply (Kr n Hn). split; [done | set_solver].
    + by apply (Ha n).
Qed.

Lemma hasCycle_spec g : hasCycle g = false <-> acyclic g.
Proof.
  unfold hasCycle.
  destruct (StartupOrder_spec g (elements (nodes g []))) as [(o & E & _ & H)|[E H]]; rewrite E;
    split; done.
Qed.

(** ** Growing and shrinking the graph *)

(** No source has an empty set of targets. *)
Definition graph_wf (g : graph) : Prop := map_Forall (fun _ tos => tos ≠ ∅) g.

Definition add_edge (g : graph) (from to : string) : graph :=
  <[from := {[to]} ∪ deps_of g from]> g.

Lemma edge_add g from to a b :
  edge (add_edge g from to) a b <-> edge g a b \/ (a = from /\ b = to).
Proof.
  unfold edge, add_edge, deps_of. destruct (decide (a = from)) as [->|Hn].
  - rewrite lookup_insert_eq. simpl. rewrite elem_of_union, elem_of_singleton. naive_solver.
  - rewrite lookup_insert_ne by done. naive_solver.
Qed.

Lemma edge_remove_node g key a b :
  edge (removeNode g key) a b <-> edge g a b /\ a ≠ key /\ b ≠ key.
Proof.
  unfold edge, removeNode, deps_of. destruct (decide (a = key)) as [->|Hn].
  - rewrite map_lookup_filter, lookup_fmap, lookup_delete_eq. set_solver.
  - rewrite map_lookup_filter, lookup_fmap, lookup_delete_ne by done.
    destruct (g !! a) as [X|]; simpl; [|set_solver].
    destruct (decide (X ∖ {[key]} = ∅)) as [HX|HX].
    2: { rewrite option_guard_True by done. simpl. set_solver. }
    rewrite option_guard_False by (by intros []). simpl.
    split; [set_solver |]. intros (H1 & _ & H2).
    assert (b ∈ X ∖ {[key]}) as Hb by set_solver. rewrite HX in Hb. set_solver.
Qed.

Lemma acyclic_mono g g' : (forall a b, edge g' a b -> edge g a b) -> acyclic g -> acyclic g'.
Proof. intros Hs Ha n Hc. apply (Ha n). by apply (tc_congruence id (edge g)) in Hc. Qed.

(** An edge closes a cycle exactly when its target already leads back. *)
Lemma acyclic_add g from to :
  acyclic g -> acyclic (add_edge g from to) <-> ~ rtc (edge g) to from.
Proof.
  intros Ha. split.
  - intros Hg Hp. apply (Hg from). apply tc_rtc_r with to.
    + apply tc_once, edge_add. auto.
    + apply (rtc_congruence id (edge (add_edge g from to))) in Hp; [done |].
      intros a b ?. apply edge_add. auto.
  - intros Hp n Hc.
    assert (forall a b, tc (edge (add_edge g from to)) a b ->
      tc (edge g) a b \/ (rtc (edge g) a from /\ rtc (edge g) to b)) as Hd.
    { induction 1 as [a b [E|[-> ->]]%edge_add|a b c [E|[-> ->]]%edge_add _ [IH|[IH1 IH2]]].
      - left. by apply tc_once.
      - right. split; reflexivity.
      - left. by eapply tc_l.
      - right. split; [by eapply rtc_l | done].
      - right. split; [reflexivity | by apply tc_rtc].
      - right. split; [reflexivity | done]. }
    destruct (Hd n n Hc) as [?|[H1 H2]]; [by apply (Ha n) |]. apply Hp. by etrans.
Qed.

Lemma add_remove_edge g from to :
  graph_wf g -> to ∉ deps_of g from -> remove_edge (add_edge g from to) from to = g.
Proof.
  intros Hw Hn. unfold remove_edge.
  assert (deps_of (add_edge g from to) from ∖ {[to]} = deps_of g from) as ->.
  { unfold deps_of at 1, add_edge. rewrite lookup_insert_eq. simpl. set_solver. }
  unfold add_edge, deps_of in *. destruct (g !! from) as [X|] eqn:E; simpl.
  - rewrite bool_decide_eq_false_2 by (by apply (Hw from)).
    by rewrite insert_insert_eq, insert_id.
  - rewrite bool_decide_eq_true_2 by done. by rewrite delete_insert_id.
Qed.

(** [Define] on an acyclic graph. *)
Lemma Define_spec g from to g' err :
  acyclic g -> graph_wf g -> Define g from to = (g', err) ->
  acyclic g' /\ graph_wf g' /\
  (err = None <-> from ≠ "" /\ to ≠ "" /\ ~ rtc (edge g) to from) /\
  (err = None -> forall a b, edge g' a b <-> edge g a b \/ (a = from /\ b = to)) /\
  (err ≠ None -> g' = g).
Proof.
  intros Ha Hw. unfold Define. fold (add_edge g from to).
  destruct (bool_decide_reflect (from = "")) as [->|Hf]; simpl; [naive_solver |].
  destruct (bool_decide_reflect (to = "")) as [->|Ht]; simpl; [naive_solver |].
  destruct (bool_decide_reflect (from = to)) as [->|Hft].
  { intros [= <- <-]. split; [done |]. split; [done |]. split; [|done].
    split; [done |]. intros (_ & _ & []). reflexivity. }
  destruct (hasCycle _) eqn:Hc; intros [= <- <-].
  - assert (~ acyclic (add_edge g from to)) as Hna by (rewrite <- hasCycle_spec, Hc; done).
    assert (to ∉ deps_of g from) as Hn.
    { intros Hin. apply Hna. revert Ha. apply acyclic_mono. intros a b [?|[-> ->]]%edge_add; done. }
    rewrite add_remove_edge by done. do 2 (split; [done |]). split; [|done].
    split; [done |]. intros (_ & _ & Hp). by apply (acyclic_add g from to Ha) in Hp.
  - apply hasCycle_spec in Hc. split; [done |]. split; [|split; [|split; [|done]]].
    + apply map_Forall_insert_2; [set_solver | done].
    + split; [|done]. intros _. split; [done |]. split; [done |].
      by apply (acyclic_add g from to Ha).
    + intros _ a b. apply edge_add.
Qed.

Lemma removeNode_spec g key :
  acyclic g -> acyclic (removeNode g key) /\ graph_wf (removeNode g key).
Proof.
  intros Ha. split.
  - revert Ha. apply acyclic_mono. intros a b H. apply edge_remove_node in H. tauto.
  - intros k X [_ H]%map_lookup_filter_Some. done.
Qed.

(** The activation order is sound and complete.  For every graph,
    [StartupOrder] returns: a list of every known node and every endpoint once,
    each after all it depends on, exactly when the graph has no cycle, and
    [ErrCycle] otherwise.  [Define] on an acyclic graph accepts an edge exactly
    when its endpoints are named and no path leads from its target back to its
    source; it then adds that edge alone, leaves the graph untouched when it
    refuses, and keeps the graph acyclic, as [removeNode] does. *)
Theorem startup_order_sound g known :
  ((exists order, StartupOrder g known = Some (inr order) /\ startup_ok g known order /\ acyclic g) \/
   (StartupOrder g known = Some (inl (RError "StartupOrder" id_zero (RSentinel ErrCycle))) /\
    ~ acyclic g)) /\
  (forall from to g' err, acyclic g -> graph_wf g -> Define g from to = (g', err) ->
     acyclic g' /\ graph_wf g' /\
     (err = None <-> from ≠ "" /\ to ≠ "" /\ ~ rtc (edge g) to from) /\
     (err = None -> forall a b, edge g' a b <-> edge g a b \/ (a = from /\ b = to)) /\
     (err ≠ None -> g' = g)) /\
  (forall key, acyclic g ->
     acyclic (removeNode g key) /\ graph_wf (removeNode g key) /\
     forall a b, edge (removeNode g key) a b <-> edge g a b /\ a ≠ key /\ b ≠ key).
Proof.
  split; [apply StartupOrder_spec |]. split.
  - intros from to g' err. apply Define_spec.
  - intros key Ha. destruct (removeNode_spec g key Ha). split; [done |]. split; [done |].
    intros a b. apply edge_remove_node.
Qed.

Definition g_demo : graph := (Define (Define ∅ "api" "db").1 "db" "disk").1.

Lemma startup_order_sound_witness :
  StartupOrder g_demo ["cache"] = Some (inr ["cache"; "disk"; "db"; "api"]) /\ acyclic g_demo /\
  (Define g_demo "disk" "api").2 ≠ None.
Proof.
  assert (StartupOrder g_demo ["cache"] = Some (inr ["cache"; "disk"; "db"; "api"])) as E
    by (vm_compute; reflexivity).
  split; [exact E |]. split; [|vm_compute; discriminate].
  destruct (startup_order_sound g_demo ["cache"]) as ([(o & _ & _ & H)|[H _]] & _);
    [exact H | rewrite E in H; discriminate].
Defined.
