(* ===== verification/Registry.v ===== *)
(** * The resource registry ([resource/registry.go], [resource.go], [health.go])

    Entries keyed by the text of their identifier, the dependency graph over
    those keys, the cardinality bound, epochs, lockdown and the counters.  Every
    operation runs under the registry's mutex, so each is one step; the set of
    registered kinds is a package variable and part of the state here.  An adapter
    ([Resource]) is what it answers for its identifier, kind and capabilities; its
    health changes over time and is an argument of the operations that ask. *)

From S2P Require Import Prelude GoStrings ResourceID Dependency.

(** ** Data *)

Record Resource := mkResource {
  rs_ID : ResourceID; rs_Kind : Kind; rs_Capabilities : ResourceCapabilities }.

(** [nil] maps and slices are [None]. *)
Record Metadata := mkMeta {
  md_Labels : option (gmap string string); md_Tags : option (list string);
  md_Notes : string; md_Source : string }.

(** [Metadata.Clone]: [append([]string(nil), tags...)] is [nil] for no tags. *)
Definition Metadata_Clone (m : Metadata) : Metadata :=
  mkMeta (md_Labels m)
    (match md_Tags m with None | Some [] => None | Some t => Some t end)
    (md_Notes m) (md_Source m).

Record Entry := mkEntry {
  en_Resource : Resource; en_Meta : Metadata; en_Epoch : Z; en_RegisteredAt : Time }.

Definition cloneEntry (e : Entry) : Entry :=
  mkEntry (en_Resource e) (Metadata_Clone (en_Meta e)) (en_Epoch e) (en_RegisteredAt e).

Record Metrics := mkMetrics {
  mt_Registered : Z; mt_Removed : Z; mt_Duplicates : Z; mt_BoundRejects : Z;
  mt_EpochAdvances : Z; mt_LockdownBlocks : Z }.

(** [rg_lockdown] tells whether a lockdown checker is installed. *)
Record Registry := mkRegistry {
  rg_entries : gmap string Entry; rg_max : Z; rg_lockdown : bool; rg_closed : bool;
  rg_deps : gmap string (gset string); rg_metrics : Metrics }.

Definition DefaultMaxResources : Z := 1024.

Definition NewRegistry (maxResources : Z) (lockdown : bool) : Registry :=
  mkRegistry ∅ (if bool_decide (maxResources <= 0) then DefaultMaxResources else maxResources)
    lockdown false NewDependencyGraph (mkMetrics 0 0 0 0 0 0).

Definition set_entries (e : gmap string Entry) (r : Registry) : Registry :=
  mkRegistry e (rg_max r) (rg_lockdown r) (rg_closed r) (rg_deps r) (rg_metrics r).
Definition set_deps (d : gmap string (gset string)) (r : Registry) : Registry :=
  mkRegistry (rg_entries r) (rg_max r) (rg_lockdown r) (rg_closed r) d (rg_metrics r).
Definition set_metrics (f : Metrics -> Metrics) (r : Registry) : Registry :=
  mkRegistry (rg_entries r) (rg_max r) (rg_lockdown r) (rg_closed r) (rg_deps r)
    (f (rg_metrics r)).
Definition SetLockdown (b : bool) (r : Registry) : Registry :=
  mkRegistry (rg_entries r) (rg_max r) b (rg_closed r) (rg_deps r) (rg_metrics r).
Definition Registry_Close (r : Registry) : Registry :=
  mkRegistry (rg_entries r) (rg_max r) (rg_lockdown r) true (rg_deps r) (rg_metrics r).

Definition inc_registered (m : Metrics) : Metrics :=
  mkMetrics (u64 (mt_Registered m + 1)) (mt_Removed m) (mt_Duplicates m) (mt_BoundRejects m)
    (mt_EpochAdvances m) (mt_LockdownBlocks m).
Definition inc_removed (m : Metrics) : Metrics :=
  mkMetrics (mt_Registered m) (u64 (mt_Removed m + 1)) (mt_Duplicates m) (mt_BoundRejects m)
    (mt_EpochAdvances m) (mt_LockdownBlocks m).
Definition inc_duplicates (m : Metrics) : Metrics :=
  mkMetrics (mt_Registered m) (mt_Removed m) (u64 (mt_Duplicates m + 1)) (mt_BoundRejects m)
    (mt_EpochAdvances m) (mt_LockdownBlocks m).
Definition inc_bound (m : Metrics) : Metrics :=
  mkMetrics (mt_Registered m) (mt_Removed m) (mt_Duplicates m) (u64 (mt_BoundRejects m + 1))
    (mt_EpochAdvances m) (mt_LockdownBlocks m).
Definition inc_epoch (m : Metrics) : Metrics :=
  mkMetrics (mt_Registered m) (mt_Removed m) (mt_Duplicates m) (mt_BoundRejects m)
    (u64 (mt_EpochAdvances m + 1)) (mt_LockdownBlocks m).
Definition inc_lockdown (m : Metrics) : Metrics :=
  mkMetrics (mt_Registered m) (mt_Removed m) (mt_Duplicates m) (mt_BoundRejects m)
    (mt_EpochAdvances m) (u64 (mt_LockdownBlocks m + 1)).

(** ** Operations

    [blocks] is the answer of the lockdown checker at the call. *)

Definition checkMutationLocked (blocks : bool) (op : string) (r : Registry)
  : Registry * option rerror :=
  if rg_lockdown r && blocks then
    (set_metrics inc_lockdown r, Some (RError op id_zero (RSentinel ErrLockdown)))
  else (r, None).

Definition Register (customs : gset string) (blocks : bool) (now : Time) (r : Registry)
  (res : option Resource) (meta : Metadata) : Registry * (rerror + Entry) :=
  match res with
  | None => (r, inl (RError "Register" id_zero (RSentinel ErrInvalidArgument)))
  | Some res =>
    let id := rs_ID res in
    match ID_Validate id with
    | Some err => (r, inl (RError "Register" id err))
    | None =>
      if negb (ValidKind customs (id_Kind id)) then
        (r, inl (RError "Register" id (RSentinel ErrUnknownKind)))
      else if bool_decide (rs_Kind res ≠ id_Kind id) then
        (r, inl (RError "Register" id (RSentinel ErrInvalidArgument)))
      else if rg_closed r then (r, inl (RError "Register" id (RSentinel ErrRegistryClosed)))
      else
        match checkMutationLocked blocks "Register" r with
        | (r, Some err) => (r, inl err)
        | (r, None) =>
          let key := ID_String id in
          if bool_decide (is_Some (rg_entries r !! key)) then
            (set_metrics inc_duplicates r, inl (RError "Register" id (RSentinel ErrDuplicate)))
          else if bool_decide (rg_max r <= Z.of_nat (size (rg_entries r))) then
            (set_metrics inc_bound r, inl (RError "Register" id (RSentinel ErrBoundExceeded)))
          else
            let ent := mkEntry res (Metadata_Clone meta) 0 now in
            (r |> set_entries (<[key := ent]> (rg_entries r)) |> set_metrics inc_registered,
             inr (cloneEntry ent))
        end
    end
  end.

Definition Remove (blocks : bool) (r : Registry) (id : ResourceID) : Registry * option rerror :=
  if rg_closed r then (r, Some (RError "Remove" id (RSentinel ErrRegistryClosed)))
  else
    match checkMutationLocked blocks "Remove" r with
    | (r, Some err) => (r, Some err)
    | (r, None) =>
      let key := ID_String id in
      if bool_decide (rg_entries r !! key = None) then
        (r, Some (RError "Remove" id (RSentinel ErrNotFound)))
      else
        (r |> set_entries (delete key (rg_entries r)) |> set_deps (removeNode (rg_deps r) key)
           |> set_metrics inc_removed, None)
    end.

Definition Get (r : Registry) (id : ResourceID) : rerror + Entry :=
  match rg_entries r !! ID_String id with
  | None => inl (RError "Get" id (RSentinel ErrNotFound))
  | Some ent => inr (cloneEntry ent)
  end.

Definition knownKeysLocked (r : Registry) : list string := elements (dom (rg_entries r)).

Definition List_entries (r : Registry) : list Entry :=
  omap (fun k => cloneEntry <$> rg_entries r !! k) (sort_strings (knownKeysLocked r)).

Definition Count (r : Registry) : Z := Z.of_nat (size (rg_entries r)).

Definition Advance (blocks : bool) (r : Registry) (id : ResourceID) (reason : string)
  : Registry * (rerror + EpochAdvance) :=
  if rg_closed r then (r, inl (RError "Advance" id (RSentinel ErrRegistryClosed)))
  else
    match checkMutationLocked blocks "Advance" r with
    | (r, Some err) => (r, inl err)
    | (r, None) =>
      match rg_entries r !! ID_String id with
      | None => (r, inl (RError "Advance" id (RSentinel ErrNotFound)))
      | Some ent =>
        match AdvanceEpoch (en_Epoch ent) reason with
        | (_, _, Some err) => (r, inl (RError "Advance" id err))
        | (next, adv, None) =>
          let ent := mkEntry (en_Resource ent) (en_Meta ent) next (en_RegisteredAt ent) in
          (r |> set_entries (<[ID_String id := ent]> (rg_entries r)) |> set_metrics inc_epoch,
           inr adv)
        end
      end
    end.

Definition DefineDependency (blocks : bool) (r : Registry) (from to : ResourceID)
  : Registry * option rerror :=
  let fail id s := Some (RError "DefineDependency" id (RSentinel s)) in
  if rg_closed r then (r, fail id_zero ErrRegistryClosed)
  else
    match checkMutationLocked blocks "DefineDependency" r with
    | (r, Some err) => (r, Some err)
    | (r, None) =>
      if bool_decide (rg_entries r !! ID_String from = None) then (r, fail from ErrNotFound)
      else if bool_decide (rg_entries r !! ID_String to = None) then (r, fail to ErrNotFound)
      else
        let '(deps, err) := Define (rg_deps r) (ID_String from) (ID_String to) in
        (set_deps deps r, err)
    end.

(** [keysToIDs]: the first key that does not parse fails the call. *)
Fixpoint keysToIDs (customs : gset string) (keys : list string) : rerror + list ResourceID :=
  match keys with
  | [] => inr []
  | k :: t =>
    match ParseResourceID customs k with
    | inl err => inl err
    | inr id =>
      match keysToIDs customs t with
      | inl err => inl err
      | inr ids => inr (id :: ids)
      end
    end
  end.

Definition Registry_StartupOrder (customs : gset string) (r : Registry)
  : option (rerror + list ResourceID) :=
  res ← StartupOrder (rg_deps r) (knownKeysLocked r);
  Some match res with
       | inl err => inl err
       | inr keys => keysToIDs customs keys
       end.

Definition ShutdownOrder (customs : gset string) (r : Registry)
  : option (rerror + list ResourceID) :=
  res ← Registry_StartupOrder customs r;
  Some match res with
       | inl err => inl err
       | inr order => inr (reverse order)
       end.

Inductive HealthStatus :=
| HealthUnknown | HealthHealthy | HealthDegraded | HealthUnhealthy | HealthBlocked
| HealthOther (s : string).

#[global] Instance HealthStatus_eq_dec : EqDecision HealthStatus.
Proof. solve_decision. Defined.

Definition unavailable (h : HealthStatus) : bool :=
  bool_decide (h = HealthUnhealthy) || bool_decide (h = HealthBlocked).

(** [health] answers [Resource.Health(ctx).Overall]. *)
Definition is_missing (health : Resource -> HealthStatus) (entries : gmap string Entry)
  (to : string) : bool :=
  match entries !! to with
  | None => true
  | Some ent => unavailable (health (en_Resource ent))
  end.

Definition MissingDependencies (health : Resource -> HealthStatus) (g : gmap string (gset string))
  (from : string) (entries : gmap string Entry) : list string :=
  filter (fun to => is_missing health entries to = true) (DependenciesOf g from).

(** The four texts [BlockedExplanation] builds, by what they name. *)
Inductive blocked_reason :=
| NotRegistered | MissingDeps (keys : list string) | BadHealth (h : HealthStatus) | NotBlocked.

Definition BlockedExplanation (health : Resource -> HealthStatus) (r : Registry) (id : ResourceID)
  : blocked_reason :=
  let key := ID_String id in
  match rg_entries r !! key with
  | None => NotRegistered
  | Some ent =>
    match MissingDependencies health (rg_deps r) key (rg_entries r) with
    | [] => let h := health (en_Resource ent) in
            if unavailable h then BadHealth h else NotBlocked
    | missing => MissingDeps (sort_strings missing)
    end
  end.

(** ** Executions *)

Inductive rop :=
| OpRegisterKind (k : Kind)
| OpRegister (now : Time) (res : option Resource) (meta : Metadata)
| OpRemove (id : ResourceID)
| OpAdvance (id : ResourceID) (reason : string)
| OpDefine (from to : ResourceID)
| OpSetLockdown (b : bool)
| OpClose.

(** The registered kinds and the registry. *)
Definition rworld : Type := gset string * Registry.

Definition rapply (blocks : bool) (op : rop) (w : rworld) : rworld :=
  let '(customs, r) := w in
  match op with
  | OpRegisterKind k => ((RegisterCustomKind customs k).1, r)
  | OpRegister now res meta => (customs, (Register customs blocks now r res meta).1)
  | OpRemove id => (customs, (Remove blocks r id).1)
  | OpAdvance id reason => (customs, (Advance blocks r id reason).1)
  | OpDefine from to => (customs, (DefineDependency blocks r from to).1)
  | OpSetLockdown b => (customs, SetLockdown b r)
  | OpClose => (customs, Registry_Close r)
  end.

Definition rstep (w w' : rworld) : Prop := exists blocks op, w' = rapply blocks op w.

(** ** The invariant *)

Definition entry_ok (customs : gset string) (key : string) (ent : Entry) : Prop :=
  key = ID_String (rs_ID (en_Resource ent)) /\
  ID_Validate (rs_ID (en_Resource ent)) = None /\
  ValidKind customs (id_Kind (rs_ID (en_Resource ent))) = true /\
  rs_Kind (en_Resource ent) = id_Kind (rs_ID (en_Resource ent)) /\
  0 <= en_Epoch ent <= MaxResourceEpoch.

Record registry_inv (w : rworld) : Prop := {
  ri_bound : 0 < rg_max w.2 /\ Z.of_nat (size (rg_entries w.2)) <= rg_max w.2;
  ri_entries : map_Forall (entry_ok w.1) (rg_entries w.2);
  ri_acyclic : acyclic (rg_deps w.2);
  ri_wf : graph_wf (rg_deps w.2);
  ri_edges : forall a b, edge (rg_deps w.2) a b ->
    a ∈ dom (rg_entries w.2) /\ b ∈ dom (rg_entries w.2) }.

(** The invariant reads the kinds, entries, bound and graph only. *)
Lemma registry_inv_same customs r r' :
  rg_entries r' = rg_entries r -> rg_max r' = rg_max r -> rg_deps r' = rg_deps r ->
  registry_inv (customs, r) -> registry_inv (customs, r').
Proof. intros E1 E2 E3 [H1 H2 H3 H4 H5]. split; simpl in *; rewrite ?E1, ?E2, ?E3; auto. Qed.

Lemma NewRegistry_inv customs n b : registry_inv (customs, NewRegistry n b).
Proof.
  split; simpl.
  - unfold DefaultMaxResources. case_bool_decide; rewrite map_size_empty; lia.
  - apply map_Forall_empty.
  - intros n' Hc. inversion Hc; subst; by eapply edge_empty.
  - apply map_Forall_empty.
  - intros a c []%edge_empty.
Qed.

Lemma checkMutationLocked_same blocks op r r' err :
  checkMutationLocked blocks op r = (r', err) ->
  rg_entries r' = rg_entries r /\ rg_max r' = rg_max r /\ rg_deps r' = rg_deps r /\
  rg_closed r' = rg_closed r /\ (err = None -> r' = r) /\
  (rg_lockdown r = true -> blocks = true -> err ≠ None).
Proof.
  unfold checkMutationLocked. destruct (rg_lockdown r), blocks; simpl; intros [= <- <-];
    repeat split; done.
Qed.

Ltac check_mutation r :=
  match goal with |- context [checkMutationLocked ?b ?o r] =>
    let r' := fresh "r'" in let e := fresh "e" in let E := fresh "Hcm" in
    destruct (checkMutationLocked b o r) as [r' e] eqn:E;
    apply checkMutationLocked_same in E as (Hcm1 & Hcm2 & Hcm3 & Hcm4 & Hcm5 & Hcm6);
    destruct e; [| rewrite (Hcm5 eq_refl) in *; clear r' Hcm1 Hcm2 Hcm3 Hcm4 Hcm5]
  end.

Lemma Register_inv customs blocks now r res meta :
  registry_inv (customs, r) -> registry_inv (customs, (Register customs blocks now r res meta).1).
Proof.
  intros Hi. unfold Register. destruct res as [res|]; [|done].
  destruct (ID_Validate _) eqn:Hv; [done |].
  destruct (ValidKind _ _) eqn:Hk; simpl; [|done].
  destruct (bool_decide_reflect (rs_Kind res ≠ id_Kind (rs_ID res))) as [|Hkk]; [done |].
  apply dec_stable in Hkk. destruct (rg_closed r); [done |].
  check_mutation r; [by apply (registry_inv_same customs r) |].
  destruct (bool_decide_reflect (is_Some (rg_entries r !! ID_String (rs_ID res)))) as [|Hn]; [by apply (registry_inv_same customs r) |].
  apply eq_None_not_Some in Hn.
  case_bool_decide as Hb; [by apply (registry_inv_same customs r) |].
  destruct Hi as [H1 H2 H3 H4 H5]. split; simpl in *; [| |done|done|].
  - rewrite map_size_insert_None by done. lia.
  - apply map_Forall_insert_2; [|done]. repeat split; simpl; try done.
  - intros a b Hab%H5. set_solver.
Qed.

Lemma Remove_inv customs blocks r id :
  registry_inv (customs, r) -> registry_inv (customs, (Remove blocks r id).1).
Proof.
  intros Hi. unfold Remove. destruct (rg_closed r); [done |].
  check_mutation r; [by apply (registry_inv_same customs r) |].
  case_bool_decide; [done |].
  destruct Hi as [H1 H2 H3 H4 H5]. destruct (removeNode_spec (rg_deps r) (ID_String id) H3).
  split; simpl in *; [|by apply map_Forall_delete|done|done|].
  - split; [lia |]. rewrite map_size_delete. case_match; simpl; lia.
  - intros a b Hab%edge_remove_node. rewrite dom_delete. set_solver.
Qed.

Lemma Advance_inv customs blocks r id reason :
  registry_inv (customs, r) -> registry_inv (customs, (Advance blocks r id reason).1).
Proof.
  intros Hi. unfold Advance. destruct (rg_closed r); [done |].
  check_mutation r; [by apply (registry_inv_same customs r) |].
  destruct (rg_entries r !! ID_String id) as [ent|] eqn:He; [|done].
  destruct (AdvanceEpoch _ _) as [[next adv] [err|]] eqn:Ea; [done |].
  destruct Hi as [H1 H2 H3 H4 H5]. pose proof (H2 _ _ He) as (K1 & K2 & K3 & K4 & K5).
  apply AdvanceEpoch_grows in Ea as (En & Em & _); [|done].
  split; simpl in *; [| |done|done|].
  - rewrite map_size_insert_Some by done. lia.
  - apply map_Forall_insert_2; [|done]. repeat split; simpl; try done; lia.
  - intros a b Hab%H5. rewrite dom_insert. set_solver.
Qed.

Lemma DefineDependency_inv customs blocks r from to :
  registry_inv (customs, r) -> registry_inv (customs, (DefineDependency blocks r from to).1).
Proof.
  intros Hi. unfold DefineDependency. destruct (rg_closed r); [done |].
  check_mutation r; [by apply (registry_inv_same customs r) |].
  case_bool_decide as Hf; [done |]. case_bool_decide as Ht; [done |].
  destruct (Define _ _ _) as [deps err] eqn:Ed. destruct Hi as [H1 H2 H3 H4 H5].
  destruct (Define_spec _ _ _ _ _ H3 H4 Ed) as (D1 & D2 & _ & D4 & D5).
  split; simpl in *; [done .. |]. intros a b Hab. destruct err as [e|].
  - rewrite D5 in Hab by done. by apply H5.
  - apply D4 in Hab as [Hab|[-> ->]]; [by apply H5 | | done].
    split; apply elem_of_dom, not_eq_None_Some; done.
Qed.

Lemma ValidKind_mono customs customs' k :
  customs ⊆ customs' -> ValidKind customs k = true -> ValidKind customs' k = true.
Proof.
  unfold ValidKind. rewrite !orb_true_iff, !bool_decide_eq_true. set_solver.
Qed.

Lemma RegisterKind_inv customs r k :
  registry_inv (customs, r) -> registry_inv ((RegisterCustomKind customs k).1, r).
Proof.
  intros [H1 H2 H3 H4 H5].
  assert (customs ⊆ (RegisterCustomKind customs k).1) as Hs.
  { unfold RegisterCustomKind. repeat case_match; simpl; set_solver. }
  split; simpl in *; try done. intros key ent He. specialize (H2 key ent He).
  destruct H2 as (K1 & K2 & K3 & K4). split; [done |]. split; [done |].
  split; [by eapply ValidKind_mono | done].
Qed.

Lemma rapply_inv blocks op w : registry_inv w -> registry_inv (rapply blocks op w).
Proof.
  destruct w as [customs r]. intros Hi. destruct op; simpl.
  - by apply RegisterKind_inv.
  - by apply Register_inv.
  - by apply Remove_inv.
  - by apply Advance_inv.
  - by apply DefineDependency_inv.
  - by apply (registry_inv_same customs r).
  - by apply (registry_inv_same customs r).
Qed.

Lemma registry_reachable_inv customs n b w :
  steps rstep (customs, NewRegistry n b) w -> registry_inv w.
Proof.
  intros H. eapply steps_invariant; [|exact H | apply NewRegistry_inv].
  intros s s' Hs (blocks & op & ->). by apply rapply_inv.
Qed.

(** ** Activation order *)

Lemma keysToIDs_ok customs keys :
  (forall k, k ∈ keys -> exists id, k = ID_String id /\ ID_Validate id = None /\
     ValidKind customs (id_Kind id) = true) ->
  exists ids, keysToIDs customs keys = inr ids /\ ID_String <$> ids = keys.
Proof.
  induction keys as [|k t IH]; intros H; [by exists [] |].
  destruct (H k ltac:(left)) as (id & -> & Hv & Hk).
  destruct IH as (ids & E & Ef); [intros k' ?; apply H; by right |].
  exists (id :: ids). rewrite fmap_cons, Ef. simpl. by rewrite Parse_String, E by done.
Qed.

Lemma registry_nodes w :
  registry_inv w -> nodes (rg_deps w.2) (knownKeysLocked w.2) = dom (rg_entries w.2).
Proof.
  intros [_ _ _ Hw He]. apply set_eq. intros k. unfold nodes, knownKeysLocked.
  rewrite !elem_of_union, elem_of_list_to_set, elem_of_elements. split; [|tauto].
  intros [[?|Hk]|Hk]; [done | |].
  - apply elem_of_dom in Hk as [tos Hk]. specialize (Hw _ _ Hk). simpl in Hw.
    destruct (set_choose_L tos Hw) as [t Ht]. apply (He k t). unfold edge, deps_of. by rewrite Hk.
  - apply elem_of_union_list in Hk as (tos & Hin & Hk).
    apply list_elem_of_fmap in Hin as ([a tos'] & -> & Hin). apply elem_of_map_to_list in Hin.
    apply (He a k). unfold edge, deps_of. by rewrite Hin.
Qed.

(** A registry can always compute its activation order.  In every state
    reached from [NewRegistry] by any sequence of calls, failed ones and
    lockdowns included, [StartupOrder] succeeds: it lists each registered resource
    exactly once, each after every resource it depends on, [ShutdownOrder] is its
    reverse, and the number of resources respects the bound. *)
Theorem registry_startup_total customs n b w :
  steps rstep (customs, NewRegistry n b) w ->
  exists ids,
    Registry_StartupOrder w.1 w.2 = Some (inr ids) /\
    ShutdownOrder w.1 w.2 = Some (inr (reverse ids)) /\
    NoDup ids /\
    (forall key, key ∈ ID_String <$> ids <-> key ∈ dom (rg_entries w.2)) /\
    (forall i a d, ids !! i = Some a -> edge (rg_deps w.2) (ID_String a) (ID_String d) ->
       exists j c, (j < i)%nat /\ ids !! j = Some c /\ ID_String c = ID_String d) /\
    Count w.2 <= rg_max w.2.
Proof.
  intros H%registry_reachable_inv. pose proof (registry_nodes w H) as Hn.
  destruct H as [Hb Hent Ha _ _].
  destruct (StartupOrder_spec (rg_deps w.2) (knownKeysLocked w.2))
    as [(order & E & (Hnd & Hin & Ht) & _)|[_ ?]]; [|done]. rewrite Hn in Hin.
  destruct (keysToIDs_ok w.1 order) as (ids & Ek & Ef).
  { intros k Hk%Hin%elem_of_dom. destruct Hk as [ent Hk].
    destruct (Hent _ _ Hk) as (-> & ? & ? & _). eauto. }
  assert (Registry_StartupOrder w.1 w.2 = Some (inr ids)) as Eo
    by (unfold Registry_StartupOrder; rewrite E; simpl; by rewrite Ek).
  exists ids. split; [done |]. split; [unfold ShutdownOrder; by rewrite Eo |].
  split; [apply (NoDup_fmap_1 ID_String); by rewrite Ef |].
  split; [intros key; by rewrite Ef |].
  split; [|apply Hb]. intros i a d Hi Hd.
  assert (order !! i = Some (ID_String a)) as Hi' by (by rewrite <- Ef, list_lookup_fmap, Hi).
  apply (Ht _ _ Hi'), elem_of_list_to_set, elem_of_take in Hd as (j & Hj & Hji).
  rewrite <- Ef, list_lookup_fmap in Hj. destruct (ids !! j) as [c|] eqn:Ec; simplify_eq/=.
  exists j, c. auto.
Qed.

Definition res_of (id : ResourceID) : option Resource :=
  Some (mkResource id (id_Kind id) (mkRCaps true true false true false false false false false)).
Definition id_db : ResourceID := mkID "database" "prod" "pay" "orders".
Definition id_api : ResourceID := mkID "http-service" "prod" "pay" "api".
Definition meta0 : Metadata := mkMeta None None "" "".

Definition w_demo : rworld :=
  rapply false (OpDefine id_api id_db)
    (rapply false (OpRegister 5 (res_of id_api) meta0)
      (rapply false (OpRegister 4 (res_of id_db) meta0) (∅, NewRegistry 0 true))).

Lemma registry_startup_total_witness :
  steps rstep (∅, NewRegistry 0 true) w_demo /\
  Registry_StartupOrder w_demo.1 w_demo.2 = Some (inr [id_db; id_api]) /\
  Count w_demo.2 <= rg_max w_demo.2.
Proof.
  assert (steps rstep (∅, NewRegistry 0 true) w_demo) as H.
  { eapply steps_cons; [by eexists _, _ |]. eapply steps_cons; [by eexists _, _ |].
    apply steps_one. by eexists _, _. }
  split; [exact H |]. split; [vm_compute; reflexivity |].
  destruct (registry_startup_total _ _ _ _ H) as (ids & _ & _ & _ & _ & _ & Hc). exact Hc.
Defined.

(** ** Guards *)

(** Calls that change entries or edges. *)
Definition is_mutation (op : rop) : bool :=
  match op with
  | OpRegister _ _ _ | OpRemove _ | OpAdvance _ _ | OpDefine _ _ => true
  | _ => false
  end.

(** The call was refused and the contents are untouched. *)
Definition frozen (r r' : Registry) : Prop :=
  rg_entries r' = rg_entries r /\ rg_deps r' = rg_deps r.

Lemma frozen_register customs blocks now r res meta :
  rg_closed r = true \/ (rg_lockdown r = true /\ blocks = true) ->
  frozen r (Register customs blocks now r res meta).1 /\
  exists e, (Register customs blocks now r res meta).2 = inl e.
Proof.
  intros H. unfold Register, frozen. destruct res as [res|]; [|by eauto].
  destruct (ID_Validate _); [by eauto |]. destruct (ValidKind _ _); simpl; [|by eauto].
  case_bool_decide; [by eauto |]. destruct (rg_closed r) eqn:Hc; [by eauto |].
  destruct H as [?|[Hl ->]]; [done |]. check_mutation r; [simpl; by eauto | by destruct Hcm6].
Qed.

Lemma frozen_others blocks r :
  rg_closed r = true \/ (rg_lockdown r = true /\ blocks = true) ->
  (forall id, frozen r (Remove blocks r id).1 /\ (Remove blocks r id).2 ≠ None) /\
  (forall id reason, frozen r (Advance blocks r id reason).1 /\
     exists e, (Advance blocks r id reason).2 = inl e) /\
  (forall from to, frozen r (DefineDependency blocks r from to).1 /\
     (DefineDependency blocks r from to).2 ≠ None).
Proof.
  intros H. unfold frozen, Remove, Advance, DefineDependency.
  destruct (rg_closed r) eqn:Hc; [by eauto 10 |]. destruct H as [?|[Hl ->]]; [done |].
  split; [|split]; intros; (check_mutation r; [simpl; by eauto | by destruct Hcm6]).
Qed.

(** What each call does to the entries. *)
Lemma Register_entries customs blocks now r res meta :
  let r' := (Register customs blocks now r res meta).1 in
  rg_entries r' = rg_entries r \/
  exists key ent, rg_entries r !! key = None /\ rg_entries r' = <[key := ent]> (rg_entries r).
Proof.
  unfold Register. destruct res as [res|]; [|by left]. simpl.
  destruct (ID_Validate _); [by left |]. destruct (ValidKind _ _); simpl; [|by left].
  case_bool_decide; [by left |]. destruct (rg_closed r); [by left |].
  check_mutation r; [by left |].
  destruct (bool_decide_reflect (is_Some (rg_entries r !! ID_String (rs_ID res)))) as [|Hn];
    [by left |].
  case_bool_decide; [by left |]. right. eexists _, _. split; [by apply eq_None_not_Some | done].
Qed.

Lemma Remove_entries blocks r id :
  let r' := (Remove blocks r id).1 in
  rg_entries r' = rg_entries r \/ rg_entries r' = delete (ID_String id) (rg_entries r).
Proof.
  unfold Remove. destruct (rg_closed r); [by left |]. check_mutation r; [by left |].
  case_bool_decide; [by left | by right].
Qed.

Lemma Advance_entries blocks r id reason :
  let r' := (Advance blocks r id reason).1 in
  rg_entries r' = rg_entries r \/
  exists ent next adv, rg_entries r !! ID_String id = Some ent /\
    AdvanceEpoch (en_Epoch ent) reason = (next, adv, None) /\
    rg_entries r' = <[ID_String id :=
      mkEntry (en_Resource ent) (en_Meta ent) next (en_RegisteredAt ent)]> (rg_entries r).
Proof.
  unfold Advance. destruct (rg_closed r); [by left |]. check_mutation r; [by left |].
  destruct (rg_entries r !! ID_String id) as [ent|] eqn:He; [|by left].
  destruct (AdvanceEpoch _ _) as [[next adv] [err|]] eqn:Ea; [by left |].
  right. by exists ent, next, adv.
Qed.

Lemma DefineDependency_entries blocks r from to :
  rg_entries (DefineDependency blocks r from to).1 = rg_entries r.
Proof.
  unfold DefineDependency. destruct (rg_closed r); [done |]. check_mutation r; [done |].
  case_bool_decide; [done |]. case_bool_decide; [done |]. by destruct (Define _ _ _).
Qed.

(** Lockdown and closing freeze the registry, and epochs never fall.  Once
    closed, or while the installed lockdown checker blocks mutations, every
    [Register], [Remove], [Advance] and [DefineDependency] returns an error and
    leaves entries and dependencies as they were; and across any call an entry
    that stays registered keeps its resource and never loses epoch, [Advance]
    raising it by exactly one up to [MaxResourceEpoch]. *)
Theorem registry_guarded customs n b w blocks op :
  steps rstep (customs, NewRegistry n b) w ->
  (is_mutation op = true ->
   rg_closed w.2 = true \/ (rg_lockdown w.2 = true /\ blocks = true) ->
   frozen w.2 (rapply blocks op w).2) /\
  (forall key ent ent', rg_entries w.2 !! key = Some ent ->
     rg_entries (rapply blocks op w).2 !! key = Some ent' ->
     en_Resource ent' = en_Resource ent /\
     en_Epoch ent <= en_Epoch ent' <= Z.min MaxResourceEpoch (en_Epoch ent + 1)).
Proof.
  intros Hi%registry_reachable_inv. destruct w as [cs r]. simpl. split.
  { intros Hm H. destruct (frozen_others blocks r H) as (H1 & H2 & H3).
    destruct op; try done; simpl; [by apply frozen_register | apply H1 | apply H2 | apply H3]. }
  intros key ent ent' He. assert (0 <= en_Epoch ent <= MaxResourceEpoch) as Hr
    by apply (ri_entries _ Hi _ _ He).
  assert (rg_entries r !! key = Some ent' -> en_Resource ent' = en_Resource ent /\
    en_Epoch ent <= en_Epoch ent' <= Z.min MaxResourceEpoch (en_Epoch ent + 1)) as Hsame
    by (intros E; rewrite E in He; simplify_eq; split; [done | lia]).
  destruct op as [k|now res meta|id|id reason|from to|lb|]; simpl; try done.
  - destruct (Register_entries cs blocks now r res meta) as [->|(k & e & Hn & ->)]; [done |].
    rewrite lookup_insert_ne by congruence. done.
  - destruct (Remove_entries blocks r id) as [->| ->]; [done |].
    intros [_ E]%lookup_delete_Some. auto.
  - destruct (Advance_entries blocks r id reason) as [->|(e & next & adv & Hk & Ea & ->)]; [done |].
    intros [[<- <-]|[_ E]]%lookup_insert_Some; [|auto].
    rewrite Hk in He. injection He as ->.
    apply AdvanceEpoch_grows in Ea as (-> & ? & _); [|done]. simpl. split; [done | lia].
  - by rewrite DefineDependency_entries.
Qed.

Lemma registry_guarded_witness :
  steps rstep (∅, NewRegistry 0 true) (rapply false (OpRegister 4 (res_of id_db) meta0) (∅, NewRegistry 0 true)) /\
  frozen (rapply false (OpRegister 4 (res_of id_db) meta0) (∅, NewRegistry 0 true)).2
    (rapply true (OpRemove id_db)
      (rapply false (OpRegister 4 (res_of id_db) meta0) (∅, NewRegistry 0 true))).2.
Proof.
  assert (steps rstep (∅, NewRegistry 0 true)
    (rapply false (OpRegister 4 (res_of id_db) meta0) (∅, NewRegistry 0 true))) as H.
  { apply steps_one. by eexists _, _. }
  split; [exact H |].
  destruct (registry_guarded _ _ _ _ true (OpRemove id_db) H) as [Hf _].
  apply Hf; [reflexivity |]. right. split; vm_compute; reflexivity.
Defined.
