(* ===== verification/ResourceView.v ===== *)
(** * What the fabric reports about resources

    Multi-dimensional health ([resource/health.go]), drift between an expected and
    an observed state ([drift.go]), evidence with bounded fields ([evidence.go]),
    snapshots without secrets ([snapshot.go]) and the in-process adapter
    ([resource/memory/memory.go]).

    Go ranges over a map in any order: every function that does takes the order as a
    list of pairs, and the theorems hold for any order of the map. *)

From S2P Require Import Prelude GoStrings Runes ResourceID Registry.
From Stdlib Require Import Ascii.

(** [order] lists the pairs of the map as a [range] meets them. *)
Definition ranges {A} (order : list (string * A)) (m : gmap string A) : Prop := order ≡ₚ map_to_list m.

(** ** Health *)

Definition AllHealthDimensions : list string :=
  ["connectivity"; "latency"; "capacity"; "authn"; "authz"; "consistency"; "replication"; "durability";
   "availability"; "configuration"; "security"].

Record DimensionHealth := mkDimension { dh_Status : HealthStatus; dh_Message : string }.

Record ResourceHealth := mkHealth {
  rh_Overall : HealthStatus; rh_CheckedAt : Time; rh_Message : string; rh_Dimensions : gmap string DimensionHealth }.

Definition rankHealth (s : HealthStatus) : Z :=
  match s with
  | HealthHealthy => 0 | HealthDegraded => 1 | HealthUnknown => 2 | HealthBlocked => 3 | HealthUnhealthy => 4
  | HealthOther _ => 2
  end.

Definition worseHealth (a b : HealthStatus) : HealthStatus :=
  if bool_decide (rankHealth a < rankHealth b) then b else a.

Definition set_Overall (o : HealthStatus) (h : ResourceHealth) : ResourceHealth :=
  mkHealth o (rh_CheckedAt h) (rh_Message h) (rh_Dimensions h).

Definition ComputeOverall (order : list (string * DimensionHealth)) (h : ResourceHealth) : ResourceHealth :=
  if bool_decide (size (rh_Dimensions h) = 0%nat)
  then if bool_decide (rh_Overall h = HealthOther "") then set_Overall HealthUnknown h else h
  else set_Overall (foldl (fun worst d => worseHealth worst (dh_Status d.2)) HealthHealthy order) h.

Definition HealthyReport (now : Time) (msg : string) : ResourceHealth :=
  mkHealth HealthHealthy now msg
    (<["availability" := mkDimension HealthHealthy ""]> (<["connectivity" := mkDimension HealthHealthy ""]> ∅)).

(** ** Evidence *)

Definition MaxEvidenceAttrs : Z := 32.
Definition MaxEvidenceAttrKey : Z := 64.
Definition MaxEvidenceAttrValue : Z := 512.
Definition MaxEvidenceSummary : Z := 1024.
Definition MaxEvidenceBlobBytes : Z := 4096.

Record Evidence := mkEvidence {
  ev_Time : Time; ev_Event : string; ev_ActorID : string; ev_Resource : string; ev_Summary : string;
  ev_Attrs : option (gmap string string); ev_BlobBytes : Z }.

(** The loop over the attributes: a later pair replaces an earlier one whose
    truncated key is the same. *)
Definition clean_attrs (order : list (string * string)) : gmap string string :=
  foldl (fun clean kv =>
    let k := truncateRunes kv.1 MaxEvidenceAttrKey in
    if bool_decide (k = "") then clean else <[k := truncateRunes kv.2 MaxEvidenceAttrValue]> clean) ∅ order.

Definition SanitizeEvidence (now : Time) (order : list (string * string)) (e : Evidence) : rerror + Evidence :=
  let t := if IsZero (ev_Time e) then now else ev_Time e in
  let out attrs := mkEvidence t (truncateRunes (ev_Event e) MaxEvidenceAttrKey)
    (truncateRunes (ev_ActorID e) MaxEvidenceAttrKey) (truncateRunes (ev_Resource e) MaxEvidenceSummary)
    (truncateRunes (ev_Summary e) MaxEvidenceSummary) attrs (Z.min (ev_BlobBytes e) MaxEvidenceBlobBytes) in
  match ev_Attrs e with
  | None => inr (out None)
  | Some attrs =>
    if bool_decide (MaxEvidenceAttrs < Z.of_nat (size attrs))
    then inl (RError "SanitizeEvidence" id_zero (RSentinel ErrEvidenceTooLarge))
    else inr (out (Some (clean_attrs order)))
  end.

(** ** Drift *)

Inductive Severity := SeverityInfo | SeverityWarning | SeverityCritical.

Record DriftReport := mkDrift {
  dr_Resource : ResourceID; dr_Severity : Severity; dr_Expected : option string; dr_Observed : option string;
  dr_Evidence : list Evidence; dr_DetectedAt : Time; dr_Action : string; dr_Field : string }.

Definition drift_evidence (now : Time) (event : string) (id : ResourceID) (k : string) : list Evidence :=
  [mkEvidence now event "" (ID_String id) k None 0].

Definition critical_field (k : string) : bool :=
  bool_decide (k = "schema_version") || bool_decide (k = "primary") || bool_decide (k = "generation").

(** One round of the loop over the expected state. *)
Definition expected_drift (now : Time) (action : string) (id : ResourceID) (observed : gmap string string)
  (kv : string * string) : list DriftReport :=
  let '(k, exp) := kv in
  match observed !! k with
  | None => [mkDrift id SeverityWarning (Some exp) None (drift_evidence now "drift.missing" id k) now action k]
  | Some obs =>
    if bool_decide (obs = exp) then []
    else [mkDrift id (if critical_field k then SeverityCritical else SeverityWarning) (Some exp) (Some obs)
            (drift_evidence now "drift.mismatch" id k) now action k]
  end.

Definition unexpected_drift (now : Time) (id : ResourceID) (seen : gset string) (kv : string * string)
  : list DriftReport :=
  let '(k, obs) := kv in
  if bool_decide (k ∈ seen) then []
  else [mkDrift id SeverityInfo None (Some obs) (drift_evidence now "drift.unexpected" id k) now "report" k].

Definition Compare (now : Time) (default_action : string) (id : ResourceID) (observed : gmap string string)
  (expected_order observed_order : list (string * string)) : list DriftReport :=
  let action := if bool_decide (default_action = "") then "report" else default_action in
  let seen := list_to_set (fst <$> expected_order) : gset string in
  (expected_order ≫= expected_drift now action id observed) ++ (observed_order ≫= unexpected_drift now id seen).

(** ** Snapshots *)

Definition secretKeyHints : list string :=
  ["password"; "passwd"; "secret"; "token"; "authorization"; "api_key"; "apikey"; "credential"; "private_key";
   "dsn"; "connection_string"].

Definition isSecretKey (lower : Z -> Z) (k : string) : bool :=
  existsb (fun h => contains_sub h (ToLower lower k)) secretKeyHints.

(** The loop over the fields of a map that is not [nil]. *)
Definition put_field (lower : Z -> Z) (out : gmap string string) (kv : string * string) : gmap string string :=
  if isSecretKey lower kv.1 then out
  else <[truncateRunes kv.1 MaxEvidenceAttrKey := truncateRunes kv.2 MaxEvidenceAttrValue]> out.

Definition SanitizeSnapshotFields (lower : Z -> Z) (order : list (string * string)) : gmap string string :=
  foldl (put_field lower) ∅ order.

Record ResourceSnapshot := mkSnapshot {
  sn_ID : ResourceID; sn_Epoch : Z; sn_Health : HealthStatus; sn_CapturedAt : Time; sn_Fields : gmap string string }.

(** [health] is the overall health the adapter answers; [provider] is [None] for
    an adapter without snapshots, else what [Snapshot] returns. *)
Definition CaptureSnapshot {E} (lower : Z -> Z) (now : Time) (health : HealthStatus)
  (provider : option (E + list (string * string))) (ent : option Entry)
  : option ResourceSnapshot * option (rerror + E) :=
  match ent with
  | None => (None, Some (inl (RError "CaptureSnapshot" id_zero (RSentinel ErrInvalidArgument))))
  | Some ent =>
    let snap fields := mkSnapshot (rs_ID (en_Resource ent)) (en_Epoch ent) health now fields in
    let kind fields := <["kind" := rs_Kind (en_Resource ent)]> fields in
    match provider with
    | Some (inl err) => (Some (snap ∅), Some (inr err))
    | Some (inr order) => (Some (snap (kind (SanitizeSnapshotFields lower order))), None)
    | None => (Some (snap (kind ∅)), None)
    end
  end.

(** ** The in-process adapter *)

Record Description := mkDescription {
  de_DisplayName : string; de_Summary : string; de_Labels : option (gmap string string); de_Owner : string }.

Record Base := mkBase {
  ba_id : ResourceID; ba_desc : Description; ba_caps : ResourceCapabilities; ba_health : ResourceHealth; ba_epoch : Z }.

Definition with_health (c : ResourceCapabilities) : ResourceCapabilities :=
  mkRCaps (SupportsOwnership c) (SupportsFencing c) (SupportsDrain c) true (SupportsFailover c)
    (SupportsTransactions c) (SupportsSnapshots c) (SupportsRecovery c) (SupportsRateLimit c).

Definition New (now : Time) (id : ResourceID) (desc : Description) (caps : ResourceCapabilities) : Base :=
  let caps := if negb (SupportsHealth caps) then with_health caps else caps in
  mkBase id desc caps (HealthyReport now "memory adapter") 0.

Definition Health (now : Time) (b : Base) : ResourceHealth :=
  let h := ba_health b in mkHealth (rh_Overall h) now (rh_Message h) (rh_Dimensions h).

Definition SetHealth (h : ResourceHealth) (b : Base) : Base :=
  mkBase (ba_id b) (ba_desc b) (ba_caps b) h (ba_epoch b).

Definition Base_AdvanceEpoch (reason : string) (b : Base) : Base * (rerror + EpochAdvance) :=
  match AdvanceEpoch (ba_epoch b) reason with
  | (_, _, Some err) => (b, inl err)
  | (next, adv, None) => (mkBase (ba_id b) (ba_desc b) (ba_caps b) (ba_health b) next, inr adv)
  end.

Definition Mutate (now : Time) (op : string) (attrs : option (gmap string string)) (order : list (string * string))
  (b : Base) : rerror + Evidence :=
  if negb (SupportsOwnership (ba_caps b)) && negb (SupportsFencing (ba_caps b))
  then inl (RError "Mutate" (ba_id b) (RSentinel ErrCapabilityClaimed))
  else SanitizeEvidence now order (mkEvidence now op "" (ID_String (ba_id b)) "memory mutate" attrs 0).

Definition Worker (now : Time) (env service name : string) : Base :=
  New now (mkID "worker" env service name) (mkDescription name "in-process worker" None "")
    (mkRCaps true true true true false false false false false).
Definition Feature (now : Time) (env service name : string) : Base :=
  New now (mkID "feature" env service name) (mkDescription name "feature flag reference" None "")
    (mkRCaps false false false true false false false false false).
Definition RateLimit (now : Time) (env service name : string) : Base :=
  New now (mkID "rate-limit" env service name) (mkDescription name "rate limit" None "")
    (mkRCaps false false false true false false false false true).

(** ** Health is the worst dimension *)

Lemma foldl_worse (l : list (string * DimensionHealth)) : forall a,
  let o := foldl (fun worst d => worseHealth worst (dh_Status d.2)) a l in
  rankHealth a <= rankHealth o /\ Forall (fun d => rankHealth (dh_Status d.2) <= rankHealth o) l /\
  (o = a \/ exists d, d ∈ l /\ o = dh_Status d.2).
Proof.
  induction l as [|d l IH]; intros a; cbn zeta in *; [simpl; split_and!; [lia | constructor | by left] |].
  cbn [foldl]. destruct (IH (worseHealth a (dh_Status d.2))) as (Hge & Hall & Hin).
  assert (rankHealth a <= rankHealth (worseHealth a (dh_Status d.2)) /\
          rankHealth (dh_Status d.2) <= rankHealth (worseHealth a (dh_Status d.2))) as [H1 H2].
  { unfold worseHealth. case_bool_decide; lia. }
  split; [lia |]. split; [constructor; [lia | done] |].
  destruct Hin as [->|(d' & Hd & ->)]; [|right; exists d'; split; [by right | done]].
  unfold worseHealth. case_bool_decide; [right; exists d; split; [left | done] | by left].
Qed.

Definition standard (s : HealthStatus) : Prop := forall x, s ≠ HealthOther x.

Lemma rankHealth_inj a b : standard a -> standard b -> rankHealth a = rankHealth b -> a = b.
Proof. unfold standard. destruct a, b; simpl; intros Ha Hb H; try done; try lia; by destruct (Ha s) || destruct (Hb s). Qed.

(** The overall status is the status of a worst dimension; when every dimension
    has a status of the package, it does not depend on the order of the map. *)
Theorem overall_is_worst order h :
  rh_Dimensions h ≠ ∅ -> ranges order (rh_Dimensions h) ->
  let o := rh_Overall (ComputeOverall order h) in
  (forall k d, rh_Dimensions h !! k = Some d -> rankHealth (dh_Status d) <= rankHealth o) /\
  (o = HealthHealthy \/ exists k d, rh_Dimensions h !! k = Some d /\ o = dh_Status d) /\
  (forall order', ranges order' (rh_Dimensions h) ->
     (forall k d, rh_Dimensions h !! k = Some d -> standard (dh_Status d)) ->
     rh_Overall (ComputeOverall order' h) = o).
Proof.
  intros Hne Hr. cbn zeta.
  assert (forall ord, ranges ord (rh_Dimensions h) -> rh_Overall (ComputeOverall ord h) =
      foldl (fun worst d => worseHealth worst (dh_Status d.2)) HealthHealthy ord) as Ho.
  { intros ord _. unfold ComputeOverall. rewrite bool_decide_false; [done |]. by rewrite map_size_empty_iff. }
  assert (forall ord k d, ranges ord (rh_Dimensions h) -> (k, d) ∈ ord <-> rh_Dimensions h !! k = Some d) as Hin.
  { intros ord k d Hord. rewrite Hord. apply elem_of_map_to_list. }
  rewrite (Ho order Hr). destruct (foldl_worse order HealthHealthy) as (_ & Hall & Hex). rewrite Forall_forall in Hall.
  split; [intros k d Hk; apply (Hall (k, d)); by apply Hin |].
  split; [destruct Hex as [->|([k d] & Hd & ->)]; [by left | right; exists k, d; split; [by apply (Hin order) | done]] |].
  intros order' Hr' Hstd. rewrite (Ho order' Hr').
  destruct (foldl_worse order' HealthHealthy) as (_ & Hall' & Hex'). rewrite Forall_forall in Hall'.
  assert (forall ord, ranges ord (rh_Dimensions h) -> standard
      (foldl (fun worst d => worseHealth worst (dh_Status d.2)) HealthHealthy ord)) as Hs.
  { intros ord Hord. destruct (foldl_worse ord HealthHealthy) as (_ & _ & [->|([k d] & Hd & ->)]); [done |].
    apply (Hstd k d). by apply (Hin ord). }
  apply rankHealth_inj; [by apply Hs | by apply Hs |]. apply Z.le_antisymm.
  - destruct Hex' as [->|(d & Hd & ->)]; [apply foldl_worse |]. apply Hall. by rewrite Hr, <- Hr'.
  - destruct Hex as [->|(d & Hd & ->)]; [apply foldl_worse |]. apply Hall'. by rewrite Hr', <- Hr.
Qed.

(** ** Drift is exactly what differs *)

Lemma ranges_lookup {A} order (m : gmap string A) k v : ranges order m -> (k, v) ∈ order <-> m !! k = Some v.
Proof. intros H. rewrite H. apply elem_of_map_to_list. Qed.

Lemma ranges_NoDup {A} order (m : gmap string A) : ranges order m -> NoDup order.*1.
Proof. intros H. rewrite H. apply NoDup_fst_map_to_list. Qed.

(** The fields reported by a loop whose rounds report their own key or nothing. *)
Lemma bind_fields (f : string * string -> list DriftReport) (P : string * string -> Prop) `{!forall kv, Decision (P kv)} l :
  (forall kv, dr_Field <$> f kv = if decide (P kv) then [kv.1] else []) ->
  dr_Field <$> (l ≫= f) = (filter P l).*1.
Proof.
  intros Hf. induction l as [|kv l IH]; [done |]. rewrite filter_cons, bind_cons, fmap_app, IH, Hf. by case_decide.
Qed.

Lemma expected_fields now action id observed l :
  dr_Field <$> (l ≫= expected_drift now action id observed) = (filter (fun kv => observed !! kv.1 ≠ Some kv.2) l).*1.
Proof.
  apply (bind_fields _ (fun kv : string * string => observed !! kv.1 ≠ Some kv.2)). intros [k v]. simpl.
  destruct (observed !! k) as [o|]; [|by rewrite decide_True]. case_bool_decide; subst.
  - rewrite decide_False; [done |]. by intros Hn.
  - rewrite decide_True; [done |]. congruence.
Qed.

Lemma unexpected_fields now id (seen : gset string) l :
  dr_Field <$> (l ≫= unexpected_drift now id seen) = (filter (fun kv => kv.1 ∉ seen) l).*1.
Proof.
  apply (bind_fields _ (fun kv : string * string => kv.1 ∉ seen)). intros [k v]. simpl.
  case_bool_decide; [rewrite decide_False by auto | rewrite decide_True by done]; done.
Qed.

Lemma NoDup_filter_fst {A B} (P : A * B -> Prop) `{!forall x, Decision (P x)} l : NoDup l.*1 -> NoDup (filter P l).*1.
Proof. intros Hl. eapply sublist_NoDup; [exact Hl |]. apply fmap_sublist, sublist_filter. Qed.

Lemma list_to_set_keys (order : list (string * string)) m k :
  ranges order m -> k ∈ (list_to_set order.*1 : gset string) <-> is_Some (m !! k).
Proof.
  intros Hr. rewrite elem_of_list_to_set, list_elem_of_fmap. split.
  - intros ([k' v] & -> & Hin). exists v. by apply (ranges_lookup order).
  - intros [v Hv]. exists (k, v). split; [done |]. by apply (ranges_lookup order m).
Qed.

Lemma Compare_fields now action id expected observed eo oo :
  ranges eo expected -> ranges oo observed ->
  NoDup (dr_Field <$> Compare now action id observed eo oo) /\
  forall k, k ∈ (dr_Field <$> Compare now action id observed eo oo) <-> expected !! k ≠ observed !! k.
Proof.
  intros He Ho. unfold Compare. rewrite fmap_app, expected_fields, unexpected_fields.
  assert (forall k, k ∈ (filter (fun kv => observed !! kv.1 ≠ Some kv.2) eo).*1 <->
     exists v, expected !! k = Some v /\ observed !! k ≠ Some v) as H1.
  { intros k. rewrite list_elem_of_fmap. setoid_rewrite list_elem_of_filter. split.
    - intros ([k' v] & -> & Hn & Hin). exists v. split; [by apply (ranges_lookup eo) | done].
    - intros (v & Hv & Hn). exists (k, v). split; [done |]. split; [done | by apply (ranges_lookup eo expected)]. }
  assert (forall k, k ∈ (filter (fun kv => kv.1 ∉ (list_to_set eo.*1 : gset string)) oo).*1 <->
     expected !! k = None /\ is_Some (observed !! k)) as H2.
  { intros k. rewrite list_elem_of_fmap. setoid_rewrite list_elem_of_filter. split.
    - intros ([k' v] & -> & Hn & Hin). split; [|exists v; by apply (ranges_lookup oo)].
      destruct (expected !! k') eqn:E; [|done]. destruct Hn. apply (list_to_set_keys eo expected); eauto.
    - intros (Hn & [v Hv]). exists (k, v). split; [done |]. split; [|by apply (ranges_lookup oo observed)].
      rewrite (list_to_set_keys eo expected) by done. simpl. rewrite Hn. by intros []. }
  split.
  - apply NoDup_app. split_and!; [apply NoDup_filter_fst, (ranges_NoDup _ _ He) | | apply NoDup_filter_fst, (ranges_NoDup _ _ Ho)].
    intros k [v [Hv _]]%H1 [Hn _]%H2. congruence.
  - intros k. rewrite elem_of_app, H1, H2. clear. unfold is_Some.
    destruct (expected !! k) as [v|], (observed !! k) as [w|]; naive_solver.
Qed.

(** Drift reports name exactly the fields on which the two states differ, once
    each, with both values as they are; a report is informational exactly when the
    field was not expected, and critical exactly when a versioned field changed. *)
Theorem drift_exact now action id expected observed eo oo :
  ranges eo expected -> ranges oo observed ->
  let reports := Compare now action id observed eo oo in
  NoDup (dr_Field <$> reports) /\
  (forall k, k ∈ (dr_Field <$> reports) <-> expected !! k ≠ observed !! k) /\
  (reports = [] <-> expected = observed) /\
  Forall (fun r => dr_Expected r = expected !! dr_Field r /\ dr_Observed r = observed !! dr_Field r /\
    (dr_Severity r = SeverityInfo <-> expected !! dr_Field r = None) /\
    (dr_Severity r = SeverityCritical <-> critical_field (dr_Field r) = true /\
       is_Some (expected !! dr_Field r) /\ is_Some (observed !! dr_Field r))) reports.
Proof.
  intros He Ho. cbn zeta. destruct (Compare_fields now action id expected observed eo oo He Ho) as [Hnd Hf].
  split; [done |]. split; [done |]. split.
  { split.
    - intros Hn. apply map_eq. intros k. destruct (decide (expected !! k = observed !! k)) as [|Hk]; [done |].
      apply Hf in Hk. rewrite Hn in Hk. by apply elem_of_nil in Hk.
    - intros ->. destruct (Compare _ _ _ _ _ _) as [|r l] eqn:E; [done |].
      destruct (proj1 (Hf (dr_Field r))); [by left | done]. }
  unfold Compare. apply Forall_app. split; apply Forall_bind, Forall_forall; intros [k v] Hin; simpl.
  - apply (ranges_lookup eo expected) in Hin; [|done]. destruct (observed !! k) as [w|] eqn:Eo.
    + case_bool_decide; constructor; [|constructor]. simpl. rewrite Hin, Eo. unfold is_Some.
      destruct (critical_field k); naive_solver.
    + constructor; [|constructor]. simpl. rewrite Hin, Eo. unfold is_Some. naive_solver.
  - case_bool_decide as Hs; constructor; [|constructor]. simpl.
    rewrite (list_to_set_keys eo expected) in Hs by done.
    apply (ranges_lookup oo observed) in Hin; [|done]. rewrite Hin.
    destruct (expected !! k) eqn:E; [by destruct Hs |]. unfold is_Some. naive_solver.
Qed.

(** ** Evidence stays within its bounds *)

(** The bounds of the package on one pair of attributes, and on evidence. *)
Definition attr_bounded (kv : string * string) : Prop :=
  kv.1 ≠ "" /\ RuneCount kv.1 <= MaxEvidenceAttrKey /\ RuneCount kv.2 <= MaxEvidenceAttrValue.

Record evidence_bounded (e : Evidence) : Prop := {
  eb_time : IsZero (ev_Time e) = false;
  eb_event : RuneCount (ev_Event e) <= MaxEvidenceAttrKey;
  eb_actor : RuneCount (ev_ActorID e) <= MaxEvidenceAttrKey;
  eb_resource : RuneCount (ev_Resource e) <= MaxEvidenceSummary;
  eb_summary : RuneCount (ev_Summary e) <= MaxEvidenceSummary;
  eb_blob : ev_BlobBytes e <= MaxEvidenceBlobBytes;
  eb_attrs : forall m, ev_Attrs e = Some m ->
    Z.of_nat (size m) <= MaxEvidenceAttrs /\ map_Forall (fun k v => attr_bounded (k, v)) m }.

Lemma foldl_insert_size (f : gmap string string -> string * string -> gmap string string) l m :
  (forall m kv, (size (f m kv) <= S (size m))%nat) -> (size (foldl f m l) <= size m + length l)%nat.
Proof.
  intros Hf. revert m. induction l as [|kv l IH]; intros m; simpl; [lia |].
  specialize (IH (f m kv)). specialize (Hf m kv). lia.
Qed.

Lemma map_size_insert_le (m : gmap string string) k v : (size (<[k := v]> m) <= S (size m))%nat.
Proof. rewrite map_size_insert. destruct (m !! k); simpl; lia. Qed.

Lemma clean_attrs_size order : (size (clean_attrs order) <= length order)%nat.
Proof.
  unfold clean_attrs. etransitivity; [apply foldl_insert_size | by rewrite map_size_empty].
  intros m kv. cbn zeta. case_bool_decide; [lia | apply map_size_insert_le].
Qed.

Lemma clean_attrs_bounded order : map_Forall (fun k v => attr_bounded (k, v)) (clean_attrs order).
Proof.
  unfold clean_attrs. assert (map_Forall (fun k v => attr_bounded (k, v)) (∅ : gmap string string)) as H0 by apply map_Forall_empty.
  revert H0. generalize (∅ : gmap string string). induction order as [|kv order IH]; intros m Hm; [done |].
  cbn [foldl]. apply IH. cbn zeta. case_bool_decide as Hk; [done |].
  apply map_Forall_insert_2; [|done]. split_and!; [done | by apply truncate_count ..].
Qed.

(** Attributes within the bounds are kept as they are. *)
Lemma clean_attrs_id order m :
  ranges order m -> map_Forall (fun k v => attr_bounded (k, v)) m -> clean_attrs order = m.
Proof.
  intros Hr Hm. assert (Forall attr_bounded order) as Hb.
  { apply Forall_forall. intros [k v] Hin. apply (Hm k v). by apply (ranges_lookup order). }
  unfold clean_attrs. transitivity (foldl (fun out kv => <[kv.1 := kv.2]> out) (∅ : gmap string string) order).
  - generalize (∅ : gmap string string). clear Hr Hm. induction Hb as [|[k v] l (Hk & H1 & H2) _ IH]; intros acc; [done |].
    cbn [foldl fst snd]. rewrite truncate_id by done. rewrite bool_decide_false by done. rewrite truncate_id by done. apply IH.
  - transitivity (list_to_map (reverse order) : gmap string string).
    + clear Hr Hm Hb. induction order as [|kv l IH] using rev_ind; [done |].
      rewrite foldl_app, reverse_app. simpl. rewrite IH. by destruct kv.
    + rewrite <- (list_to_map_to_list m). apply list_to_map_proper.
      * rewrite fmap_reverse, reverse_Permutation. apply (ranges_NoDup _ _ Hr).
      * by rewrite reverse_Permutation.
Qed.

(** Sanitising fails exactly when there are more attributes than allowed;
    otherwise every field and attribute of the result is within its bound, and
    sanitising again changes nothing, whatever the order of the map. *)
Theorem sanitize_bounded now order e :
  now ≠ 0 -> (forall m, ev_Attrs e = Some m -> ranges order m) ->
  match SanitizeEvidence now order e with
  | inl err => err = RError "SanitizeEvidence" id_zero (RSentinel ErrEvidenceTooLarge) /\
      exists m, ev_Attrs e = Some m /\ MaxEvidenceAttrs < Z.of_nat (size m)
  | inr out => evidence_bounded out /\
      (forall m, ev_Attrs e = Some m -> Z.of_nat (size m) <= MaxEvidenceAttrs) /\
      forall now' order', (forall m, ev_Attrs out = Some m -> ranges order' m) ->
        SanitizeEvidence now' order' out = inr out
  end.
Proof.
  intros Hnow Hr.
  assert (forall attrs, (forall m, attrs = Some m -> Z.of_nat (size m) <= MaxEvidenceAttrs /\
             map_Forall (fun k v => attr_bounded (k, v)) m) ->
    evidence_bounded (mkEvidence (if IsZero (ev_Time e) then now else ev_Time e)
      (truncateRunes (ev_Event e) MaxEvidenceAttrKey) (truncateRunes (ev_ActorID e) MaxEvidenceAttrKey)
      (truncateRunes (ev_Resource e) MaxEvidenceSummary) (truncateRunes (ev_Summary e) MaxEvidenceSummary)
      attrs (Z.min (ev_BlobBytes e) MaxEvidenceBlobBytes))) as Hb.
  { intros attrs Ha. split; cbn [ev_Time ev_Event ev_ActorID ev_Resource ev_Summary ev_BlobBytes ev_Attrs];
      [|by apply truncate_count ..|lia|done].
    destruct (IsZero (ev_Time e)) eqn:E; [by apply bool_decide_eq_false | done]. }
  assert (forall out, evidence_bounded out -> forall now' order', (forall m, ev_Attrs out = Some m -> ranges order' m) ->
    SanitizeEvidence now' order' out = inr out) as Hid.
  { intros [t ev ac re su at_ bl] [H1 H2 H3 H4 H5 H6 H7] now' order' Ho.
    cbn [ev_Time ev_Event ev_ActorID ev_Resource ev_Summary ev_BlobBytes ev_Attrs] in *.
    unfold SanitizeEvidence. cbn [ev_Time ev_Event ev_ActorID ev_Resource ev_Summary ev_BlobBytes ev_Attrs].
    rewrite H1, !truncate_id, Z.min_l by done. destruct at_ as [m|]; [|done].
    destruct (H7 m eq_refl) as [Hs Hm]. rewrite bool_decide_false by lia. by rewrite (clean_attrs_id order' m (Ho m eq_refl)). }
  unfold SanitizeEvidence at 1. destruct (ev_Attrs e) as [m|] eqn:Ea.
  - case_bool_decide as Hs; [split; [done | by exists m] |].
    assert (Z.of_nat (size (clean_attrs order)) <= MaxEvidenceAttrs).
    { pose proof (clean_attrs_size order). pose proof (Permutation_length (Hr m eq_refl)) as Hl.
      rewrite length_map_to_list in Hl. lia. }
    split; [apply Hb; intros m' [= <-]; split; [done | apply clean_attrs_bounded] |].
    split; [intros m' [= <-]; lia |]. apply Hid, Hb. intros m' [= <-]. split; [done | apply clean_attrs_bounded].
  - split; [by apply Hb |]. split; [done |]. apply Hid. by apply Hb.
Qed.

(** ** Snapshots hold no secret-looking key *)

(** The key [kind] the capture itself adds. *)
Lemma kind_not_secret lower : (forall r, 0 <= r < 128 -> lower r = lower_ascii r) -> isSecretKey lower "kind" = false.
Proof.
  intros Hl. unfold isSecretKey, ToLower. change (range "kind") with [107; 105; 110; 100].
  cbn [fmap list_fmap]. rewrite !Hl by lia. vm_compute. done.
Qed.

(** A truncated key that looks secret comes from a key that does. *)
Lemma secret_truncated lower k max : isSecretKey lower (truncateRunes k max) = true -> isSecretKey lower k = true.
Proof.
  unfold isSecretKey. rewrite !existsb_exists. intros (h & Hin & Hc). exists h. split; [done |].
  destruct (lower_truncate lower k max) as [rest ->]. by apply contains_extend.
Qed.

Definition field_clean (lower : Z -> Z) (k v : string) : Prop :=
  isSecretKey lower k = false /\ RuneCount k <= MaxEvidenceAttrKey /\ RuneCount v <= MaxEvidenceAttrValue.

Lemma sanitize_fields_clean lower order : map_Forall (field_clean lower) (SanitizeSnapshotFields lower order).
Proof.
  unfold SanitizeSnapshotFields.
  assert (map_Forall (field_clean lower) (∅ : gmap string string)) as H0 by apply map_Forall_empty.
  revert H0. generalize (∅ : gmap string string). induction order as [|kv order IH]; intros m Hm; [done |].
  cbn [foldl]. apply IH. unfold put_field. destruct (isSecretKey lower kv.1) eqn:Es; [done |].
  apply map_Forall_insert_2; [|done]. split; [|split; by apply truncate_count].
  apply not_true_is_false. intros Ht. apply secret_truncated in Ht. congruence.
Qed.

(** A pair that comes last under its key is kept. *)
Lemma put_fields_frame lower order k (m : gmap string string) :
  (forall k', k' ∈ order.*1 -> k' ≠ k /\ RuneCount k' <= MaxEvidenceAttrKey) ->
  foldl (put_field lower) m order !! k = m !! k.
Proof.
  revert m. induction order as [|[k2 v2] order IH]; intros m Hk; [done |]. cbn [foldl].
  rewrite IH by (intros k' Hk'; apply Hk; by right). destruct (Hk k2) as [Hne Hb]; [by left |].
  unfold put_field. cbn [fst snd]. destruct (isSecretKey lower k2); [done |].
  rewrite truncate_id by done. by rewrite lookup_insert_ne.
Qed.

Lemma put_fields_keep lower order k v (m : gmap string string) :
  NoDup order.*1 -> (forall k', k' ∈ order.*1 -> RuneCount k' <= MaxEvidenceAttrKey) -> (k, v) ∈ order ->
  isSecretKey lower k = false -> RuneCount v <= MaxEvidenceAttrValue ->
  foldl (put_field lower) m order !! k = Some v.
Proof.
  intros Hnd Hb Hin Hs Hv. revert m Hnd Hb Hin.
  induction order as [|[k' v'] order IH]; intros m Hnd Hb Hin; [by apply elem_of_nil in Hin |].
  cbn [foldl]. simpl in Hnd. apply NoDup_cons in Hnd as [Hk' Hnd].
  apply elem_of_cons in Hin as [[= <- <-]|Hin]; [|apply IH; [done | intros k0 Hk0; apply Hb; by right | done]].
  rewrite put_fields_frame.
  - unfold put_field. cbn [fst snd]. rewrite Hs, (truncate_id v), truncate_id by (done || apply Hb; by left).
    by rewrite lookup_insert_eq.
  - intros k0 Hk0. split; [by intros -> | apply Hb; by right].
Qed.

(** Whatever an adapter contributes, a captured snapshot has no key that looks
    like a secret, also after keys were cut to their length, and every field but the
    kind is within its bounds; what the adapter offers under an innocent key within
    the bounds is kept. *)
Theorem snapshot_clean {E} lower now health (provider : option (E + list (string * string))) ent snap :
  (forall r, 0 <= r < 128 -> lower r = lower_ascii r) ->
  CaptureSnapshot lower now health provider (Some ent) = (Some snap, None) ->
  (forall k v, sn_Fields snap !! k = Some v -> isSecretKey lower k = false /\
     RuneCount k <= MaxEvidenceAttrKey /\ (k ≠ "kind" -> RuneCount v <= MaxEvidenceAttrValue)) /\
  sn_Fields snap !! "kind" = Some (rs_Kind (en_Resource ent)) /\
  (forall order k v, provider = Some (inr order) -> NoDup order.*1 ->
     (forall k', k' ∈ order.*1 -> RuneCount k' <= MaxEvidenceAttrKey) -> (k, v) ∈ order -> k ≠ "kind" ->
     isSecretKey lower k = false -> RuneCount v <= MaxEvidenceAttrValue -> sn_Fields snap !! k = Some v).
Proof.
  intros Hl H.
  assert (forall fields : gmap string string, map_Forall (field_clean lower) fields -> forall k v,
    <["kind" := rs_Kind (en_Resource ent)]> fields !! k = Some v -> isSecretKey lower k = false /\
     RuneCount k <= MaxEvidenceAttrKey /\ (k ≠ "kind" -> RuneCount v <= MaxEvidenceAttrValue)) as Hk.
  { intros fields Hf k v. destruct (decide (k = "kind")) as [->|Hn].
    - intros _. split; [by apply kind_not_secret |]. split; [vm_compute; done | done].
    - rewrite lookup_insert_ne by done. intros [H1 [H2 H3]]%Hf. auto. }
  unfold CaptureSnapshot in H. destruct provider as [[err|order]|]; simplify_eq/=.
  - split; [apply Hk, sanitize_fields_clean |]. split; [by rewrite lookup_insert_eq |].
    intros order0 k v [= <-] Hnd Hb Hin Hn Hs Hv. rewrite lookup_insert_ne by done. by apply put_fields_keep.
  - split; [apply Hk, map_Forall_empty |]. split; [by rewrite lookup_insert_eq | done].
Qed.

(** ** Examples *)

Definition demo_entry : Entry :=
  mkEntry (mkResource id_db "database" (mkRCaps true true true true false false true false false)) meta0 3 7.

Lemma snapshot_clean_witness :
  exists snap, CaptureSnapshot (E := unit) lower_ascii 5 HealthHealthy
    (Some (inr [("DB_Password", "hunter2"); ("rows", "12")])) (Some demo_entry) = (Some snap, None) /\
  sn_Fields snap !! "rows" = Some "12" /\ sn_Fields snap !! "DB_Password" = None.
Proof.
  eexists. split; [reflexivity |]. split; [|by vm_compute].
  refine (proj2 (proj2 (snapshot_clean (E := unit) lower_ascii 5 HealthHealthy
    (Some (inr [("DB_Password", "hunter2"); ("rows", "12")])) demo_entry _ (fun r _ => eq_refl) eq_refl))
    [("DB_Password", "hunter2"); ("rows", "12")] "rows" "12" eq_refl _ _ _ _ _ _).
  - simpl. apply NoDup_cons. split; [|apply NoDup_singleton]. by intros [=]%list_elem_of_singleton.
  - simpl. intros k' [-> | ->%list_elem_of_singleton]%elem_of_cons; by vm_compute.
  - right. left.
  - done.
  - by vm_compute.
  - by vm_compute.
Defined.

Lemma ranges_singleton {A} k (v : A) : ranges [(k, v)] {[k := v]}.
Proof. unfold ranges. by rewrite map_to_list_singleton. Qed.

Lemma drift_exact_witness :
  exists r, Compare 5 "" id_db {["primary" := "b"]} [("primary", "a")] [("primary", "b")] = [r] /\
  dr_Severity r = SeverityCritical.
Proof.
  eexists. split; [reflexivity |].
  pose proof (drift_exact 5 "" id_db {["primary" := "a"]} {["primary" := "b"]} [("primary", "a")] [("primary", "b")]
    (ranges_singleton _ _) (ranges_singleton _ _)) as (_ & _ & _ & H).
  apply Forall_cons_1 in H as [(_ & _ & _ & H) _]. apply H. split; [reflexivity |]. split; by eexists.
Defined.

(** Two attribute keys that agree on their first runes become one, and which value
    is kept depends on the order of the map. *)
Definition long_key (c : Ascii.ascii) : string :=
  String.string_of_list_ascii (repeat "k"%char 64 ++ [c]).

Lemma attrs_collapse :
  let m := <[long_key "x"%char := "1"]> {[long_key "y"%char := "2"]} : gmap string string in
  let o1 := [(long_key "x"%char, "1"); (long_key "y"%char, "2")] in
  ranges o1 m /\ ranges (reverse o1) m /\ clean_attrs o1 ≠ clean_attrs (reverse o1) /\
  size (clean_attrs o1) = 1%nat.
Proof.
  cbn zeta. assert (ranges [(long_key "x"%char, "1"); (long_key "y"%char, "2")]
      (<[long_key "x"%char := "1"]> {[long_key "y"%char := "2"]} : gmap string string)) as Hr.
  { unfold ranges. rewrite map_to_list_insert by by vm_compute. by rewrite map_to_list_singleton. }
  split; [done |]. split; [by unfold ranges; rewrite reverse_Permutation |]. split; [|by vm_compute].
  intros H. apply (f_equal (fun m => m !! truncateRunes (long_key "x"%char) 64)) in H. by vm_compute in H.
Qed.
