(* ===== verification/ObjectStore.v ===== *)
(** * The object store ([resource/storage/object], [resource/storage/object/memory])

    Objects under a bucket and a key with a checksum, a generation and conditional
    or idempotent writes; the client that bounds the calls in flight; the adapter for
    the resource fabric.  Every method of the store runs under its mutex and is one
    step.  SHA-256 in hexadecimal is a parameter, [sha256]. *)

From S2P Require Import Prelude GoStrings ResourceID Registry ResourceView.
From Stdlib Require Import Ascii.
From stdpp Require Import sorting.

#[local] Open Scope Z_scope.

(** ** Data *)

Inductive obj_err :=
| OErrInvalidArg | OErrNotFound | OErrConflict | OErrChecksum | OErrBoundExceeded | OErrClosed.

#[global] Instance obj_err_eq_dec : EqDecision obj_err.
Proof. solve_decision. Defined.

Definition DefaultMaxObjects : Z := 4096.
Definition DefaultMaxParallel : Z := 8.
Definition DefaultMaxBytes : Z := Z.shiftl 4 20.

Record ObjectMeta := mkObjectMeta {
  om_Bucket : string; om_Key : string; om_Size : Z; om_Checksum : string; om_ContentType : string;
  om_UpdatedAt : Time; om_Attrs : option (gmap string string); om_Generation : Z; om_Idempotency : string }.

Record PutOptions := mkPutOptions {
  po_ContentType : string; po_Attrs : option (gmap string string); po_IdempotencyKey : string;
  po_IfChecksum : string; po_IfNotExists : bool; po_Checksum : string }.

Record ListOptions := mkListOptions { lo_Prefix : string; lo_StartAfter : string; lo_Limit : Z }.

Definition ValidateKey (key : string) : option obj_err :=
  if bool_decide (key = "") || contains_sub ".." key || String.prefix "/" key then Some OErrInvalidArg else None.

(** [SortMetas]: by bucket, then by key. *)
Definition meta_le (a b : ObjectMeta) : Prop :=
  if decide (om_Bucket a = om_Bucket b) then String.le (om_Key a) (om_Key b) else String.le (om_Bucket a) (om_Bucket b).

#[global] Instance meta_le_dec : RelDecision meta_le.
Proof. intros a b. unfold meta_le. destruct (decide _); apply _. Defined.

Definition SortMetas : list ObjectMeta -> list ObjectMeta := merge_sort meta_le.

(** [CopyReader]: the reader delivers [content] and then ends, or fails when [fails].
    [io.LimitReader] stops it after [int64(max)+1] bytes. *)
Definition CopyReader (content : bytes) (fails : bool) (max : Z) : option obj_err + bytes :=
  let max := if bool_decide (max <= 0) then DefaultMaxBytes else max in
  let limit := i64 (max + 1) in
  let b := take (Z.to_nat limit) content in
  if fails && bool_decide (Z.of_nat (length content) < limit) then inl None
  else if bool_decide (max < Z.of_nat (length b)) then inl (Some OErrBoundExceeded) else inr b.

(** ** The store in memory *)

Record entry := mkEntryO { e_meta : ObjectMeta; e_body : bytes }.

Record Store := mkStore {
  os_objects : gmap string entry; os_idempotent : gmap string ObjectMeta;
  os_maxObjects : Z; os_maxBytes : Z; os_closed : bool }.

Definition NewStore (maxObjects maxBytes : Z) : Store :=
  mkStore ∅ ∅ (if bool_decide (maxObjects <= 0) then DefaultMaxObjects else maxObjects)
    (if bool_decide (maxBytes <= 0) then DefaultMaxBytes else maxBytes) false.

Definition flatKey (bucket key : string) : string := if bool_decide (bucket = "") then key else bucket +:+ "/" +:+ key.

Section Store.
Context (sha256 : bytes -> string).

Definition ChecksumSHA256 (body : bytes) : string := sha256 body.

(** The conditions on what is stored already. *)
Definition put_conflict (opts : PutOptions) (existing : option entry) (s : Store) : option obj_err :=
  if po_IfNotExists opts && bool_decide (is_Some existing) then Some OErrConflict
  else if negb (bool_decide (po_IfChecksum opts = "")) && bool_decide (existing = None) then Some OErrNotFound
  else match existing with
       | Some e =>
         if negb (bool_decide (po_IfChecksum opts = "")) && negb (bool_decide (om_Checksum (e_meta e) = po_IfChecksum opts))
         then Some OErrConflict else None
       | None => if bool_decide (os_maxObjects s <= Z.of_nat (size (os_objects s))) then Some OErrBoundExceeded else None
       end.

Definition next_generation (existing : option entry) : Z :=
  match existing with Some e => u64 (om_Generation (e_meta e) + 1) | None => 1 end.

(** The idempotent answer, if there is one. *)
Definition recall (opts : PutOptions) (s : Store) : option ObjectMeta :=
  if bool_decide (po_IdempotencyKey opts = "") then None else os_idempotent s !! po_IdempotencyKey opts.

Definition remember (opts : PutOptions) (meta : ObjectMeta) (m : gmap string ObjectMeta) : gmap string ObjectMeta :=
  if bool_decide (po_IdempotencyKey opts = "") then m else <[po_IdempotencyKey opts := meta]> m.

Definition Put (now : Time) (bucket key : string) (body : bytes) (opts : PutOptions) (s : Store)
  : Store * (obj_err + ObjectMeta) :=
  match ValidateKey key with
  | Some err => (s, inl err)
  | None =>
    if bool_decide (os_maxBytes s < Z.of_nat (length body)) then (s, inl OErrBoundExceeded)
    else
      let sum := ChecksumSHA256 body in
      if negb (bool_decide (po_Checksum opts = "")) && negb (bool_decide (po_Checksum opts = sum))
      then (s, inl OErrChecksum)
      else if os_closed s then (s, inl OErrClosed)
      else match recall opts s with
           | Some prev => (s, inr prev)
           | None =>
             let fk := flatKey bucket key in
             let existing := os_objects s !! fk in
             match put_conflict opts existing s with
             | Some err => (s, inl err)
             | None =>
               let meta := mkObjectMeta bucket key (Z.of_nat (length body)) sum (po_ContentType opts) now
                 (po_Attrs opts) (next_generation existing) (po_IdempotencyKey opts) in
               (mkStore (<[fk := mkEntryO meta body]> (os_objects s)) (remember opts meta (os_idempotent s))
                  (os_maxObjects s) (os_maxBytes s) (os_closed s), inr meta)
             end
           end
  end.

Definition Get (bucket key : string) (ifChecksum : string) (s : Store) : obj_err + ObjectMeta * bytes :=
  match ValidateKey key with
  | Some err => inl err
  | None =>
    if os_closed s then inl OErrClosed
    else match os_objects s !! flatKey bucket key with
         | None => inl OErrNotFound
         | Some e =>
           if negb (bool_decide (ifChecksum = "")) && negb (bool_decide (om_Checksum (e_meta e) = ifChecksum))
           then inl OErrChecksum else inr (e_meta e, e_body e)
         end
  end.

(** The tests of the loop of [List]; [hasPrefix] compares the first bytes. *)
Definition hasPrefix (key prefix : string) : bool := String.prefix prefix key.

Definition listed (bucket : string) (opts : ListOptions) (m : ObjectMeta) : bool :=
  (bool_decide (bucket = "") || bool_decide (om_Bucket m = bucket)) &&
  (bool_decide (lo_Prefix opts = "") || hasPrefix (om_Key m) (lo_Prefix opts)) &&
  (bool_decide (lo_StartAfter opts = "") || negb (bool_decide (String.le (om_Key m) (lo_StartAfter opts)))).

(** [order] is how the range over the objects meets them. *)
Definition List_ (order : list (string * entry)) (bucket : string) (opts : ListOptions) (s : Store)
  : obj_err + list ObjectMeta :=
  if os_closed s then inl OErrClosed
  else
    let limit := if bool_decide (lo_Limit opts <= 0) then os_maxObjects s else lo_Limit opts in
    let out := SortMetas (filter (fun m => listed bucket opts m = true) ((fun ke => e_meta ke.2) <$> order)) in
    inr (if bool_decide (limit < Z.of_nat (length out)) then take (Z.to_nat limit) out else out).

Definition Delete (bucket key : string) (s : Store) : Store * option obj_err :=
  match ValidateKey key with
  | Some err => (s, Some err)
  | None =>
    if os_closed s then (s, Some OErrClosed)
    else
      let fk := flatKey bucket key in
      match os_objects s !! fk with
      | None => (s, Some OErrNotFound)
      | Some _ => (mkStore (delete fk (os_objects s)) (os_idempotent s) (os_maxObjects s) (os_maxBytes s) (os_closed s), None)
      end
  end.

Definition Len (s : Store) : Z := Z.of_nat (size (os_objects s)).

Definition Close (s : Store) : Store :=
  mkStore (os_objects s) (os_idempotent s) (os_maxObjects s) (os_maxBytes s) true.

(** ** Executions *)

Inductive obj_step : Store -> Store -> Prop :=
| step_put now bucket key body opts s : obj_step s (Put now bucket key body opts s).1
| step_delete bucket key s : obj_step s (Delete bucket key s).1
| step_close s : obj_step s (Close s).
End Store.

(** ** Invariant *)

Section Properties.
Context (sha256 : bytes -> string).

Record obj_entry_ok (maxBytes : Z) (fk : string) (e : entry) : Prop := {
  oe_key : fk = flatKey (om_Bucket (e_meta e)) (om_Key (e_meta e));
  oe_valid : ValidateKey (om_Key (e_meta e)) = None;
  oe_sum : om_Checksum (e_meta e) = sha256 (e_body e);
  oe_size : om_Size (e_meta e) = Z.of_nat (length (e_body e)) /\ om_Size (e_meta e) <= maxBytes }.

Record obj_inv (s : Store) : Prop := {
  oi_entries : map_Forall (obj_entry_ok (os_maxBytes s)) (os_objects s);
  oi_bound : Z.of_nat (size (os_objects s)) <= os_maxObjects s;
  oi_pos : 0 < os_maxObjects s }.

Lemma NewStore_inv maxObjects maxBytes : obj_inv (NewStore maxObjects maxBytes).
Proof.
  assert (0 < os_maxObjects (NewStore maxObjects maxBytes)) by (simpl; unfold DefaultMaxObjects; case_bool_decide; lia).
  split; [apply map_Forall_empty | simpl in *; rewrite map_size_empty; lia | done].
Qed.

(** What a call of [Put] that stores did. *)
Lemma Put_cases now bucket key body opts s :
  let '(s', r) := Put sha256 now bucket key body opts s in
  (s' = s /\ forall m, r = inr m -> recall opts s = Some m) \/
  exists meta, r = inr meta /\ recall opts s = None /\ ValidateKey key = None /\ os_closed s = false /\
    put_conflict opts (os_objects s !! flatKey bucket key) s = None /\
    Z.of_nat (length body) <= os_maxBytes s /\
    meta = mkObjectMeta bucket key (Z.of_nat (length body)) (sha256 body) (po_ContentType opts) now
      (po_Attrs opts) (next_generation (os_objects s !! flatKey bucket key)) (po_IdempotencyKey opts) /\
    s' = mkStore (<[flatKey bucket key := mkEntryO meta body]> (os_objects s)) (remember opts meta (os_idempotent s))
      (os_maxObjects s) (os_maxBytes s) (os_closed s).
Proof.
  unfold Put. destruct (ValidateKey key); [by left |]. case_bool_decide; [by left |].
  destruct (negb _ && negb _); [by left |]. destruct (os_closed s); [by left |].
  destruct (recall opts s) as [m|]; [left; split; [done | by intros ? [= <-]] |].
  destruct (put_conflict opts _ s) eqn:Hc; [by left |].
  right. eexists. split_and!; try done; lia.
Qed.

Lemma put_conflict_room opts s fk : put_conflict opts (os_objects s !! fk) s = None ->
  is_Some (os_objects s !! fk) \/ Z.of_nat (size (os_objects s)) < os_maxObjects s.
Proof.
  unfold put_conflict. destruct (os_objects s !! fk) as [e|]; [by left; eexists |]. intros H. right.
  repeat case_match; repeat case_bool_decide; simplify_eq; lia.
Qed.

Lemma obj_step_inv s s' : obj_inv s -> obj_step sha256 s s' -> obj_inv s'.
Proof.
  intros [He Hb Hp] Hs. destruct Hs as [now bucket key body opts s|bucket key s|s].
  - pose proof (Put_cases now bucket key body opts s) as Hc.
    destruct (Put _ _ _ _ _ _ _) as [s' r]. destruct Hc as [[-> _]|(meta & _ & _ & Hv & _ & Hc & Hlen & -> & ->)]; [done |].
    split; cbn [fst os_objects os_maxObjects]; [|..|done].
    + apply map_Forall_insert_2; [by split | done].
    + rewrite map_size_insert. apply put_conflict_room in Hc as [[e ->]|Hc]; [simpl; lia |].
      destruct (os_objects s !! _); simpl; lia.
  - unfold Delete. destruct (ValidateKey key); [done |]. destruct (os_closed s); [done |].
    destruct (os_objects s !! flatKey bucket key) eqn:E; [|done]. split; cbn [fst os_objects os_maxObjects]; [|..|done].
    + by apply map_Forall_delete.
    + rewrite map_size_delete, E. simpl. lia.
  - done.
Qed.

Lemma obj_reachable maxObjects maxBytes s :
  steps (obj_step sha256) (NewStore maxObjects maxBytes) s -> obj_inv s.
Proof. intros H. eapply steps_invariant; [apply obj_step_inv | exact H | apply NewStore_inv]. Qed.

(** ** Reading what was written *)

Definition same_slot (b k b' k' : string) : Prop := flatKey b k = flatKey b' k'.

(** A write that was not answered from memory is read back with its checksum, and
    every object under another key is as before; a write that fails or is answered
    from memory changes nothing. *)
Theorem put_get now bucket key body opts s s' r :
  Put sha256 now bucket key body opts s = (s', r) ->
  (recall opts s = None -> forall meta, r = inr meta ->
     Get bucket key "" s' = inr (meta, body) /\ Get bucket key (sha256 body) s' = inr (meta, body) /\
     om_Checksum meta = sha256 body /\ om_Generation meta = next_generation (os_objects s !! flatKey bucket key) /\
     forall b k c, ~ same_slot b k bucket key -> Get b k c s' = Get b k c s) /\
  (is_Some (recall opts s) \/ (exists err, r = inl err) -> s' = s).
Proof.
  intros HP. pose proof (Put_cases now bucket key body opts s) as Hc. rewrite HP in Hc.
  destruct Hc as [[-> Hm]|(meta & -> & Hr & Hv & Hcl & Hc & Hlen & Hmeta & ->)].
  { split; [|done]. intros Hr meta ->. by rewrite (Hm meta eq_refl) in Hr. }
  split; [|by intros [[? Hx]|[? [=]]]; congruence].
  intros _ meta' [= <-]. subst meta. unfold Get. cbn [os_objects os_closed]. rewrite Hv, Hcl, lookup_insert_eq.
  cbn [e_meta e_body om_Checksum om_Generation]. rewrite (bool_decide_true (sha256 body = sha256 body)) by done.
  rewrite andb_false_r. split_and!; try done. intros b k c Hn. rewrite lookup_insert_ne by (intros E; by destruct Hn). done.
Qed.

(** ** Listing *)

#[local] Instance meta_le_trans : Transitive meta_le.
Proof.
  intros a b c. unfold meta_le. intros H1 H2. repeat case_decide; try congruence.
  - by transitivity (om_Key b).
  - exfalso. assert (om_Bucket a = om_Bucket b); [|done]. apply (anti_symm String.le); congruence.
  - by transitivity (om_Bucket b).
Qed.

#[local] Instance meta_le_total : Total meta_le.
Proof.
  intros a b. unfold meta_le. destruct (decide (om_Bucket a = om_Bucket b)) as [E|E].
  - rewrite decide_True by done. apply (total String.le).
  - rewrite decide_False by done. apply (total String.le).
Qed.

(** Two sorted lists of the same elements are equal when the order tells the
    elements apart. *)
Lemma sorted_unique_on {A} (R : relation A) (l1 l2 : list A) :
  StronglySorted R l1 -> StronglySorted R l2 -> l1 ≡ₚ l2 ->
  (forall x y, x ∈ l1 -> y ∈ l1 -> R x y -> R y x -> x = y) -> l1 = l2.
Proof.
  intros H1. revert l2. induction H1 as [|x l1 H1 IH Hx]; intros l2 H2 Hp Ha.
  { by apply Permutation_nil in Hp. }
  destruct H2 as [|y l2 H2 Hy]; [by symmetry in Hp; apply Permutation_nil_cons in Hp |].
  rewrite Forall_forall in Hx, Hy.
  assert (x = y) as ->.
  { assert (x ∈ y :: l2) as Hxi by (rewrite <- Hp; by left). assert (y ∈ x :: l1) as Hyi by (rewrite Hp; by left).
    apply elem_of_cons in Hxi as [|Hxi]; [done |]. apply elem_of_cons in Hyi as [|Hyi]; [done |].
    apply Ha; [by left | by right | by apply Hx | by apply Hy]. }
  f_equal. apply IH; [done | by apply Permutation_cons_inv in Hp |]. intros u v Hu Hv. apply Ha; by right.
Qed.

Lemma meta_le_antisym a b : meta_le a b -> meta_le b a -> om_Bucket a = om_Bucket b /\ om_Key a = om_Key b.
Proof.
  unfold meta_le. intros H1 H2. destruct (decide (om_Bucket a = om_Bucket b)) as [E|E].
  - rewrite decide_True in H2 by done. split; [done | by apply (anti_symm String.le)].
  - rewrite decide_False in H2 by done. destruct E. by apply (anti_symm String.le).
Qed.

Definition metas (order : list (string * entry)) : list ObjectMeta := (fun ke => e_meta ke.2) <$> order.

(** Distinct objects of the store differ in bucket or key. *)
Lemma metas_distinct s order x y :
  obj_inv s -> ranges order (os_objects s) -> x ∈ metas order -> y ∈ metas order ->
  om_Bucket x = om_Bucket y -> om_Key x = om_Key y -> x = y.
Proof.
  intros Hi Hr Hx Hy Hb Hk. unfold metas in Hx, Hy. apply list_elem_of_fmap in Hx as ([k1 e1] & -> & Hx).
  apply list_elem_of_fmap in Hy as ([k2 e2] & -> & Hy). simpl in *.
  apply (ranges_lookup order (os_objects s)) in Hx, Hy; [|done ..].
  destruct (oi_entries s Hi k1 e1 Hx) as [-> _ _ _], (oi_entries s Hi k2 e2 Hy) as [-> _ _ _].
  rewrite Hb, Hk in Hx. congruence.
Qed.

Lemma metas_NoDup s order : obj_inv s -> ranges order (os_objects s) -> NoDup (metas order).
Proof.
  intros Hi Hr. pose proof (ranges_NoDup _ _ Hr) as Hnd. unfold metas.
  assert (forall ke, ke ∈ order -> ke.1 = flatKey (om_Bucket (e_meta ke.2)) (om_Key (e_meta ke.2))) as Hk.
  { intros [k e] Hin. apply (ranges_lookup order (os_objects s)) in Hin; [|done]. apply (oi_entries s Hi k e Hin). }
  clear Hr. induction order as [|ke order IH]; [constructor |]. simpl in *. apply NoDup_cons in Hnd as [Hn Hnd].
  constructor; [|apply IH; [done | intros ke' Hke; apply Hk; by right]].
  intros (ke' & He & Hin)%list_elem_of_fmap. apply Hn. rewrite (Hk ke) by left. rewrite He, <- (Hk ke') by by right.
  by apply list_elem_of_fmap_2.
Qed.

(** All objects a listing may show, in the order it shows them. *)
Definition listing (order : list (string * entry)) (bucket : string) (opts : ListOptions) : list ObjectMeta :=
  SortMetas (filter (fun m => listed bucket opts m = true) (metas order)).

Lemma listing_sorted order bucket opts : StronglySorted meta_le (listing order bucket opts).
Proof. apply Sorted_StronglySorted; [apply _ |]. apply Sorted_merge_sort, _. Qed.

Lemma listing_perm order bucket opts :
  listing order bucket opts ≡ₚ filter (fun m => listed bucket opts m = true) (metas order).
Proof. apply merge_sort_Permutation. Qed.

Lemma listing_metas order bucket opts m : m ∈ listing order bucket opts -> m ∈ metas order /\ listed bucket opts m = true.
Proof. rewrite listing_perm, list_elem_of_filter. tauto. Qed.

(** The order of the map does not matter. *)
Lemma listing_order s order order' bucket opts :
  obj_inv s -> ranges order (os_objects s) -> ranges order' (os_objects s) ->
  listing order bucket opts = listing order' bucket opts.
Proof.
  intros Hi Hr Hr'. apply (sorted_unique_on meta_le); [apply listing_sorted .. | |].
  - rewrite !listing_perm. unfold metas. by rewrite Hr, Hr'.
  - intros x y [Hx _]%listing_metas [Hy _]%listing_metas H1 H2.
    destruct (meta_le_antisym x y H1 H2). by apply (metas_distinct s order).
Qed.

Lemma List_listing order bucket opts s : os_closed s = false ->
  List_ order bucket opts s =
    inr (take (Z.to_nat (if bool_decide (lo_Limit opts <= 0) then os_maxObjects s else lo_Limit opts))
           (listing order bucket opts)).
Proof.
  intros Hc. unfold List_. rewrite Hc. f_equal. fold (metas order). fold (listing order bucket opts).
  case_bool_decide as Hl; [done |]. rewrite take_ge; [done |]. lia.
Qed.

(** ** Paging *)

(** A caller that lists one bucket page by page: each call starts after the last key
    of the page before, and stops at an empty page.  There is one order of the map per
    call. *)
Fixpoint pages (orders : list (list (string * entry))) (bucket prefix after : string) (limit : Z) (s : Store)
  : list ObjectMeta :=
  match orders with
  | [] => []
  | order :: orders =>
    match List_ order bucket (mkListOptions prefix after limit) s with
    | inl _ => []
    | inr page =>
      match last page with
      | None => []
      | Some m => page ++ pages orders bucket prefix (om_Key m) limit s
      end
    end
  end.

Definition key_lt (x y : ObjectMeta) : Prop := String.le (om_Key x) (om_Key y) /\ om_Key x ≠ om_Key y.

Definition beyond (after : string) (m : ObjectMeta) : Prop := ~ String.le (om_Key m) after.

Lemma key_lt_beyond x y : key_lt x y <-> beyond (om_Key x) y.
Proof.
  unfold key_lt, beyond. split.
  - intros [H Hn] H'. apply Hn. by apply (anti_symm String.le).
  - intros H. destruct (total String.le (om_Key x) (om_Key y)) as [Hl|Hl]; [|done]. split; [done |].
    intros E. apply H. by rewrite E.
Qed.

(** In one bucket the listing is strictly sorted by key. *)
Lemma listing_strict s order bucket opts :
  obj_inv s -> ranges order (os_objects s) -> bucket ≠ "" -> StronglySorted key_lt (listing order bucket opts).
Proof.
  intros Hi Hr Hb.
  assert (NoDup (listing order bucket opts)) as Hnd.
  { rewrite listing_perm. by eapply NoDup_filter, metas_NoDup. }
  assert (forall m, m ∈ listing order bucket opts -> m ∈ metas order /\ om_Bucket m = bucket) as Hin.
  { intros m [Hm Hl]%listing_metas. split; [done |]. unfold listed in Hl. rewrite !andb_true_iff, !orb_true_iff, !bool_decide_eq_true in Hl.
    tauto. }
  pose proof (listing_sorted order bucket opts) as Hs. revert Hnd Hin. induction Hs as [|x l Hs IH Hx]; intros Hnd Hin; [constructor |].
  apply NoDup_cons in Hnd as [Hn Hnd]. constructor; [apply IH; [done | intros m Hm; apply Hin; by right] |].
  rewrite Forall_forall in Hx |- *. intros y Hy. specialize (Hx y Hy).
  destruct (Hin x) as [Hxm Hxb]; [by left |]. destruct (Hin y) as [Hym Hyb]; [by right |].
  unfold meta_le in Hx. rewrite decide_True in Hx by congruence. split; [done |].
  intros E. apply Hn. by rewrite (metas_distinct s order x y Hi Hr Hxm Hym) by congruence.
Qed.

(** A cursor filters the listing. *)
Lemma listing_after s order bucket prefix after limit :
  obj_inv s -> ranges order (os_objects s) -> after ≠ "" ->
  listing order bucket (mkListOptions prefix after limit) =
    filter (beyond after) (listing order bucket (mkListOptions prefix "" limit)).
Proof.
  intros Hi Hr Ha. apply (sorted_unique_on meta_le); [apply listing_sorted | | |].
  - pose proof (listing_sorted order bucket (mkListOptions prefix "" limit)) as Hs.
    induction Hs as [|x l Hs IH Hx]; [constructor |]. rewrite filter_cons. case_decide; [|done].
    constructor; [done |]. rewrite Forall_forall in Hx |- *. intros y [_ Hy]%list_elem_of_filter. by apply Hx.
  - rewrite !listing_perm, list_filter_filter. apply Permutation_refl', list_filter_iff. intros m.
    unfold listed, beyond. cbn [lo_Prefix lo_StartAfter]. rewrite (bool_decide_false (after = "")) by done.
    rewrite (bool_decide_true ("" = "")) by done. cbn [orb]. rewrite andb_true_r.
    rewrite (andb_true_iff _ (negb _)), negb_true_iff, bool_decide_eq_false. tauto.
  - intros x y [Hx _]%listing_metas [Hy _]%listing_metas H1 H2.
    destruct (meta_le_antisym x y H1 H2). by apply (metas_distinct s order).
Qed.

Lemma filter_none {A} (P : A -> Prop) `{!forall x, Decision (P x)} l : Forall (fun x => ~ P x) l -> filter P l = [].
Proof. induction 1 as [|x l Hx _ IH]; [done |]. by rewrite filter_cons, decide_False. Qed.

(** After the last element of the first part, a strictly sorted list goes on with
    its second part. *)
Lemma filter_beyond A m B : StronglySorted key_lt (A ++ m :: B) -> filter (beyond (om_Key m)) (A ++ m :: B) = B.
Proof.
  intros Hs. rewrite filter_app. assert (filter (beyond (om_Key m)) A = []) as ->.
  { apply filter_none, Forall_forall. intros x Hx Hb. apply Hb.
    apply (StronglySorted_app_1_elem_of key_lt A (m :: B)); [done | done | left]. }
  simpl. apply StronglySorted_app_1_r in Hs. apply StronglySorted_inv in Hs as [_ Hm].
  rewrite filter_cons, decide_False by (intros Hb; by apply Hb). apply filter_all.
  eapply Forall_impl; [exact Hm |]. intros y. apply key_lt_beyond.
Qed.

Lemma metas_key_nonempty s order m : obj_inv s -> ranges order (os_objects s) -> m ∈ metas order -> om_Key m ≠ "".
Proof.
  intros Hi Hr. unfold metas. intros ([k e] & -> & Hin)%list_elem_of_fmap.
  apply (ranges_lookup order (os_objects s)) in Hin; [|done]. destruct (oi_entries s Hi k e Hin) as [_ Hv _ _].
  simpl. intros E. rewrite E in Hv. by vm_compute in Hv.
Qed.

(** Where the pages have got to: nowhere yet, or after the last key read. *)
Definition cursor (done_ : list ObjectMeta) (after : string) : Prop :=
  (done_ = [] /\ after = "") \/ exists l m, done_ = l ++ [m] /\ after = om_Key m.

Lemma page_rest s order0 order bucket prefix after limit A B :
  obj_inv s -> ranges order0 (os_objects s) -> ranges order (os_objects s) -> bucket ≠ "" ->
  listing order0 bucket (mkListOptions prefix "" limit) = A ++ B -> cursor A after ->
  listing order bucket (mkListOptions prefix after limit) = B.
Proof.
  intros Hi Hr0 Hr Hb HL [[-> ->]|(l & m & -> & ->)].
  - by rewrite (listing_order s order order0).
  - rewrite <- app_assoc in HL. simpl in HL.
    assert (m ∈ metas order0) as Hm.
    { eapply listing_metas. rewrite HL. apply elem_of_app. right. left. }
    rewrite (listing_after s) by (done || by apply (metas_key_nonempty s order0)).
    rewrite (listing_order s order order0), HL by done. apply filter_beyond. rewrite <- HL. by eapply listing_strict.
Qed.

Lemma pages_from s order0 bucket prefix limit : obj_inv s -> os_closed s = false -> ranges order0 (os_objects s) ->
  bucket ≠ "" -> 0 < limit -> forall orders A B after,
  Forall (fun o => ranges o (os_objects s)) orders ->
  listing order0 bucket (mkListOptions prefix "" limit) = A ++ B -> cursor A after ->
  (length B < length orders)%nat -> pages orders bucket prefix after limit s = B.
Proof.
  intros Hi Hc Hr0 Hb Hl. induction orders as [|order orders IH]; intros A B after Ho HL Hcur Hlen; [simpl in Hlen; lia |].
  apply Forall_cons_1 in Ho as [Hr Ho]. cbn [pages]. rewrite List_listing by done.
  cbn [lo_Limit]. rewrite bool_decide_false by lia.
  rewrite (page_rest s order0 order bucket prefix after limit A B) by done.
  destruct (last (take (Z.to_nat limit) B)) as [m|] eqn:El.
  - rewrite <- (take_drop (Z.to_nat limit) B) at 2. f_equal.
    apply last_Some in El as [l El].
    apply (IH (A ++ take (Z.to_nat limit) B)); [done | by rewrite <- app_assoc, take_drop | |].
    + right. exists (A ++ l), m. by rewrite El, app_assoc.
    + rewrite length_drop. simpl in Hlen. destruct B; [by rewrite take_nil in El; destruct l |]. simpl in *. lia.
  - apply last_None in El. destruct B as [|b B]; [done |]. destruct (Z.to_nat limit) eqn:E; [lia | done].
Qed.

(** A bucket listed page by page, every call starting after the last key of the
    page before, shows each of its objects with the prefix exactly once and in order,
    whatever the page size and however the map is ranged over at each call; one call
    more than there are objects is enough. *)
Theorem pages_complete maxObjects maxBytes s order orders bucket prefix limit :
  steps (obj_step sha256) (NewStore maxObjects maxBytes) s -> os_closed s = false ->
  bucket ≠ "" -> 0 < limit ->
  Forall (fun o => ranges o (os_objects s)) (order :: orders) -> (size (os_objects s) <= length orders)%nat ->
  let out := pages (order :: orders) bucket prefix "" limit s in
  NoDup out /\ StronglySorted key_lt out /\
  forall m, m ∈ out <-> exists fk body, os_objects s !! fk = Some (mkEntryO m body) /\
    om_Bucket m = bucket /\ String.prefix prefix (om_Key m) = true.
Proof.
  intros Hs Hc Hb Hl Ho Hlen. pose proof (obj_reachable _ _ _ Hs) as Hi. cbn zeta.
  pose proof (proj1 (Forall_cons_1 _ _ _ Ho)) as Hr.
  assert (length (metas order) = size (os_objects s)) as Hm.
  { unfold metas. by rewrite length_fmap, (Permutation_length Hr), length_map_to_list. }
  rewrite (pages_from s order bucket prefix limit Hi Hc Hr Hb Hl _ []
    (listing order bucket (mkListOptions prefix "" limit))); [|done|done|by left|].
  2: { rewrite (Permutation_length (listing_perm _ _ _)).
       pose proof (length_filter (fun m => listed bucket (mkListOptions prefix "" limit) m = true) (metas order)). simpl. lia. }
  split; [rewrite listing_perm; by eapply NoDup_filter, metas_NoDup |]. split; [by eapply listing_strict |].
  intros m. rewrite listing_perm, list_elem_of_filter. unfold listed. cbn [lo_Prefix lo_StartAfter].
  rewrite (bool_decide_false (bucket = "")) by done. rewrite (bool_decide_true ("" = "")) by done. cbn [orb].
  rewrite andb_true_r, andb_true_iff, orb_true_iff, !bool_decide_eq_true. unfold metas, hasPrefix.
  rewrite list_elem_of_fmap. split.
  - intros ([Hbk Hp] & ([fk [m' body]] & -> & Hin)). exists fk, body. simpl in *.
    split; [by apply (ranges_lookup order) |]. split; [done |]. destruct Hp as [->|]; [|done]. by destruct (om_Key m').
  - intros (fk & body & Hin & Hbk & Hp). split; [split; [done | by right] |].
    exists (fk, mkEntryO m body). split; [done |]. by apply (ranges_lookup order (os_objects s)).
Qed.
End Properties.

(** ** The client: calls in flight *)

Record Client := mkClient { cl_cap : Z; cl_held : Z }.

Definition NewClient (maxParallel : Z) : Client :=
  mkClient (if bool_decide (maxParallel <= 0) then DefaultMaxParallel else maxParallel) 0.

Inductive acquire_result := Acquired (c : Client) | Cancelled | Blocked.

(** [select] between the semaphore and the context; [pick_ctx] is its choice when
    both are ready. *)
Definition acquire (ctx_done pick_ctx : bool) (c : Client) : acquire_result :=
  if bool_decide (cl_held c < cl_cap c) && negb (ctx_done && pick_ctx) then Acquired (mkClient (cl_cap c) (cl_held c + 1))
  else if ctx_done then Cancelled else Blocked.

Definition release (c : Client) : Client := mkClient (cl_cap c) (cl_held c - 1).

(** A call of [Put], [Get], [List] or [Delete]: waiting for a slot, at work on the
    store, or returned, by number. *)
Inductive phase := Waiting | Working | Returned.

#[global] Instance phase_eq_dec : EqDecision phase.
Proof. solve_decision. Defined.

Record client_world := mkCW { cw_client : Client; cw_calls : list phase }.

Inductive client_step : client_world -> client_world -> Prop :=
| call_arrives c calls : client_step (mkCW c calls) (mkCW c (calls ++ [Waiting]))
| call_enters c c' calls i ctx_done pick :
    calls !! i = Some Waiting -> acquire ctx_done pick c = Acquired c' ->
    client_step (mkCW c calls) (mkCW c' (<[i := Working]> calls))
| call_cancelled c calls i ctx_done pick :
    calls !! i = Some Waiting -> acquire ctx_done pick c = Cancelled ->
    client_step (mkCW c calls) (mkCW c (<[i := Returned]> calls))
| call_returns c calls i :
    calls !! i = Some Working -> client_step (mkCW c calls) (mkCW (release c) (<[i := Returned]> calls)).

Definition working (calls : list phase) : Z := Z.of_nat (length (filter (fun p => p = Working) calls)).

Lemma working_insert calls i p q : calls !! i = Some p ->
  working (<[i := q]> calls) =
    working calls - (if decide (p = Working) then 1 else 0) + (if decide (q = Working) then 1 else 0).
Proof.
  intros Hi. unfold working. rewrite insert_take_drop by (by eapply lookup_lt_Some).
  rewrite <- (take_drop_middle calls i p Hi) at 3. rewrite !filter_app, !length_app, !filter_cons.
  destruct (decide (p = Working)), (decide (q = Working)); simpl; lia.
Qed.

(** The calls at work on the store are as many as the slots taken, and never more
    than the bound of the client. *)
Theorem client_bounded maxParallel w :
  steps client_step (mkCW (NewClient maxParallel) []) w ->
  working (cw_calls w) = cl_held (cw_client w) /\ 0 <= cl_held (cw_client w) <= cl_cap (cw_client w) /\
  cl_cap (cw_client w) = cl_cap (NewClient maxParallel).
Proof.
  intros H. pose proof (steps_invariant client_step (fun w =>
    working (cw_calls w) = cl_held (cw_client w) /\ 0 <= cl_held (cw_client w) <= cl_cap (cw_client w) /\
    cl_cap (cw_client w) = cl_cap (NewClient maxParallel))) as Hinv.
  apply Hinv in H; [done | |].
  - clear. intros w w' (Hw & Hb & Hc) Hs.
    destruct Hs as [c calls|c c' calls i d p Hi Ha|c calls i d p Hi Ha|c calls i Hi]; cbn [cw_calls cw_client] in *.
    + unfold working in *. rewrite filter_app, length_app. simpl. split_and!; [lia | lia.. | done].
    + unfold acquire in Ha. destruct (bool_decide_reflect (cl_held c < cl_cap c)); cbn [andb] in Ha; [|by case_match].
      destruct (negb _); [|by case_match]. injection Ha as <-. rewrite (working_insert _ _ _ _ Hi). simpl. split_and!; [lia.. | done].
    + rewrite (working_insert _ _ _ _ Hi). simpl. split_and!; [lia.. | done].
    + rewrite (working_insert _ _ _ _ Hi). simpl.
      assert (0 < working calls) by (pose proof (working_insert calls i Working Returned Hi) as Hx; simpl in Hx; unfold working in *; lia).
      split_and!; [lia.. | done].
  - simpl. split; [done |]. unfold DefaultMaxParallel. case_bool_decide; simpl; lia.
Qed.

(** ** The adapter *)

Record ObjResource := mkObjResource { or_ID : ResourceID; or_DisplayName : string; or_client : Client; or_closed : bool }.

Definition KindObjectStore : string := "object-store".

(** [has_store] is [cfg.Store != nil]. *)
Definition NewObject (id : ResourceID) (display : string) (has_store : bool) (maxParallel : Z)
  : (obj_err + rerror) + ObjResource :=
  if negb has_store then inl (inl OErrInvalidArg)
  else
    let id := if bool_decide (id_Kind id = "") then mkID KindObjectStore (id_Environment id) (id_Service id) (id_Name id) else id in
    if negb (bool_decide (id_Kind id = KindObjectStore)) then inl (inl OErrInvalidArg)
    else match ID_Validate id with
         | Some err => inl (inr err)
         | None => inr (mkObjResource id display (NewClient maxParallel) false)
         end.

Definition obj_Describe (r : ObjResource) : Description :=
  mkDescription (if bool_decide (or_DisplayName r = "") then id_Name (or_ID r) else or_DisplayName r)
    "Object storage resource (S3-shaped, no cloud SDK)" (Some {["adapter" := "object"]}) "".

Definition obj_Capabilities : ResourceCapabilities := mkRCaps false false false true false false true false false.

Definition obj_dimensions (closed : bool) : gmap string DimensionHealth :=
  <["availability" := if closed then mkDimension HealthUnhealthy "closed" else mkDimension HealthHealthy ""]>
    {["durability" := mkDimension HealthHealthy "adapter-local"]}.

Definition obj_Health (now : Time) (order : list (string * DimensionHealth)) (r : ObjResource) : ResourceHealth :=
  ComputeOverall order (mkHealth (HealthOther "") now "" (obj_dimensions (or_closed r))).

Definition obj_Close (r : ObjResource) : ObjResource := mkObjResource (or_ID r) (or_DisplayName r) (or_client r) true.

(** [Snapshot] after the client has let it in. *)
Definition obj_Snapshot (order : list (string * entry)) (s : Store) : obj_err + gmap string string :=
  match List_ order "" (mkListOptions "" "" DefaultMaxObjects) s with
  | inl err => inl err
  | inr metas => inr (<["object_count" := fmt_d (Z.of_nat (length metas))]> {["adapter" := "object"]})
  end.

(** [NewResource] of the memory package. *)
Definition NewResource (id : ResourceID) (display : string) : ((obj_err + rerror) + ObjResource) * Store :=
  (NewObject id display true 0, NewStore 0 0).

(** The adapter is healthy exactly until it is closed. *)
Lemma obj_health_open now order r : ranges order (obj_dimensions (or_closed r)) ->
  rh_Overall (obj_Health now order r) = if or_closed r then HealthUnhealthy else HealthHealthy.
Proof.
  intros Hr. assert (obj_dimensions (or_closed r) ≠ ∅) as Hne by apply insert_non_empty.
  destruct (overall_is_worst order (mkHealth (HealthOther "") now "" (obj_dimensions (or_closed r))) Hne Hr) as (Hge & Hin & _).
  fold (obj_Health now order r) in Hge, Hin. cbn [rh_Dimensions] in Hge, Hin.
  assert (forall k d, obj_dimensions (or_closed r) !! k = Some d ->
    dh_Status d = HealthHealthy \/ (or_closed r = true /\ dh_Status d = HealthUnhealthy)) as Hd.
  { intros k d. unfold obj_dimensions. rewrite lookup_insert_Some, lookup_singleton_Some.
    intros [[_ <-]|[_ [_ <-]]]; [destruct (or_closed r); auto | by left]. }
  specialize (Hge "availability" _ (lookup_insert_eq _ _ _)). destruct (or_closed r).
  - destruct Hin as [E|(k & d & Hk & E)]; [rewrite E in Hge; simpl in Hge; lia |].
    destruct (Hd k d Hk) as [Hs|[_ Hs]]; rewrite E, Hs in *; [simpl in Hge; lia | done].
  - destruct Hin as [E|(k & d & Hk & E)]; [done |]. destruct (Hd k d Hk) as [Hs|[[=] _]]. congruence.
Qed.

(** ** Examples *)

Definition sha_demo (b : bytes) : string := String.string_of_list_ascii b.
Definition opts0 : PutOptions := mkPutOptions "" None "" "" false "".
Definition idem (k : string) : PutOptions := mkPutOptions "" None k "" false "".
Definition put_demo (bucket key : string) (opts : PutOptions) (s : Store) : Store :=
  (Put sha_demo 1 bucket key ["x"%char] opts s).1.

Definition s_demo : Store := put_demo "b" "c" opts0 (put_demo "a" "z" opts0 (put_demo "a" "k" opts0 (NewStore 10 10))).

Lemma put_demo_reachable s0 s bucket key opts :
  steps (obj_step sha_demo) s0 s -> steps (obj_step sha_demo) s0 (put_demo bucket key opts s).
Proof. intros H. eapply steps_app; [exact H |]. apply steps_one. apply step_put. Qed.

Lemma s_demo_reachable : steps (obj_step sha_demo) (NewStore 10 10) s_demo.
Proof. unfold s_demo. do 3 apply put_demo_reachable. constructor. Qed.

Lemma s_demo_orders : Forall (fun o => ranges o (os_objects s_demo)) (replicate 4 (map_to_list (os_objects s_demo))).
Proof. apply Forall_replicate. unfold ranges. apply Permutation_refl. Qed.

Lemma pages_complete_witness :
  exists m body, os_objects s_demo !! "a/z" = Some (mkEntryO m body) /\
  m ∈ pages (replicate 4 (map_to_list (os_objects s_demo))) "a" "" "" 1 s_demo.
Proof.
  do 2 eexists. split; [reflexivity |].
  apply (pages_complete sha_demo 10 10 s_demo (map_to_list (os_objects s_demo)) (replicate 3 (map_to_list (os_objects s_demo)))
    "a" "" 1 s_demo_reachable eq_refl ltac:(done) ltac:(lia) s_demo_orders ltac:(apply Nat.leb_le; vm_compute; reflexivity)).
  exists "a/z". eexists. split; [reflexivity |]. split; reflexivity.
Defined.

(** Over all buckets the cursor, a key, does not fit the order, bucket first: the
    object [b/c] is on no page. *)
Lemma pages_across_buckets_lose :
  om_Key <$> pages (replicate 9 (map_to_list (os_objects s_demo))) "" "" "" 1 s_demo = ["k"; "z"] /\
  match List_ (map_to_list (os_objects s_demo)) "" (mkListOptions "" "" 0) s_demo with
  | inr l => om_Key <$> l = ["k"; "z"; "c"] | inl _ => False end.
Proof. split; vm_compute; reflexivity. Qed.

(** An idempotency key is not tied to what was written: another object put under the
    same key, or the same object after it was deleted, is reported as stored. *)
Lemma idempotency_forgets_object :
  let s := put_demo "a" "k" (idem "op") (NewStore 10 10) in
  let '(s', r) := Put sha_demo 2 "a" "other" ["y"%char] (idem "op") s in
  (exists m, r = inr m /\ om_Key m = "k") /\ Get "a" "other" "" s' = inl OErrNotFound.
Proof. vm_compute. split; [eexists; split; reflexivity | reflexivity]. Qed.

Lemma idempotent_put_after_delete :
  let s := (Delete "a" "k" (put_demo "a" "k" (idem "op") (NewStore 10 10))).1 in
  let '(s', r) := Put sha_demo 2 "a" "k" ["x"%char] (idem "op") s in
  (exists m, r = inr m) /\ Get "a" "k" "" s' = inl OErrNotFound.
Proof. vm_compute. split; [eexists; reflexivity | reflexivity]. Qed.

(** Buckets are not separated: an object of one replaces an object of another. *)
Lemma buckets_collide :
  let s := put_demo "a/b" "c" opts0 (put_demo "a" "b/c" opts0 (NewStore 10 10)) in
  Len s = 1 /\ exists m body, Get "a" "b/c" "" s = inr (m, body) /\ om_Bucket m = "a/b".
Proof. vm_compute. split; [reflexivity |]. do 2 eexists. split; reflexivity. Qed.

(** The largest bound wraps to a negative limit, and the content is cut to nothing
    without an error. *)
Lemma copy_reader_wraps : CopyReader ["x"%char] false (2 ^ 63 - 1) = inr [].
Proof. vm_compute. reflexivity. Qed.

(** With a bound below the largest integer [CopyReader] returns the whole content or
    an error. *)
Lemma copy_reader_exact content fails max : 0 < max < 2 ^ 63 - 1 ->
  CopyReader content fails max =
    if bool_decide (max < Z.of_nat (length content)) then inl (Some OErrBoundExceeded)
    else if fails then inl None else inr content.
Proof.
  intros Hm. unfold CopyReader. rewrite (bool_decide_false (max <= 0)) by lia.
  rewrite i64_small by (unfold is_i64; lia). rewrite length_take.
  destruct (bool_decide_reflect (max < Z.of_nat (length content))).
  - rewrite (bool_decide_false (_ < max + 1)) by lia. rewrite andb_false_r. by rewrite bool_decide_true by lia.
  - rewrite (bool_decide_true (_ < max + 1)) by lia. rewrite andb_true_r. destruct fails; [done |].
    rewrite bool_decide_false by lia. by rewrite take_ge by lia.
Qed.
