(* ===== verification/Paths.v ===== *)
(** * File paths ([path/filepath] on Unix)

    [IsAbs], [Base], [Clean], [Join] and [Rel] as the adapters use them, on the
    elements between slashes. *)

From S2P Require Import Prelude GoStrings ResourceID.

Definition IsAbs (path : string) : bool := String.prefix "/" path.

(** [Base]: the last element, trailing slashes removed; ["."] for the empty path and
    ["/"] for slashes alone. *)
Definition Base (path : string) : string :=
  if bool_decide (path = "") then "."
  else match last (filter (fun e => e ≠ "") (Split_slash path)) with Some e => e | None => "/" end.

(** One element of [Clean]: [out] is what has been kept, in order. *)
Definition clean_elem (rooted : bool) (out : list string) (e : string) : list string :=
  if bool_decide (e = "") || bool_decide (e = ".") then out
  else if bool_decide (e = "..") then
    match last out with
    | Some l => if bool_decide (l = "..") then out ++ [e] else removelast out
    | None => if rooted then out else [e]
    end
  else out ++ [e].

Definition clean_elems (path : string) : list string := foldl (clean_elem (IsAbs path)) [] (Split_slash path).

(** [Clean]: the elements joined again. *)
Definition unclean (rooted : bool) (elems : list string) : string :=
  if rooted then "/" +:+ join_slash elems
  else match elems with [] => "." | _ => join_slash elems end.

Definition Clean (path : string) : string := unclean (IsAbs path) (clean_elems path).

(** ** What [Clean] leaves *)

Definition plain_elem (e : string) : Prop := e ≠ "" /\ e ≠ "." /\ has_slash e = false.

Lemma Split_no_slash s : Forall (fun e => has_slash e = false) (Split_slash s).
Proof.
  induction s as [|c t IH]; [by constructor |]. cbn [Split_slash]. case_bool_decide as Hc; [by constructor |].
  destruct (Split_slash t) as [|h r]; [by constructor; [simpl; rewrite bool_decide_false |]|].
  apply Forall_cons_1 in IH as [Hh Hr]. constructor; [|done]. simpl. by rewrite bool_decide_false.
Qed.

Lemma Forall_removelast {A} (P : A -> Prop) l : Forall P l -> Forall P (removelast l).
Proof. induction 1 as [|x l Hx Hl IH]; [constructor |]. destruct l; [constructor |]. simpl in *. by constructor. Qed.

Lemma clean_elem_rooted out e :
  Forall (fun x => plain_elem x /\ x ≠ "..") out -> has_slash e = false ->
  Forall (fun x => plain_elem x /\ x ≠ "..") (clean_elem true out e).
Proof.
  intros Ho He. unfold clean_elem. destruct (bool_decide_reflect (e = "")), (bool_decide_reflect (e = ".")); try done.
  cbn [orb]. case_bool_decide as Hd.
  - destruct (last out) as [l|] eqn:El; [|done]. apply last_Some in El as [l' ->].
    apply Forall_app in Ho as [Ho Hl]. apply Forall_cons_1 in Hl as [[_ Hl] _].
    rewrite bool_decide_false by done. rewrite removelast_last. done.
  - apply Forall_app. split; [done |]. by repeat constructor.
Qed.

(** A rooted path is cleaned of empty elements, dots and double dots. *)
Lemma clean_rooted path : IsAbs path = true -> Forall (fun x => plain_elem x /\ x ≠ "..") (clean_elems path).
Proof.
  intros Ha. unfold clean_elems. rewrite Ha. pose proof (Split_no_slash path) as Hs.
  assert (Forall (fun x => plain_elem x /\ x ≠ "..") []) as H0 by constructor. revert H0.
  generalize (@nil string). induction Hs as [|e l He _ IH]; intros out Ho; [done |]. cbn [foldl].
  apply IH. by apply clean_elem_rooted.
Qed.

Lemma Split_join elems :
  elems ≠ [] -> Forall (fun e => has_slash e = false) elems -> Split_slash (join_slash elems) = elems.
Proof.
  intros Hn H. induction H as [|e l He Hl IH]; [done |]. cbn [join_slash]. destruct l as [|e' l]; [by apply Split_last |].
  rewrite Split_segment by done. f_equal. by apply IH.
Qed.

(** [Join] of two elements, and [Rel] for paths that are both rooted or both not:
    [None] stands for its error. *)
Definition Join (a b : string) : string :=
  if bool_decide (a = "") then (if bool_decide (b = "") then "" else Clean b)
  else if bool_decide (b = "") then Clean a else Clean (a +:+ "/" +:+ b).

Fixpoint strip_common (a b : list string) : list string * list string :=
  match a, b with
  | x :: a', y :: b' => if bool_decide (x = y) then strip_common a' b' else (a, b)
  | _, _ => (a, b)
  end.

Definition Rel (base target : string) : option string :=
  if negb (bool_decide (IsAbs base = IsAbs target)) then None
  else
    let '(b, t) := strip_common (clean_elems base) (clean_elems target) in
    if bool_decide (".." ∈ b) then None
    else Some (unclean false (replicate (length b) ".." ++ t)).

(** [filepath.Dir]: everything before the last element, cleaned. *)
Definition Dir (path : string) : string := Clean (join_slash (removelast (Split_slash path) ++ [""])).

(** [containsDotDot]. *)
Definition containsDotDot (p : string) : bool := bool_decide (".." ∈ Split_slash p).

Lemma Split_app_slash a b : Split_slash (a +:+ "/" +:+ b) = Split_slash a ++ Split_slash b.
Proof.
  induction a as [|c a IH]; [done |]. change (String c a +:+ "/" +:+ b) with (String c (a +:+ "/" +:+ b)).
  cbn [Split_slash]. rewrite IH. case_bool_decide; [done |].
  destruct (Split_nonempty a) as (h & r & ->). done.
Qed.

Lemma IsAbs_app a b : IsAbs a = true -> IsAbs (a +:+ b) = true.
Proof.
  destruct a as [|c a]; [done |]. change (String c a +:+ b) with (String c (a +:+ b)). unfold IsAbs.
  cbn [String.prefix]. destruct (Ascii.ascii_dec _ c); [by destruct (a +:+ b) | done].
Qed.

Lemma IsAbs_root s : IsAbs ("/" +:+ s) = true.
Proof. unfold IsAbs. cbn. by destruct s. Qed.

(** Elements that are none of the special ones are appended; the empty ones and dots
    are dropped. *)
Definition keep_elem (e : string) : Prop := e ≠ "" /\ e ≠ ".".

Lemma clean_plain rooted l : forall out, ".." ∉ l -> foldl (clean_elem rooted) out l = out ++ filter keep_elem l.
Proof.
  induction l as [|e l IH]; intros out Hd; [by rewrite app_nil_r |]. apply not_elem_of_cons in Hd as [He Hd].
  cbn [foldl]. rewrite IH by done. rewrite filter_cons. unfold clean_elem, keep_elem.
  destruct (bool_decide_reflect (e = "")), (bool_decide_reflect (e = ".")); cbn [orb]; subst.
  1-3: rewrite decide_False by tauto; done.
  rewrite bool_decide_false, decide_True by auto. by rewrite <- app_assoc.
Qed.

Lemma filter_keep_id l : Forall (fun x => plain_elem x /\ x ≠ "..") l -> filter keep_elem l = l.
Proof.
  induction 1 as [|x l [(H1 & H2 & _) _] _ IH]; [done |]. rewrite filter_cons, decide_True by done. by rewrite IH.
Qed.

Lemma no_dotdot l : Forall (fun x => plain_elem x /\ x ≠ "..") l -> ".." ∉ l.
Proof. rewrite Forall_forall. intros H Hin. by destruct (H _ Hin). Qed.

Lemma clean_elems_unclean elems :
  Forall (fun x => plain_elem x /\ x ≠ "..") elems -> clean_elems (unclean true elems) = elems.
Proof.
  intros H. unfold clean_elems, unclean. rewrite IsAbs_root.
  change ("/" +:+ join_slash elems) with ("" +:+ "/" +:+ join_slash elems). rewrite Split_app_slash.
  change (Split_slash "") with [""]. cbn [app foldl]. change (clean_elem true [] "") with (@nil string).
  destruct elems as [|e l]; [done |]. rewrite Split_join; [|done | eapply Forall_impl; [exact H | by intros x [(_ & _ & ?) _]]].
  rewrite clean_plain by by apply no_dotdot. by rewrite filter_keep_id.
Qed.

Lemma clean_elems_Clean path : IsAbs path = true -> clean_elems (Clean path) = clean_elems path.
Proof. intros Ha. unfold Clean. rewrite Ha. apply clean_elems_unclean. by apply clean_rooted. Qed.

Lemma IsAbs_Clean path : IsAbs path = true -> IsAbs (Clean path) = true.
Proof. intros Ha. unfold Clean. rewrite Ha. apply IsAbs_root. Qed.

(** Cleaning a rooted path twice is cleaning it once. *)
Lemma Clean_idem path : IsAbs path = true -> Clean (Clean path) = Clean path.
Proof.
  intros Ha. unfold Clean at 1. rewrite IsAbs_Clean, clean_elems_Clean by done. unfold Clean. by rewrite Ha.
Qed.

(** A relative path without double dots goes below the root it is joined to. *)
Lemma clean_below root rel : IsAbs root = true -> containsDotDot rel = false ->
  clean_elems (root +:+ "/" +:+ rel) = clean_elems root ++ filter keep_elem (Split_slash rel).
Proof.
  intros Ha Hd. unfold clean_elems. rewrite IsAbs_app, Ha, Split_app_slash, foldl_app by done.
  apply clean_plain. unfold containsDotDot in Hd. by apply bool_decide_eq_false in Hd.
Qed.

Lemma strip_common_prefix a t : strip_common a (a ++ t) = ([], t).
Proof. induction a as [|x a IH]; [by destruct t |]. simpl. by rewrite bool_decide_true. Qed.
