(* ===== verification/ExecGuard.v ===== *)
(** * The exec guard ([control/execguard/execguard.go])

    An allow-list of absolute executables with exact argument vectors, and the run of
    an allowed request: its environment, the writers that bound its output, and how
    the outcome of the process is reported.  The process itself is a parameter: what
    it writes, and what [cmd.Run] returns.  [lower] is [unicode.ToLower]. *)

From S2P Require Import Prelude GoStrings Runes ResourceID Paths.
From Stdlib Require Import Ascii.

#[local] Open Scope Z_scope.

Inductive exec_err := EErrDenied | EErrRelativePath | EErrShell | EErrOutputLimit | EErrTimeout | EErrOther (e : string).

#[global] Instance exec_err_eq_dec : EqDecision exec_err.
Proof. solve_decision. Defined.

Record CommandRule := mkCommandRule { cr_Path : string; cr_AllowedArgs : list (list string) }.

Record Policy := mkPolicy {
  pl_Commands : list CommandRule; pl_Timeout : Duration; pl_MaxOutputBytes : Z; pl_EnvAllowlist : list string;
  pl_WorkDir : string; pl_DryRun : bool }.

(** A [Guard] is its policy. *)
Abbreviation Guard := Policy (only parsing).

Definition shells : list string :=
  ["sh"; "bash"; "zsh"; "fish"; "cmd.exe"; "cmd"; "powershell.exe"; "powershell"; "pwsh"; "pwsh.exe"].

Section Exec.
Context (lower : Z -> Z).

Definition isShell (base : string) : bool := bool_decide (ToLower lower base ∈ shells).

(** [strings.ContainsAny(s, "*?[]")]. *)
Definition wildcard (s : string) : bool :=
  contains_byte "*"%char s || contains_byte "?"%char s || contains_byte "["%char s || contains_byte "]"%char s.

(** The loop over the rules: the first offending one decides. *)
Definition rule_error (c : CommandRule) : option exec_err :=
  if bool_decide (cr_Path c = "") || negb (IsAbs (cr_Path c)) then Some EErrRelativePath
  else if isShell (Base (cr_Path c)) then Some EErrShell
  else if wildcard (cr_Path c) then Some EErrDenied else None.

Fixpoint rules_error (cs : list CommandRule) : option exec_err :=
  match cs with
  | [] => None
  | c :: cs => match rule_error c with Some e => Some e | None => rules_error cs end
  end.

Definition New (p : Policy) : exec_err + Guard :=
  let p := mkPolicy (pl_Commands p) (if bool_decide (pl_Timeout p <= 0) then 30 * Second else pl_Timeout p)
    (if bool_decide (pl_MaxOutputBytes p <= 0) then Z.shiftl 1 20 else pl_MaxOutputBytes p)
    (pl_EnvAllowlist p) (pl_WorkDir p) (pl_DryRun p) in
  match rules_error (pl_Commands p) with
  | Some e => inl e
  | None =>
    if negb (bool_decide (pl_WorkDir p = "")) && negb (IsAbs (pl_WorkDir p)) then inl EErrRelativePath else inr p
  end.

Record Request := mkRequest { rq_Path : string; rq_Args : list string }.

(** [argsEqual]: equal length, then element by element. *)
Fixpoint args_loop (a b : list string) : bool :=
  match a, b with
  | x :: a, y :: b => if negb (bool_decide (x = y)) then false else args_loop a b
  | _, _ => true
  end.

Definition argsEqual (a b : list string) : bool :=
  if negb (bool_decide (length a = length b)) then false else args_loop a b.

Definition rule_allows (req : Request) (rule : CommandRule) : bool :=
  bool_decide (Clean (cr_Path rule) = Clean (rq_Path req)) &&
  existsb (fun allowed => argsEqual allowed (rq_Args req)) (cr_AllowedArgs rule).

Definition Validate (g : Guard) (req : Request) : option exec_err :=
  if bool_decide (rq_Path req = "") || negb (IsAbs (rq_Path req)) then Some EErrRelativePath
  else if isShell (Base (rq_Path req)) then Some EErrShell
  else if existsb (contains_byte zero) (rq_Args req) then Some EErrDenied
  else if existsb (rule_allows req) (pl_Commands g) then None
  else Some EErrDenied.

(** ** Output *)

Record limitedWriter := mkWriter { lw_buf : bytes; lw_limit : Z; lw_n : Z }.

(** [Write]: the bytes accepted, or [ErrOutputLimit]. *)
Definition Write (p : bytes) (w : limitedWriter) : limitedWriter * (exec_err + Z) :=
  if bool_decide (lw_limit w < i64 (lw_n w + Z.of_nat (length p))) then
    let remain := lw_limit w - lw_n w in
    (if bool_decide (0 < remain)
     then mkWriter (lw_buf w ++ take (Z.to_nat remain) p) (lw_limit w) (lw_n w + remain) else w, inl EErrOutputLimit)
  else (mkWriter (lw_buf w ++ p) (lw_limit w) (lw_n w + Z.of_nat (length p)), inr (Z.of_nat (length p))).

Definition writes (ps : list bytes) (w : limitedWriter) : limitedWriter := foldl (fun w p => (Write p w).1) w ps.

(** ** Running *)

Definition minimalEnv (environ : string -> option string) (allow : list string) : list string :=
  allow ≫= fun name => match environ name with Some v => [name +:+ "=" +:+ v] | None => [] end.

(** What [cmd.Run] returned: no error, an exit status, the error of a writer, or
    another one; and whether the deadline of the context has passed. *)
Inductive run_err := RunExit | RunDeadline | RunOther (e : exec_err).

Record outcome := mkOutcome {
  oc_err : option run_err; oc_deadline : bool; oc_exit : Z; oc_out : list bytes; oc_errout : list bytes }.

(** The command handed to the operating system. *)
Record Spawn := mkSpawn { sp_Path : string; sp_Args : list string; sp_Dir : string; sp_Env : list string }.

Record Result := mkResult {
  rs_Path : string; rs_Args : list string; rs_DryRun : bool; rs_ExitCode : Z; rs_Stdout : bytes; rs_Stderr : bytes }.

Definition result_zero : Result := mkResult "" [] false 0 [] [].

(** The error of the run: no error of [cmd.Run] is a [*limitedWriter], so the branch
    for it is never taken. *)
Definition run_error (o : outcome) : option exec_err :=
  match oc_err o with
  | Some RunDeadline => Some EErrTimeout
  | err =>
    if oc_deadline o then Some EErrTimeout
    else match err with None | Some RunExit => None | Some RunDeadline => Some EErrTimeout | Some (RunOther e) => Some e end
  end.

Definition timed_out (o : outcome) : bool :=
  match oc_err o with Some RunDeadline => true | _ => oc_deadline o end.

(** [process] is how the operating system runs a command. *)
Definition Run (environ : string -> option string) (process : Spawn -> outcome) (g : Guard) (req : Request)
  : list Spawn * (Result * option exec_err) :=
  match Validate g req with
  | Some err => ([], (result_zero, Some err))
  | None =>
    if pl_DryRun g then ([], (mkResult (rq_Path req) (rq_Args req) true 0 [] [], None))
    else
      let cmd := mkSpawn (rq_Path req) (rq_Args req) (pl_WorkDir g) (minimalEnv environ (pl_EnvAllowlist g)) in
      let o := process cmd in
      let w := mkWriter [] (pl_MaxOutputBytes g) 0 in
      ([cmd], (mkResult (rq_Path req) (rq_Args req) false (if timed_out o then 0 else oc_exit o)
                 (lw_buf (writes (oc_out o) w)) (lw_buf (writes (oc_errout o) w)), run_error o))
  end.

(** ** What is allowed *)

(** The base name in lower case is none of the shells. *)
Definition not_a_shell (path : string) : Prop :=
  ToLower lower (Base path) ∉
    ["sh"; "bash"; "zsh"; "fish"; "cmd"; "cmd.exe"; "powershell"; "powershell.exe"; "pwsh"; "pwsh.exe"].

(** No byte of the string is one of these. *)
Definition free_of (cs : list ascii) (s : string) : Prop :=
  Forall (fun c => c ∉ cs) (String.list_ascii_of_string s).

(** The rule may be part of a policy. *)
Definition sound_rule (rule : CommandRule) : Prop :=
  IsAbs (cr_Path rule) = true /\ not_a_shell (cr_Path rule) /\
  free_of ["*"; "?"; "["; "]"]%char (cr_Path rule).

(** The policy lets the request run. *)
Definition permitted (p : Policy) (req : Request) : Prop :=
  IsAbs (rq_Path req) = true /\ not_a_shell (rq_Path req) /\ Forall (free_of [zero]) (rq_Args req) /\
  exists rule, rule ∈ pl_Commands p /\ Clean (cr_Path rule) = Clean (rq_Path req) /\ rq_Args req ∈ cr_AllowedArgs rule.

(** The bytes captured of each stream: one mebibyte unless the policy says otherwise. *)
Definition captured (p : Policy) : Z := if decide (0 < pl_MaxOutputBytes p) then pl_MaxOutputBytes p else 1048576.

Lemma isShell_spec path : isShell (Base path) = false <-> not_a_shell path.
Proof.
  unfold isShell, not_a_shell. rewrite bool_decide_eq_false.
  set (b := ToLower lower (Base path)). unfold shells. rewrite !elem_of_cons, !elem_of_nil. tauto.
Qed.

Lemma contains_byte_spec c s : contains_byte c s = false <-> c ∉ String.list_ascii_of_string s.
Proof.
  induction s as [|d t IH]; simpl; [split; [by intros _ ?%elem_of_nil | done] |].
  rewrite orb_false_iff, bool_decide_eq_false, IH, not_elem_of_cons. naive_solver.
Qed.

Lemma free_of_zero s : contains_byte zero s = false <-> free_of [zero] s.
Proof.
  rewrite contains_byte_spec. unfold free_of. rewrite Forall_forall. setoid_rewrite list_elem_of_singleton. naive_solver.
Qed.

Lemma wildcard_spec s : wildcard s = false <-> free_of ["*"; "?"; "["; "]"]%char s.
Proof.
  unfold wildcard. rewrite !orb_false_iff, !contains_byte_spec. unfold free_of. rewrite Forall_forall.
  setoid_rewrite elem_of_cons. setoid_rewrite elem_of_cons. setoid_rewrite elem_of_cons. setoid_rewrite list_elem_of_singleton.
  naive_solver.
Qed.

Lemma rule_error_spec c : rule_error c = None <-> sound_rule c.
Proof.
  unfold rule_error, sound_rule. rewrite <- isShell_spec, <- wildcard_spec.
  destruct (bool_decide_reflect (cr_Path c = "")) as [->|]; simpl; [by split; [|intros []] |].
  destruct (IsAbs _), (isShell _), (wildcard _); simpl; naive_solver.
Qed.

Lemma argsEqual_spec a b : argsEqual a b = true <-> a = b.
Proof.
  unfold argsEqual. assert (forall a b, length a = length b -> args_loop a b = true <-> a = b) as Hl.
  { clear. induction a as [|x a IH]; intros [|y b] H; try done. simpl in *. case_bool_decide; simpl.
    - rewrite IH by lia. split; congruence.
    - split; [done | congruence]. }
  case_bool_decide; simpl; [by apply Hl |]. split; [done | congruence].
Qed.

Lemma rule_allows_spec cs req :
  existsb (rule_allows req) cs = true <->
  exists rule, rule ∈ cs /\ Clean (cr_Path rule) = Clean (rq_Path req) /\ rq_Args req ∈ cr_AllowedArgs rule.
Proof.
  rewrite existsb_exists. setoid_rewrite <- list_elem_of_In. unfold rule_allows.
  setoid_rewrite andb_true_iff. setoid_rewrite bool_decide_eq_true. setoid_rewrite existsb_exists.
  setoid_rewrite argsEqual_spec. setoid_rewrite <- list_elem_of_In. split.
  - intros (r & Hr & Hc & a & Ha & ->). eauto.
  - intros (r & Hr & Hc & Ha). eauto 10.
Qed.

Lemma no_zero_spec args : existsb (contains_byte zero) args = false <-> Forall (free_of [zero]) args.
Proof.
  induction args as [|a args IH]; simpl; [done |]. by rewrite orb_false_iff, Forall_cons, IH, free_of_zero.
Qed.

Lemma Validate_iff g req : Validate g req = None <-> permitted g req.
Proof.
  unfold Validate, permitted. rewrite <- isShell_spec, <- no_zero_spec, <- rule_allows_spec.
  destruct (bool_decide_reflect (rq_Path req = "")) as [->|_]; cbn [orb]; [by split; [|intros []] |].
  destruct (IsAbs _), (isShell _), (existsb (contains_byte zero) _), (existsb (rule_allows req) _); simpl; naive_solver.
Qed.

Lemma rules_ok cs : rules_error cs = None -> Forall (fun c => rule_error c = None) cs.
Proof. induction cs as [|c cs IH]; [constructor |]. simpl. destruct (rule_error c) eqn:E; [done |]. by constructor; auto. Qed.

Lemma New_spec p g : New p = inr g ->
  Forall sound_rule (pl_Commands p) /\ (pl_WorkDir p = "" \/ IsAbs (pl_WorkDir p) = true) /\
  exists timeout, 0 < timeout /\
    g = mkPolicy (pl_Commands p) timeout (captured p) (pl_EnvAllowlist p) (pl_WorkDir p) (pl_DryRun p).
Proof.
  unfold New. cbn [pl_Commands pl_WorkDir]. destruct (rules_error _) eqn:Er; [done |].
  destruct (_ && _) eqn:Ew; [done |]. intros [= <-].
  split; [eapply Forall_impl; [by apply rules_ok |]; intros c; apply rule_error_spec |].
  split; [apply andb_false_iff in Ew as [Ew|Ew]; apply negb_false_iff in Ew; [left; by apply bool_decide_eq_true in Ew | by right] |].
  exists (if bool_decide (pl_Timeout p <= 0) then 30 * Second else pl_Timeout p).
  split; [destruct (bool_decide_reflect (pl_Timeout p <= 0)); [done | lia] |]. f_equal. unfold captured.
  destruct (bool_decide_reflect (pl_MaxOutputBytes p <= 0)), (decide (0 < pl_MaxOutputBytes p)); try lia; reflexivity.
Qed.

(** ** Bounded output *)

(** Whatever is written, and also when writing goes on after an error, the buffer
    holds the first bytes of the output up to the limit. *)
Lemma Write_prefix p w total : lw_n w = Z.of_nat (length (lw_buf w)) -> 0 <= lw_limit w < 2 ^ 62 ->
  Z.of_nat (length p) < 2 ^ 62 -> lw_buf w = take (Z.to_nat (lw_limit w)) total ->
  let w' := (Write p w).1 in
  lw_limit w' = lw_limit w /\ lw_n w' = Z.of_nat (length (lw_buf w')) /\
  lw_buf w' = take (Z.to_nat (lw_limit w)) (total ++ p).
Proof.
  intros Hn Hl Hp Hb. cbn zeta. pose proof (f_equal length Hb) as Hlen. rewrite length_take in Hlen. unfold Write.
  rewrite i64_small by (unfold is_i64; lia).
  destruct (bool_decide_reflect (lw_limit w < lw_n w + Z.of_nat (length p))) as [Hx|Hx].
  - destruct (bool_decide_reflect (0 < lw_limit w - lw_n w)) as [Hr|Hr]; cbn [fst snd lw_buf lw_limit lw_n].
    + rewrite length_app, length_take. split_and!; [done | lia |].
      rewrite take_app, Hb. f_equal. f_equal. lia.
    + split_and!; [done | done |].
      rewrite take_app, Hb. replace (Z.to_nat (lw_limit w) - length total)%nat with 0%nat by lia.
      by rewrite take_0, app_nil_r.
  - cbn [fst snd lw_buf lw_limit lw_n]. rewrite length_app. split_and!; [done | lia |].
    rewrite take_app, Hb. by rewrite (take_ge p) by lia.
Qed.

Lemma writes_prefix ps : forall w total, lw_n w = Z.of_nat (length (lw_buf w)) -> 0 <= lw_limit w < 2 ^ 62 ->
  Forall (fun p => Z.of_nat (length p) < 2 ^ 62) ps -> lw_buf w = take (Z.to_nat (lw_limit w)) total ->
  lw_buf (writes ps w) = take (Z.to_nat (lw_limit w)) (total ++ mjoin ps).
Proof.
  induction ps as [|p ps IH]; intros w total Hn Hl Hps Hb; [simpl; by rewrite app_nil_r |].
  apply Forall_cons_1 in Hps as [Hp Hps]. destruct (Write_prefix p w total Hn Hl Hp Hb) as (El & En & Eb).
  unfold writes. cbn [foldl]. fold (writes ps (Write p w).1).
  rewrite (IH _ (total ++ p)); rewrite ?El; try done. by rewrite <- app_assoc.
Qed.

(** ** Running only what is allowed *)

Lemma minimalEnv_spec environ allow x : x ∈ minimalEnv environ allow <->
  exists name v, name ∈ allow /\ environ name = Some v /\ x = name +:+ "=" +:+ v.
Proof.
  unfold minimalEnv. rewrite list_elem_of_bind. split.
  - intros (name & Hx & Hn). destruct (environ name) as [v|] eqn:E; [|by apply elem_of_nil in Hx].
    apply list_elem_of_singleton in Hx. eauto.
  - intros (name & v & Hn & E & ->). exists name. rewrite E. split; [by apply list_elem_of_singleton | done].
Qed.

(** C38: Only permitted commands run.  Every rule of a policy [New] accepts has an
    absolute path without wildcards whose base name, in lower case, is none of the ten
    shell names sh, bash, zsh, fish, cmd, powershell and pwsh with the .exe forms, and
    its working directory is empty or absolute.  A request is permitted when its own
    path is absolute and no shell either, no argument holds a zero byte, and one rule
    has the same path after cleaning and lists exactly these arguments.  Whatever the
    environment and the process do, [Run] starts nothing and reports an error for any
    other request, starts nothing for a dry run, and otherwise starts exactly the
    requested path (as written, not the rule's) with these arguments, in the policy's
    directory, with the variables of the allow-list that are set and no others; the
    captured output is the first bytes of each stream up to the limit. *)
Theorem exec_only_allowed p g environ process req :
  New p = inr g -> pl_MaxOutputBytes p < 2 ^ 62 ->
  (forall cmd, Forall (fun b => Z.of_nat (length b) < 2 ^ 62) (oc_out (process cmd) ++ oc_errout (process cmd))) ->
  Forall sound_rule (pl_Commands p) /\ (pl_WorkDir p = "" \/ IsAbs (pl_WorkDir p) = true) /\
  let '(spawned, (res, err)) := Run environ process g req in
  (~ permitted p req -> spawned = [] /\ is_Some err) /\
  (permitted p req -> pl_DryRun p = true -> spawned = [] /\ err = None /\ rs_DryRun res = true) /\
  (permitted p req -> pl_DryRun p = false ->
   exists env, let cmd := mkSpawn (rq_Path req) (rq_Args req) (pl_WorkDir p) env in
     spawned = [cmd] /\
     (forall x, x ∈ env <-> exists name v, name ∈ pl_EnvAllowlist p /\ environ name = Some v /\ x = name +:+ "=" +:+ v) /\
     rs_Stdout res = take (Z.to_nat (captured p)) (mjoin (oc_out (process cmd))) /\
     rs_Stderr res = take (Z.to_nat (captured p)) (mjoin (oc_errout (process cmd)))).
Proof.
  intros Hnew Hmax Hout. destruct (New_spec p g Hnew) as (Hrules & Hdir & timeout & _ & ->).
  split; [done |]. split; [done |]. unfold Run. set (g := mkPolicy _ _ _ _ _ _).
  assert (Validate g req = None <-> permitted p req) as Hv by exact (Validate_iff g req).
  destruct (Validate g req) as [err|].
  { split_and!; [by split | |]; intros Hp%Hv; done. }
  assert (permitted p req) as Hp by by apply Hv. cbn [g pl_DryRun pl_WorkDir pl_EnvAllowlist pl_MaxOutputBytes].
  destruct (pl_DryRun p); [by split_and! |]. split; [done |]. split; [done |]. intros _ _.
  exists (minimalEnv environ (pl_EnvAllowlist p)). cbn zeta. set (cmd := mkSpawn _ _ _ _).
  specialize (Hout cmd). apply Forall_app in Hout as [Ho1 Ho2].
  assert (0 <= captured p < 2 ^ 62) as Hc by (unfold captured; case_decide; lia).
  split; [done |]. split; [intros x; apply minimalEnv_spec |]. cbn [rs_Stdout rs_Stderr].
  by split; rewrite (writes_prefix _ _ []); cbn [lw_n lw_buf lw_limit]; rewrite ?take_nil.
Qed.

(** The guard of a runtime has no rules: nothing is ever started. *)
Lemma empty_policy_denies g environ process req : pl_Commands g = [] -> (Run environ process g req).1 = [].
Proof.
  intros Hg. unfold Run, Validate. rewrite Hg. simpl. by repeat case_match.
Qed.
End Exec.

(** ** Examples *)

Definition policy_demo (dry : bool) : Policy :=
  mkPolicy [mkCommandRule "/usr/bin/tool" [["--check"]]] 0 8 ["PATH"] "/srv" dry.
Definition environ_demo (name : string) : option string :=
  if bool_decide (name = "PATH") then Some "/bin" else if bool_decide (name = "TOKEN") then Some "t" else None.
Definition process_demo (cmd : Spawn) : outcome :=
  mkOutcome None false 0 [String.list_ascii_of_string "hello "; String.list_ascii_of_string "world"] [].
Definition guard_demo : Policy := mkPolicy [mkCommandRule "/usr/bin/tool" [["--check"]]] (30 * Second) 8 ["PATH"] "/srv" false.

Lemma exec_only_allowed_witness :
  New lower_ascii (policy_demo false) = inr guard_demo /\
  permitted lower_ascii (policy_demo false) (mkRequest "/usr/bin/tool" ["--check"]) /\
  exists env, (Run lower_ascii environ_demo process_demo guard_demo (mkRequest "/usr/bin/tool" ["--check"])).1 =
    [mkSpawn "/usr/bin/tool" ["--check"] "/srv" env].
Proof.
  split; [vm_compute; reflexivity |].
  assert (permitted lower_ascii (policy_demo false) (mkRequest "/usr/bin/tool" ["--check"])) as Hp
    by (apply Validate_iff; vm_compute; reflexivity).
  split; [exact Hp |].
  destruct (exec_only_allowed lower_ascii (policy_demo false) guard_demo environ_demo process_demo
    (mkRequest "/usr/bin/tool" ["--check"]) ltac:(vm_compute; reflexivity) ltac:(vm_compute; reflexivity)
    ltac:(intros cmd; repeat constructor)) as (_ & _ & H).
  destruct (Run lower_ascii environ_demo process_demo guard_demo (mkRequest "/usr/bin/tool" ["--check"]))
    as [spawned [res err]]. destruct H as (_ & _ & H).
  destruct (H Hp eq_refl) as (env & E & _). exists env. exact E.
Defined.

(** Paths are compared after cleaning and run as they are: when [/usr/local] is a
    symbolic link, this request starts another file than the one allowed. *)
Lemma cleaned_path_allowed :
  Validate lower_ascii guard_demo (mkRequest "/usr/local/../bin/tool" ["--check"]) = None.
Proof. by vm_compute. Qed.

(** A process stopped because it wrote too much is reported without an error when it
    died from the closed pipe. *)
Lemma output_limit_unreported : run_error (mkOutcome (Some RunExit) false (-1) [] []) = None.
Proof. reflexivity. Qed.
