(* ===== verification/Filesystem.v ===== *)
(** * The directory adapter ([resource/storage/filesystem/filesystem.go])

    Resolving relative paths below a root, exclusive ownership of the directory, and
    the atomic replacement of a file.  The working directory and the answers of the
    operating system are arguments; a replacement is the list of the states of the
    disk it goes through, so that a crash may fall between any two. *)

From S2P Require Import Prelude GoStrings ResourceID Registry ResourceView Paths.
From Stdlib Require Import Ascii.

#[local] Open Scope Z_scope.

Inductive fs_err :=
| FSPathRequired | FSKind | FSInvalidID (e : rerror) | FSNotAbsolute | FSDotDot
| FSEmpty | FSAbsolute | FSTraversal | FSRel | FSEscapes | FSOwner | FSOwned (owner : string) | FSNotOwner
| FSOS (op : string).

#[global] Instance fs_err_eq_dec : EqDecision fs_err.
Proof. solve_decision. Defined.

Record FSResource := mkFS { fs_ID : ResourceID; fs_Path : string; fs_DisplayName : string; fs_owner : string }.

Definition KindFilesystem : string := "filesystem".

(** [filepath.Abs] in the working directory [cwd]. *)
Definition Abs (cwd path : string) : string := if IsAbs path then Clean path else Join cwd path.

Definition with_kind (kind : string) (id : ResourceID) : ResourceID :=
  if bool_decide (id_Kind id = "") then mkID kind (id_Environment id) (id_Service id) (id_Name id) else id.

Definition New (cwd : string) (id : ResourceID) (path display : string) (hardened : bool) : fs_err + FSResource :=
  if bool_decide (path = "") then inl FSPathRequired
  else
    let id := with_kind KindFilesystem id in
    if negb (bool_decide (id_Kind id = KindFilesystem)) then inl FSKind
    else match ID_Validate id with
         | Some err => inl (FSInvalidID err)
         | None =>
           let abs := Abs cwd path in
           if hardened then
             if negb (IsAbs abs) then inl FSNotAbsolute
             else if negb (bool_decide (Clean abs = abs)) && containsDotDot path then inl FSDotDot
             else inr (mkFS id (Clean abs) display "")
           else inr (mkFS id abs display "")
         end.

Definition fs_Describe (r : FSResource) : Description :=
  mkDescription (if bool_decide (fs_DisplayName r = "") then id_Name (fs_ID r) else fs_DisplayName r)
    "Filesystem directory resource" (Some {["adapter" := "filesystem"]}) "".

Definition fs_Capabilities : ResourceCapabilities := mkRCaps true false false true false false true true false.

(** What [os.Stat] answers: an error with its text, or whether it is a directory. *)
Inductive stat := StatMissing | StatError (msg : string) | StatOK (is_dir : bool).

Definition fs_dimensions (st : stat) (r : FSResource) : gmap string DimensionHealth :=
  match st with
  | StatMissing => {["availability" := mkDimension HealthUnhealthy "directory missing"]}
  | StatError msg => {["availability" := mkDimension HealthUnhealthy msg]}
  | StatOK false => {["configuration" := mkDimension HealthUnhealthy "path is not a directory"]}
  | StatOK true =>
    let dims := <["availability" := mkDimension HealthHealthy ""]> {["durability" := mkDimension HealthHealthy ""]} in
    if bool_decide (fs_owner r = "") then dims else <["authz" := mkDimension HealthHealthy "owned"]> dims
  end.

Definition fs_Health (now : Time) (order : list (string * DimensionHealth)) (st : stat) (r : FSResource) : ResourceHealth :=
  let h := ComputeOverall order (mkHealth (HealthOther "") now "" (fs_dimensions st r)) in
  match st with
  | StatOK true => mkHealth (rh_Overall h) (rh_CheckedAt h) "ok" (rh_Dimensions h)
  | _ => h
  end.

(** [len(rel) >= 2 && rel[1] == ':']. *)
Definition drive (rel : string) : bool :=
  match rel with String _ (String c _) => bool_decide (c = ":"%char) | _ => false end.

Definition Resolve (rel : string) (r : FSResource) : fs_err + string :=
  if bool_decide (rel = "") then inl FSEmpty
  else if IsAbs rel || String.prefix "/" rel || String.prefix "\" rel || drive rel then inl FSAbsolute
  else if containsDotDot rel then inl FSTraversal
  else
    let clean := Clean (Join (fs_Path r) rel) in
    match Rel (fs_Path r) clean with
    | None => inl FSRel
    | Some relToRoot =>
      if bool_decide (relToRoot = "..") || String.prefix "../" relToRoot then inl FSEscapes else inr clean
    end.

Definition set_owner (o : string) (r : FSResource) : FSResource := mkFS (fs_ID r) (fs_Path r) (fs_DisplayName r) o.

Definition AcquireExclusive (ownerID : string) (r : FSResource) : FSResource * option fs_err :=
  if bool_decide (ownerID = "") then (r, Some FSOwner)
  else if negb (bool_decide (fs_owner r = "")) && negb (bool_decide (fs_owner r = ownerID))
  then (r, Some (FSOwned (fs_owner r)))
  else (set_owner ownerID r, None).

Definition ReleaseExclusive (ownerID : string) (r : FSResource) : FSResource * option fs_err :=
  if bool_decide (fs_owner r = "") then (r, None)
  else if negb (bool_decide (fs_owner r = ownerID)) then (r, Some FSNotOwner)
  else (set_owner "" r, None).

Definition fs_Snapshot (st : stat) (r : FSResource) : gmap string string :=
  let out := <["adapter" := "filesystem"]> {["root" := Base (fs_Path r)]} in
  let out := if bool_decide (fs_owner r = "") then out else <["owner" := fs_owner r]> out in
  match st with
  | StatOK d => <["isdir" := if d then "true" else "false"]> (<["exists" := "true"]> out)
  | _ => <["exists" := "false"]> out
  end.

(** ** Replacing a file *)

Abbreviation Disk := (gmap string bytes).

(** What the operating system answers to a replacement: which calls fail, how many
    bytes a failed write leaves, and the name of the temporary file. *)
Record os_env := mkOS {
  oe_mkdir : bool; oe_create : bool; oe_tmp : string; oe_write : bool; oe_partial : nat; oe_sync : bool;
  oe_close : bool; oe_rename : bool; oe_remove : bool }.

(** [defer os.Remove(tmpName)]. *)
Definition cleanup (env : os_env) (d : Disk) : Disk := if oe_remove env then delete (oe_tmp env) d else d.

(** The states of the disk after each call, the last one after the deferred removal. *)
Definition AtomicReplace (env : os_env) (rel : string) (data : bytes) (r : FSResource) (d : Disk)
  : list Disk * option fs_err :=
  match Resolve rel r with
  | inl err => ([d], Some err)
  | inr dest =>
    if negb (oe_mkdir env) then ([d], Some (FSOS "mkdir"))
    else if negb (oe_create env) then ([d], Some (FSOS "create"))
    else
      let d1 := <[oe_tmp env := []]> d in
      let partial := <[oe_tmp env := take (oe_partial env) data]> d in
      if negb (oe_write env) then ([d; d1; partial; cleanup env partial], Some (FSOS "write"))
      else
        let d2 := <[oe_tmp env := data]> d in
        let before := [d; d1; partial; d2] in
        if negb (oe_sync env) then (before ++ [cleanup env d2], Some (FSOS "sync"))
        else if negb (oe_close env) then (before ++ [cleanup env d2], Some (FSOS "close"))
        else if negb (oe_rename env) then (before ++ [cleanup env d2], Some (FSOS "rename"))
        else
          let d3 := <[dest := data]> (delete (oe_tmp env) d2) in
          (before ++ [d3; cleanup env d3], None)
  end.

(** [ChecksumSHA256] of a file under the root. *)
Definition ChecksumSHA256 (sha256 : bytes -> string) (rel : string) (r : FSResource) (d : Disk) : fs_err + string :=
  match Resolve rel r with
  | inl err => inl err
  | inr path => match d !! path with None => inl (FSOS "open") | Some b => inr (sha256 b) end
  end.

(** ** Confinement *)

Lemma Abs_abs cwd path : IsAbs cwd = true -> IsAbs (Abs cwd path) = true /\ Clean (Abs cwd path) = Abs cwd path.
Proof.
  intros Hc. unfold Abs. destruct (IsAbs path) eqn:E; [split; [by apply IsAbs_Clean | by apply Clean_idem] |].
  unfold Join. destruct (bool_decide_reflect (cwd = "")) as [->|_]; [done |].
  case_bool_decide; [split; [by apply IsAbs_Clean | by apply Clean_idem] |].
  pose proof (IsAbs_app cwd ("/" +:+ path) Hc) as Ha. split; [by apply IsAbs_Clean | by apply Clean_idem].
Qed.

Lemma New_root cwd id path display hardened r : IsAbs cwd = true -> New cwd id path display hardened = inr r ->
  fs_Path r = Abs cwd path /\ IsAbs (fs_Path r) = true /\ Clean (fs_Path r) = fs_Path r /\ fs_owner r = "".
Proof.
  intros Hc. destruct (Abs_abs cwd path Hc) as [Ha Hcl]. unfold New. case_bool_decide; [done |].
  destruct (negb _); [done |]. destruct (ID_Validate _); [done |]. destruct hardened.
  - rewrite Ha. cbn [negb]. destruct (_ && _); [done |]. intros [= <-]. simpl. by rewrite !Hcl.
  - intros [= <-]. done.
Qed.

Lemma clean_elems_dot l : Forall (fun e => has_slash e = false) l -> ".." ∉ l ->
  Forall (fun x => plain_elem x /\ x ≠ "..") (filter keep_elem l).
Proof.
  intros Hs Hd. rewrite Forall_forall in Hs. apply Forall_forall. intros e [[H1 H2] He]%list_elem_of_filter.
  split; [split_and!; [done | done | by apply Hs] | by intros ->].
Qed.

Lemma no_escape elems : Forall (fun x => plain_elem x /\ x ≠ "..") elems ->
  unclean false elems ≠ ".." /\ String.prefix "../" (unclean false elems) = false.
Proof.
  intros H. destruct elems as [|e l]; [done |]. unfold unclean.
  assert (Split_slash (join_slash (e :: l)) = e :: l) as Hs.
  { apply Split_join; [done |]. eapply Forall_impl; [exact H | by intros x [(_ & _ & ?) _]]. }
  apply Forall_cons_1 in H as [[_ Hd] _]. split.
  - intros E. rewrite E in Hs. injection Hs as <- _. done.
  - apply not_true_is_false. intros (t & E)%prefix_app. rewrite E in Hs. change ("../" +:+ t) with (".." +:+ "/" +:+ t) in Hs.
    rewrite Split_app_slash in Hs. injection Hs as <- _. done.
Qed.

(** The conditions under which a relative path is accepted. *)
Definition acceptable (rel : string) : bool :=
  negb (bool_decide (rel = "")) && negb (IsAbs rel) && negb (String.prefix "\" rel) && negb (drive rel) &&
  negb (containsDotDot rel).

Lemma Resolve_exact cwd id path display hardened r rel :
  IsAbs cwd = true -> New cwd id path display hardened = inr r ->
  (acceptable rel = true ->
   Resolve rel r = inr (unclean true (clean_elems (fs_Path r) ++ filter keep_elem (Split_slash rel)))) /\
  (acceptable rel = false -> exists err, Resolve rel r = inl err).
Proof.
  intros Hc Hn. destruct (New_root _ _ _ _ _ _ Hc Hn) as (_ & Ha & Hcl & _). unfold acceptable, Resolve.
  destruct (bool_decide_reflect (rel = "")) as [|Hr]; [split; [done | by eexists] |]. cbn [negb andb].
  fold (IsAbs rel). destruct (IsAbs rel); [split; [done | by eexists] |].
  destruct (String.prefix "\" rel); [split; [done | by eexists] |].
  destruct (drive rel); [split; [done | by eexists] |]. cbn [negb andb orb].
  destruct (containsDotDot rel) eqn:Hd; [split; [done | by eexists] |]. split; [intros _ | done].
  assert (Join (fs_Path r) rel = Clean (fs_Path r +:+ "/" +:+ rel)) as ->.
  { unfold Join. destruct (bool_decide_reflect (fs_Path r = "")) as [E|_]; [by rewrite E in Ha |]. by rewrite bool_decide_false. }
  pose proof (IsAbs_app (fs_Path r) ("/" +:+ rel) Ha) as Haj. rewrite Clean_idem by done.
  assert (Clean (fs_Path r +:+ "/" +:+ rel) = unclean true (clean_elems (fs_Path r) ++ filter keep_elem (Split_slash rel))) as Hcj.
  { unfold Clean at 1. by rewrite Haj, clean_below. }
  unfold Rel. rewrite Ha, IsAbs_Clean by done. rewrite bool_decide_true by done. cbn [negb].
  rewrite clean_elems_Clean, clean_below, strip_common_prefix by done.
  rewrite bool_decide_false by apply not_elem_of_nil. cbn [replicate app length].
  assert (Forall (fun x => plain_elem x /\ x ≠ "..") (filter keep_elem (Split_slash rel))) as Hp.
  { apply clean_elems_dot; [apply Split_no_slash |]. unfold containsDotDot in Hd. by apply bool_decide_eq_false in Hd. }
  destruct (no_escape _ Hp) as [H1 H2]. rewrite bool_decide_false, H2 by done. cbn [orb]. by rewrite Hcj.
Qed.


(** ** Replacement is atomic *)

(** A state of the disk in which nothing but the temporary file differs, or the
    destination has all of the new data. *)
Definition intact (env : os_env) (dest : string) (data : bytes) (d s : Disk) : Prop :=
  (s !! dest = d !! dest \/ s !! dest = Some data) /\ forall p, p ≠ dest -> p ≠ oe_tmp env -> s !! p = d !! p.

Section Atomic.
Context (env : os_env) (dest : string) (data : bytes) (d : Disk).
Context (Ht : d !! oe_tmp env = None) (Hne : oe_tmp env ≠ dest).

Lemma intact_same : intact env dest data d d.
Proof. split; auto. Qed.

Lemma intact_tmp b : intact env dest data d (<[oe_tmp env := b]> d).
Proof. split; [left; by rewrite lookup_insert_ne | intros p _ Hp; by rewrite lookup_insert_ne]. Qed.

Lemma delete_tmp b : delete (oe_tmp env) (<[oe_tmp env := b]> d) = d.
Proof. rewrite delete_insert_eq. by apply delete_id. Qed.

Lemma intact_cleanup b : intact env dest data d (cleanup env (<[oe_tmp env := b]> d)).
Proof. unfold cleanup. destruct (oe_remove env); [rewrite delete_tmp; apply intact_same | apply intact_tmp]. Qed.

Lemma cleanup_failed b : let s := cleanup env (<[oe_tmp env := b]> d) in
  s !! dest = d !! dest /\ (oe_remove env = true -> s = d).
Proof.
  unfold cleanup. destruct (oe_remove env); [by rewrite delete_tmp |]. split; [by rewrite lookup_insert_ne | done].
Qed.

Lemma intact_renamed : intact env dest data d (<[dest := data]> d) /\ cleanup env (<[dest := data]> d) = <[dest := data]> d.
Proof.
  split; [split; [right; by rewrite lookup_insert_eq | intros p Hp _; by rewrite lookup_insert_ne] |].
  unfold cleanup. destruct (oe_remove env); [|done]. apply delete_id. by rewrite lookup_insert_ne.
Qed.

(** Between any two calls of a replacement, and so after a crash at any point, the
    destination holds what it held before or all of the new data, and every other file
    but the temporary one is as before; success is exactly the new data in place with no
    temporary file left, and after an error the destination is unchanged. *)
Theorem replace_atomic rel r : Resolve rel r = inr dest ->
  let '(states, err) := AtomicReplace env rel data r d in
  Forall (intact env dest data d) states /\
  exists final, last states = Some final /\
    (err = None -> final = <[dest := data]> d) /\
    (is_Some err -> final !! dest = d !! dest /\ (oe_remove env = true -> final = d)).
Proof.
  intros Hr. unfold AtomicReplace. rewrite Hr.
  pose proof intact_same as H0. pose proof intact_tmp as H1. pose proof intact_cleanup as H2.
  destruct (oe_mkdir env); [|split; [by repeat constructor | eexists; split; [done |]; split; [done |]; by auto]].
  destruct (oe_create env); [|split; [by repeat constructor | eexists; split; [done |]; split; [done |]; by auto]].
  cbn [negb]. destruct (oe_write env); cbn [negb].
  2: { split; [repeat (constructor; [by auto |]); constructor |]. eexists. split; [done |]. split; [done |].
       intros _. apply cleanup_failed. }
  set (before := [d; <[oe_tmp env := []]> d; <[oe_tmp env := take (oe_partial env) data]> d; <[oe_tmp env := data]> d]).
  assert (Forall (intact env dest data d) before) as Hb by (repeat (constructor; [by auto |]); constructor).
  assert (forall op, let states := before ++ [cleanup env (<[oe_tmp env := data]> d)] in
    Forall (intact env dest data d) states /\ exists final, last states = Some final /\
    (Some (FSOS op) = None -> final = <[dest := data]> d) /\
    (is_Some (Some (FSOS op)) -> final !! dest = d !! dest /\ (oe_remove env = true -> final = d))) as Hfail.
  { intros op. split; [apply Forall_app; split; [done | constructor; [apply H2 | constructor]] |].
    eexists. split; [done |]. split; [done |]. intros _. apply cleanup_failed. }
  destruct (oe_sync env); [|apply Hfail]. destruct (oe_close env); [|apply Hfail]. destruct (oe_rename env); [|apply Hfail].
  cbn [negb]. rewrite delete_tmp. destruct intact_renamed as [Hend ->].
  split; [apply Forall_app; split; [done | by constructor; [|constructor; [|constructor]]] |].
  eexists. split; [done |]. split; [done | by intros []].
Qed.
End Atomic.

(** ** Examples *)

Definition fs_demo : FSResource := mkFS (mkID "filesystem" "prod" "pay" "data") "/srv/data" "" "".


(** The hardened mode means to refuse a root with double dots, but compares a path
    that is clean already: such a root is accepted. *)
Lemma hardened_accepts_dotdot cwd id path display :
  IsAbs cwd = true -> path ≠ "" -> ID_Validate (with_kind KindFilesystem id) = None ->
  id_Kind (with_kind KindFilesystem id) = KindFilesystem ->
  exists r, New cwd id path display true = inr r.
Proof.
  intros Hc Hp Hv Hk. destruct (Abs_abs cwd path Hc) as [Ha Hcl]. unfold New.
  rewrite bool_decide_false, Hk, Hv, Ha, Hcl by done. rewrite !bool_decide_true by done. by eexists.
Qed.
