(* ===== verification/RateLimiter.v ===== *)
(** * Rate limits ([resource/ratelimit/ratelimit.go])

    The token bucket with its concurrency gate.  [float64] is [spec_float] with the
    binary64 operations of the Standard Library, so that comparisons with infinities
    and NaN are those of the machine; times are those of [time.Now] at each call. *)

From S2P Require Import Prelude GoStrings ResourceID Registry ResourceView Filesystem.
From Stdlib Require Import SpecFloat.

#[local] Open Scope Z_scope.

(** ** binary64 *)

Abbreviation float64 := spec_float (only parsing).

Definition fadd : float64 -> float64 -> float64 := SFadd 53 1024.
Definition fsub : float64 -> float64 -> float64 := SFsub 53 1024.
Definition fmul : float64 -> float64 -> float64 := SFmul 53 1024.
Definition fdiv : float64 -> float64 -> float64 := SFdiv 53 1024.
Definition flt : float64 -> float64 -> bool := SFltb.
Definition fle : float64 -> float64 -> bool := SFleb.
(** The conversion of an [int64]. *)
Definition of_int (z : Z) : float64 := binary_normalize 53 1024 z 0 false.

Definition fzero : float64 := of_int 0.
Definition fone : float64 := of_int 1.

(** [t.Sub(u)] saturates; [d.Seconds()] adds whole seconds and the rest. *)
Definition Sub (t u : Time) : Duration := Z.max (- 2 ^ 63) (Z.min (2 ^ 63 - 1) (t - u)).
Definition Seconds (d : Duration) : float64 := fadd (of_int (d ÷ Second)) (fdiv (of_int (Z.rem d Second)) (of_int 1000000000)).

(** ** State *)

Record RLConfig := mkRLConfig {
  rl_ID : ResourceID; rl_DisplayName : string; rl_Capacity : float64; rl_Refill : float64; rl_MaxConcurrent : Z }.

Record RateLimiter := mkRL {
  rl_cfg : RLConfig; rl_tokens : float64; rl_last : Time; rl_inFlight : Z; rl_rejected : Z; rl_allowed : Z }.

Inductive rl_err := RLKind | RLInvalidID (e : rerror) | RLLimited | RLContext.

#[global] Instance rl_err_eq_dec : EqDecision rl_err.
Proof. solve_decision. Defined.

Definition KindRateLimit : string := "rate-limit".

Definition NewRL (now : Time) (cfg : RLConfig) : rl_err + RateLimiter :=
  let id := with_kind KindRateLimit (rl_ID cfg) in
  if negb (bool_decide (id_Kind id = KindRateLimit)) then inl RLKind
  else match ID_Validate id with
       | Some err => inl (RLInvalidID err)
       | None =>
         let capacity := if fle (rl_Capacity cfg) fzero then fone else rl_Capacity cfg in
         let refill := if fle (rl_Refill cfg) fzero then capacity else rl_Refill cfg in
         inr (mkRL (mkRLConfig id (rl_DisplayName cfg) capacity refill (rl_MaxConcurrent cfg)) capacity now 0 0 0)
       end.

Definition rl_Describe (r : RateLimiter) : Description :=
  mkDescription (if bool_decide (rl_DisplayName (rl_cfg r) = "") then id_Name (rl_ID (rl_cfg r)) else rl_DisplayName (rl_cfg r))
    "Token-bucket / concurrency rate-limit resource" (Some {["adapter" := "ratelimit"]}) "".

Definition rl_Capabilities : ResourceCapabilities := mkRCaps false false false true false false true false true.

Definition refillLocked (now : Time) (r : RateLimiter) : RateLimiter :=
  let elapsed := Seconds (Sub now (rl_last r)) in
  if fle elapsed fzero then r
  else
    let tokens := fadd (rl_tokens r) (fmul elapsed (rl_Refill (rl_cfg r))) in
    let tokens := if flt (rl_Capacity (rl_cfg r)) tokens then rl_Capacity (rl_cfg r) else tokens in
    mkRL (rl_cfg r) tokens now (rl_inFlight r) (rl_rejected r) (rl_allowed r).

Definition reject (r : RateLimiter) : RateLimiter :=
  mkRL (rl_cfg r) (rl_tokens r) (rl_last r) (rl_inFlight r) (u64 (rl_rejected r + 1)) (rl_allowed r).

Definition Allow (now : Time) (r : RateLimiter) : RateLimiter * option rl_err :=
  let r := refillLocked now r in
  if bool_decide (0 < rl_MaxConcurrent (rl_cfg r)) && bool_decide (rl_MaxConcurrent (rl_cfg r) <= rl_inFlight r)
  then (reject r, Some RLLimited)
  else if flt (rl_tokens r) fone then (reject r, Some RLLimited)
  else (mkRL (rl_cfg r) (fsub (rl_tokens r) fone) (rl_last r) (rl_inFlight r + 1) (rl_rejected r) (u64 (rl_allowed r + 1)), None).

Definition Release (r : RateLimiter) : RateLimiter :=
  if bool_decide (0 < rl_inFlight r)
  then mkRL (rl_cfg r) (rl_tokens r) (rl_last r) (rl_inFlight r - 1) (rl_rejected r) (rl_allowed r) else r.

(** [Wait]: one element per round, the time of the attempt and whether the context
    ends the wait after it; [None] when it is still waiting. *)
Fixpoint Wait (rounds : list (Time * bool)) (r : RateLimiter) : RateLimiter * option (option rl_err) :=
  match rounds with
  | [] => (r, None)
  | (now, ctx_done) :: rounds =>
    match Allow now r with
    | (r, None) => (r, Some None)
    | (r, Some RLLimited) => if ctx_done then (r, Some (Some RLContext)) else Wait rounds r
    | (r, Some err) => (r, Some (Some err))
    end
  end.

Definition rl_Health (now now' : Time) (r : RateLimiter) : RateLimiter * ResourceHealth :=
  let r := refillLocked now r in
  let '(status, msg) := if flt (rl_tokens r) fone then (HealthDegraded, "tokens exhausted") else (HealthHealthy, "ok") in
  (r, mkHealth status now' msg {["capacity" := mkDimension status ""]}).

(** [itoa64]: the negation of the least integer is itself, and has no digits. *)
Definition itoa64 (n : Z) : option string :=
  if bool_decide (n = 0) then Some "0"
  else
    let m := if bool_decide (n < 0) then i64 (- n) else n in
    match itoa_loop 20 m "" with
    | None => None
    | Some s => Some (if bool_decide (n < 0) then "-" +:+ s else s)
    end.

Definition uitoa (n : Z) : option string := if bool_decide (n = 0) then Some "0" else itoa_loop 20 n "".

(** ** The concurrency gate and the cap *)

Inductive rl_step : RateLimiter -> RateLimiter -> Prop :=
| rl_allow now r : rl_step r (Allow now r).1
| rl_release r : rl_step r (Release r)
| rl_health now now' r : rl_step r (rl_Health now now' r).1.

Lemma refill_frame now r : let r' := refillLocked now r in
  rl_cfg r' = rl_cfg r /\ rl_inFlight r' = rl_inFlight r /\ rl_rejected r' = rl_rejected r /\ rl_allowed r' = rl_allowed r.
Proof. unfold refillLocked. cbn zeta. by destruct (fle _ _). Qed.

Lemma rl_Health_state now now' r : (rl_Health now now' r).1 = refillLocked now r.
Proof. unfold rl_Health. cbn zeta. by destruct (flt _ _). Qed.

(** The number of requests in flight never exceeds the bound, whatever is allowed
    and released. *)
Theorem inflight_bounded now cfg r0 r :
  NewRL now cfg = inr r0 -> steps rl_step r0 r ->
  0 <= rl_inFlight r /\ (0 < rl_MaxConcurrent cfg -> rl_inFlight r <= rl_MaxConcurrent cfg).
Proof.
  intros Hn Hs. assert (rl_inFlight r0 = 0 /\ rl_MaxConcurrent (rl_cfg r0) = rl_MaxConcurrent cfg) as [H0 H1].
  { unfold NewRL in Hn. destruct (negb _); [done |]. destruct (ID_Validate _); [done |]. by injection Hn as <-. }
  assert (0 <= rl_inFlight r /\ rl_MaxConcurrent (rl_cfg r) = rl_MaxConcurrent cfg /\
          (0 < rl_MaxConcurrent cfg -> rl_inFlight r <= rl_MaxConcurrent cfg)) as (? & _ & ?); [|done].
  apply (steps_invariant rl_step (fun r => 0 <= rl_inFlight r /\ rl_MaxConcurrent (rl_cfg r) = rl_MaxConcurrent cfg /\
          (0 < rl_MaxConcurrent cfg -> rl_inFlight r <= rl_MaxConcurrent cfg))) in Hs; [done | | rewrite H0, H1; lia]. clear.
  intros r r' (Hge & Hc & Hle) Hs. destruct Hs as [t r|r|t t' r].
  - unfold Allow. destruct (refill_frame t r) as (E1 & E2 & _). cbn zeta in *.
    destruct (bool_decide_reflect (0 < rl_MaxConcurrent (rl_cfg (refillLocked t r)))) as [Ha|Ha]; cbn [andb].
    + destruct (bool_decide_reflect (rl_MaxConcurrent (rl_cfg (refillLocked t r)) <= rl_inFlight (refillLocked t r))) as [Hb|Hb].
      * simpl. rewrite E1, E2. done.
      * destruct (flt _ _); simpl; rewrite E1, E2 in *; split_and!; try done; lia.
    + rewrite E1 in Ha. destruct (flt _ _); simpl; rewrite E1, E2; split_and!; try done; lia.
  - unfold Release. case_bool_decide; simpl; split_and!; try done; lia.
  - rewrite rl_Health_state. destruct (refill_frame t r) as (E1 & E2 & _). cbn zeta in *. by rewrite E1, E2.
Qed.

(** A refill that adds anything leaves no more than the capacity. *)
Lemma refill_capped now r : refillLocked now r = r \/ flt (rl_Capacity (rl_cfg r)) (rl_tokens (refillLocked now r)) = false
  \/ rl_tokens (refillLocked now r) = rl_Capacity (rl_cfg r).
Proof.
  unfold refillLocked. destruct (fle _ _); [by left | right]. cbn [rl_tokens].
  destruct (flt (rl_Capacity (rl_cfg r)) (fadd _ _)) eqn:E; [by right | left; exact E].
Qed.

(** ** Bursts *)

#[local] Instance spec_float_eq_dec : EqDecision spec_float.
Proof. solve_decision. Defined.

(** Integers up to a thousand are exact: one token less is one less. *)
Definition exact_at (k : Z) : bool :=
  bool_decide (fsub (of_int (k + 1)) fone = of_int k) && bool_decide (flt (of_int (k + 1)) fone = false) &&
  bool_decide (fle (of_int (k + 1)) fzero = false).

Lemma exact_1000 : forallb exact_at (seqZ 0 1000) = true.
Proof. vm_compute. reflexivity. Qed.

Lemma token_exact k : 0 <= k < 1000 ->
  fsub (of_int (k + 1)) fone = of_int k /\ flt (of_int (k + 1)) fone = false /\ fle (of_int (k + 1)) fzero = false.
Proof.
  intros Hk. pose proof exact_1000 as H. rewrite forallb_forall in H.
  assert (exact_at k = true) as He by (apply H, list_elem_of_In, elem_of_seqZ; lia).
  unfold exact_at in He. rewrite !andb_true_iff, !bool_decide_eq_true in He. tauto.
Qed.

Fixpoint allows (n : nat) (now : Time) (r : RateLimiter) : RateLimiter * list (option rl_err) :=
  match n with
  | O => (r, [])
  | S n => let '(r, e) := Allow now r in let '(r, es) := allows n now r in (r, e :: es)
  end.

(** At one instant no time has passed since the last refill. *)
Lemma refill_now r : refillLocked (rl_last r) r = r.
Proof. unfold refillLocked, Sub. rewrite Z.sub_diag. done. Qed.

Lemma allows_full n : forall r k, (k <= 1000)%nat -> rl_MaxConcurrent (rl_cfg r) <= 0 -> rl_tokens r = of_int (Z.of_nat k) ->
  (allows n (rl_last r) r).2 = replicate (Nat.min n k) None ++ replicate (n - k) (Some RLLimited).
Proof.
  induction n as [|n IH]; intros r k Hk Hm Ht; [done |]. cbn [allows]. unfold Allow at 1. rewrite refill_now.
  rewrite (bool_decide_false (0 < rl_MaxConcurrent (rl_cfg r))) by lia. cbn [andb]. rewrite Ht. destruct k as [|k].
  - change (flt (of_int (Z.of_nat 0)) fone) with true. cbv iota. specialize (IH (reject r) 0%nat Hk Hm Ht).
    change (rl_last (reject r)) with (rl_last r) in IH. destruct (allows n (rl_last r) (reject r)) as [r' es].
    cbn [snd] in *. rewrite IH. by rewrite Nat.min_0_r, Nat.sub_0_r.
  - destruct (token_exact (Z.of_nat k)) as (He & Hf & _); [lia |].
    replace (Z.of_nat (S k)) with (Z.of_nat k + 1) by lia. rewrite He, Hf.
    set (r1 := mkRL _ _ _ _ _ _). specialize (IH r1 k ltac:(lia) Hm eq_refl).
    change (rl_last r1) with (rl_last r) in IH. destruct (allows n (rl_last r) r1) as [r' es].
    cbn [snd] in *. by rewrite IH.
Qed.

(** A fresh bucket with an integral capacity up to a thousand and no concurrency
    bound lets exactly its capacity through in a burst: of the requests made at one
    instant the first ones up to the capacity succeed and all others are refused. *)
Theorem burst_exact now cfg r k n :
  1 <= Z.of_nat k <= 1000 -> rl_Capacity cfg = of_int (Z.of_nat k) -> rl_MaxConcurrent cfg <= 0 -> NewRL now cfg = inr r ->
  (allows n now r).2 = replicate (Nat.min n k) None ++ replicate (n - k) (Some RLLimited).
Proof.
  intros Hk Hc Hm Hn. unfold NewRL in Hn. destruct (negb _); [done |]. destruct (ID_Validate _); [done |].
  injection Hn as <-. assert (fle (rl_Capacity cfg) fzero = false) as Hz.
  { rewrite Hc. destruct (token_exact (Z.of_nat k - 1)) as (_ & _ & Hf); [lia |].
    by replace (Z.of_nat k - 1 + 1) with (Z.of_nat k) in Hf by lia. }
  rewrite Hz. set (r := mkRL _ _ _ _ _ _). by apply (allows_full n r k); [lia | |].
Qed.

(** ** Text *)

(** Numbers are printed as [%d] prints them, except the least [int64]. *)
Lemma itoa64_exact n : is_i64 n -> n ≠ - 2 ^ 63 -> itoa64 n = Some (fmt_i n).
Proof.
  unfold is_i64. intros Hn Hm. unfold itoa64, fmt_i, fmt_d. destruct (bool_decide_reflect (n = 0)) as [->|H0]; [done |].
  assert (forall m, 0 < m < 2 ^ 63 -> itoa_loop 20 m "" = Some (default "" (itoa_loop 20 m ""))) as Hl.
  { intros m Hm'. destruct (itoa_loop_u64 m) as (s & -> & _); [unfold is_u64, u64_modulus; lia | done]. }
  destruct (bool_decide_reflect (n < 0)) as [Hneg|Hneg].
  - rewrite i64_small by (unfold is_i64; lia). rewrite (bool_decide_false (- n = 0)) by lia. by rewrite (Hl (- n)) by lia.
  - by rewrite (Hl n) by lia.
Qed.

Lemma itoa64_least : itoa64 (- 2 ^ 63) = Some "-".
Proof. vm_compute. reflexivity. Qed.

(** ** Examples *)

Definition rl_demo : RLConfig := mkRLConfig (mkID "" "prod" "pay" "api") "" (of_int 2) fzero 0.

Lemma burst_exact_witness : exists r, NewRL 5 rl_demo = inr r /\ (allows 3 5 r).2 = [None; None; Some RLLimited].
Proof.
  eexists. split; [vm_compute; reflexivity |].
  apply (burst_exact 5 rl_demo _ 2 3); [lia | reflexivity | simpl; lia | vm_compute; reflexivity].
Defined.

(** A capacity that is not a number is not replaced, and never limits. *)
Lemma nan_never_limits r n : NewRL 5 (mkRLConfig (mkID "" "prod" "pay" "api") "" S754_nan fone 0) = inr r ->
  (allows n 5 r).2 = replicate n None.
Proof.
  intros [= <-]. set (r := mkRL _ _ _ _ _ _). assert (rl_tokens r = S754_nan /\ rl_last r = 5 /\ rl_MaxConcurrent (rl_cfg r) = 0) as H by done.
  clearbody r. revert r H. induction n as [|n IH]; intros r (Ht & Hl & Hm); [done |]. cbn [allows]. unfold Allow.
  pose proof (refill_now r) as E. rewrite Hl in E. rewrite E, Hm, Ht. cbn [andb bool_decide]. change (flt S754_nan fone) with false.
  set (r1 := mkRL _ _ _ _ _ _). specialize (IH r1 ltac:(done)). simpl. destruct (allows n 5 r1). simpl in *. by rewrite IH.
Qed.
