(* ===== verification/ResourceLease.v ===== *)
(** * Resource leases ([resource/lease.go], [acquire.go])

    The in-process lease manager: leases per resource with their modes, the last
    accepted fencing token per resource, and the acquisition of several leases in
    canonical order with rollback.

    [Lease] reads the registry before it takes the manager's mutex, so it is two
    steps: [Lease_check] against the registry of that moment and [Lease_locked]
    against a possibly later one.  The clock is read twice under the mutex. *)

From S2P Require Import Prelude GoStrings ResourceID Dependency Registry.
From stdpp Require Import sorting.

#[local] Open Scope Z_scope.

(** ** Data *)

Abbreviation LeaseMode := string (only parsing).

Definition LeaseExclusive : LeaseMode := "exclusive".
Definition LeaseShared : LeaseMode := "shared".
Definition LeaseReadOnly : LeaseMode := "read-only".
Definition LeaseMaintenance : LeaseMode := "maintenance".
Definition LeaseMigration : LeaseMode := "migration".
Definition LeaseAdministrative : LeaseMode := "administrative".

Record LeaseRequest := mkLReq {
  lr_Purpose : string; lr_Mode : LeaseMode; lr_Owner : string; lr_TTL : Duration; lr_Fence : Z }.

Definition lreq_zero : LeaseRequest := mkLReq "" "" "" 0 0.

Record Lease := mkLease {
  ls_ID : ResourceID; ls_Mode : LeaseMode; ls_Owner : string; ls_Purpose : string;
  ls_Fence : Z; ls_Epoch : Z; ls_ExpiresAt : Time; ls_AcquiredAt : Time }.

Record LeaseManager := mkLM { lm_held : gmap string (list Lease); lm_fence : gmap string Z }.

Definition NewLeaseManager : LeaseManager := mkLM ∅ ∅.

(** A missing key reads as the zero value. *)
Definition held_at (m : LeaseManager) (key : string) : list Lease := default [] (lm_held m !! key).
Definition fence_at (m : LeaseManager) (key : string) : Z := default 0 (lm_fence m !! key).

(** ** Modes *)

Definition modeRequiresFence (m : LeaseMode) : bool :=
  bool_decide (m = LeaseExclusive) || bool_decide (m = LeaseMaintenance) ||
  bool_decide (m = LeaseMigration) || bool_decide (m = LeaseAdministrative).

Definition modesCompatible (a b : LeaseMode) : bool :=
  if bool_decide (a = LeaseExclusive) || bool_decide (b = LeaseExclusive) then false
  else if bool_decide (a = LeaseMaintenance) || bool_decide (b = LeaseMaintenance) ||
          bool_decide (a = LeaseMigration) || bool_decide (b = LeaseMigration) ||
          bool_decide (a = LeaseAdministrative) || bool_decide (b = LeaseAdministrative) then false
  else true.

(** ** Operations *)

Definition set_held (m : LeaseManager) (key : string) (l : list Lease) : LeaseManager :=
  mkLM (if bool_decide (l = []) then delete key (lm_held m) else <[key := l]> (lm_held m))
    (lm_fence m).

Definition expired_lease (now : Time) (l : Lease) : bool :=
  negb (IsZero (ls_ExpiresAt l)) && negb (After (ls_ExpiresAt l) now).

Definition expireLocked (now : Time) (m : LeaseManager) (key : string) : LeaseManager :=
  if bool_decide (held_at m key = []) then m
  else set_held m key (filter (fun l => expired_lease now l = false) (held_at m key)).

Fixpoint compatible_with (l : list Lease) (mode : LeaseMode) : option rsentinel :=
  match l with
  | [] => None
  | x :: t => if negb (modesCompatible (ls_Mode x) mode) then Some ErrLeaseHeld
              else compatible_with t mode
  end.

Definition compatibleLocked (m : LeaseManager) (key : string) (mode : LeaseMode)
  : option rsentinel := compatible_with (held_at m key) mode.

(** [needsFence] of a request with its mode filled in. *)
Definition needsFence (ent : Entry) (req : LeaseRequest) : bool :=
  SupportsFencing (rs_Capabilities (en_Resource ent)) && modeRequiresFence (lr_Mode req).

Definition default_mode (req : LeaseRequest) : LeaseRequest :=
  if bool_decide (lr_Mode req = "") then
    mkLReq (lr_Purpose req) LeaseExclusive (lr_Owner req) (lr_TTL req) (lr_Fence req)
  else req.

(** The part of [Lease] before the mutex. *)
Definition Lease_check (r : Registry) (id : ResourceID) (req : LeaseRequest)
  : rerror + (LeaseRequest * Entry) :=
  if bool_decide (lr_Owner req = "") then
    inl (RError "Lease" id (RSentinel ErrInvalidArgument))
  else
    let req := default_mode req in
    match Get r id with
    | inl err => inl err
    | inr ent =>
      if needsFence ent req && bool_decide (lr_Fence req = 0) then
        inl (RError "Lease" id (RSentinel ErrFenceRequired))
      else inr (req, ent)
    end.

Definition checkMutationForLease (blocks : bool) (r : Registry) : Registry * option rerror :=
  checkMutationLocked blocks "Lease" r.

(** The fencing part: the manager to go on with, or a stale token. *)
Definition accept_fence (m : LeaseManager) (key : string) (ent : Entry) (req : LeaseRequest)
  : option LeaseManager :=
  let cur := fence_at m key in
  let raise := mkLM (lm_held m) (<[key := lr_Fence req]> (lm_fence m)) in
  if needsFence ent req then
    if bool_decide (lr_Fence req < cur) then None
    else Some (if bool_decide (cur < lr_Fence req) then raise else m)
  else
    Some (if SupportsFencing (rs_Capabilities (en_Resource ent)) &&
             bool_decide (cur < lr_Fence req) then raise else m).

Definition Lease_locked (blocks : bool) (t1 t2 : Time) (r : Registry) (m : LeaseManager)
  (id : ResourceID) (req : LeaseRequest) (ent : Entry)
  : Registry * LeaseManager * (rerror + Lease) :=
  match checkMutationForLease blocks r with
  | (r, Some err) => (r, m, inl err)
  | (r, None) =>
    let key := ID_String id in
    let m := expireLocked t1 m key in
    match compatibleLocked m key (lr_Mode req) with
    | Some s => (r, m, inl (RError "Lease" id (RSentinel s)))
    | None =>
      match accept_fence m key ent req with
      | None => (r, m, inl (RError "Lease" id (RSentinel ErrStaleFence)))
      | Some m =>
        let lease := mkLease id (lr_Mode req) (lr_Owner req) (lr_Purpose req) (lr_Fence req)
          (en_Epoch ent)
          (if bool_decide (0 < lr_TTL req) then Prelude.Add t2 (lr_TTL req) else time_zero) t2 in
        (r, set_held m key (held_at m key ++ [lease]), inr lease)
      end
    end
  end.

(** [Lease] with nothing in between. *)
Definition Lease_op (blocks : bool) (t1 t2 : Time) (r : Registry) (m : LeaseManager)
  (id : ResourceID) (req : LeaseRequest) : Registry * LeaseManager * (rerror + Lease) :=
  match Lease_check r id req with
  | inl err => (r, m, inl err)
  | inr (req, ent) => Lease_locked blocks t1 t2 r m id req ent
  end.

Definition matches (owner : string) (mode : LeaseMode) (l : Lease) : bool :=
  bool_decide (ls_Owner l = owner) && (bool_decide (mode = "") || bool_decide (ls_Mode l = mode)).

(** Drop the first match. *)
Fixpoint drop_first (owner : string) (mode : LeaseMode) (l : list Lease) : option (list Lease) :=
  match l with
  | [] => None
  | x :: t => if matches owner mode x then Some t
              else match drop_first owner mode t with
                   | Some t' => Some (x :: t')
                   | None => None
                   end
  end.

Definition Release (m : LeaseManager) (id : ResourceID) (owner : string) (mode : LeaseMode)
  : LeaseManager * option rerror :=
  let key := ID_String id in
  match drop_first owner mode (held_at m key) with
  | Some l => (set_held m key l, None)
  | None => (m, Some (RError "Release" id (RSentinel ErrLeaseNotHeld)))
  end.

Definition Held (now : Time) (m : LeaseManager) (id : ResourceID) : LeaseManager * list Lease :=
  let m := expireLocked now m (ID_String id) in (m, held_at m (ID_String id)).

Definition release_one (m : LeaseManager) (l : Lease) : LeaseManager :=
  (Release m (ls_ID l) (ls_Owner l) (ls_Mode l)).1.

Definition releaseLeases (m : LeaseManager) (leases : list Lease) : LeaseManager :=
  foldl release_one m (reverse leases).

Record LeaseHandle := mkHandle { lh_IDs : list ResourceID; lh_Leases : list Lease }.

Definition ReleaseHandle (m : LeaseManager) (h : LeaseHandle) : LeaseManager :=
  let m := releaseLeases m (lh_Leases h) in
  if bool_decide (lh_Leases h = []) then
    foldl (fun m id => (Release m id "" "").1) m (lh_IDs h)
  else m.

(** ** Several leases at once

    What the world answers during the call: the context, the lockdown checker and
    the two clock readings of the [i]-th acquisition. *)
Record lease_env := mkEnv {
  ev_ctx : nat -> option rerror; ev_blocks : nat -> bool;
  ev_t1 : nat -> Time; ev_t2 : nat -> Time }.

Definition id_le (a b : ResourceID) : Prop := String.le (ID_String a) (ID_String b).

#[global] Instance id_le_dec : RelDecision id_le.
Proof. intros a b. unfold id_le. apply _. Defined.

Fixpoint parse_all (customs : gset string) (keys : list string) : rerror + list ResourceID :=
  match keys with
  | [] => inr []
  | k :: t =>
    match ParseResourceID customs k with
    | inl err => inl err
    | inr id =>
      match parse_all customs t with inl err => inl err | inr ids => inr (id :: ids) end
    end
  end.

Fixpoint acquire_loop (ev : lease_env) (reqs : gmap string LeaseRequest) (i : nat)
  (r : Registry) (m : LeaseManager) (held : list Lease) (ids : list ResourceID)
  : Registry * LeaseManager * (rerror + list Lease) :=
  match ids with
  | [] => (r, m, inr held)
  | id :: t =>
    match ev_ctx ev i with
    | Some err => (r, releaseLeases m held, inl (RError "AcquireAll" id_zero err))
    | None =>
      let req := default lreq_zero (reqs !! ID_String id) in
      match Lease_op (ev_blocks ev i) (ev_t1 ev i) (ev_t2 ev i) r m id req with
      | (r, m, inl _) =>
        (r, releaseLeases m held, inl (RError "AcquireAll" id (RSentinel ErrPartialAcquire)))
      | (r, m, inr lease) => acquire_loop ev reqs (S i) r m (held ++ [lease]) t
      end
    end
  end.

Definition AcquireAll (customs : gset string) (ev : lease_env) (r : Registry) (m : LeaseManager)
  (reqs : gmap string LeaseRequest) : Registry * LeaseManager * (rerror + LeaseHandle) :=
  if bool_decide (reqs = ∅) then
    (r, m, inl (RError "AcquireAll" id_zero (RSentinel ErrInvalidArgument)))
  else
    match parse_all customs (elements (dom reqs)) with
    | inl err => (r, m, inl err)
    | inr ids =>
      match acquire_loop ev reqs 0 r m [] (merge_sort id_le ids) with
      | (r, m, inl err) => (r, m, inl err)
      | (r, m, inr held) => (r, m, inr (mkHandle (ls_ID <$> held) held))
      end
    end.

(** ** Executions

    Any interleaving of the manager's critical sections, whatever the registry,
    the clock and the lockdown checker do in between.  A step is labelled with what
    it did to a resource: it read the clock for it, or released one of its leases. *)
Inductive levent :=
| Looked (key : string) (now : Time)
| Released (key : string) (owner : string) (mode : LeaseMode).

Inductive lstep : levent -> LeaseManager -> LeaseManager -> Prop :=
| L_lease blocks t1 t2 r0 r1 id req req' ent m :
    Lease_check r0 id req = inr (req', ent) ->
    lstep (Looked (ID_String id) t1) m (Lease_locked blocks t1 t2 r1 m id req' ent).1.2
| L_release id owner mode m :
    lstep (Released (ID_String id) owner mode) m (Release m id owner mode).1
| L_held now id m : lstep (Looked (ID_String id) now) m (Held now m id).1.

Inductive ltrace : list levent -> LeaseManager -> LeaseManager -> Prop :=
| lt_nil m : ltrace [] m m
| lt_cons e es m1 m2 m3 : lstep e m1 m2 -> ltrace es m2 m3 -> ltrace (e :: es) m1 m3.

(** ** The contract, in terms of the recorded leases only *)

(** The modes that tolerate no other lease. *)
Definition private (mode : LeaseMode) : Prop :=
  mode ∈ ["exclusive"; "maintenance"; "migration"; "administrative"].

(** A lease without an expiry time, or whose time has not come. *)
Definition live (now : Time) (l : Lease) : Prop := ls_ExpiresAt l = 0 \/ now < ls_ExpiresAt l.

(** A live lease of the resource cannot go together with a new one in [mode]. *)
Definition conflict (m : LeaseManager) (key : string) (now : Time) (mode : LeaseMode) : Prop :=
  Exists (fun x => live now x /\ (private (ls_Mode x) \/ private mode)) (held_at m key).

(** The mode of a request. *)
Definition asked (req : LeaseRequest) (mode : LeaseMode) : Prop :=
  (lr_Mode req = "" /\ mode = "exclusive") \/ (lr_Mode req ≠ "" /\ mode = lr_Mode req).

(** A lease in [mode] has to carry a token. *)
Definition token_due (ent : Entry) (mode : LeaseMode) : Prop :=
  SupportsFencing (rs_Capabilities (en_Resource ent)) = true /\ private mode.

(** What a call of [Lease] in [mode] past its first checks promises. *)
Definition lease_promise (blocked : option rerror) (m m' : LeaseManager) (id : ResourceID)
  (req : LeaseRequest) (ent : Entry) (mode : LeaseMode) (t1 t2 : Time) (res : rerror + Lease) : Prop :=
  let key := ID_String id in
  let stale := token_due ent mode /\ lr_Fence req < fence_at m key in
  (forall k, k ≠ key -> held_at m' k = held_at m k) /\
  match res with
  | inr l =>
    blocked = None /\ ~ conflict m key t1 mode /\ ~ stale /\
    (ls_Mode l = mode /\ ls_Owner l = lr_Owner req /\ ls_Owner l ≠ "" /\ ls_Fence l = lr_Fence req /\
     ls_ExpiresAt l = (if bool_decide (0 < lr_TTL req) then t2 + lr_TTL req else 0)) /\
    (forall x, x ∈ held_at m' key <-> x = l \/ (x ∈ held_at m key /\ live t1 x)) /\
    (token_due ent mode -> ls_Fence l ≠ 0 /\ fence_at m' key = ls_Fence l)
  | inl e =>
    (blocked = Some e \/
     blocked = None /\ conflict m key t1 mode /\ e = RError "Lease" id (RSentinel ErrLeaseHeld) \/
     blocked = None /\ ~ conflict m key t1 mode /\ stale /\ e = RError "Lease" id (RSentinel ErrStaleFence)) /\
    (forall x, x ∈ held_at m key -> live t1 x -> x ∈ held_at m' key) /\
    (forall x, x ∈ held_at m' key -> x ∈ held_at m key)
  end.

(** The event ends a lease of the resource: its time has come, or it is released. *)
Definition ends (key : string) (l : Lease) (e : levent) : Prop :=
  match e with
  | Looked k now => k = key /\ ~ live now l
  | Released k owner mode => k = key /\ ls_Owner l = owner /\ (mode = "" \/ ls_Mode l = mode)
  end.

(** ** Facts about the state *)

Lemma modesCompatible_spec a b :
  modesCompatible a b = negb (modeRequiresFence a || modeRequiresFence b).
Proof.
  unfold modesCompatible, modeRequiresFence.
  do 4 (destruct (bool_decide (a = _))); do 4 (destruct (bool_decide (b = _))); done.
Qed.

Lemma held_at_set m key l k :
  held_at (set_held m key l) k = if decide (k = key) then l else held_at m k.
Proof.
  unfold held_at, set_held. simpl. case_bool_decide as Hl; case_decide as Hk; subst.
  - by rewrite lookup_delete_eq.
  - by rewrite lookup_delete_ne.
  - by rewrite lookup_insert_eq.
  - by rewrite lookup_insert_ne.
Qed.

Lemma fence_at_set m key l k : fence_at (set_held m key l) k = fence_at m k.
Proof. done. Qed.

Lemma held_at_expire now m key k :
  held_at (expireLocked now m key) k =
    if decide (k = key) then filter (fun l => expired_lease now l = false) (held_at m key)
    else held_at m k.
Proof.
  unfold expireLocked. case_bool_decide as He.
  - case_decide; subst; [by rewrite He | done].
  - apply held_at_set.
Qed.

Lemma fence_at_expire now m key k : fence_at (expireLocked now m key) k = fence_at m k.
Proof. unfold expireLocked. by case_bool_decide. Qed.

Lemma compatible_with_None l mode :
  compatible_with l mode = None -> Forall (fun x => modesCompatible (ls_Mode x) mode = true) l.
Proof.
  induction l as [|x t IH]; simpl; [constructor |].
  destruct (modesCompatible _ _) eqn:E; simpl; [|done]. intros H. constructor; auto.
Qed.

Lemma drop_first_sublist owner mode l l' :
  drop_first owner mode l = Some l' -> l' `sublist_of` l.
Proof.
  revert l'. induction l as [|x t IH]; intros l'; simpl; [done |].
  case_match; [intros [= <-]; by apply sublist_cons |].
  destruct (drop_first _ _ t); [|done]. intros [= <-]. by apply sublist_skip, IH.
Qed.

(** The token of a request that needs one is accepted and becomes current. *)
Lemma accept_fence_spec m key ent req m' :
  accept_fence m key ent req = Some m' ->
  lm_held m' = lm_held m /\ (forall k, fence_at m k <= fence_at m' k) /\
  (needsFence ent req = true -> fence_at m key <= lr_Fence req /\ fence_at m' key = lr_Fence req).
Proof.
  assert (forall b : bool, b = true -> fence_at m key < lr_Fence req ->
    forall k, fence_at m k <= fence_at (mkLM (lm_held m) (<[key := lr_Fence req]> (lm_fence m))) k)
    as Hr.
  { intros _ _ Hlt k. unfold fence_at at 2. simpl. destruct (decide (k = key)) as [->|].
    - rewrite lookup_insert_eq. simpl. lia.
    - rewrite lookup_insert_ne by done. unfold fence_at. lia. }
  unfold accept_fence. destruct (needsFence ent req).
  - destruct (bool_decide_reflect (lr_Fence req < fence_at m key)); [done |].
    destruct (bool_decide_reflect (fence_at m key < lr_Fence req)); intros [= <-].
    + split; [done |]. split; [by apply (Hr true) |]. intros _. split; [lia |].
      unfold fence_at. simpl. by rewrite lookup_insert_eq.
    + split; [done |]. split; [lia |]. intros _. lia.
  - destruct (SupportsFencing _); simpl; [|intros [= <-]; split; [done |]; split; [lia | done]].
    destruct (bool_decide_reflect (fence_at m key < lr_Fence req)); intros [= <-];
      (split; [done |]); (split; [|done]); [by apply (Hr true) | lia].
Qed.

(** The code's tests decide the contract's predicates. *)
Lemma modeRequiresFence_private mode : modeRequiresFence mode = true <-> private mode.
Proof.
  unfold modeRequiresFence, private. rewrite !orb_true_iff, !bool_decide_eq_true.
  rewrite !elem_of_cons, elem_of_nil. unfold LeaseExclusive, LeaseMaintenance, LeaseMigration, LeaseAdministrative.
  tauto.
Qed.

Lemma expired_lease_live now l : expired_lease now l = false <-> live now l.
Proof.
  unfold expired_lease, live, IsZero, After, time_zero.
  destruct (bool_decide_reflect (ls_ExpiresAt l = 0)); destruct (bool_decide_reflect (now < ls_ExpiresAt l));
    simpl; intuition (auto; discriminate).
Qed.

Lemma modesCompatible_private a b : modesCompatible a b = true <-> ~ (private a \/ private b).
Proof.
  rewrite modesCompatible_spec, negb_true_iff, <- not_true_iff_false, orb_true_iff.
  by rewrite !modeRequiresFence_private.
Qed.

Lemma needsFence_due ent req : needsFence ent req = true <-> token_due ent (lr_Mode req).
Proof. unfold needsFence, token_due. by rewrite andb_true_iff, modeRequiresFence_private. Qed.

Lemma compatibleLocked_conflict now m key mode :
  match compatibleLocked (expireLocked now m key) key mode with
  | Some s => s = ErrLeaseHeld /\ conflict m key now mode
  | None => ~ conflict m key now mode
  end.
Proof.
  unfold compatibleLocked, conflict. rewrite held_at_expire, decide_True by done.
  induction (held_at m key) as [|x t IH]; simpl; [by intros ?%Exists_nil |].
  rewrite filter_cons. case_decide as He; simpl.
  - apply expired_lease_live in He. destruct (modesCompatible _ _) eqn:Ec; simpl.
    + apply modesCompatible_private in Ec. destruct (compatible_with _ _); rewrite Exists_cons; tauto.
    + split; [done |]. apply Exists_cons. left. split; [done |].
      rewrite modesCompatible_spec, negb_false_iff, orb_true_iff in Ec.
      by rewrite !modeRequiresFence_private in Ec.
  - rewrite expired_lease_live in He. destruct (compatible_with _ _); rewrite Exists_cons; tauto.
Qed.

(** A granted lease: what the state was and what it becomes. *)
Lemma Lease_locked_grant blocks t1 t2 r m id req ent r' m' l :
  Lease_locked blocks t1 t2 r m id req ent = (r', m', inr l) ->
  let key := ID_String id in
  let live := filter (fun x => expired_lease t1 x = false) (held_at m key) in
  ls_ID l = id /\ ls_Mode l = lr_Mode req /\ ls_Owner l = lr_Owner req /\
  ls_Fence l = lr_Fence req /\
  ls_ExpiresAt l = (if bool_decide (0 < lr_TTL req) then t2 + lr_TTL req else time_zero) /\
  Forall (fun x => modesCompatible (ls_Mode x) (lr_Mode req) = true) live /\
  (forall k, held_at m' k = if decide (k = key) then live ++ [l] else held_at m k) /\
  (forall k, fence_at m k <= fence_at m' k) /\
  (needsFence ent req = true -> fence_at m key <= ls_Fence l /\ fence_at m' key = ls_Fence l).
Proof.
  unfold Lease_locked. destruct (checkMutationForLease blocks r) as [r1 [e|]]; [done |].
  destruct (compatibleLocked _ _ _) eqn:Hc; [done |].
  destruct (accept_fence _ _ _ _) as [m1|] eqn:Hf; [|done].
  intros [= <- <- <-]. cbn zeta. apply compatible_with_None in Hc.
  rewrite held_at_expire, decide_True in Hc by done.
  apply accept_fence_spec in Hf as (F1 & F2 & F3).
  assert (forall k, held_at m1 k = held_at (expireLocked t1 m (ID_String id)) k) as Hh
    by (intros k; unfold held_at; by rewrite F1).
  do 5 (split; [done |]). split; [done |]. split; [|split].
  - intros k. rewrite held_at_set, !Hh, !held_at_expire. by repeat case_decide; subst.
  - intros k. rewrite fence_at_set. rewrite <- (fence_at_expire t1 m (ID_String id) k). apply F2.
  - intros Hn. rewrite fence_at_set. specialize (F3 Hn). by rewrite fence_at_expire in F3.
Qed.

(** A refused lease changes nothing but what has expired. *)
Lemma Lease_locked_refuse blocks t1 t2 r m id req ent r' m' e :
  Lease_locked blocks t1 t2 r m id req ent = (r', m', inl e) ->
  m' = m \/ m' = expireLocked t1 m (ID_String id).
Proof.
  unfold Lease_locked. destruct (checkMutationForLease blocks r) as [r1 [e1|]];
    [intros [= _ <- _]; by left |].
  destruct (compatibleLocked _ _ _); [intros [= _ <- _]; by right |].
  destruct (accept_fence _ _ _ _); [done |]. intros [= _ <- _]; by right.
Qed.

(** ** Exclusion *)

(** A list of leases that can be held together. *)
Definition shareable (l : list Lease) : Prop :=
  (length l <= 1)%nat \/ Forall (fun x => ~ private (ls_Mode x)) l.

Definition lm_inv (m : LeaseManager) : Prop := forall key, shareable (held_at m key).

Lemma shareable_sublist l l' : l' `sublist_of` l -> shareable l -> shareable l'.
Proof.
  intros Hs [H|H]; [left; apply sublist_length in Hs; lia |].
  right. rewrite Forall_forall in *. intros x Hx. apply H. by eapply sublist_subseteq.
Qed.

Lemma shareable_snoc l x :
  Forall (fun y => modesCompatible (ls_Mode y) (ls_Mode x) = true) l -> shareable (l ++ [x]).
Proof.
  intros Hc. destruct l as [|y t]; [left; simpl; lia |]. right.
  assert (forall z, z ∈ y :: t -> ~ private (ls_Mode z) /\ ~ private (ls_Mode x)) as Hz.
  { intros z Hz. rewrite Forall_forall in Hc. specialize (Hc z Hz).
    apply modesCompatible_private in Hc. tauto. }
  apply Forall_app. split.
  - apply Forall_forall. intros z ?. by apply Hz.
  - apply Forall_singleton. by apply (Hz y); left.
Qed.

Lemma expire_inv now m key : lm_inv m -> lm_inv (expireLocked now m key).
Proof.
  intros H k. rewrite held_at_expire. case_decide; [|apply H].
  eapply shareable_sublist; [apply sublist_filter | apply H].
Qed.

Lemma lstep_inv e m m' : lm_inv m -> lstep e m m' -> lm_inv m'.
Proof.
  intros Hi H. destruct H as [blocks t1 t2 r0 r1 id req req' ent m _|id owner mode m|now id m].
  - destruct (Lease_locked _ _ _ _ _ _ _ _) as [[r' m'] [err|l]] eqn:E; simpl.
    + destruct (Lease_locked_refuse _ _ _ _ _ _ _ _ _ _ _ E) as [->| ->];
        [done | by apply expire_inv].
    + destruct (Lease_locked_grant _ _ _ _ _ _ _ _ _ _ _ E) as (_ & Hm & _ & _ & _ & Hc & Hh & _).
      intros k. rewrite Hh. case_decide; [|apply Hi]. apply shareable_snoc. by rewrite Hm.
  - unfold Release. destruct (drop_first _ _ _) eqn:E; [|done]. simpl.
    intros k. rewrite held_at_set. case_decide; [|apply Hi].
    eapply shareable_sublist; [by eapply drop_first_sublist | apply Hi].
  - by apply expire_inv.
Qed.

Lemma lstep_fence e m m' key : lstep e m m' -> fence_at m key <= fence_at m' key.
Proof.
  intros H. destruct H as [blocks t1 t2 r0 r1 id req req' ent m _|id owner mode m|now id m].
  - destruct (Lease_locked _ _ _ _ _ _ _ _) as [[r' m'] [err|l]] eqn:E; simpl.
    + destruct (Lease_locked_refuse _ _ _ _ _ _ _ _ _ _ _ E) as [->| ->];
        rewrite ?fence_at_expire; lia.
    + by apply Lease_locked_grant in E as (_ & _ & _ & _ & _ & _ & _ & Hf & _).
  - unfold Release. destruct (drop_first _ _ _); simpl; rewrite ?fence_at_set; lia.
  - simpl. rewrite fence_at_expire. lia.
Qed.

Lemma expire_keeps now m k key x :
  x ∈ held_at m key -> ~ ends key x (Looked k now) -> x ∈ held_at (expireLocked now m k) key.
Proof.
  intros Hx Hn. rewrite held_at_expire. case_decide as E; [|done]. subst.
  apply list_elem_of_filter. split; [|done]. destruct (expired_lease now x) eqn:Ex; [|done]. exfalso.
  apply Hn. split; [done |]. rewrite <- expired_lease_live. congruence.
Qed.

Lemma drop_first_keeps owner mode l l' x :
  drop_first owner mode l = Some l' -> x ∈ l -> matches owner mode x = false -> x ∈ l'.
Proof.
  revert l'. induction l as [|y t IH]; intros l' Hd Hx Hm; simpl in Hd; [done |].
  apply elem_of_cons in Hx. destruct (matches owner mode y) eqn:Ey.
  - simplify_eq. destruct Hx as [->|]; [congruence | done].
  - destruct (drop_first _ _ t) as [t'|]; [|done]. simplify_eq. apply elem_of_cons.
    destruct Hx as [->|]; [by left | right; by apply IH].
Qed.

Lemma matches_spec owner mode l :
  matches owner mode l = true <-> ls_Owner l = owner /\ (mode = "" \/ ls_Mode l = mode).
Proof. unfold matches. by rewrite andb_true_iff, orb_true_iff, !bool_decide_eq_true. Qed.

(** Only its time or a release ends a lease. *)
Lemma lstep_keeps e m m' key x :
  lstep e m m' -> x ∈ held_at m key -> ~ ends key x e -> x ∈ held_at m' key.
Proof.
  intros H Hx. destruct H as [blocks t1 t2 r0 r1 id req req' ent m _|id owner mode m|now id m].
  - intros Hn. pose proof (expire_keeps t1 m (ID_String id) key x Hx Hn) as Hk.
    destruct (Lease_locked _ _ _ _ _ _ _ _) as [[r' m'] [err|l]] eqn:E; simpl.
    + by destruct (Lease_locked_refuse _ _ _ _ _ _ _ _ _ _ _ E) as [->| ->].
    + apply Lease_locked_grant in E as (_ & _ & _ & _ & _ & _ & Hh & _). rewrite Hh.
      rewrite held_at_expire in Hk. case_decide; [|done]. subst. apply elem_of_app. by left.
  - unfold Release. destruct (drop_first _ _ _) as [l|] eqn:E; [|done]. simpl. intros Hn.
    rewrite held_at_set. case_decide as Ek; [|done]. subst. eapply drop_first_keeps; [done .. |].
    apply not_true_iff_false. rewrite matches_spec. intros Hm. by apply Hn.
  - apply expire_keeps, Hx.
Qed.

(** Along an execution: the invariant, the tokens and the leases nothing has ended. *)
Lemma ltrace_facts es m m' :
  ltrace es m m' -> lm_inv m ->
  lm_inv m' /\ (forall key, fence_at m key <= fence_at m' key) /\
  (forall key x, x ∈ held_at m key -> Forall (fun e => ~ ends key x e) es -> x ∈ held_at m' key).
Proof.
  induction 1 as [m|e es m1 m2 m3 Hst Htr IH]; intros Hi; [split_and!; [done | lia | done] |].
  destruct (IH (lstep_inv _ _ _ Hi Hst)) as (I1 & I2 & I3). split; [done |]. split.
  - intros key. pose proof (lstep_fence _ _ _ key Hst). specialize (I2 key). lia.
  - intros key x Hx [H1 H2]%Forall_cons_1. apply I3; [|done]. by eapply lstep_keeps.
Qed.

Lemma lm_inv_new : lm_inv NewLeaseManager.
Proof. intros key. left. unfold held_at, NewLeaseManager. simpl. rewrite lookup_empty. simpl. lia. Qed.

Lemma shareable_alone l x : shareable l -> x ∈ l -> private (ls_Mode x) -> l = [x].
Proof.
  intros [Hl|Hl] Hx Hm.
  - destruct l as [|y [|z t]]; [by apply elem_of_nil in Hx | | simpl in Hl; lia].
    by apply list_elem_of_singleton in Hx as ->.
  - rewrite Forall_forall in Hl. by destruct (Hl x Hx).
Qed.

Lemma Lease_check_facts r id req req' ent :
  Lease_check r id req = inr (req', ent) ->
  lr_Owner req' = lr_Owner req /\ lr_Fence req' = lr_Fence req /\ lr_TTL req' = lr_TTL req /\
  lr_Owner req ≠ "" /\ asked req (lr_Mode req') /\
  (needsFence ent req' = true -> lr_Fence req ≠ 0).
Proof.
  unfold Lease_check. case_bool_decide; [done |]. destruct (Get r id) as [|e]; [done |].
  destruct (needsFence e (default_mode req) && _) eqn:E; [done |]. intros [= <- <-].
  revert E. unfold default_mode, asked. destruct (bool_decide_reflect (lr_Mode req = "")); simpl; intros E;
    (do 4 (split; [done |])); (split; [by auto |]); intros Hn; rewrite Hn in E; by apply bool_decide_eq_false in E.
Qed.

(** Every outcome of [Lease] past its first checks. *)
Lemma Lease_locked_outcome blocks t1 t2 r0 r1 m id req req' ent r' m' res :
  Lease_check r0 id req = inr (req', ent) ->
  Lease_locked blocks t1 t2 r1 m id req' ent = (r', m', res) ->
  lease_promise (checkMutationForLease blocks r1).2 m m' id req ent (lr_Mode req') t1 t2 res.
Proof.
  intros (Ho & Hf & Ht & Hne & _ & Hz)%Lease_check_facts E.
  pose proof (compatibleLocked_conflict t1 m (ID_String id) (lr_Mode req')) as Hc.
  unfold lease_promise. cbn zeta. destruct res as [e|l]; (split; [intros k Hk |]).
  - destruct (Lease_locked_refuse _ _ _ _ _ _ _ _ _ _ _ E) as [->| ->]; [done |].
    by rewrite held_at_expire, decide_False by done.
  - split.
    + revert E. unfold Lease_locked. destruct (checkMutationForLease blocks r1) as [r2 [err|]]; simpl;
        [intros [= _ _ <-]; by left |]. right. revert E.
      destruct (compatibleLocked _ _ _) as [s|]; [destruct Hc as [-> Hc]; intros [= _ _ <-]; by left |].
      unfold accept_fence. destruct (needsFence ent req') eqn:En; [|done]. rewrite fence_at_expire.
      case_bool_decide as Hl; [|done]. intros [= _ _ <-]. right. rewrite <- needsFence_due, <- Hf. auto.
    + assert (m' = m \/ m' = expireLocked t1 m (ID_String id)) as [->| ->] by (by eapply Lease_locked_refuse);
        [auto |]. split; intros x Hx.
      * intros Hl. apply expire_keeps; [done |]. by intros [_ ?].
      * rewrite held_at_expire, decide_True in Hx by done. by apply list_elem_of_filter in Hx as [_ ?].
  - apply Lease_locked_grant in E as (_ & _ & _ & _ & _ & _ & Hh & _). by rewrite Hh, decide_False by done.
  - pose proof (Lease_locked_grant _ _ _ _ _ _ _ _ _ _ _ E) as (_ & Hm & Hlo & Hlf & Hle & _ & Hh & _ & Hg).
    assert ((checkMutationForLease blocks r1).2 = None /\ ~ conflict m (ID_String id) t1 (lr_Mode req')) as [Hb Hn].
    { revert E. unfold Lease_locked. destruct (checkMutationForLease blocks r1) as [r2 [err|]]; [done |].
      destruct (compatibleLocked _ _ _); [done |]. intros _. by split. }
    rewrite <- !needsFence_due. split; [done |]. split; [done |]. split; [|split; [|split]].
    + intros [Hd Hlt]. destruct (Hg Hd) as [Hge _]. rewrite Hlf, Hf in Hge. lia.
    + rewrite Hm, Hlo, Hlf, Hle, Ho, Hf, Ht. done.
    + intros x. rewrite Hh, decide_True by done.
      rewrite elem_of_app, list_elem_of_filter, list_elem_of_singleton, expired_lease_live. tauto.
    + intros Hd. rewrite Hlf, Hf. destruct (Hg Hd) as [_ ->]. rewrite Hlf. auto.
Qed.

Lemma drop_first_split owner mode l :
  match drop_first owner mode l with
  | Some l' => exists a x b, l = a ++ x :: b /\ l' = a ++ b /\
      ls_Owner x = owner /\ (mode = "" \/ ls_Mode x = mode)
  | None => forall x, x ∈ l -> ~ (ls_Owner x = owner /\ (mode = "" \/ ls_Mode x = mode))
  end.
Proof.
  induction l as [|y t IH]; simpl; [intros x Hx; by apply elem_of_nil in Hx |].
  destruct (matches owner mode y) eqn:Ey.
  - apply matches_spec in Ey. exists [], y, t. auto.
  - destruct (drop_first owner mode t) as [t'|].
    + destruct IH as (a & x & b & -> & -> & Hx). exists (y :: a), x, b. auto.
    + intros x [->|Hx]%elem_of_cons; [|by apply IH]. rewrite <- matches_spec. congruence.
Qed.

(** C37: Resource leases exclude each other, stay held and carry fresh tokens.  In
    every state an interleaving of [Lease], [Release] and [Held] calls can reach from
    a new manager, whatever the registry, the clock and the lockdown checker answer:
    a lease in exclusive, maintenance, migration or administrative mode is the only
    one recorded for its resource; from there on a recorded lease stays until its
    time has come at a look at the resource or a [Release] names its owner (and its
    mode or none), and no resource's token falls.  A [Lease] past its first checks
    (owner, registered resource, a token where one is due) is granted unless the
    registry refuses it, a live lease is recorded for the resource and it or the
    request is in one of those four modes, or a due token is lower than the current
    one, each with its error; a grant records exactly the new lease beside the live
    ones, and a due token is not zero and becomes current.  [Release] takes out one
    lease that matches or reports that there is none, and [Held] returns exactly the
    live leases. *)
Theorem lease_exclusion es m :
  ltrace es NewLeaseManager m ->
  (forall key x, x ∈ held_at m key -> private (ls_Mode x) -> held_at m key = [x]) /\
  (forall es' m', ltrace es' m m' ->
     (forall key, fence_at m key <= fence_at m' key) /\
     (forall key x, x ∈ held_at m key -> Forall (fun e => ~ ends key x e) es' -> x ∈ held_at m' key)) /\
  (forall blocks t1 t2 r0 r1 id req req' ent r' m' res,
     Lease_check r0 id req = inr (req', ent) ->
     Lease_locked blocks t1 t2 r1 m id req' ent = (r', m', res) ->
     exists mode, asked req mode /\
       lease_promise (checkMutationForLease blocks r1).2 m m' id req ent mode t1 t2 res) /\
  (forall id owner mode,
     match Release m id owner mode with
     | (m', None) => exists a x b, held_at m (ID_String id) = a ++ x :: b /\
         held_at m' (ID_String id) = a ++ b /\ ls_Owner x = owner /\ (mode = "" \/ ls_Mode x = mode)
     | (m', Some e) => m' = m /\ e = RError "Release" id (RSentinel ErrLeaseNotHeld) /\
         forall x, x ∈ held_at m (ID_String id) -> ~ (ls_Owner x = owner /\ (mode = "" \/ ls_Mode x = mode))
     end) /\
  (forall now id x, x ∈ (Held now m id).2 <-> x ∈ held_at m (ID_String id) /\ live now x).
Proof.
  intros Htr. destruct (ltrace_facts _ _ _ Htr lm_inv_new) as (Hi & _). split; [|split; [|split; [|split]]].
  - intros key x. apply shareable_alone, Hi.
  - intros es' m' H. by destruct (ltrace_facts _ _ _ H Hi) as (_ & ? & ?).
  - intros blocks t1 t2 r0 r1 id req req' ent r' m' res Hc El. exists (lr_Mode req').
    split; [by apply Lease_check_facts in Hc as (_ & _ & _ & _ & ? & _) | by eapply Lease_locked_outcome].
  - intros id owner mode. unfold Release. pose proof (drop_first_split owner mode (held_at m (ID_String id))) as Hd.
    destruct (drop_first _ _ _) as [l'|]; [|done].
    destruct Hd as (a & x & b & H1 & H2 & H3). exists a, x, b. by rewrite held_at_set, decide_True by done.
  - intros now id x. simpl. rewrite held_at_expire, decide_True by done.
    rewrite list_elem_of_filter, expired_lease_live. tauto.
Qed.

(** ** All or nothing *)

(** Who holds a resource in which modes. *)
Definition tag (l : Lease) : string * LeaseMode := (ls_Owner l, ls_Mode l).
Definition owned (m : LeaseManager) (key : string) : list (string * LeaseMode) :=
  tag <$> held_at m key.
Definition owned_in (ls : list Lease) (key : string) : list (string * LeaseMode) :=
  tag <$> filter (fun l => ID_String (ls_ID l) = key) ls.

Lemma drop_first_tag owner mode l :
  mode ≠ "" -> (owner, mode) ∈ tag <$> l ->
  exists l', drop_first owner mode l = Some l' /\ (owner, mode) :: (tag <$> l') ≡ₚ tag <$> l.
Proof.
  intros Hm. induction l as [|x t IH]; [intros H; by apply elem_of_nil in H |].
  rewrite fmap_cons, elem_of_cons. simpl drop_first. destruct (matches owner mode x) eqn:Ex.
  - intros _. exists t. split; [done |]. unfold matches in Ex.
    apply andb_true_iff in Ex as [E1 E2]. apply bool_decide_eq_true in E1.
    rewrite bool_decide_eq_false_2 in E2 by done. apply bool_decide_eq_true in E2.
    unfold tag at 2. by subst.
  - intros [E|H].
    + unfold tag in E. injection E as E1 E2. unfold matches in Ex.
      rewrite bool_decide_eq_true_2 in Ex by done. simpl in Ex.
      rewrite (bool_decide_eq_true_2 (ls_Mode x = mode)) in Ex by done.
      by rewrite orb_true_r in Ex.
    + destruct (IH H) as (t' & -> & Hp). exists (x :: t'). split; [done |].
      rewrite fmap_cons, <- Hp. constructor.
Qed.

Lemma owned_release m l :
  ls_Mode l ≠ "" -> tag l ∈ owned m (ID_String (ls_ID l)) ->
  forall key, owned m key ≡ₚ owned (release_one m l) key ++ owned_in [l] key.
Proof.
  intros Hm Hin key. unfold release_one, Release, owned in *.
  destruct (drop_first_tag _ _ _ Hm Hin) as (l' & -> & Hp). simpl fst. rewrite held_at_set.
  unfold owned_in. rewrite filter_cons. case_decide as Hk; case_decide as Hk'; subst; try done.
  - rewrite <- Hp. simpl. by rewrite Permutation_app_comm.
  - simpl. by rewrite app_nil_r.
Qed.

Lemma owned_in_app l1 l2 key : owned_in (l1 ++ l2) key = owned_in l1 key ++ owned_in l2 key.
Proof. unfold owned_in. by rewrite filter_app, fmap_app. Qed.

(** Releasing what was acquired gives back the holdings from before. *)
Lemma releaseLeases_owned acc : forall m0 m,
  Forall (fun l => ls_Mode l ≠ "") acc ->
  (forall key, owned m key ≡ₚ owned m0 key ++ owned_in acc key) ->
  forall key, owned (releaseLeases m acc) key ≡ₚ owned m0 key.
Proof.
  induction acc as [|l acc IH] using rev_ind; intros m0 m Hm Ho.
  - intros key. unfold releaseLeases. simpl. rewrite Ho. simpl. by rewrite app_nil_r.
  - apply Forall_app in Hm as [Hm [Hl _]%Forall_cons_1].
    unfold releaseLeases. rewrite reverse_snoc. simpl. apply IH; [done |].
    assert (tag l ∈ owned m (ID_String (ls_ID l))) as Hin.
    { rewrite Ho, owned_in_app. apply elem_of_app. right. apply elem_of_app. right.
      unfold owned_in. rewrite filter_cons_True by done. left. }
    intros key. apply (Permutation_app_inv_r (owned_in [l] key)).
    rewrite <- (owned_release m l Hl Hin key), Ho, owned_in_app. by rewrite app_assoc.
Qed.

(** ** The acquisition loop *)

Section AcquireAll.
Context (ev : lease_env) (reqs : gmap string LeaseRequest).

(** Nothing held expires at any clock reading of the call. *)
Definition quiet (m : LeaseManager) : Prop :=
  forall i key l, l ∈ held_at m key -> expired_lease (ev_t1 ev i) l = false.

(** Nor does anything the call may acquire. *)
Definition long_enough : Prop :=
  forall i j key req, reqs !! key = Some req ->
    lr_TTL req <= 0 \/ ev_t1 ev j < ev_t2 ev i + lr_TTL req.

Lemma quiet_live m i key :
  quiet m -> filter (fun x => expired_lease (ev_t1 ev i) x = false) (held_at m key) = held_at m key.
Proof.
  intros Hq. assert (forall x, x ∈ held_at m key -> expired_lease (ev_t1 ev i) x = false) as H
    by (intros x; apply Hq).
  induction (held_at m key) as [|x t IH]; [done |]. rewrite filter_cons_True by (apply H; left).
  by rewrite IH by (intros y ?; apply H; by right).
Qed.

Lemma quiet_expire m i key k :
  quiet m -> held_at (expireLocked (ev_t1 ev i) m key) k = held_at m k.
Proof.
  intros Hq. rewrite held_at_expire. case_decide; subst; [by apply quiet_live | done].
Qed.

Lemma Lease_check_inv r id req req' ent :
  Lease_check r id req = inr (req', ent) ->
  lr_Owner req ≠ "" /\ req' = default_mode req /\ lr_Mode req' ≠ "".
Proof.
  unfold Lease_check. case_bool_decide; [done |]. destruct (Get r id); [done |].
  case_match; [done |]. intros [= <- <-]. split; [done |]. split; [done |].
  unfold default_mode. by destruct (bool_decide_reflect (lr_Mode req = "")).
Qed.

(** One acquisition of the loop. *)
Lemma Lease_op_quiet i r m id r' m' res :
  quiet m -> long_enough ->
  Lease_op (ev_blocks ev i) (ev_t1 ev i) (ev_t2 ev i) r m id
    (default lreq_zero (reqs !! ID_String id)) = (r', m', res) ->
  match res with
  | inl _ => forall k, held_at m' k = held_at m k
  | inr l => quiet m' /\ ls_ID l = id /\ ls_Mode l ≠ "" /\
      forall k, held_at m' k = if decide (k = ID_String id) then held_at m k ++ [l]
                               else held_at m k
  end.
Proof.
  intros Hq Hlong. unfold Lease_op.
  destruct (Lease_check r id _) as [err|[req' ent]] eqn:Hc; [by intros [= <- <- <-] |].
  apply Lease_check_inv in Hc as (Ho & -> & Hm). intros E. destruct res as [e|l].
  - apply Lease_locked_refuse in E as [->| ->]; [done |]. intros k. by apply quiet_expire.
  - apply Lease_locked_grant in E as (H1 & H2 & _ & _ & H5 & _ & Hh & _).
    assert (forall k, held_at m' k = if decide (k = ID_String id) then held_at m k ++ [l]
      else held_at m k) as Hh'.
    { intros k. rewrite Hh. destruct (decide (k = ID_String id)) as [->|]; [|done].
      by rewrite quiet_live. }
    split; [|split; [done |]; split; [by rewrite H2 | done]].
    intros j key x. rewrite Hh'. destruct (decide (key = ID_String id)); [|by apply Hq].
    rewrite elem_of_app, list_elem_of_singleton. intros [?| ->]; [by eapply Hq |].
    destruct (reqs !! ID_String id) as [q|] eqn:Er; [|done]. simpl in *.
    assert (lr_TTL (default_mode q) = lr_TTL q) as Ht
      by (unfold default_mode; by destruct (bool_decide (lr_Mode q = ""))). rewrite Ht in H5.
    unfold expired_lease. rewrite H5. destruct (Hlong i j _ _ Er) as [?|Hlt].
    + by rewrite bool_decide_eq_false_2 by lia.
    + destruct (bool_decide (0 < lr_TTL q)); [|done]. unfold After.
      rewrite bool_decide_eq_true_2 by lia. by rewrite andb_false_r.
Qed.

Lemma acquire_loop_spec m0 : forall ids i r m acc r' m' res,
  long_enough -> quiet m -> Forall (fun l => ls_Mode l ≠ "") acc ->
  (forall key, owned m key ≡ₚ owned m0 key ++ owned_in acc key) ->
  (forall key l, l ∈ held_at m0 key -> l ∈ held_at m key) ->
  (forall l, l ∈ acc -> l ∈ held_at m (ID_String (ls_ID l))) ->
  acquire_loop ev reqs i r m acc ids = (r', m', res) ->
  match res with
  | inl _ => forall key, owned m' key ≡ₚ owned m0 key
  | inr ls => ls_ID <$> ls = (ls_ID <$> acc) ++ ids /\
      (forall l, l ∈ ls -> l ∈ held_at m' (ID_String (ls_ID l))) /\
      (forall key l, l ∈ held_at m0 key -> l ∈ held_at m' key) /\
      (forall key, owned m' key ≡ₚ owned m0 key ++ owned_in ls key) /\
      Forall (fun l => ls_Mode l ≠ "") ls
  end.
Proof.
  induction ids as [|id ids IH]; intros i r m acc r' m' res Hlong Hq Hm Ho Hk Hin E; simpl in E.
  { simplify_eq. rewrite app_nil_r. auto 10. }
  destruct (ev_ctx ev i); [simplify_eq; by apply releaseLeases_owned |].
  destruct (Lease_op _ _ _ _ _ _ _) as [[r1 m1] [e|l]] eqn:El;
    pose proof (Lease_op_quiet _ _ _ _ _ _ _ Hq Hlong El) as Hl; simpl in Hl.
  - simplify_eq. apply releaseLeases_owned; [done |]. intros key. rewrite <- Ho.
    unfold owned. by rewrite Hl.
  - destruct Hl as (Hq1 & Hid & Hmode & Hh). specialize (IH (S i) r1 m1 (acc ++ [l]) r' m' res).
    rewrite fmap_app, <- app_assoc in IH. simpl in IH. rewrite Hid in IH.
    apply IH; try done; clear IH.
    + apply Forall_app. split; [done |]. by constructor.
    + intros key. rewrite owned_in_app, app_assoc, <- Ho. unfold owned, owned_in.
      rewrite Hh, filter_cons, Hid. case_decide as H1; case_decide as H2; subst; try done.
      * by rewrite fmap_app.
      * simpl. by rewrite app_nil_r.
    + intros key x Hx%Hk. rewrite Hh. case_decide; [|done]. apply elem_of_app. by left.
    + intros x [Hx| ->%list_elem_of_singleton]%elem_of_app.
      * specialize (Hin x Hx). rewrite Hh. case_decide; [|done]. apply elem_of_app. by left.
      * rewrite Hh, Hid, decide_True by done. apply elem_of_app. right.
        by apply list_elem_of_singleton.
Qed.
End AcquireAll.

#[global] Instance id_le_total : Total id_le.
Proof. intros a b. unfold id_le. apply (total String.le). Qed.

#[global] Instance id_le_trans : Transitive id_le.
Proof. intros a b c. unfold id_le. apply (transitivity (R := String.le)). Qed.

Lemma parse_all_spec customs keys ids :
  parse_all customs keys = inr ids -> Forall2 (fun k id => ParseResourceID customs k = inr id) keys ids.
Proof.
  revert ids. induction keys as [|k t IH]; intros ids; simpl; [intros [= <-]; constructor |].
  destruct (ParseResourceID customs k) eqn:Ek; [done |].
  destruct (parse_all customs t); [done |]. intros [= <-]. constructor; auto.
Qed.

(** Acquiring several leases is all or nothing.  As long as no lease
    involved expires during the call, [AcquireAll] that fails, for whatever reason
    and at whichever resource, leaves every resource held by the same owners in
    the same modes as before; one that succeeds returns one recorded lease for
    every requested resource, in canonical order whatever the order of the
    request, keeps every lease held before, and [ReleaseHandle] undoes it. *)
Theorem acquireAll_all_or_nothing customs ev r m reqs r' m' res :
  quiet ev m -> long_enough ev reqs ->
  AcquireAll customs ev r m reqs = (r', m', res) ->
  match res with
  | inl _ => forall key, owned m' key ≡ₚ owned m key
  | inr h =>
      lh_IDs h = ls_ID <$> lh_Leases h /\ StronglySorted id_le (lh_IDs h) /\
      length (lh_Leases h) = size reqs /\
      (forall k, k ∈ dom reqs -> exists id, ParseResourceID customs k = inr id /\ id ∈ lh_IDs h) /\
      (forall l, l ∈ lh_Leases h -> l ∈ held_at m' (ID_String (ls_ID l))) /\
      (forall key l, l ∈ held_at m key -> l ∈ held_at m' key) /\
      (forall key, owned (ReleaseHandle m' h) key ≡ₚ owned m key)
  end.
Proof.
  intros Hq Hl. unfold AcquireAll.
  destruct (bool_decide_reflect (reqs = ∅)) as [|Hne]; [by intros [= <- <- <-] |].
  destruct (parse_all customs _) as [err|ids] eqn:Hp; [by intros [= <- <- <-] |].
  apply parse_all_spec in Hp.
  destruct (acquire_loop _ _ _ _ _ _ _) as [[r1 m1] res1] eqn:E.
  apply (acquire_loop_spec ev reqs m) in E; try done;
    [|intros key; unfold owned_in; simpl; by rewrite app_nil_r |intros l Hx; by apply elem_of_nil in Hx].
  destruct res1 as [e|ls]; intros [= <- <- <-]; [done |].
  destruct E as (E1 & E2 & E3 & E4 & E5). simpl in E1. cbn [lh_IDs lh_Leases].
  assert (length ls = size reqs) as Hlen.
  { rewrite <- (length_fmap ls_ID), E1, merge_sort_Permutation, <- (Forall2_length _ _ _ Hp).
    by rewrite <- size_dom. }
  split; [done |]. split; [rewrite E1; apply StronglySorted_merge_sort; apply _ |].
  split; [done |]. split; [|split; [done |]; split; [done |]].
  - intros k Hk%elem_of_elements. apply list_elem_of_lookup_1 in Hk as [i Hi].
    destruct (Forall2_lookup_l _ _ _ _ _ Hp Hi) as (id & Hid & ?). exists id. split; [done |].
    rewrite E1, merge_sort_Permutation. by eapply list_elem_of_lookup_2.
  - unfold ReleaseHandle. cbn [lh_Leases]. rewrite bool_decide_eq_false_2.
    + by apply releaseLeases_owned.
    + intros ->. apply Hne, map_size_empty_inv. done.
Qed.

(** ** Examples *)

Definition ev_demo : lease_env :=
  mkEnv (fun _ => None) (fun _ => false) (fun _ => 5) (fun _ => 6).
Definition req_db : LeaseRequest := mkLReq "migrate" "" "alice" 10 7.
Definition req_api : LeaseRequest := mkLReq "read" LeaseShared "alice" 10 0.
Definition reqs_demo : gmap string LeaseRequest :=
  {[ ID_String id_db := req_db; ID_String id_api := req_api ]}.
Definition m_demo : LeaseManager :=
  (AcquireAll ∅ ev_demo w_demo.2 NewLeaseManager reqs_demo).1.2.

(** An exclusive lease blocks everyone else, also in shared mode, and a stale
    token is refused after release. *)
Example lease_demo :
  (Lease_op false 8 8 w_demo.2 m_demo id_db (mkLReq "" LeaseShared "bob" 0 0)).2 =
    inl (RError "Lease" id_db (RSentinel ErrLeaseHeld)) /\
  (Lease_op false 8 8 w_demo.2 (Release m_demo id_db "alice" "").1 id_db
     (mkLReq "" "" "bob" 0 6)).2 = inl (RError "Lease" id_db (RSentinel ErrStaleFence)).
Proof. split; vm_compute; reflexivity. Qed.

Definition req_db' : LeaseRequest := default_mode req_db.
Definition ent_db : Entry := mkEntry (mkResource id_db "database"
  (mkRCaps true true false true false false false false false)) meta0 0 4.

Lemma lease_exclusion_witness :
  exists es m l, ltrace es NewLeaseManager m /\ held_at m (ID_String id_db) = [l] /\
    ls_Owner l = "alice" /\ fence_at m (ID_String id_db) = 7 /\
    forall now x, x ∈ (Held now m id_db).2 <-> x ∈ held_at m (ID_String id_db) /\ live now x.
Proof.
  assert (Lease_check w_demo.2 id_db req_db = inr (req_db', ent_db)) as Hc by (vm_compute; reflexivity).
  pose (m := (Lease_locked false 5 6 w_demo.2 NewLeaseManager id_db req_db' ent_db).1.2).
  assert (ltrace [Looked (ID_String id_db) 5] NewLeaseManager m) as H
    by (eapply lt_cons; [exact (L_lease false 5 6 w_demo.2 w_demo.2 id_db req_db req_db' ent_db _ Hc) | apply lt_nil]).
  destruct (lease_exclusion _ m H) as (Hx & _ & _ & _ & Hh).
  exists [Looked (ID_String id_db) 5], m, (mkLease id_db "exclusive" "alice" "migrate" 7 0 16 6).
  split; [exact H |]. split; [|split; [reflexivity | split; [vm_compute; reflexivity | exact (fun now => Hh now id_db)]]].
  apply Hx; [|left].
  assert (held_at m (ID_String id_db) = [mkLease id_db "exclusive" "alice" "migrate" 7 0 16 6]) as ->
    by (vm_compute; reflexivity). left.
Defined.

Lemma acquireAll_all_or_nothing_witness :
  quiet ev_demo NewLeaseManager /\ long_enough ev_demo reqs_demo /\
  exists h, (AcquireAll ∅ ev_demo w_demo.2 NewLeaseManager reqs_demo).2 = inr h /\
    lh_IDs h = [id_db; id_api] /\ length (lh_Leases h) = size reqs_demo /\
    forall key, owned (ReleaseHandle m_demo h) key ≡ₚ owned NewLeaseManager key.
Proof.
  assert (quiet ev_demo NewLeaseManager) as Hq.
  { intros i key l Hl. unfold held_at in Hl. simpl in Hl. rewrite lookup_empty in Hl.
    by apply elem_of_nil in Hl. }
  assert (long_enough ev_demo reqs_demo) as Hlong.
  { intros i j key req H. right. unfold reqs_demo in H.
    apply lookup_insert_Some in H as [[_ <-]|[_ H]]; [simpl; lia |].
    apply lookup_singleton_Some in H as [_ <-]. simpl. lia. }
  split; [exact Hq |]. split; [exact Hlong |].
  pose (l1 := mkLease id_db "exclusive" "alice" "migrate" 7 0 16 6).
  pose (l2 := mkLease id_api "shared" "alice" "read" 0 0 16 6).
  exists (mkHandle [id_db; id_api] [l1; l2]).
  assert (AcquireAll ∅ ev_demo w_demo.2 NewLeaseManager reqs_demo =
    (w_demo.2, m_demo, inr (mkHandle [id_db; id_api] [l1; l2]))) as E by (vm_compute; reflexivity).
  rewrite E. split; [reflexivity |].
  destruct (acquireAll_all_or_nothing _ _ _ _ _ _ _ _ Hq Hlong E) as (H1 & _ & H3 & _ & _ & _ & H7).
  split; [exact H1 |]. split; [exact H3 | exact H7].
Defined.
