(* ===== verification/AcquireAll.v ===== *)
(** * Acquiring a set of resources ([resource/acquire.go])

    The version with callbacks: [acquire] and [release] are the caller's functions, and
    answer by the calls made so far; what the code does is the list of its calls. *)

From S2P Require Import Prelude Types ResourceID Registry ResourceLease.
From stdpp Require Import sorting.

#[local] Open Scope Z_scope.

(** A call of a callback; for a release, whether the context it was given had ended. *)
Inductive call := CAcquire (id : ResourceID) | CRelease (ended : bool) (id : ResourceID).

Section AcquireAll.
(** [ctx.Err()] and the answer of [acquire], after the calls made so far. *)
Variables (ctx_err : list call -> option rerror) (answer : list call -> ResourceID -> option rerror).
(** Whether there is a [release]. *)
Variable has_release : bool.

Definition releasePartial (log : list call) (held : list ResourceID) : list call :=
  if has_release then log ++ (CRelease (bool_decide (is_Some (ctx_err log))) <$> reverse held) else log.

Fixpoint acquire_each (log : list call) (held ids : list ResourceID) : list call * (rerror + list ResourceID) :=
  match ids with
  | [] => (log, inr held)
  | id :: ids =>
    match ctx_err log with
    | Some e => (releasePartial log held, inl (RError "AcquireAll" id_zero e))
    | None =>
      let log' := log ++ [CAcquire id] in
      match answer log id with
      | Some _ => (releasePartial log' held, inl (RError "AcquireAll" id (RSentinel ErrPartialAcquire)))
      | None => acquire_each log' (held ++ [id]) ids
      end
    end
  end.

Definition AcquireAll (has_acquire : bool) (ids : list ResourceID) : list call * (rerror + list ResourceID) :=
  if negb has_acquire then ([], inl (RError "AcquireAll" id_zero (RSentinel ErrInvalidArgument)))
  else acquire_each [] [] (merge_sort id_le ids).

Definition ReleaseAll (log : list call) (held : list ResourceID) : list call := releasePartial log held.

(** ** All or nothing *)

Lemma acquire_each_spec ids : forall log held log' r,
  acquire_each log held ids = (log', r) ->
  match r with
  | inr h => h = held ++ ids /\ log' = log ++ (CAcquire <$> ids)
  | inl e => exists got rest, ids = got ++ rest /\
      exists tried, (tried = [] \/ exists id, tried = [id] /\ head rest = Some id) /\
      log' = releasePartial (log ++ (CAcquire <$> got ++ tried)) (held ++ got)
  end.
Proof.
  induction ids as [|id ids IH]; intros log held log' r; cbn [acquire_each].
  - intros [= <- <-]. by rewrite !app_nil_r.
  - destruct (ctx_err log) as [e|].
    + intros [= <- <-]. exists [], (id :: ids). split; [done |]. exists []. split; [by left |]. by rewrite !app_nil_r.
    + destruct (answer log id) as [e|].
      * intros [= <- <-]. exists [], (id :: ids). split; [done |]. exists [id]. split; [right; by exists id |]. by rewrite !app_nil_r.
      * intros E. specialize (IH _ _ _ _ E). destruct r as [e|h].
        -- destruct IH as (got & rest & -> & tried & Ht & ->). exists (id :: got), rest. split; [done |]. exists tried. split; [done |].
           by rewrite <- !app_assoc.
        -- destruct IH as [-> ->]. by rewrite <- !app_assoc.
Qed.

(** The set is acquired as a whole or given back.  On success the resources are
    acquired once each, in the order of their identifiers, and nothing is released; on
    failure, with a release function, exactly the resources that had been acquired are
    released, in the opposite order, after the last acquisition. *)
Theorem acquire_all_or_nothing ids log r : has_release = true -> AcquireAll true ids = (log, r) ->
  match r with
  | inr held => held = merge_sort id_le ids /\ log = CAcquire <$> held
  | inl _ => exists got rest tried ended, merge_sort id_le ids = got ++ rest /\ (tried = [] \/ exists id, tried = [id] /\ head rest = Some id) /\
      log = (CAcquire <$> got ++ tried) ++ (CRelease ended <$> reverse got)
  end.
Proof.
  intros Hr. unfold AcquireAll. cbn [negb]. intros E. pose proof (acquire_each_spec _ _ _ _ _ E) as H. destruct r as [e|h].
  - destruct H as (got & rest & H1 & tried & Ht & ->). exists got, rest, tried. unfold releasePartial. rewrite Hr. cbn [app].
    eexists. done.
  - destruct H as [-> ->]. done.
Qed.
End AcquireAll.

(** When the context ends between two acquisitions, the release is made with the
    ended context: one that looks at it gives nothing back. *)
Lemma released_with_ended_context :
  let a := mkID "worker" "p" "s" "a" in let b := mkID "worker" "p" "s" "b" in
  AcquireAll (fun log => match log with [] => None | _ => Some (RContext false) end) (fun _ _ => None) true true [b; a] =
  ([CAcquire a; CRelease true a], inl (RError "AcquireAll" id_zero (RContext false))).
Proof. vm_compute. reflexivity. Qed.
