(* ===== verification/AuditLog.v ===== *)
(** * The audit log ([audit/audit.go])

    An append-only list of records chained by hashes, and its verification.  The
    hash of a record's canonical body (SHA-256 of its canonical JSON) and the
    signature scheme are parameters: nothing is assumed of the hash, and of
    signatures only that what the store signs verifies.  Finding messages and the
    contents of the NDJSON mirror are left out. *)

From S2P Require Import Prelude Types.

(** ** Data *)

Record Actor := mkActor { ac_ID : string; ac_Type : string }.

#[global] Instance Actor_eq_dec : EqDecision Actor.
Proof. solve_decision. Defined.

(** [bodyForHash] as it reaches the hash: [omitempty] writes a [nil] and an empty
    map alike. *)
Record body {Hash : Type} := mkBody {
  bd_Sequence : Z; bd_PreviousHash : Hash; bd_Time : Time; bd_Actor : Actor;
  bd_Action : string; bd_Resource : string; bd_Result : string; bd_OperationID : string;
  bd_Metadata : gmap string string }.
Arguments body : clear implicits.

#[global] Instance body_eq_dec `{EqDecision Hash} : EqDecision (body Hash).
Proof. solve_decision. Defined.

Record Record_ {Hash : Type} := mkRecord {
  au_Sequence : Z; au_PreviousHash : Hash; au_RecordHash : Hash; au_Time : Time;
  au_Actor : Actor; au_Action : string; au_Resource : string; au_Result : string;
  au_OperationID : string; au_Metadata : option (gmap string string);
  au_Signature : string; au_KeyID : string }.
Arguments Record_ : clear implicits.

Definition body_of {Hash} (r : Record_ Hash) : body Hash :=
  mkBody Hash (au_Sequence r) (au_PreviousHash r) (au_Time r) (au_Actor r) (au_Action r)
    (au_Resource r) (au_Result r) (au_OperationID r) (default ∅ (au_Metadata r)).

Definition set_RecordHash {Hash} (h : Hash) (r : Record_ Hash) : Record_ Hash :=
  mkRecord Hash (au_Sequence r) (au_PreviousHash r) h (au_Time r) (au_Actor r) (au_Action r)
    (au_Resource r) (au_Result r) (au_OperationID r) (au_Metadata r) (au_Signature r) (au_KeyID r).
Definition set_Signature {Hash} (sig key : string) (r : Record_ Hash) : Record_ Hash :=
  mkRecord Hash (au_Sequence r) (au_PreviousHash r) (au_RecordHash r) (au_Time r) (au_Actor r)
    (au_Action r) (au_Resource r) (au_Result r) (au_OperationID r) (au_Metadata r) sig key.

Inductive audit_error := AuditDuplicateOp (id : string) (seq : Z) | AuditHash | AuditSign | AuditFile.

(** What [VerifyBytes] may answer: [ErrUnknownKey] or another error. *)
Inductive sig_error := SigUnknownKey | SigInvalid.

Record Finding := mkFinding { fi_Code : string; fi_Sequence : Z }.
Record Report := mkReport { rp_OK : bool; rp_Records : Z; rp_Findings : list Finding }.

Section Audit.
Context {Hash PrivateKey KeyRing : Type} `{EqDecision Hash}.
(** The zero [[32]byte], the hash of a body ([None] when it cannot be encoded),
    signing ([None] on error, else signature and key id), and verification against
    a ring of keys. *)
Context (zeroHash : Hash) (sum : body Hash -> option Hash).
Context (SignBytes : PrivateKey -> Hash -> option (string * string)).
Context (Len : KeyRing -> Z)
  (VerifyBytes : KeyRing -> Hash -> string -> string -> Time -> option sig_error).

Record Store := mkStore {
  st_records : list (Record_ Hash); st_ops : gmap string Z; st_keys : option KeyRing;
  st_signer : option PrivateKey; st_path : bool }.

Definition NewStore (keys : option KeyRing) (signer : option PrivateKey) (path : bool) : Store :=
  mkStore [] ∅ keys signer path.

Definition hashBody (r : Record_ Hash) : option Hash := sum (body_of r).

Definition ComputeHash (r : Record_ Hash) : option (Record_ Hash) :=
  match hashBody r with Some h => Some (set_RecordHash h r) | None => None end.

(** ** Appending *)

(** The fields of the next record: its predecessor's hash and number. *)
Definition next_prev (recs : list (Record_ Hash)) : Hash := default zeroHash (au_RecordHash <$> last recs).
Definition next_seq (recs : list (Record_ Hash)) : Z :=
  default 1 ((fun r => u64 (au_Sequence r + 1)) <$> last recs).

Record append_args := mkArgs {
  ar_actor : Actor; ar_action : string; ar_resource : string; ar_result : string;
  ar_op : string; ar_meta : option (gmap string string) }.

Definition sign_record (s : Store) (r : Record_ Hash) : option (Record_ Hash) :=
  match st_signer s with
  | None => Some r
  | Some k =>
    match SignBytes k (au_RecordHash r) with
    | Some (sig, kid) => Some (set_Signature sig kid r)
    | None => None
    end
  end.

(** [file_ok] is whether the mirror could be written. *)
Definition Append (now : Time) (file_ok : bool) (a : append_args) (s : Store)
  : Store * (option (Record_ Hash) * option audit_error) :=
  match (if bool_decide (ar_op a = "") then None else st_ops s !! ar_op a) with
  | Some seq => (s, (None, Some (AuditDuplicateOp (ar_op a) seq)))
  | None =>
    let seq := next_seq (st_records s) in
    let r := mkRecord Hash seq (next_prev (st_records s)) zeroHash now (ar_actor a) (ar_action a)
      (ar_resource a) (ar_result a) (ar_op a) (ar_meta a) "" "" in
    match ComputeHash r with
    | None => (s, (None, Some AuditHash))
    | Some r =>
      match sign_record s r with
      | None => (s, (None, Some AuditSign))
      | Some r =>
        let s := mkStore (st_records s ++ [r])
          (if bool_decide (ar_op a = "") then st_ops s else <[ar_op a := seq]> (st_ops s))
          (st_keys s) (st_signer s) (st_path s) in
        (s, (Some r, if st_path s && negb file_ok then Some AuditFile else None))
      end
    end
  end.

(** [Checkpoint] reads the tip in one critical section and appends in another:
    [hex] prints the hash it read. *)
Definition checkpoint_tip (hex : Hash -> string) (s : Store) : string :=
  default "" ((fun r => hex (au_RecordHash r)) <$> last (st_records s)).

Definition checkpoint_args (actor : Actor) (tip : string) : append_args :=
  mkArgs actor "audit.checkpoint" "" "ok" ""
    (Some (<["checkpoint" := "true"]> (<["tip_hash" := tip]> ∅))).

(** ** Verification *)

Definition seq_findings (expectSeq : Z) (r : Record_ Hash) : list Finding :=
  if bool_decide (au_Sequence r ≠ expectSeq) then
    [mkFinding (if bool_decide (expectSeq < au_Sequence r) then "sequence_gap"
                else "sequence_mismatch") (au_Sequence r)]
  else [].

Definition prev_findings (i : nat) (expectPrev : Hash) (r : Record_ Hash) : list Finding :=
  if bool_decide (au_PreviousHash r ≠ expectPrev) then
    [mkFinding (if bool_decide (0 < i)%nat then "mutation_or_removal" else "chain_broken")
       (au_Sequence r)]
  else [].

Definition hash_findings (r : Record_ Hash) : list Finding :=
  match hashBody r with
  | None => [mkFinding "hash_error" (au_Sequence r)]
  | Some want => if bool_decide (want ≠ au_RecordHash r) then [mkFinding "mutation" (au_Sequence r)]
                 else []
  end.

Definition time_findings (r : Record_ Hash) : list Finding :=
  if IsZero (au_Time r) then [mkFinding "bad_timestamp" (au_Sequence r)] else [].

Definition op_findings (seen : gmap string Z) (r : Record_ Hash) : list Finding :=
  if bool_decide (au_OperationID r ≠ "" /\ is_Some (seen !! au_OperationID r)) then
    [mkFinding "duplicate_op_id" (au_Sequence r)]
  else [].

Definition sig_findings (keys : option KeyRing) (r : Record_ Hash) : list Finding :=
  if bool_decide (au_Signature r = "") then []
  else
    match keys with
    | None => [mkFinding "unknown_key" (au_Sequence r)]
    | Some ring =>
      if bool_decide (Len ring = 0) then [mkFinding "unknown_key" (au_Sequence r)]
      else
        match VerifyBytes ring (au_RecordHash r) (au_KeyID r) (au_Signature r) (au_Time r) with
        | None => []
        | Some SigUnknownKey => [mkFinding "unknown_key" (au_Sequence r)]
        | Some SigInvalid => [mkFinding "invalid_signature" (au_Sequence r)]
        end
    end.

(** The findings of one round of the loop of [VerifyRecords]. *)
Definition record_findings (keys : option KeyRing) (i : nat) (expectPrev : Hash) (expectSeq : Z)
  (seen : gmap string Z) (r : Record_ Hash) : list Finding :=
  seq_findings expectSeq r ++ prev_findings i expectPrev r ++ hash_findings r ++
  time_findings r ++ op_findings seen r ++ sig_findings keys r.

Definition see_op (seen : gmap string Z) (r : Record_ Hash) : gmap string Z :=
  if bool_decide (au_OperationID r = "") then seen
  else <[au_OperationID r := au_Sequence r]> seen.

Fixpoint verify_loop (keys : option KeyRing) (i : nat) (expectPrev : Hash) (expectSeq : Z)
  (seen : gmap string Z) (recs : list (Record_ Hash)) : list Finding :=
  match recs with
  | [] => []
  | r :: t =>
    record_findings keys i expectPrev expectSeq seen r ++
    verify_loop keys (S i) (au_RecordHash r) (u64 (au_Sequence r + 1)) (see_op seen r) t
  end.

Definition head_findings (recs : list (Record_ Hash)) : list Finding :=
  match recs with
  | r :: _ => if bool_decide (au_Sequence r ≠ 1) then [mkFinding "removal" (au_Sequence r)] else []
  | [] => []
  end.

(** Insertion in the order of sequence, then code. *)
Definition finding_before (a b : Finding) : bool :=
  if bool_decide (fi_Sequence a = fi_Sequence b) then String.leb (fi_Code a) (fi_Code b)
  else bool_decide (fi_Sequence a < fi_Sequence b).

Fixpoint insert_finding (f : Finding) (l : list Finding) : list Finding :=
  match l with
  | [] => [f]
  | x :: t => if finding_before f x then f :: l else x :: insert_finding f t
  end.

(** [VerifyRecords]: [OK] is cleared together with every finding. *)
Definition VerifyRecords (keys : option KeyRing) (recs : list (Record_ Hash)) : Report :=
  let fs := verify_loop keys 0 zeroHash 1 ∅ recs ++ head_findings recs in
  mkReport (bool_decide (length fs = 0%nat)) (Z.of_nat (length recs)) (foldr insert_finding [] fs).

Definition Verify (s : Store) : Report := VerifyRecords (st_keys s) (st_records s).

(** ** The chain *)

Fixpoint linked (prev : Hash) (seq : Z) (recs : list (Record_ Hash)) : Prop :=
  match recs with
  | [] => True
  | r :: t => au_Sequence r = seq /\ au_PreviousHash r = prev /\
      hashBody r = Some (au_RecordHash r) /\ linked (au_RecordHash r) (u64 (au_Sequence r + 1)) t
  end.

(** [if x ≠ y then [f] else []] is empty exactly when [x = y]. *)
Lemma differ_nil `{EqDecision A} (x y : A) (f : Finding) :
  (if bool_decide (x ≠ y) then [f] else []) = [] <-> x = y.
Proof. destruct (bool_decide_reflect (x ≠ y)) as [E|E]; [done |]. apply dec_stable in E. done. Qed.

Lemma record_findings_nil keys i p s seen r :
  record_findings keys i p s seen r = [] <->
  au_Sequence r = s /\ au_PreviousHash r = p /\ hashBody r = Some (au_RecordHash r) /\
  IsZero (au_Time r) = false /\ op_findings seen r = [] /\ sig_findings keys r = [].
Proof.
  unfold record_findings. rewrite !app_nil.
  assert (seq_findings s r = [] <-> au_Sequence r = s) as -> by apply differ_nil.
  assert (prev_findings i p r = [] <-> au_PreviousHash r = p) as -> by apply differ_nil.
  assert (hash_findings r = [] <-> hashBody r = Some (au_RecordHash r)) as ->.
  { unfold hash_findings. destruct (hashBody r) as [h|]; [|done]. rewrite differ_nil.
    split; [by intros -> | by intros [= ?]]. }
  assert (time_findings r = [] <-> IsZero (au_Time r) = false) as ->; [|done].
  unfold time_findings. by destruct (IsZero (au_Time r)).
Qed.

Lemma verify_loop_linked keys recs : forall i p s seen,
  verify_loop keys i p s seen recs = [] -> linked p s recs.
Proof.
  induction recs as [|r t IH]; intros i p s seen; simpl; [done |].
  rewrite app_nil, record_findings_nil. intros [(H1 & H2 & H3 & _) Ht].
  split; [done |]. split; [done |]. split; [done |]. by eapply IH.
Qed.

Lemma linked_snoc recs : forall p s r,
  linked p s (recs ++ [r]) ->
  linked p s recs /\ au_PreviousHash r = default p (au_RecordHash <$> last recs) /\
  hashBody r = Some (au_RecordHash r) /\
  (0 <= s -> s + Z.of_nat (length recs) < u64_modulus ->
   au_Sequence r = s + Z.of_nat (length recs)).
Proof.
  induction recs as [|x t IH]; intros p s r; cbn [linked app length].
  - intros (H1 & H2 & H3 & _). split; [done |]. split; [exact H2 |]. split; [done |]. lia.
  - intros (H1 & H2 & H3 & H4). destruct (IH _ _ _ H4) as (I1 & I2 & I3 & I4).
    split; [done |]. split; [|split; [done |]].
    + rewrite I2, last_cons. by destruct (last t).
    + intros Hs Hl. subst s. rewrite u64_small in I4 by (unfold is_u64; lia).
      rewrite I4 by lia. lia.
Qed.

(** Two records that differ and have the same hash. *)
Definition collision (l1 l2 : list (Record_ Hash)) : Prop :=
  exists r1 r2 h, r1 ∈ l1 /\ r2 ∈ l2 /\ body_of r1 ≠ body_of r2 /\
    hashBody r1 = Some h /\ hashBody r2 = Some h.

Lemma collision_mono l1 l2 l1' l2' :
  l1 ⊆ l1' -> l2 ⊆ l2' -> collision l1 l2 -> collision l1' l2'.
Proof. intros H1 H2 (r1 & r2 & h & ? & ? & ?). exists r1, r2, h. auto. Qed.

Lemma linked_tip l1 : forall l2,
  linked zeroHash 1 l1 -> linked zeroHash 1 l2 ->
  Z.of_nat (length l1) < u64_modulus - 1 -> Z.of_nat (length l2) < u64_modulus - 1 ->
  (l1 = [] <-> l2 = []) -> au_RecordHash <$> last l1 = au_RecordHash <$> last l2 ->
  body_of <$> l1 = body_of <$> l2 \/ collision l1 l2.
Proof.
  induction l1 as [|r1 l1 IH] using rev_ind; intros l2 K1 K2 N1 N2 Hn Ht.
  { left. by rewrite (proj1 Hn eq_refl). }
  destruct l2 as [|r2 l2 _] using rev_ind.
  { exfalso. symmetry in Hn. pose proof (proj1 Hn eq_refl) as E. by apply app_eq_nil in E as [_ ?]. }
  rewrite !last_snoc in Ht. simpl in Ht. injection Ht as Ht.
  rewrite length_app in N1, N2. simpl in N1, N2.
  apply linked_snoc in K1 as (K1 & P1 & B1 & S1). apply linked_snoc in K2 as (K2 & P2 & B2 & S2).
  destruct (decide (body_of r1 = body_of r2)) as [E|E].
  2: { right. exists r1, r2, (au_RecordHash r1). rewrite B1, B2, Ht.
       rewrite !elem_of_app, !list_elem_of_singleton. auto. }
  assert (length l1 = length l2) as Hl.
  { assert (au_Sequence r1 = au_Sequence r2) as Es by (by injection E).
    rewrite S1, S2 in Es by lia. lia. }
  assert (au_PreviousHash r1 = au_PreviousHash r2) as Ep by (by injection E).
  destruct (IH l2) as [Hb|Hc]; try done; try lia.
  - split; intros ->; [by destruct l2 | by destruct l1].
  - rewrite P1, P2 in Ep. destruct l1 as [|x l1] using rev_ind; [by destruct l2 |].
    destruct l2 as [|y l2 _] using rev_ind; [rewrite length_app in Hl; simpl in Hl; lia |].
    rewrite !last_snoc in *. simpl in *. congruence.
  - left. by rewrite !fmap_app, Hb, !list_fmap_singleton, E.
  - right. eapply collision_mono; [| |exact Hc]; intros x Hx; apply elem_of_app; by left.
Qed.

Lemma VerifyRecords_OK keys recs :
  rp_OK (VerifyRecords keys recs) = true <->
  verify_loop keys 0 zeroHash 1 ∅ recs = [] /\ head_findings recs = [].
Proof.
  unfold VerifyRecords. simpl. rewrite bool_decide_eq_true, length_app.
  rewrite <- !length_zero_iff_nil. lia.
Qed.

(** A verified log cannot be rewritten under a known tip.  If two logs
    both verify and end in the same record hash, then they agree record by record
    in everything the hash covers, unless they exhibit a collision: two different
    bodies with the same hash.  Sequence numbers may not have wrapped. *)
Theorem audit_tamper_evident keys1 keys2 l1 l2 :
  rp_OK (VerifyRecords keys1 l1) = true -> rp_OK (VerifyRecords keys2 l2) = true ->
  l1 ≠ [] -> l2 ≠ [] ->
  Z.of_nat (length l1) < u64_modulus - 1 -> Z.of_nat (length l2) < u64_modulus - 1 ->
  au_RecordHash <$> last l1 = au_RecordHash <$> last l2 ->
  body_of <$> l1 = body_of <$> l2 \/ collision l1 l2.
Proof.
  intros [V1 _]%VerifyRecords_OK [V2 _]%VerifyRecords_OK H1 H2 N1 N2 Ht.
  apply linked_tip; try done; by eapply verify_loop_linked.
Qed.

(** ** Truncation *)

Lemma verify_loop_app keys l1 l2 : forall i p s seen,
  verify_loop keys i p s seen (l1 ++ l2) = [] -> verify_loop keys i p s seen l1 = [].
Proof.
  induction l1 as [|r t IH]; intros i p s seen; simpl; [done |].
  rewrite !app_nil. intros [H1 H2]. split; [done |]. by eapply IH.
Qed.

(** Dropping records from the end of a verified log leaves a verified log:
    without a tip kept elsewhere the removal of the latest records goes
    unnoticed. *)
Lemma audit_truncation_unnoticed keys l1 l2 :
  rp_OK (VerifyRecords keys (l1 ++ l2)) = true -> rp_OK (VerifyRecords keys l1) = true.
Proof.
  rewrite !VerifyRecords_OK. intros [H1 H2]. split; [by eapply verify_loop_app |].
  by destruct l1.
Qed.

(** ** Appending keeps the log verifiable *)

(** One call of [Append]; [time.Now()] is never the zero time. *)
Definition astep (s s' : Store) : Prop :=
  exists now file_ok a, IsZero now = false /\ s' = (Append now file_ok a s).1.

(** The keys the store verifies with accept what it signs. *)
Definition keys_ok (keys : option KeyRing) (signer : option PrivateKey) : Prop :=
  forall k, signer = Some k -> exists ring, keys = Some ring /\ Len ring ≠ 0 /\
    forall h sig kid t, SignBytes k h = Some (sig, kid) -> VerifyBytes ring h kid sig t = None.

Record store_ok (s : Store) : Prop := {
  so_loop : verify_loop (st_keys s) 0 zeroHash 1 ∅ (st_records s) = [];
  so_head : head_findings (st_records s) = [];
  so_ops : st_ops s = foldl see_op ∅ (st_records s);
  so_keys : keys_ok (st_keys s) (st_signer s) }.

Lemma verify_loop_snoc keys l r : forall i p s seen,
  verify_loop keys i p s seen (l ++ [r]) =
  verify_loop keys i p s seen l ++
  record_findings keys (i + length l) (default p (au_RecordHash <$> last l))
    (default s ((fun x => u64 (au_Sequence x + 1)) <$> last l)) (foldl see_op seen l) r.
Proof.
  induction l as [|x t IH]; intros i p s seen; cbn [verify_loop app length foldl].
  - by rewrite app_nil_r, Nat.add_0_r.
  - rewrite IH, <- app_assoc, last_cons. do 2 f_equal.
    replace (S i + length t)%nat with (i + S (length t))%nat by lia. by destruct (last t).
Qed.

(** A successful [Append] adds one record, which verifies after the others. *)
Lemma Append_record now file_ok a s s' r e :
  Append now file_ok a s = (s', (Some r, e)) ->
  st_records s' = st_records s ++ [r] /\ st_ops s' = see_op (st_ops s) r /\
  st_keys s' = st_keys s /\ st_signer s' = st_signer s /\
  au_Sequence r = next_seq (st_records s) /\ au_PreviousHash r = next_prev (st_records s) /\
  hashBody r = Some (au_RecordHash r) /\ au_Time r = now /\ au_OperationID r = ar_op a /\
  au_Metadata r = ar_meta a /\ op_findings (st_ops s) r = [] /\
  (keys_ok (st_keys s) (st_signer s) -> sig_findings (st_keys s) r = []).
Proof.
  unfold Append. destruct (if bool_decide (ar_op a = "") then _ else _) as [?|] eqn:Hop; [done |].
  set (r0 := mkRecord _ _ _ _ _ _ _ _ _ _ _ _ _). unfold ComputeHash.
  destruct (hashBody r0) as [h|] eqn:Hh; [|done].
  destruct (sign_record s (set_RecordHash h r0)) as [r1|] eqn:Hs; [|done].
  intros [= <- <- _]. cbn [st_records st_ops st_keys st_signer].
  assert (exists sig kid, r1 = set_Signature sig kid (set_RecordHash h r0) /\
    (keys_ok (st_keys s) (st_signer s) -> sig_findings (st_keys s) r1 = [])) as (sig & kid & -> & Hsig).
  { unfold sign_record in Hs. destruct (st_signer s) as [k|].
    - destruct (SignBytes k _) as [[sig kid]|] eqn:Hk; [|done]. simpl in Hs. injection Hs as <-.
      exists sig, kid. split; [done |]. intros Hok. destruct (Hok k eq_refl) as (ring & -> & Hl & Hv).
      unfold sig_findings. destruct (bool_decide (au_Signature _ = "")); [done |]. rewrite bool_decide_eq_false_2 by done.
      by rewrite (Hv _ _ _ _ Hk).
    - injection Hs as <-. by exists "", "". }
  do 2 (split; [done |]). do 4 (split; [done |]). split; [exact Hh |].
  do 3 (split; [done |]). split; [|exact Hsig].
  unfold op_findings. simpl. rewrite bool_decide_eq_false_2; [done |]. intros [Hne [q Hq]].
  rewrite bool_decide_eq_false_2 in Hop by done. congruence.
Qed.

Lemma Append_error now file_ok a s s' e :
  Append now file_ok a s = (s', (None, e)) -> s' = s.
Proof.
  unfold Append. destruct (if bool_decide (ar_op a = "") then _ else _); [by intros [= <- _] |].
  destruct (ComputeHash _); [|by intros [= <- _]].
  destruct (sign_record s _); [done | by intros [= <- _]].
Qed.

Lemma Append_ok now file_ok a s :
  IsZero now = false -> store_ok s -> store_ok (Append now file_ok a s).1.
Proof.
  intros Hnow [V1 V2 V3 V4]. destruct (Append now file_ok a s) as [s' [[r|] e]] eqn:E; simpl.
  2: { by apply Append_error in E as ->. }
  apply Append_record in E as (R1 & R2 & R3 & R4 & R5 & R6 & R7 & R8 & _ & _ & R9 & R10).
  split; rewrite ?R1, ?R2, ?R3, ?R4; [| |by rewrite V3, foldl_snoc|done].
  - rewrite verify_loop_snoc, V1, <- V3. simpl app. apply record_findings_nil.
    rewrite R8. auto 10.
  - destruct (st_records s) as [|x t]; [|done]. simpl. by rewrite R5.
Qed.

Lemma Append_prefix now file_ok a s :
  st_records s `prefix_of` st_records (Append now file_ok a s).1.
Proof.
  destruct (Append now file_ok a s) as [s' [[r|] e]] eqn:E; simpl.
  - apply Append_record in E as (-> & _). by apply prefix_app_r.
  - by apply Append_error in E as ->.
Qed.

Lemma foldl_see_op l : forall seen id,
  id ≠ "" -> (exists r, r ∈ l /\ au_OperationID r = id) \/ is_Some (seen !! id) ->
  is_Some (foldl see_op seen l !! id).
Proof.
  induction l as [|x t IH]; intros seen id Hid H; simpl.
  - destruct H as [(r & Hr & _)|H]; [by apply elem_of_nil in Hr | done].
  - apply IH; [done |]. destruct (decide (au_OperationID x = id)) as [<-|Hx].
    + right. unfold see_op. rewrite bool_decide_eq_false_2 by done. rewrite lookup_insert_eq. eauto.
    + destruct H as [(r & [->|Hr]%elem_of_cons & Er)|H]; [done | left; eauto | right].
      unfold see_op. case_bool_decide; [done |]. by rewrite lookup_insert_ne.
Qed.

(** What the store writes verifies.  After any sequence of [Append] calls,
    failed ones included, on a store whose keys accept its own signatures, [Verify]
    reports no finding; records are only ever added at the end; and an operation
    identifier already in the log is refused without a trace. *)
Theorem audit_append_verifies keys signer path s :
  keys_ok keys signer -> steps astep (NewStore keys signer path) s ->
  rp_OK (Verify s) = true /\
  (forall s', steps astep s s' -> st_records s `prefix_of` st_records s') /\
  (forall now file_ok a r, r ∈ st_records s -> ar_op a = au_OperationID r -> ar_op a ≠ "" ->
     exists seq, Append now file_ok a s = (s, (None, Some (AuditDuplicateOp (ar_op a) seq)))).
Proof.
  intros Hk Hs. assert (store_ok s) as Hok.
  { eapply steps_invariant; [|exact Hs |by split].
    intros x y Hx (now & f & a & Hn & ->). by apply Append_ok. }
  destruct Hok as [V1 V2 V3 _]. split; [by apply VerifyRecords_OK |]. split.
  - intros s' Hss. eapply (steps_relation astep (fun _ => True)
      (fun x y => st_records x `prefix_of` st_records y)); [done | | | exact Hss | done].
    + intros x y z H1 H2. by etrans.
    + intros x y _ (now & f & a & _ & ->). split; [done | apply Append_prefix].
  - intros now f a r Hr Ha Hne. destruct (foldl_see_op (st_records s) ∅ (ar_op a)) as [seq Hq];
      [done | left; eauto |].
    exists seq. unfold Append. rewrite bool_decide_eq_false_2 by done. by rewrite V3, Hq.
Qed.

(** A checkpoint may name a tip that is no longer the tip: a record appended
    between its two critical sections is its predecessor, not the record whose
    hash it carries. *)
Lemma audit_checkpoint_stale hex actor now1 f1 a s s1 r1 e1 now2 f2 s2 r2 e2 :
  Append now1 f1 a s = (s1, (Some r1, e1)) ->
  Append now2 f2 (checkpoint_args actor (checkpoint_tip hex s)) s1 = (s2, (Some r2, e2)) ->
  au_PreviousHash r2 = au_RecordHash r1 /\
  (m ← au_Metadata r2; m !! "tip_hash") = Some (checkpoint_tip hex s).
Proof.
  intros H1 H2. apply Append_record in H1 as (R1 & _).
  apply Append_record in H2 as (_ & _ & _ & _ & _ & P2 & _ & _ & _ & M2 & _).
  split; [|by rewrite M2]. rewrite P2. unfold next_prev. by rewrite R1, last_snoc.
Qed.
End Audit.

(** ** Examples

    A toy hash and a signature scheme with one key. *)
Definition toy_sum (b : body Z) : option Z :=
  Some (1 + 7 * bd_Sequence b + 31 * bd_PreviousHash b + Z.of_nat (String.length (bd_Action b))).
Definition toy_sign (_ : unit) (_ : Z) : option (string * string) := Some ("sig", "k1").
Definition toy_verify (_ : unit) (_ : Z) (kid sig : string) (_ : Time) : option sig_error :=
  if bool_decide (kid = "k1") then if bool_decide (sig = "sig") then None else Some SigInvalid
  else Some SigUnknownKey.
Definition toy_len (_ : unit) : Z := 1.

Abbreviation toy_append := (Append 0 toy_sum toy_sign (KeyRing := unit)).
Definition toy_args (action op : string) : append_args := mkArgs (mkActor "ops" "") action "" "ok" op None.
Definition toy_new : Store (Hash := Z) := NewStore (Some tt) (Some tt) false.
Definition toy_log : Store (Hash := Z) :=
  (toy_append 11 true (toy_args "unlock" "op2") (toy_append 10 true (toy_args "lock" "op1") toy_new).1).1.

Example audit_demo :
  rp_OK (VerifyRecords 0 toy_sum toy_len toy_verify (Some tt) (drop 1 (st_records toy_log))) = false /\
  (toy_append 12 true (toy_args "lock" "op1") toy_log).2 = (None, Some (AuditDuplicateOp "op1" 1)).
Proof. split; vm_compute; reflexivity. Qed.

(** The same calls on a store without a signer. *)
Definition toy_unsigned : Store (Hash := Z) :=
  (toy_append 11 true (toy_args "unlock" "op2")
    (toy_append 10 true (toy_args "lock" "op1") (NewStore None None false)).1).1.

Lemma audit_tamper_evident_witness :
  st_records toy_log ≠ st_records toy_unsigned /\
  (body_of <$> st_records toy_log = body_of <$> st_records toy_unsigned \/
   collision toy_sum (st_records toy_log) (st_records toy_unsigned)).
Proof.
  split; [vm_compute; discriminate |].
  apply (audit_tamper_evident 0 toy_sum toy_len toy_verify (Some tt) None);
    [vm_compute; reflexivity | vm_compute; reflexivity | vm_compute; discriminate
    | vm_compute; discriminate | vm_compute; reflexivity | vm_compute; reflexivity
    | vm_compute; reflexivity].
Defined.

Lemma audit_append_verifies_witness :
  steps (astep 0 toy_sum toy_sign) toy_new toy_log /\
  rp_OK (Verify 0 toy_sum toy_len toy_verify toy_log) = true.
Proof.
  assert (keys_ok toy_sign toy_len toy_verify (Some tt) (Some tt)) as Hk.
  { intros k _. exists tt. split; [reflexivity |]. split; [discriminate |].
    intros h sig kid t [= <- <-]. reflexivity. }
  assert (steps (astep 0 toy_sum toy_sign) toy_new toy_log) as Hs.
  { eapply steps_cons; [exists 10, true, (toy_args "lock" "op1"); split; reflexivity |].
    apply steps_one. exists 11, true, (toy_args "unlock" "op2"). split; reflexivity. }
  split; [exact Hs |].
  exact (proj1 (audit_append_verifies 0 toy_sum toy_sign toy_len toy_verify _ _ _ _ Hk Hs)).
Defined.
