(* ===== verification/Lockdown.v ===== *)
(** * Lockdown ([control/lockdown/lockdown.go])

    The lockdown manager: its state, the evidence it keeps, and the two files it
    writes.  The state file is overwritten by [os.WriteFile], whose outcome is an
    argument ([WriteFile] of [Prelude]): a write that fails may leave it damaged.  The
    evidence file holds the entries whose append succeeded, which is an argument too.
    JSON of a state or an entry reads back as written.  Each method is one critical
    section, [TryAutoEnter] two. *)

From S2P Require Import Prelude.

(** ** Data *)

Abbreviation Mode := string (only parsing).
Definition ModeFailClosed : Mode := "fail-closed".

Record State := mkState {
  ld_ID : string; ld_Mode : Mode; ld_Reason : string; ld_EnteredAt : Time;
  ld_ActorID : string; ld_Active : bool; ld_Trigger : string }.

#[global] Instance State_eq_dec : EqDecision State.
Proof. solve_decision. Defined.

Definition state_zero : State := mkState "" "" "" 0 "" false "".

Record Evidence := mkEvidence {
  ev_Time : Time; ev_Event : string; ev_ActorID : string; ev_Attrs : gmap string string }.

Inductive lockdown_error :=
| ErrActive | ErrInactive | ErrConfirm | ErrExpectedID | ErrWeakAuth | ErrReason | ErrPersist.

(** [m_path] and [m_evPath] tell whether a path is configured; [m_file] and
    [m_evFile] are what is on disk. *)
Record Manager := mkManager {
  m_state : State; m_evidence : list Evidence; m_path : bool; m_evPath : bool;
  m_lastAuto : Time; m_autoEvery : Duration;
  m_file : file State; m_evFile : list Evidence }.

Definition set_state (s : State) (m : Manager) : Manager :=
  mkManager s (m_evidence m) (m_path m) (m_evPath m) (m_lastAuto m) (m_autoEvery m) (m_file m)
    (m_evFile m).

(** [load]: the error of a file that cannot be read or is not JSON is ignored by [New]. *)
Definition load (readable : bool) (f : file State) : State :=
  match f with Holds s => if readable then s else state_zero | _ => state_zero end.

(** [New] over the two files; [readable]: the state file can be read. *)
Definition New (path evPath : bool) (auto : Duration) (readable : bool) (file : file State) (evFile : list Evidence)
  : Manager :=
  mkManager (if path then load readable file else state_zero)
    (if evPath then evFile else []) path evPath time_zero
    (if bool_decide (auto <= 0) then Minute else auto) file evFile.

Definition appendEvidenceLocked (written : bool) (e : Evidence) (m : Manager) : Manager :=
  mkManager (m_state m) (m_evidence m ++ [e]) (m_path m) (m_evPath m) (m_lastAuto m) (m_autoEvery m)
    (m_file m) (if m_evPath m && written then m_evFile m ++ [e] else m_evFile m).

(** [persistLocked]: [true] is success. *)
Definition persistLocked (w : write_result) (m : Manager) : Manager * bool :=
  if m_path m then
    let '(f, ok) := WriteFile w (m_state m) (m_file m) in
    (mkManager (m_state m) (m_evidence m) (m_path m) (m_evPath m) (m_lastAuto m) (m_autoEvery m) f (m_evFile m), ok)
  else (m, true).

Record EnterRequest := mkEnter {
  er_ID : string; er_Mode : Mode; er_Reason : string; er_ActorID : string; er_Trigger : string }.

Record UnlockRequest := mkUnlock {
  ur_ExpectedID : string; ur_Confirm : bool; ur_ActorID : string; ur_StrongAuthID : string }.

Section Lockdown.
(** [now.UTC().Format("20060102T150405.000")]. *)
Variable format_time : Time -> string.

(** [w_ev]: whether the evidence could be appended; [w_st]: the write of the state. *)
Definition Enter (now : Time) (w_ev : bool) (w_st : write_result) (req : EnterRequest) (m : Manager)
  : Manager * (State * option lockdown_error) :=
  if ld_Active (m_state m) then (m, (m_state m, Some ErrActive))
  else
    let mode := if bool_decide (er_Mode req = "") then ModeFailClosed else er_Mode req in
    if bool_decide (er_Reason req = "") then (m, (state_zero, Some ErrReason))
    else
      let id := if bool_decide (er_ID req = "") then format_time now else er_ID req in
      let m := set_state (mkState id mode (er_Reason req) now (er_ActorID req) true (er_Trigger req)) m in
      let m := appendEvidenceLocked w_ev (mkEvidence now "enter" (er_ActorID req)
        (<["mode" := mode]> (<["reason" := er_Reason req]> (<["id" := id]>
           (<["trigger" := er_Trigger req]> ∅))))) m in
      match persistLocked w_st m with
      | (m, false) => (m, (state_zero, Some ErrPersist))
      | (m, true) => (m, (m_state m, None))
      end.

Definition Unlock (now : Time) (w_ev : bool) (w_st : write_result) (req : UnlockRequest) (m : Manager)
  : Manager * (State * option lockdown_error) :=
  if negb (ld_Active (m_state m)) then (m, (state_zero, Some ErrInactive))
  else if negb (ur_Confirm req) then (m, (state_zero, Some ErrConfirm))
  else if bool_decide (ur_ExpectedID req = "") ||
          bool_decide (ur_ExpectedID req ≠ ld_ID (m_state m)) then
    (m, (state_zero, Some ErrExpectedID))
  else if bool_decide (ur_StrongAuthID req = "") then (m, (state_zero, Some ErrWeakAuth))
  else
    let prev := m_state m in
    let m := set_state state_zero m in
    let m := appendEvidenceLocked w_ev (mkEvidence now "unlock" (ur_ActorID req)
      (<["id" := ld_ID prev]> (<["strong_auth_id" := ur_StrongAuthID req]> ∅))) m in
    match persistLocked w_st m with
    | (m, false) => (set_state prev m, (state_zero, Some ErrPersist))
    | (m, true) =>
      (m, (mkState (ld_ID prev) (ld_Mode prev) (ld_Reason prev) (ld_EnteredAt prev)
             (ld_ActorID prev) false (ld_Trigger prev), None))
    end.

(** The first critical section of [TryAutoEnter]: go on, or why not. *)
Definition auto_check (now : Time) (m : Manager) : Manager * option (State * bool * option lockdown_error) :=
  if ld_Active (m_state m) then (m, Some (m_state m, false, Some ErrActive))
  else if bool_decide (now - m_lastAuto m < m_autoEvery m) then (m, Some (state_zero, false, None))
  else (mkManager (m_state m) (m_evidence m) (m_path m) (m_evPath m) now (m_autoEvery m) (m_file m)
          (m_evFile m), None).

Definition auto_request (trigger reason : string) : EnterRequest :=
  mkEnter "" ModeFailClosed reason "system" trigger.

(** [TryAutoEnter] with nothing in between. *)
Definition TryAutoEnter (now now' : Time) (w_ev : bool) (w_st : write_result) (trigger reason : string) (m : Manager)
  : Manager * (State * bool * option lockdown_error) :=
  match auto_check now m with
  | (m, Some res) => (m, res)
  | (m, None) =>
    match Enter now' w_ev w_st (auto_request trigger reason) m with
    | (m, (_, Some err)) => (m, (state_zero, false, Some err))
    | (m, (st, None)) => (m, (st, true, None))
    end
  end.

Definition Active (m : Manager) : bool := ld_Active (m_state m).

(** ** Executions *)

(** The request that may lift the lockdown [s]. *)
Definition authorized (s : State) (req : UnlockRequest) : Prop :=
  ur_Confirm req = true /\ ur_ExpectedID req = ld_ID s /\ ur_ExpectedID req ≠ "" /\
  ur_StrongAuthID req ≠ "".

(** What may happen while nobody lifts the lockdown: any call, with any outcome of its
    writes, but an authorized unlock is not written. *)
Inductive call_step : Manager -> Manager -> Prop :=
| K_enter now w_ev w_st req m : call_step m (Enter now w_ev w_st req m).1
| K_auto now m : call_step m (auto_check now m).1
| K_unlock now w_ev w_st req m :
    ~ authorized (m_state m) req \/ (m_path m = true /\ w_st ≠ Wrote) ->
    call_step m (Unlock now w_ev w_st req m).1.

(** The same with restarts from a configured state file that can be read, where an
    authorized unlock does not even open the file. *)
Inductive locked_step : Manager -> Manager -> Prop :=
| L_enter now w_ev w_st req m : locked_step m (Enter now w_ev w_st req m).1
| L_auto now m : locked_step m (auto_check now m).1
| L_unlock now w_ev w_st req m :
    ~ authorized (m_state m) req \/ (m_path m = true /\ w_st = NotOpened) ->
    locked_step m (Unlock now w_ev w_st req m).1
| L_restart auto m :
    m_path m = true ->
    locked_step m (New (m_path m) (m_evPath m) auto true (m_file m) (m_evFile m)).

(** The state file, where there is one, holds the state. *)
Definition durable (m : Manager) : Prop :=
  m_path m = true -> m_file m = Holds (m_state m).

(** ** Facts *)

Lemma Enter_active now w_ev w_st req m :
  Active m = true -> Enter now w_ev w_st req m = (m, (m_state m, Some ErrActive)).
Proof. unfold Enter, Active. by intros ->. Qed.

Lemma Enter_ok now w_ev w_st req m m' st :
  Enter now w_ev w_st req m = (m', (st, None)) ->
  Active m' = true /\ m_state m' = st /\ durable m' /\ er_Reason req ≠ "" /\
  exists e, m_evidence m' = m_evidence m ++ [e] /\ ev_Event e = "enter".
Proof.
  unfold Enter, Active, durable. destruct (ld_Active (m_state m)); [done |].
  destruct (bool_decide_reflect (er_Reason req = "")); [done |].
  unfold persistLocked. simpl. destruct (m_path m) eqn:Hp; [destruct w_st |];
    intros [= <- <-]; simpl; repeat split; try done; eauto; congruence.
Qed.

Lemma authorized_dec s req : Decision (authorized s req).
Proof. unfold authorized. solve_decision. Defined.

(** [Unlock] while active: the guards are exactly [authorized]; what fails leaves the
    lockdown in force, and the file alone unless an authorized unlock opened it. *)
Lemma Unlock_guards now w_ev w_st req m m' st err :
  Active m = true -> Unlock now w_ev w_st req m = (m', (st, err)) ->
  (err = None <-> authorized (m_state m) req /\ (m_path m = true -> w_st = Wrote)) /\
  (err ≠ None -> m_state m' = m_state m /\ m_path m' = m_path m /\
     (~ authorized (m_state m) req \/ w_st = NotOpened -> m_file m' = m_file m)) /\
  (err = None -> Active m' = false /\ durable m' /\ m_path m' = m_path m /\
     m_evidence m' = m_evidence m ++ [mkEvidence now "unlock" (ur_ActorID req)
       (<["id" := ld_ID (m_state m)]> (<["strong_auth_id" := ur_StrongAuthID req]> ∅))]).
Proof.
  unfold Unlock, Active, durable. intros ->. cbn [negb].
  destruct (ur_Confirm req) eqn:Hc; cbn [negb]; [|intros [= <- <- <-]; unfold authorized; intuition congruence].
  destruct (bool_decide_reflect (ur_ExpectedID req = "")); simpl; [intros [= <- <- <-]; unfold authorized; intuition congruence |].
  destruct (bool_decide_reflect (ur_ExpectedID req ≠ ld_ID (m_state m))) as [|Hid];
    [intros [= <- <- <-]; unfold authorized; intuition congruence |]. apply dec_stable in Hid.
  destruct (bool_decide_reflect (ur_StrongAuthID req = "")); [intros [= <- <- <-]; unfold authorized; intuition congruence |].
  assert (authorized (m_state m) req) as Hau by by unfold authorized.
  unfold persistLocked. simpl. destruct (m_path m) eqn:Hp; [destruct w_st |];
    intros [= <- <- <-]; simpl; (split; [|split]); try done; intuition congruence.
Qed.

Lemma call_step_state m m' : Active m = true -> call_step m m' -> m_state m' = m_state m.
Proof.
  intros Ha H. destruct H as [now w_ev w_st req m|now m|now w_ev w_st req m Hu].
  - by rewrite Enter_active.
  - unfold auto_check. unfold Active in Ha. by rewrite Ha.
  - destruct (Unlock now w_ev w_st req m) as [m' [st err]] eqn:E. simpl.
    destruct (Unlock_guards _ _ _ _ _ _ _ _ Ha E) as (U1 & U2 & _). apply U2. intros ->.
    destruct (proj1 U1 eq_refl) as [Hau Hw]. destruct Hu as [?|[Hp Hn]]; [done | by specialize (Hw Hp)].
Qed.

Lemma locked_step_state m m' :
  Active m = true /\ durable m -> locked_step m m' ->
  (Active m' = true /\ durable m') /\ m_state m' = m_state m.
Proof.
  intros [Ha Hd] H. destruct H as [now w_ev w_st req m|now m|now w_ev w_st req m Hu|auto m Hp].
  - by rewrite Enter_active.
  - unfold auto_check. unfold Active in Ha. by rewrite Ha.
  - destruct (Unlock now w_ev w_st req m) as [m' [st err]] eqn:E. simpl.
    destruct (Unlock_guards _ _ _ _ _ _ _ _ Ha E) as (U1 & U2 & _).
    assert (err ≠ None) as Herr.
    { intros ->. destruct (proj1 U1 eq_refl) as [Hau Hw].
      destruct Hu as [?|[Hp ->]]; [done | by specialize (Hw Hp)]. }
    destruct (U2 Herr) as (Es & Ep & Ef). unfold Active, durable in *. rewrite Es, Ep, Ef; [done |].
    destruct Hu as [?|[_ ?]]; auto.
  - unfold New, Active, durable in *. rewrite Hp. simpl. rewrite (Hd Hp). simpl. auto.
Qed.

(** C40: lockdown stays in force.  Once [Enter] has succeeded, the state it returned
    stays in force in the process through any further calls, whatever becomes of their
    writes, as long as no confirmed unlock that names this lockdown and carries a strong
    authorization is written.  It also survives restarts from a state file that can be
    read, as long as no such unlock gets so far as to open the file (one that fails
    after that may leave a file that restarts unlocked).  Such an unlock, when it is
    written, does end the lockdown, also for later restarts, and only adds to the
    evidence. *)
Theorem lockdown_holds now w_ev w_st req m0 m st m' :
  Enter now w_ev w_st req m0 = (m, (st, None)) ->
  steps call_step m m' \/ steps locked_step m m' ->
  m_state m' = st /\ Active m' = true /\
  forall now' w_ev' ureq, authorized st ureq ->
  exists m'' st' e, Unlock now' w_ev' Wrote ureq m' = (m'', (st', None)) /\ Active m'' = false /\
    m_evidence m'' = m_evidence m' ++ [e] /\
    forall auto readable, Active (New (m_path m'') (m_evPath m'') auto readable (m_file m'') (m_evFile m'')) = false.
Proof.
  intros He Hs. destruct (Enter_ok _ _ _ _ _ _ _ He) as (Ha & Hst & Hd & _ & _).
  assert (Active m' = true /\ m_state m' = st) as [Ha' Hst'].
  { destruct Hs as [Hs|Hs].
    - eapply (steps_invariant call_step (fun x => Active x = true /\ m_state x = st)); [|exact Hs | done].
      intros x y [Hx Ex] Hxy. pose proof (call_step_state _ _ Hx Hxy) as E. unfold Active in *. rewrite E. done.
    - cut ((Active m' = true /\ durable m') /\ m_state m' = st); [tauto |].
      eapply (steps_invariant locked_step (fun x => (Active x = true /\ durable x) /\ m_state x = st));
        [|exact Hs | done]. intros x y [Hx Ex] Hxy.
      destruct (locked_step_state _ _ Hx Hxy) as [? E]. split; [done | congruence]. }
  split; [done |]. split; [done |]. intros now' w_ev' ureq Hau.
  destruct (Unlock now' w_ev' Wrote ureq m') as [m'' [st' err]] eqn:E.
  destruct (Unlock_guards _ _ _ _ _ _ _ _ Ha' E) as (U1 & _ & U3).
  assert (err = None) as -> by (apply U1; rewrite Hst'; auto).
  destruct (U3 eq_refl) as (Hi & Hd'' & _ & Hev). exists m'', st'. eexists.
  split; [done |]. split; [done |]. split; [exact Hev |].
  intros auto readable. unfold New, Active in *. simpl. destruct (m_path m'') eqn:Hp; [|done].
  rewrite (Hd'' Hp). simpl. by destruct readable.
Qed.

(** A failed write undoes an unlock but not its evidence: the log then says
    unlocked while the lockdown is still in force. *)
Lemma lockdown_unlock_evidence_stays now w_ev w req m :
  Active m = true -> m_path m = true -> w ≠ Wrote -> authorized (m_state m) req ->
  exists m' e, Unlock now w_ev w req m = (m', (state_zero, Some ErrPersist)) /\
    Active m' = true /\ m_evidence m' = m_evidence m ++ [e] /\ ev_Event e = "unlock".
Proof.
  intros Ha Hp Hw (H1 & H2 & H3 & H4). unfold Unlock. unfold Active in Ha. rewrite Ha, H1. cbn [negb].
  rewrite bool_decide_eq_false_2 by done. rewrite bool_decide_eq_false_2 by (by intros []). simpl.
  rewrite bool_decide_eq_false_2 by done. unfold persistLocked. simpl. rewrite Hp.
  destruct w; [done | | |]; simpl; eexists _, _; (split; [done |]); simpl; unfold Active; simpl; rewrite Ha; done.
Qed.

(** A failed unlock loses the lockdown at the next restart: the call reports an error
    and the process stays locked, but the state file was truncated or already holds the
    unlocked state. *)
Lemma failed_unlock_lost_on_restart now w_ev w req m auto :
  Active m = true -> m_path m = true -> w = TornWrite \/ w = LateError -> authorized (m_state m) req ->
  exists m', Unlock now w_ev w req m = (m', (state_zero, Some ErrPersist)) /\ Active m' = true /\
    Active (New (m_path m') (m_evPath m') auto true (m_file m') (m_evFile m')) = false.
Proof.
  intros Ha Hp Hw (H1 & H2 & H3 & H4). unfold Unlock. unfold Active in Ha. rewrite Ha, H1. cbn [negb].
  rewrite bool_decide_eq_false_2 by done. rewrite bool_decide_eq_false_2 by (by intros []). simpl.
  rewrite bool_decide_eq_false_2 by done. unfold persistLocked. simpl. rewrite Hp.
  destruct Hw as [-> | ->]; simpl; eexists; (split; [done |]); unfold Active; simpl; by rewrite Ha.
Qed.

(** A state file that cannot be read is ignored: the manager starts unlocked. *)
Lemma unreadable_file_unlocks evPath auto s ev :
  Active (New true evPath auto false (Holds s) ev) = false.
Proof. reflexivity. Qed.
End Lockdown.

(** ** Example *)

Definition ld0 : Manager := New true true 0 true Absent [].
Definition ld_req : EnterRequest := mkEnter "L1" "" "breach" "ops" "".
Definition ld_up : UnlockRequest := mkUnlock "L1" true "ops" "strong-1".
Definition ld1 : Manager := (Enter (fun _ => "") 5 true Wrote ld_req ld0).1.
Definition ld_restarted : Manager := New true true 0 true (m_file ld1) (m_evFile ld1).

Lemma lockdown_holds_witness :
  m_state ld_restarted = mkState "L1" "fail-closed" "breach" 5 "ops" true "" /\
  exists m'' st', Unlock 9 true Wrote ld_up ld_restarted = (m'', (st', None)) /\ Active m'' = false.
Proof.
  assert (Enter (fun _ => "") 5 true Wrote ld_req ld0 =
    (ld1, (mkState "L1" "fail-closed" "breach" 5 "ops" true "", None))) as E by (vm_compute; reflexivity).
  assert (steps (locked_step (fun _ => "")) ld1 ld_restarted) as Hs
    by (apply steps_one; exact (L_restart (fun _ => "") 0 ld1 eq_refl)).
  destruct (lockdown_holds (fun _ => "") _ _ _ _ _ _ _ _ E (or_intror Hs)) as (H1 & _ & H3).
  split; [exact H1 |].
  destruct (H3 9 true ld_up) as (m'' & st' & e & Hu & Hi & _).
  - split; [reflexivity |]. split; [reflexivity |]. split; discriminate.
  - exists m'', st'. split; assumption.
Defined.
