(* ===== verification/Guard.v ===== *)
(** * The authorization rules ([guard/guard.go])

    A list of rules with wildcards and priorities; the default is to deny.  The
    text of the reason trail is left out: the trail is the rules that matched, in
    order. *)

From S2P Require Import Prelude GoStrings.

(** ** Data *)

Inductive Decision_ := Allow | Deny | RequireApproval | RequireQuorum | AllowWithConstraints.

#[global] Instance Decision__eq_dec : EqDecision Decision_.
Proof. solve_decision. Defined.

(** The text of a decision in a rule; [None] is text that is no decision. *)
Definition decision_of (s : string) : option Decision_ :=
  if bool_decide (s = "allow") then Some Allow
  else if bool_decide (s = "deny") then Some Deny
  else if bool_decide (s = "require-approval") then Some RequireApproval
  else if bool_decide (s = "require-quorum") then Some RequireQuorum
  else if bool_decide (s = "allow-with-constraints") then Some AllowWithConstraints
  else None.

Record Request := mkRequest {
  rq_Principal : string; rq_Permission : string; rq_Resource : string; rq_Action : string }.

Record Constraint := mkConstraint {
  co_MaxTTLSeconds : Z; co_Resources : list string; co_Attrs : gmap string string }.

Record Rule := mkRule {
  ru_Name : string; ru_Principal : string; ru_Permission : string; ru_Resource : string;
  ru_Action : string; ru_Decision : string; ru_Constraints : option Constraint; ru_Priority : Z }.

Record Explanation := mkExplanation {
  ex_Decision : string; ex_MatchedRule : string; ex_Constraints : option Constraint;
  ex_Trail : list Rule }.

Abbreviation Engine := (list Rule) (only parsing).

(** ** Operations *)

(** [strings.TrimSuffix(p, "*")] when [strings.HasSuffix(p, "*")]. *)
Fixpoint strip_star (p : string) : option string :=
  match p with
  | EmptyString => None
  | String c EmptyString => if bool_decide (c = Ascii.ascii_of_nat 42) then Some EmptyString else None
  | String c t => match strip_star t with Some t' => Some (String c t') | None => None end
  end.

Definition match_ (pattern value : string) : bool :=
  if bool_decide (pattern = "") || bool_decide (pattern = "*") then true
  else match strip_star pattern with
       | Some p => String.prefix p value
       | None => bool_decide (pattern = value)
       end.

Definition rule_matches (req : Request) (r : Rule) : bool :=
  match_ (ru_Principal r) (rq_Principal req) && match_ (ru_Permission r) (rq_Permission req) &&
  match_ (ru_Resource r) (rq_Resource req) && match_ (ru_Action r) (rq_Action req).

(** A rule without a name is numbered ([%d]). *)
Definition AddRule (r : Rule) (e : Engine) : Engine * bool :=
  match decision_of (ru_Decision r) with
  | None => (e, false)
  | Some _ =>
    let name := if bool_decide (ru_Name r = "") then "rule-" +:+ default "" (itoa_loop 20 (Z.of_nat (length e) + 1) "")
                else ru_Name r in
    (e ++ [mkRule name (ru_Principal r) (ru_Permission r) (ru_Resource r) (ru_Action r)
             (ru_Decision r) (ru_Constraints r) (ru_Priority r)], true)
  end.

(** The loop of [Explain]: a later rule of the same priority wins. *)
Fixpoint best_rule (req : Request) (best : option Rule) (rules : list Rule) : option Rule :=
  match rules with
  | [] => best
  | r :: t =>
    if rule_matches req r then
      best_rule req
        (match best with
         | None => Some r
         | Some b => if bool_decide (ru_Priority b <= ru_Priority r) then Some r else Some b
         end) t
    else best_rule req best t
  end.

Definition Explain (e : Engine) (req : Request) : Explanation :=
  let trail := filter (fun r => rule_matches req r = true) e in
  match best_rule req None e with
  | None => mkExplanation "deny" "" None trail
  | Some b => mkExplanation (ru_Decision b) (ru_Name b) (ru_Constraints b) trail
  end.

Definition Evaluate (e : Engine) (req : Request) : string := ex_Decision (Explain e req).

(** ** The rule in force *)

(** [r] is the rule the documentation promises: it matches, no matching rule has
    a higher priority, and none of the same priority was added later. *)
Definition governs (req : Request) (e : list Rule) (i : nat) (r : Rule) : Prop :=
  e !! i = Some r /\ rule_matches req r = true /\
  forall j r', e !! j = Some r' -> rule_matches req r' = true ->
    ru_Priority r' < ru_Priority r \/ (ru_Priority r' = ru_Priority r /\ (j <= i)%nat).

Lemma best_rule_app req l1 l2 : forall best,
  best_rule req best (l1 ++ l2) = best_rule req (best_rule req best l1) l2.
Proof.
  induction l1 as [|r t IH]; intros best; simpl; [done |]. by destruct (rule_matches req r).
Qed.

Lemma governs_snoc_keep req e i b r :
  governs req e i b -> rule_matches req r = false \/ ru_Priority r < ru_Priority b ->
  governs req (e ++ [r]) i b.
Proof.
  intros (H1 & H2 & H3) Hr. split; [by apply lookup_app_l_Some |]. split; [done |].
  intros j r' [Hj|[Hj Hx]]%lookup_app_Some Hm; [by apply H3 |].
  destruct (j - length e)%nat; simplify_eq/=. destruct Hr; [congruence | by left].
Qed.

Lemma best_rule_spec req e :
  match best_rule req None e with
  | None => forall r, r ∈ e -> rule_matches req r = false
  | Some b => exists i, governs req e i b
  end.
Proof.
  induction e as [|r e IH] using rev_ind; [intros r Hr; by apply elem_of_nil in Hr |].
  rewrite best_rule_app. cbn [best_rule].
  assert (forall p, (forall j r', e !! j = Some r' -> rule_matches req r' = true ->
    ru_Priority r' <= p) -> p <= ru_Priority r -> rule_matches req r = true ->
    exists i, governs req (e ++ [r]) i r) as Hnew.
  { intros p Hall Hp Hr. exists (length e). split; [by rewrite lookup_app_r, Nat.sub_diag |].
    split; [done |]. intros j r' [Hj|[Hj Hx]]%lookup_app_Some Hm.
    - specialize (Hall j r' Hj Hm). apply lookup_lt_Some in Hj. lia.
    - destruct (j - length e)%nat eqn:Ej; simplify_eq/=. right. split; [done | lia]. }
  destruct (best_rule req None e) as [b|]; destruct (rule_matches req r) eqn:Hr.
  - destruct IH as (i & Hg). case_bool_decide as Hp; [|exists i; apply governs_snoc_keep; [done | right; lia]].
    apply (Hnew (ru_Priority b)); [|done|done]. intros j r' Hj Hm. destruct Hg as (_ & _ & Hg).
    specialize (Hg j r' Hj Hm). lia.
  - destruct IH as (i & Hg). exists i. apply governs_snoc_keep; auto.
  - apply (Hnew (ru_Priority r)); [|done|done]. intros j r' Hj Hm.
    rewrite (IH r') in Hm; [done |]. by eapply list_elem_of_lookup_2.
  - intros x [Hx| ->%list_elem_of_singleton]%elem_of_app; [by apply IH | done].
Qed.

(** Rules of an engine carry known decisions. *)
Inductive built : list Rule -> Prop :=
| built_new : built []
| built_add r e : built e -> built (AddRule r e).1.

Lemma built_decisions e :
  built e -> Forall (fun r => is_Some (decision_of (ru_Decision r))) e.
Proof.
  induction 1 as [|r e _ IH]; [constructor |]. unfold AddRule.
  destruct (decision_of (ru_Decision r)) eqn:E; cbn [fst]; [|done].
  apply Forall_app. split; [done |]. constructor; [|constructor]. cbn [ru_Decision]. rewrite E. eauto.
Qed.

(** Authorization is by the governing rule, and denied by default.
    [Evaluate] on an engine built by [AddRule] returns one of the five decisions:
    that of a matching rule of the highest priority, the latest added among
    equals, whose name and constraints [Explain] reports; and [deny] when no rule
    matches, so nothing is allowed without a rule that says so. *)
Theorem guard_decides e req :
  built e ->
  is_Some (decision_of (Evaluate e req)) /\
  ((exists i r, governs req e i r /\
      Explain e req = mkExplanation (ru_Decision r) (ru_Name r) (ru_Constraints r)
        (filter (fun r => rule_matches req r = true) e)) \/
   ((forall r, r ∈ e -> rule_matches req r = false) /\ Evaluate e req = "deny")).
Proof.
  intros Hb%built_decisions. pose proof (best_rule_spec req e) as Hs.
  unfold Evaluate, Explain. destruct (best_rule req None e) as [b|].
  - destruct Hs as (i & Hg). split; [|left; by exists i, b].
    rewrite Forall_forall in Hb. apply Hb. destruct Hg as (Hi & _). by eapply list_elem_of_lookup_2.
  - split; [vm_compute; eauto | right; done].
Qed.

Definition g_rules : list Rule :=
  (AddRule (mkRule "" "svc-*" "" "db" "" "allow" None 5)
    (AddRule (mkRule "ban" "svc-bad" "" "" "" "deny" None 5)
      (AddRule (mkRule "all" "*" "" "" "read" "require-approval" None 1) []).1).1).1.

Lemma guard_decides_witness :
  built g_rules /\ Evaluate g_rules (mkRequest "svc-a" "p" "db" "write") = "allow" /\
  Evaluate g_rules (mkRequest "bob" "p" "db" "write") = "deny" /\
  is_Some (decision_of (Evaluate g_rules (mkRequest "svc-a" "p" "db" "write"))).
Proof.
  assert (built g_rules) as Hb by (unfold g_rules; repeat constructor).
  split; [exact Hb |]. split; [vm_compute; reflexivity |]. split; [vm_compute; reflexivity |].
  exact (proj1 (guard_decides g_rules (mkRequest "svc-a" "p" "db" "write") Hb)).
Defined.
