(* ===== verification/TextCodec.v ===== *)
(** * A text codec for closed examples

    Code that stores or signs JSON takes the encoder as a parameter with the facts
    it relies on.  This file has one encoder that satisfies such facts: any
    countable value printed as the binary digits of its code.  It is used only to
    show that the hypotheses of theorems about encoded data can hold. *)

From S2P Require Import Prelude GoStrings.
From Stdlib Require Import Ascii.

Fixpoint print_pos (p : positive) : bytes :=
  match p with
  | xH => [";"%char]
  | xO q => "0"%char :: print_pos q
  | xI q => "1"%char :: print_pos q
  end.

Fixpoint parse_pos (bs : bytes) : option positive :=
  match bs with
  | [] => None
  | c :: t =>
    if bool_decide (c = "0"%char) then xO <$> parse_pos t
    else if bool_decide (c = "1"%char) then xI <$> parse_pos t
    else if bool_decide (c = ";"%char) && bool_decide (t = []) then Some xH else None
  end.

Lemma parse_print_pos p : parse_pos (print_pos p) = Some p.
Proof. induction p as [p IH|p IH|]; [| |done]; cbn -[bool_decide]; by rewrite IH. Qed.

Lemma parse_prefix_pos p : forall k, (k < length (print_pos p))%nat -> parse_pos (take k (print_pos p)) = None.
Proof.
  induction p as [p IH|p IH|]; intros [|k] Hk; try done; simpl in Hk; cbn -[bool_decide].
  - by rewrite IH by lia.
  - by rewrite IH by lia.
  - lia.
Qed.

Definition print {A} `{Countable A} (x : A) : bytes := print_pos (encode x).

Definition parse {A} `{Countable A} (bs : bytes) : option A :=
  match parse_pos bs with None => None | Some p => decode p end.

Lemma parse_print {A} `{Countable A} (x : A) : parse (print x) = Some x.
Proof. unfold parse, print. rewrite parse_print_pos. apply decode_encode. Qed.

Lemma parse_prefix {A} `{Countable A} (x : A) k :
  (k < length (print x))%nat -> parse (A := A) (take k (print x)) = None.
Proof. unfold parse, print. intros Hk. by rewrite parse_prefix_pos. Qed.

Lemma print_inj {A} `{Countable A} (x y : A) : print x = print y -> x = y.
Proof. intros E. apply (f_equal (parse (A := A))) in E. rewrite !parse_print in E. by injection E. Qed.

(** ** Texts that can be concatenated

    A printer is delimited when what follows its text can be told apart. *)
Definition delimited {A} (pr : A -> bytes) : Prop :=
  forall x y r r', pr x ++ r = pr y ++ r' -> x = y /\ r = r'.

Lemma delimited_pair {A B} (pa : A -> bytes) (pb : B -> bytes) :
  delimited pa -> delimited pb -> delimited (fun p : A * B => pa p.1 ++ pb p.2).
Proof.
  intros Ha Hb [a b] [a' b'] r r'. simpl. rewrite <- !app_assoc.
  intros [-> H]%Ha. by apply Hb in H as [-> ->].
Qed.

Lemma delimited_pos : delimited print_pos.
Proof.
  intros x. induction x as [x IH|x IH|]; intros [y|y|] r r'; simpl; intros E; try done;
    injection E as E; [by apply IH in E as [-> ->] .. | done].
Qed.

Lemma delimited_print {A} `{Countable A} : delimited (print (A := A)).
Proof. intros x y r r' E. unfold print in E. apply delimited_pos in E as [E ->]. by apply (inj encode) in E. Qed.

(** Each byte marked, then a full stop. *)
Fixpoint print_string (s : string) : bytes :=
  match s with
  | EmptyString => ["."%char]
  | String c t => "'"%char :: c :: print_string t
  end.

Lemma delimited_string : delimited print_string.
Proof.
  intros x. induction x as [|c x IH]; intros [|d y] r r'; simpl; intros E; [by simplify_eq | done | done |].
  injection E as -> E. by apply IH in E as [-> ->].
Qed.

Fixpoint print_list {A} (pr : A -> bytes) (l : list A) : bytes :=
  match l with
  | [] => ["]"%char]
  | x :: t => ","%char :: pr x ++ print_list pr t
  end.

Lemma delimited_list {A} (pr : A -> bytes) : delimited pr -> delimited (print_list pr).
Proof.
  intros Hp x. induction x as [|a x IH]; intros [|b y] r r'; simpl; intros E; [by simplify_eq | done | done |].
  injection E as E. rewrite <- !app_assoc in E. apply Hp in E as [-> E]. by apply IH in E as [-> ->].
Qed.

Lemma delimited_inj {A} (pr : A -> bytes) x y : delimited pr -> pr x = pr y -> x = y.
Proof. intros H E. by apply (H x y [] []); rewrite E. Qed.
