(* ===== verification/WorkflowDef.v ===== *)
(** * Workflow definitions ([workflow/definition.go], [state.go], [errors.go])

    The vocabulary of the workflow engine, the definition builder and the
    deterministic step order.  A builder call is a function of the builder; once
    an error is recorded every later call returns the builder unchanged.  Go
    functions are values the program only stores and calls: [FuncValue] is their
    identity, and the engine's environment says what calling one does.  [Build]
    ranges over a map to look for unknown dependencies, so the step it names in
    that error depends on the iteration order, an argument of [Build].

    [topoSteps] counts a dependency once per mention and [Dependency.StartupOrder]
    once per edge; [topoSteps_StartupOrder] shows that they compute the same. *)

From S2P Require Import Prelude GoStrings ResourceID Dependency.
From stdpp Require Import sorting.

#[local] Open Scope Z_scope.

(** ** Errors *)

(** Named apart from the sentinels of the resource fabric. *)
Module werr.
Inductive t :=
| ErrInvalidDefinition | ErrUnknownStep | ErrCycle | ErrInvalidState | ErrNotFound | ErrClosed
| ErrLockdown | ErrCapability | ErrAmbiguous | ErrRequiresReconciliation | ErrNotRetryable
| ErrCompensationFailed | ErrStaleEpoch | ErrCancelled | ErrBoundExceeded | ErrInvalidArgument.
End werr.

#[global] Instance werr_eq_dec : EqDecision werr.t.
Proof. solve_decision. Defined.

(** An error made outside the package: its text, whether [errors.Is] finds
    [ErrAmbiguous] in it, and whether it finds [context.Canceled] or
    [context.DeadlineExceeded]. *)
Record goerror := GoError { ge_Text : string; ge_Ambiguous : bool; ge_Context : bool }.

Inductive werror :=
| WSentinel (s : werr.t)
| WOther (e : goerror)
| WError (Op Workflow Step : string) (Err : werror) (Message : string).

#[global] Instance goerror_eq_dec : EqDecision goerror.
Proof. solve_decision. Defined.

#[global] Instance werror_eq_dec : EqDecision werror.
Proof. solve_decision. Defined.

(** [errors.Is] against a sentinel, through [Unwrap]. *)
Fixpoint werror_is (e : werror) (s : werr.t) : bool :=
  match e with
  | WSentinel s' => bool_decide (s' = s)
  | WOther g => bool_decide (s = werr.ErrAmbiguous) && ge_Ambiguous g
  | WError _ _ _ e' _ => werror_is e' s
  end.

(** ** States *)

Inductive WState :=
| StateCreated | StateValidating | StateWaiting | StateRunning | StatePaused | StateCompensating
| StateCompleted | StateFailed | StateCancelled | StateBlocked | StateLockedDown
| StateRequiresIntervention | StateRequiresReconciliation.

#[global] Instance WState_eq_dec : EqDecision WState.
Proof. solve_decision. Defined.

Definition Terminal (s : WState) : bool :=
  match s with
  | StateCompleted | StateFailed | StateCancelled => true
  | _ => false
  end.

Definition CanTransition (from to : WState) : bool :=
  if bool_decide (from = to) then true
  else if Terminal from then false
  else match from with
  | StateCreated => bool_decide (to ∈ [StateValidating; StateCancelled; StateLockedDown])
  | StateValidating =>
    bool_decide (to ∈ [StateWaiting; StateRunning; StateFailed; StateLockedDown; StateCancelled])
  | StateWaiting =>
    bool_decide (to ∈ [StateRunning; StatePaused; StateCancelled; StateLockedDown; StateBlocked])
  | StateRunning =>
    bool_decide (to ∈ [StatePaused; StateCompensating; StateCompleted; StateFailed; StateCancelled;
      StateLockedDown; StateRequiresIntervention; StateRequiresReconciliation; StateBlocked])
  | StatePaused =>
    bool_decide (to ∈ [StateRunning; StateCancelled; StateLockedDown; StateFailed])
  | StateCompensating =>
    bool_decide (to ∈ [StateFailed; StateCompleted; StateRequiresIntervention;
      StateRequiresReconciliation])
  | StateBlocked | StateLockedDown | StateRequiresIntervention | StateRequiresReconciliation =>
    bool_decide (to ∈ [StateRunning; StatePaused; StateCancelled; StateFailed; StateCompensating])
  | _ => false
  end.

(** [StepUnset] is the empty status of a step the checkpoint does not hold. *)
Inductive StepStatus :=
| StepUnset | StepPending | StepRunning | StepCompleted | StepFailed | StepCompensating
| StepCompensated | StepSkipped | StepReconcile.

#[global] Instance StepStatus_eq_dec : EqDecision StepStatus.
Proof. solve_decision. Defined.

Inductive IdempotencyMode := Idempotent | RequiresOperationID | NotRetryable | RequiresReconciliation.

#[global] Instance IdempotencyMode_eq_dec : EqDecision IdempotencyMode.
Proof. solve_decision. Defined.

Record Evidence := mkWEvidence {
  ev_Time : Time; ev_Event : string; ev_Summary : string; ev_Attrs : gmap string string }.

Record StepState := mkStepState {
  ss_Name : string; ss_Status : StepStatus; ss_Attempt : Z; ss_StartedAt : Time;
  ss_FinishedAt : Time; ss_Error : string; ss_Evidence : list Evidence }.

Definition step_zero : StepState := mkStepState "" StepUnset 0 time_zero time_zero "" [].

(** ** Definitions *)

Abbreviation FuncValue := N (only parsing).

Record StepDef := mkStepDef {
  sd_Name : string; sd_Action : FuncValue; sd_Compensate : option FuncValue;
  sd_DependsOn : list string; sd_ParallelGroup : string; sd_Idempotency : IdempotencyMode;
  sd_Mutates : bool; sd_RequiredCaps : ResourceCapabilities; sd_ResourceID : ResourceID }.

Record Definition_ := mkDefinition {
  df_Name : string; df_steps : gmap string StepDef; df_order : list string }.

Record Builder := mkBuilder {
  bd_name : string; bd_steps : gmap string StepDef; bd_err : option werror }.

Definition no_caps : ResourceCapabilities :=
  mkRCaps false false false false false false false false false.

Definition b_fail (e : werror) (b : Builder) : Builder := mkBuilder (bd_name b) (bd_steps b) (Some e).

Definition b_set (steps : gmap string StepDef) (b : Builder) : Builder :=
  mkBuilder (bd_name b) steps (bd_err b).

Definition Define (name : string) : Builder :=
  mkBuilder name ∅
    (if bool_decide (name = "") then
       Some (WError "Define" "" "" (WSentinel werr.ErrInvalidDefinition) "name required")
     else None).

Definition Step (name : string) (action : option FuncValue) (b : Builder) : Builder :=
  match bd_err b with
  | Some _ => b
  | None =>
    let fail := b_fail (WError "Step" (bd_name b) "" (WSentinel werr.ErrInvalidDefinition)
      "name and action required") b in
    match action with
    | None => fail
    | Some f =>
      if bool_decide (name = "") then fail
      else b_set (<[name := mkStepDef name f None [] "" Idempotent false no_caps id_zero]> (bd_steps b)) b
    end
  end.

(** The common shape of the calls that change one declared step. *)
Definition b_update (op step : string) (f : StepDef -> StepDef) (b : Builder) : Builder :=
  match bd_err b with
  | Some _ => b
  | None =>
    match bd_steps b !! step with
    | None => b_fail (WError op (bd_name b) step (WSentinel werr.ErrUnknownStep) "unknown step") b
    | Some s => b_set (<[step := f s]> (bd_steps b)) b
    end
  end.

Definition Compensate (step : string) (fn : option FuncValue) : Builder -> Builder :=
  b_update "Compensate" step (fun s =>
    mkStepDef (sd_Name s) (sd_Action s) fn (sd_DependsOn s) (sd_ParallelGroup s)
      (sd_Idempotency s) (sd_Mutates s) (sd_RequiredCaps s) (sd_ResourceID s)).

Definition Depend (step : string) (deps : list string) : Builder -> Builder :=
  b_update "Depend" step (fun s =>
    mkStepDef (sd_Name s) (sd_Action s) (sd_Compensate s) (sd_DependsOn s ++ deps)
      (sd_ParallelGroup s) (sd_Idempotency s) (sd_Mutates s) (sd_RequiredCaps s) (sd_ResourceID s)).

Definition set_group (group : string) (s : StepDef) : StepDef :=
  mkStepDef (sd_Name s) (sd_Action s) (sd_Compensate s) (sd_DependsOn s) group
    (sd_Idempotency s) (sd_Mutates s) (sd_RequiredCaps s) (sd_ResourceID s).

(** The loop stops at the first unknown step; earlier ones stay assigned. *)
Fixpoint ParallelGroup (group : string) (steps : list string) (b : Builder) : Builder :=
  match steps with
  | [] => b
  | name :: rest => ParallelGroup group rest (b_update "ParallelGroup" name (set_group group) b)
  end.

Definition Idempotency (step : string) (mode : IdempotencyMode) : Builder -> Builder :=
  b_update "Idempotency" step (fun s =>
    mkStepDef (sd_Name s) (sd_Action s) (sd_Compensate s) (sd_DependsOn s) (sd_ParallelGroup s)
      mode (sd_Mutates s) (sd_RequiredCaps s) (sd_ResourceID s)).

Definition Mutating (step : string) (mutates : bool) : Builder -> Builder :=
  b_update "Mutating" step (fun s =>
    mkStepDef (sd_Name s) (sd_Action s) (sd_Compensate s) (sd_DependsOn s) (sd_ParallelGroup s)
      (sd_Idempotency s) mutates (sd_RequiredCaps s) (sd_ResourceID s)).

Definition RequireCaps (step : string) (id : ResourceID) (caps : ResourceCapabilities)
  : Builder -> Builder :=
  b_update "RequireCaps" step (fun s =>
    mkStepDef (sd_Name s) (sd_Action s) (sd_Compensate s) (sd_DependsOn s) (sd_ParallelGroup s)
      (sd_Idempotency s) (sd_Mutates s) caps id).

(** ** The step order *)

Definition step_indeg (steps : gmap string StepDef) : gmap string Z :=
  (fun s => Z.of_nat (length (sd_DependsOn s))) <$> steps.

(** The steps that depend on [n], once per mention. *)
Definition step_dependents (steps : gmap string StepDef) (n : string) : list string :=
  sort_strings (map_to_list steps ≫= fun p => (fun _ => p.1) <$> filter (fun d => d = n) (sd_DependsOn p.2)).

(** The loop of [topoSteps]; [None] when the bound on its rounds is hit.  Its inner
    loop decrements and collects as the one of [StartupOrder] does. *)
Fixpoint topo_loop (fuel : nat) (steps : gmap string StepDef) (ready : list string)
  (indeg : gmap string Z) (order : list string) : option (list string) :=
  match ready with
  | [] => Some order
  | n :: rest =>
    match fuel with
    | O => None
    | S k =>
      let '(indeg, ready) := relax (step_dependents steps n) indeg rest in
      topo_loop k steps (sort_strings ready) indeg (order ++ [n])
    end
  end.

Definition step_ready0 (steps : gmap string StepDef) : list string :=
  sort_strings (filter (fun n => indeg_of (step_indeg steps) n = 0) (elements (dom steps))).

Definition topoSteps (steps : gmap string StepDef) : option (werror + list string) :=
  order ← topo_loop (size steps) steps (step_ready0 steps) (step_indeg steps) [];
  Some (if bool_decide (length order = size steps) then inr order
        else inl (WError "Build" "" "" (WSentinel werr.ErrCycle) "step dependency cycle")).

(** The first mention of an undeclared step, in the order the map is ranged over. *)
Fixpoint unknown_dep (steps : gmap string StepDef) (names : list string) : option (string * string) :=
  match names with
  | [] => None
  | name :: rest =>
    match filter (fun d => steps !! d = None) (default [] (sd_DependsOn <$> steps !! name)) with
    | d :: _ => Some (name, d)
    | [] => unknown_dep steps rest
    end
  end.

(** [None] would be a loop of [topoSteps] that does not end. *)
Definition Build (range : list string) (b : Builder) : option (werror + Definition_) :=
  match bd_err b with
  | Some e => Some (inl e)
  | None =>
    if bool_decide (size (bd_steps b) = 0%nat) then
      Some (inl (WError "Build" (bd_name b) "" (WSentinel werr.ErrInvalidDefinition) "no steps"))
    else
      match unknown_dep (bd_steps b) range with
      | Some (name, d) =>
        Some (inl (WError "Build" (bd_name b) name (WSentinel werr.ErrUnknownStep)
          ("depends on unknown step " +:+ d)))
      | None =>
        match topoSteps (bd_steps b) with
        | None => None
        | Some (inl e) => Some (inl e)
        | Some (inr order) => Some (inr (mkDefinition (bd_name b) (bd_steps b) order))
        end
      end
  end.

Definition Steps (d : Definition_) : list string := df_order d.

Definition Definition_Step (d : Definition_) (name : string) : option StepDef := df_steps d !! name.

(** ** The step order and the dependency graph *)

(** The edges a step map declares. *)
Definition step_graph (steps : gmap string StepDef) : gmap string (gset string) :=
  (fun s => list_to_set (sd_DependsOn s)) <$> steps.

Definition closed_steps (steps : gmap string StepDef) : Prop :=
  forall n s d, steps !! n = Some s -> d ∈ sd_DependsOn s -> is_Some (steps !! d).

Definition mentions (steps : gmap string StepDef) (n : string) : list string :=
  default [] (sd_DependsOn <$> steps !! n).

(** How often [x] occurs. *)
Definition occ (x : string) (l : list string) : nat := length (filter (fun y => y = x) l).

Lemma occ_cons x y l : occ x (y :: l) = ((if decide (y = x) then 1 else 0) + occ x l)%nat.
Proof. unfold occ. rewrite filter_cons. by destruct (decide (y = x)). Qed.

Lemma occ_app x l k : occ x (l ++ k) = (occ x l + occ x k)%nat.
Proof. unfold occ. by rewrite filter_app, length_app. Qed.

Lemma occ_perm x l k : l ≡ₚ k -> occ x l = occ x k.
Proof. unfold occ. by intros ->. Qed.

Lemma occ_zero x l : occ x l = 0%nat <-> x ∉ l.
Proof.
  unfold occ. rewrite length_zero_iff_nil. split.
  - intros H Hx. assert (x ∈ filter (fun y => y = x) l) as Hi by (by apply list_elem_of_filter).
    rewrite H in Hi. by apply elem_of_nil in Hi.
  - intros H. destruct (filter _ l) as [|y t] eqn:E; [done |].
    assert (y ∈ filter (fun y => y = x) l) as Hi by (rewrite E; left).
    apply list_elem_of_filter in Hi as [-> ?]. done.
Qed.

(** [relax] on a list with repetitions whose counters are large enough. *)
Lemma relax_occ froms : forall indeg ready indeg' ready',
  relax froms indeg ready = (indeg', ready') ->
  (forall m, m ∈ froms -> Z.of_nat (occ m froms) <= indeg_of indeg m) ->
  (forall m, indeg_of indeg' m = indeg_of indeg m - Z.of_nat (occ m froms)) /\
  (forall m, m ∈ ready' <-> m ∈ ready \/ (m ∈ froms /\ indeg_of indeg m = Z.of_nat (occ m froms))) /\
  (NoDup ready -> (forall m, m ∈ froms -> m ∉ ready) -> NoDup ready').
Proof.
  induction froms as [|f t IH]; intros indeg ready indeg' ready' E Hle; simpl in E.
  { simplify_eq. split; [intros m; cbn; lia |]. split; [|done]. intros m. set_solver. }
  set (i2 := <[f := indeg_of indeg f - 1]> indeg) in *.
  assert (forall m, indeg_of i2 m = indeg_of indeg m - (if decide (f = m) then 1 else 0)) as Hi.
  { intros m. unfold i2, indeg_of at 1. destruct (decide (f = m)) as [->|Hn].
    - by rewrite lookup_insert_eq.
    - rewrite lookup_insert_ne by done. fold (indeg_of indeg m). lia. }
  pose proof (Hle f ltac:(left)) as Hf. rewrite occ_cons, decide_True in Hf by done.
  destruct (IH _ _ _ _ E) as (I1 & I2 & I3).
  { intros m Hm. rewrite Hi. specialize (Hle m ltac:(by right)). rewrite occ_cons in Hle.
    destruct (decide (f = m)); lia. }
  split; [|split].
  - intros m. rewrite I1, Hi, occ_cons. destruct (decide (f = m)); lia.
  - intros m. rewrite I2, Hi, occ_cons, elem_of_cons. destruct (decide (f = m)) as [->|Hn].
    + destruct (bool_decide_reflect (indeg_of indeg m - 1 = 0)) as [H0|H0];
        rewrite ?elem_of_app, ?list_elem_of_singleton.
      * assert (occ m t = 0%nat) as Ho by lia. split; [|tauto]. intros _. right. split; [tauto |]. lia.
      * destruct (decide (m ∈ t)) as [Ht|Ht].
        -- split; (intros [?|[? ?]]; [tauto | right; split; [tauto | lia]]).
        -- apply occ_zero in Ht as Ht'. split; [tauto |]. intros [?|[_ ?]]; [tauto | lia].
    + destruct (bool_decide_reflect (indeg_of indeg f - 1 = 0));
        rewrite ?elem_of_app, ?list_elem_of_singleton; rewrite Nat.add_0_l, Z.sub_0_r;
        intuition congruence.
  - intros Hr Hd. apply I3.
    + case_bool_decide; [|done]. apply NoDup_app. split; [done |].
      split; [|apply NoDup_singleton]. intros m Hm ->%list_elem_of_singleton.
      by apply (Hd f); [left|].
    + intros m Hm. destruct (bool_decide_reflect (indeg_of indeg f - 1 = 0)) as [H0|H0];
        [rewrite elem_of_app, list_elem_of_singleton; intros [?| ->] | intros ?];
        try (exact (Hd m ltac:(right; exact Hm) ltac:(assumption))).
      apply (proj1 (occ_zero f t)); [lia | done].
Qed.

Lemma occ_fmap_const (m n name : string) (l : list string) :
  occ m ((fun _ => name) <$> filter (fun d => d = n) l) = if decide (name = m) then occ n l else 0%nat.
Proof.
  induction l as [|d l IH]; [by destruct (decide (name = m)) |].
  rewrite occ_cons, filter_cons. destruct (decide (d = n)); simpl; [|by rewrite IH].
  rewrite occ_cons. unfold fmap in IH. rewrite IH. by destruct (decide (name = m)).
Qed.

Lemma occ_bind_names (m n : string) (ps : list (string * StepDef)) :
  NoDup ps.*1 ->
  occ m (ps ≫= fun p => (fun _ => p.1) <$> filter (fun d => d = n) (sd_DependsOn p.2)) =
  occ n (default [] (sd_DependsOn <$> (list_to_map ps : gmap string StepDef) !! m)).
Proof.
  induction ps as [|[k s] ps IH]; intros Hnd; [done |].
  cbn [fmap list_fmap fst] in Hnd. apply NoDup_cons in Hnd as [Hk Hnd].
  rewrite bind_cons, occ_app, occ_fmap_const, IH by done. cbn [fst snd]. simpl list_to_map.
  destruct (decide (k = m)) as [->|Hn].
  - rewrite lookup_insert_eq. rewrite (not_elem_of_list_to_map_1 ps m Hk). simpl. cbn. lia.
  - by rewrite lookup_insert_ne.
Qed.

Lemma occ_step_dependents steps n m : occ m (step_dependents steps n) = occ n (mentions steps m).
Proof.
  unfold step_dependents, mentions. rewrite (occ_perm _ _ _ (sort_perm_self _)).
  rewrite occ_bind_names by apply NoDup_fst_map_to_list. by rewrite list_to_map_to_list.
Qed.

Lemma elem_of_step_dependents steps n m : m ∈ step_dependents steps n <-> n ∈ mentions steps m.
Proof.
  pose proof (occ_step_dependents steps n m). pose proof (occ_zero m (step_dependents steps n)) as H1.
  pose proof (occ_zero n (mentions steps m)) as H2. rewrite H in H1.
  destruct (decide (n ∈ mentions steps m)), (decide (m ∈ step_dependents steps n)); tauto.
Qed.

Lemma deps_step_graph steps n :
  deps_of (step_graph steps) n = list_to_set (mentions steps n).
Proof. unfold deps_of, step_graph, mentions. rewrite lookup_fmap. by destruct (steps !! n). Qed.

Lemma nodes_step_graph steps :
  closed_steps steps -> nodes (step_graph steps) (elements (dom steps)) = dom steps.
Proof.
  intros Hc. unfold nodes. apply set_eq. intros x. unfold step_graph.
  rewrite dom_fmap_L, list_to_set_elements_L.
  rewrite !elem_of_union. split; [|tauto]. intros [[?|?]|(X & HX & Hx)%elem_of_union_list]; try done.
  apply list_elem_of_fmap in HX as ([k Y] & -> & HY). apply elem_of_map_to_list in HY.
  rewrite lookup_fmap in HY. destruct (steps !! k) as [s|] eqn:Ek; simplify_eq/=.
  apply elem_of_list_to_set in Hx. apply elem_of_dom. by eapply Hc.
Qed.

(** The mentions of [m] that are not in [order] yet. *)
Definition unmet (steps : gmap string StepDef) (order : list string) (m : string) : nat :=
  length (filter (fun d => d ∉ order) (mentions steps m)).

Lemma unmet_snoc steps order n m :
  n ∉ order -> unmet steps order m = (unmet steps (order ++ [n]) m + occ n (mentions steps m))%nat.
Proof.
  intros Hn. unfold unmet. induction (mentions steps m) as [|d l IH]; [done |].
  rewrite occ_cons, !filter_cons. destruct (decide (d = n)) as [->|Hd].
  - rewrite decide_True, decide_False by set_solver. simpl. lia.
  - destruct (decide (d ∉ order)).
    + rewrite decide_True by set_solver. simpl. lia.
    + rewrite decide_False by set_solver. simpl. lia.
Qed.

Lemma unmet_zero steps order m :
  unmet steps order m = 0%nat <-> deps_of (step_graph steps) m ⊆ list_to_set order.
Proof.
  unfold unmet. rewrite deps_step_graph, length_zero_iff_nil. split.
  - intros H d. rewrite !elem_of_list_to_set. intros Hd. apply dec_stable. intros Hno.
    assert (d ∈ filter (fun d => d ∉ order) (mentions steps m)) as Hi by (by apply list_elem_of_filter).
    rewrite H in Hi. by apply elem_of_nil in Hi.
  - intros H. destruct (filter _ _) as [|d t] eqn:E; [done |].
    assert (d ∈ filter (fun d => d ∉ order) (mentions steps m)) as Hi by (rewrite E; left).
    apply list_elem_of_filter in Hi as [Hno Hd]. destruct Hno.
    apply (elem_of_list_to_set (C := gset string)), H, elem_of_list_to_set, Hd.
Qed.

Section TopoRound.
Context (steps : gmap string StepDef) (n : string) (rest : list string)
  (i1 i2 i1' i2' : gmap string Z) (order r1 r2 : list string).
Let g := step_graph steps.
Let ns : gset string := dom steps.
Context (Hinv : kahn_inv g ns (n :: rest) i1 order)
  (Hcnt : forall m, m ∈ ns -> indeg_of i2 m = Z.of_nat (unmet steps order m))
  (E1 : relax (dependents g n) i1 rest = (i1', r1))
  (E2 : relax (step_dependents steps n) i2 rest = (i2', r2))
  (Hns : forall a b, edge g a b -> a ∈ ns).

Local Lemma topo_head :
  n ∉ order /\ n ∉ rest /\ NoDup rest /\ n ∈ ns /\ deps_of g n ⊆ list_to_set order.
Proof.
  destruct Hinv as [Knd Kn _ Kr _]. apply NoDup_app in Knd as (_ & Hd & [Hr Hnd]%NoDup_cons).
  assert (n ∈ ns) as Hn by (apply Kn, elem_of_app; right; left).
  destruct (proj1 (Kr n Hn) ltac:(left)). tauto.
Qed.

Local Lemma topo_dependent m :
  m ∈ step_dependents steps n -> m ∈ ns /\ m ∉ order ++ [n] /\ m ∉ rest.
Proof.
  destruct topo_head as (Hno & _ & _ & _ & Hdn).
  rewrite elem_of_step_dependents. intros Hm.
  assert (edge g m n) as He by (unfold edge, g; rewrite deps_step_graph; by apply elem_of_list_to_set).
  assert (forall S, deps_of g m ⊆ list_to_set S -> n ∈ S) as Hin.
  { intros S HS. apply (elem_of_list_to_set (C := gset string)), HS, He. }
  split; [by eapply Hns |]. split.
  - rewrite elem_of_app, list_elem_of_singleton. intros [Ho| ->]; apply Hno, Hin; [|done].
    apply topological_closed; [apply (ki_topo _ _ _ _ _ Hinv) | done].
  - intros Hr. apply Hno, Hin. destruct Hinv as [_ Kn _ Kr _].
    apply (Kr m); [apply Kn, elem_of_app; right |]; by right.
Qed.

Local Lemma topo_counters :
  (forall m, m ∈ ns -> indeg_of i2' m = Z.of_nat (unmet steps (order ++ [n]) m)) /\
  (forall m, m ∈ r2 <-> m ∈ rest \/
     (m ∈ step_dependents steps n /\ deps_of g m ⊆ list_to_set (order ++ [n]))) /\ NoDup r2.
Proof.
  destruct topo_head as (Hno & _ & Hnd & _ & _).
  assert (forall m, m ∈ ns -> indeg_of i2 m =
    Z.of_nat (unmet steps (order ++ [n]) m) + Z.of_nat (occ m (step_dependents steps n))) as Hc.
  { intros m Hm. rewrite (Hcnt m Hm), (unmet_snoc steps order n m Hno), occ_step_dependents. lia. }
  destruct (relax_occ _ _ _ _ _ E2) as (R1 & R2 & R3).
  { intros m Hm. destruct (topo_dependent m Hm) as (Hmn & _). rewrite (Hc m Hmn). lia. }
  split; [|split].
  - intros m Hm. rewrite R1, (Hc m Hm). lia.
  - intros m. rewrite R2. apply or_iff_compat_l.
    split; intros [Hm Hx]; (split; [done |]); destruct (topo_dependent m Hm) as (Hmn & _);
      rewrite (Hc m Hmn) in *; [apply unmet_zero | apply unmet_zero in Hx]; lia.
  - apply R3; [done |]. intros m Hm. by apply topo_dependent.
Qed.

(** A round leaves both algorithms with the same ready list. *)
Lemma topo_round :
  sort_strings r1 = sort_strings r2 /\
  (forall m, m ∈ ns -> indeg_of i2' m = Z.of_nat (unmet steps (order ++ [n]) m)).
Proof.
  destruct topo_counters as (C1 & C2 & C3). destruct topo_head as (Hno & Hnr & Hnd & Hn & Hdn).
  split; [|done]. pose proof (kahn_step _ _ _ _ _ _ _ _ Hns Hinv E1) as [Knd Kn _ Kr _].
  apply NoDup_app in Knd as (_ & _ & Knd). apply sort_perm.
  apply NoDup_Permutation; [by apply NoDup_sort | done |]. intros m.
  rewrite C2, <- (elem_of_sort m r1).
  assert (m ∈ rest -> m ∈ ns /\ m ∉ order ++ [n] /\ deps_of g m ⊆ list_to_set order) as Hrest.
  { destruct Hinv as [_ Kn' _ Kr' _]. intros Hm.
    assert (m ∈ ns) as Hmn by (apply Kn', elem_of_app; right; by right).
    destruct (proj1 (Kr' m Hmn) ltac:(by right)). split; [done |]. split; [|done].
    rewrite elem_of_app, list_elem_of_singleton. intros [?| ->]; done. }
  split.
  - intros Hm. assert (m ∈ ns) as Hmn by (apply Kn, elem_of_app; by right).
    apply (Kr m Hmn) in Hm as [Hmo Hd].
    destruct (decide (n ∈ deps_of g m)) as [Hdm|Hdm].
    + right. split; [|done]. apply elem_of_step_dependents.
      unfold g in Hdm. rewrite deps_step_graph in Hdm. by apply elem_of_list_to_set in Hdm.
    + left. assert (m ∈ n :: rest) as Hr.
      { apply (ki_ready _ _ _ _ _ Hinv m Hmn). rewrite list_to_set_snoc in Hd. set_solver. }
      apply elem_of_cons in Hr as [->|?]; [|done]. set_solver.
  - intros [Hm|[Hm Hd]].
    + destruct (Hrest Hm) as (Hmn & Hmo & Hd). apply (Kr m Hmn). split; [done |].
      rewrite list_to_set_snoc. set_solver.
    + destruct (topo_dependent m Hm) as (Hmn & Hmo & _). by apply (Kr m Hmn).
Qed.
End TopoRound.

Lemma topo_loop_kahn steps fuel : forall ready i1 i2 order,
  closed_steps steps ->
  kahn_inv (step_graph steps) (dom steps) ready i1 order ->
  (forall m, m ∈ (dom steps : gset string) -> indeg_of i2 m = Z.of_nat (unmet steps order m)) ->
  topo_loop fuel steps ready i2 order = kahn fuel (step_graph steps) ready i1 order.
Proof.
  induction fuel as [|k IH]; intros [|n rest] i1 i2 order Hc Hi Hm; try done.
  simpl. destruct (relax (step_dependents steps n) i2 rest) as [i2' r2] eqn:E2.
  destruct (relax (dependents _ n) i1 rest) as [i1' r1] eqn:E1.
  assert (forall a b, edge (step_graph steps) a b -> a ∈ (dom steps : gset string)) as Hns.
  { intros a b H. rewrite <- (nodes_step_graph steps Hc). apply (nodes_edge _ _ a b H). }
  destruct (topo_round _ _ _ _ _ _ _ _ _ _ Hi Hm E1 E2 Hns) as [Hr Hm'].
  rewrite <- Hr. apply IH; [done | eapply kahn_step; eassumption | done].
Qed.

Lemma indeg_of_step_indeg steps m :
  indeg_of (step_indeg steps) m = Z.of_nat (unmet steps [] m).
Proof.
  unfold indeg_of, step_indeg, unmet, mentions. rewrite lookup_fmap.
  destruct (steps !! m) as [s|]; [|done]. simpl. f_equal.
  induction (sd_DependsOn s) as [|d l IH]; [done |]. rewrite filter_cons, decide_True by set_solver.
  simpl. by rewrite IH.
Qed.

Lemma and_iff_compat_r' (A B C : Prop) : (C -> (A <-> B)) -> (A /\ C <-> B /\ C).
Proof. tauto. Qed.

(** On steps whose dependencies are all declared, the two orders agree. *)
Lemma topoSteps_kahn steps :
  closed_steps steps ->
  topoSteps steps =
  match StartupOrder (step_graph steps) (elements (dom steps)) with
  | Some (inr order) => Some (inr order)
  | Some (inl _) => Some (inl (WError "Build" "" "" (WSentinel werr.ErrCycle) "step dependency cycle"))
  | None => None
  end.
Proof.
  intros Hc. pose proof (kahn_inv_init (step_graph steps) (elements (dom steps))) as Hi.
  unfold topoSteps, StartupOrder. rewrite (nodes_step_graph steps Hc) in *.
  assert (step_ready0 steps = ready0 (step_graph steps) (elements (dom steps))) as Hr.
  { unfold step_ready0, ready0. rewrite (nodes_step_graph steps Hc).
    apply sort_perm, NoDup_Permutation; [apply NoDup_filter, NoDup_elements .. |].
    intros m. rewrite !list_elem_of_filter, elem_of_elements.
    apply and_iff_compat_r'. intros Hm. rewrite indeg_of_step_indeg.
    rewrite (ki_indeg _ _ _ _ _ Hi m Hm), size_zero_subseteq, <- unmet_zero. lia. }
  rewrite Hr, (size_dom steps).
  rewrite (topo_loop_kahn steps (size steps) _ _ (step_indeg steps) [] Hc Hi)
    by (intros; apply indeg_of_step_indeg).
  destruct (kahn _ _ _ _ _) as [order|]; simpl; [|done]. by case_bool_decide.
Qed.

(** ** Well-formed builders and definitions *)

(** A step is stored under its own, nonempty name. *)
Definition steps_wf (steps : gmap string StepDef) : Prop :=
  map_Forall (fun name s => name ≠ "" /\ sd_Name s = name) steps.

Definition builder_wf (b : Builder) : Prop :=
  steps_wf (bd_steps b) /\ (bd_err b = None -> bd_name b ≠ "").

(** What the engine may rely on. *)
Record def_wf (d : Definition_) : Prop := {
  dw_name : df_Name d ≠ "";
  dw_steps : steps_wf (df_steps d);
  dw_nodup : NoDup (df_order d);
  dw_order : forall n, n ∈ df_order d <-> is_Some (df_steps d !! n);
  dw_topo : forall k n s, df_order d !! k = Some n -> df_steps d !! n = Some s ->
    forall dep, dep ∈ sd_DependsOn s -> dep ∈ take k (df_order d) }.

(** The builder calls. *)
Inductive bop :=
| BStep (name : string) (action : option FuncValue)
| BCompensate (step : string) (fn : option FuncValue)
| BDepend (step : string) (deps : list string)
| BParallelGroup (group : string) (steps : list string)
| BIdempotency (step : string) (mode : IdempotencyMode)
| BMutating (step : string) (mutates : bool)
| BRequireCaps (step : string) (id : ResourceID) (caps : ResourceCapabilities).

Definition bapply (op : bop) : Builder -> Builder :=
  match op with
  | BStep name action => Step name action
  | BCompensate step fn => Compensate step fn
  | BDepend step deps => Depend step deps
  | BParallelGroup group steps => ParallelGroup group steps
  | BIdempotency step mode => Idempotency step mode
  | BMutating step mutates => Mutating step mutates
  | BRequireCaps step id caps => RequireCaps step id caps
  end.

Lemma b_update_wf op step f b :
  (forall s, sd_Name (f s) = sd_Name s) -> builder_wf b -> builder_wf (b_update op step f b).
Proof.
  intros Hf [Hs Hn]. unfold b_update. destruct (bd_err b) eqn:Ee; [by split; rewrite ?Ee |].
  destruct (bd_steps b !! step) as [s|] eqn:E; split; simpl; try done.
  - destruct (Hs step s E). apply map_Forall_insert_2; [by rewrite Hf | done].
  - intros _. by apply Hn.
Qed.

Lemma bapply_wf op b : builder_wf b -> builder_wf (bapply op b).
Proof.
  intros Hb. destruct op as [name action| | |group steps| | |]; try (by apply b_update_wf).
  - destruct Hb as [Hs Hn]. simpl. unfold Step. destruct (bd_err b) eqn:Ee; [by split; rewrite ?Ee |].
    destruct action as [f|]; [|by split].
    destruct (bool_decide_reflect (name = "")); [by split |]. split; simpl; [|by intros _; apply Hn].
    by apply map_Forall_insert_2.
  - simpl. revert b Hb. induction steps as [|n t IH]; intros b Hb; simpl; [done |].
    by apply IH, b_update_wf.
Qed.

Lemma unknown_dep_spec steps names :
  (unknown_dep steps names = None <->
   forall n d, n ∈ names -> d ∈ mentions steps n -> is_Some (steps !! d)) /\
  (forall n d, unknown_dep steps names = Some (n, d) -> n ∈ names /\ d ∈ mentions steps n /\ steps !! d = None).
Proof.
  induction names as [|n t [IH1 IH2]]; simpl.
  { split; [|done]. split; [|done]. intros _ n d Hn. by apply elem_of_nil in Hn. }
  fold (mentions steps n). destruct (filter _ _) as [|d ds] eqn:E.
  - split.
    + rewrite IH1. split; intros H m d Hm Hd.
      * apply elem_of_cons in Hm as [->|Hm]; [|by eapply H].
        apply not_eq_None_Some. intros Hd'.
        assert (d ∈ filter (fun d => steps !! d = None) (mentions steps n)) as Hi
          by (by apply list_elem_of_filter).
        rewrite E in Hi. by apply elem_of_nil in Hi.
      * apply (H m d); [by right | done].
    + intros m d Hm. destruct (IH2 m d Hm) as (? & ? & ?). split; [by right | done].
  - assert (d ∈ filter (fun d => steps !! d = None) (mentions steps n)) as Hi by (rewrite E; left).
    apply list_elem_of_filter in Hi as [Hd Hi]. split.
    + split; [done |]. intros H. specialize (H n d ltac:(left) Hi). rewrite Hd in H. by destruct H.
    + intros m d' [= <- <-]. split; [left | done].
Qed.

Lemma closed_steps_mentions steps :
  closed_steps steps <-> forall n d, n ∈ elements (dom steps) -> d ∈ mentions steps n -> is_Some (steps !! d).
Proof.
  unfold closed_steps, mentions. split.
  - intros H n d _ Hd. destruct (steps !! n) as [s|] eqn:E; simpl in Hd; [by eapply H |].
    by apply elem_of_nil in Hd.
  - intros H n s d E Hd. apply (H n d); [|by rewrite E]. apply elem_of_elements, elem_of_dom. eauto.
Qed.

Lemma reachable_builder_wf name ops : builder_wf (foldl (fun b op => bapply op b) (Define name) ops).
Proof.
  assert (builder_wf (Define name)) as H0.
  { split; simpl; [apply map_Forall_empty |]. by case_bool_decide. }
  revert H0. generalize (Define name). induction ops as [|op ops IH]; intros b Hb; [done |].
  by apply IH, bapply_wf.
Qed.

(** A startup order of the step graph is what the engine needs. *)
Lemma startup_ok_def_wf name steps order :
  name ≠ "" -> steps_wf steps -> closed_steps steps ->
  startup_ok (step_graph steps) (elements (dom steps)) order ->
  def_wf (mkDefinition name steps order).
Proof.
  intros Hn Hs Hc (Hnd & Hin & Ht). rewrite (nodes_step_graph steps Hc) in Hin.
  split; simpl; try done.
  - intros n. by rewrite Hin, elem_of_dom.
  - intros k n s Hk Es d Hd. apply (elem_of_list_to_set (C := gset string)), (Ht k n Hk).
    rewrite deps_step_graph. apply elem_of_list_to_set. unfold mentions. by rewrite Es.
Qed.

(** What the builder promises, the cases in their order: the recorded error; no steps;
    a dependency that is not a step; a cycle; a definition. *)
Definition build_promise (b : Builder) (r : option (werror + Definition_)) : Prop :=
  let fails k := exists e, r = Some (inl e) /\ werror_is e k in
  let steps := bd_steps b in
  match bd_err b with
  | Some e => r = Some (inl e)
  | None =>
    (steps = ∅ /\ fails werr.ErrInvalidDefinition) \/
    (steps ≠ ∅ /\ ~ closed_steps steps /\ fails werr.ErrUnknownStep) \/
    (steps ≠ ∅ /\ closed_steps steps /\ ~ acyclic (step_graph steps) /\ fails werr.ErrCycle) \/
    (steps ≠ ∅ /\ closed_steps steps /\ acyclic (step_graph steps) /\
     exists d, r = Some (inr d) /\ def_wf d /\ df_steps d = steps /\ df_Name d = bd_name b)
  end.

(** [Build] of a reachable builder. *)
Lemma Build_spec name ops range :
  let b := foldl (fun b op => bapply op b) (Define name) ops in
  range ≡ₚ elements (dom (bd_steps b)) -> build_promise b (Build range b).
Proof.
  intros b Hr. destruct (reachable_builder_wf name ops) as [Hs Hn]. fold b in Hs, Hn.
  unfold build_promise, Build. destruct (bd_err b) as [e|] eqn:Ee; [done |]. specialize (Hn eq_refl).
  destruct (bool_decide_reflect (size (bd_steps b) = 0%nat)) as [H0|H0].
  { left. split; [by apply map_size_empty_inv | eauto]. }
  right. assert (bd_steps b ≠ ∅) as Hne by (by intros E; rewrite E, map_size_empty in H0).
  destruct (unknown_dep_spec (bd_steps b) range) as [Hu1 Hu2].
  assert (unknown_dep (bd_steps b) range = None <-> closed_steps (bd_steps b)) as Hu.
  { rewrite Hu1, closed_steps_mentions. by setoid_rewrite Hr. }
  destruct (unknown_dep _ _) as [[n d]|] eqn:E.
  { left. split; [done |]. split; [|eauto]. intros Hc. by apply Hu in Hc. }
  right. assert (closed_steps (bd_steps b)) as Hc by (by apply Hu). rewrite (topoSteps_kahn _ Hc).
  destruct (StartupOrder_spec (step_graph (bd_steps b)) (elements (dom (bd_steps b))))
    as [(o & Eo & Ho & Ha)|[Eo Ha]]; rewrite Eo.
  - right. split_and!; try done. eexists. split; [done |]. split; [by apply startup_ok_def_wf | done].
  - left. split_and!; try done. eauto.
Qed.

Lemma promise_wf b d : build_promise b (Some (inr d)) -> def_wf d.
Proof. unfold build_promise. destruct (bd_err b); [done |]. naive_solver. Qed.

(** The step order of a workflow is the activation order of its dependency
    graph.  [topoSteps] counts every mention of a dependency, [StartupOrder] every
    edge once; on steps whose dependencies are declared they return the same list,
    or both refuse a cycle. *)
Theorem topoSteps_StartupOrder steps :
  closed_steps steps ->
  topoSteps steps =
  match StartupOrder (step_graph steps) (elements (dom steps)) with
  | Some (inr order) => Some (inr order)
  | Some (inl _) => Some (inl (WError "Build" "" "" (WSentinel werr.ErrCycle) "step dependency cycle"))
  | None => None
  end.
Proof. apply topoSteps_kahn. Qed.

(** C24: whatever sequence of calls made the builder, and for every order the step map
    may be ranged over, [Build] returns, and what it returns is decided by the first of
    these that applies: the recorded error, if there is one; [ErrInvalidDefinition], if
    there are no steps; [ErrUnknownStep], if a step depends on something that is not a
    step; [ErrCycle], if the dependencies have a cycle; else a definition with the
    builder's name and steps, each step under its own name, and an order in which every
    step occurs once, after everything it depends on. *)
Theorem build_sound name ops range :
  let b := foldl (fun b op => bapply op b) (Define name) ops in
  range ≡ₚ elements (dom (bd_steps b)) -> build_promise b (Build range b).
Proof. apply Build_spec. Qed.

Definition wf_ops : list bop :=
  [BStep "migrate" (Some 1%N); BStep "backup" (Some 2%N); BStep "switch" (Some 3%N);
   BDepend "migrate" ["backup"; "backup"]; BDepend "switch" ["migrate"; "backup"];
   BCompensate "migrate" (Some 4%N); BIdempotency "switch" NotRetryable; BMutating "switch" true].
Definition wf_builder : Builder := foldl (fun b op => bapply op b) (Define "cutover") wf_ops.

Lemma topoSteps_StartupOrder_witness :
  closed_steps (bd_steps wf_builder) /\
  topoSteps (bd_steps wf_builder) = Some (inr ["backup"; "migrate"; "switch"]).
Proof.
  assert (closed_steps (bd_steps wf_builder)) as Hc.
  { apply closed_steps_mentions.
    apply (unknown_dep_spec (bd_steps wf_builder) (elements (dom (bd_steps wf_builder)))).
    vm_compute. reflexivity. }
  split; [exact Hc |]. rewrite (topoSteps_StartupOrder _ Hc). vm_compute. reflexivity.
Defined.

Definition wf_range : list string := elements (dom (bd_steps wf_builder)).

Lemma build_sound_witness :
  exists d, Build wf_range wf_builder = Some (inr d) /\ def_wf d /\
    Steps d = ["backup"; "migrate"; "switch"].
Proof.
  pose proof (build_sound "cutover" wf_ops wf_range (Permutation_refl _)) as H.
  change (foldl (fun b op => bapply op b) (Define "cutover") wf_ops) with wf_builder in H.
  assert (option_map (sum_map (fun _ => tt) Steps) (Build wf_range wf_builder) =
    Some (inr ["backup"; "migrate"; "switch"])) as E by (vm_compute; reflexivity).
  destruct (Build wf_range wf_builder) as [[e|d]|]; [discriminate | | discriminate].
  exists d. split; [reflexivity |]. split; [exact (promise_wf wf_builder d H) |]. injection E. trivial.
Defined.

(** A built definition, for the examples of the engine. *)
Definition wf_def : Definition_ :=
  match Build wf_range wf_builder with Some (inr d) => d | _ => mkDefinition "" ∅ [] end.

Lemma wf_def_wf : def_wf wf_def.
Proof.
  pose proof (Build_spec "cutover" wf_ops wf_range (Permutation_refl _)) as H.
  change (foldl (fun b op => bapply op b) (Define "cutover") wf_ops) with wf_builder in H.
  assert (match Build wf_range wf_builder with Some (inr _) => true | _ => false end = true) as E
    by (vm_compute; reflexivity).
  unfold wf_def. destruct (Build wf_range wf_builder) as [[e|d]|]; [discriminate | | discriminate]. exact (promise_wf wf_builder d H).
Qed.
