(* ===== verification/WorkflowStore.v ===== *)
(** * Workflow checkpoint stores ([workflow/store.go])

    Three stores behind one interface: in memory, one JSON file replaced by rename,
    and an append-only journal of JSON lines replayed on open.  [encoding/json] is
    a parameter: a codec with the facts of it the stores rely on, restricted to the
    values it can print (valid UTF-8 strings, years of four digits).  What the file
    system answers is an argument of each operation.  [cloneCheckpoint] copies maps
    and slices, so that a stored checkpoint never shares memory with its caller's:
    in a model without mutable values it is the identity.

    [WStore] is what the engine is promised; the three stores discharge it. *)

From S2P Require Import Prelude GoStrings TextCodec WorkflowDef.
From Stdlib Require Import Ascii.

(** ** Checkpoints *)

Record Checkpoint := mkCP {
  cp_InstanceID : string; cp_Workflow : string; cp_State : WState;
  cp_Steps : gmap string StepState; cp_UpdatedAt : Time; cp_DryRun : bool;
  cp_Attrs : gmap string string; cp_CompletedSteps : list string;
  cp_EpochAtStep : gmap string Z }.

Definition cp_at (now : Time) (cp : Checkpoint) : Checkpoint :=
  mkCP (cp_InstanceID cp) (cp_Workflow cp) (cp_State cp) (cp_Steps cp) now (cp_DryRun cp)
    (cp_Attrs cp) (cp_CompletedSteps cp) (cp_EpochAtStep cp).

Definition DefaultMaxInstances : Z := 256.

Definition cloneCheckpoint (cp : Checkpoint) : Checkpoint := cp.

Definition store_max (max : Z) : Z := if bool_decide (max <= 0) then DefaultMaxInstances else max.

Abbreviation cpmap := (gmap string Checkpoint) (only parsing).

(** The bound every [Save] checks before a new instance is added. *)
Definition over_bound (data : cpmap) (max : Z) (id : string) : bool :=
  bool_decide (data !! id = None) && bool_decide (max <= Z.of_nat (size data)).

Definition bound_error (op : string) : werror :=
  WError op "" "" (WSentinel werr.ErrBoundExceeded) "max instances".

Definition load_from (op : string) (data : cpmap) (id : string) : werror + Checkpoint :=
  match data !! id with
  | None => inl (WError op "" "" (WSentinel werr.ErrNotFound) "not found")
  | Some cp => inr (cloneCheckpoint cp)
  end.

(** The checkpoints of a map, in the order it is ranged over. *)
Definition list_from (data : cpmap) : list Checkpoint := cloneCheckpoint <$> (map_to_list data).*2.

(** ** [MemoryStore] *)

Record MemoryStore := mkMemStore { ms_data : cpmap; ms_max : Z }.

Definition NewMemoryStore (max : Z) : MemoryStore := mkMemStore ∅ (store_max max).

Definition MemoryStore_Save (now : Time) (cp : Checkpoint) (s : MemoryStore)
  : MemoryStore * option werror :=
  if over_bound (ms_data s) (ms_max s) (cp_InstanceID cp) then (s, Some (bound_error "Store.Save"))
  else (mkMemStore (<[cp_InstanceID cp := cloneCheckpoint (cp_at now cp)]> (ms_data s)) (ms_max s), None).

Definition MemoryStore_Load (s : MemoryStore) (id : string) : werror + Checkpoint :=
  load_from "Store.Load" (ms_data s) id.

Definition MemoryStore_Delete (id : string) (s : MemoryStore) : MemoryStore :=
  mkMemStore (delete id (ms_data s)) (ms_max s).

Definition MemoryStore_List (s : MemoryStore) : list Checkpoint := list_from (ms_data s).

(** ** [encoding/json] *)

Inductive jop := OpSave | OpDelete.

Record journalRecord := mkRec {
  jr_Op : jop; jr_Checkpoint : Checkpoint; jr_InstanceID : string; jr_At : Time }.

(** Its state is the empty string in Go; nothing reads it. *)
Definition cp_zero : Checkpoint := mkCP "" "" StateCreated ∅ time_zero false ∅ [] ∅.

(** The records the store writes.  A record with another operation is ignored by
    the replay, as one that cannot be read is. *)
Definition save_rec (cp : Checkpoint) : journalRecord := mkRec OpSave cp "" (cp_UpdatedAt cp).
Definition delete_rec (id : string) (now : Time) : journalRecord := mkRec OpDelete cp_zero id now.

Definition nl : ascii := Ascii.ascii_of_nat 10.

(** A printed record is one line, is read back, and no proper prefix of it is
    JSON; a printed map is read back and is not empty. *)
Class JSON := {
  cp_ok : Checkpoint -> Prop;
  id_ok : string -> Time -> Prop;
  encode_map : cpmap -> bytes;
  decode_map : bytes -> option cpmap;
  encode_rec : journalRecord -> bytes;
  decode_rec : bytes -> option journalRecord;
  decode_encode_map m : map_Forall (fun _ => cp_ok) m -> decode_map (encode_map m) = Some m;
  encode_map_nonempty m : encode_map m ≠ [];
  decode_empty : decode_rec [] = None;
  decode_encode_save cp : cp_ok cp -> decode_rec (encode_rec (save_rec cp)) = Some (save_rec cp);
  decode_encode_delete id now : id_ok id now ->
    decode_rec (encode_rec (delete_rec id now)) = Some (delete_rec id now);
  encode_rec_line r : nl ∉ encode_rec r;
  decode_prefix r k : (k < length (encode_rec r))%nat -> decode_rec (take k (encode_rec r)) = None }.

(** ** [FileStore] *)

(** The file, and what it answers: an error of the read, an error of the write. *)
Record FileStore := mkFileStore { fs_file : option bytes; fs_max : Z }.

Record file_io := mkFileIO { io_read : option goerror; io_write : option goerror }.

Definition NewFileStore (file : option bytes) (max : Z) : FileStore := mkFileStore file (store_max max).

Section FileStore.
Context `{JSON}.

Definition bad_json : goerror := GoError "invalid character" false false.

Definition loadLocked (io : file_io) (s : FileStore) : werror + cpmap :=
  match io_read io with
  | Some e => inl (WOther e)
  | None =>
    match fs_file s with
    | None => inr ∅
    | Some [] => inr ∅
    | Some raw =>
      match decode_map raw with
      | None => inl (WOther bad_json)
      | Some all => inr all
      end
    end
  end.

(** The temporary file replaces the old one only after every step has succeeded. *)
Definition writeLocked (io : file_io) (all : cpmap) (s : FileStore) : FileStore * option werror :=
  match io_write io with
  | Some e => (s, Some (WOther e))
  | None => (mkFileStore (Some (encode_map all)) (fs_max s), None)
  end.

Definition FileStore_Save (io : file_io) (now : Time) (cp : Checkpoint) (s : FileStore)
  : FileStore * option werror :=
  match loadLocked io s with
  | inl e => (s, Some e)
  | inr all =>
    if over_bound all (fs_max s) (cp_InstanceID cp) then (s, Some (bound_error "FileStore.Save"))
    else writeLocked io (<[cp_InstanceID cp := cp_at now cp]> all) s
  end.

Definition FileStore_Load (io : file_io) (s : FileStore) (id : string) : werror + Checkpoint :=
  match loadLocked io s with
  | inl e => inl e
  | inr all => load_from "FileStore.Load" all id
  end.

Definition FileStore_Delete (io : file_io) (id : string) (s : FileStore) : FileStore * option werror :=
  match loadLocked io s with
  | inl e => (s, Some e)
  | inr all => writeLocked io (delete id all) s
  end.

Definition FileStore_List (io : file_io) (s : FileStore) : werror + list Checkpoint :=
  match loadLocked io s with
  | inl e => inl e
  | inr all => inr (list_from all)
  end.
End FileStore.

(** ** [JournalStore] *)

(** The journal on disk and the map in memory. *)
Record JournalStore := mkJournal { js_file : option bytes; js_data : cpmap; js_max : Z }.

Fixpoint split_from (cur raw : bytes) : list bytes :=
  match raw with
  | [] => match cur with [] => [] | _ => [cur] end
  | c :: t => if bool_decide (c = nl) then cur :: split_from [] t else split_from (cur ++ [c]) t
  end.

Definition splitLines (raw : bytes) : list bytes := split_from [] raw.

(** What the file system does with an append: all of it, or only the first bytes
    and an error (all the bytes when only the sync or the close fails). *)
Definition append_io : Type := option (nat * goerror).

Section JournalStore.
Context `{JSON}.

Definition replay_rec (data : cpmap) (rec : journalRecord) : cpmap :=
  match jr_Op rec with
  | OpSave => <[cp_InstanceID (jr_Checkpoint rec) := cloneCheckpoint (jr_Checkpoint rec)]> data
  | OpDelete => delete (jr_InstanceID rec) data
  end.

Definition replay_line (data : cpmap) (line : bytes) : cpmap :=
  match line with
  | [] => data
  | _ => match decode_rec line with None => data | Some rec => replay_rec data rec end
  end.

Definition replay (file : option bytes) : cpmap :=
  match file with
  | None => ∅
  | Some raw => foldl replay_line ∅ (splitLines raw)
  end.

(** An error of the read, other than a missing file, is returned. *)
Definition NewJournalStore (read : option goerror) (file : option bytes) (max : Z)
  : werror + JournalStore :=
  match read with
  | Some e => inl (WOther e)
  | None => inr (mkJournal file (replay file) (store_max max))
  end.

Definition appendLocked (io : append_io) (rec : journalRecord) (s : JournalStore)
  : JournalStore * option werror :=
  let line := encode_rec rec ++ [nl] in
  let old := default [] (js_file s) in
  match io with
  | Some (k, e) => (mkJournal (Some (old ++ take k line)) (js_data s) (js_max s), Some (WOther e))
  | None => (mkJournal (Some (old ++ line)) (js_data s) (js_max s), None)
  end.

Definition JournalStore_Save (io : append_io) (now : Time) (cp : Checkpoint) (s : JournalStore)
  : JournalStore * option werror :=
  if over_bound (js_data s) (js_max s) (cp_InstanceID cp) then (s, Some (bound_error "JournalStore.Save"))
  else
    let cp := cp_at now cp in
    appendLocked io (save_rec cp)
      (mkJournal (js_file s) (<[cp_InstanceID cp := cloneCheckpoint cp]> (js_data s)) (js_max s)).

Definition JournalStore_Load (s : JournalStore) (id : string) : werror + Checkpoint :=
  load_from "JournalStore.Load" (js_data s) id.

Definition JournalStore_Delete (io : append_io) (now : Time) (id : string) (s : JournalStore)
  : JournalStore * option werror :=
  appendLocked io (delete_rec id now)
    (mkJournal (js_file s) (delete id (js_data s)) (js_max s)).

Definition JournalStore_List (s : JournalStore) : list Checkpoint := list_from (js_data s).
End JournalStore.

(** ** What the engine is promised *)

(** A store: what a fault may be, saving and loading; [ws_reopen] is what a new
    process finds.  Of a save that succeeds on a value the store can print: it is
    what is loaded, other instances are untouched, and all of it survives. *)
Class WStore (S : Type) := {
  ws_io : Type;
  ws_Save : ws_io -> Time -> Checkpoint -> S -> S * option werror;
  ws_Load : S -> string -> werror + Checkpoint;
  ws_reopen : S -> S;
  ws_cp_ok : Checkpoint -> Prop;
  ws_inv : S -> Prop;
  ws_save_load io now cp s s' :
    ws_inv s -> ws_cp_ok (cp_at now cp) -> ws_Save io now cp s = (s', None) ->
    ws_inv s' /\ ws_Load s' (cp_InstanceID cp) = inr (cp_at now cp) /\
    (forall id, id ≠ cp_InstanceID cp -> ws_Load s' id = ws_Load s id);
  ws_reopen_inv s : ws_inv s -> ws_inv (ws_reopen s);
  ws_reopen_load s id : ws_inv s -> ws_Load (ws_reopen s) id = ws_Load s id }.

Lemma load_from_insert op data cp :
  load_from op (<[cp_InstanceID cp := cp]> data) (cp_InstanceID cp) = inr cp /\
  (forall id, id ≠ cp_InstanceID cp ->
     load_from op (<[cp_InstanceID cp := cp]> data) id = load_from op data id).
Proof.
  unfold load_from. split; [by rewrite lookup_insert_eq |].
  intros id Hid. by rewrite lookup_insert_ne.
Qed.

(** The memory store, within one process. *)
#[global] Program Instance MemoryStore_WStore : WStore MemoryStore := {|
  ws_io := unit; ws_Save _ := MemoryStore_Save; ws_Load := MemoryStore_Load;
  ws_reopen s := s; ws_cp_ok _ := True; ws_inv _ := True |}.
Next Obligation.
  intros io now cp s s' _ _. unfold MemoryStore_Save. destruct (over_bound _ _ _); [done |].
  intros [= <-]. split; [done |]. apply (load_from_insert _ _ (cp_at now cp)).
Qed.
Next Obligation. done. Qed.
Next Obligation. done. Qed.

Section FileInstance.
Context `{JSON}.

Definition file_inv (s : FileStore) : Prop :=
  exists all, loadLocked (mkFileIO None None) s = inr all /\ map_Forall (fun _ => cp_ok) all.

Lemma loadLocked_encoded all max io :
  io_read io = None -> map_Forall (fun _ => cp_ok) all ->
  loadLocked io (mkFileStore (Some (encode_map all)) max) = inr all.
Proof.
  intros Hr Ha. unfold loadLocked. rewrite Hr. simpl. pose proof (encode_map_nonempty all) as Hn.
  destruct (encode_map all) as [|c t] eqn:E; [done |]. rewrite <- E. by rewrite decode_encode_map.
Qed.

#[global] Program Instance FileStore_WStore : WStore FileStore := {|
  ws_io := file_io; ws_Save := FileStore_Save; ws_Load := FileStore_Load (mkFileIO None None);
  ws_reopen s := s; ws_cp_ok := cp_ok; ws_inv := file_inv |}.
Next Obligation.
  intros io now cp s s' (all & Hall & Hok) Hcp. unfold FileStore_Save.
  assert (forall a, loadLocked io s = inr a -> a = all /\ io_read io = None) as Hl.
  { intros a. revert Hall. unfold loadLocked. simpl. destruct (io_read io); [done |].
    intros -> [= ->]. done. }
  destruct (loadLocked io s) as [e|a]; [done |]. destruct (Hl a eq_refl) as [-> Hr].
  destruct (over_bound _ _ _); [done |]. unfold writeLocked. destruct (io_write io); [done |].
  intros [= <-].
  assert (map_Forall (fun _ => cp_ok) (<[cp_InstanceID cp := cp_at now cp]> all)) as Hok'
    by (by apply map_Forall_insert_2).
  pose proof (loadLocked_encoded _ (fs_max s) (mkFileIO None None) eq_refl Hok') as E.
  split; [by eexists |]. unfold FileStore_Load. rewrite E, Hall.
  apply (load_from_insert _ _ (cp_at now cp)).
Qed.
Next Obligation. done. Qed.
Next Obligation. done. Qed.
End FileInstance.

(** ** Replaying a journal *)

(** A file of whole lines. *)
Definition unlines (ls : list bytes) : bytes := ls ≫= fun l => l ++ [nl].

Lemma split_from_line cur l rest :
  nl ∉ l -> split_from cur (l ++ nl :: rest) = (cur ++ l) :: split_from [] rest.
Proof.
  revert cur. induction l as [|c l IH]; intros cur Hl; cbn [app split_from].
  - by rewrite bool_decide_eq_true_2, app_nil_r.
  - rewrite bool_decide_eq_false_2 by set_solver. rewrite IH by set_solver. by rewrite <- app_assoc.
Qed.

Lemma split_from_last cur l :
  nl ∉ l -> split_from cur l = match cur ++ l with [] => [] | _ => [cur ++ l] end.
Proof.
  revert cur. induction l as [|c l IH]; intros cur Hl; simpl; [by rewrite app_nil_r |].
  rewrite bool_decide_eq_false_2 by set_solver. rewrite IH by set_solver. by rewrite <- app_assoc.
Qed.

Lemma splitLines_unlines ls tail :
  Forall (fun l => nl ∉ l) ls -> splitLines (unlines ls ++ tail) = ls ++ splitLines tail.
Proof.
  unfold splitLines, unlines. induction 1 as [|l ls Hl _ IH]; [done |].
  rewrite bind_cons, <- !app_assoc. cbn [app]. rewrite split_from_line by done. simpl. by rewrite IH.
Qed.

Lemma unlines_snoc ls l : unlines (ls ++ [l]) = unlines ls ++ l ++ [nl].
Proof. unfold unlines. rewrite bind_app. simpl. by rewrite app_nil_r. Qed.

Section JournalReplay.
Context `{JSON}.

(** The memory is what a replay of the file, which ends with a line, gives. *)
Definition journal_inv (s : JournalStore) : Prop :=
  js_data s = replay (js_file s) /\
  exists ls, default [] (js_file s) = unlines ls /\ Forall (fun l => nl ∉ l) ls.

Lemma replay_default file : replay file = foldl replay_line ∅ (splitLines (default [] file)).
Proof. by destruct file. Qed.

(** A file that gains one whole record. *)
Lemma replay_append file ls rec :
  default [] file = unlines ls -> Forall (fun l => nl ∉ l) ls ->
  decode_rec (encode_rec rec) = Some rec ->
  replay (Some (default [] file ++ encode_rec rec ++ [nl])) = replay_rec (replay file) rec /\
  replay (Some (default [] file ++ encode_rec rec)) = replay_rec (replay file) rec.
Proof.
  intros Ef Hls Hd. rewrite !replay_default. simpl. rewrite Ef.
  assert (replay_line (foldl replay_line ∅ (splitLines (unlines ls))) (encode_rec rec) =
    replay_rec (foldl replay_line ∅ (splitLines (unlines ls))) rec) as Hr.
  { unfold replay_line at 1. rewrite Hd. destruct (encode_rec rec); [|done].
    by rewrite decode_empty in Hd. }
  pose proof (splitLines_unlines ls [] Hls) as E0. rewrite !app_nil_r in E0.
  split.
  - rewrite <- unlines_snoc. rewrite <- (app_nil_r (unlines (ls ++ _))).
    rewrite splitLines_unlines by (apply Forall_app_2; [done | by apply Forall_singleton, encode_rec_line]).
    change (splitLines []) with ([] : list bytes). rewrite app_nil_r, foldl_app. cbn [foldl].
    rewrite <- Hr. by rewrite E0.
  - rewrite splitLines_unlines by done. rewrite foldl_app.
    change (splitLines (encode_rec rec)) with (split_from [] (encode_rec rec)).
    rewrite split_from_last by apply encode_rec_line. cbn [app].
    rewrite <- Hr, E0. by destruct (encode_rec rec).
Qed.

(** A file that gains a proper prefix of a record. *)
Lemma replay_torn file ls rec k :
  default [] file = unlines ls -> Forall (fun l => nl ∉ l) ls -> (k < length (encode_rec rec))%nat ->
  replay (Some (default [] file ++ take k (encode_rec rec))) = replay file.
Proof.
  intros Ef Hls Hk. rewrite !replay_default. simpl. rewrite Ef.
  pose proof (splitLines_unlines ls [] Hls) as E0. rewrite !app_nil_r in E0.
  rewrite splitLines_unlines, foldl_app, E0 by done. unfold splitLines.
  rewrite split_from_last; cbn [app].
  - pose proof (decode_prefix rec k Hk) as Hd. destruct (take k (encode_rec rec)); [done |].
    cbn [foldl]. unfold replay_line at 1. by rewrite Hd.
  - intros Hin. apply (encode_rec_line rec). by eapply subseteq_take.
Qed.

(** ** Operations of a journal and of a map *)

Inductive sop := SSave (now : Time) (cp : Checkpoint) | SDelete (now : Time) (id : string).

(** The operation's values can be printed. *)
Definition sop_ok (op : sop) : Prop :=
  match op with
  | SSave now cp => cp_ok (cp_at now cp)
  | SDelete now id => id_ok id now
  end.

Definition jstep (io : append_io) (op : sop) (s : JournalStore) : JournalStore * option werror :=
  match op with
  | SSave now cp => JournalStore_Save io now cp s
  | SDelete now id => JournalStore_Delete io now id s
  end.

Definition mstep (op : sop) (s : MemoryStore) : MemoryStore * option werror :=
  match op with
  | SSave now cp => MemoryStore_Save now cp s
  | SDelete now id => (MemoryStore_Delete id s, None)
  end.

Definition rec_of (op : sop) : journalRecord :=
  match op with
  | SSave now cp => save_rec (cp_at now cp)
  | SDelete now id => delete_rec id now
  end.

Lemma sop_decode op : sop_ok op -> decode_rec (encode_rec (rec_of op)) = Some (rec_of op).
Proof. destruct op; simpl; [apply decode_encode_save | apply decode_encode_delete]. Qed.

(** A step is refused at the bound, or changes the map as a replay of its record
    does and appends the record. *)
Lemma jstep_spec io op s :
  ((jstep io op s).1 = s /\ (jstep io op s).2 ≠ None) \/
  jstep io op s = appendLocked io (rec_of op)
    (mkJournal (js_file s) (replay_rec (js_data s) (rec_of op)) (js_max s)).
Proof.
  destruct op as [now cp|now id]; simpl; [|by right].
  unfold JournalStore_Save. destruct (over_bound _ _ _); [by left | by right].
Qed.

Lemma jstep_inv op s s' :
  journal_inv s -> sop_ok op -> jstep None op s = (s', None) ->
  journal_inv s' /\ js_max s' = js_max s /\ js_data s' = replay_rec (js_data s) (rec_of op).
Proof.
  intros (Hd & ls & Ef & Hls) Hop. destruct (jstep_spec None op s) as [[_ Hn]|E]; intros E'.
  { rewrite E' in Hn. done. }
  rewrite E in E'. unfold appendLocked in E'. injection E' as <-. split; [|done].
  split; cbn [js_file js_data default].
  - destruct (replay_append (js_file s) ls _ Ef Hls (sop_decode op Hop)) as [-> _]. by rewrite Hd.
  - exists (ls ++ [encode_rec (rec_of op)]). rewrite unlines_snoc, Ef. split; [done |].
    apply Forall_app_2; [done | by apply Forall_singleton, encode_rec_line].
Qed.

(** A crash in the middle of an append leaves the journal before or after it. *)
Lemma jstep_crash k e op s s' r :
  journal_inv s -> sop_ok op -> jstep (Some (k, e)) op s = (s', r) ->
  replay (js_file s') = js_data s \/ replay (js_file s') = replay_rec (js_data s) (rec_of op).
Proof.
  intros (Hd & ls & Ef & Hls) Hop. destruct (jstep_spec (Some (k, e)) op s) as [[E1 _]|E]; intros E'.
  { rewrite E' in E1. simpl in E1. subst. by left. }
  rewrite E in E'. unfold appendLocked in E'. injection E' as <- _. cbn [js_file].
  destruct (decide (k < length (encode_rec (rec_of op)))%nat) as [Hk|Hk].
  - left. rewrite take_app_le by lia. by rewrite (replay_torn _ ls).
  - right. destruct (replay_append (js_file s) ls _ Ef Hls (sop_decode op Hop)) as [R1 R2].
    rewrite Hd. destruct (decide (k = length (encode_rec (rec_of op)))) as [->|Hn].
    + by rewrite take_app_length.
    + rewrite take_ge; [done |]. rewrite length_app. simpl. lia.
Qed.

#[global] Program Instance JournalStore_WStore : WStore JournalStore := {|
  ws_io := append_io; ws_Save := JournalStore_Save; ws_Load := JournalStore_Load;
  ws_reopen s := mkJournal (js_file s) (replay (js_file s)) (js_max s);
  ws_cp_ok := cp_ok; ws_inv := journal_inv |}.
Next Obligation.
  intros io now cp s s' Hi Hcp E.
  assert (io = None) as ->.
  { revert E. unfold JournalStore_Save, appendLocked. destruct (over_bound _ _ _); [done |].
    by destruct io as [[k e]|]. }
  destruct (jstep_inv (SSave now cp) s s' Hi Hcp E) as (Hi' & _ & Hd). split; [done |].
  unfold JournalStore_Load. rewrite Hd. apply (load_from_insert _ _ (cp_at now cp)).
Qed.
Next Obligation. intros s [Hd Hls]. by split. Qed.
Next Obligation. intros s id [Hd _]. unfold JournalStore_Load. simpl. by rewrite Hd. Qed.

(** ** Recovery *)

Definition journal0 (max : Z) : JournalStore := mkJournal None ∅ (store_max max).

Definition jrun (ops : list sop) (s : JournalStore) : JournalStore :=
  foldl (fun s op => (jstep None op s).1) s ops.

Definition mrun (ops : list sop) (s : MemoryStore) : MemoryStore :=
  foldl (fun s op => (mstep op s).1) s ops.

(** The journal and the map it stands for. *)
Definition journal_map (s : JournalStore) (m : MemoryStore) : Prop :=
  journal_inv s /\ js_data s = ms_data m /\ js_max s = ms_max m.

Lemma journal_map_step op s m :
  journal_map s m -> sop_ok op ->
  journal_map (jstep None op s).1 (mstep op m).1 /\
  ((jstep None op s).2 = None <-> (mstep op m).2 = None).
Proof.
  intros (Hi & Hd & Hm) Hop. destruct (jstep None op s) as [s' [e|]] eqn:E.
  - destruct op as [now cp|now id]; simpl in E |- *; [|done]. revert E.
    unfold JournalStore_Save, MemoryStore_Save. rewrite <- Hd, <- Hm.
    destruct (over_bound _ _ _) eqn:Eb; [|done]. by intros [= <- <-].
  - destruct (jstep_inv op s s' Hi Hop E) as (Hi' & Hm' & Hd').
    assert (mstep op m = (mkMemStore (replay_rec (ms_data m) (rec_of op)) (ms_max m), None)) as ->.
    { destruct op as [now cp|now id]; simpl in E |- *; [|done]. revert E.
      unfold MemoryStore_Save, JournalStore_Save. rewrite <- Hd, <- Hm. by destruct (over_bound _ _ _). }
    simpl. split; [|done]. split; [done |]. by rewrite Hd', Hm', <- Hd.
Qed.

Lemma journal_map_run ops s m :
  journal_map s m -> Forall sop_ok ops -> journal_map (jrun ops s) (mrun ops m).
Proof.
  intros Hs Hops. revert s m Hs. induction Hops as [|op ops Hop _ IH]; intros s m Hs; [done |].
  by apply IH, journal_map_step.
Qed.

Lemma mrun_max ops : forall m, ms_max (mrun ops m) = ms_max m.
Proof.
  induction ops as [|o ops IH]; intros m; [done |]. cbn [mrun foldl]. etrans; [apply IH |].
  destruct o; simpl; [|done]. unfold MemoryStore_Save. by destruct (over_bound _ _ _).
Qed.

Lemma journal_map_init max : journal_map (journal0 max) (NewMemoryStore max).
Proof. split; [|done]. split; [done |]. exists []. by split. Qed.

(** C22: a journal recovers.  After any sequence of saves and deletes of printable
    values the journal store holds what the memory store would, answers the next
    operation alike, and opening its file again gives the very same store; and
    when the process dies after any number of bytes of an append, opening the file
    gives the checkpoints from before that operation or from after it. *)
Theorem journal_recovers ops max op k e :
  Forall sop_ok ops -> sop_ok op ->
  let s := jrun ops (journal0 max) in
  let m := mrun ops (NewMemoryStore max) in
  js_data s = ms_data m /\
  ((jstep None op s).2 = None <-> (mstep op m).2 = None) /\
  NewJournalStore None (js_file s) max = inr s /\
  (replay (js_file (jstep (Some (k, e)) op s).1) = js_data s \/
   replay (js_file (jstep (Some (k, e)) op s).1) = js_data (jstep None op s).1).
Proof.
  intros Hops Hop s m.
  pose proof (journal_map_run ops _ _ (journal_map_init max) Hops) as Hjm.
  fold s m in Hjm. destruct (journal_map_step op s m Hjm Hop) as [_ Hr].
  destruct Hjm as ([Hd Hls] & Hdm & Hm).
  split; [done |]. split; [done |]. split.
  - unfold NewJournalStore. f_equal.
    pose proof (mrun_max ops (NewMemoryStore max)) as Hmax. fold m in Hmax. simpl in Hmax.
    destruct s as [f d x]. simpl in *. congruence.
  - destruct (jstep (Some (k, e)) op s) as [s' r] eqn:E.
    destruct (jstep_crash k e op s s' r (conj Hd Hls) Hop E) as [?|Hn]; [by left |].
    simpl. destruct (jstep_spec None op s) as [[E1 E2]|E1].
    + left. assert (s' = s) as ->; [|by rewrite Hd].
      destruct op as [now cp|now id]; simpl in *; [|done].
      revert E E2. unfold JournalStore_Save. destruct (over_bound _ _ _); [by intros [= <- _] | done].
    + right. by rewrite Hn, E1.
Qed.

(** A record appended after a torn one shares its line: when the two together are
    not JSON, the save that reported success is lost at the next opening. *)
Lemma journal_glued_record_lost s ls op op' k s' :
  js_file s = Some (unlines ls ++ take k (encode_rec (rec_of op))) ->
  Forall (fun l => nl ∉ l) ls -> (0 < k < length (encode_rec (rec_of op)))%nat ->
  decode_rec (take k (encode_rec (rec_of op)) ++ encode_rec (rec_of op')) = None ->
  jstep None op' s = (s', None) ->
  replay (js_file s') = replay (js_file s).
Proof.
  intros Ef Hls Hk Hd E. destruct (jstep_spec None op' s) as [[_ Hn]|E1].
  { rewrite E in Hn. done. }
  rewrite E1 in E. unfold appendLocked in E. injection E as <-. cbn [js_file].
  pose proof (replay_torn (Some (unlines ls)) ls (rec_of op) k eq_refl Hls ltac:(lia)) as Ht.
  rewrite Ef in *. cbn [default] in *. unfold id in *. cbn [default] in Ht. rewrite Ht.
  set (t := take k (encode_rec (rec_of op))) in *.
  replace ((unlines ls ++ t) ++ encode_rec (rec_of op') ++ [nl]) with
    (unlines (ls ++ [t ++ encode_rec (rec_of op')])) by (rewrite unlines_snoc; by rewrite <- !app_assoc).
  assert (Forall (fun l => nl ∉ l) (ls ++ [t ++ encode_rec (rec_of op')])) as Hls'.
  { apply Forall_app_2; [done |]. apply Forall_singleton. rewrite elem_of_app. intros [Hin|Hin].
    - apply (encode_rec_line (rec_of op)). by eapply subseteq_take.
    - by apply (encode_rec_line (rec_of op')). }
  pose proof (splitLines_unlines _ [] Hls') as E'. rewrite !app_nil_r in E'.
  pose proof (splitLines_unlines _ [] Hls) as E0. rewrite !app_nil_r in E0.
  unfold replay. rewrite E', E0, foldl_app. cbn [foldl]. unfold replay_line at 1. rewrite Hd.
  by destruct (t ++ _).
Qed.
End JournalReplay.

(** ** A codec

    The facts asked of [encoding/json] hold of a concrete codec: the number
    [Countable] gives a value, in binary, ended by a semicolon. *)

#[global] Instance WState_countable : Countable WState.
Proof.
  refine (inj_countable (fun s => match s with
    | StateCreated => 0 | StateValidating => 1 | StateWaiting => 2 | StateRunning => 3
    | StatePaused => 4 | StateCompensating => 5 | StateCompleted => 6 | StateFailed => 7
    | StateCancelled => 8 | StateBlocked => 9 | StateLockedDown => 10
    | StateRequiresIntervention => 11 | StateRequiresReconciliation => 12 end)
    (fun n => [StateCreated; StateValidating; StateWaiting; StateRunning; StatePaused;
      StateCompensating; StateCompleted; StateFailed; StateCancelled; StateBlocked; StateLockedDown;
      StateRequiresIntervention; StateRequiresReconciliation] !! Z.to_nat n) _).
  by intros [].
Defined.

#[global] Instance StepStatus_countable : Countable StepStatus.
Proof.
  refine (inj_countable (fun s => match s with
    | StepUnset => 0 | StepPending => 1 | StepRunning => 2 | StepCompleted => 3 | StepFailed => 4
    | StepCompensating => 5 | StepCompensated => 6 | StepSkipped => 7 | StepReconcile => 8 end)
    (fun n => [StepUnset; StepPending; StepRunning; StepCompleted; StepFailed; StepCompensating;
      StepCompensated; StepSkipped; StepReconcile] !! Z.to_nat n) _).
  by intros [].
Defined.

#[global] Instance jop_eq_dec : EqDecision jop.
Proof. solve_decision. Defined.

#[global] Instance jop_countable : Countable jop.
Proof.
  refine (inj_countable' (fun o => match o with OpSave => true | OpDelete => false end)
    (fun b => if b then OpSave else OpDelete) _).
  by intros [].
Defined.

#[global] Instance Evidence_eq_dec : EqDecision Evidence.
Proof. solve_decision. Defined.

#[global] Instance Evidence_countable : Countable Evidence.
Proof.
  refine (inj_countable' (fun e => (ev_Time e, ev_Event e, ev_Summary e, ev_Attrs e))
    (fun '(t, ev, su, at_) => mkWEvidence t ev su at_) _).
  by intros [].
Defined.

#[global] Instance StepState_eq_dec : EqDecision StepState.
Proof. solve_decision. Defined.

#[global] Instance StepState_countable : Countable StepState.
Proof.
  refine (inj_countable' (fun s => (ss_Name s, ss_Status s, ss_Attempt s, ss_StartedAt s,
      ss_FinishedAt s, ss_Error s, ss_Evidence s))
    (fun '(n, st, a, t1, t2, e, ev) => mkStepState n st a t1 t2 e ev) _).
  by intros [].
Defined.

#[global] Instance Checkpoint_eq_dec : EqDecision Checkpoint.
Proof. solve_decision. Defined.

#[global] Instance Checkpoint_countable : Countable Checkpoint.
Proof.
  refine (inj_countable' (fun c => (cp_InstanceID c, cp_Workflow c, cp_State c, cp_Steps c,
      cp_UpdatedAt c, cp_DryRun c, cp_Attrs c, cp_CompletedSteps c, cp_EpochAtStep c))
    (fun '(i, w, st, ss, u, d, at_, co, ep) => mkCP i w st ss u d at_ co ep) _).
  by intros [].
Defined.

#[global] Instance journalRecord_eq_dec : EqDecision journalRecord.
Proof. solve_decision. Defined.

#[global] Instance journalRecord_countable : Countable journalRecord.
Proof.
  refine (inj_countable' (fun r => (jr_Op r, jr_Checkpoint r, jr_InstanceID r, jr_At r))
    (fun '(o, c, i, t) => mkRec o c i t) _).
  by intros [].
Defined.

Lemma print_pos_line p : nl ∉ print_pos p.
Proof.
  induction p as [p IH|p IH|]; simpl; rewrite not_elem_of_cons; (split; [done |]);
    [exact IH | exact IH | apply not_elem_of_nil].
Qed.

Definition toy_json : JSON.
Proof.
  refine {| cp_ok _ := True; id_ok _ _ := True; encode_map := print; decode_map := parse;
    encode_rec := print; decode_rec := parse |}.
  - intros m _. apply parse_print.
  - intros m. unfold print. by destruct (encode m).
  - done.
  - intros cp _. apply parse_print.
  - intros id now _. apply parse_print.
  - intros r. apply print_pos_line.
  - intros r k. apply parse_prefix.
Defined.

Definition cp_demo (id : string) (st : WState) : Checkpoint :=
  mkCP id "cutover" st ∅ time_zero false ∅ ["backup"] ∅.
Definition sops_demo : list sop :=
  [SSave 5 (cp_demo "run-1" StateRunning); SSave 6 (cp_demo "run-2" StateCreated);
   SDelete 7 "run-2"; SSave 8 (cp_demo "run-1" StateCompleted)].

(** Four operations, then a crash eleven bytes into a fifth. *)
Lemma journal_recovers_witness :
  let s := @jrun toy_json sops_demo (journal0 1) in
  js_data s = {["run-1" := cp_at 8 (cp_demo "run-1" StateCompleted)]} /\
  NewJournalStore (H := toy_json) None (js_file s) 1 = inr s /\
  (let crashed := (@jstep toy_json (Some (11%nat, GoError "no space" false false))
     (SDelete 9 "run-1") s).1 in
   @replay toy_json (js_file crashed) = js_data s \/ @replay toy_json (js_file crashed) = ∅).
Proof.
  intros s.
  destruct (@journal_recovers toy_json sops_demo 1 (SDelete 9 "run-1") 11 (GoError "no space" false false))
    as (Hd & _ & Hn & Hc); [repeat constructor | exact I |]. fold s in Hd, Hn, Hc.
  assert (js_data s = {["run-1" := cp_at 8 (cp_demo "run-1" StateCompleted)]}) as E.
  { rewrite Hd. vm_compute. reflexivity. }
  split; [exact E |]. split; [exact Hn |]. destruct Hc as [Hc|Hc]; [left; exact Hc | right].
  etransitivity; [exact Hc |].
  change (js_data (@jstep toy_json None (SDelete 9 "run-1") s).1) with (delete "run-1" (js_data s)).
  rewrite E. vm_compute. reflexivity.
Defined.
