(* ===== verification/WorkflowEngine.v ===== *)
(** * The workflow engine ([workflow/engine.go], [hooks.go])

    One run of a workflow instance against an environment that answers every
    question the engine asks of the outside: the clock, the context, the lockdown
    gate, the resource registry, the client's actions and compensations, the
    store's file system, the scheduling of a parallel batch.  Every answer may
    depend on the whole history of the run, so nothing is assumed of them.  The
    history is the run's log, newest event first; a crash is a run cut at an event,
    and what survives it is what the saves of the log put in the store.

    A run works on its own instance: two concurrent runs under one instance id, and
    what runs of other instances do to the store's bound, are not modelled.  In a
    parallel batch the goroutines only compute outcomes, which are sorted by step
    name before they are applied; the order in which they run is the
    environment's, and the semaphore's bound on how many run at once is not
    modelled.  [EvState] and [EvStart] events and the step map of [EvAct] are ghosts: the code
    changes the checkpoint there and calls nothing. *)

From S2P Require Import Prelude GoStrings ResourceID Dependency WorkflowDef WorkflowStore.
From stdpp Require Import sorting pretty.

#[local] Open Scope Z_scope.

(** ** Data *)

Record Result_ := mkResult { rs_Evidence : Evidence; rs_Ambiguous : bool }.

Record ExecContext := mkExec {
  ec_Workflow : string; ec_InstanceID : string; ec_Step : string; ec_Attempt : Z;
  ec_DryRun : bool; ec_OperationID : string; ec_Attrs : gmap string string;
  ec_ResourceEpoch : Z; ec_ResourceID : ResourceID }.

Record Instance_ := mkInst {
  in_ID : string; in_Workflow : string; in_State : WState; in_DryRun : bool;
  in_Checkpoint : Checkpoint }.

Record RunOptions := mkRunOptions {
  ro_InstanceID : string; ro_DryRun : bool; ro_OperationID : string;
  ro_Attrs : gmap string string; ro_Resume : bool }.

Definition cloneAttrs (m : gmap string string) : gmap string string := m.

(** What a call of an action or compensation returns. *)
Definition outcome : Type := Result_ * option goerror.

(** ** The environment and the run *)

Section Engine.
Context {S : Type} `{WStore S}.

Inductive event :=
| EvClock
| EvCtx (e : option goerror)
| EvGate (blocks : bool)
| EvGet (id : ResourceID) (ans : string + (ResourceCapabilities * Z))
| EvSlot (e : option goerror)
| EvAudit (action res result op : string)
| EvSave (io : ws_io) (now : Time) (cp : Checkpoint) (err : option werror)
| EvState (s : WState)
| EvStart (name : string)
| EvAct (name : string) (f : FuncValue) (x : ExecContext) (steps : gmap string StepState) (r : outcome)
| EvComp (name : string) (f : FuncValue) (x : ExecContext) (r : outcome).

(** The hooks are [None] when they are not set; [en_slot] is [ctx.Done] winning
    against the semaphore of a batch, [en_text] the text of a resource error. *)
Record Env := mkEnv {
  en_clock : list event -> Time;
  en_ctx : list event -> option goerror;
  en_lockdown : option (list event -> bool);
  en_resources : option (list event -> ResourceID -> string + (ResourceCapabilities * Z));
  en_text : rerror -> string;
  en_audit : bool;
  en_call : list event -> FuncValue -> ExecContext -> outcome;
  en_io : list event -> ws_io;
  en_now : list event -> Time;
  en_slot : list event -> option goerror;
  en_schedule : list event -> list string -> list string }.

Record World := mkW { w_inst : Instance_; w_store : S; w_log : list event }.

Definition M (A : Type) : Type := World -> World * A.
Definition ret {A} (x : A) : M A := fun w => (w, x).
Definition bind {A B} (m : M A) (k : A -> M B) : M B := fun w => let '(w', x) := m w in k x w'.

#[local] Notation "x <~ m ;; k" := (bind m (fun x => k)) (at level 100, m at next level, right associativity).
#[local] Notation "m ;;; k" := (bind m (fun _ => k)) (at level 100, right associativity).

Definition push (e : event) (w : World) : World := mkW (w_inst w) (w_store w) (e :: w_log w).

Definition set_inst (i : Instance_) (w : World) : World := mkW i (w_store w) (w_log w).

Definition set_cp (cp : Checkpoint) (i : Instance_) : Instance_ :=
  mkInst (in_ID i) (in_Workflow i) (in_State i) (in_DryRun i) cp.

Definition with_state (s : WState) (cp : Checkpoint) : Checkpoint :=
  mkCP (cp_InstanceID cp) (cp_Workflow cp) s (cp_Steps cp) (cp_UpdatedAt cp) (cp_DryRun cp)
    (cp_Attrs cp) (cp_CompletedSteps cp) (cp_EpochAtStep cp).

Definition with_step (name : string) (st : StepState) (cp : Checkpoint) : Checkpoint :=
  mkCP (cp_InstanceID cp) (cp_Workflow cp) (cp_State cp) (<[name := st]> (cp_Steps cp))
    (cp_UpdatedAt cp) (cp_DryRun cp) (cp_Attrs cp) (cp_CompletedSteps cp) (cp_EpochAtStep cp).

Definition with_completed (name : string) (epoch : Z) (cp : Checkpoint) : Checkpoint :=
  mkCP (cp_InstanceID cp) (cp_Workflow cp) (cp_State cp) (cp_Steps cp) (cp_UpdatedAt cp)
    (cp_DryRun cp) (cp_Attrs cp) (cp_CompletedSteps cp ++ [name])
    (<[name := epoch]> (cp_EpochAtStep cp)).

Context (E : Env) (def : Definition_) (opts : RunOptions).

(** [inst.Checkpoint.Steps[name]], the zero value when absent, and [def.Step(name)],
    which has a value for every name of the order ([dw_order]). *)
Definition step_of (w : World) (name : string) : StepState :=
  default step_zero (cp_Steps (in_Checkpoint (w_inst w)) !! name).

Definition stepdef_zero : StepDef := mkStepDef "" 0%N None [] "" Idempotent false no_caps id_zero.

Definition def_step (name : string) : StepDef := default stepdef_zero (df_steps def !! name).

Definition clock : M Time := fun w => (push EvClock w, en_clock E (w_log w)).

Definition ctx_Err : M (option goerror) :=
  fun w => let e := en_ctx E (w_log w) in (push (EvCtx e) w, e).

(** [e.hooks.Lockdown != nil && e.hooks.Lockdown.BlocksMutations()]. *)
Definition lockdown_blocks : M bool := fun w =>
  match en_lockdown E with
  | None => (w, false)
  | Some g => let b := g (w_log w) in (push (EvGate b) w, b)
  end.

(** [step.Mutates && ...]. *)
Definition gate (name : string) : M bool :=
  if sd_Mutates (def_step name) then lockdown_blocks else ret false.

(** [e.hooks.Resources.Get(id)]; [None] when there is no registry or no entry. *)
Definition lookup_epoch (name : string) : M (option Z) := fun w =>
  if ID_IsZero (sd_ResourceID (def_step name)) then (w, None)
  else match en_resources E with
  | None => (w, None)
  | Some get =>
    let ans := get (w_log w) (sd_ResourceID (def_step name)) in
    (push (EvGet (sd_ResourceID (def_step name)) ans) w,
     match ans with inl _ => None | inr (_, ep) => Some ep end)
  end.

Definition audit (action res result : string) : M unit := fun w =>
  ((if en_audit E then push (EvAudit action res result (ro_OperationID opts)) w else w), tt).

Definition set_State (s : WState) : M unit := fun w =>
  let i := w_inst w in
  (push (EvState s)
     (set_inst (mkInst (in_ID i) (in_Workflow i) s (in_DryRun i) (with_state s (in_Checkpoint i))) w), tt).

Definition put_step (name : string) (st : StepState) : M unit := fun w =>
  (set_inst (set_cp (with_step name st (in_Checkpoint (w_inst w))) (w_inst w)) w, tt).

Definition persist : M (option werror) :=
  now <~ clock;;
  fun w =>
    let cp := cp_at now (with_state (in_State (w_inst w)) (in_Checkpoint (w_inst w))) in
    let io := en_io E (w_log w) in
    let t := en_now E (w_log w) in
    let '(s', err) := ws_Save io t cp (w_store w) in
    (mkW (set_cp cp (w_inst w)) s' (EvSave io t cp err :: w_log w), err).

(** The state is set and saved, whatever the save answers. *)
Definition enter (s : WState) : M unit := set_State s;;; persist;;; ret tt.

Definition run_error (step : string) (s : werr.t) (msg : string) : werror :=
  WError "Run" (df_Name def) step (WSentinel s) msg.

Definition exec_of (name : string) (attempt epoch : Z) (i : Instance_) : ExecContext :=
  mkExec (df_Name def) (in_ID i) name attempt (in_DryRun i) (ro_OperationID opts)
    (cloneAttrs (ro_Attrs opts)) epoch (sd_ResourceID (def_step name)).

Definition call_action (name : string) (attempt epoch : Z) : M outcome := fun w =>
  let x := exec_of name attempt epoch (w_inst w) in
  let r := en_call E (w_log w) (sd_Action (def_step name)) x in
  (push (EvAct name (sd_Action (def_step name)) x (cp_Steps (in_Checkpoint (w_inst w))) r) w, r).

Definition call_compensate (name : string) (f : FuncValue) (attempt epoch : Z) : M outcome := fun w =>
  let x := exec_of name attempt epoch (w_inst w) in
  let r := en_call E (w_log w) f x in
  (push (EvComp name f x r) w, r).

Definition get_step (name : string) : M StepState := fun w => (w, step_of w name).

(** Field updates of a step state. *)
Definition st_status (s : StepStatus) (st : StepState) : StepState :=
  mkStepState (ss_Name st) s (ss_Attempt st) (ss_StartedAt st) (ss_FinishedAt st) (ss_Error st)
    (ss_Evidence st).
Definition st_error (e : string) (st : StepState) : StepState :=
  mkStepState (ss_Name st) (ss_Status st) (ss_Attempt st) (ss_StartedAt st) (ss_FinishedAt st) e
    (ss_Evidence st).
Definition st_finished (t : Time) (st : StepState) : StepState :=
  mkStepState (ss_Name st) (ss_Status st) (ss_Attempt st) (ss_StartedAt st) t (ss_Error st)
    (ss_Evidence st).
Definition st_evidence (e : Evidence) (st : StepState) : StepState :=
  mkStepState (ss_Name st) (ss_Status st) (ss_Attempt st) (ss_StartedAt st) (ss_FinishedAt st)
    (ss_Error st) (ss_Evidence st ++ [e]).
Definition st_begin (name : string) (now : Time) (st : StepState) : StepState :=
  mkStepState name StepRunning (i64 (ss_Attempt st + 1)) now (ss_FinishedAt st) (ss_Error st)
    (ss_Evidence st).

Definition failed (r : outcome) : bool :=
  match r.2 with Some _ => true | None => rs_Ambiguous r.1 end.

Definition dry_result (now : Time) (event summary : string) : outcome :=
  (mkResult (mkWEvidence now event summary ∅) false, None).

(** ** Compensation *)

Definition comp_error (step : string) (s : werr.t) (msg : string) : werror :=
  WError "Compensate" (df_Name def) step (WSentinel s) msg.

Definition recorded_epoch (name : string) (w : World) : Z :=
  default 0 (cp_EpochAtStep (in_Checkpoint (w_inst w)) !! name).

(** [fmt.Sprintf("current epoch %d > recorded %d", ...)]. *)
Definition stale_message (current recorded : Z) : string :=
  "current epoch " +:+ pretty current +:+ " > recorded " +:+ pretty recorded.

(** The body of the loop for a step with a compensation that is not compensated yet. *)
Definition compensate_step (name : string) (f : FuncValue) (st : StepState) : M (option werror) :=
  blocked <~ gate name;;
  if blocked then ret (Some (comp_error name werr.ErrLockdown "lockdown during compensate"))
  else
    ep <~ lookup_epoch name;;
    recorded <~ (fun w => (w, recorded_epoch name w));;
    let current := default recorded ep in
    if bool_decide (recorded < current) then
      ret (Some (comp_error name werr.ErrStaleEpoch (stale_message current recorded)))
    else
      let st := st_status StepCompensating st in
      put_step name st;;;
      persist;;;
      dry <~ (fun w => (w, in_DryRun (w_inst w)));;
      r <~ (if dry : bool then (now <~ clock;; ret (dry_result now "dry-run-compensate" ""))
            else call_compensate name f (ss_Attempt st) recorded);;
      if failed r then
        let st := st_error (match r.2 with Some e => ge_Text e | None => "compensation failed" end)
          (st_status StepFailed st) in
        put_step name st;;;
        audit "workflow.compensate" name "failed";;;
        ret (Some (comp_error name werr.ErrCompensationFailed (ss_Error st)))
      else
        now <~ clock;;
        put_step name (st_evidence (rs_Evidence r.1) (st_finished now (st_status StepCompensated st)));;;
        audit "workflow.compensate" name "ok";;;
        persist;;;
        ret None.

Fixpoint compensate_loop (completed : list string) : M (option werror) :=
  match completed with
  | [] => ret None
  | name :: rest =>
    match df_steps def !! name with
    | Some step =>
      match sd_Compensate step with
      | Some f =>
        st <~ get_step name;;
        if bool_decide (ss_Status st = StepCompensated) then compensate_loop rest
        else
          err <~ compensate_step name f st;;
          match err with Some e => ret (Some e) | None => compensate_loop rest end
      | None => compensate_loop rest
      end
    | None => compensate_loop rest
    end
  end.

Definition compensate : M (option werror) :=
  enter StateCompensating;;;
  completed <~ (fun w => (w, cp_CompletedSteps (in_Checkpoint (w_inst w))));;
  compensate_loop (rev completed).

(** The end shared by every failure that compensates. *)
Definition compensate_then (after : M unit) (err : werror) : M (option werror) :=
  cerr <~ compensate;;
  match cerr with
  | Some e => enter StateRequiresIntervention;;; ret (Some e)
  | None => enter StateFailed;;; after;;; ret (Some err)
  end.

Definition failResumeNotRetryable (name : string) (st : StepState) : M (option werror) :=
  compensate_then (ret tt) (run_error (sd_Name (def_step name)) werr.ErrNotRetryable (ss_Error st)).

(** ** Failing, resuming and running a step *)

Definition needs_operation_id (name : string) : bool :=
  bool_decide (sd_Idempotency (def_step name) = RequiresOperationID) &&
  bool_decide (ro_OperationID opts = "").

(** A failure that is not ambiguous has an error ([failed]). *)
Definition no_error : werror := WSentinel werr.ErrAmbiguous.

Definition handleStepFailure (name : string) (st : StepState) (r : outcome) : M (option werror) :=
  let mode := sd_Idempotency (def_step name) in
  let msg := match r.2 with Some e => ge_Text e | None => "" end in
  if rs_Ambiguous r.1 || bool_decide (mode = RequiresReconciliation) ||
     match r.2 with Some e => ge_Ambiguous e | None => false end then
    now <~ clock;;
    let st := st_evidence (rs_Evidence r.1) (st_finished now
      (st_error (if rs_Ambiguous r.1 then "ambiguous outcome" else msg) (st_status StepReconcile st))) in
    put_step name st;;;
    enter StateRequiresReconciliation;;;
    audit "workflow.step.reconcile" name "requires-reconciliation";;;
    ret (Some (run_error name werr.ErrRequiresReconciliation (ss_Error st)))
  else if bool_decide (mode = NotRetryable) || needs_operation_id name then
    now <~ clock;;
    let st := st_finished now
      (st_error (if needs_operation_id name then "operation id required for retry" else msg)
         (st_status StepFailed st)) in
    put_step name st;;;
    compensate_then (ret tt) (run_error name werr.ErrNotRetryable (ss_Error st))
  else
    now <~ clock;;
    put_step name (st_evidence (rs_Evidence r.1) (st_finished now
      (st_error msg (st_status StepFailed st))));;;
    compensate_then (audit "workflow.step.fail" name "failed")
      (WError "Run" (df_Name def) name
         (match r.2 with Some e => WOther e | None => no_error end) msg).

Definition prepareStepResume (name : string) : M (bool * option werror) :=
  st <~ get_step name;;
  let mode := sd_Idempotency (def_step name) in
  match ss_Status st with
  | StepCompleted | StepCompensated | StepSkipped => ret (true, None)
  | StepFailed =>
    if bool_decide (mode = NotRetryable) || needs_operation_id name then
      e <~ failResumeNotRetryable name st;; ret (false, e)
    else
      put_step name (st_error "" (st_status StepPending st));;;
      ret (false, None)
  | StepRunning =>
    if bool_decide (mode = NotRetryable) || bool_decide (mode = RequiresReconciliation) then
      let st := st_error "interrupted while running; requires reconciliation"
        (st_status StepReconcile st) in
      put_step name st;;;
      enter StateRequiresReconciliation;;;
      ret (false, Some (run_error name werr.ErrRequiresReconciliation (ss_Error st)))
    else if needs_operation_id name then
      let st := st_error "operation id required to retry interrupted step" (st_status StepFailed st) in
      put_step name st;;;
      e <~ failResumeNotRetryable name st;; ret (false, e)
    else
      put_step name (st_status StepPending st);;;
      ret (false, None)
  | StepReconcile =>
    enter StateRequiresReconciliation;;;
    ret (false, Some (run_error name werr.ErrRequiresReconciliation (ss_Error st)))
  | _ => ret (false, None)
  end.

(** [inst.Checkpoint.Steps[name] = st] with the step begun. *)
Definition begin_step (name : string) (now : Time) : M StepState :=
  st <~ get_step name;;
  let st := st_begin name now st in
  put_step name st;;;
  (fun w => (push (EvStart name) w, st)).

Definition complete_step (name : string) (st : StepState) (epoch : Z) (ev : Evidence) : M unit :=
  now <~ clock;;
  put_step name (st_evidence ev (st_finished now (st_status StepCompleted st)));;;
  (fun w => (set_inst (set_cp (with_completed name epoch (in_Checkpoint (w_inst w))) (w_inst w)) w, tt));;;
  audit "workflow.step.ok" name "completed".

Definition runStep (name : string) : M (option werror) :=
  now <~ clock;;
  st <~ begin_step name now;;
  persist;;;
  ep <~ lookup_epoch name;;
  let epoch := default 0 ep in
  dry <~ (fun w => (w, in_DryRun (w_inst w)));;
  r <~ (if dry : bool then ret (dry_result now "dry-run" "skipped side effects")
        else call_action name (ss_Attempt st) epoch);;
  if failed r then handleStepFailure name st r
  else
    complete_step name st epoch (rs_Evidence r.1);;;
    persist.

(** ** A parallel batch *)

Record prepared := mkPrepared { pr_name : string; pr_st : StepState; pr_epoch : Z }.

Fixpoint batch_gate (names : list string) : M (option werror) :=
  match names with
  | [] => ret None
  | name :: rest =>
    blocked <~ gate name;;
    if blocked then
      enter StateLockedDown;;;
      ret (Some (run_error name werr.ErrLockdown "lockdown blocks mutation step"))
    else batch_gate rest
  end.

Fixpoint batch_prepare (names : list string) (now : Time) : M (list prepared) :=
  match names with
  | [] => ret []
  | name :: rest =>
    st <~ begin_step name now;;
    ep <~ lookup_epoch name;;
    ps <~ batch_prepare rest now;;
    ret (mkPrepared name st (default 0 ep) :: ps)
  end.

(** The goroutines, in the order the environment runs them. *)
Fixpoint batch_run (preps : list prepared) (now : Time) : M (list (prepared * outcome)) :=
  match preps with
  | [] => ret []
  | p :: rest =>
    slot <~ (fun w => let e := en_slot E (w_log w) in (push (EvSlot e) w, e));;
    dry <~ (fun w => (w, in_DryRun (w_inst w)));;
    r <~ match slot with
         | Some e => ret (mkResult (mkWEvidence time_zero "" "" ∅) false, Some e)
         | None => if dry : bool then ret (dry_result now "dry-run" "skipped side effects")
                   else call_action (pr_name p) (ss_Attempt (pr_st p)) (pr_epoch p)
         end;;
    os <~ batch_run rest now;;
    ret ((p, r) :: os)
  end.

Definition by_name (a b : prepared * outcome) : Prop := String.le (pr_name a.1) (pr_name b.1).

#[global] Instance by_name_dec a b : Decision (by_name a b).
Proof. unfold by_name. apply _. Defined.

Definition prepared_of (preps : list prepared) (names : list string) : list prepared :=
  names ≫= fun n => filter (fun p => pr_name p = n) preps.

(** Successes are applied; the first failure is returned. *)
Fixpoint batch_apply (os : list (prepared * outcome)) (fail : option (prepared * outcome))
  : M (option (prepared * outcome)) :=
  match os with
  | [] => ret fail
  | (p, r) :: rest =>
    if failed r then batch_apply rest (match fail with Some f => Some f | None => Some (p, r) end)
    else
      complete_step (pr_name p) (pr_st p) (pr_epoch p) (rs_Evidence r.1);;;
      batch_apply rest fail
  end.

Fixpoint batch_siblings (os : list (prepared * outcome)) (failing : string) : M unit :=
  match os with
  | [] => ret tt
  | (p, _) :: rest =>
    st <~ get_step (pr_name p);;
    (if bool_decide (pr_name p ≠ failing) && bool_decide (ss_Status st = StepRunning) then
       now <~ clock;;
       put_step (pr_name p) (st_finished now
         (st_error "sibling step failed in parallel group" (st_status StepFailed st)))
     else ret tt);;;
    batch_siblings rest failing
  end.

Definition runParallelBatch (names : list string) : M (option werror) :=
  blocked <~ batch_gate names;;
  match blocked with
  | Some e => ret (Some e)
  | None =>
    now <~ clock;;
    preps <~ batch_prepare names now;;
    err <~ persist;;
    match err with
    | Some e => ret (Some e)
    | None =>
      order <~ (fun w => (w, en_schedule E (w_log w) names));;
      os <~ batch_run (prepared_of preps order) now;;
      let os := merge_sort by_name os in
      fail <~ batch_apply os None;;
      persist;;;
      match fail with
      | None => ret None
      | Some (p, r) =>
        batch_siblings os (pr_name p);;;
        persist;;;
        match r.2 with
        | Some e =>
          if ge_Context e then
            enter StateCancelled;;;
            ret (Some (run_error "" werr.ErrCancelled (ge_Text e)))
          else handleStepFailure (pr_name p) (pr_st p) r
        | None => handleStepFailure (pr_name p) (pr_st p) r
        end
      end
    end
  end.

(** ** The two ways to execute *)

Definition cancelled (err : goerror) : M (option werror) :=
  enter StateCancelled;;;
  ret (Some (run_error "" werr.ErrCancelled (ge_Text err))).

Definition locked_down (name : string) : M (option werror) :=
  enter StateLockedDown;;;
  ret (Some (run_error name werr.ErrLockdown "lockdown blocks mutation step")).

(** The gate of a mutating step, then the step. *)
Definition gated_step (name : string) : M (option werror) :=
  blocked <~ gate name;;
  if blocked then locked_down name else runStep name.

Definition finish : M (option werror) := set_State StateCompleted;;; persist.

Fixpoint executeSequential_loop (names : list string) : M (option werror) :=
  match names with
  | [] => finish
  | name :: rest =>
    e <~ ctx_Err;;
    match e with
    | Some err => cancelled err
    | None =>
      sk <~ prepareStepResume name;;
      match sk.2 with
      | Some e => ret (Some e)
      | None =>
        if sk.1 : bool then executeSequential_loop rest
        else
          err <~ gated_step name;;
          match err with Some e => ret (Some e) | None => executeSequential_loop rest end
      end
    end
  end.

Definition executeSequential : M (option werror) := executeSequential_loop (df_order def).

Definition done_status (s : StepStatus) : bool :=
  match s with StepCompleted | StepCompensated | StepSkipped => true | _ => false end.

Definition stopped_status (s : StepStatus) : bool :=
  match s with StepFailed | StepReconcile => true | _ => false end.

Definition mark_done (names : list string) (w : World) (done : gset string) : gset string :=
  list_to_set (filter (fun n => done_status (ss_Status (step_of w n)) = true) names) ∪ done.

(** One pass over the order: the steps that can run now, or an error of a resumed
    step. *)
Fixpoint collect_ready (names : list string) (done : gset string) (ready : list string)
  : M (gset string * list string * option werror) :=
  match names with
  | [] => ret (done, ready, None)
  | name :: rest =>
    if bool_decide (name ∈ done) then collect_ready rest done ready
    else
      st <~ get_step name;;
      if stopped_status (ss_Status st) then collect_ready rest done ready
      else if negb (forallb (fun d => bool_decide (d ∈ done)) (sd_DependsOn (def_step name))) then
        collect_ready rest done ready
      else
        sk <~ prepareStepResume name;;
        match sk.2 with
        | Some e => ret (done, ready, Some e)
        | None =>
          if sk.1 : bool then collect_ready rest ({[name]} ∪ done) ready
          else collect_ready rest done (ready ++ [name])
        end
  end.

(** No step is ready: the first failed or unreconciled one says why. *)
Fixpoint stuck (names : list string) (done : gset string) : M (option werror) :=
  match names with
  | [] => ret (Some (run_error "" werr.ErrInvalidState "no ready steps"))
  | name :: rest =>
    if bool_decide (name ∈ done) then stuck rest done
    else
      st <~ get_step name;;
      match ss_Status st with
      | StepFailed =>
        enter StateFailed;;;
        ret (Some (run_error name werr.ErrNotRetryable (ss_Error st)))
      | StepReconcile =>
        enter StateRequiresReconciliation;;;
        ret (Some (run_error name werr.ErrRequiresReconciliation (ss_Error st)))
      | _ => stuck rest done
      end
  end.

(** The smallest group name; the empty name stands for none. *)
Definition smaller_group (g x : string) : string :=
  if bool_decide (g = "") || (bool_decide (String.le x g) && bool_decide (x ≠ g)) then x else g.

Definition group_of (name : string) : string := sd_ParallelGroup (def_step name).

Definition pick_group (ready : list string) : string :=
  foldl smaller_group "" (filter (fun g => g ≠ "") (group_of <$> ready)).

(** What one round runs: a batch of the smallest group, or the first ready step. *)
Definition run_round (ready : list string) (done : gset string) : M (gset string * option werror) :=
  if bool_decide (pick_group ready ≠ "") then
    let batch := filter (fun n => group_of n = pick_group ready) ready in
    err <~ runParallelBatch batch;;
    match err with
    | Some e => ret (done, Some e)
    | None => fun w => (w, (mark_done batch w done, None))
    end
  else
    match ready with
    | [] => ret (done, None)
    | name :: _ =>
      err <~ gated_step name;;
      match err with
      | Some e => ret (done, Some e)
      | None => ret ({[name]} ∪ done, None)
      end
    end.

(** The loop of [executeParallel]; [None] when the bound on its rounds is hit. *)
Fixpoint parallel_loop (fuel : nat) (done : gset string) : M (option (option werror)) :=
  if bool_decide (size done < length (df_order def))%nat then
    match fuel with
    | O => ret None
    | Datatypes.S k =>
      e <~ ctx_Err;;
      match e with
      | Some err => x <~ cancelled err;; ret (Some x)
      | None =>
        c <~ collect_ready (df_order def) done [];;
        let '(done, ready, err) := c in
        match err with
        | Some e => ret (Some (Some e))
        | None =>
          match ready with
          | [] => x <~ stuck (df_order def) done;; ret (Some x)
          | _ =>
            d <~ run_round ready done;;
            match d.2 with
            | Some e => ret (Some (Some e))
            | None => parallel_loop k d.1
            end
          end
        end
      end
    end
  else x <~ finish;; ret (Some x).

Definition executeParallel : M (option (option werror)) :=
  done <~ (fun w => (w, mark_done (df_order def) w ∅));;
  parallel_loop (length (df_order def)) done.

(** ** Validation and the whole run *)

Definition validateCaps (name : string) : M (option werror) := fun w =>
  let step := def_step name in
  let err msg := Some (WError "validateCaps" "" (sd_Name step) (WSentinel werr.ErrCapability) msg) in
  match en_resources E with
  | None =>
    (w, if bool_decide (cap_flags (sd_RequiredCaps step) = cap_flags no_caps) then None
        else err "resource lookup not configured")
  | Some get =>
    let ans := get (w_log w) (sd_ResourceID step) in
    (push (EvGet (sd_ResourceID step) ans) w,
     match ans with
     | inl text => err text
     | inr (caps, _) =>
       match Require caps (sd_RequiredCaps step) with
       | Some e => err (en_text E e)
       | None => None
       end
     end)
  end.

Fixpoint validate_loop (names : list string) : M (option werror) :=
  match names with
  | [] => ret None
  | name :: rest =>
    if ID_IsZero (sd_ResourceID (def_step name)) then validate_loop rest
    else
      err <~ validateCaps name;;
      match err with
      | Some e => enter StateFailed;;; ret (Some e)
      | None => validate_loop rest
      end
  end.

Definition hasParallel : bool := existsb (fun n => bool_decide (group_of n ≠ "")) (df_order def).

Definition execute : M (option (option werror)) :=
  set_State StateValidating;;;
  err <~ persist;;
  match err with
  | Some e => ret (Some (Some e))
  | None =>
    bad <~ validate_loop (df_order def);;
    match bad with
    | Some e => ret (Some (Some e))
    | None =>
      enter StateRunning;;;
      if hasParallel then executeParallel
      else x <~ executeSequential;; ret (Some x)
    end
  end.
End Engine.

(** ** The engine *)

Definition DefaultMaxParallel : Z := 8.

Section Engines.
Context {S : Type} `{WStore S}.

(** The clock and the hooks are the environment of a run. *)
Record Engine := mkEngine {
  eg_defs : gmap string Definition_; eg_store : S; eg_max : Z; eg_maxParallel : Z;
  eg_closed : bool; eg_instances : gmap string Instance_ }.

Definition NewEngine (store : S) (maxRuns maxParallel : Z) : Engine :=
  mkEngine ∅ store (if bool_decide (maxRuns <= 0) then DefaultMaxInstances else maxRuns)
    (if bool_decide (maxParallel <= 0) then DefaultMaxParallel else maxParallel) false ∅.

Definition Register (def : option Definition_) (e : Engine) : Engine * option werror :=
  let invalid := Some (WError "Register" "" "" (WSentinel werr.ErrInvalidDefinition) "nil definition") in
  match def with
  | None => (e, invalid)
  | Some d =>
    if bool_decide (df_Name d = "") then (e, invalid)
    else if eg_closed e then
      (e, Some (WError "Register" "" "" (WSentinel werr.ErrClosed) "engine closed"))
    else (mkEngine (<[df_Name d := d]> (eg_defs e)) (eg_store e) (eg_max e) (eg_maxParallel e)
            (eg_closed e) (eg_instances e), None)
  end.

Definition Close (e : Engine) : Engine :=
  mkEngine (eg_defs e) (eg_store e) (eg_max e) (eg_maxParallel e) true (eg_instances e).

(** The instance a run starts from. *)
Definition fresh_inst (id workflow : string) (opts : RunOptions) : Instance_ :=
  mkInst id workflow StateCreated (ro_DryRun opts)
    (mkCP id workflow StateCreated ∅ time_zero (ro_DryRun opts) (cloneAttrs (ro_Attrs opts)) [] ∅).

Definition resumed_inst (id : string) (cp : Checkpoint) : Instance_ :=
  mkInst id (cp_Workflow cp) (cp_State cp) (cp_DryRun cp) cp.

(** The part of [Run] under the mutex: the definition and the instance, or an
    error. *)
Definition start_run (newID : string) (workflow : string) (opts : RunOptions) (e : Engine)
  : werror + (Definition_ * Instance_) :=
  let fail s msg := inl (WError "Run" workflow "" (WSentinel s) msg) in
  if eg_closed e then fail werr.ErrClosed "engine closed"
  else match eg_defs e !! workflow with
  | None => fail werr.ErrNotFound "definition not registered"
  | Some def =>
    if negb (ro_Resume opts) && bool_decide (eg_max e <= Z.of_nat (size (eg_instances e))) then
      fail werr.ErrBoundExceeded "max instances"
    else
      let id := if bool_decide (ro_InstanceID opts = "") then newID else ro_InstanceID opts in
      if ro_Resume opts then
        match ws_Load (eg_store e) id with
        | inl err => inl err
        | inr cp => inr (def, resumed_inst id cp)
        end
      else inr (def, fresh_inst id workflow opts)
  end.

Definition state_text (s : WState) : string :=
  match s with
  | StateCreated => "created" | StateValidating => "validating" | StateWaiting => "waiting"
  | StateRunning => "running" | StatePaused => "paused" | StateCompensating => "compensating"
  | StateCompleted => "completed" | StateFailed => "failed" | StateCancelled => "cancelled"
  | StateBlocked => "blocked" | StateLockedDown => "locked-down"
  | StateRequiresIntervention => "requires-intervention"
  | StateRequiresReconciliation => "requires-reconciliation"
  end.

(** The result is the instance, if one was started, and the error; [None] would be
    a run that does not return. *)
Definition Run (E : Env) (newID : string) (workflow : string) (opts : RunOptions) (e : Engine)
  : Engine * list event * option (option Instance_ * option werror) :=
  match start_run newID workflow opts e with
  | inl err => (e, [], Some (None, Some err))
  | inr (def, inst) =>
    let w0 := (audit E opts "workflow.run" workflow "start" (mkW inst (eg_store e) [])).1 in
    let '(w1, r) := execute E def opts w0 in
    let result := match r with Some None => state_text (in_State (w_inst w1)) | _ => "error" end in
    let w2 := (audit E opts "workflow.run" workflow result w1).1 in
    (mkEngine (eg_defs e) (w_store w2) (eg_max e) (eg_maxParallel e) (eg_closed e)
       (<[in_ID inst := w_inst w2]> (eg_instances e)),
     w_log w2, option_map (fun err => (Some (w_inst w2), err)) r)
  end.

(** A snapshot: of the live instance, or of the stored checkpoint. *)
Definition Get (e : Engine) (id : string) : werror + Instance_ :=
  match eg_instances e !! id with
  | Some i => inr (mkInst (in_ID i) (in_Workflow i) (in_State i) (in_DryRun i)
      (cloneCheckpoint (in_Checkpoint i)))
  | None =>
    match ws_Load (eg_store e) id with
    | inl err => inl err
    | inr cp => inr (mkInst (cp_InstanceID cp) (cp_Workflow cp) (cp_State cp) (cp_DryRun cp) cp)
    end
  end.

Definition ListDefinitions (e : Engine) : list string := (map_to_list (eg_defs e)).*1.

Definition ListInstances (e : Engine) : list Instance_ :=
  (fun i => mkInst (in_ID i) (in_Workflow i) (in_State i) (in_DryRun i)
     (cloneCheckpoint (in_Checkpoint i))) <$> (map_to_list (eg_instances e)).*2.
End Engines.

(** [NewEngine] without a store. *)
Definition NewEngine_default (maxRuns maxParallel : Z) : Engine :=
  NewEngine (NewMemoryStore maxRuns) maxRuns maxParallel.
