(* ===== verification/WorkflowSafety.v ===== *)
(** * What a workflow run may do

    An abstract engine: a step relation on runs that names every change a run may
    make to its instance and every call it may make, each with its guard.  The
    engine of [WorkflowEngine] refines it ([execute_refines]): each run is a
    sequence of such steps.  What holds of every sequence of steps then holds of
    every run, whatever the environment answers and wherever the run is cut. *)

From S2P Require Import Prelude GoStrings ResourceID Dependency WorkflowDef WorkflowStore WorkflowEngine.
From stdpp Require Import sorting.

#[local] Open Scope Z_scope.

Section Safety.
Context {S : Type} `{WStore S} (E : Env) (def : Definition_) (opts : RunOptions).

Implicit Types (w : World) (n : string).

(** ** Views of a run *)

Definition status w n : StepStatus := ss_Status (step_of w n).

Definition deps_done w n : Prop :=
  forall d, d ∈ sd_DependsOn (def_step def n) -> done_status (status w d) = true.

(** The step has begun and its action has not been called since. *)
Fixpoint armed n (log : list event) : bool :=
  match log with
  | [] => false
  | EvStart m :: t => if bool_decide (m = n) then true else armed n t
  | EvAct m _ _ _ _ :: t => if bool_decide (m = n) then false else armed n t
  | _ :: t => armed n t
  end.

(** The last call of the action since the step began succeeded. *)
Fixpoint acted_ok n (log : list event) : bool :=
  match log with
  | [] => false
  | EvStart m :: t => if bool_decide (m = n) then false else acted_ok n t
  | EvAct m _ _ _ r :: t => if bool_decide (m = n) then negb (failed r) else acted_ok n t
  | _ :: t => acted_ok n t
  end.

(** The checkpoint of the most recent save. *)
Fixpoint last_save (log : list event) : option Checkpoint :=
  match log with
  | [] => None
  | EvSave _ _ cp _ :: _ => Some cp
  | _ :: t => last_save t
  end.

Definition cp_status (cp : Checkpoint) n : StepStatus := ss_Status (default step_zero (cp_Steps cp !! n)).

(** A mutation is allowed: the gate, if there is one, has answered so. *)
Definition gate_passed n (log : list event) : Prop :=
  sd_Mutates (def_step def n) = false \/ en_lockdown E = None \/ EvGate false ∈ log.

Definition startable (s : StepStatus) : bool :=
  match s with StepUnset | StepPending | StepCompensating => true | _ => false end.

Definition retry_failed n : bool :=
  negb (bool_decide (sd_Idempotency (def_step def n) = NotRetryable) || needs_operation_id def opts n).

Definition retry_running n : bool :=
  retry_failed n && negb (bool_decide (sd_Idempotency (def_step def n) = RequiresReconciliation)).

Definition has_compensation n : bool :=
  match df_steps def !! n with
  | Some s => match sd_Compensate s with Some _ => true | None => false end
  | None => false
  end.

(** The status changes other than beginning and completing. *)
Definition may_move n (old new : StepStatus) : bool :=
  match old, new with
  | StepRunning, (StepFailed | StepReconcile) => true
  | StepRunning, StepPending => retry_running n
  | StepFailed, StepPending => retry_failed n
  | StepCompensated, StepCompensating => false
  | _, StepCompensating => has_compensation n
  | StepCompensating, (StepCompensated | StepFailed) => true
  | _, _ => false
  end.

(** An event that is neither a save, a gate answer, a beginning nor a call. *)
Definition quiet (e : event) : bool :=
  match e with
  | EvClock | EvCtx _ | EvGet _ _ | EvSlot _ | EvAudit _ _ _ _ => true
  | _ => false
  end.

Definition save (io : ws_io) (t now : Time) w : World :=
  let cp := cp_at now (with_state (in_State (w_inst w)) (in_Checkpoint (w_inst w))) in
  let r := ws_Save io t cp (w_store w) in
  mkW (set_cp cp (w_inst w)) r.1 (EvSave io t cp r.2 :: w_log w).

Definition completed n (ep : Z) w : World :=
  set_inst (set_cp (with_completed n ep (in_Checkpoint (w_inst w))) (w_inst w)) w.

(** ** The abstract engine *)

Inductive estep : World -> World -> Prop :=
| es_quiet e w : quiet e = true -> estep w (push e w)
| es_gate g w : en_lockdown E = Some g -> estep w (push (EvGate (g (w_log w))) w)
| es_save io t now w : estep w (save io t now w)
| es_state s w : CanTransition (in_State (w_inst w)) s = true -> estep w (set_State s w).1
| es_move n st w :
    may_move n (status w n) (ss_Status st) = true -> estep w (put_step n st w).1
| es_start n now w :
    n ∈ df_order def -> startable (status w n) = true -> deps_done w n -> gate_passed n (w_log w) ->
    estep w (begin_step n now w).1
| es_act n attempt epoch w :
    n ∈ df_order def -> status w n = StepRunning -> deps_done w n -> gate_passed n (w_log w) ->
    armed n (w_log w) = true -> (exists cp, last_save (w_log w) = Some cp /\ cp_status cp n = StepRunning) ->
    in_DryRun (w_inst w) = false ->
    estep w (call_action E def opts n attempt epoch w).1
| es_complete n st ep w :
    status w n = StepRunning -> ss_Status st = StepCompleted ->
    (in_DryRun (w_inst w) = true \/ acted_ok n (w_log w) = true) ->
    estep w (completed n ep (put_step n st w).1)
| es_comp n f attempt epoch w :
    status w n = StepCompensating -> sd_Compensate (def_step def n) = Some f ->
    gate_passed n (w_log w) -> in_DryRun (w_inst w) = false ->
    estep w (call_compensate E def opts n f attempt epoch w).1.

Abbreviation esteps := (rtc estep).

(** ** A logic of runs

    [wp m Q w]: run from [w], [m] makes only allowed steps and ends with [Q]. *)
Definition wp {A} (m : M A) (Q : A -> World -> Prop) w : Prop :=
  esteps w (m w).1 /\ Q (m w).2 (m w).1.

Lemma wp_ret {A} (x : A) Q w : Q x w -> wp (ret x) Q w.
Proof. intros HQ. split; [reflexivity | done]. Qed.

Lemma wp_bind {A B} (m : M A) (k : A -> M B) Q w :
  wp m (fun x w' => wp (k x) Q w') w -> wp (bind m k) Q w.
Proof.
  unfold wp, bind. destruct (m w) as [w' x]. simpl. intros (H1 & H2 & H3). split; [by etrans | done].
Qed.

Lemma wp_mono {A} (m : M A) (P Q : A -> World -> Prop) w :
  wp m P w -> (forall x w', P x w' -> Q x w') -> wp m Q w.
Proof. intros [H1 H2] HPQ. split; [done | by apply HPQ]. Qed.

(** A read of the run. *)
Lemma wp_read {A} (f : World -> A) Q w : Q (f w) w -> wp (fun w => (w, f w)) Q w.
Proof. intros HQ. split; [reflexivity | done]. Qed.

Lemma wp_step {A} (m : M A) Q w : estep w (m w).1 -> Q (m w).2 (m w).1 -> wp m Q w.
Proof. intros H1 H2. split; [by apply rtc_once | done]. Qed.

(** Two writes that are one step. *)
Lemma wp_two {A B C} (m1 : M A) (m2 : M B) (k : B -> M C) Q w :
  estep w (m2 (m1 w).1).1 -> wp (k (m2 (m1 w).1).2) Q (m2 (m1 w).1).1 ->
  wp (bind m1 (fun _ => bind m2 k)) Q w.
Proof.
  unfold wp, bind. destruct (m1 w) as [w1 x]. simpl. destruct (m2 w1) as [w2 y]. simpl.
  intros H1 [H2 H3]. split; [by eapply rtc_l | done].
Qed.

(** The instance is untouched and only quiet events, gate answers or saves of it
    are logged: what the questions to the environment and the saves do. *)
Record calm w w' : Prop := {
  cm_id : in_ID (w_inst w') = in_ID (w_inst w);
  cm_dry : in_DryRun (w_inst w') = in_DryRun (w_inst w);
  cm_state : in_State (w_inst w') = in_State (w_inst w);
  cm_steps : cp_Steps (in_Checkpoint (w_inst w')) = cp_Steps (in_Checkpoint (w_inst w));
  cm_completed : cp_CompletedSteps (in_Checkpoint (w_inst w')) = cp_CompletedSteps (in_Checkpoint (w_inst w));
  cm_armed n : armed n (w_log w') = armed n (w_log w);
  cm_acted n : acted_ok n (w_log w') = acted_ok n (w_log w);
  cm_gate n : gate_passed n (w_log w) -> gate_passed n (w_log w');
  cm_saved : last_save (w_log w') = last_save (w_log w) \/
    exists cp, last_save (w_log w') = Some cp /\ cp_Steps cp = cp_Steps (in_Checkpoint (w_inst w)) }.

#[global] Instance calm_preorder : PreOrder calm.
Proof.
  split.
  - intros w. split; auto.
  - intros w1 w2 w3 [A1 A2 A3 A4 A5 A6 A7 A8 A9] [B1 B2 B3 B4 B5 B6 B7 B8 B9].
    split; [congruence .. | intros n; by rewrite B6 | intros n; by rewrite B7 | by eauto |].
    destruct B9 as [->|(cp & Hl & Hs)]; [done |]. right. exists cp. by rewrite Hs, A4.
Qed.

Lemma calm_status w w' n : calm w w' -> status w' n = status w n.
Proof. intros Hc. unfold status, step_of. by rewrite (cm_steps _ _ Hc). Qed.

Lemma calm_deps w w' n : calm w w' -> deps_done w n -> deps_done w' n.
Proof. intros Hc Hd d Hin. rewrite (calm_status _ _ _ Hc). by apply Hd. Qed.

Lemma calm_push e w : quiet e = true \/ (exists b, e = EvGate b) -> calm w (push e w).
Proof.
  intros He. split; try done.
  - intros n. by destruct He as [He|[b ->]]; [destruct e|].
  - intros n. by destruct He as [He|[b ->]]; [destruct e|].
  - intros n [?|[?|?]]; [by left | by right; left | right; right; by right].
  - left. by destruct He as [He|[b ->]]; [destruct e|].
Qed.

Lemma calm_save io t now w : calm w (save io t now w).
Proof.
  split; try done.
  - intros n [?|[?|?]]; [by left | by right; left | right; right; by right].
  - right. by eexists.
Qed.

(** ** Questions and saves *)

(** A step of the run that changes nothing but the log and the store. *)
Definition calm_spec {A} (m : M A) : Prop :=
  forall w (Q : A -> World -> Prop), (forall x w', calm w w' -> Q x w') -> wp m Q w.

Lemma calm_clock : calm_spec (clock E).
Proof.
  intros w Q HQ. apply wp_step; [by apply es_quiet |]. apply HQ, calm_push. by left.
Qed.

Lemma calm_ctx : calm_spec (ctx_Err E).
Proof.
  intros w Q HQ. apply wp_step; [by apply es_quiet |]. apply HQ, calm_push. by left.
Qed.

Lemma calm_audit action res result : calm_spec (audit E opts action res result).
Proof.
  intros w Q HQ. unfold audit. destruct (en_audit E).
  - apply wp_step; [by apply es_quiet |]. apply HQ, calm_push. by left.
  - apply wp_read, HQ. reflexivity.
Qed.

Lemma calm_epoch n : calm_spec (lookup_epoch E def n).
Proof.
  intros w Q HQ. unfold lookup_epoch, wp.
  destruct (ID_IsZero _); [split; [reflexivity | apply HQ; reflexivity] |].
  destruct (en_resources E); [|split; [reflexivity | apply HQ; reflexivity]].
  split; [by apply rtc_once, es_quiet |]. apply HQ, calm_push. by left.
Qed.

(** After a gate that does not block, the step may mutate. *)
Lemma wp_gate n w (Q : bool -> World -> Prop) :
  (forall b w', calm w w' -> (b = false -> gate_passed n (w_log w')) -> Q b w') ->
  wp (gate E def n) Q w.
Proof.
  intros HQ. unfold gate. destruct (sd_Mutates _) eqn:Em.
  - unfold lockdown_blocks, wp. destruct (en_lockdown E) as [g|] eqn:Eg.
    + split; [by apply rtc_once, es_gate |]. apply HQ; [apply calm_push; eauto |].
      intros Hb. cbn [fst snd push w_log] in *. rewrite Hb. right; right. left.
    + split; [reflexivity |]. apply HQ; [reflexivity |]. intros _. right; by left.
  - apply wp_ret, HQ; [reflexivity |]. intros _. by left.
Qed.

(** An [ErrInvalidState] of a run comes from its store. *)
Definition err_ok (r : option werror) : Prop :=
  forall e, r = Some e -> werror_is e werr.ErrInvalidState = true ->
  exists io t cp s, (ws_Save io t cp s).2 = Some e.

(** After a save, what was saved is the instance. *)
Lemma wp_persist w (Q : option werror -> World -> Prop) :
  (forall r w', calm w w' -> err_ok r ->
     (exists cp, last_save (w_log w') = Some cp /\
        cp_Steps cp = cp_Steps (in_Checkpoint (w_inst w'))) -> Q r w') ->
  wp (persist E) Q w.
Proof.
  intros HQ. apply wp_bind, calm_clock. intros now w' Hc.
  assert (forall w0, (let cp := cp_at now (with_state (in_State (w_inst w0)) (in_Checkpoint (w_inst w0))) in
    let io := en_io E (w_log w0) in let t := en_now E (w_log w0) in
    let '(s', err) := ws_Save io t cp (w_store w0) in
    (mkW (set_cp cp (w_inst w0)) s' (EvSave io t cp err :: w_log w0), err)) =
    (save (en_io E (w_log w0)) (en_now E (w_log w0)) now w0,
     (ws_Save (en_io E (w_log w0)) (en_now E (w_log w0))
        (cp_at now (with_state (in_State (w_inst w0)) (in_Checkpoint (w_inst w0)))) (w_store w0)).2)) as Hs.
  { intros w0. unfold save. cbv zeta. by destruct (ws_Save _ _ _ _). }
  unfold wp. rewrite Hs. cbn [fst snd]. split; [apply rtc_once, es_save |].
  apply HQ; [etrans; [exact Hc | apply calm_save] | by intros e He _; do 4 eexists |]. by eexists.
Qed.

Lemma calm_persist : calm_spec (persist E).
Proof. intros w Q HQ. apply wp_persist. auto. Qed.

(** ** Changing the instance *)

(** The status of every step but [n], and the log's view, are kept. *)
Record others n w w' : Prop := {
  ot_dry : in_DryRun (w_inst w') = in_DryRun (w_inst w);
  ot_state : in_State (w_inst w') = in_State (w_inst w);
  ot_status m : m ≠ n -> status w' m = status w m;
  ot_armed m : m ≠ n -> armed m (w_log w') = armed m (w_log w);
  ot_gate m : gate_passed m (w_log w) -> gate_passed m (w_log w') }.

#[global] Instance others_preorder n : PreOrder (others n).
Proof.
  split.
  - intros w. split; auto.
  - intros w1 w2 w3 [A1 A2 A3 A4 A5] [B1 B2 B3 B4 B5].
    split; [congruence | congruence | | | by eauto];
      intros m Hm; rewrite ?B3, ?B4 by done; auto.
Qed.

Lemma calm_others n w w' : calm w w' -> others n w w'.
Proof.
  intros Hc. split; try apply Hc; intros m _; [by apply calm_status | apply Hc].
Qed.

Lemma put_step_status n st w m :
  status (put_step n st w).1 m = if bool_decide (m = n) then ss_Status st else status w m.
Proof.
  unfold status, step_of. cbn. destruct (bool_decide_reflect (m = n)) as [->|Hn].
  - by rewrite lookup_insert_eq.
  - by rewrite lookup_insert_ne.
Qed.

Lemma put_step_others n st w : others n w (put_step n st w).1.
Proof.
  split; try done. intros m Hm. rewrite put_step_status. by rewrite bool_decide_eq_false_2.
Qed.

Lemma wp_move n st w (Q : unit -> World -> Prop) :
  may_move n (status w n) (ss_Status st) = true ->
  (forall w', others n w w' -> status w' n = ss_Status st -> w_log w' = w_log w -> Q tt w') ->
  wp (put_step n st) Q w.
Proof.
  intros Hm HQ. apply wp_step; [by apply es_move |]. apply HQ; [apply put_step_others | | done].
  rewrite put_step_status. by rewrite bool_decide_eq_true_2.
Qed.

(** Entering a state the current one allows. *)
Lemma wp_enter s w (Q : unit -> World -> Prop) :
  CanTransition (in_State (w_inst w)) s = true ->
  (forall w', (forall m, status w' m = status w m) -> in_State (w_inst w') = s ->
     in_DryRun (w_inst w') = in_DryRun (w_inst w) ->
     cp_CompletedSteps (in_Checkpoint (w_inst w')) = cp_CompletedSteps (in_Checkpoint (w_inst w)) ->
     (forall m, armed m (w_log w') = armed m (w_log w)) ->
     (forall m, gate_passed m (w_log w) -> gate_passed m (w_log w')) -> Q tt w') ->
  wp (enter E s) Q w.
Proof.
  intros Hs HQ. unfold enter. apply wp_bind, wp_step; [by apply es_state |].
  apply wp_bind, calm_persist. intros r w' Hc. apply wp_ret, HQ; try apply Hc.
  - intros m. by rewrite (calm_status _ _ _ Hc).
  - intros m Hg. apply (cm_gate _ _ Hc). destruct Hg as [?|[?|?]]; [by left | by right; left |].
    right; right. by right.
Qed.

Lemma err_ok_run s step x msg :
  x ≠ werr.ErrInvalidState -> s = x -> err_ok (Some (run_error def step s msg)).
Proof. intros Hx -> e [= <-]. simpl. by rewrite bool_decide_eq_false_2. Qed.

Lemma err_ok_none : err_ok None.
Proof. by intros e. Qed.

Lemma err_ok_comp s step msg :
  s ≠ werr.ErrInvalidState -> err_ok (Some (comp_error def step s msg)).
Proof. intros Hx e [= <-]. simpl. by rewrite bool_decide_eq_false_2. Qed.

Hint Resolve err_ok_none : core.

(** ** Compensation *)

Lemma def_step_lookup n s : df_steps def !! n = Some s -> def_step def n = s.
Proof. unfold def_step. by intros ->. Qed.

Lemma wp_compensate_step n f st step w (Q : option werror -> World -> Prop) :
  df_steps def !! n = Some step -> sd_Compensate step = Some f ->
  status w n = ss_Status st -> ss_Status st ≠ StepCompensated ->
  (forall r w', others n w w' -> err_ok r -> Q r w') ->
  wp (compensate_step E def opts n f st) Q w.
Proof.
  intros Hn Hf Hst Hnc HQ. unfold compensate_step.
  apply wp_bind, wp_gate. intros b w1 C1 Hg.
  destruct b. { apply wp_ret, HQ; [by apply calm_others | by apply err_ok_comp]. }
  specialize (Hg eq_refl). apply wp_bind, calm_epoch. intros ep w2 C2. apply wp_bind, wp_read.
  case_bool_decide. { apply wp_ret, HQ; [apply calm_others; by etrans | by apply err_ok_comp]. }
  assert (others n w w2) as O2 by (apply calm_others; by etrans).
  apply wp_bind, wp_move.
  { rewrite (calm_status _ _ _ C2), (calm_status _ _ _ C1), Hst.
    assert (has_compensation n = true) as Hh by (unfold has_compensation; by rewrite Hn, Hf).
    cbn [ss_Status st_status]. unfold may_move. rewrite Hh. by destruct (ss_Status st). }
  intros w3 O3 S3 L3. apply wp_bind, calm_persist. intros _ w4 C4. apply wp_bind, wp_read.
  assert (others n w w4) as O4 by (etrans; [exact O2 |]; etrans; [exact O3 | by apply calm_others]).
  apply wp_bind. apply wp_mono with (P := fun _ w' => others n w4 w' /\ status w' n = StepCompensating).
  { destruct (in_DryRun (w_inst w4)) eqn:Hd.
    - apply wp_bind, calm_clock. intros now w5 C5. apply wp_ret. split; [by apply calm_others |].
      by rewrite (calm_status _ _ _ C5), (calm_status _ _ _ C4).
    - apply wp_step.
      + apply es_comp; [by rewrite (calm_status _ _ _ C4) | by rewrite (def_step_lookup _ _ Hn) | | done].
        apply (cm_gate _ _ C4). rewrite L3. by apply (cm_gate _ _ C2).
      + split; [|change (status w4 n = StepCompensating); by rewrite (calm_status _ _ _ C4)].
        split; try done. intros m [?|[?|?]]; [by left | by right; left | right; right; by right]. }
  intros r w5 [O5 S5]. destruct (failed r).
  - apply wp_bind, wp_move; [by rewrite S5 |]. intros w6 O6 S6 L6. apply wp_bind, calm_audit.
    intros _ w7 C7. apply wp_ret, HQ; [|by apply err_ok_comp].
    etrans; [exact O4 |]. etrans; [exact O5 |]. etrans; [exact O6 | by apply calm_others].
  - apply wp_bind, calm_clock. intros now w6 C6. apply wp_bind, wp_move.
    { by rewrite (calm_status _ _ _ C6), S5. }
    intros w7 O7 S7 L7. apply wp_bind, calm_audit. intros _ w8 C8.
    apply wp_bind, calm_persist. intros _ w9 C9. apply wp_ret, HQ; [|done].
    etrans; [exact O4 |]. etrans; [exact O5 |]. etrans; [by apply calm_others |].
    etrans; [exact O7 |]. etrans; by apply calm_others.
Qed.

Lemma wp_compensate_loop names w (Q : option werror -> World -> Prop) :
  (forall r w', in_State (w_inst w') = in_State (w_inst w) -> err_ok r -> Q r w') ->
  wp (compensate_loop E def opts names) Q w.
Proof.
  revert w. induction names as [|n rest IH]; intros w HQ; simpl; [by apply wp_ret, HQ |].
  destruct (df_steps def !! n) as [step|] eqn:En; [|by apply IH].
  destruct (sd_Compensate step) as [f|] eqn:Ef; [|by apply IH].
  apply wp_bind, wp_read. destruct (bool_decide_reflect (ss_Status (step_of w n) = StepCompensated)).
  { by apply IH. }
  apply wp_bind, (wp_compensate_step n f _ step); try done.
  intros r w' Ho He. destruct r as [e|].
  - apply wp_ret, HQ; [apply Ho | done].
  - apply IH. intros r w2 Hs. apply HQ. rewrite Hs. apply Ho.
Qed.

Lemma wp_compensate w (Q : option werror -> World -> Prop) :
  CanTransition (in_State (w_inst w)) StateCompensating = true ->
  (forall r w', in_State (w_inst w') = StateCompensating -> err_ok r -> Q r w') ->
  wp (compensate E def opts) Q w.
Proof.
  intros Hs HQ. unfold compensate. apply wp_bind, wp_enter; [done |].
  intros w1 _ S1 _ _ _ _. apply wp_bind, wp_read, wp_compensate_loop.
  intros r w2 S2. apply HQ. by rewrite S2.
Qed.

Lemma wp_compensate_then after err w (Q : option werror -> World -> Prop) :
  CanTransition (in_State (w_inst w)) StateCompensating = true -> calm_spec after ->
  err_ok (Some err) -> (forall e w', err_ok (Some e) -> Q (Some e) w') ->
  wp (compensate_then E def opts after err) Q w.
Proof.
  intros Hs Ha He HQ. unfold compensate_then. apply wp_bind, wp_compensate; [done |].
  intros r w1 S1 Hr. destruct r as [e|].
  - apply wp_bind, wp_enter; [by rewrite S1 |]. intros w2 _ _ _ _ _ _. by apply wp_ret, HQ.
  - apply wp_bind, wp_enter; [by rewrite S1 |]. intros w2 _ _ _ _ _ _.
    apply wp_bind, Ha. intros _ w3 _. by apply wp_ret, HQ.
Qed.

Lemma calm_ret {A} (x : A) : calm_spec (ret x).
Proof. intros w Q HQ. apply wp_ret, HQ. reflexivity. Qed.

(** ** Steps *)

Definition running w : Prop := in_State (w_inst w) = StateRunning.

Ltac run_err := first [exact err_ok_none | by (eapply err_ok_run; [|reflexivity])
  | by (intros ? [= <-])].

Lemma wp_handleStepFailure n st r w (Q : option werror -> World -> Prop) :
  running w -> status w n = StepRunning -> failed r = true ->
  (forall e w', err_ok (Some e) -> Q (Some e) w') ->
  wp (handleStepFailure E def opts n st r) Q w.
Proof.
  intros Hr Hs Hf HQ. unfold handleStepFailure.
  destruct (_ || _ || _).
  { apply wp_bind, calm_clock. intros now w1 C1. apply wp_bind, wp_move.
    { by rewrite (calm_status _ _ _ C1), Hs. }
    intros w2 O2 _ _. apply wp_bind, wp_enter.
    { by rewrite (ot_state _ _ _ O2), (cm_state _ _ C1), Hr. }
    intros w3 _ _ _ _ _ _. apply wp_bind, calm_audit. intros _ w4 _. apply wp_ret, HQ. run_err. }
  destruct (_ || _).
  { apply wp_bind, calm_clock. intros now w1 C1. apply wp_bind, wp_move.
    { by rewrite (calm_status _ _ _ C1), Hs. }
    intros w2 O2 _ _. apply wp_compensate_then; [|apply calm_ret | run_err | done].
    by rewrite (ot_state _ _ _ O2), (cm_state _ _ C1), Hr. }
  apply wp_bind, calm_clock. intros now w1 C1. apply wp_bind, wp_move.
  { by rewrite (calm_status _ _ _ C1), Hs. }
  intros w2 O2 _ _. apply wp_compensate_then; [|apply calm_audit | | done].
  - by rewrite (ot_state _ _ _ O2), (cm_state _ _ C1), Hr.
  - intros e [= <-]. by destruct (r.2).
Qed.

Lemma wp_prepare n w (Q : bool * option werror -> World -> Prop) :
  running w ->
  (done_status (status w n) = true -> Q (true, None) w) ->
  (forall w', others n w w' -> startable (status w' n) = true -> done_status (status w n) = false -> Q (false, None) w') ->
  (forall b e w', err_ok (Some e) -> Q (b, Some e) w') ->
  wp (prepareStepResume E def opts n) Q w.
Proof.
  intros Hr Hd Hs He. unfold prepareStepResume. apply wp_bind, wp_read.
  assert (forall s w' (Q' : option werror -> World -> Prop), running w' ->
    (forall e w2, err_ok (Some e) -> Q' (Some e) w2) ->
    wp (failResumeNotRetryable E def opts n s) Q' w') as Hfail.
  { intros s w' Q' Hr' HQ'. apply wp_compensate_then; [by rewrite Hr' | apply calm_ret | run_err | done]. }
  fold (status w n). destruct (status w n) eqn:Est; try (by apply wp_ret, Hd);
    try (by apply wp_ret, Hs; [reflexivity | rewrite Est |]).
  - (* running *)
    destruct (_ || _) eqn:Em.
    { apply wp_bind, wp_move; [by rewrite Est |]. intros w1 O1 _ _. apply wp_bind, wp_enter.
      { by rewrite (ot_state _ _ _ O1), Hr. }
      intros w2 _ _ _ _ _ _. apply wp_ret, He. run_err. }
    apply orb_false_iff in Em as [Em1 Em2].
    destruct (needs_operation_id def opts n) eqn:Eo.
    { apply wp_bind, wp_move; [by rewrite Est |]. intros w1 O1 _ _. apply wp_bind, Hfail.
      { unfold running. by rewrite (ot_state _ _ _ O1). }
      intros e w2 Hok. by apply wp_ret, He. }
    apply wp_bind, wp_move.
    { rewrite Est. simpl. unfold retry_running, retry_failed. by rewrite Em1, Em2, Eo. }
    intros w1 O1 S1 _. apply wp_ret, Hs; auto. by rewrite S1.
  - (* failed *)
    destruct (_ || _) eqn:Em.
    { apply wp_bind, Hfail; [done |]. intros e w2 Hok. by apply wp_ret, He. }
    apply wp_bind, wp_move.
    { rewrite Est. simpl. unfold retry_failed. by rewrite Em. }
    intros w1 O1 S1 _. apply wp_ret, Hs; auto. by rewrite S1.
  - (* reconcile *)
    apply wp_bind, wp_enter; [by rewrite Hr |]. intros w2 _ _ _ _ _ _. apply wp_ret, He. run_err.
Qed.

Lemma gate_passed_cons n e log : gate_passed n log -> gate_passed n (e :: log).
Proof. intros [?|[?|?]]; [by left | by right; left | right; right; by right]. Qed.

(** A step that is not done is not among its own finished dependencies. *)
Lemma deps_done_others n m w w' :
  others m w w' -> done_status (status w m) = false -> deps_done w n -> deps_done w' n.
Proof.
  intros Ho Hm Hd d Hin. specialize (Hd d Hin). rewrite (ot_status _ _ _ Ho); [done |].
  intros ->. congruence.
Qed.

Lemma startable_not_done s : startable s = true -> done_status s = false.
Proof. by destruct s. Qed.

Lemma wp_begin n now w (Q : StepState -> World -> Prop) :
  n ∈ df_order def -> startable (status w n) = true -> deps_done w n -> gate_passed n (w_log w) ->
  (forall st w', ss_Status st = StepRunning -> others n w w' -> status w' n = StepRunning ->
     armed n (w_log w') = true -> Q st w') ->
  wp (begin_step n now) Q w.
Proof.
  intros Ho Hs Hd Hg HQ. apply wp_step; [by apply es_start |]. apply HQ; [done | | |].
  - split; try done.
    + intros m Hm. cbn. pose proof (put_step_status n (st_begin n now (step_of w n)) w m) as Hp.
      rewrite bool_decide_eq_false_2 in Hp by done. exact Hp.
    + intros m Hm. cbn. by rewrite bool_decide_eq_false_2.
    + intros m. apply gate_passed_cons.
  - pose proof (put_step_status n (st_begin n now (step_of w n)) w n) as Hp.
    by rewrite bool_decide_eq_true_2 in Hp.
  - cbn. by rewrite bool_decide_eq_true_2.
Qed.

Lemma wp_call_action n attempt epoch w (Q : outcome -> World -> Prop) :
  n ∈ df_order def -> status w n = StepRunning -> deps_done w n -> gate_passed n (w_log w) ->
  armed n (w_log w) = true -> (exists cp, last_save (w_log w) = Some cp /\ cp_status cp n = StepRunning) ->
  in_DryRun (w_inst w) = false ->
  (forall r w', w_inst w' = w_inst w -> w_log w' = EvAct n (sd_Action (def_step def n))
       (exec_of def opts n attempt epoch (w_inst w)) (cp_Steps (in_Checkpoint (w_inst w))) r :: w_log w ->
     Q r w') ->
  wp (call_action E def opts n attempt epoch) Q w.
Proof.
  intros Ho Hs Hd Hg Ha Hl Hdry HQ. apply wp_step; [by apply es_act |]. by apply HQ.
Qed.

Lemma wp_complete n st ep ev w (Q : unit -> World -> Prop) :
  status w n = StepRunning -> (in_DryRun (w_inst w) = true \/ acted_ok n (w_log w) = true) ->
  (forall w', others n w w' -> status w' n = StepCompleted ->
     (forall m, acted_ok m (w_log w') = acted_ok m (w_log w)) -> Q tt w') ->
  wp (complete_step E opts n st ep ev) Q w.
Proof.
  intros Hs Ha HQ. unfold complete_step. apply wp_bind, calm_clock. intros now w1 C1.
  set (st' := st_evidence ev (st_finished now (st_status StepCompleted st))).
  set (w2 := completed n ep (put_step n st' w1).1).
  assert (estep w1 w2) as Hstep.
  { apply es_complete; [by rewrite (calm_status _ _ _ C1) | done |].
    by rewrite (cm_dry _ _ C1), (cm_acted _ _ C1). }
  assert (others n w1 w2) as O2.
  { split; try done. intros m Hm. change (status (put_step n st' w1).1 m = status w1 m).
    rewrite put_step_status. by rewrite bool_decide_eq_false_2. }
  assert (status w2 n = StepCompleted) as S2.
  { change (status (put_step n st' w1).1 n = StepCompleted).
    rewrite put_step_status. by rewrite bool_decide_eq_true_2. }
  apply wp_two; [exact Hstep |]. apply calm_audit. intros [] w3 C3. apply HQ.
  - etrans; [by apply calm_others |]. etrans; [exact O2 | by apply calm_others].
  - by rewrite (calm_status _ _ _ C3).
  - intros m. by rewrite (cm_acted _ _ C3), <- (cm_acted _ _ C1).
Qed.

Lemma wp_runStep n w (Q : option werror -> World -> Prop) :
  running w -> n ∈ df_order def -> startable (status w n) = true -> deps_done w n ->
  gate_passed n (w_log w) ->
  (forall w', others n w w' -> status w' n = StepCompleted -> Q None w') ->
  (forall e w', err_ok (Some e) -> Q (Some e) w') ->
  wp (runStep E def opts n) Q w.
Proof.
  intros Hr Ho Hs Hd Hg HQ He. unfold runStep. apply wp_bind, calm_clock. intros now w1 C1.
  apply wp_bind, wp_begin; [done | by rewrite (calm_status _ _ _ C1) | by eapply calm_deps
    | by apply (cm_gate _ _ C1) |].
  intros st w2 Hst O2 S2 A2. apply wp_bind, wp_persist. intros _ w3 C3 _ (cp & L3 & Lcp).
  apply wp_bind, calm_epoch. intros ep w4 C4. apply wp_bind, wp_read.
  assert (others n w w4) as O4.
  { etrans; [by apply calm_others |]. etrans; [exact O2 |]. etrans; by apply calm_others. }
  assert (status w4 n = StepRunning) as S4 by (by rewrite (calm_status _ _ _ C4), (calm_status _ _ _ C3)).
  assert (armed n (w_log w4) = true) as A4 by (by rewrite (cm_armed _ _ C4), (cm_armed _ _ C3)).
  assert (exists cp, last_save (w_log w4) = Some cp /\ cp_status cp n = StepRunning) as L4.
  { assert (forall c, cp_Steps c = cp_Steps (in_Checkpoint (w_inst w3)) -> cp_status c n = StepRunning) as Hc.
    { intros c Hc. unfold cp_status. rewrite Hc. change (status w3 n = StepRunning).
      by rewrite (calm_status _ _ _ C3). }
    destruct (cm_saved _ _ C4) as [->|(c & -> & Hc')]; eauto. }
  assert (deps_done w4 n) as D4
    by (eapply deps_done_others; [exact O4 | by apply startable_not_done | done]).
  apply wp_bind. apply wp_mono with (P := fun r w' => others n w4 w' /\ status w' n = StepRunning /\
    (failed r = false -> in_DryRun (w_inst w') = true \/ acted_ok n (w_log w') = true)).
  { destruct (in_DryRun (w_inst w4)) eqn:Edry.
    - apply wp_ret. split; [reflexivity |]. split; [done |]. by left.
    - apply wp_call_action; try done; [by apply (ot_gate _ _ _ O4) |].
      intros r w5 Ei El. split; [|split].
      + split; rewrite ?Ei; try done; [| |intros m; rewrite El; apply gate_passed_cons].
        * intros m _. unfold status, step_of. by rewrite Ei.
        * intros m Hm. rewrite El. simpl. by rewrite bool_decide_eq_false_2.
      + unfold status, step_of. by rewrite Ei.
      + intros Hf. right. rewrite El. simpl. by rewrite bool_decide_eq_true_2, Hf. }
  intros r w5 (O5 & S5 & F5). destruct (failed r) eqn:Ef.
  - apply wp_handleStepFailure; try done. unfold running. by rewrite (ot_state _ _ _ O5), (ot_state _ _ _ O4).
  - apply wp_bind, wp_complete; [done | by apply F5 |]. intros w6 O6 S6 _.
    apply wp_persist. intros res w7 C7 Hok _. destruct res as [e|]; [by apply He |]. apply HQ.
    + etrans; [exact O4 |]. etrans; [exact O5 |]. etrans; [exact O6 | by apply calm_others].
    + by rewrite (calm_status _ _ _ C7).
Qed.

Lemma wp_gated_step n w (Q : option werror -> World -> Prop) :
  running w -> n ∈ df_order def -> startable (status w n) = true -> deps_done w n ->
  (forall w', others n w w' -> status w' n = StepCompleted -> Q None w') ->
  (forall e w', err_ok (Some e) -> Q (Some e) w') ->
  wp (gated_step E def opts n) Q w.
Proof.
  intros Hr Ho Hs Hd HQ He. unfold gated_step. apply wp_bind, wp_gate. intros b w1 C1 Hg. destruct b.
  - unfold locked_down. apply wp_bind, wp_enter; [by rewrite (cm_state _ _ C1), Hr |].
    intros w2 _ _ _ _ _ _. apply wp_ret, He. run_err.
  - apply wp_runStep; try done.
    + unfold running. by rewrite (cm_state _ _ C1).
    + by rewrite (calm_status _ _ _ C1).
    + by eapply calm_deps.
    + by apply Hg.
    + intros w' O' S'. apply HQ; [|done]. etrans; [by apply calm_others | done].
Qed.

(** ** A parallel batch *)

(** The status of every step outside [names] is kept. *)
Record outside (names : list string) w w' : Prop := {
  os_dry : in_DryRun (w_inst w') = in_DryRun (w_inst w);
  os_state : in_State (w_inst w') = in_State (w_inst w);
  os_status m : m ∉ names -> status w' m = status w m;
  os_gate m : gate_passed m (w_log w) -> gate_passed m (w_log w') }.

#[global] Instance outside_preorder names : PreOrder (outside names).
Proof.
  split.
  - intros w. split; auto.
  - intros w1 w2 w3 [A1 A2 A3 A5] [B1 B2 B3 B5]. split; [congruence | congruence | | by eauto].
    intros m Hm. rewrite B3 by done. auto.
Qed.

Lemma calm_outside names w w' : calm w w' -> outside names w w'.
Proof. intros Hc. split; try apply Hc. intros m _. by apply calm_status. Qed.

Lemma others_outside names n w w' : n ∈ names -> others n w w' -> outside names w w'.
Proof.
  intros Hn Ho. split; try apply Ho. intros m Hm. apply (ot_status _ _ _ Ho). by intros ->.
Qed.

Lemma outside_mono names names' w w' : names ⊆ names' -> outside names w w' -> outside names' w w'.
Proof. intros Hs Ho. split; try apply Ho. intros m Hm. apply (os_status _ _ _ Ho). set_solver. Qed.

Lemma wp_batch_gate names w (Q : option werror -> World -> Prop) :
  running w ->
  (forall w', calm w w' -> (forall n, n ∈ names -> gate_passed n (w_log w')) -> Q None w') ->
  (forall e w', err_ok (Some e) -> Q (Some e) w') ->
  wp (batch_gate E def names) Q w.
Proof.
  revert w. induction names as [|n rest IH]; intros w Hr HQ He; simpl.
  { apply wp_ret, HQ; [reflexivity |]. intros n Hn. by apply elem_of_nil in Hn. }
  apply wp_bind, wp_gate. intros b w1 C1 Hg. destruct b.
  - apply wp_bind, wp_enter; [by rewrite (cm_state _ _ C1), Hr |].
    intros w2 _ _ _ _ _ _. apply wp_ret, He. run_err.
  - apply IH; [unfold running; by rewrite (cm_state _ _ C1) | | done].
    intros w2 C2 Hg2. apply HQ; [by etrans |]. intros m [->|Hm]%elem_of_cons; [|by apply Hg2].
    by apply (cm_gate _ _ C2), Hg.
Qed.

(** What a step of a batch is when it is about to begin. *)
Definition can_begin w n : Prop :=
  n ∈ df_order def /\ startable (status w n) = true /\ deps_done w n /\ gate_passed n (w_log w).

Lemma can_begin_others n m w w' :
  m ≠ n -> startable (status w m) = true -> others m w w' -> can_begin w n -> can_begin w' n.
Proof.
  intros Hm Hs Ho (H1 & H2 & H3 & H4). split; [done |]. split; [by rewrite (ot_status _ _ _ Ho) |].
  split; [|by apply (ot_gate _ _ _ Ho)].
  eapply deps_done_others; [exact Ho | by apply startable_not_done | done].
Qed.

Lemma wp_batch_prepare names now w (Q : list prepared -> World -> Prop) :
  NoDup names -> (forall n, n ∈ names -> can_begin w n) ->
  (forall ps w', pr_name <$> ps = names -> outside names w w' ->
     (forall n, n ∈ names -> status w' n = StepRunning /\ armed n (w_log w') = true) ->
     (forall m, m ∉ names -> armed m (w_log w') = armed m (w_log w)) -> Q ps w') ->
  wp (batch_prepare E def names now) Q w.
Proof.
  revert w Q. induction names as [|n rest IH]; intros w Q Hnd Hb HQ; simpl.
  { apply wp_ret, HQ; [done | reflexivity | | done]. intros n Hn. by apply elem_of_nil in Hn. }
  apply NoDup_cons in Hnd as [Hn Hnd].
  destruct (Hb n ltac:(left)) as (B1 & B2 & B3 & B4).
  apply wp_bind, wp_begin; try done. intros st w1 Hst O1 S1 A1.
  apply wp_bind, calm_epoch. intros ep w2 C2.
  assert (others n w w2) as O2 by (etrans; [exact O1 | by apply calm_others]).
  apply wp_bind, IH; [done | |].
  { intros m Hm. apply (can_begin_others m n w); try done; [by intros -> |]. apply Hb. by right. }
  intros ps w3 Hps O3 S3 A3. apply wp_ret, HQ.
  - cbn. by f_equal.
  - etrans; [eapply others_outside; [left | done] |].
    eapply outside_mono; [|exact O3]. set_solver.
  - intros m [->|Hm]%elem_of_cons; [|by apply S3].
    rewrite (os_status _ _ _ O3), A3, (calm_status _ _ _ C2), (cm_armed _ _ C2) by done. done.
  - intros m Hm. apply not_elem_of_cons in Hm as [Hmn Hm]. rewrite A3 by done.
    by apply (ot_armed _ _ _ O2).
Qed.

(** What a begun step of a batch is before its goroutine runs. *)
Definition can_act w n : Prop :=
  n ∈ df_order def /\ status w n = StepRunning /\ deps_done w n /\ gate_passed n (w_log w) /\
  armed n (w_log w) = true /\
  (exists cp, last_save (w_log w) = Some cp /\ cp_status cp n = StepRunning).

Lemma can_act_log n w w' :
  w_inst w' = w_inst w -> armed n (w_log w') = armed n (w_log w) ->
  last_save (w_log w') = last_save (w_log w) ->
  (gate_passed n (w_log w) -> gate_passed n (w_log w')) -> can_act w n -> can_act w' n.
Proof.
  intros Hi Ha Hl Hg (H1 & H2 & H3 & H4 & H5 & H6).
  assert (forall m, status w' m = status w m) as Hs by (intros m; unfold status, step_of; by rewrite Hi).
  split; [done |]. split; [by rewrite Hs |]. split; [intros d Hd; rewrite Hs; by apply H3 |].
  split; [by apply Hg |]. split; [by rewrite Ha | by rewrite Hl].
Qed.

(** The outcome of one goroutine. *)
Definition sound w (p : prepared * outcome) : Prop :=
  failed p.2 = false -> in_DryRun (w_inst w) = true \/ acted_ok (pr_name p.1) (w_log w) = true.

Lemma wp_batch_run ps now w (Q : list (prepared * outcome) -> World -> Prop) :
  NoDup (pr_name <$> ps) -> (forall n, n ∈ pr_name <$> ps -> can_act w n) ->
  (forall os w', os.*1 = ps -> w_inst w' = w_inst w -> Forall (sound w') os ->
     (forall m, gate_passed m (w_log w) -> gate_passed m (w_log w')) ->
     (forall m, m ∉ pr_name <$> ps -> acted_ok m (w_log w') = acted_ok m (w_log w)) -> Q os w') ->
  wp (batch_run E def opts ps now) Q w.
Proof.
  revert w Q. induction ps as [|p rest IH]; intros w Q Hnd Hb HQ; simpl.
  { by apply wp_ret, HQ. }
  cbn [fmap list_fmap] in *. apply NoDup_cons in Hnd as [Hn Hnd].
  apply wp_bind, wp_step; [by apply es_quiet |]. cbn [fst snd].
  set (w1 := push (EvSlot (en_slot E (w_log w))) w). apply wp_bind, wp_read.
  assert (forall n, n ∈ pr_name p :: (pr_name <$> rest) -> can_act w1 n) as Hb1.
  { intros n Hin. eapply can_act_log; [.. | by apply Hb]; try done. apply gate_passed_cons. }
  apply wp_bind. apply wp_mono with (P := fun r w' => w_inst w' = w_inst w /\ sound w' (p, r) /\
    (forall m, gate_passed m (w_log w) -> gate_passed m (w_log w')) /\
    last_save (w_log w') = last_save (w_log w) /\
    (forall m, m ≠ pr_name p -> armed m (w_log w') = armed m (w_log w) /\
       acted_ok m (w_log w') = acted_ok m (w_log w))).
  { assert (forall m, gate_passed m (w_log w) -> gate_passed m (w_log w1)) as Hg1
      by (intros m; apply gate_passed_cons).
    destruct (en_slot E (w_log w)) as [e|]; [by apply wp_ret |].
    destruct (in_DryRun (w_inst w1)) eqn:Edry; [apply wp_ret; split; [done |]; split; [by left | done] |].
    destruct (Hb1 (pr_name p) ltac:(left)) as (H1 & H2 & H3 & H4 & H5 & H6).
    apply wp_call_action; try done. intros r w2 Ei El. split; [by rewrite Ei |]. rewrite El. split.
    - intros Hf. simpl in Hf. right. rewrite El. simpl. by rewrite bool_decide_eq_true_2, Hf.
    - split; [intros m Hm; by apply gate_passed_cons, Hg1 |]. split; [done |].
      intros m Hm. simpl. by rewrite !bool_decide_eq_false_2. }
  intros r w2 (Ei & Hs & Hg & Hl & Ha). apply wp_bind, IH; [done | |].
  { intros n Hin. assert (n ≠ pr_name p) as Hne by (by intros ->). destruct (Ha n Hne) as [A1 A2].
    eapply can_act_log; [exact Ei | exact A1 | exact Hl | apply Hg |]. apply Hb. by right. }
  intros os w3 Hos Ei3 Hs3 Hg3 Ha3. apply wp_ret, HQ.
  - cbn. by f_equal.
  - by rewrite Ei3.
  - constructor; [|done]. intros Hf. destruct (Hs Hf) as [Hd|Hd]; [left; by rewrite Ei3 | right].
    simpl in *. by rewrite Ha3.
  - intros m Hm. by apply Hg3, Hg.
  - intros m Hm. apply not_elem_of_cons in Hm as [H1 H2]. rewrite Ha3 by done. by apply Ha.
Qed.

Abbreviation names_of os := (fmap (M := list) (fun o : prepared * outcome => pr_name o.1) os).

Lemma wp_batch_apply os : forall fail w (Q : option (prepared * outcome) -> World -> Prop),
  NoDup (names_of os) ->
  Forall (fun o => status w (pr_name o.1) = StepRunning /\ sound w o) os ->
  (forall f w', outside (names_of os) w w' ->
     Forall (fun o => status w' (pr_name o.1) = if failed o.2 then StepRunning else StepCompleted) os ->
     match f with
     | None => fail = None /\ Forall (fun o => failed o.2 = false) os
     | Some o => fail = Some o \/ (o ∈ os /\ failed o.2 = true)
     end -> Q f w') ->
  wp (batch_apply E opts os fail) Q w.
Proof.
  induction os as [|[p r] rest IH]; intros fail w Q Hnd Hr HQ; simpl.
  { apply wp_ret, HQ; [reflexivity | done |]. destruct fail; by auto. }
  cbn [fmap list_fmap fst] in *. apply NoDup_cons in Hnd as [Hn Hnd].
  apply Forall_cons in Hr as [[Hs Hso] Hr]. simpl in Hs. destruct (failed r) eqn:Ef.
  - apply IH; [done | done |]. intros f w' O1 F1 Hf. apply HQ.
    + eapply outside_mono; [|exact O1]. set_solver.
    + constructor; [|done]. simpl. rewrite Ef. by rewrite (os_status _ _ _ O1).
    + destruct f as [o|].
      * destruct Hf as [Hf|[Hin Hf]]; [|right; split; [by right | done]].
        destruct fail; simplify_eq; [by left | right; split; [left | done]].
      * by destruct fail, Hf.
  - apply wp_bind, wp_complete; [done | by apply Hso |]. intros w1 O1 S1 A1. apply IH; [done | |].
    + rewrite Forall_forall in Hr |- *. intros o Ho. destruct (Hr o Ho) as [H1 H2].
      assert (pr_name o.1 ≠ pr_name p) as Hne.
      { intros E'. apply Hn. rewrite <- E'. by apply (list_elem_of_fmap_2 (fun o => pr_name o.1)). }
      split; [by rewrite (ot_status _ _ _ O1) |]. intros Hf. rewrite A1, (ot_dry _ _ _ O1). by apply H2.
    + intros f w' O2 F2 Hf. apply HQ.
      * etrans; [eapply others_outside; [left | exact O1] |]. eapply outside_mono; [|exact O2]. set_solver.
      * constructor; [|done]. simpl. rewrite Ef. by rewrite (os_status _ _ _ O2).
      * destruct f as [o|]; [destruct Hf as [Hf|[Hin Hf]]; [by left | right; split; [by right | done]] |].
        destruct Hf as [-> Hf]. split; [done |]. by constructor.
Qed.

Lemma wp_batch_siblings os failing : forall w (Q : unit -> World -> Prop),
  (forall w', status w' failing = status w failing -> in_State (w_inst w') = in_State (w_inst w) ->
     Q tt w') ->
  wp (batch_siblings E os failing) Q w.
Proof.
  induction os as [|[p r] rest IH]; intros w Q HQ; simpl; [by apply wp_ret, HQ |].
  apply wp_bind, wp_read, wp_bind. destruct (_ && _) eqn:Eb.
  - apply andb_true_iff in Eb as [Hne%bool_decide_eq_true Hs%bool_decide_eq_true].
    apply wp_bind, calm_clock. intros now w1 C1. apply wp_move.
    { rewrite (calm_status _ _ _ C1). unfold status. by rewrite Hs. }
    intros w2 O2 _ _. apply IH. intros w3 H1 H2. apply HQ.
    + rewrite H1, (ot_status _ _ _ O2) by done. by apply calm_status.
    + by rewrite H2, (ot_state _ _ _ O2), (cm_state _ _ C1).
  - apply wp_ret, IH. auto.
Qed.

(** Each goroutine of a batch runs once. *)
Definition fair : Prop := forall log names, en_schedule E log names ≡ₚ names.

Lemma prepared_of_names ps order :
  NoDup (pr_name <$> ps) -> order ≡ₚ pr_name <$> ps -> prepared_of ps order ≡ₚ ps.
Proof.
  intros Hnd Ho. unfold prepared_of. rewrite Ho. clear Ho order.
  assert (forall p, p ∈ ps -> filter (fun q => pr_name q = pr_name p) ps = [p]) as Hone.
  { induction ps as [|q ps IH]; intros p Hp; [by apply elem_of_nil in Hp |].
    cbn [fmap list_fmap] in Hnd. apply NoDup_cons in Hnd as [Hq Hnd]. rewrite filter_cons.
    apply elem_of_cons in Hp as [->|Hp].
    - rewrite decide_True by done. f_equal. destruct (filter _ ps) as [|x t] eqn:Ex; [done |].
      assert (x ∈ filter (fun r => pr_name r = pr_name q) ps) as [Hx Hin]%list_elem_of_filter
        by (rewrite Ex; left).
      destruct Hq. rewrite <- Hx. by apply list_elem_of_fmap_2.
    - rewrite decide_False; [by apply IH |]. intros E'. apply Hq. rewrite E'.
      by apply list_elem_of_fmap_2. }
  enough (forall l, (forall p, p ∈ l -> p ∈ ps) ->
    ((pr_name <$> l) ≫= fun n => filter (fun q => pr_name q = n) ps) = l) as ->; auto.
  induction l as [|p l IH]; intros Hin; [done |]. cbn [fmap list_fmap]. rewrite bind_cons.
  rewrite Hone by (apply Hin; left). by rewrite IH by (intros; apply Hin; by right).
Qed.

Lemma wp_runParallelBatch names w (Q : option werror -> World -> Prop) :
  fair -> running w -> NoDup names ->
  (forall n, n ∈ names -> n ∈ df_order def /\ startable (status w n) = true /\ deps_done w n) ->
  (forall w', outside names w w' -> (forall n, n ∈ names -> status w' n = StepCompleted) -> Q None w') ->
  (forall e w', err_ok (Some e) -> Q (Some e) w') ->
  wp (runParallelBatch E def opts names) Q w.
Proof.
  intros Hfair Hr Hnd Hb HQ He. unfold runParallelBatch. apply wp_bind, wp_batch_gate; [done | |].
  2: { intros e w' Hok. by apply wp_ret, He. }
  intros w1 C1 Hg. apply wp_bind, calm_clock. intros now w2 C2.
  apply wp_bind, wp_batch_prepare; [done | |].
  { intros n Hn. destruct (Hb n Hn) as (H1 & H2 & H3).
    assert (calm w w2) as C by (by etrans). split; [done |].
    split; [by rewrite (calm_status _ _ _ C) |]. split; [by eapply calm_deps | by apply (cm_gate _ _ C2), Hg]. }
  intros ps w3 Hps O3 S3 _.
  assert (outside names w w3) as O03 by (etrans; [by apply calm_outside |]; etrans; [by apply calm_outside | done]).
  apply wp_bind, wp_persist. intros res w4 C4 Hok (cp & L4 & Lcp).
  destruct res as [e|]; [by apply wp_ret, He |]. apply wp_bind, wp_read.
  assert (outside names w w4) as O04 by (etrans; [exact O03 | by apply calm_outside]).
  assert (forall n, n ∈ names -> can_act w4 n) as Hact.
  { intros n Hn. destruct (Hb n Hn) as (H1 & H2 & H3). destruct (S3 n Hn) as [Sn An].
    assert (status w4 n = StepRunning) as S4 by (by rewrite (calm_status _ _ _ C4)).
    split; [done |]. split; [done |]. split; [|split; [|split]].
    - intros d Hd. rewrite (os_status _ _ _ O04); [by apply H3 |]. intros Hin.
      destruct (Hb d Hin) as (_ & Hsd & _). apply startable_not_done in Hsd. specialize (H3 d Hd). congruence.
    - apply (cm_gate _ _ C4), (os_gate _ _ _ O3), (cm_gate _ _ C2), Hg, Hn.
    - by rewrite (cm_armed _ _ C4).
    - exists cp. split; [done |]. unfold cp_status. by rewrite Lcp. }
  assert (prepared_of ps (en_schedule E (w_log w4) names) ≡ₚ ps) as Hperm.
  { apply prepared_of_names; rewrite Hps; [done | apply Hfair]. }
  apply wp_bind, wp_batch_run.
  { rewrite Hperm. by rewrite Hps. }
  { intros n Hn. apply Hact. rewrite <- Hps. by rewrite <- Hperm. }
  intros os w5 Hos Ei5 Hsound Hg5 _.
  assert (names_of (merge_sort by_name os) ≡ₚ names) as Hno.
  { rewrite merge_sort_Permutation. change (names_of os) with (pr_name ∘ fst <$> os).
    rewrite (list_fmap_compose fst pr_name), Hos, Hperm. by rewrite Hps. }
  assert (forall m, status w5 m = status w4 m) as S5 by (intros m; unfold status, step_of; by rewrite Ei5).
  assert (outside names w w5) as O05.
  { etrans; [exact O04 |]. split; [by rewrite Ei5 | by rewrite Ei5 | auto | auto]. }
  apply wp_bind, wp_batch_apply; [by rewrite Hno | |].
  { rewrite merge_sort_Permutation. rewrite Forall_forall in Hsound |- *. intros o Ho.
    split; [|by apply Hsound]. rewrite S5. apply Hact. rewrite <- Hno.
    apply (list_elem_of_fmap_2 (fun o => pr_name o.1)). by rewrite merge_sort_Permutation. }
  intros f w6 O6 F6 Hf.
  assert (outside names w w6) as O06.
  { etrans; [exact O05 |]. eapply outside_mono; [|exact O6]. by rewrite Hno. }
  apply wp_bind, calm_persist. intros _ w7 C7. destruct f as [[p r]|].
  2: { destruct Hf as [_ Hf]. apply wp_ret, HQ; [etrans; [exact O06 | by apply calm_outside] |].
    intros n Hn. rewrite (calm_status _ _ _ C7). rewrite <- Hno in Hn.
    apply list_elem_of_fmap in Hn as (o & -> & Ho). rewrite Forall_forall in F6, Hf.
    by rewrite (F6 o Ho), (Hf o Ho). }
  destruct Hf as [?|[Hin Hf]]; [done |]. simpl in Hf. rewrite Forall_forall in F6.
  specialize (F6 _ Hin). simpl in F6. rewrite Hf in F6.
  apply wp_bind, wp_batch_siblings. intros w8 S8 St8. apply wp_bind, calm_persist. intros _ w9 C9.
  assert (running w9) as R9.
  { unfold running. by rewrite (cm_state _ _ C9), St8, (cm_state _ _ C7), (os_state _ _ _ O06). }
  assert (status w9 (pr_name p) = StepRunning) as S9.
  { by rewrite (calm_status _ _ _ C9), S8, (calm_status _ _ _ C7). }
  assert (wp (handleStepFailure E def opts (pr_name p) (pr_st p) r) Q w9) as Hh
    by (by apply wp_handleStepFailure).
  destruct (r.2) as [e|] eqn:Er; [|done]. destruct (ge_Context e); [|done].
  apply wp_bind, wp_enter; [by rewrite R9 |]. intros w10 _ _ _ _ _ _. apply wp_ret, He. run_err.
Qed.

(** ** The parallel loop *)

(** [done] is the steps that are done. *)
Definition done_ok (done : gset string) w : Prop :=
  forall m, m ∈ done <-> m ∈ df_order def /\ done_status (status w m) = true.

(** What [collect_ready] has found. *)
Definition ready_ok (done : gset string) (ready : list string) w : Prop :=
  NoDup ready /\ forall n, n ∈ ready -> n ∈ df_order def /\ n ∉ done /\
    startable (status w n) = true /\ forall d, d ∈ sd_DependsOn (def_step def n) -> d ∈ done.

Lemma done_ok_others n done w w' :
  others n w w' -> done_status (status w n) = false -> done_status (status w' n) = false ->
  done_ok done w -> done_ok done w'.
Proof.
  intros Ho Hn Hn' Hd m. rewrite (Hd m). destruct (decide (m = n)) as [->|Hm]; [by rewrite Hn, Hn' |].
  by rewrite (ot_status _ _ _ Ho).
Qed.

Lemma deps_in_done done w n :
  done_ok done w -> (forall d, d ∈ sd_DependsOn (def_step def n) -> d ∈ done) -> deps_done w n.
Proof. intros Hd Hn d Hin. by apply Hd, Hn. Qed.

Lemma wp_collect_ready names : forall done ready w (Q : gset string * list string * option werror -> World -> Prop),
  running w -> done_ok done w -> ready_ok done ready w -> NoDup names ->
  (forall n, n ∈ names -> n ∈ df_order def /\ n ∉ ready) ->
  (forall ready' w', running w' -> done_ok done w' -> ready_ok done ready' w' ->
     (forall m, m ∉ names -> status w' m = status w m) -> ready ⊆ ready' ->
     (forall n, n ∈ names -> n ∉ done -> (forall d, d ∈ sd_DependsOn (def_step def n) -> d ∈ done) ->
        n ∈ ready' \/ stopped_status (status w' n) = true) -> Q (done, ready', None) w') ->
  (forall done' ready' e w', err_ok (Some e) -> Q (done', ready', Some e) w') ->
  wp (collect_ready E def opts names done ready) Q w.
Proof.
  induction names as [|n rest IH]; intros done ready w Q Hr Hd Hre Hnd Hn HQ He.
  { apply wp_ret, HQ; try done. intros n Hin. by apply elem_of_nil in Hin. }
  apply NoDup_cons in Hnd as [Hnr Hnd]. destruct (Hn n ltac:(left)) as [Hno Hnre].
  assert (forall m, m ∈ rest -> m ∈ df_order def /\ m ∉ ready) as Hrest
    by (intros m Hm; apply Hn; by right).
  cbn [collect_ready].
  (* a step that is left out, because of [done], its status or its dependencies *)
  assert ((n ∈ done \/ stopped_status (status w n) = true \/
     ~ (forall d, d ∈ sd_DependsOn (def_step def n) -> d ∈ done)) ->
    wp (collect_ready E def opts rest done ready) Q w) as Hskip.
  { intros Hwhy. apply IH; try done. intros ready' w' R' DO' RO' S' RS' C'. apply HQ; try done.
    - intros m Hm. apply S'. by apply not_elem_of_cons in Hm as [_ ?].
    - intros m [->|Hm]%elem_of_cons Hmd Hmdeps; [|by apply C'].
      destruct Hwhy as [?|[?|?]]; [done | right; by rewrite S' | done]. }
  destruct (bool_decide_reflect (n ∈ done)) as [Hin|Hnd']; [by apply Hskip; left |].
  apply wp_bind, wp_read. fold (status w n).
  destruct (stopped_status (status w n)) eqn:Est; [by apply Hskip; right; left |].
  destruct (forallb _ _) eqn:Ef; simpl.
  2: { apply Hskip. right; right. intros Hall. apply not_true_iff_false in Ef. apply Ef.
    apply forallb_forall. intros d Hin. apply bool_decide_eq_true, Hall. by apply list_elem_of_In. }
  assert (forall d, d ∈ sd_DependsOn (def_step def n) -> d ∈ done) as Hdeps.
  { intros d Hin. rewrite forallb_forall in Ef. apply list_elem_of_In, Ef, bool_decide_eq_true in Hin. done. }
  apply wp_bind, wp_prepare; [done | | |].
  - intros Hdone. destruct Hnd'. by apply Hd.
  - intros w1 O1 Hst Hndone. cbn [fst snd]. destruct Hre as [Hre1 Hre2].
    assert (forall m, m ∈ ready -> m ≠ n) as Hne by (intros m Hm ->; done).
    apply IH; try done.
    + unfold running. by rewrite (ot_state _ _ _ O1).
    + eapply done_ok_others; [exact O1 | done | by apply startable_not_done | done].
    + split.
      * apply NoDup_app. split; [done |]. split; [|apply NoDup_singleton].
        intros m Hm ->%list_elem_of_singleton. done.
      * intros m [Hm|Hm%list_elem_of_singleton]%elem_of_app; [|subst m; by auto].
        rewrite (ot_status _ _ _ O1) by (by apply Hne). by apply Hre2.
    + intros m Hm. split; [by apply Hrest |]. rewrite elem_of_app, list_elem_of_singleton.
      intros [?| ->]; [by apply (Hrest m Hm) | done].
    + intros ready' w' R' DO' RO' S' RS' C'. apply HQ; try done.
      * intros m Hm. apply not_elem_of_cons in Hm as [Hm1 Hm2]. rewrite S' by done.
        by apply (ot_status _ _ _ O1).
      * intros m Hm. apply RS', elem_of_app. by left.
      * intros m [->|Hm]%elem_of_cons Hmd Hmdeps; [|by apply C'].
        left. apply RS', elem_of_app. right. left.
  - intros b e w' Hok. cbn [fst snd]. by apply wp_ret, He.
Qed.

Lemma wp_stuck names : forall done w (Q : option werror -> World -> Prop),
  running w -> (exists n, n ∈ names /\ n ∉ done /\ stopped_status (status w n) = true) ->
  (forall e w', err_ok (Some e) -> Q (Some e) w') ->
  wp (stuck E def names done) Q w.
Proof.
  induction names as [|m rest IH]; intros done w Q Hr (n & Hn & Hnd & Hs) He; [by apply elem_of_nil in Hn |].
  cbn [stuck]. destruct (bool_decide_reflect (m ∈ done)) as [Hm|Hm].
  { apply IH; [done | | done]. apply elem_of_cons in Hn as [->|Hn]; [done | eauto]. }
  apply wp_bind, wp_read. fold (status w m).
  assert (n ≠ m -> wp (stuck E def rest done) Q w) as Hrest.
  { intros Hne. apply IH; [done | | done]. apply elem_of_cons in Hn as [->|Hn]; [done | eauto]. }
  destruct (status w m) eqn:Em; try (apply Hrest; intros ->; by rewrite Em in Hs);
    (apply wp_bind, wp_enter; [by rewrite Hr |]; intros w2 _ _ _ _ _ _; apply wp_ret, He; run_err).
Qed.

Lemma pick_group_in g l : foldl smaller_group g l = g \/ foldl smaller_group g l ∈ l.
Proof.
  revert g. induction l as [|x l IH]; intros g; simpl; [by left |].
  destruct (IH (smaller_group g x)) as [->|?]; [|right; by right].
  unfold smaller_group. destruct (_ || _); [right; left | by left].
Qed.

(** A round makes progress. *)
Lemma wp_run_round ready done w (Q : gset string * option werror -> World -> Prop) :
  fair -> running w -> done_ok done w -> ready_ok done ready w -> ready ≠ [] ->
  (forall done' w', running w' -> done ⊆ done' -> done_ok done' w' ->
     (exists n, n ∈ done' /\ n ∉ done) -> Q (done', None) w') ->
  (forall d e w', err_ok (Some e) -> Q (d, Some e) w') ->
  wp (run_round E def opts ready done) Q w.
Proof.
  intros Hfair Hr Hd [Hnd Hre] Hne HQ He. unfold run_round.
  destruct (bool_decide_reflect (pick_group def ready ≠ "")) as [Hg|Hg].
  - set (batch := filter (fun n => group_of def n = pick_group def ready) ready).
    assert (forall n, n ∈ batch -> n ∈ ready) as Hb by (intros n [_ Hn]%list_elem_of_filter; done).
    assert (exists n, n ∈ batch) as [n Hn].
    { unfold pick_group in *.
      destruct (pick_group_in "" (filter (fun g => g ≠ "") (group_of def <$> ready))) as [E1|E1]; [done |].
      apply list_elem_of_filter in E1 as [_ (n & E2 & Hn)%list_elem_of_fmap].
      exists n. apply list_elem_of_filter. split; [by rewrite <- E2 | done]. }
    apply wp_bind, wp_runParallelBatch; [done | done | by apply NoDup_filter | | |].
    + intros m Hm%Hb. destruct (Hre m Hm) as (H1 & H2 & H3 & H4). split; [done |]. split; [done |].
      by eapply deps_in_done.
    + intros w' O' S'.
      assert (forall m, m ∈ batch -> m ∈ mark_done batch w' done) as Hmark.
      { intros m Hm. unfold mark_done. apply elem_of_union_l, elem_of_list_to_set, list_elem_of_filter.
        split; [|done]. fold (status w' m). by rewrite S'. }
      apply wp_read, HQ.
      * unfold running. by rewrite (os_state _ _ _ O').
      * unfold mark_done. set_solver.
      * intros m. destruct (decide (m ∈ batch)) as [Hm|Hm].
        -- split; [|intros _; by apply Hmark]. intros _. split; [by apply Hre, Hb | by rewrite S'].
        -- rewrite (os_status _ _ _ O'), <- (Hd m) by done. unfold mark_done.
           rewrite elem_of_union, elem_of_list_to_set, list_elem_of_filter. tauto.
      * exists n. split; [by apply Hmark | by apply Hre, Hb].
    + intros e w' Hok. by apply wp_ret, He.
  - destruct ready as [|n rest]; [done |]. destruct (Hre n ltac:(left)) as (H1 & H2 & H3 & H4).
    apply wp_bind, wp_gated_step; try done; [by eapply deps_in_done | |].
    + intros w' O' S'. apply wp_ret, HQ.
      * unfold running. by rewrite (ot_state _ _ _ O').
      * set_solver.
      * intros m. rewrite elem_of_union, elem_of_singleton. destruct (decide (m = n)) as [->|Hm].
        -- rewrite S'. tauto.
        -- rewrite (ot_status _ _ _ O'), <- (Hd m) by done. tauto.
      * exists n. set_solver.
    + intros e w' Hok. by apply wp_ret, He.
Qed.

(** ** The whole run *)

Definition all_done w : Prop := forall n, n ∈ df_order def -> done_status (status w n) = true.

(** What a run that returns tells: no error means every step is done. *)
Definition returns (r : option werror) w : Prop :=
  err_ok r /\ (r = None -> in_State (w_inst w) = StateCompleted /\ all_done w).

Lemma wp_finish w (Q : option werror -> World -> Prop) :
  running w -> all_done w -> (forall r w', returns r w' -> Q r w') -> wp (finish E) Q w.
Proof.
  intros Hr Ha HQ. unfold finish. apply wp_bind, wp_step; [apply es_state; by rewrite Hr |].
  apply wp_persist. intros r w1 C1 Hok _. apply HQ. split; [done |]. intros _.
  split; [by rewrite (cm_state _ _ C1) |]. intros n Hn. rewrite (calm_status _ _ _ C1). by apply Ha.
Qed.

Lemma returns_error e w : err_ok (Some e) -> returns (Some e) w.
Proof. by split. Qed.

Lemma wp_cancelled err w (Q : option werror -> World -> Prop) :
  running w -> (forall e w', err_ok (Some e) -> Q (Some e) w') -> wp (cancelled E def err) Q w.
Proof.
  intros Hr HQ. apply wp_bind, wp_enter; [by rewrite Hr |]. intros w1 _ _ _ _ _ _. apply wp_ret, HQ. run_err.
Qed.

Context (Hdef : def_wf def).

Lemma order_deps pre n rest d :
  df_order def = pre ++ n :: rest -> d ∈ sd_DependsOn (def_step def n) -> d ∈ pre.
Proof.
  intros Eo Hd. assert (df_order def !! length pre = Some n) as Hk by (rewrite Eo; by rewrite list_lookup_middle).
  destruct (proj1 (dw_order _ Hdef n)) as [s Es]; [by eapply list_elem_of_lookup_2 |].
  rewrite (def_step_lookup _ _ Es) in Hd.
  pose proof (dw_topo _ Hdef _ _ _ Hk Es d Hd) as Hin. by rewrite Eo, take_app_length in Hin.
Qed.

Lemma wp_sequential_loop names : forall pre w (Q : option werror -> World -> Prop),
  df_order def = pre ++ names -> running w -> (forall m, m ∈ pre -> done_status (status w m) = true) ->
  (forall r w', returns r w' -> Q r w') ->
  wp (executeSequential_loop E def opts names) Q w.
Proof.
  induction names as [|n rest IH]; intros pre w Q Eo Hr Hp HQ; cbn [executeSequential_loop].
  { apply wp_finish; [done | | done]. intros m Hm. apply Hp. by rewrite Eo, app_nil_r in Hm. }
  assert (n ∉ pre) as Hnp.
  { pose proof (dw_nodup _ Hdef) as Hnd. rewrite Eo in Hnd. apply NoDup_app in Hnd as (_ & Hx & _).
    intros Hin. apply (Hx n Hin). left. }
  assert (forall w', running w' -> done_status (status w' n) = true ->
    (forall m, m ∈ pre -> done_status (status w' m) = true) ->
    wp (executeSequential_loop E def opts rest) Q w') as Hnext.
  { intros w' Hr' Hn' Hp'. apply (IH (pre ++ [n])); [by rewrite <- app_assoc | done | | done].
    intros m [Hm|Hm%list_elem_of_singleton]%elem_of_app; [by apply Hp' | by subst m]. }
  apply wp_bind, calm_ctx. intros [err|] w1 C1.
  { apply wp_cancelled; [unfold running; by rewrite (cm_state _ _ C1) |].
    intros e w' Hok. by apply HQ, returns_error. }
  assert (running w1) as R1 by (unfold running; by rewrite (cm_state _ _ C1)).
  assert (forall m, m ∈ pre -> done_status (status w1 m) = true) as P1
    by (intros m Hm; rewrite (calm_status _ _ _ C1); by apply Hp).
  apply wp_bind, wp_prepare; [done | | |]; cbn [fst snd].
  - intros Hdone. by apply Hnext.
  - intros w2 O2 S2 Hnd.
    assert (forall m, m ∈ pre -> done_status (status w2 m) = true) as P2.
    { intros m Hm. rewrite (ot_status _ _ _ O2); [by apply P1 |]. by intros ->. }
    assert (running w2) as R2 by (unfold running; by rewrite (ot_state _ _ _ O2)).
    apply wp_bind, wp_gated_step; try done.
    + rewrite Eo. apply elem_of_app. right. left.
    + intros d Hd. apply P2. by eapply order_deps.
    + intros w3 O3 S3. apply Hnext; [unfold running; by rewrite (ot_state _ _ _ O3) | by rewrite S3 |].
      intros m Hm. rewrite (ot_status _ _ _ O3); [by apply P2 |]. by intros ->.
    + intros e w' Hok. by apply wp_ret, HQ, returns_error.
  - intros b e w' Hok. by apply wp_ret, HQ, returns_error.
Qed.

(** If a step is left, one is ready or stopped. *)
Lemma first_undone (done : gset string) :
  (size done < length (df_order def))%nat ->
  exists n, n ∈ df_order def /\ n ∉ done /\ forall d, d ∈ sd_DependsOn (def_step def n) -> d ∈ done.
Proof.
  intros Hs. assert (exists n, n ∈ df_order def /\ n ∉ done) as Hex.
  { destruct (decide (Forall (fun n => n ∈ done) (df_order def))) as [Hall|Hex].
    - exfalso. rewrite <- (size_list_to_set (C := gset string) (df_order def)) in Hs by apply (dw_nodup _ Hdef).
      assert (list_to_set (df_order def) ⊆ done) as Hsub.
      { intros n Hn%elem_of_list_to_set. rewrite Forall_forall in Hall. by apply Hall. }
      apply subseteq_size in Hsub. lia.
    - apply not_Forall_Exists in Hex; [|apply _]. apply Exists_exists in Hex as (n & ? & ?). eauto. }
  assert (forall pre rest, df_order def = pre ++ rest -> (forall d, d ∈ pre -> d ∈ done) ->
    (exists n, n ∈ rest /\ n ∉ done) ->
    exists n, n ∈ df_order def /\ n ∉ done /\ forall d, d ∈ sd_DependsOn (def_step def n) -> d ∈ done) as Hgo.
  { intros pre rest. revert pre. induction rest as [|x rest IH]; intros pre Eo Hp (n & Hn & Hnd).
    { by apply elem_of_nil in Hn. }
    destruct (decide (x ∈ done)) as [Hx|Hx].
    - apply (IH (pre ++ [x])); [by rewrite <- app_assoc | |].
      + intros d [Hd|Hd%list_elem_of_singleton]%elem_of_app; [by apply Hp | by subst d].
      + apply elem_of_cons in Hn as [->|Hn]; [done | eauto].
    - exists x. split; [rewrite Eo; apply elem_of_app; right; left |]. split; [done |].
      intros d Hd. apply Hp. by eapply order_deps. }
  apply (Hgo [] (df_order def)); [done | | done]. intros d Hd. by apply elem_of_nil in Hd.
Qed.

Lemma done_all (done : gset string) w :
  done_ok done w -> ~ (size done < length (df_order def))%nat -> all_done w.
Proof.
  intros Hd Hs n Hn. apply Hd.
  assert (done = list_to_set (df_order def)) as ->; [|by apply elem_of_list_to_set].
  apply set_subseteq_size_eq.
  - intros m Hm. apply elem_of_list_to_set. by apply Hd.
  - rewrite size_list_to_set by apply (dw_nodup _ Hdef). lia.
Qed.

Lemma wp_parallel_loop fuel : forall dn w (Q : option (option werror) -> World -> Prop),
  fair -> running w -> done_ok dn w -> (length (df_order def) <= fuel + size dn)%nat ->
  (forall r w', returns r w' -> Q (Some r) w') ->
  wp (parallel_loop E def opts fuel dn) Q w.
Proof.
  induction fuel as [|k IH]; intros dn w Q Hfair Hr Hd Hf HQ;
    cbn [parallel_loop]; destruct (decide (size dn < length (df_order def))%nat) as [Hlt|Hge];
    first [rewrite bool_decide_eq_true_2 by done | rewrite bool_decide_eq_false_2 by done].
  { lia. }
  { apply wp_bind, wp_finish; [done | by eapply done_all |]. intros r w' Hret. by apply wp_ret, HQ. }
  2: { apply wp_bind, wp_finish; [done | by eapply done_all |]. intros r w' Hret. by apply wp_ret, HQ. }
  apply wp_bind, calm_ctx. intros [err|] w1 C1.
  { apply wp_bind, wp_cancelled; [unfold running; by rewrite (cm_state _ _ C1) |].
    intros e w' Hok. by apply wp_ret, HQ, returns_error. }
  apply wp_bind, wp_collect_ready.
  - unfold running. by rewrite (cm_state _ _ C1).
  - intros m. rewrite (calm_status _ _ _ C1). apply Hd.
  - split; [constructor |]. intros n Hn. by apply elem_of_nil in Hn.
  - apply (dw_nodup _ Hdef).
  - intros n Hn. split; [done | apply not_elem_of_nil].
  - intros ready' w2 R2 DO2 RO2 _ _ Hc. destruct ready' as [|x ready'].
    + apply wp_bind, wp_stuck; [done | |].
      * destruct (first_undone dn Hlt) as (n & Hn & Hnd & Hdeps).
        exists n. split; [done |]. split; [done |]. destruct (Hc n Hn Hnd Hdeps) as [Hx|?]; [|done].
        by apply elem_of_nil in Hx.
      * intros e w' Hok. by apply wp_ret, HQ, returns_error.
    + apply wp_bind, wp_run_round; try done; cbn [fst snd].
      * intros dn' w3 R3 Hsub DO3 (n & Hn & Hn'). apply IH; try done.
        assert (size dn < size dn')%nat; [|lia].
        apply subset_size. split; [done |]. intros Hs. by apply Hn', Hs.
      * intros d e w' Hok. by apply wp_ret, HQ, returns_error.
  - intros d r e w' Hok. by apply wp_ret, HQ, returns_error.
Qed.

Lemma wp_validate_loop names : forall w (Q : option werror -> World -> Prop),
  in_State (w_inst w) = StateValidating ->
  (forall w', calm w w' -> Q None w') -> (forall e w', err_ok (Some e) -> Q (Some e) w') ->
  wp (validate_loop E def names) Q w.
Proof.
  induction names as [|n rest IH]; intros w Q Hs HQ He; cbn [validate_loop].
  { apply wp_ret, HQ. reflexivity. }
  destruct (ID_IsZero _); [by apply IH |]. apply wp_bind.
  apply wp_mono with (P := fun r w' => calm w w' /\ err_ok r).
  { unfold validateCaps, wp. destruct (en_resources E) as [get|]; cbn [fst snd].
    - split; [by apply rtc_once, es_quiet |]. split; [apply calm_push; by left |].
      destruct (get _ _) as [t|[caps ep]]; [|destruct (Require _ _)]; run_err.
    - split; [reflexivity |]. split; [reflexivity |]. case_bool_decide; run_err. }
  intros r w1 [C1 Hok]. destruct r as [e|].
  - apply wp_bind, wp_enter; [by rewrite (cm_state _ _ C1), Hs |]. intros w2 _ _ _ _ _ _. by apply wp_ret, He.
  - apply IH; [by rewrite (cm_state _ _ C1) | | done]. intros w2 C2. apply HQ. by etrans.
Qed.

(** The first write of a run, from any state. *)
Definition validating w : World := (set_State StateValidating w).1.

Lemma execute_wp w : fair ->
  esteps (validating w) (execute E def opts w).1 /\
  exists r, (execute E def opts w).2 = Some r /\ returns r (execute E def opts w).1.
Proof.
  intros Hfair. unfold execute.
  set (k := fun err : option werror => _).
  enough (wp (bind (persist E) k) (fun x w' => exists r, x = Some r /\ returns r w') (validating w)) as [H1 H2]
    by (exact (conj H1 H2)).
  apply wp_bind, wp_persist. intros r w1 C1 Hok _. unfold k. clear k. destruct r as [e|].
  { apply wp_ret. exists (Some e). split; [done | by apply returns_error]. }
  apply wp_bind, wp_validate_loop; [by rewrite (cm_state _ _ C1) | |].
  2: { intros e w' He. apply wp_ret. exists (Some e). split; [done | by apply returns_error]. }
  intros w2 C2. apply wp_bind, wp_enter; [by rewrite (cm_state _ _ C2), (cm_state _ _ C1) |].
  intros w3 S3 R3 _ _ _ _. destruct (hasParallel def).
  - apply wp_bind, wp_read, wp_parallel_loop; [done | done | | lia |].
    + intros m. unfold mark_done. rewrite elem_of_union, elem_of_list_to_set, list_elem_of_filter.
      fold (status w3 m). set_solver.
    + intros r w' Hret. by exists r.
  - apply wp_bind, (wp_sequential_loop (df_order def) []); [done | done | |].
    + intros m Hm. by apply elem_of_nil in Hm.
    + intros r w' Hret. apply wp_ret. by exists r.
Qed.
End Safety.
