(* ===== verification/WorkflowProps.v ===== *)
(** * Properties of workflow runs

    What follows from the abstract engine of [WorkflowSafety] for every run: which
    calls it makes and when, that it returns, which states it goes through, and
    that a step that must not be retried runs at most once over any number of
    crashes and resumes; then what a whole sequential run does. *)

From S2P Require Import Prelude GoStrings ResourceID Dependency WorkflowDef WorkflowStore WorkflowEngine WorkflowSafety.

(** ** The log of a run *)

Section Log.
Context {S : Type} `{WStore S} (E : Env) (def : Definition_) (opts : RunOptions).

Implicit Types (w : World) (n : string) (e : event).

(** A step of the abstract engine logs one event at most. *)
Lemma estep_log w w' : estep E def opts w w' ->
  w_log w' = w_log w \/ exists e, w_log w' = e :: w_log w.
Proof. destruct 1; simpl; eauto. Qed.

Lemma esteps_log w w' : rtc (estep E def opts) w w' -> exists l, w_log w' = l ++ w_log w.
Proof.
  induction 1 as [w|w1 w2 w3 H1 _ [l IH]]; [by exists [] |]. rewrite IH.
  destruct (estep_log _ _ H1) as [->|[e ->]]; [by exists l | exists (l ++ [e]); by rewrite <- app_assoc].
Qed.

(** A run cut at an event of its log is a run. *)
Lemma esteps_cut w w' l1 l0 :
  rtc (estep E def opts) w w' -> w_log w' = l1 ++ l0 ++ w_log w ->
  exists wi, rtc (estep E def opts) w wi /\ w_log wi = l0 ++ w_log w.
Proof.
  intros Hs. revert l1 l0. induction Hs as [w|w1 w2 w3 H1 Hs IH]; intros l1 l0 El.
  { exists w. split; [reflexivity |]. assert (l1 ++ l0 = []) as E0.
    { apply (f_equal length) in El. rewrite !length_app in El.
      apply length_zero_iff_nil. rewrite length_app. lia. }
    by apply app_eq_nil in E0 as [_ ->]. }
  destruct l0 as [|x l0 _] using rev_ind; [by exists w1 |].
  destruct (estep_log _ _ H1) as [E2|[e E2]].
  - destruct (IH l1 (l0 ++ [x])) as (wi & Hi & Ei); [by rewrite E2 |].
    exists wi. split; [by eapply rtc_l | by rewrite Ei, E2].
  - destruct (esteps_log _ _ Hs) as [l El2]. rewrite El2, E2 in El.
    assert (l = l1 ++ l0 /\ e = x) as [-> ->].
    { rewrite <- !app_assoc in El. simpl in El.
      replace (l1 ++ l0 ++ x :: w_log w1) with ((l1 ++ l0) ++ x :: w_log w1) in El by (by rewrite <- app_assoc).
      assert (length l = length (l1 ++ l0)) as Hlen
        by (apply (f_equal length) in El; rewrite !length_app in El; rewrite length_app; simpl in El; lia).
      apply app_inj_1 in El as [-> [= ->]]; done. }
    destruct (IH l1 l0) as (wi & Hi & Ei).
    { by rewrite El2, <- app_assoc. }
    exists wi. split; [by eapply rtc_l |]. by rewrite Ei, E2, <- app_assoc.
Qed.

(** ** Every call *)

(** What a call in the log was preceded by; [dry] is whether the run is dry. *)
Definition call_ok (dry : bool) (e : event) (older : list event) : Prop :=
  match e with
  | EvAct n f x steps _ =>
    dry = false /\ n ∈ df_order def /\ f = sd_Action (def_step def n) /\ ec_Step x = n /\
    ec_DryRun x = false /\ gate_passed E def n older /\
    (forall d, d ∈ sd_DependsOn (def_step def n) ->
       done_status (ss_Status (default step_zero (steps !! d))) = true) /\
    (exists cp, last_save older = Some cp /\ cp_status cp n = StepRunning)
  | EvComp n f x _ =>
    dry = false /\ sd_Compensate (def_step def n) = Some f /\ ec_Step x = n /\ ec_DryRun x = false /\
    gate_passed E def n older
  | EvGate b => exists g, en_lockdown E = Some g /\ b = g older
  | _ => True
  end.

Definition calls_ok (dry : bool) (log : list event) : Prop :=
  forall l1 e l0, log = l1 ++ e :: l0 -> call_ok dry e l0.

Lemma calls_ok_cons dry e log : call_ok dry e log -> calls_ok dry log -> calls_ok dry (e :: log).
Proof.
  intros He Hl [|x l1] e' l0 El; simplify_eq/=; [done |]. by apply (Hl l1).
Qed.

Lemma estep_calls dry w w' :
  estep E def opts w w' -> in_DryRun (w_inst w) = dry -> calls_ok dry (w_log w) ->
  in_DryRun (w_inst w') = dry /\ calls_ok dry (w_log w').
Proof.
  intros Hs Hd Hl. destruct Hs; simpl; (split; [done |]); try (by apply calls_ok_cons); try done.
  - apply calls_ok_cons; [|done]. by destruct e.
  - apply calls_ok_cons; [|done]. by exists g.
  - apply calls_ok_cons; [|done]. simpl. split; [congruence |]. repeat (split; [done |]). done.
  - apply calls_ok_cons; [|done]. simpl. split; [congruence |]. repeat (split; [done |]). done.
Qed.

Lemma esteps_calls dry w w' :
  rtc (estep E def opts) w w' -> in_DryRun (w_inst w) = dry -> calls_ok dry (w_log w) ->
  calls_ok dry (w_log w').
Proof.
  induction 1 as [w|w1 w2 w3 H1 _ IH]; intros Hd Hl; [done |].
  destruct (estep_calls dry _ _ H1 Hd Hl). by apply IH.
Qed.

(** ** States *)

(** The states a log shows the instance in, newest first. *)
Fixpoint states (log : list event) : list WState :=
  match log with
  | [] => []
  | EvState s :: t => s :: states t
  | _ :: t => states t
  end.

Lemma states_app l1 l2 : states (l1 ++ l2) = states l1 ++ states l2.
Proof. induction l1 as [|e l1 IH]; [done |]. destruct e; simpl; by rewrite ?IH. Qed.

(** Each state may follow the one before it, the oldest [s0]. *)
Fixpoint chain_from (s0 : WState) (l : list WState) : Prop :=
  match l with
  | [] => True
  | s :: t => CanTransition (default s0 (head t)) s = true /\ chain_from s0 t
  end.

(** Every save holds the state of the instance. *)
Definition saves_state (s0 : WState) (log : list event) : Prop :=
  forall l1 io t cp r l0, log = l1 ++ EvSave io t cp r :: l0 -> cp_State cp = default s0 (head (states l0)).

Record states_ok (s0 : WState) w : Prop := {
  so_cur : in_State (w_inst w) = default s0 (head (states (w_log w)));
  so_chain : chain_from s0 (states (w_log w));
  so_saves : saves_state s0 (w_log w) }.

Lemma saves_state_cons s0 e log :
  match e with EvSave _ _ cp _ => cp_State cp = default s0 (head (states log)) | _ => True end ->
  saves_state s0 log -> saves_state s0 (e :: log).
Proof.
  intros He Hl [|x l1] io t cp r l0 El; simplify_eq/=; [done |]. by eapply (Hl l1).
Qed.

Lemma estep_states s0 w w' : estep E def opts w w' -> states_ok s0 w -> states_ok s0 w'.
Proof.
  intros Hs [Hc Hch Hsv]. destruct Hs; split; simpl; try done; try (by apply saves_state_cons).
  - by destruct e.
  - by destruct e.
  - apply saves_state_cons; [by destruct e | done].
  - split; [by rewrite <- Hc | done].
Qed.

Lemma esteps_states s0 w w' : rtc (estep E def opts) w w' -> states_ok s0 w -> states_ok s0 w'.
Proof. induction 1; eauto using estep_states. Qed.

(** ** Steps that must not be retried *)

(** How often the step's action was called. *)
Fixpoint acts n (log : list event) : nat :=
  match log with
  | [] => 0
  | EvAct m _ _ _ _ :: t => (if bool_decide (m = n) then 1 else 0) + acts n t
  | _ :: t => acts n t
  end.

Lemma acts_cons_other n e log :
  match e with EvAct m _ _ _ _ => m ≠ n | _ => True end -> acts n (e :: log) = acts n log.
Proof. intros He. destruct e; simpl; try done. by rewrite bool_decide_eq_false_2. Qed.

Lemma acts_cons_act n f x st r log : acts n (EvAct n f x st r :: log) = Datatypes.S (acts n log).
Proof. simpl. by rewrite bool_decide_eq_true_2. Qed.

Definition touched (s : StepStatus) : bool :=
  match s with StepRunning | StepCompleted | StepFailed | StepReconcile => true | _ => false end.

(** The step is declared not retryable and has nothing to compensate it. *)
Definition once_only n : Prop :=
  sd_Idempotency (def_step def n) = NotRetryable /\ has_compensation def n = false.

(** What a run keeps of such a step: [t0] is whether it had run before. *)
Record once_inv n (t0 : bool) w : Prop := {
  oi_acts : (acts n (w_log w) + (if t0 then 1 else 0) <= 1)%nat;
  oi_armed : armed n (w_log w) = true ->
    touched (status w n) = true /\ acts n (w_log w) = 0%nat /\ t0 = false;
  oi_touched : t0 = true \/ (0 < acts n (w_log w))%nat -> touched (status w n) = true;
  oi_saved cp : t0 = true \/ (0 < acts n (w_log w))%nat -> last_save (w_log w) = Some cp ->
    touched (cp_status cp n) = true }.

Lemma touched_move n old new :
  once_only n -> may_move def opts n old new = true -> touched old = true -> touched new = true.
Proof.
  intros [Hm Hc]. unfold may_move, retry_running, retry_failed. rewrite Hc, Hm.
  rewrite (bool_decide_eq_true_2 (NotRetryable = NotRetryable)) by done. by destruct old, new.
Qed.

Lemma once_put n t0 m st w :
  once_inv n t0 w -> (m = n -> touched (status w n) = true -> touched (ss_Status st) = true) ->
  once_inv n t0 (put_step m st w).1.
Proof.
  intros [H1 H2 H3 H4] Hm.
  assert (touched (status w n) = true -> touched (status (put_step m st w).1 n) = true) as Hs.
  { intros Ht. rewrite put_step_status. destruct (bool_decide_reflect (n = m)) as [->|]; [by apply Hm | done]. }
  split; try done.
  - intros Ha. destruct (H2 Ha) as (T & A & Z). auto.
  - intros Ht. auto.
Qed.

Lemma once_push n t0 e w :
  match e with EvAct m _ _ _ _ | EvStart m => m ≠ n | EvSave _ _ _ _ => False | _ => True end ->
  once_inv n t0 w -> once_inv n t0 (push e w).
Proof.
  intros He [H1 H2 H3 H4].
  assert (acts n (e :: w_log w) = acts n (w_log w)) as Ea by (apply acts_cons_other; by destruct e).
  assert (armed n (e :: w_log w) = armed n (w_log w)) as Er
    by (destruct e; simpl; try done; by rewrite bool_decide_eq_false_2).
  assert (last_save (e :: w_log w) = last_save (w_log w)) as El by (by destruct e).
  split; simpl w_log; rewrite ?Ea, ?Er, ?El; auto.
Qed.

Lemma estep_once n t0 w w' :
  once_only n -> estep E def opts w w' -> once_inv n t0 w -> once_inv n t0 w'.
Proof.
  intros Hn Hs Hi. destruct Hs as [e w He|g w Hg|io t now w|s w Hc|m st w Hm|m now w Ho Hst Hd Hg
    |m at_ ep w Ho Hr Hd Hg Ha Hl Hdry|m st ep w Hr Hst Hok|m f at_ ep w Hst Hf Hg Hdry].
  - apply once_push; [by destruct e | done].
  - by apply once_push.
  - destruct Hi as [H1 H2 H3 H4]. split; try done. intros cp Ht [= <-]. by apply H3.
  - apply (once_push n t0 (EvState s)); [done |]. by destruct Hi.
  - apply once_put; [done |]. intros -> Ht. by eapply touched_move.
  - destruct (decide (m = n)) as [->|Hne].
    2: { apply (once_push n t0 (EvStart m)); [done |]. apply once_put; [done | by intros ->]. }
    destruct Hi as [H1 H2 H3 H4].
    assert (touched (status w n) = false) as Hnt by (by destruct (status w n)).
    assert (t0 = false /\ acts n (w_log w) = 0%nat) as [-> Ha0].
    { destruct t0; [rewrite H3 in Hnt by auto; done |]. split; [done |].
      destruct (acts n (w_log w)) eqn:Ea; [done |]. rewrite H3 in Hnt by (right; lia). done. }
    assert (acts n (EvStart n :: w_log w) = 0%nat) as Ea by (by rewrite acts_cons_other).
    assert (status (begin_step n now w).1 n = StepRunning) as Hs.
    { pose proof (put_step_status n (st_begin n now (step_of w n)) w n) as Hp.
      by rewrite bool_decide_eq_true_2 in Hp. }
    split; [simpl; lia | by rewrite Hs | by rewrite Hs | simpl; intros cp [?|?]; [done | lia]].
  - destruct (decide (m = n)) as [->|Hne]; [|by apply (once_push n t0 (EvAct m _ _ _ _))].
    destruct Hi as [H1 H2 H3 H4]. destruct (H2 Ha) as (T & A & ->). destruct Hl as (cp & Hl & Hcp).
    split; simpl w_log; rewrite acts_cons_act, A; [lia | simpl; by rewrite bool_decide_eq_true_2 | done |].
    intros cp' _ Hl'. simpl in Hl'. rewrite Hl in Hl'. simplify_eq. by rewrite Hcp.
  - assert (once_inv n t0 (put_step m st w).1) as Hi'.
    { apply once_put; [done |]. intros -> _. by rewrite Hst. }
    by destruct Hi'.
  - by apply (once_push n t0 (EvComp m _ _ _)).
Qed.

Lemma esteps_once n t0 w w' :
  once_only n -> rtc (estep E def opts) w w' -> once_inv n t0 w -> once_inv n t0 w'.
Proof. intros Hn. induction 1; eauto using estep_once. Qed.

(** ** What a crash leaves in the store *)

Fixpoint store_at (s0 : S) (log : list event) : S :=
  match log with
  | [] => s0
  | EvSave io t cp _ :: tl => (ws_Save io t cp (store_at s0 tl)).1
  | _ :: tl => store_at s0 tl
  end.

(** Every save succeeded, on a value the store can print. *)
Definition saved_ok (log : list event) : Prop :=
  Forall (fun e => match e with EvSave _ t cp r => r = None /\ ws_cp_ok (cp_at t cp) | _ => True end) log.

(** The store is what the saves made of [s0], and holds the last of them. *)
Record tracks (id : string) (s0 : S) w : Prop := {
  tr_id : cp_InstanceID (in_Checkpoint (w_inst w)) = id;
  tr_store : w_store w = store_at s0 (w_log w);
  tr_load : saved_ok (w_log w) -> ws_inv (w_store w) /\
    match last_save (w_log w) with
    | Some cp => cp_InstanceID cp = id /\ exists t, ws_Load (w_store w) id = inr (cp_at t cp)
    | None => w_store w = s0
    end }.

Lemma tracks_push id s0 e w :
  match e with EvSave _ _ _ _ => False | _ => True end -> tracks id s0 w -> tracks id s0 (push e w).
Proof.
  intros He [H1 H2 H3]. split; [done | simpl; by destruct e |].
  intros Hs. apply Forall_cons in Hs as [_ Hs]. destruct (H3 Hs). split; [done |]. simpl. by destruct e.
Qed.

Lemma estep_tracks id s0 w w' : estep E def opts w w' -> tracks id s0 w -> tracks id s0 w'.
Proof.
  intros Hs Ht. destruct Hs as [e w He|g w Hg|io t now w|s w Hc|m st w Hm|m now w Ho Hst Hd Hg
    |m at_ ep w Ho Hr Hd Hg Ha Hl Hdry|m st ep w Hr Hst Hok|m f at_ ep w Hst Hf Hg Hdry].
  - apply tracks_push; [by destruct e | done].
  - by apply tracks_push.
  - destruct Ht as [H1 H2 H3]. split; [done | simpl; by rewrite <- H2 |].
    intros Hs. simpl in Hs. apply Forall_cons in Hs as [[Hr Hok] Hs]. destruct (H3 Hs) as [Hi _].
    set (cp := cp_at now _) in *.
    destruct (ws_Save io t cp (w_store w)) as [s' r] eqn:Es. simpl in Hr. subst r.
    destruct (ws_save_load _ _ _ _ _ Hi Hok Es) as (Hi' & Hl & _).
    unfold save. fold cp. simpl. fold cp. rewrite Es. simpl.
    split; [done |]. split; [done |]. exists t. rewrite <- H1. exact Hl.
  - apply (tracks_push id s0 (EvState s)); [done |]. by destruct Ht.
  - by destruct Ht.
  - apply (tracks_push id s0 (EvStart m)); [done |]. by destruct Ht.
  - by apply (tracks_push id s0 (EvAct m _ _ _ _)).
  - by destruct Ht.
  - by apply (tracks_push id s0 (EvComp m _ _ _)).
Qed.

Lemma esteps_tracks id s0 w w' : rtc (estep E def opts) w w' -> tracks id s0 w -> tracks id s0 w'.
Proof. induction 1; eauto using estep_tracks. Qed.
End Log.

(** ** Lives of an instance

    A process starts a run, fresh or from what the store holds, and dies after some
    event of its log, or at its end; the next process opens the store again. *)
Section Lives.
Context {S : Type} `{WStore S} (def : Definition_) (Hdef : def_wf def).

(** The run that [Run] starts, and the events it may have logged when it dies. *)
Definition boot (E : Env) (opts : RunOptions) (i : Instance_) (s : S) : World :=
  (audit E opts "workflow.run" (df_Name def) "start" (mkW i s [])).1.

Definition cut (E : Env) (opts : RunOptions) (i : Instance_) (s : S) (l : list event) : Prop :=
  exists l1, w_log (execute E def opts (boot E opts i s)).1 = l1 ++ l.

(** [lives id n s k]: the store is [s] and the action of [n] was called [k] times. *)
Inductive lives (id n : string) : S -> nat -> Prop :=
| lives_fresh E opts s l err :
    fair E -> ws_inv s -> ws_Load s id = inl err ->
    cut E opts (fresh_inst id (df_Name def) opts) s l -> saved_ok l ->
    lives id n (store_at s l) (acts n l)
| lives_resume E opts s k cp l :
    lives id n s k -> fair E -> ws_Load (ws_reopen s) id = inr cp ->
    cut E opts (resumed_inst id cp) (ws_reopen s) l -> saved_ok l ->
    lives id n (store_at (ws_reopen s) l) (k + acts n l).

(** The boot log is at most the audit record. *)
Lemma boot_log E opts i s :
  w_inst (boot E opts i s) = i /\ w_store (boot E opts i s) = s /\
  (w_log (boot E opts i s) = [] \/ exists e, quiet e = true /\ w_log (boot E opts i s) = [e]).
Proof.
  unfold boot, audit. destruct (en_audit E); simpl; (split; [done |]; split; [done |]); [right | by left].
  eexists. split; [|reflexivity]. done.
Qed.

(** A cut run: nothing logged, or a run of the abstract engine. *)
Lemma cut_run E opts i s l :
  fair E -> cut E opts i s l ->
  exists w, w_log w = l /\ (w_inst w = i /\ w_store w = s /\ (l = [] \/ exists e, quiet e = true /\ l = [e]) \/
    rtc (estep E def opts) (validating (boot E opts i s)) w).
Proof.
  intros Hf (l1 & El). destruct (execute_wp E def opts Hdef (boot E opts i s) Hf) as [Hs _].
  destruct (boot_log E opts i s) as (Bi & Bs & Bl).
  destruct (esteps_log E def opts _ _ Hs) as [l2 El2]. simpl in El2.
  set (b := w_log (boot E opts i s)) in *.
  assert (l = [] \/ l = b \/ exists l0, l = l0 ++ EvState StateValidating :: b) as Hl.
  { rewrite El in El2.
    destruct (decide (length l <= length b)%nat) as [Hle|Hgt].
    - destruct Bl as [Eb|(e & _ & Eb)]; rewrite Eb in *; simpl in Hle.
      + left. destruct l; [done | simpl in Hle; lia].
      + destruct l as [|x [|? ?]]; [by left | right; left | simpl in Hle; lia].
        change (l2 ++ [EvState StateValidating; e]) with (l2 ++ [EvState StateValidating] ++ [e]) in El2.
        rewrite app_assoc in El2. by apply app_inj_2 in El2 as [_ ?].
    - right; right. apply app_eq_inv in El2 as [(k & E1 & E2)|(k & E1 & E2)]; [|by exists k].
      destruct k as [|x k]; [exists []; by rewrite E2 |].
      exfalso. injection E2 as _ E2. apply (f_equal length) in E2. rewrite length_app in E2. lia. }
  destruct Hl as [->|[->|[l0 ->]]].
  - exists (mkW i s []). split; [done |]. left. auto.
  - exists (boot E opts i s). split; [done |]. left. auto.
  - destruct (esteps_cut E def opts _ _ l1 l0 Hs) as (w & Hw & Ew); [by rewrite El |].
    exists w. split; [done |]. by right.
Qed.

Lemma tracks_boot E opts i s :
  ws_inv s -> tracks (cp_InstanceID (in_Checkpoint i)) s (validating (boot E opts i s)).
Proof.
  intros Hi. destruct (boot_log E opts i s) as (Bi & Bs & Bl).
  split; simpl; rewrite ?Bi, ?Bs; [done | |]; destruct Bl as [->|(e & Hq & ->)]; simpl; try done;
    by destruct e.
Qed.

(** What a life leaves: a consistent store; no call, or one, by a run that began
    with the step untouched, and then the store says so. *)
Lemma life_once E opts i s l n :
  once_only def n -> fair E -> ws_inv s -> cut E opts i s l -> saved_ok l ->
  let id := cp_InstanceID (in_Checkpoint i) in
  let t0 := touched (cp_status (in_Checkpoint i) n) in
  ws_inv (store_at s l) /\
  (acts n l + (if t0 then 1 else 0) <= 1)%nat /\
  (store_at s l = s /\ acts n l = 0%nat \/
   exists cp, ws_Load (store_at s l) id = inr cp /\ cp_InstanceID cp = id /\
     (t0 = true \/ (0 < acts n l)%nat -> touched (cp_status cp n) = true)).
Proof.
  intros Hn Hf Hi Hcut Hs id t0. destruct (cut_run E opts i s l Hf Hcut) as (w & Ew & Hw).
  destruct Hw as [(Wi & Ws & Hl)|Hw].
  { assert (store_at s l = s /\ acts n l = 0%nat) as [E1 E2]
      by (destruct Hl as [->|(e & Hq & ->)]; [done | by destruct e]).
    rewrite E1, E2. split; [done |]. split; [destruct t0; lia | by left]. }
  pose proof (esteps_tracks E def opts _ _ _ _ Hw (tracks_boot E opts i s Hi)) as [_ T2 T3].
  destruct (boot_log E opts i s) as (Bi & Bs & Bl).
  assert (once_inv n t0 (validating (boot E opts i s))) as Ho.
  { assert (acts n (w_log (validating (boot E opts i s))) = 0%nat /\
      armed n (w_log (validating (boot E opts i s))) = false /\
      last_save (w_log (validating (boot E opts i s))) = None) as (A1 & A2 & A3)
      by (simpl; destruct Bl as [->|(e & Hq & ->)]; [done | by destruct e]).
    split; rewrite ?A1, ?A2, ?A3; [destruct t0; lia | done | | done].
    intros [Ht|?]; [|lia]. unfold status, step_of. simpl. rewrite Bi. exact Ht. }
  pose proof (esteps_once E def opts n t0 _ _ Hn Hw Ho) as [O1 _ _ O4].
  rewrite Ew in *. rewrite <- T2. destruct (T3 Hs) as [T4 T5]. split; [done |]. split; [done |].
  destruct (last_save l) as [cp|] eqn:El.
  - right. destruct T5 as [Hid [t Hload]]. exists (cp_at t cp). split; [done |]. split; [done |].
    intros Ht. by apply (O4 cp Ht).
  - destruct (decide (acts n l = 0%nat)) as [Ha|Ha]; [by left |]. exfalso.
    pose proof (esteps_calls E def opts _ _ _ Hw eq_refl) as Hc. rewrite Ew in Hc.
    assert (calls_ok E def (in_DryRun (w_inst (validating (boot E opts i s))))
      (w_log (validating (boot E opts i s)))) as Hc0.
    { simpl. destruct Bl as [->|(e & Hq & ->)]; repeat (apply calls_ok_cons; [by try destruct e |]);
        by intros [|] ? ? ?. }
    specialize (Hc Hc0). clear -Ha El Hc. revert El Hc.
    induction l as [|e l IH]; [done |]. intros El Hc.
    assert (calls_ok E def (in_DryRun (w_inst (validating (boot E opts i s)))) l) as Hc'
      by (intros l1 e' l0 ->; by apply (Hc (e :: l1))).
    destruct e; simpl in *; try (by apply IH); try done.
    destruct (Hc [] _ l eq_refl) as (_ & _ & _ & _ & _ & _ & _ & (cp & Hl & _)). congruence.
Qed.

(** A life and a resumed one. *)
Lemma lives_two id n E opts s l err cp l' k :
  fair E -> ws_inv s -> ws_Load s id = inl err ->
  cut E opts (fresh_inst id (df_Name def) opts) s l -> saved_ok l ->
  ws_Load (ws_reopen (store_at s l)) id = inr cp ->
  cut E opts (resumed_inst id cp) (ws_reopen (store_at s l)) l' -> saved_ok l' ->
  (acts n l + acts n l')%nat = k ->
  lives id n (store_at (ws_reopen (store_at s l)) l') k.
Proof.
  intros Hf Hi Hl Hc Hs Hl2 Hc2 Hs2 <-.
  exact (lives_resume id n E opts (store_at s l) (acts n l) cp l'
    (lives_fresh id n E opts s l err Hf Hi Hl Hc Hs) Hf Hl2 Hc2 Hs2).
Qed.

(** The store after any number of lives. *)
Lemma lives_once id n s k :
  once_only def n -> lives id n s k ->
  ws_inv s /\ (k <= 1)%nat /\
  (forall cp, ws_Load s id = inr cp -> cp_InstanceID cp = id) /\
  (k = 1%nat -> exists cp, ws_Load s id = inr cp /\ touched (cp_status cp n) = true).
Proof.
  intros Hn. induction 1 as [E opts s l err Hf Hi Hl Hcut Hs|E opts s k cp l _ IH Hf Hl Hcut Hs].
  - destruct (life_once E opts _ s l n Hn Hf Hi Hcut Hs) as (I1 & I2 & I3).
    assert (touched (cp_status (in_Checkpoint (fresh_inst id (df_Name def) opts)) n) = false) as Ht0.
    { unfold cp_status. simpl. by rewrite lookup_empty. }
    rewrite Ht0 in *. simpl in *. split; [done |]. split; [lia |].
    destruct I3 as [[-> ->]|(cp & Hld & Hid & Hc)].
    + split; [|done]. intros cp. by rewrite Hl.
    + split; [intros cp'; rewrite Hld; by intros [= <-] |]. intros Hk. exists cp. split; [done |].
      apply Hc. right. lia.
  - destruct IH as (J1 & J2 & J3 & J4). rewrite (ws_reopen_load _ _ J1) in Hl.
    pose proof (J3 cp Hl) as Hid. pose proof (ws_reopen_inv _ J1) as Hri.
    destruct (life_once E opts _ _ l n Hn Hf Hri Hcut Hs) as (I1 & I2 & I3).
    simpl in I2, I3. rewrite Hid in I3. split; [done |].
    assert (k = 1%nat -> touched (cp_status cp n) = true) as Hk.
    { intros Hk. destruct (J4 Hk) as (cp' & Hl' & Ht). rewrite Hl in Hl'.
      by injection Hl' as ->. }
    assert (k + acts n l <= 1)%nat as Hle.
    { destruct k as [|[|k]]; [destruct (touched _); lia | rewrite Hk in I2 by done; lia | lia]. }
    split; [done |]. destruct I3 as [[-> Ha]|(cp' & Hld & Hid' & Hc)].
    + rewrite (ws_reopen_load _ _ J1). split; [done |]. intros Hk1. apply J4. lia.
    + split; [intros c; rewrite Hld; by intros [= <-] |]. intros Hk1. exists cp'. split; [done |].
      apply Hc. destruct k as [|k]; [right; lia | left; apply Hk; lia].
Qed.
End Lives.

(** ** Theorems *)

(** C18: the engine refines the abstract engine, and returns.  Whatever the
    environment answers, once the state is set to validating a run of a built
    definition, fresh or resumed, sequential or parallel, makes only the steps the
    abstract engine allows; it ends within its bound of rounds; an
    [ErrInvalidState] ("no ready steps") is never its own; and when it returns no
    error every step is done and the state is completed. *)
Theorem execute_refines {S} `{WStore S} (E : Env) def opts w :
  fair E -> def_wf def ->
  rtc (estep E def opts) (validating w) (execute E def opts w).1 /\
  exists r, (execute E def opts w).2 = Some r /\ returns def r (execute E def opts w).1.
Proof. intros Hf Hd. by apply execute_wp. Qed.

(** C19: what every call of a run was preceded by.  An action is only ever called in a
    run that is not dry, for a step of the definition all of whose dependencies are
    completed, compensated or skipped at that moment, after a save that shows it
    running, and if it mutates after the lockdown gate has answered that it does not
    block; a compensation is only called in a run that is not dry, for a step that
    declares it, after such an answer.  So while a gate always blocks, nothing that
    mutates is called. *)
Theorem run_calls_guarded {S} `{WStore S} (E : Env) def opts w :
  fair E -> def_wf def -> w_log w = [] ->
  let log := w_log (execute E def opts w).1 in
  calls_ok E def (in_DryRun (w_inst w)) log /\
  forall g, en_lockdown E = Some g -> (forall l, g l = true) ->
    forall e, e ∈ log -> match e with
    | EvAct n _ _ _ _ | EvComp n _ _ _ => sd_Mutates (def_step def n) = false
    | _ => True
    end.
Proof.
  intros Hf Hd Hl log. destruct (execute_wp E def opts Hd w Hf) as [Hs _].
  assert (calls_ok E def (in_DryRun (w_inst w)) log) as Hc.
  { apply (esteps_calls E def opts _ _ _ Hs eq_refl). simpl. rewrite Hl.
    apply calls_ok_cons; [done |]. by intros [|] ? ? ?. }
  split; [done |]. intros g Hg Hblock e He. apply list_elem_of_split in He as (l1 & l0 & El).
  assert (EvGate false ∉ l0) as Hno.
  { intros (l2 & l3 & E2)%list_elem_of_split. specialize (Hc (l1 ++ e :: l2) (EvGate false) l3).
    destruct Hc as (g' & Hg' & Hb); [by rewrite El, E2, <- app_assoc |].
    rewrite Hg in Hg'. injection Hg' as <-. by rewrite Hblock in Hb. }
  assert (forall n, gate_passed E def n l0 -> sd_Mutates (def_step def n) = false) as Hgate.
  { intros n [?|[?|?]]; [done | congruence | done]. }
  specialize (Hc l1 e l0 El). destruct e; try done; apply Hgate; by apply Hc.
Qed.

(** The states of a run.  Every state a run assigns may follow the one before it by
    [CanTransition], every save holds the state of that moment, and the first
    assignment is validating, which a new instance allows; but a resumed run assigns
    it from the terminal states too, which [CanTransition] forbids. *)
Theorem run_states {S} `{WStore S} (E : Env) def opts w :
  fair E -> def_wf def -> w_log w = [] ->
  states_ok StateValidating (execute E def opts w).1 /\
  last (states (w_log (execute E def opts w).1)) = Some StateValidating /\
  CanTransition StateCreated StateValidating = true /\
  forall s, Terminal s = true -> CanTransition s StateValidating = false.
Proof.
  intros Hf Hd Hl. destruct (execute_wp E def opts Hd w Hf) as [Hs _]. split; [|split; [|split; [done |]]].
  - apply (esteps_states E def opts _ _ _ Hs). split; simpl; rewrite ?Hl; try done.
    intros [|? [|? ?]] io t cp r l0 El; by simplify_eq/=.
  - destruct (esteps_log E def opts _ _ Hs) as [l El]. rewrite El, states_app. simpl. rewrite Hl.
    cbn [states]. apply last_snoc.
  - by intros [].
Qed.

(** C20: at most once over crashes.  An instance is started and then resumed any number
    of times, each process dying after any event of its log; if the saves that were
    made succeeded, the action of a step that is not retryable and has no
    compensation has been called at most once in all. *)
Theorem run_at_most_once {S} `{WStore S} def id n s k :
  def_wf def -> once_only def n -> lives def id n s k -> (k <= 1)%nat.
Proof. intros Hd Hn Hl. by apply (lives_once def Hd id n s k Hn Hl). Qed.

(** ** Witnesses *)

(** Every answer is the good one. *)
Definition calm_env : Env (S := MemoryStore) :=
  mkEnv (fun _ => 0) (fun _ => None) None None (fun _ => "") true
    (fun _ _ _ => (mkResult (mkWEvidence 0 "ok" "" ∅) false, None))
    (fun _ => tt) (fun _ => 0) (fun _ => None) (fun _ names => names).

(** The gate always blocks. *)
Definition locked_env : Env (S := MemoryStore) :=
  mkEnv (fun _ => 0) (fun _ => None) (Some (fun _ => true)) None (fun _ => "") true
    (fun _ _ _ => (mkResult (mkWEvidence 0 "ok" "" ∅) false, None))
    (fun _ => tt) (fun _ => 0) (fun _ => None) (fun _ names => names).

Definition opts_demo : RunOptions := mkRunOptions "run-1" false "" ∅ false.
Definition inst_demo : Instance_ := fresh_inst "run-1" "cutover" opts_demo.
Definition w_demo_run : World := mkW inst_demo (NewMemoryStore 4) [].

Lemma calm_fair : fair calm_env.
Proof. intros log names. reflexivity. Qed.

Lemma locked_fair : fair locked_env.
Proof. intros log names. reflexivity. Qed.

Lemma execute_refines_witness :
  def_wf wf_def /\ fair calm_env /\
  all_done wf_def (execute calm_env wf_def opts_demo w_demo_run).1 /\
  (execute calm_env wf_def opts_demo w_demo_run).2 = Some None.
Proof.
  split; [exact wf_def_wf |]. split; [exact calm_fair |].
  destruct (execute_refines calm_env wf_def opts_demo w_demo_run calm_fair wf_def_wf) as (_ & r & Er & _ & Hr).
  assert ((execute calm_env wf_def opts_demo w_demo_run).2 = Some None) as E by (vm_compute; reflexivity).
  split; [|exact E]. rewrite E in Er. injection Er as <-. apply (Hr eq_refl).
Defined.

Lemma run_calls_guarded_witness :
  calls_ok locked_env wf_def false (w_log (execute locked_env wf_def opts_demo w_demo_run).1) /\
  option_map (option_map (fun e => werror_is e werr.ErrLockdown))
    (execute locked_env wf_def opts_demo w_demo_run).2 = Some (Some true).
Proof.
  split; [|vm_compute; reflexivity].
  apply (run_calls_guarded locked_env wf_def opts_demo w_demo_run locked_fair wf_def_wf eq_refl).
Defined.

Lemma run_states_witness :
  states_ok StateValidating (execute locked_env wf_def opts_demo w_demo_run).1 /\
  states (w_log (execute locked_env wf_def opts_demo w_demo_run).1) =
    [StateLockedDown; StateRunning; StateValidating].
Proof.
  split; [|vm_compute; reflexivity].
  apply (run_states locked_env wf_def opts_demo w_demo_run locked_fair wf_def_wf eq_refl).
Defined.

(** The process dies right after the call of the last action; the run is resumed. *)
Definition log_demo : list event :=
  w_log (execute calm_env wf_def opts_demo
    (boot wf_def calm_env opts_demo (fresh_inst "run-1" (df_Name wf_def) opts_demo) (NewMemoryStore 4))).1.
Definition crash_log : list event := drop 7 log_demo.
Definition crash_store : MemoryStore := ws_reopen (store_at (NewMemoryStore 4) crash_log).
Definition cp_crash : Checkpoint :=
  match ws_Load crash_store "run-1" with inr cp => cp | inl _ => cp_zero end.
Definition log_resumed : list event :=
  w_log (execute calm_env wf_def opts_demo
    (boot wf_def calm_env opts_demo (resumed_inst "run-1" cp_crash) crash_store)).1.

Definition no_save_failed (log : list (event (S := MemoryStore))) : bool :=
  forallb (fun e => match e with EvSave _ _ _ (Some _) => false | _ => true end) log.

Lemma no_save_failed_ok log : no_save_failed log = true -> saved_ok log.
Proof.
  unfold no_save_failed. rewrite forallb_forall. intros Hf. apply Forall_forall. intros e He.
  apply list_elem_of_In in He. specialize (Hf e He). destruct e as [| | | | | |io t cp [r|]| | | |]; done.
Qed.

Lemma cut_suffix E opts (i : Instance_) (s : MemoryStore) k :
  cut wf_def E opts i s (drop k (w_log (execute E wf_def opts (boot wf_def E opts i s)).1)).
Proof. eexists (take k _). by rewrite take_drop. Qed.

Lemma cp_crash_loaded : ws_Load crash_store "run-1" = inr cp_crash.
Proof. vm_compute. reflexivity. Qed.

Lemma lives_demo : lives wf_def "run-1" "switch" (store_at crash_store log_resumed) 1.
Proof.
  apply (lives_two wf_def "run-1" "switch" calm_env opts_demo (NewMemoryStore 4) crash_log
    (WError "Store.Load" "" "" (WSentinel werr.ErrNotFound) "not found") cp_crash log_resumed 1).
  - exact calm_fair.
  - exact I.
  - reflexivity.
  - apply (cut_suffix calm_env opts_demo (fresh_inst "run-1" (df_Name wf_def) opts_demo) (NewMemoryStore 4) 7).
  - apply no_save_failed_ok. vm_compute. reflexivity.
  - exact cp_crash_loaded.
  - apply (cut_suffix calm_env opts_demo (resumed_inst "run-1" cp_crash) crash_store 0).
  - apply no_save_failed_ok. vm_compute. reflexivity.
  - vm_compute. reflexivity.
Qed.

Lemma run_at_most_once_witness :
  once_only wf_def "switch" /\
  lives wf_def "run-1" "switch" (store_at crash_store log_resumed) 1 /\ (1 <= 1)%nat.
Proof.
  assert (once_only wf_def "switch") as Hn by (split; vm_compute; reflexivity).
  split; [exact Hn |]. split; [exact lives_demo |].
  exact (run_at_most_once wf_def "run-1" "switch" _ 1 wf_def_wf Hn lives_demo).
Defined.

(** ** Two resumes that go wrong *)

(** Two steps: "charge" must not be retried and can be refunded, "ship" fails. *)
Definition refund_builder : Builder :=
  foldl (fun b op => bapply op b) (Define "order")
    [BStep "charge" (Some 1%N); BCompensate "charge" (Some 2%N); BIdempotency "charge" NotRetryable;
     BStep "ship" (Some 3%N); BDepend "ship" ["charge"]].
Definition refund_def : Definition_ :=
  match Build (elements (dom (bd_steps refund_builder))) refund_builder with
  | Some (inr d) => d | _ => mkDefinition "" ∅ [] end.

(** The action "ship" fails, everything else succeeds. *)
Definition ship_fails : Env (S := MemoryStore) :=
  mkEnv (fun _ => 0) (fun _ => None) None None (fun _ => "") false
    (fun _ f _ => (mkResult (mkWEvidence 0 "ok" "" ∅) false,
       if bool_decide (f = 3%N) then Some (GoError "no stock" false false) else None))
    (fun _ => tt) (fun _ => 0) (fun _ => None) (fun _ names => names).

Definition refund_log : list event :=
  w_log (execute ship_fails refund_def opts_demo
    (mkW (fresh_inst "run-1" "order" opts_demo) (NewMemoryStore 4) [])).1.

(** The instance a process that dies after [log] leaves behind, resumed. *)
Definition resume_from (log : list event) : World :=
  let s := store_at (NewMemoryStore 4) log in
  match MemoryStore_Load s "run-1" with
  | inr cp => mkW (resumed_inst "run-1" cp) s []
  | inl _ => mkW (fresh_inst "run-1" "order" opts_demo) s []
  end.

(** A compensation that is interrupted has its action run again: the step is left as
    compensating, which [prepareStepResume] treats like a step that never ran, even
    one that must not be retried. *)
Lemma interrupted_compensation_reruns :
  acts "charge" (drop 6 refund_log) = 1%nat /\
  acts "charge" (w_log (execute calm_env refund_def opts_demo (resume_from (drop 6 refund_log))).1) = 1%nat.
Proof. vm_compute. split; reflexivity. Qed.

(** A workflow that was rolled back completes when it is resumed, with the action of
    the compensated step not done again. *)
Lemma rolled_back_run_completes :
  let w := (execute calm_env refund_def opts_demo (resume_from refund_log)).1 in
  in_State (w_inst (execute ship_fails refund_def opts_demo
    (mkW (fresh_inst "run-1" "order" opts_demo) (NewMemoryStore 4) [])).1) = StateFailed /\
  in_State (w_inst w) = StateCompleted /\ acts "charge" (w_log w) = 0%nat /\
  status w "charge" = StepCompensated /\ status w "ship" = StepCompleted.
Proof. vm_compute. repeat split; reflexivity. Qed.

(** ** What a workflow run does

    The calls a run makes, in order: a sequential run that returns no error has
    called every action that was left, once and in the order of the definition,
    and it returns an error only if the environment reported a failure; a
    compensation calls the compensations of the completed steps in reverse. *)

Lemma list_filter_iff' {A} (P Q : A -> Prop) `{!forall x, Decision (P x), !forall x, Decision (Q x)} (l : list A) :
  (forall x, x ∈ l -> P x <-> Q x) -> filter P l = filter Q l.
Proof.
  induction l as [|x l IH]; intros Hpq; [done |]. rewrite !filter_cons, IH by (intros; apply Hpq; by right).
  specialize (Hpq x ltac:(left)). destruct (decide (P x)), (decide (Q x)); tauto.
Qed.

Lemma rev_reverse {A} (l : list A) : rev l = reverse l.
Proof. apply rev_alt. Qed.

Section Runs.
Context {S : Type} `{WStore S} (E : Env) (def : Definition_) (opts : RunOptions).

Implicit Types (w : World) (n : string).

(** The calls of a log, newest first: actions and compensations by step. *)
Inductive call := Act (n : string) | Comp (n : string).

Fixpoint calls (log : list event) : list call :=
  match log with
  | [] => []
  | EvAct n _ _ _ _ :: t => Act n :: calls t
  | EvComp n _ _ _ :: t => Comp n :: calls t
  | _ :: t => calls t
  end.

(** No failure was reported: the context is live, the gate open, the registry
    answers with enough, saves and actions succeed. *)
Definition clean_event (e : event) : Prop :=
  match e with
  | EvCtx r | EvSlot r => r = None
  | EvGate b => b = false
  | EvGet id ans => exists caps ep, ans = inr (caps, ep) /\
      forall n, n ∈ df_order def -> sd_ResourceID (def_step def n) = id ->
        Require caps (sd_RequiredCaps (def_step def n)) = None
  | EvSave _ _ _ r => r = None
  | EvAct _ _ _ _ r => failed r = false
  | _ => True
  end.

Definition clean (log : list event) : Prop := Forall clean_event log.

(** ** A plain logic of results *)

Definition post {A} (m : M A) (Q : A -> World -> Prop) w : Prop := Q (m w).2 (m w).1.

Lemma post_bind {A B} (m : M A) (k : A -> M B) Q w :
  post m (fun x w' => post (k x) Q w') w -> post (bind m k) Q w.
Proof. unfold post, bind. by destruct (m w). Qed.

Lemma post_ret {A} (x : A) (Q : A -> World -> Prop) w : Q x w -> post (ret x) Q w.
Proof. done. Qed.

Lemma post_mono {A} (m : M A) (P Q : A -> World -> Prop) w :
  post m P w -> (forall x w', P x w' -> Q x w') -> post m Q w.
Proof. unfold post. auto. Qed.

Abbreviation steps_of w := (cp_Steps (in_Checkpoint (w_inst w))).
Abbreviation completed_of w := (cp_CompletedSteps (in_Checkpoint (w_inst w))).

(** The log grows, and what is kept. *)
Definition grows w w' : Prop := exists l, w_log w' = l ++ w_log w.

#[global] Instance grows_preorder : PreOrder grows.
Proof.
  split; [intros w; by exists [] |]. intros w1 w2 w3 [l1 E1] [l2 E2]. exists (l2 ++ l1).
  by rewrite E2, E1, app_assoc.
Qed.

Lemma grows_clean w w' : grows w w' -> clean (w_log w') -> clean (w_log w).
Proof. intros [l ->] Hc. by apply Forall_app in Hc as [_ ?]. Qed.

Record frame w w' : Prop := {
  fr_grows : grows w w';
  fr_dry : in_DryRun (w_inst w') = in_DryRun (w_inst w);
  fr_steps : steps_of w' = steps_of w;
  fr_completed : completed_of w' = completed_of w;
  fr_calls : calls (w_log w') = calls (w_log w) }.

#[global] Instance frame_preorder : PreOrder frame.
Proof.
  split; [intros w; split; done |]. intros w1 w2 w3 [] []. split; [by etrans | congruence ..].
Qed.

Lemma frame_push e w :
  match e with EvAct _ _ _ _ _ | EvComp _ _ _ _ => False | _ => True end -> frame w (push e w).
Proof. intros He. split; try done; [by exists [e] | by destruct e]. Qed.

Definition framed {A} (m : M A) : Prop :=
  forall w (Q : A -> World -> Prop), (forall x w', frame w w' -> Q x w') -> post m Q w.

Lemma framed_clock : framed (clock E).
Proof. intros w Q HQ. apply HQ. by apply frame_push. Qed.

Lemma framed_audit a b c : framed (audit E opts a b c).
Proof. intros w Q HQ. apply HQ. unfold audit. destruct (en_audit E); [by apply frame_push | reflexivity]. Qed.

Lemma framed_epoch n : framed (lookup_epoch E def n).
Proof.
  intros w Q HQ. apply HQ. unfold lookup_epoch. destruct (ID_IsZero _); [reflexivity |].
  destruct (en_resources E); [by apply frame_push | reflexivity].
Qed.

Lemma framed_set_State s : framed (set_State s).
Proof. intros w Q HQ. apply HQ. split; try done. by exists [EvState s]. Qed.

Lemma framed_bind {A B} (m : M A) (k : A -> M B) : framed m -> (forall x, framed (k x)) -> framed (bind m k).
Proof.
  intros Hm Hk w Q HQ. apply post_bind, Hm. intros x w1 F1. apply Hk. intros y w2 F2. apply HQ. by etrans.
Qed.

Lemma framed_ret {A} (x : A) : framed (ret x).
Proof. intros w Q HQ. apply HQ. reflexivity. Qed.

(** A save: its answer is in the log. *)
Lemma post_persist w (Q : option werror -> World -> Prop) :
  (forall r w', frame w w' -> (clean (w_log w') -> r = None) -> Q r w') -> post (persist E) Q w.
Proof.
  intros HQ. apply post_bind, framed_clock. intros now w1 F1. unfold post. cbv zeta.
  destruct (ws_Save _ _ _ _) as [s' r] eqn:Es. apply HQ.
  - etrans; [exact F1 |]. split; try done. by eexists [_].
  - intros Hc. by apply Forall_cons in Hc as [? _].
Qed.

Lemma framed_persist : framed (persist E).
Proof. intros w Q HQ. apply post_persist. auto. Qed.

Lemma framed_enter s : framed (enter E s).
Proof.
  unfold enter. apply framed_bind; [apply framed_set_State |]. intros _.
  apply framed_bind; [apply framed_persist | intros; apply framed_ret].
Qed.

Lemma post_gate n w (Q : bool -> World -> Prop) :
  (forall b w', frame w w' -> (clean (w_log w') -> b = false) -> Q b w') -> post (gate E def n) Q w.
Proof.
  intros HQ. unfold gate. destruct (sd_Mutates _); [|apply HQ; [reflexivity | done]].
  unfold lockdown_blocks, post. destruct (en_lockdown E) as [g|]; [|apply HQ; [reflexivity | done]].
  apply HQ; [by apply frame_push |]. intros Hc. by apply Forall_cons in Hc as [? _].
Qed.

(** ** Compensation *)

(** Everything but step [n] and the log is kept. *)
Record keeps n w w' : Prop := {
  ke_grows : grows w w';
  ke_dry : in_DryRun (w_inst w') = in_DryRun (w_inst w);
  ke_steps m : m ≠ n -> steps_of w' !! m = steps_of w !! m }.

#[global] Instance keeps_preorder n : PreOrder (keeps n).
Proof.
  split; [intros w; split; done |]. intros w1 w2 w3 [A1 A2 A3] [B1 B2 B3].
  split; [by etrans | congruence |]. intros m Hm. by rewrite B3, A3.
Qed.

Lemma frame_keeps n w w' : frame w w' -> keeps n w w'.
Proof. intros []. split; [done | done |]. intros m _. congruence. Qed.

Lemma put_keeps n st w : keeps n w (put_step n st w).1.
Proof. split; [by exists [] | done |]. intros m Hm. simpl. by rewrite lookup_insert_ne. Qed.

Lemma status_lookup w n st : steps_of w !! n = Some st -> status w n = ss_Status st.
Proof. unfold status, step_of. by intros ->. Qed.

Lemma frame_status w w' n : frame w w' -> status w' n = status w n.
Proof. intros Hf. unfold status, step_of. by rewrite (fr_steps _ _ Hf). Qed.

Lemma keeps_status n m w w' : keeps n w w' -> m ≠ n -> status w' m = status w m.
Proof. intros Hk Hm. unfold status, step_of. by rewrite (ke_steps _ _ _ Hk). Qed.

Lemma post_compensate_step n f st w (Q : option werror -> World -> Prop) :
  in_DryRun (w_inst w) = false ->
  (forall called r w', keeps n w w' -> calls (w_log w') = (if called : bool then [Comp n] else []) ++ calls (w_log w) ->
     (r = None -> called = true /\ status w' n = StepCompensated) -> Q r w') ->
  post (compensate_step E def opts n f st) Q w.
Proof.
  intros Hdry HQ. unfold compensate_step. apply post_bind, post_gate. intros b w1 F1 _.
  destruct b. { apply post_ret, (HQ false); [by apply frame_keeps | by rewrite (fr_calls _ _ F1) | done]. }
  apply post_bind, framed_epoch. intros ep w2 F2. apply post_bind. unfold post at 1. cbn [fst snd].
  assert (frame w w2) as F by (by etrans). case_bool_decide.
  { apply post_ret, (HQ false); [by apply frame_keeps | by rewrite (fr_calls _ _ F) | done]. }
  apply post_bind. unfold post at 1. set (w3 := (put_step n _ w2).1).
  assert (keeps n w w3) as K3 by (etrans; [by apply frame_keeps | apply put_keeps]).
  apply post_bind, framed_persist. intros _ w4 F4. apply post_bind. unfold post at 1. cbn [fst snd].
  assert (keeps n w w4) as K4 by (etrans; [exact K3 | by apply frame_keeps]).
  assert (calls (w_log w4) = calls (w_log w)) as C4 by (rewrite (fr_calls _ _ F4); apply (fr_calls _ _ F)).
  rewrite (ke_dry _ _ _ K4), Hdry. apply post_bind. unfold post at 1, call_compensate. cbn [fst snd].
  set (x := exec_of _ _ _ _ _ _). set (r := en_call _ _ _ _). set (w5 := push (EvComp n f x r) w4).
  assert (keeps n w w5) as K5.
  { etrans; [exact K4 |]. split; [by exists [EvComp n f x r] | done | done]. }
  assert (calls (w_log w5) = [Comp n] ++ calls (w_log w)) as C5 by (simpl; by rewrite C4).
  destruct (failed r).
  - apply post_bind. unfold post at 1. apply post_bind, framed_audit. intros _ w7 F7.
    apply post_ret, (HQ true); [|by rewrite (fr_calls _ _ F7) | done].
    etrans; [exact K5 |]. etrans; [apply put_keeps | by apply frame_keeps].
  - apply post_bind, framed_clock. intros now w6 F6. apply post_bind. unfold post at 1.
    set (w7 := (put_step n _ w6).1). apply post_bind, framed_audit. intros _ w8 F8.
    apply post_bind, framed_persist. intros _ w9 F9. apply post_ret, (HQ true).
    + etrans; [exact K5 |]. etrans; [by apply frame_keeps |]. etrans; [apply put_keeps |].
      etrans; by apply frame_keeps.
    + rewrite (fr_calls _ _ F9), (fr_calls _ _ F8). change (calls (w_log w6) = [Comp n] ++ calls (w_log w)).
      by rewrite (fr_calls _ _ F6).
    + intros _. split; [done |]. rewrite (frame_status _ _ _ F9), (frame_status _ _ _ F8).
      unfold w7. rewrite put_step_status. by rewrite bool_decide_eq_true_2.
Qed.

(** The completed steps that are left to compensate, in the order they are tried. *)
Definition to_compensate w (names : list string) : list string :=
  filter (fun n => has_compensation def n = true /\ status w n ≠ StepCompensated) names.

Lemma post_compensate_loop names : forall w (Q : option werror -> World -> Prop),
  in_DryRun (w_inst w) = false -> NoDup names ->
  (forall k r w', grows w w' ->
     calls (w_log w') = rev (Comp <$> take k (to_compensate w names)) ++ calls (w_log w) ->
     (forall m, m ∉ names -> status w' m = status w m) ->
     (r = None -> k = length (to_compensate w names) /\
        forall n, n ∈ to_compensate w names -> status w' n = StepCompensated) -> Q r w') ->
  post (compensate_loop E def opts names) Q w.
Proof.
  induction names as [|n rest IH]; intros w Q Hdry Hnd HQ; cbn [compensate_loop].
  { apply post_ret, (HQ 0%nat); [reflexivity | done | done |]. intros _. split; [done |]. intros n Hn. by apply elem_of_nil in Hn. }
  apply NoDup_cons in Hnd as [Hn Hnd].
  assert (has_compensation def n = false \/ status w n = StepCompensated ->
    post (compensate_loop E def opts rest) Q w) as Hskip.
  { intros Hwhy. apply IH; try done. intros k r w' G1 C1 S1 R1.
    assert (to_compensate w (n :: rest) = to_compensate w rest) as Et.
    { unfold to_compensate. rewrite filter_cons. rewrite decide_False; [done |].
      intros [? ?]. destruct Hwhy; congruence. }
    apply (HQ k); rewrite ?Et; try done. intros m Hm. apply S1. set_solver. }
  unfold has_compensation in Hskip. destruct (df_steps def !! n) as [step|] eqn:En; [|by apply Hskip; left].
  destruct (sd_Compensate step) as [f|] eqn:Ef; [|by apply Hskip; left].
  apply post_bind. unfold post at 1. cbn [fst snd get_step]. fold (status w n).
  destruct (bool_decide_reflect (status w n = StepCompensated)) as [Hc|Hc]; [by apply Hskip; right |].
  assert (to_compensate w (n :: rest) = n :: to_compensate w rest) as Et.
  { unfold to_compensate. rewrite filter_cons, decide_True; [done |]. split; [|done].
    unfold has_compensation. by rewrite En, Ef. }
  apply post_bind, post_compensate_step; [done |]. intros called r w1 K1 C1 R1. destruct r as [e|].
  - destruct called.
    + apply post_ret, (HQ 1%nat); rewrite ?Et; try done; [apply K1 |]. intros m Hm.
      apply (keeps_status _ _ _ _ K1). set_solver.
    + apply post_ret, (HQ 0%nat); rewrite ?Et; try done; [apply K1 |]. intros m Hm.
      apply (keeps_status _ _ _ _ K1). set_solver.
  - destruct (R1 eq_refl) as [-> S1].
    assert (to_compensate w1 rest = to_compensate w rest) as Et1.
    { unfold to_compensate. apply list_filter_iff'. intros m Hm.
      rewrite (keeps_status _ _ _ _ K1); [done |]. by intros ->. }
    apply IH; [by rewrite (ke_dry _ _ _ K1) | done |]. intros k r w2 G2 C2 S2 R2.
    rewrite Et1 in *. apply (HQ (Datatypes.S k)); rewrite ?Et.
    + etrans; [apply K1 | done].
    + rewrite C2, C1. simpl. by rewrite <- app_assoc.
    + intros m Hm. apply not_elem_of_cons in Hm as [Hm1 Hm2]. rewrite S2 by done.
      by apply (keeps_status _ _ _ _ K1).
    + intros Hr. destruct (R2 Hr) as [-> Hall]. split; [done |].
      intros m [->|Hm]%elem_of_cons; [by rewrite S2 | by apply Hall].
Qed.

(** ** The log only grows *)

Definition grower {A} (m : M A) : Prop := forall w, grows w (m w).1.

Lemma framed_grower {A} (m : M A) : framed m -> grower m.
Proof. intros Hm w. apply (Hm w (fun _ w' => grows w w')). intros x w' F. apply F. Qed.

Lemma grower_bind {A B} (m : M A) (k : A -> M B) : grower m -> (forall x, grower (k x)) -> grower (bind m k).
Proof.
  intros Hm Hk w. unfold bind. specialize (Hm w). destruct (m w) as [w1 x]. simpl in *.
  etrans; [exact Hm | apply Hk].
Qed.

Lemma grower_read {A} (f : World -> A) : grower (fun w => (w, f w)).
Proof. intros w. reflexivity. Qed.

Lemma grower_put n st : grower (put_step n st).
Proof. intros w. by exists []. Qed.

Lemma grower_gate n : grower (gate E def n).
Proof. intros w. apply (post_gate n w (fun _ w' => grows w w')). intros b w' F _. apply F. Qed.

Lemma grower_call n f a b : grower (call_compensate E def opts n f a b).
Proof. intros w. by eexists [_]. Qed.

Ltac grow :=
  repeat first
    [ apply framed_grower, framed_persist | apply framed_grower, framed_enter
    | match goal with |- grower (bind _ _) => apply grower_bind; [|intros ?] end
    | apply grower_put | apply grower_gate | apply grower_call | apply grower_read
    | apply framed_grower, framed_ret | apply framed_grower, framed_clock
    | apply framed_grower, framed_audit | apply framed_grower, framed_epoch
    | match goal with
      | |- grower (if ?b then _ else _) => destruct b
      | |- grower match ?x with Some _ => _ | None => _ end => destruct x
      end ].

Lemma grower_compensate_step n f st : grower (compensate_step E def opts n f st).
Proof.
  unfold compensate_step. grow.
Qed.

Lemma grower_compensate_then after err : grower after -> grower (compensate_then E def opts after err).
Proof.
  intros Ha. unfold compensate_then, compensate. grow.
  - induction (rev _) as [|n rest IH]; simpl; [apply framed_grower, framed_ret |].
    destruct (df_steps def !! n) as [s|]; [|done]. destruct (sd_Compensate s); [|done].
    apply grower_bind; [apply grower_read | intros st]. case_bool_decide; [done |].
    apply grower_bind; [apply grower_compensate_step | intros [e|]; [apply framed_grower, framed_ret | done]].
  - done.
Qed.

Lemma grower_handleStepFailure n st r : grower (handleStepFailure E def opts n st r).
Proof.
  unfold handleStepFailure. grow; apply grower_compensate_then; grow.
Qed.

(** ** A sequential run *)

Lemma post_prepare n w (Q : bool * option werror -> World -> Prop) :
  (done_status (status w n) = true -> Q (true, None) w) ->
  (startable (status w n) = true -> Q (false, None) w) ->
  done_status (status w n) = true \/ startable (status w n) = true ->
  post (prepareStepResume E def opts n) Q w.
Proof.
  intros H1 H2 Hs. unfold prepareStepResume. apply post_bind. unfold post at 1. cbn [fst snd get_step].
  fold (status w n). destruct (status w n); simpl in *;
    try (by apply post_ret, H1); try (by apply post_ret, H2); by destruct Hs.
Qed.

(** What a step that succeeds changes. *)
Record ran n w w' : Prop := {
  ra_keeps : keeps n w w';
  ra_status : status w' n = StepCompleted;
  ra_completed : completed_of w' = completed_of w ++ [n];
  ra_calls : calls (w_log w') = Act n :: calls (w_log w) }.

Lemma post_runStep n w (Q : option werror -> World -> Prop) :
  in_DryRun (w_inst w) = false ->
  (forall w', ran n w w' -> Q None w') ->
  (forall e w', grows w w' -> ~ clean (w_log w') -> Q (Some e) w') ->
  post (runStep E def opts n) Q w.
Proof.
  intros Hdry HQ He. unfold runStep. apply post_bind, framed_clock. intros now w1 F1.
  apply post_bind. unfold post at 1. set (st := (begin_step n now w1).2). set (w2 := (begin_step n now w1).1).
  assert (keeps n w w2) as K2.
  { etrans; [by apply frame_keeps |]. split; [by exists [EvStart n] | done |]. intros m Hm. simpl.
    by rewrite lookup_insert_ne. }
  apply post_bind, framed_persist. intros _ w3 F3. apply post_bind, framed_epoch. intros ep w4 F4.
  assert (frame w2 w4) as F by (by etrans).
  assert (keeps n w w4) as K4 by (etrans; [exact K2 | by apply frame_keeps]).
  apply post_bind. unfold post at 1. cbn [fst snd]. rewrite (ke_dry _ _ _ K4), Hdry.
  apply post_bind. unfold post at 1, call_action. cbn [fst snd].
  set (x := exec_of _ _ _ _ _ _). set (r := en_call _ _ _ _).
  set (w5 := push (EvAct n _ x _ r) w4).
  assert (keeps n w w5) as K5 by (etrans; [exact K4 |]; split; [by eexists [_] | done | done]).
  destruct (failed r) eqn:Ef.
  - pose proof (grower_handleStepFailure n st r w5) as G. unfold post.
    assert (~ clean (w_log w5)) as Hnc.
    { intros Hc. apply Forall_cons in Hc as [Hc _]. simpl in Hc. congruence. }
    assert (exists e, (handleStepFailure E def opts n st r w5).2 = Some e) as [e ->].
    { unfold handleStepFailure, compensate_then. repeat (unfold bind; case_match; simplify_eq/=; eauto). }
    apply He; [etrans; [apply K5 | done] |]. intros Hc. by apply Hnc, (grows_clean _ _ G).
  - apply post_bind. unfold complete_step. apply post_bind, framed_clock. intros t w6 F6.
    apply post_bind. unfold post at 1. apply post_bind. unfold post at 1. cbn [fst snd].
    set (st' := st_evidence _ _). set (w7 := set_inst _ _).
    apply framed_audit. intros _ w8 F8. apply post_persist. intros res w9 F9 Hres.
    assert (frame w7 w9) as F79 by (by etrans).
    assert (ran n w w9) as Hran.
    { split.
      - etrans; [exact K5 |]. etrans; [by apply frame_keeps |]. etrans; [|by apply frame_keeps].
        split; [by exists [] | done |]. intros m Hm. simpl. by rewrite lookup_insert_ne.
      - rewrite (frame_status _ _ _ F79). unfold status, step_of. simpl. by rewrite lookup_insert_eq.
      - rewrite (fr_completed _ _ F79). simpl. rewrite (fr_completed _ _ F6). simpl.
        rewrite (fr_completed _ _ F). simpl. by rewrite (fr_completed _ _ F1).
      - rewrite (fr_calls _ _ F79). change (calls (w_log w6) = Act n :: calls (w_log w)).
        rewrite (fr_calls _ _ F6). simpl. rewrite (fr_calls _ _ F). simpl. by rewrite (fr_calls _ _ F1). }
    destruct res as [e|]; [|by apply HQ]. apply He; [apply Hran |].
    intros Hc. specialize (Hres Hc). done.
Qed.

(** The steps of [names] that are not done. *)
Definition left_to_do w (names : list string) : list string :=
  filter (fun n => done_status (status w n) = false) names.

Definition fresh_enough w (names : list string) : Prop :=
  forall n, n ∈ names -> done_status (status w n) = true \/ startable (status w n) = true.

Lemma left_to_do_cons w n names :
  left_to_do w (n :: names) =
  (if done_status (status w n) then [] else [n]) ++ left_to_do w names.
Proof. unfold left_to_do. rewrite filter_cons. destruct (done_status _); [|done]. by rewrite decide_False. Qed.

Lemma left_to_do_keeps w w' n names :
  (forall m, m ≠ n -> status w' m = status w m) -> n ∉ names -> left_to_do w' names = left_to_do w names.
Proof.
  intros Hk Hn. apply list_filter_iff'. intros m Hm. rewrite Hk; [done |]. by intros ->.
Qed.

Lemma post_gated_step n w (Q : option werror -> World -> Prop) :
  in_DryRun (w_inst w) = false ->
  (forall w', ran n w w' -> Q None w') ->
  (forall e w', grows w w' -> ~ clean (w_log w') -> Q (Some e) w') ->
  post (gated_step E def opts n) Q w.
Proof.
  intros Hdry HQ He. unfold gated_step. apply post_bind, post_gate. intros b w1 F1 Hb. destruct b.
  - unfold locked_down. apply post_bind, framed_enter. intros _ w2 F2. apply post_ret, He.
    + etrans; [apply F1 | apply F2].
    + intros Hc. apply (grows_clean _ _ (fr_grows _ _ F2)) in Hc. specialize (Hb Hc). done.
  - apply post_runStep; [by rewrite (fr_dry _ _ F1) | |].
    + intros w2 [K C1 C2 C3]. apply HQ. split; [|done | | ].
      * etrans; [by apply frame_keeps | done].
      * by rewrite C2, (fr_completed _ _ F1).
      * by rewrite C3, (fr_calls _ _ F1).
    + intros e w2 G. apply He. etrans; [apply F1 | done].
Qed.

Lemma post_sequential names : forall w (Q : option werror -> World -> Prop),
  in_DryRun (w_inst w) = false -> NoDup names -> fresh_enough w names ->
  (forall w', calls (w_log w') = rev (Act <$> left_to_do w names) ++ calls (w_log w) ->
     completed_of w' = completed_of w ++ left_to_do w names -> Q None w') ->
  (forall e w', ~ clean (w_log w') -> Q (Some e) w') ->
  post (executeSequential_loop E def opts names) Q w.
Proof.
  induction names as [|n rest IH]; intros w Q Hdry Hnd Hf HQ He; cbn [executeSequential_loop].
  { apply post_bind, framed_set_State. intros _ w1 F1. apply post_persist. intros r w2 F2 Hr.
    destruct r as [e|]; [apply He; intros Hc; by specialize (Hr Hc) |]. apply HQ.
    - by rewrite (fr_calls _ _ F2), (fr_calls _ _ F1).
    - rewrite (fr_completed _ _ F2), (fr_completed _ _ F1). by rewrite app_nil_r. }
  apply NoDup_cons in Hnd as [Hn Hnd]. apply post_bind. unfold post at 1. cbn [fst snd ctx_Err].
  set (w1 := push _ w). assert (frame w w1) as F1 by (by apply frame_push).
  destruct (en_ctx E (w_log w)) as [err|] eqn:Ectx.
  { unfold cancelled. apply post_bind, framed_enter. intros _ w2 F2. apply post_ret, He.
    intros Hc. apply (grows_clean _ _ (fr_grows _ _ F2)) in Hc. apply Forall_cons in Hc as [Hc _]. done. }
  assert (forall m, status w1 m = status w m) as S1 by (intros m; by apply frame_status).
  apply post_bind, post_prepare; rewrite ?S1; [| |by apply Hf; left]; cbn [fst snd].
  - intros Hd. apply IH; try done.
    + intros m Hm. rewrite S1. apply Hf. by right.
    + rewrite left_to_do_cons, Hd in HQ. simpl in HQ. done.
  - intros Hs. apply post_bind, post_gated_step; [done | |].
    + intros w2 R2. destruct (ra_keeps _ _ _ R2) as [G2 D2 K2].
      assert (forall m, m ≠ n -> status w2 m = status w m) as S2.
      { intros m Hm. by rewrite (keeps_status n m w1 w2 (ra_keeps _ _ _ R2) Hm), S1. }
      apply IH; [by rewrite D2 | done | | |done].
      * intros m Hm. rewrite S2; [apply Hf; by right |]. by intros ->.
      * rewrite (left_to_do_keeps w w2 n) by done. intros w3 C3 L3. apply HQ.
        -- rewrite C3, (ra_calls _ _ _ R2). rewrite left_to_do_cons, (startable_not_done _ Hs).
           simpl. by rewrite <- app_assoc.
        -- rewrite L3, (ra_completed _ _ _ R2), left_to_do_cons, (startable_not_done _ Hs).
           simpl. by rewrite <- app_assoc.
    + intros e w2 _ Hc. apply post_ret. by apply He.
Qed.

(** The registry is there when a step asks for capabilities. *)
Definition caps_checkable : Prop :=
  en_resources E = None -> forall n, n ∈ df_order def ->
  ID_IsZero (sd_ResourceID (def_step def n)) = true \/
  cap_flags (sd_RequiredCaps (def_step def n)) = cap_flags no_caps.

Lemma post_validate names : forall w (Q : option werror -> World -> Prop),
  caps_checkable -> (forall n, n ∈ names -> n ∈ df_order def) ->
  (forall w', frame w w' -> Q None w') -> (forall e w', ~ clean (w_log w') -> Q (Some e) w') ->
  post (validate_loop E def names) Q w.
Proof.
  induction names as [|n rest IH]; intros w Q Hcaps Hn HQ He; cbn [validate_loop].
  { apply post_ret, HQ. reflexivity. }
  assert (forall m, m ∈ rest -> m ∈ df_order def) as Hrest by (intros m Hm; apply Hn; by right).
  destruct (ID_IsZero _) eqn:Ez; [by apply IH |]. apply post_bind.
  apply post_mono with (P := fun r w' => frame w w' /\ (r ≠ None -> ~ clean (w_log w'))).
  { unfold validateCaps, post. destruct (en_resources E) as [get|] eqn:Er; cbn [fst snd].
    - split; [by apply frame_push |]. intros Hr Hc. apply Forall_cons in Hc as [(caps & ep & Ea & Hall) _].
      apply Hr. rewrite Ea. by rewrite (Hall n) by (by try (apply Hn; left)).
    - split; [reflexivity |]. intros Hr. exfalso. apply Hr.
      destruct (Hcaps Er n ltac:(apply Hn; left)) as [?|Hf]; [congruence |]. by rewrite bool_decide_eq_true_2. }
  intros r w1 [F1 Hr]. destruct r as [e|].
  - apply post_bind, framed_enter. intros _ w2 F2. apply post_ret, He. intros Hc.
    apply (grows_clean _ _ (fr_grows _ _ F2)) in Hc. by apply Hr.
  - apply IH; try done. intros w2 F2. apply HQ. by etrans.
Qed.

Lemma execute_sequential w :
  hasParallel def = false -> NoDup (df_order def) -> caps_checkable ->
  in_DryRun (w_inst w) = false -> fresh_enough w (df_order def) ->
  post (execute E def opts) (fun r w' =>
    (r = Some None -> calls (w_log w') = rev (Act <$> left_to_do w (df_order def)) ++ calls (w_log w) /\
       completed_of w' = completed_of w ++ left_to_do w (df_order def)) /\
    (clean (w_log w') -> r = Some None)) w.
Proof.
  intros Hseq Hnd Hcaps Hdry Hf. unfold execute. apply post_bind, framed_set_State. intros _ w1 F1.
  apply post_bind, post_persist. intros r w2 F2 Hr.
  destruct r as [e|]; [apply post_ret; split; [done |]; intros Hc; by specialize (Hr Hc) |].
  apply post_bind, post_validate; [done | done | |].
  2: { intros e w' Hnc. apply post_ret. split; [done |]. intros Hc. done. }
  intros w3 F3. apply post_bind, framed_enter. intros _ w4 F4. rewrite Hseq. apply post_bind.
  assert (frame w w4) as F by (etrans; [exact F1 |]; etrans; [exact F2 |]; by etrans).
  assert (forall m, status w4 m = status w m) as S4 by (intros m; by apply frame_status).
  assert (left_to_do w4 (df_order def) = left_to_do w (df_order def)) as El
    by (apply list_filter_iff'; intros m _; by rewrite S4).
  apply post_sequential; [by rewrite (fr_dry _ _ F) | done | intros m Hm; rewrite S4; by apply Hf | |].
  - rewrite El. intros w5 C5 L5. apply post_ret. split; [|done]. intros _.
    by rewrite C5, L5, (fr_calls _ _ F), (fr_completed _ _ F).
  - intros e w5 Hnc. apply post_ret. by split.
Qed.

Lemma compensate_post w :
  in_DryRun (w_inst w) = false -> NoDup (completed_of w) ->
  post (compensate E def opts) (fun r w' => exists k,
    calls (w_log w') = rev (Comp <$> take k (to_compensate w (rev (completed_of w)))) ++ calls (w_log w) /\
    (r = None -> k = length (to_compensate w (rev (completed_of w))) /\
      forall n, n ∈ to_compensate w (rev (completed_of w)) -> status w' n = StepCompensated) /\
    (forall m, m ∉ completed_of w -> status w' m = status w m)) w.
Proof.
  intros Hdry Hnd. unfold compensate. apply post_bind, framed_enter. intros _ w1 F1.
  apply post_bind. unfold post at 1. cbn [fst snd]. rewrite (fr_completed _ _ F1).
  assert (to_compensate w1 (rev (completed_of w)) = to_compensate w (rev (completed_of w))) as Et
    by (apply list_filter_iff'; intros m _; by rewrite (frame_status _ _ _ F1)).
  apply post_compensate_loop; [by rewrite (fr_dry _ _ F1) | by rewrite rev_reverse, reverse_Permutation |].
  rewrite Et. intros k r w2 _ C2 S2 R2. exists k. split; [by rewrite C2, (fr_calls _ _ F1) |].
  split; [done |]. intros m Hm. rewrite S2, (frame_status _ _ _ F1); [done |].
  by rewrite rev_reverse, elem_of_reverse.
Qed.
End Runs.

(** ** Theorems *)

(** A sequential run is exact.  Of a definition without parallel groups, started
    or resumed with every step done or not begun: when the run returns no error it
    has called, once each and in the order of the definition, exactly the actions of
    the steps that were not done, has called no compensation, and has recorded those
    steps as completed in that order; and it does return without error unless some
    answer of the environment was a failure. *)
Theorem sequential_run_exact {S} `{WStore S} (E : Env) def opts w :
  hasParallel def = false -> def_wf def -> caps_checkable E def ->
  in_DryRun (w_inst w) = false -> fresh_enough w (df_order def) ->
  let w' := (execute E def opts w).1 in
  let todo := left_to_do w (df_order def) in
  ((execute E def opts w).2 = Some None ->
     calls (w_log w') = rev (Act <$> todo) ++ calls (w_log w) /\
     cp_CompletedSteps (in_Checkpoint (w_inst w')) = cp_CompletedSteps (in_Checkpoint (w_inst w)) ++ todo) /\
  (clean def (w_log w') -> (execute E def opts w).2 = Some None).
Proof.
  intros Hseq Hd Hc Hdry Hf. apply (execute_sequential E def opts w Hseq (dw_nodup _ Hd) Hc Hdry Hf).
Qed.

(** C21: compensation undoes in reverse.  In a run that is not dry, [compensate] calls,
    from the last completed step to the first, the compensations of the completed
    steps that declare one and are not compensated yet: all of them, each once, when
    it succeeds, and then they are compensated; an initial part of them when it
    stops at an error.  Steps that are not among the completed keep their status. *)
Theorem compensate_reverse {S} `{WStore S} (E : Env) def opts w :
  in_DryRun (w_inst w) = false -> NoDup (cp_CompletedSteps (in_Checkpoint (w_inst w))) ->
  let todo := to_compensate def w (rev (cp_CompletedSteps (in_Checkpoint (w_inst w)))) in
  let w' := (compensate E def opts w).1 in
  exists k,
    calls (w_log w') = rev (Comp <$> take k todo) ++ calls (w_log w) /\
    ((compensate E def opts w).2 = None ->
       k = length todo /\ forall n, n ∈ todo -> status w' n = StepCompensated) /\
    (forall m, m ∉ cp_CompletedSteps (in_Checkpoint (w_inst w)) -> status w' m = status w m).
Proof.
  intros Hdry Hnd. apply (compensate_post E def opts w Hdry Hnd).
Qed.

(** The second of three steps fails; the first is compensated. *)
Definition failing_env : Env (S := MemoryStore) :=
  mkEnv (fun _ => 0) (fun _ => None) None None (fun _ => "") true
    (fun _ f _ => (mkResult (mkWEvidence 0 "ok" "" ∅) false,
       if bool_decide (f = 3%N) then Some (GoError "boom" false false) else None))
    (fun _ => tt) (fun _ => 0) (fun _ => None) (fun _ names => names).

Lemma sequential_run_exact_witness :
  calls (w_log (execute calm_env wf_def opts_demo w_demo_run).1) = [Act "switch"; Act "migrate"; Act "backup"] /\
  cp_CompletedSteps (in_Checkpoint (w_inst (execute calm_env wf_def opts_demo w_demo_run).1)) =
    ["backup"; "migrate"; "switch"] /\
  calls (w_log (execute failing_env wf_def opts_demo w_demo_run).1) =
    [Comp "migrate"; Act "switch"; Act "migrate"; Act "backup"].
Proof.
  assert (fresh_enough w_demo_run (df_order wf_def)) as Hf by (intros n _; right; reflexivity).
  assert (caps_checkable calm_env wf_def) as Hc.
  { intros _ n _. right. unfold def_step.
    destruct (df_steps wf_def !! n) as [s|] eqn:E; [|reflexivity].
    assert (map_Forall (fun _ s => cap_flags (sd_RequiredCaps s) = cap_flags no_caps) (df_steps wf_def)) as Hall
      by (apply (bool_decide_unpack _); vm_compute; exact I).
    exact (Hall n s E). }
  assert (hasParallel wf_def = false) as Hp by (vm_compute; reflexivity).
  destruct (sequential_run_exact calm_env wf_def opts_demo w_demo_run Hp wf_def_wf Hc eq_refl Hf) as [H1 _].
  destruct H1 as [H1 H2]; [vm_compute; reflexivity |].
  split; [exact H1 |]. split; [exact H2 |]. vm_compute. reflexivity.
Defined.

Definition w_after : World := (execute calm_env wf_def opts_demo w_demo_run).1.

Lemma compensate_reverse_witness :
  exists k, calls (w_log (compensate calm_env wf_def opts_demo w_after).1) =
    rev (Comp <$> take k ["migrate"]) ++ calls (w_log w_after) /\ k = 1%nat /\
  status (compensate calm_env wf_def opts_demo w_after).1 "migrate" = StepCompensated.
Proof.
  destruct (compensate_reverse calm_env wf_def opts_demo w_after) as (k & H1 & H2 & _);
    [vm_compute; reflexivity | apply (bool_decide_unpack _); vm_compute; exact I |].
  assert (to_compensate wf_def w_after (rev (cp_CompletedSteps (in_Checkpoint (w_inst w_after)))) = ["migrate"])
    as Et by (vm_compute; reflexivity).
  rewrite Et in H1, H2. destruct H2 as [Hk H2]; [vm_compute; reflexivity |].
  exists k. split; [exact H1 |]. split; [exact Hk |]. apply H2. left.
Defined.
