(* ===== verification/Signing.v ===== *)
(** * Signatures over canonical JSON ([security/signing/signing.go])

    Keys, the ring of trusted keys, canonical encoding, signing and verification.
    [crypto/ed25519] and [encoding/json] are parameters ([Ed25519], [JSONLib]); the
    one law asked of the signature scheme ([ed_sign_verifies]) is that the public
    half of a key pair accepts what the private half signs.  [normalize] is
    translated in full: a Go map is the list of its entries in the order a [range]
    happens to visit them.  Clock readings and random bytes are arguments.  The end of the file has keys and
    signatures as text. *)

From S2P Require Import Prelude GoStrings.
From stdpp Require Import sorting.
From Stdlib Require Import Ascii.

#[local] Open Scope Z_scope.

(** ** Data *)

Inductive sign_error :=
| ErrUnknownKey | ErrExpiredKey | ErrInvalidSig | ErrEmptyPayload | ErrDuplicateKeyID
| UnsupportedAlgorithm (alg : string) | InvalidKeyLength | JSONError.

Record Signature := mkSignature {
  sg_KeyID : string; sg_Algorithm : string; sg_Version : Z; sg_SignedAt : Time;
  sg_Sig : bytes }.

Record PublicKey := mkPublicKey {
  pk_ID : string; pk_Public : bytes; pk_CreatedAt : Time; pk_ExpiresAt : option Time;
  pk_Retired : bool }.

Record PrivateKey := mkPrivateKey {
  sk_ID : string; sk_Public : bytes; sk_Private : bytes; sk_CreatedAt : Time;
  sk_ExpiresAt : option Time }.

Definition AlgorithmEd25519 : string := "ed25519".

(** [ed25519.PublicKeySize] *)
Definition PublicKeySize : Z := 32.

(** [e != nil && t.After( *e )] *)
Definition past (t : Time) (e : option Time) : bool :=
  match e with Some u => After t u | None => false end.

Definition ValidAt (k : PublicKey) (t : Time) : bool :=
  if pk_Retired k then false else if past t (pk_ExpiresAt k) then false else true.

Definition PublicView (k : PrivateKey) : PublicKey :=
  mkPublicKey (sk_ID k) (sk_Public k) (sk_CreatedAt k) (sk_ExpiresAt k) false.

(** ** The ring of trusted keys *)

Abbreviation KeyRing := (gmap string PublicKey) (only parsing).

Definition NewKeyRing : KeyRing := ∅.

Fixpoint publicEqual (a b : bytes) : bool :=
  match a, b with
  | [], [] => true
  | x :: a, y :: b => bool_decide (x = y) && publicEqual a b
  | _, _ => false
  end.

Definition Ring_Add (k : PublicKey) (r : KeyRing) : KeyRing * option sign_error :=
  if bool_decide (Z.of_nat (length (pk_Public k)) ≠ PublicKeySize) then (r, Some InvalidKeyLength)
  else
    match r !! pk_ID k with
    | Some existing =>
      if negb (publicEqual (pk_Public existing) (pk_Public k)) then (r, Some ErrDuplicateKeyID)
      else (<[pk_ID k := k]> r, None)
    | None => (<[pk_ID k := k]> r, None)
    end.

Definition Ring_Retire (id : string) (r : KeyRing) : KeyRing :=
  match r !! id with
  | Some k => <[id := mkPublicKey (pk_ID k) (pk_Public k) (pk_CreatedAt k) (pk_ExpiresAt k) true]> r
  | None => r
  end.

Definition Ring_Remove (id : string) (r : KeyRing) : KeyRing := delete id r.

Definition Ring_Lookup (id : string) (r : KeyRing) : option PublicKey := r !! id.

Definition Ring_Len (r : KeyRing) : Z := Z.of_nat (size r).

Definition Ring_IDs (r : KeyRing) : list string := sort_strings (elements (dom r)).

(** ** JSON values and their normal form *)

(** What [json.Unmarshal] puts in an [any]; [Num] stands for [float64]. *)
Inductive any {Num : Type} :=
| ANull
| ABool (b : bool)
| ANum (x : Num)
| AString (s : string)
| AArray (l : list any)
| AObject (m : list (string * any)).
Arguments any : clear implicits.

(** [t[k]]: [nil] when the key is absent. *)
Fixpoint index {Num} (m : list (string * any Num)) (k : string) : any Num :=
  match m with
  | [] => ANull
  | (k', v) :: t => if bool_decide (k' = k) then v else index t k
  end.

(** [normalize] never fails: its error result is always [nil]. *)
Fixpoint normalize {Num} (v : any Num) : any Num :=
  match v with
  | AObject t =>
    let keys := sort_strings (map fst t) in
    let normalized := map (fun kv => (kv.1, normalize kv.2)) t in
    AObject ((fun k => (k, index normalized k)) <$> keys)
  | AArray t => AArray (map normalize t)
  | t => t
  end.

(** ** Normal forms *)

Section NormalForms.
Context {Num : Type}.
Implicit Types (v w : any Num) (m : list (string * any Num)).

(** Structural induction, the elements of arrays and objects included. *)
Lemma any_induction (P : any Num -> Prop) :
  P ANull -> (forall b, P (ABool b)) -> (forall x, P (ANum x)) -> (forall s, P (AString s)) ->
  (forall l, Forall P l -> P (AArray l)) ->
  (forall m, Forall (fun kv => P kv.2) m -> P (AObject m)) ->
  forall v, P v.
Proof.
  intros H1 H2 H3 H4 H5 H6. fix IH 1. intros [|b|x|s|l|m]; [done | done | done | done | |].
  - apply H5. induction l as [|a l IHl]; constructor; [apply IH | exact IHl].
  - apply H6. induction m as [|[k a] m IHm]; constructor; [apply IH | exact IHm].
Qed.

(** No object of the value has a key twice: the value is one of Go. *)
Fixpoint keys_once (v : any Num) : bool :=
  match v with
  | AObject m => bool_decide (NoDup m.*1) && forallb (fun kv => keys_once kv.2) m
  | AArray l => forallb keys_once l
  | _ => true
  end.

(** Equality of values of Go: maps are equal when they have the same keys with
    equal values. *)
Inductive same : any Num -> any Num -> Prop :=
| same_null : same ANull ANull
| same_bool b : same (ABool b) (ABool b)
| same_num x : same (ANum x) (ANum x)
| same_string s : same (AString s) (AString s)
| same_array l l' :
    length l = length l' ->
    (forall i a b, l !! i = Some a -> l' !! i = Some b -> same a b) ->
    same (AArray l) (AArray l')
| same_object m m' :
    (forall k, k ∈ m.*1 <-> k ∈ m'.*1) ->
    (forall k, k ∈ m.*1 -> same (index m k) (index m' k)) ->
    same (AObject m) (AObject m').

Lemma index_elem m k : k ∈ m.*1 -> exists v, (k, v) ∈ m /\ index m k = v.
Proof.
  induction m as [|[k' v] m IH]; cbn [fmap list_fmap index fst].
  { by intros ?%elem_of_nil. }
  case_bool_decide as Hk; [subst; intros _; exists v; split; [left | done] |].
  intros [->|Hin]%elem_of_cons; [done |]. destruct (IH Hin) as (w & Hw & Ew).
  exists w. split; [by right | done].
Qed.

Lemma index_normalize m k : k ∈ m.*1 ->
  index (map (fun kv => (kv.1, normalize kv.2)) m) k = normalize (index m k).
Proof.
  induction m as [|[k' v] m IH]; cbn [fmap list_fmap index fst map snd].
  { by intros ?%elem_of_nil. }
  case_bool_decide; [done |]. intros [->|Hin]%elem_of_cons; [done | auto].
Qed.

Lemma index_pairs (f : string -> any Num) l k : k ∈ l -> index ((fun k => (k, f k)) <$> l) k = f k.
Proof.
  induction l as [|k' l IH]; cbn [fmap list_fmap index]; [by intros ?%elem_of_nil |].
  case_bool_decide as Hk; [by subst | intros [->|Hin]%elem_of_cons; [done | auto]].
Qed.

Lemma fst_pairs (f : string -> any Num) l : ((fun k => (k, f k)) <$> l).*1 = l.
Proof. rewrite <- list_fmap_compose. apply list_fmap_id. Qed.

Lemma keys_once_index m k :
  k ∈ m.*1 -> keys_once (AObject m) = true -> keys_once (index m k) = true.
Proof.
  intros (v & Hin & ->)%index_elem [_ Hall]%andb_true_iff.
  rewrite forallb_forall in Hall. apply (Hall (k, v)). by apply list_elem_of_In.
Qed.

#[global] Instance same_refl : Reflexive same.
Proof.
  intros v. induction v as [| | | |l IH|m IH] using any_induction; try constructor; try done.
  - intros i a b Ha Hb. simplify_eq. by eapply Forall_lookup_1 in IH.
  - intros k (v & Hin & ->)%index_elem. rewrite Forall_forall in IH. by apply (IH (k, v)).
Qed.

#[global] Instance same_sym : Symmetric same.
Proof.
  induction 1; constructor; eauto.
  - intros k. by symmetry.
  - set_solver.
Qed.

#[global] Instance same_trans : Transitive same.
Proof.
  intros u v w H. revert w. induction H as [| | | |l l' Hl H IH|m m' Hk H IH]; intros w Hw;
    inversion Hw as [| | | |? ? Hl' Hw'|? ? Hk' Hw']; subst; constructor; try congruence.
  - intros i a b Ha Hb. destruct (lookup_lt_is_Some_2 l' i) as [c Hc].
    { rewrite <- Hl. by eapply lookup_lt_Some. }
    eapply IH; [exact Ha | exact Hc |]. by eapply Hw'.
  - set_solver.
  - intros k Hin. eapply IH; [done |]. apply Hw'. by apply Hk.
Qed.

Lemma same_normalize v : same v (normalize v).
Proof.
  induction v as [| | | |l IH|m IH] using any_induction; cbn [normalize]; try constructor.
  - by rewrite length_map.
  - intros i a b Ha Hb. rewrite (list_lookup_fmap normalize l), Ha in Hb. simplify_eq/=.
    by eapply Forall_lookup_1 in IH.
  - intros k. rewrite fst_pairs. by rewrite elem_of_sort.
  - intros k Hin. rewrite index_pairs by by apply elem_of_sort.
    rewrite index_normalize by done. destruct (index_elem m k Hin) as (v & Hv & ->).
    rewrite Forall_forall in IH. by apply (IH (k, v)).
Qed.

Lemma normalize_same v w :
  same v w -> keys_once v = true -> keys_once w = true -> normalize v = normalize w.
Proof.
  induction 1 as [| | | |l l' Hl H IH|m m' Hk H IH]; intros Hv Hw; try done; cbn [normalize].
  - f_equal. apply list_eq_same_length with (n := length l); [rewrite length_map; congruence .. |].
    intros i x y _ Hx Hy.
    rewrite (list_lookup_fmap normalize) in Hx, Hy.
    apply fmap_Some in Hx as (a & Ha & ->). apply fmap_Some in Hy as (b & Hb & ->).
    cbn [keys_once] in Hv, Hw. rewrite forallb_forall in Hv, Hw.
    apply (IH i); [done | done | apply Hv | apply Hw];
      apply list_elem_of_In; by eapply list_elem_of_lookup_2.
  - pose proof Hv as [Nv%bool_decide_eq_true _]%andb_true_iff.
    pose proof Hw as [Nw%bool_decide_eq_true _]%andb_true_iff.
    f_equal. rewrite (sort_perm (map fst m) (map fst m')) by (by apply NoDup_Permutation).
    apply list_fmap_ext. intros i k Hi%list_elem_of_lookup_2.
    assert (k ∈ m'.*1) as Hm' by exact (proj1 (elem_of_sort _ _) Hi).
    assert (k ∈ m.*1) as Hm by by apply Hk.
    f_equal. rewrite !index_normalize by done.
    apply IH; [done | by eapply keys_once_index ..].
Qed.

(** [CanonicalJSON]'s normal form is canonical: two JSON values that hold the
    same data have the same normal form whatever order their maps are visited in,
    values that differ have different ones, and normalising loses nothing. *)
Theorem normalize_canonical v w :
  keys_once v = true -> keys_once w = true ->
  (normalize v = normalize w <-> same v w) /\ same v (normalize v).
Proof.
  intros Hv Hw. split; [|apply same_normalize]. split.
  - intros E. rewrite (same_normalize v), (same_normalize w), E. reflexivity.
  - intros H. by apply normalize_same.
Qed.

End NormalForms.

(** ** Parameters *)

(** [encoding/json]: reading into an [any] and printing one. *)
Class JSONLib (Num : Type) := {
  json_Unmarshal : bytes -> option (any Num);
  json_Marshal : any Num -> option bytes }.

Class Ed25519 := {
  ed_pair : bytes -> bytes -> Prop;  (** public and private half of one key *)
  ed_Sign : bytes -> bytes -> bytes;
  ed_Verify : bytes -> bytes -> bytes -> bool;
  ed_sign_verifies pub priv m :
    ed_pair pub priv -> ed_Verify pub m (ed_Sign priv m) = true }.

(** ** Signing and verifying *)

Section Signing.
Context {Num : Type} {J : JSONLib Num} {ED : Ed25519}.

Definition canonicalizeJSON (raw : bytes) : sign_error + bytes :=
  match json_Unmarshal raw with
  | None => inl JSONError
  | Some v =>
    let norm := normalize v in
    match json_Marshal norm with None => inl JSONError | Some buf => inr buf end
  end.

(** [marshal] is [json.Marshal] at the type of the value. *)
Definition CanonicalJSON {V} (marshal : V -> option bytes) (v : V) : sign_error + bytes :=
  match marshal v with None => inl JSONError | Some raw => canonicalizeJSON raw end.

Definition HashPayload {V Hash} (Sum256 : bytes -> Hash) (marshal : V -> option bytes) (v : V)
  : sign_error + Hash :=
  match CanonicalJSON marshal v with inl e => inl e | inr b => inr (Sum256 b) end.

Definition SignBytes (now : Time) (key : PrivateKey) (payload : bytes) : sign_error + Signature :=
  if bool_decide (payload = []) then inl ErrEmptyPayload
  else if past now (sk_ExpiresAt key) then inl ErrExpiredKey
  else inr (mkSignature (sk_ID key) AlgorithmEd25519 1 now (ed_Sign (sk_Private key) payload)).

Definition SignCanonical {V} (marshal : V -> option bytes) (now : Time) (key : PrivateKey) (v : V)
  : sign_error + (Signature * bytes) :=
  match CanonicalJSON marshal v with
  | inl e => inl e
  | inr payload =>
    match SignBytes now key payload with inl e => inl e | inr sig => inr (sig, payload) end
  end.

Definition VerifyBytes (now : Time) (keys : option KeyRing) (payload : bytes) (sig : Signature)
  : option sign_error :=
  match keys with
  | None => Some ErrUnknownKey
  | Some keys =>
    if bool_decide (payload = []) then Some ErrEmptyPayload
    else if negb (bool_decide (sg_Algorithm sig = "")) &&
            negb (bool_decide (sg_Algorithm sig = AlgorithmEd25519))
    then Some (UnsupportedAlgorithm (sg_Algorithm sig))
    else
      match Ring_Lookup (sg_KeyID sig) keys with
      | None => Some ErrUnknownKey
      | Some pk =>
        let at_ := if IsZero (sg_SignedAt sig) then now else sg_SignedAt sig in
        if negb (ValidAt pk at_) then Some ErrExpiredKey
        else if negb (ed_Verify (pk_Public pk) payload (sg_Sig sig)) then Some ErrInvalidSig
        else None
      end
  end.

Definition VerifyCanonical {V} (marshal : V -> option bytes) (now : Time) (keys : option KeyRing)
  (v : V) (sig : Signature) : option sign_error :=
  match CanonicalJSON marshal v with
  | inl e => Some e
  | inr payload => VerifyBytes now keys payload sig
  end.

(** *** What an accepted signature implies *)

Lemma VerifyBytes_sound now keys payload sig :
  VerifyBytes now keys payload sig = None ->
  exists r pk, keys = Some r /\ r !! sg_KeyID sig = Some pk /\ pk_Retired pk = false /\
    ed_Verify (pk_Public pk) payload (sg_Sig sig) = true.
Proof.
  unfold VerifyBytes. destruct keys as [r|]; [|done]. repeat case_bool_decide; simpl; try done;
    unfold Ring_Lookup; destruct (r !! sg_KeyID sig) as [pk|] eqn:E; try done;
    unfold ValidAt; destruct (pk_Retired pk) eqn:Er; try done;
    (destruct (past _ _); [done |]); (destruct (ed_Verify _ _ _) eqn:Ev; [|done]); eauto 6.
Qed.

Lemma VerifyCanonical_sound {V} (marshal : V -> option bytes) now keys v sig :
  VerifyCanonical marshal now keys v sig = None ->
  exists payload r pk, CanonicalJSON marshal v = inr payload /\ keys = Some r /\
    r !! sg_KeyID sig = Some pk /\ pk_Retired pk = false /\
    ed_Verify (pk_Public pk) payload (sg_Sig sig) = true.
Proof.
  unfold VerifyCanonical. destruct (CanonicalJSON marshal v) as [e|payload]; [done |].
  intros (r & pk & Hs)%VerifyBytes_sound. exists payload, r, pk. tauto.
Qed.

End Signing.

(** ** Histories of a ring *)

Inductive ring_op := RAdd (k : PublicKey) | RRetire (id : string) | RRemove (id : string).

Definition ring_step (r : KeyRing) (op : ring_op) : KeyRing :=
  match op with
  | RAdd k => (Ring_Add k r).1
  | RRetire id => Ring_Retire id r
  | RRemove id => Ring_Remove id r
  end.

Abbreviation ring_run := (foldl ring_step) (only parsing).

Lemma publicEqual_eq a b : publicEqual a b = true <-> a = b.
Proof.
  revert b. induction a as [|x a IH]; intros [|y b]; simpl; try done.
  rewrite andb_true_iff, bool_decide_eq_true, IH. naive_solver.
Qed.

(** The ring after one operation, at a name. *)
Lemma ring_step_lookup r op id :
  ring_step r op !! id = r !! id \/
  (exists k, op = RAdd k /\ pk_ID k = id /\ ring_step r op !! id = Some k /\
     (forall k0, r !! id = Some k0 -> pk_Public k0 = pk_Public k)) \/
  (exists k0, op = RRetire id /\ r !! id = Some k0 /\
     ring_step r op !! id = Some (mkPublicKey (pk_ID k0) (pk_Public k0) (pk_CreatedAt k0) (pk_ExpiresAt k0) true)) \/
  (op = RRemove id /\ ring_step r op !! id = None).
Proof.
  destruct op as [k|j|j]; cbn [ring_step].
  - unfold Ring_Add. case_bool_decide; [by left |].
    destruct (r !! pk_ID k) as [k0|] eqn:E.
    + destruct (publicEqual (pk_Public k0) (pk_Public k)) eqn:Eq; [|by left]. simpl.
      destruct (decide (pk_ID k = id)) as [<-|Hn]; [|left; by rewrite lookup_insert_ne].
      right; left. exists k. rewrite lookup_insert_eq. repeat split; [done..|].
      intros k1 E1. rewrite E in E1. injection E1 as <-. by apply publicEqual_eq.
    + simpl. destruct (decide (pk_ID k = id)) as [<-|Hn]; [|left; by rewrite lookup_insert_ne].
      right; left. exists k. rewrite lookup_insert_eq. repeat split; [done..|]. congruence.
  - unfold Ring_Retire. destruct (r !! j) as [k0|] eqn:E; [|by left].
    destruct (decide (j = id)) as [->|Hn]; [|left; by rewrite lookup_insert_ne].
    right; right; left. exists k0. by rewrite lookup_insert_eq.
  - unfold Ring_Remove. destruct (decide (j = id)) as [->|Hn]; [|left; by rewrite lookup_delete_ne].
    do 3 right. by rewrite lookup_delete_eq.
Qed.

(** A key identifier stays bound to its key material: whatever is added or
    retired afterwards, the identifier answers with the same public key; only
    removing it frees it. *)
Theorem ring_pinned ops r id pk :
  r !! id = Some pk -> RRemove id ∉ ops ->
  exists pk', ring_run r ops !! id = Some pk' /\ pk_Public pk' = pk_Public pk.
Proof.
  revert r pk. induction ops as [|op ops IH]; intros r pk Hr Hops; [by exists pk |].
  apply not_elem_of_cons in Hops as [Hop Hops]. cbn [foldl].
  destruct (ring_step_lookup r op id) as [E|[(k & -> & _ & E & Hk)|[(k0 & -> & Hr0 & E)|[-> _]]]].
  - rewrite Hr in E. by apply IH.
  - destruct (IH _ k E Hops) as (pk' & H1 & H2). exists pk'. split; [done |].
    rewrite H2. symmetry. by apply Hk.
  - rewrite Hr in Hr0. injection Hr0 as <-. destruct (IH _ _ E Hops) as (pk' & H1 & H2). by exists pk'.
  - done.
Qed.

Section Roundtrip.
Context {Num : Type} {J : JSONLib Num} {ED : Ed25519}.

(** An operation that leaves the entry of [k] alone: it is about another
    identifier, or tries to bind [k]'s to other material. *)
Definition spares (k : PrivateKey) (op : ring_op) : Prop :=
  match op with
  | RAdd k' => pk_ID k' = sk_ID k -> pk_Public k' ≠ sk_Public k
  | RRetire id | RRemove id => id ≠ sk_ID k
  end.

Lemma spares_lookup k ops r :
  Forall (spares k) ops -> r !! sk_ID k = Some (PublicView k) ->
  ring_run r ops !! sk_ID k = Some (PublicView k).
Proof.
  intros Hops. revert r. induction Hops as [|op ops Hop _ IH]; intros r Hr; [done |].
  apply IH. cbn [foldl].
  destruct (ring_step_lookup r op (sk_ID k)) as [E|[(k' & -> & Hid & E & Hk)|[(k0 & -> & _)|[-> _]]]].
  - by rewrite E.
  - exfalso. apply Hop; [done |]. symmetry. by apply (Hk (PublicView k)).
  - by destruct Hop.
  - by destruct Hop.
Qed.

(** C32: What [SignCanonical] signs with a key, [VerifyCanonical] accepts at any
    later time under a ring the key was added to, whatever else was done to the
    ring; once the key is retired the same signature is refused, and once it is
    removed the key is unknown. *)
Theorem signature_roundtrip {V} (marshal : V -> option bytes) now now' k v sig payload r ops :
  ed_pair (sk_Public k) (sk_Private k) ->
  Z.of_nat (length (sk_Public k)) = PublicKeySize ->
  IsZero now = false ->
  (Ring_Add (PublicView k) r).2 = None ->
  Forall (spares k) ops ->
  SignCanonical marshal now k v = inr (sig, payload) ->
  let ring := ring_run (Ring_Add (PublicView k) r).1 ops in
  VerifyCanonical marshal now' (Some ring) v sig = None /\
  VerifyCanonical marshal now' (Some (Ring_Retire (sk_ID k) ring)) v sig = Some ErrExpiredKey /\
  VerifyCanonical marshal now' (Some (Ring_Remove (sk_ID k) ring)) v sig = Some ErrUnknownKey.
Proof.
  intros Hp Hl Hz Ha Hops Hs ring.
  assert (ring !! sk_ID k = Some (PublicView k)) as Hr.
  { apply spares_lookup; [done |]. revert Ha. unfold Ring_Add. rewrite bool_decide_eq_false_2 by tauto.
    change (pk_ID (PublicView k)) with (sk_ID k). case_match; [case_match; [done |] |];
      intros _; simpl; by rewrite lookup_insert_eq. }
  revert Hs. unfold SignCanonical, VerifyCanonical.
  destruct (CanonicalJSON marshal v) as [e|p]; [done |]. unfold SignBytes.
  case_bool_decide as Hpay; [done |]. destruct (past now (sk_ExpiresAt k)) eqn:Hpast; [done |].
  intros [= <- <-]. unfold VerifyBytes, Ring_Lookup, Ring_Retire, Ring_Remove.
  cbn [sg_KeyID sg_Algorithm sg_SignedAt sg_Sig].
  rewrite Hr, lookup_insert_eq, lookup_delete_eq, Hz, !bool_decide_eq_false_2 by done.
  rewrite bool_decide_eq_true_2 by done. cbn [negb andb].
  unfold ValidAt. cbn [PublicView pk_Retired pk_ExpiresAt pk_Public]. rewrite Hpast.
  by rewrite ed_sign_verifies.
Qed.

End Roundtrip.

(** The time a key's expiry is judged at is [SignedAt], a field the signature does
    not cover: after its expiry, the holder of the private half still signs
    anything that verifies, by dating it back. *)
Lemma backdated_signature_accepted {ED : Ed25519} k r t now payload expiry :
  ed_pair (sk_Public k) (sk_Private k) -> r !! sk_ID k = Some (PublicView k) ->
  sk_ExpiresAt k = Some expiry -> IsZero t = false -> t <= expiry -> payload ≠ [] ->
  VerifyBytes now (Some r) payload
    (mkSignature (sk_ID k) AlgorithmEd25519 1 t (ed_Sign (sk_Private k) payload)) = None.
Proof.
  intros Hp Hr He Hz Ht Hne. unfold VerifyBytes, Ring_Lookup. cbn [sg_KeyID sg_Algorithm sg_SignedAt sg_Sig].
  rewrite Hr, Hz, !bool_decide_eq_false_2, bool_decide_eq_true_2 by done. cbn [negb andb].
  unfold ValidAt. cbn [PublicView pk_Retired pk_ExpiresAt pk_Public]. rewrite He. unfold past, After.
  rewrite bool_decide_eq_false_2 by lia. by rewrite ed_sign_verifies.
Qed.

(** ** A concrete instance *)

Definition toy_ed25519 : Ed25519.
Proof.
  refine {| ed_pair pub priv := pub = priv; ed_Sign priv m := priv ++ m;
    ed_Verify pub m s := bool_decide (s = pub ++ m) |}.
  intros pub priv m ->. by apply bool_decide_eq_true.
Defined.

(** One JSON string per text. *)
Definition toy_jsonlib : JSONLib Z :=
  {| json_Unmarshal raw := Some (AString (String.string_of_list_ascii raw));
     json_Marshal v := match v with
       | AString s => Some (String.list_ascii_of_string s) | _ => None end |}.

Definition toy_key : PrivateKey :=
  mkPrivateKey "ed25519:01" (replicate 32 "k"%char) (replicate 32 "k"%char) 1 (Some 1000).
Definition toy_other : PublicKey := mkPublicKey "ed25519:01" (replicate 32 "z"%char) 1 None false.
Definition toy_marshal (s : string) : option bytes := Some (String.list_ascii_of_string s).

Lemma normalize_canonical_witness :
  normalize (AObject [("b", ANum 1); ("a", ANull)]) =
  normalize (AObject [("a", ANull); ("b", ANum 1)]) /\
  normalize (AObject [("b", ANum 1)]) ≠ normalize (AObject [("b", ANum 2)]).
Proof.
  split.
  - apply normalize_canonical; [by_eval | by_eval |]. constructor; [set_solver |].
    intros k Hk. cbn [fmap list_fmap fst] in Hk.
    repeat (apply elem_of_cons in Hk as [->|Hk]); [vm_compute; constructor .. |].
    by apply elem_of_nil in Hk.
  - intros E. apply normalize_canonical in E; [|by_eval | by_eval].
    inversion E as [| | | | |? ? _ H]; subst. specialize (H "b" ltac:(vm_compute; left)).
    vm_compute in H. inversion H.
Defined.

Lemma ring_pinned_witness :
  exists pk', ring_run (Ring_Add (PublicView toy_key) NewKeyRing).1 [RAdd toy_other; RRetire "ed25519:01"]
    !! "ed25519:01" = Some pk' /\ pk_Public pk' = sk_Public toy_key.
Proof.
  apply (ring_pinned _ _ _ (PublicView toy_key)); [by_eval |].
  rewrite !not_elem_of_cons. repeat split; try discriminate. apply not_elem_of_nil.
Defined.

Lemma signature_roundtrip_witness :
  let signed := SignCanonical (J := toy_jsonlib) (ED := toy_ed25519) toy_marshal 500 toy_key "open" in
  exists sig payload, signed = inr (sig, payload) /\
  VerifyCanonical (J := toy_jsonlib) (ED := toy_ed25519) toy_marshal 5000
    (Some (ring_run (Ring_Add (PublicView toy_key) NewKeyRing).1 [RAdd toy_other])) "open" sig = None.
Proof.
  eexists _, _. split; [reflexivity |].
  eapply (signature_roundtrip (J := toy_jsonlib) (ED := toy_ed25519) toy_marshal 500 5000 toy_key "open" _ _
    NewKeyRing [RAdd toy_other]); [reflexivity .. | | reflexivity].
  constructor; [|constructor]. intros _. vm_compute. discriminate.
Defined.

(** ** Keys and signatures as text ([security/signing/signing.go])

    Generation of a key from random bytes, and the text form of a signature: its JSON in
    unpadded URL-safe base64, which is modelled as [encoding/base64] reads and writes it. *)

From S2P Require Import Runes Types.

#[local] Open Scope Z_scope.

(** ** [base64.RawURLEncoding] *)

Definition alphabet : bytes := String.list_ascii_of_string "ABCDEFGHIJKLMNOPQRSTUVWXYZabcdefghijklmnopqrstuvwxyz0123456789-_".

Definition sextet_char (d : Z) : ascii := default zero (alphabet !! Z.to_nat d).

Definition char_sextet (c : ascii) : option Z := (fun p => Z.of_nat p.1) <$> list_find (fun x => x = c) alphabet.

(** Six bits at a time. *)
Fixpoint sextets (bs : list Z) : list Z :=
  match bs with
  | a :: b :: c :: t => a / 4 :: a mod 4 * 16 + b / 16 :: b mod 16 * 4 + c / 64 :: c mod 64 :: sextets t
  | [a; b] => [a / 4; a mod 4 * 16 + b / 16; b mod 16 * 4]
  | [a] => [a / 4; a mod 4 * 16]
  | [] => []
  end.

(** The bits left over at the end are not looked at; a single sextet is an error. *)
Fixpoint octets (ss : list Z) : option (list Z) :=
  match ss with
  | w :: x :: y :: z :: t => (fun r => w * 4 + x / 16 :: x mod 16 * 16 + y / 4 :: y mod 4 * 64 + z :: r) <$> octets t
  | [w; x; y] => Some [w * 4 + x / 16; x mod 16 * 16 + y / 4]
  | [w; x] => Some [w * 4 + x / 16]
  | [_] => None
  | [] => Some []
  end.

Definition EncodeToString (bs : bytes) : string := String.string_of_list_ascii (sextet_char <$> sextets (byte <$> bs)).

(** Line breaks are skipped. *)
Definition DecodeString (s : string) : option bytes :=
  let cs := filter (fun c => byte c ≠ 10 /\ byte c ≠ 13) (String.list_ascii_of_string s) in
  match (mapM char_sextet cs : option (list Z)) with
  | None => None
  | Some ss => match octets ss with Some os => Some (chr <$> os) | None => None end
  end.

Lemma sextets_range bs : Forall (fun b => 0 <= b < 256) bs -> Forall (fun d => 0 <= d < 64) (sextets bs).
Proof.
  revert bs. fix IH 1. intros [|a [|b [|c t]]] H; cbn [sextets]; [constructor | | |]; repeat (apply Forall_cons in H as [? H]);
    repeat (constructor; [Z.to_euclidean_division_equations; lia |]); [constructor | constructor | by apply IH].
Qed.

Lemma octets_sextets bs : Forall (fun b => 0 <= b < 256) bs -> octets (sextets bs) = Some bs.
Proof.
  revert bs. fix IH 1. intros [|a [|b [|c t]]] H; cbn [sextets octets]; [done | | |]; repeat (apply Forall_cons in H as [? H]).
  - do 2 f_equal. Z.to_euclidean_division_equations; lia.
  - do 2 f_equal; [|f_equal]; Z.to_euclidean_division_equations; lia.
  - rewrite IH by done. cbn. do 2 f_equal; [|f_equal; [|f_equal]]; Z.to_euclidean_division_equations; lia.
Qed.

Lemma char_sextet_char d : 0 <= d < 64 -> char_sextet (sextet_char d) = Some d /\ byte (sextet_char d) ≠ 10 /\ byte (sextet_char d) ≠ 13.
Proof.
  intros Hd. assert (forallb (fun d => bool_decide (char_sextet (sextet_char d) = Some d) && negb (bool_decide (byte (sextet_char d) = 10)) &&
    negb (bool_decide (byte (sextet_char d) = 13))) (seqZ 0 64) = true) as Hall by (vm_compute; reflexivity).
  rewrite forallb_forall in Hall. specialize (Hall d). rewrite !andb_true_iff, !negb_true_iff, !bool_decide_eq_false, bool_decide_eq_true in Hall.
  assert (In d (seqZ 0 64)) as Hin by (apply list_elem_of_In, elem_of_seqZ; lia). specialize (Hall Hin). tauto.
Qed.

Lemma chr_byte c : chr (byte c) = c.
Proof. unfold chr, byte. by rewrite N2Z.id, ascii_N_embedding. Qed.

(** What is encoded is decoded. *)
Lemma base64_roundtrip bs : DecodeString (EncodeToString bs) = Some bs.
Proof.
  unfold DecodeString, EncodeToString. rewrite String.list_ascii_of_string_of_list_ascii.
  assert (Forall (fun b => 0 <= b < 256) (byte <$> bs)) as Hb.
  { apply Forall_fmap, Forall_forall. intros c _. cbn. apply byte_range. }
  pose proof (sextets_range _ Hb) as Hs.
  rewrite filter_all.
  2: { apply Forall_fmap. eapply Forall_impl; [exact Hs |]. intros d Hd. cbn. apply (char_sextet_char d Hd). }
  assert (mapM char_sextet (sextet_char <$> sextets (byte <$> bs)) = Some (sextets (byte <$> bs))) as ->.
  { apply mapM_Some. apply Forall2_fmap_l, Forall_Forall2_diag. eapply Forall_impl; [exact Hs |]. intros d Hd. apply (char_sextet_char d Hd). }
  rewrite octets_sextets by done. f_equal. rewrite <- list_fmap_compose.
  rewrite <- (list_fmap_id bs) at 2. apply list_fmap_ext. intros i c _. cbn. apply chr_byte.
Qed.

(** ** Signatures *)

Section Text.
Context (marshal : Signature -> option bytes) (unmarshal : bytes -> option Signature).

(** [json.Marshal] returns nothing when it fails, and the error is dropped. *)
Definition EncodeSignature (sig : Signature) : string := EncodeToString (default [] (marshal sig)).

Definition DecodeSignature (s : string) : option Signature := match DecodeString s with Some raw => unmarshal raw | None => None end.

(** A signature that JSON carries over is read back from its text. *)
Theorem signature_text_roundtrip sig raw : marshal sig = Some raw -> unmarshal raw = Some sig -> DecodeSignature (EncodeSignature sig) = Some sig.
Proof. intros Hm Hu. unfold DecodeSignature, EncodeSignature. rewrite Hm, base64_roundtrip. exact Hu. Qed.

(** The text is not unique: line breaks may be added, and the last bits changed. *)
Lemma text_not_unique : DecodeString "QQ" = DecodeString "QR" /\ DecodeString "QQ" = DecodeString (String (ascii_of_nat 10) "QQ").
Proof. split; vm_compute; reflexivity. Qed.
End Text.

(** ** Keys *)

(** The pair of halves and the eight bytes of the identifier, when they could be read. *)
Definition GenerateKey (now : Time) (pair : option (bytes * bytes)) (id : option bytes) : option PrivateKey :=
  match pair with
  | None => None
  | Some (pub, priv) =>
    match id with
    | None => None
    | Some id => Some (mkPrivateKey ("ed25519:" +:+ hex_encode id) pub priv now None)
    end
  end.

(** A generated key signs, and a ring that has it verifies, at any later time. *)
Theorem generated_key_verifies `{ED : Ed25519} now now' t pub priv id key payload :
  GenerateKey now (Some (pub, priv)) id = Some key -> ed_pair pub priv -> Z.of_nat (length pub) = PublicKeySize -> payload ≠ [] -> IsZero t = false ->
  exists sig, SignBytes t key payload = inr sig /\ VerifyBytes now' (Some (Ring_Add (PublicView key) NewKeyRing).1) payload sig = None.
Proof.
  intros Hg Hp Hl Hne Hz. cbn in Hg. destruct id as [id|]; [|done]. injection Hg as <-. unfold SignBytes.
  rewrite bool_decide_false by done. cbn [sk_ExpiresAt past]. eexists. split; [reflexivity |].
  unfold Ring_Add. cbn [PublicView sk_ID sk_Public pk_ID pk_Public].
  rewrite bool_decide_false by (intros H; tauto || lia || by destruct H). unfold NewKeyRing. rewrite lookup_empty. cbn [fst].
  unfold VerifyBytes. rewrite bool_decide_false by done. cbn [sg_Algorithm sg_KeyID sg_SignedAt sg_Sig]. unfold Ring_Lookup.
  rewrite lookup_insert_eq, Hz. cbn. by rewrite ed_sign_verifies.
Qed.
