(* ===== verification/Capability.v ===== *)
(** * Capability tokens ([capability/capability.go])

    An authority issues, verifies, revokes and delegates expiring tokens, signed
    when it has a key.  Every method is split where it takes the mutex, so that
    other goroutines run between the two critical sections of [Delegate]; the ring
    of keys and the anti-replay cache are shared objects and may change between any
    two steps.  Clock readings ([a.now], and [time.Now] where the code or the
    signer reads it) and random bytes are arguments. *)

From S2P Require Import Prelude Types GoStrings TextCodec AntiReplay Signing.
From Stdlib Require Import Ascii.

(** ** Data *)

Inductive cap_error :=
| ErrDenied | ErrExpired | ErrRevoked | ErrEpochMismatch
| ErrInvalidSig (cause : option sign_error)
| ErrWidenDelegate | ErrSingleUseSpent | ErrNotFound
| ErrSign (e : sign_error) | ErrRand | ErrEpoch (e : error).

Record Constraints := mkConstraints {
  co_SingleUse : bool; co_Environment : string; co_MaxUses : Z;
  co_AllowedResources : list string }.

Record signBody := mkSignBody {
  sb_ID : string; sb_Subject : string; sb_Permission : string; sb_Resource : string;
  sb_IssuedAt : Time; sb_ExpiresAt : Time; sb_Constraints : Constraints; sb_Nonce : string;
  sb_Epoch : SecurityEpoch; sb_ParentID : string }.

Record Token := mkToken {
  tk_body : signBody; tk_Signature : bytes; tk_KeyID : string }.

(** The fields of a token other than its signature are those of its body. *)
Definition tk_ID (t : Token) := sb_ID (tk_body t).
Definition tk_Subject (t : Token) := sb_Subject (tk_body t).
Definition tk_Permission (t : Token) := sb_Permission (tk_body t).
Definition tk_Resource (t : Token) := sb_Resource (tk_body t).
Definition tk_IssuedAt (t : Token) := sb_IssuedAt (tk_body t).
Definition tk_ExpiresAt (t : Token) := sb_ExpiresAt (tk_body t).
Definition tk_Constraints (t : Token) := sb_Constraints (tk_body t).
Definition tk_Epoch (t : Token) := sb_Epoch (tk_body t).
Definition tk_ParentID (t : Token) := sb_ParentID (tk_body t).

Record Request := mkRequest {
  rq_Subject : string; rq_Permission : string; rq_Resource : string; rq_TTL : Duration;
  rq_Constraints : Constraints }.

Record Authority := mkAuthority {
  a_signer : option PrivateKey; a_keys : option KeyRing; a_epoch : SecurityEpoch;
  a_replay : option Cache; a_revoked : gset string; a_spent : gmap string Z;
  a_issued : gmap string Token; a_requireSig : bool }.

Definition with_keys (k : option KeyRing) (a : Authority) : Authority :=
  mkAuthority (a_signer a) k (a_epoch a) (a_replay a) (a_revoked a) (a_spent a) (a_issued a) (a_requireSig a).
Definition with_epoch (e : SecurityEpoch) (a : Authority) : Authority :=
  mkAuthority (a_signer a) (a_keys a) e (a_replay a) (a_revoked a) (a_spent a) (a_issued a) (a_requireSig a).
Definition with_replay (c : option Cache) (a : Authority) : Authority :=
  mkAuthority (a_signer a) (a_keys a) (a_epoch a) c (a_revoked a) (a_spent a) (a_issued a) (a_requireSig a).
Definition with_revoked (r : gset string) (a : Authority) : Authority :=
  mkAuthority (a_signer a) (a_keys a) (a_epoch a) (a_replay a) r (a_spent a) (a_issued a) (a_requireSig a).
Definition with_spent (s : gmap string Z) (a : Authority) : Authority :=
  mkAuthority (a_signer a) (a_keys a) (a_epoch a) (a_replay a) (a_revoked a) s (a_issued a) (a_requireSig a).
Definition with_issued (i : gmap string Token) (a : Authority) : Authority :=
  mkAuthority (a_signer a) (a_keys a) (a_epoch a) (a_replay a) (a_revoked a) (a_spent a) i (a_requireSig a).

(** ** Construction *)

(** The options, [WithClock] apart: clock readings are arguments. *)
Inductive Option_ :=
| WithSigner (key : PrivateKey) (ring : option KeyRing)
| WithKeyRing (ring : option KeyRing)
| WithReplayCache (c : option Cache).

Definition apply_option (a : Authority) (o : Option_) : Authority :=
  match o with
  | WithSigner key ring =>
    mkAuthority (Some key) ring (a_epoch a) (a_replay a) (a_revoked a) (a_spent a) (a_issued a) true
  | WithKeyRing ring => with_keys ring a
  | WithReplayCache c => with_replay c a
  end.

Definition New (opts : list Option_) : Authority :=
  foldl apply_option (mkAuthority None None 0 (Some (AntiReplay.New 4096)) ∅ ∅ ∅ false) opts.

(** ** Epochs, revocation *)

Definition AdvanceEpoch (a : Authority) : Authority * (SecurityEpoch * option cap_error) :=
  match a_replay a with
  | Some c =>
    match AntiReplay.AdvanceEpoch c with
    | (c, (_, Some e)) => (with_replay (Some c) a, (a_epoch a, Some (ErrEpoch e)))
    | (c, (ep, None)) => (a |> with_replay (Some c) |> with_epoch ep, (ep, None))
    end
  | None =>
    if bool_decide (a_epoch a = u64_modulus - 1)
    then (a, (a_epoch a, Some (ErrEpoch (TextErr "capability: epoch overflow"))))
    else let e := u64 (a_epoch a + 1) in (with_epoch e a, (e, None))
  end.

Definition Revoke (id : string) (a : Authority) : Authority * option cap_error :=
  match a_issued a !! id with
  | None => (a, Some ErrNotFound)
  | Some _ => (with_revoked ({[id]} ∪ a_revoked a) a, None)
  end.

(** [strings.HasSuffix(ps, ".*")] and what follows; 42 is the asterisk. *)
Definition star : ascii := ascii_of_nat 42.

Definition permissionReduces (parent child : string) : bool :=
  if bool_decide (parent = child) then true
  else match strip_suffix ".*" parent with
       | Some prefix => String.prefix (prefix +:+ ".") child && negb (contains_byte star child)
       | None => false
       end.

(** What a permission covers: itself, and when it ends in a wildcard every plain
    permission below it. *)
Inductive covers (parent child : string) : Prop :=
| covers_same : child = parent -> covers parent child
| covers_below pre rest :
    parent = pre +:+ ".*" -> child = pre +:+ "." +:+ rest -> contains_byte star child = false ->
    covers parent child.

Section Capability.
Context {Num : Type} {J : JSONLib Num} {ED : Ed25519}.
(** [json.Marshal] of a [signBody]. *)
Context (marshal : signBody -> option bytes).

(** ** Issuing *)

Definition signLocked (real : Time) (tok : Token) (a : Authority) : cap_error + Token :=
  match a_signer a with
  | None => inr tok
  | Some k =>
    match SignCanonical marshal real k (tk_body tok) with
    | inl e => inl (ErrSign e)
    | inr (sig, _) => inr (mkToken (tk_body tok) (sg_Sig sig) (sg_KeyID sig))
    end
  end.

Definition effective_ttl (ttl : Duration) : Duration :=
  if bool_decide (ttl <= 0) then 5 * Minute else ttl.

(** Readings of one call of [Issue]: the random bytes, if they could be read, and
    the clocks. *)
Record issue_env := mkIssueEnv {
  ie_nonce : option bytes; ie_id : option bytes; ie_now : Time; ie_real : Time }.

Definition fresh_token (req : Request) (nonce id : bytes) (now : Time) (epoch : SecurityEpoch) : Token :=
  mkToken (mkSignBody ("cap_" +:+ hex_encode id) (rq_Subject req) (rq_Permission req) (rq_Resource req)
    now (Add now (effective_ttl (rq_TTL req))) (rq_Constraints req) (hex_encode nonce) epoch "") [] "".

Definition Issue (env : issue_env) (req : Request) (a : Authority) : Authority * (cap_error + Token) :=
  if bool_decide (rq_Permission req = "") || bool_decide (rq_Permission req = "*")
  then (a, inl ErrDenied)
  else
    match ie_nonce env with
    | None => (a, inl ErrRand)
    | Some nonce =>
      match ie_id env with
      | None => (a, inl ErrRand)
      | Some idBytes =>
        match signLocked (ie_real env) (fresh_token req nonce idBytes (ie_now env) (a_epoch a)) a with
        | inl e => (a, inl e)
        | inr tok => (with_issued (<[tk_ID tok := tok]> (a_issued a)) a, inr tok)
        end
      end
    end.

(** ** Verification *)

Definition spent_of (a : Authority) (id : string) : Z := default 0 (a_spent a !! id).

Definition spend (n : Z) (id : string) (consume : bool) (a : Authority) : Authority :=
  if consume then with_spent (<[id := n]> (a_spent a)) a else a.

Definition check_signature (real : Time) (tok : Token) (a : Authority) : option cap_error :=
  if a_requireSig a || negb (bool_decide (tk_Signature tok = [])) then
    match a_keys a with
    | None => Some (ErrInvalidSig None)
    | Some keys =>
      let sig := mkSignature (tk_KeyID tok) AlgorithmEd25519 1 (tk_IssuedAt tok) (tk_Signature tok) in
      match VerifyCanonical marshal real (Some keys) (tk_body tok) sig with
      | Some err => Some (ErrInvalidSig (Some err))
      | None => None
      end
    end
  else None.

Definition check_uses (tok : Token) (consume : bool) (a : Authority) : Authority * option cap_error :=
  let c := tk_Constraints tok in
  let id := tk_ID tok in
  if co_SingleUse c || bool_decide (co_MaxUses c = 1) then
    if bool_decide (0 < spent_of a id) then (a, Some ErrSingleUseSpent)
    else (spend 1 id consume a, None)
  else if bool_decide (1 < co_MaxUses c) then
    if bool_decide (co_MaxUses c <= spent_of a id) then (a, Some ErrSingleUseSpent)
    else (spend (i64 (spent_of a id + 1)) id consume a, None)
  else (a, None).

Definition verifyLocked (now real : Time) (tok : Token) (consume : bool) (a : Authority)
  : Authority * option cap_error :=
  if bool_decide (tk_ID tok ∈ a_revoked a) then (a, Some ErrRevoked)
  else if negb (bool_decide (tk_Epoch tok = a_epoch a)) then (a, Some ErrEpochMismatch)
  else if After now (tk_ExpiresAt tok) then (a, Some ErrExpired)
  else match check_signature real tok a with
       | Some e => (a, Some e)
       | None => check_uses tok consume a
       end.

Definition Verify (now real : Time) (tok : Token) (a : Authority) : Authority * option cap_error :=
  verifyLocked now real tok true a.

(** ** Delegation *)

(** From the checks against the parent to the call of [Issue]; [now] is [a.now()],
    [real] the clock [time.Until] reads. *)
Definition narrow (parent : Token) (now real : Time) (req : Request) : cap_error + Request :=
  if negb (permissionReduces (tk_Permission parent) (rq_Permission req)) then inl ErrWidenDelegate
  else if negb (bool_decide (tk_Resource parent = "")) && negb (bool_decide (rq_Resource req = ""))
          && negb (bool_decide (tk_Resource parent = rq_Resource req))
  then inl ErrWidenDelegate
  else
    let res := if negb (bool_decide (tk_Resource parent = "")) && bool_decide (rq_Resource req = "")
               then tk_Resource parent else rq_Resource req in
    let subject := if bool_decide (rq_Subject req = "") then tk_Subject parent else rq_Subject req in
    let with_ttl ttl := mkRequest subject (rq_Permission req) res ttl (rq_Constraints req) in
    if bool_decide (rq_TTL req <= 0) || Before (tk_ExpiresAt parent) (Add now (rq_TTL req)) then
      let rem := tk_ExpiresAt parent - real in
      if bool_decide (rem <= 0) then inl ErrExpired
      else if bool_decide (rq_TTL req <= 0) || bool_decide (rem < rq_TTL req)
      then inr (with_ttl rem) else inr (with_ttl (rq_TTL req))
    else inr (with_ttl (rq_TTL req)).

(** The last critical section: the child is bound to its parent and signed
    again. *)
Definition adopt (parent child : Token) : Token :=
  let b := tk_body child in
  mkToken (mkSignBody (sb_ID b) (sb_Subject b) (sb_Permission b) (sb_Resource b) (sb_IssuedAt b)
    (sb_ExpiresAt b) (sb_Constraints b) (sb_Nonce b) (tk_Epoch parent) (tk_ID parent))
    (tk_Signature child) (tk_KeyID child).

Definition delegate_finish (real : Time) (parent child : Token) (a : Authority)
  : Authority * (cap_error + Token) :=
  match signLocked real (adopt parent child) a with
  | inl e => (a, inl e)
  | inr child => (with_issued (<[tk_ID child := child]> (a_issued a)) a, inr child)
  end.

Record delegate_env := mkDelegateEnv {
  de_now : Time; de_real : Time;       (** readings of [verifyLocked] *)
  de_now' : Time; de_real' : Time;     (** [a.now()] and [time.Until] of the clamp *)
  de_issue : issue_env; de_sign : Time;
  de_between : Authority -> Authority;  (** what others do before [Issue] *)
  de_between' : Authority -> Authority  (** and before the last critical section *) }.

Definition Delegate (env : delegate_env) (parent : Token) (req : Request) (a : Authority)
  : Authority * (cap_error + Token) :=
  match verifyLocked (de_now env) (de_real env) parent false a with
  | (a, Some e) => (a, inl e)
  | (a, None) =>
    match narrow parent (de_now' env) (de_real' env) req with
    | inl e => (a, inl e)
    | inr req =>
      match Issue (de_issue env) req (de_between env a) with
      | (a, inl e) => (a, inl e)
      | (a, inr child) => delegate_finish (de_sign env) parent child (de_between' env a)
      end
    end
  end.

(** ** Executions

    One critical section at a time, with what others do to the shared ring and
    cache.  The tokens an authority hands out are labelled [LMint]. *)

Inductive label :=
| LMint (r : cap_error + Token)
| LVerify (tok : Token) (r : option cap_error)
| LRevoke (id : string) (r : option cap_error)
| LAdvance (r : SecurityEpoch * option cap_error)
| LShared.

Inductive astep : Authority -> label -> Authority -> Prop :=
| st_issue env req a : astep a (LMint (Issue env req a).2) (Issue env req a).1
| st_verify now real tok a :
    is_i64 (co_MaxUses (tk_Constraints tok)) ->
    astep a (LVerify tok (Verify now real tok a).2) (Verify now real tok a).1
| st_revoke id a : astep a (LRevoke id (Revoke id a).2) (Revoke id a).1
| st_advance a : astep a (LAdvance (AdvanceEpoch a).2) (AdvanceEpoch a).1
| st_finish real parent child a :
    is_Some (a_issued a !! tk_ID child) -> tk_Epoch parent <= a_epoch a ->
    astep a (LMint (delegate_finish real parent child a).2) (delegate_finish real parent child a).1
| st_ring keys keys' a : a_keys a = Some keys -> astep a LShared (with_keys (Some keys') a)
| st_cache c c' a :
    a_replay a = Some c -> c_epoch c <= c_epoch c' -> is_u64 (c_epoch c') ->
    astep a LShared (with_replay (Some c') a).

(** The newest label comes first. *)
Inductive run (a0 : Authority) : list label -> Authority -> Prop :=
| run_nil : run a0 [] a0
| run_cons tr a l a' : run a0 tr a -> astep a l a' -> run a0 (l :: tr) a'.

Lemma run_app a0 tr1 a tr2 a' : run a0 tr1 a -> run a tr2 a' -> run a0 (tr2 ++ tr1) a'.
Proof. intros H1. induction 1; simpl; eauto using run. Qed.

Lemma run_split a0 tr2 tr1 a : run a0 (tr2 ++ tr1) a -> exists b, run a0 tr1 b /\ run b tr2 a.
Proof.
  revert a. induction tr2 as [|l tr2 IH]; simpl; intros a H; [eauto using run |].
  inversion H as [|? ? ? ? H1 H2]; subst. destruct (IH _ H1) as (b & Hb & Hr). eauto using run.
Qed.

(** *** The invariant *)

Record auth_inv (a : Authority) : Prop := mkAuthInv {
  ai_epoch : is_u64 (a_epoch a);
  ai_replay : forall c, a_replay a = Some c -> a_epoch a <= c_epoch c /\ is_u64 (c_epoch c);
  ai_spent : forall id, 0 <= spent_of a id < 2 ^ 63 }.

Lemma signLocked_body real tok a t : signLocked real tok a = inr t -> tk_body t = tk_body tok.
Proof.
  unfold signLocked. destruct (a_signer a); [|by intros [= <-]].
  destruct (SignCanonical _ _ _ _) as [|[sig payload]]; [done | by intros [= <-]].
Qed.

(** What the parts of a step do to the state. *)
Lemma Issue_state env req a :
  (Issue env req a).1 = a /\ (exists e, (Issue env req a).2 = inl e) \/
  exists tok, (Issue env req a).2 = inr tok /\
    (Issue env req a).1 = with_issued (<[tk_ID tok := tok]> (a_issued a)) a /\
    (exists nonce id, tk_body tok = tk_body (fresh_token req nonce id (ie_now env) (a_epoch a))).
Proof.
  unfold Issue. destruct (_ || _); [left; eauto |]. destruct (ie_nonce env); [|left; eauto].
  destruct (ie_id env); [|left; eauto]. destruct (signLocked _ _ _) as [e|tok] eqn:E; [left; eauto |].
  right. exists tok. split; [done |]. split; [done |]. apply signLocked_body in E. eauto.
Qed.

Lemma finish_state real parent child a :
  (delegate_finish real parent child a).1 = a /\ (exists e, (delegate_finish real parent child a).2 = inl e) \/
  exists tok, (delegate_finish real parent child a).2 = inr tok /\
    (delegate_finish real parent child a).1 = with_issued (<[tk_ID tok := tok]> (a_issued a)) a /\
    tk_body tok = tk_body (adopt parent child).
Proof.
  unfold delegate_finish. destruct (signLocked _ _ _) as [e|tok] eqn:E; [left; eauto |].
  right. exists tok. apply signLocked_body in E. eauto.
Qed.

Lemma check_uses_state tok consume a :
  let '(a', r) := check_uses tok consume a in
  a' = a \/ r = None /\ consume = true /\ exists n, a' = with_spent (<[tk_ID tok := n]> (a_spent a)) a /\
    ((co_SingleUse (tk_Constraints tok) || bool_decide (co_MaxUses (tk_Constraints tok) = 1) = true /\
      spent_of a (tk_ID tok) <= 0 /\ n = 1) \/
     (co_SingleUse (tk_Constraints tok) || bool_decide (co_MaxUses (tk_Constraints tok) = 1) = false /\
      1 < co_MaxUses (tk_Constraints tok) /\
      spent_of a (tk_ID tok) < co_MaxUses (tk_Constraints tok) /\ n = i64 (spent_of a (tk_ID tok) + 1))).
Proof.
  unfold check_uses, spend. destruct (_ || _); repeat case_bool_decide; try by left.
  all: destruct consume; [right; do 2 (split; [done |]); eexists; split; [done |] | by left].
  - left. split; [done | lia].
  - right. split; [done |]. split; [done | lia].
Qed.

Lemma Verify_state now real tok a :
  (Verify now real tok a).1 = a \/ (Verify now real tok a).2 = None.
Proof.
  unfold Verify, verifyLocked. repeat (case_match; try by left).
  pose proof (check_uses_state tok true a) as H'. destruct (check_uses tok true a) as [a' r].
  destruct H' as [->|[-> _]]; auto.
Qed.

Lemma Verify_accepts now real tok a :
  (Verify now real tok a).2 = None ->
  (tk_ID tok ∉ a_revoked a) /\ tk_Epoch tok = a_epoch a /\ now <= tk_ExpiresAt tok /\
  check_signature real tok a = None /\ Verify now real tok a = check_uses tok true a.
Proof.
  unfold Verify, verifyLocked. case_bool_decide; [done |]. case_bool_decide; [|done]. simpl.
  unfold After. case_bool_decide; [done |]. destruct (check_signature _ _ _); [done |].
  intros _. repeat split; done || lia.
Qed.

(** A successful advance moves the epoch forward. *)
Lemma AdvanceEpoch_spec a :
  auth_inv a ->
  auth_inv (AdvanceEpoch a).1 /\ a_epoch a <= a_epoch (AdvanceEpoch a).1 /\
  (forall e, (AdvanceEpoch a).2 = (e, None) -> a_epoch a < e /\ a_epoch (AdvanceEpoch a).1 = e) /\
  a_revoked (AdvanceEpoch a).1 = a_revoked a /\ a_spent (AdvanceEpoch a).1 = a_spent a /\
  a_issued (AdvanceEpoch a).1 = a_issued a.
Proof.
  intros Hi. pose proof Hi as [He Hc Hs]. unfold AdvanceEpoch, AntiReplay.AdvanceEpoch.
  destruct (a_replay a) as [c|] eqn:Er; case_bool_decide as Hm; cbn [fst snd].
  - split; [split; [done | by intros ? [= <-]; apply Hc | done] |].
    split; [done |]. by split.
  - destruct (Hc c eq_refl) as [Hle Hu].
    assert (is_u64 (c_epoch c + 1)) as Hn by (unfold is_u64, u64_modulus in *; lia).
    rewrite u64_small by done.
    split; [split; [done | by intros ? [= <-] | done] |]. simpl. split; [lia |].
    split; [intros e [= <-]; lia | done].
  - split; [done |]. split; [done |]. by split.
  - assert (is_u64 (a_epoch a + 1)) as Hn by (unfold is_u64, u64_modulus in *; lia).
    rewrite u64_small by done.
    split; [split; [done | intros ? E; simpl in E; congruence | done] |]. simpl. split; [lia |].
    split; [intros e [= <-]; lia | done].
Qed.

(** What only grows. *)
Record evolves (a a' : Authority) : Prop := mkEvolves {
  ev_epoch : a_epoch a <= a_epoch a';
  ev_revoked : a_revoked a ⊆ a_revoked a';
  ev_spent id : spent_of a id <= spent_of a' id;
  ev_issued id : is_Some (a_issued a !! id) -> is_Some (a_issued a' !! id);
  ev_requireSig : a_requireSig a' = a_requireSig a }.

#[local] Instance evolves_refl : Reflexive evolves.
Proof. by split. Qed.

#[local] Instance evolves_trans : Transitive evolves.
Proof.
  intros a b c [E1 R1 S1 I1 Q1] [E2 R2 S2 I2 Q2].
  split; [lia | set_solver | intros id; by transitivity (spent_of b id) | auto | congruence].
Qed.

Lemma issued_evolves a tok :
  auth_inv a -> let a' := with_issued (<[tk_ID tok := tok]> (a_issued a)) a in
  auth_inv a' /\ evolves a a'.
Proof.
  intros Hi a'. split; [by destruct Hi; split |]. split; try done.
  intros id Hid. simpl. destruct (decide (tk_ID tok = id)) as [<-|Hn];
    [rewrite lookup_insert_eq; by eexists | by rewrite lookup_insert_ne].
Qed.

Lemma spent_insert a id n id' :
  spent_of (with_spent (<[id := n]> (a_spent a)) a) id' =
  if bool_decide (id = id') then n else spent_of a id'.
Proof.
  unfold spent_of. simpl. case_bool_decide as E; [subst; by rewrite lookup_insert_eq |].
  by rewrite lookup_insert_ne.
Qed.

Lemma Verify_spends now real tok a :
  auth_inv a -> is_i64 (co_MaxUses (tk_Constraints tok)) ->
  auth_inv (Verify now real tok a).1 /\ evolves a (Verify now real tok a).1.
Proof.
  intros Hi Hm. destruct (Verify_state now real tok a) as [->|Hok]; [done |].
  apply Verify_accepts in Hok as (_ & _ & _ & _ & ->).
  pose proof (check_uses_state tok true a) as Hu. destruct (check_uses tok true a) as [a' r].
  destruct Hu as [->|(-> & _ & n & -> & Hn)]; [done |]. simpl.
  pose proof Hi as [He Hc Hs]. pose proof (Hs (tk_ID tok)) as Hid.
  assert (spent_of a (tk_ID tok) <= n < 2 ^ 63) as Hle.
  { destruct Hn as [(_ & Hz & ->)|(_ & _ & Hlt & ->)]; [lia |].
    rewrite i64_small; unfold is_i64 in *; lia. }
  clear Hn. split.
  - split; [done | done |]. intros id. rewrite spent_insert. case_bool_decide; [lia | apply Hs].
  - split; try done. intros id. rewrite spent_insert. case_bool_decide; [subst; lia | done].
Qed.

Lemma astep_evolves a l a' : auth_inv a -> astep a l a' -> auth_inv a' /\ evolves a a'.
Proof.
  intros Hi Hs. destruct Hs as [env req a|now real tok a Hm|id a|a|real parent child a _ _|keys keys' a _|c c' a Hc Hle Hu].
  - destruct (Issue_state env req a) as [[-> _]|(tok & _ & -> & _)]; [done | by apply issued_evolves].
  - by apply Verify_spends.
  - unfold Revoke. destruct (a_issued a !! id); [|done]. split; [by destruct Hi; split |].
    split; try done. simpl. set_solver.
  - destruct (AdvanceEpoch_spec a Hi) as (Hi' & Hle & _ & Hr & Hsp & His).
    split; [done |]. split; [done | by rewrite Hr | | by rewrite His |].
    + intros id. unfold spent_of. by rewrite Hsp.
    + unfold AdvanceEpoch. repeat case_match; done.
  - destruct (finish_state real parent child a) as [[-> _]|(tok & _ & -> & _)]; [done | by apply issued_evolves].
  - split; [by destruct Hi; split | by split].
  - split; [|by split]. destruct Hi as [He Hr Hsp]. destruct (Hr c Hc).
    split; [done | | done]. intros c0 [= <-]. split; [|done]. simpl. lia.
Qed.

Lemma run_evolves a0 tr a : auth_inv a0 -> run a0 tr a -> auth_inv a /\ evolves a0 a.
Proof.
  intros Hi. induction 1 as [|tr a l a' _ [Hi' He] Hs]; [done |].
  destruct (astep_evolves a l a' Hi' Hs) as [Hi'' He']. split; [done |]. by transitivity a.
Qed.

(** [Delegate] is a run: its three critical sections with whatever others do in
    between. *)
Lemma Delegate_run env parent req a tr1 tr2 :
  auth_inv a -> (forall b, run b tr1 (de_between env b)) -> (forall b, run b tr2 (de_between' env b)) ->
  exists tr, run a tr (Delegate env parent req a).1 /\
    forall child, (Delegate env parent req a).2 = inr child -> LMint (inr child) ∈ tr.
Proof.
  intros Hi H1 H2. unfold Delegate.
  destruct (verifyLocked (de_now env) (de_real env) parent false a) as [a1 r1] eqn:Ev.
  assert (a1 = a /\ (r1 = None -> tk_Epoch parent = a_epoch a)) as [-> Hep].
  { revert Ev. unfold verifyLocked. repeat case_match; intros; simplify_eq; try done.
    pose proof (check_uses_state parent false a) as Hu. rewrite Ev in Hu.
    split; [by destruct Hu as [->|(_ & ? & _)] | intros _].
    match goal with H : negb _ = false |- _ =>
      apply negb_false_iff, bool_decide_eq_true in H; exact H end. }
  destruct r1 as [e|]; [exists []; split; [constructor | done] |].
  destruct (narrow _ _ _ _) as [e|req']; [exists []; split; [constructor | done] |].
  pose proof (st_issue (de_issue env) req' (de_between env a)) as Hs.
  pose proof (Issue_state (de_issue env) req' (de_between env a)) as Hst.
  destruct (Issue (de_issue env) req' (de_between env a)) as [b r] eqn:Ei. simpl in Hs, Hst.
  pose proof (run_cons _ _ _ _ _ (H1 a) Hs) as Hr.
  destruct r as [e|child]; [exists (LMint (inl e) :: tr1); split; [done | done] |].
  pose proof (run_app _ _ _ _ _ Hr (H2 b)) as Hr2.
  destruct (run_evolves _ _ _ Hi (H1 a)) as [Hi1 He1].
  destruct (astep_evolves _ _ _ Hi1 Hs) as [Hi2 He2].
  destruct (run_evolves _ _ _ Hi2 (H2 b)) as [_ He3].
  assert (is_Some (a_issued (de_between' env b) !! tk_ID child)) as Hin.
  { apply He3. destruct Hst as [[_ [e He]]|(tok & [= <-] & -> & _)]; [done |].
    simpl. rewrite lookup_insert_eq. by eexists. }
  assert (tk_Epoch parent <= a_epoch (de_between' env b)) as Hle.
  { rewrite Hep by done. destruct He1, He2, He3. lia. }
  pose proof (st_finish (de_sign env) parent child _ Hin Hle) as Hf.
  eexists. split; [exact (run_cons _ _ _ _ _ Hr2 Hf) |]. intros c ->. left.
Qed.

(** ** Limited tokens *)

(** The number of uses a token's constraints allow. *)
Definition use_limit (c : Constraints) : option Z :=
  if co_SingleUse c || bool_decide (co_MaxUses c = 1) then Some 1
  else if bool_decide (1 < co_MaxUses c) then Some (co_MaxUses c) else None.

#[local] Instance Constraints_dec : EqDecision Constraints.
Proof. solve_decision. Defined.
#[local] Instance signBody_dec : EqDecision signBody.
Proof. solve_decision. Defined.
#[local] Instance Token_dec : EqDecision Token.
Proof. solve_decision. Defined.

Definition accepts (tok : Token) (l : label) : bool :=
  match l with LVerify t None => bool_decide (t = tok) | _ => false end.

Definition accepted (tok : Token) (tr : list label) : Z :=
  Z.of_nat (length (filter (fun l => accepts tok l = true) tr)).

Lemma accepted_cons tok l tr :
  accepted tok (l :: tr) = (if accepts tok l then 1 else 0) + accepted tok tr.
Proof. unfold accepted. rewrite filter_cons. destruct (accepts tok l); simpl; lia. Qed.

(** An accepted use of a limited token was below its limit and is counted. *)
Lemma accepted_use a l a' tok n :
  auth_inv a -> astep a l a' -> accepts tok l = true -> use_limit (tk_Constraints tok) = Some n ->
  spent_of a (tk_ID tok) < n /\ spent_of a' (tk_ID tok) = spent_of a (tk_ID tok) + 1.
Proof.
  intros Hi Hs Hl Hn. destruct Hs as [|now real t a Hm| | | | |]; try done. cbn [accepts] in Hl.
  destruct (Verify now real t a).2 eqn:Hv; [done |]. apply bool_decide_eq_true in Hl as ->.
  destruct (Verify_accepts _ _ _ _ Hv) as (_ & _ & _ & _ & Hv').
  destruct (ai_spent a Hi (tk_ID tok)) as [Hz _]. unfold is_i64 in Hm.
  rewrite Hv' in Hv. rewrite Hv'. revert Hv Hn. clear - Hz Hm. unfold check_uses, use_limit.
  destruct (co_SingleUse _ || _).
  - destruct (bool_decide_reflect (0 < spent_of a (tk_ID tok))); [done |].
    intros _ [= <-]. simpl. rewrite spent_insert, bool_decide_eq_true_2 by done. lia.
  - destruct (bool_decide_reflect (1 < co_MaxUses (tk_Constraints tok))); [|done].
    destruct (bool_decide_reflect (co_MaxUses (tk_Constraints tok) <= spent_of a (tk_ID tok))); [done |].
    intros _ [= <-]. simpl. rewrite spent_insert, bool_decide_eq_true_2 by done.
    rewrite i64_small; unfold is_i64; lia.
Qed.

(** C28: A token limited to [n] uses is accepted at most [n] times, over any
    interleaving of issues, verifications, delegations, revocations and epoch
    changes. *)
Theorem uses_bounded a0 tr a tok n :
  auth_inv a0 -> run a0 tr a -> use_limit (tk_Constraints tok) = Some n -> accepted tok tr <= n.
Proof.
  intros Hi Hr Hn.
  enough (accepted tok tr <= n /\ accepted tok tr <= spent_of a (tk_ID tok)) by tauto.
  induction Hr as [|tr a l a' Hr [IH1 IH2] Hs].
  - split; unfold accepted; simpl; [|apply (ai_spent a0 Hi)].
    revert Hn. unfold use_limit. repeat case_match; intros; simplify_eq; [lia |].
    match goal with H : bool_decide _ = true |- _ => apply bool_decide_eq_true in H end. lia.
  - destruct (run_evolves _ _ _ Hi Hr) as [Hi' _]. rewrite accepted_cons.
    destruct (accepts tok l) eqn:El.
    + destruct (accepted_use a l a' tok n Hi' Hs El Hn). lia.
    + destruct (astep_evolves a l a' Hi' Hs) as [_ He]. pose proof (ev_spent _ _ He (tk_ID tok)). lia.
Qed.

(** ** Revocation and epochs *)

(** Every token handed out carries an epoch that has been reached. *)
Lemma minted_epoch a0 tr a tok :
  auth_inv a0 -> run a0 tr a -> LMint (inr tok) ∈ tr ->
  tk_Epoch tok <= a_epoch a /\ is_Some (a_issued a !! tk_ID tok).
Proof.
  intros Hi. induction 1 as [|tr a l a' Hr IH Hs]; [by intros ?%elem_of_nil |].
  destruct (run_evolves _ _ _ Hi Hr) as [Hi' _].
  destruct (astep_evolves a l a' Hi' Hs) as [_ He].
  intros [E|Hin]%elem_of_cons.
  2: { destruct (IH Hin). split; [|by apply He]. destruct He. lia. }
  subst l. inversion Hs as [env req b Hl Hb|now real t b Hb Hl|id b Hl|b Hl|real parent child b Hb Hep Hl| |]; subst.
  - destruct (Issue_state env req a) as [[_ [e E]]|(t & E & -> & (nonce & id & Hbody))]; [congruence |].
    assert (t = tok) as -> by congruence. simpl. rewrite lookup_insert_eq.
    split; [unfold tk_Epoch; rewrite Hbody; simpl; lia | by eexists].
  - destruct (finish_state real parent child a) as [[_ [e E]]|(t & E & -> & Hbody)]; [congruence |].
    assert (t = tok) as -> by congruence. simpl. rewrite lookup_insert_eq.
    split; [unfold tk_Epoch; rewrite Hbody; simpl; done | by eexists].
Qed.

Lemma refused_after a0 tr a tok :
  auth_inv a0 -> run a0 tr a ->
  tk_ID tok ∈ a_revoked a0 \/ tk_Epoch tok < a_epoch a0 -> LVerify tok None ∉ tr.
Proof.
  intros Hi Hr Hd. induction Hr as [|tr a l a' Hr IH Hs]; [apply not_elem_of_nil |].
  apply not_elem_of_cons. split; [|done]. intros <-.
  destruct (run_evolves _ _ _ Hi Hr) as [_ He].
  inversion Hs as [|now real t b Hb Hv| | | | |]; subst.
  match goal with H : snd _ = None |- _ => apply Verify_accepts in H as (Hrev & Hep & _) end.
  destruct Hd as [Hd|Hd]; [apply Hrev; by apply He | destruct He; lia].
Qed.

(** C29: A revoked token is never accepted again, and neither is any token handed
    out before a change of epoch, whatever happens after. *)
Theorem dead_tokens_stay_dead a0 tr2 l tr1 a tok :
  auth_inv a0 -> run a0 (tr2 ++ l :: tr1) a ->
  l = LRevoke (tk_ID tok) None \/
  (exists e, l = LAdvance (e, None) /\ (LMint (inr tok) ∈ tr1 \/ tk_Epoch tok < e)) ->
  LVerify tok None ∉ tr2.
Proof.
  intros Hi Hr Hl. destruct (run_split _ _ _ _ Hr) as (b & Hb & Hr2).
  inversion Hb as [|? a1 ? ? Hr1 Hs]; subst. destruct (run_evolves _ _ _ Hi Hr1) as [Hi1 _].
  destruct (astep_evolves _ _ _ Hi1 Hs) as [Hi2 _].
  eapply refused_after; [exact Hi2 | exact Hr2 |].
  destruct Hl as [->|(e & -> & Hm)].
  - left. inversion Hs; subst.
    match goal with H : snd (Revoke _ _) = None |- _ => revert H end. unfold Revoke.
    case_match; simpl; [set_solver | done].
  - right. inversion Hs as [| | |c Ha| | |]; subst.
    destruct (AdvanceEpoch_spec a1 Hi1) as (_ & _ & Hadv & _). destruct (Hadv e) as [H1 H2]; [done |].
    rewrite H2. destruct Hm as [Hm|Hm]; [|done].
    destruct (minted_epoch _ _ _ _ Hi Hr1 Hm). lia.
Qed.

(** ** Authenticity *)

(** What [encoding/json] prints without loss, through the [float64] numbers of
    [CanonicalJSON]: valid UTF-8 text and integers below 2^53. *)
Definition utf8 (s : string) : Prop := RuneError ∉ range s.

Definition printable (b : signBody) : Prop :=
  Forall utf8 ([sb_ID b; sb_Subject b; sb_Permission b; sb_Resource b; sb_Nonce b; sb_ParentID b;
                co_Environment (sb_Constraints b)] ++ co_AllowedResources (sb_Constraints b)) /\
  0 <= sb_Epoch b < 2 ^ 53 /\ Z.abs (co_MaxUses (sb_Constraints b)) < 2 ^ 53.

(** Two bodies with the same canonical text are equal when one is printable. *)
Definition faithful_json : Prop := forall b b' p,
  printable b -> CanonicalJSON marshal b = inr p -> CanonicalJSON marshal b' = inr p -> b' = b.

(** The bearer did not forge: a trusted key accepts the token's signature only for
    a text that was signed for a token the authority handed out. *)
Definition not_forged (tr : list label) (keys : KeyRing) (tok : Token) : Prop :=
  forall id pk p, keys !! id = Some pk -> ed_Verify (pk_Public pk) p (tk_Signature tok) = true ->
  exists t, LMint (inr t) ∈ tr /\ CanonicalJSON marshal (tk_body t) = inr p.

(** C30: An authority with a signing key accepts only what it handed out: an
    accepted token has the subject, permission, resource, expiry, limits and epoch
    of a token the authority issued or delegated, and can be revoked, after which
    it is refused. *)
Theorem accepted_is_authentic a0 tr a keys now real tok now' real' :
  auth_inv a0 -> a_requireSig a0 = true -> run a0 tr a ->
  faithful_json -> printable (tk_body tok) ->
  a_keys a = Some keys -> not_forged tr keys tok ->
  (Verify now real tok a).2 = None ->
  (exists t, LMint (inr t) ∈ tr /\ tk_body t = tk_body tok) /\
  let '(a', r) := Revoke (tk_ID tok) (Verify now real tok a).1 in
  r = None /\ (Verify now' real' tok a').2 = Some ErrRevoked.
Proof.
  intros Hi Hq Hr Hj Hp Hk Hf Hv. destruct (run_evolves _ _ _ Hi Hr) as [Hi' He].
  destruct (Verify_accepts _ _ _ _ Hv) as (_ & _ & _ & Hs & Hvu).
  assert (exists t, LMint (inr t) ∈ tr /\ tk_body t = tk_body tok) as (t & Ht & Hb).
  { revert Hs. unfold check_signature. rewrite (ev_requireSig _ _ He), Hq, Hk. simpl.
    destruct (VerifyCanonical _ _ _ _ _) eqn:Evc; [done | intros _].
    apply VerifyCanonical_sound in Evc as (p & r & pk & Hc & [= <-] & Hl & _ & Hed).
    destruct (Hf _ _ _ Hl Hed) as (t & Ht & Hct). exists t. split; [done |]. by eapply Hj. }
  split; [by exists t |].
  destruct (minted_epoch _ _ _ _ Hi Hr Ht) as [_ [t' Hiss]].
  assert (a_issued (Verify now real tok a).1 = a_issued a) as Hsame.
  { rewrite Hvu. pose proof (check_uses_state tok true a) as Hu. destruct (check_uses tok true a).
    by destruct Hu as [->|(_ & _ & n & -> & _)]. }
  unfold Revoke. rewrite Hsame. unfold tk_ID in Hiss |- *. rewrite Hb in Hiss. rewrite Hiss.
  split; [done |]. unfold Verify, verifyLocked. rewrite bool_decide_eq_true_2; [done |].
  simpl. unfold tk_ID. set_solver.
Qed.

(** ** Delegation *)

Lemma permissionReduces_trans p c g :
  permissionReduces p c = true -> permissionReduces c g = true -> permissionReduces p g = true.
Proof.
  unfold permissionReduces at 1. case_bool_decide as E; [by subst |].
  destruct (strip_suffix ".*" p) as [pre|] eqn:Ep; [|done]. intros [Hpre Hno]%andb_true_iff.
  unfold permissionReduces at 1. case_bool_decide as E'.
  { intros _. subst g. unfold permissionReduces. rewrite bool_decide_eq_false_2, Ep by done.
    by rewrite Hpre, Hno. }
  destruct (strip_suffix ".*" c) as [pre'|] eqn:Ec; [|done].
  apply strip_suffix_spec in Ec. exfalso. revert Hno. rewrite Ec. clear.
  rewrite negb_true_iff. induction pre' as [|x pre' IH]; cbn [contains_byte String.append]; [done |].
  intros [_ H]%orb_false_iff. by apply IH.
Qed.

Lemma permissionReduces_covers p c : permissionReduces p c = true -> covers p c.
Proof.
  unfold permissionReduces. case_bool_decide as E; [by constructor |].
  destruct (strip_suffix ".*" p) as [pre|] eqn:Ep; [|done].
  intros [[rest ->]%prefix_app Hno%negb_true_iff]%andb_true_iff. apply strip_suffix_spec in Ep.
  eapply covers_below; [exact Ep | | exact Hno]. apply append_assoc.
Qed.

Lemma narrow_spec parent now real req req' :
  narrow parent now real req = inr req' ->
  permissionReduces (tk_Permission parent) (rq_Permission req') = true /\
  (tk_Resource parent ≠ "" -> rq_Resource req' = tk_Resource parent) /\
  0 < rq_TTL req' /\
  (rq_TTL req' <= tk_ExpiresAt parent - now \/ rq_TTL req' <= tk_ExpiresAt parent - real) /\
  rq_Constraints req' = rq_Constraints req.
Proof.
  unfold narrow. destruct (permissionReduces _ _) eqn:Hp; [|done]. cbn [negb].
  destruct (bool_decide_reflect (tk_Resource parent = "")) as [Hr|Hr]; cbn [negb andb].
  2: destruct (bool_decide_reflect (rq_Resource req = "")) as [Hq|Hq]; cbn [negb andb];
     [|destruct (bool_decide_reflect (tk_Resource parent = rq_Resource req)) as [Heq|]; [|done]; cbn [negb]].
  all: unfold Before, Add;
    destruct (bool_decide_reflect (rq_TTL req <= 0)) as [H0|H0];
    destruct (bool_decide_reflect (tk_ExpiresAt parent < now + rq_TTL req)) as [H1|H1]; cbn [orb];
    [destruct (bool_decide_reflect (tk_ExpiresAt parent - real <= 0)) as [H2|H2]; [done |] ..|];
    try (destruct (bool_decide_reflect (tk_ExpiresAt parent - real < rq_TTL req)) as [H3|H3]);
    intros [= <-]; cbn [rq_Permission rq_Resource rq_TTL rq_Constraints];
    repeat split; try done; try lia.
Qed.

(** How much later the child's lifetime was measured than the parent's remaining
    one: nothing when the clocks agree and do not move during the call. *)
Definition clock_lag (env : delegate_env) : Z :=
  Z.max 0 (ie_now (de_issue env) - Z.min (de_now' env) (de_real' env)).

Lemma Delegate_spec env parent req a a' child :
  Delegate env parent req a = (a', inr child) ->
  (verifyLocked (de_now env) (de_real env) parent false a).2 = None /\
  permissionReduces (tk_Permission parent) (tk_Permission child) = true /\
  (tk_Resource parent ≠ "" -> tk_Resource child = tk_Resource parent) /\
  tk_Epoch child = tk_Epoch parent /\ tk_ParentID child = tk_ID parent /\
  ie_now (de_issue env) < tk_ExpiresAt child <= tk_ExpiresAt parent + clock_lag env /\
  tk_Constraints child = rq_Constraints req /\ a_issued a' !! tk_ID child = Some child.
Proof.
  unfold Delegate. destruct (verifyLocked _ _ _ _ _) as [a1 [e|]] eqn:Ev; [done |].
  destruct (narrow _ _ _ _) as [e|req'] eqn:En; [done |].
  pose proof (Issue_state (de_issue env) req' (de_between env a1)) as Hst.
  destruct (Issue _ _ _) as [b [e|c]]; [done |]. simpl in Hst.
  destruct Hst as [[_ [e He]]|(t & [= <-] & _ & nonce & id & Hc)]; [done |].
  pose proof (finish_state (de_sign env) parent c (de_between' env b)) as Hf. intros Hd.
  rewrite Hd in Hf. simpl in Hf. destruct Hf as [[_ [e He]]|(t & [= <-] & -> & Hb)]; [done |].
  destruct (narrow_spec _ _ _ _ _ En) as (H1 & H2 & H3 & H4 & H5).
  unfold tk_Permission, tk_Resource, tk_Epoch, tk_ParentID, tk_ExpiresAt, tk_Constraints in *.
  rewrite Hb. unfold adopt. cbn [tk_body sb_Permission sb_Resource sb_Epoch sb_ParentID sb_ExpiresAt sb_Constraints].
  rewrite Hc. unfold fresh_token. cbn [tk_body sb_Permission sb_Resource sb_ExpiresAt sb_Constraints].
  unfold effective_ttl, Add, clock_lag. rewrite bool_decide_eq_false_2 by lia.
  simpl. rewrite lookup_insert_eq. repeat split; try done; destruct H4; lia.
Qed.

(** Tokens obtained from [root] by delegation, each in some state of the authority,
    with the clock lag of the calls added up. *)
Inductive descends (root : Token) : Token -> Z -> Prop :=
| descends_root : descends root root 0
| descends_child parent lag env req a a' child :
    descends root parent lag -> Delegate env parent req a = (a', inr child) ->
    descends root child (lag + clock_lag env).

(** C31: Delegation only narrows, along a chain of any length: a descendant's
    permission is the root's or falls under its wildcard, its resource is the
    root's when the root names one, its epoch is the root's, and it does not outlive
    the root by more than the time that passed inside the delegation calls. *)
Theorem delegation_narrows root leaf lag :
  descends root leaf lag ->
  covers (tk_Permission root) (tk_Permission leaf) /\
  (tk_Resource root ≠ "" -> tk_Resource leaf = tk_Resource root) /\
  tk_Epoch leaf = tk_Epoch root /\
  tk_ExpiresAt leaf <= tk_ExpiresAt root + lag.
Proof.
  intros Hd. enough (permissionReduces (tk_Permission root) (tk_Permission leaf) = true /\
    (tk_Resource root ≠ "" -> tk_Resource leaf = tk_Resource root) /\
    tk_Epoch leaf = tk_Epoch root /\ tk_ExpiresAt leaf <= tk_ExpiresAt root + lag) as [Hp Hr]
    by (split; [by apply permissionReduces_covers | done]).
  induction Hd as [|parent lag env req a a' child _ (IH1 & IH2 & IH3 & IH4) Hd].
  - split; [unfold permissionReduces; by rewrite bool_decide_eq_true_2 |]. repeat split; done || lia.
  - apply Delegate_spec in Hd as (_ & H1 & H2 & H3 & _ & H4 & _).
    split; [by eapply permissionReduces_trans |]. split; [|split; [congruence | lia]].
    intros Hr. specialize (IH2 Hr). rewrite H2; congruence.
Qed.
End Capability.

(** ** A concrete authority *)

(** A printer of bodies: the fields one after the other. *)
Definition body_fields (b : signBody) :=
  let c := sb_Constraints b in
  ([sb_ID b; sb_Subject b; sb_Permission b; sb_Resource b; sb_Nonce b; sb_ParentID b; co_Environment c],
   co_AllowedResources c, [sb_IssuedAt b; sb_ExpiresAt b; sb_Epoch b; co_MaxUses c], co_SingleUse c).

Lemma body_fields_inj b b' : body_fields b = body_fields b' -> b = b'.
Proof. destruct b as [? ? ? ? ? ? [] ? ? ?], b' as [? ? ? ? ? ? [] ? ? ?]. unfold body_fields. simpl. congruence. Qed.

Definition body_text (f : list string * list string * list Z * bool) : bytes :=
  ((print_list print_string f.1.1.1 ++ print_list print_string f.1.1.2) ++ print_list print f.1.2) ++ print f.2.

Definition body_json (b : signBody) : option bytes := Some (body_text (body_fields b)).

Lemma body_text_delimited : delimited body_text.
Proof.
  pose proof (delimited_list _ delimited_string) as Hs.
  pose proof (delimited_list _ (delimited_print (A := Z))) as Hz.
  exact (delimited_pair _ _ (delimited_pair _ _ (delimited_pair _ _ Hs Hs) Hz) (delimited_print (A := bool))).
Qed.

Lemma body_json_faithful : faithful_json (J := toy_jsonlib) body_json.
Proof.
  intros b b' p _. unfold CanonicalJSON, body_json, canonicalizeJSON.
  cbn [json_Unmarshal json_Marshal toy_jsonlib normalize].
  rewrite !String.list_ascii_of_string_of_list_ascii. intros E1 E2.
  apply body_fields_inj, (delimited_inj _ _ _ body_text_delimited). congruence.
Qed.

Lemma authority_new_inv opts :
  Forall (fun o => match o with WithReplayCache (Some c) => is_u64 (c_epoch c) | _ => True end) opts ->
  auth_inv (New opts).
Proof.
  intros Hopts. unfold New. assert (auth_inv (mkAuthority None None 0 (Some (AntiReplay.New 4096)) ∅ ∅ ∅ false)
    /\ a_epoch (mkAuthority None None 0 (Some (AntiReplay.New 4096)) ∅ ∅ ∅ false) = 0) as H.
  { split; [|done]. split; [by vm_compute | intros c [= <-]; by vm_compute | intros id; by vm_compute]. }
  revert H. generalize (mkAuthority None None 0 (Some (AntiReplay.New 4096)) ∅ ∅ ∅ false).
  induction Hopts as [|o opts Ho _ IH]; intros a [Hi H0]; [done |]. cbn [foldl]. apply IH.
  destruct o as [k r|r|c]; (split; [|done]); destruct Hi as [He Hr Hs]; split; try done.
  intros c' [= ->]. simpl. rewrite H0. split; [apply Ho | done].
Qed.

Definition d_ring : KeyRing := (Ring_Add (PublicView toy_key) NewKeyRing).1.
Definition d_auth : Authority := New [WithSigner toy_key (Some d_ring)].

Definition d_limits (n : Z) : Constraints := mkConstraints false "" n [].
Definition d_env (id : ascii) (now : Time) : issue_env := mkIssueEnv (Some ["n"%char]) (Some [id]) now now.
Definition d_request (perm : string) (n : Z) : Request := mkRequest "ops" perm "db" 400 (d_limits n).

(** The toy instances of the parameters. *)
Definition d_Issue := Issue (J := toy_jsonlib) (ED := toy_ed25519) body_json.
Definition d_Verify := Verify (J := toy_jsonlib) (ED := toy_ed25519) body_json.
Definition d_Delegate := Delegate (J := toy_jsonlib) (ED := toy_ed25519) body_json.

Definition d_null : Token := mkToken (mkSignBody "" "" "" "" 0 0 (d_limits 0) "" 0 "") [] "".
Definition d_get (r : cap_error + Token) : Token := match r with inr t => t | inl _ => d_null end.

(** A token for [claim.*] with two uses: issued, used twice, refused, revoked. *)
Definition d_a1 : Authority := (d_Issue (d_env "A"%char 100) (d_request "claim.*" 2) d_auth).1.
Definition d_tok : Token := d_get (d_Issue (d_env "A"%char 100) (d_request "claim.*" 2) d_auth).2.
Definition d_a2 : Authority := (d_Verify 200 200 d_tok d_a1).1.
Definition d_a3 : Authority := (d_Verify 201 201 d_tok d_a2).1.
Definition d_a4 : Authority := (d_Verify 202 202 d_tok d_a3).1.
Definition d_a5 : Authority := (Revoke (tk_ID d_tok) d_a4).1.
Definition d_a6 : Authority := (d_Verify 203 203 d_tok d_a5).1.

Lemma d_issue : (d_Issue (d_env "A"%char 100) (d_request "claim.*" 2) d_auth).2 = inr d_tok.
Proof. vm_compute. reflexivity. Qed.

Lemma d_answers :
  (d_Verify 200 200 d_tok d_a1).2 = None /\ (d_Verify 201 201 d_tok d_a2).2 = None /\
  (d_Verify 202 202 d_tok d_a3).2 = Some ErrSingleUseSpent /\
  (Revoke (tk_ID d_tok) d_a4).2 = None /\ (d_Verify 203 203 d_tok d_a5).2 = Some ErrRevoked.
Proof. vm_compute. repeat split. Qed.

Lemma d_max : is_i64 (co_MaxUses (tk_Constraints d_tok)).
Proof. vm_compute. split; congruence. Qed.

Lemma d_inv : auth_inv d_auth.
Proof. apply authority_new_inv. constructor; [exact I | constructor]. Qed.

Abbreviation d_run := (run (J := toy_jsonlib) (ED := toy_ed25519) body_json d_auth) (only parsing).

Lemma d_run1 : d_run [LMint (inr d_tok)] d_a1.
Proof. rewrite <- d_issue. eapply run_cons; [apply run_nil |]. apply st_issue. Qed.

Lemma d_run4 : d_run [LVerify d_tok (Some ErrSingleUseSpent); LVerify d_tok None; LVerify d_tok None;
    LMint (inr d_tok)] d_a4.
Proof.
  destruct d_answers as (H1 & H2 & H3 & _).
  eapply run_cons; [eapply run_cons; [eapply run_cons; [apply d_run1 |] |] |];
    [rewrite <- H1 | rewrite <- H2 | rewrite <- H3]; apply st_verify, d_max.
Qed.

Lemma d_run6 : d_run ([LVerify d_tok (Some ErrRevoked)] ++ LRevoke (tk_ID d_tok) None ::
    [LVerify d_tok (Some ErrSingleUseSpent); LVerify d_tok None; LVerify d_tok None; LMint (inr d_tok)]) d_a6.
Proof.
  destruct d_answers as (_ & _ & _ & H4 & H5).
  eapply run_cons; [eapply run_cons; [apply d_run4 |] |].
  - rewrite <- H4. apply st_revoke.
  - rewrite <- H5. apply st_verify, d_max.
Qed.

Lemma uses_bounded_witness :
  accepted d_tok [LVerify d_tok (Some ErrSingleUseSpent); LVerify d_tok None; LVerify d_tok None;
    LMint (inr d_tok)] <= 2.
Proof.
  apply (uses_bounded (J := toy_jsonlib) (ED := toy_ed25519) body_json d_auth _ d_a4 d_tok 2);
    [exact d_inv | exact d_run4 | vm_compute; reflexivity].
Defined.

Lemma dead_tokens_stay_dead_witness : LVerify d_tok None ∉ [LVerify d_tok (Some ErrRevoked)].
Proof.
  apply (dead_tokens_stay_dead (J := toy_jsonlib) (ED := toy_ed25519) body_json d_auth _
    (LRevoke (tk_ID d_tok) None) _ d_a6 d_tok d_inv d_run6). left. reflexivity.
Defined.

Lemma d_not_forged : not_forged (J := toy_jsonlib) (ED := toy_ed25519) body_json [LMint (inr d_tok)] d_ring d_tok.
Proof.
  intros id pk p Hl Hv. exists d_tok. split; [left |].
  assert (pk = PublicView toy_key) as ->.
  { revert Hl. change d_ring with ({["ed25519:01" := PublicView toy_key]} : KeyRing).
    rewrite lookup_singleton_Some. by intros [_ <-]. }
  apply bool_decide_eq_true in Hv.
  assert (exists q, CanonicalJSON (J := toy_jsonlib) body_json (tk_body d_tok) = inr q /\
    tk_Signature d_tok = sk_Public toy_key ++ q) as (q & Hq & Hs).
  { eexists. split; vm_compute; reflexivity. }
  rewrite Hq. f_equal. rewrite Hs in Hv. by apply app_inv_head in Hv.
Qed.

Lemma d_printable : printable (tk_body d_tok).
Proof.
  split; [|vm_compute; repeat split; congruence].
  apply Forall_forall. intros s Hs.
  assert (forallb (fun s => negb (existsb (Z.eqb RuneError) (range s)))
    ([sb_ID (tk_body d_tok); sb_Subject (tk_body d_tok); sb_Permission (tk_body d_tok);
      sb_Resource (tk_body d_tok); sb_Nonce (tk_body d_tok); sb_ParentID (tk_body d_tok);
      co_Environment (sb_Constraints (tk_body d_tok))] ++
     co_AllowedResources (sb_Constraints (tk_body d_tok))) = true) as Hall by (vm_compute; reflexivity).
  rewrite forallb_forall in Hall. apply list_elem_of_In in Hs. specialize (Hall s Hs).
  intros Hin. apply negb_true_iff in Hall. apply not_true_iff_false in Hall. apply Hall.
  apply existsb_exists. exists RuneError. split; [by apply list_elem_of_In | apply Z.eqb_refl].
Qed.

Lemma accepted_is_authentic_witness :
  (exists t, LMint (inr t) ∈ [LMint (inr d_tok)] /\ tk_body t = tk_body d_tok) /\
  let '(a', r) := Revoke (tk_ID d_tok) (d_Verify 200 200 d_tok d_a1).1 in
  r = None /\ (d_Verify 300 300 d_tok a').2 = Some ErrRevoked.
Proof.
  apply (accepted_is_authentic (J := toy_jsonlib) (ED := toy_ed25519) body_json d_auth _ d_a1 d_ring
    200 200 d_tok 300 300); [exact d_inv | reflexivity | exact d_run1 | exact body_json_faithful
    | exact d_printable | vm_compute; reflexivity | exact d_not_forged | apply d_answers].
Defined.

(** A delegation at an instant, undisturbed. *)
Definition d_still (id : ascii) (now : Time) : delegate_env :=
  mkDelegateEnv now now now now (d_env id now) now (fun a => a) (fun a => a).
Definition d_child : Token :=
  d_get (d_Delegate (d_still "B"%char 150) d_tok (mkRequest "" "claim.revoke" "" 0 (d_limits 0)) d_a1).2.

Lemma d_delegate : exists a',
  d_Delegate (d_still "B"%char 150) d_tok (mkRequest "" "claim.revoke" "" 0 (d_limits 0)) d_a1 = (a', inr d_child).
Proof. eexists. vm_compute. reflexivity. Qed.

Lemma d_descends : descends (J := toy_jsonlib) (ED := toy_ed25519) body_json d_tok d_child (0 + clock_lag (d_still "B"%char 150)).
Proof. destruct d_delegate as [a' H]. eapply descends_child; [apply descends_root | exact H]. Qed.

Lemma delegation_narrows_witness :
  covers "claim.*" "claim.revoke" /\ tk_Resource d_child = "db" /\
  tk_Epoch d_child = 0 /\ tk_ExpiresAt d_child <= 500.
Proof.
  destruct (delegation_narrows (J := toy_jsonlib) (ED := toy_ed25519) body_json _ _ _ d_descends)
    as (H1 & H2 & H3 & H4).
  split; [exact H1 |]. split; [apply H2; vm_compute; discriminate |]. split; [exact H3 | exact H4].
Defined.

(** The parent's limits do not bind its children: a single-use token gives out
    unlimited children, as often as asked, and is itself not used up. *)
Definition d_single : Token :=
  d_get (d_Issue (d_env "S"%char 100) (mkRequest "ops" "claim.*" "db" 400 (mkConstraints true "prod" 0 [])) d_auth).2.
Definition d_s1 : Authority :=
  (d_Issue (d_env "S"%char 100) (mkRequest "ops" "claim.*" "db" 400 (mkConstraints true "prod" 0 [])) d_auth).1.
Definition d_loose : Request := mkRequest "" "claim.revoke" "" 0 (d_limits 0).

Lemma delegate_sheds_limits :
  let '(a1, r1) := d_Delegate (d_still "B"%char 150) d_single d_loose d_s1 in
  let '(a2, r2) := d_Delegate (d_still "C"%char 160) d_single d_loose a1 in
  let c := d_get r1 in
  use_limit (tk_Constraints d_single) = Some 1 /\ use_limit (tk_Constraints c) = None /\
  co_Environment (tk_Constraints c) = "" /\
  (d_Verify 200 200 c a2).2 = None /\ (d_Verify 201 201 c (d_Verify 200 200 c a2).1).2 = None /\
  (d_Verify 200 200 (d_get r2) a2).2 = None /\ (d_Verify 200 200 d_single a2).2 = None.
Proof. vm_compute. repeat split. Qed.

(** Revoking a token leaves its children valid. *)
Lemma revoked_parent_child_valid :
  let '(a1, r1) := d_Delegate (d_still "B"%char 150) d_single d_loose d_s1 in
  let '(a2, r) := Revoke (tk_ID d_single) a1 in
  r = None /\ (d_Verify 200 200 d_single a2).2 = Some ErrRevoked /\ (d_Verify 200 200 (d_get r1) a2).2 = None.
Proof. vm_compute. repeat split. Qed.
