(* ===== verification/Barrier.v ===== *)
(** * Barriers ([barrier/barrier.go])

    A rendezvous of a bounded number of participants of one epoch.  [Wait] is split
    where it lets go of the mutex: a parked waiter is a channel, and its [select]
    is a later step that may see the channel closed or the context end. *)

From S2P Require Import Prelude.

(** ** Data *)

Inductive Policy := PolicyMinimumCount | PolicyQuorum | PolicyExact | PolicyAll | PolicyOther (s : string).

#[global] Instance Policy_eq_dec : EqDecision Policy.
Proof. solve_decision. Defined.

Inductive barrier_error :=
| ErrClosed | ErrFull | ErrEpoch | ErrDuplicate | ErrPolicy | MaxParticipantsRequired | ContextDone.

Record BConfig := mkBConfig {
  bc_Epoch : Z; bc_MaxParticipants : Z; bc_Policy : option Policy; bc_MinimumCount : Z }.

(** A channel is its number; [b_closed_chans] are the closed ones. *)
Record Barrier := mkBarrier {
  b_epoch : Z; b_max : Z; b_policy : Policy; b_min : Z;
  b_participants : gset string; b_released : bool; b_closed : bool;
  b_waiters : list nat; b_chans : nat; b_closed_chans : gset nat }.

(** ** Operations *)

Definition New (cfg : BConfig) : barrier_error + Barrier :=
  if bool_decide (bc_MaxParticipants cfg <= 0) then inl MaxParticipantsRequired
  else
    let policy := default PolicyMinimumCount (bc_Policy cfg) in
    let min := if bool_decide (bc_MinimumCount cfg <= 0) then bc_MaxParticipants cfg
               else bc_MinimumCount cfg in
    inr (mkBarrier (bc_Epoch cfg) (bc_MaxParticipants cfg) policy min ∅ false false [] 0 ∅).

Definition Count (b : Barrier) : Z := Z.of_nat (size (b_participants b)).

(** Go's [/] truncates towards zero. *)
Definition satisfiedLocked (b : Barrier) : bool :=
  let n := Count b in
  match b_policy b with
  | PolicyQuorum => let need := Z.quot (b_max b) 2 + 1 in bool_decide (need <= n)
  | PolicyExact => bool_decide (n = b_min b)
  | PolicyAll => bool_decide (b_max b <= n)
  | _ => bool_decide (b_min b <= n)
  end.

Definition releaseLocked (b : Barrier) : Barrier :=
  mkBarrier (b_epoch b) (b_max b) (b_policy b) (b_min b) (b_participants b) true (b_closed b)
    [] (b_chans b) (list_to_set (b_waiters b) ∪ b_closed_chans b).

Definition arrived (id : string) (b : Barrier) : Barrier :=
  mkBarrier (b_epoch b) (b_max b) (b_policy b) (b_min b) ({[id]} ∪ b_participants b) (b_released b)
    (b_closed b) (b_waiters b) (b_chans b) (b_closed_chans b).

Definition Arrive (participantID : string) (epoch : Z) (b : Barrier) : Barrier * option barrier_error :=
  if bool_decide (participantID = "") then (b, Some ErrPolicy)
  else if negb (bool_decide (epoch = b_epoch b)) then (b, Some ErrEpoch)
  else if b_closed b then (b, Some ErrClosed)
  else if bool_decide (participantID ∈ b_participants b) then (b, Some ErrDuplicate)
  else if bool_decide (b_max b <= Count b) then (b, Some ErrFull)
  else
    let b := arrived participantID b in
    (if satisfiedLocked b then releaseLocked b else b, None).

(** The critical section of [Wait]: it returns, or parks on a new channel. *)
Inductive wait_result := Returned (e : option barrier_error) | Parked (ch : nat).

Definition wait_enter (b : Barrier) : Barrier * wait_result :=
  if b_closed b then (b, Returned (Some ErrClosed))
  else if b_released b then (b, Returned None)
  else if bool_decide (b_max b <= Z.of_nat (length (b_waiters b))) then (b, Returned (Some ErrFull))
  else
    let ch := b_chans b in
    (mkBarrier (b_epoch b) (b_max b) (b_policy b) (b_min b) (b_participants b) (b_released b)
       (b_closed b) (b_waiters b ++ [ch]) (S ch) (b_closed_chans b), Parked ch).

(** The [select]: [ctx_done] tells whether the context has ended, [prefer_ctx]
    which case the runtime takes when both are ready.  [None] is still blocked. *)
Definition wait_select (ctx_done prefer_ctx : bool) (ch : nat) (b : Barrier)
  : option (option barrier_error) :=
  let ready := bool_decide (ch ∈ b_closed_chans b) in
  if ctx_done && (prefer_ctx || negb ready) then Some (Some ContextDone)
  else if ready then Some None
  else None.

Definition Released (b : Barrier) : bool := b_released b.

Definition Close (b : Barrier) : Barrier :=
  if b_closed b then b
  else releaseLocked (mkBarrier (b_epoch b) (b_max b) (b_policy b) (b_min b) (b_participants b)
    (b_released b) true (b_waiters b) (b_chans b) (b_closed_chans b)).

(** ** Executions *)

Inductive op := OArrive (id : string) (epoch : Z) | OWait | OClose.

Definition step (b : Barrier) (o : op) : Barrier :=
  match o with
  | OArrive id epoch => (Arrive id epoch b).1
  | OWait => (wait_enter b).1
  | OClose => Close b
  end.

Abbreviation run := (foldl step) (only parsing).

(** The number of participants the policy waits for. *)
Definition needed (b : Barrier) : Z :=
  match b_policy b with
  | PolicyQuorum => Z.quot (b_max b) 2 + 1
  | PolicyAll => b_max b
  | _ => b_min b
  end.

(** The participants whose arrival an operation list records: the named ones of
    the right epoch, up to the bound. *)
Record barrier_inv (b : Barrier) : Prop := mkBarrierInv {
  bi_bound : 0 <= Count b <= b_max b;
  bi_waiters : Z.of_nat (length (b_waiters b)) <= b_max b;
  bi_wake : b_released b = true -> b_waiters b = [];
  bi_parked : forall ch, (ch < b_chans b)%nat -> ch ∈ b_waiters b \/ ch ∈ b_closed_chans b;
  bi_chans : forall ch, ch ∈ b_closed_chans b -> b_released b = true;
  bi_sound : b_released b = true -> b_closed b = false -> needed b <= Count b;
  bi_complete : b_closed b = false -> needed b <= Count b -> b_released b = true;
  bi_named : "" ∉ b_participants b }.

Lemma needed_release b : needed (releaseLocked b) = needed b.
Proof. done. Qed.

Lemma satisfied_needed b : satisfiedLocked b = true -> needed b <= Count b.
Proof. unfold satisfiedLocked, needed. destruct (b_policy b); rewrite bool_decide_eq_true; lia. Qed.

Lemma reached_satisfied b : needed b = Count b -> satisfiedLocked b = true.
Proof. unfold satisfiedLocked, needed. destruct (b_policy b); rewrite bool_decide_eq_true; lia. Qed.

Lemma barrier_release_inv b :
  0 <= Count b <= b_max b -> (forall ch, (ch < b_chans b)%nat -> ch ∈ b_waiters b \/ ch ∈ b_closed_chans b) ->
  "" ∉ b_participants b -> (b_closed b = false -> needed b <= Count b) -> barrier_inv (releaseLocked b).
Proof.
  intros H1 H2 H3 H4. split; try done; simpl; [lia |].
  intros ch Hch. right. rewrite elem_of_union, elem_of_list_to_set. by apply H2.
Qed.

Lemma Count_arrived id b : id ∉ b_participants b -> Count (arrived id b) = Count b + 1.
Proof. intros H. unfold Count. simpl. rewrite size_union, size_singleton by set_solver. lia. Qed.

Lemma Arrive_inv id epoch b : barrier_inv b -> barrier_inv (Arrive id epoch b).1.
Proof.
  intros Hi. unfold Arrive. destruct (bool_decide_reflect (id = "")) as [|Hid]; [done |].
  destruct (negb _); [done |]. destruct (b_closed b) eqn:Hc; [done |].
  case_bool_decide as Hp; [done |]. case_bool_decide as Hm; [done |]. cbn [fst].
  destruct Hi as [H1 H2 H3 H4 H5 H6 H7 H8]. pose proof (Count_arrived id b Hp) as Hcount.
  assert ("" ∉ b_participants (arrived id b)) as Hn by (simpl; set_solver).
  destruct (satisfiedLocked (arrived id b)) eqn:Hs.
  - apply barrier_release_inv; [simpl; lia | exact H4 | done |]. intros _. by apply satisfied_needed.
  - split; simpl; try done; [lia | |].
    + intros Hr _. change (needed (arrived id b)) with (needed b). specialize (H6 Hr Hc). lia.
    + intros _. change (needed (arrived id b)) with (needed b). intros Hle.
      destruct (decide (needed b = Count (arrived id b))) as [E|]; [|apply H7; lia || done].
      apply (reached_satisfied (arrived id b)) in E. congruence.
Qed.

Lemma wait_inv b : barrier_inv b -> barrier_inv (wait_enter b).1.
Proof.
  intros Hi. unfold wait_enter. destruct (b_closed b) eqn:Hc; [done |].
  destruct (b_released b) eqn:Hr; [done |]. case_bool_decide as Hm; [done |].
  destruct Hi as [H1 H2 H3 H4 H5 H6 H7 H8].
  split; simpl; try done; [rewrite length_app; simpl; lia | | |].
  - intros ch Hch. rewrite elem_of_app, list_elem_of_singleton.
    destruct (decide (ch = b_chans b)) as [->|]; [by left; right |].
    destruct (H4 ch); [lia | by left; left | by right].
  - intros ch Hch. by rewrite (H5 ch Hch) in Hr.
  - intros _ Hle. by rewrite H7 in Hr.
Qed.

Lemma barrier_close_inv b : barrier_inv b -> barrier_inv (Close b).
Proof.
  intros Hi. unfold Close. destruct (b_closed b) eqn:Hc; [done |].
  destruct Hi as [H1 H2 H3 H4 H5 H6 H7 H8]. apply barrier_release_inv; done.
Qed.

Lemma barrier_step_inv b o : barrier_inv b -> barrier_inv (step b o).
Proof. destruct o; [apply Arrive_inv | apply wait_inv | apply barrier_close_inv]. Qed.

Lemma barrier_run_inv ops b : barrier_inv b -> barrier_inv (run b ops).
Proof. revert b. induction ops as [|o ops IH]; intros b Hi; [done | by apply IH, barrier_step_inv]. Qed.

Lemma barrier_new_inv cfg b : New cfg = inr b ->
  barrier_inv b /\ b_max b = bc_MaxParticipants cfg /\ b_epoch b = bc_Epoch cfg /\
  b_participants b = ∅ /\ b_closed b = false.
Proof.
  unfold New. case_bool_decide as Hm; [done |]. intros [= <-]. split; [|done].
  split; try done.
  - unfold Count. cbn [b_participants b_max]. rewrite size_empty. simpl. lia.
  - simpl. lia.
  - simpl. lia.
  - intros _. unfold Count. cbn [b_participants]. rewrite size_empty. intros Hle. exfalso. revert Hle.
    unfold needed. simpl. pose proof (Z.quot_pos (bc_MaxParticipants cfg) 2).
    destruct (default _ _); repeat case_bool_decide; lia.
Qed.

(** What no operation changes, and what a run without [Close] records. *)
Lemma step_config b o :
  needed (step b o) = needed b /\ b_max (step b o) = b_max b /\ b_epoch (step b o) = b_epoch b /\
  (o ≠ OClose -> b_closed (step b o) = b_closed b) /\
  (forall p, p ∈ b_participants (step b o) -> p ∈ b_participants b \/ o = OArrive p (b_epoch b)).
Proof.
  destruct o as [id epoch| |]; simpl.
  - unfold Arrive. case_bool_decide; [naive_solver |]. case_bool_decide as He; [|naive_solver].
    simpl. destruct (b_closed b) eqn:Hc; [naive_solver |]. case_bool_decide; [naive_solver |].
    case_bool_decide; [naive_solver |]. subst epoch.
    destruct (satisfiedLocked _); simpl; (do 3 (split; [done |])); (split; [done |]);
      intros p [->%elem_of_singleton|Hp]%elem_of_union; auto.
  - unfold wait_enter. repeat case_match; naive_solver.
  - unfold Close. destruct (b_closed b); naive_solver.
Qed.

Lemma run_config ops b :
  OClose ∉ ops ->
  needed (run b ops) = needed b /\ b_max (run b ops) = b_max b /\ b_epoch (run b ops) = b_epoch b /\
  b_closed (run b ops) = b_closed b /\
  (forall p, p ∈ b_participants (run b ops) -> p ∈ b_participants b \/ OArrive p (b_epoch b) ∈ ops).
Proof.
  revert b. induction ops as [|o ops IH]; intros b Hc; [naive_solver |].
  apply not_elem_of_cons in Hc as [Ho Hc]. cbn [foldl].
  destruct (step_config b o) as (N & M & E & C & P). destruct (IH (step b o) Hc) as (N' & M' & E' & C' & P').
  rewrite N', M', E', C', C by done. do 4 (split; [done |]).
  intros p [Hp|Hp]%P'; [|right; right; by rewrite <- E].
  destruct (P p Hp) as [?|<-]; [by left | right; left].
Qed.

(** A barrier releases exactly when enough distinct participants of its epoch
    have arrived, never holds more than its bound, and misses no wake-up: whatever
    the interleaving of arrivals and waits, every parked waiter can proceed once the
    barrier is released and none can before. *)
Theorem barrier_rendezvous cfg b0 ops :
  New cfg = inr b0 -> OClose ∉ ops ->
  let b := run b0 ops in
  (b_released b = true <-> needed b0 <= Count b) /\
  (forall p, p ∈ b_participants b -> p ≠ "" /\ OArrive p (bc_Epoch cfg) ∈ ops) /\
  Count b <= bc_MaxParticipants cfg /\ Z.of_nat (length (b_waiters b)) <= bc_MaxParticipants cfg /\
  (forall ch, (ch < b_chans b)%nat ->
     wait_select false false ch b = (if b_released b then Some None else None)).
Proof.
  intros (Hi & Hmax & Hep & Hp0 & Hcl)%barrier_new_inv Hc b.
  destruct (run_config ops b0 Hc) as (N & M & _ & C & P). fold b in N, M, C, P.
  pose proof (barrier_run_inv ops b0 Hi) as Hi'. fold b in Hi'. destruct Hi' as [H1 H2 H3 H4 H5 H6 H7 H8].
  rewrite Hcl in C. rewrite N in H6, H7. rewrite M, Hmax in H1, H2.
  split; [by split; auto |]. split; [|split; [lia |]; split; [done |]].
  - intros p Hp. split; [by intros -> |]. rewrite <- Hep. destruct (P p Hp) as [H|]; [|done].
    rewrite Hp0 in H. set_solver.
  - intros ch Hch. unfold wait_select. simpl. destruct (b_released b) eqn:Hr.
    + destruct (H4 ch Hch) as [H|H]; [|by rewrite bool_decide_eq_true_2].
      rewrite H3 in H by done. by apply elem_of_nil in H.
    + rewrite bool_decide_eq_false_2; [done |]. intros H. specialize (H5 ch H). congruence.
Qed.

(** [Close] wakes parked waiters through the channel that signals success: they
    return [nil] although the policy was never met. *)
Lemma closed_barrier_reports_success ch b :
  barrier_inv b -> b_closed b = false -> (ch < b_chans b)%nat ->
  wait_select false false ch (Close b) = Some None /\ b_participants (Close b) = b_participants b.
Proof.
  intros [H1 H2 H3 H4 H5 H6 H7 H8] Hc Hch. unfold Close. rewrite Hc. split; [|done].
  unfold wait_select. simpl. rewrite bool_decide_eq_true_2; [done |].
  rewrite elem_of_union, elem_of_list_to_set. by apply H4.
Qed.

(** ** A concrete barrier *)

Definition d_cfg : BConfig := mkBConfig 7 3 (Some PolicyQuorum) 0.
Definition d_b0 : Barrier := match New d_cfg with inr b => b | inl _ => mkBarrier 0 0 PolicyAll 0 ∅ false false [] 0 ∅ end.

Lemma barrier_rendezvous_witness :
  b_released (run d_b0 [OWait; OArrive "a" 7; OArrive "b" 8; OArrive "c" 7]) = true /\
  wait_select false false 0 (run d_b0 [OWait; OArrive "a" 7; OArrive "b" 8; OArrive "c" 7]) = Some None /\
  wait_select false false 0 (run d_b0 [OWait; OArrive "a" 7]) = None.
Proof.
  destruct (barrier_rendezvous d_cfg d_b0 [OWait; OArrive "a" 7; OArrive "b" 8; OArrive "c" 7])
    as (H1 & _ & _ & _ & H2); [reflexivity | rewrite !not_elem_of_cons; repeat split; try discriminate; apply not_elem_of_nil |].
  destruct (barrier_rendezvous d_cfg d_b0 [OWait; OArrive "a" 7])
    as (_ & _ & _ & _ & H3); [reflexivity | rewrite !not_elem_of_cons; repeat split; try discriminate; apply not_elem_of_nil |].
  assert (b_released (run d_b0 [OWait; OArrive "a" 7; OArrive "b" 8; OArrive "c" 7]) = true) as Hr
    by (apply H1; vm_compute; discriminate).
  split; [exact Hr |]. split.
  - etransitivity; [apply H2; vm_compute; lia | by rewrite Hr].
  - etransitivity; [apply H3; vm_compute; lia | reflexivity].
Defined.
