(* ===== verification/Budget.v ===== *)
(** * Operation budgets ([budget/budget.go])

    Usage counters checked against limits, with three answers to an exhausted
    budget: stop, pause, or continue degraded.  Each method is one critical section;
    the clock is read only where a duration limit is checked.  [Snapshot]'s text of
    durations is left out. *)

From S2P Require Import Prelude.

(** ** Data *)

Inductive budget_error := ErrExhausted | ErrPaused | ErrClosed.

Inductive Behavior := BehaviorStop | BehaviorPause | BehaviorDegrade | BehaviorOther (s : string).

#[global] Instance Behavior_eq_dec : EqDecision Behavior.
Proof. solve_decision. Defined.

Record BudgetConfig := mkBudgetConfig {
  bg_MaxBytes : Z; bg_MaxDuration : Duration; bg_MaxRetries : Z; bg_OnExhausted : option Behavior }.

Record Budget := mkBudget {
  b_maxBytes : Z; b_maxDuration : Duration; b_maxRetries : Z; b_behavior : Behavior;
  b_bytes : Z; b_retries : Z; b_started : Time;
  b_paused : bool; b_degraded : bool; b_exhausted : bool; b_closed : bool }.

Definition usage (bytes retries : Z) (b : Budget) : Budget :=
  mkBudget (b_maxBytes b) (b_maxDuration b) (b_maxRetries b) (b_behavior b) bytes retries (b_started b)
    (b_paused b) (b_degraded b) (b_exhausted b) (b_closed b).
Definition flags (paused degraded exhausted closed : bool) (b : Budget) : Budget :=
  mkBudget (b_maxBytes b) (b_maxDuration b) (b_maxRetries b) (b_behavior b) (b_bytes b) (b_retries b)
    (b_started b) paused degraded exhausted closed.

(** ** Operations *)

Definition New (cfg : BudgetConfig) (now : Time) : Budget :=
  mkBudget (bg_MaxBytes cfg) (bg_MaxDuration cfg) (bg_MaxRetries cfg)
    (default BehaviorStop (bg_OnExhausted cfg)) 0 0 now false false false false.

Definition checkLocked (now : Time) (b : Budget) : option budget_error :=
  if bool_decide (0 < b_maxBytes b) && bool_decide (b_maxBytes b < b_bytes b) then Some ErrExhausted
  else if bool_decide (0 < b_maxRetries b) && bool_decide (b_maxRetries b < b_retries b)
  then Some ErrExhausted
  else if bool_decide (0 < b_maxDuration b) && bool_decide (b_maxDuration b < now - b_started b)
  then Some ErrExhausted
  else None.

Definition applyExhaustedLocked (err : budget_error) (b : Budget) : Budget * option budget_error :=
  let b := flags (b_paused b) (b_degraded b) true (b_closed b) b in
  match b_behavior b with
  | BehaviorPause => (flags true (b_degraded b) true (b_closed b) b, Some ErrPaused)
  | BehaviorDegrade => (flags (b_paused b) true true (b_closed b) b, None)
  | _ => (b, Some err)
  end.

Definition check_and_apply (now : Time) (b : Budget) : Budget * option budget_error :=
  match checkLocked now b with
  | Some err => applyExhaustedLocked err b
  | None => (b, None)
  end.

Definition Allow (now : Time) (b : Budget) : Budget * option budget_error :=
  if b_closed b then (b, Some ErrClosed)
  else if b_paused b then (b, Some ErrPaused)
  else if b_exhausted b && bool_decide (b_behavior b = BehaviorStop) then (b, Some ErrExhausted)
  else check_and_apply now b.

Definition AddBytes (now : Time) (n : Z) (b : Budget) : Budget * option budget_error :=
  if b_closed b then (b, Some ErrClosed)
  else
    let n := if bool_decide (n < 0) then 0 else n in
    check_and_apply now (usage (i64 (b_bytes b + n)) (b_retries b) b).

Definition AddRetry (now : Time) (b : Budget) : Budget * option budget_error :=
  if b_closed b then (b, Some ErrClosed)
  else check_and_apply now (usage (b_bytes b) (i64 (b_retries b + 1)) b).

Definition Resume (b : Budget) : Budget :=
  flags false (b_degraded b) (b_exhausted b) (b_closed b) b.

Definition Close (b : Budget) : Budget :=
  flags (b_paused b) (b_degraded b) (b_exhausted b) true b.

Definition IsDegraded (b : Budget) : bool := b_degraded b.
Definition IsPaused (b : Budget) : bool := b_paused b.

(** ** Histories *)

Inductive op := OAllow (now : Time) | OBytes (now : Time) (n : Z) | ORetry (now : Time) | OResume | OClose.

Definition step (b : Budget) (o : op) : Budget :=
  match o with
  | OAllow now => (Allow now b).1
  | OBytes now n => (AddBytes now n b).1
  | ORetry now => (AddRetry now b).1
  | OResume => Resume b
  | OClose => Close b
  end.

Abbreviation run := (foldl step) (only parsing).

(** What was recorded before the budget was closed. *)
Fixpoint total_bytes (ops : list op) : Z :=
  match ops with
  | [] | OClose :: _ => 0
  | OBytes _ n :: t => Z.max 0 n + total_bytes t
  | _ :: t => total_bytes t
  end.

Fixpoint total_retries (ops : list op) : Z :=
  match ops with
  | [] | OClose :: _ => 0
  | ORetry _ :: t => 1 + total_retries t
  | _ :: t => total_retries t
  end.

(** Over some limit, judged from the history. *)
Definition over (cfg : BudgetConfig) (t0 now : Time) (ops : list op) : Prop :=
  0 < bg_MaxBytes cfg < total_bytes ops \/ 0 < bg_MaxRetries cfg < total_retries ops \/
  0 < bg_MaxDuration cfg < now - t0.

Lemma total_nonneg ops : 0 <= total_bytes ops /\ 0 <= total_retries ops.
Proof. induction ops as [|[] ops IH]; simpl; lia. Qed.

(** The limits and the start are fixed, and a check changes only flags. *)
Definition same_limits (b b' : Budget) : Prop :=
  b_maxBytes b' = b_maxBytes b /\ b_maxRetries b' = b_maxRetries b /\
  b_maxDuration b' = b_maxDuration b /\ b_behavior b' = b_behavior b /\ b_started b' = b_started b.

Lemma check_and_apply_spec now b :
  let b' := (check_and_apply now b).1 in
  same_limits b b' /\ b_bytes b' = b_bytes b /\ b_retries b' = b_retries b /\ b_closed b' = b_closed b /\
  (b_exhausted b = true -> b_exhausted b' = true).
Proof.
  unfold check_and_apply, applyExhaustedLocked, same_limits. destruct (checkLocked now b); [|done].
  simpl. destruct (b_behavior b) eqn:E; simpl; by rewrite ?E.
Qed.

Lemma step_spec b o :
  same_limits b (step b o) /\ (b_exhausted b = true -> b_exhausted (step b o) = true) /\
  b_closed (step b o) = (b_closed b || match o with OClose => true | _ => false end) /\
  (b_closed b = true -> b_bytes (step b o) = b_bytes b /\ b_retries (step b o) = b_retries b) /\
  (b_closed b = false ->
   b_bytes (step b o) = match o with OBytes _ n => i64 (b_bytes b + Z.max 0 n) | _ => b_bytes b end /\
   b_retries (step b o) = match o with ORetry _ => i64 (b_retries b + 1) | _ => b_retries b end).
Proof.
  destruct o as [now|now n|now| |]; cbn [step].
  - unfold Allow. destruct (b_closed b) eqn:Hc; [done |]. destruct (b_paused b); [done |].
    destruct (_ && _); [done |]. destruct (check_and_apply_spec now b) as (L & B & R & C & E).
    rewrite C, Hc. done.
  - unfold AddBytes. destruct (b_closed b) eqn:Hc; [done |].
    destruct (check_and_apply_spec now (usage (i64 (b_bytes b + (if bool_decide (n < 0) then 0 else n))) (b_retries b) b))
      as (L & B & R & C & E).
    rewrite B, R, C. cbn. rewrite Hc. split; [done |]. split; [done |]. split; [done |].
    split; [done |]. intros _. split; [|done]. do 2 f_equal. case_bool_decide; lia.
  - unfold AddRetry. destruct (b_closed b) eqn:Hc; [done |].
    destruct (check_and_apply_spec now (usage (b_bytes b) (i64 (b_retries b + 1)) b)) as (L & B & R & C & E).
    rewrite B, R, C. cbn. by rewrite Hc.
  - cbn. by rewrite orb_false_r.
  - cbn. by rewrite orb_true_r.
Qed.

#[local] Instance same_limits_trans : Transitive same_limits.
Proof. unfold same_limits. intros a b c (-> & -> & -> & -> & ->). tauto. Qed.

Lemma run_limits ops b :
  same_limits b (run b ops) /\ (b_exhausted b = true -> b_exhausted (run b ops) = true) /\
  (b_closed b = true -> b_closed (run b ops) = true /\ b_bytes (run b ops) = b_bytes b /\
     b_retries (run b ops) = b_retries b).
Proof.
  revert b. induction ops as [|o ops IH]; intros b; [done |]. cbn [foldl].
  destruct (step_spec b o) as (L & E & C & K & _). destruct (IH (step b o)) as (L' & E' & K').
  split; [by transitivity (step b o) |]. split; [auto |]. intros Hc.
  destruct (K Hc) as [-> ->] in K'. apply K'. by rewrite C, Hc.
Qed.

Lemma run_totals ops b :
  0 <= b_bytes b -> 0 <= b_retries b -> b_closed b = false ->
  b_bytes b + total_bytes ops < 2 ^ 63 -> b_retries b + total_retries ops < 2 ^ 63 ->
  b_bytes (run b ops) = b_bytes b + total_bytes ops /\
  b_retries (run b ops) = b_retries b + total_retries ops.
Proof.
  revert b. induction ops as [|o ops IH]; intros b Hb Hr Hc Htb Htr; cbn [foldl]; [simpl; lia |].
  destruct (step_spec b o) as (_ & _ & C & _ & K). destruct (K Hc) as [KB KR]. rewrite Hc in C.
  pose proof (total_nonneg ops).
  destruct o as [now|now n|now| |]; cbn [total_bytes total_retries orb] in *.
  5: { destruct (run_limits ops (step b OClose)) as (_ & _ & D). destruct (D C) as (_ & -> & ->). lia. }
  all: try rewrite i64_small in KB by (unfold is_i64; lia);
       try rewrite i64_small in KR by (unfold is_i64; lia);
       destruct (IH _ ltac:(rewrite KB; lia) ltac:(rewrite KR; lia) C ltac:(rewrite KB; lia)
         ltac:(rewrite KR; lia)) as [-> ->]; lia.
Qed.

Lemma check_over now b :
  checkLocked now b = None <->
  ~ (0 < b_maxBytes b < b_bytes b \/ 0 < b_maxRetries b < b_retries b \/
     0 < b_maxDuration b < now - b_started b).
Proof. unfold checkLocked. repeat case_bool_decide; simpl; (split; [intros; try done; lia | intros; try done; exfalso; lia]). Qed.

(** A budget counts exactly what was recorded, and outside degraded mode never
    allows work over a limit, whatever the history (pauses, resumes and failed
    calls included); in stop mode exhaustion is permanent; and an open budget that
    is within its limits, not paused and not stopped allows the work. *)
Theorem budget_enforced cfg t0 ops now :
  total_bytes ops < 2 ^ 63 -> total_retries ops < 2 ^ 63 ->
  let b := run (New cfg t0) ops in
  let answer := (Allow now b).2 in
  b_bytes b = total_bytes ops /\ b_retries b = total_retries ops /\
  (over cfg t0 now ops -> default BehaviorStop (bg_OnExhausted cfg) ≠ BehaviorDegrade -> answer ≠ None) /\
  (forall ops', b_exhausted b = true -> default BehaviorStop (bg_OnExhausted cfg) = BehaviorStop ->
     (Allow now (run b ops')).2 ≠ None) /\
  (~ over cfg t0 now ops -> b_closed b = false -> b_paused b = false ->
     b_exhausted b = false \/ default BehaviorStop (bg_OnExhausted cfg) ≠ BehaviorStop -> answer = None).
Proof.
  intros Hb Hr b answer.
  destruct (run_totals ops (New cfg t0)) as [EB ER]; [simpl; lia || done ..|].
  destruct (run_limits ops (New cfg t0)) as ((L1 & L2 & L3 & L4 & L5) & _). fold b in EB, ER, L1, L2, L3, L4, L5.
  simpl in EB, ER, L1, L2, L3, L4, L5.
  assert (over cfg t0 now ops <-> checkLocked now b ≠ None) as Hov.
  { rewrite (check_over now b), L1, L2, L3, L5, EB, ER. unfold over. split; [tauto |].
    intros H. by apply dec_stable in H. }
  split; [done |]. split; [done |]. unfold answer, Allow, check_and_apply. split; [|split].
  - intros Ho Hd. destruct (b_closed b); [done |]. destruct (b_paused b); [done |].
    destruct (_ && _); [done |]. apply Hov in Ho. destruct (checkLocked now b) as [e|]; [|done].
    unfold applyExhaustedLocked. cbn. rewrite L4. by destruct (default _ _).
  - intros ops' He Hs. destruct (run_limits ops' b) as ((_ & _ & _ & L4' & _) & E' & _).
    destruct (b_closed _); [done |]. destruct (b_paused _); [done |].
    rewrite E' by done. rewrite L4', L4, bool_decide_eq_true_2 by done. done.
  - intros Ho Hc Hp Hx. rewrite Hc, Hp, L4.
    assert (b_exhausted b && bool_decide (default BehaviorStop (bg_OnExhausted cfg) = BehaviorStop) = false) as ->.
    { destruct Hx as [->|Hx]; [done |]. rewrite bool_decide_eq_false_2 by done. apply andb_false_r. }
    destruct (checkLocked now b) eqn:E; [|done]. destruct Ho. by apply Hov.
Qed.

(** The byte counter is an [int64]: past it, an exhausted budget that pauses
    allows work again after a resume. *)
Lemma budget_wraps :
  let b := run (New (mkBudgetConfig 10 0 0 (Some BehaviorPause)) 0)
             [OBytes 0 (2 ^ 63 - 1); OResume; OBytes 0 1] in
  b_bytes b = - 2 ^ 63 /\ b_exhausted b = true /\ (Allow 0 b).2 = None.
Proof. vm_compute. repeat split. Qed.

Lemma budget_enforced_witness :
  (Allow 9 (run (New (mkBudgetConfig 10 0 1 None) 0) [OBytes 1 5; OBytes 2 6; OResume])).2 ≠ None /\
  (Allow 9 (run (New (mkBudgetConfig 10 0 1 None) 0) [OBytes 1 5; ORetry 2])).2 = None.
Proof.
  split.
  - apply (budget_enforced (mkBudgetConfig 10 0 1 None) 0 [OBytes 1 5; OBytes 2 6; OResume] 9);
      [vm_compute; reflexivity .. | left; vm_compute; split; reflexivity | discriminate].
  - apply (budget_enforced (mkBudgetConfig 10 0 1 None) 0 [OBytes 1 5; ORetry 2] 9);
      [by_eval | by_eval | unfold over; simpl; lia | by_eval | by_eval | left; by_eval].
Defined.
