(* ===== verification/SyncPrim.v ===== *)
(** * Semaphores and once ([syncprim/syncprim.go])

    Both are built on named claims with fencing tokens.  [FencedClaims] is the
    interface of that name; [ExclusiveClaims] is what the two primitives need of it:
    a claim that is held cannot be acquired, and only the holder's token releases
    it.  The theorems are about any number of semaphore objects (one per process)
    and of goroutines, interleaved at every call and critical section. *)

From S2P Require Import Prelude GoStrings Types.
From stdpp Require Import list_numbers.

#[local] Open Scope Z_scope.

Definition ErrUnavailable : error := TextErr "syncprim: unavailable".
Definition ErrNotHeld : error := TextErr "syncprim: not held".

(** ** The interface *)

Class FencedClaims (W : Type) := {
  fc_Acquire : string -> W -> W * (error + Z);
  fc_Release : string -> Z -> W -> W * option error }.

Class ExclusiveClaims (W : Type) `{!FencedClaims W} := {
  fc_holder : W -> string -> option Z;
  fc_acquired w w' name tok : fc_Acquire name w = (w', inr tok) ->
    fc_holder w name = None /\ fc_holder w' name = Some tok;
  fc_refused w w' name e : fc_Acquire name w = (w', inl e) -> fc_holder w' name = fc_holder w name;
  fc_acquire_other w name n : n ≠ name -> fc_holder (fc_Acquire name w).1 n = fc_holder w n;
  fc_released w name tok :
    fc_holder (fc_Release name tok w).1 name = fc_holder w name \/
    fc_holder w name = Some tok /\ fc_holder (fc_Release name tok w).1 name = None;
  fc_release_other w name tok n : n ≠ name -> fc_holder (fc_Release name tok w).1 n = fc_holder w n }.

(** ** Semaphores *)

Record Semaphore := mkSemaphore { sm_prefix : string; sm_slots : Z; sm_held : gmap Z Z }.

Definition NewSemaphore (claims_nil : bool) (namePrefix : string) (n : Z) : error + Semaphore :=
  if claims_nil || bool_decide (namePrefix = "") || bool_decide (n <= 0)
  then inl (TextErr "syncprim: claims, prefix, and n>0 required")
  else if bool_decide (1024 < n) then inl (TextErr "syncprim: n exceeds bound 1024")
  else inr (mkSemaphore namePrefix n ∅).

(** [fmt.Sprintf("%s#%d", s.prefix, i)] *)
Definition slot_name (prefix : string) (i : Z) : string := prefix +:+ "#" +:+ fmt_d i.

Definition set_held (m : gmap Z Z) (s : Semaphore) : Semaphore := mkSemaphore (sm_prefix s) (sm_slots s) m.

Section Semaphore.
Context {W : Type} `{!FencedClaims W}.

(** One round of the loop of [Acquire]. *)
Definition try_slot (i : Z) (s : Semaphore) (w : W) : Semaphore * W * bool :=
  match fc_Acquire (slot_name (sm_prefix s) i) w with
  | (w, inl _) => (s, w, false)
  | (w, inr tok) => (set_held (<[i := tok]> (sm_held s)) s, w, true)
  end.

(** [Acquire] returns the slot its release function is for.  [others] is what
    happens before each round. *)
Fixpoint acquire_loop (k : nat) (i : Z) (others : Z -> Semaphore * W -> Semaphore * W)
  (s : Semaphore) (w : W) : Semaphore * W * (error + Z) :=
  match k with
  | O => (s, w, inl ErrUnavailable)
  | S k =>
    let '(s, w) := others i (s, w) in
    let '(s, w, ok) := try_slot i s w in
    if ok then (s, w, inr i) else acquire_loop k (i + 1) others s w
  end.

Definition Acquire (others : Z -> Semaphore * W -> Semaphore * W) (s : Semaphore) (w : W)
  : Semaphore * W * (error + Z) :=
  acquire_loop (Z.to_nat (sm_slots s)) 0 others s w.

(** The release function of a slot: its critical section, then the call. *)
Definition release_enter (slot : Z) (s : Semaphore) : Semaphore * (error + Z) :=
  match sm_held s !! slot with
  | None => (s, inl ErrNotHeld)
  | Some tok => (set_held (delete slot (sm_held s)) s, inr tok)
  end.

Definition release_call (slot tok : Z) (s : Semaphore) (w : W) : W * option error :=
  fc_Release (slot_name (sm_prefix s) slot) tok w.

Definition release (slot : Z) (s : Semaphore) (w : W) : Semaphore * W * option error :=
  match release_enter slot s with
  | (s, inl e) => (s, w, Some e)
  | (s, inr tok) => let '(w, e) := release_call slot tok s w in (s, w, e)
  end.

(** ** Several semaphores on the same claims

    [y_live] are the permits handed out and not yet given back, as semaphore and
    slot; [y_freeing] those whose claim is about to be released. *)
Record Sys := mkSys {
  y_world : W; y_sems : nat -> Semaphore; y_live : list (nat * Z); y_freeing : list (nat * Z * Z) }.

Definition upd (f : nat -> Semaphore) (o : nat) (s : Semaphore) : nat -> Semaphore :=
  fun p => if decide (p = o) then s else f p.

Variables (prefix : string) (slots : Z).

Inductive sstep (y : Sys) : Sys -> Prop :=
| ss_try o i s' w' ok :
    0 <= i < slots -> try_slot i (y_sems y o) (y_world y) = (s', w', ok) ->
    sstep y (mkSys w' (upd (y_sems y) o s') (if ok then (o, i) :: y_live y else y_live y) (y_freeing y))
| ss_enter live1 o i live2 s' tok :
    y_live y = live1 ++ (o, i) :: live2 -> release_enter i (y_sems y o) = (s', inr tok) ->
    sstep y (mkSys (y_world y) (upd (y_sems y) o s') (live1 ++ live2) ((o, i, tok) :: y_freeing y))
| ss_call fr1 o i tok fr2 :
    y_freeing y = fr1 ++ (o, i, tok) :: fr2 ->
    sstep y (mkSys (release_call i tok (y_sems y o) (y_world y)).1 (y_sems y) (y_live y) (fr1 ++ fr2)).

Definition sys0 (w : W) : Sys := mkSys w (fun _ => mkSemaphore prefix slots ∅) [] [].
End Semaphore.

(** A call of [Acquire] is a sequence of the rounds of [sstep], and one that
    succeeds leaves its permit out. *)
Lemma acquire_loop_steps {W} `{!FencedClaims W} slots k i o (y : Sys (W := W)) :
  0 <= i -> i + Z.of_nat k <= slots ->
  let '(s', w', r) := acquire_loop k i (fun _ p => p) (y_sems y o) (y_world y) in
  exists y', steps (sstep slots) y y' /\ y_world y' = w' /\ y_sems y' o = s' /\
    match r with inr slot => (o, slot) ∈ y_live y' | inl _ => y_live y' = y_live y end.
Proof.
  revert i y. induction k as [|k IH]; intros i y H0 Hk; cbn [acquire_loop].
  { exists y. repeat split. constructor. }
  destruct (try_slot i (y_sems y o) (y_world y)) as [[s1 w1] ok] eqn:Et.
  assert (0 <= i < slots) as Hi by lia. pose proof (ss_try slots y o i s1 w1 ok Hi Et) as Hs.
  destruct ok.
  - eexists. split; [by apply steps_one |]. simpl. split; [done |].
    split; [unfold upd; by rewrite decide_True | left].
  - set (y1 := mkSys w1 (upd (y_sems y) o s1) (y_live y) (y_freeing y)) in Hs.
    specialize (IH (i + 1) y1 ltac:(lia) ltac:(lia)).
    assert (y_sems y1 o = s1) as E1 by (simpl; unfold upd; by rewrite decide_True).
    rewrite E1 in IH. change (y_world y1) with w1 in IH.
    destruct (acquire_loop k (i + 1) _ s1 w1) as [[s' w'] r].
    destruct IH as (y' & Hst & Hw & Hy & Hl). exists y'. split; [by eapply steps_cons |]. done.
Qed.

Lemma fmt_d_inj i j : 0 <= i < 1024 -> 0 <= j < 1024 -> fmt_d i = fmt_d j -> i = j.
Proof.
  intros Hi Hj E. assert (is_u64 i /\ is_u64 j) as [Ui Uj] by (unfold is_u64, u64_modulus; lia).
  destruct (fmt_d_spec i Ui) as (_ & _ & <-), (fmt_d_spec j Uj) as (_ & _ & <-). by rewrite E.
Qed.

Lemma slot_name_inj prefix i j :
  0 <= i < 1024 -> 0 <= j < 1024 -> slot_name prefix i = slot_name prefix j -> i = j.
Proof.
  intros Hi Hj E. apply fmt_d_inj; [done | done |]. unfold slot_name in E.
  induction prefix as [|c p IH]; simpl in E; injection E; auto.
Qed.

Section Bounded.
Context {W : Type} `{!FencedClaims W} `{!ExclusiveClaims W}.
Variables (prefix : string) (slots : Z).
Hypothesis slots_bound : 0 < slots <= 1024.

(** The slots spoken for. *)
Definition taken (y : Sys (W := W)) : list Z := (y_live y).*2 ++ ((fun p => p.1.2) <$> y_freeing y).

Record sem_inv (y : Sys (W := W)) : Prop := mkSemInv {
  si_sems o : sm_prefix (y_sems y o) = prefix;
  si_live o i : (o, i) ∈ y_live y -> exists tok,
    sm_held (y_sems y o) !! i = Some tok /\ fc_holder (y_world y) (slot_name prefix i) = Some tok;
  si_freeing o i tok : (o, i, tok) ∈ y_freeing y -> fc_holder (y_world y) (slot_name prefix i) = Some tok;
  si_range i : i ∈ taken y -> 0 <= i < slots;
  si_once : NoDup (taken y) }.

Lemma taken_held y i : sem_inv y -> i ∈ taken y ->
  exists tok, fc_holder (y_world y) (slot_name prefix i) = Some tok.
Proof.
  intros Hi [H|H]%elem_of_app.
  - apply list_elem_of_fmap in H as ([o j] & -> & Hin). simpl.
    destruct (si_live y Hi _ _ Hin) as (tok & _ & Hh). eauto.
  - apply list_elem_of_fmap in H as ([[o j] tok] & -> & Hin). simpl. exists tok. by eapply si_freeing.
Qed.

(** Slots other than the one a step is about keep their holder. *)
Lemma other_slot i j : i ≠ j -> 0 <= i < slots -> 0 <= j < slots -> slot_name prefix i ≠ slot_name prefix j.
Proof. intros Hn Hi Hj E. apply Hn. eapply slot_name_inj; [lia | lia | exact E]. Qed.

Lemma sem_inv_try y o i s' w' ok :
  sem_inv y -> 0 <= i < slots -> try_slot i (y_sems y o) (y_world y) = (s', w', ok) ->
  sem_inv (mkSys w' (upd (y_sems y) o s') (if ok then (o, i) :: y_live y else y_live y) (y_freeing y)).
Proof.
  intros Hi Hr. unfold try_slot. rewrite (si_sems y Hi).
  destruct (fc_Acquire (slot_name prefix i) (y_world y)) as [w1 [e|tok]] eqn:Ea; intros [= <- <- <-].
  - assert (forall j, 0 <= j < slots -> fc_holder w1 (slot_name prefix j) = fc_holder (y_world y) (slot_name prefix j)) as Hw.
    { intros j Hj. destruct (decide (j = i)) as [->|Hn]; [by eapply fc_refused |].
      change w1 with (w1, inl e : error + Z).1. rewrite <- Ea. apply fc_acquire_other. by apply other_slot. }
    destruct Hi as [S L F R N]. split; simpl; try done.
    + intros p. unfold upd. by case_decide; subst.
    + intros p j Hin. destruct (L p j Hin) as (tok & Ht & Hh). exists tok.
      rewrite Hw by (apply R, elem_of_app; left; by apply (list_elem_of_fmap_2 snd _ (p, j))).
      split; [|done]. unfold upd. by case_decide; subst.
    + intros p j tok Hin. rewrite Hw by (apply R, elem_of_app; right; by apply (list_elem_of_fmap_2 (fun q => q.1.2) _ (p, j, tok))).
      by eapply F.
  - destruct (fc_acquired _ _ _ _ Ea) as [Hfree Hgot].
    assert (i ∉ taken y) as Hni.
    { intros Hin. destruct (taken_held y i Hi Hin) as [t Ht]. congruence. }
    assert (forall j, j ∈ taken y -> fc_holder w1 (slot_name prefix j) = fc_holder (y_world y) (slot_name prefix j)) as Hw.
    { intros j Hj. change w1 with (w1, inr tok : error + Z).1. rewrite <- Ea. apply fc_acquire_other.
      apply other_slot; [by intros -> | by apply (si_range y Hi) | done]. }
    destruct Hi as [S L F R N]. split; simpl.
    + intros p. unfold upd. case_decide; [subst; simpl; apply S | apply S].
    + intros p j [[= -> ->]|Hin]%elem_of_cons.
      { exists tok. split; [|done]. unfold upd. rewrite decide_True by done. simpl. by rewrite lookup_insert_eq. }
      assert (j ∈ taken y) as Hj by (apply elem_of_app; left; by apply (list_elem_of_fmap_2 snd _ (p, j))).
      destruct (L p j Hin) as (t & Ht & Hh). exists t. rewrite Hw by done. split; [|done].
      unfold upd. case_decide; [subst; simpl | done]. rewrite lookup_insert_ne; [done | by intros ->].
    + intros p j t Hin. rewrite Hw by (apply elem_of_app; right; by apply (list_elem_of_fmap_2 (fun q => q.1.2) _ (p, j, t))).
      by eapply F.
    + intros j [->|Hin]%elem_of_cons; [done | by apply R].
    + by constructor.
Qed.

Lemma taken_enter y live1 o i live2 s' tok :
  y_live y = live1 ++ (o, i) :: live2 ->
  taken (mkSys (y_world y) (upd (y_sems y) o s') (live1 ++ live2) ((o, i, tok) :: y_freeing y)) ≡ₚ taken y.
Proof.
  intros E. unfold taken. simpl. rewrite E, !fmap_app, fmap_cons. simpl. solve_Permutation.
Qed.

Lemma sem_inv_enter y live1 o i live2 s' tok :
  sem_inv y -> y_live y = live1 ++ (o, i) :: live2 -> release_enter i (y_sems y o) = (s', inr tok) ->
  sem_inv (mkSys (y_world y) (upd (y_sems y) o s') (live1 ++ live2) ((o, i, tok) :: y_freeing y)).
Proof.
  intros Hi El Er. pose proof (taken_enter y live1 o i live2 s' tok El) as Hp.
  assert (sm_held (y_sems y o) !! i = Some tok /\ s' = set_held (delete i (sm_held (y_sems y o))) (y_sems y o))
    as [Ht ->]. { revert Er. unfold release_enter. destruct (_ !! i); [by intros [= <- <-] | done]. }
  destruct Hi as [S L F R N]. split; simpl.
  - intros p. unfold upd. case_decide; [subst; apply S | apply S].
  - intros p j Hin.
    assert (j ≠ i) as Hn.
    { intros ->. revert N. unfold taken. rewrite El, fmap_app, fmap_cons. simpl.
      rewrite <- app_assoc, NoDup_app. intros (_ & H1 & H2). apply elem_of_app in Hin as [Hin|Hin].
      - apply (H1 i); [by apply (list_elem_of_fmap_2 snd _ (p, i)) | left].
      - apply NoDup_cons in H2 as [H2 _]. apply H2, elem_of_app. left.
        by apply (list_elem_of_fmap_2 snd _ (p, i)). }
    destruct (L p j) as (t & Ht' & Hh); [rewrite El; set_solver |]. exists t. split; [|done].
    unfold upd. case_decide; [subst; simpl; by rewrite lookup_delete_ne | done].
  - intros p j t [[= -> -> ->]|Hin]%elem_of_cons; [|by eapply F].
    destruct (L o i) as (t & Ht' & Hh); [rewrite El; set_solver |]. congruence.
  - intros j. rewrite Hp. apply R.
  - by rewrite Hp.
Qed.

Lemma sem_inv_call y fr1 o i tok fr2 :
  sem_inv y -> y_freeing y = fr1 ++ (o, i, tok) :: fr2 ->
  sem_inv (mkSys (release_call i tok (y_sems y o) (y_world y)).1 (y_sems y) (y_live y) (fr1 ++ fr2)).
Proof.
  intros Hi Ef. unfold release_call. rewrite (si_sems y Hi).
  set (y' := mkSys _ _ _ _).
  assert (taken y ≡ₚ i :: taken y') as Hp.
  { unfold taken. simpl. rewrite Ef, !fmap_app, fmap_cons. simpl. solve_Permutation. }
  destruct Hi as [S L F R N]. rewrite Hp in N. apply NoDup_cons in N as [Hni N].
  assert (forall j, j ∈ taken y' -> fc_holder (y_world y') (slot_name prefix j) = fc_holder (y_world y) (slot_name prefix j)) as Hw.
  { intros j Hj. apply fc_release_other, other_slot; [by intros -> | apply R; rewrite Hp; by right |].
    apply R. rewrite Hp. left. }
  split; [done | | | | done].
  - intros p j Hin. destruct (L p j Hin) as (t & Ht & Hh). exists t. split; [done |]. rewrite Hw; [done |].
    apply elem_of_app. left. by apply (list_elem_of_fmap_2 snd _ (p, j)).
  - intros p j t Hin. rewrite Hw.
    + apply (F p). rewrite Ef. set_solver.
    + apply elem_of_app. right. by apply (list_elem_of_fmap_2 (fun q => q.1.2) _ (p, j, t)).
  - intros j Hj. apply R. rewrite Hp. by right.
Qed.

Lemma sem_inv_step y y' : sem_inv y -> sstep slots y y' -> sem_inv y'.
Proof.
  intros Hi [o i s' w' ok Hr Et|live1 o i live2 s' tok El Er|fr1 o i tok fr2 Ef].
  - by eapply sem_inv_try.
  - by eapply sem_inv_enter.
  - by eapply sem_inv_call.
Qed.

Lemma sem_inv_start w : sem_inv (sys0 prefix slots w).
Proof.
  split; [done | | | | constructor].
  - by intros o i ?%elem_of_nil.
  - by intros o i tok ?%elem_of_nil.
  - by intros i ?%elem_of_nil.
Qed.

(** Over exclusive claims, semaphores with [slots] permits on one prefix, in any
    number of processes, never have more than [slots] permits out together; each
    permit out holds its claim with the claim's current fencing token, and giving
    it back finds that token. *)
Theorem semaphore_bounded w y :
  steps (sstep slots) (sys0 prefix slots w) y ->
  Z.of_nat (length (y_live y)) <= slots /\
  forall o i, (o, i) ∈ y_live y -> exists tok,
    fc_holder (y_world y) (slot_name prefix i) = Some tok /\
    (release_enter i (y_sems y o)).2 = inr tok.
Proof.
  intros Hs. assert (sem_inv y) as Hi.
  { eapply steps_invariant; [intros; by eapply sem_inv_step | exact Hs | apply sem_inv_start]. }
  split.
  - destruct Hi as [_ _ _ R N].
    assert ((y_live y).*2 ⊆+ seqZ 0 slots) as Hsub.
    { apply NoDup_submseteq; [exact (proj1 (proj1 (NoDup_app _ _) N)) |].
      intros j Hj. apply elem_of_seqZ. enough (0 <= j < slots) by lia. apply R, elem_of_app. by left. }
    apply submseteq_length in Hsub. rewrite length_fmap, length_seqZ in Hsub. lia.
  - intros o i Hin. destruct (si_live y Hi o i Hin) as (tok & Ht & Hh). exists tok. split; [done |].
    unfold release_enter. by rewrite Ht.
Qed.
End Bounded.

(** ** Once *)

Record Once := mkOnce { on_name : string; on_done : bool }.

Definition NewOnce (claims_nil : bool) (claimName : string) : error + Once :=
  if claims_nil || bool_decide (claimName = "") then inl (TextErr "syncprim: claims and name required")
  else inr (mkOnce claimName false).

Section Once.
Context {W : Type} `{!FencedClaims W}.

(** A call of [Do], at the points between its critical sections and calls: after
    the first look at [done], holding the claim, running [fn], and on the way out
    through the deferred release. *)
Inductive pc := PLooked | PHolding (tok : Z) | PRunning (tok : Z) | PLeaving (tok : Z) (r : option error)
| PReturned (r : option error).

Definition do_look (o : Once) : pc := if on_done o then PReturned None else PLooked.

Definition do_acquire (o : Once) (w : W) : W * pc :=
  match fc_Acquire (on_name o) w with
  | (w, inl _) => (w, PReturned (Some ErrUnavailable))
  | (w, inr tok) => (w, PHolding tok)
  end.

Definition do_look_again (tok : Z) (o : Once) : pc :=
  if on_done o then PLeaving tok None else PRunning tok.

(** [fn] returned [r]. *)
Definition do_ran (tok : Z) (r : option error) (o : Once) : Once * pc :=
  match r with
  | Some e => (o, PLeaving tok (Some e))
  | None => (mkOnce (on_name o) true, PLeaving tok None)
  end.

Definition do_leave (tok : Z) (r : option error) (o : Once) (w : W) : W * pc :=
  ((fc_Release (on_name o) tok w).1, PReturned r).

(** [Do] undisturbed. *)
Definition Do (fn : Z -> W -> W * option error) (o : Once) (w : W) : Once * W * option error :=
  match do_look o with
  | PReturned r => (o, w, r)
  | _ =>
    match do_acquire o w with
    | (w, PHolding tok) =>
      match do_look_again tok o with
      | PRunning tok =>
        let '(w, r) := fn tok w in
        let '(o, p) := do_ran tok r o in
        (o, (fc_Release (on_name o) tok w).1, r)
      | _ => (o, (fc_Release (on_name o) tok w).1, None)
      end
    | (w, PReturned r) => (o, w, r)
    | (w, _) => (o, w, None)
    end
  end.

(** Goroutines calling [Do] on one [Once]; [z_ok] counts the successful runs of
    [fn]. *)
Record OSys := mkOSys { z_world : W; z_once : Once; z_calls : gmap nat pc; z_ok : Z }.

Inductive ostep (z : OSys) : OSys -> Prop :=
| os_call g :
    z_calls z !! g = None ->
    ostep z (mkOSys (z_world z) (z_once z) (<[g := do_look (z_once z)]> (z_calls z)) (z_ok z))
| os_acquire g w' p :
    z_calls z !! g = Some PLooked -> do_acquire (z_once z) (z_world z) = (w', p) ->
    ostep z (mkOSys w' (z_once z) (<[g := p]> (z_calls z)) (z_ok z))
| os_again g tok :
    z_calls z !! g = Some (PHolding tok) ->
    ostep z (mkOSys (z_world z) (z_once z) (<[g := do_look_again tok (z_once z)]> (z_calls z)) (z_ok z))
| os_ran g tok r o' p :
    z_calls z !! g = Some (PRunning tok) -> do_ran tok r (z_once z) = (o', p) ->
    ostep z (mkOSys (z_world z) o' (<[g := p]> (z_calls z))
      (match r with None => z_ok z + 1 | Some _ => z_ok z end))
| os_leave g tok r w' p :
    z_calls z !! g = Some (PLeaving tok r) -> do_leave tok r (z_once z) (z_world z) = (w', p) ->
    ostep z (mkOSys w' (z_once z) (<[g := p]> (z_calls z)) (z_ok z)).

(** The token of a call that is inside. *)
Definition inside (p : pc) : option Z :=
  match p with PHolding tok | PRunning tok | PLeaving tok _ => Some tok | _ => None end.
End Once.

Section OnceSafe.
Context {W : Type} `{!FencedClaims W} `{!ExclusiveClaims W}.

Record once_inv (name : string) (z : OSys (W := W)) : Prop := mkOnceInv {
  oi_name : on_name (z_once z) = name;
  oi_inside g p tok : z_calls z !! g = Some p -> inside p = Some tok -> fc_holder (z_world z) name = Some tok;
  oi_alone g g' p p' : z_calls z !! g = Some p -> z_calls z !! g' = Some p' ->
    is_Some (inside p) -> is_Some (inside p') -> g = g';
  oi_running g tok : z_calls z !! g = Some (PRunning tok) -> on_done (z_once z) = false;
  oi_ok : z_ok z = if on_done (z_once z) then 1 else 0 }.

Implicit Types z : OSys (W := W).

(** The calls inside after [g] moved to [p] were inside before, if [g] does not
    enter. *)
Lemma inside_back z g p h q :
  inside p = None \/ (exists p0, z_calls z !! g = Some p0 /\ inside p = inside p0) ->
  <[g := p]> (z_calls z) !! h = Some q -> is_Some (inside q) ->
  exists q', z_calls z !! h = Some q' /\ inside q' = inside q.
Proof.
  intros Hp [[<- <-]|[_ Hh]]%lookup_insert_Some Hq; [|eauto].
  destruct Hp as [Hp|(p0 & H0 & Hp)]; [rewrite Hp in Hq; by destruct Hq | eauto].
Qed.

(** [g] moves without entering, and the claim and [done] stay as they are. *)
Lemma once_inv_move name z g p w' :
  once_inv name z -> fc_holder w' name = fc_holder (z_world z) name ->
  inside p = None \/ (exists p0, z_calls z !! g = Some p0 /\ inside p = inside p0) ->
  (forall tok, p = PRunning tok -> on_done (z_once z) = false) ->
  once_inv name (mkOSys w' (z_once z) (<[g := p]> (z_calls z)) (z_ok z)).
Proof.
  intros [N I A R K] Hw Hp Hr. split; simpl; try done.
  - intros h q tok Hh Hq. rewrite Hw.
    destruct (inside_back z g p h q Hp Hh) as (q' & Hq' & E); [by eexists |]. eapply I; [done | congruence].
  - intros h h' q q' H1 H2 Q1 Q2.
    destruct (inside_back _ _ _ _ _ Hp H1 Q1) as (r1 & ? & E1).
    destruct (inside_back _ _ _ _ _ Hp H2 Q2) as (r2 & ? & E2).
    eapply A; [done | done | by rewrite E1 | by rewrite E2].
  - intros h tok [[<- E]|[_ Hh]]%lookup_insert_Some; [by eapply Hr | by eapply R].
Qed.

(** Nobody is inside once the only call inside has left or while the claim is
    free. *)
Lemma once_inv_outside name w' once' calls' ok' :
  on_name once' = name -> (forall h q, calls' !! h = Some q -> inside q = None) ->
  ok' = (if on_done once' then 1 else 0) -> once_inv name (mkOSys (W := W) w' once' calls' ok').
Proof.
  intros Hn Ho Hk. split; simpl; try done.
  - intros h q tok Hh Hq. rewrite (Ho h q Hh) in Hq. done.
  - intros h h' q q' H1 _ [t Ht]. rewrite (Ho h q H1) in Ht. done.
  - intros h tok Hh. by specialize (Ho h _ Hh).
Qed.

Lemma once_inv_enter name z g w' tok :
  once_inv name z -> fc_holder (z_world z) name = None -> fc_holder w' name = Some tok ->
  once_inv name (mkOSys w' (z_once z) (<[g := PHolding tok]> (z_calls z)) (z_ok z)).
Proof.
  intros [N I A R K] Hf Hw.
  assert (forall h q, z_calls z !! h = Some q -> inside q = None) as Hout.
  { intros h q Hh. destruct (inside q) as [t|] eqn:E; [|done]. rewrite (I h q t Hh E) in Hf. done. }
  split; simpl; try done.
  - intros h q t [[<- <-]|[_ Hh]]%lookup_insert_Some Hq; [simpl in Hq; congruence |].
    rewrite (Hout h q Hh) in Hq. done.
  - intros h h' q q' [[<- <-]|[_ H1]]%lookup_insert_Some [[<- <-]|[_ H2]]%lookup_insert_Some [t1 Q1] [t2 Q2];
      try done; [rewrite (Hout _ _ H2) in Q2 | rewrite (Hout _ _ H1) in Q1 | rewrite (Hout _ _ H1) in Q1]; done.
  - intros h t [[_ [=]]|[_ Hh]]%lookup_insert_Some. by eapply R.
Qed.

Lemma once_inv_step name z z' : once_inv name z -> ostep z z' -> once_inv name z'.
Proof.
  intros Hi Hs. destruct Hs as [g Hg|g w' p Hg Ea|g tok Hg|g tok r o' p Hg Er|g tok r w' p Hg El].
  - apply once_inv_move; [done | done | |].
    + left. unfold do_look. by destruct (on_done _).
    + intros tok. unfold do_look. by destruct (on_done _).
  - revert Ea. unfold do_acquire. rewrite (oi_name _ _ Hi).
    destruct (fc_Acquire name (z_world z)) as [w1 [e|tok]] eqn:Ea; intros [= <- <-].
    + apply once_inv_move; [done | by eapply fc_refused | by left | done].
    + destruct (fc_acquired _ _ _ _ Ea). by apply once_inv_enter.
  - apply once_inv_move; [done | done | |].
    + right. eexists. split; [done |]. unfold do_look_again. by destruct (on_done _).
    + intros t. unfold do_look_again. by destruct (on_done _).
  - destruct r as [e|]; simpl in Er; injection Er as <- <-.
    + apply once_inv_move; [done | done | right; eexists; split; done | done].
    + pose proof (oi_running _ _ Hi g tok Hg) as Hd. pose proof Hi as [N I A R K].
      split; simpl; try done.
      * intros h q t [[<- <-]|[_ Hh]]%lookup_insert_Some Hq; [by eapply I | by eapply I].
      * assert (inside (PLeaving tok None) = None \/ exists p0, z_calls z !! g = Some p0 /\ inside (PLeaving tok None) = inside p0)
          as Hp by (right; eexists; split; done).
        intros h h' q q' H1 H2 Q1 Q2.
        destruct (inside_back _ _ _ _ _ Hp H1 Q1) as (r1 & ? & E1).
        destruct (inside_back _ _ _ _ _ Hp H2 Q2) as (r2 & ? & E2).
        eapply A; [done | done | by rewrite E1 | by rewrite E2].
      * intros h t [[_ [=]]|[Hn Hh]]%lookup_insert_Some. exfalso. apply Hn.
        by eapply A; [exact Hg | exact Hh | eexists | eexists].
      * rewrite K, Hd. done.
  - unfold do_leave in El. injection El as <- <-. pose proof Hi as [N I A R K].
    apply once_inv_outside; [done | | done].
    intros h q [[<- <-]|[Hn Hh]]%lookup_insert_Some; [done |].
    destruct (inside q) as [t|] eqn:E; [|done]. exfalso. apply Hn.
    by eapply A; [exact Hg | exact Hh | eexists | rewrite E; eexists].
Qed.

(** Over exclusive claims, [Do] called by any number of goroutines on one
    [Once] lets [fn] succeed at most once, never runs it in two calls at the same
    time, and the running call holds the claim with the current fencing token; once
    it has succeeded no call starts it again. *)
Theorem once_runs_once name w z :
  steps ostep (mkOSys w (mkOnce name false) ∅ 0) z ->
  0 <= z_ok z <= 1 /\
  (forall g g' tok tok', z_calls z !! g = Some (PRunning tok) -> z_calls z !! g' = Some (PRunning tok') -> g = g') /\
  (forall g tok, z_calls z !! g = Some (PRunning tok) -> fc_holder (z_world z) name = Some tok /\ z_ok z = 0) /\
  (z_ok z = 1 -> do_look (z_once z) = PReturned None /\ forall tok, do_look_again tok (z_once z) = PLeaving tok None).
Proof.
  intros Hs. assert (once_inv name z) as [N I A R K].
  { eapply steps_invariant; [intros; by eapply once_inv_step | exact Hs |]. by split. }
  split; [rewrite K; destruct (on_done _); lia |]. split; [|split].
  - intros g g' tok tok' H1 H2. by eapply A; [exact H1 | exact H2 | eexists | eexists].
  - intros g tok Hg. split; [by eapply I |]. by rewrite K, (R g tok Hg).
  - rewrite K. unfold do_look, do_look_again. by destruct (on_done _).
Qed.
End OnceSafe.

(** ** A concrete table of claims *)

(** Held claims with their tokens, the last token, and a count of executions. *)
Record table := mkTable { tb_held : gmap string Z; tb_next : Z; tb_runs : Z }.

#[global] Instance table_claims : FencedClaims table := {|
  fc_Acquire name t :=
    match tb_held t !! name with
    | Some _ => (t, inl ErrUnavailable)
    | None => (mkTable (<[name := tb_next t + 1]> (tb_held t)) (tb_next t + 1) (tb_runs t), inr (tb_next t + 1))
    end;
  fc_Release name tok t :=
    (if bool_decide (tb_held t !! name = Some tok)
     then mkTable (delete name (tb_held t)) (tb_next t) (tb_runs t) else t, None) |}.

#[global] Instance table_exclusive : ExclusiveClaims table.
Proof.
  refine {| fc_holder t name := tb_held t !! name |}; simpl.
  - intros w w' name tok. destruct (tb_held w !! name) eqn:E; intros [= <- <-]. split; [done |].
    apply lookup_insert_eq.
  - intros w w' name e. destruct (tb_held w !! name) eqn:E; [by intros [= <- <-] | done].
  - intros w name n Hn. destruct (tb_held w !! name); [done |]. by apply lookup_insert_ne.
  - intros w name tok. case_bool_decide as E; [right; split; [done | apply lookup_delete_eq] | by left].
  - intros w name tok n Hn. case_bool_decide; [by apply lookup_delete_ne | done].
Defined.

Definition t0 : table := mkTable ∅ 0 0.

(** Two processes share two permits. *)
Definition d_sem (held : gmap Z Z) : Semaphore := mkSemaphore "s" 2 held.
Definition d_y1 : Sys :=
  mkSys (mkTable {["s#0" := 1]} 1 0) (upd (fun _ => d_sem ∅) 0 (d_sem {[0 := 1]})) [(0%nat, 0)] [].
Definition d_y2 : Sys :=
  mkSys (mkTable (<["s#1" := 2]> {["s#0" := 1]}) 2 0)
    (upd (y_sems d_y1) 1 (d_sem {[1 := 2]})) [(1%nat, 1); (0%nat, 0)] [].

Lemma semaphore_bounded_witness :
  Z.of_nat (length (y_live d_y2)) <= 2 /\ exists tok,
    tb_held (y_world d_y2) !! "s#1" = Some tok /\ (release_enter 1 (y_sems d_y2 1)).2 = inr tok.
Proof.
  destruct (semaphore_bounded "s" 2 ltac:(lia) t0 d_y2) as [H1 H2].
  - eapply steps_cons; [|eapply steps_one].
    + refine (ss_try 2 (sys0 "s" 2 t0) 0 0 (d_sem {[0 := 1]}) (mkTable {["s#0" := 1]} 1 0) true _ _);
        [lia | vm_compute; reflexivity].
    + refine (ss_try 2 d_y1 1 1 (d_sem {[1 := 2]}) (mkTable (<["s#1" := 2]> {["s#0" := 1]}) 2 0) true _ _);
        [lia | vm_compute; reflexivity].
  - split; [exact H1 |]. apply (H2 1%nat 1). left.
Defined.

Lemma once_runs_once_witness :
  let z := mkOSys (mkTable {["o" := 1]} 1 0) (mkOnce "o" false)
             (<[0%nat := PRunning 1]> (<[0%nat := PHolding 1]> (<[0%nat := PLooked]> ∅))) 0 in
  0 <= z_ok z <= 1 /\ tb_held (z_world z) !! "o" = Some 1.
Proof.
  intros z.
  destruct (once_runs_once "o" t0 z) as (H1 & _ & H3 & _).
  - eapply steps_cons; [apply (os_call _ 0%nat); reflexivity |].
    eapply steps_cons; [eapply (os_acquire _ 0%nat); reflexivity |].
    eapply steps_cons; [eapply (os_again _ 0%nat 1); reflexivity | constructor].
  - split; [exact H1 |]. apply (H3 0%nat 1). reflexivity.
Defined.

(** [fn] succeeds once per [Once] object, not once across participants: the claim
    is released after a success and nothing records it there. *)
Definition count_run (tok : Z) (t : table) : table * option error :=
  (mkTable (tb_held t) (tb_next t) (tb_runs t + 1), None).

Lemma once_runs_per_participant :
  let '(o1, w1, r1) := Do count_run (mkOnce "o" false) t0 in
  let '(o2, w2, r2) := Do count_run (mkOnce "o" false) w1 in
  r1 = None /\ r2 = None /\ tb_runs w2 = 2.
Proof. vm_compute. repeat split. Qed.

(** A release function used twice gives back the permit of a later holder. *)
Lemma stale_release_frees_other :
  let sem := d_sem ∅ in
  let '(s1, w1, p1) := Acquire (fun _ p => p) sem t0 in
  let '(s2, w2, _) := release 0 s1 w1 in
  let '(s3, w3, p2) := Acquire (fun _ p => p) s2 w2 in
  let '(s4, w4, r) := release 0 s3 w3 in
  p1 = inr 0 /\ p2 = inr 0 /\ r = None /\ tb_held w4 = ∅.
Proof. vm_compute. repeat split. Qed.
