(* ===== verification/Election.v ===== *)
(** * Leader election ([election/election.go])

    A participant runs a loop that acquires or renews a fenced claim, while other
    goroutines resign, transfer or close.  Each is split at its critical sections
    and lock calls; the event channel is a bounded buffer that drops, and a send on
    the closed channel is the panic it is in Go.  The lock is any [FencedLock], and
    nothing is asked of it: what a participant believes is stated against the answers
    the lock gave to its own calls, recorded by [logged]. *)

From S2P Require Import Prelude Types SyncPrim.

(** ** The lock *)

Class FencedLock (W : Type) := {
  fl_claims :: FencedClaims W;
  fl_Renew : string -> Z -> W -> W * option error }.

(** ** Data *)

Inductive EventType := EventJoined | EventLeading | EventFollow | EventResigned | EventTransferred | EventLost.

Record Event := mkEvent { ev_Type : EventType; ev_Leader : string; ev_Token : Z; ev_Err : option error }.

(** The loop: at its head, before a lock call, before the critical section that
    records its outcome, before sending, at the [select], and gone. *)
Inductive loop_pc :=
| LTop | LAcquire | LGot (tok : Z) | LRenew (tok : Z) | LLost (err : error) | LEmit (ev : Event)
| LSelect | LExited.

(** A call of [Resign] or [Transfer], and of [Close]. *)
Inductive resign_pc :=
| RRelease (tok : Z) (transfer : bool) | RClear (transfer : bool) | REmit (evs : list Event)
| RReturned (r : option error).

Inductive close_pc :=
| CCancel (leading : bool) (tok : Z) | CWait (leading : bool) (tok : Z) | CRelease (leading : bool) (tok : Z)
| CReturned.

Record Election := mkElection {
  e_name : string; e_participant : string; e_buffer : Z;
  e_leader : bool; e_token : Z; e_closed : bool;
  e_events : list Event; e_chanClosed : bool; e_cancelled : bool;
  e_loop : loop_pc; e_resigns : gmap nat resign_pc; e_closes : gmap nat close_pc; e_panic : bool }.

Definition set_lead (leader : bool) (tok : Z) (e : Election) : Election :=
  mkElection (e_name e) (e_participant e) (e_buffer e) leader tok (e_closed e) (e_events e) (e_chanClosed e)
    (e_cancelled e) (e_loop e) (e_resigns e) (e_closes e) (e_panic e).
Definition set_chan (evs : list Event) (closed panic : bool) (e : Election) : Election :=
  mkElection (e_name e) (e_participant e) (e_buffer e) (e_leader e) (e_token e) (e_closed e) evs closed
    (e_cancelled e) (e_loop e) (e_resigns e) (e_closes e) panic.
Definition set_closing (closed cancelled : bool) (e : Election) : Election :=
  mkElection (e_name e) (e_participant e) (e_buffer e) (e_leader e) (e_token e) closed (e_events e)
    (e_chanClosed e) cancelled (e_loop e) (e_resigns e) (e_closes e) (e_panic e).
Definition at_loop (pc : loop_pc) (e : Election) : Election :=
  mkElection (e_name e) (e_participant e) (e_buffer e) (e_leader e) (e_token e) (e_closed e) (e_events e)
    (e_chanClosed e) (e_cancelled e) pc (e_resigns e) (e_closes e) (e_panic e).
Definition at_resign (g : nat) (pc : resign_pc) (e : Election) : Election :=
  mkElection (e_name e) (e_participant e) (e_buffer e) (e_leader e) (e_token e) (e_closed e) (e_events e)
    (e_chanClosed e) (e_cancelled e) (e_loop e) (<[g := pc]> (e_resigns e)) (e_closes e) (e_panic e).
Definition at_close (g : nat) (pc : close_pc) (e : Election) : Election :=
  mkElection (e_name e) (e_participant e) (e_buffer e) (e_leader e) (e_token e) (e_closed e) (e_events e)
    (e_chanClosed e) (e_cancelled e) (e_loop e) (e_resigns e) (<[g := pc]> (e_closes e)) (e_panic e).

(** ** Operations *)

Definition ErrNotLeader : error := TextErr "election: not leader".

(** [emit]: a send on a closed channel panics even in a [select] with a
    [default]. *)
Definition emit (ev : Event) (e : Election) : Election :=
  if e_chanClosed e then set_chan (e_events e) true true e
  else if bool_decide (Z.of_nat (length (e_events e)) < e_buffer e)
       then set_chan (e_events e ++ [ev]) false (e_panic e) e
       else e.

(** The receiving end takes one event. *)
Definition receive (e : Election) : Election * option Event :=
  match e_events e with
  | ev :: t => (set_chan t (e_chanClosed e) (e_panic e) e, Some ev)
  | [] => (e, None)
  end.

(** [Join]: [lock_nil] and [gate] (the answer of the gate, if there is one) are its
    inputs; the goroutine starts at the head of the loop. *)
Definition Join (name participant : string) (lock_nil : bool) (gate : option error) (buffer : Z)
  : error + Election :=
  if bool_decide (name = "") || bool_decide (participant = "") || lock_nil
  then inl (TextErr "election: name, participant, and lock required")
  else match gate with
  | Some err => inl err
  | None =>
    let buffer := if bool_decide (buffer <= 0) then 16 else buffer in
    inr (emit (mkEvent EventJoined "" 0 None)
      (mkElection name participant buffer false 0 false [] false false LTop ∅ ∅ false))
  end.

Definition IsLeader (e : Election) : bool := e_leader e.
Definition Token (e : Election) : Z := e_token e.

(** The first critical section of [Resign] and of [Close]. *)
Definition resign_enter (transfer : bool) (e : Election) : resign_pc :=
  if e_leader e then RRelease (e_token e) transfer else RReturned (Some ErrNotLeader).

Definition close_enter (e : Election) : Election * close_pc :=
  if e_closed e then (e, CReturned)
  else (set_closing true (e_cancelled e) e, CCancel (e_leader e) (e_token e)).

Definition resigned_events (transfer : bool) : list Event :=
  mkEvent EventResigned "" 0 None :: if transfer then [mkEvent EventTransferred "" 0 None] else [].

Section Election.
Context {W : Type} `{!FencedLock W}.

(** *** The loop, one step at a time; [tick] is the case the [select] takes. *)
Definition loop_step (tick : bool) (w : W) (e : Election) : option (W * Election) :=
  match e_loop e with
  | LTop => Some (w, at_loop (if e_leader e then LRenew (e_token e) else LAcquire) e)
  | LAcquire =>
    match fc_Acquire (e_name e) w with
    | (w, inr tok) => Some (w, at_loop (LGot tok) e)
    | (w, inl err) => Some (w, at_loop (LEmit (mkEvent EventFollow "" 0 (Some err))) e)
    end
  | LGot tok =>
    Some (w, e |> set_lead true tok |> at_loop (LEmit (mkEvent EventLeading (e_participant e) tok None)))
  | LRenew tok =>
    match fl_Renew (e_name e) tok w with
    | (w, None) => Some (w, at_loop LSelect e)
    | (w, Some err) => Some (w, at_loop (LLost err) e)
    end
  | LLost err =>
    Some (w, e |> set_lead false 0 |> at_loop (LEmit (mkEvent EventLost "" 0 (Some err))))
  | LEmit ev => Some (w, e |> emit ev |> at_loop LSelect)
  | LSelect =>
    if tick then Some (w, at_loop LTop e)
    else if e_cancelled e then Some (w, at_loop LExited e) else None
  | LExited => None
  end.

(** *** [Resign] and [Transfer] *)
Definition resign_step (g : nat) (w : W) (e : Election) : option (W * Election) :=
  match e_resigns e !! g with
  | Some (RRelease tok transfer) =>
    match fc_Release (e_name e) tok w with
    | (w, Some err) => Some (w, at_resign g (RReturned (Some err)) e)
    | (w, None) => Some (w, at_resign g (RClear transfer) e)
    end
  | Some (RClear transfer) => Some (w, e |> set_lead false 0 |> at_resign g (REmit (resigned_events transfer)))
  | Some (REmit (ev :: evs)) => Some (w, e |> emit ev |> at_resign g (REmit evs))
  | Some (REmit []) => Some (w, at_resign g (RReturned None) e)
  | _ => None
  end.

(** *** [Close] *)
Definition close_step (g : nat) (w : W) (e : Election) : option (W * Election) :=
  match e_closes e !! g with
  | Some (CCancel leading tok) => Some (w, e |> set_closing true true |> at_close g (CWait leading tok))
  | Some (CWait leading tok) =>
    match e_loop e with LExited => Some (w, at_close g (CRelease leading tok) e) | _ => None end
  | Some (CRelease leading tok) =>
    let w := if leading then (fc_Release (e_name e) tok w).1 else w in
    Some (w, e |> set_chan (e_events e) true (e_panic e) |> at_close g CReturned)
  | _ => None
  end.

(** What one participant can do; the last case is the end of the context given to
    [Join]. *)
Inductive pstep (w : W) (e : Election) : W -> Election -> Prop :=
| p_loop tick w' e' : loop_step tick w e = Some (w', e') -> pstep w e w' e'
| p_resign_call g transfer :
    e_resigns e !! g = None -> pstep w e w (at_resign g (resign_enter transfer e) e)
| p_resign g w' e' : resign_step g w e = Some (w', e') -> pstep w e w' e'
| p_close_call g e' pc : e_closes e !! g = None -> close_enter e = (e', pc) -> pstep w e w (at_close g pc e')
| p_close g w' e' : close_step g w e = Some (w', e') -> pstep w e w' e'
| p_receive e' ev : receive e = (e', ev) -> pstep w e w e'
| p_parent : pstep w e w (set_closing (e_closed e) true e).

(** *** Channels *)

Lemma emit_fields ev e :
  e_leader (emit ev e) = e_leader e /\ e_token (emit ev e) = e_token e /\ e_loop (emit ev e) = e_loop e /\
  e_buffer (emit ev e) = e_buffer e.
Proof. unfold emit. destruct (e_chanClosed e); [done |]. by case_bool_decide. Qed.

(** The event buffer stays within its bound, and only a closed channel panics. *)
Definition channel_ok (e : Election) : Prop :=
  Z.of_nat (length (e_events e)) <= e_buffer e /\ (e_panic e = true -> e_chanClosed e = true).

Lemma emit_ok ev e : channel_ok e -> channel_ok (emit ev e).
Proof.
  intros [Hb Hp]. unfold emit, channel_ok. destruct (e_chanClosed e) eqn:Ec; [by split |].
  case_bool_decide; [|by rewrite Ec]. simpl. rewrite length_app. simpl. split; [lia | done].
Qed.

Lemma pstep_channel w e w' e' : pstep w e w' e' -> channel_ok e -> channel_ok e'.
Proof.
  intros [tick w1 e1 Hs|g tr Hg|g w1 e1 Hs|g e1 pc Hg He|g w1 e1 Hs|e1 ev He|] Hc.
  - unfold loop_step in Hs. destruct (e_loop e); repeat case_match; simplify_eq; try exact Hc.
    exact (emit_ok _ _ Hc).
  - exact Hc.
  - unfold resign_step in Hs. repeat case_match; simplify_eq; try exact Hc. exact (emit_ok _ _ Hc).
  - unfold close_enter in He. destruct (e_closed e); simplify_eq; exact Hc.
  - unfold close_step in Hs. repeat case_match; simplify_eq; try exact Hc.
    all: destruct Hc as [Hb Hp]; split; [exact Hb | done].
  - unfold receive in He. destruct (e_events e) as [|x t] eqn:Ee; simplify_eq; [exact Hc |].
    destruct Hc as [Hb Hp]. rewrite Ee in Hb. simpl in Hb. split; [simpl; lia | exact Hp].
  - exact Hc.
Qed.

End Election.

(** ** The calls of one participant

    [logged W] is the lock [W] with the answers it gave to the participant, the newest
    first. *)
Inductive lock_call :=
| Acquired (tok : Z) | NotAcquired | Renewed (tok : Z) | NotRenewed (tok : Z)
| Freed (tok : Z) | NotFreed (tok : Z).

Definition logged (W : Type) : Type := W * list lock_call.

#[global] Instance logged_claims {W} `{!FencedClaims W} : FencedClaims (logged W) := {|
  fc_Acquire name s :=
    let '(w, r) := fc_Acquire name s.1 in
    ((w, (match r with inr tok => Acquired tok | inl _ => NotAcquired end) :: s.2), r);
  fc_Release name tok s :=
    let '(w, r) := fc_Release name tok s.1 in
    ((w, (match r with None => Freed tok | Some _ => NotFreed tok end) :: s.2), r) |}.

#[global] Instance logged_lock {W} `{!FencedLock W} : FencedLock (logged W) := {|
  fl_claims := logged_claims;
  fl_Renew name tok s :=
    let '(w, r) := fl_Renew name tok s.1 in
    ((w, (match r with None => Renewed tok | Some _ => NotRenewed tok end) :: s.2), r) |}.

(** A call other than an acquisition, and one that was not refused either. *)
Definition no_acquire (c : lock_call) : Prop := forall tok, c ≠ Acquired tok.
Definition no_refusal (c : lock_call) : Prop := no_acquire c /\ forall tok, c ≠ NotRenewed tok.

(** The token of the last acquisition, with only calls of one kind since. *)
Definition last_acquired (since : lock_call -> Prop) (log : list lock_call) (tok : Z) : Prop :=
  exists newer older, log = newer ++ Acquired tok :: older /\ Forall since newer.

(** The token a call was made with. *)
Definition used (c : lock_call) (tok : Z) : Prop := c ∈ [Renewed tok; NotRenewed tok; Freed tok; NotFreed tok].

(** Steps of the participant; in between the lock changes in any way: leases expire,
    other participants acquire and release. *)
Section Participant.
Context {W : Type} `{!FencedLock W}.

Inductive estep : logged W * Election -> logged W * Election -> Prop :=
| es_part s e s' e' : pstep s e s' e' -> estep (s, e) (s', e')
| es_world w w' log e : estep ((w, log), e) ((w', log), e).

(** *** The invariant *)

Definition given (log : list lock_call) (tok : Z) : Prop := Acquired tok ∈ log.

Definition event_ok (log : list lock_call) (e : Election) (ev : Event) : Prop :=
  ev_Type ev = EventLeading -> ev_Leader ev = e_participant e /\ given log (ev_Token ev).

Definition loop_ok (log : list lock_call) (e : Election) : Prop :=
  match e_loop e with
  | LAcquire => e_leader e = false
  | LGot tok => e_leader e = false /\ last_acquired no_refusal log tok
  | LRenew tok => given log tok
  | LEmit ev => event_ok log e ev
  | _ => True
  end.

Definition lead_ok (log : list lock_call) (e : Election) : Prop :=
  e_leader e = true ->
  last_acquired no_acquire log (e_token e) /\
  (last_acquired no_refusal log (e_token e) \/ exists err, e_loop e = LLost err).

Definition resign_ok (log : list lock_call) (e : Election) (pc : resign_pc) : Prop :=
  match pc with
  | RRelease tok _ => given log tok
  | RClear _ | RReturned None => exists tok, given log tok /\ Freed tok ∈ log
  | REmit evs => (exists tok, given log tok /\ Freed tok ∈ log) /\ Forall (event_ok log e) evs
  | RReturned (Some _) => True
  end.

Definition close_ok (log : list lock_call) (pc : close_pc) : Prop :=
  match pc with
  | CCancel leading tok | CWait leading tok | CRelease leading tok => leading = true -> given log tok
  | CReturned => True
  end.

Record part_inv (log : list lock_call) (e : Election) : Prop := mkPartInv {
  pi_loop : loop_ok log e;
  pi_lead : lead_ok log e;
  pi_resign g pc : e_resigns e !! g = Some pc -> resign_ok log e pc;
  pi_close g pc : e_closes e !! g = Some pc -> close_ok log pc;
  pi_events : Forall (event_ok log e) (e_events e);
  pi_used c tok : c ∈ log -> used c tok -> given log tok }.
(** *** Calls added to the log *)

Lemma last_acquired_cons (since : lock_call -> Prop) c log tok :
  since c -> last_acquired since log tok -> last_acquired since (c :: log) tok.
Proof. intros Hc (n & o & -> & Hn). exists (c :: n), o. split; [done | by constructor]. Qed.

Lemma last_acquired_new (since : lock_call -> Prop) log tok : last_acquired since (Acquired tok :: log) tok.
Proof. exists [], log. split; [done | constructor]. Qed.

Lemma last_acquired_given since log tok : last_acquired since log tok -> given log tok.
Proof. intros (n & o & -> & _). apply elem_of_app. right. left. Qed.

Lemma last_acquired_weaken log tok : last_acquired no_refusal log tok -> last_acquired no_acquire log tok.
Proof. intros (n & o & -> & Hn). exists n, o. split; [done |]. eapply Forall_impl; [exact Hn |]. by intros c []. Qed.

Lemma given_cons c log tok : given log tok -> given (c :: log) tok.
Proof. intros H. by right. Qed.

Lemma event_ok_cons c log e ev : event_ok log e ev -> event_ok (c :: log) e ev.
Proof. intros H E. destruct (H E). split; [done | by apply given_cons]. Qed.

Lemma resign_ok_cons c log e pc : resign_ok log e pc -> resign_ok (c :: log) e pc.
Proof.
  destruct pc as [tok tr|tr|evs|[err|]]; simpl; [by apply given_cons | | | done |].
  1, 3: intros (t & H1 & H2); exists t; split; [by apply given_cons | by right].
  intros [(t & H1 & H2) H]. split; [exists t; split; [by apply given_cons | by right] |].
  eapply Forall_impl; [exact H |]. intros ev. apply event_ok_cons.
Qed.

Lemma close_ok_cons c log pc : close_ok log pc -> close_ok (c :: log) pc.
Proof. destruct pc; simpl; try (intros H Hl; by apply given_cons, H). done. Qed.

(** What does not depend on the loop and the leadership. *)
Lemma inv_log_rest c log e : part_inv log e -> (forall tok, used c tok -> given log tok) ->
  (forall g pc, e_resigns e !! g = Some pc -> resign_ok (c :: log) e pc) /\
  (forall g pc, e_closes e !! g = Some pc -> close_ok (c :: log) pc) /\
  Forall (event_ok (c :: log) e) (e_events e) /\
  (forall c' tok, c' ∈ c :: log -> used c' tok -> given (c :: log) tok).
Proof.
  intros [_ _ Hr Hc He Hu] Hnew. split; [intros; by eapply resign_ok_cons, Hr |].
  split; [intros; by eapply close_ok_cons, Hc |].
  split; [eapply Forall_impl; [exact He |]; intros; by apply event_ok_cons |].
  intros c' tok [->|H]%elem_of_cons U; apply given_cons; [by apply Hnew | by eapply Hu].
Qed.

Lemma inv_log c log e :
  part_inv log e -> no_refusal c -> (forall tok, used c tok -> given log tok) -> part_inv (c :: log) e.
Proof.
  intros Hi Hc Hnew. destruct (inv_log_rest c log e Hi Hnew) as (H1 & H2 & H3 & H4).
  destruct Hi as [Hl Hd _ _ _ _]. split; try done.
  - unfold loop_ok in *. destruct (e_loop e); try done.
    + destruct Hl. split; [done |]. by apply last_acquired_cons.
    + by apply given_cons.
    + by apply event_ok_cons.
  - intros E. destruct (Hd E) as [Ha Hb]. split; [apply last_acquired_cons; [by destruct Hc | done] |].
    destruct Hb; [left; by apply last_acquired_cons | by right].
Qed.

(** *** Fields written *)

Lemma inv_at_loop pc log e :
  part_inv log e -> (forall err, e_loop e ≠ LLost err) -> loop_ok log (at_loop pc e) -> part_inv log (at_loop pc e).
Proof.
  intros [Hl Hd Hr Hc He Hu] Hn Hp. split; try done. intros E. destruct (Hd E) as [H1 [H2|[err H2]]];
    [split; [done | by left] | by destruct (Hn err)].
Qed.

Lemma inv_step_down log e : part_inv log e -> part_inv log (set_lead false 0 e).
Proof.
  intros [Hl Hd Hr Hc He Hu]. split; try done. unfold loop_ok in *. simpl. destruct (e_loop e); try done. by destruct Hl.
Qed.

Lemma inv_at_resign g pc log e : part_inv log e -> resign_ok log e pc -> part_inv log (at_resign g pc e).
Proof.
  intros [Hl Hd Hr Hc He Hu] Hp. split; try done. intros g' pc'. simpl. rewrite lookup_insert_Some.
  intros [[_ <-]|[_ H]]; [exact Hp | exact (Hr _ _ H)].
Qed.

Lemma inv_at_close g pc log e : part_inv log e -> close_ok log pc -> part_inv log (at_close g pc e).
Proof.
  intros [Hl Hd Hr Hc He Hu] Hp. split; try done. intros g' pc'. simpl. rewrite lookup_insert_Some.
  intros [[_ <-]|[_ H]]; [exact Hp | exact (Hc _ _ H)].
Qed.

Lemma inv_chan evs closed panic log e :
  part_inv log e -> Forall (event_ok log e) evs -> part_inv log (set_chan evs closed panic e).
Proof. intros [Hl Hd Hr Hc He Hu] Hp. by split. Qed.

Lemma inv_closing closed cancelled log e : part_inv log e -> part_inv log (set_closing closed cancelled e).
Proof. intros [Hl Hd Hr Hc He Hu]. by split. Qed.

Lemma inv_emit ev log e : part_inv log e -> event_ok log e ev -> part_inv log (emit ev e).
Proof.
  intros Hi Hev. unfold emit. destruct (e_chanClosed e); [by apply inv_chan; [|apply Hi] |].
  case_bool_decide; [|done]. apply inv_chan; [done |]. apply Forall_app. split; [apply Hi |].
  by apply Forall_singleton.
Qed.

Lemma event_ok_other log e ev : ev_Type ev ≠ EventLeading -> event_ok log e ev.
Proof. by intros H E. Qed.

(** *** Every step *)

Lemma loop_step_inv tick w log e s' e' :
  part_inv log e -> loop_step tick (w, log) e = Some (s', e') -> part_inv s'.2 e'.
Proof.
  intros Hi Hs. pose proof (pi_loop _ _ Hi) as Hl. unfold loop_ok in Hl. unfold loop_step in Hs.
  destruct (e_loop e) as [| |tok|tok|err|ev| |] eqn:El; cbn [fc_Acquire fl_Renew logged_lock fl_claims logged_claims fst snd] in Hs.
  - simplify_eq. apply inv_at_loop; [done | by rewrite El |]. unfold loop_ok. simpl.
    destruct (e_leader e) eqn:E; [|done]. by eapply last_acquired_given, (pi_lead _ _ Hi).
  - destruct (fc_Acquire (e_name e) w) as [w2 [err|tok]] eqn:Ea; simplify_eq; simpl.
    + apply inv_at_loop; [|by rewrite El |by apply event_ok_other]. apply inv_log; [done | by split | ].
      intros t Ht. by repeat apply elem_of_cons in Ht as [[=]|Ht]; apply elem_of_nil in Ht.
    + destruct (inv_log_rest (Acquired tok) log e Hi) as (H1 & H2 & H3 & H4).
      { intros t Ht. by repeat apply elem_of_cons in Ht as [[=]|Ht]; apply elem_of_nil in Ht. }
      split; try done.
      * split; [done | apply last_acquired_new].
      * intros E. simpl in E. congruence.
  - simplify_eq. destruct Hl as [_ Hl]. split; try apply Hi.
    + split; [done | by eapply last_acquired_given].
    + intros _. split; [by apply last_acquired_weaken | by left].
  - destruct (fl_Renew (e_name e) tok w) as [w2 [err|]] eqn:Er; simplify_eq; simpl.
    + destruct (inv_log_rest (NotRenewed tok) log e Hi) as (H1 & H2 & H3 & H4).
      { intros t Ht. by repeat apply elem_of_cons in Ht as [[= ->]|Ht]; [..|apply elem_of_nil in Ht]. }
      split; try done. intros E. split; [|by right; exists err].
      apply last_acquired_cons; [done |]. by apply (pi_lead _ _ Hi).
    + apply inv_at_loop; [|by rewrite El |done]. apply inv_log; [done | by split |].
      intros t Ht. by repeat apply elem_of_cons in Ht as [[= ->]|Ht]; [..|apply elem_of_nil in Ht].
  - simplify_eq. apply inv_step_down in Hi. destruct Hi as [? _ ? ? ? ?]. by split.
  - simplify_eq. apply inv_at_loop; [by apply inv_emit | | done].
    destruct (emit_fields ev e) as (_ & _ & -> & _). by rewrite El.
  - destruct tick; [|destruct (e_cancelled e)]; simplify_eq; (apply inv_at_loop; [done | by rewrite El | done]).
  - done.
Qed.

Lemma freed_inv name tok w log e s' r :
  part_inv log e -> given log tok -> fc_Release name tok ((w, log) : logged W) = (s', r) ->
  part_inv s'.2 e /\ (forall t, given log t -> given s'.2 t) /\ (r = None -> Freed tok ∈ s'.2).
Proof.
  intros Hi Hg. simpl. destruct (fc_Release name tok w) as [w2 r2]. intros [= <- <-]. simpl.
  split; [|split; [intros t; apply given_cons | intros ->; left]].
  apply inv_log; [done | by destruct r2; split |].
  intros t Ht. destruct r2; by repeat apply elem_of_cons in Ht as [[= ->]|Ht]; [..|apply elem_of_nil in Ht].
Qed.

Lemma resign_step_inv g w log e s' e' :
  part_inv log e -> resign_step g (w, log) e = Some (s', e') -> part_inv s'.2 e'.
Proof.
  intros Hi. unfold resign_step. destruct (e_resigns e !! g) as [pc|] eqn:Hg; [|done].
  pose proof (pi_resign _ _ Hi _ _ Hg) as Hp. destruct pc as [tok tr|tr|[|ev evs]|r]; [| | | |done]; simpl in Hp.
  - destruct (fc_Release (e_name e) tok (w, log)) as [s1 r] eqn:Er.
    destruct (freed_inv _ _ _ _ _ _ _ Hi Hp Er) as (H1 & H2 & H3).
    destruct r as [err|]; intros [= <- <-]; apply inv_at_resign; try done. exists tok. split; [by apply H2 | by apply H3].
  - intros [= <- <-]. apply inv_at_resign; [by apply inv_step_down |]. split; [exact Hp |].
    unfold resigned_events. constructor; [done |]. destruct tr; [by constructor | constructor].
  - intros [= <- <-]. apply inv_at_resign; [done |]. by destruct Hp.
  - destruct Hp as [Hp [Hev Hevs]%Forall_cons_1]. intros [= <- <-].
    apply inv_at_resign; [by apply inv_emit |]. split; [exact Hp |].
    unfold emit. destruct (e_chanClosed e); [done |]. by case_bool_decide.
Qed.

Lemma close_step_inv g w log e s' e' :
  part_inv log e -> close_step g (w, log) e = Some (s', e') -> part_inv s'.2 e'.
Proof.
  intros Hi. unfold close_step. destruct (e_closes e !! g) as [pc|] eqn:Hg; [|done].
  pose proof (pi_close _ _ Hi _ _ Hg) as Hp. destruct pc as [l tok|l tok|l tok|]; [| | |done]; simpl in Hp.
  - intros [= <- <-]. by apply inv_at_close; [apply inv_closing |].
  - destruct (e_loop e); try done. intros [= <- <-]. by apply inv_at_close.
  - destruct l; [|intros [= <- <-]; apply inv_at_close; [by apply inv_chan; [|apply Hi] | done]].
    destruct (fc_Release (e_name e) tok (w, log)) as [s1 r] eqn:Er.
    destruct (freed_inv _ _ _ _ _ _ _ Hi (Hp eq_refl) Er) as (H1 & _). intros [= <- <-].
    apply inv_at_close; [|done]. by apply inv_chan; [|apply H1].
Qed.

Lemma pstep_inv s e s' e' : part_inv s.2 e -> pstep s e s' e' -> part_inv s'.2 e'.
Proof.
  destruct s as [w log]. simpl. intros Hi. intros [tick s1 e1 Hs|g tr Hg|g s1 e1 Hs|g e1 pc Hg He|g s1 e1 Hs|e1 ev He|].
  - by eapply loop_step_inv.
  - apply inv_at_resign; [done |]. unfold resign_enter. destruct (e_leader e) eqn:E; [|done].
    by eapply last_acquired_given, (pi_lead _ _ Hi).
  - by eapply resign_step_inv.
  - unfold close_enter in He. destruct (e_closed e); simplify_eq; [by apply inv_at_close |].
    apply inv_at_close; [by apply inv_closing |]. intros E. by eapply last_acquired_given, (pi_lead _ _ Hi).
  - by eapply close_step_inv.
  - unfold receive in He. destruct (e_events e) as [|x t] eqn:Ee; simplify_eq; [done |].
    apply inv_chan; [done |]. pose proof (pi_events _ _ Hi) as H. rewrite Ee in H. by apply Forall_cons_1 in H as [_ ?].
  - by apply inv_closing.
Qed.

Lemma Join_inv name participant buffer e :
  Join name participant false None buffer = inr e -> part_inv [] e /\ channel_ok e.
Proof.
  unfold Join. destruct (_ || _); [done |]. intros [= <-]. split.
  - apply inv_emit; [|by apply event_ok_other]. split; simpl; try done; try (intros g pc; by rewrite lookup_empty).
    intros c tok H. by apply elem_of_nil in H.
  - apply emit_ok. split; [|done]. simpl. case_bool_decide; lia.
Qed.

(** C36: A participant of an election leads only on what the lock answered to its own
    calls.  Whatever the lock is and however it changes between the calls (expired
    leases, other participants), with [Resign], [Transfer], [Close] and the loop
    interleaved at their critical sections: while [IsLeader] answers true, [Token] is
    the token of the participant's last successful acquisition, and no renewal was
    refused since, except between such a refusal and the loop's next critical section,
    which steps down; so two participants lead with one token only if the lock gave
    it to both.  The participant renews and releases only tokens it was given; every
    leadership event in the channel names the participant and such a token; a
    [Resign] or [Transfer] that returned no error released one; the event buffer
    stays bounded; and it panics only after its event channel was closed. *)
Theorem leads_as_answered name participant buffer e0 w0 s e :
  Join name participant false None buffer = inr e0 ->
  steps estep ((w0, []), e0) (s, e) ->
  (IsLeader e = true ->
     last_acquired no_acquire s.2 (Token e) /\
     (last_acquired no_refusal s.2 (Token e) \/
      exists err, e_loop e = LLost err /\
        forall tick s' e', loop_step tick s e = Some (s', e') -> IsLeader e' = false)) /\
  (forall c tok, c ∈ s.2 -> used c tok -> Acquired tok ∈ s.2) /\
  (forall ev, ev ∈ e_events e -> ev_Type ev = EventLeading ->
     ev_Leader ev = e_participant e /\ Acquired (ev_Token ev) ∈ s.2) /\
  (forall g, e_resigns e !! g = Some (RReturned None) -> exists tok, Acquired tok ∈ s.2 /\ Freed tok ∈ s.2) /\
  Z.of_nat (length (e_events e)) <= e_buffer e /\
  (e_panic e = true -> e_chanClosed e = true).
Proof.
  intros Hj Hs. apply Join_inv in Hj as [Hi Hc].
  assert (part_inv s.2 e /\ channel_ok e) as [Hi' [Hb Hp]].
  { pose proof (steps_invariant estep (fun st => part_inv st.1.2 st.2 /\ channel_ok st.2)) as H.
    refine (H _ _ _ Hs (conj Hi Hc)). intros a b [Ha Hb] Hab. revert Ha Hb.
    destruct Hab as [s1 e1 s2 e2 Hst|w1 w2 log e1]; simpl; intros Ha Hb; [|done].
    split; [by eapply pstep_inv | exact (pstep_channel _ _ _ _ Hst Hb)]. }
  split; [|split; [|split; [|split]]]; [| | | |done].
  - intros E. destruct (pi_lead _ _ Hi' E) as [H1 [H2|[err H2]]]; (split; [done |]); [by left |].
    right. exists err. split; [done |]. intros tick s' e'. unfold loop_step. rewrite H2. by intros [= <- <-].
  - apply (pi_used _ _ Hi').
  - intros ev Hev. pose proof (pi_events _ _ Hi') as H. rewrite Forall_forall in H. by apply H.
  - intros g Hg. exact (pi_resign _ _ Hi' _ _ Hg).
Qed.
End Participant.

(** ** Concrete runs *)

Inductive action := ALoop (tick : bool) | AResign (g : nat) | AResignStep (g : nat) | AClose (g : nat) | ACloseStep (g : nat).

Definition act {W} `{!FencedLock W} (s : W * Election) (a : action) : option (W * Election) :=
  let '(w, e) := s in
  match a with
  | ALoop tick => loop_step tick w e
  | AResign g => match e_resigns e !! g with
                 | None => Some (w, at_resign g (resign_enter false e) e) | Some _ => None end
  | AResignStep g => resign_step g w e
  | AClose g => match e_closes e !! g with
                | None => let '(e', pc) := close_enter e in Some (w, at_close g pc e') | Some _ => None end
  | ACloseStep g => close_step g w e
  end.

Fixpoint acts {W} `{!FencedLock W} (l : list action) (s : W * Election) : option (W * Election) :=
  match l with
  | [] => Some s
  | a :: t => match act s a with Some s => acts t s | None => None end
  end.

(** A list of actions is an execution of one participant. *)
Lemma act_pstep {W} `{!FencedLock W} s a w' e' : act s a = Some (w', e') -> pstep s.1 s.2 w' e'.
Proof.
  destruct s as [w e]. destruct a as [tick|g|g|g|g]; simpl.
  - apply p_loop.
  - destruct (e_resigns e !! g) eqn:Hg; [done |]. intros [= <- <-]. by apply p_resign_call.
  - apply p_resign.
  - destruct (e_closes e !! g) eqn:Hg; [done |]. destruct (close_enter e) as [e1 pc] eqn:He.
    intros [= <- <-]. by eapply p_close_call.
  - apply p_close.
Qed.

#[global] Instance table_lock : FencedLock table := {|
  fl_claims := table_claims;
  fl_Renew name tok t := (t, if bool_decide (tb_held t !! name = Some tok) then None else Some ErrNotLeader) |}.

Definition d_joined : Election :=
  match Join "lead" "p" false None 0 with
  | inr e => e
  | inl _ => mkElection "" "" 0 false 0 false [] false false LExited ∅ ∅ false
  end.

(** The first participant takes the lead. *)
Definition d_lead : table * Election :=
  default (t0, d_joined) (acts [ALoop true; ALoop true; ALoop true; ALoop true] (t0, d_joined)).

Lemma d_lead_ok :
  acts [ALoop true; ALoop true; ALoop true; ALoop true] (t0, d_joined) = Some d_lead /\
  e_leader d_lead.2 = true /\ e_token d_lead.2 = 1 /\ tb_next d_lead.1 = 1.
Proof. vm_compute. repeat split. Qed.

Lemma acts_steps {W} `{!FencedLock W} l (s : logged W) e s' e' :
  acts l (s, e) = Some (s', e') -> steps (estep (W := W)) (s, e) (s', e').
Proof.
  revert s e. induction l as [|a l IH]; intros s e H; cbn [acts] in H; [injection H as <- <-; constructor |].
  destruct (act (s, e) a) as [[s1 e1]|] eqn:Ea; [|done]. apply act_pstep in Ea.
  eapply steps_cons; [by apply es_part | by apply IH].
Qed.

(** A leader that has renewed once. *)
Definition d_logged : logged table * Election :=
  default ((t0, []), d_joined) (acts [ALoop true; ALoop true; ALoop true; ALoop true; ALoop true; ALoop true; ALoop true]
    ((t0, []), d_joined)).

Lemma leads_as_answered_witness :
  exists s e, steps (estep (W := table)) ((t0, []), d_joined) (s, e) /\ IsLeader e = true /\
    s.2 = [Renewed 1; Acquired 1] /\ last_acquired no_acquire s.2 (Token e) /\
    Z.of_nat (length (e_events e)) <= 16.
Proof.
  exists d_logged.1, d_logged.2.
  assert (steps (estep (W := table)) ((t0, []), d_joined) (d_logged.1, d_logged.2)) as Hs
    by (apply (acts_steps [ALoop true; ALoop true; ALoop true; ALoop true; ALoop true; ALoop true; ALoop true]);
        vm_compute; reflexivity).
  split; [exact Hs |].
  destruct (leads_as_answered "lead" "p" 0 d_joined t0 d_logged.1 d_logged.2 eq_refl Hs) as (H1 & _ & _ & _ & H5 & _).
  assert (IsLeader d_logged.2 = true) as E by (vm_compute; reflexivity).
  split; [exact E |]. split; [vm_compute; reflexivity |]. split; [exact (proj1 (H1 E)) | exact H5].
Defined.


(** [Close] leaves the leader flag set, so a later [Resign] goes on to send its
    event on the channel [Close] has closed: it panics. *)
Lemma resign_after_close_panics :
  match acts [AClose 0; ACloseStep 0; ALoop false; ACloseStep 0; ACloseStep 0] d_lead with
  | Some (w, e) =>
    IsLeader e = true /\ tb_held w = ∅ /\
    exists s, acts [AResign 0; AResignStep 0; AResignStep 0; AResignStep 0] (w, e) = Some s /\ e_panic s.2 = true
  | None => False
  end.
Proof. vm_compute. split; [done |]. split; [done |]. eexists. by split. Qed.

(** [Close] decides whether to release before the loop has stopped: a claim
    acquired in between is never released. *)
Lemma close_leaks_claim :
  match acts [AClose 0; ALoop true; ALoop true; ALoop true; ALoop true; ACloseStep 0; ALoop false;
              ACloseStep 0; ACloseStep 0] (t0, d_joined) with
  | Some (w, e) => e_closes e !! 0%nat = Some CReturned /\ tb_held w !! "lead" = Some 1
  | None => False
  end.
Proof. vm_compute. by split. Qed.

(** [Resign] clears the flags after its release without looking at them again: it
    erases a leadership the loop has won in between, and the claim stays taken. *)
Lemma resign_erases_new_leadership :
  match acts [AResign 0; AResignStep 0; ALoop true; ALoop true; ALoop true; ALoop true; ALoop true;
              ALoop true; ALoop true; ALoop true; ALoop true; ALoop true; AResignStep 0] d_lead with
  | Some (w, e) => IsLeader e = false /\ tb_held w !! "lead" = Some 2
  | None => False
  end.
Proof. vm_compute. by split. Qed.
