(* ===== verification/Maintenance.v ===== *)
(** * Maintenance windows ([control/maintenance/maintenance.go])

    A window with a scope and an expiry, kept in a file when a path is given.  As in
    [Lockdown], the file is overwritten by [os.WriteFile], whose outcome is an argument,
    and JSON of a state reads back as written.  Every method first
    expires a window that is over. *)

From S2P Require Import Prelude.

(** ** Data *)

Record Scope := mkScope { sc_Claims : list string; sc_Tasks : list string; sc_All : bool }.

Record State := mkState {
  mt_ID : string; mt_Reason : string; mt_Scope : Scope; mt_EnteredAt : Time; mt_ExpiresAt : Time;
  mt_ActorID : string; mt_Active : bool }.

Definition state_zero : State := mkState "" "" (mkScope [] [] false) 0 0 "" false.

Record EnterRequest := mkEnter {
  er_ID : string; er_Reason : string; er_Scope : Scope; er_Duration : Duration; er_ActorID : string }.

Inductive maintenance_error := ErrActive | ErrInactive | ReasonRequired | ErrPersist | ErrLoad.

Record Manager := mkManager {
  m_state : State; m_path : bool; m_maxDur : Duration; m_file : file State }.

Definition set_state (s : State) (m : Manager) : Manager :=
  mkManager s (m_path m) (m_maxDur m) (m_file m).

(** ** Operations *)

Definition persistLocked (w : write_result) (m : Manager) : Manager * bool :=
  if m_path m then
    let '(f, ok) := WriteFile w (m_state m) (m_file m) in (mkManager (m_state m) (m_path m) (m_maxDur m) f, ok)
  else (m, true).

Definition expireLocked (now : Time) (written : write_result) (m : Manager) : Manager :=
  if mt_Active (m_state m) && After now (mt_ExpiresAt (m_state m))
  then (persistLocked written (set_state state_zero m)).1 else m.

(** [read] is what reading the file gives; an error is [Damaged]. *)
Definition New (path : bool) (maxDur : Duration) (now : Time) (written : write_result) (read : file State)
  : maintenance_error + Manager :=
  let maxDur := if bool_decide (maxDur <= 0) then 24 * Hour else maxDur in
  if path then
    match read with
    | Absent => inr (mkManager state_zero path maxDur Absent)
    | Damaged => inl ErrLoad
    | Holds s => inr (expireLocked now written (mkManager s path maxDur (Holds s)))
    end
  else inr (mkManager state_zero path maxDur Absent).

Section Maintenance.
(** [now.UTC().Format("20060102T150405")] *)
Variable format_time : Time -> string.

Definition window_length (maxDur : Duration) (d : Duration) : Duration :=
  let dur := if bool_decide (d <= 0) then Hour else d in
  if bool_decide (maxDur < dur) then maxDur else dur.

(** [t0] is the reading of [expireLocked], [now] that of the new window. *)
Definition Enter (t0 now : Time) (w_expire w_enter : write_result) (req : EnterRequest) (m : Manager)
  : Manager * (State * option maintenance_error) :=
  let m := expireLocked t0 w_expire m in
  if mt_Active (m_state m) then (m, (m_state m, Some ErrActive))
  else if bool_decide (er_Reason req = "") then (m, (state_zero, Some ReasonRequired))
  else
    let dur := window_length (m_maxDur m) (er_Duration req) in
    let id := if bool_decide (er_ID req = "") then format_time now else er_ID req in
    let m := set_state (mkState id (er_Reason req) (er_Scope req) now (Add now dur) (er_ActorID req) true) m in
    match persistLocked w_enter m with
    | (m, false) => (set_state state_zero m, (state_zero, Some ErrPersist))
    | (m, true) => (m, (m_state m, None))
    end.

Definition Exit (now : Time) (w_expire w_exit : write_result) (m : Manager)
  : Manager * (State * option maintenance_error) :=
  let m := expireLocked now w_expire m in
  if negb (mt_Active (m_state m)) then (m, (state_zero, Some ErrInactive))
  else
    let prev := m_state m in
    match persistLocked w_exit (set_state state_zero m) with
    | (m, false) => (set_state prev m, (state_zero, Some ErrPersist))
    | (m, true) =>
      (m, (mkState (mt_ID prev) (mt_Reason prev) (mt_Scope prev) (mt_EnteredAt prev) (mt_ExpiresAt prev)
             (mt_ActorID prev) false, None))
    end.

Definition Active (now : Time) (written : write_result) (m : Manager) : Manager * bool :=
  let m := expireLocked now written m in (m, mt_Active (m_state m)).

Definition State_ (now : Time) (written : write_result) (m : Manager) : Manager * State :=
  let m := expireLocked now written m in (m, m_state m).

(** ** Executions, with restarts from the file *)

Inductive mstep : Manager -> Manager -> Prop :=
| ms_enter t0 now w1 w2 req m : t0 <= now -> mstep m (Enter t0 now w1 w2 req m).1
| ms_exit now w1 w2 m : mstep m (Exit now w1 w2 m).1
| ms_look now w m : mstep m (Active now w m).1
| ms_restart now w m m' :
    m_path m = true ->
    New true (m_maxDur m) now w (m_file m) = inr m' ->
    mstep m m'.

(** A window that is in force was opened for at most the longest duration; the
    file holds no other active window than the current one or one that a failed
    write left behind, of the same kind. *)
Definition bounded (maxDur : Duration) (s : State) : Prop :=
  mt_Active s = true -> mt_EnteredAt s < mt_ExpiresAt s <= mt_EnteredAt s + maxDur /\ mt_Reason s ≠ "".

Record maint_inv (m : Manager) : Prop := mkMaintInv {
  mi_dur : 0 < m_maxDur m;
  mi_state : bounded (m_maxDur m) (m_state m);
  mi_file s : m_file m = Holds s -> bounded (m_maxDur m) s }.

Lemma persist_inv w m : maint_inv m -> maint_inv (persistLocked w m).1 /\ m_maxDur (persistLocked w m).1 = m_maxDur m
  /\ m_state (persistLocked w m).1 = m_state m.
Proof.
  intros [H1 H2 H3]. unfold persistLocked. destruct (m_path m), w; try done;
    (split; [|done]); (split; try done); simpl; by intros s [= <-].
Qed.

Lemma zero_inv m : maint_inv m -> maint_inv (set_state state_zero m).
Proof. intros [H1 H2 H3]. by split. Qed.

Lemma expire_window_inv now w m : maint_inv m -> maint_inv (expireLocked now w m) /\
  m_maxDur (expireLocked now w m) = m_maxDur m.
Proof.
  intros Hi. unfold expireLocked. destruct (_ && _); [|done].
  destruct (persist_inv w _ (zero_inv m Hi)) as (H1 & H2 & _). done.
Qed.

Lemma window_length_pos maxDur d : 0 < maxDur -> 0 < window_length maxDur d <= maxDur.
Proof.
  unfold window_length. intros H. destruct (bool_decide_reflect (d <= 0)); case_bool_decide;
    unfold Hour, Minute, Second, Millisecond in *; lia.
Qed.

Lemma maint_inv_step m m' : maint_inv m -> mstep m m' -> maint_inv m'.
Proof.
  intros Hi Hs. destruct Hs as [t0 now w1 w2 req m Ht|now w1 w2 m|now w m|now w m m' Hp He].
  - unfold Enter. destruct (expire_window_inv t0 w1 m Hi) as [Hi' Hd]. set (m1 := expireLocked t0 w1 m) in *.
    destruct (mt_Active (m_state m1)); [done |]. case_bool_decide as Hr; [done |].
    pose proof (window_length_pos (m_maxDur m1) (er_Duration req) (mi_dur _ Hi')) as Hw.
    set (m2 := set_state _ m1).
    assert (maint_inv m2) as Hi2.
    { destruct Hi' as [H1 H2 H3]. split; [done | | done]. intros _. unfold m2, Add. simpl. split; [lia | done]. }
    destruct (persist_inv w2 m2 Hi2) as (Hi3 & _). destruct (persistLocked w2 m2) as [m3 []]; [done |].
    by apply zero_inv.
  - unfold Exit. destruct (expire_window_inv now w1 m Hi) as [Hi' Hd]. set (m1 := expireLocked now w1 m) in *.
    destruct (negb _); [done |]. destruct (persist_inv w2 _ (zero_inv m1 Hi')) as (Hi3 & Hd3 & _).
    destruct (persistLocked w2 (set_state state_zero m1)) as [m3 []]; [done |]. simpl in *.
    destruct Hi' as [_ H2 _], Hi3 as [G1 _ G3]. split; [done | simpl; by rewrite Hd3 | done].
  - by apply expire_window_inv.
  - revert He. unfold New. rewrite bool_decide_eq_false_2 by (pose proof (mi_dur _ Hi); lia).
    destruct Hi as [H1 H2 H3]. destruct (m_file m) as [| |s] eqn:Ef; intros [= <-].
    + by split.
    + apply expire_window_inv. split; [done | by apply H3 | simpl; intros s' [= <-]; by apply H3].
Qed.

(** A maintenance window is never open-ended: whatever the requests, failed
    writes and restarts, an active window has a reason, lasts at most the configured
    maximum, and is no longer reported once its expiry has passed. *)
Theorem maintenance_bounded m0 m now w :
  maint_inv m0 -> steps mstep m0 m ->
  let '(m', active) := Active now w m in
  active = true ->
  mt_Reason (m_state m') ≠ "" /\ now <= mt_ExpiresAt (m_state m') <= mt_EnteredAt (m_state m') + m_maxDur m'.
Proof.
  intros Hi Hs. assert (maint_inv m) as Hm by (by eapply steps_invariant; [apply maint_inv_step | |]).
  unfold Active. destruct (expire_window_inv now w m Hm) as [[H1 H2 H3] _]. intros Ha.
  destruct (H2 Ha) as [Hb Hr]. split; [done |]. split; [|lia].
  revert Ha. unfold expireLocked. destruct (mt_Active (m_state m)) eqn:Em; simpl; [|congruence].
  unfold After. case_bool_decide as Hn; [|intros _; lia].
  unfold persistLocked. by destruct (m_path (set_state state_zero m)), w.
Qed.
End Maintenance.

Definition d_m0 : Manager := mkManager state_zero true (24 * Hour) Absent.
Definition d_enter : EnterRequest := mkEnter "m1" "upgrade" (mkScope [] [] true) (48 * Hour) "ops".

(** Entered for two days, capped at one, then a restart. *)
Lemma maintenance_bounded_witness :
  let m1 := (Enter (fun _ => "") 0 10 Wrote Wrote d_enter d_m0).1 in
  let m2 := match New true (24 * Hour) 20 Wrote (Holds (m_state m1)) with inr m => m | inl _ => d_m0 end in
  mt_Active (m_state m2) = true /\ 30 <= mt_ExpiresAt (m_state m2) <= 10 + 24 * Hour.
Proof.
  intros m1 m2.
  assert (steps (mstep (fun _ => "")) d_m0 m2) as Hs.
  { eapply steps_cons; [apply (ms_enter (fun _ => "") 0 10 Wrote Wrote d_enter d_m0); lia |].
    eapply steps_one. apply (ms_restart _ 20 Wrote); vm_compute; reflexivity. }
  assert (maint_inv d_m0) as Hi.
  { split; [vm_compute; reflexivity | discriminate | discriminate]. }
  pose proof (maintenance_bounded (fun _ => "") d_m0 m2 30 Wrote Hi Hs) as H.
  split; [vm_compute; reflexivity |]. exact (proj2 (H eq_refl)).
Defined.
