(* ===== verification/Command.v ===== *)
(** * Control commands ([control/command/command.go])

    A registry of in-process handlers behind a size limit, a rate limit, an
    authorizer, idempotency keys and an audit.  [Invoke] has two critical sections,
    [invoke_enter] and [store_result]; between them it calls the authorizer, the
    handler and the auditor, which act on an environment of their own
    ([CommandEnv]).  A handler's result, panic included, is an argument; deadlines
    reach only the handler's context and are kept as the value passed to it. *)

From S2P Require Import Prelude Types.

(** ** Data *)

Inductive command_error :=
| ErrExists | ErrNotFound | ErrDenied | ErrTooLarge | ErrRateLimited | ErrClosed
| NameAndHandlerRequired | PermissionRequired | PanicContained | HandlerError (e : error).

Record Request := mkRequest {
  rq_Name : string; rq_ActorID : string; rq_Body : Z; rq_IdempotencyKey : string; rq_Deadline : Duration }.

Record Result := mkResult { rs_OK : bool; rs_Message : string; rs_Attrs : gmap string string }.

Definition result_zero : Result := mkResult false "" ∅.

(** What running a handler came to. *)
Inductive outcome := Returned (res : Result) (err : option error) | Panicked.

(** [sp_handler] tells whether a handler is given. *)
Record Spec := mkSpec {
  sp_Name : string; sp_Permission : string; sp_MaxBodyBytes : Z; sp_Deadline : Duration;
  sp_RateLimitPerMin : Z; sp_handler : bool }.

Record registered := mkRegistered { rg_spec : Spec; rg_hits : list Time }.

Record Registry := mkRegistry {
  r_cmds : gmap string registered; r_idem : gmap string Result; r_idemMax : Z; r_closed : bool;
  r_maxBody : Z; r_deadline : Duration }.

Definition set_cmds (c : gmap string registered) (r : Registry) : Registry :=
  mkRegistry c (r_idem r) (r_idemMax r) (r_closed r) (r_maxBody r) (r_deadline r).
Definition set_idem (i : gmap string Result) (r : Registry) : Registry :=
  mkRegistry (r_cmds r) i (r_idemMax r) (r_closed r) (r_maxBody r) (r_deadline r).

(** ** Operations *)

Definition New (maxBody : Z) (deadline : Duration) (idemMax : Z) : Registry :=
  mkRegistry ∅ ∅ (if bool_decide (idemMax <= 0) then 1024 else idemMax) false
    (if bool_decide (maxBody <= 0) then Z.shiftl 256 10 else maxBody)
    (if bool_decide (deadline <= 0) then 15 * Second else deadline).

Definition Register (spec : Spec) (r : Registry) : Registry * option command_error :=
  if bool_decide (sp_Name spec = "") || negb (sp_handler spec) then (r, Some NameAndHandlerRequired)
  else if bool_decide (sp_Permission spec = "") then (r, Some PermissionRequired)
  else
    let spec := mkSpec (sp_Name spec) (sp_Permission spec)
      (if bool_decide (sp_MaxBodyBytes spec <= 0) then r_maxBody r else sp_MaxBodyBytes spec)
      (if bool_decide (sp_Deadline spec <= 0) then r_deadline r else sp_Deadline spec)
      (sp_RateLimitPerMin spec) (sp_handler spec) in
    if r_closed r then (r, Some ErrClosed)
    else match r_cmds r !! sp_Name spec with
         | Some _ => (r, Some ErrExists)
         | None => (set_cmds (<[sp_Name spec := mkRegistered spec []]> (r_cmds r)) r, None)
         end.

(** What the first critical section of [Invoke] decides: an early answer with the
    audit record it leaves, or to go on with a command. *)
Inductive entry :=
| Answer (audit : option (string * string)) (res : Result) (err : option command_error)
| GoOn (spec : Spec).

(** The hits of the last minute, at [now]. *)
Definition recent (now : Time) (hits : list Time) : list Time :=
  filter (fun t => After t (Add now (- Minute)) = true) hits.

Definition rate_check (now : Time) (reg : registered) : registered * bool :=
  if bool_decide (0 < sp_RateLimitPerMin (rg_spec reg)) then
    let hits := recent now (rg_hits reg) in
    if bool_decide (sp_RateLimitPerMin (rg_spec reg) <= Z.of_nat (length hits))
    then (mkRegistered (rg_spec reg) hits, false)
    else (mkRegistered (rg_spec reg) (hits ++ [now]), true)
  else (reg, true).

Definition invoke_enter (now : Time) (req : Request) (r : Registry) : Registry * entry :=
  if r_closed r then (r, Answer None result_zero (Some ErrClosed))
  else match r_cmds r !! rq_Name req with
  | None => (r, Answer None result_zero (Some ErrNotFound))
  | Some reg =>
    let prev := if bool_decide (rq_IdempotencyKey req = "") then None
                else r_idem r !! rq_IdempotencyKey req in
    match prev with
    | Some prev => (r, Answer None prev None)
    | None =>
      if bool_decide (sp_MaxBodyBytes (rg_spec reg) < rq_Body req)
      then (r, Answer (Some ("deny", "too_large")) result_zero (Some ErrTooLarge))
      else match rate_check now reg with
           | (reg, false) => (set_cmds (<[rq_Name req := reg]> (r_cmds r)) r,
               Answer (Some ("deny", "rate_limited")) result_zero (Some ErrRateLimited))
           | (reg, true) => (set_cmds (<[rq_Name req := reg]> (r_cmds r)) r, GoOn (rg_spec reg))
           end
    end
  end.

(** The loop that makes room deletes keys in the order [range] yields them until
    it has deleted [idemMax/2], at least one. *)
Definition evict (order : list string) (idemMax : Z) (m : gmap string Result) : gmap string Result :=
  foldl (fun m k => delete k m) m (take (Z.to_nat (Z.max 1 (Z.quot idemMax 2))) order).

(** The second critical section; [order] is the order of the [range]. *)
Definition store_result (order : list string) (req : Request) (res : Result) (r : Registry) : Registry :=
  let m := if bool_decide (r_idemMax r <= Z.of_nat (size (r_idem r)))
           then evict order (r_idemMax r) (r_idem r) else r_idem r in
  set_idem (<[rq_IdempotencyKey req := res]> m) r.

Definition effective_deadline (spec : Spec) (req : Request) : Duration :=
  if bool_decide (0 < rq_Deadline req) && bool_decide (rq_Deadline req < sp_Deadline spec)
  then rq_Deadline req else sp_Deadline spec.

Definition Close (r : Registry) : Registry :=
  mkRegistry (r_cmds r) (r_idem r) (r_idemMax r) true (r_maxBody r) (r_deadline r).

(** ** Authorizer, auditor and handlers *)

Class CommandEnv (E : Type) := {
  ce_authorize : string -> string -> string -> E -> E * option error;  (** actor, name, permission *)
  ce_audit : string -> string -> string -> string -> E -> E;           (** actor, name, decision, outcome *)
  ce_handler : Request -> Duration -> E -> E * outcome }.

Section Invoke.
Context {E : Type} `{!CommandEnv E}.

Definition auditOut (req : Request) (decision out : string) (e : E) : E :=
  ce_audit (rq_ActorID req) (rq_Name req) decision out e.

(** After the first critical section; [others] is what happens to the registry
    before the second. *)
Definition invoke_rest (order : list string) (others : Registry -> Registry) (spec : Spec)
  (req : Request) (r : Registry) (e : E) : Registry * E * (Result * option command_error) :=
  match ce_authorize (rq_ActorID req) (rq_Name req) (sp_Permission spec) e with
  | (e, Some _) => (r, auditOut req "deny" "unauthorized" e, (result_zero, Some ErrDenied))
  | (e, None) =>
    match ce_handler req (effective_deadline spec req) e with
    | (e, Panicked) =>
      (r, auditOut req "error" "panic" e, (mkResult false "internal error" ∅, Some PanicContained))
    | (e, Returned res err) =>
      let e := auditOut req "allow" (match err with Some _ => "error" | None => "ok" end) e in
      match err with
      | Some err => (r, e, (res, Some (HandlerError err)))
      | None =>
        let r := if bool_decide (rq_IdempotencyKey req = "") then r
                 else store_result order req res (others r) in
        (r, e, (res, None))
      end
    end
  end.

Definition Invoke (now : Time) (order : list string) (others : Registry -> Registry)
  (req : Request) (r : Registry) (e : E) : Registry * E * (Result * option command_error) :=
  match invoke_enter now req r with
  | (r, Answer audit res err) =>
    let e := match audit with Some (d, o) => auditOut req d o e | None => e end in
    (r, e, (res, err))
  | (r, GoOn spec) => invoke_rest order others spec req r e
  end.
End Invoke.

(** ** Executions of the registry

    The critical sections in any order, with a clock that does not go back.
    [h_admitted] lists the admissions (name and time), newest first. *)

Record Hist := mkHist { h_reg : Registry; h_last : Time; h_admitted : list (string * Time) }.

Inductive cstep (h : Hist) : Hist -> Prop :=
| cs_register spec : cstep h (mkHist (Register spec (h_reg h)).1 (h_last h) (h_admitted h))
| cs_enter now req r' e :
    h_last h <= now -> invoke_enter now req (h_reg h) = (r', e) ->
    cstep h (mkHist r' now (match e with GoOn _ => (rq_Name req, now) :: h_admitted h | _ => h_admitted h end))
| cs_store order req res :
    rq_IdempotencyKey req ≠ "" -> order ≡ₚ elements (dom (r_idem (h_reg h))) ->
    cstep h (mkHist (store_result order req res (h_reg h)) (h_last h) (h_admitted h))
| cs_close : cstep h (mkHist (Close (h_reg h)) (h_last h) (h_admitted h)).

(** The admissions of one command. *)
Definition admitted (name : string) (adm : list (string * Time)) : list Time :=
  snd <$> filter (fun p => p.1 = name) adm.

(** Admissions of [name] in the minute that ends at [t]. *)
Definition in_window (name : string) (t : Time) (adm : list (string * Time)) : Z :=
  Z.of_nat (length (recent t (admitted name adm))).

(** Every admission was within the rate limit of its command. *)
Fixpoint within (limits : string -> option Z) (adm : list (string * Time)) : Prop :=
  match adm with
  | [] => True
  | (name, t) :: older =>
    (forall l, limits name = Some l -> in_window name t adm <= l) /\ within limits older
  end.

Definition limit_of (r : Registry) (name : string) : option Z :=
  match r_cmds r !! name with
  | Some reg => if bool_decide (0 < sp_RateLimitPerMin (rg_spec reg))
                then Some (sp_RateLimitPerMin (rg_spec reg)) else None
  | None => None
  end.

Lemma recent_recent t t' hits : t <= t' -> recent t' (recent t hits) = recent t' hits.
Proof.
  intros Ht. induction hits as [|x hits IH]; [done |]. unfold recent in *. rewrite !filter_cons.
  assert (After x (Add t' (- Minute)) = true -> After x (Add t (- Minute)) = true) as Hx.
  { unfold After, Add. rewrite !bool_decide_eq_true. lia. }
  destruct (decide (After x (Add t (- Minute)) = true)) as [E1|E1]; [rewrite filter_cons|];
    destruct (decide (After x (Add t' (- Minute)) = true)) as [E2|E2]; rewrite ?IH; try done.
  by destruct E1; apply Hx.
Qed.

Lemma recent_app t a b : recent t (a ++ b) = recent t a ++ recent t b.
Proof. apply filter_app. Qed.

Lemma recent_self t : recent t [t] = [t].
Proof.
  unfold recent. rewrite filter_cons_True, filter_nil; [done |]. unfold After, Add.
  apply bool_decide_eq_true. unfold Minute, Second, Millisecond. lia.
Qed.

Lemma admitted_cons name p adm :
  admitted name (p :: adm) = if decide (p.1 = name) then p.2 :: admitted name adm else admitted name adm.
Proof. unfold admitted. rewrite filter_cons. by case_decide. Qed.

(** The stored hits are the recent admissions, as far as any later reading of the
    clock can tell. *)
Record rate_inv (h : Hist) : Prop := mkRateInv {
  ri_hits name reg : r_cmds (h_reg h) !! name = Some reg -> 0 < sp_RateLimitPerMin (rg_spec reg) ->
    forall now, h_last h <= now -> length (recent now (rg_hits reg)) = length (recent now (admitted name (h_admitted h)));
  ri_none name : r_cmds (h_reg h) !! name = None -> admitted name (h_admitted h) = [];
  ri_idem : 0 < r_idemMax (h_reg h) /\ Z.of_nat (size (r_idem (h_reg h))) <= r_idemMax (h_reg h) }.

Lemma rate_check_spec now reg :
  let '(reg', ok) := rate_check now reg in
  rg_spec reg' = rg_spec reg /\
  (0 < sp_RateLimitPerMin (rg_spec reg) ->
   (forall now', now <= now' -> recent now' (rg_hits reg') = recent now' (rg_hits reg) ++ (if ok then recent now' [now] else [])) /\
   (ok = true -> Z.of_nat (length (recent now (rg_hits reg))) < sp_RateLimitPerMin (rg_spec reg))).
Proof.
  unfold rate_check. case_bool_decide as Hp; [|by split].
  case_bool_decide as Hl; cbn [rg_spec rg_hits]; (split; [done |]); intros _; split.
  - intros now' Hn. by rewrite recent_recent, app_nil_r.
  - done.
  - intros now' Hn. by rewrite recent_app, recent_recent.
  - intros _. lia.
Qed.

Lemma delete_all_subset (l : list string) (m : gmap string Result) :
  foldl (fun m k => delete k m) m l ⊆ m.
Proof.
  revert m. induction l as [|k l IH]; intros m; simpl; [done |].
  etransitivity; [apply IH | apply delete_subseteq].
Qed.

(** Making room makes room. *)
Lemma evict_smaller order m idem :
  0 < m -> m <= Z.of_nat (size idem) -> order ≡ₚ elements (dom idem) ->
  (size (evict order m idem) < size idem)%nat.
Proof.
  intros Hm Hs Hp. apply map_subset_size. split; [apply delete_all_subset |].
  destruct order as [|k order].
  { apply Permutation_nil_l in Hp. symmetry in Hp. apply elements_empty_iff in Hp.
    assert (size idem = 0%nat) as E; [|lia]. by rewrite <- size_dom, size_empty_iff. }
  assert (k ∈ dom idem) as [v Hv]%elem_of_dom by (apply elem_of_elements; rewrite <- Hp; left).
  intros Hsub. pose proof (lookup_weaken _ _ _ _ Hv Hsub) as Hk. revert Hk.
  unfold evict. destruct (Z.to_nat (Z.max 1 (m ÷ 2))) as [|n] eqn:En; [lia |]. simpl. intros Hk.
  pose proof (lookup_weaken _ _ _ _ Hk (delete_all_subset _ _)) as Hd. by rewrite lookup_delete_eq in Hd.
Qed.

Lemma store_bounded order req res r :
  0 < r_idemMax r -> Z.of_nat (size (r_idem r)) <= r_idemMax r -> order ≡ₚ elements (dom (r_idem r)) ->
  Z.of_nat (size (r_idem (store_result order req res r))) <= r_idemMax r.
Proof.
  intros Hm Hs Hp. unfold store_result. simpl. rewrite map_size_insert.
  case_bool_decide as Hfull.
  - pose proof (evict_smaller order _ _ Hm Hfull Hp). destruct (_ !! _); simpl; lia.
  - destruct (_ !! _); simpl; lia.
Qed.

Lemma Register_cases spec r :
  (Register spec r).1 = r \/
  exists spec', r_cmds r !! sp_Name spec = None /\
    (Register spec r).1 = set_cmds (<[sp_Name spec := mkRegistered spec' []]> (r_cmds r)) r.
Proof.
  unfold Register. destruct (_ || _); [by left |]. case_bool_decide; [by left |].
  destruct (r_closed r); [by left |]. cbn [sp_Name].
  destruct (r_cmds r !! sp_Name spec) eqn:E; [by left | right; eauto].
Qed.

(** The part of [invoke_enter] that reaches the rate limit. *)
Lemma invoke_enter_cases now req r r' e :
  invoke_enter now req r = (r', e) ->
  (r' = r /\ forall spec, e ≠ GoOn spec) \/
  (exists reg reg' ok, r_cmds r !! rq_Name req = Some reg /\ rate_check now reg = (reg', ok) /\
     r' = set_cmds (<[rq_Name req := reg']> (r_cmds r)) r /\
     match e with GoOn spec => ok = true /\ spec = rg_spec reg | Answer _ _ _ => ok = false end).
Proof.
  unfold invoke_enter. destruct (r_closed r); [intros ?; simplify_eq; by left |].
  destruct (r_cmds r !! rq_Name req) as [reg|] eqn:Er; [|intros ?; simplify_eq; by left].
  destruct (if bool_decide (rq_IdempotencyKey req = "") then None else _) as [prev|];
    [intros ?; simplify_eq; by left |].
  destruct (bool_decide _); [intros ?; simplify_eq; by left |].
  pose proof (rate_check_spec now reg) as Hc. destruct (rate_check now reg) as [reg' ok] eqn:Ec.
  destruct Hc as [Hs _]. destruct ok; intros [= <- <-]; right; [exists reg, reg', true | exists reg, reg', false]; by rewrite ?Hs.
Qed.

(** Registered commands stay, with their limits. *)
Lemma cstep_spec h h' name reg :
  cstep h h' -> r_cmds (h_reg h) !! name = Some reg ->
  exists reg', r_cmds (h_reg h') !! name = Some reg' /\ rg_spec reg' = rg_spec reg.
Proof.
  intros Hs Hn. destruct Hs as [spec|now req r' e _ He|order req res _ _|]; simpl; try eauto.
  - destruct (Register_cases spec (h_reg h)) as [->|(spec' & Hf & ->)]; [eauto |]. simpl.
    destruct (decide (sp_Name spec = name)) as [E|Hne]; [rewrite E in Hf; congruence |].
    rewrite lookup_insert_ne by done. eauto.
  - destruct (invoke_enter_cases _ _ _ _ _ He) as [[-> _]|(rg & rg' & ok & Er & Hc & -> & _)]; [eauto |].
    pose proof (rate_check_spec now rg) as Hsp. rewrite Hc in Hsp. destruct Hsp as [Hsp _]. simpl.
    destruct (decide (rq_Name req = name)) as [E|Hne];
      [rewrite E, lookup_insert_eq; rewrite E in Er; simplify_eq; eauto | rewrite lookup_insert_ne by done; eauto].
Qed.

Lemma rate_inv_enter h now req r' e :
  rate_inv h -> h_last h <= now -> invoke_enter now req (h_reg h) = (r', e) ->
  let adm := match e with GoOn _ => (rq_Name req, now) :: h_admitted h | _ => h_admitted h end in
  rate_inv (mkHist r' now adm) /\
  (forall l, limit_of r' (rq_Name req) = Some l -> forall spec, e = GoOn spec -> in_window (rq_Name req) now adm <= l).
Proof.
  intros [Hh Hn Hi] Hle [[-> Hne]|(reg & reg' & ok & Hreg & Hc & -> & He)]%invoke_enter_cases adm.
  - assert (adm = h_admitted h) as -> by (unfold adm; destruct e; [done | by destruct (Hne spec)]).
    split; [|by intros l _ spec ->; destruct (Hne spec)].
    split; simpl; [|done | done]. intros name reg Hr Hp now' Hn'. apply Hh; [done | done | lia].
  - pose proof (rate_check_spec now reg) as Hs. rewrite Hc in Hs. destruct Hs as [Hsp Hs].
    assert (adm = if ok then (rq_Name req, now) :: h_admitted h else h_admitted h) as Ea.
    { unfold adm. destruct e; [by subst | by destruct He as [-> _]]. }
    assert (forall now', now <= now' -> 0 < sp_RateLimitPerMin (rg_spec reg) ->
      length (recent now' (rg_hits reg')) = length (recent now' (admitted (rq_Name req) adm))) as Hlen.
    { intros now' Hn' Hp. destruct (Hs Hp) as [Hrec _]. rewrite Hrec, length_app by done.
      rewrite (Hh (rq_Name req) reg Hreg Hp) by lia. rewrite Ea. destruct ok; [|simpl; lia].
      rewrite admitted_cons, decide_True by done. simpl.
      change (now :: admitted (rq_Name req) (h_admitted h)) with ([now] ++ admitted (rq_Name req) (h_admitted h)).
      rewrite recent_app, length_app. lia. }
    split; [split; simpl; [| |done]|].
    + intros name rg Hr Hp now' Hn'. destruct (decide (rq_Name req = name)) as [<-|Hne].
      * rewrite lookup_insert_eq in Hr. injection Hr as <-. rewrite Hsp in Hp. by apply Hlen.
      * rewrite lookup_insert_ne in Hr by done. rewrite (Hh name rg Hr Hp) by lia.
        rewrite Ea. destruct ok; [|done]. by rewrite admitted_cons, decide_False.
    + intros name Hr. destruct (decide (rq_Name req = name)) as [<-|Hne]; [by rewrite lookup_insert_eq in Hr |].
      rewrite lookup_insert_ne in Hr by done. rewrite Ea. destruct ok; [|by apply Hn].
      rewrite admitted_cons, decide_False by done. by apply Hn.
    + intros l Hl spec ->. destruct He as [-> _]. revert Hl. unfold limit_of. simpl. rewrite lookup_insert_eq, Hsp.
      case_bool_decide as Hp; [|done]. intros [= <-]. unfold in_window.
      rewrite <- (Hlen now) by done || lia. destruct (Hs Hp) as [Hrec Hlt].
      rewrite Hrec, length_app, recent_self by lia. specialize (Hlt eq_refl). simpl. lia.
Qed.

Lemma rate_inv_step h h' : rate_inv h -> cstep h h' -> rate_inv h'.
Proof.
  intros Hi Hs. destruct Hs as [spec|now req r' e Hle He|order req res _ Hp|].
  - destruct (Register_cases spec (h_reg h)) as [->|(spec' & Hf & ->)]; [by destruct h, Hi; split |].
    destruct Hi as [Hh Hn Hidem]. split; simpl; [| |done].
    + intros name reg. destruct (decide (sp_Name spec = name)) as [<-|Hne];
        [rewrite lookup_insert_eq; intros [= <-]; simpl; intros _ now _; by rewrite Hn |
         rewrite lookup_insert_ne by done; apply Hh].
    + intros name. destruct (decide (sp_Name spec = name)) as [<-|Hne];
        [by rewrite lookup_insert_eq | rewrite lookup_insert_ne by done; apply Hn].
  - by apply (rate_inv_enter h now req r' e).
  - destruct Hi as [Hh Hn [Hm Hidem]]. split; [done | done |]. split; [done |]. exact (store_bounded order req res (h_reg h) Hm Hidem Hp).
  - destruct Hi as [Hh Hn Hidem]. by split.
Qed.

Lemma within_ext limits limits' adm :
  (forall name, admitted name adm ≠ [] -> limits' name = limits name) -> within limits adm -> within limits' adm.
Proof.
  induction adm as [|[name t] adm IH]; [done |]. intros He [H1 H2]. split.
  - intros l. rewrite He; [apply H1 |]. by rewrite admitted_cons, decide_True.
  - apply IH; [|done]. intros n Hn. apply He. rewrite admitted_cons. by case_decide.
Qed.

(** A command is admitted at most as often per minute as its rate limit says,
    in every window that ends at an admission, over any interleaving of
    registrations, invocations and completions; and the table of idempotency keys
    stays within its bound. *)
Theorem command_rate_bounded maxBody deadline idemMax t h :
  steps cstep (mkHist (New maxBody deadline idemMax) t []) h ->
  within (limit_of (h_reg h)) (h_admitted h) /\
  Z.of_nat (size (r_idem (h_reg h))) <= r_idemMax (h_reg h).
Proof.
  intros Hs. enough (rate_inv h /\ within (limit_of (h_reg h)) (h_admitted h)) as [[_ _ [_ Hi]] Hw] by done.
  eapply (steps_invariant cstep (fun h => rate_inv h /\ within (limit_of (h_reg h)) (h_admitted h))); [|exact Hs|].
  - clear. intros h h' [Hi Hw] Hs. split; [by eapply rate_inv_step |].
    assert (within (limit_of (h_reg h')) (h_admitted h)) as Hw'.
    { eapply within_ext; [|exact Hw]. intros name Hadm. unfold limit_of.
      destruct (r_cmds (h_reg h) !! name) as [reg|] eqn:Er; [|by destruct Hadm; apply (ri_none h Hi)].
      destruct (cstep_spec h h' name reg Hs Er) as (reg' & -> & ->). done. }
    destruct Hs as [| now req r' e Hle He | |]; try done. simpl in *.
    destruct (rate_inv_enter h now req r' e Hi Hle He) as [_ Hwin].
    destruct e as [|spec]; [done |]. split; [intros l Hl; by eapply Hwin | done].
  - split; [|done]. split; [done | done |]. unfold New. cbn [h_reg r_idem r_idemMax].
    rewrite map_size_empty. case_bool_decide; lia.
Qed.

(** ** Keys and commands *)

(** A key is remembered without the command it was used for, and looked up before
    authorization: another command invoked with the same key is not run, and its
    caller is given the first one's result. *)
Lemma key_shared_across_commands now order req1 req2 res reg2 r :
  r_closed r = false -> rq_IdempotencyKey req1 ≠ "" -> rq_IdempotencyKey req2 = rq_IdempotencyKey req1 ->
  r_cmds r !! rq_Name req2 = Some reg2 ->
  invoke_enter now req2 (store_result order req1 res r) =
    (store_result order req1 res r, Answer None res None).
Proof.
  intros Hc Hk He Hr. unfold invoke_enter. simpl. rewrite Hc, Hr, He, bool_decide_eq_false_2 by done.
  by rewrite lookup_insert_eq.
Qed.

(** A retry with the same key is answered from the table, without the authorizer,
    the handler or the auditor. *)
Lemma retry_answered {E} `{!CommandEnv E} now order others req r (e : E) res :
  r_closed r = false -> rq_IdempotencyKey req ≠ "" -> is_Some (r_cmds r !! rq_Name req) ->
  r_idem r !! rq_IdempotencyKey req = Some res ->
  Invoke now order others req r e = (r, e, (res, None)).
Proof.
  intros Hc Hk [reg Hr] Hi. unfold Invoke, invoke_enter. rewrite Hc, Hr, bool_decide_eq_false_2 by done.
  by rewrite Hi.
Qed.

Definition d_spec : Spec := mkSpec "drain" "claim.release" 0 0 2 true.
Definition d_req : Request := mkRequest "drain" "ops" 10 "" 0.
Definition d_r1 : Registry := (Register d_spec (New 0 0 0)).1.
Definition d_r2 : Registry := (invoke_enter 5 d_req d_r1).1.
Definition d_r3 : Registry := (invoke_enter 6 d_req d_r2).1.

Definition d_full : Spec := mkSpec "drain" "claim.release" 262144 (15 * Second) 2 true.

Lemma d_admitted :
  invoke_enter 5 d_req d_r1 = (d_r2, GoOn d_full) /\ invoke_enter 6 d_req d_r2 = (d_r3, GoOn d_full) /\
  (invoke_enter 7 d_req d_r3).2 = Answer (Some ("deny", "rate_limited")) result_zero (Some ErrRateLimited).
Proof. vm_compute. repeat split. Qed.

Lemma command_rate_bounded_witness :
  limit_of d_r3 "drain" = Some 2 /\ in_window "drain" 6 [("drain", 6); ("drain", 5)] <= 2.
Proof.
  destruct (command_rate_bounded 0 0 0 0 (mkHist d_r3 6 [("drain", 6); ("drain", 5)])) as [[Hw _] _].
  - destruct d_admitted as (H1 & H2 & _).
    eapply steps_cons; [apply (cs_register _ d_spec) |].
    eapply steps_cons; [eapply (cs_enter _ 5 d_req); [simpl; lia | exact H1] |].
    eapply steps_cons; [eapply (cs_enter _ 6 d_req); [simpl; lia | exact H2] |]. constructor.
  - split; [vm_compute; reflexivity |]. apply Hw. vm_compute. reflexivity.
Defined.
