(* ===== verification/Security.v ===== *)
(** * Security settings ([security.go], [runtime.go])

    Named profiles expanded into explicit settings, overrides, and the settings a
    runtime ends up with ([resolve], the first part of [NewRuntime]). *)

From S2P Require Import Prelude Types.

(** ** Data *)

Definition MaxSecurityEpoch : Z := u64 (u64_modulus - 1 - 1).

(** [SecurityEpoch.Next] *)
Definition Epoch_Next (e : Z) : Z * option error :=
  if bool_decide (MaxSecurityEpoch <= e) then
    (e, Some (Typed (mkErrorOf "SecurityEpoch.Next" "" "" 0 ReasonNone (Some (Sentinel ErrSecurityEpochOverflow))
           "security epoch overflow" "epoch_overflow" "security")))
  else (u64 (e + 1), None).

Record SecuritySettings := mkSettings {
  Profile : string;
  DenyPrivilegedByDefault : bool; RequireCapabilityForPrivileged : bool;
  AuditEnabled : bool; AuditFailClosed : bool;
  AntiReplayEnabled : bool; AntiReplayMaxEntries : Z;
  CapabilityMaxTTL : Duration; CapabilityDefaultTTL : Duration; RequireSingleUseCapabilities : bool;
  LockdownOnAuditTamper : bool; LockdownOnSplitBrain : bool; LockdownOnCommandFlood : bool;
  CommandFloodThreshold : Z; CommandFloodWindow : Duration;
  AllowExec : bool; QuarantineOnTamper : bool;
  MaxCommandBodyBytes : Z; DefaultCommandDeadline : Duration }.

Definition ProfileDevelopment : string := "development".
Definition ProfileTesting : string := "testing".
Definition ProfileStandard : string := "standard".
Definition ProfileHardened : string := "hardened".
Definition ProfileMaximumSecurity : string := "maximum-security".

(** ** Profiles *)

Definition ExpandSecurityProfile (p : string) : SecuritySettings :=
  if bool_decide (p = ProfileDevelopment) then
    mkSettings ProfileDevelopment true false false false false 256 Hour (15 * Minute) false
      false false false 100 Minute false false (Z.shiftl 1 20) (30 * Second)
  else if bool_decide (p = ProfileTesting) then
    mkSettings ProfileTesting true false true true true 512 (5 * Minute) Minute true
      true true true 20 Minute false true (Z.shiftl 64 10) (5 * Second)
  else if bool_decide (p = ProfileHardened) then
    mkSettings ProfileHardened true true true true true 4096 (10 * Minute) (2 * Minute) true
      true true true 10 Minute false true (Z.shiftl 32 10) (10 * Second)
  else if bool_decide (p = ProfileMaximumSecurity) then
    mkSettings ProfileMaximumSecurity true true true true true 8192 (2 * Minute) (30 * Second) true
      true true true 5 Minute false true (Z.shiftl 16 10) (5 * Second)
  else
    mkSettings ProfileStandard true false true false true 2048 (30 * Minute) (5 * Minute) false
      true true true 30 Minute false true (Z.shiftl 256 10) (15 * Second).

(** The overlay's value when it is positive. *)
Definition pos_or (overlay base : Z) : Z := if bool_decide (0 < overlay) then overlay else base.

Definition MergeSecurity (base overlay : SecuritySettings) : SecuritySettings :=
  mkSettings (if bool_decide (Profile overlay = "") then Profile base else Profile overlay)
    (DenyPrivilegedByDefault base) (RequireCapabilityForPrivileged base)
    (AuditEnabled base) (AuditFailClosed base) (AntiReplayEnabled base)
    (pos_or (AntiReplayMaxEntries overlay) (AntiReplayMaxEntries base))
    (pos_or (CapabilityMaxTTL overlay) (CapabilityMaxTTL base))
    (pos_or (CapabilityDefaultTTL overlay) (CapabilityDefaultTTL base))
    (RequireSingleUseCapabilities base)
    (LockdownOnAuditTamper base) (LockdownOnSplitBrain base) (LockdownOnCommandFlood base)
    (pos_or (CommandFloodThreshold overlay) (CommandFloodThreshold base))
    (pos_or (CommandFloodWindow overlay) (CommandFloodWindow base))
    (AllowExec base) (QuarantineOnTamper base)
    (pos_or (MaxCommandBodyBytes overlay) (MaxCommandBodyBytes base))
    (pos_or (DefaultCommandDeadline overlay) (DefaultCommandDeadline base)).

Definition privileged : list string :=
  ["claim.force_release"; "maintenance.enter"; "maintenance.exit"; "lockdown.enter"; "lockdown.exit";
   "command.register"; "capability.issue"; "capability.revoke"; "exec.run"; "recovery.act"].

Definition IsPrivileged (p : string) : bool := bool_decide (p ∈ privileged).

(** Copying the boolean fields of [SecurityOverrides]. *)
Definition override_booleans (o s : SecuritySettings) : SecuritySettings :=
  mkSettings (Profile s) (DenyPrivilegedByDefault o) (RequireCapabilityForPrivileged o)
    (AuditEnabled o) (AuditFailClosed o) (AntiReplayEnabled o) (AntiReplayMaxEntries s)
    (CapabilityMaxTTL s) (CapabilityDefaultTTL s) (RequireSingleUseCapabilities o)
    (LockdownOnAuditTamper o) (LockdownOnSplitBrain o) (LockdownOnCommandFlood o)
    (CommandFloodThreshold s) (CommandFloodWindow s) (AllowExec o) (QuarantineOnTamper o)
    (MaxCommandBodyBytes s) (DefaultCommandDeadline s).

Definition set_Profile (p : string) (s : SecuritySettings) : SecuritySettings :=
  mkSettings p (DenyPrivilegedByDefault s) (RequireCapabilityForPrivileged s)
    (AuditEnabled s) (AuditFailClosed s) (AntiReplayEnabled s) (AntiReplayMaxEntries s)
    (CapabilityMaxTTL s) (CapabilityDefaultTTL s) (RequireSingleUseCapabilities s)
    (LockdownOnAuditTamper s) (LockdownOnSplitBrain s) (LockdownOnCommandFlood s)
    (CommandFloodThreshold s) (CommandFloodWindow s) (AllowExec s) (QuarantineOnTamper s)
    (MaxCommandBodyBytes s) (DefaultCommandDeadline s).

(** The settings of [NewRuntime]. *)
Definition resolve (profile : string) (overrides : option SecuritySettings) (booleans : bool)
  : SecuritySettings :=
  let profile := if bool_decide (profile = "") then ProfileStandard else profile in
  let sec := ExpandSecurityProfile profile in
  let sec := match overrides with
             | None => sec
             | Some o => let sec := MergeSecurity sec o in
                         if booleans then override_booleans o sec else sec
             end in
  set_Profile profile sec.

(** ** What the settings guarantee *)

(** Every numeric control is positive, and the default lifetime of a capability is
    within the largest unless an override says otherwise. *)
Definition controls_positive (s : SecuritySettings) : Prop :=
  0 < AntiReplayMaxEntries s /\ 0 < CapabilityMaxTTL s /\ 0 < CapabilityDefaultTTL s /\
  0 < CommandFloodThreshold s /\ 0 < CommandFloodWindow s /\ 0 < MaxCommandBodyBytes s /\
  0 < DefaultCommandDeadline s.

Lemma profile_positive p :
  controls_positive (ExpandSecurityProfile p) /\
  CapabilityDefaultTTL (ExpandSecurityProfile p) <= CapabilityMaxTTL (ExpandSecurityProfile p).
Proof.
  unfold ExpandSecurityProfile, controls_positive. repeat case_bool_decide; vm_compute; repeat split; congruence.
Qed.

Lemma pos_or_pos a b : 0 < b -> 0 < pos_or a b.
Proof. unfold pos_or. case_bool_decide; lia. Qed.

Lemma resolve_positive profile overrides booleans :
  controls_positive (resolve profile overrides booleans).
Proof.
  unfold resolve. generalize (if bool_decide (profile = "") then ProfileStandard else profile). intros p.
  destruct (profile_positive p) as [(H1 & H2 & H3 & H4 & H5 & H6 & H7) _].
  unfold controls_positive. destruct overrides as [o|]; [destruct booleans|]; simpl;
    repeat split; try done; by apply pos_or_pos.
Qed.

(** [strict] is at least as strict as [lax]. *)
Definition stricter (strict lax : SecuritySettings) : Prop :=
  let imp (f : SecuritySettings -> bool) := f lax = true -> f strict = true in
  imp DenyPrivilegedByDefault /\ imp RequireCapabilityForPrivileged /\ imp AuditEnabled /\
  imp AuditFailClosed /\ imp AntiReplayEnabled /\ imp RequireSingleUseCapabilities /\
  imp LockdownOnAuditTamper /\ imp LockdownOnSplitBrain /\ imp LockdownOnCommandFlood /\
  imp QuarantineOnTamper /\ (AllowExec strict = true -> AllowExec lax = true) /\
  CapabilityMaxTTL strict <= CapabilityMaxTTL lax /\
  CapabilityDefaultTTL strict <= CapabilityDefaultTTL lax /\
  CommandFloodThreshold strict <= CommandFloodThreshold lax /\
  MaxCommandBodyBytes strict <= MaxCommandBodyBytes lax.

(** The production profiles are ordered, and an unknown name gives the standard
    one. *)
Theorem profiles_ordered :
  stricter (ExpandSecurityProfile ProfileMaximumSecurity) (ExpandSecurityProfile ProfileHardened) /\
  stricter (ExpandSecurityProfile ProfileHardened) (ExpandSecurityProfile ProfileStandard) /\
  stricter (ExpandSecurityProfile ProfileStandard) (ExpandSecurityProfile ProfileDevelopment) /\
  forall p, p ∉ [ProfileDevelopment; ProfileTesting; ProfileHardened; ProfileMaximumSecurity] ->
    ExpandSecurityProfile p = ExpandSecurityProfile ProfileStandard.
Proof.
  split; [|split; [|split]]; [vm_compute; repeat split; congruence .. |].
  intros p Hp. rewrite !not_elem_of_cons in Hp. destruct Hp as (H1 & H2 & H3 & H4 & _).
  unfold ExpandSecurityProfile. by rewrite !bool_decide_eq_false_2.
Qed.
