(* ===== verification/Runtime.v ===== *)
(** * The runtime's control plane ([runtime.go])

    The gates, authorization, audit trail, quarantine, flood detection and
    capability issue of [Runtime], composed of the components it wires: lockdown,
    maintenance, guard, audit log and capability authority.  Clock readings, whether
    files can be written and random bytes are arguments; the audit log's clock and
    file depend on the number of records it has.

    [auditAction] and [EnterQuarantine] call each other: [auditAction] takes fuel,
    and [None] is a call that has not returned within it.  The end of the file has the
    runtime's claims adapter. *)

From S2P Require Import Prelude Types Signing Lockdown Maintenance Guard AuditLog Capability Command Security.

(** ** State *)

(** The modes that close the gates of the control plane. *)
Definition ModeFullService : string := "full-service".
Definition ModeIsolateClaims : string := "isolate-claims".
Definition ModeIsolateTasks : string := "isolate-tasks".
Definition ModeRestricted : string := "restricted".

(** [&Error{Op: op, Err: s, Code: code, Category: cat, Message: msg}] *)
Definition gate_error (op : string) (s : sentinel) (code cat msg : string) : error :=
  Typed (mkErrorOf op "" "" 0 ReasonNone (Some (Sentinel s)) msg code cat).

Section Runtime.
Context {Hash APriv ARing : Type} `{EqDecision Hash}.
Context (zeroHash : Hash) (sum : body Hash -> option Hash) (ASign : APriv -> Hash -> option (string * string)).
Context {Num : Type} {J : JSONLib Num} {ED : Ed25519} (marshal : signBody -> option (list Ascii.ascii)).
Context (format_time : Time -> string).
(** The clock and the file of the audit log, by number of records. *)
Context (aud_now : nat -> Time) (aud_ok : nat -> bool).

Abbreviation AStore := (AuditLog.Store (Hash := Hash) (PrivateKey := APriv) (KeyRing := ARing)).

Record Runtime := mkRuntime {
  rt_sec : SecuritySettings; rt_epoch : Z; rt_caps : option Authority;
  rt_guard : option (list Guard.Rule); rt_audit : option AStore;
  rt_maint : option Maintenance.Manager; rt_lock : option Lockdown.Manager;
  rt_quarantined : bool; rt_closed : bool; rt_floodHits : list Time }.

Definition set_caps v r := mkRuntime (rt_sec r) (rt_epoch r) v (rt_guard r) (rt_audit r) (rt_maint r)
  (rt_lock r) (rt_quarantined r) (rt_closed r) (rt_floodHits r).
Definition set_audit v r := mkRuntime (rt_sec r) (rt_epoch r) (rt_caps r) (rt_guard r) v (rt_maint r)
  (rt_lock r) (rt_quarantined r) (rt_closed r) (rt_floodHits r).
Definition set_maint v r := mkRuntime (rt_sec r) (rt_epoch r) (rt_caps r) (rt_guard r) (rt_audit r) v
  (rt_lock r) (rt_quarantined r) (rt_closed r) (rt_floodHits r).
Definition set_lock v r := mkRuntime (rt_sec r) (rt_epoch r) (rt_caps r) (rt_guard r) (rt_audit r) (rt_maint r)
  v (rt_quarantined r) (rt_closed r) (rt_floodHits r).
Definition set_quarantined v r := mkRuntime (rt_sec r) (rt_epoch r) (rt_caps r) (rt_guard r) (rt_audit r)
  (rt_maint r) (rt_lock r) v (rt_closed r) (rt_floodHits r).
Definition set_closed v r := mkRuntime (rt_sec r) (rt_epoch r) (rt_caps r) (rt_guard r) (rt_audit r)
  (rt_maint r) (rt_lock r) (rt_quarantined r) v (rt_floodHits r).
Definition set_hits v r := mkRuntime (rt_sec r) (rt_epoch r) (rt_caps r) (rt_guard r) (rt_audit r)
  (rt_maint r) (rt_lock r) (rt_quarantined r) (rt_closed r) v.

(** ** Gates *)

(** [r.lock != nil && r.lock.Active()], with one of the modes. *)
Definition locked_in (modes : list string) (r : Runtime) : bool :=
  match rt_lock r with
  | Some m => Lockdown.Active m && bool_decide (ld_Mode (Lockdown.m_state m) ∈ modes)
  | None => false
  end.

Definition checkControlGates (op : string) (r : Runtime) : option error :=
  if rt_closed r then Some (gate_error op ErrRuntimeClosed "forbidden" "security" "runtime closed")
  else if rt_quarantined r
  then Some (gate_error op ErrQuarantined "quarantined" "quarantine" "generation quarantined")
  else if locked_in [ModeFailClosed; ModeFullService; ModeIsolateClaims] r
  then Some (gate_error op ErrLockdown "lockdown_active" "lockdown" "lockdown active")
  else None.

(** [AllowTask]: [maintenance_only] is [spec.Mode == ModeMaintenanceOnly]; the rest
    are the clock and file of the maintenance manager, read and written by its
    methods [Active] and [State]. *)
Definition AllowTask (maintenance_only : bool) (now now' : Time) (w w' : write_result) (r : Runtime)
  : Runtime * option error :=
  match checkControlGates "Supervise" r with
  | Some e => (r, Some e)
  | None =>
    if locked_in [ModeIsolateTasks; ModeFullService; ModeFailClosed] r then (r, Some (Sentinel ErrLockdown))
    else match rt_maint r with
         | Some m =>
           let '(m, active) := Maintenance.Active now w m in
           if active && negb maintenance_only then
             let '(m, st) := Maintenance.State_ now' w' m in
             (set_maint (Some m) r, if sc_All (mt_Scope st) then Some (Sentinel ErrMaintenance) else None)
           else (set_maint (Some m) r, None)
         | None => (r, None)
         end
  end.

Definition AllowElection (r : Runtime) : option error := checkControlGates "Election" r.

(** ** Audit and quarantine *)

Definition append_action (actor action res result operationID : string) (st : AStore)
  : AStore * option audit_error :=
  let n := length (st_records st) in
  let '(st, (_, err)) := Append zeroHash sum ASign (aud_now n) (aud_ok n)
    (mkArgs (mkActor actor "principal") action res result operationID None) st in
  (st, err).

(** One pass through [auditAction]; [true] when it goes on to quarantine. *)
Definition audit_once (actor action res result operationID : string) (r : Runtime) : Runtime * bool :=
  match rt_audit r with
  | None => (r, false)
  | Some st =>
    let '(st, err) := append_action actor action res result operationID st in
    (set_audit (Some st) r,
     match err with Some _ => AuditFailClosed (rt_sec r) && QuarantineOnTamper (rt_sec r) | None => false end)
  end.

(** The recursive call is [EnterQuarantine("audit_append_failed")]. *)
Fixpoint auditAction (fuel : nat) (actor action res result operationID : string) (r : Runtime)
  : option Runtime :=
  match fuel with
  | O => None
  | S fuel =>
    let '(r, quarantine) := audit_once actor action res result operationID r in
    if quarantine
    then auditAction fuel "system" "quarantine.enter" "audit_append_failed" "ok" "" (set_quarantined true r)
    else Some r
  end.

Definition EnterQuarantine (fuel : nat) (reason : string) (r : Runtime) : option Runtime :=
  auditAction fuel "system" "quarantine.enter" reason "ok" "" (set_quarantined true r).

(** [VerifyAudit]; [ok] is what the verification of the log answers, and the rest
    the clock and files of the lockdown manager. *)
Definition auto_lock (now now' : Time) (w_ev : bool) (w_st : write_result) (trigger reason : string) (r : Runtime) : Runtime :=
  match rt_lock r with
  | Some m => set_lock (Some (TryAutoEnter format_time now now' w_ev w_st trigger reason m).1) r
  | None => r
  end.

Definition VerifyAudit (fuel : nat) (now now' : Time) (w_ev : bool) (w_st : write_result) (ok : bool) (r : Runtime)
  : option (Runtime * option error) :=
  match rt_audit r with
  | None => Some (r, None)
  | Some _ =>
    if ok then Some (r, None)
    else
      let r := if LockdownOnAuditTamper (rt_sec r)
               then auto_lock now now' w_ev w_st "audit_tamper" "audit chain tamper detected" r else r in
      let err := Some (gate_error "VerifyAudit" ErrAuditTamper "audit_tamper" "audit" "audit tamper detected") in
      if QuarantineOnTamper (rt_sec r)
      then match EnterQuarantine fuel "audit_tamper" r with Some r => Some (r, err) | None => None end
      else Some (r, err)
  end.

Definition TriggerSplitBrainLockdown (fuel : nat) (now now' : Time) (w_ev : bool) (w_st : write_result) (claim : string)
  (r : Runtime) : option Runtime :=
  match rt_lock r with
  | Some _ =>
    if LockdownOnSplitBrain (rt_sec r) then
      let r := auto_lock now now' w_ev w_st "split_brain" ("split-brain on " +:+ claim) r in
      if QuarantineOnTamper (rt_sec r) then EnterQuarantine fuel "split_brain" r else Some r
    else Some r
  | None => Some r
  end.

(** ** Authorization of commands *)

(** The clocks and files of one call of [noteUnauthorized]. *)
Record note_env := mkNoteEnv {
  ne_now : Time; ne_lock : Time; ne_lock' : Time; ne_ev : bool; ne_st : write_result }.

Definition flood_hits (now : Time) (r : Runtime) : list Time :=
  filter (fun t => After t (Add now (- CommandFloodWindow (rt_sec r))) = true) (rt_floodHits r) ++ [now].

Definition noteUnauthorized (fuel : nat) (env : note_env) (r : Runtime) : option Runtime :=
  match rt_lock r with
  | None => Some r
  | Some _ =>
    if negb (LockdownOnCommandFlood (rt_sec r)) then Some r
    else
      let hits := flood_hits (ne_now env) r in
      let r := set_hits hits r in
      if bool_decide (CommandFloodThreshold (rt_sec r) <= Z.of_nat (length hits)) then
        let r := auto_lock (ne_lock env) (ne_lock' env) (ne_ev env) (ne_st env)
          "unauthorized_command_flood" "unauthorized command flood" r in
        auditAction fuel "system" "lockdown.auto" "command_flood" "entered" "" r
      else Some r
  end.

(** Why a command is not authorized, if it is not. *)
Definition command_refusal (actor name permission : string) (r : Runtime) : option error :=
  match checkControlGates "Command" r with
  | Some e => Some e
  | None =>
    match rt_guard r with
    | Some rules =>
      let dec := Evaluate rules (Guard.mkRequest actor permission name "invoke") in
      if bool_decide (dec = "deny") then Some (Sentinel ErrGuardDenied)
      else if bool_decide (dec = "require-approval") || bool_decide (dec = "require-quorum")
      then Some (Sentinel ErrForbidden)
      else None
    | None =>
      if DenyPrivilegedByDefault (rt_sec r) && IsPrivileged permission
      then Some (Sentinel ErrForbidden) else None
    end
  end.

Definition AuthorizeCommand (fuel : nat) (env : note_env) (actor name permission : string) (r : Runtime)
  : option (Runtime * option error) :=
  match command_refusal actor name permission r with
  | Some e => match noteUnauthorized fuel env r with Some r => Some (r, Some e) | None => None end
  | None => Some (r, None)
  end.

Definition AuditCommand (fuel : nat) (env : note_env) (actor name decision outcome : string) (r : Runtime)
  : option Runtime :=
  match auditAction fuel actor ("command." +:+ name) name decision outcome r with
  | None => None
  | Some r =>
    if bool_decide (decision = "deny") && bool_decide (outcome = "unauthorized")
    then noteUnauthorized fuel env r else Some r
  end.

(** ** Capabilities *)

Definition issue_request (sec : SecuritySettings) (req : Capability.Request) : Capability.Request :=
  let c := rq_Constraints req in
  let c := if RequireSingleUseCapabilities sec
           then mkConstraints true (co_Environment c) (co_MaxUses c) (co_AllowedResources c) else c in
  let ttl := if bool_decide (rq_TTL req <= 0) then CapabilityDefaultTTL sec else rq_TTL req in
  let ttl := if bool_decide (CapabilityMaxTTL sec < ttl) then CapabilityMaxTTL sec else ttl in
  Capability.mkRequest (rq_Subject req) (Capability.rq_Permission req) (Capability.rq_Resource req) ttl c.

Definition IssueCapability (fuel : nat) (env : issue_env) (req : Capability.Request) (r : Runtime)
  : option (Runtime * ((error + cap_error) + Token)) :=
  match checkControlGates "Capability.Issue" r with
  | Some e => Some (r, inl (inl e))
  | None =>
    match rt_caps r with
    | None => Some (r, inl (inl (gate_error "Capability.Issue" ErrCapabilityToken "capability_invalid"
                "capability" "capabilities not enabled")))
    | Some a =>
      let req := issue_request (rt_sec r) req in
      match Issue marshal env req a with
      | (a, inl e) => Some (set_caps (Some a) r, inl (inr e))
      | (a, inr tok) =>
        match auditAction fuel (rq_Subject req) "capability.issue" (Capability.rq_Permission req) "ok"
                (tk_ID tok) (set_caps (Some a) r) with
        | Some r => Some (r, inr tok)
        | None => None
        end
      end
    end
  end.

(** ** The audit trail returns *)

(** Hashing and signing always succeed. *)
Definition audit_total (r : Runtime) : Prop :=
  (forall b, is_Some (sum b)) /\
  forall st k h, rt_audit r = Some st -> st_signer st = Some k -> is_Some (ASign k h).

(** An append that adds a record succeeds exactly when the mirror can be written;
    one that repeats an operation identifier adds none and fails. *)
Lemma append_action_cases actor action res result op st :
  (forall b, is_Some (sum b)) -> (forall k h, st_signer st = Some k -> is_Some (ASign k h)) ->
  let '(st', err) := append_action actor action res result op st in
  st_signer st' = st_signer st /\ st_path st' = st_path st /\
  ((op ≠ "" /\ is_Some (st_ops st !! op) /\ st' = st /\ is_Some err) \/
   ((op = "" \/ st_ops st !! op = None) /\
    length (st_records st') = S (length (st_records st)) /\
    (forall o, is_Some (st_ops st !! o) -> is_Some (st_ops st' !! o)) /\
    (op ≠ "" -> is_Some (st_ops st' !! op)) /\
    (err = None <-> st_path st && negb (aud_ok (length (st_records st))) = false))).
Proof.
  intros Hsum Hsig. unfold append_action, Append. cbn [ar_op ar_actor ar_action ar_resource ar_result ar_meta].
  destruct (bool_decide_reflect (op = "")) as [Ho|Ho].
  2: destruct (st_ops st !! op) as [seq|] eqn:Eo; [simpl; split; [done |]; split; [done |]; left; by eauto |].
  all: unfold ComputeHash, hashBody; destruct (Hsum (body_of (mkRecord Hash (next_seq (st_records st))
         (next_prev zeroHash (st_records st)) zeroHash (aud_now (length (st_records st))) (mkActor actor "principal")
         action res result op None "" ""))) as [h Hh]; rewrite Hh;
       unfold sign_record; destruct (st_signer st) as [k|] eqn:Ek;
         [destruct (Hsig k (au_RecordHash (set_RecordHash h (mkRecord Hash (next_seq (st_records st))
            (next_prev zeroHash (st_records st)) zeroHash (aud_now (length (st_records st))) (mkActor actor "principal")
            action res result op None "" ""))) eq_refl) as [[sg kid] Hk]; rewrite Hk|];
       simpl; (split; [done |]); (split; [done |]); right; rewrite length_app; simpl;
       (split; [auto |]); (split; [lia |]).
  all: split; [intros o [x Hx]; (eauto || (destruct (decide (o = op)) as [->|Hn];
                 [rewrite lookup_insert_eq; eauto | rewrite lookup_insert_ne by done; eauto]))
              | split; [intros Hne; first [by destruct Hne | rewrite lookup_insert_eq; eauto]
                       | destruct (st_path st && _); done]].
Qed.

(** The mirror is off, or can be written at the [j]-th record from now. *)
Definition mirror_ok (j : nat) (st : AStore) : Prop :=
  st_path st = false \/ aud_ok (length (st_records st) + j) = true.

Lemma auditAction_S fuel actor action res result op r :
  auditAction (S fuel) actor action res result op r =
    let '(r, quarantine) := audit_once actor action res result op r in
    if quarantine
    then auditAction fuel "system" "quarantine.enter" "audit_append_failed" "ok" "" (set_quarantined true r)
    else Some r.
Proof. done. Qed.

Lemma auditAction_fuel fuel actor action res result op r r' :
  auditAction fuel actor action res result op r = Some r' ->
  forall fuel', (fuel <= fuel')%nat -> auditAction fuel' actor action res result op r = Some r'.
Proof.
  revert actor action res result op r. induction fuel as [|fuel IH]; intros actor action res result op r Ha fuel' Hf;
    [done |]. destruct fuel' as [|fuel']; [lia |]. revert Ha. rewrite !auditAction_S.
  destruct (audit_once _ _ _ _ _ _) as [r1 []]; [|done]. intros Ha. apply IH; [done | lia].
Qed.

(** One pass over a log that hashes and signs: a pass that does not return moved
    to the next record, or met a repeated operation identifier. *)
Lemma audit_once_cases actor action res result op r st :
  audit_total r -> rt_audit r = Some st ->
  let '(r', quarantine) := audit_once actor action res result op r in
  exists st', rt_audit r' = Some st' /\ rt_sec r' = rt_sec r /\
  audit_total (set_quarantined true r') /\ st_path st' = st_path st /\
  ((op ≠ "" /\ st' = st) \/
   (length (st_records st') = S (length (st_records st)) /\
    (quarantine = true -> ~ mirror_ok 0 st) /\
    (AuditFailClosed (rt_sec r) = true -> QuarantineOnTamper (rt_sec r) = true ->
     quarantine = false -> mirror_ok 0 st))).
Proof.
  intros [Hsum Hsig] Ha. unfold audit_once. rewrite Ha.
  pose proof (append_action_cases actor action res result op st Hsum (fun k h => Hsig st k h Ha)) as Hc.
  destruct (append_action actor action res result op st) as [st' err].
  destruct Hc as (Hsg & Hpa & Hc). exists st'. split; [done |]. split; [done |].
  split. { split; [done |]. intros st0 k h [= <-] Hk. rewrite Hsg in Hk. by eapply Hsig. }
  split; [done |]. destruct Hc as [(Hne & _ & -> & _)|(_ & Hlen & _ & _ & Herr)]; [by left | right].
  split; [done |]. unfold mirror_ok. rewrite Nat.add_0_r. split.
  - intros Hq Hm. destruct err; [|done]. assert (Some a = None) as Hx; [|done]. apply Herr.
    destruct Hm as [->| ->]; [done | apply andb_false_r].
  - intros Hf Hq. rewrite Hf, Hq. destruct err; [done |]. intros _. pose proof (proj1 Herr eq_refl) as Hb.
    destruct (st_path st); [right | by left]. by destruct (aud_ok _).
Qed.

Lemma mirror_next j st st' :
  st_path st' = st_path st -> length (st_records st') = S (length (st_records st)) ->
  mirror_ok (S j) st <-> mirror_ok j st'.
Proof.
  intros Hp Hl. unfold mirror_ok. rewrite Hp, Hl.
  by replace (S (length (st_records st)) + j)%nat with (length (st_records st) + S j)%nat by lia.
Qed.

(** Fuel is enough when the mirror recovers: one call per record that cannot be
    written, and one for a repeated operation identifier. *)
Lemma auditAction_plain j actor action res result r st :
  audit_total r -> rt_audit r = Some st -> mirror_ok j st ->
  is_Some (auditAction (S j) actor action res result "" r).
Proof.
  revert actor action res result r st. induction j as [|j IH]; intros actor action res result r st Ht Ha Hm;
    rewrite auditAction_S; pose proof (audit_once_cases actor action res result "" r st Ht Ha) as Hc;
    destruct (audit_once actor action res result "" r) as [r1 []]; try by eexists.
  - destruct Hc as (st' & _ & _ & _ & _ & [[? _]|(_ & Hno & _)]); [done |]. by destruct Hno.
  - destruct Hc as (st' & Ha' & _ & Ht' & Hp & [[? _]|(Hl & _ & _)]); [done |].
    apply (IH _ _ _ _ _ st'); [done | done | by apply (mirror_next j st st' Hp Hl)].
Qed.

Lemma auditAction_returns j actor action res result op r st :
  audit_total r -> rt_audit r = Some st -> mirror_ok j st ->
  is_Some (auditAction (S (S j)) actor action res result op r).
Proof.
  intros Ht Ha Hm. rewrite auditAction_S. pose proof (audit_once_cases actor action res result op r st Ht Ha) as Hc.
  destruct (audit_once actor action res result op r) as [r1 []]; [|by eexists].
  destruct Hc as (st' & Ha' & _ & Ht' & Hp & [[_ ->]|(Hl & Hno & _)]); [by eapply auditAction_plain |].
  destruct j as [|j]; [by destruct Hno |].
  destruct (auditAction_plain j "system" "quarantine.enter" "audit_append_failed" "ok" (set_quarantined true r1) st')
    as [r' Hr']; [done | done | by apply (mirror_next j st st' Hp Hl) |].
  exists r'. eapply auditAction_fuel; [exact Hr' | lia].
Qed.

Lemma auditAction_only_if fuel actor action res result r st :
  audit_total r -> rt_audit r = Some st ->
  AuditFailClosed (rt_sec r) = true -> QuarantineOnTamper (rt_sec r) = true ->
  is_Some (auditAction fuel actor action res result "" r) -> exists j, mirror_ok j st.
Proof.
  revert actor action res result r st. induction fuel as [|fuel IH]; intros actor action res result r st Ht Ha Hf Hq;
    [by intros [] |]. rewrite auditAction_S.
  pose proof (audit_once_cases actor action res result "" r st Ht Ha) as Hc.
  destruct (audit_once actor action res result "" r) as [r1 []];
    destruct Hc as (st' & Ha' & Hs & Ht' & Hp & [[? _]|(Hl & _ & Hyes)]); try done.
  - intros Hr. destruct (IH _ _ _ _ (set_quarantined true r1) st' Ht' Ha' ltac:(simpl; congruence)
      ltac:(simpl; congruence) Hr) as [j Hj].
    exists (S j). by apply (mirror_next j st st' Hp Hl).
  - intros _. exists 0%nat. by apply Hyes.
Qed.

(** C34: When audit failures close the runtime and quarantine it, recording an
    action returns exactly if the audit file can be written at some later record:
    then the number of calls is bounded by how long that takes, and otherwise
    [auditAction] and [EnterQuarantine] call each other without end. *)
Theorem audit_returns_iff actor action res result r st :
  audit_total r -> rt_audit r = Some st ->
  AuditFailClosed (rt_sec r) = true -> QuarantineOnTamper (rt_sec r) = true ->
  ((exists fuel, is_Some (auditAction fuel actor action res result "" r)) <-> (exists j, mirror_ok j st)) /\
  (forall j op, mirror_ok j st -> is_Some (auditAction (S (S j)) actor action res result op r)).
Proof.
  intros Ht Ha Hf Hq. split; [|intros j op Hm; by eapply auditAction_returns].
  split; [intros [fuel Hr]; by eapply auditAction_only_if |].
  intros [j Hm]. exists (S j). by eapply auditAction_plain.
Qed.

(** ** Closed gates *)

Definition gate_modes : list string := [ModeFailClosed; ModeFullService; ModeIsolateClaims].

Definition gates_closed (r : Runtime) : Prop :=
  rt_closed r = true \/ rt_quarantined r = true \/ locked_in gate_modes r = true.

Lemma gates_closed_spec op r : gates_closed r <-> is_Some (checkControlGates op r).
Proof.
  unfold gates_closed, checkControlGates, gate_modes.
  destruct (rt_closed r), (rt_quarantined r), (locked_in _ r); (split; [|by auto]); intros H; try by eexists.
  by destruct H as [|[|]].
Qed.

(** What the runtime's own operations do, an authorized unlock of the lockdown
    apart: auditing, authorizing, issuing, verifying, quarantining, closing, and an
    operator entering lockdown. *)
Inductive rstep (r : Runtime) : Runtime -> Prop :=
| rs_authorize fuel env actor name perm r' e :
    AuthorizeCommand fuel env actor name perm r = Some (r', e) -> rstep r r'
| rs_audit fuel env actor name d o r' : AuditCommand fuel env actor name d o r = Some r' -> rstep r r'
| rs_issue fuel env req r' res : IssueCapability fuel env req r = Some (r', res) -> rstep r r'
| rs_verify fuel now now' w_ev w_st ok r' e : VerifyAudit fuel now now' w_ev w_st ok r = Some (r', e) -> rstep r r'
| rs_split fuel now now' w_ev w_st claim r' :
    TriggerSplitBrainLockdown fuel now now' w_ev w_st claim r = Some r' -> rstep r r'
| rs_quarantine fuel reason r' : EnterQuarantine fuel reason r = Some r' -> rstep r r'
| rs_task mo now now' w w' : rstep r (AllowTask mo now now' w w' r).1
| rs_lock now w_ev w_st req m :
    rt_lock r = Some m -> rstep r (set_lock (Some (Lockdown.Enter format_time now w_ev w_st req m).1) r)
| rs_close : rstep r (set_closed true r).

(** Flags only rise, and an active lockdown stays as it is. *)
Record keeps (r r' : Runtime) : Prop := mkKeeps {
  kp_closed : rt_closed r = true -> rt_closed r' = true;
  kp_quarantined : rt_quarantined r = true -> rt_quarantined r' = true;
  kp_lock m : rt_lock r = Some m -> Lockdown.Active m = true ->
    exists m', rt_lock r' = Some m' /\ Lockdown.m_state m' = Lockdown.m_state m }.

#[local] Instance keeps_refl : Reflexive keeps.
Proof. intros r. split; eauto. Qed.

#[local] Instance keeps_trans : Transitive keeps.
Proof.
  intros a b c [C1 Q1 L1] [C2 Q2 L2]. split; [auto | auto |].
  intros m Hm Ha. destruct (L1 m Hm Ha) as (m1 & Hm1 & E1).
  destruct (L2 m1 Hm1) as (m2 & Hm2 & E2); [unfold Lockdown.Active in *; congruence |].
  exists m2. split; [done | congruence].
Qed.

Lemma keeps_locked_in modes r r' : keeps r r' -> locked_in modes r = true -> locked_in modes r' = true.
Proof.
  intros [_ _ L] H. unfold locked_in in *. destruct (rt_lock r) as [m|] eqn:Em; [|done].
  apply andb_true_iff in H as [Ha Hm]. destruct (L m eq_refl Ha) as (m' & -> & E).
  unfold Lockdown.Active in *. by rewrite E, Ha, Hm.
Qed.

Lemma locked_in_more modes modes' r : modes ⊆ modes' -> locked_in modes r = true -> locked_in modes' r = true.
Proof.
  intros Hsub. unfold locked_in. destruct (rt_lock r); [|done]. rewrite !andb_true_iff, !bool_decide_eq_true. intros [? ?]. auto.
Qed.

Lemma keeps_closed r r' : keeps r r' -> gates_closed r -> gates_closed r'.
Proof.
  intros Hk [H|[H|H]]; [left | right; left | right; right; by eapply keeps_locked_in]; by apply Hk.
Qed.

Lemma auditAction_keeps fuel actor action res result op r r' :
  auditAction fuel actor action res result op r = Some r' ->
  keeps r r' /\ rt_lock r' = rt_lock r /\ rt_sec r' = rt_sec r.
Proof.
  revert actor action res result op r. induction fuel as [|fuel IH]; intros actor action res result op r; [done |].
  rewrite auditAction_S. assert (forall x, audit_once actor action res result op r = x ->
    rt_closed x.1 = rt_closed r /\ rt_quarantined x.1 = rt_quarantined r /\ rt_lock x.1 = rt_lock r /\ rt_sec x.1 = rt_sec r) as H.
  { intros x <-. unfold audit_once. destruct (rt_audit r); [|done]. by destruct (append_action _ _ _ _ _ _). }
  destruct (audit_once actor action res result op r) as [r1 []]; destruct (H _ eq_refl) as (H1 & H2 & H3 & H4); simpl in *.
  - intros Hr. apply IH in Hr as (Hk & Hl & Hs). simpl in Hl, Hs. split; [|split; congruence].
    etransitivity; [|exact Hk]. split; simpl; [congruence | done | rewrite H3; eauto].
  - intros [= <-]. split; [|done]. split; [congruence | congruence | rewrite H3; eauto].
Qed.

Lemma auto_lock_keeps now now' w_ev w_st trigger reason r :
  keeps r (auto_lock now now' w_ev w_st trigger reason r) /\
  rt_sec (auto_lock now now' w_ev w_st trigger reason r) = rt_sec r.
Proof.
  unfold auto_lock. destruct (rt_lock r) as [m|] eqn:Em; [|done]. split; [|done]. split; [done | done |].
  intros m0 Hm0 Ha. rewrite Em in Hm0. injection Hm0 as <-. simpl. eexists. split; [done |].
  unfold TryAutoEnter, auto_check. unfold Lockdown.Active in Ha. by rewrite Ha.
Qed.

Lemma noteUnauthorized_keeps fuel env r r' : noteUnauthorized fuel env r = Some r' -> keeps r r'.
Proof.
  unfold noteUnauthorized. destruct (rt_lock r) as [m|] eqn:Em; [|by intros [= <-]].
  destruct (negb _); [by intros [= <-] |].
  assert (keeps r (set_hits (flood_hits (ne_now env) r) r)) as Hh by (split; [done | done | simpl; eauto]).
  case_bool_decide; [|by intros [= <-]]. intros [Hk _]%auditAction_keeps.
  etransitivity; [exact Hh |]. etransitivity; [apply auto_lock_keeps | exact Hk].
Qed.

Lemma EnterQuarantine_keeps fuel reason r r' :
  EnterQuarantine fuel reason r = Some r' -> keeps r r' /\ rt_quarantined r' = true.
Proof.
  unfold EnterQuarantine. intros [Hk _]%auditAction_keeps. split; [|by apply Hk].
  etransitivity; [|exact Hk]. split; [done | done | simpl; eauto].
Qed.

Lemma rstep_keeps r r' : rstep r r' -> keeps r r'.
Proof.
  intros [fuel env actor name perm r1 e Hs|fuel env actor name d o r1 Hs|fuel env req r1 res Hs
    |fuel now now' w_ev w_st ok r1 e Hs|fuel now now' w_ev w_st claim r1 Hs|fuel reason r1 Hs|mo now now' w w'
    |now w_ev w_st req m Hm|].
  - revert Hs. unfold AuthorizeCommand. destruct (command_refusal _ _ _ _); [|by intros [= <- <-]].
    destruct (noteUnauthorized _ _ _) eqn:En; [|done]. intros [= <- <-]. by eapply noteUnauthorized_keeps.
  - revert Hs. unfold AuditCommand. destruct (auditAction _ _ _ _ _ _ _) as [r2|] eqn:Ea; [|done].
    apply auditAction_keeps in Ea as [Hk _]. destruct (_ && _); [|by intros [= <-]].
    intros Hn%noteUnauthorized_keeps. by etransitivity.
  - revert Hs. unfold IssueCapability. destruct (checkControlGates _ _); [by intros [= <- <-] |].
    destruct (rt_caps r) as [a|]; [|by intros [= <- <-]].
    assert (forall a', keeps r (set_caps (Some a') r)) as Hc by (intros a'; split; [done | done | simpl; eauto]).
    destruct (Issue _ _ _ _) as [a' [e|tok]]; [by intros [= <- <-] |].
    destruct (auditAction _ _ _ _ _ _ _) as [r2|] eqn:Ea; [|done]. intros [= <- <-].
    apply auditAction_keeps in Ea as [Hk _]. etransitivity; [apply Hc | exact Hk].
  - revert Hs. unfold VerifyAudit. destruct (rt_audit r); [|by intros [= <- <-]]. destruct ok; [by intros [= <- <-] |].
    set (r2 := if LockdownOnAuditTamper _ then _ else _).
    assert (keeps r r2) as Hk by (unfold r2; destruct (LockdownOnAuditTamper _); [apply auto_lock_keeps | done]).
    destruct (QuarantineOnTamper _); [|by intros [= <- <-]].
    destruct (EnterQuarantine fuel _ r2) eqn:Eq; [|done]. intros [= <- <-].
    apply EnterQuarantine_keeps in Eq as [Hk' _]. by etransitivity.
  - revert Hs. unfold TriggerSplitBrainLockdown. destruct (rt_lock r); [|by intros [= <-]].
    destruct (LockdownOnSplitBrain _); [|by intros [= <-]].
    destruct (auto_lock_keeps now now' w_ev w_st "split_brain" ("split-brain on " +:+ claim) r) as [Hk _].
    destruct (QuarantineOnTamper _); [|by intros [= <-]]. intros [Hk' _]%EnterQuarantine_keeps. by etransitivity.
  - by eapply EnterQuarantine_keeps.
  - assert (forall m, keeps r (set_maint (Some m) r)) as Hc by (intros m; split; [done | done | simpl; eauto]).
    unfold AllowTask. destruct (checkControlGates _ _); [done |]. destruct (locked_in _ _); [done |].
    destruct (rt_maint r); [|done]. destruct (Maintenance.Active _ _ _) as [m1 act].
    destruct (_ && _); [destruct (State_ _ _ _) |]; apply Hc.
  - split; [done | done |]. intros m0 Hm0 Ha. rewrite Hm in Hm0. injection Hm0 as <-. simpl.
    eexists. split; [done |]. unfold Lockdown.Active in Ha. unfold Lockdown.Enter. by rewrite Ha.
  - split; [done | done | simpl; eauto].
Qed.

(** ** Commands run under the runtime

    The registry's authorizer and auditor are the runtime's; the handlers' runs are
    recorded.  [None] is a runtime whose call did not return. *)

Definition runtime_env (fuel : nat) (env : note_env) (handler : Command.Request -> outcome)
  : CommandEnv (option Runtime * list Command.Request) := {|
  ce_authorize actor name perm e :=
    match e with
    | (Some r, log) =>
      match AuthorizeCommand fuel env actor name perm r with
      | Some (r, err) => ((Some r, log), err)
      | None => ((None, log), Some (TextErr "no return"))
      end
    | (None, log) => ((None, log), Some (TextErr "no return"))
    end;
  ce_audit actor name d o e :=
    match e with
    | (Some r, log) => (AuditCommand fuel env actor name d o r, log)
    | (None, log) => (None, log)
    end;
  ce_handler req _ e := ((e.1, e.2 ++ [req]), handler req) |}.

Lemma refused_runs_nothing fuel env handler now order others req reg ro log :
  (forall r name perm, ro = Some r -> is_Some (command_refusal (rq_ActorID req) name perm r)) ->
  (Invoke (CommandEnv0 := runtime_env fuel env handler) now order others req reg (ro, log)).1.2.2 = log.
Proof.
  intros Href. unfold Invoke. destruct (invoke_enter now req reg) as [reg' [audit res err|spec]].
  - simpl. destruct audit as [[d o]|]; [|done]. unfold auditOut. simpl. by destruct ro.
  - unfold invoke_rest. simpl. destruct ro as [r|]; [|done].
    destruct (Href r (rq_Name req) (sp_Permission spec) eq_refl) as [e He].
    unfold AuthorizeCommand. rewrite He. by destruct (noteUnauthorized fuel env r).
Qed.


(** A flood of unauthorized commands locks the runtime down: when the refusals
    of the window reach the threshold and no other lockdown is active and the
    automatic entry is not being rate-limited, the runtime is in fail-closed
    lockdown and its gates are closed, whether or not the lockdown could be written
    to disk. *)
Theorem flood_locks_down fuel env r r' m :
  rt_lock r = Some m -> Lockdown.Active m = false ->
  LockdownOnCommandFlood (rt_sec r) = true ->
  CommandFloodThreshold (rt_sec r) <= Z.of_nat (length (flood_hits (ne_now env) r)) ->
  m_autoEvery m <= ne_lock env - m_lastAuto m ->
  noteUnauthorized fuel env r = Some r' ->
  locked_in [ModeFailClosed] r' = true /\ gates_closed r'.
Proof.
  intros Hm Ha Hf Ht Hr. unfold noteUnauthorized. rewrite Hm, Hf. cbn [negb set_hits rt_sec].
  rewrite bool_decide_eq_true_2 by done. intros (_ & Hl & _)%auditAction_keeps.
  assert (locked_in [ModeFailClosed] r' = true) as Hlk.
  { unfold locked_in. rewrite Hl. unfold auto_lock. cbn [set_hits rt_lock]. rewrite Hm. cbn [set_lock rt_lock].
    unfold TryAutoEnter, auto_check. unfold Lockdown.Active in Ha |- *. rewrite Ha, bool_decide_eq_false_2 by lia.
    unfold Lockdown.Enter, auto_request. cbn [Lockdown.m_state er_Mode er_Reason Lockdown.er_Reason Lockdown.er_Mode].
    rewrite Ha, !bool_decide_eq_false_2 by done.
    unfold Lockdown.persistLocked. cbn [Lockdown.m_path appendEvidenceLocked Lockdown.set_state].
    destruct (Lockdown.m_path m), (ne_st env); reflexivity. }
  split; [done |]. right; right. eapply locked_in_more; [|exact Hlk]. unfold gate_modes. set_solver.
Qed.

(** What [IssueCapability] hands out respects the resolved settings: the token
    lives for a positive time no longer than the configured maximum, is single-use
    when the settings ask for it, is of the authority's current epoch, and never
    grants the empty or the universal permission. *)
Theorem issued_within_policy fuel env req r r' tok a profile overrides booleans :
  rt_sec r = resolve profile overrides booleans -> rt_caps r = Some a ->
  IssueCapability fuel env req r = Some (r', inr tok) ->
  0 < tk_ExpiresAt tok - tk_IssuedAt tok <= CapabilityMaxTTL (rt_sec r) /\
  (RequireSingleUseCapabilities (rt_sec r) = true -> use_limit (tk_Constraints tok) = Some 1) /\
  tk_Epoch tok = a_epoch a /\ tk_Permission tok ≠ "" /\ tk_Permission tok ≠ "*" /\
  checkControlGates "Capability.Issue" r = None.
Proof.
  intros Hsec Hcaps. unfold IssueCapability. destruct (checkControlGates _ _); [done |]. rewrite Hcaps.
  set (q := issue_request (rt_sec r) req).
  assert (0 < rq_TTL q <= CapabilityMaxTTL (rt_sec r)) as Hq.
  { pose proof (resolve_positive profile overrides booleans) as Hp. rewrite <- Hsec in Hp.
    destruct Hp as (_ & H1 & H2 & _). unfold q, issue_request. cbn [rq_TTL].
    repeat case_bool_decide; lia. }
  assert (RequireSingleUseCapabilities (rt_sec r) = true -> use_limit (rq_Constraints q) = Some 1) as Hsu.
  { intros Hr. unfold q, issue_request. cbn [rq_Constraints]. by rewrite Hr. }
  assert (forall t, (Issue marshal env q a).2 = inr t ->
    Capability.rq_Permission q ≠ "" /\ Capability.rq_Permission q ≠ "*" /\
    exists nonce id, tk_body t = tk_body (fresh_token q nonce id (ie_now env) (a_epoch a))) as Hi.
  { intros t. unfold Issue. case_bool_decide as H1; [done |]. case_bool_decide as H2; [done |]. cbn [orb].
    destruct (ie_nonce env); [|done]. destruct (ie_id env); [|done].
    destruct (signLocked _ _ _ _) eqn:Es; [done |]. intros [= <-]. apply signLocked_body in Es. eauto. }
  destruct (Issue marshal env q a) as [a' [e|t]]; [done |].
  destruct (auditAction _ _ _ _ _ _ _); [|done]. intros [= <- <-].
  destruct (Hi t eq_refl) as (P1 & P2 & nonce & id & Hb).
  unfold tk_ExpiresAt, tk_IssuedAt, tk_Constraints, tk_Epoch, tk_Permission. rewrite Hb.
  cbn [fresh_token tk_body sb_ExpiresAt sb_IssuedAt sb_Constraints sb_Epoch sb_Permission].
  unfold Add, effective_ttl. rewrite bool_decide_eq_false_2 by lia.
  split; [lia |]. done.
Qed.
End Runtime.

(** ** Concrete runtimes *)

Definition y_sum (b : body Z) : option Z := Some 1.
Definition y_sign (k : unit) (h : Z) : option (string * string) := Some ("sig", "k").
Definition y_store (path : bool) : AuditLog.Store (Hash := Z) (PrivateKey := unit) (KeyRing := unit) :=
  AuditLog.NewStore None None path.
Definition y_lock : Lockdown.Manager := Lockdown.New false false 0 true Absent [].

Definition y_runtime (sec : SecuritySettings) (rules : list Guard.Rule) (path : bool) :
    Runtime (Hash := Z) (APriv := unit) (ARing := unit) :=
  mkRuntime sec 0 (Some (Capability.New [])) (Some rules) (Some (y_store path)) None (Some y_lock) false false [].

Definition y_rules : list Guard.Rule :=
  (Guard.AddRule (Guard.mkRule "allow-status" "" "status.read" "" "" "allow" None 50) []).1.

Definition y_env : note_env := mkNoteEnv (10 * Hour) (10 * Hour) (10 * Hour) true Wrote.
Definition y_ok (req : Command.Request) : outcome := Returned (mkResult true "ok" ∅) None.
Definition y_registry : Registry :=
  (Register (mkSpec "status" "status.read" 0 0 0 true) (Command.New 0 0 0)).1.
Definition y_request : Command.Request := Command.mkRequest "status" "ops" 1 "" 0.

Definition y_format (t : Time) : string := "".
Definition y_clock (n : nat) : Time := 1.
Definition y_disk (n : nat) : bool := true.

(** [n] invocations of the same command, one after the other. *)
Fixpoint y_invoke (n : nat) (reg : Registry)
  (e : option (Runtime (Hash := Z) (APriv := unit) (ARing := unit)) * list Command.Request) :=
  match n with
  | O => (reg, e)
  | S n =>
    let '(reg, e, _) := Invoke
      (CommandEnv0 := runtime_env 0 y_sum y_sign y_format y_clock y_disk 3 y_env y_ok)
      0 [] (fun r => r) y_request reg e in
    y_invoke n reg e
  end.

(** [AuditCommand] passes the outcome where the operation identifier goes, and the
    log refuses an identifier it has seen: the second "ok" is never recorded. *)
Definition y_commands (r : Runtime (Hash := Z) (APriv := unit) (ARing := unit)) : Z :=
  match rt_audit r with
  | Some st => Z.of_nat (length (filter (fun x => au_Action x = "command.status") (st_records st)))
  | None => 0
  end.

Lemma second_command_unaudited :
  match y_invoke 3 y_registry (Some (y_runtime (resolve ProfileStandard None false) y_rules false), []) with
  | (_, (Some r, log)) => length log = 3%nat /\ y_commands r = 1 /\ rt_quarantined r = false
  | _ => False
  end.
Proof. vm_compute. repeat split. Qed.

(** In a hardened runtime the same refusal quarantines the generation: the second
    successful command is the last. *)
Lemma second_command_quarantines :
  match y_invoke 3 y_registry (Some (y_runtime (resolve ProfileHardened None false) y_rules false), []) with
  | (_, (Some r, log)) => length log = 2%nat /\ rt_quarantined r = true
  | _ => False
  end.
Proof. vm_compute. repeat split. Qed.

(** A refused command is counted by [AuthorizeCommand] and again by
    [AuditCommand]: half the threshold is enough. *)
Definition y_flood : SecuritySettings :=
  resolve ProfileStandard (Some (mkSettings "" false false false false false 0 0 0 false false false false 4 0
    false false 0 0)) false.

Lemma refusals_counted_twice :
  CommandFloodThreshold y_flood = 4 /\
  match y_invoke 2 y_registry (Some (y_runtime y_flood [] false), []) with
  | (_, (Some r, log)) => log = [] /\ length (rt_floodHits r) = 4%nat /\ locked_in [ModeFailClosed] r = true
  | _ => False
  end.
Proof. vm_compute. repeat split. Qed.

(** [AuditFailClosed] does not refuse the operation whose record failed: the token
    is handed out. *)
Definition y_issue : issue_env := mkIssueEnv (Some []) (Some []) 5 5.
Definition y_cap : Capability.Request :=
  Capability.mkRequest "ops" "claim.revoke" "" 0 (mkConstraints false "" 0 []).

Lemma unaudited_capability_issued :
  match IssueCapability (J := toy_jsonlib) (ED := toy_ed25519) 0 y_sum y_sign body_json y_clock
          (fun n => bool_decide (0 < n)%nat) 3 y_issue y_cap
          (y_runtime (resolve ProfileHardened None false) y_rules true) with
  | Some (r, inr tok) => rt_quarantined r = true /\ tk_Permission tok = "claim.revoke"
  | _ => False
  end.
Proof. vm_compute. repeat split. Qed.

(** *** Witnesses *)

Lemma audit_returns_iff_witness :
  let r := y_runtime (resolve ProfileHardened None false) y_rules true in
  (exists fuel, is_Some (auditAction 0 y_sum y_sign y_clock (fun n => bool_decide (n = 2%nat)) fuel
     "ops" "a" "b" "ok" "" r)) /\
  ~ (exists fuel, is_Some (auditAction 0 y_sum y_sign y_clock (fun _ => false) fuel "ops" "a" "b" "ok" "" r)).
Proof.
  intros r.
  assert (audit_total y_sum y_sign r) as Ht.
  { split; [by eexists |]. intros st k h _ _. by eexists. }
  split.
  - apply (audit_returns_iff 0 y_sum y_sign y_clock (fun n => bool_decide (n = 2%nat)) "ops" "a" "b" "ok" r
      (y_store true) Ht eq_refl eq_refl eq_refl). exists 2%nat. right. reflexivity.
  - intros H. apply (audit_returns_iff 0 y_sum y_sign y_clock (fun _ => false) "ops" "a" "b" "ok" r
      (y_store true) Ht eq_refl eq_refl eq_refl) in H as [j [H|H]]; discriminate H.
Defined.


Lemma flood_locks_down_witness :
  let r := set_hits [9 * Hour; 10 * Hour; 10 * Hour; 10 * Hour] (y_runtime y_flood [] false) in
  exists r', noteUnauthorized 0 y_sum y_sign y_format y_clock y_disk 3 y_env r = Some r' /\
    locked_in [ModeFailClosed] r' = true.
Proof.
  intros r. eexists. split; [vm_compute; reflexivity |].
  eapply (flood_locks_down 0 y_sum y_sign y_format y_clock y_disk 3 y_env r _ y_lock);
    [reflexivity .. | vm_compute; discriminate | vm_compute; discriminate | vm_compute; reflexivity].
Defined.

Lemma issued_within_policy_witness :
  exists r' tok, IssueCapability (J := toy_jsonlib) (ED := toy_ed25519) 0 y_sum y_sign body_json y_clock y_disk 3 y_issue y_cap
    (y_runtime (resolve ProfileHardened None false) y_rules false) = Some (r', inr tok) /\
  0 < tk_ExpiresAt tok - tk_IssuedAt tok <= 10 * Minute /\ use_limit (tk_Constraints tok) = Some 1.
Proof.
  eexists _, _. split; [vm_compute; reflexivity |].
  edestruct (issued_within_policy (J := toy_jsonlib) (ED := toy_ed25519) 0 y_sum y_sign body_json y_clock y_disk 3 y_issue y_cap
    (y_runtime (resolve ProfileHardened None false) y_rules false)) as (H1 & H2 & _);
    [reflexivity | reflexivity | vm_compute; reflexivity |].
  split; [exact H1 | apply H2; reflexivity].
Defined.

(** ** Claims as the runtime offers them ([runtime.go], [FencedClaims])

    The adapter through which elections, semaphores and [Once] use the
    coordinator's claims, and the barriers the runtime makes.  The adapter is not an
    [ExclusiveClaims]: the coordinator answers a second acquisition of a claim it
    already holds with the lease it has. *)

From S2P Require Import BackendSpec MemoryBackend Coordinator Handoff SyncPrim Barrier.

Section Claims.
Context {Hash APriv ARing : Type}.
Context {S : Type} `{!BackendOps S} (genv : Z -> Env) (others : Z -> S -> S).
Abbreviation RT := (Runtime (Hash := Hash) (APriv := APriv) (ARing := ARing)).

(** [meanwhile] as in [tryAcquire]. *)
Definition FencedClaims_Acquire (r : RT) (meanwhile : Claim -> Claim) (claim : string) (c : Coord (S := S))
  : Coord * (error + Z) :=
  match checkControlGates "Acquire" r with
  | Some e => (c, inl e)
  | None =>
    match Claim_handle claim c with
    | (c, Some e) => (c, inl e)
    | (c, None) =>
      match tryAcquire genv others claim meanwhile c with
      | (c, (_, Some e)) => (c, inl e)
      | (c, (Some l, None)) => (c, inr (l_token l))
      | (c, (None, None)) => (c, inr 0)
      end
    end
  end.

(** The token is not looked at. *)
Definition FencedClaims_Release (claim : string) (_token : Z) (c : Coord (S := S)) : Coord * option error :=
  match Claim_handle claim c with
  | (c, Some e) => (c, Some e)
  | (c, None) => Coordinator.Release genv others claim c
  end.

Definition FencedClaims_Renew (claim : string) (token : Z) (c : Coord (S := S)) : Coord * option error :=
  match Claim_handle claim c with
  | (c, Some e) => (c, Some e)
  | (c, None) =>
    match cclaims c !! claim with
    | None => (c, Some (Sentinel ErrNotOwner))
    | Some cl =>
      let own := ToOwnership (record cl) in
      if negb (Controls own (ID (gen c))) || negb (bool_decide (FencingTokenOf (record cl) = token))
      then (c, Some (Sentinel ErrNotOwner)) else (c, None)
    end
  end.

(** ** Barriers *)

Definition BarrierFacade_New (r : RT) (cfg : BConfig) : barrier_error + Barrier :=
  Barrier.New (mkBConfig (if bool_decide (bc_Epoch cfg = 0) then rt_epoch r else bc_Epoch cfg)
    (bc_MaxParticipants cfg) (bc_Policy cfg) (bc_MinimumCount cfg)).

Definition QuorumFacade_New (r : RT) (maxParticipants : Z) : barrier_error + Barrier :=
  BarrierFacade_New r (mkBConfig (rt_epoch r) maxParticipants (Some PolicyQuorum) 0).

(** The runtime's claims are not exclusive within a process: as long as the
    coordinator's lease on a claim is valid, every further acquisition succeeds at
    once with the same token and without asking the backend. *)
Theorem adapter_reacquires (r : RT) meanwhile claim (c : Coord (S := S)) cl l :
  checkControlGates "Acquire" r = None -> claim ≠ "" -> co_closed c = false ->
  cclaims c !! claim = Some cl -> cl_closed cl = false -> lease cl = Some l -> lease_valid c cl = true ->
  FencedClaims_Acquire r meanwhile claim c = (c, inr (l_token l)).
Proof.
  intros Hg Hn Hc Hcl Hcc Hl Hv. unfold FencedClaims_Acquire, Claim_handle, checkOpen.
  rewrite Hg, bool_decide_eq_false_2, Hc, Hcl by done. unfold tryAcquire. by rewrite Hcl, Hcc, Hv, Hl.
Qed.

(** No record of who holds a claim makes the adapter an [ExclusiveClaims] at a
    state with a valid lease. *)
Lemma adapter_not_exclusive (r : RT) claim (c : Coord (S := S)) cl l (holder : Coord (S := S) -> string -> option Z) :
  checkControlGates "Acquire" r = None -> claim ≠ "" -> co_closed c = false ->
  cclaims c !! claim = Some cl -> cl_closed cl = false -> lease cl = Some l -> lease_valid c cl = true ->
  ~ (forall c c' name tok, FencedClaims_Acquire r id name c = (c', inr tok) ->
       holder c name = None /\ holder c' name = Some tok).
Proof.
  intros Hg Hn Hc Hcl Hcc Hl Hv H.
  destruct (H c c claim (l_token l)) as [H1 H2]; [by eapply adapter_reacquires | congruence].
Qed.

(** A closed gate keeps the claims as they are. *)
Lemma closed_gate_acquires_nothing (r : RT) meanwhile claim (c : Coord (S := S)) :
  gates_closed r -> exists e, FencedClaims_Acquire r meanwhile claim c = (c, inl e).
Proof.
  intros [e He]%(proj1 (gates_closed_spec "Acquire" r)). exists e. unfold FencedClaims_Acquire. by rewrite He.
Qed.

End Claims.

(** ** A semaphore of one permit over a runtime's claims *)

Definition rt_demo : Runtime (Hash := Z) (APriv := unit) (ARing := unit) :=
  y_runtime (resolve ProfileStandard None false) [] false.

(** The adapter of a fixed runtime as the interface of the primitives. *)
Definition runtime_claims {S} `{!BackendOps S} (genv : Z -> Env) (others : Z -> S -> S)
  (r : Runtime (Hash := Z) (APriv := unit) (ARing := unit)) : FencedClaims (Coord (S := S)) := {|
  fc_Acquire name c := FencedClaims_Acquire genv others r id name c;
  fc_Release name tok c := FencedClaims_Release genv others name tok c |}.

(** A generation on an empty memory backend. *)
Definition rt_coord : Coord :=
  mkCoord (mkGeneration "a" "svc" "i1" StateStandby 0 0 ReasonNone) (mkCoordConfig (15 * Second) (30 * Second) 0)
    ∅ false 0 0 (MemoryBackend.New false) [] false.

(** Two permits of a semaphore with one are out at the same time, with the same
    token; giving the first back frees the claim the second still relies on. *)
Lemma runtime_semaphore_unbounded :
  let F := runtime_claims x_env x_alone rt_demo in
  let sem := mkSemaphore "s" 1 ∅ in
  let '(s1, c1, p1) := SyncPrim.Acquire (FencedClaims0 := F) (fun _ p => p) sem rt_coord in
  let '(s2, c2, p2) := SyncPrim.Acquire (FencedClaims0 := F) (fun _ p => p) s1 c1 in
  p1 = inr 0 /\ p2 = inr 0 /\ sm_held s2 !! 0 = Some 1 /\
  let '(s3, c3, e) := release (FencedClaims0 := F) 0 s2 c2 in
  e = None /\ (cclaims c3 !! "s#0" ≫= lease) = None.
Proof. vm_compute. repeat split. Qed.

Lemma adapter_reacquires_witness :
  FencedClaims_Acquire x_env x_alone rt_demo id "leader" x_coord = (x_coord, inr 1).
Proof.
  apply (adapter_reacquires x_env x_alone rt_demo id "leader" x_coord
    (mkClaim "leader" x_record (Some (mkLease 1 false)) (Drain.NewDrainGroup 0) false false true) (mkLease 1 false));
    vm_compute; first [reflexivity | discriminate].
Defined.
