(* ===== verification/Supervise.v ===== *)
(** * Task supervision ([supervise/supervise.go])

    Registered tasks, the contexts their runs are started with, failure zones, and
    the restart loop.  A context is a number; a context is done when it was
    cancelled or the root was.  The loop ([runLoop]) is fed, round by round, with
    what the gate, the task and the contexts do; the list given to it is as long as
    one likes, and [None] says it is still running when the list ends. *)

From S2P Require Import Prelude Types.

(** ** Data *)

Inductive Mode :=
| ModeSingleton | ModePerInstance | ModeLeaderOnly | ModeClaimBound | ModeScheduled | ModeOneShot
| ModeMaintenanceOnly | ModeManual | ModeOther (s : string).

#[global] Instance Mode_eq_dec : EqDecision Mode.
Proof. solve_decision. Defined.

Record RestartPolicy := mkRestart { rp_MaxRestarts : Z; rp_Interval : Duration; rp_MaxInterval : Duration }.

Inductive FailurePolicy := FailStop | FailRestart | FailIsolate | FailOther (s : string).

#[global] Instance FailurePolicy_eq_dec : EqDecision FailurePolicy.
Proof. solve_decision. Defined.

Inductive sup_error := ErrClosed | ErrExists | ErrNotFound | ErrMode | GateError (e : error).

(** [sp_Mode] and [sp_Failure] are [None] when empty; [sp_Run] tells whether a
    function is given. *)
Record Spec := mkSpec {
  sp_Name : string; sp_Mode : option Mode; sp_Run : bool; sp_Restart : RestartPolicy;
  sp_Failure : option FailurePolicy; sp_Zone : string; sp_ScheduleEvery : Duration }.

Record task := mkTask { t_spec : Spec; t_cancel : option nat }.

(** [s_runs] lists the runs started: task and context. *)
Record Supervisor := mkSupervisor {
  s_tasks : gmap string task; s_zones : gmap string bool; s_closed : bool; s_rootDone : bool;
  s_next : nat; s_cancelled : gset nat; s_runs : list (string * nat) }.

Definition New : Supervisor := mkSupervisor ∅ ∅ false false 0 ∅ [].

Definition withDefaults (p : RestartPolicy) : RestartPolicy :=
  mkRestart (if bool_decide (rp_MaxRestarts p <= 0) then 3 else rp_MaxRestarts p)
    (if bool_decide (rp_Interval p <= 0) then Second else rp_Interval p)
    (if bool_decide (rp_MaxInterval p <= 0) then 30 * Second else rp_MaxInterval p).

(** ** The table of tasks *)

Definition Register (spec : Spec) (s : Supervisor) : Supervisor * option sup_error :=
  if bool_decide (sp_Name spec = "") || negb (sp_Run spec) then (s, Some ErrMode)
  else
    let spec := mkSpec (sp_Name spec) (Some (default ModeManual (sp_Mode spec))) (sp_Run spec)
      (withDefaults (sp_Restart spec)) (Some (default FailRestart (sp_Failure spec))) (sp_Zone spec)
      (sp_ScheduleEvery spec) in
    if s_closed s then (s, Some ErrClosed)
    else match s_tasks s !! sp_Name spec with
    | Some _ => (s, Some ErrExists)
    | None =>
      let zones := if bool_decide (sp_Zone spec = "") then s_zones s
                   else match s_zones s !! sp_Zone spec with
                        | Some _ => s_zones s
                        | None => <[sp_Zone spec := false]> (s_zones s)
                        end in
      (mkSupervisor (<[sp_Name spec := mkTask spec None]> (s_tasks s)) zones (s_closed s) (s_rootDone s)
         (s_next s) (s_cancelled s) (s_runs s), None)
    end.

Definition cancel_opt (c : option nat) (done : gset nat) : gset nat :=
  match c with Some ctx => {[ctx]} ∪ done | None => done end.

(** [spawn]: the previous run of the task is cancelled and a new context made. *)
Definition spawn (spec : Spec) (s : Supervisor) : Supervisor * option sup_error :=
  if negb (bool_decide (sp_Zone spec = "")) && default false (s_zones s !! sp_Zone spec)
  then (s, Some ErrMode)
  else match s_tasks s !! sp_Name spec with
  | None => (s, Some ErrNotFound)
  | Some t =>
    let ctx := s_next s in
    (mkSupervisor (<[sp_Name spec := mkTask (t_spec t) (Some ctx)]> (s_tasks s)) (s_zones s) (s_closed s)
       (s_rootDone s) (S ctx) (cancel_opt (t_cancel t) (s_cancelled s)) (s_runs s ++ [(sp_Name spec, ctx)]), None)
  end.

(** The first critical section of [Start]. *)
Definition start_enter (name : string) (s : Supervisor) : sup_error + Spec :=
  if s_closed s then inl ErrClosed
  else match s_tasks s !! name with None => inl ErrNotFound | Some t => inr (t_spec t) end.

(** [Start]: [gate] is the answer of the gate, [others] what happens before
    [spawn]. *)
Definition Start (name : string) (gate : option error) (others : Supervisor -> Supervisor) (s : Supervisor)
  : Supervisor * option sup_error :=
  match start_enter name s with
  | inl e => (s, Some e)
  | inr spec =>
    match gate with
    | Some e => (s, Some (GateError e))
    | None => spawn spec (others s)
    end
  end.

Definition StartSpec (spec : Spec) (gate : option error) (others : Supervisor -> Supervisor) (s : Supervisor)
  : Supervisor * option sup_error :=
  match Register spec s with
  | (s, Some e) => (s, Some e)
  | (s, None) =>
    if bool_decide (sp_Mode spec = Some ModeManual) then (s, None)
    else Start (sp_Name spec) gate others s
  end.

Definition Stop (name : string) (s : Supervisor) : Supervisor * option sup_error :=
  match s_tasks s !! name with
  | None => (s, Some ErrNotFound)
  | Some t =>
    (mkSupervisor (<[name := mkTask (t_spec t) None]> (s_tasks s)) (s_zones s) (s_closed s) (s_rootDone s)
       (s_next s) (cancel_opt (t_cancel t) (s_cancelled s)) (s_runs s), None)
  end.

(** [Close], up to the wait for the goroutines. *)
Definition Close (s : Supervisor) : Supervisor :=
  if s_closed s then s
  else mkSupervisor (s_tasks s) (s_zones s) true true (s_next s)
    (map_fold (fun _ t done => cancel_opt (t_cancel t) done) (s_cancelled s) (s_tasks s)) (s_runs s).

Definition isolate (zoneName : string) (s : Supervisor) : Supervisor :=
  if bool_decide (zoneName = "") then s
  else mkSupervisor (s_tasks s) (<[zoneName := true]> (s_zones s)) (s_closed s) (s_rootDone s) (s_next s)
    (s_cancelled s) (s_runs s).

Definition Tasks (s : Supervisor) : list string := elements (dom (s_tasks s)).

(** ** The restart loop *)

(** One round: the gate's answer, the task's result (a panic is an error), whether
    the context is done after it, and whether it ends during the wait. *)
Record round := mkRound { ro_gate : option error; ro_err : option error; ro_done : bool; ro_doneWait : bool }.

Inductive stop_reason := StopGate | StopContext | StopOneShot | StopFinished | StopFailed | StopIsolated | StopBound.

(** What the loop does, in order. *)
Inductive action := AInvoke | AFailed | AWait (d : Duration) | AIsolate (zone : string).

Definition schedule_wait (spec : Spec) : Duration :=
  if bool_decide (sp_ScheduleEvery spec <= 0) then Minute else sp_ScheduleEvery spec.

Definition next_delay (rp : RestartPolicy) (delay : Duration) : Duration :=
  let d := i64 (delay * 2) in if bool_decide (rp_MaxInterval rp < d) then rp_MaxInterval rp else d.

Fixpoint run_rounds (rounds : list round) (spec : Spec) (rp : RestartPolicy) (delay : Duration) (restarts : Z)
  : list action * option stop_reason :=
  match rounds with
  | [] => ([], None)
  | ro :: rest =>
    match ro_gate ro with
    | Some _ => ([], Some StopGate)
    | None =>
      let prepend acts '(l, r) := (acts ++ l, r) in
      if ro_done ro then ([AInvoke], Some StopContext)
      else if bool_decide (sp_Mode spec = Some ModeOneShot) then ([AInvoke], Some StopOneShot)
      else
        match ro_err ro with
        | None =>
          if bool_decide (sp_Mode spec = Some ModeScheduled) then
            if ro_doneWait ro then ([AInvoke; AWait (schedule_wait spec)], Some StopContext)
            else prepend [AInvoke; AWait (schedule_wait spec)] (run_rounds rest spec rp delay restarts)
          else ([AInvoke], Some StopFinished)
        | Some _ =>
          match default FailRestart (sp_Failure spec) with
          | FailStop => ([AInvoke; AFailed], Some StopFailed)
          | FailIsolate => ([AInvoke; AFailed; AIsolate (sp_Zone spec)], Some StopIsolated)
          | _ =>
            let restarts := restarts + 1 in
            if bool_decide (rp_MaxRestarts rp < restarts) then ([AInvoke; AFailed], Some StopBound)
            else if ro_doneWait ro then ([AInvoke; AFailed; AWait delay], Some StopContext)
            else prepend [AInvoke; AFailed; AWait delay]
                   (run_rounds rest spec rp (next_delay rp delay) restarts)
          end
        end
    end
  end.

Definition runLoop (rounds : list round) (spec : Spec) : list action * option stop_reason :=
  let rp := withDefaults (sp_Restart spec) in
  run_rounds rounds spec rp (rp_Interval rp) 0.

(** ** Restarts are bounded *)

Fixpoint invokes (l : list action) : Z :=
  match l with [] => 0 | AInvoke :: t => 1 + invokes t | _ :: t => invokes t end.
Fixpoint failures (l : list action) : Z :=
  match l with [] => 0 | AFailed :: t => 1 + failures t | _ :: t => failures t end.

(** The waits that follow a failure. *)
Fixpoint backoffs (l : list action) : list Duration :=
  match l with
  | AFailed :: AWait d :: t => d :: backoffs t
  | _ :: t => backoffs t
  | [] => []
  end.

Lemma withDefaults_pos p :
  0 < rp_MaxRestarts (withDefaults p) /\ 0 < rp_Interval (withDefaults p) /\ 0 < rp_MaxInterval (withDefaults p).
Proof. unfold withDefaults. simpl. repeat case_bool_decide; unfold Second, Millisecond; lia. Qed.

Lemma next_delay_bound rp d bound :
  0 < rp_MaxInterval rp <= bound -> 0 < d <= bound -> bound < 2 ^ 62 -> 0 < next_delay rp d <= bound.
Proof.
  intros Hm Hd Hb. unfold next_delay. rewrite i64_small by (unfold is_i64; lia). case_bool_decide; lia.
Qed.

Lemma run_rounds_bounded rounds spec rp delay restarts bound acts r :
  0 <= restarts <= rp_MaxRestarts rp -> 0 < rp_MaxInterval rp <= bound -> 0 < delay <= bound -> bound < 2 ^ 62 ->
  run_rounds rounds spec rp delay restarts = (acts, r) ->
  failures acts <= rp_MaxRestarts rp - restarts + 1 /\
  Forall (fun d => 0 < d <= bound) (backoffs acts) /\
  (sp_Mode spec ≠ Some ModeScheduled ->
   invokes acts <= rp_MaxRestarts rp - restarts + 1 /\
   (rp_MaxRestarts rp - restarts + 1 <= Z.of_nat (length rounds) -> r ≠ None)).
Proof.
  intros Hr Hm Hd Hb. revert delay restarts acts r Hr Hd.
  induction rounds as [|ro rest IH]; intros delay restarts acts r Hr Hd E; cbn [run_rounds] in E.
  { simplify_eq/=. split; [lia |]. split; [constructor |]. intros _. split; [lia |]. lia. }
  destruct (ro_gate ro); [simplify_eq/=; split; [lia |]; split; [constructor | intros _; split; [lia | done]] |].
  destruct (ro_done ro); [simplify_eq/=; split; [lia |]; split; [constructor | intros _; split; [lia | done]] |].
  case_bool_decide; [simplify_eq/=; split; [lia |]; split; [constructor | intros _; split; [lia | done]] |].
  destruct (ro_err ro) as [e|].
  - assert (forall z, z = AInvoke :: AFailed :: [] \/ z = [AInvoke; AFailed; AIsolate (sp_Zone spec)] ->
      acts = z -> r ≠ None -> failures acts <= rp_MaxRestarts rp - restarts + 1 /\
      Forall (fun d => 0 < d <= bound) (backoffs acts) /\
      (sp_Mode spec ≠ Some ModeScheduled -> invokes acts <= rp_MaxRestarts rp - restarts + 1 /\
        (rp_MaxRestarts rp - restarts + 1 <= Z.of_nat (length (ro :: rest)) -> r ≠ None))) as Hend.
    { intros z [->| ->] -> Hn; simpl; (split; [lia |]); (split; [constructor |]); intros _; (split; [lia | done]). }
    destruct (default FailRestart (sp_Failure spec)); try (simplify_eq; by eapply Hend; [|done|]; auto).
    all: case_bool_decide as Hbound; [simplify_eq; by eapply Hend; [|done|]; auto |].
    all: destruct (ro_doneWait ro); [simplify_eq/=; split; [lia |]; split; [by constructor | intros _; split; [lia | done]] |].
    all: destruct (run_rounds rest spec rp (next_delay rp delay) (restarts + 1)) as [l r'] eqn:El; simplify_eq/=;
      destruct (IH (next_delay rp delay) (restarts + 1) l r) as (H1 & H2 & H3);
        [lia | by apply next_delay_bound | done |];
      split; [lia |]; split; [by constructor |]; intros Hs; destruct (H3 Hs); split; [lia |]; intros; apply H4; lia.
  - case_bool_decide as Hsch.
    + destruct (ro_doneWait ro); [simplify_eq/=; split; [lia |]; split; [constructor | done] |].
      destruct (run_rounds rest spec rp delay restarts) as [l r'] eqn:El. simplify_eq/=.
      destruct (IH delay restarts l r Hr Hd El) as (H1 & H2 & H3). split; [lia |]. split; [done |]. done.
    + simplify_eq/=. split; [lia |]. split; [constructor |]. intros _. split; [lia | done].
Qed.

(** A supervised task is never restarted without end: whatever the gate, the
    task and the contexts do, at most one more than the configured number of
    restarts fail, every wait before a restart is positive and at most the larger of
    the two intervals, and outside scheduled mode the loop itself ends within that
    many rounds. *)
Theorem restarts_bounded rounds spec acts r :
  let rp := withDefaults (sp_Restart spec) in
  rp_Interval rp < 2 ^ 62 -> rp_MaxInterval rp < 2 ^ 62 ->
  runLoop rounds spec = (acts, r) ->
  failures acts <= rp_MaxRestarts rp + 1 /\
  Forall (fun d => 0 < d <= Z.max (rp_Interval rp) (rp_MaxInterval rp)) (backoffs acts) /\
  (sp_Mode spec ≠ Some ModeScheduled ->
   invokes acts <= rp_MaxRestarts rp + 1 /\
   (rp_MaxRestarts rp < Z.of_nat (length rounds) -> r ≠ None)).
Proof.
  intros rp H1 H2 E. destruct (withDefaults_pos (sp_Restart spec)) as (P1 & P2 & P3). fold rp in P1, P2, P3.
  destruct (run_rounds_bounded rounds spec rp (rp_Interval rp) 0 (Z.max (rp_Interval rp) (rp_MaxInterval rp)) acts r)
    as (F1 & F2 & F3); [lia | lia | lia | lia | exact E |].
  split; [lia |]. split; [done |]. intros Hs. destruct (F3 Hs) as [G1 G2]. split; [lia |]. intros. apply G2. lia.
Qed.

Definition flaky_spec : Spec := mkSpec "poll" (Some ModeSingleton) true (mkRestart 2 Second (3 * Second)) None "" 0.
Definition always_fails : list round := replicate 5 (mkRound None (Some (Sentinel ErrBackend)) false false).

Lemma restarts_bounded_witness :
  runLoop always_fails flaky_spec =
    ([AInvoke; AFailed; AWait Second; AInvoke; AFailed; AWait (2 * Second); AInvoke; AFailed], Some StopBound) /\
  failures (runLoop always_fails flaky_spec).1 <= 3.
Proof.
  split; [reflexivity |].
  refine (proj1 (restarts_bounded always_fails flaky_spec _ _ _ _ eq_refl)); reflexivity.
Defined.

(** ** At most one run of a task is live *)

(** The critical sections of the supervisor's operations; [Start] is [start_enter]
    (which changes nothing), the gate, and later [spawn], with anything between. *)
Inductive step (s : Supervisor) : Supervisor -> Prop :=
| step_register spec : step s (Register spec s).1
| step_spawn spec : step s (spawn spec s).1
| step_stop name : step s (Stop name s).1
| step_close : step s (Close s)
| step_isolate zone : step s (isolate zone s).

Definition reach : Supervisor -> Supervisor -> Prop := steps step.

(** A run whose context is not done. *)
Definition live (s : Supervisor) (run : string * nat) : Prop :=
  run ∈ s_runs s /\ s_rootDone s = false /\ run.2 ∉ s_cancelled s.

Definition runs_inv (s : Supervisor) : Prop :=
  (s_closed s = true -> s_rootDone s = true) /\
  forall name ctx, (name, ctx) ∈ s_runs s ->
    (ctx < s_next s)%nat /\
    (ctx ∉ s_cancelled s -> exists t, s_tasks s !! name = Some t /\ t_cancel t = Some ctx).

Lemma runs_inv_New : runs_inv New.
Proof. split; [done |]. intros ?? ?%elem_of_nil. done. Qed.

Lemma elem_of_cancel_opt c done ctx : ctx ∈ cancel_opt c done <-> c = Some ctx \/ ctx ∈ done.
Proof. destruct c; simpl; set_solver. Qed.

Lemma cancel_fold_mono (ts : gmap string task) done ctx :
  ctx ∈ done -> ctx ∈ map_fold (fun _ t d => cancel_opt (t_cancel t) d) done ts.
Proof.
  intros H. apply (map_fold_weak_ind (fun d _ => ctx ∈ d)); [done |].
  intros. rewrite elem_of_cancel_opt. auto.
Qed.

Lemma runs_inv_step s s' : runs_inv s -> step s s' -> runs_inv s'.
Proof.
  intros Hi. pose proof Hi as [Hc Hr]. destruct 1 as [spec|spec|name| |zone].
  - unfold Register. case_match; [done |]. destruct (s_closed s) eqn:Eclosed; [done |]. cbn [sp_Name].
    destruct (s_tasks s !! sp_Name spec) as [t0|] eqn:E0; [done |]. split; [done |]. simpl. intros n c Hin.
    destruct (Hr n c Hin) as [Hlt Ht]. split; [done |]. intros Hn. destruct (Ht Hn) as (t & Et & Ec).
    exists t. split; [|done]. rewrite lookup_insert_ne; [done |]. intros <-. simpl in *. congruence.
  - unfold spawn. case_match; [done |]. destruct (s_tasks s !! sp_Name spec) as [t|] eqn:Et; [|done].
    split; [done |]. simpl. intros n c [Hin|Hin%list_elem_of_singleton]%elem_of_app.
    + destruct (Hr n c Hin) as [Hlt Ht]. split; [lia |]. rewrite elem_of_cancel_opt. intros Hn.
      destruct (Ht (fun H => Hn (or_intror H))) as (t' & Et' & Ec). exists t'. split; [|done].
      rewrite lookup_insert_ne; [done |]. intros <-. apply Hn. left. congruence.
    + simplify_eq. split; [lia |]. intros _. eexists. rewrite lookup_insert_eq. split; reflexivity.
  - unfold Stop. destruct (s_tasks s !! name) as [t|] eqn:Et; [|done].
    split; [done |]. simpl. intros n c Hin. destruct (Hr n c Hin) as [Hlt Ht]. split; [done |].
    rewrite elem_of_cancel_opt. intros Hn. destruct (Ht (fun H => Hn (or_intror H))) as (t' & Et' & Ec). exists t'. split; [|done].
    rewrite lookup_insert_ne; [done |]. intros <-. apply Hn. left. congruence.
  - unfold Close. destruct (s_closed s); [done |]. split; [done |]. simpl. intros n c Hin.
    destruct (Hr n c Hin) as [Hlt Ht]. split; [done |]. intros Hn. apply Ht. intros Hd. by apply Hn, cancel_fold_mono.
  - unfold isolate. case_match; done.
Qed.

Lemma runs_inv_reach s s' : runs_inv s -> reach s s' -> runs_inv s'.
Proof. intros Hi Hr. revert Hi. induction Hr as [|s1 s2 s3 Hs _ IH]; [done |]. eauto using runs_inv_step. Qed.

Lemma stop_kills s name s' run :
  runs_inv s -> Stop name s = (s', None) -> live s' run -> run.1 ≠ name.
Proof.
  intros [_ Hr] E (Hin & _ & Hn) <-. destruct run as [n c]. unfold Stop in E. simpl in *.
  destruct (s_tasks s !! n) as [t|] eqn:Et; [|done]. simplify_eq/=.
  rewrite elem_of_cancel_opt in Hn. destruct (Hr n c Hin) as [_ Ht].
  destruct (Ht (fun H => Hn (or_intror H))) as (t' & Et' & Ec). apply Hn. left. congruence.
Qed.

(** However the supervisor's operations interleave, at most one run of a task
    has a context that is not done (starting a task again cancels the run before
    it); after [Stop] none of that task has, and after [Close] none at all, also of
    a start that was under way when the supervisor was closed. *)
Theorem one_live_run s :
  reach New s ->
  (forall name c1 c2, live s (name, c1) -> live s (name, c2) -> c1 = c2) /\
  (forall name s' run, Stop name s = (s', None) -> live s' run -> run.1 ≠ name) /\
  (forall s' run, reach (Close s) s' -> live s' run -> False).
Proof.
  intros Hr%(runs_inv_reach _ _ runs_inv_New). split; [|split].
  - intros name c1 c2 (H1 & _ & N1) (H2 & _ & N2). destruct Hr as [_ Hr].
    destruct (Hr _ _ H1) as [_ T1], (Hr _ _ H2) as [_ T2].
    destruct (T1 N1) as (t1 & E1 & C1), (T2 N2) as (t2 & E2 & C2). congruence.
  - intros. by eapply stop_kills.
  - intros s' run Hs' (_ & Hd & _).
    assert (s_rootDone (Close s) = true) as Hc.
    { unfold Close. destruct (s_closed s) eqn:E; [|done]. by apply Hr. }
    assert (s_rootDone s' = true) as Hc'; [|congruence]. clear Hd.
    revert Hc. induction Hs' as [|a b c Hs _ IH]; [done |]. intros Ha. apply IH.
    destruct Hs; unfold Register, spawn, Stop, Close, isolate; repeat case_match; done.
Qed.

Definition restarted : Supervisor :=
  (spawn flaky_spec (spawn flaky_spec (Register flaky_spec New).1).1).1.

Lemma one_live_run_witness :
  live restarted ("poll", 1%nat) /\ s_runs restarted = [("poll", 0%nat); ("poll", 1%nat)] /\
  (forall c, live restarted ("poll", c) -> c = 1%nat).
Proof.
  assert (live restarted ("poll", 1%nat)) as Hl.
  { split; [|split]; [by apply (bool_decide_unpack _); vm_compute | reflexivity | by apply (bool_decide_unpack _); vm_compute]. }
  split; [exact Hl |]. split; [reflexivity |]. intros c Hc.
  refine (proj1 (one_live_run restarted _) "poll" c 1%nat Hc Hl).
  eapply steps_cons; [apply (step_register _ flaky_spec) |].
  eapply steps_cons; [apply (step_spawn _ flaky_spec) |].
  eapply steps_cons; [apply (step_spawn _ flaky_spec) |]. apply steps_refl.
Defined.
