(* ===== verification/TextRecord.v ===== *)
(** * Claim records read from text ([ownership.go])

    The Kubernetes and Redis backends keep claims as text that other processes
    wrote, so the phase and the reason of a [ClaimRecord] are plain strings there.
    The abstraction to the cells of [BackendSpec] is here too. *)

From S2P Require Import Prelude Types BackendSpec.
#[local] Open Scope Z_scope.

(** A [ClaimRecord] with phase and reason the strings they are in Go. *)
Record KRecord := mkK {
  k_Name : string; k_Owner : string; k_Token : Z; k_Phase : string; k_AcquiredAt : Time; k_ExpiresAt : Time;
  k_Previous : string; k_Successor : string; k_Drain : string; k_Transfer : string; k_Heartbeat : Time;
  k_Reason : string; k_Version : Z }.

(** [ClaimPhase] constants. *)
Definition unowned := "unowned".
Definition owned := "owned".
Definition reserved := "reserved".
Definition draining := "draining".

Definition is_held (phase : string) : bool :=
  bool_decide (phase = owned) || bool_decide (phase = reserved) || bool_decide (phase = draining).

(** [time.Unix(0, ns)] and [t.UnixNano()]: the Unix epoch is this long after the
    zero [time.Time]. *)
Definition unix_epoch : Time := 62135596800 * Second.
Definition Unix (ns : Z) : Time := unix_epoch + ns.
Definition UnixNano (t : Time) : Z := i64 (t - unix_epoch).

(** What a handler returns. *)
Abbreviation KResult := (option KRecord * option error)%type.

(** ** Cells *)

Definition phase_of (s : string) : ClaimPhase :=
  if bool_decide (s = owned) then ClaimOwned
  else if bool_decide (s = reserved) then ClaimReserved
  else if bool_decide (s = draining) then ClaimDraining else ClaimUnowned.

Definition known_phase (s : string) : Prop := s ∈ [unowned; owned; reserved; draining].

Definition record_cell (rec : KRecord) : cell :=
  mkCell (k_Owner rec) (k_Token rec) (phase_of (k_Phase rec)) (k_Successor rec).

Lemma is_held_phase s : known_phase s -> is_held s = bool_decide (phase_of s ≠ ClaimUnowned).
Proof. unfold known_phase. rewrite !elem_of_cons, elem_of_nil. by intros [->|[->|[->|[->|[]]]]]. Qed.

Lemma phase_reserved s : phase_of s = ClaimReserved <-> s = reserved.
Proof.
  unfold phase_of. repeat case_bool_decide; subst; try done; split; intros; subst; done.
Qed.

Lemma phase_owned s : phase_of s = ClaimOwned <-> s = owned.
Proof.
  unfold phase_of. repeat case_bool_decide; subst; try done; split; intros; subst; done.
Qed.

Lemma phase_unowned s : known_phase s -> phase_of s = ClaimUnowned -> s = unowned.
Proof. unfold known_phase. rewrite !elem_of_cons, elem_of_nil. by intros [->|[->|[->|[->|[]]]]]. Qed.

Lemma known_phase_nonempty s : known_phase s -> s ≠ "".
Proof. unfold known_phase. rewrite !elem_of_cons, elem_of_nil. by intros [->|[->|[->|[->|[]]]]]. Qed.

Lemma owner_held rec : cell_wf (record_cell rec) -> k_Owner rec ≠ "" -> held (record_cell rec).
Proof. intros Hw Ho Hu. by apply Ho, (wf_unowned _ Hw). Qed.
