(* ===== verification/Kubernetes.v ===== *)
(** * The Kubernetes backend ([backend/kubernetes/kubernetes.go])

    Claims are kept in Lease objects of an API server that many processes share;
    the record of a claim is spread over the fields and annotations of its lease,
    numbers as decimal text.  A handler reads the lease, decides, and writes it back
    under the resource version it read.  Between any two calls to the server other
    processes act, so a handler is a program [prog] of calls, clock readings and
    accesses to the process's table of operation results; [run] executes one
    undisturbed, and the second half of the file interleaves any number of them.

    [LeaseClient] is the interface of the server; [MemoryLeaseClient] is the
    in-process client of the source. *)

From stdpp Require Import pretty.
From S2P Require Import Prelude GoStrings Types Config BackendSpec TextRecord.
#[local] Open Scope Z_scope.

(** ** Data *)

(** [LeaseObject]; [l_Duration] is an [int32], a nil map of annotations is empty. *)
Record LeaseObject := mkLease {
  l_Name : string; l_Holder : string; l_Duration : Z; l_AcquireTime : Time; l_RenewTime : Time;
  l_RV : string; l_Ann : gmap string string }.

#[global] Instance LeaseObject_eq_dec : EqDecision LeaseObject.
Proof. solve_decision. Defined.

Definition with_RV (v : string) (l : LeaseObject) : LeaseObject :=
  mkLease (l_Name l) (l_Holder l) (l_Duration l) (l_AcquireTime l) (l_RenewTime l) v (l_Ann l).

Definition annToken := "shiftlock.theworker02.io/fencing-token".
Definition annPhase := "shiftlock.theworker02.io/phase".
Definition annPrev := "shiftlock.theworker02.io/previous-owner".
Definition annSuccessor := "shiftlock.theworker02.io/pending-successor".
Definition annTransfer := "shiftlock.theworker02.io/transfer-status".
Definition annDrain := "shiftlock.theworker02.io/drain-status".
Definition annReason := "shiftlock.theworker02.io/reason".
Definition annVersion := "shiftlock.theworker02.io/version".
Definition annAcquired := "shiftlock.theworker02.io/acquired-at".

(** ** Leases and records *)

Definition recordFromLease (claim : string) (l : LeaseObject) : KRecord :=
  let ann k := default "" (l_Ann l !! k) in
  let phase :=
    if bool_decide (ann annPhase = "") then
      if bool_decide (l_Holder l = "") then unowned else owned
    else ann annPhase in
  let acquired := if bool_decide (ann annAcquired = "") then time_zero else Unix (scan_i64 (ann annAcquired)) in
  mkK claim (l_Holder l) (scan_u64 (ann annToken)) phase acquired
    (Add (l_RenewTime l) (l_Duration l * Second)) (ann annPrev) (ann annSuccessor) (ann annDrain)
    (ann annTransfer) (l_RenewTime l) (ann annReason) (scan_u64 (ann annVersion)).

(** [int32(ttl / time.Second)], at least 15 when that is not positive. *)
Definition i32 (z : Z) : Z := (z + 2 ^ 31) mod 2 ^ 32 - 2 ^ 31.

Definition lease_seconds (ttl : Duration) : Z :=
  let d := i32 (Z.quot ttl Second) in if bool_decide (d <= 0) then 15 else d.

Definition applyRecord (l : LeaseObject) (rec : KRecord) (ttl : Duration) (now : Time) : LeaseObject :=
  let acquired := if IsZero (k_AcquiredAt rec) then now else k_AcquiredAt rec in
  mkLease (l_Name l) (k_Owner rec) (lease_seconds ttl) acquired now (l_RV l)
    (l_Ann l |> <[annToken := fmt_d (k_Token rec)]> |> <[annPhase := k_Phase rec]>
             |> <[annPrev := k_Previous rec]> |> <[annSuccessor := k_Successor rec]>
             |> <[annTransfer := k_Transfer rec]> |> <[annDrain := k_Drain rec]>
             |> <[annReason := k_Reason rec]> |> <[annVersion := fmt_d (k_Version rec)]>
             |> <[annAcquired := fmt_i (UnixNano acquired)]>).

(** ** Programs *)

Inductive prog (A : Type) : Type :=
| Ret (a : A)
| CGet (name : string) (k : error + LeaseObject -> prog A)
| CCreate (l : LeaseObject) (k : error + LeaseObject -> prog A)
| CUpdate (l : LeaseObject) (k : error + LeaseObject -> prog A)
| Now (k : Time -> prog A)
| Recall (id : string) (k : option KResult -> prog A)
| StoreOp (id : string) (r : KResult) (k : prog A).

Arguments Ret {A}. Arguments CGet {A}. Arguments CCreate {A}. Arguments CUpdate {A}.
Arguments Now {A}. Arguments Recall {A}. Arguments StoreOp {A}.

Fixpoint bind {A B} (p : prog A) (f : A -> prog B) : prog B :=
  match p with
  | Ret a => f a
  | CGet n k => CGet n (fun r => bind (k r) f)
  | CCreate l k => CCreate l (fun r => bind (k r) f)
  | CUpdate l k => CUpdate l (fun r => bind (k r) f)
  | Now k => Now (fun t => bind (k t) f)
  | Recall id k => Recall id (fun r => bind (k r) f)
  | StoreOp id r k => StoreOp id r (bind k f)
  end.

Declare Scope prog_scope.
Delimit Scope prog_scope with prog.
Notation "x <- c ;; p" := (bind c (fun x => p)) (at level 100, c at next level, right associativity) : prog_scope.
#[local] Open Scope prog_scope.

(** The single calls. *)
Definition get (name : string) : prog (error + LeaseObject) := CGet name Ret.
Definition create (l : LeaseObject) : prog (error + LeaseObject) := CCreate l Ret.
Definition update (l : LeaseObject) : prog (error + LeaseObject) := CUpdate l Ret.
Definition now : prog Time := Now Ret.

(** ** Handlers *)

Definition isConflict (err : error) : bool :=
  contains_sub "conflict" (base_text err) || contains_sub "Conflict" (base_text err).

Section Handlers.
Context (prefix : string).

Definition leaseName (claim : string) : string := prefix +:+ claim.

Definition empty_lease (name : string) : LeaseObject :=
  mkLease name "" 0 time_zero time_zero "" (<[annPhase := unowned]> (<[annToken := "0"]> ∅)).

(** Get the lease, or create it, or get it again. *)
Definition find_lease (claim : string) : prog (error + LeaseObject) :=
  l <- get (leaseName claim);;
  match l with
  | inr l => Ret (inr l)
  | inl _ =>
    l <- create (empty_lease (leaseName claim));;
    match l with
    | inr l => Ret (inr l)
    | inl _ => get (leaseName claim)
    end
  end.

Definition expired_record (rec : KRecord) : KRecord :=
  mkK (k_Name rec) "" (k_Token rec) unowned (k_AcquiredAt rec) (k_ExpiresAt rec) (k_Owner rec) ""
    (k_Drain rec) (k_Transfer rec) (k_Heartbeat rec) "expired" (u64 (k_Version rec + 1)).

(** [applyRecord] and [client.Update]. *)
Definition write_record (l : LeaseObject) (rec : KRecord) (ttl : Duration) : prog (error + LeaseObject) :=
  t <- now;; update (applyRecord l rec ttl t).

Definition getOrCreate (claim : string) : prog (error + LeaseObject * KRecord) :=
  l <- find_lease claim;;
  match l with
  | inl e => Ret (inl e)
  | inr l =>
    let rec := recordFromLease claim l in
    if IsZero (k_ExpiresAt rec) then Ret (inr (l, rec))
    else
      t <- now;;
      if After t (k_ExpiresAt rec) && is_held (k_Phase rec) then
        l <- write_record l (expired_record rec) (15 * Second);;
        match l with
        | inl e => Ret (inl e)
        | inr l => Ret (inr (l, recordFromLease claim l))
        end
      else Ret (inr (l, rec))
  end.

Definition GetClaim (claim : string) : prog KResult :=
  r <- getOrCreate claim;;
  match r with
  | inl e => Ret (None, Some e)
  | inr (_, rec) => Ret (Some rec, None)
  end.

(** [b.storeOp(id, rec, err)] and return. *)
Definition store_ret (id : string) (r : KResult) : prog KResult := StoreOp id r (Ret r).

(** The common beginning: a stored result is returned as it is. *)
Definition recalled (id : string) (p : prog KResult) : prog KResult :=
  Recall id (fun r => match r with Some r => Ret r | None => p end).

Definition with_claim (claim : string) (f : LeaseObject -> KRecord -> prog KResult) : prog KResult :=
  r <- getOrCreate claim;;
  match r with
  | inl e => Ret (None, Some e)
  | inr (l, rec) => f l rec
  end.

(** The common end: write, read the record back from the answer, store it. *)
Definition commit_record (claim id : string) (l : LeaseObject) (rec : KRecord) (ttl : Duration)
  (on_error : error -> error) : prog KResult :=
  r <- write_record l rec ttl;;
  match r with
  | inl e => Ret (None, Some (on_error e))
  | inr l => store_ret id (Some (recordFromLease claim l), None)
  end.

Definition renewed (rec : KRecord) : KRecord :=
  mkK (k_Name rec) (k_Owner rec) (k_Token rec) (k_Phase rec) (k_AcquiredAt rec) (k_ExpiresAt rec)
    (k_Previous rec) (k_Successor rec) (k_Drain rec) (k_Transfer rec) (k_Heartbeat rec) "renewed"
    (u64 (k_Version rec + 1)).

Definition fail (e : error) : prog KResult := Ret (None, Some e).

Definition AcquireClaim (req : AcquireRequest) : prog KResult :=
  let id := acq_OperationID req in
  let on_error e := if isConflict e then Sentinel ErrClaimHeld else e in
  recalled id (with_claim (acq_ClaimName req) (fun l rec =>
    if is_held (k_Phase rec) then
      if bool_decide (k_Owner rec = acq_GenerationID req)
      then commit_record (acq_ClaimName req) id l (renewed rec) (acq_TTL req) on_error
      else store_ret id (Some rec, Some (Sentinel ErrClaimHeld))
    else if bool_decide (MaxSafeFencingToken <= k_Token rec)
    then store_ret id (None, Some (Sentinel ErrTokenOverflow))
    else
      t <- now;;
      let rec := mkK (k_Name rec) (acq_GenerationID req) (u64 (k_Token rec + 1)) owned t (k_ExpiresAt rec)
        (k_Owner rec) "" "" "" (k_Heartbeat rec) "acquired" (u64 (k_Version rec + 1)) in
      commit_record (acq_ClaimName req) id l rec (acq_TTL req) on_error)).

Definition RenewClaim (req : RenewRequest) : prog KResult :=
  let id := ren_OperationID req in
  recalled id (with_claim (ren_ClaimName req) (fun l rec =>
    if negb (bool_decide (k_Owner rec = ren_GenerationID req)) then fail ErrNotOwner
    else if negb (bool_decide (k_Token rec = ren_Token req)) then fail ErrStaleToken
    else if negb (is_held (k_Phase rec)) then fail ErrNotOwner
    else commit_record (ren_ClaimName req) id l (renewed rec) (ren_TTL req) (fun e => e))).

Definition PrepareTransfer (req : TransferRequest) : prog KResult :=
  let id := tr_OperationID req in
  recalled id (with_claim (tr_ClaimName req) (fun l rec =>
    if negb (bool_decide (k_Owner rec = tr_FromGeneration req)) then fail ErrNotOwner
    else if negb (bool_decide (k_Token rec = tr_Token req)) then fail ErrStaleToken
    else if bool_decide (k_Phase rec = reserved) && negb (bool_decide (k_Successor rec = ""))
            && negb (bool_decide (k_Successor rec = tr_ToGeneration req)) then fail ErrConcurrentTransfer
    else if bool_decide (k_Phase rec = reserved) && bool_decide (k_Successor rec = tr_ToGeneration req)
    then store_ret id (Some rec, None)
    else
      let rec := mkK (k_Name rec) (k_Owner rec) (k_Token rec) reserved (k_AcquiredAt rec) (k_ExpiresAt rec)
        (k_Previous rec) (tr_ToGeneration req) "complete" "prepared" (k_Heartbeat rec) "transfer_prepared"
        (u64 (k_Version rec + 1)) in
      commit_record (tr_ClaimName req) id l rec (tr_TTL req) (fun e => e))).

Definition CommitTransfer (req : CommitRequest) : prog KResult :=
  let id := com_OperationID req in
  recalled id (with_claim (com_ClaimName req) (fun l rec =>
    if bool_decide (k_Phase rec = owned) && bool_decide (k_Owner rec = com_ToGeneration req)
       && bool_decide (k_Token rec = u64 (com_ExpectedToken req + 1)) && bool_decide (k_Transfer rec = "committed")
    then store_ret id (Some rec, None)
    else if negb (bool_decide (k_Phase rec = reserved)) then fail ErrNoTransfer
    else if negb (bool_decide (k_Owner rec = com_FromGeneration req))
            || negb (bool_decide (k_Successor rec = com_ToGeneration req)) then fail ErrConcurrentTransfer
    else if negb (bool_decide (k_Token rec = com_ExpectedToken req)) then fail ErrStaleToken
    else if bool_decide (MaxSafeFencingToken <= k_Token rec)
    then store_ret id (None, Some (Sentinel ErrTokenOverflow))
    else
      t <- now;;
      let rec := mkK (k_Name rec) (com_ToGeneration req) (u64 (k_Token rec + 1)) owned t (k_ExpiresAt rec)
        (k_Owner rec) "" "" "committed" (k_Heartbeat rec) "transfer_committed" (u64 (k_Version rec + 1)) in
      commit_record (com_ClaimName req) id l rec (com_TTL req) (fun e => e))).

Definition AbortTransfer (req : AbortRequest) : prog KResult :=
  let id := ab_OperationID req in
  recalled id (with_claim (ab_ClaimName req) (fun l rec =>
    if negb (bool_decide (k_Phase rec = reserved)) then
      if bool_decide (k_Owner rec = ab_FromGeneration req) && bool_decide (k_Phase rec = owned)
      then store_ret id (Some rec, None) else fail ErrNoTransfer
    else if negb (bool_decide (k_Token rec = ab_ExpectedToken req)) then fail ErrStaleToken
    else if negb (bool_decide (k_Owner rec = ab_FromGeneration req)) then fail ErrNotOwner
    else
      let rec := mkK (k_Name rec) (k_Owner rec) (k_Token rec) owned (k_AcquiredAt rec) (k_ExpiresAt rec)
        (k_Previous rec) "" (k_Drain rec) "aborted" (k_Heartbeat rec) "transfer_aborted"
        (u64 (k_Version rec + 1)) in
      commit_record (ab_ClaimName req) id l rec (15 * Second) (fun e => e))).

(** A failed write is stored too. *)
Definition ReleaseClaim (req : ReleaseRequest) : prog KResult :=
  let id := rel_OperationID req in
  recalled id (with_claim (rel_ClaimName req) (fun l rec =>
    if negb (bool_decide (k_Token rec = rel_Token req)) then fail ErrStaleToken
    else if negb (bool_decide (k_Owner rec = rel_GenerationID req)) then
      if bool_decide (k_Phase rec = unowned) then store_ret id (None, None) else fail ErrNotOwner
    else
      let rec := mkK (k_Name rec) "" (k_Token rec) unowned (k_AcquiredAt rec) (k_ExpiresAt rec)
        (k_Owner rec) "" "" "" (k_Heartbeat rec) "released" (u64 (k_Version rec + 1)) in
      r <- write_record l rec (15 * Second);;
      match r with
      | inl e => store_ret id (None, Some e)
      | inr _ => store_ret id (None, None)
      end)).

Definition handler (rq : Request) : prog KResult :=
  match rq with
  | RqAcquire r => AcquireClaim r | RqRenew r => RenewClaim r | RqPrepare r => PrepareTransfer r
  | RqCommit r => CommitTransfer r | RqAbort r => AbortTransfer r | RqRelease r => ReleaseClaim r
  end.

(** [ForceSetToken], for tests. *)
Definition ForceSetToken (claim : string) (tok : Z) : prog unit :=
  t <- now;;
  let l := applyRecord (mkLease (leaseName claim) "" 0 time_zero time_zero "" ∅)
    (mkK claim "" tok unowned time_zero time_zero "" "" "" "" time_zero "" 0) (15 * Second) t in
  existing <- get (leaseName claim);;
  match existing with
  | inr ex => _ <- update (with_RV (l_RV ex) l);; Ret tt
  | inl _ => _ <- create l;; Ret tt
  end.
End Handlers.

(** ** The process's own state *)

Record Backend := mkBackend { b_gens : gmap string Generation; b_ops : gmap string KResult }.

Definition New : Backend := mkBackend ∅ ∅.

Definition RegisterGeneration (gen : Generation) (b : Backend) : Backend :=
  mkBackend (<[ID gen := gen]> (b_gens b)) (b_ops b).

Definition UpdateGeneration : Generation -> Backend -> Backend := RegisterGeneration.

Definition GetGeneration (id : string) (b : Backend) : error + Generation :=
  match b_gens b !! id with Some g => inr g | None => inl (Sentinel ErrGenerationNotFound) end.

Definition recallOp (id : string) (b : Backend) : option KResult :=
  if Empty id then None else b_ops b !! id.

Definition storeOp (id : string) (r : KResult) (b : Backend) : Backend :=
  if Empty id then b else mkBackend (b_gens b) (<[id := r]> (b_ops b)).

(** One tick of the goroutine of [WatchClaim]: [last] is the version last seen,
    [buf] the channel of capacity 8. *)
Definition watch_tick (prefix claim : string) (last : Z) (buf : list KRecord) : prog (Z * list KRecord) :=
  r <- GetClaim prefix claim;;
  match r with
  | (Some rec, None) =>
    if bool_decide (k_Version rec = last) then Ret (last, buf)
    else Ret (k_Version rec, if bool_decide (length buf < 8)%nat then buf ++ [rec] else buf)
  | _ => Ret (last, buf)
  end.

Definition kube_Capabilities : Capabilities := mkCapabilities true true true true true true true MaxSafeFencingToken.

(** ** The API server *)

Class LeaseClient (W : Type) := {
  lc_Get : string -> W -> W * (error + LeaseObject);
  lc_Create : LeaseObject -> W -> W * (error + LeaseObject);
  lc_Update : LeaseObject -> W -> W * (error + LeaseObject) }.

(** What Kubernetes documents of optimistic concurrency.  [lc_view] is the stored
    lease of a name and [lc_used] the resource versions a name has had.  A write
    gives the lease a version it never had; an update with a version goes through
    only when the stored lease still has it.  A call may fail, also after it has
    taken effect. *)
Inductive wrote {W} (view : W -> string -> option LeaseObject) (used : W -> string -> string -> Prop)
  (w w' : W) (l : LeaseObject) (r : error + LeaseObject) : Prop :=
| wrote_as v :
    v ≠ "" -> ~ used w (l_Name l) v -> used w' (l_Name l) v ->
    view w' (l_Name l) = Some (with_RV v l) ->
    (forall n, n ≠ l_Name l -> view w' n = view w n) ->
    (forall l', r = inr l' -> l' = with_RV v l) ->
    wrote view used w w' l r.

Class LeaseLaws (W : Type) `{!LeaseClient W} := {
  lc_inv : W -> Prop;
  lc_view : W -> string -> option LeaseObject;
  lc_used : W -> string -> string -> Prop;
  lc_stored w n l : lc_inv w -> lc_view w n = Some l -> l_Name l = n /\ l_RV l ≠ "" /\ lc_used w n (l_RV l);
  lc_get w n w' r : lc_inv w -> lc_Get n w = (w', r) ->
    lc_inv w' /\ (forall m, lc_view w' m = lc_view w m) /\ (forall m v, lc_used w m v -> lc_used w' m v) /\
    (forall l, r = inr l -> lc_view w n = Some l);
  lc_create w l w' r : lc_inv w -> lc_Create l w = (w', r) ->
    lc_inv w' /\ (forall m v, lc_used w m v -> lc_used w' m v) /\
    ((forall m, lc_view w' m = lc_view w m) /\ (exists e, r = inl e) \/
     lc_view w (l_Name l) = None /\ wrote lc_view lc_used w w' l r);
  lc_update w l w' r : lc_inv w -> lc_Update l w = (w', r) ->
    lc_inv w' /\ (forall m v, lc_used w m v -> lc_used w' m v) /\
    ((forall m, lc_view w' m = lc_view w m) /\ (exists e, r = inl e) \/
     (exists cur, lc_view w (l_Name l) = Some cur /\ (l_RV l = "" \/ l_RV l = l_RV cur)) /\
     wrote lc_view lc_used w w' l r) }.

(** ** Running a program undisturbed, with a clock that reads [t], [t+1], ... *)
Section Run.
Context {W : Type} `{!LeaseClient W}.

Fixpoint run {A} (p : prog A) (t : Time) (b : Backend) (w : W) : A * Time * Backend * W :=
  match p with
  | Ret a => (a, t, b, w)
  | CGet n k => let '(w, r) := lc_Get n w in run (k r) t b w
  | CCreate l k => let '(w, r) := lc_Create l w in run (k r) t b w
  | CUpdate l k => let '(w, r) := lc_Update l w in run (k r) t b w
  | Now k => run (k t) (t + 1) b w
  | Recall id k => run (k (recallOp id b)) t b w
  | StoreOp id r k => run k t (storeOp id r b) w
  end.
End Run.

(** ** [MemoryLeaseClient]

    The counter of versions is not wrapped. *)
Record MemoryLeaseClient := mkClient { m_leases : gmap string LeaseObject; m_rv : N }.

Definition NewMemoryLeaseClient : MemoryLeaseClient := mkClient ∅ 0.

Definition Client_Get (name : string) (m : MemoryLeaseClient) : MemoryLeaseClient * (error + LeaseObject) :=
  match m_leases m !! name with
  | Some l => (m, inr l)
  | None => (m, inl (TextErr "not found"))
  end.

(** Store under the next version. *)
Definition client_put (l : LeaseObject) (m : MemoryLeaseClient) : MemoryLeaseClient * (error + LeaseObject) :=
  let rv := (m_rv m + 1)%N in
  let cp := with_RV (pretty rv) l in
  (mkClient (<[l_Name l := cp]> (m_leases m)) rv, inr cp).

Definition Client_Create (l : LeaseObject) (m : MemoryLeaseClient) : MemoryLeaseClient * (error + LeaseObject) :=
  match m_leases m !! l_Name l with
  | Some _ => (m, inl (TextErr "exists"))
  | None => client_put l m
  end.

Definition Client_Update (l : LeaseObject) (m : MemoryLeaseClient) : MemoryLeaseClient * (error + LeaseObject) :=
  match m_leases m !! l_Name l with
  | None => (m, inl (TextErr "not found"))
  | Some cur =>
    if negb (bool_decide (l_RV l = "")) && negb (bool_decide (l_RV l = l_RV cur))
    then (m, inl (TextErr "conflict"))
    else client_put l m
  end.

Definition Client_Delete (name : string) (m : MemoryLeaseClient) : MemoryLeaseClient :=
  mkClient (delete name (m_leases m)) (m_rv m).

#[global] Instance memory_client : LeaseClient MemoryLeaseClient := {|
  lc_Get := Client_Get; lc_Create := Client_Create; lc_Update := Client_Update |}.

Definition client_used (m : MemoryLeaseClient) (_ : string) (v : string) : Prop :=
  exists k : N, (k <= m_rv m)%N /\ v = pretty k.

Definition client_inv (m : MemoryLeaseClient) : Prop :=
  map_Forall (fun n l => l_Name l = n /\ l_RV l ≠ "" /\ client_used m n (l_RV l)) (m_leases m).

Lemma pretty_N_nonempty (k : N) : pretty k ≠ "".
Proof.
  destruct (decide (k = 0%N)) as [->|Hk]; [done |]. intros E.
  assert (pretty k = pretty 0%N) as E'%(inj _); [|done].
  exfalso. revert E. unfold pretty, pretty_N. rewrite decide_False by done.
  intros E. apply (f_equal String.length) in E. revert E.
  rewrite pretty_N_go_step by lia.
  assert (forall x s, (String.length s <= String.length (pretty_N_go x s))%nat) as Hm.
  { clear. induction x as [x IH] using (well_founded_induction N.lt_wf_0). intros s.
    destruct (decide (0 < x)%N) as [Hx|Hx].
    - rewrite pretty_N_go_step by done. pose proof (N.div_lt x 10 Hx ltac:(done)) as Hlt.
      specialize (IH _ Hlt (String (pretty_N_char (x `mod` 10)) s)). simpl in IH. lia.
    - replace x with 0%N by lia. by rewrite pretty_N_go_0. }
  specialize (Hm (k `div` 10)%N (String (pretty_N_char (k `mod` 10)) "")). simpl in Hm |- *. lia.
Qed.

Lemma client_put_wrote l m m' r :
  client_inv m -> client_put l m = (m', r) ->
  client_inv m' /\ (forall n v, client_used m n v -> client_used m' n v) /\
  wrote (fun m n => m_leases m !! n) client_used m m' l r.
Proof.
  intros Hi [= <- <-]. assert (forall n v, client_used m n v ->
    client_used (mkClient (<[l_Name l := with_RV (pretty (m_rv m + 1)%N) l]> (m_leases m)) (m_rv m + 1)) n v) as Hu.
  { intros n v (k & Hk & ->). exists k. simpl. split; [lia | done]. }
  split; [|split; [done |]].
  - apply map_Forall_insert_2.
    + simpl. split; [done |]. split; [apply pretty_N_nonempty |]. exists (m_rv m + 1)%N. simpl. split; [lia | done].
    + intros n l' E. destruct (Hi n l' E) as (H1 & H2 & H3). auto.
  - apply (wrote_as _ _ _ _ _ _ (pretty (m_rv m + 1)%N)).
    + apply pretty_N_nonempty.
    + intros (k & Hk & E%(inj _)). lia.
    + exists (m_rv m + 1)%N. simpl. split; [lia | done].
    + simpl. by rewrite lookup_insert_eq.
    + intros n Hn. simpl. by rewrite lookup_insert_ne.
    + by intros l' [= <-].
Qed.

#[global] Instance memory_client_laws : LeaseLaws MemoryLeaseClient.
Proof.
  refine {| lc_inv := client_inv; lc_view := fun m n => m_leases m !! n; lc_used := client_used |}.
  - intros m n l Hi E. by destruct (Hi n l E).
  - intros m n m' r Hi. simpl. unfold Client_Get. destruct (m_leases m !! n) eqn:E; intros [= <- <-];
      (split; [done |]); (split; [done |]); (split; [done |]); intros l' [= <-]. done.
  - intros m l m' r Hi. simpl. unfold Client_Create. destruct (m_leases m !! l_Name l) eqn:E.
    + intros [= <- <-]. split; [done |]. split; [done |]. left. split; [done | by eexists].
    + intros (H1 & H2 & H3)%client_put_wrote; [|done]. auto.
  - intros m l m' r Hi. simpl. unfold Client_Update. destruct (m_leases m !! l_Name l) as [cur|] eqn:E.
    + destruct (_ && _) eqn:Ev.
      * intros [= <- <-]. split; [done |]. split; [done |]. left. split; [done | by eexists].
      * intros (H1 & H2 & H3)%client_put_wrote; [|done]. split; [done |]. split; [done |]. right. split; [|done].
        exists cur. split; [done |]. apply andb_false_iff in Ev as [Ev|Ev]; apply negb_false_iff, bool_decide_eq_true in Ev; auto.
    + intros [= <- <-]. split; [done |]. split; [done |]. left. split; [done | by eexists].
Defined.

(** ** Examples *)

Definition demo_acquire (gen op : string) : AcquireRequest := mkAcquire "leader" gen (20 * Second) false op.

Example kube_demo :
  let '(r1, t, b, w) := run (AcquireClaim "sl-" (demo_acquire "a" "op1")) (unix_epoch + 7) New NewMemoryLeaseClient in
  let '(r2, t, b, w) := run (AcquireClaim "sl-" (demo_acquire "b" "op2")) t b w in
  let '(r3, t, b, w) := run (PrepareTransfer "sl-" (mkTransfer "leader" "a" "b" 1 0 "op3")) t b w in
  let '(r4, t, b, w) := run (CommitTransfer "sl-" (mkCommit "leader" "a" "b" 1 0 "op4")) t b w in
  (k_Owner <$> r1.1, r2.2, k_Phase <$> r3.1, (fun r => (k_Owner r, k_Token r)) <$> r4.1) =
  (Some "a", Some (Sentinel ErrClaimHeld), Some "reserved", Some ("b", 2)).
Proof. vm_compute. reflexivity. Qed.

(** ** Safety of the Kubernetes backend

    Any number of processes run the handlers of [Kubernetes] against one API
    server.  Their calls interleave one by one, calls fail, also after they took
    effect, and clocks read anything.  A program is [safe] when every update it
    sends replaces a lease it has read by one the specification of [BackendSpec]
    allows to follow; resource versions make sure that lease is still the stored
    one. *)

(** ** Cells of leases *)

Definition lease_cell (l : LeaseObject) : cell := record_cell (recordFromLease "" l).

Definition lease_wf (l : LeaseObject) : Prop :=
  known_phase (k_Phase (recordFromLease "" l)) /\ cell_wf (lease_cell l).

Lemma record_cell_name claim l : record_cell (recordFromLease claim l) = lease_cell l.
Proof. done. Qed.

(** Writing a record into a lease and reading it back. *)
Lemma record_of_apply claim l rec ttl now :
  is_u64 (k_Token rec) -> is_u64 (k_Version rec) -> k_Phase rec ≠ "" ->
  recordFromLease claim (applyRecord l rec ttl now) =
    mkK claim (k_Owner rec) (k_Token rec) (k_Phase rec)
      (Unix (UnixNano (if IsZero (k_AcquiredAt rec) then now else k_AcquiredAt rec)))
      (now + lease_seconds ttl * Second) (k_Previous rec) (k_Successor rec) (k_Drain rec) (k_Transfer rec)
      now (k_Reason rec) (k_Version rec).
Proof.
  intros Ht Hv Hp. unfold recordFromLease, applyRecord. cbn [l_Ann l_Holder l_RenewTime l_Duration].
  set (acq := if IsZero (k_AcquiredAt rec) then now else k_AcquiredAt rec).
  repeat first [rewrite lookup_insert_eq | rewrite lookup_insert_ne by done]. cbn [default from_option id].
  rewrite !scan_fmt_u64 by done. rewrite (bool_decide_eq_false_2 (k_Phase rec = "")) by done.
  rewrite scan_fmt_i64 by apply i64_range. rewrite bool_decide_eq_false_2; [done |].
  unfold fmt_i. case_bool_decide; [done |].
  destruct (fmt_d_first (UnixNano acq)) as (c & s & -> & _); [|done].
  pose proof (i64_range (acq - unix_epoch)). unfold is_u64, u64_modulus, is_i64, UnixNano in *. lia.
Qed.

(** ** Safe programs *)

Section Safe.
Context (prefix : string).

(** A lease as the server hands it out. *)
Definition served (name : string) (l : LeaseObject) : Prop :=
  l_Name l = name /\ l_RV l ≠ "" /\ lease_wf l.

(** [l] may replace [l0] under the version [l0] has. *)
Record allowed (l0 l : LeaseObject) : Prop := mkAllowed {
  al_name : l_Name l = l_Name l0;
  al_version : l_RV l = l_RV l0;
  al_phase : known_phase (k_Phase (recordFromLease "" l));
  al_cell : cell_trans (lease_cell l0) (lease_cell l) }.

(** Every record a result carries was read from one of the leases [K]. *)
Definition result_from (K : list LeaseObject) (r : KResult) : Prop :=
  forall rec, r.1 = Some rec -> exists l, l ∈ K /\ l_Name l = leaseName prefix (k_Name rec) /\
    rec = recordFromLease (k_Name rec) l.

(** [safe Q K p]: with the leases [K] known to have been stored, [p] only creates
    empty leases, only updates a lease it knows to one that may follow it, only
    stores results it knows, and returns in [Q]. *)
Inductive safe {A} (Q : list LeaseObject -> A -> Prop) (K : list LeaseObject) : prog A -> Prop :=
| safe_ret a : Q K a -> safe Q K (Ret a)
| safe_get n k :
    (forall e, safe Q K (k (inl e))) -> (forall l, served n l -> safe Q (l :: K) (k (inr l))) ->
    safe Q K (CGet n k)
| safe_create n k :
    (forall e, safe Q K (k (inl e))) ->
    (forall v, v ≠ "" -> safe Q (with_RV v (empty_lease n) :: K) (k (inr (with_RV v (empty_lease n))))) ->
    safe Q K (CCreate (empty_lease n) k)
| safe_update l0 l k :
    l0 ∈ K -> l_RV l0 ≠ "" -> allowed l0 l ->
    (forall e, safe Q K (k (inl e))) ->
    (forall v, v ≠ "" -> safe Q (with_RV v l :: K) (k (inr (with_RV v l)))) ->
    safe Q K (CUpdate l k)
| safe_now k : (forall t, safe Q K (k t)) -> safe Q K (Now k)
| safe_recall id k :
    safe Q K (k None) -> (forall r L, result_from L r -> safe Q (L ++ K) (k (Some r))) ->
    safe Q K (Recall id k)
| safe_store id r k : result_from K r -> safe Q K k -> safe Q K (StoreOp id r k).

Lemma safe_bind {A B} (Q : _ -> A -> Prop) (R : _ -> B -> Prop) K p f :
  safe Q K p -> (forall a K', K ⊆ K' -> Q K' a -> safe R K' (f a)) -> safe R K (bind p f).
Proof.
  induction 1 as [K a Hq|K n k _ IH1 _ IH2|K n k _ IH1 _ IH2|K l0 l k Hin Hv Ha _ IH1 _ IH2|K k _ IH
    |K id k _ IH1 _ IH2|K id r k Hr _ IH]; intros Hf; simpl.
  - by apply Hf.
  - apply safe_get; [auto |]. intros l Hl. apply IH2; [done |]. intros a K' Hs. apply Hf. set_solver.
  - apply safe_create; [auto |]. intros v Hv. apply IH2; [done |]. intros a K' Hs. apply Hf. set_solver.
  - eapply safe_update; [done | done | done | auto |]. intros v Hv'. apply IH2; [done |].
    intros a K' Hs. apply Hf. set_solver.
  - apply safe_now. auto.
  - apply safe_recall; [auto |]. intros r L Hr. apply IH2; [done |]. intros a K' Hs. apply Hf. set_solver.
  - apply safe_store; auto.
Qed.

Lemma result_from_lease K l claim e :
  l ∈ K -> l_Name l = leaseName prefix claim -> result_from K (Some (recordFromLease claim l), e).
Proof. intros Hl Hn rec [= <-]. exists l. done. Qed.

Lemma result_from_none K e : result_from K (None, e).
Proof. by intros rec. Qed.

Lemma empty_lease_served n v : v ≠ "" -> served n (with_RV v (empty_lease n)).
Proof. intros Hv. split; [done |]. split; [done |]. split; [by left |]. apply cell0_wf. Qed.

(** ** The pieces of the handlers *)

(** What [getOrCreate] and the handlers that use it know of the lease. *)
Definition found (claim : string) (K : list LeaseObject) (l : LeaseObject) : Prop :=
  l ∈ K /\ served (leaseName prefix claim) l.

Lemma find_lease_safe claim K :
  safe (fun K r => match r with inl _ => True | inr l => found claim K l end) K (find_lease prefix claim).
Proof.
  unfold find_lease, get, create. simpl. apply safe_get.
  - intros _. apply safe_create.
    + intros _. apply safe_get; [by constructor |]. intros l Hl. constructor. split; [set_solver | done].
    + intros v Hv. constructor. split; [set_solver | by apply empty_lease_served].
  - intros l Hl. constructor. split; [set_solver | done].
Qed.

(** The next record is one the specification allows. *)
Record next_record (l : LeaseObject) (rec : KRecord) : Prop := mkNext {
  nx_phase : known_phase (k_Phase rec);
  nx_version : is_u64 (k_Version rec);
  nx_cell : cell_trans (lease_cell l) (record_cell rec) }.

Lemma cell_wf_u64 c : cell_wf c -> is_u64 (c_token c).
Proof. intros [H _ _ _ _]. rewrite MaxSafe_value in H. unfold is_u64, u64_modulus in *. lia. Qed.

Lemma apply_allowed l rec ttl t :
  lease_wf l -> next_record l rec ->
  allowed l (applyRecord l rec ttl t) /\ lease_wf (applyRecord l rec ttl t) /\
  lease_cell (applyRecord l rec ttl t) = record_cell rec.
Proof.
  intros [_ Hw] [Hp Hv Hc]. assert (cell_wf (record_cell rec)) as Hw' by by eapply cell_trans_wf.
  assert (lease_cell (applyRecord l rec ttl t) = record_cell rec /\
    k_Phase (recordFromLease "" (applyRecord l rec ttl t)) = k_Phase rec) as [Ec Ep].
  { unfold lease_cell. rewrite record_of_apply; [done | by apply (cell_wf_u64 (record_cell rec)) | done |].
    by apply known_phase_nonempty. }
  split; [|split; [|done]].
  - split; [done | done | by rewrite Ep | by rewrite Ec].
  - split; [by rewrite Ep | by rewrite Ec].
Qed.

Lemma write_record_safe claim K l rec ttl :
  found claim K l -> next_record l rec ->
  safe (fun K r => match r with inl _ => True | inr l => found claim K l end) K (write_record l rec ttl).
Proof.
  intros [Hin (Hn & Hv & Hw)] Hx. unfold write_record, now, update. simpl. apply safe_now. intros t.
  destruct (apply_allowed l rec ttl t Hw Hx) as (Ha & Hw' & _).
  eapply safe_update; [done | done | done | by constructor |].
  intros v Hv'. constructor. split; [set_solver |]. split; [done |]. split; [done |]. exact Hw'.
Qed.

Lemma getOrCreate_safe claim K :
  safe (fun K r => match r with
    | inl _ => True
    | inr (l, rec) => found claim K l /\ rec = recordFromLease claim l
    end) K (getOrCreate prefix claim).
Proof.
  unfold getOrCreate. eapply safe_bind; [apply find_lease_safe |]. intros [e|l] K' _ Hl; [by constructor |].
  cbv zeta. destruct (IsZero _); [by constructor |]. unfold now. cbn [bind]. apply safe_now. intros t.
  destruct (After _ _ && is_held _) eqn:E; [|by constructor].
  apply andb_true_iff in E as [_ Hh]. pose proof Hl as (_ & _ & _ & Hp & _).
  eapply safe_bind; [apply (write_record_safe claim); [done |] |].
  - split; [by left | apply u64_range |]. exists EvExpire.
    apply (cell_expire (lease_cell l)). unfold held, lease_cell, record_cell. cbn [c_phase].
    change (k_Phase (recordFromLease claim l)) with (k_Phase (recordFromLease "" l)) in Hh.
    rewrite is_held_phase in Hh by done. by apply bool_decide_eq_true in Hh.
  - intros [e|l'] K'' _ Hl'; by constructor.
Qed.

Lemma result_from_mono K K' r : K ⊆ K' -> result_from K r -> result_from K' r.
Proof. intros Hs Hr rec E. destruct (Hr rec E) as (l & Hl & H). exists l. split; [by apply Hs | done]. Qed.

Lemma recalled_safe id p K : safe result_from K p -> safe result_from K (recalled id p).
Proof.
  intros Hp. apply safe_recall; [done |]. intros r L Hr. constructor. eapply result_from_mono; [|done]. set_solver.
Qed.

Lemma with_claim_safe claim f K :
  (forall l K', found claim K' l -> safe result_from K' (f l (recordFromLease claim l))) ->
  safe result_from K (with_claim prefix claim f).
Proof.
  intros Hf. unfold with_claim. eapply safe_bind; [apply getOrCreate_safe |].
  intros [e|[l rec]] K' _; [constructor; apply result_from_none |]. intros [Hl ->]. by apply Hf.
Qed.

Lemma store_ret_safe id r K : result_from K r -> safe result_from K (store_ret id r).
Proof. intros Hr. apply safe_store; [done |]. by constructor. Qed.

Lemma commit_record_safe claim id l rec ttl oe K :
  found claim K l -> next_record l rec -> safe result_from K (commit_record claim id l rec ttl oe).
Proof.
  intros Hl Hx. unfold commit_record. eapply safe_bind; [by apply (write_record_safe claim) |].
  intros [e|l'] K' _; [constructor; apply result_from_none |]. intros [Hin (Hn & _)].
  apply store_ret_safe. by apply result_from_lease.
Qed.

Lemma store_found_safe claim id l e K :
  found claim K l -> safe result_from K (store_ret id (Some (recordFromLease claim l), e)).
Proof. intros [Hin (Hn & _)]. by apply store_ret_safe, result_from_lease. Qed.

Lemma fail_safe e K : safe result_from K (fail e).
Proof. constructor. apply result_from_none. Qed.

(** The record read from a well-formed lease. *)
Lemma found_wf claim K l :
  found claim K l -> known_phase (k_Phase (recordFromLease claim l)) /\ cell_wf (record_cell (recordFromLease claim l)).
Proof. intros (_ & _ & _ & H). exact H. Qed.

Lemma renewed_next claim K l : found claim K l -> next_record l (renewed (recordFromLease claim l)).
Proof.
  intros Hl. destruct (found_wf _ _ _ Hl) as [Hp _]. split; [done | apply u64_range |].
  exists EvStutter. apply (cell_stutter (lease_cell l)).
Qed.
End Safe.

(** Which rules close the leaves of a handler. *)
Create HintDb kube.
#[export] Hint Resolve fail_safe store_found_safe store_ret_safe result_from_none : kube.

Section Handlers.
Context (prefix : string).
Abbreviation safely := (safe prefix (result_from prefix)).

(** [handler_case E]: the condition of the next conditional, decided. *)
Local Ltac branch E :=
  match goal with |- safe _ _ _ (if ?c then _ else _) => destruct c eqn:E end.

Local Ltac use_bool :=
  repeat match goal with
  | H : negb _ = true |- _ => apply negb_true_iff in H
  | H : negb _ = false |- _ => apply negb_false_iff in H
  | H : bool_decide _ = true |- _ => apply bool_decide_eq_true in H
  | H : bool_decide _ = false |- _ => apply bool_decide_eq_false in H
  | H : _ || _ = false |- _ => apply orb_false_iff in H as [? ?]
  | H : _ && _ = true |- _ => apply andb_true_iff in H as [? ?]
  end.

Lemma token_next rec :
  cell_wf (record_cell rec) -> ~ MaxSafeFencingToken <= k_Token rec ->
  k_Token rec < MaxSafeFencingToken /\ u64 (k_Token rec + 1) = k_Token rec + 1.
Proof.
  intros [[H0 _] _ _ _ _] Hm. change (c_token (record_cell rec)) with (k_Token rec) in H0. split; [lia |].
  apply u64_small. rewrite MaxSafe_value in Hm. unfold is_u64. lia.
Qed.

Lemma AcquireClaim_safe req K : acq_GenerationID req ≠ "" -> safely K (AcquireClaim prefix req).
Proof.
  intros Hg. apply recalled_safe, with_claim_safe. intros l K' Hl. destruct (found_wf _ _ _ _ Hl) as [Hp Hw].
  branch Eh; [branch Eo|branch Em]; [| eauto with kube .. |].
  - apply commit_record_safe; [done | by eapply renewed_next].
  - unfold now. cbn [bind]. apply safe_now. intros t. apply commit_record_safe; [done |].
    use_bool. rewrite is_held_phase in Eh by done. use_bool.
    destruct (token_next _ Hw Em) as [Hlt Hn].
    split; [right; by left | apply u64_range |]. exists (EvAcquire (acq_GenerationID req)).
    unfold record_cell. cbn [k_Owner k_Token k_Phase k_Successor]. rewrite Hn.
    apply (cell_acquire (lease_cell l)); [|done | done].
    destruct (decide (phase_of (k_Phase (recordFromLease (acq_ClaimName req) l)) = ClaimUnowned)); tauto.
Qed.

Lemma RenewClaim_safe req K : safely K (RenewClaim prefix req).
Proof.
  apply recalled_safe, with_claim_safe. intros l K' Hl.
  branch Eo; [eauto with kube|]. branch Et; [eauto with kube|]. branch Eh; [eauto with kube|].
  apply commit_record_safe; [done | by eapply renewed_next].
Qed.

Lemma PrepareTransfer_safe req K :
  tr_FromGeneration req ≠ "" -> tr_ToGeneration req ≠ "" -> safely K (PrepareTransfer prefix req).
Proof.
  intros Hf Ht. apply recalled_safe, with_claim_safe. intros l K' Hl. destruct (found_wf _ _ _ _ Hl) as [Hp Hw].
  branch Eo; [eauto with kube|]. branch Et; [eauto with kube|]. branch Ec; [eauto with kube|].
  branch Es; [eauto with kube|]. apply commit_record_safe; [done |]. use_bool.
  split; [right; right; by left | apply u64_range |]. exists (EvReserve (tr_ToGeneration req)).
  apply (cell_reserve (lease_cell l)); [apply (owner_held (recordFromLease (tr_ClaimName req) l) Hw); congruence | | done].
  intros Er. pose proof (wf_reserved _ Hw Er) as Hs. apply phase_reserved in Er.
  change (k_Phase (recordFromLease "" l)) with (k_Phase (recordFromLease (tr_ClaimName req) l)) in Er.
  change (c_succ _) with (k_Successor (recordFromLease (tr_ClaimName req) l)) in Hs.
  rewrite Er in Ec, Es. rewrite (bool_decide_eq_false_2 _ Hs) in Ec. cbn [negb andb] in Ec, Es.
  rewrite (bool_decide_eq_true_2 (reserved = reserved) eq_refl) in Ec, Es. simpl in Ec, Es.
  rewrite Es in Ec. done.
Qed.

Lemma CommitTransfer_safe req K : safely K (CommitTransfer prefix req).
Proof.
  apply recalled_safe, with_claim_safe. intros l K' Hl. destruct (found_wf _ _ _ _ Hl) as [Hp Hw].
  branch Ed; [eauto with kube|]. branch Er; [eauto with kube|]. branch Eo; [eauto with kube|].
  branch Et; [eauto with kube|]. branch Em; [eauto with kube|].
  unfold now. cbn [bind]. apply safe_now. intros t. apply commit_record_safe; [done |]. use_bool.
  destruct (token_next _ Hw Em) as [Hlt Hn].
  split; [right; by left | apply u64_range |]. exists EvCommit.
  unfold record_cell. cbn [k_Owner k_Token k_Phase k_Successor]. rewrite Hn. use_bool.
  assert (k_Successor (recordFromLease (com_ClaimName req) l) = com_ToGeneration req) as <- by assumption.
  apply (cell_commit (lease_cell l)); [|done]. by apply phase_reserved.
Qed.

Lemma AbortTransfer_safe req K : safely K (AbortTransfer prefix req).
Proof.
  apply recalled_safe, with_claim_safe. intros l K' Hl. destruct (found_wf _ _ _ _ Hl) as [Hp Hw].
  branch Er; [branch Eo; eauto with kube|]. branch Et; [eauto with kube|]. branch Eo; [eauto with kube|].
  apply commit_record_safe; [done |]. use_bool.
  split; [right; by left | apply u64_range |]. exists EvAbort.
  apply (cell_abort (lease_cell l)). by apply phase_reserved.
Qed.

Lemma ReleaseClaim_safe req K : rel_GenerationID req ≠ "" -> safely K (ReleaseClaim prefix req).
Proof.
  intros Hg. apply recalled_safe, with_claim_safe. intros l K' Hl. destruct (found_wf _ _ _ _ Hl) as [Hp Hw].
  branch Et; [eauto with kube|]. branch Eo; [branch Eu; eauto with kube|]. use_bool.
  cbv zeta. eapply safe_bind.
  - apply (write_record_safe _ (rel_ClaimName req)); [done |]. split; [by left | apply u64_range |].
    exists EvRelease. apply (cell_release (lease_cell l)). apply (owner_held (recordFromLease (rel_ClaimName req) l) Hw); congruence.
  - intros [e|l'] K'' _ _; eauto with kube.
Qed.

Lemma GetClaim_safe claim K : safely K (GetClaim prefix claim).
Proof.
  unfold GetClaim. eapply safe_bind; [apply getOrCreate_safe |].
  intros [e|[l rec]] K' _; [by intros; constructor; apply result_from_none |].
  intros [[Hin (Hn & _)] ->]. constructor. by apply result_from_lease.
Qed.

Lemma handler_safe rq K : rq_valid rq -> safely K (handler prefix rq).
Proof.
  destruct rq; simpl; intros Hv;
    [by apply AcquireClaim_safe | apply RenewClaim_safe | by destruct Hv; apply PrepareTransfer_safe
    | apply CommitTransfer_safe | apply AbortTransfer_safe | by apply ReleaseClaim_safe].
Qed.
End Handlers.

(** ** Many processes on one server *)

Section System.
Context (prefix : string) {W : Type} `{!LeaseClient W} `{!LeaseLaws W}.

(** [ks_threads] maps a call in progress to its process and what is left of it;
    [ks_log] lists the leases the server has stored, newest first, and [ks_replies]
    the results returned. *)
Record KSys := mkKSys {
  ks_world : W; ks_backends : nat -> Backend; ks_threads : gmap nat (nat * prog KResult);
  ks_log : list LeaseObject; ks_replies : list KResult }.

(** The lease now stored under [name], when it is a new one. *)
Definition note (name : string) (w w' : W) (log : list LeaseObject) : list LeaseObject :=
  match lc_view w' name with
  | Some l => if bool_decide (lc_view w name = Some l) then log else l :: log
  | None => log
  end.

Definition upd_backend (p : nat) (b : Backend) (f : nat -> Backend) : nat -> Backend :=
  fun q => if decide (q = p) then b else f q.

(** One instruction of a call. *)
Inductive exec (p : nat) (w : W) (bs : nat -> Backend) (log : list LeaseObject) :
  prog KResult -> W -> (nat -> Backend) -> list LeaseObject -> prog KResult -> Prop :=
| ex_get n k w' r : lc_Get n w = (w', r) -> exec p w bs log (CGet n k) w' bs log (k r)
| ex_create l k w' r : lc_Create l w = (w', r) ->
    exec p w bs log (CCreate l k) w' bs (note (l_Name l) w w' log) (k r)
| ex_update l k w' r : lc_Update l w = (w', r) ->
    exec p w bs log (CUpdate l k) w' bs (note (l_Name l) w w' log) (k r)
| ex_now k t : exec p w bs log (Now k) w bs log (k t)
| ex_recall id k : exec p w bs log (Recall id k) w bs log (k (recallOp id (bs p)))
| ex_store id r k : exec p w bs log (StoreOp id r k) w (upd_backend p (storeOp id r (bs p)) bs) log k.

Inductive kstep (s : KSys) : KSys -> Prop :=
| k_call t p rq :
    ks_threads s !! t = None -> rq_valid rq ->
    kstep s (mkKSys (ks_world s) (ks_backends s) (<[t := (p, handler prefix rq)]> (ks_threads s)) (ks_log s) (ks_replies s))
| k_read t p claim :
    ks_threads s !! t = None ->
    kstep s (mkKSys (ks_world s) (ks_backends s) (<[t := (p, GetClaim prefix claim)]> (ks_threads s)) (ks_log s) (ks_replies s))
| k_exec t p pr w' bs' log' pr' :
    ks_threads s !! t = Some (p, pr) -> exec p (ks_world s) (ks_backends s) (ks_log s) pr w' bs' log' pr' ->
    kstep s (mkKSys w' bs' (<[t := (p, pr')]> (ks_threads s)) log' (ks_replies s))
| k_return t p r :
    ks_threads s !! t = Some (p, Ret r) ->
    kstep s (mkKSys (ks_world s) (ks_backends s) (delete t (ks_threads s)) (ks_log s) (r :: ks_replies s))
| k_crash p :
    kstep s (mkKSys (ks_world s) (upd_backend p New (ks_backends s)) (filter (fun x => x.2.1 ≠ p) (ks_threads s))
      (ks_log s) (ks_replies s)).

Definition started (w : W) : KSys := mkKSys w (fun _ => New) ∅ [] [].

(** Newer leases of a name follow older ones by steps of the specification. *)
Fixpoint chain (log : list LeaseObject) : Prop :=
  match log with
  | [] => True
  | l :: older =>
    (forall l', l' ∈ older -> l_Name l' = l_Name l -> steps cell_trans (lease_cell l') (lease_cell l)) /\ chain older
  end.

Definition newest (n : string) (log : list LeaseObject) : option LeaseObject :=
  head (filter (fun l => l_Name l = n) log).

(** What the log says of the server. *)
Record log_inv (w : W) (log : list LeaseObject) : Prop := mkLogInv {
  li_client : lc_inv w;
  li_wf l : l ∈ log -> lease_wf l /\ l_RV l ≠ "" /\ lc_used w (l_Name l) (l_RV l);
  li_fun l1 l2 : l1 ∈ log -> l2 ∈ log -> l_Name l1 = l_Name l2 -> l_RV l1 = l_RV l2 -> l1 = l2;
  li_view n : lc_view w n = newest n log;
  li_chain : chain log }.

Record ksys_inv (s : KSys) : Prop := mkKInv {
  ki_log : log_inv (ks_world s) (ks_log s);
  ki_threads t p pr : ks_threads s !! t = Some (p, pr) ->
    exists K, K ⊆ ks_log s /\ safe prefix (result_from prefix) K pr;
  ki_ops p id r : b_ops (ks_backends s p) !! id = Some r -> result_from prefix (ks_log s) r;
  ki_replies r : r ∈ ks_replies s -> result_from prefix (ks_log s) r }.

Lemma newest_in n log l : newest n log = Some l -> l ∈ log /\ l_Name l = n.
Proof.
  unfold newest. intros H. destruct (filter _ log) as [|x t] eqn:E; [done |]. simplify_eq/=.
  assert (l ∈ filter (fun l => l_Name l = n) log) as [? ?]%list_elem_of_filter; [rewrite E; set_solver | done].
Qed.

(** A write that went through extends the log. *)
Lemma log_inv_write w w' l r log :
  log_inv w log -> lc_inv w' -> (forall m v, lc_used w m v -> lc_used w' m v) ->
  lease_wf l -> (forall cur, lc_view w (l_Name l) = Some cur -> steps cell_trans (lease_cell cur) (lease_cell l)) ->
  wrote lc_view lc_used w w' l r ->
  exists v, v ≠ "" /\ log_inv w' (with_RV v l :: log) /\ note (l_Name l) w w' log = with_RV v l :: log /\
    (forall l', r = inr l' -> l' = with_RV v l).
Proof.
  intros [_ Hwf Hf Hv Hc] Hi Hu Hl Hcur [v Hne Hfresh Hused Hview Hother Hres]. exists v. split; [done |].
  split; [|split; [|done]].
  - split.
    + done.
    + intros l' [->|Hin]%elem_of_cons; [by split; [exact Hl |] |]. destruct (Hwf l' Hin) as (H1 & H2 & H3). auto.
    + assert (forall x, x ∈ log -> l_Name x = l_Name l -> l_RV x ≠ v) as Hnew.
      { intros x Hx En <-. destruct (Hwf x Hx) as (_ & _ & H3). rewrite En in H3. done. }
      intros l1 l2 [->|H1]%elem_of_cons [->|H2]%elem_of_cons En Ev; [done | | |by apply Hf].
      * by destruct (Hnew l2 H2).
      * by destruct (Hnew l1 H1).
    + intros n. unfold newest. rewrite filter_cons. cbn [with_RV l_Name]. case_decide as En.
      * by subst n.
      * rewrite Hother by done. apply Hv.
    + split; [|done]. cbn [with_RV l_Name]. intros l' Hin En.
      destruct (lc_view w (l_Name l)) as [cur|] eqn:Ecur.
      * specialize (Hcur cur eq_refl). rewrite Hv in Ecur. eapply steps_app; [|exact Hcur].
        clear -Hc Hin En Ecur. induction log as [|x log IH]; [by apply elem_of_nil in Hin |]. destruct Hc as [Hx Hc].
        unfold newest in Ecur. rewrite filter_cons in Ecur. case_decide as E.
        -- simplify_eq/=. apply elem_of_cons in Hin as [->|Hin]; [constructor |]. apply Hx; congruence.
        -- apply elem_of_cons in Hin as [->|Hin]; [congruence |]. by apply IH.
      * exfalso. rewrite Hv in Ecur. unfold newest in Ecur.
        assert (l' ∈ filter (fun x => l_Name x = l_Name l) log) as Hf' by by apply list_elem_of_filter.
        destruct (filter _ log); [by apply elem_of_nil in Hf' | done].
  - unfold note. rewrite Hview, bool_decide_eq_false_2; [done |]. intros E. rewrite Hv in E.
    apply newest_in in E as [Hin _]. destruct (Hwf _ Hin) as (_ & _ & H3). done.
Qed.

(** A call that changed nothing leaves the log as it is. *)
Lemma log_inv_same w w' log :
  log_inv w log -> lc_inv w' -> (forall m v, lc_used w m v -> lc_used w' m v) ->
  (forall m, lc_view w' m = lc_view w m) ->
  log_inv w' log /\ forall n, note n w w' log = log.
Proof.
  intros [_ Hwf Hf Hv Hc] Hi Hu Hsame. split.
  - split; [done | | done | by intros n; rewrite Hsame | done].
    intros l Hl. destruct (Hwf l Hl) as (H1 & H2 & H3). auto.
  - intros n. unfold note. rewrite Hsame. destruct (lc_view w n); [|done]. by rewrite bool_decide_eq_true_2.
Qed.

(** The effect of one instruction of a safe call. *)
Record exec_effect (w : W) (log : list LeaseObject) (w' : W) (log' : list LeaseObject) (pr' : prog KResult) : Prop := mkExecEffect {
  ee_log : log_inv w' log';
  ee_more : log ⊆ log';
  ee_cell n : steps cell_trans (from_option lease_cell cell0 (lc_view w n)) (from_option lease_cell cell0 (lc_view w' n));
  ee_safe : exists K, K ⊆ log' /\ safe prefix (result_from prefix) K pr' }.

Lemma view_cell_same w w' :
  (forall m, lc_view w' m = lc_view w m) ->
  forall n, steps cell_trans (from_option lease_cell cell0 (lc_view w n)) (from_option lease_cell cell0 (lc_view w' n)).
Proof. intros H n. rewrite H. constructor. Qed.

Lemma wrote_cell w w' l r n :
  wrote lc_view lc_used w w' l r ->
  steps cell_trans (from_option lease_cell cell0 (lc_view w (l_Name l))) (lease_cell l) ->
  steps cell_trans (from_option lease_cell cell0 (lc_view w n)) (from_option lease_cell cell0 (lc_view w' n)).
Proof.
  intros [v _ _ _ Hv Ho _] Hc. destruct (decide (n = l_Name l)) as [->|Hn]; [by rewrite Hv |].
  rewrite Ho by done. constructor.
Qed.

(** A write, successful or lost, of a lease that may follow the stored one. *)
Lemma write_effect w w' l r log K k :
  log_inv w log -> lc_inv w' -> (forall m v, lc_used w m v -> lc_used w' m v) -> K ⊆ log ->
  (forall e, safe prefix (result_from prefix) K (k (inl e))) ->
  (forall v, v ≠ "" -> safe prefix (result_from prefix) (with_RV v l :: K) (k (inr (with_RV v l)))) ->
  ((forall m, lc_view w' m = lc_view w m) /\ (exists e, r = inl e) \/
   lease_wf l /\
   steps cell_trans (from_option lease_cell cell0 (lc_view w (l_Name l))) (lease_cell l) /\
   wrote lc_view lc_used w w' l r) ->
  exec_effect w log w' (note (l_Name l) w w' log) (k r).
Proof.
  intros Hlog Hi Hu HK He Hok [[Hsame [e ->]]|(Hwf & Hc & Hwr)].
  - destruct (log_inv_same w w' log Hlog Hi Hu Hsame) as [Hl Hn]. rewrite Hn.
    split; [done | done | by apply view_cell_same | eauto].
  - destruct (log_inv_write w w' l r log Hlog Hi Hu Hwf) as (v & Hv & Hl & -> & Hr); [| done |].
    { intros cur E. rewrite E in Hc. exact Hc. }
    split; [done | set_solver | by intros n; eapply wrote_cell |].
    destruct r as [e|l']; [exists K; split; [set_solver | auto] |].
    rewrite (Hr l' eq_refl). eexists. split; [|by apply Hok]. set_solver.
Qed.

Lemma exec_ok p w bs log pr w' bs' log' pr' K :
  log_inv w log -> (forall q id r, b_ops (bs q) !! id = Some r -> result_from prefix log r) ->
  K ⊆ log -> safe prefix (result_from prefix) K pr -> exec p w bs log pr w' bs' log' pr' ->
  exec_effect w log w' log' pr' /\
  (forall q id r, b_ops (bs' q) !! id = Some r -> result_from prefix log' r).
Proof.
  intros Hlog Hops HK Hs Hx. pose proof (li_client _ _ Hlog) as Hi.
  destruct Hx as [n k w' r E|l k w' r E|l k w' r E|k t|id k|id r k]; inversion Hs; subst.
  - destruct (lc_get _ _ _ _ Hi E) as (Hi' & Hv & Hu & Hl).
    destruct (log_inv_same w w' log Hlog Hi' Hu Hv) as [Hl' _]. split; [|done].
    split; [done | done | by apply view_cell_same |].
    destruct r as [e|l]; [eauto |]. specialize (Hl l eq_refl). rewrite (li_view _ _ Hlog) in Hl.
    destruct (newest_in _ _ _ Hl) as [Hin Hn]. destruct (li_wf _ _ Hlog l Hin) as (H4 & H5 & _).
    exists (l :: K). split; [set_solver |]. match goal with H : forall l, served _ l -> _ |- _ => apply H end. done.
  - destruct (lc_create _ _ _ _ Hi E) as (Hi' & Hu & Hw).
    assert (exec_effect w log w' (note n w w' log) (k r)) as Hee.
    { eapply (write_effect w w' (empty_lease n)); [done | done | done | done | eassumption | eassumption |].
      destruct Hw as [Hw|[Hnone Hw]]; [by left | right]. simpl in Hnone.
      destruct (empty_lease_served n "1" ltac:(done)) as (_ & _ & Hwf).
      split; [exact Hwf |]. split; [|done]. simpl. rewrite Hnone. simpl. constructor. }
    split; [exact Hee |]. intros q id r' Hr. eapply result_from_mono; [apply (ee_more _ _ _ _ _ Hee) | eauto].
  - destruct (lc_update _ _ _ _ Hi E) as (Hi' & Hu & Hw).
    assert (exec_effect w log w' (note (l_Name l) w w' log) (k r)) as Hee.
    { eapply (write_effect w w' l); [done | done | done | done | eassumption | eassumption |].
      destruct Hw as [Hw|[(cur & Hcur & Hrv) Hw]]; [by left | right].
      match goal with H : allowed _ _ |- _ => destruct H as [An Av Ap Ac] end.
      assert (cur = l0) as ->.
      { pose proof Hcur as Hcur'. rewrite (li_view _ _ Hlog) in Hcur'. apply newest_in in Hcur' as [Hin Hn].
        eapply (li_fun _ _ Hlog); [done | by apply HK | congruence |].
        destruct Hrv as [Hrv|Hrv]; [congruence |]. congruence. }
      destruct (li_wf _ _ Hlog l0) as ((_ & Hwf0) & _); [by apply HK |].
      split; [split; [done | by eapply cell_trans_wf] |]. split; [|done]. rewrite Hcur. simpl. by apply steps_one. }
    split; [exact Hee |]. intros q id r' Hr. eapply result_from_mono; [apply (ee_more _ _ _ _ _ Hee) | eauto].
  - split; [|done]. split; [done | done | by apply view_cell_same | eauto].
  - split; [|done]. split; [done | done | by apply view_cell_same |].
    destruct (recallOp id (bs p)) as [r|] eqn:Er; [|eauto].
    exists (log ++ K). split; [set_solver |].
    match goal with H : forall r L, result_from _ L r -> _ |- _ => apply H end.
    unfold recallOp in Er. destruct (Empty id); [done |]. eauto.
  - split; [split; [done | done | by apply view_cell_same | eauto] |].
    intros q id' r'. unfold upd_backend. case_decide; [|eauto]. unfold storeOp. destruct (Empty id); [subst; eauto |].
    simpl. intros [[-> <-]|[_ Hr]]%lookup_insert_Some; [|subst; eauto].
    eapply result_from_mono; [exact HK | done].
Qed.

Definition kube_cell (s : KSys) (claim : string) : cell :=
  from_option lease_cell cell0 (lc_view (ks_world s) (leaseName prefix claim)).

Lemma started_inv w : lc_inv w -> (forall n, lc_view w n = None) -> ksys_inv (started w).
Proof.
  intros Hi Hn. split; simpl.
  - split; [done | by intros l ?%elem_of_nil | by intros ?? ?%elem_of_nil | intros n; apply Hn | done].
  - intros t p pr. by rewrite lookup_empty.
  - intros p id r. by rewrite lookup_empty.
  - by intros r ?%elem_of_nil.
Qed.

Lemma thread_call_inv s t p pr :
  ksys_inv s -> safe prefix (result_from prefix) [] pr ->
  ksys_inv (mkKSys (ks_world s) (ks_backends s) (<[t := (p, pr)]> (ks_threads s)) (ks_log s) (ks_replies s)).
Proof.
  intros [Hl Ht Ho Hr] Hs. split; [done | | done | done]. simpl.
  intros t' p' pr' [[-> [= <- <-]]|[_ E]]%lookup_insert_Some; [|eauto]. exists []. split; [set_solver | done].
Qed.

Lemma kstep_ok s s' :
  ksys_inv s -> kstep s s' -> ksys_inv s' /\ forall claim, steps cell_trans (kube_cell s claim) (kube_cell s' claim).
Proof.
  intros Hinv Hs. pose proof Hinv as [Hl Ht Ho Hr].
  destruct Hs as [t p rq Hn Hv|t p claim Hn|t p pr w' bs' log' pr' E Hx|t p r E|p].
  - split; [|constructor]. apply thread_call_inv; [done | by apply handler_safe].
  - split; [|constructor]. apply thread_call_inv; [done | apply GetClaim_safe].
  - destruct (Ht _ _ _ E) as (K & HK & Hsafe). destruct (exec_ok _ _ _ _ _ _ _ _ _ _ Hl Ho HK Hsafe Hx) as [Hee Hops].
    pose proof (ee_more _ _ _ _ _ Hee) as Hm. split; [|intros claim; apply (ee_cell _ _ _ _ _ Hee)].
    split; [apply (ee_log _ _ _ _ _ Hee) | | done |].
    + simpl. intros t' q pr'' [[-> [= <- <-]]|[_ E']]%lookup_insert_Some; [apply (ee_safe _ _ _ _ _ Hee) |].
      destruct (Ht _ _ _ E') as (K' & HK' & H). exists K'. split; [set_solver | done].
    + intros r Hin. eapply result_from_mono; [exact Hm | by apply Hr].
  - split; [|constructor]. split; [done | | done |].
    + simpl. intros t' q pr [_ E']%lookup_delete_Some. eauto.
    + intros r' [->|Hin]%elem_of_cons; [|by apply Hr]. destruct (Ht _ _ _ E) as (K & HK & Hsafe).
      inversion Hsafe; subst. by eapply result_from_mono.
  - split; [|constructor]. split; [done | | | done].
    + simpl. intros t q pr [E _]%map_lookup_filter_Some. eauto.
    + simpl. intros q id r. unfold upd_backend. case_decide; [simpl; by rewrite lookup_empty | eauto].
Qed.

Lemma kube_reach w s :
  lc_inv w -> (forall n, lc_view w n = None) -> steps kstep (started w) s -> ksys_inv s.
Proof.
  intros Hi Hn Hs. eapply (steps_invariant kstep ksys_inv); [|exact Hs|by apply started_inv].
  intros a b Ha Hab. by destruct (kstep_ok a b Ha Hab).
Qed.

Lemma chain_ordered log l1 l2 :
  chain log -> l1 ∈ log -> l2 ∈ log -> l_Name l1 = l_Name l2 ->
  steps cell_trans (lease_cell l1) (lease_cell l2) \/ steps cell_trans (lease_cell l2) (lease_cell l1).
Proof.
  induction log as [|x log IH]; [by intros _ ?%elem_of_nil |].
  intros [Hx Hc] [->|H1]%elem_of_cons [->|H2]%elem_of_cons En; [left; constructor | | | by apply IH].
  - right. by apply Hx.
  - left. by apply Hx.
Qed.

Lemma newest_last log n l :
  chain log -> l ∈ log -> l_Name l = n ->
  exists cur, newest n log = Some cur /\ steps cell_trans (lease_cell l) (lease_cell cur).
Proof.
  induction log as [|x log IH]; [by intros _ ?%elem_of_nil |]. intros [Hx Hc] Hin En.
  unfold newest. rewrite filter_cons. case_decide as E.
  - exists x. split; [done |]. apply elem_of_cons in Hin as [->|Hin]; [constructor |]. apply Hx; congruence.
  - apply elem_of_cons in Hin as [->|Hin]; [congruence |]. by apply IH.
Qed.

(** C8: The Kubernetes backend implements the specification of a claim, for any
    number of processes on one server: whatever calls, failures, lost answers and
    crashes interleave between the server calls of their handlers, each step moves
    every claim's lease along the transitions of the specification, and the leases
    stay well formed. *)
Theorem kube_refines w s s' claim :
  lc_inv w -> (forall n, lc_view w n = None) -> steps kstep (started w) s -> kstep s s' ->
  steps cell_trans (kube_cell s claim) (kube_cell s' claim) /\ cell_wf (kube_cell s' claim).
Proof.
  intros Hi Hn Hs Hk. pose proof (kube_reach w s Hi Hn Hs) as Hinv.
  destruct (kstep_ok s s' Hinv Hk) as [Hinv' Hc]. split; [apply Hc |].
  unfold kube_cell. destruct (lc_view (ks_world s') _) as [l|] eqn:E; [|apply cell0_wf]. simpl.
  rewrite (li_view _ _ (ki_log _ Hinv')) in E. apply newest_in in E as [Hin _].
  by destruct (li_wf _ _ (ki_log _ Hinv') l Hin) as ((_ & H) & _).
Qed.

(** C7: No two generations are ever told that they hold a claim with the same fencing
    token: among all the records returned to any process, two that show the claim
    held at one token name one owner, and the token now stored for the claim is at
    least every token that was returned. *)
Theorem kube_exclusive w s :
  lc_inv w -> (forall n, lc_view w n = None) -> steps kstep (started w) s ->
  (forall rec1 rec2 e1 e2, (Some rec1, e1) ∈ ks_replies s -> (Some rec2, e2) ∈ ks_replies s ->
     k_Name rec1 = k_Name rec2 -> k_Token rec1 = k_Token rec2 ->
     is_held (k_Phase rec1) = true -> is_held (k_Phase rec2) = true -> k_Owner rec1 = k_Owner rec2) /\
  (forall rec e, (Some rec, e) ∈ ks_replies s -> k_Token rec <= c_token (kube_cell s (k_Name rec))).
Proof.
  intros Hi Hn Hs. destruct (kube_reach w s Hi Hn Hs) as [Hl _ _ Hr].
  assert (forall rec e, (Some rec, e) ∈ ks_replies s -> exists l, l ∈ ks_log s /\
    l_Name l = leaseName prefix (k_Name rec) /\ record_cell rec = lease_cell l /\
    (is_held (k_Phase rec) = true -> held (lease_cell l))) as Hfrom.
  { intros rec e Hin. destruct (Hr _ Hin rec eq_refl) as (l & Hll & Hname & ->). exists l.
    destruct (li_wf _ _ Hl l Hll) as ((Hp & _) & _).
    split; [done |]. split; [done |]. split; [done |]. intros Hh.
    change (k_Phase (recordFromLease _ l)) with (k_Phase (recordFromLease "" l)) in Hh.
    rewrite is_held_phase in Hh by done. by apply bool_decide_eq_true in Hh. }
  split.
  - intros rec1 rec2 e1 e2 H1 H2 En Et Hh1 Hh2.
    destruct (Hfrom _ _ H1) as (l1 & L1 & N1 & C1 & Q1), (Hfrom _ _ H2) as (l2 & L2 & N2 & C2 & Q2).
    change (c_owner (record_cell rec1) = c_owner (record_cell rec2)).
    change (c_token (record_cell rec1) = c_token (record_cell rec2)) in Et. rewrite C1, C2 in *.
    destruct (chain_ordered _ l1 l2 (li_chain _ _ Hl) L1 L2 ltac:(congruence)) as [Hc|Hc]; apply cell_steps_epoch in Hc as [_ He].
    + by destruct (He Et (Q2 Hh2)).
    + by destruct (He (eq_sym Et) (Q1 Hh1)).
  - intros rec e Hin. destruct (Hfrom _ _ Hin) as (l & L & N & C & _).
    destruct (newest_last _ _ l (li_chain _ _ Hl) L N) as (cur & Hcur & Hc). unfold kube_cell.
    rewrite (li_view _ _ Hl), Hcur. simpl. change (k_Token rec) with (c_token (record_cell rec)). rewrite C.
    by apply cell_steps_epoch in Hc as [? _].
Qed.

(** ** Undisturbed calls are executions *)

(** The thread can run to its result, undisturbed. *)
Definition reaches (s : KSys) (t p : nat) (r : KResult) (b' : Backend) (w' : W) : Prop :=
  exists s', steps kstep s s' /\ ks_threads s' = <[t := (p, Ret r)]> (ks_threads s) /\ ks_world s' = w' /\
    ks_backends s' p = b' /\ ks_replies s' = ks_replies s.

Lemma exec_reaches s t p pr pr' w1 bs1 log1 r b' w' :
  ks_threads s !! t = Some (p, pr) -> exec p (ks_world s) (ks_backends s) (ks_log s) pr w1 bs1 log1 pr' ->
  reaches (mkKSys w1 bs1 (<[t := (p, pr')]> (ks_threads s)) log1 (ks_replies s)) t p r b' w' ->
  reaches s t p r b' w'.
Proof.
  intros Et Hx (s' & H1 & H2 & H3). exists s'. split; [eapply steps_cons; [by eapply k_exec | done] |].
  split; [|done]. rewrite H2. simpl. by rewrite insert_insert_eq.
Qed.

Lemma run_steps pr time b w r time' b' w' :
  run pr time b w = (r, time', b', w') ->
  forall s t p, ks_threads s !! t = Some (p, pr) -> ks_backends s p = b -> ks_world s = w -> reaches s t p r b' w'.
Proof.
  revert time b w. induction pr as [a|n k IH|l k IH|l k IH|k IH|id k IH|id r0 k IH]; intros time b w Er s t p Et <- <-;
    simpl in Er.
  { simplify_eq. exists s. split; [constructor |]. by rewrite insert_id. }
  - destruct (lc_Get n (ks_world s)) as [w1 r1] eqn:E. eapply exec_reaches; [done | by constructor |].
    eapply IH; [exact Er | apply lookup_insert_eq | done | done].
  - destruct (lc_Create l (ks_world s)) as [w1 r1] eqn:E. eapply exec_reaches; [done | by constructor |].
    eapply IH; [exact Er | apply lookup_insert_eq | done | done].
  - destruct (lc_Update l (ks_world s)) as [w1 r1] eqn:E. eapply exec_reaches; [done | by constructor |].
    eapply IH; [exact Er | apply lookup_insert_eq | done | done].
  - eapply exec_reaches; [done | by apply (ex_now _ _ _ _ _ time) |].
    eapply IH; [exact Er | apply lookup_insert_eq | done | done].
  - eapply exec_reaches; [done | by constructor |]. eapply IH; [exact Er | apply lookup_insert_eq | done | done].
  - eapply exec_reaches; [done | by constructor |]. eapply IH; [exact Er | apply lookup_insert_eq | | done].
    unfold upd_backend. simpl. by rewrite decide_True.
Qed.

(** A whole call of an idle process. *)
Lemma call_steps s p rq time r time' b' w' :
  ks_threads s = ∅ -> rq_valid rq ->
  run (handler prefix rq) time (ks_backends s p) (ks_world s) = (r, time', b', w') ->
  exists s', steps kstep s s' /\ ks_threads s' = ∅ /\ ks_world s' = w' /\ ks_backends s' p = b' /\
    ks_replies s' = r :: ks_replies s.
Proof.
  intros Et Hv Er. set (s1 := mkKSys (ks_world s) (ks_backends s) (<[0%nat := (p, handler prefix rq)]> (ks_threads s)) (ks_log s) (ks_replies s)).
  destruct (run_steps _ _ _ _ _ _ _ _ Er s1 0%nat p) as (s2 & H1 & H2 & H3 & H4 & H5);
    [by simpl; rewrite lookup_insert_eq | done | done |].
  exists (mkKSys (ks_world s2) (ks_backends s2) (delete 0%nat (ks_threads s2)) (ks_log s2) (r :: ks_replies s2)).
  split.
  - eapply steps_cons; [apply (k_call _ 0%nat p rq); [by rewrite Et | done] |].
    eapply steps_app; [exact H1 |]. apply steps_one. eapply k_return. rewrite H2. by rewrite lookup_insert_eq.
  - simpl. rewrite H2, H5. simpl. rewrite Et. split; [|done]. by rewrite insert_insert_eq, delete_insert_id.
Qed.
End System.

(** ** A concrete execution *)

Definition x_run {A} (p : prog A) (s : Time * Backend * MemoryLeaseClient) : A * (Time * Backend * MemoryLeaseClient) :=
  let '(a, t, b, w) := run p s.1.1 s.1.2 s.2 in (a, (t, b, w)).
Definition x0 : Time * Backend * MemoryLeaseClient := (unix_epoch + 7, New, NewMemoryLeaseClient).
Definition x1 := x_run (handler "sl-" (RqAcquire (demo_acquire "a" "op1"))) x0.
Definition x2 := x_run (handler "sl-" (RqPrepare (mkTransfer "leader" "a" "b" 1 0 "op2"))) x1.2.
Definition x3 := x_run (handler "sl-" (RqCommit (mkCommit "leader" "a" "b" 1 0 "op3"))) x2.2.

Lemma x_started : lc_inv NewMemoryLeaseClient /\ forall n, lc_view NewMemoryLeaseClient n = None.
Proof. split; [apply map_Forall_empty | done]. Qed.

(** A handoff, as three calls of one process. *)
Lemma x_handoff : exists s, steps (kstep "sl-") (started NewMemoryLeaseClient) s /\ ks_threads s = ∅ /\
  ks_replies s = [x3.1; x2.1; x1.1] /\ ks_world s = x3.2.2.
Proof.
  destruct (call_steps "sl-" (started NewMemoryLeaseClient) 0%nat (RqAcquire (demo_acquire "a" "op1")) x0.1.1
    x1.1 x1.2.1.1 x1.2.1.2 x1.2.2) as (s1 & S1 & T1 & W1 & B1 & R1); [reflexivity | discriminate | vm_compute; reflexivity |].
  destruct (call_steps "sl-" s1 0%nat (RqPrepare (mkTransfer "leader" "a" "b" 1 0 "op2")) x1.2.1.1
    x2.1 x2.2.1.1 x2.2.1.2 x2.2.2) as (s2 & S2 & T2 & W2 & B2 & R2); [exact T1 | split; discriminate | rewrite W1, B1; vm_compute; reflexivity |].
  destruct (call_steps "sl-" s2 0%nat (RqCommit (mkCommit "leader" "a" "b" 1 0 "op3")) x2.2.1.1
    x3.1 x3.2.1.1 x3.2.1.2 x3.2.2) as (s3 & S3 & T3 & W3 & B3 & R3); [exact T2 | split; discriminate | rewrite W2, B2; vm_compute; reflexivity |].
  exists s3. split; [eapply steps_app; [exact S1 |]; by eapply steps_app |]. split; [exact T3 |]. split; [|exact W3].
  rewrite R3, R2, R1. reflexivity.
Qed.

Definition x_rec : KRecord := default (recordFromLease "" (empty_lease "")) x3.1.1.

Lemma x_reply : x3.1 = (Some x_rec, None) /\ k_Owner x_rec = "b" /\ k_Token x_rec = 2.
Proof. vm_compute. done. Qed.

Lemma kube_refines_witness : exists s, steps (kstep "sl-") (started NewMemoryLeaseClient) s /\
  cell_wf (kube_cell "sl-" s "leader").
Proof.
  destruct x_handoff as (s & Hs & _). eexists. split; [eapply steps_app; [exact Hs | apply steps_one, (k_crash _ _ 0%nat)] |].
  exact (proj2 (kube_refines "sl-" _ _ _ "leader" (proj1 x_started) (proj2 x_started) Hs (k_crash _ _ 0%nat))).
Defined.

Lemma kube_exclusive_witness : exists s, steps (kstep "sl-") (started NewMemoryLeaseClient) s /\
  (Some x_rec, None) ∈ ks_replies s /\ k_Token x_rec <= c_token (kube_cell "sl-" s (k_Name x_rec)).
Proof.
  destruct x_handoff as (s & Hs & _ & Hr & _). exists s. split; [exact Hs |].
  assert ((Some x_rec, None) ∈ ks_replies s) as Hin by (rewrite Hr, <- (proj1 x_reply); left).
  split; [exact Hin |].
  exact (proj2 (kube_exclusive "sl-" _ s (proj1 x_started) (proj2 x_started) Hs) x_rec None Hin).
Defined.

(** ** A failed release is remembered *)

(** A server whose next update fails. *)
Record Flaky := mkFlaky { f_client : MemoryLeaseClient; f_fail : bool }.

#[local] Instance flaky_client : LeaseClient Flaky := {|
  lc_Get n f := let '(m, r) := Client_Get n (f_client f) in (mkFlaky m (f_fail f), r);
  lc_Create l f := let '(m, r) := Client_Create l (f_client f) in (mkFlaky m (f_fail f), r);
  lc_Update l f := if f_fail f then (mkFlaky (f_client f) false, inl (TextErr "server timeout"))
                   else let '(m, r) := Client_Update l (f_client f) in (mkFlaky m false, r) |}.

(** After one failed write a release keeps failing when it is retried under its
    operation identifier, with the server working again and the claim still held;
    a renewal that failed in the same way succeeds when it is retried. *)
Lemma release_failure_remembered :
  let '(_, t, b, w) := run (AcquireClaim "sl-" (demo_acquire "a" "op1")) (unix_epoch + 7) New (mkFlaky NewMemoryLeaseClient false) in
  let down := mkFlaky (f_client w) true in
  let rel := ReleaseClaim "sl-" (mkRelease "leader" "a" 1 "op2") in
  let ren := RenewClaim "sl-" (mkRenew "leader" "a" 1 0 "op3") in
  let '(r1, t, b, w) := run rel t b down in
  let '(r2, t, b, w) := run rel t b w in
  let '(r3, t, b, w) := run ren t b (mkFlaky (f_client w) true) in
  let '(r4, t, b, w) := run ren t b w in
  (r1.2, r2.2, r3.2, r4.2, k_Owner <$> r4.1) =
  (Some (TextErr "server timeout"), Some (TextErr "server timeout"), Some (TextErr "server timeout"), None, Some "a").
Proof. vm_compute. reflexivity. Qed.
