(* ===== verification/Redis.v ===== *)
(** * The Redis backend ([backend/redis/redis.go], [backend/redis/ops.go])

    Claims are JSON objects in a Redis server that many processes share.  Every
    change of a claim is one Lua script, which the server executes atomically; a
    handler is a program of calls of the server and clock readings ([prog]), and
    between two calls other processes act.

    Lua has one number type, the double, and prints numbers in JSON through its
    [cjson] library; Go reads them back into [int64] and [uint64] fields.  How they
    are rounded and written is a parameter ([LuaNumbers]), with what IEEE 754 and
    the manual of [cjson] say as laws.  Texts are valid UTF-8, which both sides carry
    over unchanged.  The second part of the file interleaves any number of processes. *)

From S2P Require Import Prelude GoStrings Types Config BackendSpec TextRecord.
#[local] Open Scope Z_scope.

(** ** Numbers *)

(** A JSON number: an integer literal, or one with a fraction or an exponent, of
    the value [m * 10 ^ e]. *)
Inductive numlit := Plain (z : Z) | Expo (m e : Z).

(** [lua_num z]: the double [tonumber] makes of the digits of [z], and the sum of
    two doubles that is [z] exactly; [cjson_num], [cjson_val]: what [cjson.encode]
    writes for a double and [cjson.decode] makes of a number; [go_renum]: what
    [json.Marshal] writes for a number that [json.Unmarshal] read as a [float64].
    The doubles here are integers. *)
Class LuaNumbers := {
  lua_num : Z -> Z; cjson_num : Z -> numlit; cjson_val : numlit -> Z; go_renum : numlit -> numlit }.

(** Fourteen significant digits is what [cjson.encode] writes. *)
Definition digits14 : Z := 10 ^ 14.

(** Integers of at most fourteen digits are exact everywhere. *)
Class LuaLaws `{!LuaNumbers} := {
  lua_exact z : 0 <= z <= 2 ^ 53 -> lua_num z = z;
  cjson_plain z : 0 <= z < digits14 -> cjson_num z = Plain z;
  cjson_back z : 0 <= z < digits14 -> cjson_val (Plain z) = z;
  go_renum_plain z : 0 <= z < digits14 -> go_renum (Plain z) = Plain z }.

(** With its default precision [cjson.encode] writes larger numbers with an
    exponent ([%.14g]). *)
Class LuaDefaultPrecision `{!LuaNumbers} := {
  lua_large z : digits14 <= z -> digits14 <= lua_num z;
  cjson_large z : digits14 <= z -> digits14 <= cjson_val (cjson_num z);
  cjson_expo z : digits14 <= z -> exists m e, cjson_num z = Expo m e }.

(** ** Claims *)

(** A claim as a Lua table ([ClaimJSON Z]) and as JSON text ([ClaimJSON numlit]). *)
Record ClaimJSON (N : Type) := mkJ {
  j_name : string; j_owner : string; j_token : N; j_phase : string; j_acquired : N; j_expires : N;
  j_previous : string; j_successor : string; j_drain : string; j_transfer : string; j_heartbeat : N;
  j_reason : string; j_version : N }.
Arguments mkJ {N}. Arguments j_name {N}. Arguments j_owner {N}. Arguments j_token {N}. Arguments j_phase {N}.
Arguments j_acquired {N}. Arguments j_expires {N}. Arguments j_previous {N}. Arguments j_successor {N}.
Arguments j_drain {N}. Arguments j_transfer {N}. Arguments j_heartbeat {N}. Arguments j_reason {N}.
Arguments j_version {N}.

Definition jmap {N M} (f : N -> M) (j : ClaimJSON N) : ClaimJSON M :=
  mkJ (j_name j) (j_owner j) (f (j_token j)) (j_phase j) (f (j_acquired j)) (f (j_expires j)) (j_previous j)
    (j_successor j) (j_drain j) (j_transfer j) (f (j_heartbeat j)) (j_reason j) (f (j_version j)).

(** What a script returns: the text of a claim, or [{__err=code, data=claim}]. *)
Inductive Reply := ROk (j : ClaimJSON numlit) | RErr (code : string) (data : option (ClaimJSON numlit)).

(** A call of a script, with its arguments. *)
Inductive Script :=
| SAcquire (gen : string) (ttl now : Z) (name : string)
| SRelease (gen : string) (token : Z)
| SPrepare (from to : string) (token ttl now : Z)
| SCommit (from to : string) (token ttl now : Z)
| SAbort (from : string) (token : Z)
| SRenew (gen : string) (token ttl now : Z).

Section Scripts.
Context `{!LuaNumbers}.

Definition encode : ClaimJSON Z -> ClaimJSON numlit := jmap cjson_num.
Definition decode : ClaimJSON numlit -> ClaimJSON Z := jmap cjson_val.

(** The new value of the key, and what the script returns. *)
Abbreviation Outcome := (option (ClaimJSON numlit) * Reply)%type.

Definition set_return (obj : ClaimJSON Z) : Outcome := (Some (encode obj), ROk (encode obj)).
Definition refuse (code : string) : Outcome := (None, RErr code None).

Definition is_expired (now : Z) (obj : ClaimJSON Z) : bool :=
  bool_decide (0 < j_expires obj) && bool_decide (j_expires obj < now).

(** [owner_generation], [pending_successor] and [phase] of an expired claim. *)
Definition expire (successor : string) (obj : ClaimJSON Z) : ClaimJSON Z :=
  mkJ (j_name obj) "" (j_token obj) unowned (j_acquired obj) (j_expires obj) (j_owner obj) successor
    (j_drain obj) (j_transfer obj) (j_heartbeat obj) "expired" (lua_num (j_version obj + 1)).

Definition renew (ttl now : Z) (obj : ClaimJSON Z) : ClaimJSON Z :=
  mkJ (j_name obj) (j_owner obj) (j_token obj) (j_phase obj) (j_acquired obj) (lua_num (now + ttl)) (j_previous obj)
    (j_successor obj) (j_drain obj) (j_transfer obj) now "renewed" (lua_num (j_version obj + 1)).

Definition fresh_claim (name : string) : ClaimJSON Z := mkJ name "" 0 unowned 0 0 "" "" "" "" 0 "" 0.

Definition acquireScript (gen : string) (ttl now : Z) (name : string) (raw : option (ClaimJSON numlit)) : Outcome :=
  let ttl := lua_num ttl in let now := lua_num now in
  let obj := from_option decode (fresh_claim name) raw in
  let obj := if is_expired now obj && is_held (j_phase obj) then expire "" obj else obj in
  if is_held (j_phase obj) then
    if bool_decide (j_owner obj = gen) then set_return (renew ttl now obj)
    else (None, RErr "held" (Some (encode obj)))
  else
    set_return (mkJ name gen (lua_num (j_token obj + 1)) owned now (lua_num (now + ttl)) (j_owner obj) "" "" "" now
      "acquired" (lua_num (j_version obj + 1))).

Definition releaseScript (gen : string) (token : Z) (raw : option (ClaimJSON numlit)) : Outcome :=
  match raw with
  | None => refuse "not_found"
  | Some raw =>
    let obj := decode raw in
    if negb (bool_decide (j_token obj = lua_num token)) then refuse "stale"
    else if negb (bool_decide (j_owner obj = gen)) then refuse "not_owner"
    else set_return (mkJ (j_name obj) "" (j_token obj) unowned (j_acquired obj) (j_expires obj) (j_owner obj) ""
      "" "" (j_heartbeat obj) "released" (lua_num (j_version obj + 1)))
  end.

Definition prepareScript (from to : string) (token ttl now : Z) (raw : option (ClaimJSON numlit)) : Outcome :=
  match raw with
  | None => refuse "not_found"
  | Some raw =>
    let token := lua_num token in let ttl := lua_num ttl in let now := lua_num now in
    let obj := decode raw in
    if is_expired now obj && is_held (j_phase obj) then (Some (encode (expire "" obj)), RErr "not_owner" None)
    else if negb (bool_decide (j_owner obj = from)) then refuse "not_owner"
    else if negb (bool_decide (j_token obj = token)) then refuse "stale"
    else if bool_decide (j_phase obj = reserved) && negb (bool_decide (j_successor obj = ""))
            && negb (bool_decide (j_successor obj = to)) then refuse "concurrent"
    else set_return (mkJ (j_name obj) (j_owner obj) (j_token obj) reserved (j_acquired obj) (lua_num (now + ttl))
      (j_previous obj) to "complete" "prepared" now "transfer_prepared" (lua_num (j_version obj + 1)))
  end.

Definition commitScript (from to : string) (token ttl now : Z) (raw : option (ClaimJSON numlit)) : Outcome :=
  match raw with
  | None => refuse "not_found"
  | Some raw =>
    let token := lua_num token in let ttl := lua_num ttl in let now := lua_num now in
    let obj := decode raw in
    if is_expired now obj && is_held (j_phase obj) then (Some (encode (expire "" obj)), RErr "no_transfer" None)
    else if negb (bool_decide (j_phase obj = reserved)) then refuse "no_transfer"
    else if negb (bool_decide (j_owner obj = from)) || negb (bool_decide (j_successor obj = to)) then refuse "concurrent"
    else if negb (bool_decide (j_token obj = token)) then refuse "stale"
    else set_return (mkJ (j_name obj) to (lua_num (j_token obj + 1)) owned now (lua_num (now + ttl)) (j_owner obj) ""
      "" "committed" now "transfer_committed" (lua_num (j_version obj + 1)))
  end.

Definition abortScript (from : string) (token : Z) (raw : option (ClaimJSON numlit)) : Outcome :=
  match raw with
  | None => refuse "not_found"
  | Some raw =>
    let obj := decode raw in
    if negb (bool_decide (j_phase obj = reserved)) then
      if bool_decide (j_owner obj = from) && bool_decide (j_phase obj = owned) then (None, ROk (encode obj))
      else refuse "no_transfer"
    else if negb (bool_decide (j_token obj = lua_num token)) then refuse "stale"
    else if negb (bool_decide (j_owner obj = from)) then refuse "not_owner"
    else set_return (mkJ (j_name obj) (j_owner obj) (j_token obj) owned (j_acquired obj) (j_expires obj)
      (j_previous obj) "" (j_drain obj) "aborted" (j_heartbeat obj) "transfer_aborted" (lua_num (j_version obj + 1)))
  end.

(** The expiry here neither asks for a held phase nor clears the successor. *)
Definition renewScript (gen : string) (token ttl now : Z) (raw : option (ClaimJSON numlit)) : Outcome :=
  match raw with
  | None => refuse "not_found"
  | Some raw =>
    let token := lua_num token in let ttl := lua_num ttl in let now := lua_num now in
    let obj := decode raw in
    if is_expired now obj then (Some (encode (expire (j_successor obj) obj)), RErr "not_owner" None)
    else if negb (bool_decide (j_owner obj = gen)) then refuse "not_owner"
    else if negb (bool_decide (j_token obj = token)) then refuse "stale"
    else set_return (renew ttl now obj)
  end.

Definition run_script (sc : Script) : option (ClaimJSON numlit) -> Outcome :=
  match sc with
  | SAcquire gen ttl now name => acquireScript gen ttl now name
  | SRelease gen token => releaseScript gen token
  | SPrepare from to token ttl now => prepareScript from to token ttl now
  | SCommit from to token ttl now => commitScript from to token ttl now
  | SAbort from token => abortScript from token
  | SRenew gen token ttl now => renewScript gen token ttl now
  end.
End Scripts.

(** ** Go reads claims *)

(** A number in a field of type [uint64] or [int64]: [strconv.ParseUint] and
    [ParseInt] take integer literals in range. *)
Definition json_u64 (l : numlit) : option Z :=
  match l with Plain z => if bool_decide (0 <= z < u64_modulus) then Some z else None | Expo _ _ => None end.

Definition json_i64 (l : numlit) : option Z :=
  match l with Plain z => if bool_decide (- 2 ^ 63 <= z < 2 ^ 63) then Some z else None | Expo _ _ => None end.

Definition unmarshal_error : error := TextErr "json: cannot unmarshal number into Go struct field".

Definition unix_or_zero (ns : Z) : Time := if bool_decide (0 < ns) then Unix ns else time_zero.

Definition fromJSON (j : ClaimJSON numlit) : error + KRecord :=
  match json_u64 (j_token j), json_i64 (j_acquired j), json_i64 (j_expires j), json_i64 (j_heartbeat j), json_u64 (j_version j) with
  | Some token, Some acquired, Some expires, Some heartbeat, Some version =>
    inr (mkK (j_name j) (j_owner j) token (j_phase j) (unix_or_zero acquired) (unix_or_zero expires) (j_previous j)
      (j_successor j) (j_drain j) (j_transfer j) (unix_or_zero heartbeat) (j_reason j) version)
  | _, _, _, _, _ => inl unmarshal_error
  end.

Definition code_error (code : string) : error :=
  if bool_decide (code = "held") then ErrClaimHeld
  else if bool_decide (code = "stale") then ErrStaleToken
  else if bool_decide (code = "not_owner") then ErrNotOwner
  else if bool_decide (code = "not_found") then ErrClaimNotFound
  else if bool_decide (code = "concurrent") then ErrConcurrentTransfer
  else if bool_decide (code = "no_transfer") then ErrNoTransfer
  else mkError "redis" ErrBackend code.

(** A result with either a record or an error. *)
Definition result_of (r : error + KRecord) : KResult :=
  match r with inl e => (None, Some e) | inr rec => (Some rec, None) end.

Definition parseResult (v : Reply) : KResult :=
  match v with
  | RErr code _ => (None, Some (code_error code))
  | ROk j => result_of (fromJSON j)
  end.

Definition mapRedis (op : string) (err : error) : error := mkError ("redis." +:+ op) ErrBackend (base_text err).

(** ** Stored operations *)

Record storedOp := mkStored { so_OK : bool; so_ErrCode : string; so_Claim : option KRecord }.

Definition encodeRedisOpErr (err : error) : string :=
  if errors_is err ErrClaimHeld then "held"
  else if errors_is err ErrStaleToken then "stale"
  else if errors_is err ErrNotOwner then "not_owner"
  else if errors_is err ErrNoTransfer then "no_transfer"
  else if errors_is err ErrConcurrentTransfer then "concurrent"
  else if errors_is err ErrTokenOverflow then "overflow"
  else if errors_is err ErrClaimNotFound then "not_found"
  else "backend".

Definition decodeRedisOpErr (code : string) : option error :=
  if bool_decide (code = "held") then Some (Sentinel ErrClaimHeld)
  else if bool_decide (code = "stale") then Some (Sentinel ErrStaleToken)
  else if bool_decide (code = "not_owner") then Some (Sentinel ErrNotOwner)
  else if bool_decide (code = "no_transfer") then Some (Sentinel ErrNoTransfer)
  else if bool_decide (code = "concurrent") then Some (Sentinel ErrConcurrentTransfer)
  else if bool_decide (code = "overflow") then Some (Sentinel ErrTokenOverflow)
  else if bool_decide (code = "not_found") then Some (Sentinel ErrClaimNotFound)
  else if bool_decide (code = "") then None
  else Some (Sentinel ErrBackend).

(** The stored form of a result, and the result it stands for. *)
Definition stored_of (r : KResult) : storedOp :=
  mkStored (bool_decide (r.2 = None)) (from_option encodeRedisOpErr "" r.2) r.1.

Definition result_stored (s : storedOp) : KResult :=
  (so_Claim s, if so_OK s then None else decodeRedisOpErr (so_ErrCode s)).

(** ** Programs *)

(** A value of the server: a claim, the result of an operation, a generation. *)
Inductive Value := VClaim (j : ClaimJSON numlit) | VOp (s : storedOp) | VGen (g : Generation).

Inductive prog (A : Type) : Type :=
| Ret (a : A)
| CEval (sc : Script) (key : string) (k : error + Reply -> prog A)
| CGet (key : string) (k : error + Value -> prog A)
| CSet (key : string) (v : Value) (k : option error -> prog A)
| Now (k : Time -> prog A).

Arguments Ret {A}. Arguments CEval {A}. Arguments CGet {A}. Arguments CSet {A}. Arguments Now {A}.

Fixpoint bind {A B} (p : prog A) (f : A -> prog B) : prog B :=
  match p with
  | Ret a => f a
  | CEval sc key k => CEval sc key (fun r => bind (k r) f)
  | CGet key k => CGet key (fun r => bind (k r) f)
  | CSet key v k => CSet key v (fun r => bind (k r) f)
  | Now k => Now (fun t => bind (k t) f)
  end.

Declare Scope redis_scope.
Notation "x <- c ;; p" := (bind c (fun x => p)) (at level 100, c at next level, right associativity) : redis_scope.
#[local] Open Scope redis_scope.

Definition eval (sc : Script) (key : string) : prog (error + Reply) := CEval sc key Ret.
Definition get (key : string) : prog (error + Value) := CGet key Ret.
Definition set (key : string) (v : Value) : prog (option error) := CSet key v Ret.
Definition now : prog Time := Now Ret.

(** ** Handlers *)

Section Handlers.
Context (prefix : string).

Definition claimKey (name : string) : string := prefix +:+ ":claim:" +:+ name.
Definition genKey (id : string) : string := prefix +:+ ":gen:" +:+ id.
Definition opKey (id : string) : string := prefix +:+ ":op:" +:+ id.

(** A call that fails counts as no stored result. *)
Definition recallOp (id : string) : prog (option KResult) :=
  if Empty id then Ret None else
    r <- get (opKey id);;
    match r with
    | inr (VOp s) => Ret (Some (result_stored s))
    | _ => Ret None
    end.

(** [b.storeOp(...)] and return; the call may fail. *)
Definition store_ret (id : string) (r : KResult) : prog KResult :=
  if Empty id then Ret r else _ <- set (opKey id) (VOp (stored_of r));; Ret r.

Definition recalled (id : string) (p : prog KResult) : prog KResult :=
  r <- recallOp id;; match r with Some r => Ret r | None => p end.

(** A result is stored when it is a success. *)
Definition store_ok (id : string) (r : KResult) : prog KResult :=
  match r.2 with None => store_ret id r | Some _ => Ret r end.

Definition GetClaim (name : string) : prog KResult :=
  r <- get (claimKey name);;
  match r with
  | inr (VClaim j) => Ret (result_of (fromJSON j))
  | _ => Ret (None, Some (Sentinel ErrClaimNotFound))
  end.

(** [b.client.Eval] of a script; [op] names the handler in the error. *)
Definition with_eval (op : string) (sc : Script) (claim : string) (f : Reply -> prog KResult) : prog KResult :=
  r <- eval sc (claimKey claim);;
  match r with
  | inl e => Ret (None, Some (mapRedis op e))
  | inr v => f v
  end.

(** The record sent along with [held], read as a [map[string]any] and written
    again. *)
Definition held_record `{!LuaNumbers} (data : option (ClaimJSON numlit)) : option KRecord :=
  match data with
  | Some j => match fromJSON (jmap go_renum j) with inr rec => Some rec | inl _ => None end
  | None => None
  end.

Definition AcquireClaim `{!LuaNumbers} (req : AcquireRequest) : prog KResult :=
  let id := acq_OperationID req in
  recalled id (
    t <- now;;
    with_eval "AcquireClaim" (SAcquire (acq_GenerationID req) (acq_TTL req) (UnixNano t) (acq_ClaimName req))
      (acq_ClaimName req) (fun v =>
      match v with
      | RErr code data =>
        if bool_decide (code = "held") then store_ret id (held_record data, Some (Sentinel ErrClaimHeld))
        else store_ret id (parseResult v)
      | ROk _ => store_ret id (parseResult v)
      end)).

Definition RenewClaim (req : RenewRequest) : prog KResult :=
  let id := ren_OperationID req in
  recalled id (
    t <- now;;
    with_eval "RenewClaim" (SRenew (ren_GenerationID req) (ren_Token req) (ren_TTL req) (UnixNano t))
      (ren_ClaimName req) (fun v => store_ok id (parseResult v))).

Definition PrepareTransfer (req : TransferRequest) : prog KResult :=
  let id := tr_OperationID req in
  recalled id (
    t <- now;;
    with_eval "PrepareTransfer"
      (SPrepare (tr_FromGeneration req) (tr_ToGeneration req) (tr_Token req) (tr_TTL req) (UnixNano t))
      (tr_ClaimName req) (fun v => store_ok id (parseResult v))).

(** The claim shows the transfer committed already. *)
Definition committed_already (req : CommitRequest) (cur : KRecord) : bool :=
  bool_decide (k_Phase cur = owned) && bool_decide (k_Owner cur = com_ToGeneration req)
  && bool_decide (k_Token cur = u64 (com_ExpectedToken req + 1)) && bool_decide (k_Transfer cur = "committed").

Definition commit_call (req : CommitRequest) : prog KResult :=
  t <- now;;
  with_eval "CommitTransfer"
    (SCommit (com_FromGeneration req) (com_ToGeneration req) (com_ExpectedToken req) (com_TTL req) (UnixNano t))
    (com_ClaimName req) (fun v => store_ret (com_OperationID req) (parseResult v)).

Definition CommitTransfer (req : CommitRequest) : prog KResult :=
  let id := com_OperationID req in
  recalled id (
    r <- GetClaim (com_ClaimName req);;
    match r with
    | (Some cur, None) => if committed_already req cur then store_ret id (Some cur, None) else commit_call req
    | _ => commit_call req
    end).

Definition AbortTransfer (req : AbortRequest) : prog KResult :=
  let id := ab_OperationID req in
  recalled id (
    with_eval "AbortTransfer" (SAbort (ab_FromGeneration req) (ab_ExpectedToken req)) (ab_ClaimName req)
      (fun v => store_ok id (parseResult v))).

Definition ReleaseClaim (req : ReleaseRequest) : prog KResult :=
  let id := rel_OperationID req in
  r <- recallOp id;;
  match r with
  | Some (_, e) => Ret (None, e)
  | None =>
    with_eval "ReleaseClaim" (SRelease (rel_GenerationID req) (rel_Token req)) (rel_ClaimName req)
      (fun v => store_ret id (None, (parseResult v).2))
  end.

Definition handler `{!LuaNumbers} (rq : Request) : prog KResult :=
  match rq with
  | RqAcquire r => AcquireClaim r | RqRenew r => RenewClaim r | RqPrepare r => PrepareTransfer r
  | RqCommit r => CommitTransfer r | RqAbort r => AbortTransfer r | RqRelease r => ReleaseClaim r
  end.

(** Generations; the local table [gens] is only written. *)
Definition RegisterGeneration (gen : Generation) : prog (option error) := set (genKey (ID gen)) (VGen gen).
Definition UpdateGeneration : Generation -> prog (option error) := RegisterGeneration.

Definition GetGeneration (id : string) : prog (error + Generation) :=
  r <- get (genKey id);;
  match r with
  | inr (VGen g) => Ret (inr g)
  | _ => Ret (inl (Sentinel ErrGenerationNotFound))
  end.

(** One tick of the goroutine of [WatchClaim]: [last] is the version last seen,
    [buf] the channel of capacity 16. *)
Definition watch_tick (claim : string) (last : Z) (buf : list KRecord) : prog (Z * list KRecord) :=
  r <- GetClaim claim;;
  match r with
  | (Some rec, None) =>
    if bool_decide (k_Version rec = last) then Ret (last, buf)
    else Ret (k_Version rec, if bool_decide (length buf < 16)%nat then buf ++ [rec] else buf)
  | _ => Ret (last, buf)
  end.
End Handlers.

Definition redis_Capabilities : Capabilities := mkCapabilities true true true true true true true MaxSafeFencingToken.

(** ** The server *)

Class RedisClient (W : Type) := {
  rc_Eval : Script -> string -> W -> W * (error + Reply);
  rc_Get : string -> W -> W * (error + Value);
  rc_Set : string -> Value -> W -> W * option error }.

(** What Redis documents: a key holds a value, a script runs atomically, on a key
    that holds a claim or nothing.  A call may fail, also after it has taken
    effect. *)
Class RedisLaws (W : Type) `{!RedisClient W} `{!LuaNumbers} := {
  rs_inv : W -> Prop;
  rs_view : W -> string -> option Value;
  rs_get w key w' r : rs_inv w -> rc_Get key w = (w', r) ->
    rs_inv w' /\ (forall k, rs_view w' k = rs_view w k) /\ (forall v, r = inr v -> rs_view w key = Some v);
  rs_set w key v w' r : rs_inv w -> rc_Set key v w = (w', r) ->
    rs_inv w' /\ (forall k, k ≠ key -> rs_view w' k = rs_view w k) /\
    (rs_view w' key = rs_view w key /\ r ≠ None \/ rs_view w' key = Some v);
  rs_eval w sc key w' r o new rp : rs_inv w -> rc_Eval sc key w = (w', r) ->
    rs_view w key = VClaim <$> o -> run_script sc o = (new, rp) ->
    rs_inv w' /\ (forall k, k ≠ key -> rs_view w' k = rs_view w k) /\
    ((exists e, r = inl e) /\ rs_view w' key = rs_view w key \/
     ((exists e, r = inl e) \/ r = inr rp) /\ rs_view w' key = VClaim <$> match new with Some j => Some j | None => o end) }.

(** Running a program undisturbed, with a clock that reads [t], [t+1], ... *)
Fixpoint run {W A} `{!RedisClient W} (p : prog A) (t : Time) (w : W) : A * Time * W :=
  match p with
  | Ret a => (a, t, w)
  | CEval sc key k => let '(w, r) := rc_Eval sc key w in run (k r) t w
  | CGet key k => let '(w, r) := rc_Get key w in run (k r) t w
  | CSet key v k => let '(w, r) := rc_Set key v w in run (k r) t w
  | Now k => run (k t) (t + 1) w
  end.

(** [MemoryClient], the substitute for tests, executes no scripts; values are not
    printed. *)
Abbreviation MemoryClient := (gmap string Value).

Definition NewMemoryClient : MemoryClient := ∅.

Definition Client_Get (key : string) (m : MemoryClient) : MemoryClient * (error + Value) :=
  match m !! key with Some v => (m, inr v) | None => (m, inl (TextErr "nil")) end.

Definition Client_Set (key : string) (v : Value) (m : MemoryClient) : MemoryClient * option error :=
  (<[key := v]> m, None).

Definition Client_Del (keys : list string) (m : MemoryClient) : MemoryClient := foldl (fun m k => delete k m) m keys.

Definition Client_Eval (sc : Script) (key : string) (m : MemoryClient) : MemoryClient * (error + Reply) :=
  (m, inl (TextErr "memory client does not execute Lua; use integration Redis or memory backend")).

(** ** Examples of the parameters *)

(** A server that executes the scripts. *)
Record Server := mkServer { sv_data : gmap string Value }.

Definition claim_value (v : option Value) : option (ClaimJSON numlit) :=
  match v with Some (VClaim j) => Some j | _ => None end.

#[global] Instance server_client `{!LuaNumbers} : RedisClient Server := {|
  rc_Eval sc key w :=
    match run_script sc (claim_value (sv_data w !! key)) with
    | (Some j, rp) => (mkServer (<[key := VClaim j]> (sv_data w)), inr rp)
    | (None, rp) => (w, inr rp)
    end;
  rc_Get key w := (w, (Client_Get key (sv_data w)).2);
  rc_Set key v w := (mkServer (<[key := v]> (sv_data w)), None) |}.

#[global] Instance server_laws `{!LuaNumbers} : RedisLaws Server.
Proof.
  refine {| rs_inv _ := True; rs_view w k := sv_data w !! k |}.
  - intros w key w' r _ [= <- <-]. split; [done |]. split; [done |]. unfold Client_Get.
    intros v. destruct (sv_data w !! key); simpl; congruence.
  - intros w key v w' r _ [= <- <-]. split; [done |]. simpl. split; [by intros k ?; rewrite lookup_insert_ne |].
    right. by rewrite lookup_insert_eq.
  - intros w sc key w' r o new rp _ E Hv Hr. simpl in E. rewrite Hv in E.
    replace (claim_value (VClaim <$> o)) with o in E by by destruct o. rewrite Hr in E.
    destruct new as [j|]; injection E as <- <-; simpl; (split; [done |]).
    + split; [by intros k ?; rewrite lookup_insert_ne |]. right. split; [by right |]. by rewrite lookup_insert_eq.
    + split; [done |]. right. split; [by right | done].
Defined.

(** Numbers written in full. *)
Definition exact_numbers : LuaNumbers := {|
  lua_num z := z; cjson_num z := Plain z; cjson_val l := match l with Plain z => z | Expo m e => m * 10 ^ e end;
  go_renum l := l |}.

Lemma exact_laws : @LuaLaws exact_numbers.
Proof. by split. Qed.

(** Doubles and [%.14g]: [nearest d z] is [z / d], rounded to the nearest integer,
    to the even one of two. *)
Definition nearest (d z : Z) : Z :=
  let q := z / d in let r := z mod d in
  if bool_decide (2 * r < d) then q else if bool_decide (d < 2 * r) then q + 1 else if Z.even q then q else q + 1.

Definition round53 (z : Z) : Z :=
  if bool_decide (z <= 2 ^ 53) then z else let d := 2 ^ (Z.log2 z - 52) in nearest d z * d.

(** The decimal exponent. *)
Fixpoint exp10 (fuel : nat) (z : Z) : Z :=
  match fuel with
  | O => 0
  | S fuel => if bool_decide (z < 10) then 0 else 1 + exp10 fuel (z / 10)
  end.

Definition lit_value (l : numlit) : Z := match l with Plain z => z | Expo m e => m * 10 ^ e end.

Definition double_numbers : LuaNumbers := {|
  lua_num := round53;
  cjson_num z := if bool_decide (z < digits14) then Plain z else let e := exp10 400 z - 13 in Expo (nearest (10 ^ e) z) e;
  cjson_val l := round53 (lit_value l);
  go_renum l := Plain (lit_value l) |}.

Lemma nearest_floor d z : z / d <= nearest d z.
Proof. unfold nearest. repeat case_bool_decide; try lia. destruct (Z.even _); lia. Qed.

Lemma round53_large z : digits14 <= z -> digits14 <= round53 z.
Proof.
  unfold round53, digits14. intros Hz. case_bool_decide as E; [done |].
  assert (53 <= Z.log2 z) as Hl by (apply Z.log2_le_pow2; lia).
  destruct (Z.log2_spec z ltac:(lia)) as [Hs _]. set (k := Z.log2 z - 52) in *.
  assert (0 < 2 ^ k) as Hk by (apply Z.pow_pos_nonneg; lia).
  assert (2 ^ 52 <= z / 2 ^ k).
  { apply Z.div_le_lower_bound; [done |]. rewrite <- Z.pow_add_r by lia. by replace (k + 52) with (Z.log2 z) by lia. }
  pose proof (nearest_floor (2 ^ k) z). assert (2 ^ 1 <= 2 ^ k) by (apply Z.pow_le_mono_r; lia). nia.
Qed.

Lemma exp10_spec fuel z : 0 < z -> 0 <= exp10 fuel z /\ 10 ^ exp10 fuel z <= z.
Proof.
  revert z. induction fuel as [|fuel IH]; intros z Hz; simpl; [lia |]. case_bool_decide; [lia |].
  destruct (IH (z / 10)) as [H1 H2]; [apply Z.div_str_pos; lia |]. split; [lia |].
  rewrite Z.pow_add_r by lia. pose proof (Z.mul_div_le z 10 ltac:(lia)). lia.
Qed.

Lemma exp10_large n fuel z : 10 ^ Z.of_nat n <= z -> (n <= fuel)%nat -> Z.of_nat n <= exp10 fuel z.
Proof.
  revert n z. induction fuel as [|fuel IH]; intros n z Hz Hn; simpl; [lia |].
  destruct n as [|n]; [case_bool_decide; [lia |]; pose proof (exp10_spec fuel (z / 10) ltac:(apply Z.div_str_pos; lia)); lia |].
  rewrite Nat2Z.inj_succ, Z.pow_succ_r in Hz by lia.
  assert (0 < 10 ^ Z.of_nat n) by (apply Z.pow_pos_nonneg; lia). rewrite bool_decide_eq_false_2 by lia.
  specialize (IH n (z / 10)). ospecialize (IH _ _); [apply Z.div_le_lower_bound; lia | lia |]. lia.
Qed.

Lemma double_laws : @LuaLaws double_numbers /\ @LuaDefaultPrecision double_numbers.
Proof.
  split; split; cbn [lua_num cjson_num cjson_val go_renum double_numbers].
  - intros z Hz. unfold round53. by rewrite bool_decide_eq_true_2 by lia.
  - intros z Hz. by rewrite bool_decide_eq_true_2 by lia.
  - intros z Hz. cbn [lit_value]. unfold round53, digits14 in *. rewrite bool_decide_eq_true_2; [done |]. lia.
  - done.
  - apply round53_large.
  - intros z Hz. rewrite bool_decide_eq_false_2 by lia. cbn [lit_value]. apply round53_large.
    assert (0 < z) as Hp by (unfold digits14 in Hz; lia).
    destruct (exp10_spec 400 z Hp) as [He Hle]. pose proof (exp10_large 14 400 z Hz ltac:(lia)) as H14.
    set (e := exp10 400 z) in *. pose proof (nearest_floor (10 ^ (e - 13)) z) as Hn.
    assert (0 < 10 ^ (e - 13)) as Hpos by (apply Z.pow_pos_nonneg; lia).
    assert (10 ^ 13 <= z / 10 ^ (e - 13)) as Hq.
    { apply Z.div_le_lower_bound; [done |]. rewrite <- Z.pow_add_r by lia. by replace (e - 13 + 13) with e by lia. }
    assert (10 ^ 1 <= 10 ^ (e - 13)) by (apply Z.pow_le_mono_r; lia). unfold digits14. nia.
  - intros z Hz. rewrite bool_decide_eq_false_2 by lia. eauto.
Qed.

(** ** Safety of the Redis backend

    Any number of processes run the handlers of [Redis] against one server.  Their
    calls interleave one by one and fail, also after they took effect.  [safe] is a
    logic of programs: with [P] true of every claim the server ever stored and [RO]
    of every stored result, a safe program sends valid scripts and returns in [RO].
    It is used twice: results show claims as they were stored, for any way of
    writing numbers that keeps fourteen digits ([redis_exclusive]); and with the
    default precision of [cjson] no call succeeds ([redis_never_succeeds]). *)

#[local] Open Scope Z_scope.

#[global] Instance numlit_eq_dec : EqDecision numlit.
Proof. solve_decision. Defined.

#[global] Instance ClaimJSON_eq_dec {A} `{EqDecision A} : EqDecision (ClaimJSON A).
Proof. solve_decision. Defined.

(** Claims with their keys. *)
Abbreviation known := (list (string * ClaimJSON numlit)).

(** ** Keys *)

Lemma append_inj p a b : (p +:+ a) = (p +:+ b) -> a = b.
Proof. induction p as [|c p IH]; simpl; [done |]. intros [= E]. auto. Qed.

Lemma claimKey_inj prefix n m : claimKey prefix n = claimKey prefix m -> n = m.
Proof. intros E. by apply append_inj, append_inj in E. Qed.

(** The key spaces are disjoint. *)
Lemma opKey_claimKey prefix id n : opKey prefix id ≠ claimKey prefix n.
Proof. intros E. by apply append_inj in E. Qed.

(** ** Replies *)

(** The next condition of a script, decided. *)
Local Ltac script_if :=
  match goal with |- (if ?c then _ else _) = _ -> _ => let E := fresh "E" in destruct c eqn:E end.

Section Replies.
Context {LN : LuaNumbers}.

(** The text of a reply is that of the stored claim, or that text decoded and
    written again. *)
Definition reads_as (j jr : ClaimJSON numlit) : Prop := jr = j \/ jr = encode (decode j).

Definition reply_claim (rp : Reply) : option (ClaimJSON numlit) :=
  match rp with ROk j => Some j | RErr _ data => data end.

Lemma script_reply sc o new rp jr :
  run_script sc o = (new, rp) -> reply_claim rp = Some jr ->
  exists j, match new with Some j' => Some j' | None => o end = Some j /\ reads_as j jr.
Proof.
  assert (forall obj, set_return obj = (new, rp) -> reply_claim rp = Some jr ->
    exists j, match new with Some j' => Some j' | None => o end = Some j /\ reads_as j jr) as Hset.
  { intros obj [= <- <-] [= <-]. eexists. split; [done | by left]. }
  destruct sc as [gen ttl now name|gen tok|f to tok ttl now|f to tok ttl now|f tok|gen tok ttl now]; simpl;
    [unfold acquireScript; cbv zeta | unfold releaseScript | unfold prepareScript | unfold commitScript
    | unfold abortScript | unfold renewScript].
  - destruct (is_expired _ _ && is_held _) eqn:Ex; [cbn [expire j_phase is_held]; apply Hset |].
    destruct (is_held _) eqn:Eh; [|apply Hset]. case_bool_decide; [apply Hset |].
    intros [= <- <-] [= <-]. destruct o as [j|]; [|done]. exists j. split; [done | by right].
  - destruct o as [j|]; cbv zeta; [|by intros [= <- <-]]. repeat (script_if; [by intros [= <- <-] |]). apply Hset.
  - destruct o as [j|]; cbv zeta; [|by intros [= <- <-]]. repeat (script_if; [by intros [= <- <-] |]). apply Hset.
  - destruct o as [j|]; cbv zeta; [|by intros [= <- <-]]. repeat (script_if; [by intros [= <- <-] |]). apply Hset.
  - destruct o as [j|]; cbv zeta; [|by intros [= <- <-]]. script_if.
    + script_if; [|by intros [= <- <-]]. intros [= <- <-] [= <-]. exists j. split; [done | by right].
    + repeat (script_if; [by intros [= <- <-] |]). apply Hset.
  - destruct o as [j|]; cbv zeta; [|by intros [= <- <-]]. repeat (script_if; [by intros [= <- <-] |]). apply Hset.
Qed.
End Replies.

(** ** The logic *)

Section Logic.
Context {LN : LuaNumbers} (prefix : string) (clock : Time -> Prop).

(** A time a process reads, in nanoseconds. *)
Definition stamp (now : Z) : Prop := exists t, clock t /\ now = UnixNano t.

(** The scripts the handlers send for valid requests. *)
Definition script_ok (key : string) (sc : Script) : Prop :=
  match sc with
  | SAcquire gen _ now name => key = claimKey prefix name /\ gen ≠ "" /\ stamp now
  | SRelease gen _ => gen ≠ ""
  | SPrepare from to _ _ now => from ≠ "" /\ to ≠ "" /\ stamp now
  | SCommit _ _ _ _ now | SRenew _ _ _ now => stamp now
  | SAbort _ _ => True
  end.

(** [P]: of a claim under its key; [RO]: of a result, given the claims that were
    stored. *)
Class Facts (P : string -> ClaimJSON numlit -> Prop) (RO : known -> KResult -> Prop) := {
  fa_mono K K' r : K ⊆ K' -> RO K r -> RO K' r;
  fa_stored K r : RO K r -> RO K (result_stored (stored_of r));
  fa_error K e : RO K (None, Some e);
  fa_dropped K r : RO K r -> RO K (None, r.2);
  fa_claim K n j jr : P (claimKey prefix n) j -> reads_as j jr ->
    RO ((claimKey prefix n, j) :: K) (result_of (fromJSON jr));
  fa_held K n j jr e : P (claimKey prefix n) j -> reads_as j jr ->
    RO ((claimKey prefix n, j) :: K) (held_record (Some jr), Some e) }.

Context (P : string -> ClaimJSON numlit -> Prop) (RO : known -> KResult -> Prop).

Inductive safe {A} (Q : known -> A -> Prop) (K : known) : prog A -> Prop :=
| safe_ret a : Q K a -> safe Q K (Ret a)
| safe_eval sc n k :
    script_ok (claimKey prefix n) sc ->
    (forall e, safe Q K (k (inl e))) ->
    (forall code, safe Q K (k (inr (RErr code None)))) ->
    (forall j rp jr, P (claimKey prefix n) j -> reads_as j jr -> reply_claim rp = Some jr ->
       safe Q ((claimKey prefix n, j) :: K) (k (inr rp))) ->
    safe Q K (CEval sc (claimKey prefix n) k)
| safe_get_claim n k :
    (forall e, safe Q K (k (inl e))) ->
    (forall j, P (claimKey prefix n) j -> safe Q ((claimKey prefix n, j) :: K) (k (inr (VClaim j)))) ->
    safe Q K (CGet (claimKey prefix n) k)
| safe_get_op id k :
    (forall e, safe Q K (k (inl e))) ->
    (forall s L, RO L (result_stored s) -> safe Q (L ++ K) (k (inr (VOp s)))) ->
    safe Q K (CGet (opKey prefix id) k)
| safe_set_op id s k :
    RO K (result_stored s) -> (forall r, safe Q K (k r)) -> safe Q K (CSet (opKey prefix id) (VOp s) k)
| safe_now k : (forall t, clock t -> safe Q K (k t)) -> safe Q K (Now k).

Lemma rsafe_bind {A B} (Q : known -> A -> Prop) (R : known -> B -> Prop) K p f :
  safe Q K p -> (forall a K', K ⊆ K' -> Q K' a -> safe R K' (f a)) -> safe R K (bind p f).
Proof.
  induction 1 as [K a Hq|K sc n k Hsc _ IH1 _ IH2 _ IH3|K n k _ IH1 _ IH2|K id k _ IH1 _ IH2|K id s k Hr _ IH|K k _ IH];
    intros Hf; simpl.
  - by apply Hf.
  - apply safe_eval; [done | auto | auto |]. intros j rp jr Hj Hr Hp. eapply IH3; [done.. |]. intros a K' Hs. apply Hf. set_solver.
  - apply safe_get_claim; [auto |]. intros j Hj. apply IH2; [done |]. intros a K' Hs. apply Hf. set_solver.
  - apply safe_get_op; [auto |]. intros s L Hs. apply IH2; [done |]. intros a K' Hs'. apply Hf. set_solver.
  - apply safe_set_op; [done | auto].
  - apply safe_now. auto.
Qed.

Context `{!Facts P RO}.
Abbreviation safely := (safe RO).

Lemma recallOp_safe id K :
  safe (fun K r => match r with None => True | Some r => RO K r end) K (recallOp prefix id).
Proof.
  unfold recallOp, get. destruct (Empty id); [by constructor |]. cbn [bind]. apply safe_get_op.
  - intros e. by constructor.
  - intros s L Hs. constructor. eapply fa_mono; [|exact Hs]. set_solver.
Qed.

Lemma redis_recalled_safe id p K : (forall K', safely K' p) -> safely K (recalled prefix id p).
Proof.
  intros Hp. unfold recalled. eapply rsafe_bind; [apply recallOp_safe |]. intros [r|] K' _ Hr; [by constructor | apply Hp].
Qed.

Lemma redis_store_ret_safe id r K : RO K r -> safely K (store_ret prefix id r).
Proof.
  intros Hr. unfold store_ret, set. destruct (Empty id); [by constructor |]. cbn [bind].
  apply safe_set_op; [by apply fa_stored |]. intros _. by constructor.
Qed.

Lemma store_ok_safe id r K : RO K r -> safely K (store_ok prefix id r).
Proof. intros Hr. unfold store_ok. destruct r.2; [by constructor | by apply redis_store_ret_safe]. Qed.

(** A reply is turned into a result by a function that keeps to [RO]. *)
Lemma with_eval_safe op sc n f K :
  script_ok (claimKey prefix n) sc ->
  (forall K code, safely K (f (RErr code None))) ->
  (forall K j rp jr, P (claimKey prefix n) j -> reads_as j jr -> reply_claim rp = Some jr ->
     safely ((claimKey prefix n, j) :: K) (f rp)) ->
  safely K (with_eval prefix op sc n f).
Proof.
  intros Hsc He Hf. unfold with_eval, eval. cbn [bind]. apply safe_eval; [done | | auto | eauto].
  intros e. constructor. apply fa_error.
Qed.

Lemma parse_RO n j rp jr K :
  P (claimKey prefix n) j -> reads_as j jr -> reply_claim rp = Some jr ->
  RO ((claimKey prefix n, j) :: K) (parseResult rp).
Proof.
  intros Hj Hr E. destruct rp as [j'|code data]; simpl in *; [simplify_eq; by apply fa_claim | apply fa_error].
Qed.

Lemma now_safe f K : (forall t K', clock t -> safely K' (f t)) -> safely K (bind now f).
Proof. intros Hf. unfold now. cbn [bind]. apply safe_now. auto. Qed.

Lemma redis_GetClaim_safe n K : safely K (GetClaim prefix n).
Proof.
  unfold GetClaim, get. cbn [bind]. apply safe_get_claim; [intros e; constructor; apply fa_error |].
  intros j Hj. constructor. apply fa_claim; [done | by left].
Qed.

Lemma commit_call_safe req K : safely K (commit_call prefix req).
Proof.
  apply now_safe. intros t K' Ht. apply with_eval_safe; [by exists t | |].
  - intros K'' code. apply redis_store_ret_safe, fa_error.
  - intros K'' j rp jr Hj Hr E. apply redis_store_ret_safe. by eapply parse_RO.
Qed.

Lemma redis_handler_safe rq K : rq_valid rq -> safely K (handler prefix rq).
Proof.
  destruct rq as [r|r|r|r|r|r]; simpl; intros Hv.
  - apply redis_recalled_safe. intros K1. apply now_safe. intros t K2 Ht. apply with_eval_safe; [by split_and!; [|done|exists t] | |].
    + intros K3 code. case_bool_decide; apply redis_store_ret_safe; apply fa_error.
    + intros K3 j rp jr Hj Hr E. destruct rp as [j'|code data]; [apply redis_store_ret_safe; by eapply parse_RO |].
      simpl in E. subst data. case_bool_decide; apply redis_store_ret_safe; [by apply fa_held | apply fa_error].
  - apply redis_recalled_safe. intros K1. apply now_safe. intros t K2 Ht. apply with_eval_safe; [by exists t | |].
    + intros K3 code. apply store_ok_safe, fa_error.
    + intros K3 j rp jr Hj Hr E. apply store_ok_safe. by eapply parse_RO.
  - destruct Hv as [Hf Hto]. apply redis_recalled_safe. intros K1. apply now_safe. intros t K2 Ht.
    apply with_eval_safe; [by split_and!; [done|done|exists t] | |].
    + intros K3 code. apply store_ok_safe, fa_error.
    + intros K3 j rp jr Hj Hr E. apply store_ok_safe. by eapply parse_RO.
  - apply redis_recalled_safe. intros K1. eapply rsafe_bind; [apply redis_GetClaim_safe |].
    intros [[cur|] [e|]] K2 _ Hr; try apply commit_call_safe. destruct (committed_already r cur); [by apply redis_store_ret_safe | apply commit_call_safe].
  - apply redis_recalled_safe. intros K1. apply with_eval_safe; [done | |].
    + intros K3 code. apply store_ok_safe, fa_error.
    + intros K3 j rp jr Hj Hr E. apply store_ok_safe. by eapply parse_RO.
  - unfold ReleaseClaim. eapply rsafe_bind; [apply recallOp_safe |]. intros [[rec e]|] K1 _ Hr.
    + constructor. by apply (fa_dropped K1 (rec, e)).
    + apply with_eval_safe; [done | |].
      * intros K3 code. apply redis_store_ret_safe. by apply (fa_dropped _ (None, _)), fa_error.
      * intros K3 j rp jr Hj Hr' E. apply redis_store_ret_safe. apply (fa_dropped _ (parseResult rp)). by eapply parse_RO.
Qed.
End Logic.

(** ** Many processes on one server *)

Section System.
Context {LN : LuaNumbers} (prefix : string) (clock : Time -> Prop) {W : Type} `{!RedisClient W} `{!RedisLaws W}.

(** [rs_threads] holds the calls in progress, [rs_log] the claims the server has
    stored, newest first, [rs_replies] the results returned. *)
Record RSys := mkRSys {
  rs_world : W; rs_threads : gmap nat (prog KResult); rs_log : known; rs_replies : list KResult }.

Definition stored_at (w : W) (key : string) : option (ClaimJSON numlit) := claim_value (rs_view w key).

Definition note (key : string) (w w' : W) (log : known) : known :=
  match stored_at w' key with
  | Some j => if bool_decide (stored_at w key = Some j) then log else (key, j) :: log
  | None => log
  end.

(** One instruction of a call. *)
Inductive exec (w : W) (log : known) : prog KResult -> W -> known -> prog KResult -> Prop :=
| ex_eval sc key k w' r : rc_Eval sc key w = (w', r) -> exec w log (CEval sc key k) w' (note key w w' log) (k r)
| ex_get key k w' r : rc_Get key w = (w', r) -> exec w log (CGet key k) w' log (k r)
| ex_set key v k w' r : rc_Set key v w = (w', r) -> exec w log (CSet key v k) w' log (k r)
| ex_now k t : clock t -> exec w log (Now k) w log (k t).

Inductive rstep (s : RSys) : RSys -> Prop :=
| r_call t rq :
    rs_threads s !! t = None -> rq_valid rq ->
    rstep s (mkRSys (rs_world s) (<[t := handler prefix rq]> (rs_threads s)) (rs_log s) (rs_replies s))
| r_read t claim :
    rs_threads s !! t = None ->
    rstep s (mkRSys (rs_world s) (<[t := GetClaim prefix claim]> (rs_threads s)) (rs_log s) (rs_replies s))
| r_exec t pr w' log' pr' :
    rs_threads s !! t = Some pr -> exec (rs_world s) (rs_log s) pr w' log' pr' ->
    rstep s (mkRSys w' (<[t := pr']> (rs_threads s)) log' (rs_replies s))
| r_return t r :
    rs_threads s !! t = Some (Ret r) ->
    rstep s (mkRSys (rs_world s) (delete t (rs_threads s)) (rs_log s) (r :: rs_replies s))
| r_crash t : rstep s (mkRSys (rs_world s) (delete t (rs_threads s)) (rs_log s) (rs_replies s)).

Definition started (w : W) : RSys := mkRSys w ∅ [] [].

Definition newest (key : string) (log : known) : option (ClaimJSON numlit) :=
  snd <$> head (filter (fun x => x.1 = key) log).

Lemma claim_newest_in key log j : newest key log = Some j -> (key, j) ∈ log.
Proof.
  unfold newest. intros (x & H & ->)%fmap_Some. destruct (filter _ log) as [|y t] eqn:E; [done |]. simplify_eq/=.
  assert (x ∈ filter (fun x => x.1 = key) log) as [? ?]%list_elem_of_filter; [rewrite E; set_solver |].
  destruct x; simpl in *; congruence.
Qed.

Lemma newest_cons key j log k :
  newest k ((key, j) :: log) = if decide (key = k) then Some j else newest k log.
Proof. unfold newest. rewrite filter_cons. simpl. by case_decide. Qed.

Context (P : string -> ClaimJSON numlit -> Prop) (RO : known -> KResult -> Prop) `{!Facts prefix P RO}.
Abbreviation safely := (safe prefix clock P RO RO).

Lemma RO_mono K K' r : K ⊆ K' -> RO K r -> RO K' r.
Proof. eapply fa_mono. exact _. Qed.

Record store_inv (w : W) (log : known) : Prop := mkStoreInv {
  si_server : rs_inv w;
  si_claim n : rs_view w (claimKey prefix n) = VClaim <$> newest (claimKey prefix n) log;
  si_op id v : rs_view w (opKey prefix id) = Some v -> exists s, v = VOp s /\ RO log (result_stored s) }.

Record rsys_inv (s : RSys) : Prop := mkRInv {
  ri_store : store_inv (rs_world s) (rs_log s);
  ri_log key j : (key, j) ∈ rs_log s -> P key j;
  ri_threads t pr : rs_threads s !! t = Some pr -> exists K, K ⊆ rs_log s /\ safely K pr;
  ri_replies r : r ∈ rs_replies s -> RO (rs_log s) r }.

(** The claims stored so far, after a step: the same, or one more, written by a
    valid script. *)
Inductive grows (log : known) : known -> Prop :=
| grows_same : grows log log
| grows_by n sc j rp :
    script_ok prefix clock (claimKey prefix n) sc ->
    run_script sc (newest (claimKey prefix n) log) = (Some j, rp) ->
    grows log ((claimKey prefix n, j) :: log).

(** A log may grow only to claims in [P]. *)
Definition keeps (log : known) : Prop := forall key j log', grows log ((key, j) :: log') -> P key j.

Lemma grows_subset log log' : grows log log' -> log ⊆ log'.
Proof. destruct 1; set_solver. Qed.

Record exec_effect (log : known) (w' : W) (log' : known) (pr' : prog KResult) : Prop := mkExecEffect {
  ee_store : store_inv w' log';
  ee_grows : grows log log';
  ee_safe : exists K, K ⊆ log' /\ safely K pr' }.

Lemma stored_claim w log n : store_inv w log -> stored_at w (claimKey prefix n) = newest (claimKey prefix n) log.
Proof. intros Hs. unfold stored_at. rewrite (si_claim _ _ Hs). by destruct (newest _ _). Qed.

(** The store after a call that changed at most the claim [n]. *)
Lemma store_inv_claim w w' log n o :
  store_inv w log -> rs_inv w' -> (forall k, k ≠ claimKey prefix n -> rs_view w' k = rs_view w k) ->
  rs_view w' (claimKey prefix n) = VClaim <$> o ->
  (newest (claimKey prefix n) log = None \/ o ≠ None) ->
  store_inv w' (note (claimKey prefix n) w w' log) /\
  (note (claimKey prefix n) w w' log = log \/ exists j, o = Some j /\ note (claimKey prefix n) w w' log = (claimKey prefix n, j) :: log) /\
  (forall j, o = Some j -> newest (claimKey prefix n) (note (claimKey prefix n) w w' log) = Some j).
Proof.
  intros Hs Hi Hother Hkey Ho. pose proof (stored_claim w log n Hs) as Hst. set (key := claimKey prefix n) in *.
  assert (stored_at w' key = o) as Hst' by (unfold stored_at; rewrite Hkey; by destruct o).
  set (log' := note key w w' log).
  assert ((o = newest key log /\ log' = log) \/ (exists j, o = Some j /\ log' = (key, j) :: log)) as Hlog.
  { unfold log', note. rewrite Hst', Hst. destruct o as [j|].
    - case_bool_decide as E; [left; by rewrite E | right; eauto].
    - left. destruct Ho as [Ho|Ho]; [by rewrite Ho | done]. }
  assert (forall j, o = Some j -> newest key log' = Some j) as Hnew.
  { intros j Eo. destruct Hlog as [[E ->]|(j' & Ej & ->)]; [congruence |]. rewrite newest_cons, decide_True by done. congruence. }
  split; [|split; [destruct Hlog as [[_ ->]|]; auto | done]].
  assert (log ⊆ log') as Hsub by (destruct Hlog as [[_ ->]|(j' & _ & ->)]; set_solver).
  split; [done | |].
  - intros m. destruct (decide (claimKey prefix m = key)) as [E|Hm].
    + rewrite E, Hkey. destruct o as [j|]; [by rewrite (Hnew j eq_refl) |].
      destruct Hlog as [[Eo ->]|(? & ? & _)]; [by rewrite <- Eo | done].
    + rewrite Hother, (si_claim _ _ Hs) by done. destruct Hlog as [[_ ->]|(j & _ & ->)]; [done |].
      rewrite newest_cons. by rewrite decide_False by congruence.
  - intros id v. rewrite Hother by apply opKey_claimKey. intros E.
    destruct (si_op _ _ Hs id v E) as (s & -> & H). exists s. split; [done |]. by eapply RO_mono.
Qed.

Lemma store_inv_same w w' log :
  store_inv w log -> rs_inv w' -> (forall k, rs_view w' k = rs_view w k) -> store_inv w' log.
Proof.
  intros [H1 H2 H3] Hi Hv. split; [done | |].
  - intros n. by rewrite Hv.
  - intros id v. rewrite Hv. apply H3.
Qed.

Lemma redis_exec_ok w log pr w' log' pr' K :
  store_inv w log -> (forall key j, (key, j) ∈ log -> P key j) -> keeps log -> K ⊆ log ->
  safely K pr -> exec w log pr w' log' pr' -> exec_effect log w' log' pr'.
Proof.
  intros Hst Hlog Hkeep HK Hs Hx. pose proof (si_server _ _ Hst) as Hi.
  destruct Hx as [sc key k w' r E|key k w' r E|key v k w' r E|k t Ht]; inversion Hs; subst.
  - destruct (run_script sc (newest (claimKey prefix n) log)) as [new rp] eqn:Er.
    destruct (rs_eval _ _ _ _ _ _ _ _ Hi E (si_claim _ _ Hst n) Er) as (Hi' & Hother & Hres).
    set (o := match new with Some j => Some j | None => newest (claimKey prefix n) log end) in *.
    destruct Hres as [[[e ->] Hv]|[Hr Hv]].
    + destruct (store_inv_claim w w' log n (newest (claimKey prefix n) log)) as (H1' & H2' & _); [done | done | done | | |].
      { rewrite Hv. apply (si_claim _ _ Hst). }
      { destruct (newest _ log); auto. }
      assert (note (claimKey prefix n) w w' log = log) as ->.
      { unfold note, stored_at. rewrite Hv, (si_claim _ _ Hst). destruct (newest _ log); [|done]. simpl. by rewrite bool_decide_eq_true_2. }
      split; [by eapply store_inv_same; [..|intros k'; destruct (decide (k' = claimKey prefix n)) as [->|?]; [|auto]] | constructor | eauto].
    + destruct (store_inv_claim w w' log n o) as (Hst' & Hnote & Hnew); [done | done | done | done | |].
      { unfold o. destruct new; [by right |]. destruct (newest _ log); auto. }
      assert (grows log (note (claimKey prefix n) w w' log)) as Hg.
      { destruct Hnote as [->|(j & Ej & Hn)]; [constructor |]. unfold o in Ej. destruct new as [j'|]; [simplify_eq|].
        - rewrite Hn. by eapply grows_by.
        - assert (note (claimKey prefix n) w w' log = log) as ->; [|constructor].
          unfold note. rewrite (stored_claim _ _ _ Hst). unfold stored_at. rewrite Hv. unfold o. rewrite Ej. simpl. by rewrite bool_decide_eq_true_2. }
      pose proof (grows_subset _ _ Hg) as Hsub. split; [done | done |].
      destruct Hr as [[e ->]| ->]; [exists K; split; [set_solver | auto] |].
      destruct (reply_claim rp) as [jr|] eqn:Ej.
      * destruct (script_reply _ _ _ _ _ Er Ej) as (j & Eo & Hreads). specialize (Hnew j Eo).
        assert ((claimKey prefix n, j) ∈ note (claimKey prefix n) w w' log) as Hin by by apply claim_newest_in.
        exists ((claimKey prefix n, j) :: K). split; [set_solver |].
        match goal with H : forall j rp jr, P _ j -> _ |- _ => eapply H; [|exact Hreads|exact Ej] end.
        destruct Hnote as [Hn|(j' & Ej' & Hn)].
        -- rewrite Hn in Hin. auto.
        -- rewrite Hn in Hg. rewrite Hn in Hin. apply elem_of_cons in Hin as [[= ->]|Hin]; [by eapply Hkeep | auto].
      * exists K. split; [set_solver |]. destruct rp as [?|code [?|]]; simplify_eq/=. auto.
  - destruct (rs_get _ _ _ _ Hi E) as (Hi' & Hv & Hr).
    split; [by eapply store_inv_same | constructor |].
    destruct r as [e|v]; [eauto |]. specialize (Hr v eq_refl). rewrite (si_claim _ _ Hst) in Hr.
    destruct (newest (claimKey prefix n) log) as [j|] eqn:En; simplify_eq/=. apply claim_newest_in in En.
    exists ((claimKey prefix n, j) :: K). split; [set_solver | auto].
  - destruct (rs_get _ _ _ _ Hi E) as (Hi' & Hv & Hr).
    split; [by eapply store_inv_same | constructor |].
    destruct r as [e|v]; [eauto |]. destruct (si_op _ _ Hst _ _ (Hr v eq_refl)) as (s & -> & HR).
    exists (log ++ K). split; [set_solver | auto].
  - destruct (rs_set _ _ _ _ _ Hi E) as (Hi' & Hother & Hv). split; [| constructor | eauto].
    split; [done | |].
    + intros n. rewrite Hother by (intros E'; by apply (opKey_claimKey prefix id n)). apply (si_claim _ _ Hst).
    + intros id' v Ev. destruct (decide (opKey prefix id' = opKey prefix id)) as [Ek|Hne].
      * rewrite Ek in Ev. destruct Hv as [[Hv _]|Hv]; rewrite Hv in Ev; [by apply (si_op _ _ Hst id) |].
        injection Ev as <-. eexists. split; [done |]. eapply RO_mono; [exact HK | done].
      * rewrite Hother in Ev by done. by apply (si_op _ _ Hst id').
  - split; [done | constructor |]. exists K. split; [done | auto].
Qed.

Lemma rstep_ok s s' :
  rsys_inv s -> keeps (rs_log s) -> rstep s s' -> rsys_inv s' /\ grows (rs_log s) (rs_log s').
Proof.
  intros [Hst Hlog Hth Hrep] Hkeep Hs. destruct Hs as [t rq Hn Hv|t claim Hn|t pr w' log' pr' E Hx|t r E|t]; simpl.
  - split; [|constructor]. split; [done | done | | done]. simpl.
    intros t' pr [[-> <-]|[_ E]]%lookup_insert_Some; [|eauto]. exists []. split; [set_solver | by apply redis_handler_safe].
  - split; [|constructor]. split; [done | done | | done]. simpl.
    intros t' pr [[-> <-]|[_ E]]%lookup_insert_Some; [|eauto]. exists []. split; [set_solver | by apply redis_GetClaim_safe].
  - destruct (Hth _ _ E) as (K & HK & Hsafe).
    destruct (redis_exec_ok _ _ _ _ _ _ _ Hst Hlog Hkeep HK Hsafe Hx) as [Hst' Hg Hsafe'].
    pose proof (grows_subset _ _ Hg) as Hsub. split; [|done]. split; simpl; [done | | |].
    + intros key j Hin. destruct Hg as [|n sc j' rp Hsc Hrun]; [auto |].
      apply elem_of_cons in Hin as [[= -> ->]|Hin]; [by eapply Hkeep, grows_by | auto].
    + intros t' pr'' [[-> <-]|[_ E']]%lookup_insert_Some; [done |].
      destruct (Hth _ _ E') as (K' & HK' & H). exists K'. split; [set_solver | done].
    + intros r Hin. eapply RO_mono; [exact Hsub | auto].
  - split; [|constructor]. split; simpl; [done | done | |].
    + intros t' pr [_ E']%lookup_delete_Some. eauto.
    + intros r' [->|Hin]%elem_of_cons; [|auto]. destruct (Hth _ _ E) as (K & HK & Hsafe). inversion Hsafe; subst.
      by eapply RO_mono.
  - split; [|constructor]. split; simpl; [done | done | | done]. intros t' pr [_ E']%lookup_delete_Some. eauto.
Qed.

Lemma redis_started_inv w :
  rs_inv w -> (forall k, rs_view w k = None) -> rsys_inv (started w).
Proof.
  intros Hi Hn. split; simpl.
  - split; [done | intros n; by rewrite Hn | intros id v; by rewrite Hn].
  - by intros key j ?%elem_of_nil.
  - intros t pr. by rewrite lookup_empty.
  - by intros r ?%elem_of_nil.
Qed.
End System.

(** ** Claims as cells *)

Section Cells.
Context {LN : LuaNumbers} {LL : LuaLaws} (prefix : string).

(** The successor counts in the reserved phase only: [renewScript] leaves it in an
    expired claim. *)
Definition table_cell (obj : ClaimJSON Z) : cell :=
  mkCell (j_owner obj) (j_token obj) (phase_of (j_phase obj)) (if bool_decide (j_phase obj = reserved) then j_successor obj else "").

Definition json_token (j : ClaimJSON numlit) : Z := match j_token j with Plain z => z | Expo _ _ => 0 end.

Definition json_cell (j : ClaimJSON numlit) : cell :=
  mkCell (j_owner j) (json_token j) (phase_of (j_phase j)) (if bool_decide (j_phase j = reserved) then j_successor j else "").

Record good_claim (key : string) (j : ClaimJSON numlit) : Prop := mkGood {
  gc_key : key = claimKey prefix (j_name j);
  gc_token : exists t, j_token j = Plain t /\ 0 <= t < digits14;
  gc_phase : known_phase (j_phase j);
  gc_wf : cell_wf (json_cell j) }.

Lemma decode_cell key j : good_claim key j -> table_cell (decode j) = json_cell j.
Proof.
  intros [_ (t & Et & Ht) _ _]. unfold table_cell, json_cell, json_token. simpl. rewrite Et. by rewrite cjson_back.
Qed.

(** What a script writes follows what it read. *)
Record follows (obj obj' : ClaimJSON Z) : Prop := mkFollows {
  fo_name : j_name obj' = j_name obj;
  fo_phase : known_phase (j_phase obj');
  fo_token : j_token obj' <= j_token obj + 1;
  fo_cell : steps cell_trans (table_cell obj) (table_cell obj') }.

Lemma encode_good obj obj' :
  cell_wf (table_cell obj) -> j_token obj + 1 < digits14 -> follows obj obj' ->
  good_claim (claimKey prefix (j_name obj)) (encode obj') /\ json_cell (encode obj') = table_cell obj'.
Proof.
  intros Hw Hb [Hn Hp Ht Hc]. assert (cell_wf (table_cell obj')) as Hw' by by eapply cell_steps_wf.
  assert (0 <= j_token obj' < digits14) as Hr by (pose proof (wf_range _ Hw') as H; simpl in H; lia).
  assert (json_cell (encode obj') = table_cell obj') as Ec.
  { unfold json_cell, json_token. simpl. by rewrite cjson_plain. }
  split; [|done]. split; [by simpl; rewrite Hn | | done | by rewrite Ec].
  eexists. split; [simpl; by rewrite cjson_plain | done].
Qed.

Lemma table_held obj : known_phase (j_phase obj) -> is_held (j_phase obj) = bool_decide (held (table_cell obj)).
Proof. intros Hp. rewrite is_held_phase by done. by apply bool_decide_ext. Qed.

Lemma table_owned obj : cell_wf (table_cell obj) -> j_owner obj ≠ "" -> held (table_cell obj).
Proof. intros Hw Ho Hu. by apply Ho, (wf_unowned _ Hw). Qed.

Lemma expire_follows succ obj :
  cell_wf (table_cell obj) -> known_phase (j_phase obj) -> follows obj (expire succ obj).
Proof.
  intros Hw Hp. split; simpl; [done | by left | lia |].
  destruct (decide (held (table_cell obj))) as [Hh|Hh].
  - eapply cell_step_steps, (cell_expire (table_cell obj)). done.
  - unfold held in Hh. assert (phase_of (j_phase obj) = ClaimUnowned) as Eu by (destruct (decide (phase_of (j_phase obj) = ClaimUnowned)); tauto).
    assert (table_cell (expire succ obj) = table_cell obj) as ->; [|constructor].
    pose proof (wf_unowned _ Hw Eu) as Eo. pose proof (phase_unowned _ Hp Eu) as Ep. unfold table_cell. simpl in *.
    by rewrite Eo, Ep.
Qed.

Lemma renew_follows ttl now obj : known_phase (j_phase obj) -> follows obj (renew ttl now obj).
Proof. intros Hp. split; simpl; [done | done | lia | constructor]. Qed.

Lemma next_token obj :
  cell_wf (table_cell obj) -> j_token obj + 1 < digits14 ->
  lua_num (j_token obj + 1) = j_token obj + 1 /\ j_token obj < MaxSafeFencingToken.
Proof.
  intros Hw Hb. pose proof (wf_range _ Hw) as Hr. simpl in Hr. unfold digits14 in Hb.
  split; [apply lua_exact; lia |]. rewrite MaxSafe_value. unfold u64_modulus. lia.
Qed.

(** A taken claim. *)
Lemma acquire_follows obj name gen now exp prev ver :
  cell_wf (table_cell obj) -> known_phase (j_phase obj) -> j_token obj + 1 < digits14 ->
  is_held (j_phase obj) = false -> gen ≠ "" -> name = j_name obj ->
  follows obj (mkJ name gen (lua_num (j_token obj + 1)) owned now exp prev "" "" "" now "acquired" ver).
Proof.
  intros Hw Hp Hb Hh Hg ->. destruct (next_token obj Hw Hb) as [-> Hmax]. split; simpl; [done | right; by left | lia |].
  apply (cell_step_steps _ (EvAcquire gen)), (cell_acquire (table_cell obj)); [|done | done].
  rewrite table_held in Hh by done. apply bool_decide_eq_false in Hh. unfold held in Hh. simpl in *.
  destruct (decide (phase_of (j_phase obj) = ClaimUnowned)); tauto.
Qed.

Lemma follows_trans a b c : j_token b = j_token a -> follows a b -> follows b c -> follows a c.
Proof.
  intros Et [H1 H2 H3 H4] [G1 G2 G3 G4]. split; [congruence | done | lia | by eapply steps_app].
Qed.
End Cells.

Section Scripts.
Context {LN : LuaNumbers} {LL : LuaLaws} (prefix : string) (clock : Time -> Prop).

(** The table a script starts from. *)
Definition table_of (name : string) (o : option (ClaimJSON numlit)) : ClaimJSON Z := from_option decode (fresh_claim name) o.

(** Every value a script writes is written by one of these. *)
Definition writes (obj : ClaimJSON Z) (x : option (ClaimJSON numlit) * Reply) : Prop :=
  forall j, x.1 = Some j -> exists obj', j = encode obj' /\ follows obj obj'.

Lemma writes_set obj obj' : follows obj obj' -> writes obj (set_return obj').
Proof. intros Hf j [= <-]. by exists obj'. Qed.

Lemma writes_expire obj obj' rp : follows obj obj' -> writes obj (Some (encode obj'), rp).
Proof. intros Hf j [= <-]. by exists obj'. Qed.

Lemma writes_nothing obj rp : writes obj (None, rp).
Proof. by intros j. Qed.

Local Ltac next E := match goal with |- writes _ (if ?c then _ else _) => destruct c eqn:E end.

Local Ltac use_bool :=
  repeat match goal with
  | H : negb _ = true |- _ => apply negb_true_iff in H
  | H : negb _ = false |- _ => apply negb_false_iff in H
  | H : bool_decide _ = true |- _ => apply bool_decide_eq_true in H
  | H : bool_decide _ = false |- _ => apply bool_decide_eq_false in H
  | H : _ || _ = false |- _ => apply orb_false_iff in H as [? ?]
  | H : _ && _ = true |- _ => apply andb_true_iff in H as [? ?]
  end.

#[local] Hint Resolve writes_nothing writes_set writes_expire expire_follows renew_follows : core.

Lemma acquire_writes gen ttl now name o :
  let obj := table_of name o in
  gen ≠ "" -> j_name obj = name -> cell_wf (table_cell obj) -> known_phase (j_phase obj) -> j_token obj + 1 < digits14 ->
  writes obj (acquireScript gen ttl now name o).
Proof.
  intros obj Hg Hn Hw Hp Hb. unfold acquireScript. cbv zeta. fold (table_of name o). change (table_of name o) with obj.
  destruct (is_expired _ _ && is_held _) eqn:Ex.
  - change (is_held (j_phase (expire "" obj))) with false. cbv match. apply writes_set.
    assert (follows obj (expire "" obj)) as Hf by auto.
    eapply (follows_trans _ (expire "" obj)); [done | done |].
    apply acquire_follows; [by eapply cell_steps_wf; [|apply fo_cell] | by left | done | done | done | by simpl].
  - next Eh; [next Eo; auto |]. apply writes_set. by apply acquire_follows.
Qed.

Lemma other_writes key sc j :
  match sc with SAcquire _ _ _ _ => False | _ => True end ->
  good_claim prefix key j -> script_ok prefix clock key sc -> j_token (decode j) + 1 < digits14 ->
  writes (decode j) (run_script sc (Some j)).
Proof.
  intros Hsc Hgood Hok Hb. pose proof (decode_cell prefix key j Hgood) as Ec. destruct Hgood as [_ _ Hp Hw].
  rewrite <- Ec in Hw. change (j_phase j) with (j_phase (decode j)) in Hp.
  destruct sc as [|gen tok|f to tok ttl now|f to tok ttl now|f tok|gen tok ttl now]; cbn [run_script]; [done |..]; simpl in Hok.
  - unfold releaseScript. cbv zeta. next Et; [apply writes_nothing|]. next Eo; [apply writes_nothing|]. use_bool.
    apply writes_set. split; simpl; [done | by left | lia |].
    apply (cell_step_steps _ EvRelease), (cell_release (table_cell (decode j))). apply table_owned; [done | simpl in *; congruence].
  - unfold prepareScript. cbv zeta. next Ex; [auto|]. next Eo; [apply writes_nothing|].
    next Et; [apply writes_nothing|]. next Ec'; [apply writes_nothing|]. use_bool. destruct Hok as (Hf & Hto & _).
    apply writes_set. split; simpl; [done | right; right; by left | lia |].
    assert (held (table_cell (decode j))) as Hh by (apply table_owned; [done | simpl in *; congruence]).
    destruct (decide (j_phase j = reserved)) as [Er|Er].
    + assert (phase_of (j_phase j) = ClaimReserved) as Er' by by apply phase_reserved.
      pose proof (wf_reserved _ Hw Er') as Hs. unfold table_cell in Hs. simpl in Hs, Ec'. rewrite Er in *.
      rewrite (bool_decide_eq_true_2 (reserved = reserved) eq_refl) in *. simpl in Ec', Hs.
      rewrite (bool_decide_eq_false_2 (j_successor j = "") Hs) in Ec'. simpl in Ec'. use_bool.
      unfold table_cell. simpl. rewrite Er, <- Ec'. constructor.
    + apply (cell_step_steps _ (EvReserve to)), (cell_reserve (table_cell (decode j))); [done | | done].
      simpl. by rewrite phase_reserved.
  - unfold commitScript. cbv zeta. next Ex; [auto|]. next Er; [apply writes_nothing|].
    next Eo; [apply writes_nothing|]. next Et; [apply writes_nothing|]. use_bool.
    destruct (next_token (decode j) Hw Hb) as [-> Hmax]. apply writes_set. split; simpl; [done | right; by left | lia |].
    pose proof (cell_commit (table_cell (decode j))) as Hc. unfold table_cell in Hc at 4. simpl in Hc, Er.
    rewrite Er in Hc. rewrite (bool_decide_eq_true_2 (reserved = reserved) eq_refl) in Hc.
    eapply cell_step_steps. unfold table_cell at 2. simpl.
    match goal with H : j_successor _ = to |- _ => simpl in H; rewrite <- H end. by apply Hc.
  - unfold abortScript. cbv zeta. next Er; [next Eo; apply writes_nothing|]. next Et; [apply writes_nothing|].
    next Eo; [apply writes_nothing|]. use_bool. apply writes_set. split; simpl; [done | right; by left | lia |].
    apply (cell_step_steps _ EvAbort), (cell_abort (table_cell (decode j))). simpl in *. by apply phase_reserved.
  - unfold renewScript. cbv zeta. next Ex; [auto|]. next Eo; [apply writes_nothing|]. next Et; [apply writes_nothing|]. auto.
Qed.

(** A valid script moves the claim along the specification. *)
Lemma script_cell n sc o j rp :
  (forall j0, o = Some j0 -> good_claim prefix (claimKey prefix n) j0 /\ json_token j0 + 1 < digits14) ->
  script_ok prefix clock (claimKey prefix n) sc -> run_script sc o = (Some j, rp) ->
  good_claim prefix (claimKey prefix n) j /\ steps cell_trans (from_option json_cell cell0 o) (json_cell j) /\
  json_token j <= from_option json_token 0 o + 1.
Proof.
  intros Ho Hok Hrun.
  assert (exists obj, table_cell obj = from_option json_cell cell0 o /\ j_name obj = n /\
    cell_wf (table_cell obj) /\ j_token obj + 1 < digits14 /\ writes obj (run_script sc o)) as (obj & Ec & En & Hw & Hb & Hwr).
  { destruct o as [j0|]; simpl.
    - destruct (Ho j0 eq_refl) as [Hg Hb]. pose proof (decode_cell prefix _ _ Hg) as Ec.
      pose proof (claimKey_inj _ _ _ (gc_key _ _ _ Hg)) as En.
      assert (j_token (decode j0) = json_token j0) as Et by by apply (f_equal c_token) in Ec.
      exists (decode j0). split; [done |]. split; [done |]. split; [rewrite Ec; apply Hg |]. split; [by rewrite Et |].
      destruct sc as [gen ttl now name|?|?|?|?|?]; try (eapply other_writes; [done | exact Hg | exact Hok | by rewrite Et]).
      destruct Hok as (Ek%claimKey_inj & Hgen & _). apply (acquire_writes gen ttl now name (Some j0)); [done | simpl; congruence | | | ].
      + change (table_of name (Some j0)) with (decode j0). rewrite Ec. apply Hg.
      + apply Hg.
      + change (table_of name (Some j0)) with (decode j0). by rewrite Et.
    - exists (fresh_claim n). split; [done |]. split; [done |]. split; [apply cell0_wf |]. split; [done |].
      destruct sc as [gen ttl now name|?|?|?|?|?]; try apply writes_nothing.
      destruct Hok as (Ek%claimKey_inj & Hgen & _). subst name.
      apply (acquire_writes gen ttl now n None); [done | done | apply cell0_wf | by left | done]. }
  rewrite Hrun in Hwr. destruct (Hwr j eq_refl) as (obj' & -> & Hf).
  destruct (encode_good prefix obj obj' Hw Hb Hf) as [Hg Ej]. rewrite En in Hg. split; [done |]. rewrite Ej, <- Ec.
  split; [apply Hf |]. change (json_token (encode obj')) with (c_token (json_cell (encode obj'))). rewrite Ej. simpl.
  destruct o as [j0|]; simpl.
  - change (json_token j0) with (c_token (from_option json_cell cell0 (Some j0))). rewrite <- Ec. apply Hf.
  - change 0 with (c_token (from_option json_cell cell0 None)). rewrite <- Ec. apply Hf.
Qed.
End Scripts.

(** ** No two owners at one token *)

Section Exclusive.
Context {LN : LuaNumbers} {LL : LuaLaws} (prefix : string) {W : Type} `{!RedisClient W} `{!RedisLaws W}.
Abbreviation any_clock := (fun _ : Time => True).
Abbreviation rstep := (rstep prefix any_clock).

(** The record shows the owner, token and phase the claim was stored with. *)
Record shows (j : ClaimJSON numlit) (rec : KRecord) : Prop := mkShows {
  sh_owner : k_Owner rec = j_owner j;
  sh_token : j_token j = Plain (k_Token rec);
  sh_phase : k_Phase rec = j_phase j }.

Definition from_claims (K : known) (r : KResult) : Prop :=
  forall rec, r.1 = Some rec -> exists j, (claimKey prefix (k_Name rec), j) ∈ K /\ shows j rec.

Lemma fromJSON_shows j jr rec t :
  j_name jr = j_name j -> j_owner jr = j_owner j -> j_phase jr = j_phase j ->
  j_token j = Plain t -> j_token jr = Plain t -> fromJSON jr = inr rec ->
  k_Name rec = j_name j /\ shows j rec.
Proof.
  intros En Eo Ep Et Et'. unfold fromJSON. rewrite Et'. unfold json_u64 at 1.
  case_bool_decide; [|done]. repeat (case_match; [|done]). intros [= <-]. split; [done |]. by split.
Qed.

Lemma reads_as_shows n j jr f rec :
  good_claim prefix (claimKey prefix n) j -> reads_as j jr -> (forall t, 0 <= t < digits14 -> f (Plain t) = Plain t) ->
  fromJSON (jmap f jr) = inr rec -> k_Name rec = n /\ shows j rec.
Proof.
  intros [Ek%claimKey_inj (t & Et & Ht) _ _] Hr Hf E. subst n.
  eapply (fromJSON_shows j (jmap f jr)); [| | | exact Et | | exact E]; destruct Hr as [->| ->]; simpl; try done.
  - rewrite Et. by apply Hf.
  - rewrite Et, cjson_back, cjson_plain by done. by apply Hf.
Qed.

#[local] Instance claims_facts : Facts prefix (good_claim prefix) from_claims.
Proof.
  split.
  - intros K K' r Hs Hr rec E. destruct (Hr rec E) as (j & Hin & Hj). exists j. split; [by apply Hs | done].
  - intros K r Hr. exact Hr.
  - by intros K e rec.
  - by intros K r _ rec.
  - intros K n j jr Hj Hr rec E. destruct (fromJSON jr) as [e|rec'] eqn:Ej; simplify_eq/=.
    destruct (reads_as_shows n j jr id rec Hj Hr) as [En Hs]; [done | by destruct jr |].
    exists j. rewrite En. split; [by left | done].
  - intros K n j jr e Hj Hr rec E. simpl in E. destruct (fromJSON (jmap go_renum jr)) as [e'|rec'] eqn:Ej; simplify_eq/=.
    destruct (reads_as_shows n j jr go_renum rec Hj Hr) as [En Hs]; [apply go_renum_plain | done |].
    exists j. rewrite En. split; [by left | done].
Qed.

(** Newer texts of a claim follow older ones. *)
Fixpoint chain (log : known) : Prop :=
  match log with
  | [] => True
  | (key, j) :: older => (forall j', (key, j') ∈ older -> steps cell_trans (json_cell j') (json_cell j)) /\ chain older
  end.

Lemma chain_newest log key j :
  chain log -> (key, j) ∈ log -> exists cur, newest key log = Some cur /\ steps cell_trans (json_cell j) (json_cell cur).
Proof.
  induction log as [|[k0 j0] log IH]; [by intros _ ?%elem_of_nil |]. intros [Hx Hc] Hin. rewrite newest_cons.
  apply elem_of_cons in Hin as [[= <- <-]|Hin].
  - rewrite decide_True by done. exists j. split; [done | constructor].
  - case_decide as E; [subst; eauto | by apply IH].
Qed.

Lemma claim_chain_ordered log key j1 j2 :
  chain log -> (key, j1) ∈ log -> (key, j2) ∈ log ->
  steps cell_trans (json_cell j1) (json_cell j2) \/ steps cell_trans (json_cell j2) (json_cell j1).
Proof.
  induction log as [|[k0 j0] log IH]; [by intros _ ?%elem_of_nil |].
  intros [Hx Hc] [[= <- <-]|H1]%elem_of_cons [Heq|H2]%elem_of_cons; simplify_eq/=; [left; constructor | | |by apply IH].
  - right. by apply Hx.
  - left. by apply Hx.
Qed.

(** After [n] steps: tokens are at most [n]. *)
Record run_inv (n : Z) (s : RSys) : Prop := mkRunInv {
  ru_sys : rsys_inv prefix any_clock (good_claim prefix) from_claims s;
  ru_bound key j : (key, j) ∈ rs_log s -> json_token j <= n;
  ru_chain : chain (rs_log s) }.

Definition redis_cell (s : RSys) (claim : string) : cell :=
  from_option json_cell cell0 (stored_at (rs_world s) (claimKey prefix claim)).

Lemma redis_cell_newest n s claim : run_inv n s -> redis_cell s claim = from_option json_cell cell0 (newest (claimKey prefix claim) (rs_log s)).
Proof. intros [Hs _ _]. unfold redis_cell. by erewrite stored_claim by apply (ri_store _ _ _ _ _ Hs). Qed.

(** One more claim text. *)
Lemma grows_cell n s m sc j rp :
  run_inv n s -> n < digits14 - 1 -> script_ok prefix any_clock (claimKey prefix m) sc ->
  run_script sc (newest (claimKey prefix m) (rs_log s)) = (Some j, rp) ->
  good_claim prefix (claimKey prefix m) j /\
  steps cell_trans (from_option json_cell cell0 (newest (claimKey prefix m) (rs_log s))) (json_cell j) /\
  json_token j <= Z.max n 0 + 1.
Proof.
  intros [Hs Hb Hc] Hn Hok Hrun.
  destruct (script_cell prefix any_clock m sc (newest (claimKey prefix m) (rs_log s)) j rp) as (Hg & Hst & Ht); [|done | done |].
  - intros j0 E%claim_newest_in. split; [by apply (ri_log _ _ _ _ _ Hs) |]. specialize (Hb _ _ E). lia.
  - split; [done |]. split; [done |].
    destruct (newest (claimKey prefix m) (rs_log s)) as [j0|] eqn:E; simpl in Ht; [|lia].
    apply claim_newest_in in E. specialize (Hb _ _ E). lia.
Qed.

Lemma run_inv_step n s s' :
  run_inv n s -> 0 <= n < digits14 - 1 -> rstep s s' ->
  run_inv (n + 1) s' /\ forall claim, steps cell_trans (redis_cell s claim) (redis_cell s' claim).
Proof.
  intros Hinv Hn Hstep. pose proof Hinv as [Hs Hb Hc].
  destruct (rstep_ok prefix any_clock (good_claim prefix) from_claims s s' Hs) as [Hs' Hg]; [|exact Hstep|].
  { intros key j log' Hg. inversion Hg as [|m sc j' rp Hok Hrun]; subst.
    - apply (ri_log _ _ _ _ _ Hs). match goal with H : rs_log s = _ |- _ => rewrite H end. by left.
    - by destruct (grows_cell n s m sc j rp Hinv ltac:(lia) Hok Hrun). }
  assert (run_inv (n + 1) s') as Hinv'.
  { split; [done | |].
    - intros key j Hin. destruct Hg as [|m sc j' rp Hok Hrun]; [specialize (Hb _ _ Hin); lia |].
      apply elem_of_cons in Hin as [[= -> ->]|Hin]; [|specialize (Hb _ _ Hin); lia].
      destruct (grows_cell n s m sc j' rp Hinv ltac:(lia) Hok Hrun) as (_ & _ & ?). lia.
    - destruct Hg as [|m sc j' rp Hok Hrun]; [done |]. split; [|done]. intros j0 Hin.
      destruct (grows_cell n s m sc j' rp Hinv ltac:(lia) Hok Hrun) as (_ & Hst & _).
      destruct (chain_newest _ _ _ Hc Hin) as (cur & E & H0). rewrite E in Hst. by eapply steps_app. }
  split; [done |]. intros claim. rewrite (redis_cell_newest n s), (redis_cell_newest (n + 1) s') by done.
  destruct Hg as [|m sc j' rp Hok Hrun]; [constructor |]. rewrite newest_cons. case_decide as E; [|constructor].
  apply claimKey_inj in E as ->. by destruct (grows_cell n s claim sc j' rp Hinv ltac:(lia) Hok Hrun) as (_ & Hst & _).
Qed.

Lemma redis_reach n w s :
  rs_inv w -> (forall k, rs_view w k = None) -> nsteps rstep n (started w) s -> Z.of_nat n < digits14 -> run_inv (Z.of_nat n) s.
Proof.
  intros Hi Hv Hn. revert s Hn. induction n as [|n IH]; intros s Hn Hb.
  - inversion Hn; subst. split; [by apply redis_started_inv | by intros ?? ?%elem_of_nil | done].
  - apply nsteps_inv_r in Hn as (s1 & H1 & H2). specialize (IH s1 H1 ltac:(lia)).
    destruct (run_inv_step (Z.of_nat n) s1 s IH ltac:(lia) H2) as [H _]. by replace (Z.of_nat (S n)) with (Z.of_nat n + 1) by lia.
Qed.

(** The Redis backend implements the specification of a claim: while the tokens
    have at most fourteen digits, each step of any number of processes, whatever
    calls interleave, fail or lose their answers, moves every claim along the
    transitions of the specification. *)
Theorem redis_refines n w s s' claim :
  rs_inv w -> (forall k, rs_view w k = None) ->
  nsteps rstep n (started w) s -> Z.of_nat n < digits14 - 1 -> rstep s s' ->
  steps cell_trans (redis_cell s claim) (redis_cell s' claim).
Proof.
  intros Hi Hv Hn Hb Hs. pose proof (redis_reach n w s Hi Hv Hn ltac:(lia)) as Hinv.
  by destruct (run_inv_step (Z.of_nat n) s s' Hinv ltac:(lia) Hs) as [_ H].
Qed.

(** C9: On any server that writes integers of fourteen digits in full, and that
    starts without keys, in an execution of fewer than 10^14 steps (calls of the
    server by any number of processes, interleaved one by one, so that no token has
    more than fourteen digits): no two generations are told through the Redis
    backend that they hold a claim with the same fencing token, and the token stored
    at the end for a claim is at least every token that was returned. *)
Theorem redis_exclusive n w s :
  rs_inv w -> (forall k, rs_view w k = None) ->
  nsteps rstep n (started w) s -> Z.of_nat n < digits14 ->
  (forall rec1 rec2 e1 e2, (Some rec1, e1) ∈ rs_replies s -> (Some rec2, e2) ∈ rs_replies s ->
     k_Name rec1 = k_Name rec2 -> k_Token rec1 = k_Token rec2 ->
     is_held (k_Phase rec1) = true -> is_held (k_Phase rec2) = true -> k_Owner rec1 = k_Owner rec2) /\
  (forall rec e, (Some rec, e) ∈ rs_replies s -> k_Token rec <= c_token (redis_cell s (k_Name rec))).
Proof.
  intros Hi Hv Hn Hb. pose proof (redis_reach n w s Hi Hv Hn Hb) as Hinv. destruct (Hinv) as [Hs _ Hc].
  assert (forall rec e, (Some rec, e) ∈ rs_replies s -> exists j, (claimKey prefix (k_Name rec), j) ∈ rs_log s /\
    k_Owner rec = c_owner (json_cell j) /\ k_Token rec = c_token (json_cell j) /\
    (is_held (k_Phase rec) = true -> held (json_cell j))) as Hfrom.
  { intros rec e Hin. destruct (ri_replies _ _ _ _ _ Hs _ Hin rec eq_refl) as (j & Hj & [Ho Ht Hp]). exists j.
    destruct (ri_log _ _ _ _ _ Hs _ _ Hj) as [_ _ Hph _]. split; [done |]. split; [done |]. split.
    - simpl. unfold json_token. by rewrite Ht.
    - rewrite Hp, is_held_phase by done. by intros ?%bool_decide_eq_true. }
  split.
  - intros rec1 rec2 e1 e2 H1 H2 En Et Hh1 Hh2.
    destruct (Hfrom _ _ H1) as (j1 & L1 & O1 & T1 & Q1), (Hfrom _ _ H2) as (j2 & L2 & O2 & T2 & Q2). rewrite <- En in L2.
    destruct (claim_chain_ordered _ _ j1 j2 Hc L1 L2) as [Hst|Hst]; apply cell_steps_epoch in Hst as [_ He].
    + destruct (He ltac:(congruence) (Q2 Hh2)). congruence.
    + destruct (He ltac:(congruence) (Q1 Hh1)). congruence.
  - intros rec e Hin. destruct (Hfrom _ _ Hin) as (j & L & _ & T & _).
    destruct (chain_newest _ _ _ Hc L) as (cur & E & Hst). rewrite (redis_cell_newest _ _ _ Hinv), E. simpl.
    apply cell_steps_epoch in Hst as [H _]. simpl in *. lia.
Qed.
End Exclusive.

(** ** The default precision of [cjson] *)

Section Precision.
Context {LN : LuaNumbers} {LP : LuaDefaultPrecision} (prefix : string) {W : Type} `{!RedisClient W} `{!RedisLaws W}.

(** Clocks later than about a day after the Unix epoch. *)
Definition modern (t : Time) : Prop := digits14 <= UnixNano t.

(** The heartbeat of the claim is written with an exponent. *)
Definition unreadable (_ : string) (j : ClaimJSON numlit) : Prop := exists z, digits14 <= z /\ j_heartbeat j = cjson_num z.

Definition fails (_ : known) (r : KResult) : Prop := r.2 ≠ None.

Lemma unreadable_fails key j : unreadable key j -> fromJSON j = inl unmarshal_error.
Proof.
  intros (z & Hz & E). destruct (cjson_expo z Hz) as (m & e & Ee). unfold fromJSON. rewrite E, Ee. simpl.
  by repeat case_match.
Qed.

Lemma unreadable_again key j : unreadable key j -> unreadable key (encode (decode j)).
Proof. intros (z & Hz & E). exists (cjson_val (cjson_num z)). split; [by apply cjson_large | simpl; by rewrite E]. Qed.

Lemma decode_encode_error err : decodeRedisOpErr (encodeRedisOpErr err) ≠ None.
Proof. unfold encodeRedisOpErr. repeat case_match; done. Qed.

#[local] Instance fails_facts : Facts prefix unreadable fails.
Proof.
  split; unfold fails.
  - done.
  - intros _ [rec [e|]] Hr; [|done]. simpl. apply decode_encode_error.
  - done.
  - done.
  - intros _ n j jr Hj [->| ->]; [by rewrite (unreadable_fails _ _ Hj) |].
    by rewrite (unreadable_fails _ _ (unreadable_again _ _ Hj)).
  - done.
Qed.

Lemma modern_stamp now : stamp modern now -> digits14 <= lua_num now.
Proof. intros (t & Ht & ->). by apply lua_large. Qed.

(** A heartbeat, kept or set to the time of the call, stays unreadable. *)
Lemma script_unreadable key sc o j rp :
  (forall j0, o = Some j0 -> unreadable key j0) -> script_ok prefix modern key sc ->
  run_script sc o = (Some j, rp) -> unreadable key j.
Proof.
  intros Ho Hok.
  assert (forall j0, o = Some j0 -> digits14 <= j_heartbeat (decode j0)) as Hold.
  { intros j0 E. destruct (Ho j0 E) as (z & Hz & Eh). simpl. rewrite Eh. by apply cjson_large. }
  assert (forall obj r, digits14 <= j_heartbeat obj -> (Some (encode obj), r) = (Some j, rp) -> unreadable key j) as Hset.
  { intros obj r Hh [= <- _]. exists (j_heartbeat obj). done. }
  destruct sc as [gen ttl now name|gen tok|f to tok ttl now|f to tok ttl now|f tok|gen tok ttl now]; cbn [run_script]; simpl in Hok.
  - destruct Hok as (_ & _ & Hn%modern_stamp). unfold acquireScript. cbv zeta.
    script_if; [script_if; [by apply Hset | done] | by apply Hset].
  - unfold releaseScript. destruct o as [j0|]; [|done]. specialize (Hold j0 eq_refl). cbv zeta.
    repeat (script_if; [done |]). by apply Hset.
  - destruct Hok as (_ & _ & Hn%modern_stamp). unfold prepareScript. destruct o as [j0|]; [|done]. specialize (Hold j0 eq_refl).
    cbv zeta. script_if; [by apply Hset |]. repeat (script_if; [done |]). by apply Hset.
  - apply modern_stamp in Hok. unfold commitScript. destruct o as [j0|]; [|done]. specialize (Hold j0 eq_refl).
    cbv zeta. script_if; [by apply Hset |]. repeat (script_if; [done |]). by apply Hset.
  - unfold abortScript. destruct o as [j0|]; [|done]. specialize (Hold j0 eq_refl). cbv zeta.
    script_if; [by script_if |]. repeat (script_if; [done |]). by apply Hset.
  - apply modern_stamp in Hok. unfold renewScript. destruct o as [j0|]; [|done]. specialize (Hold j0 eq_refl).
    cbv zeta. script_if; [by apply Hset |]. repeat (script_if; [done |]). by apply Hset.
Qed.

(** C10: On a server with the documented precision of [cjson.encode] the Redis backend
    never works: no request and no read of any process ever returns without an
    error, although the scripts store claims and their owners, because the times of
    a claim are written with an exponent and Go does not read such a number into an
    [int64] field. *)
Theorem redis_never_succeeds w s r :
  rs_inv w -> (forall k, rs_view w k = None) -> steps (rstep prefix modern) (started w) s ->
  r ∈ rs_replies s -> r.2 ≠ None.
Proof.
  intros Hi Hv Hs Hr.
  assert (rsys_inv prefix modern unreadable fails s) as Hinv.
  { eapply (steps_invariant _ (rsys_inv prefix modern unreadable fails)); [|exact Hs|by apply redis_started_inv].
    intros a b Ha Hab. eapply (rstep_ok prefix modern unreadable fails); [exact Ha | | exact Hab].
    intros key j log' Hg. inversion Hg as [|m sc j' rp Hok Hrun]; subst.
    - apply (ri_log _ _ _ _ _ Ha). match goal with H : rs_log a = _ |- _ => rewrite H end. by left.
    - eapply script_unreadable; [|exact Hok|exact Hrun]. intros j0 E%claim_newest_in. by apply (ri_log _ _ _ _ _ Ha). }
  by apply (ri_replies _ _ _ _ _ Hinv).
Qed.
End Precision.

(** ** Undisturbed calls are executions *)

Section Calls.
Context {LN : LuaNumbers} (prefix : string) (clock : Time -> Prop) {W : Type} `{!RedisClient W} `{!RedisLaws W}.

(** The clock of an undisturbed call reads the times from [t] to before [t']. *)
Definition ticking (t t' : Time) : Prop := forall u, t <= u < t' -> clock u.

Lemma run_time {A} (p : prog A) : forall t w r t' w', run p t w = (r, t', w') -> t <= t'.
Proof.
  induction p as [a|sc key k IH|key k IH|key v k IH|k IH]; intros t w r t' w' E; simpl in E.
  - simplify_eq. lia.
  - destruct (rc_Eval sc key w). by eapply IH.
  - destruct (rc_Get key w). by eapply IH.
  - destruct (rc_Set key v w). by eapply IH.
  - apply IH in E. lia.
Qed.

(** The number of instructions of an undisturbed call. *)
Fixpoint run_length {A} (p : prog A) (t : Time) (w : W) : nat :=
  match p with
  | Ret _ => 0
  | CEval sc key k => let '(w, r) := rc_Eval sc key w in S (run_length (k r) t w)
  | CGet key k => let '(w, r) := rc_Get key w in S (run_length (k r) t w)
  | CSet key v k => let '(w, r) := rc_Set key v w in S (run_length (k r) t w)
  | Now k => S (run_length (k t) (t + 1) w)
  end.

Lemma redis_run_steps pr : forall time w r time' w' s t,
  ticking time time' -> run pr time w = (r, time', w') -> rs_threads s !! t = Some pr -> rs_world s = w ->
  exists s', nsteps (rstep prefix clock) (run_length pr time w) s s' /\
    rs_threads s' = <[t := Ret r]> (rs_threads s) /\ rs_world s' = w' /\ rs_replies s' = rs_replies s.
Proof.
  assert (forall s t pr pr' w1 log1 n r w' s1,
    rs_threads s !! t = Some pr -> exec clock (rs_world s) (rs_log s) pr w1 log1 pr' ->
    s1 = mkRSys w1 (<[t := pr']> (rs_threads s)) log1 (rs_replies s) ->
    (exists s', nsteps (rstep prefix clock) n s1 s' /\
       rs_threads s' = <[t := Ret r]> (rs_threads s1) /\ rs_world s' = w' /\ rs_replies s' = rs_replies s1) ->
    exists s', nsteps (rstep prefix clock) (S n) s s' /\
      rs_threads s' = <[t := Ret r]> (rs_threads s) /\ rs_world s' = w' /\ rs_replies s' = rs_replies s) as Hone.
  { intros s t pr0 pr' w1 log1 n r w' s1 Et Hx -> (s' & H1 & H2 & H3). exists s'.
    split; [eapply nsteps_l; [by eapply r_exec | done] |]. split; [|done]. rewrite H2. simpl. by rewrite insert_insert_eq. }
  induction pr as [a|sc key k IH|key k IH|key v k IH|k IH]; intros time w r time' w' s t Ht Er Et <-; simpl in *.
  - simplify_eq. exists s. split; [constructor |]. by rewrite insert_id.
  - destruct (rc_Eval sc key (rs_world s)) as [w1 r1] eqn:E. eapply Hone; [done | by constructor | reflexivity |].
    eapply IH; [done | exact Er | apply lookup_insert_eq | done].
  - destruct (rc_Get key (rs_world s)) as [w1 r1] eqn:E. eapply Hone; [done | by constructor | reflexivity |].
    eapply IH; [done | exact Er | apply lookup_insert_eq | done].
  - destruct (rc_Set key v (rs_world s)) as [w1 r1] eqn:E. eapply Hone; [done | by constructor | reflexivity |].
    eapply IH; [done | exact Er | apply lookup_insert_eq | done].
  - pose proof (run_time _ _ _ _ _ _ Er). eapply Hone; [done | apply (ex_now _ _ _ _ time), Ht; lia | reflexivity |].
    eapply IH; [|exact Er | apply lookup_insert_eq | done]. intros u Hu. apply Ht. lia.
Qed.

(** A whole call. *)
Lemma redis_call_steps s rq time r time' w' :
  rs_threads s = ∅ -> rq_valid rq -> ticking time time' -> run (handler prefix rq) time (rs_world s) = (r, time', w') ->
  exists s', nsteps (rstep prefix clock) (2 + run_length (handler prefix rq) time (rs_world s)) s s' /\
    rs_threads s' = ∅ /\ rs_world s' = w' /\ rs_replies s' = r :: rs_replies s.
Proof.
  intros Et Hv Ht Er.
  destruct (redis_run_steps (handler prefix rq) time (rs_world s) r time' w'
    (mkRSys (rs_world s) (<[0%nat := handler prefix rq]> (rs_threads s)) (rs_log s) (rs_replies s)) 0%nat)
    as (s2 & H1 & H2 & H3 & H4); [done | done | by simpl; rewrite lookup_insert_eq | done |].
  exists (mkRSys (rs_world s2) (delete 0%nat (rs_threads s2)) (rs_log s2) (r :: rs_replies s2)). split.
  - simpl. eapply nsteps_l; [apply (r_call _ _ _ 0%nat rq); [by rewrite Et | done] |].
    eapply nsteps_r; [exact H1 |]. eapply r_return. rewrite H2. by rewrite lookup_insert_eq.
  - simpl. rewrite H2, H4. simpl. rewrite Et. split; [|done]. by rewrite insert_insert_eq, delete_insert_id.
Qed.
End Calls.

(** ** Concrete executions *)

Definition y_acquire (gen op : string) : Request := RqAcquire (mkAcquire "leader" gen (20 * Second) false op).
Definition y_prepare : Request := RqPrepare (mkTransfer "leader" "a" "b" 1 (20 * Second) "op2").
Definition y_commit : Request := RqCommit (mkCommit "leader" "a" "b" 1 (20 * Second) "op3").
Definition y_time : Time := unix_epoch + 1751234567890123456.
Definition y_world : Server := mkServer ∅.

Lemma y_started `{!LuaNumbers} : rs_inv y_world /\ forall k, rs_view y_world k = None.
Proof. split; [done | intros k; apply lookup_empty]. Qed.

Lemma nsteps_steps {S} (R : S -> S -> Prop) n a b : nsteps R n a b -> steps R a b.
Proof. induction 1; [constructor | by eapply steps_cons]. Qed.

Section Exact.
#[local] Existing Instance exact_numbers.
#[local] Existing Instance exact_laws.

Definition y1 := run (handler "sl" (y_acquire "a" "op1")) y_time y_world.
Definition y2 := run (handler "sl" y_prepare) y1.1.2 y1.2.
Definition y3 := run (handler "sl" y_commit) y2.1.2 y2.2.

(** A handoff, as three calls. *)
Lemma y_handoff : exists n s, nsteps (rstep "sl" (fun _ => True)) n (started y_world) s /\ Z.of_nat n < digits14 - 1 /\
  rs_replies s = [y3.1.1; y2.1.1; y1.1.1].
Proof.
  destruct (redis_call_steps "sl" (fun _ => True) (started y_world) (y_acquire "a" "op1") y_time y1.1.1 y1.1.2 y1.2)
    as (s1 & S1 & T1 & W1 & R1); [done | done | done | by destruct y1 as [[? ?] ?] eqn:E |].
  destruct (redis_call_steps "sl" (fun _ => True) s1 y_prepare y1.1.2 y2.1.1 y2.1.2 y2.2) as (s2 & S2 & T2 & W2 & R2);
    [done | done | done | rewrite W1; by destruct y2 as [[? ?] ?] eqn:E |].
  destruct (redis_call_steps "sl" (fun _ => True) s2 y_commit y2.1.2 y3.1.1 y3.1.2 y3.2) as (s3 & S3 & T3 & W3 & R3);
    [done | done | done | rewrite W2; by destruct y3 as [[? ?] ?] eqn:E |].
  eexists _, s3. split; [eapply nsteps_trans; [exact S1 |]; eapply nsteps_trans; [exact S2 | exact S3] |].
  split; [rewrite W1, W2; vm_compute; reflexivity |]. by rewrite R3, R2, R1.
Qed.

Definition y_rec : KRecord := default (mkK "" "" 0 "" 0 0 "" "" "" "" 0 "" 0) y3.1.1.1.

Lemma y_reply : y3.1.1 = (Some y_rec, None) /\ k_Owner y_rec = "b" /\ k_Token y_rec = 2.
Proof. vm_compute. done. Qed.

Lemma redis_refines_witness : exists s s', rstep "sl" (fun _ => True) s s' /\
  steps cell_trans (redis_cell "sl" s "leader") (redis_cell "sl" s' "leader").
Proof.
  destruct y_handoff as (n & s & Hs & Hb & _). eexists s, _. split; [apply (r_crash _ _ _ 0%nat) |].
  exact (redis_refines "sl" n y_world s _ "leader" (proj1 y_started) (proj2 y_started) Hs Hb (r_crash _ _ _ 0%nat)).
Defined.

Lemma redis_exclusive_witness : exists n s, nsteps (rstep "sl" (fun _ => True)) n (started y_world) s /\
  (Some y_rec, None) ∈ rs_replies s /\ k_Token y_rec <= c_token (redis_cell "sl" s (k_Name y_rec)).
Proof.
  destruct y_handoff as (n & s & Hs & Hb & Hr). exists n, s. split; [exact Hs |].
  assert ((Some y_rec, None) ∈ rs_replies s) as Hin by (rewrite Hr, <- (proj1 y_reply); left).
  split; [exact Hin |].
  exact (proj2 (redis_exclusive "sl" n y_world s (proj1 y_started) (proj2 y_started) Hs (Z.lt_trans _ _ digits14 Hb eq_refl)) y_rec None Hin).
Defined.
End Exact.

Section Double.
#[local] Existing Instance double_numbers.
#[local] Instance double_precision : LuaDefaultPrecision := proj2 double_laws.

Definition z1 := run (handler "sl" (y_acquire "a" "op1")) y_time y_world.

(** The claim is taken, and the call fails. *)
Lemma z_acquire : z1.1 = ((None, Some unmarshal_error), y_time + 1) /\
  j_owner <$> claim_value (sv_data z1.2 !! claimKey "sl" "leader") = Some "a".
Proof. vm_compute. done. Qed.

Lemma z_modern : modern y_time.
Proof. vm_compute. discriminate. Qed.

Lemma redis_never_succeeds_witness : exists s, steps (rstep "sl" modern) (started y_world) s /\
  z1.1.1 ∈ rs_replies s /\ z1.1.1.2 ≠ None.
Proof.
  destruct (redis_call_steps "sl" modern (started y_world) (y_acquire "a" "op1") y_time z1.1.1 z1.1.2 z1.2)
    as (s1 & S1 & _ & _ & R1); [reflexivity | discriminate | | reflexivity |].
  - rewrite (proj1 z_acquire). intros u Hu. replace u with y_time by (simpl in Hu; lia). exact z_modern.
  - assert (steps (rstep "sl" modern) (started y_world) s1) as Hs by exact (nsteps_steps _ _ _ _ S1).
    assert (z1.1.1 ∈ rs_replies s1) as Hin by (rewrite R1; left).
    exists s1. split; [exact Hs |]. split; [exact Hin |].
    exact (redis_never_succeeds "sl" y_world s1 z1.1.1 (proj1 y_started) (proj2 y_started) Hs Hin).
Defined.
End Double.
