(* ===== verification/FencedStores.v ===== *)
(** * Fenced values in Redis and PostgreSQL ([fencing/redis/redis.go],
    [fencing/postgres/postgres.go])

    The script and the statement are atomic on the server: one step each.  Lua's
    [tostring] prints a number with fourteen significant digits, like [cjson]; the stored
    text is the number it reads back as, beside the value.  The tokens the PostgreSQL
    driver can bind are a parameter.  Both are compared with the in-memory resource. *)

From S2P Require Import Prelude Types Fencing BackendSpec TextRecord Redis.

#[local] Open Scope Z_scope.

(** ** Redis *)

(** The value of the key: the number before the first bar, and the text after it. *)
Abbreviation fenced_key := (option (Z * string)).

(** What [Eval] returns to the client. *)
Inductive eval_reply := EvalInt (n : Z) | EvalOther | EvalError (e : error).

Section RedisFence.
Context `{!LuaNumbers}.

Definition reprint (z : Z) : Z := cjson_val (cjson_num z).

Definition writeScript (tok : Z) (val : string) (k : fenced_key) : fenced_key * Z :=
  let tok := lua_num tok in
  let cur := match k with Some (t, _) => t | None => 0 end in
  if bool_decide (tok < cur) then (k, 0) else (Some (reprint tok, val), 1).

Definition ErrStaleRedis : error := TextErr "fencing/redis: stale fencing token".

(** [Write]; [lost] is a failing connection before or after the script ran. *)
Definition Redis_Write (lost : option (bool * error)) (tok : FencingToken) (val : string) (k : fenced_key) : fenced_key * option error :=
  if Zero tok then (k, Some ErrStaleRedis)
  else match lost with
       | Some (ran, e) => (if ran : bool then (writeScript tok val k).1 else k, Some e)
       | None =>
         match writeScript tok val k with
         | (k, n) => (k, if bool_decide (n = 0) then Some ErrStaleRedis else None)
         end
       end.

(** The same contents as the in-memory resource. *)
Definition same_fence (k : fenced_key) (r : Resource) : Prop :=
  match k with Some (t, v) => t = token r /\ v = value r | None => r = NewResource end.

Context `{!LuaLaws}.

(** Below fourteen digits a write in Redis does what a write in memory does. *)
Lemma redis_fence_step tok val k r : 0 <= tok < digits14 -> same_fence k r ->
  same_fence (Redis_Write None tok val k).1 (Write tok val r).1 /\
  ((Redis_Write None tok val k).2 = None <-> (Write tok val r).2 = None).
Proof.
  intros Ht Hs. unfold Redis_Write, Write, writeScript, Zero, Less.
  assert (lua_num tok = tok) as Hn by (apply lua_exact; unfold digits14 in Ht; lia).
  assert (reprint tok = tok) as Hr by (unfold reprint; rewrite cjson_plain, cjson_back by done; done).
  assert (match k with Some (t, _) => t | None => 0 end = token r) as Hcur
    by (destruct k as [[t v]|]; [by destruct Hs | by rewrite Hs]).
  rewrite Hcur, Hn, Hr. destruct (bool_decide_reflect (tok = 0)) as [->|Hz]; cbn [orb]; [done |].
  destruct (bool_decide (tok < token r)); cbn; [by split |]. by split.
Qed.

Definition redis_write_all (ws : list (FencingToken * string)) (k : fenced_key) : fenced_key :=
  fold_left (fun k w => (Redis_Write None w.1 w.2 k).1) ws k.

(** While all tokens have at most fourteen digits the Redis resource holds what the
    in-memory resource holds after the same writes, and accepts and refuses the same. *)
Theorem redis_fence_refines ws w k r : same_fence k r -> Forall (fun w => 0 <= w.1 < digits14) (ws ++ [w]) ->
  same_fence (redis_write_all ws k) (write_all ws r) /\
  ((Redis_Write None w.1 w.2 (redis_write_all ws k)).2 = None <-> (Write w.1 w.2 (write_all ws r)).2 = None).
Proof.
  intros Hs [Hf Hw]%Forall_app. apply Forall_cons in Hw as [Hw _]. revert k r Hs. induction Hf as [|w0 ws Hw0 _ IH]; intros k r Hs.
  - split; [done |]. by apply redis_fence_step.
  - apply IH. by apply redis_fence_step.
Qed.
End RedisFence.

(** Beyond fourteen digits the stored token is rounded down, and a stale token is
    accepted. *)
Lemma large_token_unfenced :
  let w t v k := @Redis_Write double_numbers None t v k in
  let k1 := (w 100000000000004 "new" None).1 in
  (w 100000000000001 "stale" k1) = (Some (100000000000000, "stale"), None).
Proof. vm_compute. reflexivity. Qed.

(** ** PostgreSQL *)

(** The row of the resource. *)
Abbreviation fenced_row := (option (Z * string)).

Section PostgresFence.
Variable accepts : Z -> bool.

Definition ErrStalePostgres : error := TextErr "fencing/postgres: stale fencing token".

(** [INSERT ... ON CONFLICT (name) DO UPDATE ... WHERE fencing_token <= $2]: the row
    and the number of rows affected. *)
Definition upsert (tok : Z) (val : string) (row : fenced_row) : fenced_row * Z :=
  match row with
  | None => (Some (tok, val), 1)
  | Some (t, _) => if bool_decide (t <= tok) then (Some (tok, val), 1) else (row, 0)
  end.

Definition Postgres_Write (fails : option error) (tok : FencingToken) (val : string) (row : fenced_row) : fenced_row * option error :=
  if Zero tok then (row, Some ErrStalePostgres)
  else if negb (accepts tok) then (row, Some (TextErr "uint64 values with high bit set are not supported"))
  else match fails with
       | Some e => (row, Some e)
       | None => let '(row, n) := upsert tok val row in (row, if bool_decide (n = 0) then Some ErrStalePostgres else None)
       end.

Definition Postgres_Read (fails : option error) (row : fenced_row) : string * FencingToken * option error :=
  match fails with
  | Some e => ("", 0, Some e)
  | None => match row with Some (t, v) => (v, t, None) | None => ("", 0, None) end
  end.

(** A write in PostgreSQL that the driver can send does what a write in memory does;
    one it cannot send fails and changes nothing. *)
Theorem postgres_fence_refines tok val row r : 0 <= tok -> same_fence row r ->
  if accepts tok || Zero tok
  then same_fence (Postgres_Write None tok val row).1 (Write tok val r).1 /\
    ((Postgres_Write None tok val row).2 = None <-> (Write tok val r).2 = None) /\
    Postgres_Read None (Postgres_Write None tok val row).1 = (Read (Write tok val r).1, None)
  else (Postgres_Write None tok val row).1 = row /\ is_Some (Postgres_Write None tok val row).2.
Proof.
  intros Ht Hs. unfold Postgres_Write, Write, Less.
  assert (Postgres_Read None row = (Read r, None)) as Hread by (destruct row as [[t v]|]; [by destruct Hs as [-> ->] | by rewrite Hs]).
  destruct (Zero tok) eqn:Hz; cbn [orb]; [by rewrite orb_true_r |]. destruct (accepts tok); cbn [orb negb]; [|split; [done | by eexists]].
  destruct row as [[t v]|]; cbn [upsert].
  - destruct Hs as [-> ->]. destruct (bool_decide_reflect (token r <= tok)), (bool_decide_reflect (tok < token r)); try lia; cbn; by split_and!.
  - rewrite Hs. cbn [token NewResource]. destruct (bool_decide_reflect (tok < 0)); [lia |]. by split_and!.
Qed.
End PostgresFence.
