(* ===== verification/Postgres.v ===== *)
(** * The PostgreSQL backend ([backend/postgres/postgres.go], [ops.go])

    Every method runs one transaction.  [DB] is the content of the three tables,
    [tx] a computation inside a transaction; a statement can fail by [pg_faults],
    which may also make a commit fail after it has taken effect.  The row lock of
    [SELECT ... FOR UPDATE] serialises the transactions on a claim, so a call is one
    step.

    The columns [phase] and [reason] hold the constants of [state.go]; [reason] can
    be NULL ([w_null]).  The stored JSON of an operation reads back as it was
    written.  The driver is third-party code: [accepts] tells which [uint64]
    arguments it binds.  The second part of the file shows that the backend meets the
    contract of [BackendSpec]. *)

From S2P Require Import Prelude Types Config BackendSpec ClaimStore.

(** ** Tables *)

Record Row := mkRow { w_rec : ClaimRecord; w_null : bool }.

Record storedOp := mkStored { so_OK : bool; so_ErrCode : string; so_Claim : option ClaimRecord }.

Record DB := mkDB { t_gens : gmap string Generation; t_claims : gmap string Row; t_ops : gmap string storedOp }.

(** After [Migrate] on an empty database. *)
Definition Migrate : DB := mkDB ∅ ∅ ∅.

Inductive fault := NoFault | Fails (msg : string) | FailsAfter (msg : string).

Record PG := mkPG { pg_db : DB; pg_count : nat; pg_faults : nat -> fault }.

Definition New (faults : nat -> fault) : PG := mkPG Migrate 0 faults.

(** [mapErr] of an error that is not nil. *)
Definition mapErr (op : string) (err : error) : error :=
  mkError ("postgres." +:+ op) (Sentinel ErrBackend) (base_text err).

(** ** Errors of stored operations ([ops.go]) *)

Definition encodeOpErr (e : error) : string :=
  if errors_is e ErrClaimHeld then "held"
  else if errors_is e ErrStaleToken then "stale"
  else if errors_is e ErrNotOwner then "not_owner"
  else if errors_is e ErrNoTransfer then "no_transfer"
  else if errors_is e ErrConcurrentTransfer then "concurrent"
  else if errors_is e ErrTokenOverflow then "overflow"
  else if errors_is e ErrClaimNotFound then "not_found"
  else "backend".

Definition decodeOpErr (code : string) : option error :=
  if bool_decide (code = "held") then Some (Sentinel ErrClaimHeld)
  else if bool_decide (code = "stale") then Some (Sentinel ErrStaleToken)
  else if bool_decide (code = "not_owner") then Some (Sentinel ErrNotOwner)
  else if bool_decide (code = "no_transfer") then Some (Sentinel ErrNoTransfer)
  else if bool_decide (code = "concurrent") then Some (Sentinel ErrConcurrentTransfer)
  else if bool_decide (code = "overflow") then Some (Sentinel ErrTokenOverflow)
  else if bool_decide (code = "not_found") then Some (Sentinel ErrClaimNotFound)
  else if bool_decide (code = "") then None
  else Some (Sentinel ErrBackend).

(** ** Transactions *)

(** The statements so far, the tables as the transaction sees them, and whether a
    statement has failed: the server then refuses to commit. *)
Record TxState := mkTx { x_n : nat; x_db : DB; x_aborted : bool }.

Definition tx (A : Type) : Type := (nat -> fault) -> TxState -> TxState * A.

Definition ret {A} (a : A) : tx A := fun _ st => (st, a).
Definition bindT {A B} (m : tx A) (k : A -> tx B) : tx B := fun F st => let '(st, a) := m F st in k a F st.

Declare Scope tx_scope.
Notation "x <~ m ;; k" := (bindT m (fun x => k)) (at level 100, m at next level, right associativity) : tx_scope.
#[local] Open Scope tx_scope.

(** An error of [database/sql]: no rows, or anything else with its text. *)
Inductive sqlerr := NoRows | SqlErr (msg : string).

Definition sql_error (e : sqlerr) : error :=
  match e with NoRows => TextErr "sql: no rows in result set" | SqlErr m => TextErr m end.

(** One statement. *)
Definition stmt {A} (f : DB -> DB * (sqlerr + A)) : tx (sqlerr + A) := fun F st =>
  match F (x_n st) with
  | NoFault =>
    let '(db, r) := f (x_db st) in
    (mkTx (S (x_n st)) db (match r with inl (SqlErr _) => true | _ => x_aborted st end), r)
  | Fails m | FailsAfter m => (mkTx (S (x_n st)) (x_db st) true, inl (SqlErr m))
  end.

(** How a method leaves its transaction: the deferred rollback, a commit whose
    error is dropped, or a commit whose error is returned. *)
Inductive fin := Rollback | CommitIgnore | CommitOr (op : string).

(** What the commit does to the tables, and its error. *)
Definition commit (F : nat -> fault) (old : DB) (st : TxState) : DB * option string :=
  if x_aborted st then (old, Some "commit unexpectedly resulted in rollback")
  else match F (x_n st) with
       | NoFault => (x_db st, None)
       | Fails m => (old, Some m)
       | FailsAfter m => (x_db st, Some m)
       end.

(** [BeginTx], the body, and the end of the transaction. *)
Definition run_tx (op : string) (body : tx (fin * RecordResult)) (s : PG) : PG * RecordResult :=
  let F := pg_faults s in
  match F (pg_count s) with
  | Fails m | FailsAfter m => (mkPG (pg_db s) (S (pg_count s)) F, (None, Some (mapErr op (TextErr m))))
  | NoFault =>
    let '(st, (f, r)) := body F (mkTx (S (pg_count s)) (pg_db s) false) in
    match f with
    | Rollback => (mkPG (pg_db s) (x_n st) F, r)
    | CommitIgnore => (mkPG (commit F (pg_db s) st).1 (S (x_n st)) F, r)
    | CommitOr op =>
      let '(db, e) := commit F (pg_db s) st in
      (mkPG db (S (x_n st)) F, match e with None => r | Some m => (None, Some (mapErr op (TextErr m))) end)
    end
  end.

(** ** Statements on claims *)

Definition set_claims (c : gmap string Row) (db : DB) : DB := mkDB (t_gens db) c (t_ops db).

(** [Row.Scan]: NULL does not convert to a string. *)
Definition scanClaim (row : Row) : error + ClaimRecord :=
  if w_null row
  then inl (TextErr "sql: Scan error on column index 11, name reason: converting NULL to string is unsupported")
  else inr (w_rec row).

Definition select_claim (name : string) (db : DB) : DB * (sqlerr + Row) :=
  (db, match t_claims db !! name with Some row => inr row | None => inl NoRows end).

(** [INSERT INTO claims (name) VALUES ($1) RETURNING ...]: the other columns have
    their defaults, and [reason] has none. *)
Definition insert_claim (name : string) (db : DB) : DB * (sqlerr + Row) :=
  match t_claims db !! name with
  | Some _ => (db, inl (SqlErr "duplicate key value violates unique constraint"))
  | None =>
    let row := mkRow (unowned_record name) true in
    (set_claims (<[name := row]> (t_claims db)) db, inr row)
  end.

Definition fits_bigint (z : Z) : bool := bool_decide (z < 2 ^ 63).

(** [UPDATE ... SET set WHERE name=$1 AND cond RETURNING ...]; every update sets
    [reason]. *)
Definition update_claim (name : string) (cond : ClaimRecord -> bool) (set : ClaimRecord -> ClaimRecord) (db : DB)
  : DB * (sqlerr + Row) :=
  match t_claims db !! name with
  | None => (db, inl NoRows)
  | Some row =>
    if cond (w_rec row) then
      let rec := set (w_rec row) in
      if fits_bigint (FencingTokenOf rec) && fits_bigint (Version (w_rec row) + 1)
      then (set_claims (<[name := mkRow rec false]> (t_claims db)) db, inr (mkRow rec false))
      else (db, inl (SqlErr "bigint out of range"))
    else (db, inl NoRows)
  end.

(** A statement that returns one claim, scanned. *)
Definition query_claim (f : DB -> DB * (sqlerr + Row)) : tx (option sqlerr * (error + ClaimRecord)) :=
  r <~ stmt f;;
  ret (match r with
       | inl e => (Some e, inl (sql_error e))
       | inr row => (None, scanClaim row)
       end).

Definition getClaimForUpdate (name : string) (create : bool) : tx (error + ClaimRecord) :=
  r <~ query_claim (select_claim name);;
  match r with
  | (Some NoRows, _) =>
    if create then r <~ query_claim (insert_claim name);; ret r.2
    else ret (inl (Sentinel ErrClaimNotFound))
  | (_, r) => ret r
  end.

Definition held_now (r : ClaimRecord) : bool := held_phase (Phase r).

(** The assignments of the expiry, in SQL and to the record. *)
Definition expired (r : ClaimRecord) : ClaimRecord :=
  r |> set_PreviousOwner (OwnerGeneration r) |> set_OwnerGeneration "" |> set_PendingSuccessor ""
    |> set_Phase ClaimUnowned |> set_DrainStatus "" |> set_TransferStatus "" |> set_CReason ReasonExpired
    |> bump_Version.

Definition expireIfNeeded (now : Time) (rec : ClaimRecord) : tx (error + ClaimRecord) :=
  if IsZero (ExpiresAt rec) || Before now (ExpiresAt rec) then ret (inr rec)
  else if negb (held_now rec) then ret (inr rec)
  else
    r <~ stmt (update_claim (Name rec) (fun _ => true) expired);;
    match r with
    | inl (SqlErr m) => ret (inl (mapErr "expire" (TextErr m)))
    | _ => ret (inr (expired rec))
    end.

(** ** Stored operations *)

Definition recallOp (id : OperationID) : tx (option RecordResult) :=
  if Empty id then ret None
  else
    r <~ stmt (fun db => (db, match t_ops db !! id with Some s => inr s | None => inl NoRows end));;
    match r with
    | inl NoRows => ret None
    | inl e => ret (Some (None, Some (mapErr "recallOp" (sql_error e))))
    | inr s => ret (Some (so_Claim s, if so_OK s then None else decodeOpErr (so_ErrCode s)))
    end.

(** [ON CONFLICT (op_id) DO NOTHING]; its own error is dropped by the callers. *)
Definition storeOp (id : OperationID) (rec : option ClaimRecord) (err : option error) : tx unit :=
  if Empty id then ret tt
  else
    let s := mkStored (match err with None => true | Some _ => false end)
      (match err with None => "" | Some e => encodeOpErr e end) rec in
    _ <~ stmt (fun db =>
      (match t_ops db !! id with
       | Some _ => db
       | None => mkDB (t_gens db) (t_claims db) (<[id := s]> (t_ops db))
       end, inr tt));;
    ret tt.

(** ** Methods *)

Abbreviation Body := (tx (fin * RecordResult)).

Definition fail (e : error) : Body := ret (Rollback, (None, Some e)).

(** Store the result, commit, and return it. *)
Definition finish (f : fin) (id : OperationID) (r : RecordResult) : Body :=
  _ <~ storeOp id r.1 r.2;; ret (f, r).

(** The common beginning. *)
Definition recalled (id : OperationID) (body : Body) : Body :=
  r <~ recallOp id;;
  match r with
  | Some r => ret (CommitIgnore, r)
  | None => body
  end.

(** The claim, locked and expired; [wrap] is what the caller does to the error of
    the look-up. *)
Definition with_claim (env : Env) (name : string) (create : bool) (wrap : error -> error)
  (body : ClaimRecord -> Body) : Body :=
  r <~ getClaimForUpdate name create;;
  match r with
  | inl e => fail (wrap e)
  | inr rec =>
    r <~ expireIfNeeded (env_t1 env) rec;;
    match r with
    | inl e => fail e
    | inr rec => body rec
    end
  end.

(** An update, scanned, stored and committed. *)
Definition apply_update (op : string) (id : OperationID) (upd : DB -> DB * (sqlerr + Row))
  (no_rows : error -> Body) : Body :=
  r <~ query_claim upd;;
  match r with
  | (Some NoRows, inl e) => no_rows e
  | (_, inl e) => fail (mapErr op e)
  | (_, inr out) => finish (CommitOr op) id (Some out, None)
  end.

Definition GetClaim (env : Env) (name : string) : PG -> PG * RecordResult :=
  run_tx "GetClaim" (with_claim env name false (fun e => e) (fun rec => ret (CommitOr "GetClaim", (Some rec, None)))).

(** One tick of the goroutine of [WatchClaim]: [last] is the version last seen,
    [buf] the channel of capacity 16. *)
Definition watch_tick (env : Env) (name : string) (last : Z) (buf : list ClaimRecord) (s : PG)
  : PG * (Z * list ClaimRecord) :=
  match GetClaim env name s with
  | (s, (Some rec, None)) =>
    (s, if bool_decide (Version rec = last) then (last, buf)
        else (Version rec, if bool_decide (length buf < 16)%nat then buf ++ [rec] else buf))
  | (s, _) => (s, (last, buf))
  end.

Definition pg_Capabilities : Capabilities := mkCapabilities true true true true true true true MaxSafeFencingToken.

Section Driver.
Context (accepts : Z -> bool).

(** The assignments of the update statements. *)
Definition renewed (now : Time) (ttl : Duration) (r : ClaimRecord) : ClaimRecord :=
  r |> set_ExpiresAt (Add now ttl) |> set_LastHeartbeat now |> set_CReason ReasonRenewed |> bump_Version.

Definition acquired (gen : string) (now : Time) (ttl : Duration) (r : ClaimRecord) : ClaimRecord :=
  r |> set_OwnerGeneration gen |> set_FencingToken (FencingTokenOf r + 1) |> set_Phase ClaimOwned
    |> set_AcquiredAt now |> set_ExpiresAt (Add now ttl) |> set_LastHeartbeat now |> set_PendingSuccessor ""
    |> set_TransferStatus "" |> set_DrainStatus "" |> set_CReason ReasonAcquired |> bump_Version.

Definition prepared (to : string) (now : Time) (ttl : Duration) (r : ClaimRecord) : ClaimRecord :=
  r |> set_Phase ClaimReserved |> set_PendingSuccessor to |> set_TransferStatus "prepared"
    |> set_DrainStatus "complete" |> set_ExpiresAt (Add now ttl) |> set_LastHeartbeat now
    |> set_CReason ReasonTransferPrepared |> bump_Version.

Definition committed (to : string) (now : Time) (ttl : Duration) (r : ClaimRecord) : ClaimRecord :=
  r |> set_PreviousOwner (OwnerGeneration r) |> set_OwnerGeneration to
    |> set_FencingToken (FencingTokenOf r + 1) |> set_Phase ClaimOwned |> set_PendingSuccessor ""
    |> set_TransferStatus "committed" |> set_DrainStatus "" |> set_AcquiredAt now |> set_ExpiresAt (Add now ttl)
    |> set_LastHeartbeat now |> set_CReason ReasonTransferCommitted |> bump_Version.

Definition aborted (r : ClaimRecord) : ClaimRecord :=
  r |> set_PendingSuccessor "" |> set_Phase ClaimOwned |> set_TransferStatus "aborted"
    |> set_CReason ReasonTransferAborted |> bump_Version.

Definition released (r : ClaimRecord) : ClaimRecord :=
  r |> set_PreviousOwner (OwnerGeneration r) |> set_OwnerGeneration "" |> set_PendingSuccessor ""
    |> set_Phase ClaimUnowned |> set_TransferStatus "" |> set_DrainStatus "" |> set_CReason ReasonReleased
    |> bump_Version.

(** A [uint64] argument is converted by the driver before the statement is sent. *)
Definition with_arg (v : Z) (upd : DB -> DB * (sqlerr + Row)) (db : DB) : DB * (sqlerr + Row) :=
  if accepts v then upd db else (db, inl (SqlErr "uint64 values with high bit set are not supported")).

Definition AcquireClaim (env : Env) (req : AcquireRequest) : PG -> PG * RecordResult :=
  let id := acq_OperationID req in
  let now := env_t2 env in
  run_tx "AcquireClaim" (recalled id (with_claim env (acq_ClaimName req) true (mapErr "AcquireClaim") (fun rec =>
    if held_now rec then
      if bool_decide (OwnerGeneration rec = acq_GenerationID req) then
        apply_update "AcquireClaim" id
          (update_claim (acq_ClaimName req) (fun _ => true) (renewed now (acq_TTL req)))
          (fun e => fail (mapErr "AcquireClaim" e))
      else finish CommitIgnore id (Some rec, Some (Sentinel ErrClaimHeld))
    else if bool_decide (MaxSafeFencingToken <= FencingTokenOf rec)
    then finish CommitIgnore id (None, Some (Sentinel ErrTokenOverflow))
    else
      apply_update "AcquireClaim" id
        (with_arg MaxSafeFencingToken (update_claim (acq_ClaimName req)
          (fun r => bool_decide (FencingTokenOf r < MaxSafeFencingToken))
          (acquired (acq_GenerationID req) now (acq_TTL req))))
        (fun _ => finish CommitIgnore id (None, Some (Sentinel ErrTokenOverflow)))))).

Definition RenewClaim (env : Env) (req : RenewRequest) : PG -> PG * RecordResult :=
  let id := ren_OperationID req in
  run_tx "RenewClaim" (recalled id (with_claim env (ren_ClaimName req) false (fun e => e) (fun rec =>
    if negb (bool_decide (OwnerGeneration rec = ren_GenerationID req)) then fail ErrNotOwner
    else if negb (bool_decide (FencingTokenOf rec = ren_Token req)) then fail ErrStaleToken
    else if negb (held_now rec) then fail ErrNotOwner
    else
      apply_update "RenewClaim" id
        (with_arg (ren_Token req) (update_claim (ren_ClaimName req)
          (fun r => bool_decide (FencingTokenOf r = ren_Token req)) (renewed (env_t2 env) (ren_TTL req))))
        (fun _ => fail ErrStaleToken)))).

Definition PrepareTransfer (env : Env) (req : TransferRequest) : PG -> PG * RecordResult :=
  let id := tr_OperationID req in
  run_tx "PrepareTransfer" (recalled id (with_claim env (tr_ClaimName req) false (fun e => e) (fun rec =>
    if negb (bool_decide (OwnerGeneration rec = tr_FromGeneration req)) then fail ErrNotOwner
    else if negb (bool_decide (FencingTokenOf rec = tr_Token req)) then fail ErrStaleToken
    else if bool_decide (Phase rec = ClaimReserved) && negb (bool_decide (PendingSuccessor rec = ""))
            && negb (bool_decide (PendingSuccessor rec = tr_ToGeneration req)) then fail ErrConcurrentTransfer
    else if bool_decide (Phase rec = ClaimReserved) && bool_decide (PendingSuccessor rec = tr_ToGeneration req)
    then finish CommitIgnore id (Some rec, None)
    else
      apply_update "PrepareTransfer" id
        (with_arg (tr_Token req) (update_claim (tr_ClaimName req)
          (fun r => bool_decide (FencingTokenOf r = tr_Token req)) (prepared (tr_ToGeneration req) (env_t2 env) (tr_TTL req))))
        (fun e => fail (mapErr "PrepareTransfer" e))))).

Definition CommitTransfer (env : Env) (req : CommitRequest) : PG -> PG * RecordResult :=
  let id := com_OperationID req in
  run_tx "CommitTransfer" (recalled id (with_claim env (com_ClaimName req) false (fun e => e) (fun rec =>
    if bool_decide (Phase rec = ClaimOwned) && bool_decide (OwnerGeneration rec = com_ToGeneration req)
       && bool_decide (FencingTokenOf rec = u64 (com_ExpectedToken req + 1))
       && bool_decide (TransferStatus rec = "committed")
    then finish CommitIgnore id (Some rec, None)
    else if negb (bool_decide (Phase rec = ClaimReserved)) then fail ErrNoTransfer
    else if negb (bool_decide (OwnerGeneration rec = com_FromGeneration req))
            || negb (bool_decide (PendingSuccessor rec = com_ToGeneration req)) then fail ErrConcurrentTransfer
    else if negb (bool_decide (FencingTokenOf rec = com_ExpectedToken req)) then fail ErrStaleToken
    else if bool_decide (MaxSafeFencingToken <= FencingTokenOf rec)
    then finish CommitIgnore id (None, Some (Sentinel ErrTokenOverflow))
    else
      apply_update "CommitTransfer" id
        (with_arg (com_ExpectedToken req) (update_claim (com_ClaimName req)
          (fun r => bool_decide (FencingTokenOf r = com_ExpectedToken req) && bool_decide (Phase r = ClaimReserved))
          (committed (com_ToGeneration req) (env_t2 env) (com_TTL req))))
        (fun _ => fail ErrStaleToken)))).

Definition AbortTransfer (env : Env) (req : AbortRequest) : PG -> PG * RecordResult :=
  let id := ab_OperationID req in
  run_tx "AbortTransfer" (recalled id (with_claim env (ab_ClaimName req) false (fun e => e) (fun rec =>
    if negb (bool_decide (Phase rec = ClaimReserved)) then
      if bool_decide (OwnerGeneration rec = ab_FromGeneration req) && bool_decide (Phase rec = ClaimOwned)
      then finish CommitIgnore id (Some rec, None) else fail ErrNoTransfer
    else if negb (bool_decide (FencingTokenOf rec = ab_ExpectedToken req)) then fail ErrStaleToken
    else if negb (bool_decide (OwnerGeneration rec = ab_FromGeneration req)) then fail ErrNotOwner
    else
      apply_update "AbortTransfer" id
        (with_arg (ab_ExpectedToken req) (update_claim (ab_ClaimName req)
          (fun r => bool_decide (FencingTokenOf r = ab_ExpectedToken req)) aborted))
        (fun e => fail (mapErr "AbortTransfer" e))))).

(** [ReleaseClaim] executes its update and looks at [RowsAffected]. *)
Definition ReleaseClaim_tx (env : Env) (req : ReleaseRequest) : PG -> PG * RecordResult :=
  let id := rel_OperationID req in
  run_tx "ReleaseClaim" (recalled id (with_claim env (rel_ClaimName req) false (fun e => e) (fun rec =>
    if negb (bool_decide (FencingTokenOf rec = rel_Token req)) then fail ErrStaleToken
    else if negb (bool_decide (OwnerGeneration rec = rel_GenerationID req)) then
      if bool_decide (Phase rec = ClaimUnowned) then finish CommitIgnore id (None, None) else fail ErrNotOwner
    else
      r <~ stmt (with_arg (rel_Token req) (update_claim (rel_ClaimName req)
        (fun r => bool_decide (FencingTokenOf r = rel_Token req)) released));;
      match r with
      | inl NoRows => fail ErrStaleToken
      | inl e => fail (mapErr "ReleaseClaim" (sql_error e))
      | inr _ => finish (CommitOr "ReleaseClaim") id (None, None)
      end))).

Definition ReleaseClaim (env : Env) (req : ReleaseRequest) (s : PG) : PG * option error :=
  let '(s, r) := ReleaseClaim_tx env req s in (s, r.2).

(** ** Generations *)

(** One statement outside a transaction: it may fail, also after its effect. *)
Definition exec (op : string) (f : DB -> DB) (s : PG) : PG * option error :=
  let F := pg_faults s in
  match F (pg_count s) with
  | NoFault => (mkPG (f (pg_db s)) (S (pg_count s)) F, None)
  | Fails m => (mkPG (pg_db s) (S (pg_count s)) F, Some (mapErr op (TextErr m)))
  | FailsAfter m => (mkPG (f (pg_db s)) (S (pg_count s)) F, Some (mapErr op (TextErr m)))
  end.

Definition set_gens (g : gmap string Generation) (db : DB) : DB := mkDB g (t_claims db) (t_ops db).

(** The columns both statements update. *)
Definition changed (gen old : Generation) : Generation :=
  mkGeneration (ID old) (Service old) (InstanceID old) (State gen) (StartedAt old) (UpdatedAt gen) (Reason gen).

(** [INSERT ... ON CONFLICT (id) DO UPDATE SET state, updated_at, reason]. *)
Definition RegisterGeneration (gen : Generation) : PG -> PG * option error :=
  exec "RegisterGeneration" (fun db =>
    set_gens (<[ID gen := match t_gens db !! ID gen with Some old => changed gen old | None => gen end]> (t_gens db)) db).

Definition UpdateGeneration (gen : Generation) : PG -> PG * option error :=
  exec "UpdateGeneration" (fun db =>
    match t_gens db !! ID gen with
    | Some old => set_gens (<[ID gen := changed gen old]> (t_gens db)) db
    | None => db
    end).

Definition GetGeneration (id : string) (s : PG) : PG * (error + Generation) :=
  let s' := mkPG (pg_db s) (S (pg_count s)) (pg_faults s) in
  match pg_faults s (pg_count s) with
  | NoFault => (s', match t_gens (pg_db s) !! id with Some g => inr g | None => inl (Sentinel ErrGenerationNotFound) end)
  | Fails m | FailsAfter m => (s', inl (mapErr "GetGeneration" (TextErr m)))
  end.

#[global] Instance pg_ops : BackendOps PG := {|
  do_Acquire := AcquireClaim; do_Renew := RenewClaim; do_Prepare := PrepareTransfer;
  do_Commit := CommitTransfer; do_Abort := AbortTransfer; do_Release := ReleaseClaim;
  do_Register := fun _ g s => RegisterGeneration g s;
  do_Update := fun _ g s => UpdateGeneration g s;
  claim_at := fun s n => w_rec <$> t_claims (pg_db s) !! n;
  op_seen := fun s id => bool_decide (is_Some (t_ops (pg_db s) !! id)) && negb (Empty id) |}.
End Driver.

(** ** The PostgreSQL backend meets the contract

    A small program logic for transactions ([hoare]), the effect of each method on
    the claims and on the stored operations, and the instance of [BackendLaws].
    Then the two defects that keep the backend from handing out claims. *)

#[local] Open Scope tx_scope.

(** ** Transactions as predicates on tables *)

Definition hoare {A} (P : DB -> Prop) (m : tx A) (Q : A -> DB -> Prop) : Prop :=
  forall F st, P (x_db st) -> Q (m F st).2 (x_db (m F st).1).

Lemma hoare_ret {A} (P : DB -> Prop) (a : A) (Q : A -> DB -> Prop) :
  (forall db, P db -> Q a db) -> hoare P (ret a) Q.
Proof. intros H F st HP. by apply H. Qed.

Lemma hoare_bind {A B} P (m : tx A) (k : A -> tx B) Q R :
  hoare P m Q -> (forall a, hoare (Q a) (k a) R) -> hoare P (x <~ m;; k x) R.
Proof.
  intros Hm Hk F st HP. specialize (Hm F st HP). unfold bindT. destruct (m F st) as [st' a]. by apply Hk.
Qed.

Lemma hoare_stmt {A} P (f : DB -> DB * (sqlerr + A)) (Q : sqlerr + A -> DB -> Prop) :
  (forall db msg, P db -> Q (inl (SqlErr msg)) db) -> (forall db, P db -> Q (f db).2 (f db).1) -> hoare P (stmt f) Q.
Proof.
  intros He Hf F st HP. unfold stmt. destruct (F (x_n st)); [|by apply He ..].
  specialize (Hf _ HP). by destruct (f (x_db st)).
Qed.

Lemma hoare_post {A} P (m : tx A) (Q R : A -> DB -> Prop) :
  hoare P m Q -> (forall a db, Q a db -> R a db) -> hoare P m R.
Proof. intros Hm HR F st HP. by apply HR, Hm. Qed.

Lemma hoare_pre {A} (P P' : DB -> Prop) (m : tx A) Q :
  (forall db, P db -> P' db) -> hoare P' m Q -> hoare P m Q.
Proof. intros HP Hm F st H. by apply Hm, HP. Qed.

Lemma hoare_assume {A} (P : DB -> Prop) (H : Prop) (m : tx A) Q :
  (H -> hoare P m Q) -> hoare (fun db => P db /\ H) m Q.
Proof. intros Hm F st [HP HH]. by apply Hm. Qed.

(** ** Claims *)

Definition recs (db : DB) : gmap string ClaimRecord := w_rec <$> t_claims db.

Lemma recs_set n row db : recs (set_claims (<[n := row]> (t_claims db)) db) = <[n := w_rec row]> (recs db).
Proof. unfold recs. simpl. by rewrite fmap_insert. Qed.

Lemma recs_lookup db n row : t_claims db !! n = Some row -> recs db !! n = Some (w_rec row).
Proof. intros E. unfold recs. by rewrite lookup_fmap, E. Qed.

Lemma recs_none db n : t_claims db !! n = None -> recs db !! n = None.
Proof. intros E. unfold recs. by rewrite lookup_fmap, E. Qed.

Section Effects.
Context (accepts : Z -> bool) (n : string) (id : OperationID) (db0 : DB).

Abbreviation E db := (store_effect n (recs db0) (recs db)).

(** The claim as a body finds it: either nothing has changed or it has expired. *)
Record at_claim (rec : ClaimRecord) (db : DB) : Prop := mkAtClaim {
  ac_effect : E db;
  ac_claim : recs db !! n = Some rec;
  ac_fresh : recs db0 !! n = Some rec \/ Phase rec = ClaimUnowned;
  ac_token : FencingTokenOf rec = c_token (cell_of (recs db0 !! n)) }.

Lemma at_claim_wf rec db : at_claim rec db -> cell_wf (cell_of_record rec) /\ Name rec = n.
Proof. intros [H C _ _]. by destruct (ef_inv _ _ _ H _ _ C). Qed.

(** No result is stored under the operation's identifier. *)
Definition unseen : Prop := Empty id = true \/ t_ops db0 !! id = None.

(** What is known when a body returns [r] with ending [f]: the claims moved by the
    specification, and a success that is not a stored one is [Good] and will be
    found in the table. *)
Definition done_with (Good : ClaimRecord -> Prop) (x : fin * RecordResult) (db : DB) : Prop :=
  E db /\ forall rec, unseen -> x.2 = (Some rec, None) ->
    Good rec /\ recs db !! n = Some rec /\ x.1 ≠ Rollback /\ (x.1 = CommitIgnore -> recs db0 !! n = Some rec).

Lemma storeOp_claims r e (P : gmap string ClaimRecord -> Prop) :
  hoare (fun db => P (recs db)) (storeOp id r e) (fun _ db => P (recs db)).
Proof.
  unfold storeOp. destruct (Empty id); [by apply hoare_ret |]. apply (hoare_bind _ _ _ (fun _ db => P (recs db))); [|intros a; by apply hoare_ret].
  apply hoare_stmt; [done |]. intros db HP. simpl. by destruct (t_ops db !! id).
Qed.

Lemma fail_done Good e : hoare (fun db => E db) (fail e) (done_with Good).
Proof. apply hoare_ret. intros db He. by split. Qed.

Lemma finish_error Good f r e : hoare (fun db => E db) (finish f id (r, Some e)) (done_with Good).
Proof.
  eapply hoare_bind; [apply (storeOp_claims _ _ (fun m => store_effect n (recs db0) m)) |].
  intros []. apply hoare_ret. intros db He. by split.
Qed.

Lemma finish_none Good f : hoare (fun db => E db) (finish f id (None, None)) (done_with Good).
Proof.
  eapply hoare_bind; [apply (storeOp_claims _ _ (fun m => store_effect n (recs db0) m)) |].
  intros []. apply hoare_ret. intros db He. by split.
Qed.

(** The claim is returned as it was found. *)
Lemma finish_found (Good : ClaimRecord -> Prop) rec :
  Good rec -> Phase rec ≠ ClaimUnowned -> hoare (at_claim rec) (finish CommitIgnore id (Some rec, None)) (done_with Good).
Proof.
  intros Hg Hp. eapply (hoare_pre _ (fun db => store_effect n (recs db0) (recs db) /\ recs db !! n = Some rec /\
    recs db0 !! n = Some rec)); [intros db [? ? [?|?] ?]; [done | done] |].
  eapply hoare_bind; [apply (storeOp_claims _ _ (fun m => store_effect n (recs db0) m /\ m !! n = Some rec /\ recs db0 !! n = Some rec)) |].
  intros []. apply hoare_ret. intros db (H1 & H2 & H3). split; [done |]. intros ? _ [= <-]. done.
Qed.

(** The claim is replaced by a record its cell can step to. *)
Lemma update_claim_step rec cond set db :
  at_claim rec db -> Name (set rec) = Name rec ->
  (cond rec = true -> fits_bigint (FencingTokenOf (set rec)) = true ->
   steps cell_trans (cell_of_record rec) (cell_of_record (set rec))) ->
  E (update_claim n cond set db).1 /\
  forall row, (update_claim n cond set db).2 = inr row ->
    w_null row = false /\ w_rec row = set rec /\ recs (update_claim n cond set db).1 !! n = Some (set rec) /\ cond rec = true.
Proof.
  intros Hat Hn Hs. pose proof Hat as [He Hc _ _]. unfold update_claim.
  assert (exists row, t_claims db !! n = Some row /\ w_rec row = rec) as (row & Er & Ew).
  { unfold recs in Hc. rewrite lookup_fmap in Hc. destruct (t_claims db !! n) as [row|]; simplify_eq/=. by exists row. }
  rewrite Er, Ew. destruct (cond rec) eqn:Ec; [|by split].
  destruct (fits_bigint (FencingTokenOf (set rec))) eqn:Ef; [|by split].
  destruct (fits_bigint (Version rec + 1)); [|by split]. cbn [andb fst snd]. rewrite recs_set. cbn [w_rec]. split.
  - eapply store_effect_replace; [exact He | exact Hc | exact Hn |]. by apply Hs.
  - intros row' [= <-]. simpl. rewrite lookup_insert_eq. done.
Qed.

Lemma apply_update_done (Good : ClaimRecord -> Prop) op arg rec cond set no_rows :
  Name (set rec) = Name rec ->
  (cond rec = true -> fits_bigint (FencingTokenOf (set rec)) = true ->
   steps cell_trans (cell_of_record rec) (cell_of_record (set rec)) /\ Good (set rec)) ->
  (forall e, hoare (fun db => E db) (no_rows e) (done_with Good)) ->
  hoare (at_claim rec)
    (apply_update op id (fun db => match arg with Some v => with_arg accepts v (update_claim n cond set) db
                                   | None => update_claim n cond set db end) no_rows)
    (done_with Good).
Proof.
  intros Hn Hs Hno. unfold apply_update, query_claim.
  eapply (hoare_bind _ _ _ (fun r db => E db /\ forall out, r.2 = inr out ->
    out = set rec /\ Good out /\ recs db !! n = Some out)).
  - eapply (hoare_bind _ _ _ (fun r db => E db /\ forall row, r = inr row ->
      w_null row = false /\ w_rec row = set rec /\ Good (set rec) /\ recs db !! n = Some (set rec))).
    + apply hoare_stmt; [by intros db msg [] |]. intros db Hat.
      destruct (update_claim_step rec cond set db Hat Hn (fun a b => proj1 (Hs a b))) as [He Hrow].
      assert (forall row, (update_claim n cond set db).2 = inr row -> w_null row = false /\ w_rec row = set rec /\
        Good (set rec) /\ recs (update_claim n cond set db).1 !! n = Some (set rec)) as Hrow'.
      { intros row Er. destruct (Hrow row Er) as (H1 & H2 & H3 & H4). split; [done |]. split; [done |]. split; [|done].
        apply Hs; [done |]. revert Er. unfold update_claim.
        destruct (at_claim_wf _ _ Hat) as [_ _]. destruct Hat as [_ Hc _ _]. unfold recs in Hc. rewrite lookup_fmap in Hc.
        destruct (t_claims db !! n) as [row0|]; simplify_eq/=. destruct (cond _); [|done].
        by destruct (fits_bigint (FencingTokenOf _)). }
      destruct arg as [v|]; [|by split]. unfold with_arg. destruct (accepts v); [by split |]. split; [apply Hat | done].
    + intros [e|row]; apply hoare_ret; intros db [He Hr]; (split; [done |]).
      * by destruct e.
      * destruct (Hr row eq_refl) as (H1 & H2 & H3 & H4). intros out. simpl. unfold scanClaim. rewrite H1, H2.
        intros [= <-]. done.
  - intros [e [err|out]].
    + destruct e as [[|m]|]; (eapply hoare_pre; [by intros db [He _]; exact He |]); [apply Hno | apply fail_done ..].
    + eapply (hoare_pre _ (fun db => E db /\ recs db !! n = Some out /\ Good out)).
      { intros db [He Ho]. destruct (Ho out eq_refl) as (_ & Hg & Hc). done. }
      assert (hoare (fun db => E db /\ recs db !! n = Some out /\ Good out)
        (finish (CommitOr op) id (Some out, None)) (done_with Good)) as Hfin.
      { eapply hoare_bind; [apply (storeOp_claims _ _ (fun m => store_effect n (recs db0) m /\ m !! n = Some out /\ Good out)) |].
        intros []. apply hoare_ret. intros db (He & Hc & Hg). split; [done |]. by intros ? _ [= <-]. }
      destruct e as [[|m]|]; exact Hfin.
Qed.

(** ** The common beginning *)

Hypothesis Hinv : store_inv (recs db0).

Lemma getClaim_spec create :
  hoare (fun db => db = db0) (getClaimForUpdate n create) (fun r db => E db /\ forall rec, r = inr rec -> at_claim rec db).
Proof.
  unfold getClaimForUpdate, query_claim.
  apply (hoare_bind _ _ _ (fun r db => db = db0 /\ (forall rec, r.2 = inr rec -> recs db0 !! n = Some rec) /\
    (r.1 = Some NoRows -> t_claims db0 !! n = None))).
  - eapply (hoare_bind _ _ _ (fun r db => db = db0 /\ (forall row, r = inr row -> t_claims db0 !! n = Some row) /\
      (r = inl NoRows -> t_claims db0 !! n = None))).
    + apply hoare_stmt; [by intros db msg -> |]. intros db ->. simpl. split; [done |].
      destruct (t_claims db0 !! n) as [row|]; split; [by intros ? [= <-] | done | done | done].
    + intros [e|row]; apply hoare_ret; intros db (-> & Hr & Hno); (split; [done |]); split; try done.
      * intros [= ->]. by apply Hno.
      * simpl. intros rec. unfold scanClaim. destruct (w_null row); [done |]. intros [= <-]. by apply recs_lookup, Hr.
  - assert (forall r : error + ClaimRecord, hoare (fun db => db = db0 /\ (forall rec, r = inr rec -> recs db0 !! n = Some rec) /\ True)
      (ret r) (fun r db => E db /\ forall rec, r = inr rec -> at_claim rec db)) as Hret.
    { intros r. apply hoare_ret. intros db (-> & Hr & _). split; [by apply store_effect_refl |]. intros rec ->.
      specialize (Hr rec eq_refl). split; [by apply store_effect_refl | done | by left | by rewrite Hr]. }
    intros [[[|m]|] r].
    + destruct create.
      * apply (hoare_bind _ _ _ (fun r db => E db /\ forall rec, r.2 ≠ inr rec)).
        -- apply (hoare_bind _ _ _ (fun r db => E db /\ forall row, r = inr row -> w_null row = true)).
           ++ apply hoare_stmt; [intros db msg (-> & _); by split; [apply store_effect_refl |] |].
              intros db (-> & _ & Hno). specialize (Hno eq_refl). unfold insert_claim. rewrite Hno. cbn [fst snd].
              rewrite recs_set. split; [|by intros row [= <-]].
              apply store_effect_insert; [done | done |]. rewrite (recs_none _ _ Hno). constructor.
           ++ intros [e|row]; apply hoare_ret; intros db [He Hr]; (split; [done |]); intros rec; simpl; [done |].
              unfold scanClaim. by rewrite (Hr row eq_refl).
        -- intros x. apply hoare_ret. intros db [He Hr]. split; [done |]. intros rec E'. by destruct (Hr rec).
      * apply hoare_ret. intros db (-> & _). by split; [apply store_effect_refl |].
    + eapply hoare_pre; [|apply Hret]. intros db (-> & Hr & _). done.
    + eapply hoare_pre; [|apply Hret]. intros db (-> & Hr & _). done.
Qed.

Lemma expired_cell_of rec :
  cell_of_record (expired rec) = expired_cell (cell_of_record rec).
Proof. done. Qed.

Lemma expireIfNeeded_spec now rec :
  hoare (at_claim rec) (expireIfNeeded now rec) (fun r db => E db /\ forall rec', r = inr rec' -> at_claim rec' db).
Proof.
  assert (hoare (at_claim rec) (ret (inr rec : error + ClaimRecord))
    (fun r db => E db /\ forall rec', r = inr rec' -> at_claim rec' db)) as Hkeep.
  { apply hoare_ret. intros db Hat. split; [apply Hat |]. by intros rec' [= <-]. }
  unfold expireIfNeeded. destruct (_ || _); [done |]. destruct (negb (held_now rec)) eqn:Eh; [done |].
  apply negb_false_iff in Eh. unfold held_now in Eh. destruct (held_phase_spec (Phase rec)) as [Hh|]; [|done].
  apply (hoare_bind _ _ _ (fun r db => E db /\ r ≠ inl NoRows /\ forall row, r = inr row -> at_claim (expired rec) db)).
  - apply hoare_stmt; [intros db msg Hat; split; [apply Hat | done] |]. intros db Hat.
    destruct (at_claim_wf _ _ Hat) as [_ Hn]. rewrite Hn.
    destruct (update_claim_step rec (fun _ => true) expired db Hat eq_refl) as [He Hrow].
    { intros _ _. rewrite expired_cell_of. by apply expire_steps. }
    split; [done |]. split.
    + unfold update_claim. destruct Hat as [_ Hc _ _]. unfold recs in Hc. rewrite lookup_fmap in Hc.
      destruct (t_claims db !! n); simplify_eq/=. by destruct (_ && _).
    + intros row Er. destruct (Hrow row Er) as (_ & _ & Hc & _). split; [done | done | by right |].
      rewrite <- (ac_token _ _ Hat). done.
  - intros [[|m]|row]; apply hoare_ret; intros db (He & Hno & Hr); (split; [done |]); intros rec' [= <-]; [done | by apply (Hr row)].
Qed.

Lemma with_claim_done Good env create wrap body :
  (forall rec, hoare (at_claim rec) (body rec) (done_with Good)) ->
  hoare (fun db => db = db0) (with_claim env n create wrap body) (done_with Good).
Proof.
  intros Hb. unfold with_claim. eapply hoare_bind; [apply getClaim_spec |].
  intros [e|rec]; [eapply hoare_pre; [|apply fail_done]; by intros db [] |].
  eapply hoare_pre; [intros db [_ Hat]; exact (Hat rec eq_refl) |].
  eapply hoare_bind; [apply expireIfNeeded_spec |].
  intros [e|rec']; [eapply hoare_pre; [|apply fail_done]; by intros db [] |].
  eapply hoare_pre; [|apply Hb]. intros db [_ Hat]. exact (Hat rec' eq_refl).
Qed.

Lemma recalled_done Good body :
  hoare (fun db => db = db0) body (done_with Good) -> hoare (fun db => db = db0) (recalled id body) (done_with Good).
Proof.
  intros Hb. unfold recalled.
  apply (hoare_bind _ _ _ (fun r db => db = db0 /\ forall x, r = Some x -> unseen -> x.2 ≠ None)).
  - unfold recallOp. destruct (Empty id) eqn:Ee; [by apply hoare_ret |].
    apply (hoare_bind _ _ _ (fun r db => db = db0 /\ forall s, r = inr s -> ~ unseen)).
    + apply hoare_stmt; [by intros db msg -> |]. intros db ->. simpl. split; [done |]. intros s Hs [Hu|Hu]; [congruence |].
      by rewrite Hu in Hs.
    + intros [[|m]|s]; apply hoare_ret; intros db [-> Hr]; (split; [done |]); intros x [= <-]; [done |].
      intros Hu. by destruct (Hr s eq_refl).
  - intros [x|]; [|eapply hoare_pre; [|exact Hb]; by intros db []].
    apply hoare_ret. intros db [-> Hx]. split; [by apply store_effect_refl |]. simpl. intros rec Hu ->.
    by destruct (Hx _ eq_refl Hu).
Qed.
End Effects.

(** ** Whole transactions *)

(** What a call does to claim [n]: [Good] of a success that was not recalled. *)
Definition call_ok (n : string) (id : OperationID) (Good : ClaimRecord -> Prop) (s : PG) (x : PG * RecordResult) : Prop :=
  store_effect n (recs (pg_db s)) (recs (pg_db x.1)) /\
  forall rec, unseen id (pg_db s) -> x.2 = (Some rec, None) -> Good rec /\ recs (pg_db x.1) !! n = Some rec.

Lemma run_tx_ok n id Good op body s :
  store_inv (recs (pg_db s)) -> hoare (fun db => db = pg_db s) body (done_with n id (pg_db s) Good) ->
  call_ok n id Good s (run_tx op body s).
Proof.
  intros Hi Hb. unfold run_tx.
  assert (store_effect n (recs (pg_db s)) (recs (pg_db s))) as Hrefl by by apply store_effect_refl.
  destruct (pg_faults s (pg_count s)); [|split; [done | by intros]..].
  specialize (Hb (pg_faults s) (mkTx (S (pg_count s)) (pg_db s) false) eq_refl).
  destruct (body _ _) as [st [f r]]. destruct Hb as [He Hr]. simpl in He, Hr.
  assert (forall db e, commit (pg_faults s) (pg_db s) st = (db, e) ->
    (e = None -> db = x_db st) /\ (db = x_db st \/ db = pg_db s)) as Hcommit.
  { intros db e. unfold commit. destruct (x_aborted st); [|destruct (pg_faults s (x_n st))];
      intros [= <- <-]; (split; [done | by auto]). }
  destruct f as [| |op'].
  - split; [done |]. simpl. intros rec Hu ->. by destruct (Hr rec Hu eq_refl) as (_ & _ & ? & _).
  - destruct (commit _ _ _) as [db e] eqn:Ec. destruct (Hcommit db e eq_refl) as [_ Hdb]. simpl.
    split; simpl; [by destruct Hdb as [->| ->] |]. intros rec Hu ->.
    destruct (Hr rec Hu eq_refl) as (Hg & Hc & _ & Hold). split; [done |]. destruct Hdb as [->| ->]; auto.
  - destruct (commit _ _ _) as [db e] eqn:Ec. destruct (Hcommit db e eq_refl) as [Hok Hdb]. simpl.
    split; simpl; [by destruct Hdb as [->| ->] |]. intros rec Hu. destruct e as [m|]; [done |]. intros ->.
    destruct (Hr rec Hu eq_refl) as (Hg & Hc & _ & _). by rewrite (Hok eq_refl).
Qed.

Section Methods.
Context (accepts : Z -> bool).

Local Ltac use_bool :=
  repeat match goal with
  | H : negb _ = true |- _ => apply negb_true_iff in H
  | H : negb _ = false |- _ => apply negb_false_iff in H
  | H : bool_decide _ = true |- _ => apply bool_decide_eq_true in H
  | H : bool_decide _ = false |- _ => apply bool_decide_eq_false in H
  | H : _ || _ = false |- _ => apply orb_false_iff in H as [? ?]
  | H : _ && _ = true |- _ => apply andb_true_iff in H as [? ?]
  end.

(** The next conditional of a body. *)
Local Ltac branch E :=
  match goal with |- hoare _ (if ?c then _ else _) _ => destruct c eqn:E end.

(** A body that refuses. *)
Local Ltac refuse :=
  eapply hoare_pre; [intros ? Hat; exact (ac_effect _ _ _ _ Hat) | first [apply fail_done | apply finish_error | apply finish_none]].

(** The facts about the claim as pure hypotheses. *)
Lemma at_claim_facts {A} n db0 rec (m : tx A) Q :
  (cell_wf (cell_of_record rec) -> Name rec = n -> FencingTokenOf rec = c_token (cell_of (recs db0 !! n)) ->
   hoare (at_claim n db0 rec) m Q) -> hoare (at_claim n db0 rec) m Q.
Proof.
  intros H F st Hat. destruct (at_claim_wf _ _ _ _ Hat) as [Hw Hn].
  exact (H Hw Hn (ac_token _ _ _ _ Hat) F st Hat).
Qed.

Lemma row_owner_held rec : cell_wf (cell_of_record rec) -> OwnerGeneration rec ≠ "" -> held (cell_of_record rec).
Proof. intros Hw Ho Hu. by apply Ho, (wf_unowned _ Hw). Qed.

Lemma acquire_ok env req s :
  store_inv (recs (pg_db s)) -> acq_GenerationID req ≠ "" ->
  call_ok (acq_ClaimName req) (acq_OperationID req) (fun rec => OwnerGeneration rec = acq_GenerationID req) s
    (AcquireClaim accepts env req s).
Proof.
  intros Hi Hg. apply run_tx_ok; [done |]. apply recalled_done, with_claim_done; [done | done |]. intros rec.
  apply at_claim_facts. intros Hw Hn _. branch Eh; [branch Eo | branch Em].
  - use_bool. apply (apply_update_done accepts _ _ _ _ _ None); [done | | intros; apply fail_done].
    intros _ _. split; [constructor | done].
  - refuse.
  - refuse.
  - use_bool. apply (apply_update_done accepts _ _ _ _ _ (Some _)); [done | | intros; apply finish_error].
    intros _ _. split; [|done]. unfold held_now in Eh. destruct (held_phase_spec (Phase rec)) as [|Hp]; [done |].
    apply dec_stable in Hp. cell_simpl. eapply cell_step_steps, (cell_acquire (mkCell _ _ _ _)); simpl; [done | lia | done].
Qed.

Lemma renew_ok env req s :
  store_inv (recs (pg_db s)) ->
  call_ok (ren_ClaimName req) (ren_OperationID req) (fun _ => True) s (RenewClaim accepts env req s).
Proof.
  intros Hi. apply run_tx_ok; [done |]. apply recalled_done, with_claim_done; [done | done |]. intros rec.
  branch Eo; [refuse |]. branch Et; [refuse |]. branch Eh; [refuse |].
  apply (apply_update_done accepts _ _ _ _ _ (Some _)); [done | | intros; apply fail_done].
  intros _ _. split; [constructor | done].
Qed.

Lemma prepare_ok env req s :
  store_inv (recs (pg_db s)) -> tr_FromGeneration req ≠ "" -> tr_ToGeneration req ≠ "" ->
  call_ok (tr_ClaimName req) (tr_OperationID req) (fun rec => cell_of_record rec =
      mkCell (tr_FromGeneration req) (tr_Token req) ClaimReserved (tr_ToGeneration req)) s (PrepareTransfer accepts env req s).
Proof.
  intros Hi Hf Ht. apply run_tx_ok; [done |]. apply recalled_done, with_claim_done; [done | done |]. intros rec.
  apply at_claim_facts. intros Hw Hn _.
  branch Eo; [refuse |]. branch Et; [refuse |]. branch Ec; [refuse |]. branch Es; use_bool.
  - apply finish_found; [unfold cell_of_record; congruence | congruence].
  - apply (apply_update_done accepts _ _ _ _ _ (Some _)); [done | | intros; apply fail_done].
    intros _ _. split; [|unfold cell_of_record; simpl; congruence].
    cell_step_by cell_reserve; [by apply (row_owner_held rec Hw); congruence | | done]. simpl. intros Hp.
    pose proof (wf_reserved _ Hw Hp) as Hs. simpl in Hs. rewrite Hp in Ec, Es.
    rewrite (bool_decide_eq_false_2 _ Hs), (bool_decide_eq_true_2 (ClaimReserved = ClaimReserved)) in Ec by done.
    rewrite (bool_decide_eq_true_2 (ClaimReserved = ClaimReserved)) in Es by done. simpl in Ec, Es. by rewrite Es in Ec.
Qed.

Lemma commit_ok env req s :
  store_inv (recs (pg_db s)) ->
  call_ok (com_ClaimName req) (com_OperationID req) (fun rec => OwnerGeneration rec = com_ToGeneration req /\
      Phase rec = ClaimOwned /\ FencingTokenOf rec = u64 (com_ExpectedToken req + 1)) s (CommitTransfer accepts env req s).
Proof.
  intros Hi. apply run_tx_ok; [done |]. apply recalled_done, with_claim_done; [done | done |]. intros rec.
  apply at_claim_facts. intros Hw Hn _.
  branch Ed; [use_bool; apply finish_found; [done | congruence] |].
  branch Er; [refuse |]. branch Eo; [refuse |]. branch Et; [refuse |]. branch Em; [refuse |].
  use_bool. apply (apply_update_done accepts _ _ _ _ _ (Some _)); [done | | intros; apply fail_done].
  intros _ Hfit. unfold fits_bigint in Hfit. use_bool. pose proof (wf_range _ Hw) as Hr. simpl in Hr, Hfit.
  assert (PendingSuccessor rec = com_ToGeneration req) as Hs by assumption. split.
  - rewrite <- Hs. cell_step_by cell_commit; simpl; [done | lia].
  - split; [done |]. split; [done |]. simpl. rewrite <- Et. symmetry. apply u64_small. unfold is_u64, u64_modulus. lia.
Qed.

Lemma abort_ok env req s :
  store_inv (recs (pg_db s)) ->
  call_ok (ab_ClaimName req) (ab_OperationID req) (fun rec => OwnerGeneration rec = ab_FromGeneration req /\
      Phase rec = ClaimOwned /\ FencingTokenOf rec = c_token (cell_of (recs (pg_db s) !! ab_ClaimName req))) s
    (AbortTransfer accepts env req s).
Proof.
  intros Hi. apply run_tx_ok; [done |]. apply recalled_done, with_claim_done; [done | done |]. intros rec.
  apply at_claim_facts. intros Hw Hn Htok. branch Ep.
  - branch Eo; [use_bool; apply finish_found; [done | congruence] | refuse].
  - branch Et; [refuse |]. branch Eo; [refuse |]. use_bool.
    apply (apply_update_done accepts _ _ _ _ _ (Some _)); [done | | intros; apply fail_done].
    intros _ _. split; [by cell_step_by cell_abort | done].
Qed.

Lemma release_ok env req s :
  store_inv (recs (pg_db s)) -> rel_GenerationID req ≠ "" ->
  call_ok (rel_ClaimName req) (rel_OperationID req) (fun _ => True) s (ReleaseClaim_tx accepts env req s).
Proof.
  intros Hi Hg. apply run_tx_ok; [done |]. apply recalled_done, with_claim_done; [done | done |]. intros rec.
  apply at_claim_facts. intros Hw Hn _. branch Et; [refuse |]. branch Eo; [branch Eu; refuse |]. use_bool.
  apply (hoare_bind _ _ _ (fun _ db => store_effect (rel_ClaimName req) (recs (pg_db s)) (recs db))).
  - apply hoare_stmt; [by intros db msg [] |]. intros db Hat. unfold with_arg. destruct (accepts _); [|apply Hat].
    apply (update_claim_step _ _ rec _ released db Hat); [done |]. intros _ _.
    cell_step_by cell_release. apply (row_owner_held rec Hw). congruence.
  - intros [[|m]|row]; [apply fail_done .. | apply finish_none].
Qed.
End Methods.

(** ** Stored operations *)

Section Ops.
Context (accepts : Z -> bool) (id' : OperationID) (c : option storedOp).

(** The transaction does not touch the result stored under [id']. *)
Definition keeps {A} (m : tx A) : Prop :=
  hoare (fun db => t_ops db !! id' = c) m (fun _ db => t_ops db !! id' = c).

Lemma keeps_ret {A} (a : A) : keeps (ret a).
Proof. by apply hoare_ret. Qed.

Lemma keeps_bind {A B} (m : tx A) (k : A -> tx B) : keeps m -> (forall a, keeps (k a)) -> keeps (x <~ m;; k x).
Proof. intros Hm Hk. eapply hoare_bind; [exact Hm | exact Hk]. Qed.

Lemma keeps_stmt {A} (f : DB -> DB * (sqlerr + A)) : (forall db, t_ops (f db).1 = t_ops db) -> keeps (stmt f).
Proof. intros Hf. apply hoare_stmt; [done |]. intros db <-. by rewrite Hf. Qed.

Lemma keeps_storeOp id r e : id' ≠ id -> keeps (storeOp id r e).
Proof.
  intros Hn. unfold storeOp. destruct (Empty id); [apply keeps_ret |]. apply keeps_bind; [|intros; apply keeps_ret].
  apply hoare_stmt; [done |]. intros db <-. simpl. destruct (t_ops db !! id); simpl; [done |]. by rewrite lookup_insert_ne.
Qed.

Lemma update_claim_ops n cond set db : t_ops (update_claim n cond set db).1 = t_ops db.
Proof. unfold update_claim. by repeat case_match. Qed.

Lemma with_arg_ops v n cond set db : t_ops (with_arg accepts v (update_claim n cond set) db).1 = t_ops db.
Proof. unfold with_arg. case_match; [apply update_claim_ops | done]. Qed.

Lemma keeps_query f : (forall db, t_ops (f db).1 = t_ops db) -> keeps (query_claim f).
Proof. intros Hf. apply keeps_bind; [by apply keeps_stmt | intros; apply keeps_ret]. Qed.

Lemma keeps_getClaim n create : keeps (getClaimForUpdate n create).
Proof.
  apply keeps_bind; [by apply keeps_query |]. intros [[[|m]|] r]; [|apply keeps_ret ..].
  destruct create; [|apply keeps_ret]. apply keeps_bind; [|intros; apply keeps_ret].
  apply keeps_query. intros db. unfold insert_claim. by case_match.
Qed.

Lemma keeps_expire now rec : keeps (expireIfNeeded now rec).
Proof.
  unfold expireIfNeeded. repeat case_match; try apply keeps_ret.
  apply keeps_bind; [apply keeps_stmt; intros; apply update_claim_ops |]. intros [[|m]|row]; apply keeps_ret.
Qed.

Lemma keeps_finish f id r : id' ≠ id -> keeps (finish f id r).
Proof. intros Hn. apply keeps_bind; [by apply keeps_storeOp | intros; apply keeps_ret]. Qed.

Lemma keeps_recalled id (body : Body) : keeps body -> keeps (recalled id body).
Proof.
  intros Hb. unfold recalled. apply keeps_bind.
  - unfold recallOp. destruct (Empty id); [apply keeps_ret |]. apply keeps_bind; [by apply keeps_stmt |].
    intros [[|m]|s]; apply keeps_ret.
  - intros [r|]; [apply keeps_ret | exact Hb].
Qed.

Lemma keeps_with_claim env n create wrap (body : ClaimRecord -> Body) :
  (forall rec, keeps (body rec)) -> keeps (with_claim env n create wrap body).
Proof.
  intros Hb. apply keeps_bind; [apply keeps_getClaim |]. intros [e|rec]; [apply keeps_ret |].
  apply keeps_bind; [apply keeps_expire |]. intros [e|rec']; [apply keeps_ret | apply Hb].
Qed.

Lemma keeps_apply op id upd no_rows :
  id' ≠ id -> (forall db, t_ops (upd db).1 = t_ops db) -> (forall e, keeps (no_rows e)) ->
  keeps (apply_update op id upd no_rows).
Proof.
  intros Hn Hu Hno. apply keeps_bind; [by apply keeps_query |].
  intros [[[|m]|] [e|out]]; first [apply Hno | apply keeps_ret | by apply keeps_finish].
Qed.

Lemma run_tx_keeps op body s :
  t_ops (pg_db s) !! id' = c -> keeps body -> t_ops (pg_db (run_tx op body s).1) !! id' = c.
Proof.
  intros Hc Hb. unfold run_tx. destruct (pg_faults s (pg_count s)); [|done ..].
  specialize (Hb (pg_faults s) (mkTx (S (pg_count s)) (pg_db s) false) Hc).
  destruct (body _ _) as [st [f r]]. simpl in Hb. unfold commit.
  destruct f; [done | |]; destruct (x_aborted st); try done; by destruct (pg_faults s (x_n st)).
Qed.
End Ops.

Create HintDb pg.
#[export] Hint Resolve keeps_ret keeps_finish update_claim_ops with_arg_ops : pg.

Lemma pg_ops_kept accepts env rq s id :
  id ≠ rq_op rq -> t_ops (pg_db (do_request (BackendOps0 := pg_ops accepts) env rq s).1) !! id = t_ops (pg_db s) !! id.
Proof.
  intros Hn. destruct rq as [r|r|r|r|r|r]; simpl in *.
  6: { assert (t_ops (pg_db (ReleaseClaim_tx accepts env r s).1) !! id = t_ops (pg_db s) !! id) as H;
         [|unfold ReleaseClaim; by destruct (ReleaseClaim_tx accepts env r s)].
       apply run_tx_keeps; [done |]. apply keeps_recalled, keeps_with_claim. intros rec.
       repeat match goal with |- keeps _ _ (if ?b then _ else _) => destruct b end;
         first [apply keeps_ret | by apply keeps_finish | idtac].
       apply keeps_bind; [apply keeps_stmt; intros; apply with_arg_ops |].
       intros [[|m]|row]; [apply keeps_ret .. | by apply keeps_finish]. }
  all: apply run_tx_keeps; [done |]; apply keeps_recalled, keeps_with_claim; intros rec;
    repeat match goal with |- keeps _ _ (if ?b then _ else _) => destruct b end;
    first [apply keeps_ret | by apply keeps_finish
          | apply keeps_apply; [done | intros; first [apply with_arg_ops | apply update_claim_ops] |
              intros; first [apply keeps_ret | by apply keeps_finish]]].
Qed.

(** Every request has the effect of the specification on its claim. *)
Lemma pg_request_effect accepts env rq s :
  store_inv (recs (pg_db s)) -> rq_valid rq ->
  store_effect (rq_claim rq) (recs (pg_db s)) (recs (pg_db (do_request (BackendOps0 := pg_ops accepts) env rq s).1)).
Proof.
  intros Hi Hv. destruct rq as [r|r|r|r|r|r]; simpl in *.
  - by apply acquire_ok.
  - by apply renew_ok.
  - destruct Hv. by apply prepare_ok.
  - by apply commit_ok.
  - by apply abort_ok.
  - pose proof (release_ok accepts env r s Hi Hv) as [H _]. unfold ReleaseClaim.
    by destruct (ReleaseClaim_tx accepts env r s).
Qed.

Lemma fresh_unseen accepts s id : fresh (BackendOps0 := pg_ops accepts) s id -> unseen id (pg_db s).
Proof.
  unfold fresh, unseen. simpl. destruct (Empty id); [by left |]. rewrite andb_true_r, bool_decide_eq_false.
  intros H. right. by apply eq_None_not_Some.
Qed.

(** A success whose operation was not recalled. *)
Lemma call_ok_good accepts n id Good s s' x rec :
  call_ok n id Good s x -> fresh (BackendOps0 := pg_ops accepts) s id -> x = (s', (Some rec, None)) ->
  recs (pg_db s') !! n = Some rec /\ Good rec.
Proof. intros [_ H] Hf ->. destruct (H rec (fresh_unseen _ _ _ Hf) eq_refl). done. Qed.

Lemma claim_at_recs accepts s n : claim_at (BackendOps := pg_ops accepts) s n = recs (pg_db s) !! n.
Proof. unfold recs. by rewrite lookup_fmap. Qed.

(** The PostgreSQL backend meets the contract of [backend.go], whatever its driver
    accepts and whichever statements fail. *)
#[global] Instance pg_laws accepts : BackendLaws (BackendOps0 := pg_ops accepts) PG.
Proof.
  refine {| be_inv := (fun s => store_inv (recs (pg_db s))) : PG -> Prop |}.
  - intros s n Hi. unfold cell_at. rewrite claim_at_recs. by apply store_inv_cell.
  - intros env rq s s' r Hi Hv E. pose proof (pg_request_effect accepts env rq s Hi Hv) as [H1 H2 H3].
    rewrite E in H1, H2, H3. unfold cell_at. rewrite !claim_at_recs. split; [done |]. split; [done |].
    intros n Hn. rewrite !claim_at_recs. by apply H3.
  - intros env rq s s' r id E Hn. pose proof (pg_ops_kept accepts env rq s id Hn) as H. rewrite E in H.
    simpl in *. by rewrite H.
  - intros env g s f Hf Hi. assert (recs (pg_db f.1) = recs (pg_db s) /\ t_ops (pg_db f.1) = t_ops (pg_db s)) as [Hc Ho].
    { destruct Hf as [->| ->]; simpl; unfold RegisterGeneration, UpdateGeneration, exec;
        destruct (pg_faults s (pg_count s)); simpl; try done; by case_match. }
    split; [by rewrite Hc |]. split; [intros n; by rewrite !claim_at_recs, Hc |]. simpl. intros id. by rewrite Ho.
  - intros env req s s' rec Hi Hv Hf E. rewrite claim_at_recs.
    by apply (call_ok_good _ _ _ _ _ _ _ _ (acquire_ok accepts env req s Hi Hv) Hf E).
  - intros env req s s' rec Hi [Hv1 Hv2] Hf E. rewrite claim_at_recs.
    by apply (call_ok_good _ _ _ _ _ _ _ _ (prepare_ok accepts env req s Hi Hv1 Hv2) Hf E).
  - intros env req s s' rec Hi Hf E. rewrite claim_at_recs.
    by apply (call_ok_good _ _ _ _ _ _ _ _ (commit_ok accepts env req s Hi) Hf E).
  - intros env req s s' rec Hi Hf E. unfold cell_at. rewrite !claim_at_recs.
    by apply (call_ok_good _ _ _ _ _ _ _ _ (abort_ok accepts env req s Hi) Hf E).
Defined.

(** ** Exclusion *)

Section Exclusion.
Context (accepts : Z -> bool).
#[local] Instance pg_ops_here : BackendOps PG := pg_ops accepts.
#[local] Instance pg_laws_here : BackendLaws PG := pg_laws accepts.

(** The PostgreSQL backend serialises owners.  Whatever the driver accepts, whichever
    statements and commits fail (also after they took effect), from tables whose
    claims are well formed, a claim's token never decreases and stays in
    range, and two states in which the claim is held with the same token have the
    same owner. *)
Theorem pg_single_holder (s0 s1 s2 : PG) n row1 row2 :
  store_inv (recs (pg_db s0)) -> steps backend_step s0 s1 -> steps backend_step s1 s2 ->
  t_claims (pg_db s1) !! n = Some row1 -> t_claims (pg_db s2) !! n = Some row2 ->
  FencingTokenOf (w_rec row1) <= FencingTokenOf (w_rec row2) <= MaxSafeFencingToken /\
  (Phase (w_rec row2) ≠ ClaimUnowned -> FencingTokenOf (w_rec row1) = FencingTokenOf (w_rec row2) ->
   Phase (w_rec row1) ≠ ClaimUnowned /\ OwnerGeneration (w_rec row1) = OwnerGeneration (w_rec row2)).
Proof.
  intros H0 H1 H2 E1 E2.
  pose proof (backend_steps_inv _ _ (H0 : be_inv s0) H1) as Hi1.
  pose proof (backend_steps_inv _ _ Hi1 H2) as Hi2.
  pose proof (backend_steps_epoch _ _ n Hi1 H2) as [Ht Hh].
  unfold cell_at in *. rewrite !(claim_at_recs accepts), (recs_lookup _ _ _ E1), (recs_lookup _ _ _ E2) in *.
  destruct (Hi2 _ _ (recs_lookup _ _ _ E2)) as [_ [[_ Hmax] _ _ _ _]]. split; [done |]. intros Hp Heq. by apply Hh.
Qed.
End Exclusion.

(** A provisioned row (its reason is not NULL), an acquisition and a reservation. *)
Definition pg_provisioned : PG :=
  mkPG (mkDB ∅ {["leader" := mkRow (unowned_record "leader") false]} ∅) 0 (fun _ => NoFault).
Definition pg_env (t : Time) : Env := mkEnv None t t t.
Definition pg_acq : Request := RqAcquire (mkAcquire "leader" "a" (10 * Second) false "op-a").
Definition pg_prep : Request := RqPrepare (mkTransfer "leader" "a" "b" 1 (10 * Second) "op-p").
Definition pg_any : Z -> bool := fun _ => true.
Definition pg_owned : PG := (do_request (BackendOps0 := pg_ops pg_any) (pg_env 5) pg_acq pg_provisioned).1.
Definition pg_reserved : PG := (do_request (BackendOps0 := pg_ops pg_any) (pg_env 6) pg_prep pg_owned).1.

Lemma pg_provisioned_inv : store_inv (recs (pg_db pg_provisioned)).
Proof.
  unfold recs. simpl. rewrite map_fmap_singleton. intros n r [<- <-]%lookup_singleton_Some.
  split; [done | apply cell0_wf].
Qed.

Lemma pg_step env rq s :
  rq_valid rq -> steps (backend_step (H := pg_ops pg_any)) s (do_request (BackendOps0 := pg_ops pg_any) env rq s).1.
Proof.
  intros Hv. apply steps_one. exists env, rq, (do_request (BackendOps0 := pg_ops pg_any) env rq s).2.
  split; [done |]. by destruct (do_request _ _ _).
Qed.

Lemma pg_witness_rows :
  (OwnerGeneration ∘ w_rec <$> t_claims (pg_db pg_owned) !! "leader") = Some "a" /\
  (Phase ∘ w_rec <$> t_claims (pg_db pg_reserved) !! "leader") = Some ClaimReserved /\
  (FencingTokenOf ∘ w_rec <$> t_claims (pg_db pg_owned) !! "leader") = Some 1 /\
  (FencingTokenOf ∘ w_rec <$> t_claims (pg_db pg_reserved) !! "leader") = Some 1.
Proof. vm_compute. repeat split. Qed.

Lemma pg_first : steps (backend_step (H := pg_ops pg_any)) pg_provisioned pg_owned.
Proof. by apply pg_step. Qed.

Lemma pg_second : steps (backend_step (H := pg_ops pg_any)) pg_owned pg_reserved.
Proof. by apply pg_step. Qed.

Lemma pg_single_holder_witness :
  exists row1 row2, t_claims (pg_db pg_owned) !! "leader" = Some row1 /\
    t_claims (pg_db pg_reserved) !! "leader" = Some row2 /\ OwnerGeneration (w_rec row2) = "a".
Proof.
  destruct pg_witness_rows as (H1 & H2 & H3 & H4).
  destruct (t_claims (pg_db pg_owned) !! "leader") as [row1|] eqn:E1; [|done].
  destruct (t_claims (pg_db pg_reserved) !! "leader") as [row2|] eqn:E2; [|done].
  exists row1, row2. split; [done |]. split; [done |].
  destruct (pg_single_holder pg_any pg_provisioned pg_owned pg_reserved "leader" row1 row2
    pg_provisioned_inv pg_first pg_second E1 E2) as [_ H].
  destruct H as [_ <-]; cbn in *; congruence.
Defined.

(** ** The backend never hands out a claim *)

(** A body that leaves the tables as they are, with an error that satisfies [P]. *)
Definition refuses (P : error -> Prop) (x : fin * RecordResult) (db : DB) : Prop :=
  (x.1 = Rollback \/ db = Migrate) /\ exists e, x.2 = (None, Some e) /\ P e.

Definition backend_error (e : error) : Prop := errors_is e ErrBackend = true.

Lemma mapErr_backend op e : backend_error (mapErr op e).
Proof. done. Qed.
#[local] Hint Resolve mapErr_backend : pg.

Lemma fail_refuses P (e : error) Pre : P e -> hoare Pre (fail e) (refuses P).
Proof. intros Hp. apply hoare_ret. intros db _. split; [by left |]. by exists e. Qed.

(** On the empty tables no claim is found, and the one that [AcquireClaim] inserts
    has a NULL reason, which does not scan. *)
Lemma getClaim_empty n create :
  hoare (fun db => db = Migrate) (getClaimForUpdate n create) (fun r _ => exists e, r = inl e).
Proof.
  unfold getClaimForUpdate, query_claim.
  apply (hoare_bind _ _ _ (fun r db => db = Migrate /\ exists e, r.2 = inl e)).
  - apply (hoare_bind _ _ _ (fun r db => db = Migrate /\ exists e, r = inl e)).
    + apply hoare_stmt; [intros db msg ->; by eauto |]. intros db ->. simpl. rewrite lookup_empty. eauto.
    + intros r. apply hoare_ret. intros db [-> [e ->]]. simpl. eauto.
  - intros [o r]. assert (hoare (fun db => db = Migrate /\ exists e, r = inl e) (ret r)
      (fun r _ => exists e, r = inl e)) as Hret by (by apply hoare_ret; intros db []).
    destruct o as [[|m]|]; [|exact Hret ..]. destruct create; [|by apply hoare_ret; eauto].
    apply (hoare_bind _ _ _ (fun r _ => exists e, r.2 = inl e)); [|intros x; by apply hoare_ret].
    apply (hoare_bind _ _ _ (fun r _ => forall row, r = inr row -> w_null row = true)).
    + apply hoare_stmt; [done |]. intros db [-> _]. unfold insert_claim. simpl. rewrite lookup_empty.
      by intros row [= <-].
    + intros [e|row]; apply hoare_ret; intros db Hr; simpl; [by eauto |]. unfold scanClaim. rewrite (Hr row eq_refl). eauto.
Qed.

Lemma with_claim_empty (P : error -> Prop) env n create wrap body id :
  (forall e, P (wrap e)) -> (forall m, P (mapErr "recallOp" m)) ->
  hoare (fun db => db = Migrate) (recalled id (with_claim env n create wrap body)) (refuses P).
Proof.
  intros Hw Hm. unfold recalled.
  apply (hoare_bind _ _ _ (fun r db => db = Migrate /\ forall x, r = Some x -> exists e, x = (None, Some e) /\ P e)).
  - unfold recallOp. destruct (Empty id); [by apply hoare_ret |].
    apply (hoare_bind _ _ _ (fun r db => db = Migrate /\ exists e, r = inl e)).
    + apply hoare_stmt; [intros db msg ->; by eauto |]. intros db ->. simpl. rewrite lookup_empty. eauto.
    + intros r. apply (hoare_assume _ (exists e, r = inl e)). intros [e ->].
      destruct e; apply hoare_ret; intros db ->; (split; [done |]); intros x [= <-]. eauto.
  - intros [x|].
    + apply hoare_ret. intros db [-> Hx]. destruct (Hx x eq_refl) as (e & -> & He). split; [by right |]. by exists e.
    + unfold with_claim. eapply (hoare_pre _ (fun db => db = Migrate)); [by intros db [] |].
      eapply hoare_bind; [apply getClaim_empty |]. intros r F st [e ->]. apply (fail_refuses P _ (fun _ => True)); eauto.
Qed.

Lemma run_tx_refuses P op body s :
  pg_db s = Migrate -> (forall e, P (mapErr op e)) -> hoare (fun db => db = Migrate) body (refuses P) ->
  pg_db (run_tx op body s).1 = Migrate /\
  exists e, (run_tx op body s).2 = (None, Some e) /\ (P e \/ exists op e', e = mapErr op e').
Proof.
  intros Hs Hp Hb. unfold run_tx. destruct (pg_faults s (pg_count s)); [|split; [done |]; simpl; by eauto ..].
  specialize (Hb (pg_faults s) (mkTx (S (pg_count s)) (pg_db s) false) Hs).
  destruct (body _ _) as [st [f r]]. destruct Hb as [Hdb (e & Hr & He)]. simpl in Hdb, Hr. subst r.
  assert ((commit (pg_faults s) (pg_db s) st).1 = x_db st \/ (commit (pg_faults s) (pg_db s) st).1 = pg_db s) as Hc.
  { unfold commit. destruct (x_aborted st); [by right |]. destruct (pg_faults s (x_n st)); simpl; auto. }
  destruct f as [| |op']; [split; [done |]; eauto | |].
  - destruct Hdb as [?|Hdb]; [done |]. split; [simpl; destruct Hc; congruence |]. eauto.
  - destruct Hdb as [?|Hdb]; [done |]. destruct (commit _ _ _) as [db [m|]]; simpl in *;
      (split; [destruct Hc; congruence |]); eauto 6.
Qed.

Section Never.
Context (accepts : Z -> bool).

Definition serve (reqs : list (Env * Request)) (s : PG) : PG :=
  foldl (fun s x => (do_request (BackendOps0 := pg_ops accepts) x.1 x.2 s).1) s reqs.

Lemma request_empty env rq s : pg_db s = Migrate -> pg_db (do_request (BackendOps0 := pg_ops accepts) env rq s).1 = Migrate.
Proof.
  intros Hs. destruct rq as [r|r|r|r|r|r]; simpl.
  6: { assert (pg_db (ReleaseClaim_tx accepts env r s).1 = Migrate) as H;
         [|unfold ReleaseClaim; by destruct (ReleaseClaim_tx accepts env r s)].
       apply (run_tx_refuses (fun _ => True)); [done | done |]. by apply with_claim_empty. }
  all: apply (run_tx_refuses (fun _ => True)); [done | done |]; by apply with_claim_empty.
Qed.

Lemma serve_empty reqs s : pg_db s = Migrate -> pg_db (serve reqs s) = Migrate.
Proof. revert s. induction reqs as [|x reqs IH]; [done |]. intros s Hs. by apply IH, request_empty. Qed.

Lemma acquire_empty env req s :
  pg_db s = Migrate -> exists e, (AcquireClaim accepts env req s).2 = (None, Some e) /\ errors_is e ErrBackend = true.
Proof.
  intros Hs. assert (forall e, backend_error e \/ (exists op e', e = mapErr op e') -> backend_error e) as Hb
    by by intros e [?|(op & e' & ->)].
  unfold AcquireClaim. match goal with |- context [run_tx ?op ?b s] =>
    destruct (run_tx_refuses backend_error op b s Hs) as (_ & e & He & He') end; [done | by apply with_claim_empty |].
  exists e. split; [exact He | by apply Hb].
Qed.

(** C11: on a freshly migrated database no claim is ever handed out.  The row that
    [AcquireClaim] inserts has a NULL [reason], which [scanClaim] cannot read into
    its string, so after any requests, with any driver and any failures, the
    tables are as [Migrate] left them and every [AcquireClaim] returns an error
    that is [ErrBackend]. *)
Theorem pg_never_acquires faults reqs env req :
  let s := serve reqs (New faults) in
  pg_db s = Migrate /\
  exists e, (AcquireClaim accepts env req s).2 = (None, Some e) /\ errors_is e ErrBackend = true.
Proof.
  cbv zeta. assert (pg_db (serve reqs (New faults)) = Migrate) as Hs by by apply serve_empty. split; [done |].
  apply (acquire_empty env req _ Hs).
Qed.
End Never.

(** Even with provisioned rows, a driver that refuses a [uint64] with its high bit
    set refuses every acquisition of an unowned claim: the bound
    [uint64(MaxSafeFencingToken)] is such an argument. *)
Lemma pg_bound_refused accepts env req s row :
  accepts MaxSafeFencingToken = false -> (forall k, pg_faults s k = NoFault) ->
  t_claims (pg_db s) !! acq_ClaimName req = Some row -> w_null row = false ->
  Phase (w_rec row) = ClaimUnowned -> FencingTokenOf (w_rec row) < MaxSafeFencingToken ->
  Empty (acq_OperationID req) = true ->
  pg_db (AcquireClaim accepts env req s).1 = pg_db s /\
  (AcquireClaim accepts env req s).2 =
    (None, Some (mapErr "AcquireClaim" (TextErr "uint64 values with high bit set are not supported"))).
Proof.
  intros Ha Hf Hr Hn Hp Ht He.
  unfold AcquireClaim, run_tx. rewrite Hf. unfold recalled, recallOp. rewrite He.
  unfold with_claim, getClaimForUpdate, query_claim, expireIfNeeded, bindT, stmt, ret. cbn [x_n x_db].
  rewrite Hf. cbn [select_claim x_db x_n]. rewrite Hr. unfold scanClaim. rewrite Hn.
  assert (held_now (w_rec row) = false) as Hh by (unfold held_now; by rewrite Hp).
  assert (bool_decide (MaxSafeFencingToken <= FencingTokenOf (w_rec row)) = false) as Hb
    by (apply bool_decide_eq_false; lia).
  destruct (_ || _); cbn beta iota zeta; rewrite !Hh; cbn [negb]; rewrite ?Hh, Hb;
    unfold apply_update, query_claim, bindT, stmt; cbn [x_n x_db]; rewrite Hf; unfold with_arg; by rewrite Ha.
Qed.
