(* ===== verification/Migration.v ===== *)
(** * Migrations ([migration/migration.go])

    Definitions and runs of one coordinator.  Every method locks the coordinator's
    mutex for its critical sections only; hooks and gates are called between them,
    and other goroutines (or the hooks themselves) may use the coordinator there.
    Each critical section is a function on [Coordinator]; [Start] is a program of
    such sections in which [others] acts before each of them.

    Phases are the strings they are in Go, since callers may pass any.  The
    percentage of a checkpoint, a function of its counters, is left out.  The second part of the file has the theorems. *)

From S2P Require Import Prelude GoStrings ResourceID.

(** ** Data *)

Abbreviation Phase := string (only parsing).

Definition PhasePlanned := "planned".
Definition PhaseValidated := "validated".
Definition PhasePreparing := "preparing".
Definition PhaseCopying := "copying".
Definition PhaseVerifying := "verifying".
Definition PhaseCutover := "cutover".
Definition PhasePaused := "paused".
Definition PhaseCompensating := "compensating".
Definition PhaseCompleted := "completed".
Definition PhaseFailed := "failed".

Definition Terminal (p : Phase) : bool := bool_decide (p = PhaseCompleted) || bool_decide (p = PhaseFailed).

Record Checkpoint := mkCheckpoint {
  ck_Name : string; ck_Phase : Phase; ck_ResumeFrom : Phase; ck_Copied : Z; ck_Total : Z;
  ck_Attrs : gmap string string; ck_UpdatedAt : Time }.

Record Run := mkRun {
  r_Name : string; r_Source : string; r_Target : string; r_Phase : Phase; r_DryRun : bool; r_Owner : string;
  r_Fence : Z; r_SourceID : ResourceID; r_TargetID : ResourceID; r_Copied : Z; r_Total : Z; r_Message : string;
  r_Checkpoint : Checkpoint; r_UpdatedAt : Time }.

(** The error of a hook; [he_paused] tells whether it is or wraps [ErrPaused]. *)
Record hook_error := mkHookError { he_paused : bool; he_text : string }.

(** A hook is called at a moment and sees a copy of the run. *)
Abbreviation Hook := (nat -> Run -> option hook_error).

(** [Definition]. *)
Record Plan := mkPlan {
  p_Name : string; p_Source : string; p_Target : string; p_Owner : string; p_Fence : Z;
  p_SourceID : ResourceID; p_TargetID : ResourceID; p_VerifySteps : list (option Hook); p_Cutover : option Hook;
  p_MaxBytes : Z }.

(** The gates, each possibly nil; their answers depend on the moment. *)
Record Hooks := mkHooks {
  hk_Ownership : option (nat -> ResourceID -> string -> bool);
  hk_Fence : option (nat -> ResourceID -> Z -> option string);
  hk_Lockdown : option (nat -> bool) }.

Record Coordinator := mkCoord {
  c_defs : gmap string Plan; c_runs : gmap string Run; c_hooks : Hooks; c_max : Z }.

Record Progress := mkProgress {
  pg_Name : string; pg_Phase : Phase; pg_Copied : Z; pg_Total : Z; pg_DryRun : bool; pg_Message : string;
  pg_UpdatedAt : Time }.

Definition no_progress : Progress := mkProgress "" "" 0 0 false "" time_zero.

Record StartOptions := mkOptions {
  so_DryRun : bool; so_Total : Z; so_CopiedSeed : Z; so_PauseAfter : Phase; so_resume : bool }.

Inductive merr :=
| ErrNotFound | ErrDuplicate | ErrInvalidPhase | ErrInvalidArg | ErrPaused | ErrLockdown
| ErrFence (msg : string) | ErrOwnership | ErrVerifyFailed (i : nat) (msg : string) | ErrBoundExceeded
| CtxErr (msg : string) | HookErr (e : hook_error).

Definition merr_text (e : merr) : string :=
  match e with
  | ErrNotFound => "migration: not found"
  | ErrDuplicate => "migration: duplicate"
  | ErrInvalidPhase => "migration: invalid phase transition"
  | ErrInvalidArg => "migration: invalid argument"
  | ErrPaused => "migration: paused"
  | ErrLockdown => "migration: lockdown blocks mutation"
  | ErrFence m => "migration: fencing check failed: " +:+ m
  | ErrOwnership => "migration: ownership required"
  | ErrVerifyFailed i m => "migration: cutover verification failed: step " +:+ fmt_d (Z.of_nat i) +:+ ": " +:+ m
  | ErrBoundExceeded => "migration: bound exceeded"
  | CtxErr m => m
  | HookErr e => he_text e
  end.

(** [errors.Is(err, ErrPaused)]. *)
Definition is_paused (e : merr) : bool :=
  match e with ErrPaused => true | HookErr e => he_paused e | _ => false end.

Definition DefaultMaxMigrations : Z := 256.

Definition New (hooks : Hooks) (max : Z) : Coordinator :=
  mkCoord ∅ ∅ hooks (if bool_decide (max <= 0) then DefaultMaxMigrations else max).

Definition no_hooks : Hooks := mkHooks None None None.

Definition NewCoordinator : Coordinator := New no_hooks 0.

(** ** Updates of a run *)

Definition with_phase (p : Phase) (r : Run) : Run :=
  mkRun (r_Name r) (r_Source r) (r_Target r) p (r_DryRun r) (r_Owner r) (r_Fence r) (r_SourceID r) (r_TargetID r)
    (r_Copied r) (r_Total r) (r_Message r) (r_Checkpoint r) (r_UpdatedAt r).
Definition with_dry (r : Run) : Run :=
  mkRun (r_Name r) (r_Source r) (r_Target r) (r_Phase r) true (r_Owner r) (r_Fence r) (r_SourceID r) (r_TargetID r)
    (r_Copied r) (r_Total r) (r_Message r) (r_Checkpoint r) (r_UpdatedAt r).
Definition with_counts (copied total : Z) (r : Run) : Run :=
  mkRun (r_Name r) (r_Source r) (r_Target r) (r_Phase r) (r_DryRun r) (r_Owner r) (r_Fence r) (r_SourceID r)
    (r_TargetID r) copied total (r_Message r) (r_Checkpoint r) (r_UpdatedAt r).
Definition with_message (m : string) (r : Run) : Run :=
  mkRun (r_Name r) (r_Source r) (r_Target r) (r_Phase r) (r_DryRun r) (r_Owner r) (r_Fence r) (r_SourceID r)
    (r_TargetID r) (r_Copied r) (r_Total r) m (r_Checkpoint r) (r_UpdatedAt r).
Definition with_time (t : Time) (r : Run) : Run :=
  mkRun (r_Name r) (r_Source r) (r_Target r) (r_Phase r) (r_DryRun r) (r_Owner r) (r_Fence r) (r_SourceID r)
    (r_TargetID r) (r_Copied r) (r_Total r) (r_Message r) (r_Checkpoint r) t.
Definition with_ck (f : Checkpoint -> Checkpoint) (r : Run) : Run :=
  mkRun (r_Name r) (r_Source r) (r_Target r) (r_Phase r) (r_DryRun r) (r_Owner r) (r_Fence r) (r_SourceID r)
    (r_TargetID r) (r_Copied r) (r_Total r) (r_Message r) (f (r_Checkpoint r)) (r_UpdatedAt r).

(** Phase, resume phase and time of a checkpoint. *)
Definition ck_set (p from : Phase) (t : Time) (k : Checkpoint) : Checkpoint :=
  mkCheckpoint (ck_Name k) p from (ck_Copied k) (ck_Total k) (ck_Attrs k) t.

Definition zero_run : Run :=
  mkRun "" "" "" "" false "" 0 id_zero id_zero 0 0 "" (mkCheckpoint "" "" "" 0 0 ∅ time_zero) time_zero.

(** [c.runs[name]], which [Define] sets together with [c.defs[name]] and nothing
    removes. *)
Definition run_of (name : string) (c : Coordinator) : Run := default zero_run (c_runs c !! name).

Definition update (name : string) (f : Run -> Run) (c : Coordinator) : Coordinator :=
  mkCoord (c_defs c) (alter f name (c_runs c)) (c_hooks c) (c_max c).

Definition progressOf (r : Run) : Progress :=
  mkProgress (r_Name r) (r_Phase r) (r_Copied r) (r_Total r) (r_DryRun r) (r_Message r) (r_UpdatedAt r).

(** ** Methods with one critical section *)

Definition SetHooks (h : Hooks) (c : Coordinator) : Coordinator := mkCoord (c_defs c) (c_runs c) h (c_max c).

(** [t1] and [t2] are the two readings of the clock. *)
Definition Define (t1 t2 : Time) (def : Plan) (c : Coordinator) : Coordinator * option merr :=
  if bool_decide (p_Name def = "") || bool_decide (p_Source def = "") || bool_decide (p_Target def = "")
  then (c, Some ErrInvalidArg)
  else if bool_decide (c_max c <= Z.of_nat (size (c_defs c))) then (c, Some ErrBoundExceeded)
  else if bool_decide (is_Some (c_defs c !! p_Name def)) then (c, Some ErrDuplicate)
  else
    let run := mkRun (p_Name def) (p_Source def) (p_Target def) PhasePlanned false (p_Owner def) (p_Fence def)
      (p_SourceID def) (p_TargetID def) 0 0 "" (mkCheckpoint (p_Name def) PhasePlanned "" 0 0 ∅ t2) t1 in
    (mkCoord (<[p_Name def := def]> (c_defs c)) (<[p_Name def := run]> (c_runs c)) (c_hooks c) (c_max c), None).

Definition DefineSimple (t1 t2 : Time) (name source target : string) (c : Coordinator) : Coordinator * option merr :=
  Define t1 t2 (mkPlan name source target "" 0 id_zero id_zero [] None 0) c.

(** In the order of the map, which Go leaves open. *)
Definition List_ (c : Coordinator) : list Progress := progressOf <$> (map_to_list (c_runs c)).*2.

Definition Get (name : string) (c : Coordinator) : merr + Run :=
  match c_runs c !! name with Some r => inr r | None => inl ErrNotFound end.

Definition ProgressOf (name : string) (c : Coordinator) : Progress * option merr :=
  match Get name c with inr r => (progressOf r, None) | inl e => (no_progress, Some e) end.

Definition ReportCopy (now : Time) (name : string) (copied total : Z) (c : Coordinator) : Coordinator * option merr :=
  match c_runs c !! name with
  | None => (c, Some ErrNotFound)
  | Some run =>
    if negb (bool_decide (r_Phase run = PhaseCopying)) && negb (bool_decide (r_Phase run = PhasePaused))
    then (c, Some ErrInvalidPhase)
    else
      let total := if bool_decide (0 < total) then total else r_Total run in
      (update name (fun r => r |> with_counts copied total |> with_time now
        |> with_ck (fun k => mkCheckpoint (ck_Name k) (ck_Phase k) (ck_ResumeFrom k) copied total (ck_Attrs k) now)) c, None)
  end.

Definition Pause (now : Time) (name reason : string) (c : Coordinator) : Coordinator * (Progress * option merr) :=
  match c_runs c !! name with
  | None => (c, (no_progress, Some ErrNotFound))
  | Some run =>
    if Terminal (r_Phase run) || bool_decide (r_Phase run = PhasePaused) then (c, (no_progress, Some ErrInvalidPhase))
    else
      let run := run |> with_ck (ck_set PhasePaused (r_Phase run) now) |> with_phase PhasePaused
                     |> with_message reason |> with_time now in
      (update name (fun _ => run) c, (progressOf run, None))
  end.

Definition Compensate (now : Time) (name reason : string) (c : Coordinator) : Coordinator * (Progress * option merr) :=
  match c_runs c !! name with
  | None => (c, (no_progress, Some ErrNotFound))
  | Some run =>
    if bool_decide (r_Phase run = PhaseCompleted) then (c, (no_progress, Some ErrInvalidPhase))
    else
      let run := run |> with_phase PhaseCompensating |> with_message reason |> with_time now |> with_phase PhaseFailed
                     |> with_ck (fun k => ck_set PhaseFailed (ck_ResumeFrom k) now k) in
      (update name (fun _ => run) c, (progressOf run, None))
  end.

(** The index of a phase in a list. *)
Definition index_of (p : Phase) (l : list Phase) : option nat := fst <$> list_find (fun q => p = q) l.

Definition order : list Phase :=
  [PhasePlanned; PhaseValidated; PhasePreparing; PhaseCopying; PhaseVerifying; PhaseCutover; PhaseCompleted].

Definition allowedTransition (from to : Phase) : bool :=
  if bool_decide (from = to) then true
  else if bool_decide (to = PhaseFailed) || bool_decide (to = PhasePaused) || bool_decide (to = PhaseCompensating)
  then negb (Terminal from)
  else
    match index_of from order, index_of to order with
    | Some fi, Some ti => bool_decide (ti = S fi) || bool_decide (from = PhasePaused)
    | _, _ => bool_decide (from = PhasePaused)
    end.

Definition SetPhase (now : Time) (name : string) (phase : Phase) (c : Coordinator) : Coordinator * option merr :=
  match c_runs c !! name with
  | None => (c, Some ErrNotFound)
  | Some run =>
    if negb (allowedTransition (r_Phase run) phase) then (c, Some ErrInvalidPhase)
    else (update name (fun r => r |> with_phase phase |> with_time now
            |> with_ck (fun k => ck_set phase (ck_ResumeFrom k) now k)) c, None)
  end.

Definition fail (now : Time) (name msg : string) (c : Coordinator) : Coordinator * option merr :=
  match c_runs c !! name with
  | None => (c, Some ErrNotFound)
  | Some _ =>
    (update name (fun r => r |> with_phase PhaseFailed |> with_message msg |> with_time now
      |> with_ck (fun k => ck_set PhaseFailed (ck_ResumeFrom k) now k)) c, None)
  end.

(** ** The critical sections of [Start], [Resume] and [advanceTo] *)

(** The beginning of [Start]: refuse, go on with [Resume], or go on. *)
Definition start_enter (opts : StartOptions) (name : string) (_ : Time) (c : Coordinator)
  : Coordinator * (merr + option (Plan * Hooks)) :=
  match c_defs c !! name with
  | None => (c, inl ErrNotFound)
  | Some def =>
    let phase := r_Phase (run_of name c) in
    if Terminal phase then (c, inl ErrInvalidPhase)
    else
      let c := if so_DryRun opts then update name with_dry c else c in
      if bool_decide (phase = PhasePaused) then (c, inr None)
      else if bool_decide (phase = PhaseFailed) || bool_decide (phase = PhaseCompensating) then (c, inl ErrInvalidPhase)
      else (c, inr (Some (def, c_hooks c)))
  end.

(** The beginning of [Resume]: the phase before the pause, and the options of the
    restart. *)
Definition resume_enter (name : string) (now : Time) (c : Coordinator) : Coordinator * (merr + StartOptions) :=
  match c_runs c !! name with
  | None => (c, inl ErrNotFound)
  | Some run =>
    if negb (bool_decide (r_Phase run = PhasePaused)) then (c, inl ErrInvalidPhase)
    else
      let from := if bool_decide (ck_ResumeFrom (r_Checkpoint run) = "") then PhaseCopying
                  else ck_ResumeFrom (r_Checkpoint run) in
      (update name (fun r => r |> with_phase from |> with_message "resumed" |> with_time now) c,
       inr (mkOptions (r_DryRun run) (r_Total run) (r_Copied run) "" true))
  end.

(** Is the run paused? *)
Definition paused_now (name : string) (_ : Time) (c : Coordinator) : Coordinator * option Progress :=
  (c, if bool_decide (r_Phase (run_of name c) = PhasePaused) then Some (progressOf (run_of name c)) else None).

Definition phase_now (name : string) (_ : Time) (c : Coordinator) : Coordinator * Phase :=
  (c, r_Phase (run_of name c)).

Definition copy_run (name : string) (_ : Time) (c : Coordinator) : Coordinator * Run := (c, run_of name c).

(** The beginning of [advanceTo]. *)
Definition advance_enter (name : string) (opts : StartOptions) (_ : Time) (c : Coordinator)
  : Coordinator * (option Plan * Hooks * bool) :=
  (c, (c_defs c !! name, c_hooks c, r_DryRun (run_of name c) || so_DryRun opts)).

(** A dry run ends before the cutover. *)
Definition skip_cutover (name : string) (now : Time) (c : Coordinator) : Coordinator * unit :=
  (update name (fun r => r |> with_phase PhaseCompleted |> with_message "dry-run: cutover skipped" |> with_time now
     |> with_ck (fun _ => mkCheckpoint name PhaseCompleted "" (r_Copied r) (r_Total r)
          {["dry_run" := "true"; "cutover" := "skipped"]} now)) c, tt).

(** The counters, on entering the copying phase. *)
Definition set_counters (name : string) (opts : StartOptions) (_ : Time) (c : Coordinator) : Coordinator * unit :=
  (update name (fun r =>
     let total := if bool_decide (0 < so_Total opts) then so_Total opts else r_Total r in
     let copied := if bool_decide (0 < so_CopiedSeed opts) && bool_decide (r_Copied r = 0)
                   then so_CopiedSeed opts else r_Copied r in
     with_counts copied total r) c, tt).

(** The end of [advanceTo]: the phase is entered, whatever it is now, and left
    again for a requested pause. *)
Definition enter_phase (name : string) (target : Phase) (opts : StartOptions) (now : Time) (c : Coordinator)
  : Coordinator * option merr :=
  let c := update name (fun r => r |> with_phase target |> with_time now
    |> with_ck (fun _ => mkCheckpoint name target "" (r_Copied r) (r_Total r) ∅ now)) c in
  if negb (bool_decide (so_PauseAfter opts = "")) && bool_decide (target = so_PauseAfter opts) && negb (Terminal target)
  then (update name (fun r => r |> with_ck (ck_set PhasePaused target now) |> with_phase PhasePaused
          |> with_message ("paused after " +:+ target)) c, Some ErrPaused)
  else (c, None).

(** ** Programs *)

(** What a [Start] does outside the coordinator: the phase it found, and its calls
    of hooks with their outcome. *)
Inductive Event := ESeen (cur : Phase) (resumed : bool) | EVerify (i : nat) (ok : bool) | ECutover (ok : bool).

Record World := mkWorld { w_tick : nat; w_coord : Coordinator; w_log : list Event }.

Definition M (A : Type) : Type := World -> World * A.
Definition mret {A} (a : A) : M A := fun w => (w, a).
Definition mbind {A B} (m : M A) (k : A -> M B) : M B := fun w => let '(w, a) := m w in k a w.

Declare Scope mig_scope.
Notation "x <~ m ;; k" := (mbind m (fun x => k)) (at level 100, m at next level, right associativity) : mig_scope.
#[local] Open Scope mig_scope.

Definition emit (e : Event) : M unit := fun w => (mkWorld (w_tick w) (w_coord w) (w_log w ++ [e]), tt).

(** A question to code outside, answered at the present moment. *)
Definition ask {A} (f : nat -> A) : M A := fun w => (mkWorld (S (w_tick w)) (w_coord w) (w_log w), f (w_tick w)).

(** The phases [Start] goes through. *)
Definition phases : list Phase :=
  [PhaseValidated; PhasePreparing; PhaseCopying; PhaseVerifying; PhaseCutover; PhaseCompleted].

Definition start_index (cur : Phase) (inclusive : bool) : nat :=
  if bool_decide (cur = PhasePlanned) then 0
  else match index_of cur phases with
       | Some i => if inclusive then i else S i
       | None => 0
       end.

Definition outcome {A} (r : option A) : bool := match r with None => true | Some _ => false end.

Section Program.
Context (others : nat -> Coordinator -> Coordinator) (clock : nat -> Time) (ctx : nat -> option string).

(** A critical section; other goroutines have acted since the last one. *)
Definition locked {A} (f : Time -> Coordinator -> Coordinator * A) : M A := fun w =>
  let k := w_tick w in
  let '(c, a) := f (clock k) (others k (w_coord w)) in
  (mkWorld (S k) c (w_log w), a).

Definition checkGates (hooks : Hooks) (def : Plan) (mutating : bool) : M (option merr) :=
  blocked <~ match mutating, hk_Lockdown hooks with true, Some f => ask f | _, _ => mret false end;;
  if blocked : bool then mret (Some ErrLockdown)
  else
    owns <~ match hk_Ownership hooks with
            | Some f => if negb (bool_decide (p_Owner def = "")) && negb (ID_IsZero (p_SourceID def))
                        then ask (fun k => f k (p_SourceID def) (p_Owner def)) else mret true
            | None => mret true
            end;;
    if negb owns then mret (Some ErrOwnership)
    else
      err <~ match hk_Fence hooks with
             | Some f => if negb (bool_decide (p_Fence def = 0)) && negb (ID_IsZero (p_SourceID def))
                         then ask (fun k => f k (p_SourceID def) (p_Fence def)) else mret None
             | None => mret None
             end;;
      mret (match err with Some m => Some (ErrFence m) | None => None end).

(** The verification steps from the [i]-th on. *)
Fixpoint verify (name : string) (i : nat) (steps : list (option Hook)) : M (option merr) :=
  match steps with
  | [] => mret None
  | None :: steps => verify name (S i) steps
  | Some step :: steps =>
    run <~ locked (copy_run name);;
    r <~ ask (fun k => step k run);;
    _ <~ emit (EVerify i (outcome r));;
    match r with
    | Some e => mret (Some (ErrVerifyFailed i (he_text e)))
    | None => verify name (S i) steps
    end
  end.

(** The work of a phase, before it is entered. *)
Definition phase_work (name : string) (target : Phase) (opts : StartOptions) (def : Plan) : M (option merr) :=
  if bool_decide (target = PhaseCopying) then _ <~ locked (set_counters name opts);; mret None
  else if bool_decide (target = PhaseVerifying) then verify name 0 (p_VerifySteps def)
  else if bool_decide (target = PhaseCutover) then
    match p_Cutover def with
    | None => mret None
    | Some hook =>
      run <~ locked (copy_run name);;
      r <~ ask (fun k => hook k run);;
      _ <~ emit (ECutover (outcome r));;
      mret (HookErr <$> r)
    end
  else mret None.

Definition mutating (target : Phase) : bool :=
  bool_decide (target = PhasePreparing) || bool_decide (target = PhaseCopying) || bool_decide (target = PhaseCutover).

Definition advanceTo (name : string) (target : Phase) (opts : StartOptions) : M (option merr) :=
  x <~ locked (advance_enter name opts);;
  match x with
  | (None, _, _) => mret (Some ErrNotFound)
  | (Some def, hooks, dry) =>
    e <~ checkGates hooks def (mutating target);;
    match e with
    | Some e => mret (Some e)
    | None =>
      if dry && bool_decide (target = PhaseCutover) then _ <~ locked (skip_cutover name);; mret None
      else
        e <~ phase_work name target opts def;;
        match e with
        | Some e => mret (Some e)
        | None => locked (enter_phase name target opts)
        end
    end
  end.

Definition MResult : Type := Progress * option merr.

(** [_ = c.fail(name, err.Error())] and return. *)
Definition fail_with (name : string) (e : merr) : M MResult :=
  _ <~ locked (fun now => fail now name (merr_text e));; mret (no_progress, Some e).

Fixpoint advance_all (name : string) (opts : StartOptions) (ps : list Phase) : M MResult :=
  match ps with
  | [] => locked (fun _ c => (c, ProgressOf name c))
  | p :: ps =>
    done_ <~ ask ctx;;
    match done_ with
    | Some m => fail_with name (CtxErr m)
    | None =>
      paused <~ locked (paused_now name);;
      match paused with
      | Some prog => mret (prog, Some ErrPaused)
      | None =>
        e <~ advanceTo name p opts;;
        match e with
        | None => advance_all name opts ps
        | Some e =>
          if is_paused e then prog <~ locked (fun _ c => (c, (ProgressOf name c).1));; mret (prog, Some e)
          else fail_with name e
        end
      end
    end
  end.

(** [Start] and [Resume] call each other; [None] when [fuel] is used up. *)
Fixpoint Start (fuel : nat) (name : string) (opts : StartOptions) : M (option MResult) :=
  match fuel with
  | O => mret None
  | S fuel =>
    x <~ locked (start_enter opts name);;
    match x with
    | inl e => mret (Some (no_progress, Some e))
    | inr None =>
      y <~ locked (resume_enter name);;
      match y with
      | inl e => mret (Some (no_progress, Some e))
      | inr opts => Start fuel name opts
      end
    | inr (Some (def, hooks)) =>
      e <~ checkGates hooks def true;;
      match e with
      | Some e => mret (Some (no_progress, Some e))
      | None =>
        cur <~ locked (phase_now name);;
        _ <~ emit (ESeen cur (so_resume opts));;
        r <~ advance_all name opts (drop (start_index cur (so_resume opts)) phases);;
        mret (Some r)
      end
    end
  end.

Definition Resume (fuel : nat) (name : string) : M (option MResult) :=
  y <~ locked (resume_enter name);;
  match y with
  | inl e => mret (Some (no_progress, Some e))
  | inr opts => Start fuel name opts
  end.
End Program.

(** ** What other goroutines may do: any critical section of any method. *)
Inductive section_step (c : Coordinator) : Coordinator -> Prop :=
| do_SetHooks h : section_step c (SetHooks h c)
| do_Define t1 t2 def : section_step c (Define t1 t2 def c).1
| do_ReportCopy t n x y : section_step c (ReportCopy t n x y c).1
| do_Pause t n m : section_step c (Pause t n m c).1
| do_Compensate t n m : section_step c (Compensate t n m c).1
| do_SetPhase t n p : section_step c (SetPhase t n p c).1
| do_fail t n m : section_step c (fail t n m c).1
| do_start t n o : section_step c (start_enter o n t c).1
| do_resume t n : section_step c (resume_enter n t c).1
| do_skip t n : section_step c (skip_cutover n t c).1
| do_counters t n o : section_step c (set_counters n o t c).1
| do_enter t n p o : p ∈ phases -> section_step c (enter_phase n p o t c).1.

(** ** What a migration does, whatever happens meanwhile

    A program logic for [Migration]: [emits d m Q] says what a program of
    critical sections does to the outside world while any other sections of the
    coordinator are interleaved with it.  Then the order of the hook calls, dry
    runs, termination, and the races of the source. *)

#[local] Open Scope mig_scope.

(** ** What no section undoes *)

(** The plan is [def], it has a run, and when [d] the run is marked dry. *)
Definition known (name : string) (def : Plan) (d : bool) (c : Coordinator) : Prop :=
  c_defs c !! name = Some def /\ exists r, c_runs c !! name = Some r /\ (d = true -> r_DryRun r = true).

Lemma known_dry name def d c : known name def d c -> d = true -> r_DryRun (run_of name c) = true.
Proof. intros (_ & r & Hr & Hd). unfold run_of. by rewrite Hr. Qed.

Lemma known_update n f name def d c :
  (forall r, c_runs c !! n = Some r -> r_DryRun r = true -> r_DryRun (f r) = true) ->
  known name def d c -> known name def d (update n f c).
Proof.
  intros Hf (Hd & r & Hr & Hdry). split; [done |]. simpl.
  destruct (decide (n = name)) as [->|Hn]; [rewrite lookup_alter_eq, Hr | by rewrite lookup_alter_ne; eauto].
  exists (f r). split; [done |]. eauto.
Qed.

Lemma known_section name def d c c' : section_step c c' -> known name def d c -> known name def d c'.
Proof.
  intros [h|t1 t2 pl|t n x y|t n m|t n m|t n p|t n m|t n o|t n|t n|t n o|t n p o _] Hk.
  - exact Hk.
  - unfold Define. destruct (_ || _); [done |]. destruct (bool_decide (_ <= _)); [done |].
    case_bool_decide as He; [done |]. destruct Hk as [Hd Hr]. simpl.
    assert (p_Name pl ≠ name) as Hn by (intros <-; by apply He).
    split; simpl; by rewrite lookup_insert_ne.
  - unfold ReportCopy. destruct (c_runs c !! n); [|done]. destruct (_ && _); [done |]. by apply known_update.
  - unfold Pause. destruct (c_runs c !! n) as [r|] eqn:E; [|done]. destruct (_ || _); [done |]. apply known_update; [by intros r' [= <-]%(eq_trans (eq_sym E)) | done].
  - unfold Compensate. destruct (c_runs c !! n) as [r|] eqn:E; [|done]. case_bool_decide; [done |]. apply known_update; [by intros r' [= <-]%(eq_trans (eq_sym E)) | done].
  - unfold SetPhase. destruct (c_runs c !! n); [|done]. destruct (negb _); [done |]. by apply known_update.
  - unfold fail. destruct (c_runs c !! n); [|done]. by apply known_update.
  - unfold start_enter. destruct (c_defs c !! n); [|done]. destruct (Terminal _); [done |].
    destruct (so_DryRun o); (destruct (bool_decide _); [|destruct (_ || _)]); simpl; try exact Hk; by apply known_update.
  - unfold resume_enter. destruct (c_runs c !! n); [|done]. destruct (negb _); [done |]. by apply known_update.
  - by apply known_update.
  - by apply known_update.
  - unfold enter_phase. destruct (_ && _); simpl; by repeat apply known_update.
Qed.

Lemma known_sections name def d c c' : steps section_step c c' -> known name def d c -> known name def d c'.
Proof. intros H. revert H. apply steps_invariant. intros s s' Hk Hs. by eapply known_section. Qed.

(** ** The logic *)

Section Logic.
Context (others : nat -> Coordinator -> Coordinator) (clock : nat -> Time) (ctx : nat -> option string).
Context (others_sections : forall k c, steps section_step c (others k c)).
Context (name : string) (def : Plan).

(** What a program logs and returns, and whether the run is then known to be dry; a
    mark is never taken back. *)
Definition emits {A} (d : bool) (m : M A) (Q : A -> list Event -> bool -> Prop) : Prop :=
  forall w, known name def d (w_coord w) ->
    exists L d', w_log (m w).1 = w_log w ++ L /\ Q (m w).2 L d' /\ (d = true -> d' = true) /\
      known name def d' (w_coord (m w).1).

Lemma emits_ret {A} d (a : A) (Q : A -> list Event -> bool -> Prop) : Q a [] d -> emits d (mret a) Q.
Proof. intros H w Hk. exists [], d. by rewrite app_nil_r. Qed.

Lemma emits_bind {A B} d (m : M A) (k : A -> M B) P Q :
  emits d m P ->
  (forall a L1 d1, (d = true -> d1 = true) -> P a L1 d1 -> emits d1 (k a) (fun b L2 d2 => Q b (L1 ++ L2) d2)) ->
  emits d (x <~ m;; k x) Q.
Proof.
  intros Hm Hk w Hw. destruct (Hm w Hw) as (L1 & d1 & HL1 & HP & Hd1 & Hw1). unfold mbind. destruct (m w) as [w1 a]. simpl in *.
  destruct (Hk a L1 d1 Hd1 HP w1 Hw1) as (L2 & d2 & HL2 & HQ & Hd2 & Hw2). exists (L1 ++ L2), d2.
  split_and!; [by rewrite HL2, HL1, app_assoc | done | by auto | done].
Qed.

Lemma emits_ask {A} d (f : nat -> A) (Q : A -> list Event -> bool -> Prop) : (forall a, Q a [] d) -> emits d (ask f) Q.
Proof. intros H w Hk. exists [], d. simpl. by rewrite app_nil_r. Qed.

Lemma emits_emit d e (Q : unit -> list Event -> bool -> Prop) : Q tt [e] d -> emits d (emit e) Q.
Proof. intros H w Hk. by exists [e], d. Qed.

Lemma emits_locked {A} d (f : Time -> Coordinator -> Coordinator * A) (Q : A -> list Event -> bool -> Prop) :
  (forall t c, known name def d c ->
     exists d', known name def d' (f t c).1 /\ (d = true -> d' = true) /\ Q (f t c).2 [] d') ->
  emits d (locked others clock f) Q.
Proof.
  intros H w Hk. unfold locked.
  pose proof (known_sections _ _ _ _ _ (others_sections (w_tick w) (w_coord w)) Hk) as Hk'.
  destruct (H (clock (w_tick w)) _ Hk') as (d' & H1 & H2 & H3). destruct (f _ _) as [c a]. simpl in *.
  exists [], d'. by rewrite app_nil_r.
Qed.

(** A section that is a step and whose answer does not matter. *)
Lemma emits_section {A} d (f : Time -> Coordinator -> Coordinator * A) (Q : A -> list Event -> bool -> Prop) :
  (forall t c, section_step c (f t c).1) -> (forall a, Q a [] d) -> emits d (locked others clock f) Q.
Proof. intros Hs HQ. apply emits_locked. intros t c Hk. exists d. split; [by eapply known_section | done]. Qed.

(** A section that only looks. *)
Lemma emits_look {A} d (f : Time -> Coordinator -> Coordinator * A) (Q : A -> list Event -> bool -> Prop) :
  (forall t c, (f t c).1 = c) -> (forall a, Q a [] d) -> emits d (locked others clock f) Q.
Proof. intros Hs HQ. apply emits_locked. intros t c Hk. exists d. by rewrite Hs. Qed.

Lemma emits_post {A} d (m : M A) (P Q : A -> list Event -> bool -> Prop) :
  emits d m P -> (forall a L d', (d = true -> d' = true) -> P a L d' -> Q a L d') -> emits d m Q.
Proof. intros H HPQ w Hk. destruct (H w Hk) as (L & d' & H1 & H2 & H3 & H4). exists L, d'. auto. Qed.

(** Nothing is logged. *)
Definition quiet {A} : A -> list Event -> bool -> Prop := fun _ L _ => L = [].

(** ** Scripts *)

(** The same call, failed. *)
Definition spoil (e : Event) : Event :=
  match e with ESeen c r => ESeen c r | EVerify i _ => EVerify i false | ECutover _ => ECutover false end.

(** [L] is a beginning of the script, except that its last call may have failed. *)
Definition follows (L full : list Event) : Prop :=
  exists n, L = take n full \/ exists e, full !! n = Some e /\ L = take n full ++ [spoil e].

Lemma follows_nil full : follows [] full.
Proof. exists 0%nat. by left. Qed.

Lemma follows_all full : follows full full.
Proof. exists (length full). left. by rewrite take_ge. Qed.

Lemma follows_l L l1 l2 : follows L l1 -> follows L (l1 ++ l2).
Proof.
  intros [n [->|(e & He & ->)]].
  - exists (n `min` length l1)%nat. left. rewrite take_app_le by lia.
    destruct (decide (n <= length l1)%nat); [by rewrite Nat.min_l | rewrite Nat.min_r by lia; by rewrite !take_ge by lia].
  - exists n. right. exists e. pose proof (lookup_lt_Some _ _ _ He). split; [by apply lookup_app_l_Some |].
    by rewrite take_app_le by lia.
Qed.

Lemma follows_app L l1 l2 : follows L l2 -> follows (l1 ++ L) (l1 ++ l2).
Proof.
  intros [n [->|(e & He & ->)]]; exists (length l1 + n)%nat; [left | right; exists e]; rewrite take_app_add.
  - done.
  - split; [|by rewrite app_assoc]. rewrite lookup_app_r by lia. by rewrite Nat.add_comm, Nat.add_sub.
Qed.

Fixpoint verify_script (i : nat) (steps : list (option Hook)) : list Event :=
  match steps with
  | [] => []
  | None :: steps => verify_script (S i) steps
  | Some _ :: steps => EVerify i true :: verify_script (S i) steps
  end.

(** The calls of one phase; a dry run does not cut over. *)
Definition phase_script (d : bool) (p : Phase) : list Event :=
  if bool_decide (p = PhaseVerifying) then verify_script 0 (p_VerifySteps def)
  else if bool_decide (p = PhaseCutover) && negb d then
    match p_Cutover def with Some _ => [ECutover true] | None => [] end
  else [].

Definition script (d : bool) (ps : list Phase) : list Event := ps ≫= phase_script d.

Lemma script_cons d p ps : script d (p :: ps) = phase_script d p ++ script d ps.
Proof. done. Qed.

Lemma phase_script_other d d' p : p ≠ PhaseCutover -> phase_script d p = phase_script d' p.
Proof. intros Hp. unfold phase_script. by rewrite (bool_decide_eq_false_2 (p = PhaseCutover)). Qed.

Lemma script_other d d' ps : PhaseCutover ∉ ps -> script d ps = script d' ps.
Proof.
  induction ps as [|p ps IH]; [done |]. rewrite elem_of_cons. intros Hn. rewrite !script_cons.
  rewrite (phase_script_other d d') by (intros ->; apply Hn; by left). f_equal. apply IH. intros ?. apply Hn. by right.
Qed.

(** ** The parts of [Start] *)

Lemma gates_quiet d hooks pl m : emits d (checkGates hooks pl m) quiet.
Proof.
  unfold checkGates. eapply (emits_bind _ _ _ quiet).
  { destruct m, (hk_Lockdown hooks); first [by apply emits_ask | by apply emits_ret]. }
  intros [] L1 d1 _ ->; [by apply emits_ret |]. eapply (emits_bind _ _ _ quiet).
  { destruct (hk_Ownership hooks); [destruct (_ && _) |]; first [by apply emits_ask | by apply emits_ret]. }
  intros [] L1 d2 _ ->; [|by apply emits_ret]. eapply (emits_bind _ _ _ quiet).
  { destruct (hk_Fence hooks); [destruct (_ && _) |]; first [by apply emits_ask | by apply emits_ret]. }
  intros e L1 d3 _ ->. by apply emits_ret.
Qed.

(** A part of the work whose script is [full]. *)
Definition works (full : list Event) (e : option merr) (L : list Event) : Prop :=
  follows L full /\ (e = None -> L = full).

Lemma works_nothing full e : works full (Some e) [].
Proof. split; [apply follows_nil | done]. Qed.

Lemma works_empty e : works [] e [].
Proof. split; [apply follows_nil | done]. Qed.

Lemma verify_works i steps : forall d, emits d (verify others clock name i steps) (fun e L _ => works (verify_script i steps) e L).
Proof.
  revert i. induction steps as [|[step|] steps IH]; intros i d; simpl.
  - apply emits_ret, works_empty.
  - eapply (emits_bind _ _ _ quiet); [by apply emits_look |]. intros run L1 d1 _ ->.
    eapply (emits_bind _ _ _ quiet); [by apply emits_ask |]. intros r L1 d2 _ ->.
    eapply (emits_bind _ _ _ (fun _ L _ => L = [EVerify i (outcome r)])); [by apply emits_emit |]. intros [] L1 d3 _ ->.
    destruct r as [e|]; simpl.
    + apply emits_ret. split; [|done]. exists 0%nat. right. by exists (EVerify i true).
    + eapply emits_post; [apply IH |]. intros e L d4 _ [Hf He]. split; [|intros ->; by rewrite He].
      by apply (follows_app _ [EVerify i true]).
  - apply IH.
Qed.

Lemma phase_work_works d target opts :
  emits d (phase_work others clock name target opts def) (fun e L _ => works (phase_script false target) e L).
Proof.
  unfold phase_work, phase_script. case_bool_decide as Hc.
  { rewrite (bool_decide_eq_false_2 (target = PhaseVerifying)), (bool_decide_eq_false_2 (target = PhaseCutover)) by (by rewrite Hc).
    eapply (emits_bind _ _ _ quiet); [apply emits_section; [intros; constructor | done] |].
    intros [] L1 d1 _ ->. apply emits_ret, works_empty. }
  case_bool_decide as Hv; [apply verify_works |]. case_bool_decide as Hk; cbn [andb negb]; [|apply emits_ret, works_empty].
  destruct (p_Cutover def) as [hook|]; [|apply emits_ret, works_empty].
  eapply (emits_bind _ _ _ quiet); [by apply emits_look |]. intros run L1 d1 _ ->.
  eapply (emits_bind _ _ _ quiet); [by apply emits_ask |]. intros r L1 d2 _ ->.
  eapply (emits_bind _ _ _ (fun _ L _ => L = [ECutover (outcome r)])); [by apply emits_emit |]. intros [] L1 d3 _ ->.
  destruct r as [e|]; simpl; apply emits_ret; (split; [|done]).
  - exists 0%nat. right. by exists (ECutover true).
  - apply follows_all.
Qed.

(** The phases [ps] are worked through by their script: that of a dry run if the run
    was known to be dry, and only if it is marked dry in the end. *)
Definition finishes (d0 : bool) (ps : list Phase) (e : option merr) (L : list Event) (d' : bool) : Prop :=
  exists d, (d0 = true -> d = true) /\ (d = true -> d' = true) /\ works (script d ps) e L.

(** Nothing of the script was done. *)
Lemma finishes_nothing d0 d' ps e : (d0 = true -> d' = true) -> finishes d0 ps (Some e) [] d'.
Proof. intros Hd. exists d0. split; [done |]. split; [done | apply works_nothing]. Qed.

Lemma script_one d p : script d [p] = phase_script d p.
Proof. apply app_nil_r. Qed.

Lemma advanceTo_works d opts p :
  p ∈ phases -> (so_DryRun opts = true -> d = true) -> emits d (advanceTo others clock name p opts) (finishes d [p]).
Proof.
  intros Hp Hopt. unfold advanceTo.
  eapply (emits_bind _ _ _ (fun x L d' => L = [] /\ x.1.1 = Some def /\ (d = true -> x.2 = true) /\ (x.2 = true -> d' = true))).
  { apply emits_locked. intros t c Hk. exists (d || r_DryRun (run_of name c)). simpl.
    assert (known name def (d || r_DryRun (run_of name c)) c) as Hk'.
    { destruct Hk as (Hd & r & Hr & Hdry). split; [done |]. exists r. split; [done |]. unfold run_of. rewrite Hr. simpl.
      destruct d; [by auto | done]. }
    split; [done |]. split; [by intros -> |]. split; [done |]. split; [apply Hk |].
    split; [intros ->; by rewrite (known_dry _ _ _ _ Hk eq_refl) |].
    intros [->|Ho]%orb_true_iff; [by rewrite orb_true_r | by rewrite (Hopt Ho)]. }
  intros [[pl hooks] dry] L1 d1 Hd1 (-> & Hpl & Hdry & Hmark). simpl in Hpl, Hdry, Hmark. subst pl.
  eapply (emits_bind _ _ _ quiet); [apply gates_quiet |]. intros [e|] L1 d2 Hd2 ->.
  { apply emits_ret. exists d. split; [done |]. split; [by auto | apply works_nothing]. }
  destruct (dry && bool_decide (p = PhaseCutover)) eqn:Eskip.
  - apply andb_true_iff in Eskip as [-> Hc%bool_decide_eq_true].
    eapply (emits_bind _ _ _ quiet); [apply emits_section; [intros; constructor | done] |].
    intros [] L1 d3 Hd3 ->. apply emits_ret. exists true. split; [done |]. split; [by auto |]. subst p. rewrite script_one. apply works_empty.
  - assert (phase_script dry p = phase_script false p) as Hs.
    { destruct dry; [|reflexivity]. apply phase_script_other. by apply bool_decide_eq_false in Eskip. }
    eapply emits_bind; [apply phase_work_works |]. intros [e|] L1 d3 Hd3 [Hf HL].
    + apply emits_ret. exists dry. split; [exact Hdry |]. split; [by auto |]. rewrite app_nil_r, script_one, Hs. by split.
    + apply emits_section; [intros; by apply do_enter |]. intros a. exists dry. split; [done |]. split; [by auto |].
      rewrite app_nil_r, script_one, Hs. split; [done |]. intros _. by apply HL.
Qed.

Lemma fail_with_quiet d e : emits d (fail_with others clock name e) (fun r L _ => L = [] /\ r.2 = Some e).
Proof.
  unfold fail_with. eapply (emits_bind _ _ _ quiet); [apply emits_section; [intros; apply do_fail | done] |].
  intros a L1 d1 _ ->. by apply emits_ret.
Qed.

Lemma finishes_stop d0 d1 d2 p ps e L :
  (d1 = true -> d2 = true) -> finishes d0 [p] (Some e) L d1 -> finishes d0 (p :: ps) (Some e) L d2.
Proof.
  intros H12 (d & Hd & Hd1 & Hf & _). exists d. split; [done |]. split; [by auto |]. split; [|done].
  rewrite script_one in Hf. rewrite script_cons. by apply follows_l.
Qed.

Lemma finishes_next d0 d1 d2 p ps e L1 L2 :
  NoDup (p :: ps) -> finishes d0 [p] None L1 d1 -> finishes d1 ps e L2 d2 -> finishes d0 (p :: ps) e (L1 ++ L2) d2.
Proof.
  intros [Hp Hnd]%NoDup_cons (da & Ha1 & Ha2 & _ & H1) (db & Hb1 & Hb2 & Hf & H2).
  rewrite script_one in H1. rewrite (H1 eq_refl).
  assert (exists d, (d0 = true -> d = true) /\ (d = true -> d2 = true) /\
    phase_script d p = phase_script da p /\ script d ps = script db ps) as (d & Hd & Hd2 & E1 & E2).
  { destruct (decide (p = PhaseCutover)) as [->|Hn].
    - exists da. split_and!; [done | by auto | done | by apply script_other].
    - exists db. split_and!; [by auto | by auto | by apply phase_script_other | done]. }
  exists d. split; [done |]. split; [done |]. rewrite script_cons, E1, E2. split; [by apply follows_app |]. intros Hr. by rewrite H2.
Qed.

Lemma advance_all_works opts ps : forall d,
  NoDup ps -> ps ⊆ phases -> (so_DryRun opts = true -> d = true) ->
  emits d (advance_all others clock ctx name opts ps) (fun r => finishes d ps r.2).
Proof.
  induction ps as [|p ps IH]; intros d Hnd Hps Hopt; simpl.
  { apply emits_look; [done |]. intros r. exists d. split; [done |]. split; [done | apply works_empty]. }
  eapply (emits_bind _ _ _ quiet); [by apply emits_ask |]. intros [m|] L1 d1 Hd1 ->.
  { eapply emits_post; [apply fail_with_quiet |]. intros [pr e] L d' Hd' [-> He]. simpl in *. subst e. apply finishes_nothing. auto. }
  eapply (emits_bind _ _ _ quiet); [by apply emits_look |]. intros [pr|] L1 d2 Hd2 ->.
  { apply emits_ret, finishes_nothing. auto. }
  eapply emits_bind; [apply advanceTo_works; [apply Hps; by left | by auto] |]. intros e L1 d3 Hd3 Ha.
  assert (finishes d [p] e L1 d3) as Ha' by (destruct Ha as (dd & H1 & H2 & H3); exists dd; split_and!; auto).
  destruct e as [e|].
  - destruct (is_paused e).
    + eapply (emits_bind _ _ _ quiet); [by apply emits_look |]. intros pr L2 d4 Hd4 ->.
      apply emits_ret. rewrite !app_nil_r. by eapply finishes_stop.
    + eapply emits_post; [apply fail_with_quiet |]. intros [pr e'] L d4 Hd4 [-> He]. simpl in *. subst e'.
      rewrite app_nil_r. by eapply finishes_stop.
  - eapply emits_post; [apply IH; [by apply NoDup_cons in Hnd as [_ ?] | intros x Hx; apply Hps; by right | by auto] |].
    intros r L d4 Hd4 Hf. exact (finishes_next _ _ _ _ _ _ _ _ Hnd Ha' Hf).
Qed.

(** [L] is what a [Start] did: nothing before it was refused, or the work of the phases
    after the one it found.  [dry]: a dry run was asked for; [marked]: the run is marked
    dry in the end. *)
Definition start_log (dry marked : bool) (r : option MResult) (L : list Event) : Prop :=
  (L = [] /\ forall p, r ≠ Some (p, None)) \/
  exists cur resumed d L', L = ESeen cur resumed :: L' /\ (dry = true -> d = true) /\ (d = true -> marked = true) /\
    follows L' (script d (drop (start_index cur resumed) phases)) /\
    (forall p, r = Some (p, None) -> L' = script d (drop (start_index cur resumed) phases)).

Lemma phases_suffix n : NoDup (drop n phases) /\ drop n phases ⊆ phases.
Proof.
  split; [|apply subseteq_drop]. apply (NoDup_app (take n phases)). rewrite take_drop.
  apply (bool_decide_unpack _). by vm_compute.
Qed.

Lemma start_log_refused dry marked p e : start_log dry marked (Some (p, Some e)) [].
Proof. left. split; [done |]. by intros q [=]. Qed.

(** [start_enter] marks a dry run before it goes on. *)
Lemma start_enter_marks d opts t c :
  known name def d c ->
  (exists e, (start_enter opts name t c).2 = inl e) \/ known name def (d || so_DryRun opts) (start_enter opts name t c).1.
Proof.
  intros Hk. pose proof (known_section _ _ _ _ _ (do_start c t name opts) Hk) as Hk'. revert Hk'. unfold start_enter.
  destruct (c_defs c !! name) as [pl|]; [|by eauto]. destruct (Terminal _) eqn:Et; [by eauto |].
  destruct (so_DryRun opts) eqn:Ed; [|rewrite orb_false_r; by auto].
  rewrite orb_true_r. assert (known name def true (update name with_dry c)) as Hdry.
  { destruct Hk as (Hd & r & Hr & _). split; [done |]. exists (with_dry r).
    simpl. by rewrite lookup_alter_eq, Hr. }
  intros _. destruct (bool_decide _); [by right |]. destruct (_ || _); [left; by eexists | by right].
Qed.

(** The beginning of [Start]: refused, or the run is marked if asked for. *)
Lemma start_enter_emits d opts :
  emits d (locked others clock (start_enter opts name))
    (fun x L d' => L = [] /\ ((exists e, x = inl e) \/ (so_DryRun opts = true -> d' = true))).
Proof.
  apply emits_locked. intros t c Hk. destruct (start_enter_marks d opts t c Hk) as [He|Hm].
  - exists d. split; [by eapply known_section, Hk; constructor |]. split; [done |]. split; [done |]. by left.
  - exists (d || so_DryRun opts). split; [done |]. split; [by intros -> |]. split; [done |]. right. intros ->. by rewrite orb_true_r.
Qed.

(** The beginning of [Resume] passes the mark on. *)
Lemma resume_enter_emits d :
  emits d (locked others clock (resume_enter name))
    (fun x L d' => L = [] /\ forall opts, x = inr opts -> d = true -> so_DryRun opts = true).
Proof.
  apply emits_locked. intros t c Hk. exists d. split; [by apply (known_section _ _ _ _ _ (do_resume c t name) Hk) |].
  split; [done |]. split; [done |]. intros opts Er ->. destruct Hk as (_ & r & Hr & Hdry). revert Er. unfold resume_enter. rewrite Hr.
  destruct (negb _); simpl; [done |]. intros [= <-]. simpl. by apply Hdry.
Qed.

Lemma start_works fuel : forall d opts,
  emits d (Start others clock ctx fuel name opts) (fun r L d' => start_log (d || so_DryRun opts) d' r L).
Proof.
  induction fuel as [|fuel IH]; intros d opts; simpl.
  { apply emits_ret. left. split; [done |]. by intros p. }
  eapply emits_bind; [apply start_enter_emits |]. intros x L1 d1 Hd1 [-> Hx].
  destruct x as [e|[[pl hooks]|]]; [apply emits_ret, start_log_refused | |].
  all: destruct Hx as [[e He]|Hx]; [done |].
  - eapply (emits_bind _ _ _ quiet); [apply gates_quiet |]. intros [e|] L1 d2 Hd2 ->; [apply emits_ret, start_log_refused |].
    eapply (emits_bind _ _ _ quiet); [by apply emits_look |]. intros cur L1 d3 Hd3 ->.
    eapply (emits_bind _ _ _ (fun _ L _ => L = [ESeen cur (so_resume opts)])); [by apply emits_emit |]. intros [] L1 d4 Hd4 ->.
    destruct (phases_suffix (start_index cur (so_resume opts))) as [Hnd Hsub].
    eapply emits_bind; [apply advance_all_works; [done | done | by auto] |]. intros [pr e] L1 d5 Hd5 (dd & H1 & H2 & Hf & HL).
    apply emits_ret. right. exists cur, (so_resume opts), dd, L1. rewrite app_nil_r. split; [done |].
    split; [intros [Hd|Ho]%orb_true_iff; auto 10 |]. split; [done |]. split; [done |]. intros p [= <- ->]. by apply HL.
  - eapply emits_bind; [apply resume_enter_emits |]. intros [e|opts'] L1 d2 Hd2 [-> Hopts]; [apply emits_ret, start_log_refused |].
    eapply emits_post; [apply IH |]. intros r L d3 Hd3 [H|(cur & res & dd & L' & H1 & H2 & H3)]; [by left |].
    right. exists cur, res, dd, L'. split; [done |]. split; [|done]. intros Hor. apply H2, orb_true_iff.
    apply orb_true_iff in Hor as [Hor|Hor]; left; auto.
Qed.
End Logic.


(** ** A run of the program *)

Definition demo_hook : Hook := fun _ _ => None.
Definition demo_plan : Plan :=
  mkPlan "users" "old" "new" "" 0 id_zero id_zero [Some demo_hook; None; Some demo_hook] (Some demo_hook) 0.
Definition demo_world : World := mkWorld 0 (Define 1 1 demo_plan NewCoordinator).1 [].
Definition plain_options : StartOptions := mkOptions false 10 0 "" false.
Definition alone : nat -> Coordinator -> Coordinator := fun _ c => c.
Definition demo_start (others : nat -> Coordinator -> Coordinator) (opts : StartOptions) : World * option MResult :=
  Start others Z.of_nat (fun _ => None) 2 "users" opts demo_world.

Lemma demo_known : known "users" demo_plan false (w_coord demo_world).
Proof. split; [reflexivity |]. eexists. split; [reflexivity | done]. Qed.

Lemma demo_log : w_log (demo_start alone plain_options).1 =
  [ESeen PhasePlanned false; EVerify 0 true; EVerify 2 true; ECutover true].
Proof. vm_compute. reflexivity. Qed.


(** ** Termination *)

(** No checkpoint resumes into the pause. *)
Definition resumable (c : Coordinator) : Prop :=
  forall n r, c_runs c !! n = Some r -> ck_ResumeFrom (r_Checkpoint r) ≠ PhasePaused.

Lemma resumable_update n f c :
  (forall r, c_runs c !! n = Some r -> ck_ResumeFrom (r_Checkpoint r) ≠ PhasePaused ->
    ck_ResumeFrom (r_Checkpoint (f r)) ≠ PhasePaused) -> resumable c -> resumable (update n f c).
Proof.
  intros Hf Hc m r. simpl. destruct (decide (n = m)) as [->|Hn]; [|rewrite lookup_alter_ne by done; apply Hc].
  rewrite lookup_alter_eq. intros (r0 & Hr & ->)%fmap_Some. eauto.
Qed.

Lemma resumable_section c c' : section_step c c' -> resumable c -> resumable c'.
Proof.
  intros [h|t1 t2 pl|t n x y|t n m|t n m|t n p|t n m|t n o|t n|t n|t n o|t n p o Hp] Hc.
  - exact Hc.
  - unfold Define. destruct (_ || _); [done |]. destruct (bool_decide (_ <= _)); [done |].
    case_bool_decide; [done |]. intros n r. simpl. rewrite lookup_insert_Some. intros [[_ <-]|[_ Hr]]; [done | by eapply Hc].
  - unfold ReportCopy. destruct (c_runs c !! n); [|done]. destruct (_ && _); [done |]. by apply resumable_update.
  - unfold Pause. destruct (c_runs c !! n) as [r|] eqn:E; [|done].
    destruct (_ || _) eqn:Ep; [done |]. apply orb_false_iff in Ep as [_ Ep%bool_decide_eq_false]. by apply resumable_update.
  - unfold Compensate. destruct (c_runs c !! n) as [r|] eqn:E; [|done]. case_bool_decide; [done |].
    apply resumable_update; [by intros r' [= <-]%(eq_trans (eq_sym E)) | done].
  - unfold SetPhase. destruct (c_runs c !! n); [|done]. destruct (negb _); [done |]. by apply resumable_update.
  - unfold fail. destruct (c_runs c !! n); [|done]. by apply resumable_update.
  - unfold start_enter. destruct (c_defs c !! n); [|done]. destruct (Terminal _); [done |].
    destruct (so_DryRun o); (destruct (bool_decide _); [|destruct (_ || _)]); simpl; try exact Hc; by apply resumable_update.
  - unfold resume_enter. destruct (c_runs c !! n); [|done]. destruct (negb _); [done |]. by apply resumable_update.
  - by apply resumable_update.
  - by apply resumable_update.
  - unfold enter_phase. assert (p ≠ PhasePaused) as Hn by (intros ->; revert Hp; by apply (bool_decide_eq_false_1 (PhasePaused ∈ phases))).
    destruct (_ && _); simpl; repeat (apply resumable_update; [done |]); done.
Qed.

Lemma bind_returns {A} (m : M A) (f : A -> MResult) w : (mbind m (fun r => mret (Some (f r))) w).2 ≠ None.
Proof. unfold mbind, mret. by destruct (m w). Qed.

(** Without interference [Start] and [Resume] call each other at most once: a
    resumed run is not paused. *)
Lemma start_returns clock ctx name opts c w :
  resumable c -> w_coord w = c -> (Start alone clock ctx 2 name opts w).2 ≠ None.
Proof.
  intros Hc Hw.
  assert (forall fuel opts w, r_Phase (run_of name (w_coord w)) ≠ PhasePaused ->
    (Start alone clock ctx (S fuel) name opts w).2 ≠ None) as Hgo.
  { clear. intros fuel opts w Hp. cbn [Start]. unfold mbind at 1, locked at 1, alone at 1.
    destruct (start_enter opts name _ (w_coord w)) as [c1 [e|[[pl hooks]|]]] eqn:E; [done | |].
    - unfold mbind at 1. destruct (checkGates _ _ _ _) as [w1 [e|]]; [done |]. unfold mbind at 1.
      destruct (locked _ _ _ _) as [w2 cur]. unfold mbind at 1. simpl. unfold mbind.
      by destruct (advance_all _ _ _ _ _ _ _).
    - exfalso. revert E. unfold start_enter. destruct (c_defs _ !! name); [|done]. destruct (Terminal _); [done |].
      rewrite (bool_decide_eq_false_2 _ Hp). destruct (_ || _); done. }
  destruct (decide (r_Phase (run_of name (w_coord w)) = PhasePaused)) as [Hp|Hp]; [|by apply Hgo].
  cbn [Start]. unfold mbind at 1, locked at 1, alone at 1.
  destruct (start_enter opts name _ (w_coord w)) as [c1 [e|[[pl hooks]|]]] eqn:E; [done | |].
  - exfalso. revert E. unfold start_enter. destruct (c_defs _ !! name); [|done]. destruct (Terminal _); [done |].
    by rewrite (bool_decide_eq_true_2 _ Hp).
  - assert (resumable c1) as Hc1.
    { subst c. apply (resumable_section _ _ (do_start (w_coord w) (clock (w_tick w)) name opts)) in Hc. by rewrite E in Hc. }
    unfold mbind at 1, locked at 1, alone at 1. simpl w_coord.
    destruct (resume_enter name _ c1) as [c2 [e|opts']] eqn:Er; [done |].
    apply (Hgo 0%nat opts' (mkWorld _ c2 _)). simpl.
    revert Er. unfold resume_enter. destruct (c_runs c1 !! name) as [r|] eqn:Ec; [|done]. destruct (negb _); [done |].
    intros [= <- _]. unfold run_of. simpl. rewrite lookup_alter_eq, Ec. simpl.
    case_bool_decide; [done | by apply (Hc1 _ _ Ec)].
Qed.

(** ** Races and gaps of the source *)

(** A run that is compensated while [Start] is busy is not stopped: [Start] only
    looks for a pause, and the end of [advanceTo] overwrites the phase.  Compensated
    before the copy is verified, this run is verified, cut over and completed. *)
Definition compensate_at (k : nat) : nat -> Coordinator -> Coordinator :=
  fun i c => if bool_decide (i = k) then (Compensate 0 "users" "operator" c).1 else c.

Lemma compensated_run_cuts_over :
  let w := (demo_start (compensate_at 13) plain_options).1 in
  (r_Phase (run_of "users" (w_coord w)), r_Message (run_of "users" (w_coord w))) = (PhaseCompleted, "operator") /\
  w_log w = [ESeen PhasePlanned false; EVerify 0 true; EVerify 2 true; ECutover true].
Proof. vm_compute. split; reflexivity. Qed.

(** [SetPhase] lets a paused run become anything, also completed without
    verification or cutover. *)
Lemma paused_becomes_anything p : allowedTransition PhasePaused p = true.
Proof.
  unfold allowedTransition. case_bool_decide; [done |]. destruct (_ || _); [done |]. by destruct (index_of p order).
Qed.

(** The note that a dry run leaves in its checkpoint is lost: the completed phase
    is entered after the skipped cutover and writes a new checkpoint. *)
Lemma dry_note_lost :
  ck_Attrs (r_Checkpoint (run_of "users" (w_coord (demo_start alone (mkOptions true 10 0 "" false)).1))) = ∅.
Proof. vm_compute. reflexivity. Qed.
