(* ===== verification/SyncEngine.v ===== *)
(** * Synchronisation ([sync/sync.go])

    One pass of the engine over a source and a target, which are interfaces; the
    in-process store of the source is an instance of both.  [err] is the type of
    the errors of a source or target. *)

From S2P Require Import Prelude.

(** ** Data *)

Inductive ConflictPolicy := PreferSource | PreferTarget | PreferLatest | Manual | Reject.

Record Record_ := mkRecord { Key : string; Value : string; UpdatedAt : Time; Version : Z }.

Record Cursor := mkCursor { Position : string; Updated : Time }.

Definition cursor_zero : Cursor := mkCursor "" time_zero.

Inductive sync_err := ErrInvalidArg | ErrConflict | ErrBoundExceeded | CtxErr (msg : string).

Record Engine := mkEngine {
  e_policy : ConflictPolicy; e_cursor : Cursor; e_applied : Z; e_rejected : Z; e_manual : list string; e_maxManual : Z }.

Record Result := mkResult {
  rs_Applied : Z; rs_Skipped : Z; rs_Rejected : Z; rs_Manual : list string; rs_Cursor : Cursor; rs_Conflicts : Z }.

Definition result_zero : Result := mkResult 0 0 0 [] cursor_zero 0.

(** [New]: the policy as its text; the empty one is [PreferSource]. *)
Definition parse_policy (s : string) : option ConflictPolicy :=
  if bool_decide (s = "") then Some PreferSource
  else if bool_decide (s = "prefer-source") then Some PreferSource
  else if bool_decide (s = "prefer-target") then Some PreferTarget
  else if bool_decide (s = "prefer-latest") then Some PreferLatest
  else if bool_decide (s = "manual") then Some Manual
  else if bool_decide (s = "reject") then Some Reject
  else None.

Definition New (policy : string) (maxManual : Z) : sync_err + Engine :=
  match parse_policy policy with
  | None => inl ErrInvalidArg
  | Some p => inr (mkEngine p cursor_zero 0 0 [] (if bool_decide (maxManual <= 0) then 256 else maxManual))
  end.

Definition same (a b : Record_) : bool :=
  bool_decide (Key a = Key b) && bool_decide (Value a = Value b) && bool_decide (Version a = Version b).

(** ** Interfaces *)

(** [Source] and [Target] with their states. *)
Class Source (S : Type) := { Next : Cursor -> Z -> S -> S * (sync_err + list Record_ * Cursor) }.

Class Target (T : Type) := {
  Get : string -> T -> T * (sync_err + option Record_);
  Put : Record_ -> T -> T * option sync_err }.

(** ** The engine *)

Definition queueManual (key : string) (e : Engine) : Engine * option sync_err :=
  if bool_decide (key ∈ e_manual e) then (e, None)
  else if bool_decide (e_maxManual e <= Z.of_nat (length (e_manual e))) then (e, Some ErrBoundExceeded)
  else (mkEngine (e_policy e) (e_cursor e) (e_applied e) (e_rejected e) (e_manual e ++ [key]) (e_maxManual e), None).

(** [PreferLatest]. *)
Definition useSource (rec existing : Record_) : bool :=
  After (UpdatedAt rec) (UpdatedAt existing) ||
  bool_decide (UpdatedAt rec = UpdatedAt existing) && bool_decide (Version existing < Version rec).

Definition inc_applied (r : Result) : Result :=
  mkResult (i64 (rs_Applied r + 1)) (rs_Skipped r) (rs_Rejected r) (rs_Manual r) (rs_Cursor r) (rs_Conflicts r).
Definition inc_skipped (r : Result) : Result :=
  mkResult (rs_Applied r) (i64 (rs_Skipped r + 1)) (rs_Rejected r) (rs_Manual r) (rs_Cursor r) (rs_Conflicts r).
Definition inc_rejected (r : Result) : Result :=
  mkResult (rs_Applied r) (rs_Skipped r) (i64 (rs_Rejected r + 1)) (rs_Manual r) (rs_Cursor r) (rs_Conflicts r).
Definition inc_conflicts (r : Result) : Result :=
  mkResult (rs_Applied r) (rs_Skipped r) (rs_Rejected r) (rs_Manual r) (rs_Cursor r) (i64 (rs_Conflicts r + 1)).
Definition add_manual (k : string) (r : Result) : Result :=
  mkResult (rs_Applied r) (rs_Skipped r) (rs_Rejected r) (rs_Manual r ++ [k]) (rs_Cursor r) (rs_Conflicts r).

Section Engine.
Context {S T : Type} `{!Source S} `{!Target T}.

Abbreviation St := (T * Engine * Result)%type.

(** [dst.Put] and [res.Applied++]. *)
Definition apply (rec : Record_) (dst : T) (e : Engine) (res : Result) : St * option sync_err :=
  match Put rec dst with
  | (dst, Some err) => (dst, e, res, Some err)
  | (dst, None) => (dst, e, inc_applied res, None)
  end.

(** One record. *)
Definition sync_one (ctx : option string) (policy : ConflictPolicy) (rec : Record_) (dst : T) (e : Engine) (res : Result)
  : St * option sync_err :=
  match ctx with
  | Some m => (dst, e, res, Some (CtxErr m))
  | None =>
    match Get (Key rec) dst with
    | (dst, inl err) => (dst, e, res, Some err)
    | (dst, inr None) => apply rec dst e res
    | (dst, inr (Some existing)) =>
      if same existing rec then (dst, e, inc_skipped res, None)
      else
        let res := inc_conflicts res in
        match policy with
        | PreferSource => apply rec dst e res
        | PreferTarget => (dst, e, inc_skipped res, None)
        | PreferLatest => if useSource rec existing then apply rec dst e res else (dst, e, inc_skipped res, None)
        | Manual =>
          match queueManual (Key rec) e with
          | (e, Some err) => (dst, e, res, Some err)
          | (e, None) => (dst, e, add_manual (Key rec) res, None)
          end
        | Reject =>
          (dst, mkEngine (e_policy e) (e_cursor e) (e_applied e) (i64 (e_rejected e + 1)) (e_manual e) (e_maxManual e),
           inc_rejected res, Some ErrConflict)
        end
    end
  end.

(** The loop; [ctx] is asked before each record. *)
Fixpoint sync_all (ctx : nat -> option string) (policy : ConflictPolicy) (i : nat) (recs : list Record_)
  (dst : T) (e : Engine) (res : Result) : St * option sync_err :=
  match recs with
  | [] => (dst, e, res, None)
  | rec :: recs =>
    match sync_one (ctx i) policy rec dst e res with
    | (dst, e, res, Some err) => (dst, e, res, Some err)
    | (dst, e, res, None) => sync_all ctx policy (1 + i)%nat recs dst e res
    end
  end.

Definition Sync (ctx : nat -> option string) (limit : Z) (src : S) (dst : T) (e : Engine)
  : S * T * Engine * (Result * option sync_err) :=
  let limit := if bool_decide (limit <= 0) then 100 else limit in
  match Next (e_cursor e) limit src with
  | (src, inl err) => (src, dst, e, (result_zero, Some err))
  | (src, inr (recs, next)) =>
    match sync_all ctx (e_policy e) 0 recs dst e result_zero with
    | (dst, e, res, Some err) => (src, dst, e, (res, Some err))
    | (dst, e, res, None) =>
      let e := mkEngine (e_policy e) next (i64 (e_applied e + rs_Applied res)) (e_rejected e) (e_manual e) (e_maxManual e) in
      let manual := match e_manual e with [] => rs_Manual res | m => m end in
      (src, dst, e, (mkResult (rs_Applied res) (rs_Skipped res) (rs_Rejected res) manual next (rs_Conflicts res), None))
    end
  end.

(** Passes with the same limit, up to the first error. *)
Fixpoint passes (ctx : nat -> option string) (k : nat) (limit : Z) (src : S) (dst : T) (e : Engine)
  : S * T * Engine * option sync_err :=
  match k with
  | O => (src, dst, e, None)
  | Datatypes.S k =>
    match Sync ctx limit src dst e with
    | (src, dst, e, (_, Some err)) => (src, dst, e, Some err)
    | (src, dst, e, (_, None)) => passes ctx k limit src dst e
    end
  end.
End Engine.

(** ** The memory store *)

Definition DefaultMaxKeys : Z := 4096.

(** [st_now] is what [time.Now] answers. *)
Record MemoryStore := mkStore { st_data : gmap string Record_; st_order : list string; st_max : Z; st_now : Time }.

Definition NewMemoryStore (max : Z) (now : Time) : MemoryStore :=
  mkStore ∅ [] (if bool_decide (max <= 0) then DefaultMaxKeys else max) now.

Definition stamped (now : Time) (r : Record_) : Record_ :=
  if IsZero (UpdatedAt r) then mkRecord (Key r) (Value r) now (Version r) else r.

Definition MemoryStore_Put (rec : Record_) (m : MemoryStore) : MemoryStore * option sync_err :=
  if bool_decide (Key rec = "") then (m, Some ErrInvalidArg)
  else
    match st_data m !! Key rec with
    | Some _ => (mkStore (<[Key rec := stamped (st_now m) rec]> (st_data m)) (st_order m) (st_max m) (st_now m), None)
    | None =>
      if bool_decide (st_max m <= Z.of_nat (size (st_data m))) then (m, Some ErrBoundExceeded)
      else (mkStore (<[Key rec := stamped (st_now m) rec]> (st_data m)) (st_order m ++ [Key rec]) (st_max m) (st_now m), None)
    end.

Definition MemoryStore_Get (key : string) (m : MemoryStore) : MemoryStore * (sync_err + option Record_) :=
  (m, inr (st_data m !! key)).

(** The first index after the cursor's position. *)
Definition start_after (pos : string) (order : list string) : nat :=
  if bool_decide (pos = "") then 0
  else match list_find (fun k => k = pos) order with Some (i, _) => 1 + i | None => 0 end.

Definition record_zero : Record_ := mkRecord "" "" time_zero 0.

Definition MemoryStore_Next (cur : Cursor) (limit : Z) (m : MemoryStore) : MemoryStore * (sync_err + list Record_ * Cursor) :=
  let limit := if bool_decide (limit <= 0) then 100 else limit in
  let keys := take (Z.to_nat limit) (drop (start_after (Position cur) (st_order m)) (st_order m)) in
  (m, inr ((fun k => default record_zero (st_data m !! k)) <$> keys,
           mkCursor (default (Position cur) (last keys)) (st_now m))).

Definition Len (m : MemoryStore) : Z := Z.of_nat (size (st_data m)).

#[global] Instance memory_source : Source MemoryStore := {| Next := MemoryStore_Next |}.
#[global] Instance memory_target : Target MemoryStore := {| Get := MemoryStore_Get; Put := MemoryStore_Put |}.

(** ** Stores *)

Record store_wf (m : MemoryStore) : Prop := mkStoreWf {
  sw_nodup : NoDup (st_order m);
  sw_order k : k ∈ st_order m <-> is_Some (st_data m !! k);
  sw_key k r : st_data m !! k = Some r -> Key r = k /\ k ≠ "" }.

Lemma stamped_Key now r : Key (stamped now r) = Key r.
Proof. unfold stamped. by destruct (IsZero _). Qed.

(** The same key, value and version. *)
Definition copy_of (r rec : Record_) : Prop := Key r = Key rec /\ Value r = Value rec /\ Version r = Version rec.

Lemma same_copy r rec : same r rec = true <-> copy_of r rec.
Proof. unfold same, copy_of. rewrite !andb_true_iff, !bool_decide_eq_true. tauto. Qed.

Lemma stamped_copy now r : copy_of (stamped now r) r.
Proof. unfold stamped. by destruct (IsZero _). Qed.

Lemma NewMemoryStore_wf max now : store_wf (NewMemoryStore max now).
Proof. split; [constructor | | done]. intros k. simpl. rewrite lookup_empty, elem_of_nil. split; [done | by intros []]. Qed.

Lemma put_wf rec m : store_wf m -> store_wf (MemoryStore_Put rec m).1.
Proof.
  intros [Hnd Ho Hk]. unfold MemoryStore_Put. case_bool_decide as He; [done |].
  assert (forall k r, <[Key rec := stamped (st_now m) rec]> (st_data m) !! k = Some r -> Key r = k /\ k ≠ "") as Hk'.
  { intros k r. rewrite lookup_insert_Some. intros [[<- <-]|[_ H]]; [by rewrite stamped_Key | by apply Hk]. }
  destruct (st_data m !! Key rec) eqn:E.
  - split; simpl; [done | | done]. intros k. rewrite Ho, lookup_insert_is_Some'. split; [by right |].
    intros [<-|H]; [by rewrite E | done].
  - case_bool_decide; [done |]. split; simpl; [|intros k | done].
    + apply NoDup_app. split; [done |]. split; [|apply NoDup_singleton]. intros x Hx ->%list_elem_of_singleton.
      apply Ho in Hx. rewrite E in Hx. by destruct Hx.
    + rewrite elem_of_app, list_elem_of_singleton, Ho, lookup_insert_is_Some'. naive_solver.
Qed.

(** A put of a key that is there, or for which there is room. *)
Lemma put_ok rec m :
  Key rec ≠ "" -> is_Some (st_data m !! Key rec) \/ Z.of_nat (size (st_data m)) < st_max m ->
  exists m', MemoryStore_Put rec m = (m', None) /\ st_max m' = st_max m /\
    st_data m' = <[Key rec := stamped (st_now m) rec]> (st_data m).
Proof.
  intros He Hr. unfold MemoryStore_Put. rewrite bool_decide_eq_false_2 by done.
  destruct (st_data m !! Key rec); [by eexists |]. destruct Hr as [[? ?]|Hr]; [done |].
  rewrite bool_decide_eq_false_2 by lia. by eexists.
Qed.

(** ** Convergence *)

Definition agrees (m : MemoryStore) (rec : Record_) : Prop :=
  exists r, st_data m !! Key rec = Some r /\ copy_of r rec.

Definition never : nat -> option string := fun _ => None.

(** The target's keys stay in [U], for which it has room. *)
Definition roomy (U : gset string) (m : MemoryStore) : Prop :=
  store_wf m /\ dom (st_data m) ⊆ U /\ Z.of_nat (size U) <= st_max m.

Lemma apply_source U rec m e res :
  roomy U m -> Key rec ≠ "" -> Key rec ∈ U ->
  exists m', apply rec m e res = (m', e, inc_applied res, None) /\ roomy U m' /\ agrees m' rec /\
    forall k, k ≠ Key rec -> st_data m' !! k = st_data m !! k.
Proof.
  intros (Hw & Hd & Hs) He HU.
  destruct (put_ok rec m He) as (m' & Hp & Hm & Hdata).
  { destruct (st_data m !! Key rec) eqn:E; [by left; eexists |]. right.
    assert (size (dom (st_data m)) < size U)%nat; [|rewrite <- size_dom; lia].
    apply subset_size. split; [done |]. intros H. apply H, elem_of_dom in HU. rewrite E in HU. by destruct HU. }
  exists m'. unfold apply. simpl. rewrite Hp. split; [done |].
  split; [|split; [|intros k Hk; rewrite Hdata; by apply lookup_insert_ne]].
  - split; [replace m' with (MemoryStore_Put rec m).1 by (by rewrite Hp); by apply put_wf |].
    rewrite Hdata, dom_insert, Hm. set_solver.
  - exists (stamped (st_now m) rec). rewrite Hdata, lookup_insert_eq. split; [done | apply stamped_copy].
Qed.

Lemma sync_all_source U recs i m e res :
  roomy U m -> NoDup (Key <$> recs) -> (forall rec, rec ∈ recs -> Key rec ≠ "" /\ Key rec ∈ U) ->
  exists m' res', sync_all never PreferSource i recs m e res = (m', e, res', None) /\ roomy U m' /\
    (forall rec, rec ∈ recs -> agrees m' rec) /\
    (forall k, k ∉ Key <$> recs -> st_data m' !! k = st_data m !! k).
Proof.
  revert i m res. induction recs as [|rec recs IH]; intros i m res Hr Hnd Hk.
  { exists m, res. split; [done |]. split; [done |]. split; [by intros r ?%elem_of_nil | done]. }
  apply NoDup_cons in Hnd as [Hn Hnd]. destruct (Hk rec) as [Hne HU]; [by left |].
  assert (exists m1 res1, sync_one None PreferSource rec m e res = (m1, e, res1, None) /\ roomy U m1 /\ agrees m1 rec /\
    forall k, k ≠ Key rec -> st_data m1 !! k = st_data m !! k) as (m1 & res1 & E1 & Hr1 & Ha1 & Ho1).
  { unfold sync_one. simpl. destruct (st_data m !! Key rec) as [ex|] eqn:Ex.
    - destruct (same ex rec) eqn:Es; [apply same_copy in Es; by exists m, (inc_skipped res); split; [|split; [|split; [exists ex|]]] |].
      destruct (apply_source U rec m e (inc_conflicts res) Hr Hne HU) as (m1 & ? & ? & ? & ?). by eexists m1, _.
    - destruct (apply_source U rec m e res Hr Hne HU) as (m1 & ? & ? & ? & ?). by eexists m1, _. }
  destruct (IH (1 + i)%nat m1 res1 Hr1 Hnd) as (m' & res' & E' & Hr' & Ha' & Ho'); [by intros r Hin; apply Hk; right |].
  exists m', res'. cbn [sync_all]. change (never i) with (@None string). rewrite E1. split; [exact E' |]. split; [done |]. split.
  - intros r [->|Hin]%elem_of_cons; [|by apply Ha']. destruct Ha1 as (x & Hx & Hs). exists x. by rewrite Ho'.
  - intros k. rewrite fmap_cons, not_elem_of_cons. intros [Hk1 Hk2]. by rewrite Ho', Ho1.
Qed.

(** The cursor after the first [n] keys. *)
Definition pos_at (n : nat) (order : list string) : string := default "" (last (take n order)).

Lemma start_after_pos n order :
  NoDup order -> "" ∉ order -> (n <= length order)%nat -> start_after (pos_at n order) order = n.
Proof.
  intros Hnd He Hn. unfold pos_at, start_after. destruct n as [|n]; [by rewrite bool_decide_eq_true_2 |].
  destruct (lookup_lt_is_Some_2 order n ltac:(lia)) as [k Hk].
  rewrite (take_S_r _ _ _ Hk), last_snoc. simpl.
  rewrite bool_decide_eq_false_2 by (intros ->; apply He; by eapply list_elem_of_lookup_2).
  assert (list_find (fun x => x = k) order = Some (n, k)) as ->; [|done].
  apply list_find_Some. split; [done |]. split; [done |]. intros j y Hj ? ->. assert (j = n); [|lia]. by eapply NoDup_lookup.
Qed.

Lemma pos_at_add n l order :
  default (pos_at n order) (last (take l (drop n order))) = pos_at (n + l) order.
Proof.
  unfold pos_at. rewrite <- take_take_drop, last_app. by destruct (last (take l (drop n order))).
Qed.

Definition effective (limit : Z) : nat := Z.to_nat (if bool_decide (limit <= 0) then 100 else limit).

(** The engine after the first [n] keys of the source were copied. *)
Definition synced_to (n : nat) (src dst : MemoryStore) (e : Engine) : Prop :=
  e_policy e = PreferSource /\ Position (e_cursor e) = pos_at n (st_order src) /\ (n <= length (st_order src))%nat /\
  forall k r, k ∈ take n (st_order src) -> st_data src !! k = Some r -> agrees dst r.

Lemma order_nonempty m : store_wf m -> "" ∉ st_order m.
Proof. intros Hw Hin. apply (sw_order _ Hw) in Hin as [r Hr]. by destruct (sw_key _ Hw _ _ Hr). Qed.

(** The records of some keys of a store. *)
Lemma records_keys m keys :
  store_wf m -> keys ⊆ st_order m -> Key <$> ((fun k => default record_zero (st_data m !! k)) <$> keys) = keys.
Proof.
  intros Hw Hk. rewrite <- list_fmap_compose. rewrite <- (list_fmap_id keys) at 2. apply list_fmap_ext. intros i k Hi. simpl.
  assert (k ∈ st_order m) as [r Hr]%(sw_order _ Hw) by (apply Hk; by eapply list_elem_of_lookup_2).
  rewrite Hr. by destruct (sw_key _ Hw _ _ Hr).
Qed.

Lemma sync_pass U n limit src dst e :
  store_wf src -> roomy U dst -> dom (st_data src) ⊆ U -> synced_to n src dst e ->
  exists dst' e' res, Sync never limit src dst e = (src, dst', e', (res, None)) /\ roomy U dst' /\
    synced_to (min (n + effective limit) (length (st_order src))) src dst' e'.
Proof.
  intros Hs Hr HU (Hp & Hc & Hn & Ha). unfold Sync. simpl. unfold MemoryStore_Next.
  pose proof (order_nonempty _ Hs) as Hne. rewrite Hc, start_after_pos; [|apply Hs | done | done].
  set (lim := if bool_decide (limit <= 0) then 100 else limit).
  assert ((if bool_decide (lim <= 0) then 100 else lim) = lim) as ->.
  { unfold lim. by destruct (bool_decide (limit <= 0)) eqn:E; [|rewrite E]. }
  change (Z.to_nat lim) with (effective limit). set (keys := take (effective limit) (drop n (st_order src))).
  assert (keys ⊆ st_order src) as Hkeys.
  { unfold keys. etrans; [apply subseteq_take | apply subseteq_drop]. }
  assert (NoDup keys) as Hnd.
  { unfold keys. eapply sublist_NoDup; [apply (sw_nodup _ Hs) |]. etrans; [apply sublist_take | apply sublist_drop]. }
  set (recs := (fun k => default record_zero (st_data src !! k)) <$> keys).
  assert (Key <$> recs = keys) as Hrk by by apply records_keys.
  destruct (sync_all_source U recs 0 dst e result_zero Hr) as (dst' & res & E & Hr' & Ha' & Ho').
  { by rewrite Hrk. }
  { intros rec Hin. assert (Key rec ∈ st_order src) as Hk.
    { apply Hkeys. rewrite <- Hrk. by apply list_elem_of_fmap_2. }
    split; [by intros He; rewrite He in Hk |]. apply HU, elem_of_dom. by apply (sw_order _ Hs). }
  rewrite Hp, E. eexists dst', _, _. split; [done |]. split; [done |]. split; [done |]. split; [|split; [lia |]].
  { cbn [e_cursor Position]. unfold keys. rewrite pos_at_add. unfold pos_at. f_equal. f_equal.
    destruct (decide (n + effective limit <= length (st_order src))%nat); [by rewrite Nat.min_l |].
    rewrite Nat.min_r by lia. by rewrite !take_ge by lia. }
  intros k r Hk Hkr. destruct (sw_key _ Hs _ _ Hkr) as [HKr _].
  assert (k ∈ keys \/ k ∈ take n (st_order src) /\ k ∉ keys) as [Hin|[Hin Hnin]].
  { destruct (decide (k ∈ keys)); [by left | right]. split; [|done].
    assert (k ∈ take (n + effective limit) (st_order src)) as Ht.
    { rewrite Nat.min_comm, <- take_take in Hk. by apply (subseteq_take _ _ _ Hk). }
    rewrite <- take_take_drop, elem_of_app in Ht. by destruct Ht. }
  - apply Ha'. unfold recs. apply list_elem_of_fmap. exists k. by rewrite Hkr.
  - destruct (Ha k r Hin Hkr) as (x & Hx & Hsame). exists x. split; [|done]. rewrite Ho'; [done |]. by rewrite Hrk, HKr.
Qed.

Lemma passes_converge U limit k n src dst e :
  store_wf src -> roomy U dst -> dom (st_data src) ⊆ U -> synced_to n src dst e ->
  exists dst' e', passes never k limit src dst e = (src, dst', e', None) /\
    synced_to (min (n + k * effective limit) (length (st_order src))) src dst' e'.
Proof.
  intros Hs. revert n dst e. induction k as [|k IH]; intros n dst e Hr HU Hsy; cbn [passes].
  { exists dst, e. split; [done |]. rewrite Nat.add_0_r, Nat.min_l; [done | apply Hsy]. }
  destruct (sync_pass U n limit src dst e Hs Hr HU Hsy) as (dst1 & e1 & res & -> & Hr1 & Hsy1).
  destruct (IH _ _ _ Hr1 HU Hsy1) as (dst' & e' & E & Hsy'). exists dst', e'. split; [done |].
  rewrite Nat.mul_succ_l. generalize dependent (k * effective limit)%nat. intros x Hsy'.
  replace (min (n + (x + effective limit)) _) with (min (min (n + effective limit) (length (st_order src)) + x) (length (st_order src))) by lia. done.
Qed.

(** C27: synchronisation converges.  Between two in-process stores, with the policy
    [PreferSource], an engine at the start of the source, a context that does not end, a
    source that is not written meanwhile and a target with room for the keys of both:
    passes of any limit report no error and leave the source as it is, and once they have
    covered the keys of the source, every record of the source is in the target under its
    key, with its value and version. *)
Theorem sync_converges k limit src dst e :
  store_wf src -> store_wf dst -> e_policy e = PreferSource -> Position (e_cursor e) = "" ->
  Z.of_nat (size (dom (st_data src) ∪ dom (st_data dst))) <= st_max dst ->
  (length (st_order src) <= k * effective limit)%nat ->
  exists dst' e', passes never k limit src dst e = (src, dst', e', None) /\
    forall key r, st_data src !! key = Some r -> agrees dst' r.
Proof.
  intros Hs Hd Hp Hc Hsize Hk.
  destruct (passes_converge (dom (st_data src) ∪ dom (st_data dst)) limit k 0 src dst e Hs) as (dst' & e' & E & _ & _ & _ & Ha).
  { split; [done |]. split; [set_solver | done]. }
  { set_solver. }
  { split; [done |]. split; [done |]. split; [lia |]. intros key r H. by apply elem_of_nil in H. }
  exists dst', e'. split; [done |]. intros key r Hr. apply (Ha key r); [|done].
  rewrite take_ge by lia. apply (sw_order _ Hs). by eexists.
Qed.

(** ** What a policy does to the records of the target *)

Definition at_least (r r' : Record_) : Prop :=
  UpdatedAt r < UpdatedAt r' \/ UpdatedAt r = UpdatedAt r' /\ Version r <= Version r'.

Definition respects (p : ConflictPolicy) (r r' : Record_) : Prop :=
  match p with PreferSource => True | PreferLatest => at_least r r' | _ => r' = r end.

(** Every record of the first store is in the second, changed at most as [p] allows. *)
Definition store_respects (p : ConflictPolicy) (m m' : MemoryStore) : Prop :=
  st_now m' = st_now m /\
  forall key r, st_data m !! key = Some r -> exists r', st_data m' !! key = Some r' /\ respects p r r'.

#[global] Instance respects_pre p : PreOrder (respects p).
Proof.
  split; [intros r; destruct p; simpl; try done; right; lia |].
  intros a b c. destruct p; simpl; try done; [by intros -> ->| | by intros -> -> ..].
  unfold at_least. intros [?|[? ?]] [?|[? ?]]; lia.
Qed.

#[global] Instance store_respects_pre p : PreOrder (store_respects p).
Proof.
  split; [intros m; split; [done |]; intros key r Hr; by exists r |].
  intros a b c [N1 H1] [N2 H2]. split; [congruence |]. intros key r Hr.
  destruct (H1 key r Hr) as (r1 & Hr1 & R1). destruct (H2 key r1 Hr1) as (r2 & Hr2 & R2).
  exists r2. split; [done |]. by etrans.
Qed.

Lemma put_respects p rec m :
  (forall ex, st_data m !! Key rec = Some ex -> respects p ex (stamped (st_now m) rec)) ->
  store_respects p m (MemoryStore_Put rec m).1.
Proof.
  intros Hex. unfold MemoryStore_Put. case_bool_decide; [reflexivity |].
  assert (forall order, store_respects p m (mkStore (<[Key rec := stamped (st_now m) rec]> (st_data m)) order (st_max m) (st_now m))) as Hput.
  { intros order. split; [done |]. intros key r Hr. simpl. destruct (decide (Key rec = key)) as [<-|Hn].
    - rewrite lookup_insert_eq. eexists. split; [done |]. by apply Hex.
    - rewrite lookup_insert_ne by done. exists r. by split. }
  destruct (st_data m !! Key rec); [apply Hput |]. case_bool_decide; [reflexivity | apply Hput].
Qed.

Lemma apply_respects p rec m e res :
  (forall ex, st_data m !! Key rec = Some ex -> respects p ex (stamped (st_now m) rec)) ->
  store_respects p m (apply rec m e res).1.1.1 /\ (apply rec m e res).1.1.2 = e.
Proof.
  intros Hex. pose proof (put_respects p rec m Hex) as H. unfold apply. simpl.
  by destruct (MemoryStore_Put rec m) as [m' [err|]].
Qed.

(** A record that wins is stored with a time no earlier. *)
Lemma useSource_newer now rec ex : 0 <= now -> useSource rec ex = true -> at_least ex (stamped now rec).
Proof.
  unfold useSource, After, stamped, IsZero, at_least, time_zero. rewrite orb_true_iff, andb_true_iff, !bool_decide_eq_true.
  intros Hn [H|[H1 H2]]; case_bool_decide; simpl; lia.
Qed.

Lemma sync_one_respects ctx p rec m e res :
  0 <= st_now m -> store_respects p m (sync_one ctx p rec m e res).1.1.1 /\ e_policy (sync_one ctx p rec m e res).1.1.2 = e_policy e.
Proof.
  intros Hnow. unfold sync_one. destruct ctx; [by split |]. simpl. destruct (st_data m !! Key rec) as [ex|] eqn:E.
  2: { destruct (apply_respects p rec m e res) as [H ->]; [by rewrite E | by split]. }
  destruct (same ex rec); [by split |].
  destruct p; simpl; try by split.
  - destruct (apply_respects PreferSource rec m e (inc_conflicts res)) as [H ->]; by split.
  - destruct (useSource rec ex) eqn:Eu; [|by split].
    destruct (apply_respects PreferLatest rec m e (inc_conflicts res)) as [H ->]; [|by split].
    intros ex' [= <-]%(eq_trans (eq_sym E)). by apply useSource_newer.
  - unfold queueManual. case_bool_decide; [by split |]. case_bool_decide; by split.
Qed.

Lemma sync_all_respects ctx p i recs m e res :
  0 <= st_now m ->
  store_respects p m (sync_all ctx p i recs m e res).1.1.1 /\ e_policy (sync_all ctx p i recs m e res).1.1.2 = e_policy e.
Proof.
  revert i m e res. induction recs as [|rec recs IH]; intros i m e res Hnow; [by split |]. cbn [sync_all].
  destruct (sync_one_respects (ctx i) p rec m e res Hnow) as [H1 H2].
  destruct (sync_one (ctx i) p rec m e res) as [[[m1 e1] res1] [err|]]; [by split |]. simpl in H1, H2.
  destruct (IH (1 + i)%nat m1 e1 res1) as [H3 H4]; [by destruct H1 as [-> _] |].
  split; [by etrans | congruence].
Qed.

(** A policy protects the target.  Whatever the source answers, also when a
    pass stops with an error, no record of the target is lost; it is unchanged
    under [PreferTarget], [Manual] and [Reject], and under [PreferLatest] its time
    and version never go back. *)
Theorem sync_respects_target {S} `{!Source S} ctx k limit (src : S) dst e :
  0 <= st_now dst ->
  store_respects (e_policy e) dst (passes ctx k limit src dst e).1.1.2.
Proof.
  revert src dst e. induction k as [|k IH]; intros src dst e Hnow; [reflexivity |]. cbn [passes]. unfold Sync.
  destruct (Next _ _ src) as [src1 [err|[recs next]]]; [reflexivity |].
  destruct (sync_all_respects ctx (e_policy e) 0 recs dst e result_zero Hnow) as [H1 H2].
  destruct (sync_all ctx (e_policy e) 0 recs dst e result_zero) as [[[m1 e1] res1] [err|]]; [exact H1 |]. simpl in H1, H2.
  etrans; [exact H1 |]. rewrite <- H2.
  apply (IH src1 m1 (mkEngine (e_policy e1) _ _ _ _ _)). by destruct H1 as [-> _].
Qed.

Definition demo_src : MemoryStore :=
  foldl (fun m x => (MemoryStore_Put (mkRecord x.1 x.2 9 2) m).1) (NewMemoryStore 0 5) [("a", "1"); ("b", "2"); ("c", "3")].
Definition demo_dst : MemoryStore := (MemoryStore_Put (mkRecord "b" "old" 1 1) (NewMemoryStore 3 5)).1.
Definition demo_engine (p : ConflictPolicy) : Engine := mkEngine p cursor_zero 0 0 [] 256.

Lemma demo_src_wf : store_wf demo_src.
Proof. do 3 apply put_wf. apply NewMemoryStore_wf. Qed.

Lemma demo_dst_wf : store_wf demo_dst.
Proof. apply put_wf, NewMemoryStore_wf. Qed.

Lemma sync_converges_witness :
  exists dst' e', passes never 2 2 demo_src demo_dst (demo_engine PreferSource) = (demo_src, dst', e', None) /\
    agrees dst' (mkRecord "c" "3" 9 2).
Proof.
  destruct (sync_converges 2 2 demo_src demo_dst (demo_engine PreferSource) demo_src_wf demo_dst_wf) as (dst' & e' & H & Ha);
    [done | done | by vm_compute | by apply (bool_decide_unpack _); vm_compute |].
  exists dst', e'. split; [done |]. by apply (Ha "c").
Defined.

Lemma sync_respects_target_witness :
  store_respects PreferLatest demo_dst (passes never 2 2 demo_src demo_dst (demo_engine PreferLatest)).1.1.2.
Proof. apply (sync_respects_target never 2 2 demo_src demo_dst (demo_engine PreferLatest)). by vm_compute. Defined.
