(* ===== verification/ConfigLock.v ===== *)
(** * Locked configuration ([configlock/configlock.go])

    Bundles by revision and their lifecycle.  A [json.RawMessage] is a slice: the
    stored bundle and every copy that [Draft], [Get] and [Active] hand out share
    the array with the content, so the bytes are kept apart ([m_content]) and
    [Scribble] is what the holder of a copy can do to them.  SHA-256, Ed25519 and
    [encoding/json] are parameters. *)

From S2P Require Import Prelude GoStrings Signing.
#[local] Open Scope Z_scope.

(** ** Data *)

Inductive State :=
| StateDraft | StateStaged | StateValidated | StateApproved | StateActive | StateSuperseded | StateRevoked | StateRejected.

#[global] Instance State_eq_dec : EqDecision State.
Proof. solve_decision. Defined.

Inductive config_error :=
| ErrInvalidState (from to : State) | ErrHashMismatch | ErrUnsignedRequired | ErrBadSignature (e : option sign_error)
| ErrNotFound | ErrExpired | ErrNoTrustedKeys | SigningError (e : sign_error).

(** The transitions each state allows. *)
Definition allowed (from : State) : list State :=
  match from with
  | StateDraft => [StateStaged; StateRejected; StateRevoked]
  | StateStaged => [StateValidated; StateRejected; StateRevoked]
  | StateValidated => [StateApproved; StateRejected; StateRevoked]
  | StateApproved => [StateActive; StateRejected; StateRevoked]
  | StateActive => [StateSuperseded; StateRevoked]
  | _ => []
  end.

Definition transition (from to : State) : option config_error :=
  if bool_decide (to ∈ allowed from) then None else Some (ErrInvalidState from to).

Section ConfigLock.
Context {Num : Type} {J : JSONLib Num} {ED : Ed25519}.
Context {Hash : Type} `{!EqDecision Hash} (Sum256 : bytes -> Hash) (zero_hash : Hash).

Record Bundle := mkBundle {
  b_Version : Z; b_Revision : Z; b_Service : string; b_Environment : string; b_CreatedAt : Time;
  b_ActivatesAt : option Time; b_ExpiresAt : option Time; b_ContentHash : Hash; b_Signatures : list Signature;
  b_State : State }.

(** [signBody]: what signatures cover. *)
Record signBody := mkBody {
  sb_Version : Z; sb_Revision : Z; sb_Service : string; sb_Environment : string; sb_CreatedAt : Time;
  sb_ActivatesAt : option Time; sb_ExpiresAt : option Time; sb_ContentHash : Hash; sb_Content : bytes }.

Context (marshal : signBody -> option bytes).

(** [m_keys] is [None] for a nil ring. *)
Record Manager := mkManager {
  m_bundles : gmap Z Bundle; m_active : Z; m_nextRev : Z; m_keys : option (gmap string PublicKey);
  m_requireSignature : bool; m_production : bool; m_content : gmap Z bytes }.

Definition NewManager (keys : option (gmap string PublicKey)) (require production : bool) : Manager :=
  mkManager ∅ 0 0 keys require production ∅.

Definition content (rev : Z) (m : Manager) : bytes := default [] (m_content m !! rev).

(** ** Bundles *)

Definition with_state (s : State) (b : Bundle) : Bundle :=
  mkBundle (b_Version b) (b_Revision b) (b_Service b) (b_Environment b) (b_CreatedAt b) (b_ActivatesAt b) (b_ExpiresAt b)
    (b_ContentHash b) (b_Signatures b) s.
Definition with_hash (h : Hash) (b : Bundle) : Bundle :=
  mkBundle (b_Version b) (b_Revision b) (b_Service b) (b_Environment b) (b_CreatedAt b) (b_ActivatesAt b) (b_ExpiresAt b)
    h (b_Signatures b) (b_State b).
Definition add_signature (sig : Signature) (b : Bundle) : Bundle :=
  mkBundle (b_Version b) (b_Revision b) (b_Service b) (b_Environment b) (b_CreatedAt b) (b_ActivatesAt b) (b_ExpiresAt b)
    (b_ContentHash b) (b_Signatures b ++ [sig]) (b_State b).

Definition ComputeContentHash (raw : bytes) (b : Bundle) : Bundle := with_hash (Sum256 raw) b.

Definition VerifyContentHash (raw : bytes) (b : Bundle) : option config_error :=
  if bool_decide (Sum256 raw = b_ContentHash b) then None else Some ErrHashMismatch.

Definition body (raw : bytes) (b : Bundle) : signBody :=
  mkBody (b_Version b) (b_Revision b) (b_Service b) (b_Environment b) (b_CreatedAt b) (b_ActivatesAt b) (b_ExpiresAt b)
    (b_ContentHash b) raw.

(** The hash is set also when signing fails. *)
Definition Sign (now : Time) (key : PrivateKey) (raw : bytes) (b : Bundle) : Bundle * option config_error :=
  let b := if bool_decide (b_ContentHash b = zero_hash) then ComputeContentHash raw b else b in
  match SignCanonical marshal now key (body raw b) with
  | inl e => (b, Some (SigningError e))
  | inr (sig, _) => (add_signature sig b, None)
  end.

(** The first signature that does not verify. *)
Fixpoint verify_each (now : Time) (keys : option (gmap string PublicKey)) (v : signBody) (sigs : list Signature)
  : option config_error :=
  match sigs with
  | [] => None
  | sig :: sigs =>
    match VerifyCanonical marshal now keys v sig with
    | Some e => Some (ErrBadSignature (Some e))
    | None => verify_each now keys v sigs
    end
  end.

Definition VerifySignatures (now : Time) (keys : option (gmap string PublicKey)) (raw : bytes) (b : Bundle)
  : option config_error :=
  if match keys with None => true | Some r => bool_decide (Ring_Len r = 0) end then Some ErrNoTrustedKeys
  else if bool_decide (b_Signatures b = []) then Some (ErrBadSignature None)
  else verify_each now keys (body raw b) (b_Signatures b).

(** ** The manager *)

Definition set_bundle (rev : Z) (b : Bundle) (m : Manager) : Manager :=
  mkManager (<[rev := b]> (m_bundles m)) (m_active m) (m_nextRev m) (m_keys m) (m_requireSignature m) (m_production m)
    (m_content m).

Definition Draft (now : Time) (service env : string) (raw : bytes) (m : Manager) : Manager * Bundle :=
  let rev := u64 (m_nextRev m + 1) in
  let b := ComputeContentHash raw (mkBundle 1 rev service env now None None zero_hash [] StateDraft) in
  (mkManager (<[rev := b]> (m_bundles m)) (m_active m) rev (m_keys m) (m_requireSignature m) (m_production m)
     (<[rev := raw]> (m_content m)), b).

Definition move (rev : Z) (to : State) (m : Manager) : Manager * option config_error :=
  match m_bundles m !! rev with
  | None => (m, Some ErrNotFound)
  | Some b =>
    match transition (b_State b) to with
    | Some e => (m, Some e)
    | None => (set_bundle rev (with_state to b) m, None)
    end
  end.

Definition Stage (rev : Z) : Manager -> Manager * option config_error := move rev StateStaged.
Definition Approve (rev : Z) : Manager -> Manager * option config_error := move rev StateApproved.

Definition Validate (rev : Z) (m : Manager) : Manager * option config_error :=
  match m_bundles m !! rev with
  | None => (m, Some ErrNotFound)
  | Some b =>
    match transition (b_State b) StateValidated with
    | Some e => (m, Some e)
    | None =>
      match VerifyContentHash (content rev m) b with
      | Some e => (m, Some e)
      | None => (set_bundle rev (with_state StateValidated b) m, None)
      end
    end
  end.

(** The bundle that was active is superseded. *)
Definition supersede (m : Manager) : Manager :=
  if bool_decide (m_active m = 0) then m
  else match m_bundles m !! m_active m with
       | Some prev => if bool_decide (b_State prev = StateActive)
                      then set_bundle (m_active m) (with_state StateSuperseded prev) m else m
       | None => m
       end.

(** [b.State = StateActive; m.active = rev]; [b] is the stored bundle, so a
    previous write to it is kept. *)
Definition make_active (rev : Z) (m : Manager) : Manager :=
  mkManager (alter (with_state StateActive) rev (m_bundles m)) rev (m_nextRev m) (m_keys m) (m_requireSignature m)
    (m_production m) (m_content m).

Definition signature_check (now : Time) (rev : Z) (b : Bundle) (m : Manager) : option config_error :=
  if m_requireSignature m || m_production m then
    if bool_decide (b_Signatures b = []) then Some ErrUnsignedRequired
    else VerifySignatures now (m_keys m) (content rev m) b
  else None.

Definition Activate (now : Time) (rev : Z) (m : Manager) : Manager * option config_error :=
  match m_bundles m !! rev with
  | None => (m, Some ErrNotFound)
  | Some b =>
    match transition (b_State b) StateActive with
    | Some e => (m, Some e)
    | None =>
      match VerifyContentHash (content rev m) b with
      | Some e => (m, Some e)
      | None =>
        if past now (b_ExpiresAt b) then (m, Some ErrExpired)
        else
          match signature_check now rev b m with
          | Some e => (m, Some e)
          | None => (make_active rev (supersede m), None)
          end
      end
    end
  end.

Definition Active (m : Manager) : option Bundle := if bool_decide (m_active m = 0) then None else m_bundles m !! m_active m.

Definition Get (rev : Z) (m : Manager) : config_error + Bundle :=
  match m_bundles m !! rev with Some b => inr b | None => inl ErrNotFound end.

Definition SignRevision (now : Time) (rev : Z) (key : PrivateKey) (m : Manager) : Manager * option config_error :=
  match m_bundles m !! rev with
  | None => (m, Some ErrNotFound)
  | Some b => let '(b, e) := Sign now key (content rev m) b in (set_bundle rev b m, e)
  end.

(** The holder of a copy writes to the shared array. *)
Definition Scribble (rev : Z) (raw : bytes) (m : Manager) : Manager :=
  mkManager (m_bundles m) (m_active m) (m_nextRev m) (m_keys m) (m_requireSignature m) (m_production m)
    (alter (fun _ => raw) rev (m_content m)).

(** ** Histories *)

Inductive Op :=
| ODraft (now : Time) (service env : string) (raw : bytes) | OStage (rev : Z) | OValidate (rev : Z) | OApprove (rev : Z)
| OActivate (now : Time) (rev : Z) | OSign (now : Time) (rev : Z) (key : PrivateKey) | OScribble (rev : Z) (raw : bytes).

Definition do_op (op : Op) (m : Manager) : Manager * option config_error :=
  match op with
  | ODraft now s e raw => ((Draft now s e raw m).1, None)
  | OStage rev => Stage rev m
  | OValidate rev => Validate rev m
  | OApprove rev => Approve rev m
  | OActivate now rev => Activate now rev m
  | OSign now rev key => SignRevision now rev key m
  | OScribble rev raw => (Scribble rev raw m, None)
  end.

(** The stages of a revision, as they succeed. *)
Inductive stage := SDraft (rev : Z) | SStage (rev : Z) | SValidate (rev : Z) | SApprove (rev : Z) | SActivate (rev : Z).

Definition stage_of (op : Op) (m : Manager) : list stage :=
  match op, (do_op op m).2 with
  | ODraft _ _ _ _, _ => [SDraft (u64 (m_nextRev m + 1))]
  | OStage rev, None => [SStage rev]
  | OValidate rev, None => [SValidate rev]
  | OApprove rev, None => [SApprove rev]
  | OActivate _ rev, None => [SActivate rev]
  | _, _ => []
  end.

Fixpoint history (ops : list Op) (m : Manager) : list stage :=
  match ops with [] => [] | op :: ops => stage_of op m ++ history ops (do_op op m).1 end.

Definition after (ops : list Op) (m : Manager) : Manager := foldl (fun m op => (do_op op m).1) m ops.

(** What a bundle in a state has gone through. *)
Definition needed (rev : Z) (s : State) : list stage :=
  match s with
  | StateDraft => [SDraft rev]
  | StateStaged => [SDraft rev; SStage rev]
  | StateValidated => [SDraft rev; SStage rev; SValidate rev]
  | StateApproved => [SDraft rev; SStage rev; SValidate rev; SApprove rev]
  | StateActive | StateSuperseded => [SDraft rev; SStage rev; SValidate rev; SApprove rev; SActivate rev]
  | StateRevoked | StateRejected => [SDraft rev]
  end.

(** ** The lifecycle *)

Lemma transition_from s to : transition s to = None -> to ∈ allowed s.
Proof. unfold transition. by case_bool_decide. Qed.

(** [m] has come about by [log]. *)
Definition lived (m : Manager) (log : list stage) : Prop :=
  forall rev b, m_bundles m !! rev = Some b ->
    needed rev (b_State b) `sublist_of` log /\ (b_State b = StateActive -> rev = m_active m /\ rev ≠ 0).

Lemma lived_more m log more : lived m log -> lived m (log ++ more).
Proof.
  intros H rev b Hb. destruct (H rev b Hb) as [H1 H2]. split; [|done]. etrans; [exact H1 |]. by apply sublist_inserts_r.
Qed.

(** A bundle changes without changing its state. *)
Lemma lived_same rev b b' m log :
  lived m log -> m_bundles m !! rev = Some b -> b_State b' = b_State b -> lived (set_bundle rev b' m) log.
Proof.
  intros H Hb Hs r x. simpl. rewrite lookup_insert_Some. intros [[<- <-]|[_ Hx]]; [|by apply H].
  rewrite Hs. by apply H.
Qed.

(** A bundle goes on to the next state, which is not the active one. *)
Lemma lived_next rev b to st m log :
  lived m log -> m_bundles m !! rev = Some b -> needed rev to = needed rev (b_State b) ++ [st] -> to ≠ StateActive ->
  lived (set_bundle rev (with_state to b) m) (log ++ [st]).
Proof.
  intros H Hb Hn Ha r x. simpl. rewrite lookup_insert_Some. intros [[<- <-]|[_ Hx]]; [|by apply lived_more].
  simpl. rewrite Hn. split; [|done]. apply sublist_app; [by apply H | done].
Qed.

Lemma move_lived rev to st m log :
  lived m log -> to ≠ StateActive -> (forall s, to ∈ allowed s -> needed rev to = needed rev s ++ [st]) ->
  lived (move rev to m).1 (log ++ match (move rev to m).2 with None => [st] | Some _ => [] end).
Proof.
  intros H Ha Hn. unfold move. destruct (m_bundles m !! rev) as [b|] eqn:Eb; [|by rewrite app_nil_r].
  destruct (transition (b_State b) to) eqn:Et; [by rewrite app_nil_r |]. apply transition_from in Et.
  by apply lived_next; [done | done | apply Hn |].
Qed.

(** After [supersede] no bundle is active. *)
Lemma supersede_lookup m log rev b :
  lived m log -> m_bundles (supersede m) !! rev = Some b ->
  needed rev (b_State b) `sublist_of` log /\ b_State b ≠ StateActive.
Proof.
  intros H Hb. assert (b_State b = StateActive -> m_bundles m !! rev = Some b -> rev = m_active m /\ rev ≠ 0) as Hact
    by (intros ? Hx; by apply (H rev b)).
  revert Hb. unfold supersede. case_bool_decide as H0.
  { intros Hb. split; [by apply H |]. intros E. destruct (Hact E Hb). congruence. }
  destruct (m_bundles m !! m_active m) as [prev|] eqn:Ep.
  2: { intros Hb. split; [by apply H |]. intros E. destruct (Hact E Hb) as [-> _]. congruence. }
  case_bool_decide as Hs; simpl.
  - rewrite lookup_insert_Some. intros [[<- <-]|[Hne Hb]].
    + split; [|done]. destruct (H _ _ Ep) as [Hn _]. by rewrite Hs in Hn.
    + split; [by apply H |]. intros E. destruct (Hact E Hb). congruence.
  - intros Hb. split; [by apply H |]. intros E. destruct (Hact E Hb) as [-> _]. congruence.
Qed.

Lemma activate_lived now rev m log :
  lived m log -> (forall b, m_bundles m !! rev = Some b -> rev ≠ 0) ->
  lived (Activate now rev m).1 (log ++ match (Activate now rev m).2 with None => [SActivate rev] | Some _ => [] end).
Proof.
  intros H Hz. unfold Activate. destruct (m_bundles m !! rev) as [b|] eqn:Eb; [|by rewrite app_nil_r].
  destruct (transition (b_State b) StateActive) eqn:Et; [by rewrite app_nil_r |]. apply transition_from in Et.
  destruct (VerifyContentHash _ b); [by rewrite app_nil_r |]. destruct (past _ _); [by rewrite app_nil_r |].
  destruct (signature_check _ _ _ _); [by rewrite app_nil_r |]. simpl.
  assert (b_State b = StateApproved) as Es.
  { destruct (b_State b); try done; exfalso; revert Et; by apply (bool_decide_eq_false_1 _). }
  intros r x. simpl. destruct (decide (rev = r)) as [<-|Hr].
  - rewrite lookup_alter_eq. intros (y & Hy & ->)%fmap_Some. simpl. split; [|by eauto].
    destruct (H rev b Eb) as [Hn _]. rewrite Es in Hn. by apply (sublist_app [_; _; _; _] _ [_]).
  - rewrite lookup_alter_ne by done. intros Hx. destruct (supersede_lookup m log r x H Hx) as [Hn Ha].
    split; [etrans; [exact Hn | by apply sublist_inserts_r] | done].
Qed.

(** Revisions are counted from one. *)
Definition numbered (n : Z) (m : Manager) : Prop :=
  0 <= m_nextRev m <= n /\ forall rev b, m_bundles m !! rev = Some b -> rev ≠ 0.

Lemma numbered_keep n m m' :
  numbered n m -> m_nextRev m' = m_nextRev m -> (forall rev, is_Some (m_bundles m' !! rev) -> is_Some (m_bundles m !! rev)) ->
  numbered (n + 1) m'.
Proof.
  intros [H1 H2] Hr Hd. split; [lia |]. intros rev b Hb. destruct (Hd rev ltac:(by eexists)) as [b0 Hb0]. by eapply H2.
Qed.

Lemma set_bundle_dom rev b b' m r : m_bundles m !! rev = Some b -> is_Some (m_bundles (set_bundle rev b' m) !! r) -> is_Some (m_bundles m !! r).
Proof. intros Hb. simpl. rewrite lookup_insert_is_Some'. intros [<-|H]; [by rewrite Hb | done]. Qed.

Lemma supersede_dom m r : is_Some (m_bundles (supersede m) !! r) -> is_Some (m_bundles m !! r).
Proof.
  unfold supersede. case_bool_decide; [done |]. destruct (m_bundles m !! m_active m) eqn:E; [|done].
  case_bool_decide; [by apply (set_bundle_dom _ _ _ _ _ E) | done].
Qed.

Lemma op_numbered n op m : n < u64_modulus - 1 -> numbered n m -> numbered (n + 1) (do_op op m).1.
Proof.
  intros Hn Hm. destruct op as [now s e raw|rev|rev|rev|now rev|now rev key|rev raw]; cbn [do_op fst].
  - destruct Hm as [H1 H2]. unfold Draft. rewrite u64_small by (unfold is_u64; lia). split; simpl; [lia |].
    intros rev b. rewrite lookup_insert_Some. intros [[<- _]|[_ Hb]]; [lia | by eapply H2].
  - unfold Stage, move. destruct (m_bundles m !! rev) eqn:E; [destruct (transition _ _) |]; (eapply numbered_keep; [done | done |]);
      try done. intros r. by apply (set_bundle_dom _ _ _ _ _ E).
  - unfold Validate. destruct (m_bundles m !! rev) eqn:E; [destruct (transition _ _); [|destruct (VerifyContentHash _ _)] |];
      (eapply numbered_keep; [done | done |]); try done. intros r. by apply (set_bundle_dom _ _ _ _ _ E).
  - unfold Approve, move. destruct (m_bundles m !! rev) eqn:E; [destruct (transition _ _) |]; (eapply numbered_keep; [done | done |]);
      try done. intros r. by apply (set_bundle_dom _ _ _ _ _ E).
  - assert (numbered (n + 1) m) as Hsame by by eapply numbered_keep.
    unfold Activate. destruct (m_bundles m !! rev) eqn:E; [|done]. destruct (transition _ _); [done |].
    destruct (VerifyContentHash _ _); [done |]. destruct (past _ _); [done |]. destruct (signature_check _ _ _ _); [done |].
    eapply numbered_keep; [exact Hm | unfold supersede; by repeat case_match |]. intros r. simpl.
    rewrite lookup_alter_is_Some. apply supersede_dom.
  - unfold SignRevision. destruct (m_bundles m !! rev) eqn:E; [|by eapply numbered_keep]. destruct (Sign _ _ _ _) as [b' e].
    eapply numbered_keep; [done | done |]. intros r. by apply (set_bundle_dom _ _ _ _ _ E).
  - by eapply numbered_keep.
Qed.

Lemma sign_state now key raw b : b_State (Sign now key raw b).1 = b_State b.
Proof. unfold Sign. destruct (SignCanonical _ _ _ _) as [e|[sig p]]; simpl; by case_bool_decide. Qed.

Lemma op_lived n op m log :
  n < u64_modulus - 1 -> numbered n m -> lived m log -> lived (do_op op m).1 (log ++ stage_of op m).
Proof.
  intros Hn Hnum H. destruct op as [now s e raw|rev|rev|rev|now rev|now rev key|rev raw]; unfold stage_of; cbn [do_op fst snd].
  - intros rev b. simpl. rewrite lookup_insert_Some. intros [[<- <-]|[_ Hb]]; [|by apply lived_more].
    split; [|done]. by apply sublist_inserts_l.
  - apply move_lived; [done | done |]. intros [] Hs; try done; exfalso; revert Hs; by apply (bool_decide_eq_false_1 _).
  - unfold Validate. destruct (m_bundles m !! rev) as [b|] eqn:Eb; [|by rewrite app_nil_r].
    destruct (transition (b_State b) StateValidated) eqn:Et; [by rewrite app_nil_r |]. apply transition_from in Et.
    destruct (VerifyContentHash _ b); [by rewrite app_nil_r |]. apply lived_next; [done | done | | done].
    destruct (b_State b); try done; exfalso; revert Et; by apply (bool_decide_eq_false_1 _).
  - apply move_lived; [done | done |]. intros [] Hs; try done; exfalso; revert Hs; by apply (bool_decide_eq_false_1 _).
  - apply activate_lived; [done |]. intros b Hb. by apply (proj2 Hnum rev b).
  - unfold SignRevision. destruct (m_bundles m !! rev) as [b|] eqn:Eb; [|by rewrite app_nil_r].
    pose proof (sign_state now key (content rev m) b) as Hs. destruct (Sign _ _ _ _) as [b' e]. simpl in *.
    rewrite app_nil_r. by apply (lived_same _ b).
  - by rewrite app_nil_r.
Qed.

Lemma ops_lived ops n m log :
  Z.of_nat (length ops) + n < u64_modulus -> numbered n m -> lived m log -> lived (after ops m) (log ++ history ops m).
Proof.
  revert n m log. induction ops as [|op ops IH]; intros n m log Hl Hn H; cbn [history after foldl].
  { by rewrite app_nil_r. }
  cbn [length] in Hl. rewrite app_assoc. apply (IH (n + 1)); [lia | by apply op_numbered; [lia |] |].
  by apply (op_lived n); [lia | |].
Qed.

(** What [Activate] has checked when it succeeds. *)
Definition vouched (m : Manager) (rev : Z) (b : Bundle) : Prop :=
  Sum256 (content rev m) = b_ContentHash b /\
  (m_requireSignature m || m_production m = true ->
   b_Signatures b ≠ [] /\
   forall sig, sig ∈ b_Signatures b -> exists payload ring pk,
     CanonicalJSON marshal (body (content rev m) b) = inr payload /\ m_keys m = Some ring /\
     ring !! sg_KeyID sig = Some pk /\ pk_Retired pk = false /\
     ed_Verify (pk_Public pk) payload (sg_Sig sig) = true).

Lemma verify_each_sound now keys v sigs sig :
  verify_each now keys v sigs = None -> sig ∈ sigs -> VerifyCanonical marshal now keys v sig = None.
Proof.
  induction sigs as [|x sigs IH]; simpl; [by intros _ ?%elem_of_nil |].
  destruct (VerifyCanonical marshal now keys v x) eqn:E; [done |]. by intros H [->|Hin]%elem_of_cons; [|apply IH].
Qed.

Lemma activate_vouched now rev m : (Activate now rev m).2 = None -> exists b, m_bundles m !! rev = Some b /\ vouched m rev b.
Proof.
  unfold Activate. destruct (m_bundles m !! rev) as [b|]; [|done]. destruct (transition _ _); [done |].
  unfold VerifyContentHash. case_bool_decide as Hh; [|done]. destruct (past _ _); [done |].
  destruct (signature_check now rev b m) eqn:Es; [done |]. intros _. exists b. split; [done |]. split; [done |]. intros Hreq.
  unfold signature_check in Es. rewrite Hreq in Es. case_bool_decide as He; [done |]. split; [done |]. intros sig Hsig.
  unfold VerifySignatures in Es. destruct (match m_keys m with None => _ | _ => _ end); [done |].
  rewrite (bool_decide_eq_false_2 _ He) in Es. apply (verify_each_sound _ _ _ _ sig Es) in Hsig.
  by apply VerifyCanonical_sound in Hsig.
Qed.

(** C26: only approved configuration becomes active, and only one at a time.  In any
    history of the manager, also when holders of copies write to the shared content:
    a bundle that is or was active was drafted, staged, validated, approved and
    activated in that order; at most one bundle is active, the one [Active]
    answers; and an activation succeeds only while the content has the recorded
    hash and, where signatures are required, every signature (there is one) is by
    a trusted key that is not retired over exactly the stored content. *)
Theorem config_lifecycle keys require production ops :
  Z.of_nat (length ops) < u64_modulus ->
  let start := NewManager keys require production in let m := after ops start in
  (forall rev b, m_bundles m !! rev = Some b -> b_State b = StateActive \/ b_State b = StateSuperseded ->
    [SDraft rev; SStage rev; SValidate rev; SApprove rev; SActivate rev] `sublist_of` history ops start) /\
  (forall rev b, m_bundles m !! rev = Some b -> b_State b = StateActive -> Active m = Some b) /\
  (forall now rev, (Activate now rev m).2 = None -> exists b, m_bundles m !! rev = Some b /\ vouched m rev b).
Proof.
  intros Hl start m.
  assert (lived m ([] ++ history ops start)) as H.
  { apply (ops_lived ops 0); [lia | |]; [split; [done |] |]; intros rev b Hb; simpl in Hb; by rewrite lookup_empty in Hb. }
  split; [|split; [|by intros; apply (activate_vouched now)]].
  - intros rev b Hb Hs. destruct (H rev b Hb) as [Hn _]. by destruct Hs as [Hs|Hs]; rewrite Hs in Hn.
  - intros rev b Hb Hs. destruct (H rev b Hb) as [_ Ha]. destruct (Ha Hs) as [Hrev Hz].
    unfold Active. rewrite <- Hrev. by rewrite bool_decide_eq_false_2.
Qed.

(** The active content is not locked: a holder of a copy (of [Draft], [Get] or
    [Active]) who writes to its content changes the content of the active bundle,
    which then no longer has the hash that was signed. *)
Lemma active_content_changes rev b raw m :
  Active m = Some b -> m_active m = rev -> is_Some (m_content m !! rev) -> Sum256 raw ≠ b_ContentHash b ->
  Active (Scribble rev raw m) = Some b /\ content rev (Scribble rev raw m) = raw /\
  VerifyContentHash (content rev (Scribble rev raw m)) b = Some ErrHashMismatch.
Proof.
  intros Ha Hr [old Hc] Hn. assert (content rev (Scribble rev raw m) = raw) as Hraw.
  { unfold content, Scribble. simpl. by rewrite lookup_alter_eq, Hc. }
  split; [done |]. split; [done |]. rewrite Hraw. unfold VerifyContentHash. by rewrite bool_decide_eq_false_2.
Qed.
End ConfigLock.


(** A manager in production: a revision goes through its stages, is signed, and is
    activated. *)
Definition demo_body (_ : signBody (Hash := bytes)) : option bytes := toy_marshal "body".
Definition demo_ops : list Op :=
  [ODraft 1 "svc" "prod" (String.list_ascii_of_string "x"); OStage 1; OValidate 1; OApprove 1; OSign 500 1 toy_key; OActivate 600 1].
Definition demo_new : Manager (Hash := bytes) :=
  NewManager (Some (Ring_Add (PublicView toy_key) NewKeyRing).1) true true.
Definition demo_manager : Manager :=
  after (J := toy_jsonlib) (ED := toy_ed25519) (fun raw => raw) [] demo_body demo_ops demo_new.

Lemma demo_active : b_State <$> Active demo_manager = Some StateActive.
Proof. vm_compute. reflexivity. Qed.

Lemma config_lifecycle_witness :
  [SDraft 1; SStage 1; SValidate 1; SApprove 1; SActivate 1] `sublist_of`
    history (J := toy_jsonlib) (ED := toy_ed25519) (fun raw => raw) [] demo_body demo_ops demo_new.
Proof.
  destruct (config_lifecycle (J := toy_jsonlib) (ED := toy_ed25519) (fun raw => raw) [] demo_body
    (Some (Ring_Add (PublicView toy_key) NewKeyRing).1) true true demo_ops ltac:(by vm_compute)) as [H _].
  destruct (m_bundles demo_manager !! 1) as [b|] eqn:E; [|by vm_compute in E].
  apply (H 1 b E). left. change (m_bundles demo_manager !! 1) with (Active demo_manager) in E.
  pose proof demo_active as Ha. rewrite E in Ha. by injection Ha.
Defined.
