(* ===== verification/Redteam.v ===== *)
(** * The red-team suite ([security/redteam/redteam.go])

    Twelve attacks, each run against the component that has to stop it: the model of a
    scenario is the same sequence of calls of the models of capabilities, replay caches,
    audit log, configuration locking, barriers, lockdown and snapshots.  Clock readings,
    random bytes and the generated key are arguments. *)

From S2P Require Import Prelude GoStrings Runes Types Secrets ControlSnapshot AntiReplay Barrier Lockdown AuditLog Signing ConfigLock Capability.
From Stdlib Require Import Ascii.

#[local] Open Scope Z_scope.

(** ** Scenarios *)

Inductive ScenarioID :=
| ForgedGeneration | StolenCapability | ReplayedCommand | StaleOwner | MaliciousCandidate | AuditTampering
| ConfigurationSubstitution | ProtocolDowngrade | QuorumCollusion | CandidateFlood | LockdownBypass | SecretExfiltration.

(** A result, an error of the set-up, or a panic; the message is left out. *)
Inductive rt_result := Ran (passed denied : bool) | SetupError | Panics.

Definition verdict (denied : bool) : rt_result := Ran denied denied.

Definition Catalog : list ScenarioID :=
  [ForgedGeneration; StolenCapability; ReplayedCommand; StaleOwner; MaliciousCandidate; AuditTampering;
   ConfigurationSubstitution; ProtocolDowngrade; QuorumCollusion; CandidateFlood; LockdownBypass; SecretExfiltration].

Definition no_limits : Constraints := mkConstraints false "" 0 [].
Definition is_cap_error (e : cap_error) (r : option cap_error) : bool :=
  match r, e with
  | Some ErrDenied, ErrDenied | Some ErrRevoked, ErrRevoked | Some ErrEpochMismatch, ErrEpochMismatch
  | Some ErrWidenDelegate, ErrWidenDelegate | Some ErrSingleUseSpent, ErrSingleUseSpent => true
  | _, _ => false
  end.

Definition cap_err {A} (r : cap_error + A) : option cap_error := match r with inl e => Some e | inr _ => None end.

(** What the run reads: [rv_t i] is the reading of the clock at the [i]-th call, [rv_r i]
    the one of the signer. *)
Record readings := mkReadings {
  rv_t : nat -> Time; rv_r : nat -> Time; rv_issue : issue_env; rv_delegate : delegate_env; rv_key : option PrivateKey }.

Section Redteam.
Context {Num : Type} {J : JSONLib Num} {ED : Ed25519} (marshal : Capability.signBody -> option bytes).
Context {Hash : Type} `{!EqDecision Hash} (zero_hash : Hash) (sum : AuditLog.body Hash -> option Hash) (Sum256 : bytes -> Hash)
  (marshal_config : ConfigLock.signBody (Hash := Hash) -> option bytes).
Context (lower : Z -> Z) (hash : Z * string * string * list (string * ControlSnapshot.any) * gmap string string -> option string)
  (marshal_snapshot : Snapshot -> option string) (format_time : Time -> string).

Definition runForgedGeneration (v : readings) : rt_result :=
  match Issue marshal (rv_issue v) (mkRequest "gen-old" "claim.inspect" "" Minute no_limits) (Capability.New []) with
  | (_, inl _) => SetupError
  | (auth, inr tok) =>
    let auth := (Capability.AdvanceEpoch auth).1 in
    verdict (is_cap_error ErrEpochMismatch (Capability.Verify marshal (rv_t v 0) (rv_r v 0) tok auth).2)
  end.

Definition runStolenCapability (v : readings) : rt_result :=
  match rv_key v with
  | None => SetupError
  | Some key =>
    let ring := (Ring_Add (PublicView key) NewKeyRing).1 in
    match Issue marshal (rv_issue v) (mkRequest "attacker" "command.execute" "" Minute (mkConstraints true "" 0 []))
            (Capability.New [WithSigner key (Some ring)]) with
    | (_, inl _) => SetupError
    | (auth, inr tok) =>
      match Capability.Verify marshal (rv_t v 0) (rv_r v 0) tok auth with
      | (_, Some _) => SetupError
      | (auth, None) =>
        let '(auth, err) := Capability.Verify marshal (rv_t v 1) (rv_r v 1) tok auth in
        if is_cap_error ErrSingleUseSpent err then verdict true
        else
          let auth := (Capability.Revoke (tk_ID tok) auth).1 in
          verdict (is_cap_error ErrRevoked (Capability.Verify marshal (rv_t v 2) (rv_r v 2) tok auth).2)
      end
    end
  end.

Definition runReplayedCommand (v : readings) : rt_result :=
  match AntiReplay.CheckAndStore (rv_t v 0) "cmd-nonce-1" Minute (AntiReplay.New 64) with
  | (_, Some _) => SetupError
  | (c, None) => verdict (match (AntiReplay.CheckAndStore (rv_t v 1) "cmd-nonce-1" Minute c).2 with
      | Some (TextErr m) => bool_decide (m = "antireplay: replay detected") | _ => false end)
  end.

(** The validator of the scenario itself: the current token, and whether one is taken. *)
Definition accept (tok cur : Z) : Z * bool :=
  if bool_decide (tok = 0) then (cur, false) else if bool_decide (tok < cur) then (cur, false) else (tok, true).

Definition runStaleOwner : rt_result :=
  let '(c, a) := accept 10 0 in
  if negb a then Ran false false
  else let '(c, a) := accept 9 c in
       if a then Ran false false
       else let '(_, a) := accept 0 c in if a then Ran false false else Ran true true.

Definition runMaliciousCandidate (v : readings) : rt_result :=
  match Issue marshal (rv_issue v) (mkRequest "g" "claim.release" "a" Minute no_limits) (Capability.New []) with
  | (_, inl _) => SetupError
  | (auth, inr parent) =>
    verdict (is_cap_error ErrWidenDelegate (cap_err (Delegate marshal (rv_delegate v) parent (mkRequest "" "claim.revoke" "a" 0 no_limits) auth).2))
  end.

(** The mirror file, the signer and the keys are absent. *)
Definition audit_append (now : Time) (action : string) : Store (Hash := Hash) (PrivateKey := unit) (KeyRing := unit) -> _ :=
  fun s => (AuditLog.Append zero_hash sum (fun _ _ => None) now true (mkArgs (mkActor "op" "") action "" "ok" "" None) s).1.

Definition forge (r : Record_ Hash) : Record_ Hash :=
  mkRecord Hash (au_Sequence r) (au_PreviousHash r) (au_RecordHash r) (au_Time r) (au_Actor r) "forged" (au_Resource r) (au_Result r)
    (au_OperationID r) (au_Metadata r) (au_Signature r) (au_KeyID r).

Definition runAuditTampering (v : readings) : rt_result :=
  let s := audit_append (rv_t v 1) "ok2" (audit_append (rv_t v 0) "ok" (NewStore None None false)) in
  match st_records s with
  | [] => Panics
  | r :: recs => verdict (negb (rp_OK (VerifyRecords zero_hash sum (fun _ : unit => 0) (fun _ _ _ _ _ => None) None (forge r :: recs))))
  end.

(** The document with this value under ["max"]; 34 is the quotation mark. *)
Definition max_doc (n : string) : bytes :=
  let q := String (ascii_of_nat 34) "" in String.list_ascii_of_string ("{" +:+ q +:+ "max" +:+ q +:+ ":" +:+ n +:+ "}").

Definition runConfigurationSubstitution (v : readings) : rt_result :=
  match rv_key v with
  | None => SetupError
  | Some key =>
    let ring := (Ring_Add (PublicView key) NewKeyRing).1 in
    let '(m, b) := Draft Sum256 zero_hash (rv_t v 0) "svc" "prod" (max_doc "1") (NewManager (Some ring) true true) in
    let rev := b_Revision b in
    let m := (ConfigLock.Stage rev m).1 in
    let m := (ConfigLock.Validate Sum256 rev m).1 in
    let m := (ConfigLock.Approve rev m).1 in
    match ConfigLock.Activate Sum256 marshal_config (rv_t v 1) rev m with
    | (m, Some ConfigLock.ErrUnsignedRequired) =>
      let m := (SignRevision Sum256 zero_hash marshal_config (rv_t v 2) rev key m).1 in
      match ConfigLock.Get rev m with
      | inl _ => Panics
      | inr got => verdict (match VerifyContentHash Sum256 (max_doc "999") got with Some ErrHashMismatch => true | _ => false end)
      end
    | _ => Ran false false
    end
  end.

Definition runProtocolDowngrade (v : readings) : rt_result :=
  let '(auth, r) := Issue marshal (rv_issue v) (mkRequest "x" "*" "" Minute no_limits) (Capability.New []) in
  if is_cap_error ErrDenied (cap_err r) then verdict true
  else verdict (is_cap_error ErrDenied (cap_err (Issue marshal (rv_issue v) (mkRequest "x" "" "" Minute no_limits) auth).2)).

Definition runQuorumCollusion : rt_result :=
  match Barrier.New (mkBConfig 1 3 (Some PolicyQuorum) 0) with
  | inl _ => SetupError
  | inr b =>
    match Arrive "A" 1 b with
    | (_, Some _) => SetupError
    | (b, None) => verdict (match (Arrive "A" 1 b).2 with Some ErrDuplicate => true | _ => false end)
    end
  end.

Definition runCandidateFlood : rt_result :=
  match Barrier.New (mkBConfig 1 2 (Some PolicyAll) 0) with
  | inl _ => SetupError
  | inr b =>
    let b := (Arrive "B" 1 (Arrive "A" 1 b).1).1 in
    verdict (match (Arrive "C" 1 b).2 with Some ErrFull => true | _ => false end)
  end.

Definition runLockdownBypass (v : readings) : rt_result :=
  match Enter format_time (rv_t v 0) true Wrote (mkEnter "ld_test" ModeFailClosed "redteam" "op" "") (Lockdown.New false false 0 true Absent []) with
  | (_, (_, Some _)) => SetupError
  | (m, (st, None)) => verdict (bool_decide (is_Some (Unlock (rv_t v 1) true Wrote (mkUnlock (ld_ID st) false "attacker" "") m).2.2))
  end.

(** The text of a snapshot of three secrets. *)
Definition exfiltrate (now : Time) (password key token : string) : option string :=
  Create lower hash now "svc" "i"
    [("db_password", ControlSnapshot.AString password); ("nested", AMap [("api_key", ControlSnapshot.AString key)])] {["token" := token]} ≫= marshal_snapshot.

Definition runSecretExfiltration (v : readings) : rt_result :=
  match exfiltrate (rv_t v 0) "hunter2" "secret-key" "leak-me" with
  | None => SetupError
  | Some text => verdict (negb (contains_sub "hunter2" text || contains_sub "secret-key" text || contains_sub "leak-me" text))
  end.

Definition Run (id : ScenarioID) (v : readings) : rt_result :=
  match id with
  | ForgedGeneration => runForgedGeneration v
  | StolenCapability => runStolenCapability v
  | ReplayedCommand => runReplayedCommand v
  | StaleOwner => runStaleOwner
  | MaliciousCandidate => runMaliciousCandidate v
  | AuditTampering => runAuditTampering v
  | ConfigurationSubstitution => runConfigurationSubstitution v
  | ProtocolDowngrade => runProtocolDowngrade v
  | QuorumCollusion => runQuorumCollusion
  | CandidateFlood => runCandidateFlood
  | LockdownBypass => runLockdownBypass v
  | SecretExfiltration => runSecretExfiltration v
  end.

(** The results so far, and whether every scenario was run. *)
Fixpoint run_all (ids : list ScenarioID) (v : ScenarioID -> readings) : list rt_result * bool :=
  match ids with
  | [] => ([], true)
  | id :: ids =>
    match Run id (v id) with
    | Ran p d => let '(rs, ok) := run_all ids v in (Ran p d :: rs, ok)
    | _ => ([], false)
    end
  end.

Definition RunAll : (ScenarioID -> readings) -> list rt_result * bool := run_all Catalog.

(** ** Every attack is stopped *)

(** The attack was stopped, unless the scenario could not be set up. *)
Definition stopped (r : rt_result) : Prop := r = Ran true true \/ r = SetupError.

Lemma issue_plain env req : Capability.rq_Permission req ≠ "" -> Capability.rq_Permission req ≠ "*" ->
  (exists e, Issue marshal env req (Capability.New []) = (Capability.New [], inl e)) \/
  exists nonce id, let tok := fresh_token req nonce id (ie_now env) 0 in
    Issue marshal env req (Capability.New []) = (with_issued {[tk_ID tok := tok]} (Capability.New []), inr tok).
Proof.
  intros H1 H2. unfold Issue. rewrite !bool_decide_false by done. cbn [orb].
  destruct (ie_nonce env) as [n|]; [|by left; eexists]. destruct (ie_id env) as [i|]; [|by left; eexists]. right. by exists n, i.
Qed.

Lemma forged_stopped v : stopped (runForgedGeneration v).
Proof.
  unfold runForgedGeneration. destruct (issue_plain (rv_issue v) (mkRequest "gen-old" "claim.inspect" "" Minute no_limits)) as [[e ->]|(n & i & ->)];
    [done | done | by right |]. left. reflexivity.
Qed.

Lemma downgrade_stopped v : stopped (runProtocolDowngrade v).
Proof. by left. Qed.

Lemma Verify_issued now real tok a : a_issued (Capability.Verify marshal now real tok a).1 = a_issued a.
Proof.
  unfold Capability.Verify, verifyLocked, check_uses, spend. repeat (case_match; try done); by simplify_eq/=.
Qed.

Lemma revoked_refused now real tok tok' a : a_issued a !! tk_ID tok = Some tok' ->
  (Capability.Verify marshal now real tok (Revoke (tk_ID tok) a).1).2 = Some ErrRevoked.
Proof.
  intros Hi. unfold Revoke. rewrite Hi. unfold Capability.Verify, verifyLocked. cbn [fst with_revoked a_revoked].
  by rewrite bool_decide_true by set_solver.
Qed.

Lemma Issue_issued env req a a' tok : Issue marshal env req a = (a', inr tok) -> a_issued a' !! tk_ID tok = Some tok.
Proof.
  unfold Issue. destruct (_ || _); [done |]. destruct (ie_nonce env); [|done]. destruct (ie_id env); [|done].
  destruct (signLocked _ _ _ _) as [|tok']; [done |]. intros [= <- ->]. cbn. apply lookup_insert_eq.
Qed.

Lemma stolen_stopped v : stopped (runStolenCapability v).
Proof.
  unfold runStolenCapability. destruct (rv_key v) as [key|]; [|by right].
  set (a0 := Capability.New _). destruct (Issue _ _ _ a0) as [a1 [e|tok]] eqn:Ei; [by right |]. apply Issue_issued in Ei.
  destruct (Capability.Verify _ (rv_t v 0) _ _ _) as [a2 [e|]] eqn:E0; [by right |].
  destruct (Capability.Verify _ (rv_t v 1) _ _ _) as [a3 err] eqn:E1. left. destruct (is_cap_error ErrSingleUseSpent err); [done |].
  rewrite (revoked_refused _ _ tok tok); [done |].
  change a3 with (a3, err).1. rewrite <- E1, Verify_issued. change a2 with (a2, None : option cap_error).1. by rewrite <- E0, Verify_issued.
Qed.

Ltac minutes := solve [done | unfold Minute, Second, Millisecond; lia].

Lemma replay_stopped v : rv_t v 1 <= rv_t v 0 + Minute -> stopped (runReplayedCommand v).
Proof.
  intros Ht. left. unfold runReplayedCommand, AntiReplay.CheckAndStore. cbn [bool_decide]. unfold Add, After.
  rewrite (bool_decide_false ("cmd-nonce-1" = "")), (bool_decide_false (Minute <= 0)) by minutes.
  rewrite (bool_decide_true (rv_t v 0 < _)) by minutes. cbn [negb].
  set (c0 := purgeLocked (rv_t v 0) (AntiReplay.New 64)). assert (c0 = mkCache 64 ∅ 0) as ->.
  { unfold c0, purgeLocked. cbn. by f_equal. }
  cbn [c_entries c_epoch c_max]. rewrite lookup_empty, delete_empty, map_size_empty. cbn [bool_decide Z.of_nat].
  rewrite (bool_decide_false (64 <= _)) by lia. rewrite (bool_decide_true (rv_t v 1 < _)) by minutes.
  cbn [negb]. set (e := mkEntry _ _). set (k := cacheKey 0 _).
  assert (c_entries (purgeLocked (rv_t v 1) (mkCache 64 (<[k := e]> ∅) 0)) !! k = Some e) as Hk.
  { cbn. apply map_lookup_filter_Some. split; [apply lookup_insert_eq |]. split; [|done]. unfold After. cbn. by rewrite bool_decide_false by lia. }
  change (cacheKey (c_epoch (purgeLocked (rv_t v 1) _)) "cmd-nonce-1") with k.
  rewrite Hk. cbn [expires e]. rewrite bool_decide_false by lia. reflexivity.
Qed.

Lemma malicious_stopped v : de_now (rv_delegate v) <= ie_now (rv_issue v) + Minute -> stopped (runMaliciousCandidate v).
Proof.
  intros Ht. unfold runMaliciousCandidate. destruct (issue_plain (rv_issue v) (mkRequest "g" "claim.release" "a" Minute no_limits)) as [[e ->]|(n & i & ->)];
    [done | done | by right |]. left. unfold Delegate, verifyLocked. cbn [a_revoked with_issued Capability.New foldl]. rewrite bool_decide_false by set_solver.
  rewrite bool_decide_true by done. cbn [negb]. unfold After. rewrite bool_decide_false; [reflexivity |].
  cbn. unfold Add, effective_ttl. rewrite bool_decide_false by minutes. lia.
Qed.

(** Two audit bodies with one hash. *)
Definition audit_collision : Prop := exists b b', b ≠ b' /\ is_Some (sum b) /\ sum b = sum b'.

Lemma append_total now action s : (forall b, is_Some (sum b)) -> st_signer s = None -> exists r,
  st_records (audit_append now action s) = st_records s ++ [r] /\ st_signer (audit_append now action s) = None /\
  au_Action r = action /\ hashBody sum r = Some (au_RecordHash r).
Proof.
  intros Htot Hs. unfold audit_append, AuditLog.Append. rewrite bool_decide_true by done. unfold ComputeHash, hashBody.
  set (r0 := mkRecord _ _ _ _ _ _ _ _ _ _ _ _ _). destruct (Htot (body_of r0)) as [h E]. rewrite E. unfold sign_record. rewrite Hs. eexists. split; [reflexivity |]. by split_and!.
Qed.

Lemma audit_stopped v : (forall b, is_Some (sum b)) -> stopped (runAuditTampering v) \/ audit_collision.
Proof.
  intros Htot. unfold runAuditTampering. destruct (append_total (rv_t v 0) "ok" (NewStore None None false) Htot eq_refl) as (r1 & E1 & S1 & A1 & H1).
  destruct (append_total (rv_t v 1) "ok2" (audit_append (rv_t v 0) "ok" (NewStore None None false)) Htot S1) as (r2 & E2 & _).
  rewrite E2, E1. cbn [NewStore st_records app]. unfold VerifyRecords. cbn [verify_loop rp_OK].
  destruct (decide (sum (body_of (forge r1)) = Some (au_RecordHash r1))) as [Hc|Hc].
  - right. exists (body_of (forge r1)), (body_of r1). unfold hashBody in H1. rewrite Hc, H1. split_and!; [|done|done].
    intros Eb. apply (f_equal bd_Action) in Eb. cbn in Eb. by rewrite A1 in Eb.
  - left. left. unfold verdict. rewrite bool_decide_false; [done |]. intros Hl. apply length_zero_iff_nil in Hl.
    apply app_eq_nil in Hl as [Hl _]. apply app_eq_nil in Hl as [Hl _]. unfold record_findings in Hl.
    apply app_eq_nil in Hl as [_ Hl]. apply app_eq_nil in Hl as [_ Hl]. apply app_eq_nil in Hl as [Hl _].
    unfold hash_findings, hashBody in Hl. destruct (sum (body_of (forge r1))) as [w|] eqn:Ew; [|done].
    destruct (bool_decide_reflect (w ≠ au_RecordHash (forge r1))) as [|Hn]; [done |]. apply Hc. f_equal. by apply dec_stable in Hn.
Qed.

Lemma move_at rev (to : ConfigLock.State) (m : ConfigLock.Manager (Hash := Hash)) b : m_bundles m !! rev = Some b -> ConfigLock.transition (b_State b) to = None ->
  (ConfigLock.move rev to m).1 = ConfigLock.set_bundle rev (ConfigLock.with_state to b) m.
Proof. intros Hb Ht. unfold ConfigLock.move. by rewrite Hb, Ht. Qed.

Lemma config_stopped v : stopped (runConfigurationSubstitution v) \/ Sum256 (max_doc "1") = Sum256 (max_doc "999").
Proof.
  destruct (decide (Sum256 (max_doc "1") = Sum256 (max_doc "999"))) as [|Hne]; [by right | left].
  unfold runConfigurationSubstitution. destruct (rv_key v) as [key|]; [|by right]. set (ring := (Ring_Add _ _).1). left.
  destruct (Draft _ _ _ _ _ _ _) as [m b] eqn:Ed.
  assert (m_bundles m !! b_Revision b = Some b /\ content (b_Revision b) m = max_doc "1" /\ b_ContentHash b = Sum256 (max_doc "1") /\ b_State b = StateDraft /\
    b_Signatures b = [] /\ b_ExpiresAt b = None /\ m_requireSignature m = true) as (Hb & Hc & Hh & Hst & Hsg & Hex & Hrq).
  { unfold Draft in Ed. injection Ed as <- <-. cbn [b_Revision ComputeContentHash with_hash m_bundles]. rewrite lookup_insert_eq. split; [done |].
    unfold content. cbn [m_content]. by rewrite lookup_insert_eq. }
  clear Ed. revert Hb Hc. generalize (b_Revision b). intros rev Hb Hc. cbn zeta.
  unfold ConfigLock.Stage. rewrite (move_at _ _ _ b) by (done || by rewrite Hst). set (m1 := ConfigLock.set_bundle _ _ _).
  assert (m_bundles m1 !! rev = Some (ConfigLock.with_state StateStaged b)) as Hb1 by apply lookup_insert_eq.
  unfold ConfigLock.Validate. rewrite Hb1. cbn [b_State ConfigLock.with_state]. change (ConfigLock.transition StateStaged StateValidated) with (@None config_error).
  assert (forall (m' : ConfigLock.Manager (Hash := Hash)) s, m_content m' = m_content m -> VerifyContentHash Sum256 (content rev m') (ConfigLock.with_state s b) = None) as Hv.
  { intros m' s Hm'. unfold VerifyContentHash. cbn [b_ContentHash ConfigLock.with_state]. unfold content. rewrite Hm'. fold (content rev m). by rewrite Hc, Hh, bool_decide_true. }
  cbn iota. rewrite Hv by done. cbn [fst]. set (m2 := ConfigLock.set_bundle _ _ m1).
  unfold ConfigLock.Approve. rewrite (move_at _ _ m2 (ConfigLock.with_state StateValidated b)) by (apply lookup_insert_eq || done).
  set (m3 := ConfigLock.set_bundle _ _ m2). assert (m_bundles m3 !! rev = Some (ConfigLock.with_state StateApproved b)) as Hb3 by apply lookup_insert_eq.
  assert (ConfigLock.Activate Sum256 marshal_config (rv_t v 1) rev m3 = (m3, Some ConfigLock.ErrUnsignedRequired)) as ->.
  { unfold ConfigLock.Activate. rewrite Hb3. cbn [b_State ConfigLock.with_state]. change (ConfigLock.transition StateApproved StateActive) with (@None config_error).
    cbn iota. rewrite Hv by done. cbn [b_ExpiresAt ConfigLock.with_state]. rewrite Hex. unfold signature_check.
    change (m_requireSignature m3) with (m_requireSignature m). rewrite Hrq. cbn [orb b_Signatures ConfigLock.with_state]. by rewrite Hsg. }
  unfold SignRevision. rewrite Hb3. destruct (ConfigLock.Sign _ _ _ _ _ _ _) as [b' e] eqn:Es.
  assert (b_ContentHash b' = Sum256 (max_doc "1")) as Hh'.
  { unfold ConfigLock.Sign in Es. set (b0 := if bool_decide _ then _ else _) in Es.
    assert (b_ContentHash b0 = Sum256 (max_doc "1")) as H0.
    { unfold b0. case_bool_decide; [|by cbn]. cbn. change (content rev m3) with (content rev m). by rewrite Hc. }
    destruct (SignCanonical _ _ _ _) as [|[]]; by injection Es as <- <-. }
  unfold ConfigLock.Get. cbn [fst ConfigLock.set_bundle m_bundles]. rewrite lookup_insert_eq. unfold VerifyContentHash.
  by rewrite Hh', bool_decide_false by congruence.
Qed.

(** The text does not depend on the secrets: nothing about them can be read from it.
    [lower] has to agree with ASCII on the letters of the key. *)
Theorem exfiltration_blind now p k tk p' k' tk' : (forall r, 97 <= r <= 122 -> lower r = r) ->
  exfiltrate now p k tk = exfiltrate now p' k' tk'.
Proof.
  intros Hl. assert (forall x, RedactMap lower {["token" := x]} = {["token" := "[REDACTED]"]}) as Hm.
  { intros x. assert (secret_key lower "token" = true) as Hk.
    { unfold secret_key, ToLower. change (range "token") with [116; 111; 107; 101; 110]. cbn [fmap list_fmap]. rewrite !Hl by lia. reflexivity. }
    unfold RedactMap. apply map_eq. intros i. rewrite map_lookup_imap. destruct (decide (i = "token")) as [->|Hi].
    - rewrite !lookup_singleton_eq. cbn [mbind option_bind]. by rewrite Hk.
    - by rewrite !lookup_singleton_ne by done. }
  unfold exfiltrate, Create. by rewrite !Hm.
Qed.

(** The readings of a suite that does not stall for a minute between two calls. *)
Definition prompt (v : readings) : Prop := rv_t v 1 <= rv_t v 0 + Minute /\ de_now (rv_delegate v) <= ie_now (rv_issue v) + Minute.

(** Every attack is stopped by the component it is aimed at: the result passes, or the
    scenario could not be set up, or two different inputs with one hash are known. *)
Theorem attacks_stopped id v : (forall b, is_Some (sum b)) -> prompt v -> id ≠ SecretExfiltration ->
  stopped (Run id v) \/ audit_collision \/ Sum256 (max_doc "1") = Sum256 (max_doc "999").
Proof.
  intros Htot [H1 H2] Hid. destruct id; cbn [Run]; try done.
  - left. apply forged_stopped.
  - left. apply stolen_stopped.
  - left. by apply replay_stopped.
  - left. by left.
  - left. by apply malicious_stopped.
  - destruct (audit_stopped v Htot); tauto.
  - destruct (config_stopped v); tauto.
  - left. apply downgrade_stopped.
  - left. by left.
  - left. by left.
  - left. by left.
Qed.
End Redteam.

(** A suite that stalls for more than a minute between the two uses of the nonce reports
    a failure of the replay cache. *)
Lemma stalled_suite_fails v : rv_t v 0 = 0 -> rv_t v 1 = Minute + 1 -> runReplayedCommand v = Ran false false.
Proof. intros H0 H1. unfold runReplayedCommand. rewrite H0, H1. reflexivity. Qed.
