(* ===== verification/Failover.v ===== *)
(** * Failover groups ([failover/failover.go])

    Groups of a primary and standbys, and the decisions taken.  A failover changes
    the group under the manager's mutex, advances the epoch of the new active
    resource in the registry without it, and then records the decision or takes
    the change back.  The three parts are separate definitions; [ExecuteFailover]
    and [ExecuteFailback] compose them, and [fo_step] interleaves any number of
    calls with each other and with other users of the registry. *)

From S2P Require Import Prelude GoStrings ResourceID Dependency Registry.
#[local] Open Scope Z_scope.

(** ** Data *)

Inductive Policy := PolicyManual | PolicyHealthBased | PolicyOther (s : string).

#[global] Instance Policy_eq_dec : EqDecision Policy.
Proof. solve_decision. Defined.

Definition parse_Policy (s : string) : Policy :=
  if bool_decide (s = "") || bool_decide (s = "manual") then PolicyManual
  else if bool_decide (s = "health-based") then PolicyHealthBased else PolicyOther s.

Record GroupConfig := mkConfig {
  gc_Name : string; gc_Primary : ResourceID; gc_Standbys : list ResourceID; gc_Policy : string }.

Record Group := mkGroup {
  g_Name : string; g_Policy : Policy; g_Primary : ResourceID; g_Standbys : list ResourceID;
  g_Active : ResourceID; g_Epoch : Z }.

Record Decision_ := mkDecision {
  d_Group : string; d_From : ResourceID; d_To : ResourceID; d_Reason : string; d_At : Time;
  d_EpochAdv : EpochAdvance; d_Failback : bool }.

Inductive fo_error :=
| ErrGroupNotFound | ErrDuplicateGroup | ErrNoStandby | ErrInvalidState | ErrManualOnly
| ErrRequired (what : string) | ErrRegistry (e : rerror).

Definition DefaultMaxHistory : Z := 256.

Record Manager := mkManager { fm_groups : gmap string Group; fm_log : list Decision_; fm_maxHistory : Z }.

Definition NewManager : Manager := mkManager ∅ [] DefaultMaxHistory.

Definition with_active (a : ResourceID) (g : Group) : Group :=
  mkGroup (g_Name g) (g_Policy g) (g_Primary g) (g_Standbys g) a (g_Epoch g).
Definition with_epoch (e : Z) (g : Group) : Group :=
  mkGroup (g_Name g) (g_Policy g) (g_Primary g) (g_Standbys g) (g_Active g) e.
Definition upd_group (name : string) (f : Group -> Group) (m : Manager) : Manager :=
  mkManager (alter f name (fm_groups m)) (fm_log m) (fm_maxHistory m).

Definition List_groups (m : Manager) : list Group := (map_to_list (fm_groups m)).*2.

Definition GetGroup (name : string) (m : Manager) : fo_error + Group :=
  match fm_groups m !! name with Some g => inr g | None => inl ErrGroupNotFound end.

Definition RegisterGroup (cfg : GroupConfig) (m : Manager) : Manager * option fo_error :=
  if bool_decide (gc_Name cfg = "") || ID_IsZero (gc_Primary cfg) then (m, Some (ErrRequired "name and primary"))
  else if bool_decide (is_Some (fm_groups m !! gc_Name cfg)) then (m, Some ErrDuplicateGroup)
  else
    let g := mkGroup (gc_Name cfg) (parse_Policy (gc_Policy cfg)) (gc_Primary cfg) (gc_Standbys cfg) (gc_Primary cfg) 0 in
    (mkManager (<[gc_Name cfg := g]> (fm_groups m)) (fm_log m) (fm_maxHistory m), None).

(** ** Choosing a standby *)

Section Health.
(** [Resource.Health(ctx).Overall]. *)
Context (health : Resource -> HealthStatus).

Definition usable (reg : Registry) (id : ResourceID) : bool :=
  match Get reg id with
  | inl _ => false
  | inr ent => let h := health (en_Resource ent) in bool_decide (h = HealthHealthy) || bool_decide (h = HealthDegraded)
  end.

Definition pickStandby (reg : Registry) (g : Group) (target : option ResourceID) : fo_error + ResourceID :=
  match target with
  | Some t => match list_find (fun s => ID_Equal s t = true) (g_Standbys g) with
              | Some (_, s) => inr s
              | None => inl ErrNoStandby
              end
  | None =>
    match list_find (fun s => usable reg s = true) (g_Standbys g), g_Standbys g with
    | Some (_, s), _ => inr s
    | None, s :: _ => inr s
    | None, [] => inl ErrNoStandby
    end
  end.

Definition EvaluateHealth (reg : Registry) (name : string) (m : Manager) : option ResourceID * option fo_error :=
  match fm_groups m !! name with
  | None => (None, Some ErrGroupNotFound)
  | Some g =>
    if negb (bool_decide (g_Policy g = PolicyHealthBased)) then (None, None)
    else
      match Get reg (g_Active g) with
      | inl e => (None, Some (ErrRegistry e))
      | inr ent =>
        if negb (unavailable (health (en_Resource ent))) then (None, None)
        else match list_find (fun s => usable reg s = true) (g_Standbys g) with
             | Some (_, s) => (Some s, None)
             | None => (None, Some ErrNoStandby)
             end
      end
  end.

(** ** The parts of a failover *)

(** A call that has changed the group and not yet ended. *)
Record Call := mkCall { cl_Name : string; cl_From : ResourceID; cl_To : ResourceID; cl_Reason : string; cl_Failback : bool }.

Definition failover_enter (reg : Registry) (name reason : string) (target : option ResourceID) (m : Manager)
  : Manager * (fo_error + Call) :=
  if bool_decide (reason = "") then (m, inl (ErrRequired "reason"))
  else
    match fm_groups m !! name with
    | None => (m, inl ErrGroupNotFound)
    | Some g =>
      if bool_decide (g_Policy g = PolicyManual) && bool_decide (target = None) then (m, inl ErrManualOnly)
      else
        match pickStandby reg g target with
        | inl e => (m, inl e)
        | inr to => (upd_group name (with_active to) m, inr (mkCall name (g_Active g) to reason false))
        end
    end.

Definition failback_enter (name reason : string) (m : Manager) : Manager * (fo_error + Call) :=
  if bool_decide (reason = "") then (m, inl (ErrRequired "reason"))
  else
    match fm_groups m !! name with
    | None => (m, inl ErrGroupNotFound)
    | Some g =>
      if ID_Equal (g_Active g) (g_Primary g) then (m, inl ErrInvalidState)
      else (upd_group name (with_active (g_Primary g)) m, inr (mkCall name (g_Active g) (g_Primary g) reason true))
    end.

(** [m.reg.Advance(to, ...)]; [blocks] is the answer of the registry's lockdown
    checker. *)
Definition call_advance (blocks : bool) (reg : Registry) (c : Call) : Registry * (rerror + EpochAdvance) :=
  Advance blocks reg (cl_To c) ((if cl_Failback c then "failback:" else "failover:") +:+ cl_Reason c).

Definition appendLog (d : Decision_) (m : Manager) : Manager :=
  let log := fm_log m ++ [d] in
  let n := Z.of_nat (length log) in
  mkManager (fm_groups m) (if bool_decide (fm_maxHistory m < n) then drop (Z.to_nat (n - fm_maxHistory m)) log else log)
    (fm_maxHistory m).

Definition decision (now : Time) (c : Call) (adv : EpochAdvance) : Decision_ :=
  mkDecision (cl_Name c) (cl_From c) (cl_To c) (cl_Reason c) now adv (cl_Failback c).

(** The end: the old active resource is put back, or the decision is recorded. *)
Definition call_finish (now : Time) (c : Call) (r : rerror + EpochAdvance) (m : Manager)
  : Manager * (fo_error + Decision_) :=
  match r with
  | inl e => (upd_group (cl_Name c) (with_active (cl_From c)) m, inl (ErrRegistry e))
  | inr adv =>
    (m |> upd_group (cl_Name c) (with_epoch (adv_To adv)) |> appendLog (decision now c adv), inr (decision now c adv))
  end.

(** A call that nothing interrupts. *)
Definition run_call (now : Time) (blocks : bool) (reg : Registry) (x : Manager * (fo_error + Call))
  : Registry * Manager * (fo_error + Decision_) :=
  match x with
  | (m, inl e) => (reg, m, inl e)
  | (m, inr c) =>
    let '(reg, r) := call_advance blocks reg c in
    let '(m, d) := call_finish now c r m in
    (reg, m, d)
  end.

Definition ExecuteFailover (now : Time) (blocks : bool) (name reason : string) (target : option ResourceID)
  (reg : Registry) (m : Manager) : Registry * Manager * (fo_error + Decision_) :=
  run_call now blocks reg (failover_enter reg name reason target m).

Definition ExecuteFailback (now : Time) (blocks : bool) (name reason : string) (reg : Registry) (m : Manager)
  : Registry * Manager * (fo_error + Decision_) :=
  run_call now blocks reg (failback_enter name reason m).

Definition History (m : Manager) : list Decision_ := fm_log m.
End Health.

(** ** Interleaved calls *)

(** A call in progress, before or after its [Advance]. *)
Record Sys := mkSys {
  s_reg : Registry; s_mgr : Manager; s_calls : gmap nat (Call * option (rerror + EpochAdvance)) }.

Inductive fo_step (s : Sys) : Sys -> Prop :=
| fo_registry reg : fo_step s (mkSys reg (s_mgr s) (s_calls s))
| fo_register cfg : fo_step s (mkSys (s_reg s) (RegisterGroup cfg (s_mgr s)).1 (s_calls s))
| fo_failover t health name reason target m c :
    s_calls s !! t = None -> failover_enter health (s_reg s) name reason target (s_mgr s) = (m, inr c) ->
    fo_step s (mkSys (s_reg s) m (<[t := (c, None)]> (s_calls s)))
| fo_failback t name reason m c :
    s_calls s !! t = None -> failback_enter name reason (s_mgr s) = (m, inr c) ->
    fo_step s (mkSys (s_reg s) m (<[t := (c, None)]> (s_calls s)))
| fo_advance t c blocks reg r :
    s_calls s !! t = Some (c, None) -> call_advance blocks (s_reg s) c = (reg, r) ->
    fo_step s (mkSys reg (s_mgr s) (<[t := (c, Some r)]> (s_calls s)))
| fo_finish t c r now :
    s_calls s !! t = Some (c, Some r) ->
    fo_step s (mkSys (s_reg s) (call_finish now c r (s_mgr s)).1 (delete t (s_calls s))).

(** ** Members *)

Definition members (g : Group) : list ResourceID := g_Primary g :: g_Standbys g.

Lemma ID_Equal_eq a b : ID_Equal a b = true <-> a = b.
Proof.
  unfold ID_Equal. destruct a, b. simpl. rewrite !andb_true_iff, !bool_decide_eq_true. split; [by intros [[[-> ->] ->] ->] | by intros [=]].
Qed.

Lemma pickStandby_standby health reg g target s : pickStandby health reg g target = inr s -> s ∈ g_Standbys g.
Proof.
  unfold pickStandby. destruct target as [t|].
  - destruct (list_find _ _) as [[i x]|] eqn:E; [|done]. intros [= <-]. apply list_find_Some in E as (E & _ & _).
    by eapply list_elem_of_lookup_2.
  - destruct (list_find _ _) as [[i x]|] eqn:E.
    + intros [= <-]. apply list_find_Some in E as (E & _ & _). by eapply list_elem_of_lookup_2.
    + destruct (g_Standbys g) as [|x l]; [done |]. intros [= <-]. by left.
Qed.

(** The group a call or decision belongs to, and what it may do there. *)
Definition for_group (groups : gmap string Group) (name : string) (from to : ResourceID) (failback : bool) : Prop :=
  exists g, groups !! name = Some g /\ from ∈ members g /\ (if failback then to = g_Primary g else to ∈ g_Standbys g).

Record fo_inv (s : Sys) : Prop := mkFoInv {
  fi_active n g : fm_groups (s_mgr s) !! n = Some g -> g_Active g ∈ members g;
  fi_calls t c r : s_calls s !! t = Some (c, r) ->
    for_group (fm_groups (s_mgr s)) (cl_Name c) (cl_From c) (cl_To c) (cl_Failback c);
  fi_log d : d ∈ fm_log (s_mgr s) -> for_group (fm_groups (s_mgr s)) (d_Group d) (d_From d) (d_To d) (d_Failback d);
  fi_max : fm_maxHistory (s_mgr s) = DefaultMaxHistory /\ Z.of_nat (length (fm_log (s_mgr s))) <= DefaultMaxHistory }.

(** Changes of a group keep its members. *)
Lemma for_group_upd name f m n from to fb :
  (forall g, g_Primary (f g) = g_Primary g /\ g_Standbys (f g) = g_Standbys g) ->
  for_group (fm_groups m) n from to fb -> for_group (fm_groups (upd_group name f m)) n from to fb.
Proof.
  intros Hf (g & Hg & H1 & H2). simpl. destruct (decide (name = n)) as [->|Hn].
  - exists (f g). rewrite lookup_alter_eq, Hg. unfold members. destruct (Hf g) as [-> ->]. done.
  - exists g. by rewrite lookup_alter_ne.
Qed.

(** A new active resource that is a member. *)
Lemma fo_inv_active name a m reg calls calls' :
  fo_inv (mkSys reg m calls) -> (forall g, fm_groups m !! name = Some g -> a ∈ members g) ->
  (forall t c r, calls' !! t = Some (c, r) -> for_group (fm_groups m) (cl_Name c) (cl_From c) (cl_To c) (cl_Failback c)) ->
  fo_inv (mkSys reg (upd_group name (with_active a) m) calls').
Proof.
  intros [H1 H2 H3 H4] Ha Hc. split; simpl in *.
  - intros n g. destruct (decide (name = n)) as [->|Hn]; [|rewrite lookup_alter_ne by done; apply H1].
    rewrite lookup_alter_eq. intros (g0 & Hg & ->)%fmap_Some. exact (Ha g0 Hg).
  - intros t c r Ht. by eapply (for_group_upd name (with_active a)), Hc.
  - intros d Hd. by apply (for_group_upd name (with_active a)), H3.
  - exact H4.
Qed.

Lemma appendLog_bounded d m :
  fm_maxHistory m = DefaultMaxHistory -> Z.of_nat (length (fm_log m)) <= DefaultMaxHistory ->
  Z.of_nat (length (fm_log (appendLog d m))) <= DefaultMaxHistory /\
  forall x, x ∈ fm_log (appendLog d m) -> x ∈ fm_log m \/ x = d.
Proof.
  intros Hm Hl. unfold appendLog. cbn [fm_log]. rewrite Hm. unfold DefaultMaxHistory in *. case_bool_decide as Hb; split.
  - rewrite length_drop, length_app in *. simpl in *. lia.
  - intros x Hx%subseteq_drop. apply elem_of_app in Hx as [Hx|Hx%list_elem_of_singleton]; auto.
  - lia.
  - intros x Hx. apply elem_of_app in Hx as [Hx|Hx%list_elem_of_singleton]; auto.
Qed.

Lemma fo_inv_step s s' : fo_inv s -> fo_step s s' -> fo_inv s'.
Proof.
  intros Hi Hs. pose proof Hi as [H1 H2 H3 H4]. destruct s as [reg m calls]. simpl in *.
  destruct Hs as [reg'|cfg|t health name reason target m' c Ht He|t name reason m' c Ht He|t c blocks reg' r Ht Ha|t c r now Ht]; simpl in *.
  - by split.
  - unfold RegisterGroup. destruct (_ || _); [done |]. case_bool_decide as Hn; [done |].
    assert (forall n from to fb, for_group (fm_groups m) n from to fb ->
      for_group (<[gc_Name cfg := mkGroup (gc_Name cfg) (parse_Policy (gc_Policy cfg)) (gc_Primary cfg) (gc_Standbys cfg) (gc_Primary cfg) 0]> (fm_groups m)) n from to fb) as Hfg.
    { intros n from to fb (g & Hg & H). exists g. split; [|done]. rewrite lookup_insert_ne; [done |].
      intros E. apply Hn. exists g. by rewrite E. }
    split; simpl; [|by intros; eapply Hfg, H2 | by intros; apply Hfg, H3 | done].
    intros n g. rewrite lookup_insert_Some. intros [[_ <-]|[_ Hg]]; [by left | by apply (H1 n)].
  - unfold failover_enter in He. case_bool_decide; [done |]. destruct (fm_groups m !! name) as [g|] eqn:Eg; [|done].
    destruct (_ && _); [done |]. destruct (pickStandby _ _ _ _) as [e|to] eqn:Ep; simplify_eq.
    apply pickStandby_standby in Ep. eapply fo_inv_active; [exact Hi | |].
    + intros g' Hg'. simplify_eq. by right.
    + intros t' c r. rewrite lookup_insert_Some. intros [[_ [= <- _]]|[_ Hc]]; [|by eapply H2].
      exists g. simpl. split; [done |]. split; [by eapply H1 | done].
  - unfold failback_enter in He. case_bool_decide; [done |]. destruct (fm_groups m !! name) as [g|] eqn:Eg; [|done].
    destruct (ID_Equal _ _); simplify_eq. eapply fo_inv_active; [exact Hi | |].
    + intros g' Hg'. simplify_eq. by left.
    + intros t' c r. rewrite lookup_insert_Some. intros [[_ [= <- _]]|[_ Hc]]; [|by eapply H2].
      exists g. simpl. split; [done |]. split; [by eapply H1 | done].
  - split; simpl; try done. intros t' c' r'. rewrite lookup_insert_Some. intros [[_ [= <- _]]|[_ Hc]]; by eapply H2.
  - pose proof (H2 _ _ _ Ht) as Hc.
    assert (forall t' c' r', delete t calls !! t' = Some (c', r') ->
      for_group (fm_groups m) (cl_Name c') (cl_From c') (cl_To c') (cl_Failback c')) as Hd.
    { intros t' c' r' [_ Hc']%lookup_delete_Some. by eapply H2. }
    destruct r as [e|adv]; simpl.
    + eapply fo_inv_active; [exact Hi | | exact Hd]. intros g Hg. destruct Hc as (g' & Hg' & Hm & _). by simplify_eq.
    + destruct (appendLog_bounded (decision now c adv) (upd_group (cl_Name c) (with_epoch (adv_To adv)) m)) as [Hb Hin]; [apply H4 .. |].
      split; simpl in *.
      * intros n g. destruct (decide (cl_Name c = n)) as [->|Hn]; [|rewrite lookup_alter_ne by done; apply H1].
        rewrite lookup_alter_eq. intros (g0 & Hg & ->)%fmap_Some. exact (H1 _ _ Hg).
      * intros t' c' r' Hc'. by eapply (for_group_upd _ (with_epoch _)), Hd.
      * intros d Hx. apply (for_group_upd _ (with_epoch _)); [done |]. destruct (Hin d Hx) as [Hl| ->]; [by apply H3 | exact Hc].
      * split; [apply H4 | exact Hb].
Qed.

Definition fo_start (reg : Registry) : Sys := mkSys reg NewManager ∅.

Lemma fo_inv_start reg : fo_inv (fo_start reg).
Proof. split; simpl; [by intros n g [=] | by intros t c r [=] | by intros d ?%elem_of_nil | done]. Qed.

(** Failover stays within its groups.  However failovers and failbacks are
    interleaved with each other and with other users of the registry, also when
    they fail halfway and take their change back, the active resource of a group is
    its primary or one of its standbys, every recorded failover went to a standby
    and every failback to the primary, and the history keeps at most 256
    decisions. *)
Theorem failover_within_group reg s :
  steps fo_step (fo_start reg) s ->
  (forall n g, fm_groups (s_mgr s) !! n = Some g -> g_Active g ∈ members g) /\
  (forall d, d ∈ History (s_mgr s) ->
    exists g, fm_groups (s_mgr s) !! d_Group d = Some g /\ d_From d ∈ members g /\
      (if d_Failback d then d_To d = g_Primary g else d_To d ∈ g_Standbys g)) /\
  Z.of_nat (length (History (s_mgr s))) <= DefaultMaxHistory.
Proof.
  intros Hs. assert (fo_inv s) as [H1 H2 H3 [_ H4]].
  { eapply (steps_invariant _ fo_inv); [apply fo_inv_step | exact Hs | apply fo_inv_start]. }
  split; [done |]. by split.
Qed.

(** ** A call that nothing interrupts *)

(** All or nothing: on an error the groups, the history and the epochs are as they
    were; on success the group has the new active resource with the epoch that the
    registry now holds for it, and the decision is the last of the history. *)
Definition all_or_nothing (name : string) (reg : Registry) (m : Manager) (reg' : Registry) (m' : Manager)
  (r : fo_error + Decision_) : Prop :=
  match r with
  | inl _ => fm_groups m' = fm_groups m /\ fm_log m' = fm_log m /\ rg_entries reg' = rg_entries reg
  | inr d =>
    exists g ent, fm_groups m !! name = Some g /\
      fm_groups m' = <[name := g |> with_active (d_To d) |> with_epoch (adv_To (d_EpochAdv d))]> (fm_groups m) /\
      rg_entries reg' !! ID_String (d_To d) = Some ent /\ en_Epoch ent = adv_To (d_EpochAdv d) /\
      d_From d = g_Active g /\ exists log, fm_log m' = log ++ [d]
  end.

Lemma appendLog_last d m : 0 < fm_maxHistory m -> exists log, fm_log (appendLog d m) = log ++ [d].
Proof.
  intros Hm. unfold appendLog. cbn [fm_log]. case_bool_decide as Hb; [|by eexists].
  rewrite drop_app_le; [by eexists |]. rewrite length_app in *. simpl in *. lia.
Qed.

Lemma Advance_result blocks reg id reason reg' r :
  Advance blocks reg id reason = (reg', r) ->
  match r with
  | inl _ => rg_entries reg' = rg_entries reg
  | inr adv => exists ent, rg_entries reg' !! ID_String id = Some ent /\ en_Epoch ent = adv_To adv
  end.
Proof.
  unfold Advance. destruct (rg_closed reg); [by intros [= <- <-] |]. unfold checkMutationLocked.
  destruct (_ && _); [by intros [= <- <-] |]. destruct (rg_entries reg !! ID_String id) as [ent|]; [|by intros [= <- <-]].
  unfold AdvanceEpoch. case_bool_decide; [by intros [= <- <-] |]. destruct (Epoch_Next _) as [next [e|]]; [by intros [= <- <-] |].
  intros [= <- <-]. simpl. rewrite lookup_insert_eq. by eexists.
Qed.

Lemma run_call_atomic now blocks reg m name to c g reg' m' r :
  fm_groups m !! name = Some g -> 0 < fm_maxHistory m ->
  cl_Name c = name -> cl_From c = g_Active g -> cl_To c = to ->
  run_call now blocks reg (upd_group name (with_active to) m, inr c) = (reg', m', r) ->
  all_or_nothing name reg m reg' m' r.
Proof.
  intros Hg Hm Hn Hf Ht. unfold run_call. destruct (call_advance blocks reg c) as [reg1 [e|adv]] eqn:Ea;
    pose proof (Advance_result _ _ _ _ _ _ Ea) as Hadv; simpl in Hadv; simpl; intros [= <- <- <-]; simpl; rewrite Hn.
  - split; [|done]. rewrite Hf. apply map_eq. intros k. destruct (decide (k = name)) as [->|Hk].
    + rewrite !lookup_alter_eq, Hg. by destruct g.
    + by rewrite !lookup_alter_ne.
  - destruct Hadv as (ent & He & Hep). exists g, ent. split; [done |]. split; [|split; [done |]; split; [done |]; split; [done |]].
    + apply map_eq. intros k. destruct (decide (k = name)) as [->|Hk].
      * rewrite !lookup_alter_eq, Hg, lookup_insert_eq, Ht. done.
      * by rewrite !lookup_alter_ne, lookup_insert_ne.
    + by apply appendLog_last.
Qed.

Lemma failover_atomic health now blocks name reason target reg m reg' m' r :
  0 < fm_maxHistory m -> ExecuteFailover health now blocks name reason target reg m = (reg', m', r) ->
  all_or_nothing name reg m reg' m' r.
Proof.
  intros Hm. unfold ExecuteFailover, failover_enter. case_bool_decide; [by intros [= <- <- <-] |].
  destruct (fm_groups m !! name) as [g|] eqn:Eg; [|by intros [= <- <- <-]]. destruct (_ && _); [by intros [= <- <- <-] |].
  destruct (pickStandby _ _ _ _) as [e|to]; [by intros [= <- <- <-] |]. by apply (run_call_atomic _ _ _ _ _ _ _ g).
Qed.

Lemma failback_atomic now blocks name reason reg m reg' m' r :
  0 < fm_maxHistory m -> ExecuteFailback now blocks name reason reg m = (reg', m', r) ->
  all_or_nothing name reg m reg' m' r.
Proof.
  intros Hm. unfold ExecuteFailback, failback_enter. case_bool_decide; [by intros [= <- <- <-] |].
  destruct (fm_groups m !! name) as [g|] eqn:Eg; [|by intros [= <- <- <-]]. destruct (ID_Equal _ _); [by intros [= <- <- <-] |].
  by apply (run_call_atomic _ _ _ _ _ _ _ g).
Qed.

(** ** An execution, and a race *)

Definition fx_id (n : string) : ResourceID := mkID "database" "prod" "pay" n.
Definition fx_resource : Resource := mkResource (fx_id "s2") "database" (mkRCaps false false false false false false false false false).
Definition fx_reg : Registry := (Register ∅ false 1 (NewRegistry 0 false) (Some fx_resource) (mkMeta None None "" "")).1.
Definition fx_m0 : Manager := (RegisterGroup (mkConfig "db" (fx_id "p") [fx_id "s1"; fx_id "s2"] "") NewManager).1.
Definition fx_health : Resource -> HealthStatus := fun _ => HealthHealthy.
Definition fx_e1 := failover_enter fx_health fx_reg "db" "r1" (Some (fx_id "s1")) fx_m0.
Definition fx_e2 := failover_enter fx_health fx_reg "db" "r2" (Some (fx_id "s2")) fx_e1.1.
Definition fx_call (x : Manager * (fo_error + Call)) : Call :=
  match x.2 with inr c => c | inl _ => mkCall "" id_zero id_zero "" false end.
Definition fx_a2 := call_advance false fx_reg (fx_call fx_e2).
Definition fx_f2 := call_finish 5 (fx_call fx_e2) fx_a2.2 fx_e2.1.
Definition fx_a1 := call_advance false fx_a2.1 (fx_call fx_e1).
Definition fx_f1 := call_finish 6 (fx_call fx_e1) fx_a1.2 fx_f2.1.
Definition fx_end : Sys := mkSys fx_a1.1 fx_f1.1 ∅.

Lemma fx_enters : fx_e1.2 = inr (fx_call fx_e1) /\ fx_e2.2 = inr (fx_call fx_e2).
Proof. vm_compute. split; reflexivity. Qed.

(** A failover to [s1], which is not registered, is overtaken by one to [s2]. *)
Lemma fx_steps : steps fo_step (fo_start fx_reg) fx_end.
Proof.
  destruct fx_enters as [E1 E2].
  eapply steps_cons; [apply (fo_register _ (mkConfig "db" (fx_id "p") [fx_id "s1"; fx_id "s2"] "")) |].
  eapply steps_cons; [eapply (fo_failover _ 1 fx_health "db" "r1" (Some (fx_id "s1")) fx_e1.1 (fx_call fx_e1)); [done |];
    rewrite <- E1; by apply surjective_pairing |].
  eapply steps_cons; [eapply (fo_failover _ 2 fx_health "db" "r2" (Some (fx_id "s2")) fx_e2.1 (fx_call fx_e2)); [done |];
    rewrite <- E2; by apply surjective_pairing |].
  eapply steps_cons; [eapply (fo_advance _ 2 (fx_call fx_e2) false fx_a2.1 fx_a2.2); [done |]; by apply surjective_pairing |].
  eapply steps_cons; [eapply (fo_finish _ 2 (fx_call fx_e2) fx_a2.2 5); done |].
  eapply steps_cons; [eapply (fo_advance _ 1 (fx_call fx_e1) false fx_a1.1 fx_a1.2); [done |]; by apply surjective_pairing |].
  eapply steps_cons; [eapply (fo_finish _ 1 (fx_call fx_e1) fx_a1.2 6); done |].
  apply steps_refl.
Qed.

Lemma failover_within_group_witness :
  exists g, fm_groups (s_mgr fx_end) !! "db" = Some g /\ g_Active g ∈ members g.
Proof.
  destruct (fm_groups (s_mgr fx_end) !! "db") as [g|] eqn:E; [|by vm_compute in E]. exists g. split; [done |].
  destruct (failover_within_group fx_reg fx_end fx_steps) as [H _]. by apply (H "db").
Defined.

(** The rollback of a failed failover undoes one that succeeded meanwhile: at the
    end no call is in progress, the last recorded decision made [s2] active, and
    the active resource is the primary, with the epoch of [s2]. *)
Lemma rollback_undoes_success :
  s_calls fx_end = ∅ /\
  (d_To <$> last (History (s_mgr fx_end))) = Some (fx_id "s2") /\
  ((fun g => (g_Active g, g_Epoch g)) <$> fm_groups (s_mgr fx_end) !! "db") = Some (fx_id "p", 1).
Proof. split; [reflexivity |]. vm_compute. split; reflexivity. Qed.

(** With the health-based policy a failover goes to the first standby when none is
    usable, also when that standby is the unhealthy active resource itself. *)
Lemma failover_to_unhealthy health reg g s l :
  g_Standbys g = s :: l -> (forall x, x ∈ s :: l -> usable health reg x = false) ->
  pickStandby health reg g None = inr s.
Proof.
  intros Hs Hu. unfold pickStandby. rewrite Hs.
  assert (list_find (fun x => usable health reg x = true) (s :: l) = None) as ->; [|done].
  apply list_find_None. rewrite Forall_forall. intros x Hx. by rewrite Hu.
Qed.
