(* ===== verification/Playbook.v ===== *)
(** * Recovery playbooks ([recovery/playbook/playbook.go])

    Versioned procedures that are validated, then rehearsed or executed.  The
    functions of the application are called at a moment (a call counter) and may
    answer differently each time. *)

From S2P Require Import Prelude GoStrings ResourceID.
#[local] Open Scope Z_scope.

(** ** Data *)

(** A function of a step, nil when absent, with the text of its error. *)
Abbreviation Func := (option (nat -> option string)).

Record Step := mkStep {
  st_ID : string; st_Title : string; st_Description : string; st_Destructive : bool;
  st_Validate : Func; st_DryRun : Func; st_Execute : Func }.

Record Playbook := mkPlaybook { pb_Name : string; pb_Version : string; pb_Summary : string; pb_Steps : list Step }.

Record Result := mkResult {
  rs_Name : string; rs_Version : string; rs_DryRun : bool; rs_Validated : bool; rs_StepsOK : Z; rs_Failed : string;
  rs_Message : string; rs_At : Time }.

Record Registry := mkRegistry { rg_book : gmap string Playbook; rg_max : Z }.

Inductive perr :=
| ErrNotFound | ErrDuplicate | ErrInvalid | ErrBoundExceeded | ErrValidation (id msg : string) | StepErr (msg : string)
| CtxErr (msg : string).

Definition DefaultMaxPlaybooks : Z := 128.

Definition NewRegistry (max : Z) : Registry :=
  mkRegistry ∅ (if bool_decide (max <= 0) then DefaultMaxPlaybooks else max).

Definition key (name version : string) : string := name +:+ "@" +:+ version.

Definition Register (pb : Playbook) (r : Registry) : Registry * option perr :=
  if bool_decide (pb_Name pb = "") || bool_decide (pb_Version pb = "") || bool_decide (pb_Steps pb = [])
  then (r, Some ErrInvalid)
  else if bool_decide (rg_max r <= Z.of_nat (size (rg_book r))) then (r, Some ErrBoundExceeded)
  else if bool_decide (is_Some (rg_book r !! key (pb_Name pb) (pb_Version pb))) then (r, Some ErrDuplicate)
  else (mkRegistry (<[key (pb_Name pb) (pb_Version pb) := pb]> (rg_book r)) (rg_max r), None).

Definition Get (name version : string) (r : Registry) : perr + Playbook :=
  match rg_book r !! key name version with Some pb => inr pb | None => inl ErrNotFound end.

Definition List_keys (r : Registry) : list string := elements (dom (rg_book r)).

(** ** Running *)

(** A call of one of the functions of the step at an index. *)
Inductive call := CValidate (i : nat) | CDryRun (i : nat) | CExecute (i : nat).

Record RunOptions := mkOptions { ro_DryRun : bool; ro_Confirm : bool }.

Definition failed (id msg : string) (r : Result) : Result :=
  mkResult (rs_Name r) (rs_Version r) (rs_DryRun r) (rs_Validated r) (rs_StepsOK r) id msg (rs_At r).
Definition validated (r : Result) : Result :=
  mkResult (rs_Name r) (rs_Version r) (rs_DryRun r) true (rs_StepsOK r) (rs_Failed r) (rs_Message r) (rs_At r).
Definition message (m : string) (r : Result) : Result :=
  mkResult (rs_Name r) (rs_Version r) (rs_DryRun r) (rs_Validated r) (rs_StepsOK r) (rs_Failed r) m (rs_At r).
Definition step_ok (r : Result) : Result :=
  mkResult (rs_Name r) (rs_Version r) (rs_DryRun r) (rs_Validated r) (i64 (rs_StepsOK r + 1)) (rs_Failed r) (rs_Message r)
    (rs_At r).

(** The validations, from step [i] and moment [k] on: the calls, the moment after
    them, and the step that failed. *)
Fixpoint validate (i k : nat) (steps : list Step) : list call * nat * option (Step * string) :=
  match steps with
  | [] => ([], k, None)
  | st :: steps =>
    match st_Validate st with
    | None => validate (S i) k steps
    | Some f =>
      match f k with
      | Some m => ([CValidate i], S k, Some (st, m))
      | None => let '(l, k, r) := validate (S i) (S k) steps in (CValidate i :: l, k, r)
      end
    end
  end.

(** The function a run calls, and the call. *)
Definition action (dry : bool) (i : nat) (st : Step) : option (call * (nat -> option string)) :=
  if dry then (fun f => (CDryRun i, f)) <$> st_DryRun st else (fun f => (CExecute i, f)) <$> st_Execute st.

(** The steps themselves; [ctx] is asked before each. *)
Fixpoint perform (ctx : nat -> option string) (dry : bool) (i k : nat) (steps : list Step) (res : Result)
  : list call * (Result * option perr) :=
  match steps with
  | [] => ([], (res, None))
  | st :: steps =>
    match ctx k with
    | Some m => ([], (failed (st_ID st) (rs_Message res) res, Some (CtxErr m)))
    | None =>
      match action dry i st with
      | None => perform ctx dry (S i) k steps (step_ok res)
      | Some (c, f) =>
        match f k with
        | Some m => ([c], (failed (st_ID st) m res, Some (StepErr m)))
        | None => let '(l, r) := perform ctx dry (S i) (S k) steps (step_ok res) in (c :: l, r)
        end
      end
    end
  end.

Definition Run (ctx : nat -> option string) (now : Time) (name version : string) (opts : RunOptions) (r : Registry)
  : list call * (Result * option perr) :=
  match Get name version r with
  | inl e => ([], (mkResult "" "" false false 0 "" "" time_zero, Some e))
  | inr pb =>
    let res := mkResult (pb_Name pb) (pb_Version pb) (ro_DryRun opts) false 0 "" "" now in
    match validate 0 0 (pb_Steps pb) with
    | (l, _, Some (st, m)) => (l, (failed (st_ID st) m res, Some (ErrValidation (st_ID st) m)))
    | (l, k, None) =>
      let res := validated res in
      if existsb st_Destructive (pb_Steps pb) && negb (ro_DryRun opts) && negb (ro_Confirm opts)
      then (l, (message "destructive steps require confirm" res, Some ErrInvalid))
      else let '(l', r) := perform ctx (ro_DryRun opts) 0 k (pb_Steps pb) res in (l ++ l', r)
    end
  end.

(** ** What a run calls *)

Definition is_validate (c : call) : bool := match c with CValidate _ => true | _ => false end.

(** The calls of all steps, in order. *)
Fixpoint validations (i : nat) (steps : list Step) : list call :=
  match steps with
  | [] => []
  | st :: steps => (match st_Validate st with Some _ => [CValidate i] | None => [] end) ++ validations (S i) steps
  end.

Fixpoint actions (dry : bool) (i : nat) (steps : list Step) : list call :=
  match steps with
  | [] => []
  | st :: steps => (match action dry i st with Some (c, _) => [c] | None => [] end) ++ actions dry (S i) steps
  end.

Lemma validate_calls i k steps l k' r :
  validate i k steps = (l, k', r) -> l `prefix_of` validations i steps /\ (r = None -> l = validations i steps).
Proof.
  revert i k l k' r. induction steps as [|st steps IH]; intros i k l k' r; simpl; [by intros [= <- <- <-] |].
  destruct (st_Validate st) as [f|]; simpl; [|apply IH]. destruct (f k) as [m|].
  - intros [= <- <- <-]. split; [|done]. apply prefix_cons, prefix_nil.
  - destruct (validate (S i) (S k) steps) as [[l1 k1] r1] eqn:E. intros [= <- <- <-].
    destruct (IH _ _ _ _ _ E) as [H1 H2]. split; [by apply prefix_cons | intros ->; by rewrite H2].
Qed.

Lemma perform_calls ctx dry i k steps res l r e :
  perform ctx dry i k steps res = (l, (r, e)) -> l `prefix_of` actions dry i steps /\ (e = None -> l = actions dry i steps).
Proof.
  revert i k l r res. induction steps as [|st steps IH]; intros i k l r res; simpl; [by intros [= <- <- <-] |].
  destruct (ctx k) as [m|]; [intros [= <- <- <-]; split; [apply prefix_nil | done] |].
  destruct (action dry i st) as [[c f]|]; simpl; [|apply IH]. destruct (f k) as [m|].
  - intros [= <- <- <-]. split; [|done]. apply prefix_cons, prefix_nil.
  - destruct (perform ctx dry (S i) (S k) steps (step_ok res)) as [l1 [r1 e1]] eqn:E. intros [= <- <- <-].
    destruct (IH _ _ _ _ _ E) as [H1 H2]. split; [by apply prefix_cons | intros ->; by rewrite H2].
Qed.

Lemma actions_kind dry i steps c : c ∈ actions dry i steps -> is_validate c = false /\ (dry = true -> forall j, c ≠ CExecute j).
Proof.
  revert i. induction steps as [|st steps IH]; intros i; simpl; [by intros ?%elem_of_nil |].
  rewrite elem_of_app. intros [H|H]; [|by eapply IH]. unfold action in H.
  destruct dry; [destruct (st_DryRun st) | destruct (st_Execute st)]; simpl in H;
    (apply list_elem_of_singleton in H as -> || by apply elem_of_nil in H); by split.
Qed.

(** A playbook acts only after every validation passed.  The calls of a run are
    a beginning of all validations in order followed by the actions in order, so no
    action precedes or skips a validation and nothing follows a failure; a dry run
    executes nothing; a playbook with a destructive step is executed only with
    confirmation; and a run that succeeds has called everything. *)
Theorem playbook_validates_first ctx now name version opts r pb :
  Get name version r = inr pb ->
  let '(l, (res, e)) := Run ctx now name version opts r in
  let all := validations 0 (pb_Steps pb) ++ actions (ro_DryRun opts) 0 (pb_Steps pb) in
  l `prefix_of` all /\ (e = None -> l = all) /\
  (ro_DryRun opts = true -> forall i, CExecute i ∉ l) /\
  (forall i, CExecute i ∈ l -> existsb st_Destructive (pb_Steps pb) = true -> ro_Confirm opts = true).
Proof.
  intros Hg. unfold Run. rewrite Hg.
  assert (forall i, CExecute i ∉ validations 0 (pb_Steps pb)) as Hval.
  { generalize 0%nat. induction (pb_Steps pb) as [|st steps IH]; intros n i; simpl; [apply not_elem_of_nil |].
    rewrite elem_of_app. intros [H|H]; [|by eapply IH]. destruct (st_Validate st); [|by apply elem_of_nil in H].
    by apply list_elem_of_singleton in H. }
  destruct (validate 0 0 (pb_Steps pb)) as [[l k] [[st m]|]] eqn:Ev; destruct (validate_calls _ _ _ _ _ _ Ev) as [Hp Hall].
  { assert (forall i, CExecute i ∉ l) as Hno.
    { intros i Hi. apply (Hval i). destruct Hp as [x ->]. apply elem_of_app. by left. }
    split; [by apply prefix_app_r |]. split; [done |]. split; [done |]. intros i Hi. by destruct (Hno i). }
  rewrite (Hall eq_refl) in *. clear Hp Hall.
  destruct (_ && negb (ro_Confirm opts)) eqn:Ed.
  { split; [by apply prefix_app_r |]. split; [done |]. split; [done |]. intros i Hi. by destruct (Hval i). }
  destruct (perform ctx _ 0 k _ _) as [l' [res e]] eqn:Ep. destruct (perform_calls _ _ _ _ _ _ _ _ _ Ep) as [Hp Hall].
  split; [destruct Hp as [x ->]; exists x; by rewrite app_assoc |]. split; [intros He; by rewrite Hall |].
  assert (forall i, CExecute i ∈ validations 0 (pb_Steps pb) ++ l' -> CExecute i ∈ actions (ro_DryRun opts) 0 (pb_Steps pb)) as Hin.
  { intros i [Hi|Hi]%elem_of_app; [by destruct (Hval i) |]. destruct Hp as [x ->]. apply elem_of_app. by left. }
  split.
  - intros Hdry i Hi%Hin. destruct (actions_kind _ _ _ _ Hi) as [_ H]. by apply (H Hdry i).
  - intros i Hi%Hin Hd. rewrite Hd in Ed. simpl in Ed. destruct (ro_DryRun opts) eqn:Edry; simpl in Ed.
    + destruct (actions_kind _ _ _ _ Hi) as [_ H]. by destruct (H eq_refl i).
    + by destruct (ro_Confirm opts).
Qed.

Definition demo_step (id : string) (destructive : bool) : Step :=
  mkStep id "" "" destructive (Some (fun _ => None)) None (Some (fun _ => None)).
Definition demo_book : Playbook := mkPlaybook "restore" "v1" "" [demo_step "a" false; demo_step "b" true].
Definition demo_registry : Registry := (Register demo_book (NewRegistry 0)).1.

Lemma playbook_validates_first_witness :
  Get "restore" "v1" demo_registry = inr demo_book /\
  (Run (fun _ => None) 1 "restore" "v1" (mkOptions false true) demo_registry).1 =
    [CValidate 0; CValidate 1; CExecute 0; CExecute 1].
Proof.
  assert (Get "restore" "v1" demo_registry = inr demo_book) as Hg by reflexivity. split; [exact Hg |].
  pose proof (playbook_validates_first (fun _ => None) 1 "restore" "v1" (mkOptions false true) demo_registry demo_book Hg) as H.
  destruct (Run _ _ _ _ _ _) as [l [res e]] eqn:E. destruct H as (_ & Hall & _).
  assert (e = None) as He by (vm_compute in E; by injection E). exact (Hall He).
Defined.

(** Two playbooks can have the same key: the version separator may occur in names. *)
Lemma keys_collide : key "db@1" "2" = key "db" "1@2".
Proof. reflexivity. Qed.
