(* ===== verification/Reconcile.v ===== *)
(** * Reconcilers ([reconcile/reconcile.go])

    A reconciler retried with backoff under pause and lockdown.  The functions of
    the application are called at a moment (a call counter) and may answer
    differently each time. *)

From S2P Require Import Prelude GoStrings ResourceID.
#[local] Open Scope Z_scope.

(** ** Data *)

Record DesiredState := mkDesired { ds_Version : Z; ds_Fields : gmap string string }.
Record ActualState := mkActual { as_Fields : gmap string string }.

(** [rc_Reconcile] is [None] for a nil function. *)
Record Reconciler := mkReconciler {
  rc_Name : string; rc_Resource : ResourceID; rc_Reconcile : option (nat -> DesiredState -> ActualState -> option string);
  rc_MaxAttempts : Z; rc_InitialBackoff : Duration; rc_MaxBackoff : Duration }.

(** [rg_lockdown] is the lockdown checker, if one is set; its answer depends on the
    moment. *)
Record Registry := mkRegistry {
  rg_items : gmap string Reconciler; rg_paused : bool; rg_lockdown : option (nat -> bool); rg_runs : Z }.

Inductive rec_err := ErrDuplicate | ErrNotFound | ErrPaused | ErrLockdown | ErrRequired | CtxErr (msg : string) | FuncErr (msg : string).

Definition NewRegistry : Registry := mkRegistry ∅ false None 0.

Definition SetLockdown (c : option (nat -> bool)) (r : Registry) : Registry := mkRegistry (rg_items r) (rg_paused r) c (rg_runs r).
Definition Pause (r : Registry) : Registry := mkRegistry (rg_items r) true (rg_lockdown r) (rg_runs r).
Definition Resume (r : Registry) : Registry := mkRegistry (rg_items r) false (rg_lockdown r) (rg_runs r).
Definition Runs (r : Registry) : Z := rg_runs r.

Definition or_default (z d : Z) : Z := if bool_decide (z <= 0) then d else z.

Definition Register (rec : Reconciler) (r : Registry) : Registry * option rec_err :=
  if bool_decide (rc_Name rec = "") || negb (match rc_Reconcile rec with Some _ => true | None => false end)
  then (r, Some ErrRequired)
  else
    let rec := mkReconciler (rc_Name rec) (rc_Resource rec) (rc_Reconcile rec) (or_default (rc_MaxAttempts rec) 3)
      (or_default (rc_InitialBackoff rec) (10 * Millisecond)) (or_default (rc_MaxBackoff rec) (250 * Millisecond)) in
    if bool_decide (is_Some (rg_items r !! rc_Name rec)) then (r, Some ErrDuplicate)
    else (mkRegistry (<[rc_Name rec := rec]> (rg_items r)) (rg_paused r) (rg_lockdown r) (rg_runs r), None).

(** ** Running *)

(** A call of the reconciler, with the moment and the registry of the check before
    it, and a wait. *)
Inductive event := ECall (k : nat) (seen : Registry) (ok : bool) | EWait (d : Duration).

Definition blocked (k : nat) (r : Registry) : option rec_err :=
  if rg_paused r then Some ErrPaused
  else match rg_lockdown r with
       | Some f => if f k then Some ErrLockdown else None
       | None => None
       end.

Definition count_run (r : Registry) : Registry := mkRegistry (rg_items r) (rg_paused r) (rg_lockdown r) (u64 (rg_runs r + 1)).

Definition next_backoff (rec : Reconciler) (backoff : Duration) : Duration :=
  let b := i64 (backoff * 2) in if bool_decide (rc_MaxBackoff rec < b) then rc_MaxBackoff rec else b.

Section Run.
(** What others do to the registry before a critical section, when the context is
    done, and the error of a context that is done during a wait. *)
Context (others : nat -> Registry -> Registry) (ctx : nat -> option string) (wait : nat -> option string).

(** The attempts that are left. *)
Fixpoint attempts (n k : nat) (rec : Reconciler) (f : nat -> DesiredState -> ActualState -> option string)
  (desired : DesiredState) (actual : ActualState) (backoff : Duration) (last : option rec_err) (r : Registry)
  : list event * Registry * option rec_err :=
  match n with
  | O => ([], r, last)
  | S n =>
    match ctx k with
    | Some m => ([], r, Some (CtxErr m))
    | None =>
      let r := others k r in
      match blocked k r with
      | Some e => ([], r, Some e)
      | None =>
        let seen := r in
        let r := count_run r in
        match f k desired actual with
        | None => ([ECall k seen true], r, None)
        | Some m =>
          if bool_decide (n = 0%nat) then ([ECall k seen false], r, Some (FuncErr m))
          else
            match wait k with
            | Some m => ([ECall k seen false; EWait backoff], r, Some (CtxErr m))
            | None =>
              let '(l, r, e) := attempts n (S k) rec f desired actual (next_backoff rec backoff) (Some (FuncErr m)) r in
              (ECall k seen false :: EWait backoff :: l, r, e)
            end
        end
      end
    end
  end.

Definition Run (name : string) (desired : DesiredState) (actual : ActualState) (r : Registry)
  : list event * Registry * option rec_err :=
  let r := others 0 r in
  match blocked 0 r with
  | Some e => ([], r, Some e)
  | None =>
    match rg_items r !! name with
    | None => ([], r, Some ErrNotFound)
    | Some rec =>
      match rc_Reconcile rec with
      | None => ([], r, Some ErrRequired)
      | Some f => attempts (Z.to_nat (rc_MaxAttempts rec)) 1 rec f desired actual (rc_InitialBackoff rec) None r
      end
    end
  end.

(** ** What a run does *)

Definition is_call (e : event) : bool := match e with ECall _ _ _ => true | EWait _ => false end.

Definition fine (rec : Reconciler) (e : event) : Prop :=
  match e with
  | ECall k seen _ => blocked k seen = None
  | EWait d => d <= Z.max (rc_InitialBackoff rec) (rc_MaxBackoff rec)
  end.

Lemma next_backoff_max rec b : next_backoff rec b <= Z.max (rc_InitialBackoff rec) (rc_MaxBackoff rec).
Proof. unfold next_backoff. case_bool_decide; lia. Qed.

Lemma attempts_fine n k rec f desired actual backoff last r l r' e :
  backoff <= Z.max (rc_InitialBackoff rec) (rc_MaxBackoff rec) ->
  attempts n k rec f desired actual backoff last r = (l, r', e) ->
  Forall (fine rec) l /\ (length (List.filter is_call l) <= n)%nat /\
  (n ≠ 0%nat -> e = None -> exists l0 k0 seen, l = l0 ++ [ECall k0 seen true]).
Proof.
  revert k backoff last r l r' e. induction n as [|n IH]; intros k backoff last r l r' e Hb; cbn [attempts].
  { intros [= <- <- <-]. by split. }
  destruct (ctx k) as [m|]; [intros [= <- <- <-]; split; [done |]; split; [simpl; lia | done] |].
  destruct (blocked k (others k r)) as [e1|] eqn:Eb; [intros [= <- <- <-]; split; [done |]; split; [simpl; lia | done] |].
  destruct (f k desired actual) as [m|].
  2: { intros [= <- <- <-]. split; [by repeat constructor |]. split; [simpl; lia |]. intros _ _. by eexists [], _, _. }
  case_bool_decide as Hn; [intros [= <- <- <-]; split; [by repeat constructor |]; split; [simpl; lia | done] |].
  destruct (wait k) as [m'|]; [intros [= <- <- <-]; split; [by repeat constructor |]; split; [simpl; lia | done] |].
  destruct (attempts n _ _ _ _ _ _ _ _) as [[l1 r1] e1] eqn:E. intros [= <- <- <-].
  destruct (IH _ _ _ _ _ _ _ (next_backoff_max rec backoff) E) as (H1 & H2 & H3).
  split; [by repeat constructor |]. split; [simpl; lia |]. intros _ He. destruct (H3 Hn He) as (l0 & k0 & seen & ->).
  by eexists (_ :: _ :: l0), _, _.
Qed.

(** Reconciliation is bounded and holds still under lockdown.  Whatever other
    goroutines do to the registry meanwhile, a run calls its reconciler at most
    [MaxAttempts] times, each time only when the check just before found neither a
    pause nor a lockdown, waits never longer than the larger of the two backoffs,
    and reports success only when the last call succeeded. *)
Theorem reconcile_bounded name desired actual r rec :
  rg_items (others 0 r) !! name = Some rec -> 0 < rc_MaxAttempts rec ->
  let '(l, _, e) := Run name desired actual r in
  Forall (fine rec) l /\
  Z.of_nat (length (List.filter is_call l)) <= rc_MaxAttempts rec /\
  (e = None -> exists l0 k seen, l = l0 ++ [ECall k seen true]).
Proof.
  intros Hr Hm. unfold Run. destruct (blocked 0 (others 0 r)); [split; [done |]; split; [simpl; lia | done] |].
  rewrite Hr. destruct (rc_Reconcile rec) as [f|]; [|split; [done |]; split; [simpl; lia | done]].
  destruct (attempts _ _ _ _ _ _ _ _ _) as [[l r'] e] eqn:E.
  assert (rc_InitialBackoff rec <= Z.max (rc_InitialBackoff rec) (rc_MaxBackoff rec)) as Hb by lia.
  destruct (attempts_fine _ _ _ _ _ _ _ _ _ _ _ _ Hb E) as (H1 & H2 & H3).
  split; [done |]. split; [lia |]. apply H3. lia.
Qed.
End Run.

Definition demo_rec : Reconciler := mkReconciler "r" id_zero (Some (fun k _ _ => if bool_decide (k < 2)%nat then Some "busy" else None)) 0 0 0.
Definition demo_registry : Registry := (Register demo_rec NewRegistry).1.
Definition demo_run := Run (fun _ r => r) (fun _ => None) (fun _ => None) "r" (mkDesired 1 ∅) (mkActual ∅) demo_registry.

Lemma reconcile_bounded_witness :
  demo_run.2 = None /\ (length (List.filter is_call demo_run.1.1) <= 3)%nat.
Proof.
  split; [reflexivity |].
  pose proof (reconcile_bounded (fun _ r => r) (fun _ => None) (fun _ => None) "r" (mkDesired 1 ∅) (mkActual ∅) demo_registry
    _ (eq_refl : _ = Some (mkReconciler "r" id_zero (rc_Reconcile demo_rec) 3 (10 * Millisecond) (250 * Millisecond)))
    ltac:(done)) as H.
  change (Run _ _ _ _ _ _ _) with demo_run in H. destruct demo_run as [[l r'] e]. destruct H as (_ & H & _). simpl in *. lia.
Defined.
