(* ===== verification/Bundles.v ===== *)
(** * Resource bundles ([resource/bundle.go])

    Readiness of a group of resources, evaluated against the registry.  [health]
    answers [Resource.Health(ctx).Overall]; a mode is the string it is in Go. *)

From S2P Require Import Prelude GoStrings ResourceID Dependency Registry.
#[local] Open Scope Z_scope.

(** ** Data *)

Definition BundleAllRequired := "all-required".
Definition BundleMinimumRequired := "minimum-required".
Definition BundleOptionalDependencies := "optional-dependencies".
Definition BundlePrimaryWithFallbacks := "primary-with-fallbacks".
Definition BundleOrdered := "ordered".

Record Bundle := mkBundle {
  bu_Name : string; bu_Mode : string; bu_IDs : list ResourceID; bu_MinRequired : Z; bu_Primary : ResourceID;
  bu_Fallbacks : list ResourceID }.

Definition NewBundle (name : string) (ids : list ResourceID) : Bundle := mkBundle name BundleAllRequired ids 0 id_zero [].

Definition WithMode (m : string) (b : Bundle) : Bundle :=
  mkBundle (bu_Name b) m (bu_IDs b) (bu_MinRequired b) (bu_Primary b) (bu_Fallbacks b).

Definition WithMinRequired (n : Z) (b : Bundle) : Bundle :=
  mkBundle (bu_Name b) (bu_Mode b) (bu_IDs b) n (bu_Primary b) (bu_Fallbacks b).

Definition WithPrimaryFallbacks (primary : ResourceID) (fallbacks : list ResourceID) (b : Bundle) : Bundle :=
  mkBundle (bu_Name b) BundlePrimaryWithFallbacks (bu_IDs b) (bu_MinRequired b) primary fallbacks.

Record Readiness := mkReadiness {
  rd_Name : string; rd_Ready : bool; rd_Mode : string; rd_ReadyIDs : list string; rd_MissingIDs : list string;
  rd_BlockedIDs : list string; rd_Message : string }.

Definition set_ready (ok : bool) (msg : string) (r : Readiness) : Readiness :=
  mkReadiness (rd_Name r) ok (rd_Mode r) (rd_ReadyIDs r) (rd_MissingIDs r) (rd_BlockedIDs r) msg.

Section Evaluate.
Context (health : Resource -> HealthStatus) (reg : Registry).

(** ** Evaluation *)

Definition classify (id : ResourceID) (rep : Readiness) : Readiness * bool :=
  match Get reg id with
  | inl _ => (mkReadiness (rd_Name rep) (rd_Ready rep) (rd_Mode rep) (rd_ReadyIDs rep) (rd_MissingIDs rep ++ [ID_String id])
                (rd_BlockedIDs rep) (rd_Message rep), false)
  | inr ent =>
    if unavailable (health (en_Resource ent))
    then (mkReadiness (rd_Name rep) (rd_Ready rep) (rd_Mode rep) (rd_ReadyIDs rep) (rd_MissingIDs rep)
            (rd_BlockedIDs rep ++ [ID_String id]) (rd_Message rep), false)
    else (mkReadiness (rd_Name rep) (rd_Ready rep) (rd_Mode rep) (rd_ReadyIDs rep ++ [ID_String id]) (rd_MissingIDs rep)
            (rd_BlockedIDs rep) (rd_Message rep), true)
  end.

(** Every member is classified; the flag tells whether all are ready. *)
Fixpoint classify_all (ids : list ResourceID) (rep : Readiness) : Readiness * bool :=
  match ids with
  | [] => (rep, true)
  | id :: ids =>
    let '(rep, ok) := classify id rep in
    let '(rep, rest) := classify_all ids rep in
    (rep, ok && rest)
  end.

Definition evalAll (b : Bundle) (rep : Readiness) : Readiness :=
  let '(rep, ok) := classify_all (bu_IDs b) rep in
  set_ready (ok && negb (bool_decide (bu_IDs b = [])))
    (if bool_decide (bu_IDs b = []) then "empty bundle" else if negb ok then "not all members ready" else rd_Message rep) rep.

Definition evalMin (b : Bundle) (rep : Readiness) : Readiness :=
  let min := if bool_decide (bu_MinRequired b <= 0) then 1 else bu_MinRequired b in
  let '(rep, _) := classify_all (bu_IDs b) rep in
  let have := Z.of_nat (length (rd_ReadyIDs rep)) in
  if bool_decide (min <= have) then set_ready true (rd_Message rep) rep
  else set_ready false ("need " +:+ fmt_d min +:+ " ready, have " +:+ fmt_d have) rep.

Definition evalOptional (b : Bundle) (rep : Readiness) : Readiness :=
  let '(rep, _) := classify_all (bu_IDs b) rep in set_ready true "optional dependencies evaluated" rep.

(** Stop at the first member that is ready. *)
Fixpoint first_ready (ids : list ResourceID) (rep : Readiness) : Readiness :=
  match ids with
  | [] => set_ready (rd_Ready rep) "primary and fallbacks unavailable" rep
  | id :: ids =>
    match classify id rep with
    | (rep, true) => set_ready true (rd_Message rep) rep
    | (rep, false) => first_ready ids rep
    end
  end.

Definition candidates (b : Bundle) : list ResourceID :=
  match (if ID_IsZero (bu_Primary b) then [] else [bu_Primary b]) ++ bu_Fallbacks b with
  | [] => bu_IDs b
  | ids => ids
  end.

Definition evalPrimary (b : Bundle) (rep : Readiness) : Readiness := first_ready (candidates b) rep.

(** Stop at the first member that is not ready. *)
Fixpoint in_order (ids : list ResourceID) (rep : Readiness) : Readiness :=
  match ids with
  | [] => set_ready true (rd_Message rep) rep
  | id :: ids =>
    match classify id rep with
    | (rep, true) => in_order ids rep
    | (rep, false) => set_ready false ("ordered activation stopped at " +:+ ID_String id) rep
    end
  end.

Definition evalOrdered (b : Bundle) (rep : Readiness) : Readiness :=
  match bu_IDs b with
  | [] => set_ready false "empty ordered bundle" rep
  | ids => in_order ids rep
  end.

(** The message of an unknown mode quotes it as it is. *)
Definition EvaluateReadiness (b : Bundle) : Readiness :=
  let rep := mkReadiness (bu_Name b) false (bu_Mode b) [] [] [] "" in
  let mode := bu_Mode b in
  if bool_decide (mode = "") || bool_decide (mode = BundleAllRequired) then evalAll b rep
  else if bool_decide (mode = BundleMinimumRequired) then evalMin b rep
  else if bool_decide (mode = BundleOptionalDependencies) then evalOptional b rep
  else if bool_decide (mode = BundlePrimaryWithFallbacks) then evalPrimary b rep
  else if bool_decide (mode = BundleOrdered) then evalOrdered b rep
  else set_ready false ("unknown mode " +:+ String.String (Ascii.ascii_of_nat 34) mode +:+ String.String (Ascii.ascii_of_nat 34) "") rep.

(** ** What readiness means *)

(** A member is registered and neither unhealthy nor blocked. *)
Definition member_ready (id : ResourceID) : bool :=
  match Get reg id with inl _ => false | inr ent => negb (unavailable (health (en_Resource ent))) end.

Definition ready_spec (b : Bundle) : bool :=
  let mode := bu_Mode b in
  if bool_decide (mode = "") || bool_decide (mode = BundleAllRequired)
  then forallb member_ready (bu_IDs b) && negb (bool_decide (bu_IDs b = []))
  else if bool_decide (mode = BundleMinimumRequired)
  then bool_decide (Z.max 1 (bu_MinRequired b) <= Z.of_nat (length (List.filter member_ready (bu_IDs b))))
  else if bool_decide (mode = BundleOptionalDependencies) then true
  else if bool_decide (mode = BundlePrimaryWithFallbacks) then existsb member_ready (candidates b)
  else if bool_decide (mode = BundleOrdered)
  then forallb member_ready (bu_IDs b) && negb (bool_decide (bu_IDs b = []))
  else false.

(** How many members a report has sorted into its three lists. *)
Definition listed (r : Readiness) : nat := length (rd_ReadyIDs r) + length (rd_MissingIDs r) + length (rd_BlockedIDs r).

Lemma classify_spec id rep :
  (classify id rep).2 = member_ready id /\
  rd_ReadyIDs (classify id rep).1 = rd_ReadyIDs rep ++ (if member_ready id then [ID_String id] else []) /\
  listed (classify id rep).1 = S (listed rep) /\ rd_Ready (classify id rep).1 = rd_Ready rep.
Proof.
  unfold classify, member_ready, listed. destruct (Get reg id) as [e|ent]; [|destruct (unavailable _)]; simpl;
    rewrite ?length_app, ?app_nil_r; simpl; repeat split; lia.
Qed.

Lemma classify_all_spec ids rep :
  (classify_all ids rep).2 = forallb member_ready ids /\
  rd_ReadyIDs (classify_all ids rep).1 = rd_ReadyIDs rep ++ (ID_String <$> List.filter member_ready ids) /\
  listed (classify_all ids rep).1 = (listed rep + length ids)%nat.
Proof.
  revert rep. induction ids as [|id ids IH]; intros rep; simpl; [rewrite app_nil_r; split; [done |]; split; [done | lia] |].
  destruct (classify_spec id rep) as (H1 & H2 & H3 & _). destruct (classify id rep) as [rep1 ok]. simpl in *.
  destruct (IH rep1) as (I1 & I2 & I3). destruct (classify_all ids rep1) as [rep2 rest]. simpl in *.
  subst. split; [done |]. rewrite I2, H2, I3, H3. split; [|lia].
  destruct (member_ready id); simpl; rewrite <- ?app_assoc; by rewrite ?app_nil_r.
Qed.

Lemma first_ready_spec ids rep : rd_Ready rep = false -> rd_Ready (first_ready ids rep) = existsb member_ready ids.
Proof.
  revert rep. induction ids as [|id ids IH]; intros rep Hr; simpl; [done |].
  destruct (classify_spec id rep) as (H1 & _ & _ & H4). destruct (classify id rep) as [rep1 ok]. simpl in *. subst ok.
  destruct (member_ready id); [done |]. apply IH. congruence.
Qed.

Lemma in_order_spec ids rep : rd_Ready (in_order ids rep) = forallb member_ready ids.
Proof.
  revert rep. induction ids as [|id ids IH]; intros rep; simpl; [done |].
  destruct (classify_spec id rep) as (H1 & _). destruct (classify id rep) as [rep1 ok]. simpl in *. subst ok.
  destruct (member_ready id); [apply IH | done].
Qed.

(** A bundle is ready exactly when its mode asks no more.  All of a non-empty
    list, at least the minimum (one when none is given), anything, the primary or
    a fallback, or a whole non-empty order: the report says ready if and only if
    that many of its members are registered and neither unhealthy nor blocked,
    whatever the order in which they are looked at. *)
Theorem bundle_ready_iff b : rd_Ready (EvaluateReadiness b) = ready_spec b.
Proof.
  unfold EvaluateReadiness, ready_spec. set (rep := mkReadiness _ _ _ _ _ _ _). cbv zeta.
  destruct (bool_decide (bu_Mode b = "") || bool_decide (bu_Mode b = BundleAllRequired)).
  { unfold evalAll. destruct (classify_all_spec (bu_IDs b) rep) as (H & _). destruct (classify_all _ _) as [r ok]. simpl in *. by subst. }
  case_bool_decide.
  { unfold evalMin. destruct (classify_all_spec (bu_IDs b) rep) as (_ & Hr & _). destruct (classify_all _ _) as [r ok]. simpl in *.
    rewrite Hr, length_fmap. destruct (bool_decide_reflect (bu_MinRequired b <= 0));
      [replace (Z.max 1 (bu_MinRequired b)) with 1 by lia | replace (Z.max 1 (bu_MinRequired b)) with (bu_MinRequired b) by lia];
      by case_bool_decide. }
  case_bool_decide; [unfold evalOptional; by destruct (classify_all _ _) |].
  case_bool_decide; [by apply first_ready_spec |].
  case_bool_decide; [|done]. unfold evalOrdered. destruct (bu_IDs b) as [|id ids] eqn:E; [done |].
  rewrite in_order_spec, (bool_decide_eq_false_2 (id :: ids = [])) by done. by rewrite andb_true_r.
Qed.
End Evaluate.
