(* ===== verification/GenCache.v ===== *)
(** * The in-process cache and its generations ([resource/cache/memory/memory.go],
    [resource/cache/generation.go])

    The memory cache, and the flow that builds, verifies, activates and retires a
    generation of it while other callers use the cache. *)

From S2P Require Import Prelude GoStrings ResourceID Dependency Registry.
#[local] Open Scope Z_scope.

(** ** The memory cache *)

Record Resource := mkResource {
  c_data : gmap string string; c_generation : Z; c_building : bool }.

Definition New : Resource := mkResource ∅ 0 false.

Definition Get (key : string) (r : Resource) : option string := c_data r !! key.
Definition Set_ (key value : string) (r : Resource) : Resource :=
  mkResource (<[key := value]> (c_data r)) (c_generation r) (c_building r).
Definition Delete (key : string) (r : Resource) : Resource :=
  mkResource (delete key (c_data r)) (c_generation r) (c_building r).
Definition Len (r : Resource) : Z := Z.of_nat (size (c_data r)).

Inductive cache_err :=
| InProgress | InvalidActivation | BuildFailed (msg : string) | VerifyFailed (msg : string) | EpochFailed (e : rerror)
| RetireFailed (msg : string).

Definition BuildGeneration (r : Resource) : Resource * (cache_err + Z) :=
  if c_building r then (r, inl InProgress)
  else (mkResource (c_data r) (c_generation r) true, inr (u64 (c_generation r + 1))).

Definition ActivateGeneration (gen : Z) (seed : gmap string string) (r : Resource) : Resource * option cache_err :=
  if negb (c_building r) || negb (bool_decide (gen = u64 (c_generation r + 1))) then (r, Some InvalidActivation)
  else (mkResource seed gen false, None).

Definition AbortGeneration (r : Resource) : Resource := mkResource (c_data r) (c_generation r) false.

(** ** [RunGenerationFlow] *)

(** The application's functions at the moment they are called; [fo_Epochs] is the
    registry, when one is given together with a resource. *)
Record FlowOptions := mkFlow {
  fo_ResourceID : ResourceID; fo_Build : Z -> string + gmap string string;
  fo_Verify : option (Z -> gmap string string -> option string); fo_Retire : option (Z -> option string);
  fo_Epochs : bool; fo_DryRun : bool }.

Record FlowResult := mkFlowResult {
  fr_Previous : Z; fr_Reserved : Z; fr_Activated : Z; fr_DryRun : bool; fr_Epoch : EpochAdvance; fr_Retired : bool }.

Definition flow_zero : FlowResult := mkFlowResult 0 0 0 false advance_zero false.

Section Flow.
(** Other users of the cache act between the calls of the flow, and [Advance] of
    the registry answers at its moment. *)
Context (others : nat -> Resource -> Resource) (advance : ResourceID -> string -> rerror + EpochAdvance).

(** After the activation: the epoch and the retirement of the old generation. *)
Definition flow_tail (opts : FlowOptions) (prev : Z) (res : FlowResult) : FlowResult * option cache_err :=
  let retire res :=
    match fo_Retire opts with
    | None => (res, None)
    | Some f =>
      match f prev with
      | Some m => (res, Some (RetireFailed m))
      | None => (mkFlowResult (fr_Previous res) (fr_Reserved res) (fr_Activated res) (fr_DryRun res) (fr_Epoch res) true, None)
      end
    end in
  if fo_Epochs opts && negb (ID_IsZero (fo_ResourceID opts)) then
    match advance (fo_ResourceID opts) "cache-generation-activate" with
    | inl e => (res, Some (EpochFailed e))
    | inr adv =>
      retire (mkFlowResult (fr_Previous res) (fr_Reserved res) (fr_Activated res) (fr_DryRun res) adv (fr_Retired res))
    end
  else retire res.

Definition RunGenerationFlow (opts : FlowOptions) (r : Resource) : Resource * (FlowResult * option cache_err) :=
  let r := others 0 r in
  let prev := c_generation r in
  match BuildGeneration (others 1 r) with
  | (r, inl e) => (r, (flow_zero, Some e))
  | (r, inr gen) =>
    let res := mkFlowResult prev gen 0 (fo_DryRun opts) advance_zero false in
    match fo_Build opts gen with
    | inl m => (AbortGeneration (others 2 r), (res, Some (BuildFailed m)))
    | inr seed =>
      match (match fo_Verify opts with Some f => f gen seed | None => None end) with
      | Some m => (AbortGeneration (others 2 r), (res, Some (VerifyFailed m)))
      | None =>
        if fo_DryRun opts then (AbortGeneration (others 2 r), (res, None))
        else
          match ActivateGeneration gen seed (others 2 r) with
          | (r, Some e) => (AbortGeneration (others 3 r), (res, Some e))
          | (r, None) =>
            let '(res, e) := flow_tail opts prev
              (mkFlowResult prev gen gen (fo_DryRun opts) advance_zero false) in
            (r, (res, e))
          end
      end
    end
  end.
End Flow.

Lemma flow_tail_activated advance opts prev res : fr_Activated (flow_tail advance opts prev res).1 = fr_Activated res.
Proof.
  unfold flow_tail. destruct (_ && _); [destruct (advance _ _) |]; try done; destruct (fo_Retire opts) as [f|]; try done;
    by destruct (f prev).
Qed.

(** A cache rebuild is all or nothing.  When nothing else uses the cache
    meanwhile, a flow either activates the next generation with exactly the data
    it built and verified, or leaves data and generation as they were, and in both
    cases no build is left in progress (unless one was before, which it refuses);
    a dry run never activates. *)
Theorem flow_all_or_nothing advance opts r :
  c_building r = false -> is_u64 (c_generation r + 1) ->
  let '(r', (res, e)) := RunGenerationFlow (fun _ r => r) advance opts r in
  c_building r' = false /\
  ((exists seed, fo_Build opts (c_generation r + 1) = inr seed /\ c_data r' = seed /\
     (forall f, fo_Verify opts = Some f -> f (c_generation r + 1) seed = None) /\
     c_generation r' = c_generation r + 1 /\ fr_Activated res = c_generation r + 1 /\ fo_DryRun opts = false) \/
   c_data r' = c_data r /\ c_generation r' = c_generation r /\ fr_Activated res = 0 /\
   (e = None -> fo_DryRun opts = true)).
Proof.
  intros Hb Hg. unfold RunGenerationFlow, BuildGeneration. rewrite Hb, (u64_small _ Hg).
  destruct (fo_Build opts (c_generation r + 1)) as [m|seed] eqn:Eb; [split; [done |]; by right |].
  destruct (match fo_Verify opts with Some f => _ | None => None end) as [m|] eqn:Ev; [split; [done |]; by right |].
  destruct (fo_DryRun opts) eqn:Ed; [split; [done |]; by right |].
  unfold ActivateGeneration. cbn [c_building c_generation negb orb].
  rewrite (u64_small _ Hg), (bool_decide_eq_true_2 (c_generation r + 1 = c_generation r + 1)) by done. cbn [negb].
  pose proof (flow_tail_activated advance opts (c_generation r)
    (mkFlowResult (c_generation r) (c_generation r + 1) (c_generation r + 1) false advance_zero false)) as Ha.
  destruct (flow_tail _ _ _ _) as [res e]. split; [done |]. left. exists seed. repeat split; [|done].
  intros f Hf. by rewrite Hf in Ev.
Qed.

Definition demo_flow : FlowOptions :=
  mkFlow id_zero (fun _ => inr {["k" := "v"]}) (Some (fun _ _ => None)) None false false.

Lemma flow_all_or_nothing_witness :
  let '(r', (res, e)) := RunGenerationFlow (fun _ r => r) (fun _ _ => inr advance_zero) demo_flow New in
  c_building r' = false /\ c_generation r' = 1 /\ e = None.
Proof.
  pose proof (flow_all_or_nothing (fun _ _ => inr advance_zero) demo_flow New eq_refl ltac:(by vm_compute)) as H.
  destruct (RunGenerationFlow _ _ _ _) as [r' [res e]] eqn:E. destruct H as [H _]. split; [exact H |].
  vm_compute in E. by injection E as <- <- <-.
Defined.

(** A flow whose activation is refused aborts whatever build is in progress, also
    one that another flow has begun. *)
Lemma abort_hits_other_flow :
  let others := fun k r => if bool_decide (k = 2%nat) then (ActivateGeneration 1 ∅ r).1
                           else if bool_decide (k = 3%nat) then (BuildGeneration r).1 else r in
  let '(r', (_, e)) := RunGenerationFlow others (fun _ _ => inr advance_zero) demo_flow New in
  e = Some InvalidActivation /\ c_building r' = false.
Proof. vm_compute. split; reflexivity. Qed.
