(* ===== verification/Adapters.v ===== *)
(** * The in-process queue and the resource adapters

    The queue ([resource/queue/queue.go], type [Memory]) with its histories, then the
    adapters that present databases, caches and queues as resources. *)

From S2P Require Import Prelude GoStrings.
#[local] Open Scope Z_scope.

Record Memory := mkMemory { q_msgs : list string; q_paused : bool; q_maxMsgs : Z }.

Definition NewMemory (maxMsgs : Z) : Memory := mkMemory [] false (if bool_decide (maxMsgs <= 0) then 1024 else maxMsgs).

Inductive queue_err := QPaused | QFull.

Definition Pause (m : Memory) : Memory := mkMemory (q_msgs m) true (q_maxMsgs m).
Definition Resume (m : Memory) : Memory := mkMemory (q_msgs m) false (q_maxMsgs m).
Definition Depth (m : Memory) : Z := Z.of_nat (length (q_msgs m)).
Definition Paused (m : Memory) : bool := q_paused m.

Definition Publish (msg : string) (m : Memory) : Memory * option queue_err :=
  if q_paused m then (m, Some QPaused)
  else if bool_decide (q_maxMsgs m <= Z.of_nat (length (q_msgs m))) then (m, Some QFull)
  else (mkMemory (q_msgs m ++ [msg]) (q_paused m) (q_maxMsgs m), None).

Definition Consume (m : Memory) : Memory * option string :=
  match q_msgs m with
  | msg :: msgs => if q_paused m then (m, None) else (mkMemory msgs (q_paused m) (q_maxMsgs m), Some msg)
  | [] => (m, None)
  end.

(** ** Histories *)

Inductive op := OPublish (msg : string) | OConsume | OPause | OResume.

(** What an operation put in and took out. *)
Definition do_op (o : op) (m : Memory) : Memory * list string * list string :=
  match o with
  | OPublish msg => match Publish msg m with (m, None) => (m, [msg], []) | (m, Some _) => (m, [], []) end
  | OConsume => match Consume m with (m, Some msg) => (m, [], [msg]) | (m, None) => (m, [], []) end
  | OPause => (Pause m, [], [])
  | OResume => (Resume m, [], [])
  end.

Fixpoint run (ops : list op) (m : Memory) : Memory * list string * list string :=
  match ops with
  | [] => (m, [], [])
  | o :: ops =>
    let '(m, i1, o1) := do_op o m in
    let '(m, i2, o2) := run ops m in
    (m, i1 ++ i2, o1 ++ o2)
  end.

Lemma do_op_spec o m :
  let '(m', i, out) := do_op o m in q_msgs m ++ i = out ++ q_msgs m' /\ q_maxMsgs m' = q_maxMsgs m /\
    (Depth m <= q_maxMsgs m -> Depth m' <= q_maxMsgs m) /\ (q_paused m = true -> i = [] /\ out = []).
Proof.
  destruct o as [msg| | |]; simpl; unfold Depth.
  - unfold Publish. destruct (q_paused m); [by rewrite app_nil_r |]. case_bool_decide; [by rewrite app_nil_r |]. simpl.
    split; [done |]. split; [done |]. split; [|done]. rewrite length_app. simpl. lia.
  - unfold Consume. destruct (q_msgs m) as [|x l] eqn:E; [by rewrite E |]. destruct (q_paused m); simpl.
    + by rewrite E, app_nil_r.
    + rewrite app_nil_r. split; [done |]. split; [done |]. split; [lia | done].
  - by rewrite app_nil_r.
  - rewrite app_nil_r. split; [done |]. split; [done |]. split; [done |]. done.
Qed.

(** The memory queue is a bounded first-in first-out queue.  In any history the
    messages consumed, followed by those still queued, are the messages that were
    accepted, in the order they were accepted, and there are never more queued than
    the bound. *)
Theorem queue_fifo ops max :
  let '(m, accepted, consumed) := run ops (NewMemory max) in
  accepted = consumed ++ q_msgs m /\ Depth m <= q_maxMsgs (NewMemory max).
Proof.
  assert (forall m, Depth m <= q_maxMsgs m ->
    let '(m', i, out) := run ops m in q_msgs m ++ i = out ++ q_msgs m' /\ Depth m' <= q_maxMsgs m) as Hgen.
  { induction ops as [|o ops IH]; intros m Hd; simpl; [by rewrite app_nil_r |].
    pose proof (do_op_spec o m) as H. destruct (do_op o m) as [[m1 i1] o1]. destruct H as (H1 & H2 & H3 & _).
    rewrite <- H2 in H3. specialize (IH m1 (H3 ltac:(lia))). destruct (run ops m1) as [[m2 i2] o2]. destruct IH as [I1 I2].
    split; [|lia]. by rewrite app_assoc, H1, <- app_assoc, I1, app_assoc. }
  specialize (Hgen (NewMemory max)). destruct (run ops (NewMemory max)) as [[m i] out]. simpl in *.
  apply Hgen. unfold NewMemory, Depth. simpl. case_bool_decide; lia.
Qed.

(** ** Resource adapters ([resource/database/postgres/postgres.go],
    [resource/cache/redis/redis.go], [resource/queue/queue.go],
    [resource/cache/memory/memory.go])

    Thin adapters around a client that is injected.  The client is an interface: its
    answers are arguments, or the operations of a type class where the adapter changes
    its state. *)

From S2P Require Import Types ResourceID Registry ResourceView Filesystem RateLimiter HttpService GenCache.

#[local] Open Scope Z_scope.

(** ** Shared by the adapters *)

Definition KindDatabase : string := "database".
Definition KindQueue : string := "queue".
Definition KindCache : string := "cache".

Inductive adapter_err :=
| ANoClient | AKind | AInvalidID (e : rerror) | ADraining | ANoSchema | ANoFencer (e : rerror) | AClient (msg : string).

(** The identity an adapter of this kind accepts. *)
Definition checked_id (kind : string) (id : ResourceID) : adapter_err + ResourceID :=
  let id := with_kind kind id in
  if negb (bool_decide (id_Kind id = kind)) then inl AKind
  else match ID_Validate id with Some e => inl (AInvalidID e) | None => inr id end.

Definition describe (display summary adapter : string) (id : ResourceID) : Description :=
  mkDescription (if bool_decide (display = "") then id_Name id else display) summary (Some {["adapter" := adapter]}) "".

(** [string(h.Overall)]. *)
Definition status_text (s : HealthStatus) : string :=
  match s with
  | HealthUnknown => "unknown" | HealthHealthy => "healthy" | HealthDegraded => "degraded"
  | HealthUnhealthy => "unhealthy" | HealthBlocked => "blocked" | HealthOther t => t
  end.

Definition boolStr (v : bool) : string := if v then "true" else "false".

(** A report over these dimensions. *)
Definition report_of (now : Time) (msg : string) (order : list (string * DimensionHealth)) (dims : gmap string DimensionHealth) : ResourceHealth :=
  set_Message msg (ComputeOverall order (mkHealth (HealthOther "") now "" dims)).

(** ** The database adapter *)

Record DBConfig := mkDBConfig {
  dc_ID : ResourceID; dc_DB : bool; dc_DisplayName : string; dc_Schema : bool; dc_Fencer : bool; dc_Drainer : bool;
  dc_PingTimeout : Duration }.

Record DBResource := mkDB { db_cfg : DBConfig; db_drained : bool }.

Definition db_New (cfg : DBConfig) : adapter_err + DBResource :=
  if negb (dc_DB cfg) then inl ANoClient
  else match checked_id KindDatabase (dc_ID cfg) with
       | inl e => inl e
       | inr id =>
         inr (mkDB (mkDBConfig id true (dc_DisplayName cfg) (dc_Schema cfg) (dc_Fencer cfg) (dc_Drainer cfg)
           (or_default (bool_decide (dc_PingTimeout cfg <= 0)) (3 * Second) (dc_PingTimeout cfg))) false)
       end.

Definition db_Describe (r : DBResource) : Description :=
  describe (dc_DisplayName (db_cfg r)) "PostgreSQL database resource (stdlib sql / injected pinger)" "postgres" (dc_ID (db_cfg r)).

Definition db_Capabilities (r : DBResource) : ResourceCapabilities :=
  mkRCaps false (dc_Fencer (db_cfg r)) true true false true true false false.

(** [ping] and [schema] are what the client answers now, [lat] the text of the time the
    ping took. *)
Definition db_dimensions (ping : option string) (lat : string) (schema : string + string) (r : DBResource) : gmap string DimensionHealth :=
  if db_drained r
  then <["connectivity" := mkDimension HealthHealthy ""]> {["availability" := mkDimension HealthBlocked "draining"]}
  else match ping with
  | Some err => <["availability" := mkDimension HealthUnhealthy ""]> {["connectivity" := mkDimension HealthUnhealthy err]}
  | None =>
    let dims := <["latency" := mkDimension HealthHealthy lat]>
      (<["availability" := mkDimension HealthHealthy ""]> {["connectivity" := mkDimension HealthHealthy ""]}) in
    if dc_Schema (db_cfg r)
    then match schema with
         | inl err => <["configuration" := mkDimension HealthDegraded err]> dims
         | inr ver => <["configuration" := mkDimension HealthHealthy ("schema=" +:+ ver)]> dims
         end
    else dims
  end.

Definition db_message (ping : option string) (r : DBResource) : string :=
  if db_drained r then "draining" else match ping with Some _ => "ping failed" | None => "ok" end.

Definition db_Health (now : Time) order ping lat schema (r : DBResource) : ResourceHealth :=
  report_of now (db_message ping r) order (db_dimensions ping lat schema r).

Definition db_SchemaVersion (schema : string + string) (r : DBResource) : adapter_err + string :=
  if negb (dc_Schema (db_cfg r)) then inl ANoSchema
  else match schema with inl m => inl (AClient m) | inr v => inr v end.

(** [drain] is the answer of the [Drainer]. *)
Definition db_Drain (drain : option string) (r : DBResource) : DBResource * option adapter_err :=
  (mkDB (db_cfg r) true, if dc_Drainer (db_cfg r) then AClient <$> drain else None).

Definition db_Ready (ready ping : option string) (r : DBResource) : option adapter_err :=
  if db_drained r then Some ADraining
  else if dc_Drainer (db_cfg r) then AClient <$> ready
  else AClient <$> ping.

Definition db_CheckFence (check : Z -> option string) (token : Z) (r : DBResource) : option adapter_err :=
  if negb (dc_Fencer (db_cfg r)) then Some (ANoFencer (RError "CheckFence" (dc_ID (db_cfg r)) (RSentinel ErrCapabilityClaimed)))
  else AClient <$> check token.

Definition db_Snapshot (h : ResourceHealth) (schema : string + string) (r : DBResource) : gmap string string :=
  let out := <["health" := status_text (rh_Overall h)]> (<["drained" := boolStr (db_drained r)]> {["adapter" := "postgres"]}) in
  match dc_Schema (db_cfg r), schema with true, inr ver => <["schema_version" := ver]> out | _, _ => out end.

(** ** The cache adapter and its generations *)

(** [GenerationController]. *)
Class GenController (G : Type) := {
  gc_Current : G -> string + Z;
  gc_Reserve : G -> G * (string + Z);
  gc_Activate : Z -> G -> G * option string;
  gc_Abort : Z -> G -> G * option string }.

Record LocalGenerations := mkLocalGen { lg_current : Z; lg_reserved : Z }.

Definition NewLocalGenerations : LocalGenerations := mkLocalGen 0 0.

Definition lg_Current (g : LocalGenerations) : string + Z := inr (lg_current g).

Definition lg_Reserve (g : LocalGenerations) : LocalGenerations * (string + Z) :=
  if negb (bool_decide (lg_reserved g = 0)) then (g, inl "redis: generation already reserved")
  else let n := u64 (lg_current g + 1) in (mkLocalGen (lg_current g) n, inr n).

Definition lg_Activate (gen : Z) (g : LocalGenerations) : LocalGenerations * option string :=
  if bool_decide (lg_reserved g = 0) || negb (bool_decide (gen = lg_reserved g)) then (g, Some "redis: invalid generation activate")
  else (mkLocalGen gen 0, None).

Definition lg_Abort (gen : Z) (g : LocalGenerations) : LocalGenerations * option string :=
  if bool_decide (lg_reserved g = 0) || negb (bool_decide (gen = lg_reserved g)) then (g, Some "redis: invalid generation abort")
  else (mkLocalGen (lg_current g) 0, None).

#[global] Instance local_controller : GenController LocalGenerations :=
  {| gc_Current := lg_Current; gc_Reserve := lg_Reserve; gc_Activate := lg_Activate; gc_Abort := lg_Abort |}.

(** The generations are the ones of the configuration, or local ones. *)
Record RCConfig := mkRCConfig { rc_ID : ResourceID; rc_DisplayName : string; rc_Client : bool; rc_PingTimeout : Duration }.

Definition rc_New (cfg : RCConfig) : adapter_err + RCConfig :=
  if negb (rc_Client cfg) then inl ANoClient
  else match checked_id KindCache (rc_ID cfg) with
       | inl e => inl e
       | inr id => inr (mkRCConfig id (rc_DisplayName cfg) true (or_default (bool_decide (rc_PingTimeout cfg <= 0)) (2 * Second) (rc_PingTimeout cfg)))
       end.

Definition rc_Describe (r : RCConfig) : Description :=
  describe (rc_DisplayName r) "Redis cache resource (injected client; local OK for tests)" "redis" (rc_ID r).

Definition rc_Capabilities : ResourceCapabilities := mkRCaps false false false true false false true true false.

Definition formatUint (n : Z) : string := default "" (uitoa n).

Definition rc_dimensions (ping : option string) (current : string + Z) : gmap string DimensionHealth :=
  match ping with
  | Some err => <["availability" := mkDimension HealthUnhealthy ""]> {["connectivity" := mkDimension HealthUnhealthy err]}
  | None =>
    let dims := <["availability" := mkDimension HealthHealthy ""]> {["connectivity" := mkDimension HealthHealthy ""]} in
    match current with inr gen => <["consistency" := mkDimension HealthHealthy (formatUint gen)]> dims | inl _ => dims end
  end.

Definition rc_Health (now : Time) order (ping : option string) (current : string + Z) : ResourceHealth :=
  report_of now (match ping with Some _ => "ping failed" | None => "ok" end) order (rc_dimensions ping current).

Definition rc_Snapshot (h : ResourceHealth) (current : string + Z) : gmap string string :=
  let out := match current with inr gen => <["generation" := formatUint gen]> {["adapter" := "redis"]} | inl _ => {["adapter" := "redis"]} end in
  <["health" := status_text (rh_Overall h)]> out.

(** The local stand-in of a client. *)
Record Local := mkLocal { lo_down : bool; lo_kv : gmap string string }.
Definition NewLocal : Local := mkLocal false ∅.
Definition lo_Ping (l : Local) : option string := if lo_down l then Some "redis local: down" else None.
Definition lo_SetDown (v : bool) (l : Local) : Local := mkLocal v (lo_kv l).
Definition lo_Set (k v : string) (l : Local) : Local := mkLocal (lo_down l) (<[k := v]> (lo_kv l)).
Definition lo_Get (k : string) (l : Local) : option string := lo_kv l !! k.

(** ** The queue adapter *)

(** [Backend]; [qb_memory] is the type assertion to the in-process queue. *)
Class QueueBackend (B : Type) := {
  qb_Ping : B -> option string;
  qb_Pause : B -> B * option string;
  qb_Resume : B -> B * option string;
  qb_Depth : B -> string + Z;
  qb_memory : B -> option Memory }.

#[global] Instance memory_backend : QueueBackend Memory :=
  {| qb_Ping := fun _ => None; qb_Pause := fun m => (Pause m, None); qb_Resume := fun m => (Resume m, None);
     qb_Depth := fun m => inr (Depth m); qb_memory := fun m => Some m |}.

Record QConfig := mkQConfig { qc_ID : ResourceID; qc_DisplayName : string; qc_Backend : bool; qc_MaxDepth : Z }.

Definition qa_New (cfg : QConfig) : adapter_err + QConfig :=
  if negb (qc_Backend cfg) then inl ANoClient
  else match checked_id KindQueue (qc_ID cfg) with
       | inl e => inl e
       | inr id => inr (mkQConfig id (qc_DisplayName cfg) true (or_default (bool_decide (qc_MaxDepth cfg <= 0)) 10000 (qc_MaxDepth cfg)))
       end.

Definition qa_Describe (r : QConfig) : Description :=
  describe (qc_DisplayName r) "Queue resource (application-level pause/drain coordination)" "queue" (qc_ID r).

Definition qa_Capabilities : ResourceCapabilities := mkRCaps false false true true false false true true false.

Section Queue.
Context {B : Type} `{QueueBackend B}.

Definition qa_Pause (b : B) : B * option string := qb_Pause b.
Definition qa_Resume (b : B) : B * option string := qb_Resume b.

(** The three calls of [Health] meet the backend at three moments. *)
Definition qa_capacity (b : B) (r : QConfig) : DimensionHealth :=
  match qb_Depth b with
  | inl err => mkDimension HealthUnknown err
  | inr depth => if bool_decide (qc_MaxDepth r < depth) then mkDimension HealthDegraded "backlog above threshold" else mkDimension HealthHealthy ""
  end.

Definition qa_availability (b : B) : DimensionHealth :=
  match qb_memory b with
  | Some m => if Paused m then mkDimension HealthBlocked "paused" else mkDimension HealthHealthy ""
  | None => mkDimension HealthHealthy ""
  end.

Definition qa_Health (now : Time) order (b0 b1 b2 : B) (r : QConfig) : ResourceHealth :=
  match qb_Ping b0 with
  | Some err => report_of now "" order {["connectivity" := mkDimension HealthUnhealthy err]}
  | None => report_of now "ok" order (<["availability" := qa_availability b2]> (<["capacity" := qa_capacity b1 r]> {["connectivity" := mkDimension HealthHealthy ""]}))
  end.

Definition qa_Snapshot (b : B) (h : ResourceHealth) : gmap string string :=
  let out := match qb_Depth b with inr d => <["depth" := default "" (itoa64 d)]> {["adapter" := "queue"]} | inl _ => {["adapter" := "queue"]} end in
  <["health" := status_text (rh_Overall h)]> out.

End Queue.

(** ** The adapter of the in-process cache *)

Definition mc_New (id : ResourceID) (display : string) : adapter_err + (ResourceID * string * GenCache.Resource) :=
  match checked_id KindCache id with inl e => inl e | inr id => inr (id, display, GenCache.New) end.

Definition mc_Describe (display : string) (id : ResourceID) : Description := describe display "In-process cache resource" "memory" id.

Definition mc_Capabilities : ResourceCapabilities := rc_Capabilities.

(** [itoa(int(g))]: the conversion wraps around. *)
Definition formatGen (g : Z) : string := "gen=" +:+ default "" (itoa64 (i64 g)).

Definition mc_Health (now : Time) (r : GenCache.Resource) : ResourceHealth :=
  let '(status, msg) := if c_building r then (HealthDegraded, "building generation") else (HealthHealthy, "ok") in
  mkHealth status now msg (<["consistency" := mkDimension status (formatGen (c_generation r))]> {["availability" := mkDimension status ""]}).

Definition mc_Snapshot (r : GenCache.Resource) : gmap string string :=
  <["building" := boolStr (c_building r)]> (<["entries" := default "" (itoa64 (GenCache.Len r))]>
    (<["generation" := formatGen (c_generation r)]> {["adapter" := "memory"]})).

(** ** What an adapter accepts and reports *)

(** An adapter is built on a valid identity of its own kind, or not at all. *)
Lemma checked_id_ok kind id id' : checked_id kind id = inr id' -> id_Kind id' = kind /\ ID_Validate id' = None /\ id' = with_kind kind id.
Proof.
  unfold checked_id. destruct (bool_decide_reflect (id_Kind (with_kind kind id) = kind)) as [Hk|]; cbn [negb]; [|done].
  destruct (ID_Validate (with_kind kind id)) eqn:E; [done |]. by intros [= <-].
Qed.

(** The overall status over dimensions given one by one. *)
Lemma overall_of now msg order (l : list (string * DimensionHealth)) :
  l ≠ [] -> NoDup l.*1 -> Forall (fun d => standard (dh_Status d.2)) l -> ranges order (list_to_map l : gmap string _) ->
  rh_Overall (report_of now msg order (list_to_map l)) = foldl (fun worst d => worseHealth worst (dh_Status d.2)) HealthHealthy l.
Proof.
  intros Hne Hnd Hst Hr. unfold report_of, set_Message. cbn [rh_Overall].
  set (h := mkHealth (HealthOther "") now "" (list_to_map l)).
  assert (rh_Dimensions h ≠ ∅) as Hd by (by destruct l as [|[k d] l]; [|cbn; apply insert_non_empty]).
  destruct (overall_is_worst order h Hd Hr) as (_ & _ & Hsame). cbn zeta in Hsame.
  rewrite <- (Hsame l).
  - unfold ComputeOverall. by rewrite bool_decide_false by (by rewrite map_size_empty_iff).
  - unfold ranges. symmetry. by apply map_to_list_to_map.
  - intros k d Hk. apply elem_of_list_to_map in Hk; [|done]. rewrite Forall_forall in Hst. by apply (Hst (k, d)).
Qed.

Ltac overall_at l :=
  rewrite (overall_of _ _ _ l); [by cbn | done | cbn; by apply (bool_decide_unpack _) | by repeat constructor | done].

(** The overall status of the database: blocked while it drains, unhealthy when the
    ping fails, degraded when only the schema cannot be read. *)
Theorem db_health_exact now order ping lat schema r :
  ranges order (db_dimensions ping lat schema r) ->
  rh_Overall (db_Health now order ping lat schema r) =
    if db_drained r then HealthBlocked
    else match ping with
         | Some _ => HealthUnhealthy
         | None => match dc_Schema (db_cfg r), schema with true, inl _ => HealthDegraded | _, _ => HealthHealthy end
         end.
Proof.
  unfold db_Health, db_message, db_dimensions. intros Hr. destruct (db_drained r).
  - overall_at [("connectivity", mkDimension HealthHealthy ""); ("availability", mkDimension HealthBlocked "draining")].
  - destruct ping as [e|]; [overall_at [("availability", mkDimension HealthUnhealthy ""); ("connectivity", mkDimension HealthUnhealthy e)] |].
    destruct (dc_Schema (db_cfg r)); [|overall_at [("latency", mkDimension HealthHealthy lat); ("availability", mkDimension HealthHealthy ""); ("connectivity", mkDimension HealthHealthy "")]].
    destruct schema as [e|v].
    + overall_at [("configuration", mkDimension HealthDegraded e); ("latency", mkDimension HealthHealthy lat); ("availability", mkDimension HealthHealthy ""); ("connectivity", mkDimension HealthHealthy "")].
    + overall_at [("configuration", mkDimension HealthHealthy ("schema=" +:+ v)); ("latency", mkDimension HealthHealthy lat); ("availability", mkDimension HealthHealthy ""); ("connectivity", mkDimension HealthHealthy "")].
Qed.

Theorem rc_health_exact now order ping current :
  ranges order (rc_dimensions ping current) ->
  rh_Overall (rc_Health now order ping current) = match ping with Some _ => HealthUnhealthy | None => HealthHealthy end.
Proof.
  unfold rc_Health, rc_dimensions. intros Hr. destruct ping as [e|].
  - overall_at [("availability", mkDimension HealthUnhealthy ""); ("connectivity", mkDimension HealthUnhealthy e)].
  - destruct current as [e|g].
    + overall_at [("availability", mkDimension HealthHealthy ""); ("connectivity", mkDimension HealthHealthy "")].
    + overall_at [("consistency", mkDimension HealthHealthy (formatUint g)); ("availability", mkDimension HealthHealthy ""); ("connectivity", mkDimension HealthHealthy "")].
Qed.

(** The in-process queue behind the adapter: blocked when paused, else degraded above
    the threshold. *)
Theorem qa_health_exact now order (m : Memory) r :
  ranges order (<["availability" := qa_availability m]> (<["capacity" := qa_capacity m r]> {["connectivity" := mkDimension HealthHealthy ""]})) ->
  rh_Overall (qa_Health now order m m m r) =
    if Paused m then HealthBlocked
    else if bool_decide (qc_MaxDepth r < Depth m) then HealthDegraded else HealthHealthy.
Proof.
  intros Hr. unfold qa_Health. cbn [qb_Ping memory_backend]. revert Hr. unfold qa_availability, qa_capacity. cbn [qb_memory qb_Depth memory_backend].
  destruct (Paused m), (bool_decide (qc_MaxDepth r < Depth m)); intros Hr.
  - overall_at [("availability", mkDimension HealthBlocked "paused"); ("capacity", mkDimension HealthDegraded "backlog above threshold"); ("connectivity", mkDimension HealthHealthy "")].
  - overall_at [("availability", mkDimension HealthBlocked "paused"); ("capacity", mkDimension HealthHealthy ""); ("connectivity", mkDimension HealthHealthy "")].
  - overall_at [("availability", mkDimension HealthHealthy ""); ("capacity", mkDimension HealthDegraded "backlog above threshold"); ("connectivity", mkDimension HealthHealthy "")].
  - overall_at [("availability", mkDimension HealthHealthy ""); ("capacity", mkDimension HealthHealthy ""); ("connectivity", mkDimension HealthHealthy "")].
Qed.

(** A drained database refuses work for good, whatever its clients answer: no operation
    undoes a drain. *)
Inductive db_step : DBResource -> DBResource -> Prop :=
| db_drain a r : db_step r (db_Drain a r).1.

Theorem drained_stays a r r' ready ping : steps db_step (db_Drain a r).1 r' -> db_Ready ready ping r' = Some ADraining.
Proof.
  intros Hs. enough (db_drained r' = true) as H by (unfold db_Ready; by rewrite H).
  eapply (steps_invariant db_step (fun r => db_drained r = true)); [|exact Hs | done]. by intros x y _ [].
Qed.

(** Fencing is advertised exactly when tokens are checked: without a fencer every token is refused. *)
Theorem fencing_honest r token :
  SupportsFencing (db_Capabilities r) = true <-> exists check, db_CheckFence check token r = None.
Proof.
  unfold db_CheckFence. cbn. destruct (dc_Fencer (db_cfg r)); cbn [negb]; split; try done.
  - intros _. by exists (fun _ => None).
  - by intros [? ?].
Qed.

(** ** Generations *)

(** What a controller of generations promises: at most one is reserved, it is the next
    one, only it can be activated or given up, and only an activation changes the
    current one. *)
Record gen_spec := mkGenSpec { gs_current : Z; gs_reserved : bool }.

Inductive gen_op := GReserve | GActivate (gen : Z) | GAbort (gen : Z).

(** The next state and the generation granted, activated or given up. *)
Definition spec_op (o : gen_op) (s : gen_spec) : gen_spec * option Z :=
  let next := gs_current s + 1 in
  match o with
  | GReserve => if gs_reserved s then (s, None) else (mkGenSpec (gs_current s) true, Some next)
  | GActivate g => if gs_reserved s && bool_decide (g = next) then (mkGenSpec next false, Some next) else (s, None)
  | GAbort g => if gs_reserved s && bool_decide (g = next) then (mkGenSpec (gs_current s) false, Some next) else (s, None)
  end.

Definition ctrl_op {G} `{GenController G} (o : gen_op) (g : G) : G * option Z :=
  match o with
  | GReserve => let '(g', r) := gc_Reserve g in (g', match r with inr n => Some n | inl _ => None end)
  | GActivate n => let '(g', e) := gc_Activate n g in (g', match e with None => Some n | Some _ => None end)
  | GAbort n => let '(g', e) := gc_Abort n g in (g', match e with None => Some n | Some _ => None end)
  end.

Fixpoint run_ops {A} (step : gen_op -> A -> A * option Z) (os : list gen_op) (a : A) : A * list (option Z) :=
  match os with
  | [] => (a, [])
  | o :: os => let '(a, r) := step o a in let '(a, rs) := run_ops step os a in (a, r :: rs)
  end.

Definition gen_rel (g : LocalGenerations) (s : gen_spec) : Prop :=
  lg_current g = gs_current s /\ lg_reserved g = (if gs_reserved s then gs_current s + 1 else 0) /\ 0 <= gs_current s.

Lemma ctrl_op_spec o g s : gen_rel g s -> gs_current s + 1 < 2 ^ 64 ->
  let '(g', r) := ctrl_op o g in let '(s', r') := spec_op o s in r = r' /\ gen_rel g' s' /\ gs_current s' <= gs_current s + 1.
Proof.
  intros (Hc & Hr & H0) Hb. destruct g as [c rv], s as [c' b]. cbn in Hc, Hr, H0, Hb. subst c rv.
  assert (u64 (c' + 1) = c' + 1) as Hu by (unfold u64, u64_modulus; apply Z.mod_small; lia).
  destruct o as [|n|n]; cbn [ctrl_op gc_Reserve gc_Activate gc_Abort local_controller spec_op gs_current gs_reserved]; unfold lg_Reserve, lg_Activate, lg_Abort;
    cbn [lg_current lg_reserved]; rewrite ?Hu; destruct b.
  - rewrite bool_decide_false by lia. cbn. unfold gen_rel; cbn. split_and!; try done; lia.
  - rewrite bool_decide_true by done. cbn. unfold gen_rel; cbn. split_and!; try done; lia.
  - rewrite (bool_decide_false (c' + 1 = 0)) by lia. cbn [orb]. destruct (bool_decide_reflect (n = c' + 1)) as [->|]; cbn; unfold gen_rel; cbn; split_and!; try done; lia.
  - rewrite bool_decide_true by done. cbn. unfold gen_rel; cbn. split_and!; try done; lia.
  - rewrite (bool_decide_false (c' + 1 = 0)) by lia. cbn [orb]. destruct (bool_decide_reflect (n = c' + 1)) as [->|]; cbn; unfold gen_rel; cbn; split_and!; try done; lia.
  - rewrite bool_decide_true by done. cbn. unfold gen_rel; cbn. split_and!; try done; lia.
Qed.

(** The local controller is the specification, for as many calls as there are
    generations. *)
Theorem generations_refine os : Z.of_nat (length os) < 2 ^ 64 ->
  let '(g, rs) := run_ops ctrl_op os NewLocalGenerations in
  let '(s, rs') := run_ops spec_op os (mkGenSpec 0 false) in
  rs = rs' /\ gen_rel g s.
Proof.
  intros Hl. enough (forall os g s, gen_rel g s -> gs_current s + Z.of_nat (length os) < 2 ^ 64 ->
    let '(g, rs) := run_ops ctrl_op os g in let '(s, rs') := run_ops spec_op os s in rs = rs' /\ gen_rel g s) as H.
  { apply (H os NewLocalGenerations (mkGenSpec 0 false)); cbn; [done | lia]. }
  clear. induction os as [|o os IH]; intros g s Hrel Hb; [done |]. cbn [run_ops length] in *.
  pose proof (ctrl_op_spec o g s Hrel ltac:(lia)) as Hop. destruct (ctrl_op o g) as [g1 r], (spec_op o s) as [s1 r']. destruct Hop as (-> & H1 & H2).
  specialize (IH g1 s1 H1 ltac:(lia)). destruct (run_ops ctrl_op os g1), (run_ops spec_op os s1). destruct IH as [-> ?]. done.
Qed.

(** At the last generation the counter wraps: a reservation answers 0, and reserves nothing. *)
Lemma last_generation : let '(g, r) := lg_Reserve (mkLocalGen (2 ^ 64 - 1) 0) in r = inr 0 /\ lg_reserved g = 0 /\ (lg_Activate 0 g).2 ≠ None.
Proof. by vm_compute. Qed.

(** A generation of the memory cache from 2^63 on is shown as negative. *)
Lemma generation_shown_negative : formatGen (2 ^ 64 - 1) = "gen=-1".
Proof. reflexivity. Qed.

(** A paused queue is reported blocked, with the message of a healthy one. *)
Lemma paused_queue_says_ok now order m r : rh_Message (qa_Health now order (Pause m) (Pause m) (Pause m) r) = "ok".
Proof. reflexivity. Qed.
