(* ===== verification/DualWrite.v ===== *)
(** * Dual writes during a migration ([migration/dualwrite/dualwrite.go])

    Every write goes to a primary and a secondary store in the order of the mode;
    with [FailOpen] a secondary failure is only counted. *)

From S2P Require Import Prelude GoStrings.
#[local] Open Scope Z_scope.

Inductive Mode := ModePrimaryFirst | ModeSecondaryFirst | ModePrimaryOnly.

#[global] Instance Mode_eq_dec : EqDecision Mode.
Proof. solve_decision. Defined.

Inductive dw_err := ErrInvalidArg | ErrPrimary (msg : string) | ErrSecondary (msg : string) | ErrClosed.

(** A write of key, value and operation identifier, with the text of its error. *)
Abbreviation WriteFunc := (string -> string -> string -> option string).

Record Helper := mkHelper {
  h_primary : WriteFunc; h_secondary : option WriteFunc; h_mode : Mode; h_FailOpenSecondary : bool; h_closed : bool;
  h_secondaryErrors : Z }.

Definition parse_mode (s : string) : option Mode :=
  if bool_decide (s = "primary-first") then Some ModePrimaryFirst
  else if bool_decide (s = "secondary-first") then Some ModeSecondaryFirst
  else if bool_decide (s = "primary-only") then Some ModePrimaryOnly
  else None.

Definition New (primary secondary : option WriteFunc) (mode : string) (failOpen : bool) : dw_err + Helper :=
  match primary, parse_mode (if bool_decide (mode = "") then "primary-first" else mode) with
  | None, _ | _, None => inl ErrInvalidArg
  | Some p, Some m =>
    match secondary with
    | None => if bool_decide (m = ModePrimaryOnly) then inr (mkHelper p None m failOpen false 0) else inl ErrInvalidArg
    | Some _ => inr (mkHelper p secondary m failOpen false 0)
    end
  end.

Record Result := mkResult { dr_PrimaryOK : bool; dr_SecondaryOK : bool; dr_Mode : Mode; dr_At : Time }.

(** The calls of the two stores, with their outcome. *)
Inductive call := CPrimary (ok : bool) | CSecondary (ok : bool).

Definition ok_of {A} (r : option A) : bool := match r with None => true | Some _ => false end.

(** The closures [writePri] and [writeSec]. *)
Definition writePri (h : Helper) (key value id : string) (res : Result) : list call * Result * option dw_err :=
  match h_primary h key value id with
  | Some m => ([CPrimary false], res, Some (ErrPrimary m))
  | None => ([CPrimary true], mkResult true (dr_SecondaryOK res) (dr_Mode res) (dr_At res), None)
  end.

Definition writeSec (h : Helper) (key value id : string) (res : Result) : list call * Helper * Result * option dw_err :=
  let good := mkResult (dr_PrimaryOK res) true (dr_Mode res) (dr_At res) in
  match h_secondary h with
  | None => ([], h, good, None)
  | Some f =>
    match f key value id with
    | Some m =>
      ([CSecondary false],
       mkHelper (h_primary h) (h_secondary h) (h_mode h) (h_FailOpenSecondary h) (h_closed h) (i64 (h_secondaryErrors h + 1)),
       res, if h_FailOpenSecondary h then None else Some (ErrSecondary m))
    | None => ([CSecondary true], h, good, None)
    end
  end.

(** [return res, f()]: Go does not say whether [res] is read before or after the
    call that changes it; [late] is the choice. *)
Definition returned (late : bool) (before after : Result) : Result := if late then after else before.

Definition result_zero : Result := mkResult false false ModePrimaryFirst time_zero.

Definition Write (late : bool) (now : Time) (key value id : string) (h : Helper)
  : list call * Helper * (Result * option dw_err) :=
  if h_closed h then ([], h, (result_zero, Some ErrClosed))
  else
    let res := mkResult false false (h_mode h) now in
    match h_mode h with
    | ModePrimaryOnly =>
      let '(l, res', e) := writePri h key value id res in (l, h, (returned late res res', e))
    | ModeSecondaryFirst =>
      match writeSec h key value id res with
      | (l, h', res, Some e) => (l, h', (res, Some e))
      | (l, h', res, None) =>
        let '(l', res', e) := writePri h key value id res in (l ++ l', h', (returned late res res', e))
      end
    | ModePrimaryFirst =>
      match writePri h key value id res with
      | (l, res, Some e) => (l, h, (res, Some e))
      | (l, res, None) =>
        let '(l', h', res', e) := writeSec h key value id res in (l ++ l', h', (returned late res res', e))
      end
    end.

Definition SetMode (mode : string) (h : Helper) : Helper * option dw_err :=
  match parse_mode mode with
  | None => (h, Some ErrInvalidArg)
  | Some m => (mkHelper (h_primary h) (h_secondary h) m (h_FailOpenSecondary h) (h_closed h) (h_secondaryErrors h), None)
  end.

Definition SecondaryErrors (h : Helper) : Z := h_secondaryErrors h.
Definition Close (h : Helper) : Helper :=
  mkHelper (h_primary h) (h_secondary h) (h_mode h) (h_FailOpenSecondary h) true (h_secondaryErrors h).

(** A dual write that reports success wrote the primary, and the second store
    is written in the configured order.  Success means that the primary accepted
    the write, and that the secondary accepted it too unless the mode or a missing
    secondary leaves it out or failures are tolerated; with the primary first a
    failed primary is never followed by a write to the secondary, with the
    secondary first a failure that is not tolerated is never followed by one to the
    primary; a closed helper writes nothing. *)
Theorem dual_write_sound late now key value id h :
  let '(l, h', (res, e)) := Write late now key value id h in
  (h_closed h = true -> l = [] /\ e = Some ErrClosed) /\
  (e = None -> CPrimary true ∈ l /\
    (CSecondary true ∈ l \/ h_mode h = ModePrimaryOnly \/ h_secondary h = None \/
     h_FailOpenSecondary h = true /\ h_secondaryErrors h' = i64 (h_secondaryErrors h + 1))) /\
  (h_mode h = ModePrimaryFirst -> CPrimary false ∈ l -> l = [CPrimary false]) /\
  (h_mode h = ModeSecondaryFirst -> CSecondary false ∈ l -> h_FailOpenSecondary h = false -> l = [CSecondary false]).
Proof.
  unfold Write. destruct (h_closed h) eqn:Ec.
  { split; [done |]. split; [done |]. split; by intros _ ?%elem_of_nil. }
  destruct (h_mode h) eqn:Em; unfold writePri, writeSec.
  - destruct (h_primary h key value id) as [m|]; simpl.
    { split; [done |]. split; [done |]. by split. }
    destruct (h_secondary h) as [f|] eqn:Es; [destruct (f key value id) as [m|]|]; simpl;
      (split; [done |]); (split; [|split; [|done]]).
    all: try (intros _ H; exfalso; set_solver).
    all: intros He; split; try set_solver.
    destruct (h_FailOpenSecondary h) eqn:Eo; [|done]. right; right; right. done.
  - destruct (h_secondary h) as [f|] eqn:Es; [destruct (f key value id) as [m|]|]; simpl.
    + destruct (h_FailOpenSecondary h) eqn:Eo; simpl; [|split; [done |]; split; [done |]; by split].
      destruct (h_primary h key value id) as [m'|]; simpl; (split; [done |]); (split; [|split; [done | done]]); intros He; [done |].
      split; [set_solver |]. by right; right; right.
    + destruct (h_primary h key value id) as [m'|]; simpl; (split; [done |]); (split; [|split; [done |]]);
        try (intros _ H; exfalso; set_solver); intros He; [done |]. split; set_solver.
    + destruct (h_primary h key value id) as [m'|]; simpl; (split; [done |]); (split; [|split; [done |]]);
        try (intros _ H; exfalso; set_solver); intros He; [done |]. split; [set_solver |]. by right; right; left.
  - destruct (h_primary h key value id) as [m|]; simpl; (split; [done |]); (split; [|done]); intros He; [done |].
    split; [set_solver |]. by right; left.
Qed.

(** What is reported as written depends on an order the language leaves open. *)
Lemma primary_flag_unspecified key value id f :
  f key value id = None ->
  let h := mkHelper f None ModePrimaryOnly false false 0 in
  dr_PrimaryOK (Write true 0 key value id h).2.1 = true /\ dr_PrimaryOK (Write false 0 key value id h).2.1 = false.
Proof. intros Hf. unfold Write, writePri. simpl. by rewrite Hf. Qed.

(** [SetMode] can turn dual writes on without a second store, which is then reported
    as written. *)
Lemma missing_secondary_reported p key value id :
  p key value id = None ->
  let h := (SetMode "primary-first" (mkHelper p None ModePrimaryOnly false false 0)).1 in
  let '(l, _, (res, e)) := Write true 0 key value id h in
  l = [CPrimary true] /\ dr_SecondaryOK res = true /\ e = None.
Proof. intros Hp. simpl. unfold Write, writePri, writeSec. simpl. by rewrite Hp. Qed.
