(* ===== verification/Promotion.v ===== *)
(** * Promotion ([promotion/promotion.go])

    The workflow of an environment promotion, built with the workflow builder from
    the application's hooks. *)

From S2P Require Import Prelude GoStrings ResourceID Dependency WorkflowDef.

(** A hook that is nil is [None]. *)
Record Hooks := mkHooks {
  hk_Validate : option FuncValue; hk_Prepare : option FuncValue; hk_Promote : option FuncValue;
  hk_Verify : option FuncValue; hk_Rollback : option FuncValue }.

Record PromotionConfig := mkPromotion { pc_Name : string; pc_FromEnv : string; pc_ToEnv : string; pc_Hooks : Hooks }.

Inductive promotion_error := ErrInvalidArg | ErrBuild (e : werror).

Definition promotion_builder (cfg : PromotionConfig) : Builder :=
  let h := pc_Hooks cfg in
  let name := if bool_decide (pc_Name cfg = "") then "promote" else pc_Name cfg in
  let b := Define name
    |> Step "validate" (hk_Validate h) |> Step "prepare" (hk_Prepare h)
    |> Step "promote" (hk_Promote h) |> Step "verify" (hk_Verify h)
    |> Depend "prepare" ["validate"] |> Depend "promote" ["prepare"] |> Depend "verify" ["promote"]
    |> Idempotency "promote" RequiresOperationID |> Mutating "promote" true |> Mutating "prepare" true in
  match hk_Rollback h with Some f => Compensate "promote" (Some f) b | None => b end.

(** [range] is the order in which [Build] ranges over the steps. *)
Definition BuildDefinition (range : list string) (cfg : PromotionConfig) : option (promotion_error + Definition_) :=
  let h := pc_Hooks cfg in
  match hk_Validate h, hk_Prepare h, hk_Promote h, hk_Verify h with
  | Some _, Some _, Some _, Some _ =>
    match Build range (promotion_builder cfg) with
    | None => None
    | Some (inl e) => Some (inl (ErrBuild e))
    | Some (inr d) => Some (inr d)
    end
  | _, _, _, _ => Some (inl ErrInvalidArg)
  end.

(** The steps of a promotion. *)
Definition promotion_steps (validate prepare promote verify : FuncValue) (rollback : option FuncValue)
  : gmap string StepDef :=
  {["validate" := mkStepDef "validate" validate None [] "" Idempotent false no_caps id_zero;
    "prepare" := mkStepDef "prepare" prepare None ["validate"] "" Idempotent true no_caps id_zero;
    "promote" := mkStepDef "promote" promote rollback ["prepare"] "" RequiresOperationID true no_caps id_zero;
    "verify" := mkStepDef "verify" verify None ["promote"] "" Idempotent false no_caps id_zero]}.

Lemma promotion_builder_steps cfg a b c d :
  hk_Validate (pc_Hooks cfg) = Some a -> hk_Prepare (pc_Hooks cfg) = Some b ->
  hk_Promote (pc_Hooks cfg) = Some c -> hk_Verify (pc_Hooks cfg) = Some d ->
  promotion_builder cfg =
    mkBuilder (if bool_decide (pc_Name cfg = "") then "promote" else pc_Name cfg)
      (promotion_steps a b c d (hk_Rollback (pc_Hooks cfg))) None.
Proof.
  destruct cfg as [name from to [hv hp hm hf hr]]. simpl. intros -> -> -> ->.
  unfold promotion_builder. simpl. destruct name as [|x name]; destruct hr; vm_compute; reflexivity.
Qed.

Lemma promotion_order a b c d r :
  topoSteps (promotion_steps a b c d r) = Some (inr ["validate"; "prepare"; "promote"; "verify"]).
Proof. vm_compute. reflexivity. Qed.

Lemma promotion_closed a b c d r range :
  range ≡ₚ elements (dom (promotion_steps a b c d r)) -> unknown_dep (promotion_steps a b c d r) range = None.
Proof.
  intros Hr. apply unknown_dep_spec. intros n x Hn.
  assert (unknown_dep (promotion_steps a b c d r) (elements (dom (promotion_steps a b c d r))) = None) as H
    by (vm_compute; reflexivity).
  apply (proj1 (proj1 (unknown_dep_spec _ _)) H). by rewrite <- Hr.
Qed.

(** A promotion always builds, and its steps run in the documented order.  With
    the four hooks given (the name may be empty), [BuildDefinition] returns a
    definition with exactly the steps validate, prepare, promote and verify, in
    that order, each after the one before; promote needs an operation identifier
    and is undone by the rollback hook if there is one; prepare and promote are the
    mutating steps; without one of the hooks it returns [ErrInvalidArg]. *)
Theorem promotion_builds range cfg :
  range ≡ₚ ["prepare"; "promote"; "validate"; "verify"] ->
  match hk_Validate (pc_Hooks cfg), hk_Prepare (pc_Hooks cfg), hk_Promote (pc_Hooks cfg), hk_Verify (pc_Hooks cfg) with
  | Some a, Some b, Some c, Some d =>
    exists def, BuildDefinition range cfg = Some (inr def) /\
      Steps def = ["validate"; "prepare"; "promote"; "verify"] /\
      df_steps def = promotion_steps a b c d (hk_Rollback (pc_Hooks cfg))
  | _, _, _, _ => BuildDefinition range cfg = Some (inl ErrInvalidArg)
  end.
Proof.
  intros Hr. unfold BuildDefinition.
  destruct (hk_Validate (pc_Hooks cfg)) as [a|] eqn:Ea; [|done]. destruct (hk_Prepare (pc_Hooks cfg)) as [b|] eqn:Eb; [|done].
  destruct (hk_Promote (pc_Hooks cfg)) as [c|] eqn:Ec; [|done]. destruct (hk_Verify (pc_Hooks cfg)) as [d|] eqn:Ed; [|done].
  rewrite (promotion_builder_steps cfg a b c d Ea Eb Ec Ed). unfold Build. cbn [bd_err bd_steps bd_name].
  rewrite bool_decide_eq_false_2 by (by vm_compute).
  rewrite promotion_closed by (rewrite Hr; vm_compute; apply (bool_decide_unpack _); by vm_compute).
  rewrite promotion_order. by eexists.
Qed.

Lemma promotion_builds_witness :
  let cfg := mkPromotion "" "staging" "production" (mkHooks (Some 1%N) (Some 2%N) (Some 3%N) (Some 4%N) None) in
  exists def, BuildDefinition ["verify"; "validate"; "prepare"; "promote"] cfg = Some (inr def) /\
    Steps def = ["validate"; "prepare"; "promote"; "verify"].
Proof.
  intros cfg. destruct (promotion_builds ["verify"; "validate"; "prepare"; "promote"] cfg) as (def & H1 & H2 & _).
  - apply (bool_decide_unpack _). by vm_compute.
  - exists def. split; assumption.
Defined.
