(* ===== verification/HealthGraph.v ===== *)
(** * Fleet health ([health/health.go], [health/analysis.go], [health/impact.go])

    A report is a list of nodes and of dependency edges.  [Build] computes the
    overall status, [Validate] checks the structure (a depth-first search colours
    the nodes to find a cycle), [Dependents] is the set of nodes a failure reaches
    and [PlanImpact] the actions it calls for, grouped by [Waves].  Go maps are
    ranged over in an order that is an argument. *)

From S2P Require Import Prelude GoStrings.
From stdpp Require Import sorting.
#[local] Open Scope Z_scope.

(** ** Data *)

Definition Healthy := "healthy".
Definition Degraded := "degraded".
Definition Unhealthy := "unhealthy".
Definition Blocked := "blocked".
Definition Unknown := "unknown".
Definition Quarantined := "quarantined".
Definition LockedDown := "locked-down".

Record Node := mkNode { n_Name : string; n_Status : string; n_Message : string; n_Attrs : gmap string string }.
Definition node_zero : Node := mkNode "" "" "" ∅.
Record Edge := mkEdge { e_From : string; e_To : string }.
Record Report := mkReport { r_Time : Time; r_Overall : string; r_Nodes : list Node; r_Edges : list Edge }.
Record Builder := mkBuilder { b_nodes : gmap string Node; b_edges : list Edge }.

#[global] Instance Edge_eq_dec : EqDecision Edge.
Proof. solve_decision. Defined.

(** ** [health.go] *)

Definition NewBuilder : Builder := mkBuilder ∅ [].
Definition Set_ (n : Node) (b : Builder) : Builder := mkBuilder (<[n_Name n := n]> (b_nodes b)) (b_edges b).
Definition Link (from to : string) (b : Builder) : Builder := mkBuilder (b_nodes b) (b_edges b ++ [mkEdge from to]).

Definition rank (s : string) : Z :=
  if bool_decide (s = Healthy) then 0
  else if bool_decide (s = Degraded) then 1
  else if bool_decide (s = Unknown) then 2
  else if bool_decide (s = Blocked) then 3
  else if bool_decide (s = Unhealthy) then 4
  else if bool_decide (s = Quarantined) then 5
  else if bool_decide (s = LockedDown) then 6
  else 2.

Definition maxRank (a b : string) : string := if bool_decide (rank b <= rank a) then a else b.
Definition worse (a b : string) : string := maxRank a b.

(** Comparisons of [sort.Slice], by several keys. *)
Definition node_le (a b : Node) : Prop := String.le (n_Name a) (n_Name b).
Definition edge_le (a b : Edge) : Prop :=
  if decide (e_From a = e_From b) then String.le (e_To a) (e_To b) else String.le (e_From a) (e_From b).

#[global] Instance node_le_dec : RelDecision node_le.
Proof. intros a b. unfold node_le. apply _. Defined.
#[global] Instance edge_le_dec : RelDecision edge_le.
Proof. intros a b. unfold edge_le. destruct (decide _); apply _. Defined.

(** [order] lists the nodes as the range over the map meets them. *)
Definition Build (now : Time) (order : list Node) (b : Builder) : Report :=
  let worst := foldl (fun w n => worse w (n_Status n)) Healthy order in
  let worst := if bool_decide (size (b_nodes b) = 0%nat) then Unknown else worst in
  mkReport now worst (merge_sort node_le order) (merge_sort edge_le (b_edges b)).

(** ** [analysis.go] *)

Record ValidationIssue := mkIssue { i_Code : string; i_Node : string; i_Message : string }.

Definition issue_le (a b : ValidationIssue) : Prop :=
  if decide (i_Code a = i_Code b) then
    if decide (i_Node a = i_Node b) then String.le (i_Message a) (i_Message b) else String.le (i_Node a) (i_Node b)
  else String.le (i_Code a) (i_Code b).

#[global] Instance issue_le_dec : RelDecision issue_le.
Proof. intros a b. unfold issue_le. repeat destruct (decide _); apply _. Defined.

Definition sortIssues : list ValidationIssue -> list ValidationIssue := merge_sort issue_le.

(** The loop over the nodes: issues and the set of names so far. *)
Definition node_step (acc : list ValidationIssue * gset string) (n : Node) : list ValidationIssue * gset string :=
  let '(issues, nodes) := acc in
  if bool_decide (n_Name n = "") then (issues ++ [mkIssue "empty-node" "" "health node name is empty"], nodes)
  else (issues ++ (if bool_decide (n_Name n ∈ nodes)
                   then [mkIssue "duplicate-node" (n_Name n) "health node is declared more than once"] else []),
        {[n_Name n]} ∪ nodes).

(** The issues of the nodes and the set of their names. *)
Definition node_issues (ns : list Node) : list ValidationIssue * gset string :=
  foldl node_step ([], ∅) ns.

Definition edge_issues (nodes : gset string) (e : Edge) : list ValidationIssue :=
  (if bool_decide (e_From e = e_To e) && negb (bool_decide (e_From e = ""))
   then [mkIssue "self-edge" (e_From e) "health node depends on itself"] else []) ++
  (if bool_decide (e_From e ∈ nodes) then [] else [mkIssue "missing-from" (e_From e) "dependency source is not present in the report"]) ++
  (if bool_decide (e_To e ∈ nodes) then [] else [mkIssue "missing-to" (e_To e) "dependency target is not present in the report"]).

(** [graph[node]]: the targets of its edges, in their order. *)
Definition targets (edges : list Edge) (node : string) : list string :=
  e_To <$> filter (fun e => e_From e = node) edges.

(** Colours of the search: absent, 1 (on the path) and 2 (finished). *)
Inductive colour := Grey | Black.

Abbreviation Colours := (gmap string colour).

(** The loop over the dependencies of a node. *)
Fixpoint visit_each (f : string -> Colours -> option (bool * Colours)) (ds : list string) (state : Colours)
  : option (bool * Colours) :=
  match ds with
  | [] => Some (false, state)
  | d :: ds =>
    match f d state with
    | Some (true, state) => Some (true, state)
    | Some (false, state) => visit_each f ds state
    | None => None
    end
  end.

(** [visit]: whether a cycle was found; [None] when [fuel] is used up. *)
Fixpoint visit (fuel : nat) (edges : list Edge) (node : string) (state : Colours) : option (bool * Colours) :=
  match fuel with
  | O => None
  | S fuel =>
    match state !! node with
    | Some Grey => Some (true, state)
    | Some Black => Some (false, state)
    | None =>
      match visit_each (visit fuel edges) (targets edges node) (<[node := Grey]> state) with
      | Some (false, state) => Some (false, <[node := Black]> state)
      | r => r
      end
    end
  end.

(** The loop over the nodes, up to the first one that leads to a cycle. *)
Fixpoint find_cycle (fuel : nat) (edges : list Edge) (order : list string) (state : Colours) : option (option string) :=
  match order with
  | [] => Some None
  | n :: order =>
    if bool_decide (state !! n = None) then
      match visit fuel edges n state with
      | Some (true, _) => Some (Some n)
      | Some (false, state) => find_cycle fuel edges order state
      | None => None
      end
    else find_cycle fuel edges order state
  end.

(** Deep enough for any path without a repetition. *)
Definition depth (edges : list Edge) : nat := length edges + 2.

(** [order] lists the names as the range over the map meets them. *)
Definition Validate (order : list string) (r : Report) : option (list ValidationIssue) :=
  let '(issues, nodes) := node_issues (r_Nodes r) in
  match find_cycle (depth (r_Edges r)) (r_Edges r) order ∅ with
  | None => None
  | Some c =>
    let cycle := match c with Some n => [mkIssue "cycle" n "dependency graph contains a cycle"] | None => [] end in
    Some (sortIssues (issues ++ (r_Edges r ≫= edge_issues nodes) ++ cycle))
  end.

(** [reverse[node]] *)
Definition sources (edges : list Edge) (node : string) : list string :=
  e_From <$> filter (fun e => e_To e = node) edges.

(** The inner loop: queue and result grow by what has not been seen. *)
Fixpoint enqueue (ds : list string) (seen : gset string) (queue result : list string) : gset string * list string * list string :=
  match ds with
  | [] => (seen, queue, result)
  | d :: ds =>
    if bool_decide (d ∈ seen) then enqueue ds seen queue result
    else enqueue ds ({[d]} ∪ seen) (queue ++ [d]) (result ++ [d])
  end.

(** The outer loop; [None] when [fuel] is used up. *)
Fixpoint search (fuel : nat) (edges : list Edge) (seen : gset string) (queue result : list string) : option (list string) :=
  match queue with
  | [] => Some result
  | cur :: queue =>
    match fuel with
    | O => None
    | S fuel =>
      let '(seen, queue, result) := enqueue (sources edges cur) seen queue result in
      search fuel edges seen queue result
    end
  end.

Definition Dependents (r : Report) (name : string) : option (list string) :=
  sort_strings <$> search (S (length (r_Edges r))) (r_Edges r) {[name]} [name] [].

Definition FindNode (r : Report) (name : string) : option Node := list_find (fun n => n_Name n = name) (r_Nodes r) ≫= (fun x => Some x.2).

(** ** [impact.go] *)

Definition ActionDrain := "drain".
Definition ActionQuarantine := "quarantine".
Definition ActionLockdown := "lockdown".
Definition ActionFailoverEval := "failover-eval".
Definition ActionObserve := "observe".

Record PlannedAction := mkAction { a_Node : string; a_Kind : string; a_Reason : string; a_Priority : Z }.

Record ImpactPlan := mkPlan {
  p_Failed : string; p_BlastRadius : list string; p_Actions : list PlannedAction; p_Issues : list ValidationIssue }.

Record Wave := mkWave { w_Index : Z; w_Priority : Z; w_Actions : list PlannedAction }.

Definition Empty_plan (p : ImpactPlan) : bool :=
  bool_decide (p_Failed p = "") && bool_decide (length (p_BlastRadius p) = 0%nat)
  && bool_decide (length (p_Actions p) = 0%nat) && bool_decide (length (p_Issues p) = 0%nat).

(** The loop of [Waves]: the finished waves and the current one. *)
Fixpoint waves_loop (actions : list PlannedAction) (waves : list Wave) (cur : Wave) : list Wave :=
  match actions with
  | [] => if bool_decide (length (w_Actions cur) = 0%nat) then waves else waves ++ [cur]
  | a :: actions =>
    if negb (bool_decide (a_Priority a = w_Priority cur)) && negb (bool_decide (length (w_Actions cur) = 0%nat))
    then waves_loop actions (waves ++ [cur]) (mkWave (Z.of_nat (length (waves ++ [cur]))) (a_Priority a) [a])
    else waves_loop actions waves (mkWave (w_Index cur) (w_Priority cur) (w_Actions cur ++ [a]))
  end.

Definition Waves (p : ImpactPlan) : list Wave :=
  match p_Actions p with
  | [] => []
  | a :: _ => waves_loop (p_Actions p) [] (mkWave 0 (a_Priority a) [])
  end.

Definition dependencies (r : Report) (name : string) : list string := sort_strings (targets (r_Edges r) name).

Definition directDependents (r : Report) (failed : string) : gset string := list_to_set (sources (r_Edges r) failed).

Definition actionForFailed (name status : string) : PlannedAction :=
  if bool_decide (status = LockedDown) then mkAction name ActionObserve "node already locked down" 0
  else if bool_decide (status = Quarantined) then mkAction name ActionObserve "node already quarantined" 0
  else if bool_decide (status = Unhealthy) then mkAction name ActionQuarantine "isolate unhealthy failed node" 0
  else if bool_decide (status = Degraded) then mkAction name ActionDrain "drain degraded failed node before replacement" 0
  else if bool_decide (status = Blocked) then mkAction name ActionLockdown "failed node is blocked; enforce lockdown" 0
  else mkAction name ActionQuarantine "quarantine simulated failure" 0.

Definition priorityForDependent (direct : bool) : Z := if direct then 10 else 20.

Definition actionForDependent (name status : string) (direct : bool) : PlannedAction :=
  let prio := priorityForDependent direct in
  if bool_decide (status = LockedDown) || bool_decide (status = Quarantined)
  then mkAction name ActionObserve "dependent already isolated" prio
  else if direct then
    if bool_decide (status = Unhealthy) then mkAction name ActionFailoverEval "direct dependent is unhealthy" prio
    else mkAction name ActionDrain "direct dependent of failed node" prio
  else if bool_decide (status = Healthy) || bool_decide (status = Unknown)
  then mkAction name ActionObserve "transitive dependent; monitor for symptoms" prio
  else mkAction name ActionFailoverEval "transitive dependent may need failover" prio.

Definition upstream_action (name : string) : PlannedAction :=
  mkAction name ActionObserve "upstream dependency of failed node" 90.

Definition action_le (a b : PlannedAction) : Prop :=
  if decide (a_Priority a = a_Priority b) then
    if decide (a_Node a = a_Node b) then String.le (a_Kind a) (a_Kind b) else String.le (a_Node a) (a_Node b)
  else a_Priority a <= a_Priority b.

#[global] Instance action_le_dec : RelDecision action_le.
Proof. intros a b. unfold action_le. repeat destruct (decide _); apply _. Defined.

(** The actions before they are sorted. *)
Definition plan_actions (r : Report) (failed : string) (node : Node) (blast : list string) : list PlannedAction :=
  actionForFailed failed (n_Status node) ::
  ((fun d => actionForDependent d (n_Status (default node_zero (FindNode r d))) (bool_decide (d ∈ directDependents r failed))) <$> blast) ++
  (upstream_action <$> dependencies r failed).

Definition PlanImpact (order : list string) (r : Report) (failed : string) : option ImpactPlan :=
  match Validate order r with
  | None => None
  | Some issues =>
    if bool_decide (failed = "") then
      Some (mkPlan failed [] [] (sortIssues (issues ++ [mkIssue "empty-failed" "" "failed node name is empty"])))
    else
      match FindNode r failed with
      | None =>
        Some (mkPlan failed [] [] (sortIssues (issues ++ [mkIssue "missing-node" failed "failed node is not present in the report"])))
      | Some node =>
        match Dependents r failed with
        | None => None
        | Some blast => Some (mkPlan failed blast (merge_sort action_le (plan_actions r failed node blast)) issues)
        end
      end
  end.

(** ** The search for a cycle *)

(** [dep edges a b]: [a] depends on [b]. *)
Definition dep (edges : list Edge) (a b : string) : Prop := mkEdge a b ∈ edges.

Lemma elem_of_targets edges n d : d ∈ targets edges n <-> dep edges n d.
Proof.
  unfold targets, dep. rewrite list_elem_of_fmap. split.
  - intros ([f t] & -> & [Hf Hin]%list_elem_of_filter). simpl in *. by subst.
  - intros Hin. exists (mkEdge n d). split; [done |]. by apply list_elem_of_filter.
Qed.

Lemma elem_of_sources edges n d : d ∈ sources edges n <-> dep edges d n.
Proof.
  unfold sources, dep. rewrite list_elem_of_fmap. split.
  - intros ([f t] & -> & [Hf Hin]%list_elem_of_filter). simpl in *. by subst.
  - intros Hin. exists (mkEdge d n). split; [done |]. by apply list_elem_of_filter.
Qed.

(** The first step of a path. *)
Lemma tc_first {A} (R : A -> A -> Prop) x y : tc R x y -> exists z, R x z /\ rtc R z y.
Proof. destruct 1 as [x y H|x y z H H']; [by exists y | exists y; split; [done | by apply tc_rtc]]. Qed.

Section Search.
Context (edges : list Edge).

Definition cyclic : Prop := exists x, tc (dep edges) x x.

(** Finished nodes lead to finished nodes only, and to no cycle. *)
Record finished (st : Colours) : Prop := mkFinished {
  fi_closed x d : st !! x = Some Black -> dep edges x d -> st !! d = Some Black;
  fi_acyclic x : st !! x = Some Black -> ~ tc (dep edges) x x }.

(** The nodes on the path lead to [n]. *)
Definition path_to (st : Colours) (n : string) : Prop := forall g, st !! g = Some Grey -> rtc (dep edges) g n.

Definition same_path (st st' : Colours) : Prop := forall g, st' !! g = Some Grey <-> st !! g = Some Grey.

(** What a search that found nothing leaves. *)
Record searched (st : Colours) (ns : list string) (st' : Colours) : Prop := mkSearched {
  se_finished : finished st';
  se_path : same_path st st';
  se_more x : st !! x = Some Black -> st' !! x = Some Black;
  se_done n : n ∈ ns -> st' !! n = Some Black }.

Definition search_ok (st : Colours) (ns : list string) (r : option (bool * Colours)) : Prop :=
  match r with
  | None => True
  | Some (true, _) => cyclic
  | Some (false, st') => searched st ns st'
  end.

Lemma finished_reach st x y : finished st -> st !! x = Some Black -> rtc (dep edges) x y -> st !! y = Some Black.
Proof. intros Hf Hx Hr. induction Hr as [|x y z Hxy _ IH]; [done |]. apply IH. by eapply fi_closed. Qed.

Lemma visit_each_ok f n ds st :
  (forall d s, finished s -> path_to s n -> dep edges n d -> search_ok s [d] (f d s)) ->
  finished st -> path_to st n -> (forall d, d ∈ ds -> dep edges n d) -> search_ok st ds (visit_each f ds st).
Proof.
  intros Hf. revert st. induction ds as [|d ds IH]; intros st Hfin Hpath Hds; simpl.
  - split; [done | done | done | by intros m ?%elem_of_nil].
  - pose proof (Hf d st Hfin Hpath ltac:(apply Hds; left)) as Hd.
    destruct (f d st) as [[[] s1]|]; simpl in Hd |- *; [done | | done].
    destruct Hd as [H1 H2 H3 H4].
    assert (path_to s1 n) as Hpath1 by (intros g Hg; by apply Hpath, H2).
    specialize (IH s1 H1 Hpath1 ltac:(intros d' ?; apply Hds; by right)).
    destruct (visit_each f ds s1) as [[[] s2]|]; simpl in IH |- *; [done | | done].
    destruct IH as [G1 G2 G3 G4]. split; [done | | auto |].
    + intros g. by rewrite (G2 g), (H2 g).
    + intros m [->|Hm]%elem_of_cons; [apply G3, H4; left | auto].
Qed.

Lemma visit_ok fuel : forall n st,
  finished st -> (forall g, st !! g = Some Grey -> tc (dep edges) g n) -> search_ok st [n] (visit fuel edges n st).
Proof.
  induction fuel as [|fuel IH]; intros n st Hfin Hpath; [done |]. cbn [visit].
  destruct (st !! n) as [[]|] eqn:En; simpl.
  - exists n. by apply Hpath.
  - split; [done | done | done | by intros m ->%list_elem_of_singleton].
  - assert (search_ok (<[n := Grey]> st) (targets edges n)
      (visit_each (visit fuel edges) (targets edges n) (<[n := Grey]> st))) as Hs.
    { apply (visit_each_ok _ n).
      - intros d s Hf Hp Hd. apply IH; [done |]. intros g Hg. specialize (Hp g Hg). by eapply tc_rtc_l; [|apply tc_once].
      - split.
        + intros x d [[_ ?]|[Hne Hx]]%lookup_insert_Some Hd; [done |]. rewrite lookup_insert_ne; [by eapply fi_closed |].
          intros <-. pose proof (fi_closed _ Hfin _ _ Hx Hd). congruence.
        + intros x [[_ ?]|[_ Hx]]%lookup_insert_Some; [done |]. by apply (fi_acyclic _ Hfin).
      - intros g [[<- _]|[_ Hg]]%lookup_insert_Some; [done | by apply tc_rtc, Hpath].
      - intros d. apply elem_of_targets. }
    destruct (visit_each _ _ _) as [[[] s1]|]; simpl in Hs |- *; [done | | done].
    destruct Hs as [H1 H2 H3 H4].
    assert (s1 !! n = Some Grey) as Hn by (apply H2, lookup_insert_eq).
    assert (forall d, dep edges n d -> s1 !! d = Some Black) as Hdeps by (intros d Hd; by apply H4, elem_of_targets).
    split.
    + split.
      * intros x d [[<- _]|[Hne Hx]]%lookup_insert_Some Hd.
        -- rewrite lookup_insert_ne; [auto |]. intros <-. specialize (Hdeps n Hd). congruence.
        -- pose proof (fi_closed _ H1 _ _ Hx Hd) as Hd'. rewrite lookup_insert_ne; [done |]. congruence.
      * intros x [[<- _]|[Hne Hx]]%lookup_insert_Some Hc; [|by apply (fi_acyclic _ H1 x)].
        destruct (tc_first _ _ _ Hc) as (d & Hd & Hc').
        pose proof (finished_reach s1 d n H1 (Hdeps d Hd) Hc'). congruence.
    + intros g. destruct (decide (g = n)) as [->|Hne]; [rewrite lookup_insert_eq, En; done |].
      rewrite lookup_insert_ne by done. rewrite (H2 g). by rewrite lookup_insert_ne.
    + intros x Hx. rewrite lookup_insert_ne; [|congruence]. apply H3. rewrite lookup_insert_ne; [done | congruence].
    + intros m ->%list_elem_of_singleton. apply lookup_insert_eq.
Qed.
End Search.

(** ** The search ends *)

Lemma size_insert_le (x : string) (X : gset string) : (size ({[x]} ∪ X) <= S (size X))%nat.
Proof.
  rewrite size_union_alt, size_singleton. pose proof (subseteq_size (X ∖ {[x]}) X ltac:(set_solver)). lia.
Qed.

Lemma size_list_le (l : list string) : (size (list_to_set l : gset string) <= length l)%nat.
Proof.
  induction l as [|x l IH]; simpl; [done |].
  pose proof (size_insert_le x (list_to_set l)). lia.
Qed.

Section Total.
Context (edges : list Edge).

#[local] Instance colour_eq_dec : EqDecision colour.
Proof. solve_decision. Defined.

(** The nodes on the path, and those that may still join it. *)
Definition on_path (st : Colours) : gset string := dom (filter (fun x => x.2 = Grey) st).
Definition off_path (U : gset string) (st : Colours) : nat := size (U ∖ on_path st).

Lemma elem_of_on_path st g : g ∈ on_path st <-> st !! g = Some Grey.
Proof.
  unfold on_path. rewrite elem_of_dom. split.
  - intros [c [Hl Hc]%map_lookup_filter_Some]. simpl in Hc. by subst.
  - intros H. exists Grey. by apply map_lookup_filter_Some.
Qed.

Lemma same_path_off U st st' : same_path st st' -> off_path U st' = off_path U st.
Proof.
  intros H. unfold off_path. f_equal. assert (on_path st' = on_path st) as ->; [|done].
  apply set_eq. intros g. rewrite !elem_of_on_path. apply H.
Qed.

Lemma off_path_grey U st n : n ∈ U -> st !! n = None -> (off_path U (<[n := Grey]> st) < off_path U st)%nat.
Proof.
  intros Hn En. unfold off_path. apply subset_size. split.
  - intros x. rewrite !elem_of_difference, !elem_of_on_path. intros [Hx Hg]. split; [done |]. intros E.
    apply Hg. destruct (decide (x = n)) as [->|]; [congruence | by rewrite lookup_insert_ne].
  - intros H. specialize (H n). rewrite !elem_of_difference, !elem_of_on_path, lookup_insert_eq in H.
    destruct H as [_ H]; [split; [done | congruence] | done].
Qed.

Lemma visit_each_total f U k ds st :
  (forall d s, d ∈ U -> off_path U s = k -> exists r, f d s = Some r /\ (r.1 = false -> same_path s r.2)) ->
  (forall d, d ∈ ds -> d ∈ U) -> off_path U st = k ->
  exists r, visit_each f ds st = Some r /\ (r.1 = false -> same_path st r.2).
Proof.
  intros Hf. revert st. induction ds as [|d ds IH]; intros st Hds Hk; simpl.
  - eexists. split; [done |]. by simpl.
  - destruct (Hf d st ltac:(apply Hds; left) Hk) as ([[] s1] & -> & Hs); [eexists; split; [done | by simpl] |].
    specialize (Hs eq_refl). simpl in Hs.
    destruct (IH s1) as (r & Hr & Hp); [intros d' ?; apply Hds; by right | by rewrite (same_path_off U st s1) |].
    exists r. split; [done |]. intros E g. rewrite (Hp E g). apply Hs.
Qed.

Lemma visit_total U fuel : forall n st,
  n ∈ U -> (forall a b, dep edges a b -> b ∈ U) -> (off_path U st < fuel)%nat ->
  exists r, visit fuel edges n st = Some r /\ (r.1 = false -> same_path st r.2).
Proof.
  induction fuel as [|fuel IH]; intros n st Hn HU Hlt; [lia |]. cbn [visit].
  destruct (st !! n) as [[]|] eqn:En; [eexists; split; [done | by simpl] .. |].
  pose proof (off_path_grey U st n Hn En) as Hg.
  destruct (visit_each_total (visit fuel edges) U (off_path U (<[n := Grey]> st)) (targets edges n) (<[n := Grey]> st))
    as ([[] s1] & -> & Hs); [| | done | eexists; split; [done | by simpl] |].
  - intros d s Hd Hk. apply IH; [done | done | lia].
  - intros d Hd%elem_of_targets. by eapply HU.
  - specialize (Hs eq_refl). simpl in Hs. eexists. split; [done |]. intros _ g. simpl.
    destruct (decide (g = n)) as [->|Hne]; [rewrite lookup_insert_eq, En; done |].
    rewrite lookup_insert_ne by done. rewrite (Hs g). by rewrite lookup_insert_ne.
Qed.

(** All nodes that [n] can lead to. *)
Definition reachable (n : string) : gset string := {[n]} ∪ list_to_set (e_To <$> edges).

Lemma visit_returns n st : exists r, visit (depth edges) edges n st = Some r /\ (r.1 = false -> same_path st r.2).
Proof.
  apply (visit_total (reachable n)).
  - set_solver.
  - intros a b Hab. unfold reachable. apply elem_of_union_r, elem_of_list_to_set, list_elem_of_fmap. by exists (mkEdge a b).
  - unfold off_path, depth. assert (size (reachable n) <= S (length edges))%nat.
    { unfold reachable. pose proof (size_insert_le n (list_to_set (e_To <$> edges))).
      pose proof (size_list_le (e_To <$> edges)) as Hl. rewrite length_fmap in Hl. lia. }
    pose proof (subseteq_size (reachable n ∖ on_path st) (reachable n) ltac:(set_solver)). lia.
Qed.
End Total.

(** ** Validation *)

Lemma find_cycle_ok edges order : forall st,
  finished edges st -> (forall g, st !! g ≠ Some Grey) ->
  exists c, find_cycle (depth edges) edges order st = Some c /\
    match c with
    | Some _ => cyclic edges
    | None => exists st', finished edges st' /\ (forall n, n ∈ order -> st' !! n = Some Black) /\
                (forall n, st !! n = Some Black -> st' !! n = Some Black)
    end.
Proof.
  induction order as [|n order IH]; intros st Hfin Hg; simpl.
  - exists None. split; [done |]. exists st. split; [done |]. split; [by intros n ?%elem_of_nil | done].
  - case_bool_decide as En.
    + destruct (visit_returns edges n st) as ([b s1] & Hv & Hp). rewrite Hv.
      pose proof (visit_ok edges (depth edges) n st Hfin ltac:(intros g Hx; by destruct (Hg g))) as Hok.
      rewrite Hv in Hok. destruct b; simpl in Hok; [by exists (Some n) |]. destruct Hok as [H1 H2 H3 H4].
      destruct (IH s1 H1) as (c & Hc & Hs); [intros g Hx; by apply (Hg g), H2 |]. exists c. split; [done |].
      destruct c as [m|]; [done |]. destruct Hs as (st' & F1 & F2 & F3). exists st'. split; [done |]. split; [|auto].
      intros m [->|Hm]%elem_of_cons; [apply F3, H4; left | auto].
    + destruct (IH st Hfin Hg) as (c & Hc & Hs). exists c. split; [done |].
      destruct c as [m|]; [done |]. destruct Hs as (st' & F1 & F2 & F3). exists st'. split; [done |]. split; [|done].
      intros m [->|Hm]%elem_of_cons; [|auto]. apply F3. destruct (st !! n) as [[]|] eqn:E; [by destruct (Hg n) | done | done].
Qed.

Lemma node_issues_ok ns : forall issues nodes,
  let r := foldl node_step (issues, nodes) ns in
  (forall x, x ∈ r.2 <-> x ∈ nodes \/ x ≠ "" /\ x ∈ n_Name <$> ns) /\
  (r.1 = [] <-> issues = [] /\ Forall (fun n => n_Name n ≠ "") ns /\ NoDup (n_Name <$> ns) /\
     (forall x, x ∈ n_Name <$> ns -> x ∉ nodes)).
Proof.
  induction ns as [|n ns IH]; intros issues nodes; cbn [foldl node_step].
  - simpl. split; [intros x; rewrite elem_of_nil; tauto |].
    split; [intros ->; split_and!; [done | constructor | constructor | by intros x ?%elem_of_nil] | by intros (-> & _)].
  - rewrite fmap_cons. case_bool_decide as En.
    + destruct (IH (issues ++ [mkIssue "empty-node" "" "health node name is empty"]) nodes) as [H1 H2]. split.
      * intros x. rewrite H1, elem_of_cons. split; [naive_solver |]. intros [?|[? [?|?]]]; [auto | congruence | auto].
      * rewrite H2. split; [intros [E _]; by destruct issues | intros (_ & [? _]%Forall_cons & _); congruence].
    + destruct (IH (issues ++ (if bool_decide (n_Name n ∈ nodes)
        then [mkIssue "duplicate-node" (n_Name n) "health node is declared more than once"] else [])) ({[n_Name n]} ∪ nodes)) as [H1 H2]. split.
      * intros x. rewrite H1, elem_of_union, elem_of_singleton, elem_of_cons. split; [|naive_solver].
        intros [[->|?]|[? ?]]; auto.
      * rewrite H2, Forall_cons, NoDup_cons. clear H1 H2 IH. split.
        -- intros (Hi & Hf & Hnd & Hd). apply app_eq_nil in Hi as [-> Hi]. case_bool_decide as Ein; [done |].
           split_and!; [done | done | done | | done |].
           ++ intros Hin. specialize (Hd _ Hin). set_solver.
           ++ intros x [->|Hx]%elem_of_cons; [done |]. specialize (Hd x Hx). set_solver.
        -- intros (-> & [_ Hf] & [Hni Hnd] & Hd). rewrite bool_decide_eq_false_2 by (apply Hd; left).
           split_and!; [done | done | done |]. intros x Hx. specialize (Hd x ltac:(by right)).
           rewrite elem_of_union, elem_of_singleton. intros [->|?]; done.
Qed.

(** What a report must be. *)
Record well_formed (r : Report) : Prop := mkWellFormed {
  wfr_named n : n ∈ r_Nodes r -> n_Name n ≠ "";
  wfr_unique : NoDup (n_Name <$> r_Nodes r);
  wfr_edges a b : dep (r_Edges r) a b -> a ∈ n_Name <$> r_Nodes r /\ b ∈ n_Name <$> r_Nodes r;
  wfr_acyclic : ~ cyclic (r_Edges r) }.

Definition names (r : Report) : gset string := (node_issues (r_Nodes r)).2.

Lemma merge_sort_nil {A} (R : A -> A -> Prop) `{!RelDecision R} l : merge_sort R l = [] <-> l = [].
Proof.
  split; [|by intros ->]. intros E. symmetry. apply Permutation_nil_l. rewrite <- E. apply merge_sort_Permutation.
Qed.

Lemma edge_issues_nil nodes e :
  edge_issues nodes e = [] <-> (e_From e = e_To e -> e_From e = "") /\ e_From e ∈ nodes /\ e_To e ∈ nodes.
Proof.
  unfold edge_issues. split.
  - intros [H1 [H2 H3]%app_eq_nil]%app_eq_nil. repeat case_bool_decide; simpl in *; try done; auto.
  - intros (H1 & H2 & H3). rewrite (bool_decide_eq_true_2 _ H2), (bool_decide_eq_true_2 _ H3).
    case_bool_decide; [|done]. by rewrite bool_decide_eq_true_2 by auto.
Qed.

(** [Validate] returns, without issues exactly for well-formed reports. *)
Lemma validate_spec order r :
  order ≡ₚ elements (names r) ->
  exists issues, Validate order r = Some issues /\ (issues = [] <-> well_formed r).
Proof.
  intros Ho. unfold Validate, names in *. pose proof (node_issues_ok (r_Nodes r) [] ∅) as [Hn Hi].
  fold (node_issues (r_Nodes r)) in Hn, Hi. destruct (node_issues (r_Nodes r)) as [issues nodes]. simpl in *.
  assert (forall x, x ∈ nodes <-> x ≠ "" /\ x ∈ n_Name <$> r_Nodes r) as Hnodes by (intros x; rewrite Hn; set_solver). clear Hn.
  destruct (find_cycle_ok (r_Edges r) order ∅) as (c & -> & Hc); [split; intros x; by rewrite lookup_empty | intros g; by rewrite lookup_empty |].
  eexists. split; [done |]. unfold sortIssues. rewrite merge_sort_nil. split.
  - intros [H1 [H2 H3]%app_eq_nil]%app_eq_nil. apply Hi in H1 as (_ & Hf & Hnd & _). rewrite bind_nil in H2.
    assert (forall a b, dep (r_Edges r) a b -> a ∈ nodes /\ b ∈ nodes) as Hed.
    { intros a b Hab. by destruct (proj1 (edge_issues_nil _ _) (H2 _ Hab)) as (_ & ? & ?). }
    rewrite Forall_forall in Hf. split; [done | done | |].
    + intros a b Hab. destruct (Hed a b Hab) as [Ha Hb]. apply Hnodes in Ha, Hb. tauto.
    + destruct c as [m|]; [done |]. destruct Hc as (st & Hfin & Hb & _). intros [x Hx].
      apply (fi_acyclic _ _ Hfin x); [|done]. apply Hb. rewrite Ho. apply elem_of_elements.
      destruct (tc_first _ _ _ Hx) as (z & Hz & _). by apply (Hed x z).
  - intros [W1 W2 W3 W4].
    assert (issues = []) as -> by (apply Hi; split_and!; [done | by apply Forall_forall | done | set_solver]).
    assert (r_Edges r ≫= edge_issues nodes = []) as ->.
    { apply bind_nil. intros [a b] Hin. apply edge_issues_nil. simpl. destruct (W3 a b Hin) as [Ha Hb].
      assert (forall x, x ∈ n_Name <$> r_Nodes r -> x ∈ nodes) as Hin' .
      { intros x Hx. apply Hnodes. split; [|done]. apply list_elem_of_fmap in Hx as (n & -> & Hn). by apply W1. }
      split; [|auto]. intros ->. destruct W4. exists b. by apply tc_once. }
    by destruct c.
Qed.

Lemma health_returns order r : order ≡ₚ elements (names r) -> exists issues, Validate order r = Some issues.
Proof. intros Ho. destruct (validate_spec order r Ho) as (issues & H & _). eauto. Qed.

(** C39: [Validate] always returns, and it returns no issue exactly for a report in
    which every node has a name of its own, every dependency is between declared
    nodes, and no node depends on itself through others; in whatever order the map
    of nodes is traversed. *)
Theorem health_validate_iff order r :
  order ≡ₚ elements (names r) ->
  exists issues, Validate order r = Some issues /\ (issues = [] <-> well_formed r).
Proof. apply validate_spec. Qed.

(** ** The blast radius *)

Section Blast.
Context (edges : list Edge) (name : string).

(** The state of the search: what was found depends on [name], and the sources of
    every node that has left the queue were seen. *)
Record bfs_inv (seen : gset string) (queue result : list string) : Prop := mkBfs {
  bf_seen x : x ∈ seen <-> x = name \/ x ∈ result;
  bf_nodup : NoDup result;
  bf_name : name ∉ result;
  bf_sound x : x ∈ result -> tc (dep edges) x name;
  bf_queue x : x ∈ queue -> x ∈ seen;
  bf_closed x y : x ∈ seen -> x ∉ queue -> dep edges y x -> y ∈ seen }.

(** The same while the sources [ds] of [cur] are being looked at. *)
Lemma enqueue_ok cur ds : forall seen queue result seen' queue' result',
  enqueue ds seen queue result = (seen', queue', result') ->
  (forall d, d ∈ ds -> dep edges d cur) -> cur ∈ seen ->
  (forall x, x ∈ seen <-> x = name \/ x ∈ result) -> NoDup result -> name ∉ result ->
  (forall x, x ∈ result -> tc (dep edges) x name) -> (forall x, x ∈ queue -> x ∈ seen) ->
  (forall x, x ∈ seen' <-> x = name \/ x ∈ result') /\ NoDup result' /\ name ∉ result' /\
  (forall x, x ∈ result' -> tc (dep edges) x name) /\ (forall x, x ∈ queue' -> x ∈ seen') /\
  seen ⊆ seen' /\ (forall d, d ∈ ds -> d ∈ seen') /\
  (exists new, queue' = queue ++ new /\ NoDup new /\ (forall x, x ∈ new <-> x ∈ seen' /\ x ∉ seen)).
Proof.
  induction ds as [|d ds IH]; intros seen queue result seen' queue' result' E Hds Hcur H1 H2 H3 H4 H5; simpl in E.
  - simplify_eq. split_and!; [done .. | by intros d ?%elem_of_nil |]. exists []. rewrite app_nil_r.
    split_and!; [done | constructor | intros x; rewrite elem_of_nil; tauto].
  - case_bool_decide as Ed.
    + destruct (IH _ _ _ _ _ _ E) as (G1 & G2 & G3 & G4 & G5 & G6 & G7 & G8); [intros; apply Hds; by right | done .. |].
      split_and!; try done. intros x [->|?]%elem_of_cons; [by apply G6 | auto].
    + assert (d ≠ name) as Hdn by (intros ->; apply Ed, H1; by left).
      assert (d ∉ result) as Hdr by (intros ?; apply Ed, H1; by right).
      assert (tc (dep edges) d name) as Htc.
      { assert (dep edges d cur) as Hd by (apply Hds; left). apply H1 in Hcur as [->|Hcur]; [by apply tc_once |].
        by eapply tc_l; [|apply H4]. }
      assert (forall x, x ∈ {[d]} ∪ seen <-> x = d \/ x ∈ seen) as Hu by (intros x; by rewrite elem_of_union, elem_of_singleton).
      destruct (IH _ _ _ _ _ _ E) as (G1 & G2 & G3 & G4 & G5 & G6 & G7 & (new & -> & N1 & N2)).
      * intros; apply Hds; by right.
      * apply Hu. by right.
      * intros x. rewrite Hu, elem_of_app, list_elem_of_singleton, H1. tauto.
      * apply NoDup_app. split_and!; [done | | apply NoDup_singleton]. intros x Hx ->%list_elem_of_singleton. done.
      * rewrite elem_of_app, list_elem_of_singleton. intros [?|?]; congruence.
      * intros x [?| ->%list_elem_of_singleton]%elem_of_app; [auto | done].
      * intros x [?| ->%list_elem_of_singleton]%elem_of_app; apply Hu; auto.
      * assert (d ∈ seen') as Hd by (apply G6, Hu; by left).
        assert (seen ⊆ seen') as Hsub by (intros x Hx; apply G6, Hu; by right).
        split_and!; try done; [intros x [->|?]%elem_of_cons; auto |].
        exists (d :: new). split; [by rewrite <- app_assoc |]. split.
        -- constructor; [|done]. rewrite N2, Hu. tauto.
        -- intros x. rewrite elem_of_cons, N2, Hu. split.
           ++ intros [->|[? ?]]; [done | tauto].
           ++ intros [? ?]. destruct (decide (x = d)) as [->|]; [by left | right; tauto].
Qed.

(** Nodes that could still be enqueued. *)
Definition unseen (seen : gset string) : nat := size ((list_to_set (e_From <$> edges) : gset string) ∖ seen).

Lemma search_ok_bfs fuel : forall seen queue result,
  bfs_inv seen queue result -> (length queue + unseen seen <= fuel)%nat ->
  exists res, search fuel edges seen queue result = Some res /\ NoDup res /\
    forall x, x ∈ res <-> x ≠ name /\ tc (dep edges) x name.
Proof.
  induction fuel as [|fuel IH]; intros seen queue result Hinv Hfuel; destruct queue as [|cur queue]; simpl in *; try lia.
  1, 2: exists result; destruct Hinv as [H1 H2 H3 H4 H5 H6]; split; [done |]; split; [done |]; intros x; split;
    [intros Hx; split; [by intros -> | auto] |]; intros [Hx Htc]; assert (x ∈ seen) as [?|?]%H1; [|done | done];
    revert Htc; clear Hx; induction 1 as [x y Hxy|x y z Hxy _ IHt]; [apply (H6 y x); [by apply H1; left | by apply not_elem_of_nil | done] |];
    apply (H6 y x); [by apply IHt | by apply not_elem_of_nil | done].
  destruct (enqueue (sources edges cur) seen queue result) as [[seen' queue'] result'] eqn:E.
  destruct Hinv as [H1 H2 H3 H4 H5 H6].
  destruct (enqueue_ok cur _ _ _ _ _ _ _ E) as (G1 & G2 & G3 & G4 & G5 & G6 & G7 & (new & -> & N1 & N2));
    [intros d; apply elem_of_sources | apply H5; left | done .. | intros x ?; apply H5; by right |].
  apply IH.
  - split; [done .. |]. intros x y Hx Hq Hy. rewrite elem_of_app in Hq.
    destruct (decide (x ∈ seen)) as [Hs|Hs].
    + destruct (decide (x = cur)) as [->|Hc]; [by apply G7, elem_of_sources |].
      apply G6. apply (H6 x y); [done | | done]. rewrite elem_of_cons. tauto.
    + destruct Hq. right. by apply N2.
  - rewrite length_app. assert (length new + unseen seen' <= unseen seen)%nat; [|lia].
    unfold unseen. rewrite <- (size_list_to_set (C := gset string) new) by done. rewrite <- size_union.
    + apply subseteq_size. intros x. rewrite elem_of_union, !elem_of_difference, elem_of_list_to_set, N2.
      intros [[Hs Hns]|[Hs Hns]]; [|split; [done | by intros ?%G6]]. split; [|done].
      assert (x ∈ result') as Hr by (apply G1 in Hs as [->|?]; [destruct Hns; apply H1; by left | done]).
      destruct (tc_first _ _ _ (G4 x Hr)) as (z & Hz & _). apply elem_of_list_to_set, list_elem_of_fmap. by exists (mkEdge x z).
    + intros x. rewrite elem_of_list_to_set, N2, elem_of_difference. tauto.
Qed.

End Blast.

Lemma Dependents_ok r name :
  exists res, Dependents r name = Some res /\ NoDup res /\ Sorted String.le res /\
    forall x, x ∈ res <-> x ≠ name /\ tc (dep (r_Edges r)) x name.
Proof.
  unfold Dependents.
  destruct (search_ok_bfs (r_Edges r) name (S (length (r_Edges r))) {[name]} [name] []) as (res & -> & Hnd & Hres).
  - split.
    + intros x. rewrite elem_of_singleton, elem_of_nil. tauto.
    + constructor.
    + by apply not_elem_of_nil.
    + by intros x ?%elem_of_nil.
    + intros x ->%list_elem_of_singleton. by apply elem_of_singleton.
    + intros x y ->%elem_of_singleton Hx. destruct Hx. by apply list_elem_of_singleton.
  - unfold unseen. simpl. pose proof (size_list_le (e_From <$> r_Edges r)) as Hl. rewrite length_fmap in Hl.
    pose proof (subseteq_size ((list_to_set (e_From <$> r_Edges r) : gset string) ∖ {[name]}) (list_to_set (e_From <$> r_Edges r)) ltac:(set_solver)). lia.
  - exists (sort_strings res). split; [done |]. split; [by apply NoDup_sort |]. split; [apply Sorted_merge_sort, _ |].
    intros x. by rewrite elem_of_sort.
Qed.
(** ** Plans *)

(** Waves in order: numbered from 0, with growing priorities, none empty, and every
    action in the wave of its priority. *)
Record waves_ok (ws : list Wave) : Prop := mkWavesOk {
  wo_index i w : ws !! i = Some w -> w_Index w = Z.of_nat i;
  wo_sorted : StronglySorted (fun a b => w_Priority a < w_Priority b) ws;
  wo_actions w : w ∈ ws -> w_Actions w ≠ [] /\ forall a, a ∈ w_Actions w -> a_Priority a = w_Priority w }.

Lemma waves_ok_snoc ws cur a :
  waves_ok (ws ++ [cur]) -> w_Priority cur < a_Priority a ->
  waves_ok ((ws ++ [cur]) ++ [mkWave (Z.of_nat (length (ws ++ [cur]))) (a_Priority a) [a]]).
Proof.
  intros [Hi Hs Ha] Hlt. split.
  - intros i w [Hw|[Hlen Hw]]%lookup_app_Some; [by apply Hi |].
    apply list_lookup_singleton_Some in Hw as [E <-]. simpl. lia.
  - apply StronglySorted_app_2; [|done | repeat constructor]. intros w w' Hw ->%list_elem_of_singleton. simpl.
    apply elem_of_app in Hw as [Hw| ->%list_elem_of_singleton]; [|done].
    pose proof (StronglySorted_app_1_elem_of _ _ _ w cur Hs Hw ltac:(by left)) as H. simpl in H. lia.
  - intros w [Hw| ->%list_elem_of_singleton]%elem_of_app; [by apply Ha |]. simpl. split; [done |].
    by intros b ->%list_elem_of_singleton.
Qed.

Lemma waves_ok_grow ws cur a :
  waves_ok (ws ++ [cur]) -> a_Priority a = w_Priority cur ->
  waves_ok (ws ++ [mkWave (w_Index cur) (w_Priority cur) (w_Actions cur ++ [a])]).
Proof.
  intros [Hi Hs Ha] Ep. split.
  - intros i w [Hw|[Hlen Hw]]%lookup_app_Some; [apply Hi; by apply lookup_app_l_Some |].
    apply list_lookup_singleton_Some in Hw as [E <-]. simpl. apply Hi. rewrite lookup_app_r by done. by rewrite E.
  - apply StronglySorted_app_2; [| by eapply StronglySorted_app_1_l | repeat constructor].
    intros w w' Hw ->%list_elem_of_singleton. simpl. by apply (StronglySorted_app_1_elem_of _ _ _ w cur Hs Hw); left.
  - intros w [Hw| ->%list_elem_of_singleton]%elem_of_app; [apply Ha, elem_of_app; by left |]. simpl. split; [by destruct (w_Actions cur) |].
    intros b [Hb| ->%list_elem_of_singleton]%elem_of_app; [|done]. apply (Ha cur); [apply elem_of_app; right; left | done].
Qed.

Lemma waves_loop_ok actions : forall ws cur,
  waves_ok (ws ++ [cur]) -> StronglySorted (fun a b => a_Priority a <= a_Priority b) actions ->
  (forall a, a ∈ actions -> w_Priority cur <= a_Priority a) ->
  let out := waves_loop actions ws cur in
  waves_ok out /\ concat (w_Actions <$> out) = concat (w_Actions <$> (ws ++ [cur])) ++ actions.
Proof.
  induction actions as [|a actions IH]; intros ws cur Hok Hsort Hle; cbn [waves_loop].
  - destruct (wo_actions _ Hok cur) as [Hne _]; [apply elem_of_app; right; left |].
    rewrite bool_decide_eq_false_2 by (by destruct (w_Actions cur)). by rewrite app_nil_r.
  - apply StronglySorted_inv in Hsort as [Hsort Ha]. rewrite Forall_forall in Ha.
    destruct (wo_actions _ Hok cur) as [Hne _]; [apply elem_of_app; right; left |].
    rewrite (bool_decide_eq_false_2 (length (w_Actions cur) = 0%nat)) by (by destruct (w_Actions cur)).
    assert (w_Priority cur <= a_Priority a) as Hca by (apply Hle; left).
    case_bool_decide as Ep; cbn [negb andb].
    + destruct (IH ws (mkWave (w_Index cur) (w_Priority cur) (w_Actions cur ++ [a]))) as [H1 H2];
        [by apply waves_ok_grow | done | intros b Hb; apply Hle; by right |].
      split; [done |]. rewrite H2. rewrite !fmap_app, !concat_app. simpl. rewrite !app_nil_r. by rewrite <- !app_assoc.
    + destruct (IH (ws ++ [cur]) (mkWave (Z.of_nat (length (ws ++ [cur]))) (a_Priority a) [a])) as [H1 H2];
        [apply waves_ok_snoc; [done | lia] | done | done |].
      split; [done |]. rewrite H2, fmap_app, concat_app. simpl. by rewrite <- app_assoc.
Qed.

#[global] Instance action_le_total : Total action_le.
Proof.
  intros a b. unfold action_le. destruct (decide (a_Priority a = a_Priority b)) as [E|E].
  - rewrite (decide_True _ _ (eq_sym E)). destruct (decide (a_Node a = a_Node b)) as [E'|E'].
    + rewrite (decide_True _ _ (eq_sym E')). apply total, _.
    + rewrite (decide_False (P := a_Node b = a_Node a)) by congruence. apply total, _.
  - rewrite (decide_False (P := a_Priority b = a_Priority a)) by congruence. lia.
Qed.

Lemma sorted_priorities l : StronglySorted (fun a b => a_Priority a <= a_Priority b) (merge_sort action_le l).
Proof.
  apply Sorted_StronglySorted; [intros a b c; lia |].
  rewrite <- (list_fmap_id (merge_sort action_le l)). eapply Sorted_fmap; [|apply Sorted_merge_sort, _].
  intros a b. unfold action_le. repeat case_decide; simpl; lia.
Qed.

(** The plan for a failed node names exactly the nodes that depend on it, directly
    or through others, each once; its actions are one for the failed node, one for
    each of these and one for each of its own dependencies; and the waves carry out
    all the actions in order, each wave one priority, lower priorities first. *)
Theorem impact_plan_exact order r failed node :
  order ≡ₚ elements (names r) -> failed ≠ "" -> FindNode r failed = Some node ->
  exists plan, PlanImpact order r failed = Some plan /\
    NoDup (p_BlastRadius plan) /\
    (forall x, x ∈ p_BlastRadius plan <-> x ≠ failed /\ tc (dep (r_Edges r)) x failed) /\
    p_Actions plan ≡ₚ plan_actions r failed node (p_BlastRadius plan) /\
    waves_ok (Waves plan) /\ concat (w_Actions <$> Waves plan) = p_Actions plan.
Proof.
  intros Ho Hf Hn. destruct (health_returns order r Ho) as [issues Hv]. unfold PlanImpact.
  rewrite Hv, bool_decide_eq_false_2 by done. rewrite Hn.
  destruct (Dependents_ok r failed) as (blast & -> & Hnd & _ & Hb). eexists. split; [done |]. simpl.
  split; [done |]. split; [done |]. split; [apply merge_sort_Permutation |]. unfold Waves. simpl.
  pose proof (sorted_priorities (plan_actions r failed node blast)) as Hs.
  destruct (merge_sort action_le _) as [|a l]; [by split; [split; [done | constructor | by intros w ?%elem_of_nil] |] |].
  apply StronglySorted_inv in Hs as [Hs Ha]. rewrite Forall_forall in Ha. cbn [waves_loop w_Priority].
  rewrite bool_decide_eq_true_2 by done. cbn [negb andb w_Index w_Actions app].
  destruct (waves_loop_ok l [] (mkWave 0 (a_Priority a) [a])) as [H1 H2]; [| done | done | by split].
  split.
  - intros i w [E <-]%list_lookup_singleton_Some. by subst.
  - repeat constructor.
  - intros w ->%list_elem_of_singleton. simpl. split; [done |]. by intros b ->%list_elem_of_singleton.
Qed.

(** ** The overall status *)

Lemma worst_ok order : forall w,
  let out := foldl (fun w n => worse w (n_Status n)) w order in
  rank w <= rank out /\ (forall n, n ∈ order -> rank (n_Status n) <= rank out) /\
  (out = w \/ exists n, n ∈ order /\ out = n_Status n).
Proof.
  induction order as [|n order IH]; intros w; cbn [foldl].
  - split; [done |]. split; [by intros n ?%elem_of_nil | by left].
  - destruct (IH (worse w (n_Status n))) as (H1 & H2 & H3).
    assert (rank w <= rank (worse w (n_Status n)) /\ rank (n_Status n) <= rank (worse w (n_Status n)) /\
      (worse w (n_Status n) = w \/ worse w (n_Status n) = n_Status n)) as (G1 & G2 & G3).
    { unfold worse, maxRank. case_bool_decide; split_and!; auto; lia. }
    split; [lia |]. split; [intros m [->|Hm]%elem_of_cons; [lia | auto] |].
    destruct H3 as [->|(m & Hm & ->)]; [|right; exists m; split; [by right | done]].
    destruct G3 as [->| ->]; [by left |]. right. exists n. split; [left | done].
Qed.

(** The overall status of a built report is that of a node, or healthy, and no node
    is worse. *)
Lemma overall_worst now order b n :
  b_nodes b ≠ ∅ -> n ∈ order -> rank (n_Status n) <= rank (r_Overall (Build now order b)).
Proof.
  intros Hne Hn. unfold Build. simpl. rewrite bool_decide_eq_false_2 by (intros E; by apply map_size_empty_inv in E).
  by destruct (worst_ok order Healthy) as (_ & H & _); apply H.
Qed.

(** A status the package does not know has the rank of [Unknown]; which of the two
    becomes the overall status depends on the order of the map. *)
Lemma overall_depends_on_order :
  let a := mkNode "a" Unknown "" ∅ in
  let b := mkNode "b" "starting" "" ∅ in
  let bld := NewBuilder |> Set_ a |> Set_ b in
  r_Overall (Build 0 [a; b] bld) = Unknown /\ r_Overall (Build 0 [b; a] bld) = "starting".
Proof. vm_compute. done. Qed.

(** ** Witnesses *)

Definition demo_report : Report :=
  mkReport 0 Healthy [mkNode "api" Healthy "" ∅; mkNode "db" Degraded "" ∅; mkNode "disk" Unhealthy "" ∅; mkNode "web" Healthy "" ∅]
    [mkEdge "api" "db"; mkEdge "db" "disk"; mkEdge "web" "api"].
Definition demo_names : list string := elements (names demo_report).

Lemma demo_validates : Validate demo_names demo_report = Some [].
Proof. vm_compute. reflexivity. Qed.

Lemma health_validate_iff_witness : well_formed demo_report.
Proof.
  destruct (health_validate_iff demo_names demo_report (Permutation_refl _)) as (issues & E & H).
  rewrite demo_validates in E. injection E as <-. by apply H.
Defined.

Definition demo_node : Node := mkNode "db" Degraded "" ∅.

Lemma impact_plan_exact_witness : exists plan, PlanImpact demo_names demo_report "db" = Some plan /\
  (forall x, x ∈ p_BlastRadius plan <-> x ≠ "db" /\ tc (dep (r_Edges demo_report)) x "db") /\ waves_ok (Waves plan).
Proof.
  destruct (impact_plan_exact demo_names demo_report "db" demo_node (Permutation_refl _) ltac:(discriminate) eq_refl)
    as (plan & E & _ & H & _ & Hw & _).
  exists plan. split; [exact E |]. split; [exact H | exact Hw].
Defined.

Example demo_plan : (fun p => (p_BlastRadius p, a_Node <$> p_Actions p)) <$> PlanImpact demo_names demo_report "db" =
  Some (["api"; "web"], ["db"; "api"; "web"; "disk"]).
Proof. vm_compute. reflexivity. Qed.
