(* ===== verification/RuntimeBuild.v ===== *)
(** * Building and closing a runtime ([runtime.go], [runtime_fabric.go])

    [NewRuntime] and [initFabric]: which subsystems a configuration enables and how they
    are wired, the failures on the way and what they leave; [Close]; the health report;
    the facades for elections and recovery.  The surroundings of the construction (clock,
    files, registration) are one record. *)

From S2P Require Import Prelude GoStrings Types BackendSpec AntiReplay Replay Config Coordinator Handoff Registry AuditLog Lockdown Guard Signing Capability Maintenance Command Security HealthGraph Runtime Paths ExecGuard Lifecycle.

(** ** Configuration *)

Inductive LocalStateMode := LocalStateMemory | LocalStateFile | LocalStateDir | LocalStateOther (s : string).

#[global] Instance LocalStateMode_eq_dec : EqDecision LocalStateMode.
Proof. solve_decision. Defined.

Record LocalStateConfig := mkLocalState {
  ls_Mode : LocalStateMode; ls_WorkflowPath : string; ls_Dir : string; ls_MaxInstances : Z }.

Record FeatureFlags := mkFeatures {
  ff_Supervisor : bool; ff_Commands : bool; ff_Maintenance : bool; ff_Lockdown : bool; ff_Capabilities : bool;
  ff_Guard : bool; ff_Audit : bool; ff_AntiReplay : bool; ff_Exec : bool; ff_Resources : bool; ff_Workflows : bool }.

(** Which workflow store the engine gets. *)
Inductive store_choice :=
| UseMemoryStore (max : Z) | UseFileStore (path : string) (max : Z) | UseJournalStore (path : string) (max : Z).

Section Build.
Context {Hash APriv ARing : Type}.
Context {S : Type} `{!BackendOps S} (genv : Z -> Env) (dur_string : Duration -> string) (lower : Z -> Z).
Abbreviation RT := (Runtime (Hash := Hash) (APriv := APriv) (ARing := ARing)).
Abbreviation AStore := (AuditLog.Store (Hash := Hash) (PrivateKey := APriv) (KeyRing := ARing)).
Abbreviation Coord := (Coordinator.Coord (S := S)).

Record RuntimeConfig := mkRuntimeConfig {
  rc_Config : Config; rc_SecurityProfile : string; rc_SecurityOverrides : option SecuritySettings;
  rc_ApplyBooleans : bool; rc_EnableSupervisor : bool; rc_EnableCommands : bool; rc_EnableMaintenance : bool;
  rc_EnableLockdown : bool; rc_EnableCapabilities : bool; rc_EnableGuard : bool; rc_EnableAudit : bool;
  rc_EnableResources : bool; rc_EnableWorkflows : bool; rc_MaxResources : Z; rc_LocalState : option LocalStateConfig;
  rc_AuditStore : option AStore; rc_MaintenancePath : string; rc_LockdownPath : string; rc_LockdownEvidencePath : string;
  rc_CapabilityOptions : list Option_; rc_SecurityEpoch : Z }.

(** [WithLocalState] and [WithLocalStateDir]. *)
Definition WithLocalState (ls : LocalStateConfig) (c : RuntimeConfig) : RuntimeConfig :=
  mkRuntimeConfig (rc_Config c) (rc_SecurityProfile c) (rc_SecurityOverrides c) (rc_ApplyBooleans c)
    (rc_EnableSupervisor c) (rc_EnableCommands c) (rc_EnableMaintenance c) (rc_EnableLockdown c) (rc_EnableCapabilities c)
    (rc_EnableGuard c) (rc_EnableAudit c) true true (rc_MaxResources c) (Some ls) (rc_AuditStore c)
    (rc_MaintenancePath c) (rc_LockdownPath c) (rc_LockdownEvidencePath c) (rc_CapabilityOptions c) (rc_SecurityEpoch c).

Definition WithLocalStateDir (dir : string) : RuntimeConfig -> RuntimeConfig :=
  WithLocalState (mkLocalState LocalStateDir "" dir 0).

(** What construction reads: the clock and capabilities of the backend, the files of
    maintenance and lockdown, whether the journal store can be opened. *)
Record build_env := mkBuildEnv {
  be_now : Time; be_caps : option Capabilities; be_maint_now : Time; be_maint_written : write_result;
  be_maint_read : file Maintenance.State; be_lock_err : option error; be_lock_readable : bool; be_lock_file : file Lockdown.State;
  be_lock_evidence : list Lockdown.Evidence; be_journal_ok : bool; be_fresh_audit : AStore }.

Inductive build_error := BErr (e : error) | BCap (e : cap_error) | BMaint (e : maintenance_error) | BExec (e : exec_err).

(** ** The fabric *)

Record Fabric := mkFabric {
  fb_resources : option Registry.Registry; fb_workflows : option store_choice; fb_wf_closed : bool;
  fb_wf_lockdown : bool; fb_wf_audit : bool; fb_wf_resources : bool;
  fb_migrations : bool; fb_failover : bool; fb_sync : bool; fb_localStateDir : string }.

Definition choose_store (journal_ok : bool) (ls : option LocalStateConfig) : store_choice * string :=
  match ls with
  | None => (UseMemoryStore 0, "")
  | Some ls =>
    let max := ls_MaxInstances ls in
    match ls_Mode ls with
    | LocalStateFile => (if bool_decide (ls_WorkflowPath ls = "") then UseMemoryStore max else UseFileStore (ls_WorkflowPath ls) max, "")
    | LocalStateDir =>
      if bool_decide (ls_Dir ls = "") then (UseMemoryStore max, "")
      else let wfDir := Join (ls_Dir ls) "workflows" in
           (if journal_ok then UseJournalStore (Join wfDir "checkpoints.journal") max
            else UseFileStore (Join wfDir "checkpoints.json") max, ls_Dir ls)
    | _ => (UseMemoryStore max, "")
    end
  end.

Definition enable_resources (c : RuntimeConfig) : bool :=
  rc_EnableResources c || bool_decide (is_Some (rc_LocalState c)) || rc_EnableWorkflows c.
Definition enable_workflows (c : RuntimeConfig) : bool :=
  rc_EnableWorkflows c || bool_decide (is_Some (rc_LocalState c)).

Definition registry_dir (ls : option LocalStateConfig) : string :=
  match ls with
  | Some ls => if bool_decide (ls_Mode ls = LocalStateDir) && negb (bool_decide (ls_Dir ls = "")) then ls_Dir ls else ""
  | None => ""
  end.

Definition initFabric (journal_ok : bool) (c : RuntimeConfig) (has_lock has_audit : bool) : Fabric :=
  let res := enable_resources c in
  let wf := enable_workflows c in
  if negb res && negb wf then mkFabric None None false false false false false false false ""
  else
    let maxRes := if bool_decide (rc_MaxResources c <= 0) then DefaultMaxResources else rc_MaxResources c in
    let '(store, dir) := choose_store journal_ok (rc_LocalState c) in
    mkFabric (if res then Some (NewRegistry maxRes has_lock) else None)
      (if wf then Some store else None) false (wf && has_lock) (wf && has_audit) (wf && res) res res res
      (if wf && negb (bool_decide (dir = "")) then dir else if res then registry_dir (rc_LocalState c) else "").

(** [resourceLockdown.BlocksMutations]. *)
Definition BlocksMutations (m : option Lockdown.Manager) : bool :=
  match m with
  | None => false
  | Some m =>
    if negb (Lockdown.Active m) then false
    else bool_decide (ld_Mode (Lockdown.m_state m) ∈ [ModeFailClosed; ModeFullService; ModeIsolateClaims; ModeRestricted])
  end.

(** ** Construction *)

Record Built := mkBuilt {
  bt_rt : RT; bt_coord : Coord; bt_cfg : RuntimeConfig; bt_replay : option ReplayCache; bt_exec : ExecGuard.Policy;
  bt_sup : bool; bt_sup_closed : bool; bt_cmds : option Command.Registry; bt_features : FeatureFlags; bt_fabric : Fabric;
  bt_elections : gmap string nat; bt_running : list nat }.

(** The loop that aligns the epoch of the authority: one step per epoch. *)
Fixpoint align_epoch (fuel : nat) (target : Z) (a : Authority) : option (cap_error + Authority) :=
  if bool_decide (a_epoch a < target) then
    match fuel with
    | O => None
    | Datatypes.S fuel =>
      match Capability.AdvanceEpoch a with
      | (_, (_, Some e)) => Some (inl e)
      | (a, (_, None)) => align_epoch fuel target a
      end
    end
  else Some (inr a).

Definition default_rule (name permission : string) (priority : Z) : Guard.Rule :=
  Guard.mkRule name "" permission "" "" "deny" None priority.

Definition default_rules : list Guard.Rule :=
  let e := (AddRule (default_rule "deny-force-release" "claim.force_release" 0) []).1 in
  let e := (AddRule (default_rule "deny-lockdown" "lockdown.*" 0) e).1 in
  (AddRule (default_rule "deny-exec" "exec.*" 100) e).1.

Definition capability_options (ar : option Cache) (c : RuntimeConfig) : list Option_ :=
  rc_CapabilityOptions c ++ match ar with Some a => [WithReplayCache (Some a)] | None => [] end.

(** [NewRuntime]; [None] is an alignment of epochs that is still running.  The
    coordinator is returned with an error once it exists: [coord.Close] or
    [partialClose] has closed it. *)
Definition NewRuntime (fuel : nat) (env : build_env) (c : RuntimeConfig) (s : S)
  : option (S * ((build_error * option Coord) + Built)) :=
  let sec := Security.resolve (rc_SecurityProfile c) (rc_SecurityOverrides c) (rc_ApplyBooleans c) in
  match Lifecycle.New genv dur_string (be_now env) (be_caps env) (rc_Config c) s with
  | (s, inl e) => Some (s, inl (BErr e, None))
  | (s, inr coord) =>
    let abandon e := let coord := Coordinator.Close genv coord in Some (backend coord, inl (e, Some coord)) in
    let replay := if AntiReplayEnabled sec then Some (NewReplayCache (AntiReplayMaxEntries sec)) else None in
    let ar := if AntiReplayEnabled sec then Some (AntiReplay.New (AntiReplayMaxEntries sec)) else None in
    let audit := if rc_EnableAudit c || AuditEnabled sec then Some (default (be_fresh_audit env) (rc_AuditStore c)) else None in
    let guard := if rc_EnableGuard c || DenyPrivilegedByDefault sec then Some default_rules else None in
    let caps_on := rc_EnableCapabilities c || RequireCapabilityForPrivileged sec in
    match (if caps_on then align_epoch fuel (rc_SecurityEpoch c) (Capability.New (capability_options ar c))
           else Some (inr (Capability.New []))) with
    | None => None
    | Some (inl e) => abandon (BCap e)
    | Some (inr authority) =>
      match ExecGuard.New lower (ExecGuard.mkPolicy [] 0 0 [] "" (negb (AllowExec sec))) with
      | inl e => abandon (BExec e)
      | inr exec =>
        match (if rc_EnableMaintenance c
               then match Maintenance.New (negb (bool_decide (rc_MaintenancePath c = ""))) 0 (be_maint_now env) (be_maint_written env) (be_maint_read env) with
                    | inl e => inl e | inr m => inr (Some m) end
               else inr None) with
        | inl e => abandon (BMaint e)
        | inr maint =>
          match (if rc_EnableLockdown c then be_lock_err env else None) with
          | Some e => abandon (BErr e)
          | None =>
            let lock := if rc_EnableLockdown c
              then Some (Lockdown.New (negb (bool_decide (rc_LockdownPath c = ""))) (negb (bool_decide (rc_LockdownEvidencePath c = "")))
                           0 (be_lock_readable env) (be_lock_file env) (be_lock_evidence env))
              else None in
            let fab := initFabric (be_journal_ok env) c (rc_EnableLockdown c) (bool_decide (is_Some (const tt <$> audit))) in
            let rt := mkRuntime sec (rc_SecurityEpoch c) (if caps_on then Some authority else None) guard audit maint lock false false [] in
            Some (s, inr (mkBuilt rt coord c replay exec (rc_EnableSupervisor c) false
              (if rc_EnableCommands c then Some (Command.New (MaxCommandBodyBytes sec) (DefaultCommandDeadline sec) 0) else None)
              (mkFeatures (rc_EnableSupervisor c) (rc_EnableCommands c) (rc_EnableMaintenance c) (rc_EnableLockdown c) caps_on
                 (rc_EnableGuard c || DenyPrivilegedByDefault sec) (rc_EnableAudit c || AuditEnabled sec) (AntiReplayEnabled sec)
                 (AllowExec sec) (enable_resources c) (enable_workflows c))
              fab ∅ []))
          end
        end
      end
    end
  end.

(** ** Closing *)

Definition close_commands (r : Command.Registry) : Command.Registry :=
  Command.mkRegistry (r_cmds r) (r_idem r) (r_idemMax r) true (r_maxBody r) (r_deadline r).

Definition close_fabric (f : Fabric) : Fabric :=
  mkFabric (Registry_Close <$> fb_resources f) (fb_workflows f) (bool_decide (is_Some (fb_workflows f))) (fb_wf_lockdown f) (fb_wf_audit f) (fb_wf_resources f) (fb_migrations f) (fb_failover f)
    (fb_sync f) (fb_localStateDir f).

(** [Close]: the elections it knows of, the supervisor, the commands, the engine, the
    registry and the coordinator. *)
Definition Runtime_Close (b : Built) : Built :=
  if rt_closed (bt_rt b) then b
  else
    mkBuilt (set_closed true (bt_rt b)) (Coordinator.Close genv (bt_coord b)) (bt_cfg b) (bt_replay b) (bt_exec b)
      (bt_sup b) (bt_sup b) (close_commands <$> bt_cmds b) (bt_features b)
      (close_fabric (bt_fabric b)) (bt_elections b)
      (filter (fun e => e ∉ (map_to_list (bt_elections b)).*2) (bt_running b)).

(** [ElectionFacade.Join]; [joined] is the number of the election that was started,
    or the error of [election.Join]. *)
Definition Join_election (name : string) (joined : error + nat) (b : Built) : Built * option error :=
  match checkControlGates "Election.Join" (bt_rt b) with
  | Some e => (b, Some e)
  | None =>
    match joined with
    | inl e => (b, Some e)
    | inr n => (mkBuilt (bt_rt b) (bt_coord b) (bt_cfg b) (bt_replay b) (bt_exec b) (bt_sup b) (bt_sup_closed b) (bt_cmds b)
                  (bt_features b) (bt_fabric b) (<[name := n]> (bt_elections b)) (n :: bt_running b), None)
    end
  end.

Definition Recovery_Plan (claim : string) (reply : error + ClaimRecord) (r : RT) : RecoveryPlan :=
  if rt_quarantined r
  then mkPlan claim "quarantined" ["inspect_audit"; "clear_quarantine_with_auth"] true 0 ""
  else PlanRecovery claim reply.

(** ** Health *)

Definition mapLegacyHealth (s : Lifecycle.HealthStatus) : string :=
  match s with
  | Lifecycle.HealthOK => Healthy | Lifecycle.HealthDegraded => Degraded | Lifecycle.HealthFailing => Unhealthy
  | Lifecycle.HealthUnknown => Unknown
  end.

Definition plain_node (name status message : string) : Node := mkNode name status message ∅.

(** The nodes [Health] sets; [maint] is the state of an active maintenance window. *)
Definition health_builder (base : HealthReport) (maint : option Maintenance.State) (r : RT) : Builder :=
  let b := NewBuilder |> Set_ (plain_node "process" (mapLegacyHealth (hr_Process base)) "")
                      |> Set_ (plain_node "backend" (mapLegacyHealth (hr_Backend base)) "")
                      |> Set_ (plain_node "coordinator" (mapLegacyHealth (hr_Coordinator base)) "")
                      |> Set_ (plain_node "ownership" (mapLegacyHealth (hr_Ownership base)) "")
                      |> Link "coordinator" "backend" |> Link "ownership" "coordinator" in
  let b := if rt_quarantined r then Set_ (plain_node "quarantine" Quarantined "generation quarantined") b else b in
  let b := match rt_lock r with
           | Some m => if Lockdown.Active m then Set_ (plain_node "lockdown" LockedDown (ld_Reason (Lockdown.m_state m))) b else b
           | None => b
           end in
  match maint with Some st => Set_ (plain_node "maintenance" Blocked (mt_Reason st)) b | None => b end.

Definition Runtime_Health (now : Time) (order : list Node) (base : HealthReport) (maint : option Maintenance.State) (r : RT) : Report :=
  Build now order (health_builder base maint r).

(** ** Aligning the epoch *)

(** The cache of the authority, when there is one, is at its epoch. *)
Definition epochs_agree (a : Authority) : Prop :=
  is_u64 (a_epoch a) /\ forall c, a_replay a = Some c -> c_epoch c = a_epoch a.

Lemma AdvanceEpoch_next a : epochs_agree a -> a_epoch a < u64_modulus - 1 ->
  exists a', Capability.AdvanceEpoch a = (a', (a_epoch a + 1, None)) /\ a_epoch a' = a_epoch a + 1 /\ epochs_agree a'.
Proof.
  intros [Hu Hr] Hlt. unfold Capability.AdvanceEpoch, epochs_agree. unfold is_u64 in *.
  assert (u64 (a_epoch a + 1) = a_epoch a + 1) as Hw by (apply u64_small; unfold is_u64; lia).
  destruct (a_replay a) as [c|] eqn:E.
  - specialize (Hr c eq_refl). unfold AntiReplay.AdvanceEpoch. rewrite Hr, bool_decide_false by lia. cbn zeta. rewrite Hw.
    eexists. split; [reflexivity |]. split; [done |]. split; [simpl; lia |]. simpl. by intros c' [= <-].
  - rewrite bool_decide_false by lia. rewrite Hw. eexists. split; [reflexivity |]. split; [done |].
    split; [simpl; lia |]. intros c'. cbn. rewrite E. done.
Qed.

(** The loop ends after exactly as many steps as there are epochs to go. *)
Lemma align_epoch_reaches target : is_u64 target -> forall fuel a, epochs_agree a ->
  if bool_decide (target - a_epoch a <= Z.of_nat fuel)
  then exists a', align_epoch fuel target a = Some (inr a') /\ a_epoch a' = Z.max (a_epoch a) target
  else align_epoch fuel target a = None.
Proof.
  intros Ht. unfold is_u64 in Ht. induction fuel as [|fuel IH]; intros a Ha; cbn [align_epoch].
  - destruct (bool_decide_reflect (target - a_epoch a <= Z.of_nat 0)); destruct (bool_decide_reflect (a_epoch a < target)); try lia; [|done].
    exists a. split; [done | lia].
  - destruct (bool_decide_reflect (a_epoch a < target)) as [Hlt|Hge].
    + destruct (AdvanceEpoch_next a Ha ltac:(lia)) as (a' & -> & He & Ha'). specialize (IH a' Ha'). rewrite He in IH.
      destruct (bool_decide_reflect (target - a_epoch a <= Z.of_nat (Datatypes.S fuel))) as [Hd|Hd].
      * rewrite bool_decide_true in IH by lia. destruct IH as (a2 & H2 & Hm). exists a2. split; [done | lia].
      * by rewrite bool_decide_false in IH by lia.
    + rewrite bool_decide_true by lia. exists a. split; [done | lia].
Qed.

(** Options without a used cache give an authority at epoch zero. *)
Lemma New_epoch opts : Forall (fun o => match o with WithReplayCache (Some c) => c_epoch c = 0 | _ => True end) opts ->
  epochs_agree (Capability.New opts) /\ a_epoch (Capability.New opts) = 0.
Proof.
  intros Ho. unfold Capability.New.
  assert (forall a, epochs_agree a /\ a_epoch a = 0 ->
    epochs_agree (foldl apply_option a opts) /\ a_epoch (foldl apply_option a opts) = 0) as H.
  { induction Ho as [|o opts Ho _ IH]; intros a Ha; [done |]. cbn [foldl]. apply IH. destruct Ha as [[Hu Hr] H0].
    destruct o as [k r|r|[c|]]; (split; [split |]); try done. cbn [apply_option with_replay a_replay a_epoch]. intros c' [= <-]. lia. }
  apply H. split; [|done]. split; [by vm_compute |]. by intros c [= <-].
Qed.

(** ** What construction returns *)

Lemma Close_closed (c : Coord) : co_closed (Coordinator.Close genv c) = true.
Proof.
  unfold Coordinator.Close. destruct (co_closed c) eqn:E; [done |]. unfold setState, Coordinator.emit. simpl.
  repeat case_match; simplify_eq/=; done.
Qed.

Lemma exec_New_empty dry g : ExecGuard.New lower (ExecGuard.mkPolicy [] 0 0 [] "" dry) = inr g -> pl_Commands g = [].
Proof. unfold ExecGuard.New. simpl. by intros [= <-]. Qed.

(** The subsystems of [b] are those its configuration and security settings ask for. *)
Record wired (c : RuntimeConfig) (b : Built) : Prop := mkWired {
  wi_fresh : rt_closed (bt_rt b) = false /\ rt_quarantined (bt_rt b) = false /\ bt_running b = [];
  wi_exec : pl_Commands (bt_exec b) = [];
  wi_lock : is_Some (rt_lock (bt_rt b)) <-> rc_EnableLockdown c = true;
  wi_maint : is_Some (rt_maint (bt_rt b)) <-> rc_EnableMaintenance c = true;
  wi_guard : rt_guard (bt_rt b) = (if rc_EnableGuard c || DenyPrivilegedByDefault (rt_sec (bt_rt b)) then Some default_rules else None);
  wi_caps : is_Some (rt_caps (bt_rt b)) <-> rc_EnableCapabilities c || RequireCapabilityForPrivileged (rt_sec (bt_rt b)) = true;
  wi_cmds : is_Some (bt_cmds b) <-> rc_EnableCommands c = true;
  wi_registry : fb_resources (bt_fabric b) =
    if enable_resources c
    then Some (NewRegistry (if bool_decide (rc_MaxResources c <= 0) then DefaultMaxResources else rc_MaxResources c) (rc_EnableLockdown c))
    else None;
  wi_engine : is_Some (fb_workflows (bt_fabric b)) <-> enable_workflows c = true }.

Lemma is_Some_if {A} (b : bool) (x : A) : is_Some (if b then Some x else None) <-> b = true.
Proof. destruct b; split; [done | by eexists | by intros [? [=]] | done]. Qed.

Lemma initFabric_spec j (c : RuntimeConfig) l a :
  let f := initFabric j c l a in
  fb_resources f = (if enable_resources c
    then Some (NewRegistry (if bool_decide (rc_MaxResources c <= 0) then DefaultMaxResources else rc_MaxResources c) l) else None) /\
  (is_Some (fb_workflows f) <-> enable_workflows c = true).
Proof.
  cbn zeta. unfold initFabric. destruct (enable_resources c) eqn:Er, (enable_workflows c) eqn:Ew; cbn [negb andb];
    try destruct (choose_store j (rc_LocalState c)) as [st d]; cbn [fb_resources fb_workflows];
    (split; [done |]); split; try done; try (by eexists); by intros [? [=]].
Qed.

(** Construction ends, and leaves nothing half-built: with fuel for the epochs to
    come it returns; on success the subsystems are exactly those the configuration and
    the security settings ask for, the capability authority is at the configured epoch,
    and every gate is open; on a failure after the coordinator was made, that
    coordinator is closed. *)
Theorem runtime_builds fuel env (c : RuntimeConfig) (s : S) :
  is_u64 (rc_SecurityEpoch c) -> rc_SecurityEpoch c <= Z.of_nat fuel ->
  Forall (fun o => match o with WithReplayCache (Some c) => c_epoch c = 0 | _ => True end) (rc_CapabilityOptions c) ->
  exists s' r, NewRuntime fuel env c s = Some (s', r) /\
  match r with
  | inl (_, Some coord) => co_closed coord = true
  | inl (_, None) => True
  | inr b => wired c b /\ (forall a, rt_caps (bt_rt b) = Some a -> a_epoch a = rc_SecurityEpoch c)
  end.
Proof.
  intros Hu Hf Ho. unfold NewRuntime. destruct (Lifecycle.New _ _ _ _ _ _) as [s1 [e|coord]]; [by do 2 eexists |]. cbn zeta.
  set (sec := Security.resolve _ _ _). set (ar := if AntiReplayEnabled sec then Some _ else None).
  set (caps_on := _ || RequireCapabilityForPrivileged sec).
  assert (exists a, (if caps_on then align_epoch fuel (rc_SecurityEpoch c) (Capability.New (capability_options ar c))
      else Some (inr (Capability.New []))) = Some (inr a) /\ (caps_on = true -> a_epoch a = rc_SecurityEpoch c)) as (a & -> & Ha).
  { destruct caps_on; [|by eexists].
    destruct (New_epoch (capability_options ar c)) as [Hag H0].
    { apply Forall_app. split; [done |]. subst ar. destruct (AntiReplayEnabled sec); repeat constructor. }
    pose proof (align_epoch_reaches (rc_SecurityEpoch c) Hu fuel _ Hag) as Hr. rewrite H0, bool_decide_true in Hr by lia.
    destruct Hr as (a & Hr & Hm). exists a. split; [done |]. unfold is_u64 in Hu. lia. }
  destruct (ExecGuard.New _ _) as [e|exec] eqn:Ee; [eexists _, _; split; [done |]; apply Close_closed |].
  apply exec_New_empty in Ee.
  destruct (if rc_EnableMaintenance c then _ else inr None) as [e|maint] eqn:Em; [eexists _, _; split; [done |]; apply Close_closed |].
  destruct (if rc_EnableLockdown c then be_lock_err env else None) as [e|] eqn:El; [eexists _, _; split; [done |]; apply Close_closed |].
  eexists _, _. split; [reflexivity |]. cbn [bt_rt rt_caps].
  match goal with |- context [initFabric ?j c ?l ?x] => destruct (initFabric_spec j c l x) as [Hreg Hwf] end.
  split.
  - split; cbn [bt_rt bt_exec bt_cmds bt_fabric bt_running rt_closed rt_quarantined rt_lock rt_maint rt_guard rt_caps rt_sec]; try done;
      try apply is_Some_if.
    destruct (rc_EnableMaintenance c); [destruct (Maintenance.New _ _ _ _ _); simplify_eq; split; [done | by eexists] |].
    injection Em as <-. split; [by intros [? [=]] | done].
  - intros a' H. fold caps_on in H. destruct caps_on; [injection H as <-; by apply Ha | done].
Qed.

(** ** Closing *)

(** After [Close] everything refuses, and a second [Close] changes nothing: the
    gates answer that the runtime is closed, the coordinator, the command registry and the
    workflow engine are closed, no call changes the resources, no election of the table is running. *)
Theorem runtime_close_final (b : Built) :
  let b' := Runtime_Close b in
  (rt_closed (bt_rt b) = false ->
    co_closed (bt_coord b') = true /\ (forall r, bt_cmds b' = Some r -> r_closed r = true) /\
    (is_Some (fb_workflows (bt_fabric b')) -> fb_wf_closed (bt_fabric b') = true) /\
    (forall r, fb_resources (bt_fabric b') = Some r -> rg_closed r = true /\ forall customs blocks now res meta,
       frozen r (Registry.Register customs blocks now r res meta).1 /\ exists e, (Registry.Register customs blocks now r res meta).2 = inl e) /\
    (forall e, e ∈ bt_running b' -> e ∉ (map_to_list (bt_elections b)).*2)) /\
  (forall op, checkControlGates op (bt_rt b') =
     Some (gate_error op ErrRuntimeClosed "forbidden" "security" "runtime closed")) /\
  Runtime_Close b' = b'.
Proof.
  cbn zeta. destruct (rt_closed (bt_rt b)) eqn:E.
  - assert (Runtime_Close b = b) as Hb by (unfold Runtime_Close; by rewrite E).
    rewrite !Hb. split; [done |]. split; [|done]. intros op. unfold checkControlGates. by rewrite E.
  - assert (rt_closed (bt_rt (Runtime_Close b)) = true) as Hc by (unfold Runtime_Close; rewrite E; done).
    split; [|split; [intros op; unfold checkControlGates; by rewrite Hc | unfold Runtime_Close at 1; by rewrite Hc]].
    intros _. unfold Runtime_Close. rewrite E. cbn [bt_coord bt_cmds bt_fabric bt_running close_fabric fb_resources].
    split; [apply Close_closed |]. split; [by intros r (r0 & _ & ->)%fmap_Some_1 |].
    split; [simpl; intros [st ->]; done |]. split.
    + intros r (r0 & _ & ->)%fmap_Some_1. split; [done |]. intros. apply frozen_register. by left.
    + intros e [? _]%list_elem_of_filter. done.
Qed.

(** ** Lockdown, guard and commands of a built runtime *)

(** While the lockdown manager of a built runtime blocks mutations, its registry,
    whatever it has come to hold, refuses every call and keeps its contents. *)
Lemma lockdown_freezes (c : RuntimeConfig) (b : Built) r r' customs :
  let blocks := BlocksMutations (rt_lock (bt_rt b)) in
  wired c b -> blocks = true -> fb_resources (bt_fabric b) = Some r -> rg_lockdown r' = rg_lockdown r ->
  (forall now res meta, frozen r' (Registry.Register customs blocks now r' res meta).1 /\
     exists e, (Registry.Register customs blocks now r' res meta).2 = inl e) /\
  (forall id, frozen r' (Registry.Remove blocks r' id).1 /\ (Registry.Remove blocks r' id).2 ≠ None) /\
  (forall id reason, frozen r' (Registry.Advance blocks r' id reason).1 /\ exists e, (Registry.Advance blocks r' id reason).2 = inl e).
Proof.
  cbn zeta. intros Hw Hb Hr Hk.
  assert (rc_EnableLockdown c = true) as Hen by (apply (wi_lock _ _ Hw); destruct (rt_lock (bt_rt b)); [by eexists | done]).
  rewrite (wi_registry _ _ Hw) in Hr. destruct (enable_resources c); [|done]. injection Hr as <-. simpl in Hk. rewrite Hen in Hk.
  assert (rg_closed r' = true \/ (rg_lockdown r' = true /\ BlocksMutations (rt_lock (bt_rt b)) = true)) as Hfz by (by right).
  split; [intros; by apply frozen_register |]. destruct (frozen_others _ _ Hfz) as (H1 & H2 & _). by split.
Qed.

(** The rules a runtime starts with allow nothing, and the guard of commands it is
    built with starts no process. *)
Lemma default_rules_deny req : Evaluate default_rules req = "deny".
Proof.
  destruct (guard_decides default_rules req) as [_ [(i & r & (Hi & _) & Hx)|[_ H]]]; [unfold default_rules; repeat constructor | | done].
  unfold Evaluate. rewrite Hx. cbn [ex_Decision].
  assert (Forall (fun r => ru_Decision r = "deny") default_rules) as Hd by (vm_compute; repeat constructor).
  rewrite Forall_lookup in Hd. by apply (Hd i).
Qed.

Lemma runtime_starts_no_process (c : RuntimeConfig) (b : Built) environ process req :
  wired c b -> (ExecGuard.Run lower environ process (bt_exec b) req).1 = [].
Proof. intros Hw. by apply empty_policy_denies, (wi_exec c). Qed.

(** Two elections joined under one name: [Close] stops the second only. *)
Lemma joined_twice_leaks (b : Built) :
  rt_closed (bt_rt b) = false -> (forall op, checkControlGates op (bt_rt b) = None) -> bt_elections b = ∅ -> bt_running b = [] ->
  bt_running (Runtime_Close (Join_election "leader" (inr 2%nat) (Join_election "leader" (inr 1%nat) b).1).1) = [1%nat].
Proof.
  intros Hc Hg He Hr. unfold Join_election. rewrite Hg. cbn [fst bt_rt]. rewrite Hg. cbn [fst].
  unfold Runtime_Close. cbn [bt_rt bt_running bt_elections]. rewrite Hc, He, Hr. cbn [bt_running].
  vm_compute. reflexivity.
Qed.

(** A rule added later at priority zero overrides the denial of lockdown calls the
    runtime starts with. *)
Lemma later_rule_unlocks :
  Evaluate (AddRule (Guard.mkRule "ops" "" "lockdown.*" "" "" "allow" None 0) default_rules).1
    (Guard.mkRequest "svc" "lockdown.enter" "" "") = "allow".
Proof. vm_compute. reflexivity. Qed.
End Build.
