(* ===== verification/Gates.v ===== *)
(** * Readiness gates ([readiness.go])

    A gate is checked until it has succeeded [StableSuccesses] times in a row, with
    a number of retries after failures; a set of gates is evaluated one after the
    other or in parallel.  What the checks answer, when the context ends and what
    the clock reads depends on the number of attempts made so far. *)

From S2P Require Import Prelude GoStrings Types.
#[local] Open Scope Z_scope.

(** ** Data *)

(** [g_Check] answers by the number of the attempt, from 1; [None] is a nil
    function.  Timeouts and delays only change when the context of a check ends. *)
Record Gate := mkGate {
  g_Name : string; g_Check : option (Z -> option string); g_Required : bool; g_Optional : bool;
  g_Retries : Z; g_StableSuccesses : Z }.

Record GateReport := mkGateReport {
  gr_Name : string; gr_Passed : bool; gr_Required : bool; gr_Attempts : Z; gr_Duration : Duration; gr_Err : string }.

Record ReadinessReport := mkReadinessReport { rr_Passed : bool; rr_Duration : Duration; rr_Gates : list GateReport }.

Definition required (g : Gate) : bool :=
  if g_Optional g then false
  else if negb (g_Required g) && g_Optional g then false
  else negb (g_Optional g).

Definition stableNeed (g : Gate) : Z := if bool_decide (g_StableSuccesses g <= 0) then 1 else g_StableSuccesses g.

(** What surrounds one evaluation: [ctx.Err()] at the top of the loop after so many
    attempts, the end of the context during the delay after an attempt, and the
    clock. *)
Record GateEnv := mkGateEnv {
  ge_ctx : Z -> option string; ge_wait : Z -> option string; ge_start : Time; ge_stop : Z -> Time }.

Definition runCheck (g : Gate) (attempt : Z) : option string :=
  match g_Check g with None => None | Some f => f attempt end.

Section Eval.
Context (env : GateEnv) (g : Gate).

Definition report (passed : bool) (attempts : Z) (err : string) : GateReport :=
  mkGateReport (g_Name g) passed (required g) attempts (i64 (ge_stop env attempts - ge_start env)) err.

(** The loop; [None] when [fuel] is used up. *)
Fixpoint gate_loop (fuel : nat) (stable attempts retries : Z) (lastErr : option string) : option GateReport :=
  if bool_decide (stableNeed g <= stable) then
    Some (report (bool_decide (lastErr = None) && bool_decide (stableNeed g <= stable)) attempts (default "" lastErr))
  else
    match fuel with
    | O => None
    | S fuel =>
      match ge_ctx env attempts with
      | Some e => Some (report false attempts e)
      | None =>
        let attempts := attempts + 1 in
        match runCheck g attempts with
        | None => gate_loop fuel (stable + 1) attempts retries None
        | Some err =>
          if bool_decide (retries <= 0) then Some (report false attempts err)
          else
            match ge_wait env attempts with
            | Some e => Some (report false attempts e)
            | None => gate_loop fuel 0 attempts (retries - 1) (Some err)
            end
        end
      end
    end.

(** Rounds that suffice: every retry may cost a run of successes. *)
Definition max_attempts : Z := stableNeed g * (Z.max 0 (g_Retries g) + 1).

Definition evalGate : option GateReport := gate_loop (Z.to_nat max_attempts) 0 0 (g_Retries g) None.
End Eval.

(** [fmt.Errorf("gate %q failed: %s", ...)], without the quoting. *)
Definition gate_error (g : Gate) (rep : GateReport) : error :=
  TextErr ("gate " +:+ g_Name g +:+ " failed: " +:+ gr_Err rep).

(** [firstErr] is only set once. *)
Definition keep_first (firstErr new : option error) : option error :=
  match firstErr with Some e => Some e | None => new end.

Definition failure (g : Gate) (rep : GateReport) : option error :=
  if negb (gr_Passed rep) && required g then Some (gate_error g rep) else None.

(** [runSequential]: gates with their surroundings, and [ctx.Err()] after each. *)
Fixpoint runSequential (gates : list (Gate * GateEnv * option ctx_error)) (reports : list GateReport) (firstErr : option error)
  : option (list GateReport * option error) :=
  match gates with
  | [] => Some (reports, firstErr)
  | (g, env, ctx) :: gates =>
    match evalGate env g with
    | None => None
    | Some rep =>
      let firstErr := keep_first firstErr (failure g rep) in
      let firstErr := keep_first firstErr (CtxErr <$> ctx) in
      runSequential gates (reports ++ [rep]) firstErr
    end
  end.

(** [runParallel]: [order] lists the gates as they finish; report [i] goes to place
    [i]. *)
Definition runParallel (gates : list (Gate * GateEnv)) (order : list nat) : option (list GateReport * option error) :=
  match mapM (fun x => evalGate x.2 x.1) gates with
  | None => None
  | Some reports =>
    let first := foldl (fun acc i =>
      match gates !! i, reports !! i with
      | Some (g, _), Some rep => keep_first acc (failure g rep)
      | _, _ => acc
      end) None order in
    Some (reports, first)
  end.

(** The end of [Run]. *)
Definition finish (start stop : Time) (r : list GateReport * option error) : ReadinessReport * option error :=
  (mkReadinessReport (bool_decide (r.2 = None)) (i64 (stop - start)) r.1,
   match r.2 with None => None | Some e => Some (mkError "readiness" ErrNotReady (base_text e)) end).

(** ** One gate *)

Section Props.
Context (env : GateEnv) (g : Gate).

(** What a gate asks for, in the terms of its documentation: it is required unless it
    is [Optional]; it needs [StableSuccesses] successes in a row, at least one; a gate
    without a check succeeds; it is allowed [Retries] failures, none when negative. *)
Definition is_required : Prop := g_Optional g = false.
Definition demanded : Z := Z.max 1 (g_StableSuccesses g).
Definition allowed : Z := Z.max 0 (g_Retries g).
Definition answer (i : Z) : option string := match g_Check g with Some f => f i | None => None end.

Lemma stableNeed_demanded : stableNeed g = demanded.
Proof. unfold stableNeed, demanded. case_bool_decide; lia. Qed.

Lemma required_spec : required g = true <-> is_required.
Proof. unfold required, is_required. by destruct (g_Optional g), (g_Required g). Qed.

Lemma stableNeed_pos : 1 <= stableNeed g.
Proof. rewrite stableNeed_demanded. unfold demanded. lia. Qed.

(** The last [n] of [k] attempts succeeded. *)
Definition last_ok (n k : Z) : Prop := n <= k /\ forall i, k - n < i <= k -> answer i = None.

(** Attempts that the loop may still make. *)
Definition budget (stable retries : Z) : Z := stableNeed g - stable + stableNeed g * Z.max 0 retries.

(** The failures among the first [k] attempts. *)
Definition failures (k : Z) : nat := length (filter (fun i => answer i ≠ None) (seqZ 1 k)).

(** What a report says: a gate that passed did so with the last attempts, as many in a
    row as it asks for; one that did not met the end of the context, or failed at its
    last attempt with no retry left. *)
Record gate_spec (rep : GateReport) : Prop := mkGateSpec {
  gs_name : gr_Name rep = g_Name g;
  gs_required : gr_Required rep = true <-> is_required;
  gs_bound : 0 <= gr_Attempts rep <= demanded * (allowed + 1);
  gs_passed : gr_Passed rep = true -> last_ok demanded (gr_Attempts rep);
  gs_failed : gr_Passed rep = false ->
    (exists k, ge_ctx env k = Some (gr_Err rep)) \/ (exists k, ge_wait env k = Some (gr_Err rep)) \/
    (answer (gr_Attempts rep) = Some (gr_Err rep) /\ Z.of_nat (failures (gr_Attempts rep)) = allowed + 1) }.

Lemma failures_next k :
  0 <= k -> failures (k + 1) = (failures k + if decide (runCheck g (k + 1) ≠ None) then 1 else 0)%nat.
Proof.
  intros Hk. unfold failures. rewrite seqZ_app by lia. replace (1 + k) with (k + 1) by lia.
  assert (seqZ (k + 1) 1 = [k + 1]) as -> by (rewrite seqZ_cons by lia; done).
  rewrite filter_app, length_app, filter_cons. f_equal. change (runCheck g (k + 1)) with (answer (k + 1)). by case_decide.
Qed.

(** Reports of the three ways the loop ends. *)
Lemma passed_spec stable attempts :
  stable = stableNeed g -> 0 <= attempts <= max_attempts g -> last_ok stable attempts ->
  gate_spec (report env g true attempts "").
Proof.
  intros E Hb Hl. unfold max_attempts in Hb. rewrite stableNeed_demanded in *. subst stable.
  split; simpl; [done | apply required_spec | exact Hb | done | done].
Qed.

Lemma failed_spec attempts err :
  0 <= attempts <= max_attempts g ->
  (exists k, ge_ctx env k = Some err) \/ (exists k, ge_wait env k = Some err) \/
  (runCheck g attempts = Some err /\ Z.of_nat (failures attempts) = Z.max 0 (g_Retries g) + 1) ->
  gate_spec (report env g false attempts err).
Proof.
  intros Hb Hf. unfold max_attempts in Hb. rewrite stableNeed_demanded in Hb.
  split; simpl; [done | apply required_spec | exact Hb | done | intros _; exact Hf].
Qed.

Lemma gate_loop_ok fuel : forall stable attempts retries lastErr,
  0 <= stable <= stableNeed g -> 0 <= attempts -> budget stable retries <= Z.of_nat fuel ->
  attempts + budget stable retries <= max_attempts g -> last_ok stable attempts ->
  (stable = stableNeed g -> lastErr = None) ->
  Z.of_nat (failures attempts) + Z.max 0 retries = Z.max 0 (g_Retries g) ->
  exists rep, gate_loop env g fuel stable attempts retries lastErr = Some rep /\ gate_spec rep.
Proof.
  pose proof stableNeed_pos as Hneed.
  induction fuel as [|fuel IH]; intros stable attempts retries lastErr Hs Ha Hf Hb Hl He Hr.
  - assert (stable = stableNeed g) as E by (unfold budget in Hf; nia). simpl.
    rewrite bool_decide_eq_true_2 by lia. eexists. split; [done |]. rewrite (He E).
    eapply passed_spec; [exact E | unfold budget in Hb; nia | done].
  - simpl. case_bool_decide as Ed.
    + assert (stable = stableNeed g) as E by lia. eexists. split; [done |]. rewrite (He E).
      eapply passed_spec; [exact E | unfold budget in Hb; nia | done].
    + assert (0 <= attempts <= max_attempts g) as Hat by (unfold budget in Hb; nia).
      assert (0 <= attempts + 1 <= max_attempts g) as Hat' by (unfold budget in Hb; nia).
      destruct (ge_ctx env attempts) as [e|] eqn:Ec; [eexists; split; [done |]; apply failed_spec; eauto |].
      pose proof (failures_next attempts Ha) as Hfn. destruct Hl as [Hle Hl].
      destruct (runCheck g (attempts + 1)) as [err|] eqn:Er.
      * rewrite decide_True in Hfn by done.
        case_bool_decide as Ert; [eexists; split; [done |]; apply failed_spec; [done | right; right; split; [done | lia]] |].
        destruct (ge_wait env (attempts + 1)) as [e|] eqn:Ew; [eexists; split; [done |]; apply failed_spec; eauto |].
        apply IH; [lia | lia | unfold budget in *; nia | unfold budget in *; nia | split; [lia | intros i Hi; lia] | intros; lia | lia].
      * rewrite decide_False in Hfn by tauto. apply IH; [lia | lia | unfold budget in *; nia | unfold budget in *; nia | | done | lia].
        split; [lia |]. intros i Hi. destruct (decide (i = attempts + 1)) as [->|]; [done |]. apply Hl. lia.
Qed.

Lemma evalGate_ok : exists rep, evalGate env g = Some rep /\ gate_spec rep.
Proof.
  pose proof stableNeed_pos. unfold evalGate. assert (budget 0 (g_Retries g) = max_attempts g) as E by (unfold budget, max_attempts; lia).
  apply gate_loop_ok; [lia | lia | rewrite E; lia | rewrite E; lia | split; [lia | intros i Hi; lia] | lia | done].
Qed.
End Props.

(** ** Sets of gates *)

(** Every required gate passed. *)
Definition all_required (gates : list Gate) (reports : list GateReport) : Prop :=
  Forall2 (fun g rep => is_required g -> gr_Passed rep = true) gates reports.

Lemma failure_none g rep : failure g rep = None <-> (is_required g -> gr_Passed rep = true).
Proof. rewrite <- required_spec. unfold failure. destruct (gr_Passed rep), (required g); simpl; split; intros; try done; naive_solver. Qed.

Lemma runSequential_ok gates : forall reports firstErr,
  exists more e, runSequential gates reports firstErr = Some (reports ++ more, e) /\
    Forall2 (fun x rep => gate_spec x.1.2 x.1.1 rep) gates more /\
    (e = None <-> firstErr = None /\ all_required ((fun x => x.1.1) <$> gates) more /\ Forall (fun x => x.2 = None) gates).
Proof.
  induction gates as [|[[g env] ctx] gates IH]; intros reports firstErr; cbn [runSequential].
  - exists [], firstErr. rewrite app_nil_r. split; [done |]. split; [constructor |].
    split; [intros ->; split_and!; [done | constructor | constructor] | by intros (-> & _)].
  - destruct (evalGate_ok env g) as (rep & -> & Hrep).
    destruct (IH (reports ++ [rep]) (keep_first (keep_first firstErr (failure g rep)) (CtxErr <$> ctx))) as (more & e & -> & Hm & He).
    exists (rep :: more), e. rewrite <- app_assoc. split; [done |]. split; [by constructor |]. rewrite He. clear He IH.
    unfold all_required. rewrite fmap_cons, Forall2_cons, Forall_cons, <- failure_none. simpl.
    destruct firstErr, (failure g rep), ctx; simpl; split; intros; try tauto; destruct_and?; try done; naive_solver.
Qed.

Lemma evaluated gates :
  exists reports, mapM (fun x : Gate * GateEnv => evalGate x.2 x.1) gates = Some reports /\
    Forall2 (fun x rep => gate_spec x.2 x.1 rep) gates reports.
Proof.
  induction gates as [|[g env] gates IH]; [by exists []; split; [|constructor] |].
  destruct IH as (reports & E & H), (evalGate_ok env g) as (rep & Er & Hr). exists (rep :: reports).
  split; [|by constructor]. simpl. rewrite Er. simpl. by rewrite E.
Qed.

Lemma keep_first_none (gates : list (Gate * GateEnv)) (reports : list GateReport) order : forall acc,
  foldl (fun acc i => match gates !! i, reports !! i with
    | Some (g, _), Some rep => keep_first acc (failure g rep) | _, _ => acc end) acc order = None <->
  acc = None /\ forall i g env rep, i ∈ order -> gates !! i = Some (g, env) -> reports !! i = Some rep -> failure g rep = None.
Proof.
  induction order as [|i order IH]; intros acc; cbn [foldl].
  - split; [intros ->; split; [done | by intros ???? ?%elem_of_nil] | by intros [-> _]].
  - rewrite IH. clear IH. destruct (gates !! i) as [[g env]|] eqn:Eg, (reports !! i) as [rep|] eqn:Er; cycle 1.
    1, 2, 3: split; [intros [-> H]; split; [done |]; intros j g' env' rep' [->|Hj]%elem_of_cons ??; [congruence | eauto]
                    | intros [-> H]; split; [done |]; intros j g' env' rep' Hj; apply H; by right].
    split.
    + intros [Hk H]. assert (acc = None /\ failure g rep = None) as [-> Hf] by (destruct acc; [done | split; [done | exact Hk]]).
      split; [done |]. intros j g' env' rep' [->|Hj]%elem_of_cons E1 E2; [congruence | eauto].
    + intros [-> H]. split; [simpl; eapply H; [left | done | done] |]. intros j g' env' rep' Hj. apply H. by right.
Qed.

(** C17: Evaluating gates always ends, within [max(1, StableSuccesses) * (max(0, Retries) + 1)]
    attempts for each gate.  Every report is accurate: a gate is reported as required
    exactly when it is not [Optional], whatever [Required] says; it passed only after
    [StableSuccesses] successes in a row (one when the field is not positive), and failed
    only at the end of the context or after more failures than [Retries].  The verdict is
    that of the gates that are not optional: in parallel, whatever order the gates finish
    in, readiness is reported exactly when every one of them passed; in sequence, exactly
    when in addition the context had not ended after any of the gates. *)
Theorem readiness_verdict gates order :
  (forall i, (i < length gates)%nat -> i ∈ order) ->
  (exists reports e, runParallel (fst <$> gates) order = Some (reports, e) /\
     Forall2 (fun x rep => gate_spec x.1.2 x.1.1 rep) gates reports /\
     (e = None <-> all_required ((fun x => x.1.1) <$> gates) reports)) /\
  (exists reports e, runSequential gates [] None = Some (reports, e) /\
     Forall2 (fun x rep => gate_spec x.1.2 x.1.1 rep) gates reports /\
     (e = None <-> all_required ((fun x => x.1.1) <$> gates) reports /\ Forall (fun x => x.2 = None) gates)).
Proof.
  intros Ho. split.
  - unfold runParallel. destruct (evaluated (fst <$> gates)) as (reports & -> & Hr). eexists reports, _. split; [done |].
    rewrite Forall2_fmap_l in Hr. split; [done |]. rewrite keep_first_none. unfold all_required. rewrite Forall2_fmap_l, Forall2_lookup.
    pose proof (Forall2_length _ _ _ Hr) as Hlen. split.
    + intros [_ H] i. destruct (gates !! i) as [[[g env] ctx]|] eqn:Eg.
      * destruct (lookup_lt_is_Some_2 reports i) as [rep Er]; [rewrite <- Hlen; by eapply lookup_lt_Some |].
        rewrite Er. constructor. change (is_required g -> gr_Passed rep = true). apply failure_none. eapply H; [apply Ho; by eapply lookup_lt_Some | by rewrite list_lookup_fmap, Eg | done].
      * rewrite (proj2 (lookup_ge_None reports i)); [constructor |]. rewrite <- Hlen. by apply lookup_ge_None.
    + intros H. split; [done |]. intros i g env rep _ Eg Er. apply failure_none.
      rewrite list_lookup_fmap in Eg. destruct (gates !! i) as [[[g' env'] ctx]|] eqn:E; simplify_eq/=.
      specialize (H i). rewrite E, Er in H. by inversion H.
  - destruct (runSequential_ok gates [] None) as (more & e & -> & Hm & He). exists more, e. split; [done |]. split; [done |].
    rewrite He. tauto.
Qed.

(** ** Examples *)

Definition flaky (k : Z) : option string := if bool_decide (k = 2) then Some "connection refused" else None.
Definition demo_gate (name : string) (retries stable : Z) : Gate := mkGate name (Some flaky) true false retries stable.
Definition calm : GateEnv := mkGateEnv (fun _ => None) (fun _ => None) 0 (fun k => k).
Definition demo_gates : list (Gate * GateEnv * option ctx_error) :=
  [(demo_gate "db" 1 2, calm, None); (mkGate "cache" (Some flaky) false true 0 3, calm, None)].

(** Two successes in a row, after one retry. *)
Example gate_demo : evalGate calm (demo_gate "db" 1 2) = Some (mkGateReport "db" true true 4 4 "").
Proof. reflexivity. Qed.

Lemma readiness_verdict_witness : exists reports, runParallel (fst <$> demo_gates) [1%nat; 0%nat] = Some (reports, None) /\
  all_required ((fun x => x.1.1) <$> demo_gates) reports.
Proof.
  destruct (readiness_verdict demo_gates [1%nat; 0%nat]) as [(reports & e & E & _ & H) _].
  - intros i Hi. change (length demo_gates) with 2%nat in Hi. destruct i as [|[|i]]; [right; left | left | lia].
  - exists reports. assert (e = None) as ->; [|split; [exact E | by apply H]].
    revert E. vm_compute. by intros [= _ <-].
Defined.

(** With all gates passed and the context over at the end, the sequential mode
    reports an error and the parallel mode does not. *)
Lemma modes_disagree :
  let gates := [(demo_gate "db" 1 2, calm, Some ContextDeadlineExceeded)] in
  (snd <$> runSequential gates [] None, snd <$> runParallel (fst <$> gates) [0%nat]) =
  (Some (Some (CtxErr ContextDeadlineExceeded)), Some None).
Proof. reflexivity. Qed.
